(* ===== verification/_CoqProject ===== *)
-Q . S2P
Prelude.v
Json.v
Utf.v
TextMap.v
TextData.v
TextSchema.v
TextExpr.v
TextNfa.v
TextThompson.v
TextCompile.v
TextCompileSpec.v
TextClosure.v
TextTable.v
TextNew.v
TextGrammar.v
TextNode.v
TextResolved.v
TextReplace.v
TextTokens.v
TextCut.v
TextReplaceSpec.v
TextSlice.v
TextSafe.v
TextTake.v
TextStep.v
TextMarks.v
TextStepSpec.v
TextJson.v
TextJsonSpec.v
TextExample.v
TextClaims.v
Contract.v
BTree.v
Format.v
Live.v
LiveSpec.v
LiveClients.v
Journal.v
Task.v
TaskSpec.v
TaskDue.v
NotesExample.v
LiveClaims.v
TaskClaims.v
Host.v
SheetFormula.v
SheetModel.v
SheetOps.v
SheetApply.v
SheetNames.v
SheetLines.v
SheetReach.v
SheetClaims.v
TextBlocks.v
DocxDiff.v
DocxModel.v
DocxOps.v
DocxApply.v
DocxTouched.v
DocxSchema.v
DocxCompare.v
DocxSettle.v
DocxClaims.v
Terminal.v
Wire.v
WireSpec.v
WireClaims.v
Stream.v
Viewer.v
Connection.v
ConnectionClaims.v
Identity.v
IdentitySpec.v
Pins.v
PinsSpec.v
PinsClaims.v
Subscribers.v
SubscribersClaims.v
Remote.v
RemoteClaims.v
