(* ===== verification/Prelude.v ===== *)
(** Kodosi: a verification library of its live documents and its shared terminals.

    A host keeps one task for each open file.  Views of the file (people and agents) send
    changes over pipes; the document puts them in one order, tells every view, keeps each of
    them in a journal before anyone hears of it, and saves the file.  A host also shows its
    terminals on other computers: a stream for each viewer sends a snapshot and then the
    output, as fast as the link takes it, and takes what the viewer types; the other computer
    keeps that terminal for its own views.  An account trusts devices by certificates and lists
    that its devices sign.  Paths of documents are here under [src/documents/crates] of the repository, and those of terminals, which
    start with [runtime], under [src].

    * The parts, from the bottom

    - Tree text, [text/src]: the immutable trees of rich text, after ProseMirror.
      [TextData], [TextNode] ([node.rs]: nodes, marks, fragments, slices), [TextMap]
      ([map.rs]: step maps), [TextSchema], [TextExpr], [TextNfa], [TextCompile]
      ([schema.rs]: what a schema is asked, the parser of content expressions, the automaton
      and the table of match states, [Schema::new]), [TextResolved] ([resolved.rs]),
      [TextReplace] ([replace.rs]), [TextStep] ([step.rs]), [TextJson] (the JSON forms of
      [node.rs] and [step.rs]).  [Utf] is UTF-16 text and [Json] the values of serde_json.
    - The contract, [document/src/contract.rs]: [Contract] (messages and frames).
    - A kind of file, [document/src/format.rs]: [Format] is the trait as a class, and
      [FormatLaws] is what a document relies on.
    - The document, [document/src/live.rs]: [Live]; [Live.step] takes an input and gives
      effects.  [BTree] is the map of its seats.
    - The journal, [documents/src/journal.rs]: [Journal].
    - The task, [documents/src/task.rs]: [Task] runs the effects of one document, with its
      timers, its pipes and its file.
    - The host, [documents/src/lib.rs] and [live.rs]: [Host], the open documents and the calls
      of [open] that run side by side.
    - Spreadsheets, [xlsx/src]: [SheetFormula] ([formula.rs]: names of cells, references of
      formulas, lines that move), [SheetModel] ([model.rs]), [SheetOps] ([ops.rs]: what an
      agent means, as changes), [SheetApply] ([apply.rs]: a change goes in, and what turns one
      workbook into another; [place.rs]).
    - Word documents, [docx/src]: [DocxModel] ([model.rs]), [DocxSchema] ([schema.json]),
      [DocxOps] ([ops.rs]: what an agent means, as steps of the tree text), [DocxDiff] and
      [DocxApply] ([apply.rs]: which blocks two files keep, a change goes in, and what turns one
      file into another; [place.rs]).
    - Terminal data, [runtime/src/terminal], [canvas], [agents]: [Terminal], what goes over the
      wire and when it is valid.
    - The wire, [runtime/src/network/wire]: [Terminal] ([packing.rs], over flate2) and [Wire]
      ([frame.rs], [wire.rs] and the receiving side of [terminal_connections/channel.rs]).
    - The host's side of a viewer, [runtime/src/network/terminal_connections/host.rs]: [Stream];
      [Stream.serve_step] is an arm of [serve].  The viewer's side, [participant.rs]: [Viewer].
      [Connection] is the two together, with the terminal and the frames on the way.
    - The views on a computer, [runtime/src/terminal/subscribers.rs]: [Subscribers], the queues
      of the views of a terminal, both ends.  Its operations are those of [Subscribers] and
      [Subscription]; [Subscribers.recv] is the loop of [recv].
    - A terminal of another computer, [runtime/src/terminal/remote.rs]: [Remote], the actor
      between the updates of [Viewer] and [Subscribers]; [Remote.turn] is a turn of [run], with
      [prepare] and [arm] for [step].
    - Trust, [runtime/src/identity]: [Identity] ([wire_codec.rs], [device_cert.rs],
      [signed_device_list.rs]: the bodies that devices sign) and [Pins] ([pins.rs]: what is
      checked of an account, and what is kept of it).

    * What the theorems show

    - Tree text ([TextClaims], by way of [TextTokens]: a document as the sequence of its
      tokens).  [replace] puts a slice in the place of a range, never panics on well-formed
      input and can be taken back; each step does to the tokens what it says and its step map
      follows them; slices hold their range; mark sets stay ordered.
    - Schemas ([TextClaims]).  [Schema::new] gives a schema or an error, and every id in the
      schema is in range ([TextNew]); the text of a content expression spells one expression by
      a grammar ([TextGrammar]), and the compiled rule accepts exactly its language
      ([TextThompson], [TextClosure], [TextTable], [TextNew]), for expressions that are tame
      ([TextTame]); and what goes wrong with those that are not.
    - JSON of trees ([TextClaims]): round trips both ways, and nothing malformed is read.
    - Documents ([LiveClaims]).  [Live.step] refines the order machine of [LiveSpec]; the order
      has no gap and no change twice; a journal makes the document again ([LiveSpec]: of the
      documents that are [journaled]), also after a crash that cuts it ([Journal]); a client that comes back gets exactly what it
      missed; readers change nothing ([LiveClients]).
    - Tasks ([TaskClaims]).  No view hears of a change that is not safe ([TaskSpec]); what
      is not saved has a deadline and is in the file after it ([TaskDue]); a send ends
      ([TaskSpec]); a save is whole or not at all.
    - The host ([Host]): one task for each file, whatever the order of the steps.
    - Spreadsheets ([SheetClaims]).  The changes between two workbooks go in and make the other
      one, but for sizes that it has not and for new looks ([SheetReach]); lines that were put in come out again, and no formula
      or range stops that ([SheetLines]); a range is where its lines
      are ([SheetNames]); a change goes in again as it did ([SheetReach]).  [SheetClaims]
      also runs what goes wrong.
    - Word documents ([DocxClaims]).  An agent's ops go in only when the blocks that they name are
      as it read them ([DocxTouched], over [TextBlocks]: the blocks of a document as its tokens
      end them); what another program wrote goes in block by block and makes its file
      ([DocxCompare], over [TextBlocks]: a change of whole blocks), and what stays is as
      much as can ([DocxDiff]); tracked changes are settled exactly ([DocxSettle]).
      [DocxClaims] also runs what goes wrong.
    - The wire ([WireClaims], over [WireSpec]).  Frames come back from the channel however the
      network cuts their bytes; no bytes make the reader panic, and what it gives is within its
      bounds; the size of a frame tells little of what it holds; snapshots come back from their
      parts; unpacking ends.
    - Connections ([ConnectionClaims]).  In every run of the terminal, the host, the network and
      the viewer, the viewer shows snapshots and after each of them what the terminal published,
      without a gap and nothing twice, and all of it when nothing waits; and what is typed
      arrives once, in order and in bounds.  The runs are those in which no more waits than a
      turn of the host takes ([Connection.allowed]); with more the host loses one thing.  [Connection] says of each operation what it leaves
      alone: [typist] and [calm] for the host, [quiet] and [still] for the viewer.
    - Views ([SubscribersClaims]).  A view gets the history of its terminal, item by item or by
      snapshots, up to the first output that its [recv] took although a control that goes before
      it came between the two looks of the loop; and a view that fell behind catches up.  Looks
      that are late and views that ask for the screen are steps like the others; a look may be
      late at any time, so there are more runs than the code has.
    - A terminal of another computer ([RemoteClaims]).  The turns of the actor refine the steps
      of the room of [SubscribersClaims], so its views follow the terminal through connections
      that are lost, paused or start again; and what is typed goes out once and in order.
    - Trust ([PinsClaims], over [IdentitySpec] and [PinsSpec]).  Devices that are accepted trace
      to the root of the account; while the person neither forgets the account nor approves
      another root, what is kept of it moves forward only and a device that was removed does not
      come back; a newer list is endorsed by one that was trusted, or has a root that was just
      approved; an identity that was just made is accepted; and the checks end ([PinsSpec]).

    The claims of documents and tasks are proved for every format that keeps [FormatLaws];
    [NotesExample] is the format of the repository's own tests, on which their witnesses run.
    The changes of spreadsheets do not keep one of the laws, that a change reads back from its
    JSON: what empties a cell reads as nothing.

    * Numbers, panics and bounds

    An index out of range and an integer overflow panic, so both are [Panic] in a [Result],
    apart from the errors of the code.  Positions of tree text are [nat] with the bound of a
    [usize] checked at each operation that can pass it; revs and clocks are [N].  Recursion
    that is not structural has fuel, each with a theorem that it is enough: the parser of
    content expressions has one level for each token ([TextThompson]), the scan of the automaton
    its number of nodes ([TextClosure]), the table one round for each set of nodes
    ([TextTable]), the levels of JSON are the code's own [MOST_DEPTH], the loop of the journal
    has the length of its file ([Journal]), a send the number of seats ([TaskSpec]), the
    walk over a formula its length ([SheetNames]), packing what its input packs into and
    unpacking its input and its limit ([Terminal]), the chunks of an output frame their most
    ([Wire]), draining a stream what waits in it ([Stream]), a [recv] what waits in its queues
    ([SubscribersClaims]), and the walk along signers one turn more than the certificates
    ([PinsSpec]).  Rows and columns are [N] below 2^32; a
    number has at most ten digits and a column seven letters ([SheetNames]).

    * What is not modelled

    serde_json, flate2, SHA-256 and the operating system are parameters: the classes [Serde],
    [Gzip], [Flate], [Digest], [Sha256], [Uuids], [Signatures] and [Base64], the outcome [Disk] of a
    write of the pins, the [World] of a task and the [Answers] and [World] of a connection and of
    an actor, whose answers are any.  The history of a terminal and which snapshots show it are
    arguments of the theorems on views.  A queue of tokio is the list of what waits in it.  TLS is not modelled: [Wire.Channel] has what it
    decrypts.  The speed of a link, a floating-point number, is not: the window of a stream is
    an argument of its steps.  Which
    characters past ASCII are letters is the class [Unicode].  Of spreadsheets, the reader and
    writer of files, the values of formulas, snapshots and answers are left out; of Word
    documents, the reader and writer of files and the guide; so are pptx, pdf and the packages
    that files are written in.  Of [src/runtime] the rooms and their keys, the keys, friends, recovery and
    sign-in of an account, the processes of a terminal and its emulator, the windows of the
    canvas and the agents are left out, and so are the backend, the browser and the clients. *)

From stdpp Require Export prelude strings list gmap pretty.

(** * Outcomes

    A Rust call returns a value, returns an error, or panics.  A panic is an
    index out of range or an integer operation out of range: the release
    profile of [runtime/Cargo.toml] sets [overflow-checks = true], so integer
    overflow panics in every build.  A panic unwinds to the task that runs the
    call and is kept apart from the errors that the code returns. *)

Inductive Result (E A : Type) : Type :=
| Ok (a : A)
| Err (e : E)
| Panic.
Arguments Ok {E A} a.
Arguments Err {E A} e.
Arguments Panic {E A}.

#[export] Instance Result_ret {E} : MRet (Result E) := fun A a => Ok a.
#[export] Instance Result_bind {E} : MBind (Result E) := fun A B f r =>
  match r with Ok a => f a | Err e => Err e | Panic => Panic end.
#[export] Instance Result_fmap {E} : FMap (Result E) := fun A B f r =>
  match r with Ok a => Ok (f a) | Err e => Err e | Panic => Panic end.

#[export] Instance Result_eq_dec {E A} `{EqDecision E, EqDecision A} :
  EqDecision (Result E A).
Proof. solve_decision. Defined.

(** [Option::ok_or] and [Vec] indexing. *)
Definition ok_or {E A} (e : E) (o : option A) : Result E A :=
  match o with Some a => Ok a | None => Err e end.
Definition or_panic {E A} (o : option A) : Result E A :=
  match o with Some a => Ok a | None => Panic end.

(** A call that does not panic. *)
Definition safe {E A} (r : Result E A) : Prop :=
  match r with Panic => False | _ => True end.

Section result.
Context {E : Type}.

Lemma bind_ok {A B} (r : Result E A) (f : A -> Result E B) b :
(r ≫= f) = Ok b <-> exists a, r = Ok a /\ f a = Ok b.
Proof.
destruct r as [a|e|]; simpl; split.
- eauto.
- by intros (a' & [= ->] & ?).
- done.
- by intros (a' & ? & ?).
- done.
- by intros (a' & ? & ?).
Qed.

Lemma fmap_ok {A B} (r : Result E A) (f : A -> B) b :
(f <$> r) = Ok b <-> exists a, r = Ok a /\ f a = b.
Proof.
destruct r; simpl; split; try done.
- intros [= <-]. eauto.
- by intros (a' & [= ->] & <-).
- by intros (a' & ? & ?).
- by intros (a' & ? & ?).
Qed.

Lemma safe_ok {A} (a : A) : safe (Ok a : Result E A).
Proof. exact I. Qed.

Lemma safe_err {A} (e : E) : safe (Err e : Result E A).
Proof. exact I. Qed.

Lemma safe_bind {A B} (r : Result E A) (f : A -> Result E B) :
safe r -> (forall a, r = Ok a -> safe (f a)) -> safe (r ≫= f).
Proof. destruct r; simpl; naive_solver. Qed.

Lemma safe_fmap {A B} (r : Result E A) (f : A -> B) : safe r -> safe (f <$> r).
Proof. by destruct r. Qed.

Lemma ok_or_ok {A} (e : E) (o : option A) a :
ok_or e o = Ok a <-> o = Some a.
Proof. destruct o; simpl; naive_solver. Qed.

Lemma safe_ok_or {A} (e : E) (o : option A) : safe (ok_or e o).
Proof. destruct o; exact I. Qed.

Lemma or_panic_ok {A} (o : option A) a :
(or_panic o : Result E A) = Ok a <-> o = Some a.
Proof. destruct o; simpl; naive_solver. Qed.

Lemma safe_or_panic {A} (o : option A) :
is_Some o -> safe (or_panic o : Result E A).
Proof. intros [a ->]. exact I. Qed.
End result.

(** [mapM] over a list, in order, stopping at the first error, as [collect]
    into a [Result] does. *)
Fixpoint try_map {E A B} (f : A -> Result E B) (l : list A) : Result E (list B) :=
  match l with
  | [] => Ok []
  | x :: l => y ← f x; ys ← try_map f l; Ok (y :: ys)
  end.

(** * [usize]

    A [usize] is a [nat].  Sizes of trees in memory are far below [2^64] and are
    exact.  Where a number that a client chose takes part, the operation is
    checked as the build checks it. *)

Definition USIZE : N := 18446744073709551616.

Definition uadd {E} (a b : nat) : Result E nat :=
  if (N.of_nat a + N.of_nat b <? USIZE)%N then Ok (a + b) else Panic.
Definition usub {E} (a b : nat) : Result E nat :=
  if b <=? a then Ok (a - b) else Panic.

Lemma uadd_ok {E} a b c :
  (uadd a b : Result E nat) = Ok c <-> c = a + b /\ (N.of_nat (a + b) < USIZE)%N.
Proof.
  unfold uadd. destruct (N.ltb_spec (N.of_nat a + N.of_nat b) USIZE);
    (split; [intros [= <-]|intros [-> ?]]); first [done | lia | split; [done|lia]].
Qed.

Lemma usub_ok {E} a b c :
  (usub a b : Result E nat) = Ok c <-> c = a - b /\ b <= a.
Proof.
  unfold usub. destruct (Nat.leb_spec b a);
    (split; [intros [= <-]|intros [-> ?]]); first [done | lia | split; [done|lia]].
Qed.

Lemma usub_le {E} a b : b <= a -> (usub a b : Result E nat) = Ok (a - b).
Proof. intros. by apply usub_ok. Qed.

Lemma safe_usub {E} a b : b <= a -> safe (usub a b : Result E nat).
Proof. intros. by rewrite usub_le. Qed.

Lemma safe_uadd {E} a b :
  (N.of_nat (a + b) < USIZE)%N -> safe (uadd a b : Result E nat).
Proof.
  intros H. unfold uadd. destruct (N.ltb_spec (N.of_nat a + N.of_nat b) USIZE);
    [done|lia].
Qed.

(** * Structural descent into the child at an index

    [with_nth f l i] applies [f] to the element at index [i].  Recursion through
    it is structural, so a loop that goes down a tree needs no fuel. *)
Section with_nth.
Context {A B : Type} (f : A -> B).
Fixpoint with_nth (l : list A) (i : nat) : option B :=
match l, i with
| [], _ => None
| x :: _, O => Some (f x)
| _ :: l, S i => with_nth l i
end.
End with_nth.

Lemma with_nth_lookup {A B} (f : A -> B) (l : list A) (i : nat) :
  with_nth f l i = f <$> l !! i.
Proof. revert i. induction l as [|x l IH]; intros [|i]; simpl; auto. Qed.

(** * Lists *)

Lemma take_drop_split {A} (l : list A) i x :
  l !! i = Some x -> l = take i l ++ x :: drop (S i) l.
Proof. intros H. by rewrite take_drop_middle. Qed.

Lemma sum_list_with_lookup {A} (f : A -> nat) (l : list A) i x :
  l !! i = Some x ->
  sum_list_with f l = sum_list_with f (take i l) + f x + sum_list_with f (drop (S i) l).
Proof.
  intros H. rewrite (take_drop_split l i x H) at 1.
  rewrite sum_list_with_app. simpl. lia.
Qed.

Lemma flat_map_app' {A B} (f : A -> list B) (l1 l2 : list A) :
  flat_map f (l1 ++ l2) = flat_map f l1 ++ flat_map f l2.
Proof. apply flat_map_app. Qed.

Lemma take_app_exact {A} (l1 l2 : list A) n :
  n = length l1 -> take n (l1 ++ l2) = l1.
Proof. intros ->. apply take_app_length. Qed.

Lemma drop_app_exact {A} (l1 l2 : list A) n :
  n = length l1 -> drop n (l1 ++ l2) = l2.
Proof. intros ->. apply drop_app_length. Qed.

(** * Bytes *)

Abbreviation bytes := (list Byte.byte).

#[export] Instance byte_eq_dec : EqDecision Byte.byte := Byte.byte_eq_dec.
#[export] Instance byte_countable : Countable Byte.byte.
Proof.
  apply (inj_countable Byte.to_N Byte.of_N). apply Byte.of_to_N.
Defined.

(** The length of a sequence as the [u64] or [usize] that the code compares. *)
Definition len {A} (l : list A) : N := N.of_nat (length l).

(** [split_at_checked]. *)
Definition split_at {A} (n : nat) (l : list A) : option (list A * list A) :=
  if n <=? length l then Some (take n l, drop n l) else None.

Lemma split_at_app {A} (a b : list A) n : length a = n -> split_at n (a ++ b) = Some (a, b).
Proof.
  intros <-. unfold split_at. rewrite length_app, (proj2 (Nat.leb_le _ _)) by lia.
  by rewrite take_app_length, drop_app_length.
Qed.

(** The same with a length that was read, compared before it is used. *)
Definition split_len {A} (n : N) (l : list A) : option (list A * list A) :=
  if (n <=? len l)%N then Some (take (N.to_nat n) l, drop (N.to_nat n) l) else None.

Lemma split_len_app {A} (a b : list A) n : len a = n -> split_len n (a ++ b) = Some (a, b).
Proof.
  intros <-. unfold split_len, len. rewrite length_app, (proj2 (N.leb_le _ _)) by lia.
  by rewrite Nat2N.id, take_app_length, drop_app_length.
Qed.

Lemma split_len_none {A} (l : list A) n : (len l < n)%N -> split_len n l = None.
Proof. intros Hl. unfold split_len. by rewrite (proj2 (N.leb_gt _ _)). Qed.

(** * Automation *)

Create HintDb kodosi.
#[export] Hint Resolve safe_ok safe_err safe_ok_or safe_usub : kodosi.

(** Inverts the hypotheses that say a computation returned [Ok]. *)
Ltac inv_ok :=
  repeat match goal with
  | H : Ok _ = Ok _ |- _ => injection H; clear H; intros; try subst
  | H : Err _ = Ok _ |- _ => discriminate H
  | H : Panic = Ok _ |- _ => discriminate H
  | H : (_ ≫= _) = Ok _ |- _ =>
      let a := fresh "a" in let E := fresh "E" in
      apply bind_ok in H; destruct H as (a & E & H)
  | H : (_ <$> _) = Ok _ |- _ =>
      let a := fresh "a" in let E := fresh "E" in
      apply fmap_ok in H; destruct H as (a & E & H)
  | H : ok_or _ _ = Ok _ |- _ => apply ok_or_ok in H
  | H : or_panic _ = Ok _ |- _ => apply or_panic_ok in H
  | H : usub _ _ = Ok _ |- _ => apply usub_ok in H; destruct H as [? ?]; subst
  | H : uadd _ _ = Ok _ |- _ => apply uadd_ok in H; destruct H as [? ?]; subst
  end.

(** Case analysis on the boolean comparisons of the code. *)
Ltac case_bool :=
  match goal with
  | |- context [?a <=? ?b] => destruct (Nat.leb_spec a b)
  | |- context [?a <? ?b] => destruct (Nat.ltb_spec a b)
  | |- context [?a =? ?b] => destruct (Nat.eqb_spec a b)
  | H : context [?a <=? ?b] |- _ => destruct (Nat.leb_spec a b)
  | H : context [?a <? ?b] |- _ => destruct (Nat.ltb_spec a b)
  | H : context [?a =? ?b] |- _ => destruct (Nat.eqb_spec a b)
  end.
