(* ===== verification/Json.v ===== *)
(** The JSON values of [serde_json] that the documents crates keep and send.

    [Map<String, Value>] is a [BTreeMap] (the crate's [preserve_order] feature is
    off), so a map is the list of its entries in the order of their keys, and two
    maps are equal when these lists are.  A number keeps the form in which
    [serde_json] holds it; a float is its 64 bits. *)

From S2P Require Import Prelude.

Inductive Number : Type :=
| PosInt (n : N)
| NegInt (z : Z)
| Float (bits : N).

#[export] Instance Number_eq_dec : EqDecision Number.
Proof. solve_decision. Defined.

Inductive Value : Type :=
| Null
| Bool (b : bool)
| Num (n : Number)
| Str (s : string)
| Array (l : list Value)
| Object (m : list (string * Value)).

Definition Value_eq_dec_aux : forall x y : Value, Decision (x = y).
Proof.
  refine (fix go (x y : Value) {struct x} : Decision (x = y) :=
    match x, y with
    | Null, Null => left eq_refl
    | Bool a, Bool b => cast_if (decide (a = b))
    | Num a, Num b => cast_if (decide (a = b))
    | Str a, Str b => cast_if (decide (a = b))
    | Array a, Array b => cast_if (@list_eq_dec _ go a b)
    | Object a, Object b =>
        cast_if (@list_eq_dec _ (@prod_eq_dec _ _ _ go) a b)
    | _, _ => right _
    end); try congruence; try (intros ?; congruence).
Defined.
#[export] Instance Value_eq_dec : EqDecision Value := Value_eq_dec_aux.

Module Map.
(** The entries of an object, in the order of their keys. *)
Abbreviation t := (list (string * Value)).

Section ops.
Context {V : Type}.

(** [BTreeMap::get]. *)
Fixpoint get (key : string) (m : list (string * V)) : option V :=
match m with
| [] => None
| (k, v) :: m => if decide (k = key) then Some v else get key m
end.

(** [BTreeMap::insert]: the value of a key that is there is replaced. *)
Fixpoint insert (key : string) (value : V) (m : list (string * V)) : list (string * V) :=
match m with
| [] => [(key, value)]
| (k, v) :: m' =>
match String.compare key k with
| Lt => (key, value) :: m
| Eq => (key, value) :: m'
| Gt => (k, v) :: insert key value m'
end
end.

(** The keys are in strictly increasing order. *)
Fixpoint sorted_from (low : option string) (m : list (string * V)) : bool :=
match m with
| [] => true
| (k, _) :: m =>
match low with
| None => true
| Some l => match String.compare l k with Lt => true | _ => false end
end && sorted_from (Some k) m
end.
Definition sorted (m : list (string * V)) : bool := sorted_from None m.
End ops.
End Map.

Module ValueOps.
(** [Value::get] with a key. *)
Definition get (key : string) (v : Value) : option Value :=
match v with Object m => Map.get key m | _ => None end.

(** [value["key"]]: [Null] when it is not there. *)
Definition index (v : Value) (key : string) : Value :=
default Null (get key v).

Definition as_str (v : Value) : option string :=
match v with Str s => Some s | _ => None end.
Definition as_bool (v : Value) : option bool :=
match v with Bool b => Some b | _ => None end.
Definition as_u64 (v : Value) : option N :=
match v with Num (PosInt n) => Some n | _ => None end.
Definition is_null (v : Value) : bool :=
match v with Null => true | _ => false end.
End ValueOps.

(** [json!] of an object: its entries go in the map one by one. *)
Definition object (entries : list (string * Value)) : Value :=
  Object (foldl (fun m '(k, v) => Map.insert k v m) [] entries).

(** * Text *)

(** [serde_json::to_vec] and [from_slice] at one type. *)
Class Serde (T : Type) : Type := {
  to_vec : T -> option bytes;
  from_slice : bytes -> option T
}.

Class SerdeLaws (T : Type) `{Serde T} : Prop :=
  from_to : forall t text, to_vec t = Some text -> from_slice text = Some t.

(** * Facts of sorted maps *)

Lemma compare_lt_trans (a b c : string) :
  String.compare a b = Lt -> String.compare b c = Lt -> String.compare a c = Lt.
Proof.
  revert b c. induction a as [|x a IH]; intros [|y b] [|z c]; simpl; try done.
  unfold Ascii.compare.
  destruct (N.compare_spec (Ascii.N_of_ascii x) (Ascii.N_of_ascii y)) as [E1|L1|];
    destruct (N.compare_spec (Ascii.N_of_ascii y) (Ascii.N_of_ascii z)) as [E2|L2|];
    try done; intros H1 H2.
  - rewrite E1, E2, N.compare_refl. eauto.
  - rewrite E1. by apply N.compare_lt_iff in L2 as ->.
  - rewrite <- E2. by apply N.compare_lt_iff in L1 as ->.
  - assert (L : (Ascii.N_of_ascii x < Ascii.N_of_ascii z)%N) by lia.
    by apply N.compare_lt_iff in L as ->.
Qed.

Lemma compare_refl (a : string) : String.compare a a = Eq.
Proof.
  induction a as [|x a IH]; [done|]. simpl. unfold Ascii.compare.
  by rewrite N.compare_refl.
Qed.

Lemma compare_gt (a b : string) : String.compare a b = Gt -> String.compare b a = Lt.
Proof. intros H. rewrite String.compare_antisym, H. done. Qed.

Lemma map_get_insert_eq {V} key (v : V) m : Map.get key (Map.insert key v m) = Some v.
Proof.
  induction m as [|[k w] m IH]; simpl.
  - by rewrite decide_True.
  - destruct (String.compare key k) eqn:E; simpl; try by rewrite decide_True.
    rewrite decide_False; [done|]. intros ->. by rewrite compare_refl in E.
Qed.

Lemma map_get_insert_ne {V} key key' (v : V) m :
  key <> key' -> Map.get key' (Map.insert key v m) = Map.get key' m.
Proof.
  intros Hne. induction m as [|[k w] m IH]; simpl.
  - by rewrite decide_False.
  - destruct (String.compare key k) eqn:E; simpl.
    + apply String.compare_eq_iff in E as ->.
      by rewrite !decide_False.
    + by rewrite (decide_False (P := key = key')).
    + by rewrite IH.
Qed.

Lemma insert_sorted_from {V} low key (v : V) m :
  match low with None => True | Some l => String.compare l key = Lt end ->
  Map.sorted_from low m = true -> Map.sorted_from low (Map.insert key v m) = true.
Proof.
  revert low. induction m as [|[k w] m IH]; intros low Hlow; simpl.
  - destruct low; [by rewrite Hlow|done].
  - intros [Hk Hm]%andb_true_iff.
    destruct (String.compare key k) eqn:E; simpl.
    + apply String.compare_eq_iff in E as ->. by rewrite Hk, Hm.
    + rewrite E, Hm. destruct low; [by rewrite Hlow|done].
    + rewrite Hk. simpl. apply IH; [by apply compare_gt|done].
Qed.
