(* ===== verification/Utf.v ===== *)
(** The text of the standard library: a [String] holds the UTF-8 bytes of its characters,
    and [encode_utf16] and [from_utf16_lossy] go to UTF-16 units and back.

    A [string] of the model is a list of bytes, and a character is its code point. *)

From S2P Require Import Prelude.
Open Scope N_scope.

(** ** UTF-8 *)

Definition byte_char (n : N) : Ascii.ascii := Ascii.ascii_of_N n.

(** The bytes of one character. *)
Definition of_char (c : N) : list N :=
  if c <? 128 then [c]
  else if c <? 2048 then [192 + c / 64; 128 + c mod 64]
  else if c <? 65536 then [224 + c / 4096; 128 + c / 64 mod 64; 128 + c mod 64]
  else [240 + c / 262144; 128 + c / 4096 mod 64; 128 + c / 64 mod 64; 128 + c mod 64].

Fixpoint of_bytes (l : list N) : string :=
  match l with [] => EmptyString | b :: l => String (byte_char b) (of_bytes l) end.

(** [String::from_iter] of characters. *)
Definition of_chars (l : list N) : string := of_bytes (flat_map of_char l).

Definition tail_bits (a : Ascii.ascii) : N := Ascii.N_of_ascii a - 128.

(** [str::chars], of bytes that are UTF-8, as those of each [str] are. *)
Fixpoint chars (s : string) : list N :=
  match s with
  | EmptyString => []
  | String a s1 =>
      let b := Ascii.N_of_ascii a in
      if b <? 128 then b :: chars s1
      else if b <? 224 then
        match s1 with
        | String x s2 => ((b - 192) * 64 + tail_bits x) :: chars s2
        | _ => []
        end
      else if b <? 240 then
        match s1 with
        | String x (String y s3) => ((b - 224) * 4096 + tail_bits x * 64 + tail_bits y) :: chars s3
        | _ => []
        end
      else
        match s1 with
        | String x (String y (String z s4)) =>
            ((b - 240) * 262144 + tail_bits x * 4096 + tail_bits y * 64 + tail_bits z) :: chars s4
        | _ => []
        end
  end.

(** A code point that is a character: no half of a pair of UTF-16. *)
Definition scalar (c : N) : bool := (c <? 1114112) && negb ((55296 <=? c) && (c <? 57344)).

Lemma byte_char_N n : n < 256 -> Ascii.N_of_ascii (byte_char n) = n.
Proof. apply Ascii.N_ascii_embedding. Qed.

Lemma tail_bits_char n : n < 64 -> tail_bits (byte_char (128 + n)) = n.
Proof. intros H. unfold tail_bits. rewrite byte_char_N by lia. lia. Qed.

(** A comparison with a bound, when [lia] knows its side. *)
Ltac below x n := destruct (N.ltb_spec x n); [|lia].
Ltac above x n := destruct (N.ltb_spec x n); [lia|].

Lemma chars_of_bytes_char c l : c < 1114112 -> chars (of_bytes (of_char c ++ l)) = c :: chars (of_bytes l).
Proof.
  intros Hc. pose proof (N.mod_lt c 64 ltac:(lia)) as M0. pose proof (N.mod_lt (c / 64) 64 ltac:(lia)) as M1.
  pose proof (N.mod_lt (c / 4096) 64 ltac:(lia)) as M2.
  pose proof (N.div_mod c 64 ltac:(lia)) as D0. pose proof (N.div_mod (c / 64) 64 ltac:(lia)) as D1.
  pose proof (N.div_mod (c / 4096) 64 ltac:(lia)) as D2.
  rewrite N.Div0.div_div in D1, D2. change (64 * 64) with 4096 in D1. change (4096 * 64) with 262144 in D2.
  unfold of_char. revert M0 M1 M2 D0 D1 D2.
  generalize (c mod 64) (c / 64) (c / 64 mod 64) (c / 4096) (c / 4096 mod 64) (c / 262144).
  intros r0 q0 r1 q1 r2 q2 M0 M1 M2 D0 D1 D2.
  destruct (N.ltb_spec c 128) as [H1|H1]; [|destruct (N.ltb_spec c 2048) as [H2|H2];
    [|destruct (N.ltb_spec c 65536) as [H3|H3]]]; cbn [app of_bytes chars].
  - rewrite byte_char_N by lia. below c 128. done.
  - rewrite byte_char_N by lia. above (192 + q0) 128. below (192 + q0) 224.
    rewrite tail_bits_char by lia. f_equal. lia.
  - rewrite byte_char_N by lia. above (224 + q1) 128. above (224 + q1) 224. below (224 + q1) 240.
    rewrite !tail_bits_char by lia. f_equal. lia.
  - rewrite byte_char_N by lia. above (240 + q2) 128. above (240 + q2) 224.
    above (240 + q2) 240. rewrite !tail_bits_char by lia. f_equal. lia.
Qed.

Lemma chars_of_chars l : Forall (fun c => c < 1114112) l -> chars (of_chars l) = l.
Proof.
  induction 1 as [|c l Hc Hl IH]; [done|]. unfold of_chars in *. cbn [flat_map].
  rewrite chars_of_bytes_char by done. by rewrite IH.
Qed.

(** ** UTF-16 *)

Definition encode_utf16 (l : list N) : list N :=
  flat_map (fun c => if c <? 65536 then [c] else [55296 + (c - 65536) / 1024; 56320 + (c - 65536) mod 1024]) l.

Definition high (u : N) : bool := (55296 <=? u) && (u <? 56320).
Definition low (u : N) : bool := (56320 <=? u) && (u <? 57344).

(** [String::from_utf16_lossy]: a half without its other half becomes U+FFFD. *)
Fixpoint from_utf16_lossy (l : list N) : list N :=
  match l with
  | [] => []
  | u :: l1 =>
      if high u then
        match l1 with
        | v :: l2 => if low v then (65536 + (u - 55296) * 1024 + (v - 56320)) :: from_utf16_lossy l2
                     else 65533 :: from_utf16_lossy l1
        | [] => [65533]
        end
      else if low u then 65533 :: from_utf16_lossy l1
      else u :: from_utf16_lossy l1
  end.

(** Units whose halves are in pairs. *)
Fixpoint paired (l : list N) : bool :=
  match l with
  | [] => true
  | u :: l1 =>
      (u <? 65536) &&
      (if high u then match l1 with v :: l2 => low v && paired l2 | [] => false end
       else negb (low u) && paired l1)
  end.

Lemma lossy_paired_aux n l : (length l <= n)%nat -> paired l = true ->
  encode_utf16 (from_utf16_lossy l) = l /\ Forall (fun c => c < 1114112) (from_utf16_lossy l).
Proof.
  revert l. induction n as [|n IH]; intros [|u l] Hn; try done; simpl in Hn; [lia|].
  cbn [paired from_utf16_lossy]. intros [Hu%N.ltb_lt Hp]%andb_true_iff. unfold high, low in *.
  destruct (_ && _) eqn:Eh.
  - apply andb_true_iff in Eh as [E1%N.leb_le E2%N.ltb_lt]. destruct l as [|v l]; [done|].
    apply andb_true_iff in Hp as [Hv Hp]. rewrite Hv. apply andb_true_iff in Hv as [E3%N.leb_le E4%N.ltb_lt].
    destruct (IH l) as [IH1 IH2]; [simpl in *; lia|done|]. split; [|constructor; [lia|done]].
    unfold encode_utf16 in *. cbn [flat_map]. rewrite IH1, (proj2 (N.ltb_ge _ _)) by lia. cbn [app].
    assert (E : 65536 + (u - 55296) * 1024 + (v - 56320) - 65536 = (v - 56320) + (u - 55296) * 1024) by lia.
    rewrite E, N.div_add, N.div_small, N.Div0.mod_add, N.mod_small by lia. f_equal; [lia|f_equal; lia].
  - apply andb_true_iff in Hp as [Hl%negb_true_iff Hp]. rewrite Hl. destruct (IH l) as [IH1 IH2]; [lia|done|].
    split; [|constructor; [lia|done]]. unfold encode_utf16 in *. cbn [flat_map]. by rewrite IH1, (proj2 (N.ltb_lt _ _) Hu).
Qed.

(** Units in pairs come back from their text. *)
Lemma units_round_trip l : paired l = true -> encode_utf16 (chars (of_chars (from_utf16_lossy l))) = l.
Proof. intros Hp. destruct (lossy_paired_aux (length l) l) as [E Hf]; [lia|done|]. by rewrite chars_of_chars. Qed.

(** ** Characters *)

(** [char::is_whitespace]. *)
Definition is_whitespace (c : N) : bool :=
  (9 <=? c) && (c <=? 13) || (8192 <=? c) && (c <=? 8202) ||
  existsb (N.eqb c) [32; 133; 160; 5760; 8232; 8233; 8239; 8287; 12288].

Definition is_digit (c : N) : bool := (48 <=? c) && (c <=? 57).
Definition is_ascii_alphanumeric (c : N) : bool :=
  is_digit c || (65 <=? c) && (c <=? 90) || (97 <=? c) && (c <=? 122).

(** [str::split_whitespace]. *)
Fixpoint split_words (l : list N) (word : list N) : list string :=
  match l with
  | [] => match word with [] => [] | _ => [of_chars word] end
  | c :: l =>
      if is_whitespace c then match word with [] => split_words l [] | _ => of_chars word :: split_words l [] end
      else split_words l (word ++ [c])
  end.
Definition split_whitespace (s : string) : list string := split_words (chars s) [].

(** [str::split] at a space: there is one more part than spaces. *)
Fixpoint split_spaces (l : list N) (word : list N) : list string :=
  match l with
  | [] => [of_chars word]
  | c :: l => if c =? 32 then of_chars word :: split_spaces l [] else split_spaces l (word ++ [c])
  end.
Definition split_space (s : string) : list string := split_spaces (chars s) [].

(** [str::parse] to a [usize]: digits, after a plus sign or not, that fit in 64 bits. *)
Fixpoint digits (l : list N) (n : N) : option N :=
  match l with
  | [] => Some n
  | c :: l =>
      let n' := n * 10 + (c - 48) in
      if is_digit c && (n' <? 18446744073709551616) then digits l n' else None
  end.
Definition parse_usize (s : string) : option N :=
  match chars s with
  | [] => None
  | 43 :: (_ :: _) as l => digits (tail l) 0
  | l => digits l 0
  end.
