(* ===== verification/TextMap.v ===== *)
(** [documents/crates/text/src/map.rs]: how a position moves across a step.

    Positions and sizes are [usize] and the difference is [isize]; both are [Z]
    here, with the bounds of 64 bits written out. *)

From S2P Require Import Prelude.
Open Scope Z_scope.

(** ** Machine integers *)

Definition USIZE_MAX : Z := 18446744073709551615.
Definition ISIZE_MIN : Z := -9223372036854775808.
Definition ISIZE_MAX : Z := 9223372036854775807.

Definition usize {E} (n : Z) : Result E Z :=
  if (0 <=? n) && (n <=? USIZE_MAX) then Ok n else Panic.
Definition isize {E} (n : Z) : Result E Z :=
  if (ISIZE_MIN <=? n) && (n <=? ISIZE_MAX) then Ok n else Panic.

(** [isize::try_from(n).unwrap_or(isize::MAX)]. *)
Definition isize_or_max (n : Z) : Z := if n <=? ISIZE_MAX then n else ISIZE_MAX.

Definition saturating_add_signed (pos diff : Z) : Z :=
  Z.max 0 (Z.min USIZE_MAX (pos + diff)).

Module StepMap.
Record t := new { ranges : list Z }.
Definition default : t := new [].

Section map.
Context {E : Type} (pos assoc : Z).

Definition side (start old_size end_ : Z) : Z :=
if old_size =? 0 then assoc
else if pos =? start then -1
else if pos =? end_ then 1
else assoc.

Fixpoint map_loop (ranges : list Z) (diff : Z) : Result E Z :=
match ranges with
| start :: old_size :: new_size :: rest =>
if pos <? start then Ok (saturating_add_signed pos diff)
else
end_ ← usize (start + old_size);
if pos <=? end_ then
moved ← usize (start + (if side start old_size end_ <? 0 then 0 else new_size));
Ok (saturating_add_signed moved diff)
else
change ← isize (isize_or_max new_size - isize_or_max old_size);
diff ← isize (diff + change);
map_loop rest diff
| _ => Ok (saturating_add_signed pos diff)
end.
End map.

Definition map {E} (self : t) (pos assoc : Z) : Result E Z :=
map_loop pos assoc (ranges self) 0.

(** ** The same map on exact integers *)

(** The ranges lie in order from [low] on, with sizes that are not negative. *)
Fixpoint ordered (low : Z) (ranges : list Z) : bool :=
match ranges with
| start :: old_size :: new_size :: rest =>
(low <=? start) && (0 <=? old_size) && (0 <=? new_size) &&
ordered (start + old_size) rest
| _ => true
end.

(** The sum of the sizes that a map names. *)
Fixpoint weight (ranges : list Z) : Z :=
match ranges with
| _ :: old_size :: new_size :: rest => old_size + new_size + weight rest
| _ => 0
end.

Fixpoint exact (pos assoc : Z) (ranges : list Z) (diff : Z) : Z :=
match ranges with
| start :: old_size :: new_size :: rest =>
if pos <? start then pos + diff
else if pos <=? start + old_size then
start + (if side pos assoc start old_size (start + old_size) <? 0
then 0 else new_size) + diff
else exact pos assoc rest (diff + new_size - old_size)
| _ => pos + diff
end.
End StepMap.

(** Induction over the ranges of a map, three numbers at a time. *)
Lemma ranges_ind (P : list Z -> Prop) :
  (forall l, (length l < 3)%nat -> P l) ->
  (forall s o n l, P l -> P (s :: o :: n :: l)) ->
  forall l, P l.
Proof.
  intros Hb Hs l. remember (length l) as k eqn:E.
  revert l E. induction (lt_wf k) as [k _ IH]. intros l ->.
  destruct l as [|s [|o [|n l]]]; try (apply Hb; simpl; lia).
  apply Hs. apply (IH (length l)); [simpl; lia|done].
Qed.

Ltac short_ranges l :=
  destruct l as [|? [|? [|? ?]]]; simpl in *; try lia; try done.

Module StepMapFacts.
Import StepMap.

Lemma weight_nonneg low l : ordered low l = true -> 0 <= weight l.
Proof.
revert low. induction l as [l Hl|s o n l IH] using ranges_ind; intros low.
- short_ranges l.
- simpl. rewrite !andb_true_iff, !Z.leb_le. intros [[[? ?] ?] Hord].
apply IH in Hord. lia.
Qed.

Lemma exact_low p a low l d :
ordered low l = true -> low <= p -> low + d <= exact p a l d.
Proof.
revert low d. induction l as [l Hl|s o n l IH] using ranges_ind; intros low d.
- short_ranges l.
- simpl. rewrite !andb_true_iff, !Z.leb_le. intros [[[? ?] ?] Hord] Hp.
destruct (Z.ltb_spec p s); [lia|].
destruct (Z.leb_spec p (s + o)); [destruct (_ <? 0); lia|].
specialize (IH (s + o) (d + n - o) Hord). lia.
Qed.

Lemma exact_high p a low l d :
ordered low l = true -> low <= p -> exact p a l d <= p + d + weight l.
Proof.
revert low d. induction l as [l Hl|s o n l IH] using ranges_ind; intros low d.
- short_ranges l.
- simpl. rewrite !andb_true_iff, !Z.leb_le. intros [[[? ?] ?] Hord] Hp.
pose proof (weight_nonneg _ _ Hord).
destruct (Z.ltb_spec p s); [lia|].
destruct (Z.leb_spec p (s + o)); [destruct (_ <? 0); lia|].
specialize (IH (s + o) (d + n - o) Hord). lia.
Qed.

Lemma exact_mono p q a low l d :
ordered low l = true -> low <= p -> p <= q -> exact p a l d <= exact q a l d.
Proof.
revert low d. induction l as [l Hl|s o n l IH] using ranges_ind; intros low d.
- short_ranges l.
- simpl. rewrite !andb_true_iff, !Z.leb_le. intros [[[? ?] ?] Hord] Hp Hq.
destruct (Z.leb_spec q (s + o)) as [Hqe|Hqe].
+ destruct (Z.ltb_spec p s), (Z.ltb_spec q s); try lia.
* destruct (_ <? 0); lia.
* destruct (Z.leb_spec p (s + o)); [|lia]. unfold side.
repeat first [case_match; rewrite ?Z.eqb_eq, ?Z.eqb_neq, ?Z.ltb_lt, ?Z.ltb_ge in *; try lia].
+ pose proof (exact_low q a _ _ (d + n - o) Hord).
destruct (Z.ltb_spec q s); [lia|].
destruct (Z.ltb_spec p s); [lia|].
destruct (Z.leb_spec p (s + o)); [destruct (_ <? 0); lia|].
apply (IH (s + o)); [done|lia|lia].
Qed.

(** The loop is exact while no position leaves 63 bits. *)
Lemma map_loop_exact {E} p a low l d :
ordered low l = true -> 0 <= low <= p -> 0 <= low + d ->
p + Z.max 0 d + weight l <= ISIZE_MAX ->
map_loop (E:=E) p a l d = Ok (exact p a l d).
Proof.
assert (Hsat : forall m d, 0 <= m + d <= ISIZE_MAX -> saturating_add_signed m d = m + d).
{ unfold saturating_add_signed, USIZE_MAX, ISIZE_MAX. lia. }
revert low d. induction l as [l Hl|s o n l IH] using ranges_ind; intros low d.
- intros _ ? ? ?.
short_ranges l; rewrite Hsat; done || (unfold ISIZE_MAX in *; lia).
- simpl. rewrite !andb_true_iff, !Z.leb_le. intros [[[? ?] ?] Hord] Hp Hd Hb.
pose proof (weight_nonneg _ _ Hord).
destruct (Z.ltb_spec p s). { rewrite Hsat; [done|lia]. }
assert (Hu : forall m, 0 <= m <= ISIZE_MAX -> usize (E:=E) m = Ok m).
{ intros m Hm. unfold usize, USIZE_MAX, ISIZE_MAX in *.
by rewrite !(proj2 (Z.leb_le _ _)) by lia. }
assert (Hi : forall m, ISIZE_MIN <= m <= ISIZE_MAX -> isize (E:=E) m = Ok m).
{ intros m Hm. unfold isize. by rewrite !(proj2 (Z.leb_le _ _)) by lia. }
assert (Hm : forall m, m <= ISIZE_MAX -> isize_or_max m = m).
{ intros m Hm. unfold isize_or_max. by rewrite (proj2 (Z.leb_le _ _)) by lia. }
destruct (Z.leb_spec p (s + o)).
+ rewrite Hu by lia. simpl. rewrite (proj2 (Z.leb_le _ _)) by lia.
rewrite Hu by (destruct (_ <? 0); lia). simpl.
rewrite Hsat; [done|destruct (_ <? 0); lia].
+ rewrite Hu by lia. simpl. rewrite (proj2 (Z.leb_gt _ _)) by lia.
unfold ISIZE_MIN, ISIZE_MAX in *.
rewrite !Hm by lia. rewrite Hi by lia. simpl. rewrite Hi by lia. simpl.
replace (d + (n - o)) with (d + n - o) by lia.
apply (IH (s + o)); [done|lia|lia|lia].
Qed.
End StepMapFacts.
