(* ===== verification/TextData.v ===== *)
(** The tree text of [documents/crates/text]: marks, nodes, fragments and slices
    ([src/node.rs]), with the operations that need no schema.

    A node is shared and never changes, so an [Arc] is the value it holds.  A
    fragment keeps its size beside its children, as the code does; [TextTokens]
    proves that this size stays true.  Text is a list of UTF-16 units. *)

From S2P Require Import Prelude Json.

(** A node or mark type of a schema is a [u16], used as an index. *)
Abbreviation NodeId := nat (only parsing).
Abbreviation MarkId := nat (only parsing).
Abbreviation Attrs := Map.t (only parsing).

(** [Failed] of [src/lib.rs]: one constructor for each message. *)
Inductive Failed : Type :=
| PositionOutOfRange (position : nat)
| PositionOutsideFragment (position : nat)
| IndexOutOfRange (index : nat)
| CutOutsideText
| CutOutsideFragment
| EmptyText
| NoAttributeValue (name : string)
| InsertedDeeper
| InconsistentDepths
| CannotJoin (sub main : NodeId)
| InvalidContent (kind : NodeId)
| SliceSmaller
| StructureReplace
| StructureGapReplace
| GapNotFlat
| ContentDoesNotFit
| NoNodeAtMark
| NoNodeAtAttribute
| EndsBeforeStart
| NoNodeAtPosition
| InvalidField (name : string)
| UnknownStep (name : string)
| UnknownMark (name : string)
| UnknownNode (name : string)
| NestedTooDeep
| InvalidMarks
| InvalidText
| InvalidFragment
| InvalidSlice.

#[export] Instance Failed_eq_dec : EqDecision Failed.
Proof. solve_decision. Defined.

Abbreviation res A := (Result Failed A).

(** ** Data *)

Record Mark : Type := MkMark { m_kind : MarkId; m_attrs : Attrs }.

#[export] Instance Mark_eq_dec : EqDecision Mark.
Proof. solve_decision. Defined.

Inductive Node : Type := MkNode {
  n_kind : NodeId;
  n_attrs : Attrs;
  n_content : Fragment;
  n_marks : list Mark;
  n_text : option (list N);
  n_leaf : bool
}
with Fragment : Type := MkFragment {
  f_content : list Node;
  f_size : nat
}.

Record Slice : Type := MkSlice {
  s_content : Fragment;
  s_open_start : nat;
  s_open_end : nat
}.

Definition empty_fragment : Fragment := MkFragment [] 0.

(** ** Nodes *)
Module Node.
Definition is_text (n : Node) : bool :=
match n_text n with Some _ => true | None => false end.

Definition node_size (n : Node) : nat :=
match n_text n with
| Some text => length text
| None => if n_leaf n then 1 else 2 + f_size (n_content n)
end.

Definition child_count (n : Node) : nat := length (f_content (n_content n)).

Definition same_markup (a b : Node) : bool :=
bool_decide (n_kind a = n_kind b) && bool_decide (n_attrs a = n_attrs b) &&
bool_decide (n_marks a = n_marks b).

Definition copy (n : Node) (content : Fragment) : Node :=
MkNode (n_kind n) (n_attrs n) content (n_marks n) (n_text n) (n_leaf n).

Definition with_marks (n : Node) (marks : list Mark) : Node :=
MkNode (n_kind n) (n_attrs n) (n_content n) marks (n_text n) (n_leaf n).

Definition with_units (n : Node) (text : list N) : Node :=
MkNode (n_kind n) (n_attrs n) empty_fragment (n_marks n) (Some text) true.

(** [units().unwrap_or_default()]. *)
Definition units_or_default (n : Node) : list N := default [] (n_text n).

Definition joined_text (n other : Node) : Node :=
with_units n (units_or_default n ++ units_or_default other).
End Node.

(** ** Fragments *)
Module Fragment.
Definition new (content : list Node) : Fragment :=
MkFragment content (sum_list_with Node.node_size content).

(** [last_mut] and a push: [joined] is the list so far, newest first. *)
Definition join_onto (node : Node) (joined : list Node) : list Node :=
match joined with
| last :: before =>
if Node.is_text node && Node.same_markup last node
then Node.joined_text last node :: before
else node :: joined
| [] => [node]
end.

Definition from_array (nodes : list Node) : Fragment :=
new (rev (foldl (fun joined node => join_onto node joined) [] nodes)).

Definition child_count (f : Fragment) : nat := length (f_content f).

Definition child (f : Fragment) (index : nat) : res Node :=
ok_or (IndexOutOfRange index) (f_content f !! index).

Definition maybe_child (f : Fragment) (index : nat) : option Node :=
f_content f !! index.

Definition append (f other : Fragment) : Fragment :=
if f_size other =? 0 then f
else if f_size f =? 0 then other
else
let content :=
match last (f_content f), f_content other with
| Some l, first :: rest =>
if Node.is_text l && Node.same_markup l first
then removelast (f_content f) ++ Node.joined_text l first :: rest
else f_content f ++ f_content other
| _, _ => f_content f ++ f_content other
end in
MkFragment content (f_size f + f_size other).

Definition replace_child (f : Fragment) (index : nat) (node : Node) : res Fragment :=
match f_content f !! index with
| None => Err (IndexOutOfRange index)
| Some current =>
size ← usub (f_size f + Node.node_size node) (Node.node_size current);
Ok (MkFragment (<[index := node]> (f_content f)) size)
end.

Fixpoint find_loop (content : list Node) (index current position : nat) : res (nat * nat) :=
match content with
| [] => Err (PositionOutsideFragment position)
| child :: content =>
let end_ := current + Node.node_size child in
if position <=? end_
then Ok (if end_ =? position then (S index, end_) else (index, current))
else find_loop content (S index) end_ position
end.

Definition find_index (f : Fragment) (position : nat) : res (nat * nat) :=
if position =? 0 then Ok (0, position)
else if position =? f_size f then Ok (length (f_content f), position)
else if f_size f <? position then Err (PositionOutsideFragment position)
else find_loop (f_content f) 0 0 position.

Section cut_loop.
Variable cut_node : Node -> nat -> nat -> res Node.
Variables from to : nat.

(** What the loop of [Fragment::cut] keeps of one child. *)
Definition cut_child (child : Node) (position : nat) : res Node :=
if (position <? from) || (to <? position + Node.node_size child) then
match n_text child with
| Some text =>
cut_node child (from - position) (Nat.min (length text) (to - position))
| None =>
cut_node child (from - (position + 1))
(Nat.min (f_size (n_content child)) (to - (position + 1)))
end
else Ok child.

(** The children that are kept, their size, and where the loop stops. *)
Fixpoint cut_loop (content : list Node) (position : nat) : res (list Node * nat * nat) :=
match content with
| [] => Ok ([], 0, position)
| child :: content =>
if to <=? position then Ok ([], 0, position)
else
let end_ := position + Node.node_size child in
if from <? end_ then
child ← cut_child child position;
'(result, size, stop) ← cut_loop content end_;
Ok (child :: result, Node.node_size child + size, stop)
else cut_loop content end_
end.
End cut_loop.

(** [Node::cut], over the [cut] of its content. *)
Definition cut_node_with (cut : Fragment -> nat -> nat -> res Fragment)
(n : Node) (from to : nat) : res Node :=
match n_text n with
| Some text =>
if (from =? 0) && (to =? length text) then Ok n
else if (from <=? to) && (to <=? length text)
then Ok (Node.with_units n (take (to - from) (drop from text)))
else Err CutOutsideText
| None =>
if (from =? 0) && (to =? f_size (n_content n)) then Ok n
else content ← cut (n_content n) from to; Ok (Node.copy n content)
end.

Fixpoint cut (f : Fragment) (from to : nat) {struct f} : res Fragment :=
match f with
| MkFragment content size =>
if (from =? 0) && (to =? size) then Ok f
else if from <? to then
'(result, size, stop) ← cut_loop (cut_node_with cut) from to content 0;
if stop <? to then Err CutOutsideFragment else Ok (MkFragment result size)
else Ok empty_fragment
end.

Definition cut_end (f : Fragment) (from : nat) : res Fragment := cut f from (f_size f).
End Fragment.

Definition node_cut (n : Node) (from to : nat) : res Node :=
  Fragment.cut_node_with Fragment.cut n from to.

(** ** Slices *)
Module Slice.
Definition empty : Slice := MkSlice empty_fragment 0 0.

(** The size a slice adds: [content.size().saturating_sub(open_start + open_end)]. *)
Definition size (s : Slice) : res nat :=
open ← uadd (s_open_start s) (s_open_end s);
Ok (f_size (s_content s) - open).
End Slice.

(** ** Induction over a tree *)
Section node_ind.
Variable P : Node -> Prop.
Hypothesis HP : forall kind attrs content size marks text leaf,
Forall P content ->
P (MkNode kind attrs (MkFragment content size) marks text leaf).

Fixpoint node_tree_ind (n : Node) : P n :=
match n with
| MkNode kind attrs (MkFragment content size) marks text leaf =>
HP kind attrs content size marks text leaf
((fix all (l : list Node) : Forall P l :=
match l with
| [] => Forall_nil_2 P
| x :: l => Forall_cons_2 P x l (node_tree_ind x) (all l)
end) content)
end.
End node_ind.

Lemma fragment_ind (P : Fragment -> Prop) :
  (forall content size, Forall (fun n => P (n_content n)) content ->
    P (MkFragment content size)) ->
  forall f, P f.
Proof.
  intros HP [content size]. apply HP.
  induction content as [|n l IH]; constructor; [|done].
  induction n using node_tree_ind. simpl. by apply HP.
Qed.
