(* ===== verification/TextSchema.v ===== *)
(** The schema of a tree text, [documents/crates/text/src/schema.rs]: node and mark
    types, and the content rules as one table of match states.

    The table is what [Schema::new] compiles; the questions that steps ask of it are
    modelled here as the code asks them.  [Vec] indexing panics out of range, so
    each question returns a [res]; [Schema.wf] is the range condition under which
    no question panics. *)

From S2P Require Import Prelude Json TextData.

Abbreviation MatchId := nat (only parsing).

Definition EMPTY_MATCH : MatchId := 0.

Record Attribute : Type := MkAttribute { a_name : string; a_default : option Value }.

Record NodeType : Type := MkNodeType {
  nt_name : string;
  nt_groups : list string;
  nt_attrs : list Attribute;
  nt_is_block : bool;
  nt_atom : bool;
  nt_content_match : MatchId;
  nt_inline_content : bool;
  nt_mark_set : option (list MarkId)
}.

Record MarkType : Type := MkMarkType {
  mt_name : string;
  mt_groups : list string;
  mt_attrs : list Attribute;
  mt_excluded : list MarkId
}.

Record MatchState : Type := MkMatchState {
  valid_end : bool;
  next : list (NodeId * MatchId)
}.

Record Schema : Type := MkSchema {
  sc_nodes : list NodeType;
  sc_marks : list MarkType;
  sc_node_ids : gmap string NodeId;
  sc_mark_ids : gmap string MarkId;
  sc_matches : list MatchState;
  sc_top : NodeId;
  sc_text : NodeId
}.

(** [Iterator::all], which stops at the first [false]. *)
Fixpoint all_of {A} (f : A -> res bool) (l : list A) : res bool :=
  match l with
  | [] => Ok true
  | x :: l => b ← f x; if b : bool then all_of f l else Ok false
  end.

Fixpoint compute_attrs_loop (attrs : list Attribute) (given : option Value) (built : Map.t) : res Map.t :=
  match attrs with
  | [] => Ok built
  | attribute :: attrs =>
      let value := given ≫= ValueOps.get (a_name attribute) in
      match value, a_default attribute with
      | Some value, _ | None, Some value =>
          compute_attrs_loop attrs given (Map.insert (a_name attribute) value built)
      | None, None => Err (NoAttributeValue (a_name attribute))
      end
  end.

Definition compute_attrs (attrs : list Attribute) (given : option Value) : res Map.t :=
  compute_attrs_loop attrs given [].

Module Schema.
Section ops.
Variable self : Schema.

Definition node_id (name : string) : option NodeId := sc_node_ids self !! name.
Definition mark_id (name : string) : option MarkId := sc_mark_ids self !! name.
Definition top_node : NodeId := sc_top self.
Definition text_node : NodeId := sc_text self.

Definition node (id : NodeId) : res NodeType := or_panic (sc_nodes self !! id).
Definition mark (id : MarkId) : res MarkType := or_panic (sc_marks self !! id).
Definition match_state (id : MatchId) : res MatchState := or_panic (sc_matches self !! id).

Definition node_name (id : NodeId) : res string := nt_name <$> node id.
Definition mark_name (id : MarkId) : res string := mt_name <$> mark id.

Definition is_leaf (id : NodeId) : res bool :=
n ← node id; Ok (nt_content_match n =? EMPTY_MATCH).
Definition is_atom (id : NodeId) : res bool :=
leaf ← is_leaf id;
if leaf : bool then Ok true else n ← node id; Ok (nt_atom n).
Definition is_inline (id : NodeId) : res bool :=
n ← node id; Ok (negb (nt_is_block n)).
Definition is_textblock (id : NodeId) : res bool :=
n ← node id; Ok (nt_is_block n && nt_inline_content n).

Definition node_has_attrs (id : NodeId) : res bool :=
n ← node id; Ok (negb (length (nt_attrs n) =? 0)).
Definition mark_has_attrs (id : MarkId) : res bool :=
m ← mark id; Ok (negb (length (mt_attrs m) =? 0)).

Definition node_attrs (id : NodeId) (given : option Value) : res Map.t :=
n ← node id; compute_attrs (nt_attrs n) given.
Definition mark_attrs (id : MarkId) (given : option Value) : res Map.t :=
m ← mark id; compute_attrs (mt_attrs m) given.

Definition excludes (m other : MarkId) : res bool :=
t ← mark m; Ok (bool_decide (other ∈ mt_excluded t)).

Definition allows_mark_type (id : NodeId) (m : MarkId) : res bool :=
n ← node id;
Ok (match nt_mark_set n with
| None => true
| Some set => bool_decide (m ∈ set)
end).

(** One step of the match: the target of the first edge for this kind. *)
Fixpoint find_edge (kind : NodeId) (edges : list (NodeId * MatchId)) : option MatchId :=
match edges with
| [] => None
| (k, target) :: edges => if k =? kind then Some target else find_edge kind edges
end.

(** [match_fragment] and [match_children]: the state after these children. *)
Fixpoint match_children (current : MatchId) (children : list Node) : res (option MatchId) :=
match children with
| [] => Ok (Some current)
| child :: children =>
state ← match_state current;
match find_edge (n_kind child) (next state) with
| None => Ok None
| Some current => match_children current children
end
end.
Definition match_fragment (start : MatchId) (content : Fragment) : res (option MatchId) :=
match_children start (f_content content).

Definition allows_marks (id : NodeId) (children : list Node) : res bool :=
all_of (fun child => all_of (fun m => allows_mark_type id (m_kind m)) (n_marks child)) children.

Definition valid_content (id : NodeId) (content : Fragment) : res bool :=
n ← node id;
result ← match_fragment (nt_content_match n) content;
match result with
| None => Ok false
| Some result =>
state ← match_state result;
if valid_end state then allows_marks id (f_content content) else Ok false
end.

Definition compatible_content (id other : NodeId) : res bool :=
if id =? other then Ok true
else
n ← node id;
left ← match_state (nt_content_match n);
o ← node other;
right ← match_state (nt_content_match o);
Ok (existsb (fun '(kind, _) => existsb (fun '(other, _) => other =? kind) (next right))
(next left)).

(** [&children[..index]] and [&children[index..]] panic past the end. *)
Definition before (index : nat) (children : list Node) : res (list Node) :=
if index <=? length children then Ok (take index children) else Panic.
Definition after (index : nat) (children : list Node) : res (list Node) :=
if index <=? length children then Ok (drop index children) else Panic.

Definition can_replace (parent : Node) (from to : nat) (content : Fragment) : res bool :=
let kind := n_kind parent in
let children := f_content (n_content parent) in
n ← node kind;
front ← before from children;
before ← match_children (nt_content_match n) front;
match before with
| None => Ok false
| Some before =>
after_ ← match_children before (f_content content);
match after_ with
| None => Ok false
| Some after_ =>
rest ← after to children;
end_ ← match_children after_ rest;
match end_ with
| None => Ok false
| Some end_ =>
state ← match_state end_;
if valid_end state then allows_marks kind (f_content content) else Ok false
end
end
end.
End ops.

(** Every id that the schema holds is in range. *)
Definition wf (self : Schema) : bool :=
forallb (fun n => nt_content_match n <? length (sc_matches self)) (sc_nodes self) &&
forallb (fun s => forallb (fun e => e.2 <? length (sc_matches self)) (next s)) (sc_matches self) &&
(sc_text self <? length (sc_nodes self)).
End Schema.
