(* ===== verification/TextExpr.v ===== *)
(** Content expressions of [documents/crates/text/src/schema.rs]: the tokens of an
    expression, the parser, and the language that an expression stands for.

    The parser goes down once for each parenthesis, and its loops take a token each round,
    so the number of tokens is fuel enough; [TextThompson] proves that no parse runs out. *)

From S2P Require Import Prelude Json Utf TextData TextSchema.
Open Scope nat_scope.

(** [BadSchema]: one constructor for each message. *)
Inductive BadSchema : Type :=
| TooManyNodes
| TooManyMarks
| NoTopNode (name : string)
| NoTextNode
| UnknownMarkType (name : string)
| ExpectedNumber
| UnclosedRange
| NoNodeOrGroup (name : string)
| MissingParen
| UnexpectedEnd
| UnexpectedToken (name : string)
| MixedContent
| TrailingText (expression : string).

Inductive Expr : Type :=
| Choice (exprs : list Expr)
| Seq (exprs : list Expr)
| Plus (expr : Expr)
| Star (expr : Expr)
| Opt (expr : Expr)
| Range (min : nat) (max : option nat) (expr : Expr)
| Name (id : NodeId).

(** ** Tokens *)

Definition is_word (c : N) : bool := is_ascii_alphanumeric c || (c =? 95)%N.

Fixpoint tokenize_loop (text word : list N) : list string :=
  let done := match word with [] => [] | _ => [of_chars word] end in
  match text with
  | [] => done
  | letter :: text =>
      if is_word letter then tokenize_loop text (word ++ [letter])
      else done ++ (if is_whitespace letter then [] else [of_chars [letter]]) ++ tokenize_loop text []
  end.
Definition tokenize (text : string) : list string := tokenize_loop (chars text) [].

(** What changes while a [Tokens] is read. *)
Record Cursor : Type := MkCursor { position : nat; inline : option bool }.

Definition advance (c : Cursor) : Cursor := MkCursor (S (position c)) (inline c).

Section parser.
Variable words : list string.
Variable nodes : list NodeType.
Variable ids : gmap string NodeId.

Definition peek (c : Cursor) : option string := words !! position c.

(** [Tokens::eat] of a token. *)
Definition at_token (token : string) (c : Cursor) : bool := bool_decide (peek c = Some token).

Abbreviation parsed A := (Result BadSchema (A * Cursor)).

Definition parse_number (c : Cursor) : parsed nat :=
number ← ok_or ExpectedNumber (peek c ≫= parse_usize);
Ok (N.to_nat number, advance c).

Definition parse_range (expr : Expr) (c : Cursor) : parsed Expr :=
'(min, c) ← parse_number c;
'(max, c) ←
(if at_token "," c then
let c := advance c in
if bool_decide (peek c = Some "}"%string) then Ok (None, c)
else '(max, c) ← parse_number c; Ok (Some max, c)
else Ok (Some min, c));
if at_token "}" c then Ok (Range min max expr, advance c) else Err UnclosedRange.

Definition has_group (name : string) (groups : list string) : bool := existsb (String.eqb name) groups.

Definition resolve_name (name : string) : Result BadSchema (list NodeId) :=
match ids !! name with
| Some id => Ok [id]
| None =>
let found := filter (fun index => (if nodes !! index is Some node then has_group name (nt_groups node) else false) = true /\
(N.of_nat index < 65536)%N) (seq 0 (length nodes)) in
match found with [] => Err (NoNodeOrGroup name) | _ => Ok found end
end.

(** The loop of [parse_atom] over the ids of a name. *)
Fixpoint names (found : list NodeId) (known : option bool) : Result BadSchema (option bool) :=
match found with
| [] => Ok known
| id :: found =>
node ← or_panic (nodes !! id);
let inline := negb (nt_is_block node) in
if (if known is Some k then negb (eqb k inline) else false) then Err MixedContent
else names found (Some inline)
end.

(** One expression stands for itself. *)
Definition one_or (many : list Expr -> Expr) (exprs : list Expr) : Expr :=
match exprs with [expr] => expr | _ => many exprs end.

(** [inner] is [parse_expr], with less fuel. *)
Section levels.
Variable inner : Cursor -> parsed Expr.

Definition parse_atom (c : Cursor) : parsed Expr :=
if at_token "(" c then
'(expr, c) ← inner (advance c);
if at_token ")" c then Ok (expr, advance c) else Err MissingParen
else
name ← ok_or UnexpectedEnd (peek c);
if forallb is_word (chars name) then
found ← resolve_name name;
inline ← names found (inline c);
Ok (one_or Choice (Name <$> found), MkCursor (S (position c)) inline)
else Err (UnexpectedToken name).

(** The loop of [parse_subscript]. *)
Fixpoint parse_suffixes (fuel : nat) (expr : Expr) (c : Cursor) : parsed Expr :=
match fuel with
| O => Panic
| S fuel =>
if at_token "+" c then parse_suffixes fuel (Plus expr) (advance c)
else if at_token "*" c then parse_suffixes fuel (Star expr) (advance c)
else if at_token "?" c then parse_suffixes fuel (Opt expr) (advance c)
else if at_token "{" c then
'(expr, c) ← parse_range expr (advance c);
parse_suffixes fuel expr c
else Ok (expr, c)
end.

Definition rounds : nat := S (length words).

Definition parse_subscript (c : Cursor) : parsed Expr :=
'(expr, c) ← parse_atom c;
parse_suffixes rounds expr c.

(** The loop of [parse_seq]. *)
Fixpoint parse_more (fuel : nat) (exprs : list Expr) (c : Cursor) : parsed (list Expr) :=
match fuel with
| O => Panic
| S fuel =>
match peek c with
| Some next =>
if bool_decide (next <> ")"%string) && bool_decide (next <> "|"%string) then
'(expr, c) ← parse_subscript c;
parse_more fuel (exprs ++ [expr]) c
else Ok (exprs, c)
| None => Ok (exprs, c)
end
end.

Definition parse_seq (c : Cursor) : parsed Expr :=
'(first, c) ← parse_subscript c;
'(exprs, c) ← parse_more rounds [first] c;
Ok (one_or Seq exprs, c).

(** The loop of [parse_expr]. *)
Fixpoint parse_choices (fuel : nat) (exprs : list Expr) (c : Cursor) : parsed (list Expr) :=
match fuel with
| O => Panic
| S fuel =>
if at_token "|" c then
'(expr, c) ← parse_seq (advance c);
parse_choices fuel (exprs ++ [expr]) c
else Ok (exprs, c)
end.

Definition parse_level (c : Cursor) : parsed Expr :=
'(first, c) ← parse_seq c;
'(exprs, c) ← parse_choices rounds [first] c;
Ok (one_or Choice exprs, c).
End levels.

Fixpoint parse_expr (fuel : nat) (c : Cursor) : parsed Expr :=
match fuel with
| O => Panic
| S fuel => parse_level (parse_expr fuel) c
end.

Definition start_cursor : Cursor := MkCursor 0 None.
End parser.

(** ** The language of an expression *)

(** Some words of a language, one after another. *)
Inductive power (L : list NodeId -> Prop) : nat -> list NodeId -> Prop :=
| power_zero : power L 0 []
| power_more n u v : L u -> power L n v -> power L (S n) (u ++ v).

(** The lists of kinds that an expression lets a node have as its children. *)
Fixpoint lang (e : Expr) (w : list NodeId) : Prop :=
  match e with
  | Choice es => (fix any es := match es with [] => False | e :: es => lang e w \/ any es end) es
  | Seq es =>
      (fix all es w := match es with
       | [] => w = []
       | e :: es => exists u v, w = u ++ v /\ lang e u /\ all es v
       end) es w
  | Plus e => exists n, power (lang e) (S n) w
  | Star e => exists n, power (lang e) n w
  | Opt e => w = [] \/ lang e w
  | Range min max e =>
      exists n, min <= n /\ match max with Some max => n <= Nat.max min max | None => True end /\ power (lang e) n w
  | Name id => w = [id]
  end.

(** Induction over the expressions in a list too. *)
Section expr_ind.
Variable P : Expr -> Prop.
Hypothesis HChoice : forall es, Forall P es -> P (Choice es).
Hypothesis HSeq : forall es, Forall P es -> P (Seq es).
Hypothesis HPlus : forall e, P e -> P (Plus e).
Hypothesis HStar : forall e, P e -> P (Star e).
Hypothesis HOpt : forall e, P e -> P (Opt e).
Hypothesis HRange : forall min max e, P e -> P (Range min max e).
Hypothesis HName : forall id, P (Name id).

Fixpoint expr_tree_ind (e : Expr) : P e :=
let go := fix go es : Forall P es :=
match es with [] => Forall_nil_2 P | e :: es => Forall_cons_2 P e es (expr_tree_ind e) (go es) end in
match e with
| Choice es => HChoice es (go es)
| Seq es => HSeq es (go es)
| Plus e => HPlus e (expr_tree_ind e)
| Star e => HStar e (expr_tree_ind e)
| Opt e => HOpt e (expr_tree_ind e)
| Range min max e => HRange min max e (expr_tree_ind e)
| Name id => HName id
end.
End expr_ind.

Lemma lang_choice es w : lang (Choice es) w <-> Exists (fun e => lang e w) es.
Proof. induction es as [|e es IH]; simpl in *; [split; [done|by intros ?%Exists_nil]|]. by rewrite Exists_cons, <- IH. Qed.

Lemma lang_seq_nil w : lang (Seq []) w <-> w = [].
Proof. done. Qed.
Lemma lang_seq_cons e es w : lang (Seq (e :: es)) w <-> exists u v, w = u ++ v /\ lang e u /\ lang (Seq es) v.
Proof. done. Qed.
