(* ===== verification/TextNfa.v ===== *)
(** The automaton of a content expression in [documents/crates/text/src/schema.rs]: [Nfa]
    with [compile], and [null_from]. *)

From S2P Require Import Prelude Json TextData TextSchema TextExpr.
Open Scope nat_scope.

Record Edge : Type := MkEdge { term : option NodeId; to : option nat }.

Abbreviation Nfa := (list (list Edge)) (only parsing).
Abbreviation EdgeRef := (nat * nat)%type (only parsing).

Abbreviation built A := (Result BadSchema A).

Module Nfa.
Definition node (nfa : Nfa) : Nfa * nat := (nfa ++ [[]], length nfa).

Definition edge (nfa : Nfa) (from : nat) (to : option nat) (term : option NodeId) : built (Nfa * EdgeRef) :=
row ← or_panic (nfa !! from);
Ok (<[from := row ++ [MkEdge term to]]> nfa, (from, length row)).

Fixpoint connect (nfa : Nfa) (edges : list EdgeRef) (to : nat) : built Nfa :=
match edges with
| [] => Ok nfa
| (from, index) :: edges =>
row ← or_panic (nfa !! from);
e ← or_panic (row !! index);
connect (<[from := <[index := MkEdge (term e) (Some to)]> row]> nfa) edges to
end.

(** [for _ in 0..k]: each round puts [current] on. *)
Fixpoint times (k : nat) (round : Nfa -> nat -> built (Nfa * nat)) (nfa : Nfa) (current : nat) : built (Nfa * nat) :=
match k with
| O => Ok (nfa, current)
| S k => '(nfa, current) ← round nfa current; times k round nfa current
end.

Fixpoint compile (e : Expr) (nfa : Nfa) (from : nat) {struct e} : built (Nfa * list EdgeRef) :=
match e with
| Choice exprs =>
(fix all exprs nfa := match exprs with
| [] => Ok (nfa, [])
| e :: exprs =>
'(nfa, edges) ← compile e nfa from;
'(nfa, more) ← all exprs nfa;
Ok (nfa, edges ++ more)
end) exprs nfa
| Seq exprs =>
(fix each exprs nfa from := match exprs with
| [] => Ok (nfa, [])
| [e] => compile e nfa from
| e :: exprs =>
'(nfa, next) ← compile e nfa from;
let '(nfa, from) := node nfa in
nfa ← connect nfa next from;
each exprs nfa from
end) exprs nfa from
| Star e =>
let '(nfa, looped) := node nfa in
'(nfa, _) ← edge nfa from (Some looped) None;
'(nfa, inner) ← compile e nfa looped;
nfa ← connect nfa inner looped;
'(nfa, out) ← edge nfa looped None None;
Ok (nfa, [out])
| Plus e =>
let '(nfa, looped) := node nfa in
'(nfa, first) ← compile e nfa from;
nfa ← connect nfa first looped;
'(nfa, again) ← compile e nfa looped;
nfa ← connect nfa again looped;
'(nfa, out) ← edge nfa looped None None;
Ok (nfa, [out])
| Opt e =>
'(nfa, out) ← edge nfa from None None;
'(nfa, edges) ← compile e nfa from;
Ok (nfa, out :: edges)
| Range min max e =>
'(nfa, current) ← times min (fun nfa current =>
let '(nfa, next) := node nfa in
'(nfa, edges) ← compile e nfa current;
nfa ← connect nfa edges next;
Ok (nfa, next)) nfa from;
'(nfa, current) ←
match max with
| None =>
'(nfa, edges) ← compile e nfa current;
nfa ← connect nfa edges current;
Ok (nfa, current)
| Some max =>
times (max - min) (fun nfa current =>
let '(nfa, next) := node nfa in
'(nfa, _) ← edge nfa current (Some next) None;
'(nfa, edges) ← compile e nfa current;
nfa ← connect nfa edges next;
Ok (nfa, next)) nfa current
end;
'(nfa, out) ← edge nfa current None None;
Ok (nfa, [out])
| Name id =>
'(nfa, out) ← edge nfa from None (Some id);
Ok (nfa, [out])
end.

(** The loop of [scan] over the edges of a node. *)
Fixpoint scan_edges (scan : nat -> list nat -> built (list nat)) (edges : list Edge) (result : list nat) :
built (list nat) :=
match edges with
| [] => Ok result
| MkEdge None (Some to) :: edges =>
if bool_decide (to ∈ result) then scan_edges scan edges result
else result ← scan to result; scan_edges scan edges result
| _ :: edges => scan_edges scan edges result
end.

(** [scan]: a node whose one edge takes no kind is passed over; any other node goes in the
result, and then each node that such an edge leads to. *)
Fixpoint scan (fuel : nat) (nfa : Nfa) (n : nat) (result : list nat) {struct fuel} : built (list nat) :=
match fuel with
| O => Panic
| S fuel =>
edges ← or_panic (nfa !! n);
match edges with
| [MkEdge None (Some next)] => scan fuel nfa next result
| _ => scan_edges (scan fuel nfa) edges (result ++ [n])
end
end.

(** Sorting with [right.cmp(left)]: the greatest first. *)
Fixpoint insert_desc (x : nat) (l : list nat) : list nat :=
match l with
| [] => [x]
| y :: l' => if y <? x then x :: l else y :: insert_desc x l'
end.
Definition sort_desc (l : list nat) : list nat := foldr insert_desc [] l.

(** Between two nodes that are passed over there are fewer than all; [TextClosure] says
when this is fuel enough. *)
Definition scan_fuel (nfa : Nfa) : nat := S (length nfa) * S (S (length nfa)).

Definition null_from (nfa : Nfa) (n : nat) : built (list nat) := sort_desc <$> scan (scan_fuel nfa) nfa n [].

(** The automaton of an expression: its start is node 0, and its end the last node. *)
Definition of_expr (e : Expr) : built Nfa :=
let '(nfa, _) := node [] in
'(nfa, edges) ← compile e nfa 0;
let '(nfa, last) := node nfa in
connect nfa edges last.
End Nfa.
