(* ===== verification/TextThompson.v ===== *)
(** The parser of content expressions ends: each expression is read or refused, and nothing
    panics. *)

From S2P Require Import Prelude Json Utf TextData TextSchema TextExpr TextNfa.
Open Scope nat_scope.

Section total.
Context (words : list string) (nodes : list NodeType) (ids : gmap string NodeId).
Hypothesis Hids : forall name id, ids !! name = Some id -> id < length nodes.

Local Abbreviation parsed A := (Result BadSchema (A * Cursor)).

(** A parse that ends, and takes a token at least when it reads something. *)
Definition reads {A} (c : Cursor) (r : parsed A) : Prop :=
safe r /\ forall a c', r = Ok (a, c') -> position c < position c' <= length words.

(** A parse that may take no token. *)
Definition keeps {A} (c : Cursor) (r : parsed A) : Prop :=
safe r /\ forall a c', r = Ok (a, c') -> position c <= position c' <= length words.

Lemma reads_err {A} c e : reads c (Err e : parsed A).
Proof. by split. Qed.

Lemma keeps_err {A} c e : keeps c (Err e : parsed A).
Proof. by split. Qed.

Lemma reads_bind {A B} c (r : parsed A) (f : A * Cursor -> parsed B) :
reads c r -> (forall a c', position c < position c' <= length words -> keeps c' (f (a, c'))) -> reads c (r ≫= f).
Proof.
intros [Hs Hr] Hf. split.
- apply safe_bind; [done|]. intros [a c'] ->. by eapply Hf, Hr.
- intros b c2 ([a c1] & -> & E)%bind_ok. specialize (Hr a c1 eq_refl).
destruct (Hf a c1 Hr) as [_ Hk]. specialize (Hk b c2 E). lia.
Qed.

Lemma keeps_bind {A B} c (r : parsed A) (f : A * Cursor -> parsed B) :
keeps c r -> (forall a c', position c <= position c' <= length words -> keeps c' (f (a, c'))) -> keeps c (r ≫= f).
Proof.
intros [Hs Hr] Hf. split.
- apply safe_bind; [done|]. intros [a c'] ->. by eapply Hf, Hr.
- intros b c2 ([a c1] & -> & E)%bind_ok. specialize (Hr a c1 eq_refl).
destruct (Hf a c1 Hr) as [_ Hk]. specialize (Hk b c2 E). lia.
Qed.

Lemma reads_keeps {A} c (r : parsed A) : reads c r -> keeps c r.
Proof. intros [Hs Hr]. split; [done|]. intros a c' E. specialize (Hr a c' E). lia. Qed.

Lemma keeps_later {A} c c1 (r : parsed A) : position c <= position c1 -> keeps c1 r -> keeps c r.
Proof. intros Hle [Hs Hr]. split; [done|]. intros a c' E. specialize (Hr a c' E). lia. Qed.

Lemma reads_later {A} c c1 (r : parsed A) : position c < position c1 -> keeps c1 r -> reads c r.
Proof. intros Hle [Hs Hr]. split; [done|]. intros a c' E. specialize (Hr a c' E). lia. Qed.

Lemma keeps_ok {A} c (a : A) c' : position c <= position c' <= length words -> keeps c (Ok (a, c')).
Proof. intros Hle. split; [done|]. by intros b c2 [= <- <-]. Qed.

Lemma at_token_true token c : at_token words token c = true -> position c < length words.
Proof. unfold at_token, peek. intros E%bool_decide_eq_true. by eapply lookup_lt_Some. Qed.

Lemma number_reads c : reads c (parse_number words c).
Proof.
unfold parse_number. destruct (peek words c ≫= parse_usize) as [n|] eqn:E; [|apply reads_err].
apply bind_Some in E as (w & E & _). unfold peek in E. apply lookup_lt_Some in E.
split; [done|]. intros a c' [= <- <-]. simpl. lia.
Qed.

Lemma range_keeps expr c : position c <= length words -> keeps c (parse_range words expr c).
Proof.
intros Hc. unfold parse_range. apply keeps_bind; [apply reads_keeps, number_reads|]. intros min c1 H1.
apply keeps_bind.
- destruct (at_token words "," c1) eqn:E; [|apply keeps_ok; lia]. pose proof (at_token_true _ _ E).
apply (keeps_later _ (advance c1)); [simpl; lia|]. destruct (bool_decide _); [apply keeps_ok; simpl; lia|].
apply keeps_bind; [apply reads_keeps, number_reads|]. intros max c2 H2. apply keeps_ok. lia.
- intros max c2 H2. destruct (at_token words "}" c2) eqn:E; [|apply keeps_err]. pose proof (at_token_true _ _ E).
apply keeps_ok. simpl. lia.
Qed.

Lemma names_safe found known : Forall (fun id => id < length nodes) found -> safe (names nodes found known).
Proof.
intros Hf. revert known. induction Hf as [|id found Hid Hf IH]; intros known; [done|]. simpl.
destruct (lookup_lt_is_Some_2 _ _ Hid) as [node ->]. simpl. by destruct (match known with Some _ => _ | None => _ end).
Qed.

Lemma resolve_name_ids name found : resolve_name nodes ids name = Ok found -> Forall (fun id => id < length nodes) found.
Proof.
unfold resolve_name. destruct (ids !! name) as [id|] eqn:E.
- intros [= <-]. constructor; [by eapply Hids|done].
- set (l := filter _ _). intros El. assert (found = l) as ->; [by destruct l; [|injection El as <-]|].
apply Forall_forall. intros x [_ Hx]%list_elem_of_filter. apply elem_of_seq in Hx. lia.
Qed.

Section levels.
Variables (inner : Cursor -> parsed Expr) (n : nat).
Hypothesis Hinner : forall c, position c <= length words -> length words - position c < n -> reads c (inner c).

Lemma atom_reads c : position c <= length words -> length words - position c < S n -> reads c (parse_atom words nodes ids inner c).
Proof.
intros Hc Hn. unfold parse_atom. destruct (at_token words "(" c) eqn:E.
- pose proof (at_token_true _ _ E) as Hlt. apply (reads_later _ (advance c)); [simpl; lia|].
apply keeps_bind; [apply reads_keeps, Hinner; simpl; lia|]. intros e c1 H1.
destruct (at_token words ")" c1) eqn:E1; [|apply keeps_err]. pose proof (at_token_true _ _ E1).
apply keeps_ok. simpl. lia.
- destruct (peek words c) as [name|] eqn:Ep; [|apply reads_err]. apply lookup_lt_Some in Ep. cbn [ok_or mbind Result_bind].
destruct (forallb _ _); [|apply reads_err]. destruct (resolve_name nodes ids name) as [found|e|] eqn:Er; [|apply reads_err|].
+ cbn [mbind Result_bind]. pose proof (names_safe found (inline c) (resolve_name_ids _ _ Er)) as Hs.
destruct (names nodes found (inline c)) as [known|e|]; [|apply reads_err|done].
split; [done|]. intros a c' [= <- <-]. simpl. lia.
+ unfold resolve_name in Er. destruct (ids !! name); [done|]. by destruct (filter _ _).
Qed.

Lemma suffixes_keep fuel : forall expr c, position c <= length words -> length words - position c < fuel ->
keeps c (parse_suffixes words fuel expr c).
Proof.
induction fuel as [|fuel IH]; intros expr c Hc Hf; [lia|]. cbn [parse_suffixes].
assert (Hnext : forall token e', at_token words token c = true -> keeps c (parse_suffixes words fuel e' (advance c))).
{ intros token e' E%at_token_true. apply (keeps_later _ (advance c)); [simpl; lia|]. apply IH; simpl; lia. }
destruct (at_token words "+" c) eqn:E1; [by eapply Hnext|]. destruct (at_token words "*" c) eqn:E2; [by eapply Hnext|].
destruct (at_token words "?" c) eqn:E3; [by eapply Hnext|]. destruct (at_token words "{" c) eqn:E4; [|apply keeps_ok; lia].
apply at_token_true in E4. apply (keeps_later _ (advance c)); [simpl; lia|].
apply keeps_bind; [apply range_keeps; simpl; lia|]. intros e c1 H1. simpl in H1. apply IH; lia.
Qed.

Lemma subscript_reads c : position c <= length words -> length words - position c < S n ->
reads c (parse_subscript words nodes ids inner c).
Proof.
intros Hc Hn. unfold parse_subscript. apply reads_bind; [by apply atom_reads|]. intros e c1 H1.
apply suffixes_keep; unfold rounds; lia.
Qed.

Lemma more_keeps fuel : forall exprs c, position c <= length words -> length words - position c < fuel ->
length words - position c < S n -> keeps c (parse_more words nodes ids inner fuel exprs c).
Proof.
induction fuel as [|fuel IH]; intros exprs c Hc Hf Hn; [lia|]. cbn [parse_more].
destruct (peek words c) as [next|]; [|apply keeps_ok; lia]. destruct (_ && _); [|apply keeps_ok; lia].
apply reads_keeps, reads_bind; [by apply subscript_reads|]. intros e c1 H1. apply IH; lia.
Qed.

Lemma seq_reads c : position c <= length words -> length words - position c < S n ->
reads c (parse_seq words nodes ids inner c).
Proof.
intros Hc Hn. unfold parse_seq. apply reads_bind; [by apply subscript_reads|]. intros e c1 H1.
apply keeps_bind; [apply more_keeps; unfold rounds; lia|]. intros es c2 H2. apply keeps_ok; lia.
Qed.

Lemma choices_keep fuel : forall exprs c, position c <= length words -> length words - position c < fuel ->
length words - position c < S n -> keeps c (parse_choices words nodes ids inner fuel exprs c).
Proof.
induction fuel as [|fuel IH]; intros exprs c Hc Hf Hn; [lia|]. cbn [parse_choices].
destruct (at_token words "|" c) eqn:E; [|apply keeps_ok; lia]. apply at_token_true in E.
apply (keeps_later _ (advance c)); [simpl; lia|].
apply keeps_bind; [apply reads_keeps, seq_reads; simpl; lia|]. intros e c1 H1. simpl in H1. apply IH; lia.
Qed.

Lemma level_reads c : position c <= length words -> length words - position c < S n ->
reads c (parse_level words nodes ids inner c).
Proof.
intros Hc Hn. unfold parse_level. apply reads_bind; [by apply seq_reads|]. intros e c1 H1.
apply keeps_bind; [apply choices_keep; unfold rounds; lia|]. intros es c2 H2. apply keeps_ok; lia.
Qed.
End levels.

Lemma parse_reads fuel : forall c, position c <= length words -> length words - position c < fuel ->
reads c (parse_expr words nodes ids fuel c).
Proof.
induction fuel as [|fuel IH]; intros c Hc Hf; [lia|]. cbn [parse_expr]. by apply (level_reads _ fuel).
Qed.
End total.

(* ------------------------------------------------------------ *)

(** Fragments of an automaton: what [Nfa::compile] builds is put together from fragments
    as the expression is put together from its parts. *)

Open Scope nat_scope.

(** Edges of a fragment: from a node, with a kind or none, to a node or to what comes next. *)
Definition rel : Type := nat -> option NodeId -> option nat -> Prop.
Abbreviation opt := option_list (only parsing).

Definition same (F G : rel) : Prop := forall p o t, F p o t <-> G p o t.
Definition none : rel := fun _ _ _ => False.
Definition single (f : nat) (o : option NodeId) (t : option nat) : rel := fun p o' t' => p = f /\ o' = o /\ t' = t.
Definition both (F G : rel) : rel := fun p o t => F p o t \/ G p o t.
(** The edges of [F], with those that lead on led to [n]. *)
Definition into (n : nat) (F : rel) : rel :=
  fun p o t => (exists q, t = Some q /\ F p o (Some q)) \/ (t = Some n /\ F p o None).

(** What a fragment spells from a node to what comes next. *)
Inductive spells (F : rel) : nat -> list NodeId -> Prop :=
| spells_out p o : F p o None -> spells F p (opt o)
| spells_step p o q w : F p o (Some q) -> spells F q w -> spells F p (opt o ++ w).

Definition cat (L1 L2 : list NodeId -> Prop) (w : list NodeId) : Prop := exists u v, w = u ++ v /\ L1 u /\ L2 v.
Definition star (L : list NodeId -> Prop) (w : list NodeId) : Prop := exists n, power L n w.

(** A fragment from [f] with its own nodes [R]: no edge enters [f], or none from outside
    when [strict] is false, and it spells [L]. *)
Record part (strict : bool) (f : nat) (R : nat -> Prop) (F : rel) (L : list NodeId -> Prop) : Prop := {
  part_src : forall p o t, F p o t -> p = f \/ R p;
  part_dst : forall p o q, F p o (Some q) -> R q \/ strict = false /\ q = f;
  part_out : ~ R f;
  part_spells : forall w, spells F f w <-> L w
}.

Lemma spells_mono (F G : rel) p w : (forall p o t, F p o t -> G p o t) -> spells F p w -> spells G p w.
Proof. intros HFG. induction 1; [by constructor; apply HFG|econstructor; [by apply HFG|done]]. Qed.

Lemma part_ext s f R R' F F' (L L' : list NodeId -> Prop) :
  part s f R F L -> (forall p, R p <-> R' p) -> same F F' -> (forall w, L w <-> L' w) -> part s f R' F' L'.
Proof.
  intros [Hs Hd Ho Ha] HR HF HL. constructor.
  - intros p o t E%HF. rewrite <- HR. eauto.
  - intros p o q E%HF. rewrite <- HR. eauto.
  - by rewrite <- HR.
  - intros w. rewrite <- HL, <- Ha. split; apply spells_mono; intros; by apply HF.
Qed.

Lemma part_none f : part true f (fun _ => False) none (fun _ => False).
Proof. constructor; [by intros ? ? ? []|by intros ? ? ? []|by intros []|]. intros w. split; [|done]. by inversion 1. Qed.

Lemma part_single f o : part true f (fun _ => False) (single f o None) (fun w => w = opt o).
Proof.
  constructor.
  - intros p o' t (-> & _). by left.
  - by intros p o' q (_ & _ & ?).
  - by intros [].
  - intros w. split.
    + inversion 1 as [p o' (_ & -> & _)|p o' q w' (_ & _ & ?)]; done.
    + intros ->. by constructor.
Qed.

Lemma spells_side (F G : rel) (S : nat -> Prop) p w :
  (forall p o t, F p o t -> S p -> G p o t) -> (forall p o q, F p o (Some q) -> S p -> S q) ->
  spells F p w -> S p -> spells G p w.
Proof.
  intros HFG HS. induction 1 as [p o E|p o q w E _ IH]; intros Hp; [constructor; eauto|econstructor; eauto].
Qed.

(** What a fragment spells, and then what goes on from the node it leads to. *)
Lemma spells_into n (F G : rel) p u v :
  spells F p u -> (forall p o t, into n F p o t -> G p o t) -> spells G n v -> spells G p (u ++ v).
Proof.
  intros Hu HG Hv. induction Hu as [p o E|p o q u E Hu IH].
  - apply spells_step with n; [apply HG; by right|done].
  - rewrite <- app_assoc. apply spells_step with q; [apply HG; left; eauto|done].
Qed.

(** Two fragments from one node. *)
Lemma part_both f R1 R2 F1 F2 L1 L2 :
  part true f R1 F1 L1 -> part true f R2 F2 L2 -> (forall p, R1 p -> R2 p -> False) ->
  part true f (fun p => R1 p \/ R2 p) (both F1 F2) (fun w => L1 w \/ L2 w).
Proof.
  intros [S1 D1 O1 A1] [S2 D2 O2 A2] Hdis. constructor.
  - intros p o t [E|E]; [apply S1 in E|apply S2 in E]; tauto.
  - intros p o q [E|E]; [apply D1 in E|apply D2 in E]; left; naive_solver.
  - tauto.
  - assert (H1 : forall p w, spells (both F1 F2) p w -> R1 p -> spells F1 p w).
    { intros p w. apply (spells_side _ F1 R1).
      - intros p' o t [E|E] Hp; [done|]. apply S2 in E as [->|E]; [done|by destruct (Hdis p')].
      - intros p' o q [E|E] Hp; [apply D1 in E as [|[? ?]]; done|]. apply S2 in E as [->|E]; [done|by destruct (Hdis p')]. }
    assert (H2 : forall p w, spells (both F1 F2) p w -> R2 p -> spells F2 p w).
    { intros p w. apply (spells_side _ F2 R2).
      - intros p' o t [E|E] Hp; [|done]. apply S1 in E as [->|E]; [done|by destruct (Hdis p')].
      - intros p' o q [E|E] Hp; [|apply D2 in E as [|[? ?]]; done]. apply S1 in E as [->|E]; [done|by destruct (Hdis p')]. }
    intros w. rewrite <- A1, <- A2. split.
    + inversion 1 as [p o [E|E]|p o q v [E|E] Hq]; subst; [left; by constructor|right; by constructor|left|right].
      * econstructor; [exact E|]. apply H1; [done|]. by apply D1 in E as [|[? ?]].
      * econstructor; [exact E|]. apply H2; [done|]. by apply D2 in E as [|[? ?]].
    + intros [E|E]; eapply spells_mono; try exact E; intros; [by left|by right].
Qed.

(** A fragment that leads to the node where another one starts. *)
Lemma part_seq s f t RA RB A B LA LB :
  part true f RA A LA -> part s t RB B LB -> t <> f -> ~ RA t -> ~ RB f -> (forall p, RA p -> RB p -> False) ->
  part true f (fun p => RA p \/ p = t \/ RB p) (both (into t A) B) (cat LA LB).
Proof.
  intros [SA DA OA AA] [SB DB OB AB] Htf HtA HfB Hdis. constructor.
  - intros p o x [[(q & -> & E)|(-> & E)]|E]; [apply SA in E|apply SA in E|apply SB in E]; tauto.
  - intros p o q [[(q' & [= <-] & E)|([= <-] & E)]|E].
    + apply DA in E as [|[? ?]]; [tauto|done].
    + tauto.
    + apply DB in E as [|[_ ->]]; tauto.
  - intuition.
  - assert (HB : forall p w, spells (both (into t A) B) p w -> p = t \/ RB p -> spells B p w).
    { intros p w. apply (spells_side _ B (fun p => p = t \/ RB p)).
      - intros p' o x [[(q & -> & E)|(-> & E)]|E] Hp; [apply SA in E|apply SA in E|done];
          destruct Hp as [->|Hp], E as [->|E]; try done; by destruct (Hdis p').
      - intros p' o q [[(q' & [= <-] & E)|([= <-] & E)]|E] Hp.
        + apply SA in E. destruct Hp as [->|Hp], E as [->|E]; try done; by destruct (Hdis p').
        + apply SA in E. destruct Hp as [->|Hp], E as [->|E]; try done; by destruct (Hdis p').
        + apply DB in E as [|[_ ->]]; tauto. }
    assert (HA : forall p w, spells (both (into t A) B) p w -> p = f \/ RA p ->
      exists u v, w = u ++ v /\ spells A p u /\ spells B t v).
    { induction 1 as [p o [[(q & ? & E)|(? & E)]|E]|p o q w [[(q' & [= <-] & E)|([= <-] & E)]|E] Hw IH]; intros Hp; try done.
      - apply SB in E. destruct Hp as [->|Hp], E as [->|E]; try done; by destruct (Hdis p).
      - destruct IH as (u & v & -> & Hu & Hv); [apply DA in E as [|[? ?]]; tauto|].
        exists (opt o ++ u), v. rewrite app_assoc. split; [done|]. split; [by econstructor|done].
      - exists (opt o), w. split; [done|]. split; [by constructor|]. apply HB; [done|by left].
      - apply SB in E. destruct Hp as [->|Hp], E as [->|E]; try done; by destruct (Hdis p). }
    intros w. unfold cat. setoid_rewrite <- AA. setoid_rewrite <- AB. split.
    + intros E. apply HA; [done|by left].
    + intros (u & v & -> & Hu & Hv). apply (spells_into t A); [done|intros; by left|].
      eapply spells_mono; [|exact Hv]. by right.
Qed.

(** A fragment that leads back to its own node, with a way on. *)
Lemma part_loop l R B L :
  part true l R B L -> part false l R (both (into l B) (single l None None)) (star L).
Proof.
  intros [S D O A]. constructor.
  - intros p o x [[(q & -> & E)|(-> & E)]|(-> & _)]; [apply S in E; tauto..|by left].
  - intros p o q [[(q' & [= <-] & E)|([= <-] & E)]|(_ & _ & ?)]; [|by right|done].
    apply D in E as [|[? ?]]; [by left|done].
  - done.
  - set (F := both _ _).
    assert (HF : forall p w, spells F p w ->
      (p = l -> exists n, power (spells B l) n w) /\
      (R p -> exists u v n, w = u ++ v /\ spells B p u /\ power (spells B l) n v)).
    { induction 1 as [p o [[(q & ? & E)|(? & E)]|(-> & -> & _)]|p o q w [[(q' & [= <-] & E)|([= <-] & E)]|(_ & _ & ?)] Hw [IH1 IH2]]; try done.
      - split; [|by intros]. intros _. exists 0. constructor.
      - destruct IH2 as (u & v & n & -> & Hu & Hv); [by apply D in E as [|[? ?]]|]. split.
        + intros ->. exists (Datatypes.S n). rewrite app_assoc. constructor; [by econstructor|done].
        + intros _. exists (opt o ++ u), v, n. rewrite app_assoc. split; [done|]. split; [by econstructor|done].
      - destruct (IH1 eq_refl) as [n Hn]. split.
        + intros ->. exists (Datatypes.S n). constructor; [by constructor|done].
        + intros _. exists (opt o), w, n. split; [done|]. split; [by constructor|done]. }
    assert (Hpow : forall n w, power L n w <-> power (spells B l) n w).
    { intros n w. split; (induction 1; constructor; [by apply A|done]). }
    intros w. unfold star. setoid_rewrite Hpow. split; [intros E; by apply (proj1 (HF l w E))|].
    intros [n Hn]. induction Hn as [|n u v Hu Hv IH].
    + apply (spells_out F l None). by right.
    + apply (spells_into l B); [done|intros; by left|done].
Qed.

(** ** Ranks

    [scan] passes over a node whose one edge takes no kind, without a mark that it was
    there.  It ends because the edges at such nodes lead up in a rank; the edges that lead
    back in a loop are at nodes with other edges, which are marked. *)

Definition busy (F : rel) (p : nat) : Prop :=
  exists o1 t1 o2 t2, F p o1 t1 /\ F p o2 t2 /\ (o1, t1) <> (o2, t2).

Record calm (f : nat) (R : nat -> Prop) (m : nat) (F : rel) : Prop := {
  calm_rank : exists r : nat -> nat, r f = 0 /\ (forall p, R p -> r p <= m) /\
    forall p q, F p None (Some q) -> r p < r q \/ busy F p /\ busy F q
}.

(** What a body of a loop must have: its ways out that take no kind are at busy nodes, and
    its own node has more than such a way out. *)
Record brisk (f : nat) (F : rel) : Prop := {
  brisk_out : forall p, F p None None -> busy F p;
  brisk_first : exists o t, F f o t /\ (o, t) <> (None, None)
}.

Lemma busy_mono (F G : rel) p : (forall o t, F p o t -> G p o t) -> busy F p -> busy G p.
Proof. intros HFG (o1 & t1 & o2 & t2 & H1 & H2 & Hne). exists o1, t1, o2, t2. eauto. Qed.

Lemma into_edge n (F : rel) p o t : F p o t -> into n F p o (Some (default n t)).
Proof. destruct t as [q|]; intros E; [left; eauto|by right]. Qed.

Lemma busy_into n (F G : rel) p :
  (forall o, ~ F p o (Some n)) -> (forall o t, into n F p o t -> G p o t) -> busy F p -> busy G p.
Proof.
  intros Hn HG (o1 & t1 & o2 & t2 & H1 & H2 & Hne).
  exists o1, (Some (default n t1)), o2, (Some (default n t2)).
  split; [by apply HG, into_edge|]. split; [by apply HG, into_edge|]. intros [= -> E]. apply Hne. f_equal.
  destruct t1 as [q1|], t2 as [q2|]; simpl in E; [congruence|subst q1; by apply Hn in H1|subst q2; by apply Hn in H2|done].
Qed.

Lemma calm_ext f R R' m m' F F' : calm f R m F -> (forall p, R' p -> R p) -> m <= m' -> same F F' -> calm f R' m' F'.
Proof.
  intros [(r & Hf & HR & HF)] Hsub Hm Hsame. constructor. exists r. split; [done|]. split.
  - intros p Hp%Hsub%HR. lia.
  - intros p q [E|[E1 E2]]%Hsame%HF; [by left|right].
    split; (eapply busy_mono; [|eassumption]); intros; by apply Hsame.
Qed.

Lemma brisk_ext f F F' : brisk f F -> same F F' -> brisk f F'.
Proof.
  intros [Ho (o & t & E & Hne)] Hs. constructor.
  - intros p Hp%Hs%Ho. eapply busy_mono; [|exact Hp]. intros; by apply Hs.
  - exists o, t. split; [by apply Hs|done].
Qed.

Lemma calm_single f o : calm f (fun _ => False) 0 (single f o None).
Proof. constructor. exists (fun _ => 0). split; [done|]. split; [done|]. by intros p q (_ & _ & ?). Qed.

Lemma calm_none f : calm f (fun _ => False) 0 none.
Proof. constructor. exists (fun _ => 0). split; [done|]. split; [done|]. by intros p q []. Qed.

Lemma brisk_name f id : brisk f (single f (Some id) None).
Proof. constructor; [by intros p (_ & ? & _)|]. exists (Some id), None. by split. Qed.

Section combine.
Context (R1 R2 : nat -> Prop) `{!forall p, Decision (R1 p), !forall p, Decision (R2 p)}.

Lemma calm_both f F1 F2 L1 L2 m1 m2 :
part true f R1 F1 L1 -> part true f R2 F2 L2 -> (forall p, R1 p -> R2 p -> False) ->
calm f R1 m1 F1 -> calm f R2 m2 F2 -> calm f (fun p => R1 p \/ R2 p) (m1 + m2) (both F1 F2).
Proof.
intros [S1 D1 O1 _] [S2 D2 O2 _] Hdis [(r1 & Z1 & B1 & E1)] [(r2 & Z2 & B2 & E2)]. constructor.
set (r p := if decide (R1 p) then r1 p else if decide (R2 p) then r2 p else 0).
assert (V1 : forall p, p = f \/ R1 p -> r p = r1 p).
{ intros p Hp. unfold r. destruct (decide (R1 p)); [done|]. destruct Hp as [->|]; [|done]. by rewrite decide_False. }
assert (V2 : forall p, p = f \/ R2 p -> r p = r2 p).
{ intros p Hp. unfold r. destruct (decide (R1 p)) as [Hr|]; [destruct Hp as [->|]; [done|by destruct (Hdis p)]|].
destruct (decide (R2 p)); [done|]. by destruct Hp as [->|]. }
exists r.
split; [by rewrite V1 by by left|]. split.
- intros p [Hp|Hp]; [rewrite V1 by tauto; specialize (B1 p Hp)|rewrite V2 by tauto; specialize (B2 p Hp)]; lia.
- intros p q [E|E].
+ pose proof (S1 _ _ _ E) as Hp. pose proof (D1 _ _ _ E) as [Hq|[? ?]]; [|done]. rewrite !V1 by tauto.
apply E1 in E as [|[? ?]]; [by left|right]. split; (eapply busy_mono; [|eassumption]); intros; by left.
+ pose proof (S2 _ _ _ E) as Hp. pose proof (D2 _ _ _ E) as [Hq|[? ?]]; [|done]. rewrite !V2 by tauto.
apply E2 in E as [|[? ?]]; [by left|right]. split; (eapply busy_mono; [|eassumption]); intros; by right.
Qed.

Lemma calm_seq s f t A B LA LB m1 m2 :
part true f R1 A LA -> part s t R2 B LB -> t <> f -> ~ R1 t -> ~ R2 f -> (forall p, R1 p -> R2 p -> False) ->
calm f R1 m1 A -> calm t R2 m2 B -> calm f (fun p => R1 p \/ p = t \/ R2 p) (S (m1 + m2)) (both (into t A) B).
Proof.
intros [S1 D1 O1 _] [S2 D2 O2 _] Htf Ht Hf Hdis [(r1 & Z1 & B1 & E1)] [(r2 & Z2 & B2 & E2)]. constructor.
set (r p := if decide (p = t) then S m1 else if decide (R2 p) then S (m1 + r2 p) else r1 p).
assert (V1 : forall p, p = f \/ R1 p -> r p = r1 p /\ r p <= m1).
{ intros p Hp. unfold r. rewrite decide_False by naive_solver. rewrite decide_False by naive_solver.
split; [done|]. destruct Hp as [->|Hp]; [lia|by apply B1]. }
assert (V2 : forall p, p = t \/ R2 p -> r p = S (m1 + r2 p)).
{ intros p Hp. unfold r. destruct (decide (p = t)) as [->|]; [lia|]. rewrite decide_True by tauto. done. }
exists r. split; [by rewrite (proj1 (V1 f (or_introl eq_refl)))|]. split.
- intros p [Hp|[->|Hp]]; [pose proof (V1 p (or_intror Hp)); lia|rewrite V2 by tauto; lia|].
rewrite V2 by tauto. specialize (B2 p Hp). lia.
- intros p q [[(q' & [= <-] & E)|([= ->] & E)]|E].
+ pose proof (S1 _ _ _ E) as Hp. pose proof (D1 _ _ _ E) as [Hq|[? ?]]; [|done].
rewrite (proj1 (V1 p Hp)), (proj1 (V1 q (or_intror Hq))).
assert (Hn : forall p o, ~ A p o (Some t)) by (intros p' o' E'; by apply D1 in E' as [|[? ?]]).
apply E1 in E as [|[? ?]]; [by left|right]. split; (eapply (busy_into t A); [apply Hn| |eassumption]); intros; by left.
+ left. pose proof (V1 p (S1 _ _ _ E)). rewrite (V2 t (or_introl eq_refl)). lia.
+ pose proof (S2 _ _ _ E) as Hp. assert (Hq : q = t \/ R2 q) by (apply D2 in E as [|[_ ->]]; tauto).
rewrite !V2 by done. apply E2 in E as [|[? ?]]; [left; lia|right].
split; (eapply busy_mono; [|eassumption]); intros; by right.
Qed.
End combine.

Lemma calm_loop l R B L m :
  part true l R B L -> calm l R m B -> brisk l B -> calm l R m (both (into l B) (single l None None)).
Proof.
  intros [S D O _] [(r & Z & HR & E)] [Hout (o & t & Hf & Hne)]. constructor. exists r. split; [done|]. split; [done|].
  set (F := both _ _). assert (Hn : forall p o, ~ B p o (Some l)) by (intros p' o' E'; by apply D in E' as [|[? ?]]).
  assert (Hbusy : forall p, busy B p -> busy F p).
  { intros p Hp. eapply (busy_into l B); [apply Hn| |exact Hp]. intros; by left. }
  intros p q [[(q' & [= <-] & Ep)|([= ->] & Ep)]|(_ & _ & ?)]; [| |done].
  - apply E in Ep as [|[? ?]]; [by left|right; auto].
  - right. split; [by apply Hbusy, Hout|]. exists o, (Some (default l t)), None, None.
    split; [left; by apply into_edge|]. split; [by right|done].
Qed.

Lemma brisk_loop l R B L : part true l R B L -> brisk l B -> brisk l (both (into l B) (single l None None)).
Proof.
  intros [S D O _] [Hout (o & t & Hf & Hne)]. constructor.
  - intros p [[(q & ? & _)|(? & _)]|(-> & _)]; [done..|]. exists o, (Some (default l t)), None, None.
    split; [left; by apply into_edge|]. split; [by right|done].
  - exists o, (Some (default l t)). split; [left; by apply into_edge|done].
Qed.

Lemma brisk_seq f t A B : (exists o x, A f o x) -> brisk t B -> brisk f (both (into t A) B).
Proof.
  intros (o & x & E) [Hout _]. constructor.
  - intros p [[(q & ? & _)|(? & _)]|Ep]; [done..|]. eapply busy_mono; [|by apply Hout]. intros; by right.
  - exists o, (Some (default t x)). split; [left; by apply into_edge|done].
Qed.

Lemma brisk_both f F1 F2 : brisk f F1 -> brisk f F2 -> brisk f (both F1 F2).
Proof.
  intros [O1 (o & t & E & Hne)] [O2 _]. constructor.
  - intros p [Ep|Ep]; [eapply busy_mono; [|by apply O1]; intros; by left|eapply busy_mono; [|by apply O2]; intros; by right].
  - exists o, t. split; [by left|done].
Qed.

(** A way out beside a fragment. *)
Lemma brisk_opt f F : brisk f F -> brisk f (both (single f None None) F).
Proof.
  intros [O (o & t & E & Hne)]. constructor.
  - intros p [(-> & _)|Ep].
    + exists o, t, None, None. split; [by right|]. split; [by left|done].
    + eapply busy_mono; [|by apply O]. intros; by right.
  - exists o, t. split; [by right|done].
Qed.
