(* ===== verification/TextCompile.v ===== *)
(** [Schema::new] of [documents/crates/text/src/schema.rs]: from the spec of a schema to its
    node types, its mark types, and the table of match states that [explore] builds from the
    automaton of each content expression. *)

From S2P Require Import Prelude Json Utf TextData TextSchema TextExpr TextNfa.
Open Scope nat_scope.

(** A [for] loop that puts each element of a list on a state. *)
Fixpoint try_fold {E A B} (f : B -> A -> Result E B) (l : list A) (b : B) : Result E B :=
  match l with
  | [] => Ok b
  | x :: l => b ← f b x; try_fold f l b
  end.

(** ** The table of an automaton *)

Abbreviation Labeled := (gmap (list nat) MatchId) (only parsing).
Abbreviation Moves := (list (NodeId * list nat)) (only parsing).
Abbreviation Explored := (MatchId * Labeled * list MatchState)%type (only parsing).

(** [Iterator::position] of a kind. *)
Fixpoint position_of (kind : NodeId) (out : Moves) : option nat :=
  match out with
  | [] => None
  | (k, _) :: out => if k =? kind then Some 0 else S <$> position_of kind out
  end.

Definition push_new (l : list nat) (n : nat) : list nat := if bool_decide (n ∈ l) then l else l ++ [n].

(** What one edge adds to the moves of [explore]. *)
Definition add_move (nfa : Nfa) (out : Moves) (e : Edge) : built Moves :=
  match term e, to e with
  | Some term, Some to =>
      let found := position_of term out in
      let out := match found with Some _ => out | None => out ++ [(term, [])] end in
      let index := default (length out - 1) found in
      nodes ← Nfa.null_from nfa to;
      entry ← or_panic (out !! index);
      Ok (<[index := (entry.1, foldl push_new entry.2 nodes)]> out)
  | _, _ => Ok out
  end.

Definition moves (nfa : Nfa) (states : list nat) : built Moves :=
  try_fold (fun out state =>
    edges ← or_panic (nfa !! state);
    try_fold (add_move nfa) edges out) states [].

(** The second loop of [explore]: each move goes in the row [id]. [inner] is [explore]. *)
Fixpoint follow (inner : list nat -> Labeled -> list MatchState -> built Explored) (id : MatchId)
    (out : Moves) (labeled : Labeled) (matches : list MatchState) : built (Labeled * list MatchState) :=
  match out with
  | [] => Ok (labeled, matches)
  | (kind, next) :: out =>
      let next := Nfa.sort_desc next in
      '(target, labeled, matches) ← match labeled !! next with
        | Some known => Ok (known, labeled, matches)
        | None => inner next labeled matches
        end;
      row ← or_panic (matches !! id);
      follow inner id out labeled
        (<[id := MkMatchState (valid_end row) (TextSchema.next row ++ [(kind, target)])]> matches)
  end.

Definition explore_round (nfa : Nfa) (inner : list nat -> Labeled -> list MatchState -> built Explored)
    (states : list nat) (labeled : Labeled) (matches : list MatchState) : built Explored :=
  out ← moves nfa states;
  last ← usub (length nfa) 1;
  let id := length matches in
  '(labeled, matches) ← follow inner id out (<[states := id]> labeled)
    (matches ++ [MkMatchState (bool_decide (last ∈ states)) []]);
  Ok (id, labeled, matches).

(** [deep n round inner]: [round] over [inner] to the depth [2 ^ n], put together only as
    deep as a call goes. *)
Fixpoint deep {A B C D} (n : nat) (round : (A -> B -> C -> D) -> A -> B -> C -> D) (inner : A -> B -> C -> D)
    (a : A) (b : B) (c : C) : D :=
  match n with
  | O => round inner a b c
  | S n => deep n round (fun a b c => deep n round inner a b c) a b c
  end.

(** Each call that goes deeper labels one more set of nodes, so twice as many calls as there
    are sets are enough; [TextTable] proves it. *)
Definition explore (nfa : Nfa) : list nat -> Labeled -> list MatchState -> built Explored :=
  deep (S (length nfa)) (explore_round nfa) (fun _ _ _ => Panic).

Definition compile (expression : string) (nodes : list NodeType) (ids : gmap string NodeId)
    (matches : list MatchState) : built (MatchId * list MatchState) :=
  let words := tokenize expression in
  match words with
  | [] => Ok (EMPTY_MATCH, matches)
  | _ =>
      '(expr, c) ← parse_expr words nodes ids (S (length words)) start_cursor;
      if bool_decide (peek words c = None) then
        nfa ← Nfa.of_expr expr;
        start ← Nfa.null_from nfa 0;
        '(id, _, matches) ← explore nfa start ∅ matches;
        Ok (id, matches)
      else Err (TrailingText expression)
  end.

(** ** The spec of a schema *)

Record NodeSpec : Type := MkNodeSpec {
  ns_name : string;
  ns_content : option string;
  ns_group : option string;
  ns_marks : option string;
  ns_inline : bool;
  ns_atom : bool;
  ns_attrs : Map.t
}.

Record MarkSpec : Type := MkMarkSpec {
  ms_name : string;
  ms_group : option string;
  ms_excludes : option string;
  ms_attrs : Map.t
}.

Record SchemaSpec : Type := MkSchemaSpec {
  ss_nodes : list NodeSpec;
  ss_marks : list MarkSpec;
  ss_top_node : option string
}.

Definition attributes (spec : Map.t) : list Attribute :=
  (fun '(name, attribute) => MkAttribute name (ValueOps.get "default" attribute)) <$> spec.

Definition words (text : option string) : list string :=
  match text with Some text => split_whitespace text | None => [] end.

(** [u16::try_from] of an index. *)
Definition small (index : nat) : option nat := if (N.of_nat index <? 65536)%N then Some index else None.

Definition node_type (node : NodeSpec) : NodeType :=
  MkNodeType (ns_name node) (words (ns_group node)) (attributes (ns_attrs node))
    (negb (ns_inline node || bool_decide (ns_name node = "text"%string))) (ns_atom node) EMPTY_MATCH false None.

Definition mark_type (mark : MarkSpec) : MarkType :=
  MkMarkType (ms_name mark) (words (ms_group mark)) (attributes (ms_attrs mark)) [].

(** The loops that number the types: a name that comes twice stands for the later one. *)
Fixpoint number {T} (name : T -> string) (too_many : BadSchema) (specs : list T) (index : nat)
    (ids : gmap string nat) : built (gmap string nat) :=
  match specs with
  | [] => Ok ids
  | spec :: specs =>
      id ← ok_or too_many (small index);
      number name too_many specs (S index) (<[name spec := id]> ids)
  end.

Definition enumerate {A} (l : list A) : list (nat * A) := zip (seq 0 (length l)) l.

(** One name of [gather_marks]: the mark, or each mark of the group. *)
Definition gather_name (marks : list MarkType) (ids : gmap string MarkId) (found : list MarkId) (name : string) :
    built (list MarkId) :=
  match ids !! name with
  | Some id => Ok (found ++ [id])
  | None =>
      let more := omap (fun '(index, mark) =>
        if bool_decide (name = "_"%string) || has_group name (mt_groups mark) then Some (default 0 (small index)) else None)
        (enumerate marks) in
      match more with [] => Err (UnknownMarkType name) | _ => Ok (found ++ more) end
  end.

Definition gather_marks (marks : list MarkType) (ids : gmap string MarkId) (names : string) : built (list MarkId) :=
  try_fold (gather_name marks ids) (split_space names) [].

(** What the loop over the node specs changes. *)
Record Building : Type := MkBuilding {
  b_nodes : list NodeType;
  b_matches : list MatchState;
  b_compiled : gmap string MatchId
}.

Section new.
Variable marks : list MarkType.
Variable node_ids : gmap string NodeId.
Variable mark_ids : gmap string MarkId.

Definition content_rule (b : Building) (expression : string) : built (MatchId * Building) :=
match b_compiled b !! expression with
| Some found => Ok (found, b)
| None =>
'(found, matches) ← compile expression (b_nodes b) node_ids (b_matches b);
Ok (found, MkBuilding (b_nodes b) matches (<[expression := found]> (b_compiled b)))
end.

Definition is_inline_content (b : Building) (content_match : MatchId) : built bool :=
row ← or_panic (b_matches b !! content_match);
match next row with
| [] => Ok false
| (first, _) :: _ => node ← or_panic (b_nodes b !! first); Ok (negb (nt_is_block node))
end.

Definition mark_set_of (names : option string) (inline_content : bool) : built (option (list MarkId)) :=
match names with
| Some names =>
if bool_decide (names = "_"%string) then Ok None
else if bool_decide (names = ""%string) then Ok (Some [])
else Some <$> gather_marks marks mark_ids names
| None => Ok (if inline_content then None else Some [])
end.

(** One round of the loop over the node specs. *)
Definition fill_node (b : Building) (entry : nat * NodeSpec) : built Building :=
let '(index, node) := entry in
'(content_match, b) ← content_rule b (default ""%string (ns_content node));
inline_content ← is_inline_content b content_match;
mark_set ← mark_set_of (ns_marks node) inline_content;
target ← or_panic (b_nodes b !! index);
Ok (MkBuilding
(<[index := MkNodeType (nt_name target) (nt_groups target) (nt_attrs target) (nt_is_block target) (nt_atom target)
content_match inline_content mark_set]> (b_nodes b))
(b_matches b) (b_compiled b)).

(** One round of the loop over the mark specs. *)
Definition fill_mark (marks : list MarkType) (entry : nat * MarkSpec) : built (list MarkType) :=
let '(index, mark) := entry in
excluded ← match ms_excludes mark with
| None => Ok [default 0 (small index)]
| Some names => if bool_decide (names = ""%string) then Ok [] else gather_marks marks mark_ids names
end;
target ← or_panic (marks !! index);
Ok (<[index := MkMarkType (mt_name target) (mt_groups target) (mt_attrs target) excluded]> marks).
End new.

Definition new (spec : SchemaSpec) : built Schema :=
  let nodes := node_type <$> ss_nodes spec in
  node_ids ← number ns_name TooManyNodes (ss_nodes spec) 0 ∅;
  let marks := mark_type <$> ss_marks spec in
  mark_ids ← number ms_name TooManyMarks (ss_marks spec) 0 ∅;
  let top_name := default "doc"%string (ss_top_node spec) in
  top ← ok_or (NoTopNode top_name) (node_ids !! top_name);
  text ← ok_or NoTextNode (node_ids !! "text"%string);
  b ← try_fold (fill_node marks node_ids mark_ids) (enumerate (ss_nodes spec))
        (MkBuilding nodes [MkMatchState true []] ∅);
  marks ← try_fold (fill_mark mark_ids) (enumerate (ss_marks spec)) marks;
  Ok (MkSchema (b_nodes b) marks node_ids mark_ids (b_matches b) top text).
