(* ===== verification/TextCompileSpec.v ===== *)
(** [Nfa::compile] builds the fragment of its expression: the automaton spells exactly the
    language of the expression. *)

From S2P Require Import Prelude Json TextData TextSchema TextExpr TextNfa TextThompson.
Open Scope nat_scope.

(** ** Edges by their place *)

Definition entry (nfa : Nfa) (r : EdgeRef) : option Edge := row ← nfa !! r.1; row !! r.2.

(** The automaton grows, and each edge that was there stays. *)
Definition ext (nfa nfa' : Nfa) : Prop :=
  length nfa <= length nfa' /\ forall r x, entry nfa r = Some x -> entry nfa' r = Some x.
Definition fresh (nfa nfa' : Nfa) (r : EdgeRef) (x : Edge) : Prop := entry nfa r = None /\ entry nfa' r = Some x.
Definition New (nfa nfa' : Nfa) : rel := fun p o t => exists i, fresh nfa nfa' (p, i) (MkEdge o t).
Definition within (a b p : nat) : Prop := a <= p < b.

#[export] Instance within_dec a b p : Decision (within a b p).
Proof. unfold within. apply _. Defined.

Lemma entry_lt nfa p i x : entry nfa (p, i) = Some x -> p < length nfa.
Proof. unfold entry. intros (row & E & _)%bind_Some. by eapply lookup_lt_Some. Qed.

Lemma ext_refl nfa : ext nfa nfa.
Proof. by split. Qed.

Lemma ext_trans a b c : ext a b -> ext b c -> ext a c.
Proof. intros [L1 E1] [L2 E2]. split; [lia|eauto]. Qed.

Lemma fresh_trans a b c r x : ext a b -> ext b c -> fresh a c r x <-> fresh a b r x \/ fresh b c r x.
Proof.
  intros [_ E1] [_ E2]. unfold fresh. split.
  - intros [Ha Hc]. destruct (entry b r) as [y|] eqn:Eb; [|by right]. left. split; [done|].
    rewrite <- Hc. symmetry. by apply E2.
  - intros [[Ha Hb]|[Hb Hc]]; [split; [done|by apply E2]|]. split; [|done].
    destruct (entry a r) eqn:Ea; [|done]. apply E1 in Ea. congruence.
Qed.

Lemma new_trans a b c : ext a b -> ext b c -> same (New a c) (both (New a b) (New b c)).
Proof.
  intros E1 E2 p o t. unfold New, both. setoid_rewrite (fresh_trans a b c); [|done..]. naive_solver.
Qed.

Lemma node_spec nfa nfa' n : Nfa.node nfa = (nfa', n) ->
  ext nfa nfa' /\ n = length nfa /\ length nfa' = S n /\ forall r, entry nfa' r = entry nfa r.
Proof.
  unfold Nfa.node. intros [= <- <-].
  assert (E : forall r, entry (nfa ++ [[]]) r = entry nfa r).
  { intros [p i]. unfold entry. simpl. destruct (decide (p < length nfa)).
    - by rewrite lookup_app_l.
    - rewrite lookup_app_r by lia. rewrite (lookup_ge_None_2 nfa) by lia.
      destruct (p - length nfa) as [|[|k]]; simpl; [by destruct i|done|done]. }
  split; [|split; [done|split; [rewrite length_app; simpl; lia|done]]]. split; [rewrite length_app; lia|].
  intros r x. by rewrite E.
Qed.

Lemma edge_spec nfa from t o : from < length nfa -> exists nfa' r, Nfa.edge nfa from t o = Ok (nfa', r) /\
  ext nfa nfa' /\ length nfa' = length nfa /\ fst r = from /\
  forall r' x, fresh nfa nfa' r' x <-> r' = r /\ x = MkEdge o t.
Proof.
  intros Hf. unfold Nfa.edge. destruct (lookup_lt_is_Some_2 _ _ Hf) as [row Hrow]. rewrite Hrow.
  cbn [or_panic mbind Result_bind]. eexists _, _. split; [done|].
  assert (E : forall p i, entry (<[from:=row ++ [MkEdge o t]]> nfa) (p, i) =
    if decide ((p, i) = (from, length row)) then Some (MkEdge o t) else entry nfa (p, i)).
  { intros p i. unfold entry. simpl. destruct (decide (from = p)) as [<-|Hne].
    - rewrite list_lookup_insert_eq by done. rewrite Hrow. simpl. destruct (decide _) as [[= ->]|Hne].
      + by rewrite lookup_snoc_Some; right.
      + destruct (decide (i < length row)); [by rewrite lookup_app_l|].
        rewrite (lookup_ge_None_2 row), lookup_ge_None_2; [done| |lia]. rewrite length_app. simpl.
        assert (i <> length row) by congruence. lia.
    - rewrite list_lookup_insert_ne by done. rewrite decide_False; [done|congruence]. }
  assert (Hnone : entry nfa (from, length row) = None).
  { unfold entry. simpl. rewrite Hrow. simpl. by apply lookup_ge_None_2. }
  split; [|split; [by rewrite length_insert|split; [done|]]].
  - split; [by rewrite length_insert|]. intros [p i] x Hx. rewrite E. destruct (decide _) as [[= -> ->]|]; congruence.
  - intros [p i] x. unfold fresh. rewrite E. destruct (decide _) as [[= -> ->]|Hne]; split.
    + by intros [_ [= <-]].
    + by intros [_ ->].
    + intros [? ?]. congruence.
    + by intros [? _].
Qed.

(** [connect] leads each edge of its list to the node. *)
Definition led (t : nat) (x : Edge) : Edge := MkEdge (term x) (Some t).

Lemma connect_spec es t : forall nfa, (forall r, r ∈ es -> is_Some (entry nfa r)) ->
  exists nfa', Nfa.connect nfa es t = Ok nfa' /\ length nfa' = length nfa /\
    forall r, entry nfa' r = if decide (r ∈ es) then led t <$> entry nfa r else entry nfa r.
Proof.
  induction es as [|[p i] es IH]; intros nfa Hes; cbn [Nfa.connect].
  - exists nfa. split; [done|]. split; [done|]. intros r. by rewrite decide_False by by intros ?%elem_of_nil.
  - destruct (Hes (p, i)) as [x Hx]; [by left|]. unfold entry in Hx. simpl in Hx.
    apply bind_Some in Hx as (row & Hrow & Hx). rewrite Hrow. cbn [or_panic mbind Result_bind]. rewrite Hx.
    cbn [or_panic mbind Result_bind].
    assert (E : forall r, entry (<[p:=<[i:=MkEdge (term x) (Some t)]> row]> nfa) r =
      if decide (r = (p, i)) then Some (led t x) else entry nfa r).
    { intros [p' i']. unfold entry. simpl. destruct (decide (p = p')) as [<-|Hne].
      - rewrite list_lookup_insert_eq by by eapply lookup_lt_Some. rewrite Hrow. simpl.
        destruct (decide (i = i')) as [<-|Hni].
        + by rewrite list_lookup_insert_eq, decide_True by (done || by eapply lookup_lt_Some).
        + by rewrite list_lookup_insert_ne, decide_False by (done || congruence).
      - by rewrite list_lookup_insert_ne, decide_False by (done || congruence). }
    assert (Hpi : entry nfa (p, i) = Some x) by (unfold entry; simpl; by rewrite Hrow).
    destruct (IH (<[p:=<[i:=MkEdge (term x) (Some t)]> row]> nfa)) as (nfa' & -> & Hl & H').
    { intros r Hr. rewrite E. destruct (decide _); [done|]. apply Hes. by right. }
    exists nfa'. split; [done|]. split; [by rewrite Hl, length_insert|]. intros r. rewrite H', E.
    destruct (decide (r = (p, i))) as [->|Hne].
    + rewrite (decide_True (P := (p, i) ∈ (p, i) :: es)) by by left. rewrite Hpi. by destruct (decide _).
    + destruct (decide (r ∈ es)); [rewrite decide_True by by right|rewrite decide_False by set_solver]; done.
Qed.

(** What leads on from a piece that was just built, led to a node. *)
Lemma lead_spec nfa nfa' es t :
  ext nfa nfa' -> (forall r, r ∈ es <-> exists o, fresh nfa nfa' r (MkEdge o None)) ->
  exists nfa'', Nfa.connect nfa' es t = Ok nfa'' /\ ext nfa nfa'' /\ length nfa'' = length nfa' /\
    same (New nfa nfa'') (into t (New nfa nfa')) /\ (forall r o, ~ fresh nfa nfa'' r (MkEdge o None)).
Proof.
  intros [Hl He] Hes. destruct (connect_spec es t nfa') as (nfa'' & E & Hl' & H').
  { intros r (o & _ & Hr)%Hes. eauto. }
  assert (Hf : forall r x, fresh nfa nfa'' r x <->
    exists y, fresh nfa nfa' r y /\ x = MkEdge (term y) (Some (default t (to y)))).
  { intros r x. unfold fresh. rewrite H'. split.
    - intros [Hn Hx]. destruct (decide (r ∈ es)) as [Hin|Hin].
      + apply Hes in Hin as (o & _ & Hy). rewrite Hy in Hx. injection Hx as <-. by exists (MkEdge o None).
      + exists x. split; [done|]. destruct x as [o [q|]]; [done|]. destruct Hin. apply Hes. by exists o.
    - intros (y & [Hn Hy] & ->). split; [done|]. destruct (decide (r ∈ es)) as [Hin|Hin].
      + apply Hes in Hin as (o & _ & Hy'). rewrite Hy' in *. by injection Hy as <-.
      + destruct y as [o [q|]]; [done|]. destruct Hin. apply Hes. by exists o. }
  exists nfa''. split; [done|]. split; [|split; [done|split]].
  - split; [lia|]. intros r x Hx. rewrite H', decide_False by (intros (o & Hn & _)%Hes; congruence). by apply He.
  - intros p o x. unfold New, into. setoid_rewrite Hf. split.
    + intros (i & [o' [q|]] & Hy & [= -> ->]); [left|right]; eauto.
    + intros [(q & -> & i & Hi)|(-> & i & Hi)]; exists i; eexists; (split; [exact Hi|done]).
  - intros r o Hr. apply Hf in Hr as (y & _ & ?). done.
Qed.

(** ** Expressions whose automaton is exact, and whose scans end *)

(** No part repeats from zero on without a bound ([{0,}]): such a part loops back to a node
    that it may share with its neighbours.  The parser makes no empty sequence. *)
Fixpoint sound (e : Expr) : bool :=
  match e with
  | Choice es => forallb sound es
  | Seq es => bool_decide (es <> []) && forallb sound es
  | Plus e | Star e | Opt e => sound e
  | Range min max e => negb ((min =? 0) && bool_decide (max = None)) && sound e
  | Name _ => true
  end.

(** No numbers of times at all, and no empty choice or sequence. *)
Fixpoint plain (e : Expr) : bool :=
  match e with
  | Choice es | Seq es => bool_decide (es <> []) && forallb plain es
  | Plus e | Star e | Opt e => plain e
  | Range _ _ _ => false
  | Name _ => true
  end.

(** Numbers of times only outside what repeats without a bound. *)
Fixpoint tame (e : Expr) : bool :=
  match e with
  | Choice es => forallb tame es
  | Seq es => bool_decide (es <> []) && forallb tame es
  | Plus e | Star e => plain e
  | Opt e => tame e
  | Range min (Some _) e => tame e
  | Range min None e => negb (min =? 0) && plain e
  | Name _ => true
  end.

Lemma forallb_imp {A} (f g : A -> bool) l :
  Forall (fun x => f x = true -> g x = true) l -> forallb f l = true -> forallb g l = true.
Proof. induction 1 as [|x l Hx Hl IH]; [done|]. simpl. rewrite !andb_true_iff. naive_solver. Qed.

Lemma plain_tame e : plain e = true -> tame e = true.
Proof.
  induction e as [es IH|es IH|e IH|e IH|e IH|min max e IH|id] using expr_tree_ind; simpl; try done.
  - intros [_ H]%andb_true_iff. by eapply forallb_imp.
  - intros [-> H]%andb_true_iff. by eapply forallb_imp.
Qed.

Lemma tame_sound e : tame e = true -> sound e = true.
Proof.
  assert (Hplain : forall e, plain e = true -> sound e = true).
  { intros e0. induction e0 as [es IH|es IH|e0 IH|e0 IH|e0 IH|min max e0 IH|id] using expr_tree_ind; simpl; try done;
      intros [Hne H]%andb_true_iff; rewrite ?Hne; by eapply forallb_imp. }
  induction e as [es IH|es IH|e IH|e IH|e IH|min max e IH|id] using expr_tree_ind; simpl; auto.
  - intros H. by eapply forallb_imp.
  - intros [-> H]%andb_true_iff. by eapply forallb_imp.
  - destruct max as [max|]; [intros H; rewrite IH by done; by rewrite andb_false_r|].
    intros [H1 H2%Hplain]%andb_true_iff. by rewrite H2, andb_true_r, bool_decide_eq_true_2, andb_true_r.
Qed.

(** ** What a call of [compile] leaves *)

Record compiled (e : Expr) (nfa : Nfa) (from : nat) (nfa' : Nfa) (es : list EdgeRef) : Prop := {
  co_ext : ext nfa nfa';
  co_part : part true from (within (length nfa) (length nfa')) (New nfa nfa') (lang e);
  co_out : forall r, r ∈ es <-> exists o, fresh nfa nfa' r (MkEdge o None);
  co_calm : tame e = true -> calm from (within (length nfa) (length nfa')) (length nfa' - length nfa) (New nfa nfa');
  co_brisk : plain e = true -> brisk from (New nfa nfa')
}.

Definition compiles (e : Expr) : Prop := forall nfa from, from < length nfa ->
  exists nfa' es, Nfa.compile e nfa from = Ok (nfa', es) /\ compiled e nfa from nfa' es.

Lemma new_same_entries nfa nfa1 nfa2 : (forall r, entry nfa1 r = entry nfa r) -> same (New nfa nfa2) (New nfa1 nfa2).
Proof. intros E p o t. unfold New, fresh. by setoid_rewrite E. Qed.

Lemma edge_new nfa from t o nfa' r :
  fst r = from -> (forall r' x, fresh nfa nfa' r' x <-> r' = r /\ x = MkEdge o t) -> same (New nfa nfa') (single from o t).
Proof.
  intros <- Hf p o' t'. unfold New, single. setoid_rewrite Hf. destruct r as [q i]. simpl. split.
  - by intros (? & [= -> ->] & [= -> ->]).
  - intros (-> & -> & ->). by exists i.
Qed.

Lemma same_both F F' G G' : same F F' -> same G G' -> same (both F G) (both F' G').
Proof. intros H1 H2 p o t. unfold both. by rewrite (H1 p o t), (H2 p o t). Qed.

Lemma same_trans F G K : same F G -> same G K -> same F K.
Proof. intros H1 H2 p o t. by rewrite (H1 p o t). Qed.

Lemma same_sym F G : same F G -> same G F.
Proof. intros H1 p o t. symmetry. apply H1. Qed.

Lemma same_into t F F' : same F F' -> same (into t F) (into t F').
Proof. intros H1 p o x. unfold into. setoid_rewrite (H1 p o). done. Qed.

Lemma power_cat L n w : power L (S n) w <-> cat L (power L n) w.
Proof.
  unfold cat. split.
  - inversion 1; subst. eauto.
  - intros (u & v & -> & Hu & Hv). by constructor.
Qed.

Lemma power_one L w : power L 1 w <-> L w.
Proof.
  rewrite power_cat. unfold cat. split.
  - intros (u & v & -> & Hu & Hv). inversion Hv. by rewrite app_nil_r.
  - intros Hw. exists w, []. rewrite app_nil_r. split; [done|]. split; [done|constructor].
Qed.

Lemma compiles_name id : compiles (Name id).
Proof.
  intros nfa from Hf. cbn [Nfa.compile]. destruct (edge_spec nfa from None (Some id) Hf) as (nfa' & r & -> & He & Hl & Hr & Hfr).
  eexists _, _. split; [done|]. pose proof (same_sym _ _ (edge_new _ _ _ _ _ _ Hr Hfr)) as Hs. constructor.
  - done.
  - eapply part_ext; [apply part_single|unfold within; rewrite Hl; intuition lia|exact Hs|done].
  - intros r'. rewrite list_elem_of_singleton. setoid_rewrite Hfr. naive_solver.
  - intros _. eapply calm_ext; [apply calm_single|unfold within; rewrite Hl; lia|lia|exact Hs].
  - intros _. eapply brisk_ext; [apply brisk_name|exact Hs].
Qed.

Ltac nodes := unfold within in *; intuition lia.

(** Two calls from one node, one after the other. *)
Lemma both_calls from a b c F1 F2 L1 L2 :
  from < a -> a <= b -> b <= c -> part true from (within a b) F1 L1 -> part true from (within b c) F2 L2 ->
  part true from (within a c) (both F1 F2) (fun w => L1 w \/ L2 w).
Proof.
  intros Hf H1 H2 P1 P2. eapply part_ext; [eapply part_both; [exact P1|exact P2|nodes]|nodes|done|done].
Qed.

Lemma both_calm from a b c F1 F2 L1 L2 :
  from < a -> a <= b -> b <= c -> part true from (within a b) F1 L1 -> part true from (within b c) F2 L2 ->
  calm from (within a b) (b - a) F1 -> calm from (within b c) (c - b) F2 -> calm from (within a c) (c - a) (both F1 F2).
Proof.
  intros Hf H1 H2 P1 P2 C1 C2. eapply calm_ext; [eapply calm_both; [..|exact C1|exact C2]| | |done]; [apply _|apply _|exact P1|exact P2|nodes|nodes|lia].
Qed.

(** The exits of two calls, one after the other. *)
Lemma outs_trans a b c es1 es2 : ext a b -> ext b c ->
  (forall r, r ∈ es1 <-> exists o, fresh a b r (MkEdge o None)) ->
  (forall r, r ∈ es2 <-> exists o, fresh b c r (MkEdge o None)) ->
  forall r, r ∈ es1 ++ es2 <-> exists o, fresh a c r (MkEdge o None).
Proof.
  intros E1 E2 H1 H2 r. rewrite elem_of_app, H1, H2. setoid_rewrite (fresh_trans a b c); [|done..]. naive_solver.
Qed.

Lemma compiles_opt e : compiles e -> compiles (Opt e).
Proof.
  intros He nfa from Hf. cbn [Nfa.compile]. destruct (edge_spec nfa from None None Hf) as (n1 & r & -> & E1 & Hl & Hr & Hfr).
  cbn [mbind Result_bind]. destruct (He n1 from) as (n2 & es & -> & [E2 P2 O2 C2 B2]); [lia|]. cbn [mbind Result_bind].
  eexists _, _. split; [done|]. pose proof (edge_new _ _ _ _ _ _ Hr Hfr) as Hs.
  pose proof (new_trans _ _ _ E1 E2) as Ht. rewrite Hl in *. pose proof (proj1 E2) as L2. rewrite Hl in L2.
  assert (Hs' : same (both (single from None None) (New n1 n2)) (New nfa n2)).
  { intros p o t. rewrite (Ht p o t). unfold both. by rewrite (Hs p o t). }
  assert (P1 : part true from (within (length nfa) (length nfa)) (single from None None) (fun w => w = [])).
  { eapply part_ext; [apply part_single|nodes|done|done]. }
  constructor.
  - by eapply ext_trans.
  - eapply part_ext; [apply (both_calls from (length nfa) (length nfa) (length n2) _ _ _ _ Hf (Nat.le_refl _) L2 P1 P2)|done|exact Hs'|].
    intros w. done.
  - apply (outs_trans nfa n1 n2 [r] es); [done|done| |done]. intros r'. rewrite list_elem_of_singleton. setoid_rewrite Hfr. naive_solver.
  - intros Htame. eapply calm_ext; [apply (both_calm from (length nfa) (length nfa) (length n2) _ _ _ _ Hf (Nat.le_refl _) L2 P1 P2); [|by apply C2]|done|lia|exact Hs'].
    eapply calm_ext; [apply calm_single|nodes|lia|done].
  - intros Hp. eapply brisk_ext; [apply brisk_opt, B2, Hp|exact Hs'].
Qed.

Lemma compiles_choice es : Forall compiles es -> compiles (Choice es).
Proof.
  intros Hes nfa from Hf.
  assert (H : forall nfa, from < length nfa -> exists nfa' out, Nfa.compile (Choice es) nfa from = Ok (nfa', out) /\
    compiled (Choice es) nfa from nfa' out); [|by apply H].
  clear nfa Hf. induction Hes as [|e es He Hes IH]; intros nfa Hf.
  - eexists _, _. split; [done|]. assert (Hs : same none (New nfa nfa)).
    { intros p o t. unfold none, New, fresh. split; [done|]. intros (i & ? & ?). congruence. }
    constructor.
    + apply ext_refl.
    + eapply part_ext; [apply part_none|nodes|exact Hs|done].
    + intros r. split; [by intros ?%elem_of_nil|]. intros (o & ? & ?). congruence.
    + intros _. eapply calm_ext; [apply calm_none|nodes|lia|exact Hs].
    + done.
  - destruct (He nfa from Hf) as (n1 & es1 & H1 & [E1 P1 O1 C1 B1]). pose proof (proj1 E1) as L1.
    destruct (IH n1) as (n2 & es2 & H2 & [E2 P2 O2 C2 B2]); [lia|]. pose proof (proj1 E2) as L2.
    exists n2, (es1 ++ es2). split.
    { cbn [Nfa.compile] in *. rewrite H1. cbn [mbind Result_bind]. by rewrite H2. }
    pose proof (same_sym _ _ (new_trans _ _ _ E1 E2)) as Ht. constructor.
    + by eapply ext_trans.
    + eapply part_ext; [eapply both_calls; [exact Hf|exact L1|exact L2|exact P1|exact P2]|done|exact Ht|done].
    + by apply outs_trans with n1.
    + simpl. intros [T1 T2]%andb_true_iff.
      eapply calm_ext; [eapply both_calm; [exact Hf|exact L1|exact L2|exact P1|exact P2|by apply C1|by apply C2]|done|lia|exact Ht].
    + intros [_ [T1 T2]%andb_true_iff]%andb_true_iff. destruct (decide (es = [])) as [->|Hne].
      * simpl in H2. injection H2 as <- <-. by apply B1.
      * eapply brisk_ext; [apply brisk_both; [by apply B1|apply B2]|exact Ht]. simpl. by rewrite bool_decide_eq_true_2.
Qed.

(** A call whose exits lead to [t], which is a new node, and what follows from there.  [t]
    lies on one side of the nodes of the call. *)
Record joined (s : bool) (nfa : Nfa) (from t a b : nat) (nfa' : Nfa) (A B : rel) (LA LB : list NodeId -> Prop) : Prop := {
  jo_from : from < length nfa;
  jo_t : length nfa = t /\ a = S t /\ a <= b \/ length nfa = a /\ a <= b /\ t = b;
  jo_rest : (if decide (t = b) then S b else b) <= length nfa';
  jo_first : part true from (within a b) A LA;
  jo_then : part s t (within (if decide (t = b) then S b else b) (length nfa')) B LB;
  jo_new : same (both (into t A) B) (New nfa nfa')
}.

Lemma joined_part s nfa from t a b nfa' A B LA LB : joined s nfa from t a b nfa' A B LA LB ->
  part true from (within (length nfa) (length nfa')) (New nfa nfa') (cat LA LB).
Proof.
  intros [Hf Ht Hr PA PB Hn]. eapply part_ext; [eapply part_seq; [exact PA|exact PB|..]| |exact Hn|done];
    destruct (decide (t = b)); nodes.
Qed.

Lemma joined_calm s nfa from t a b nfa' A B LA LB : joined s nfa from t a b nfa' A B LA LB ->
  calm from (within a b) (b - a) A ->
  calm t (within (if decide (t = b) then S b else b) (length nfa')) (length nfa' - (if decide (t = b) then S b else b)) B ->
  calm from (within (length nfa) (length nfa')) (length nfa' - length nfa) (New nfa nfa').
Proof.
  intros [Hf Ht Hr PA PB Hn] CA CB.
  eapply calm_ext; [eapply (calm_seq _ _ _ _ _ _ _ _ _ _ _ PA PB); [| | | |exact CA|exact CB]| | |exact Hn];
    destruct (decide (t = b)); nodes.
Qed.

Lemma compiles_seq es : Forall compiles es -> es <> [] -> compiles (Seq es).
Proof.
  intros Hes. induction Hes as [|e es He Hes IH]; intros Hne nfa from Hf; [done|].
  destruct (He nfa from Hf) as (n1 & es1 & H1 & [E1 P1 O1 C1 B1]). pose proof (proj1 E1) as L1.
  destruct es as [|e2 es].
  { exists n1, es1. split; [exact H1|]. constructor; [done| |done| |].
    - eapply part_ext; [exact P1|done|done|]. intros w. rewrite lang_seq_cons. setoid_rewrite lang_seq_nil. split.
      + intros Hw. exists w, []. by rewrite app_nil_r.
      + intros (u & v & -> & Hu & ->). by rewrite app_nil_r.
    - simpl. rewrite andb_true_r. apply C1.
    - simpl. rewrite andb_true_r. apply B1. }
  destruct (Nfa.node n1) as [n2 t] eqn:En. destruct (node_spec _ _ _ En) as (E2 & Et & L2 & Hent).
  destruct (lead_spec nfa n2 es1 t) as (n3 & H3 & E3 & L3 & N3 & O3).
  { by eapply ext_trans. }
  { intros r. rewrite O1. unfold fresh. by setoid_rewrite Hent. }
  destruct (IH ltac:(done) n3 t) as (n4 & es4 & H4 & [E4 P4 O4 C4 B4]); [lia|]. pose proof (proj1 E4) as L4.
  exists n4, es4. split.
  { cbn [Nfa.compile] in *. rewrite H1. cbn [mbind Result_bind]. rewrite En, H3. cbn [mbind Result_bind]. exact H4. }
  assert (HA : same (New nfa n2) (New nfa n1)).
  { intros p o x. unfold New, fresh. by setoid_rewrite Hent. }
  assert (Hj : joined true nfa from t (length nfa) (length n1) n4 (New nfa n1) (New n3 n4) (lang e) (lang (Seq (e2 :: es)))).
  { constructor; [done|lia| |done| |].
    - rewrite decide_True by done. lia.
    - rewrite decide_True by done. eapply part_ext; [exact P4|nodes|done|done].
    - apply same_sym. eapply same_trans; [by apply new_trans|]. apply same_both; [|done].
      eapply same_trans; [exact N3|]. by apply same_into. }
  constructor.
  - by eapply ext_trans.
  - eapply part_ext; [by apply (joined_part _ _ _ _ _ _ _ _ _ _ _ Hj)|done|done|done].
  - intros r. rewrite O4. setoid_rewrite (fresh_trans nfa n3 n4 r); [|done..]. split; [naive_solver|].
    intros (o & [Ho|Ho]); [by apply O3 in Ho|eauto].
  - simpl. intros [T1 T2]%andb_true_iff. apply (joined_calm _ _ _ _ _ _ _ _ _ _ _ Hj); [by apply C1|].
    rewrite decide_True by done. eapply calm_ext; [by apply C4|nodes|lia|done].
  - simpl. intros [T1 T2]%andb_true_iff. eapply brisk_ext; [apply (brisk_seq from t (New nfa n1)); [|by apply B4]|apply (jo_new _ _ _ _ _ _ _ _ _ _ _ Hj)].
    destruct (brisk_first _ _ (B1 T1)) as (o & x & Ho & _). eauto.
Qed.

(** ** Loops *)

(** What a node with a body that leads back to it is, with a way out. *)
Lemma loop_tail e nfa l : compiles e -> l < length nfa ->
  exists n1 es n2 n3 out, Nfa.compile e nfa l = Ok (n1, es) /\ Nfa.connect n1 es l = Ok n2 /\
    Nfa.edge n2 l None None = Ok (n3, out) /\ ext nfa n3 /\
    part false l (within (length nfa) (length n3)) (New nfa n3) (star (lang e)) /\
    (forall r, r ∈ [out] <-> exists o, fresh nfa n3 r (MkEdge o None)) /\
    (plain e = true -> calm l (within (length nfa) (length n3)) (length n3 - length nfa) (New nfa n3) /\
                       brisk l (New nfa n3)).
Proof.
  intros He Hl. destruct (He nfa l Hl) as (n1 & es & H1 & [E1 P1 O1 C1 B1]).
  destruct (lead_spec nfa n1 es l E1 O1) as (n2 & H2 & E2 & L2 & N2 & O2). pose proof (proj1 E1) as L1.
  destruct (edge_spec n2 l None None) as (n3 & out & H3 & E3 & L3 & Hout & F3); [lia|].
  exists n1, es, n2, n3, out. split; [done|]. split; [done|]. split; [done|].
  assert (Hs : same (both (into l (New nfa n1)) (single l None None)) (New nfa n3)).
  { apply same_sym. eapply same_trans; [by apply new_trans|]. apply same_both; [done|]. by eapply edge_new. }
  assert (Hlen : length n3 = length n1) by lia.
  split; [by eapply ext_trans|]. split; [|split].
  - eapply part_ext; [apply part_loop, P1|rewrite Hlen; done|exact Hs|done].
  - intros r. rewrite list_elem_of_singleton. setoid_rewrite (fresh_trans nfa n2 n3 r); [|done..]. setoid_rewrite F3. split.
    + intros ->. exists None. by right.
    + intros (o & [Ho|[-> _]]); [by apply O2 in Ho|done].
  - intros Hp. split.
    + eapply calm_ext; [eapply calm_loop; [exact P1|apply C1; by apply plain_tame|by apply B1]|by rewrite Hlen|lia|exact Hs].
    + eapply brisk_ext; [eapply brisk_loop; [exact P1|by apply B1]|exact Hs].
Qed.

(** A piece with its way on led to [l], and then a loop at [l]. *)
Lemma joined_loop s nfa from l a b n1 n3 A LA LB e out es0 :
  joined s nfa from l a b n3 A (New n1 n3) LA LB -> l = length nfa -> l < b ->
  ext nfa n1 -> ext n1 n3 -> (forall r o, ~ fresh nfa n1 r (MkEdge o None)) ->
  (forall r, r ∈ out <-> exists o, fresh n1 n3 r (MkEdge o None)) -> es0 = out ->
  (forall w, cat LA LB w <-> lang e w) ->
  (tame e = true -> calm from (within a b) (b - a) A /\ calm l (within b (length n3)) (length n3 - b) (New n1 n3)) ->
  (plain e = true -> (exists o x, A from o x) /\ brisk l (New n1 n3)) ->
  compiled e nfa from n3 es0.
Proof.
  intros Hj El Hlb E1 E2 Hno Hout -> HL Hcalm Hbrisk.
  constructor.
  - by eapply ext_trans.
  - eapply part_ext; [by apply (joined_part _ _ _ _ _ _ _ _ _ _ _ Hj)|done|done|done].
  - intros r. rewrite Hout. setoid_rewrite (fresh_trans nfa n1 n3 r); [|done..]. split; [naive_solver|].
    intros (o & [Ho|Ho]); [by apply Hno in Ho|eauto].
  - intros Ht. destruct (Hcalm Ht) as [CA CB]. apply (joined_calm _ _ _ _ _ _ _ _ _ _ _ Hj); [done|].
    by rewrite decide_False by lia.
  - intros Hp. destruct (Hbrisk Hp) as [HA HB]. eapply brisk_ext; [by apply (brisk_seq from l A)|apply (jo_new _ _ _ _ _ _ _ _ _ _ _ Hj)].
Qed.

Lemma compiles_star e : compiles e -> compiles (Star e).
Proof.
  intros He nfa from Hf. cbn [Nfa.compile]. destruct (Nfa.node nfa) as [n1 l] eqn:En.
  destruct (node_spec _ _ _ En) as (E1 & El & L1 & Hent).
  destruct (edge_spec n1 from (Some l) None) as (n2 & r & H2 & E2 & L2 & Hr & F2); [lia|].
  assert (Hl : l < length n2) by lia.
  destruct (loop_tail e n2 l He Hl) as (n3 & es & n4 & n5 & out & H3 & H4 & H5 & E5 & P5 & O5 & C5).
  rewrite H2. cbn [mbind Result_bind]. rewrite H3. cbn [mbind Result_bind]. rewrite H4. cbn [mbind Result_bind].
  rewrite H5. cbn [mbind Result_bind]. eexists _, _. split; [done|]. pose proof (proj1 E5) as L5.
  assert (E02 : ext nfa n2) by by eapply ext_trans.
  eapply (joined_loop false nfa from l (S l) (S l) n2 n5 (single from None None) (fun w => w = []) (star (lang e))); try done; [|lia| | | |].
  - constructor; [done|lia|rewrite decide_False by lia; lia| | |].
    + eapply part_ext; [apply part_single|nodes|done|done].
    + rewrite decide_False by lia. eapply part_ext; [exact P5|nodes|done|done].
    + apply same_sym. eapply same_trans; [by apply new_trans|]. apply same_both; [|done].
      eapply same_trans; [by apply new_same_entries|]. eapply same_trans; [by eapply edge_new|].
      intros p o t. unfold single, into. naive_solver.
  - intros r' o Hr'. apply (fresh_trans nfa n1 n2) in Hr' as [[Hn Hs]|Hr']; [rewrite Hent in Hs; congruence| |done|done].
    by apply F2 in Hr' as [_ ?].
  - intros w. unfold cat, star. split; [by intros (u & v & -> & -> & Hv)|]. intros Hw. by exists [], w.
  - intros Hp. destruct (C5 Hp) as [C _]. split.
    + eapply calm_ext; [apply calm_single|nodes|lia|done].
    + eapply calm_ext; [exact C|nodes|lia|done].
  - intros Hp. destruct (C5 Hp) as [_ B]. split; [by exists None, None|done].
Qed.

Lemma compiles_plus e : compiles e -> compiles (Plus e).
Proof.
  intros He nfa from Hf. cbn [Nfa.compile]. destruct (Nfa.node nfa) as [n1 l] eqn:En.
  destruct (node_spec _ _ _ En) as (E1 & El & L1 & Hent).
  destruct (He n1 from) as (n2 & es1 & H2 & [E2 P2 O2 C2 B2]); [lia|]. pose proof (proj1 E2) as L2.
  destruct (lead_spec n1 n2 es1 l E2 O2) as (n3 & H3 & E3 & L3 & N3 & O3).
  assert (Hl : l < length n3) by lia.
  destruct (loop_tail e n3 l He Hl) as (n4 & es & n5 & n6 & out & H4 & H5 & H6 & E6 & P6 & O6 & C6).
  rewrite H2. cbn [mbind Result_bind]. rewrite H3. cbn [mbind Result_bind]. rewrite H4. cbn [mbind Result_bind].
  rewrite H5. cbn [mbind Result_bind]. rewrite H6. cbn [mbind Result_bind]. eexists _, _. split; [done|].
  pose proof (proj1 E6) as L6. assert (E03 : ext nfa n3) by by eapply ext_trans.
  eapply (joined_loop false nfa from l (S l) (length n2) n3 n6 (New n1 n2) (lang e) (star (lang e))); try done; [|lia| | | |].
  - constructor; [done|lia|rewrite decide_False by lia; lia| | |].
    + eapply part_ext; [exact P2|nodes|done|done].
    + rewrite decide_False by lia. eapply part_ext; [exact P6|nodes|done|done].
    + apply same_sym. eapply same_trans; [by apply new_trans|]. apply same_both; [|done].
      eapply same_trans; [by apply new_same_entries|done].
  - intros r' o Hr'. apply (fresh_trans nfa n1 n3) in Hr' as [[Hn Hs]|Hr']; [rewrite Hent in Hs; congruence| |done|done].
    by apply O3 in Hr'.
  - intros w. simpl. setoid_rewrite power_cat. unfold cat, star. naive_solver.
  - intros Hp. destruct (C6 Hp) as [C _]. split.
    + eapply calm_ext; [apply C2; by apply plain_tame|nodes|lia|done].
    + eapply calm_ext; [exact C|nodes|lia|done].
  - intros Hp. destruct (C6 Hp) as [_ B]. split; [|done]. destruct (brisk_first _ _ (B2 Hp)) as (o & x & Ho & _). eauto.
Qed.

(** ** Numbers of times *)

(** A round of [times]: a piece from the current node whose ways on lead to the next one,
    which the round makes first. *)
Definition round_ok (c : bool) (L : list NodeId -> Prop) (round : Nfa -> nat -> built (Nfa * nat)) : Prop :=
  forall nfa cur, cur < length nfa -> exists nfa' A, round nfa cur = Ok (nfa', length nfa) /\ ext nfa nfa' /\
    S (length nfa) <= length nfa' /\ part true cur (within (S (length nfa)) (length nfa')) A L /\
    same (New nfa nfa') (into (length nfa) A) /\ (forall r o, ~ fresh nfa nfa' r (MkEdge o None)) /\
    (c = true -> calm cur (within (S (length nfa)) (length nfa')) (length nfa' - S (length nfa)) A).

Lemma cat_iff L1 L2 L1' L2' w : (forall w, L1 w <-> L1' w) -> (forall w, L2 w <-> L2' w) -> cat L1 L2 w <-> cat L1' L2' w.
Proof. intros H1 H2. unfold cat. setoid_rewrite H1. by setoid_rewrite H2. Qed.

Lemma cat_assoc L1 L2 L3 w : cat L1 (cat L2 L3) w <-> cat (cat L1 L2) L3 w.
Proof.
  unfold cat. split.
  - intros (u & ? & -> & H1 & v & x & -> & H2 & H3). exists (u ++ v), x. rewrite app_assoc. naive_solver.
  - intros (? & x & -> & (u & v & -> & H1 & H2) & H3). exists u, (v ++ x). rewrite app_assoc. naive_solver.
Qed.

Lemma cat_zero L1 L2 w : cat (power L1 0) L2 w <-> L2 w.
Proof.
  unfold cat. split; [by intros (u & v & -> & Hu & Hv); inversion Hu|]. intros Hw. exists [], w. split; [done|]. split; [constructor|done].
Qed.

(** Some rounds, and then any piece from the node they come to. *)
Lemma times_spec c L round k : round_ok c L round -> forall nfa cur, cur < length nfa ->
  exists nfa' cur', Nfa.times k round nfa cur = Ok (nfa', cur') /\ ext nfa nfa' /\ cur' < length nfa' /\
    (forall r o, ~ fresh nfa nfa' r (MkEdge o None)) /\
    forall s nfa'' L2, ext nfa' nfa'' -> part s cur' (within (length nfa') (length nfa'')) (New nfa' nfa'') L2 ->
      part (s || (0 <? k)) cur (within (length nfa) (length nfa'')) (New nfa nfa'') (cat (power L k) L2) /\
      (c = true -> calm cur' (within (length nfa') (length nfa'')) (length nfa'' - length nfa') (New nfa' nfa'') ->
        calm cur (within (length nfa) (length nfa'')) (length nfa'' - length nfa) (New nfa nfa'')).
Proof.
  intros Hround. induction k as [|k IH]; intros nfa cur Hcur; cbn [Nfa.times].
  - exists nfa, cur. split; [done|]. split; [apply ext_refl|]. split; [done|].
    split; [intros r o [? ?]; congruence|]. intros s nfa'' L2 _ HP. rewrite orb_false_r. split; [|done].
    eapply part_ext; [exact HP|done|done|]. intros w. symmetry. apply cat_zero.
  - destruct (Hround nfa cur Hcur) as (n1 & A & -> & E1 & L1 & PA & NA & O1 & CA). cbn [mbind Result_bind].
    destruct (IH n1 (length nfa)) as (n2 & cur' & -> & E2 & Hcur' & O2 & Htail); [lia|].
    exists n2, cur'. split; [done|]. split; [by eapply ext_trans|]. split; [done|]. split.
    { intros r o Hr. apply (fresh_trans nfa n1 n2) in Hr as [Hr|Hr]; [by eapply O1|by eapply O2|done|done]. }
    intros s n3 L2 E3 HP. destruct (Htail s n3 L2 E3 HP) as [P2 C2]. assert (E13 : ext n1 n3) by by eapply ext_trans.
    pose proof (proj1 E13) as L3.
    assert (Hj : joined (s || (0 <? k)) nfa cur (length nfa) (S (length nfa)) (length n1) n3 A (New n1 n3) L (cat (power L k) L2)).
    { constructor; [done|lia|rewrite decide_False by lia; lia|exact PA|by rewrite decide_False by lia|].
      apply same_sym. eapply same_trans; [by apply new_trans|]. by apply same_both. }
    replace (s || (0 <? S k)) with true by by rewrite orb_true_r. split.
    + eapply part_ext; [by apply (joined_part _ _ _ _ _ _ _ _ _ _ _ Hj)|done|done|]. intros w.
      rewrite cat_assoc. apply cat_iff; [|done]. intros w'. symmetry. apply power_cat.
    + intros Hc HC. apply (joined_calm _ _ _ _ _ _ _ _ _ _ _ Hj); [by apply CA|]. rewrite decide_False by lia. by apply C2.
Qed.

Definition required (e : Expr) (nfa : Nfa) (current : nat) : built (Nfa * nat) :=
  let '(nfa, next) := Nfa.node nfa in
  '(nfa, edges) ← Nfa.compile e nfa current;
  nfa ← Nfa.connect nfa edges next;
  Ok (nfa, next).

Definition optional (e : Expr) (nfa : Nfa) (current : nat) : built (Nfa * nat) :=
  let '(nfa, next) := Nfa.node nfa in
  '(nfa, _) ← Nfa.edge nfa current (Some next) None;
  '(nfa, edges) ← Nfa.compile e nfa current;
  nfa ← Nfa.connect nfa edges next;
  Ok (nfa, next).

Lemma required_ok e : compiles e -> round_ok (tame e) (lang e) (required e).
Proof.
  intros He nfa cur Hcur. unfold required. destruct (Nfa.node nfa) as [n1 l] eqn:En.
  destruct (node_spec _ _ _ En) as (E1 & -> & L1 & Hent).
  destruct (He n1 cur) as (n2 & es & -> & [E2 P2 O2 C2 B2]); [lia|]. pose proof (proj1 E2) as L2.
  destruct (lead_spec n1 n2 es (length nfa) E2 O2) as (n3 & H3 & E3 & L3 & N3 & O3). cbn [mbind Result_bind]. rewrite H3.
  cbn [mbind Result_bind]. exists n3, (New n1 n2). split; [done|]. split; [by eapply ext_trans|]. split; [lia|].
  split; [eapply part_ext; [exact P2|nodes|done|done]|]. split.
  - eapply same_trans; [by apply new_same_entries|done].
  - split; [|intros Hc; eapply calm_ext; [by apply C2|nodes|lia|done]].
    intros r o [Hn Hs]. rewrite <- Hent in Hn. by eapply O3.
Qed.

Lemma optional_ok e : compiles e -> round_ok (tame e) (fun w => w = [] \/ lang e w) (optional e).
Proof.
  intros He nfa cur Hcur. unfold optional. destruct (Nfa.node nfa) as [n1 l] eqn:En.
  destruct (node_spec _ _ _ En) as (E1 & -> & L1 & Hent).
  destruct (edge_spec n1 cur (Some (length nfa)) None) as (n2 & r & -> & E2 & L2 & Hr & F2); [lia|]. cbn [mbind Result_bind].
  destruct (He n2 cur) as (n3 & es & -> & [E3 P3 O3 C3 B3]); [lia|]. pose proof (proj1 E3) as L3.
  destruct (lead_spec n2 n3 es (length nfa) E3 O3) as (n4 & H4 & E4 & L4 & N4 & O4). cbn [mbind Result_bind]. rewrite H4.
  cbn [mbind Result_bind]. exists n4, (both (single cur None None) (New n2 n3)).
  assert (P1 : part true cur (within (S (length nfa)) (S (length nfa))) (single cur None None) (fun w => w = [])).
  { eapply part_ext; [apply part_single|nodes|done|done]. }
  assert (P3' : part true cur (within (S (length nfa)) (length n4)) (New n2 n3) (lang e)).
  { eapply part_ext; [exact P3|nodes|done|done]. }
  split; [done|]. split; [by eapply ext_trans; [exact E1|eapply ext_trans]|]. split; [lia|]. split; [|split; [|split]].
  - apply (both_calls cur (S (length nfa)) (S (length nfa))); [lia|lia|lia|done|done].
  - eapply same_trans; [by apply new_same_entries|]. eapply same_trans; [by apply (new_trans n1 n2)|].
    eapply same_trans; [apply same_both; [by eapply edge_new|exact N4]|]. intros p o t. unfold both, into, single. naive_solver.
  - intros r' o Hr'. destruct Hr' as [Hn Hs]. rewrite <- Hent in Hn.
    assert (Hr' : fresh n1 n4 r' (MkEdge o None)) by done.
    apply (fresh_trans n1 n2) in Hr' as [Hr'|Hr']; [by apply F2 in Hr' as [_ ?]|by eapply O4|done|done].
  - intros Hc. eapply calm_ext; [eapply (both_calm cur (S (length nfa)) (S (length nfa)) (length n4)); [lia|lia|lia|exact P1|exact P3'| |]|done|lia|done].
    + eapply calm_ext; [apply calm_single|nodes|lia|done].
    + eapply calm_ext; [by apply C3|nodes|lia|done].
Qed.

Lemma power_add L m n w : power L (m + n) w <-> cat (power L m) (power L n) w.
Proof.
  revert w. induction m as [|m IH]; intros w; [by rewrite cat_zero|].
  change (S m + n) with (S (m + n)). rewrite power_cat. rewrite (cat_iff _ _ L (cat (power L m) (power L n))); [|done|exact IH].
  rewrite cat_assoc. apply cat_iff; [|done]. intros w'. symmetry. apply power_cat.
Qed.

Lemma power_opt L k : forall w, power (fun w => w = [] \/ L w) k w <-> exists n, n <= k /\ power L n w.
Proof.
  induction k as [|k IH]; intros w.
  - split; [inversion 1; exists 0; split; [done|constructor]|]. intros (n & Hn & Hp). destruct n; [|lia]. inversion Hp. constructor.
  - rewrite power_cat. unfold cat. setoid_rewrite IH. split.
    + intros (u & v & -> & [->|Hu] & n & Hn & Hp); [exists n; split; [lia|done]|].
      exists (S n). split; [lia|by constructor].
    + intros (n & Hn & Hp). destruct n as [|n]; inversion Hp; subst.
      * exists [], []. split; [done|]. split; [by left|]. exists 0. split; [lia|constructor].
      * exists u, v. split; [done|]. split; [by right|]. exists n. split; [lia|done].
Qed.

Lemma lang_range_some min max e w :
  lang (Range min (Some max) e) w <->
  cat (power (lang e) min) (cat (power (fun w => w = [] \/ lang e w) (max - min)) (fun w => w = [])) w.
Proof.
  assert (Hnil : forall L w, cat L (fun w => w = []) w <-> L w).
  { intros L w0. unfold cat. split; [intros (u & v & -> & Hu & ->); by rewrite app_nil_r|]. intros Hw. exists w0, []. by rewrite app_nil_r. }
  rewrite (cat_iff _ _ (power (lang e) min) (fun w => exists n, n <= max - min /\ power (lang e) n w)); [|done|].
  2:{ intros w'. rewrite Hnil. apply power_opt. }
  simpl. split.
  - intros (n & H1 & H2 & Hp). replace n with (min + (n - min)) in Hp by lia. apply power_add in Hp as (u & v & -> & Hu & Hv).
    exists u, v. split; [done|]. split; [done|]. exists (n - min). split; [lia|done].
  - intros (u & v & -> & Hu & n & Hn & Hv). exists (min + n). split; [lia|]. split; [lia|]. apply power_add. by exists u, v.
Qed.

Lemma lang_range_none min e w : lang (Range min None e) w <-> cat (power (lang e) min) (star (lang e)) w.
Proof.
  simpl. split.
  - intros (n & H1 & _ & Hp). replace n with (min + (n - min)) in Hp by lia. apply power_add in Hp as (u & v & -> & Hu & Hv).
    exists u, v. split; [done|]. split; [done|]. by exists (n - min).
  - intros (u & v & -> & Hu & n & Hv). exists (min + n). split; [lia|]. split; [done|]. apply power_add. by exists u, v.
Qed.

Lemma compile_range min max e nfa from :
  Nfa.compile (Range min max e) nfa from =
    '(nfa, current) ← Nfa.times min (required e) nfa from;
    '(nfa, current) ←
      match max with
      | None =>
          '(nfa, edges) ← Nfa.compile e nfa current;
          nfa ← Nfa.connect nfa edges current;
          Ok (nfa, current)
      | Some max => Nfa.times (max - min) (optional e) nfa current
      end;
    '(nfa, out) ← Nfa.edge nfa current None None;
    Ok (nfa, [out]).
Proof. done. Qed.

Lemma compiles_range_some min max e : compiles e -> compiles (Range min (Some max) e).
Proof.
  intros He nfa from Hf. rewrite compile_range.
  destruct (times_spec _ _ _ min (required_ok e He) nfa from Hf) as (n1 & c1 & -> & E1 & Hc1 & O1 & T1). cbn [mbind Result_bind].
  destruct (times_spec _ _ _ (max - min) (optional_ok e He) n1 c1 Hc1) as (n2 & c2 & -> & E2 & Hc2 & O2 & T2). cbn [mbind Result_bind].
  destruct (edge_spec n2 c2 None None Hc2) as (n3 & r & -> & E3 & L3 & Hr & F3). cbn [mbind Result_bind].
  eexists _, _. split; [done|]. assert (E13 : ext n1 n3) by by eapply ext_trans.
  assert (P3 : part true c2 (within (length n2) (length n3)) (New n2 n3) (fun w => w = [])).
  { eapply part_ext; [apply part_single|nodes|apply same_sym; by eapply edge_new|done]. }
  destruct (T2 _ _ _ E3 P3) as [P2 C2]. destruct (T1 _ _ _ E13 P2) as [P1 C1]. constructor.
  - by eapply ext_trans.
  - eapply part_ext; [exact P1|done|done|]. intros w. symmetry. apply lang_range_some.
  - intros r'. rewrite list_elem_of_singleton. setoid_rewrite (fresh_trans nfa n1 n3); [|done..].
    setoid_rewrite (fresh_trans n1 n2 n3); [|done..]. setoid_rewrite F3. split.
    + intros ->. exists None. by right; right.
    + intros (o & [Ho|[Ho|[-> _]]]); [by apply O1 in Ho|by apply O2 in Ho|done].
  - intros Ht. apply C1; [done|]. apply C2; [done|].
    eapply calm_ext; [apply calm_single|nodes|lia|apply same_sym; by eapply edge_new].
  - done.
Qed.

Lemma compiles_range_none min e : compiles e -> 0 < min -> compiles (Range min None e).
Proof.
  intros He Hmin nfa from Hf. rewrite compile_range.
  destruct (times_spec _ _ _ min (required_ok e He) nfa from Hf) as (n1 & c1 & -> & E1 & Hc1 & O1 & T1). cbn [mbind Result_bind].
  destruct (loop_tail e n1 c1 He Hc1) as (n2 & es & n3 & n4 & out & -> & H3 & H4 & E4 & P4 & O4 & C4).
  cbn [mbind Result_bind]. rewrite H3. cbn [mbind Result_bind]. rewrite H4. cbn [mbind Result_bind].
  eexists _, _. split; [done|]. destruct (T1 _ _ _ E4 P4) as [P1 C1].
  rewrite (proj2 (Nat.ltb_lt 0 min) Hmin) in P1. constructor.
  - by eapply ext_trans.
  - eapply part_ext; [exact P1|done|done|]. intros w. symmetry. apply lang_range_none.
  - intros r'. rewrite O4. setoid_rewrite (fresh_trans nfa n1 n4); [|done..]. split; [naive_solver|].
    intros (o & [Ho|Ho]); [by apply O1 in Ho|eauto].
  - simpl. intros [_ Hp]%andb_true_iff. apply C1; [by apply plain_tame|]. by apply C4.
  - done.
Qed.

Theorem compile_spec e : sound e = true -> compiles e.
Proof.
  induction e as [es IH|es IH|e IH|e IH|e IH|min max e IH|id] using expr_tree_ind; simpl.
  - intros H. apply compiles_choice. rewrite Forall_forall in *. intros e He. apply IH; [done|].
    eapply forallb_forall; [exact H|]. by apply list_elem_of_In.
  - intros [Hne%bool_decide_eq_true H]%andb_true_iff. apply compiles_seq; [|done]. rewrite Forall_forall in *.
    intros e He. apply IH; [done|]. eapply forallb_forall; [exact H|]. by apply list_elem_of_In.
  - intros H. by apply compiles_plus, IH.
  - intros H. by apply compiles_star, IH.
  - intros H. by apply compiles_opt, IH.
  - intros [H1 H2]%andb_true_iff. destruct max as [max|]; [by apply compiles_range_some, IH|].
    apply compiles_range_none; [by apply IH|]. destruct min; [done|lia].
  - intros _. apply compiles_name.
Qed.

(** ** The whole automaton *)

(** What the edges of an automaton spell from a node to its last one, which has no edge. *)
Definition edges_of (nfa : Nfa) : rel := fun p o t => exists i, entry nfa (p, i) = Some (MkEdge o t).

Inductive walks (F : rel) : nat -> list NodeId -> nat -> Prop :=
| walks_here p : walks F p [] p
| walks_step p o q w r : F p o (Some q) -> walks F q w r -> walks F p (opt o ++ w) r.

Lemma walks_mono (F G : rel) p w q : (forall p o t, F p o t -> G p o t) -> walks F p w q -> walks G p w q.
Proof. intros HFG. induction 1; [constructor|econstructor; [by apply HFG|done]]. Qed.

Record automaton (e : Expr) (nfa : Nfa) : Prop := {
  au_end : 1 < length nfa;
  au_led : forall p o t, edges_of nfa p o t -> exists q, t = Some q /\ q < length nfa;
  au_last : forall o t, ~ edges_of nfa (length nfa - 1) o t;
  au_lang : forall w, walks (edges_of nfa) 0 w (length nfa - 1) <-> lang e w;
  au_calm : tame e = true -> exists r : nat -> nat, (forall p, r p <= length nfa) /\
    forall p q, edges_of nfa p None (Some q) -> r p < r q \/ busy (edges_of nfa) p /\ busy (edges_of nfa) q
}.

Lemma walks_spells f R F L t w :
  part true f R F L -> t <> f -> ~ R t -> walks (into t F) f w t <-> L w.
Proof.
  intros [S D O A] Htf Ht. rewrite <- A.
  assert (H1 : forall p w, walks (into t F) p w t -> p = f \/ R p -> spells F p w).
  { intros p w0 Hw. remember t as z eqn:Ez in Hw at 2. induction Hw as [p|p o q w0 r E Hw IH]; intros Hp.
    - subst. destruct Hp; congruence.
    - destruct E as [(q' & [= <-] & E)|([= ->] & E)].
      + apply spells_step with q; [done|]. apply IH; [done|]. apply D in E as [|[? ?]]; [by right|done].
      + inversion Hw as [|? ? ? ? ? E']; subst; [rewrite app_nil_r; by constructor|].
        exfalso. destruct E' as [(? & _ & E')|(_ & E')]; apply S in E' as [->|]; done. }
  assert (H2 : forall p w, spells F p w -> walks (into t F) p w t).
  { induction 1 as [p o E|p o q w0 E Hw IH].
    - rewrite <- (app_nil_r (opt o)). apply walks_step with t; [by right|constructor].
    - apply walks_step with q; [left; eauto|done]. }
  split; [intros Hw; apply H1; [done|by left]|apply H2].
Qed.

Theorem of_expr_spec e : sound e = true -> exists nfa, Nfa.of_expr e = Ok nfa /\ automaton e nfa.
Proof.
  intros Hs. unfold Nfa.of_expr. change (Nfa.node []) with ([[]] : Nfa, 0). destruct (compile_spec e Hs [[]] 0) as (n1 & es & H1 & [E1 P1 O1 C1 _]); [simpl; lia|].
  rewrite H1. cbn [mbind Result_bind]. destruct (Nfa.node n1) as [n2 l] eqn:En.
  destruct (node_spec _ _ _ En) as (E2 & -> & L2 & Hent).
  assert (O2 : forall r, r ∈ es <-> exists o, fresh [[]] n2 r (MkEdge o None)).
  { intros r. rewrite O1. unfold fresh. by setoid_rewrite Hent. }
  destruct (lead_spec [[]] n2 es (length n1) (ext_trans _ _ _ E1 E2) O2) as (nfa & H3 & E3 & L3 & N3 & O3).
  rewrite H3. exists nfa. split; [done|]. pose proof (proj1 E1) as L1. simpl in L1.
  assert (Hnone : forall r, entry [[]] r = None).
  { intros [[|p] i]; unfold entry; simpl; [by destruct i|done]. }
  assert (HE : same (edges_of nfa) (into (length n1) (New [[]] n1))).
  { eapply same_trans; [|apply (same_into (length n1) (New [[]] n2)); intros p o t; unfold New, fresh; by setoid_rewrite Hent].
    eapply same_trans; [|exact N3]. intros p o t. unfold edges_of, New, fresh. setoid_rewrite Hnone. naive_solver. }
  assert (Hlast : length nfa - 1 = length n1) by lia. rewrite ?Hlast in *.
  pose proof P1 as [S1 D1 _ _]. simpl in S1, D1. constructor; rewrite ?Hlast.
  - lia.
  - intros p o t [(q & -> & E)|(-> & E)]%HE; [|exists (length n1); split; [done|lia]].
    exists q. split; [done|]. apply D1 in E as [E|[? ?]]; [unfold within in E; lia|done].
  - intros o t [(q & -> & E)|(-> & E)]%HE; apply S1 in E; unfold within in E; lia.
  - intros w. rewrite <- (walks_spells 0 _ _ _ (length n1) w P1) by nodes.
    split; apply walks_mono; intros; by apply HE.
  - intros Ht. destruct (C1 Ht) as [(r & Hr0 & Hr & HF)]. simpl in Hr.
    assert (Hn : forall p o, ~ New [[]] n1 p o (Some (length n1))).
    { intros p o E. apply D1 in E as [E|[? ?]]; [nodes|done]. }
    exists (fun p => if decide (p < length n1) then r p else length n1). split.
    { intros p. destruct (decide _) as [Hp|]; [|lia]. destruct p as [|p]; [lia|]. specialize (Hr (S p)). unfold within in Hr. lia. }
    intros p q [(q' & [= <-] & E)|([= ->] & E)]%HE.
    + assert (Hp : p < length n1) by (apply S1 in E; unfold within in E; lia).
      assert (Hq : q < length n1) by (apply D1 in E as [E|[? ?]]; [unfold within in E; lia|done]).
      rewrite !decide_True by done. apply HF in E as [|[B1 B2]]; [by left|right].
      split; (eapply (busy_into (length n1)); [apply Hn| |eassumption]); intros; by apply HE.
    + left. assert (Hp : p < length n1) by (apply S1 in E; unfold within in E; lia).
      rewrite decide_True, decide_False by (done || lia). destruct p as [|p]; [lia|]. specialize (Hr (S p)). unfold within in Hr. lia.
Qed.
