(* ===== verification/TextClosure.v ===== *)
(** [Nfa::null_from] of [documents/crates/text/src/schema.rs]: the nodes that a node leads to
    without a kind, and why its scan ends. *)

From S2P Require Import Prelude Json TextData TextSchema TextExpr TextNfa TextThompson.
From S2P Require Import TextCompileSpec.
Open Scope nat_scope.

(** ** Sorting *)

Lemma insert_desc_in x l y : y ∈ Nfa.insert_desc x l <-> y = x \/ y ∈ l.
Proof. induction l as [|z l IH]; simpl; [set_solver|]. destruct (_ <? _); set_solver. Qed.

Lemma sort_desc_in l y : y ∈ Nfa.sort_desc l <-> y ∈ l.
Proof. induction l as [|x l IH]; [done|]. simpl. rewrite insert_desc_in, IH. set_solver. Qed.

Section closure.
Variable nfa : Nfa.

Definition skip (p : nat) : Prop := exists next, nfa !! p = Some [MkEdge None (Some next)].

Lemma scan_skip fuel p next result : nfa !! p = Some [MkEdge None (Some next)] ->
Nfa.scan (S fuel) nfa p result = Nfa.scan fuel nfa next result.
Proof. intros E. cbn [Nfa.scan]. by rewrite E. Qed.

Lemma scan_here fuel p row result : nfa !! p = Some row -> ~ skip p ->
Nfa.scan (S fuel) nfa p result = Nfa.scan_edges (Nfa.scan fuel nfa) row (result ++ [p]).
Proof.
intros E Hs. cbn [Nfa.scan]. rewrite E. cbn [or_panic mbind Result_bind].
destruct row as [|[[k|] [t|]] [|e2 row]]; try done. destruct Hs. by exists t.
Qed.

#[export] Instance skip_dec p : Decision (skip p).
Proof.
unfold skip. destruct (nfa !! p) as [[|[[k|] [t|]] [|e2 row]]|]; try (right; by intros [? ?]).
left. by exists t.
Defined.

Abbreviation E := (edges_of nfa).

(** One node leads to another without a kind. *)
Definition leads (p q : nat) : Prop := walks E p [] q.

Lemma leads_refl p : leads p p.
Proof. constructor. Qed.

Lemma leads_step p q z : E p None (Some q) -> leads q z -> leads p z.
Proof. intros H1 H2. exact (walks_step E p None q [] z H1 H2). Qed.

Lemma leads_inv p z : leads p z -> p = z \/ exists q, E p None (Some q) /\ leads q z.
Proof.
unfold leads. intros H. remember [] as w eqn:Ew. destruct H as [p|p o q w r H1 H2]; [by left|right].
destruct o as [k|]; [done|]. simpl in Ew. subst. eauto.
Qed.

(** A node is in a result, or is passed over on the way to one that is. *)
Inductive covered (l : list nat) : nat -> Prop :=
| covered_in p : p ∈ l -> covered l p
| covered_skip p q : nfa !! p = Some [MkEdge None (Some q)] -> covered l q -> covered l p.

Lemma covered_mono l l' p : (forall x, x ∈ l -> x ∈ l') -> covered l p -> covered l' p.
Proof. intros Hl. induction 1; [constructor; auto|by econstructor]. Qed.

Lemma row_edge p row o t : nfa !! p = Some row -> MkEdge o t ∈ row <-> E p o t.
Proof.
intros Hrow. unfold edges_of, entry. simpl. rewrite Hrow. simpl. rewrite list_elem_of_lookup. done.
Qed.

Lemma skip_edge p q o t : nfa !! p = Some [MkEdge None (Some q)] -> E p o t -> o = None /\ t = Some q.
Proof. intros Hrow He. apply (row_edge _ _ _ _ Hrow), list_elem_of_singleton in He. by injection He as -> ->. Qed.

(** ** What a scan finds *)

Record found (p : nat) (l l' : list nat) : Prop := {
fo_keeps : forall x, x ∈ l -> x ∈ l';
fo_leads : forall x, x ∈ l' -> x ∈ l \/ leads p x /\ ~ skip x;
fo_covered : covered l' p;
fo_closed : forall x q, x ∈ l' -> x ∈ l \/ (E x None (Some q) -> covered l' q)
}.

(** The loop of one node [p], which is in the result: its later edges are covered too. *)
Lemma scan_edges_found fuel p row : forall edges l l',
(forall n l l', Nfa.scan fuel nfa n l = Ok l' -> found n l l') ->
nfa !! p = Some row -> (forall x, x ∈ edges -> x ∈ row) ->
Nfa.scan_edges (Nfa.scan fuel nfa) edges l = Ok l' ->
(forall x, x ∈ l -> x ∈ l') /\ (forall x, x ∈ l' -> x ∈ l \/ leads p x /\ ~ skip x) /\
(forall q, MkEdge None (Some q) ∈ edges -> covered l' q) /\
(forall x q, x ∈ l' -> x ∈ l \/ (E x None (Some q) -> covered l' q)).
Proof.
induction edges as [|[o t] edges IH]; intros l l' Hscan Hrow Hsub; cbn [Nfa.scan_edges].
- intros [= <-]. split; [done|]. split; [by left|]. split; [by intros q ?%elem_of_nil|by left].
- assert (Hsub' : forall x, x ∈ edges -> x ∈ row) by (intros; apply Hsub; by right).
assert (Hnext : forall l1, (forall x, x ∈ l -> x ∈ l1) -> (forall x, x ∈ l1 -> x ∈ l \/ leads p x /\ ~ skip x) ->
(forall q, MkEdge o t = MkEdge None (Some q) -> covered l1 q) ->
(forall x q, x ∈ l1 -> x ∈ l \/ (E x None (Some q) -> covered l1 q)) ->
Nfa.scan_edges (Nfa.scan fuel nfa) edges l1 = Ok l' ->
(forall x, x ∈ l -> x ∈ l') /\ (forall x, x ∈ l' -> x ∈ l \/ leads p x /\ ~ skip x) /\
(forall q, MkEdge None (Some q) ∈ MkEdge o t :: edges -> covered l' q) /\
(forall x q, x ∈ l' -> x ∈ l \/ (E x None (Some q) -> covered l' q))).
{ intros l1 K1 L1 C1 D1 Hl'. destruct (IH l1 l' Hscan Hrow Hsub' Hl') as (K2 & L2 & C2 & D2).
split; [auto|]. split; [intros x [Hx|Hx]%L2; [by apply L1|by right]|]. split.
- intros q [Heq|Hq]%elem_of_cons; [|by apply C2]. eapply covered_mono; [exact K2|by apply C1].
- intros x q Hx. destruct (D2 x q Hx) as [Hx1|Hx1]; [|by right]. destruct (D1 x q Hx1) as [|Hc]; [by left|right].
intros He. eapply covered_mono; [exact K2|by apply Hc]. }
assert (Hstay : (forall q, MkEdge o t = MkEdge None (Some q) -> covered l q) ->
Nfa.scan_edges (Nfa.scan fuel nfa) edges l = Ok l' -> _) by (intros HC; apply (Hnext l); [done|by left|exact HC|by left]).
destruct o as [k|]; [by apply Hstay|]. destruct t as [t|]; [|by apply Hstay].
case_bool_decide as Hin; [apply Hstay; intros q [= <-]; by constructor|].
intros (l1 & E1 & E2)%bind_ok. apply Hscan in E1 as [K1 L1 C1 D1]. apply (Hnext l1); [done| |by intros q [= <-]|done|done].
intros x [Hx|[Hx Hs]]%L1; [by left|right]. split; [|done]. eapply leads_step; [|exact Hx].
apply (row_edge _ _ _ _ Hrow), Hsub. by left.
Qed.

Lemma scan_found fuel : forall p l l', Nfa.scan fuel nfa p l = Ok l' -> found p l l'.
Proof.
induction fuel as [|fuel IH]; intros p l l' Hl'; [done|]. destruct (nfa !! p) as [row|] eqn:Hrow.
2:{ cbn [Nfa.scan] in Hl'. by rewrite Hrow in Hl'. }
destruct (skip_dec p) as [[next Hs]|Hs].
- rewrite (scan_skip _ _ _ _ Hs) in Hl'. apply IH in Hl' as [K L C D]. constructor; [done| | |done].
+ intros x [Hx|[Hx Hn]]%L; [by left|right]. split; [|done]. eapply leads_step; [|exact Hx].
eapply row_edge; [exact Hs|by left].
+ by eapply covered_skip.
- rewrite (scan_here _ _ _ _ Hrow Hs) in Hl'.
apply (scan_edges_found fuel p row row) in Hl' as (K & L & C & D); [|done..].
constructor.
+ intros x Hx. apply K, elem_of_app. by left.
+ intros x [[Hx|Hx%list_elem_of_singleton]%elem_of_app|Hx]%L; [by left| |by right]. right. subst. split; [apply leads_refl|done].
+ apply covered_in, K, elem_of_app. right. by apply list_elem_of_singleton.
+ intros x q Hx. destruct (D x q Hx) as [[Hx'|Hx'%list_elem_of_singleton]%elem_of_app|Hx']; [by left| |by right].
right. subst x. intros He. apply C. by apply (row_edge _ _ _ _ Hrow).
Qed.

(** A scan from nothing finds each node that the node leads to, but those passed over. *)
Lemma null_from_found p l : Nfa.null_from nfa p = Ok l -> forall q, q ∈ l <-> leads p q /\ ~ skip q.
Proof.
unfold Nfa.null_from. intros (l0 & Hl & <-)%fmap_ok q. rewrite sort_desc_in. apply scan_found in Hl as [_ L C D]. split.
- intros [Hq|Hq]%L; [by apply elem_of_nil in Hq|done].
- intros [Hq Hs].
assert (Hcov : forall z, leads p z -> covered l0 z).
{ assert (H : forall x w z, walks E x w z -> w = [] -> covered l0 x -> covered l0 z); [|intros z Hz; by eapply H].
intros x w z Hw. induction Hw as [x|x o y w z He Hw IH]; intros Ew Hx; [done|]. destruct o as [k|]; [done|]. simpl in Ew.
apply IH; [done|]. destruct Hx as [x Hx|x y' Hrow Hx].
- destruct (D x y Hx) as [Hn|Hn]; [by apply elem_of_nil in Hn|by apply Hn].
- destruct (skip_edge _ _ _ _ Hrow He) as [_ [= <-]]. done. }
apply Hcov in Hq. destruct Hq as [q Hq|q y Hrow Hq]; [done|]. destruct Hs. by exists y.
Qed.

(** ** A scan ends *)

Abbreviation K := (length nfa).

(** The nodes that a result does not hold. *)
Definition unseen (l : list nat) : list nat := filter (fun q => q ∉ l) (seq 0 K).

Lemma unseen_mono l l' : (forall x, x ∈ l -> x ∈ l') -> length (unseen l') <= length (unseen l).
Proof.
intros H. unfold unseen. induction (seq 0 K) as [|q qs IH]; [done|]. rewrite !filter_cons.
destruct (decide (q ∉ l')) as [H1|H1], (decide (q ∉ l)) as [H2|H2]; simpl; try lia. destruct H2. auto.
Qed.

Lemma unseen_here l n : n < K -> n ∉ l -> length (unseen (l ++ [n])) < length (unseen l).
Proof.
intros Hn Hl. unfold unseen. assert (Hin : n ∈ seq 0 K) by (apply elem_of_seq; lia). revert Hin. generalize (seq 0 K) as qs. intros qs.
assert (Hle : forall qs, length (filter (fun q => q ∉ l ++ [n]) qs) <= length (filter (fun q => q ∉ l) qs)).
{ clear qs. induction qs as [|q qs IH]; [done|]. rewrite !filter_cons.
destruct (decide (q ∉ l ++ [n])) as [H1|H1], (decide (q ∉ l)) as [H2|H2]; simpl; try lia. set_solver. }
induction qs as [|q qs IH]; [by intros ?%elem_of_nil|]. intros [->|Hin]%elem_of_cons.
- rewrite !filter_cons. rewrite (decide_False (P := q ∉ l ++ [q])) by set_solver. rewrite (decide_True (P := q ∉ l)) by done.
simpl. specialize (Hle qs). lia.
- rewrite !filter_cons. specialize (IH Hin).
destruct (decide (q ∉ l ++ [n])) as [H1|H1], (decide (q ∉ l)) as [H2|H2]; simpl; try lia. set_solver.
Qed.

Lemma unseen_all l : length (unseen l) <= K.
Proof. unfold unseen. etrans; [apply length_filter|]. by rewrite length_seq. Qed.

Lemma skip_not_busy p : skip p -> ~ busy E p.
Proof.
intros [q Hq] (o1 & t1 & o2 & t2 & E1 & E2 & Hne). apply Hne.
destruct (skip_edge _ _ _ _ Hq E1) as [-> ->], (skip_edge _ _ _ _ Hq E2) as [-> ->]. done.
Qed.

Section calm.
Variable r : nat -> nat.
Hypothesis led_in : forall p o t, E p o t -> exists q, t = Some q /\ q < K.
Hypothesis rank_le : forall p, r p <= K.
Hypothesis rank_up : forall p q, E p None (Some q) -> r p < r q \/ busy E p /\ busy E q.

Definition measure (n : nat) (l : list nat) : nat :=
length (unseen l) * (K + 2) + (if decide (n ∉ l /\ ~ skip n) then 0 else K + 1 - r n).

Lemma measure_le n l : measure n l <= length (unseen l) * (K + 2) + (K + 1 - r n).
Proof. unfold measure. destruct (decide _); lia. Qed.

Lemma skip_rank p q : E p None (Some q) -> skip p \/ skip q -> r p < r q.
Proof. intros [|[H1 H2]]%rank_up Hs; [done|]. exfalso. by destruct Hs as [Hs|Hs]; apply skip_not_busy in Hs. Qed.

(** A node of the result leads on to a node that a scan has less to do for. *)
Lemma measure_edge n q l l' : n < K -> ~ skip n -> E n None (Some q) -> q ∉ l' ->
(forall x, x ∈ l ++ [n] -> x ∈ l') -> measure q l' < measure n l.
Proof.
intros Hn Hs Hq Hql' Hsub. pose proof (measure_le q l') as Hm. pose proof (rank_le n) as Hrn.
destruct (decide (n ∈ l)) as [Hin|Hin].
- assert (HU : length (unseen l') <= length (unseen l)) by (apply unseen_mono; set_solver).
unfold measure at 2. rewrite decide_False by naive_solver. destruct (decide (skip q)) as [Hsq|Hsq].
+ pose proof (skip_rank n q Hq (or_intror Hsq)). nia.
+ unfold measure. rewrite decide_True by done. nia.
- assert (HU : length (unseen l') < length (unseen l)).
{ eapply Nat.le_lt_trans; [apply unseen_mono; exact Hsub|by apply unseen_here]. }
unfold measure at 2. rewrite decide_True by done. nia.
Qed.

Lemma scan_edges_ends fuel n row l : n < K -> ~ skip n -> nfa !! n = Some row ->
(forall q l', q < K -> measure q l' < fuel -> exists l2, Nfa.scan fuel nfa q l' = Ok l2) ->
measure n l <= fuel -> forall edges l', (forall x, x ∈ edges -> x ∈ row) ->
(forall x, x ∈ l ++ [n] -> x ∈ l') -> exists l2, Nfa.scan_edges (Nfa.scan fuel nfa) edges l' = Ok l2.
Proof.
intros Hn Hs Hrow Hscan Hfuel. induction edges as [|[o t] edges IH]; intros l' Hsub Hl'; cbn [Nfa.scan_edges]; [eauto|].
assert (He : E n o t) by (apply (row_edge _ _ _ _ Hrow), Hsub; by left).
assert (IH' : forall l2, (forall x, x ∈ l ++ [n] -> x ∈ l2) -> exists l3, Nfa.scan_edges (Nfa.scan fuel nfa) edges l2 = Ok l3)
by (intros; apply IH; [intros; apply Hsub; by right|done]).
destruct o as [k|]; [by apply IH'|]. destruct (led_in _ _ _ He) as (q & -> & Hq).
case_bool_decide as Hin; [by apply IH'|].
assert (Hm : measure q l' < fuel) by (eapply Nat.lt_le_trans; [by apply (measure_edge n q l l')|done]).
destruct (Hscan q l' Hq Hm) as [l2 Hl2]. rewrite Hl2.
cbn [mbind Result_bind]. apply IH'. intros x Hx. apply scan_found in Hl2 as [HK _ _ _]. auto.
Qed.

Lemma scan_ends fuel : forall n l, n < K -> measure n l < fuel -> exists l', Nfa.scan fuel nfa n l = Ok l'.
Proof.
induction fuel as [|fuel IH]; intros n l Hn Hfuel; [lia|].
destruct (lookup_lt_is_Some_2 _ _ Hn) as [row Hrow]. destruct (skip_dec n) as [Hs|Hs].
- pose proof Hs as [q Hq]. rewrite (scan_skip _ _ _ _ Hq). assert (He : E n None (Some q)) by (eapply row_edge; [exact Hq|by left]).
pose proof (skip_rank _ _ He (or_introl Hs)) as Hr. pose proof (rank_le q).
apply IH; [by destruct (led_in _ _ _ He) as (? & [= <-] & ?)|].
eapply Nat.le_lt_trans; [apply measure_le|]. unfold measure in Hfuel. rewrite decide_False in Hfuel by tauto. lia.
- rewrite (scan_here _ _ _ _ Hrow Hs). eapply scan_edges_ends; eauto. lia.
Qed.

Lemma null_from_ends n : n < K -> exists l, Nfa.null_from nfa n = Ok l.
Proof.
intros Hn. unfold Nfa.null_from. destruct (scan_ends (Nfa.scan_fuel nfa) n [] Hn) as [l ->]; [|simpl; eauto].
eapply Nat.le_lt_trans; [apply measure_le|]. unfold Nfa.scan_fuel. pose proof (unseen_all []) as HU. nia.
Qed.
End calm.
End closure.
