(* ===== verification/TextTable.v ===== *)
(** [explore] of [documents/crates/text/src/schema.rs] ends, and the rows that it puts in the
    table of match states accept what the automaton spells. *)

From Stdlib Require Import Sorted.
From S2P Require Import Prelude Json Utf TextData TextSchema TextExpr TextNfa TextThompson.
From S2P Require Import TextCompile.
From S2P Require Import TextCompileSpec TextClosure.
Open Scope nat_scope.

(** ** The moves of a set of nodes *)

Lemma position_of_some kind out i : position_of kind out = Some i -> exists l, out !! i = Some (kind, l).
Proof.
  revert i. induction out as [|[k l] out IH]; intros i; simpl; [done|]. case_bool; [intros [= <-]; subst; by exists l|].
  intros (j & Hj & ->)%fmap_Some. by apply IH.
Qed.

Lemma position_of_none kind out : position_of kind out = None -> kind ∉ out.*1.
Proof.
  induction out as [|[k l] out IH]; simpl; [intros _ ?%elem_of_nil; done|]. case_bool; [done|].
  intros Hn%fmap_None [->|Hin]%elem_of_cons; [done|by apply IH].
Qed.

Lemma push_new_all nodes : forall l, NoDup l ->
  NoDup (foldl push_new l nodes) /\ forall q, q ∈ foldl push_new l nodes <-> q ∈ l \/ q ∈ nodes.
Proof.
  induction nodes as [|n nodes IH]; intros l Hl; simpl; [split; [done|set_solver]|].
  unfold push_new at 2 4. case_bool_decide as Hn.
  - destruct (IH l Hl) as [H1 H2]. split; [done|]. intros q. rewrite H2. set_solver.
  - destruct (IH (l ++ [n])) as [H1 H2].
    + apply NoDup_app. split; [done|]. split; [|apply NoDup_singleton]. by intros x Hx ->%list_elem_of_singleton.
    + split; [done|]. intros q. rewrite H2. set_solver.
Qed.

Lemma sort_desc_length l : length (Nfa.sort_desc l) = length l.
Proof.
  induction l as [|x l IH]; [done|]. simpl. rewrite <- IH. generalize (Nfa.sort_desc l) as m.
  induction m as [|y m IHm]; simpl; [done|]. case_bool; simpl; [done|by rewrite IHm].
Qed.

(** The sets of nodes below [n], as the descending lists that the table labels. *)
Fixpoint keys (n : nat) : list (list nat) :=
  match n with
  | O => [[]]
  | S n => keys n ++ ((fun l => n :: l) <$> keys n)
  end.

Lemma keys_length n : length (keys n) = 2 ^ n.
Proof. induction n as [|n IH]; [done|]. simpl. rewrite length_app, length_fmap, IH. lia. Qed.

Lemma keys_in n : forall l, StronglySorted gt l -> Forall (fun p => p < n) l -> l ∈ keys n.
Proof.
  induction n as [|n IH]; intros l Hs Hl; simpl.
  - apply list_elem_of_singleton. destruct l as [|x l]; [done|]. apply Forall_cons in Hl as [? _]. lia.
  - apply elem_of_app. destruct l as [|x l]; [left; by apply IH|]. apply Forall_cons in Hl as [Hx Hl].
    apply StronglySorted_inv in Hs as [Hs Hgt]. destruct (decide (x = n)) as [->|Hne].
    + right. apply list_elem_of_fmap. exists l. split; [done|]. by apply IH.
    + left. apply IH; [by constructor|]. constructor; [lia|]. eapply Forall_impl; [exact Hgt|]. simpl. lia.
Qed.

Lemma insert_desc_sorted x l : StronglySorted gt l -> x ∉ l -> StronglySorted gt (Nfa.insert_desc x l).
Proof.
  induction l as [|y l IH]; intros Hs Hx; simpl; [by repeat constructor|]. pose proof Hs as [Hs' Hy]%StronglySorted_inv.
  apply not_elem_of_cons in Hx as [Hxy Hx]. case_bool.
  - constructor; [done|]. constructor; [lia|]. eapply Forall_impl; [exact Hy|]. simpl. lia.
  - constructor; [by apply IH|]. rewrite Forall_forall in *. intros z [->|Hz]%insert_desc_in; [lia|by apply Hy].
Qed.

Lemma sort_desc_sorted l : NoDup l -> StronglySorted gt (Nfa.sort_desc l).
Proof. induction 1 as [|x l Hx Hl IH]; simpl; [constructor|]. apply insert_desc_sorted; [done|]. by rewrite sort_desc_in. Qed.

(** The keys that are not in the table yet. *)
Definition unused (n : nat) (labeled : gmap (list nat) MatchId) : nat :=
  length (filter (fun l => labeled !! l = None) (keys n)).

Lemma unused_all (n : nat) labeled : unused n labeled <= 2 ^ n.
Proof. unfold unused. etrans; [apply length_filter|]. by rewrite keys_length. Qed.

Lemma unused_mono (n : nat) (m1 m2 : gmap (list nat) MatchId) : m1 ⊆ m2 -> unused n m2 <= unused n m1.
Proof.
  intros H. unfold unused. induction (keys n) as [|l ls IH]; [done|]. rewrite !filter_cons.
  destruct (decide (m2 !! l = None)) as [H2|H2], (decide (m1 !! l = None)) as [H1|H1]; simpl; try lia.
  destruct H1. by eapply lookup_weaken_None.
Qed.

Lemma unused_insert (n : nat) (m : gmap (list nat) MatchId) l i : l ∈ keys n -> m !! l = None -> unused n (<[l := i]> m) < unused n m.
Proof.
  intros Hin Hl. unfold unused. revert Hin. generalize (keys n) as ls. intros ls.
  assert (Hle : forall ls, length (filter (fun l' => <[l := i]> m !! l' = None) ls) <= length (filter (fun l' => m !! l' = None) ls)).
  { clear ls. induction ls as [|l' ls IH]; [done|]. rewrite !filter_cons.
    destruct (decide (<[l:=i]> m !! l' = None)) as [H1|H1], (decide (m !! l' = None)) as [H2|H2]; simpl; try lia.
    apply lookup_insert_None in H1 as [? _]. done. }
  induction ls as [|l' ls IH]; [by intros ?%elem_of_nil|]. rewrite !filter_cons. intros [<-|Hin]%elem_of_cons.
  - rewrite (decide_False (P := <[l:=i]> m !! l = None)) by by rewrite lookup_insert_eq. rewrite decide_True by done. simpl.
    specialize (Hle ls). lia.
  - specialize (IH Hin).
    destruct (decide (<[l:=i]> m !! l' = None)) as [H1|H1], (decide (m !! l' = None)) as [H2|H2]; simpl; try lia.
    apply lookup_insert_None in H1 as [? _]. done.
Qed.

(** ** What a table accepts *)

(** [match_children] over the kinds of the children. *)
Fixpoint run (matches : list MatchState) (id : MatchId) (kinds : list NodeId) : option MatchId :=
  match kinds with
  | [] => Some id
  | kind :: kinds =>
      row ← matches !! id;
      target ← Schema.find_edge kind (next row);
      run matches target kinds
  end.

Definition accepts (matches : list MatchState) (id : MatchId) (kinds : list NodeId) : Prop :=
  exists e row, run matches id kinds = Some e /\ matches !! e = Some row /\ valid_end row = true.

Section table.
Variable nfa : Nfa.
Abbreviation E := (edges_of nfa).
Abbreviation K := (length nfa).

Hypothesis K_pos : 0 < K.
Hypothesis led_in : forall p o t, E p o t -> exists q, t = Some q /\ q < K.
Hypothesis last_end : forall o t, ~ E (K - 1) o t.
Hypothesis null_ends : forall n, n < K -> exists l, Nfa.null_from nfa n = Ok l.

(** What the edges of a list lead to by a kind. *)
Definition takes (done : list Edge) (k : NodeId) : Prop := exists t, MkEdge (Some k) (Some t) ∈ done.
Definition reaches (done : list Edge) (k : NodeId) (q : nat) : Prop :=
exists t, MkEdge (Some k) (Some t) ∈ done /\ leads nfa t q /\ ~ skip nfa q.

Record moves_ok (out : list (NodeId * list nat)) (done : list Edge) : Prop := {
mo_nodup : NoDup out.*1;
mo_kinds : forall k, k ∈ out.*1 <-> takes done k;
mo_lists : forall k l, (k, l) ∈ out -> NoDup l /\ forall q, q ∈ l <-> reaches done k q
}.

Lemma moves_ok_ext out d1 d2 : (forall e, e ∈ d1 <-> e ∈ d2) -> moves_ok out d1 -> moves_ok out d2.
Proof.
intros H [N T L]. constructor; [done| |].
- intros k. rewrite T. unfold takes. by setoid_rewrite H.
- intros k l [H1 H2]%L. split; [done|]. intros q. rewrite H2. unfold reaches. by setoid_rewrite H.
Qed.

(** A list for the kind, empty when the kind is new. *)
Lemma moves_ok_entry out done k : moves_ok out done ->
exists out' i l, (match position_of k out with Some _ => out | None => out ++ [(k, [])] end) = out' /\
default (length out' - 1) (position_of k out) = i /\ out' !! i = Some (k, l) /\ NoDup out'.*1 /\
(forall k', k' ∈ out'.*1 <-> k' = k \/ takes done k') /\
forall k' l', (k', l') ∈ out' -> NoDup l' /\ forall q, q ∈ l' <-> reaches done k' q.
Proof.
intros [N T L]. destruct (position_of k out) as [i|] eqn:Hp.
- destruct (position_of_some _ _ _ Hp) as [l Hl]. exists out, i, l. do 4 (split; [done|]). split; [|done].
intros k'. rewrite T. split; [by right|]. intros [->|]; [|done]. apply T, list_elem_of_fmap. exists (k, l).
split; [done|by eapply list_elem_of_lookup_2].
- apply position_of_none in Hp. exists (out ++ [(k, [])]), (length out), []. split; [done|]. split; [rewrite length_app; simpl; lia|].
split; [by apply list_lookup_middle|]. rewrite fmap_app. simpl. split; [|split].
+ apply NoDup_app. split; [done|]. split; [|apply NoDup_singleton]. intros x Hx Hk. apply list_elem_of_singleton in Hk. by subst.
+ intros k'. rewrite elem_of_app, list_elem_of_singleton, T. tauto.
+ intros k' l' [Hin|Heq%list_elem_of_singleton]%elem_of_app; [by apply L|]. injection Heq as -> ->. split; [constructor|].
intros q. split; [by intros ?%elem_of_nil|]. intros (t & Ht & _). destruct Hp. apply T. by exists t.
Qed.

Lemma add_move_ok out done e : moves_ok out done -> (forall t, to e = Some t -> t < K) ->
exists out', add_move nfa out e = Ok out' /\ moves_ok out' (done ++ [e]).
Proof.
intros Hok Ht. destruct e as [[k|] [t|]]; unfold add_move; cbn [term to] in *.
2-4: exists out; split; [done|]; destruct Hok as [N T L]; constructor; [done| |].
2,4,6: intros k'; rewrite T; unfold takes; split; intros [x Hx]; exists x; set_solver.
2-4: intros k' l [H1 H2]%L; split; [done|]; intros q; rewrite H2; unfold reaches;
split; intros (x & Hx & ?); exists x; set_solver.
destruct (null_ends t (Ht t eq_refl)) as [nodes Hn].
pose proof (null_from_found nfa t nodes Hn) as Hfound. rewrite Hn. cbn [mbind Result_bind].
destruct (moves_ok_entry out done k Hok) as (out' & i & l & -> & -> & Hi & N & T & L). rewrite Hi. cbn [or_panic mbind Result_bind fst snd].
eexists. split; [done|]. pose proof (L k l (list_elem_of_lookup_2 _ _ _ Hi)) as [Nl Hl].
destruct (push_new_all nodes l Nl) as [Np Hp].
assert (Hfst : (<[i:=(k, foldl push_new l nodes)]> out').*1 = out'.*1).
{ rewrite list_fmap_insert. simpl. apply list_insert_id. by rewrite list_lookup_fmap, Hi. }
constructor; rewrite ?Hfst; [done| |].
- intros k'. rewrite T. unfold takes. setoid_rewrite elem_of_app. setoid_rewrite list_elem_of_singleton. naive_solver.
- intros k' l' (j & Hj)%list_elem_of_lookup. destruct (decide (i = j)) as [<-|Hij].
+ rewrite list_lookup_insert_eq in Hj by by eapply lookup_lt_Some. injection Hj as <- <-. split; [done|].
intros q. rewrite Hp, Hl, Hfound. unfold reaches. setoid_rewrite elem_of_app. setoid_rewrite list_elem_of_singleton. naive_solver.
+ rewrite list_lookup_insert_ne in Hj by done. destruct (L k' l' (list_elem_of_lookup_2 _ _ _ Hj)) as [Nl' Hl']. split; [done|].
intros q. rewrite Hl'. unfold reaches. setoid_rewrite elem_of_app. setoid_rewrite list_elem_of_singleton. split.
* intros (x & Hx & ?). exists x. tauto.
* intros (x & [Hx|Hx] & ?); [by exists x|]. injection Hx as -> <-. destruct Hij.
eapply NoDup_lookup; [exact N| |]; by rewrite list_lookup_fmap, ?Hi, ?Hj.
Qed.

Lemma add_moves_ok row : forall out done, moves_ok out done -> (forall e t, e ∈ row -> to e = Some t -> t < K) ->
exists out', try_fold (add_move nfa) row out = Ok out' /\ moves_ok out' (done ++ row).
Proof.
induction row as [|e row IH]; intros out done Hok Ht; cbn [try_fold].
- exists out. by rewrite app_nil_r.
- destruct (add_move_ok out done e Hok) as (o1 & -> & H1); [intros; eapply Ht; [by left|done]|]. cbn [mbind Result_bind].
destruct (IH o1 _ H1) as (o2 & -> & H2); [intros; eapply Ht; [by right|done]|]. exists o2. split; [done|].
by rewrite <- app_assoc in H2.
Qed.

(** The edges of a set of nodes. *)
Definition rows (states : list nat) : list Edge := states ≫= fun p => default [] (nfa !! p).

Lemma rows_in states e : e ∈ rows states <-> exists p, p ∈ states /\ E p (term e) (to e).
Proof.
unfold rows. rewrite list_elem_of_bind. unfold edges_of, entry. simpl. destruct e as [o t]. simpl. split.
- intros (p & He & Hp). exists p. split; [done|]. apply list_elem_of_lookup in He as [i Hi]. exists i.
destruct (nfa !! p); simpl in *; [done|by rewrite lookup_nil in Hi].
- intros (p & Hp & i & Hi). exists p. split; [|done]. destruct (nfa !! p); simpl in *; [|done].
by eapply list_elem_of_lookup_2.
Qed.

Lemma moves_spec states : Forall (fun p => p < K) states ->
exists out, moves nfa states = Ok out /\ moves_ok out (rows states).
Proof.
unfold moves. assert (H0 : moves_ok [] []).
{ constructor; [constructor| |by intros ? ? ?%elem_of_nil]. intros k. split; [by intros ?%elem_of_nil|by intros (t & ?%elem_of_nil)]. }
change (rows states) with ([] ++ rows states). revert H0. generalize (@nil Edge) as done. generalize (@nil (NodeId * list nat)) as out.
induction states as [|p states IH]; intros out done H0 HS; cbn [try_fold].
- exists out. split; [done|]. by rewrite app_nil_r.
- apply Forall_cons in HS as [Hp HS]. destruct (lookup_lt_is_Some_2 _ _ Hp) as [row Hrow]. rewrite Hrow. cbn [or_panic mbind Result_bind].
destruct (add_moves_ok row out done H0) as (o1 & -> & H1).
{ intros [o t'] t Hin Ht. simpl in Ht. subst. apply (row_edge nfa _ _ _ _ Hrow) in Hin. by destruct (led_in _ _ _ Hin) as (? & [= <-] & ?). }
cbn [mbind Result_bind]. destruct (IH o1 _ H1 HS) as (o2 & E2 & H2). exists o2. split; [exact E2|].
unfold rows in *. simpl. rewrite Hrow. simpl. by rewrite app_assoc.
Qed.

(** ** The rows of a table *)

Definition inside (states : list nat) : Prop := Forall (fun p => p < K) states.

(** The row of a set of nodes: whether the end is in it, and for each kind the row of the set
that the kind leads to. *)
Record row_ok (labeled : gmap (list nat) MatchId) (states : list nat) (row : MatchState) : Prop := {
ro_end : valid_end row = bool_decide (K - 1 ∈ states);
ro_edge : forall k t, Schema.find_edge k (next row) = Some t ->
exists S', labeled !! S' = Some t /\ forall q, q ∈ S' <-> reaches (rows states) k q;
ro_none : forall k, Schema.find_edge k (next row) = None -> forall q, ~ reaches (rows states) k q;
ro_all : Forall (fun e => (exists S', labeled !! S' = Some e.2) /\ takes (rows states) e.1) (next row)
}.

Lemma row_ok_mono l1 l2 S row : l1 ⊆ l2 -> row_ok l1 S row -> row_ok l2 S row.
Proof.
intros Hl [He Hk Hn Ha]. constructor; [done| |done|].
- intros k t (S' & H1 & H2)%Hk. exists S'. split; [by eapply lookup_weaken|done].
- eapply Forall_impl; [exact Ha|]. intros e [[S' H1] H2]. split; [|done]. exists S'. by eapply lookup_weaken.
Qed.

(** A table grows: the rows before [id] stay, and each set that is new has its row from [id] on. *)
Record grows (id : nat) (labeled : gmap (list nat) MatchId) (matches : list MatchState)
(labeled' : gmap (list nat) MatchId) (matches' : list MatchState) : Prop := {
gr_labeled : labeled ⊆ labeled';
gr_length : length matches <= length matches';
gr_stay : forall i, i < length matches -> matches' !! i = matches !! i;
gr_new : forall S i, labeled' !! S = Some i -> labeled !! S = Some i \/
id <= i /\ inside S /\ exists row, matches' !! i = Some row /\ row_ok labeled' S row;
gr_cover : forall i, length matches <= i < length matches' -> exists S, labeled' !! S = Some i
}.

Lemma grows_refl id labeled matches : grows id labeled matches labeled matches.
Proof. constructor; [done|done|done|by left|lia]. Qed.

Definition works (k : nat) (f : list nat -> gmap (list nat) MatchId -> list MatchState -> built (MatchId * gmap (list nat) MatchId * list MatchState)) : Prop :=
forall states labeled matches, labeled !! states = None -> inside states ->
unused K (<[states := length matches]> labeled) < k ->
exists labeled' matches', f states labeled matches = Ok (length matches, labeled', matches') /\
labeled' !! states = Some (length matches) /\ grows (length matches) labeled matches labeled' matches'.

Definition moved (labeled : gmap (list nat) MatchId) (m : NodeId * list nat) (e : NodeId * MatchId) : Prop :=
m.1 = e.1 /\ labeled !! Nfa.sort_desc m.2 = Some e.2.

(** The loop of [explore]: the row [id] gets an entry for each move. *)
Lemma follow_spec k inner id v : works k inner -> forall out done labeled matches nx,
(forall m, m ∈ out -> Nfa.sort_desc m.2 ∈ keys K /\ inside (Nfa.sort_desc m.2)) ->
unused K labeled <= k -> id < length matches -> matches !! id = Some (MkMatchState v nx) ->
Forall2 (moved labeled) done nx ->
exists labeled' matches' nx', follow inner id out labeled matches = Ok (labeled', matches') /\
matches' !! id = Some (MkMatchState v nx') /\ Forall2 (moved labeled') (done ++ out) nx' /\
grows (length matches) labeled (<[id := MkMatchState v nx']> matches) labeled' matches'.
Proof.
intros Hinner. induction out as [|[kind l] out IH]; intros done labeled matches nx Hout Hk Hid Hrow Hdone; cbn [follow].
- exists labeled, matches, nx. split; [done|]. split; [done|]. rewrite app_nil_r. split; [done|].
rewrite list_insert_id by done. apply grows_refl.
- destruct (Hout (kind, l)) as [Hkey Hin]; [by left|]. simpl in Hkey, Hin.
assert (Hcall : exists target labeled1 matches1,
match labeled !! Nfa.sort_desc l with
| Some known => Ok (known, labeled, matches)
| None => inner (Nfa.sort_desc l) labeled matches
end = Ok (target, labeled1, matches1) /\ labeled1 !! Nfa.sort_desc l = Some target /\
grows (length matches) labeled matches labeled1 matches1).
{ destruct (labeled !! Nfa.sort_desc l) as [known|] eqn:Hl.
- exists known, labeled, matches. do 2 (split; [done|]). apply grows_refl.
- destruct (Hinner (Nfa.sort_desc l) labeled matches Hl Hin) as (l1 & m1 & E1 & H1 & G1); [|by exists (length matches), l1, m1].
eapply Nat.lt_le_trans; [by apply unused_insert|done]. }
destruct Hcall as (target & l1 & m1 & -> & Ht & [GL GN GS GW GC]). cbn [mbind Result_bind]. rewrite GS by done. rewrite Hrow.
cbn [or_panic mbind Result_bind valid_end next].
set (m2 := <[id:=MkMatchState v (nx ++ [(kind, target)])]> m1).
assert (Hlen : length m2 = length m1) by apply length_insert.
destruct (IH (done ++ [(kind, l)]) l1 m2 (nx ++ [(kind, target)])) as (l' & m' & nx' & E' & Hrow' & Hm' & [GL' GN' GS' GW' GC']).
{ intros m Hm. apply Hout. by right. }
{ etrans; [by apply unused_mono|done]. }
{ lia. }
{ apply list_lookup_insert_eq. lia. }
{ apply Forall2_app; [|by repeat constructor]. eapply Forall2_impl; [exact Hdone|].
intros m e [H1 H2]. split; [done|]. by eapply lookup_weaken. }
rewrite length_insert in GN', GS'. rewrite Hlen in GN', GS'.
exists l', m', nx'. split; [exact E'|]. split; [done|]. split; [by rewrite <- app_assoc in Hm'|]. constructor.
+ by etrans.
+ rewrite length_insert. lia.
+ intros i Hi. rewrite length_insert in Hi. rewrite GS' by lia. destruct (decide (id = i)) as [<-|Hne].
* by rewrite !list_lookup_insert_eq by lia.
* unfold m2. rewrite !list_lookup_insert_ne by done. by apply GS.
+ intros S i [HS|(Hi & HS & row & H1 & H2)]%GW'; [|right; split; [lia|by eauto]].
apply GW in HS as [HS|(Hi & HS & row & H1 & H2)]; [by left|right]. split; [done|]. split; [done|]. exists row.
split; [|by eapply row_ok_mono]. rewrite GS' by by eapply lookup_lt_Some.
unfold m2. rewrite !list_lookup_insert_ne by lia. done.
+ intros i Hi. rewrite length_insert in Hi. destruct (decide (i < length m1)).
* destruct (GC i) as [S HS]; [lia|]. exists S. by eapply lookup_weaken.
* apply GC'. rewrite length_insert, Hlen. lia.
Qed.

Lemma find_edge_moved labeled out nx k : Forall2 (moved labeled) out nx ->
match Schema.find_edge k nx with
| Some t => exists l, (k, l) ∈ out /\ labeled !! Nfa.sort_desc l = Some t
| None => k ∉ out.*1
end.
Proof.
induction 1 as [|[k1 l] [k2 t] out nx [H1 H2] _ IH]; simpl in *; [by intros ?%elem_of_nil|]. subst k2. case_bool.
- subst. exists l. split; [by left|done].
- destruct (Schema.find_edge k nx).
+ destruct IH as (l' & ? & ?). exists l'. split; [by right|done].
+ intros [->|]%elem_of_cons; done.
Qed.

Lemma leads_in p q : leads nfa p q -> p < K -> q < K.
Proof.
unfold leads. induction 1 as [|p o q w r He _ IH]; [done|]. intros _. apply IH.
by destruct (led_in _ _ _ He) as (? & [= <-] & ?).
Qed.

Lemma reaches_in states k q : reaches (rows states) k q -> q < K.
Proof.
intros (t & (p & _ & He)%rows_in & Hl & _). simpl in He. destruct (led_in _ _ _ He) as (? & [= <-] & Ht). by eapply leads_in.
Qed.

Lemma sort_desc_key states out k l : moves_ok out (rows states) -> (k, l) ∈ out ->
Nfa.sort_desc l ∈ keys K /\ inside (Nfa.sort_desc l).
Proof.
intros [_ _ HL] Hin. destruct (HL k l Hin) as [Hd Hq].
assert (Hi : inside (Nfa.sort_desc l)).
{ apply Forall_forall. intros q. rewrite sort_desc_in, Hq. by apply reaches_in. }
split; [|done]. apply keys_in; [by apply sort_desc_sorted|done].
Qed.

Lemma row_ok_moves labeled states out nx : moves_ok out (rows states) -> Forall2 (moved labeled) out nx ->
row_ok labeled states (MkMatchState (bool_decide (K - 1 ∈ states)) nx).
Proof.
intros [N T L] Hm. constructor; simpl; [done| | |].
- intros k t Hf. pose proof (find_edge_moved labeled out nx k Hm) as H. rewrite Hf in H. destruct H as (l & Hin & Hl).
exists (Nfa.sort_desc l). split; [done|]. intros q. rewrite sort_desc_in. by apply L.
- intros k Hf q (t & Ht & _). pose proof (find_edge_moved labeled out nx k Hm) as H. rewrite Hf in H.
apply H, T. by exists t.
- assert (HT : Forall (fun m => takes (rows states) m.1) out).
{ apply Forall_forall. intros [k l] Hin. apply T, list_elem_of_fmap. by exists (k, l). }
clear N T L. induction Hm as [|m e out nx [H1 H2] _ IH]; [constructor|]. apply Forall_cons in HT as [HT1 HT].
constructor; [|by apply IH]. rewrite <- H1. split; [by eexists|done].
Qed.

Lemma explore_round_works k inner : works k inner -> works (S k) (explore_round nfa inner).
Proof.
intros Hinner states labeled matches Hnone Hin Hk. unfold explore_round.
destruct (moves_spec states Hin) as (out & -> & Hout). cbn [mbind Result_bind].
rewrite usub_le by lia. cbn [mbind Result_bind]. set (id := length matches).
set (row0 := MkMatchState (bool_decide (K - 1 ∈ states)) []).
assert (Hlen : length (matches ++ [row0]) = S id) by (rewrite length_app; simpl; unfold id; lia).
destruct (follow_spec k inner id (bool_decide (K - 1 ∈ states)) Hinner out [] (<[states:=id]> labeled) (matches ++ [row0]) [])
as (l' & m' & nx' & -> & Hrow & Hm & [GL GN GS GW GC]).
{ intros [k' l] Hl. by eapply sort_desc_key. }
{ unfold id. lia. }
{ lia. }
{ by apply list_lookup_middle. }
{ constructor. }
cbn [mbind Result_bind]. rewrite length_insert, Hlen in GN, GS.
assert (Hlab : labeled ⊆ l') by (etrans; [by apply insert_subseteq|done]).
assert (Hst : l' !! states = Some id) by (eapply lookup_weaken; [|exact GL]; by apply lookup_insert_eq).
exists l', m'. split; [done|]. split; [done|]. constructor; [done|unfold id in *; lia| | |].
- intros i Hi. rewrite GS by (unfold id; lia). rewrite list_lookup_insert_ne by (unfold id; lia). by apply lookup_app_l.
- intros S i [HS|(Hi & HS & row & H1 & H2)]%GW.
+ apply lookup_insert_Some in HS as [[<- <-]|[_ HS]]; [right|by left]. split; [done|]. split; [done|].
exists (MkMatchState (bool_decide (K - 1 ∈ states)) nx'). split; [done|]. by eapply row_ok_moves.
+ right. split; [lia|]. by eauto.
- intros i Hi. destruct (decide (i = id)) as [->|]; [by exists states|]. apply GC. rewrite length_insert, Hlen. unfold id in *. lia.
Qed.

Lemma deep_works (F : (list nat -> gmap (list nat) MatchId -> list MatchState -> built (MatchId * gmap (list nat) MatchId * list MatchState)) -> _) :
(forall k f, works k f -> works (S k) (F f)) ->
forall n k f, works k f -> works (k + 2 ^ n) (deep n F f).
Proof.
intros HF. induction n as [|n IH]; intros k f Hf.
- simpl. rewrite Nat.add_1_r. by apply HF.
- simpl. rewrite Nat.add_0_r, Nat.add_assoc. apply (IH (k + 2 ^ n) (fun a b c => deep n F f a b c)). by apply IH.
Qed.

(** [explore] ends from any set of nodes that is not labeled. *)
Lemma explore_works states labeled matches : labeled !! states = None -> inside states ->
exists labeled' matches', explore nfa states labeled matches = Ok (length matches, labeled', matches') /\
labeled' !! states = Some (length matches) /\ grows (length matches) labeled matches labeled' matches'.
Proof.
intros Hn Hin. unfold explore. apply (deep_works (explore_round nfa) explore_round_works (S K) 0); [|done|done|].
- intros ? ? ? _ _ ?. lia.
- pose proof (unused_all K (<[states:=length matches]> labeled)). pose proof (Nat.pow_nonzero 2 K). simpl. lia.
Qed.

(** ** The language of a table *)

Lemma walks_app p u q v z : walks E p u q -> walks E q v z -> walks E p (u ++ v) z.
Proof.
induction 1 as [|p o q u r He _ IH]; intros Hv; [done|]. rewrite <- app_assoc. econstructor; [exact He|by apply IH].
Qed.

Lemma last_not_skip : ~ skip nfa (K - 1).
Proof. intros [q Hq]. apply (last_end None (Some q)). eapply row_edge; [exact Hq|by left]. Qed.

Lemma taker_not_skip p k t : E p (Some k) t -> ~ skip nfa p.
Proof. intros He [q Hq]. by destruct (skip_edge nfa _ _ _ _ Hq He). Qed.

(** A walk starts with steps that take no kind, to a node that is not passed over. *)
Lemma walks_start p w z : walks E p w z ->
match w with
| [] => leads nfa p z
| k :: w => exists q t, leads nfa p q /\ E q (Some k) (Some t) /\ walks E t w z
end.
Proof.
induction 1 as [p|p [k|] q w r He Hw IH]; simpl; [apply leads_refl| |].
- exists p, q. split; [apply leads_refl|done].
- destruct w as [|k w]; [by eapply leads_step|].
destruct IH as (q' & t & Hl & H'). exists q', t. split; [by eapply leads_step|done].
Qed.

(** A set of nodes spells what one of its nodes does. *)
Definition spelled (states : list nat) (w : list NodeId) : Prop := exists p, p ∈ states /\ walks E p w (K - 1).
Definition closed (states : list nat) : Prop :=
forall p q, p ∈ states -> leads nfa p q -> ~ skip nfa q -> q ∈ states.

Lemma spelled_nil states : closed states -> spelled states [] <-> K - 1 ∈ states.
Proof.
intros Hc. split.
- intros (p & Hp & Hw%walks_start). eapply Hc; [exact Hp|done|apply last_not_skip].
- intros H. exists (K - 1). split; [done|constructor].
Qed.

Lemma spelled_cons states k w S' : closed states -> (forall q, q ∈ S' <-> reaches (rows states) k q) ->
spelled states (k :: w) <-> spelled S' w.
Proof.
intros Hc HS. split.
- intros (p & Hp & (q & t & Hl & He & Hw)%walks_start).
assert (Hq : q ∈ states) by (eapply Hc; [exact Hp|done|by eapply taker_not_skip]).
assert (Hin : MkEdge (Some k) (Some t) ∈ rows states) by (apply rows_in; by exists q).
destruct w as [|k' w]; apply walks_start in Hw as Hs.
+ exists (K - 1). split; [|constructor]. apply HS. exists t. split; [done|]. split; [done|apply last_not_skip].
+ destruct Hs as (q' & t' & Hl' & He' & Hw'). exists q'. split.
* apply HS. exists t. split; [done|]. split; [done|by eapply taker_not_skip].
* change (k' :: w) with (opt (Some k') ++ w). by econstructor.
- intros (q & (t & (p & Hp & He)%rows_in & Hl & _)%HS & Hw). exists p. split; [done|].
change (k :: w) with (opt (Some k) ++ w). econstructor; [exact He|]. by apply (walks_app t [] q w).
Qed.

Lemma closed_reaches states k S' : (forall q, q ∈ S' <-> reaches (rows states) k q) -> closed S'.
Proof.
intros HS p q (t & Hin & Hl & _)%HS Hpq Hs. apply HS. exists t. split; [done|]. split; [|done].
by apply (walks_app t [] p []).
Qed.

Lemma spelled_none states k w : closed states -> (forall q, ~ reaches (rows states) k q) -> ~ spelled states (k :: w).
Proof.
intros Hc Hn Hw. apply (spelled_cons states k w []) in Hw as (p & Hp & _); [by apply elem_of_nil in Hp|done|].
intros q. split; [by intros ?%elem_of_nil|intros Hq; by apply Hn in Hq].
Qed.

(** A table whose rows are right accepts from the row of a set what the set spells. *)
Lemma table_accepts labeled matches :
(forall S i, labeled !! S = Some i -> exists row, matches !! i = Some row /\ row_ok labeled S row) ->
forall w states id, labeled !! states = Some id -> closed states -> accepts matches id w <-> spelled states w.
Proof.
intros Hok. induction w as [|k w IH]; intros states id Hid Hc; destruct (Hok _ _ Hid) as (row & Hrow & [He Hk Hn _]); unfold accepts; simpl.
- rewrite spelled_nil by done. split.
+ intros (e & row' & [= <-] & Hr & Hv). rewrite Hrow in Hr. injection Hr as <-. rewrite He in Hv. by apply bool_decide_eq_true in Hv.
+ intros Hin. exists id, row. split; [done|]. split; [done|]. rewrite He. by apply bool_decide_eq_true.
- rewrite Hrow. simpl. destruct (Schema.find_edge k (next row)) as [t|] eqn:Hf; simpl.
+ destruct (Hk k t Hf) as (S' & Ht & HS). rewrite (spelled_cons states k w S') by done.
apply IH; [done|by eapply closed_reaches].
+ split; [by intros (? & ? & ? & _)|]. intros Hw. by apply spelled_none in Hw; [|done|apply Hn].
Qed.
End table.
