(* ===== verification/TextNew.v ===== *)
(** The node types that a content expression names: they are in range, and so are the kinds
    of the automaton; the parser asks of the node types only what does not change while
    [Schema::new] fills them in. *)

From S2P Require Import Prelude Json Utf TextData TextSchema TextExpr TextNfa TextThompson.
From S2P Require Import TextCompile TextCompileSpec TextClosure TextTable.
Open Scope nat_scope.

Fixpoint mentions (e : Expr) : list NodeId :=
  match e with
  | Choice es | Seq es => flat_map mentions es
  | Plus e | Star e | Opt e | Range _ _ e => mentions e
  | Name id => [id]
  end.

(** ** The names that the parser reads *)

Lemma flat_map_all {A B} (P : B -> Prop) (f : A -> list B) l : Forall (fun x => Forall P (f x)) l -> Forall P (flat_map f l).
Proof. induction 1; simpl; [constructor|by apply Forall_app]. Qed.

Section parser.
Context (words : list string) (nodes : list NodeType) (ids : gmap string NodeId).
Local Abbreviation parsed A := (Result BadSchema (A * Cursor)).

Definition in_range (e : Expr) : Prop := Forall (fun id => id < length nodes) (mentions e).

Definition yields {A} (P : A -> Prop) (r : parsed A) : Prop := forall a c, r = Ok (a, c) -> P a.

Lemma yields_bind {A B} (P : A -> Prop) (Q : B -> Prop) (r : parsed A) (f : A * Cursor -> parsed B) :
yields P r -> (forall a c, P a -> yields Q (f (a, c))) -> yields Q (r ≫= f).
Proof. intros Hr Hf b c ([a c'] & Ha & Hb)%bind_ok. eapply Hf; [by eapply Hr|exact Hb]. Qed.

Lemma yields_ok {A} (P : A -> Prop) a c : P a -> yields P (Ok (a, c)).
Proof. by intros H a' c' [= <- <-]. Qed.

Lemma yields_err {A} (P : A -> Prop) e : yields P (Err e).
Proof. by intros a c. Qed.

Lemma one_or_range many es : (forall es, Forall in_range es -> in_range (many es)) -> Forall in_range es -> in_range (one_or many es).
Proof. intros Hm H. destruct es as [|e [|e' es]]; simpl; try by apply Hm. by apply Forall_cons in H as [? _]. Qed.

Lemma in_range_choice es : Forall in_range es -> in_range (Choice es).
Proof. apply flat_map_all. Qed.

Lemma in_range_seq es : Forall in_range es -> in_range (Seq es).
Proof. apply flat_map_all. Qed.

Lemma names_range found : forall known known', names nodes found known = Ok known' -> Forall (fun id => id < length nodes) found.
Proof.
induction found as [|id found IH]; intros known known'; cbn [names]; [constructor|].
intros (n & Hn%or_panic_ok & H)%bind_ok. constructor; [by eapply lookup_lt_Some|].
destruct (match known with Some _ => _ | None => _ end); [done|]. by eapply IH.
Qed.

Section levels.
Variable inner : Cursor -> parsed Expr.
Hypothesis Hinner : forall c, yields in_range (inner c).

Lemma atom_range c : yields in_range (parse_atom words nodes ids inner c).
Proof.
unfold parse_atom. destruct (at_token words "(" c).
- eapply yields_bind; [apply Hinner|]. intros e c1 He. destruct (at_token _ _ _); [by apply yields_ok|apply yields_err].
- intros e c' (name & _ & H)%bind_ok. destruct (forallb _ _); [|done].
apply bind_ok in H as (found & _ & (known & Hn & [= <- <-])%bind_ok). apply names_range in Hn.
apply one_or_range; [apply in_range_choice|]. apply Forall_fmap. eapply Forall_impl; [exact Hn|].
intros id Hid. by repeat constructor.
Qed.

Lemma suffixes_range fuel : forall e c, in_range e -> yields in_range (parse_suffixes words fuel e c).
Proof.
induction fuel as [|fuel IH]; intros e c He; [by intros ? ?|]. cbn [parse_suffixes].
destruct (at_token words "+" c); [by apply IH|]. destruct (at_token words "*" c); [by apply IH|].
destruct (at_token words "?" c); [by apply IH|]. destruct (at_token words "{" c); [|by apply yields_ok].
eapply (yields_bind in_range); [|intros; by apply IH]. unfold parse_range. intros e' c'.
intros ([min c1] & _ & ([max c2] & _ & H)%bind_ok)%bind_ok. destruct (at_token _ _ _); [|done]. by injection H as <- <-.
Qed.

Lemma subscript_range c : yields in_range (parse_subscript words nodes ids inner c).
Proof. eapply yields_bind; [apply atom_range|]. intros. by apply suffixes_range. Qed.

Lemma more_range fuel : forall es c, Forall in_range es -> yields (Forall in_range) (parse_more words nodes ids inner fuel es c).
Proof.
induction fuel as [|fuel IH]; intros es c Hes; [by intros ? ?|]. cbn [parse_more].
destruct (peek words c); [|by apply yields_ok]. destruct (_ && _); [|by apply yields_ok].
eapply yields_bind; [apply subscript_range|]. intros e c1 He. apply IH, Forall_app. by repeat constructor.
Qed.

Lemma seq_range c : yields in_range (parse_seq words nodes ids inner c).
Proof.
eapply yields_bind; [apply subscript_range|]. intros e c1 He. eapply yields_bind; [apply more_range; by repeat constructor|].
intros es c2 Hes. apply yields_ok, one_or_range; [apply in_range_seq|done].
Qed.

Lemma choices_range fuel : forall es c, Forall in_range es -> yields (Forall in_range) (parse_choices words nodes ids inner fuel es c).
Proof.
induction fuel as [|fuel IH]; intros es c Hes; [by intros ? ?|]. cbn [parse_choices].
destruct (at_token words "|" c); [|by apply yields_ok].
eapply yields_bind; [apply seq_range|]. intros e c1 He. apply IH, Forall_app. by repeat constructor.
Qed.

Lemma level_range c : yields in_range (parse_level words nodes ids inner c).
Proof.
eapply yields_bind; [apply seq_range|]. intros e c1 He. eapply yields_bind; [apply choices_range; by repeat constructor|].
intros es c2 Hes. apply yields_ok, one_or_range; [apply in_range_choice|done].
Qed.
End levels.

Lemma parse_range_names fuel : forall c, yields in_range (parse_expr words nodes ids fuel c).
Proof. induction fuel as [|fuel IH]; intros c; [by intros ? ?|]. by apply level_range. Qed.
End parser.

(** ** What the parser asks of the node types *)

Definition shape (n : NodeType) : list string * bool := (nt_groups n, nt_is_block n).

Section same.
Context (words : list string) (nodes1 nodes2 : list NodeType) (ids : gmap string NodeId).
Hypothesis Hshape : shape <$> nodes1 = shape <$> nodes2.
Local Abbreviation parsed A := (Result BadSchema (A * Cursor)).

Lemma same_shape id : shape <$> nodes1 !! id = shape <$> nodes2 !! id.
Proof. by rewrite <- !list_lookup_fmap, Hshape. Qed.

Lemma same_length : length nodes1 = length nodes2.
Proof. rewrite <- (length_fmap shape nodes1), Hshape. apply length_fmap. Qed.

Lemma resolve_name_same name : resolve_name nodes1 ids name = resolve_name nodes2 ids name.
Proof.
unfold resolve_name. destruct (ids !! name); [done|]. rewrite same_length. erewrite list_filter_iff; [done|].
intros i. pose proof (same_shape i) as H. destruct (nodes1 !! i) as [n1|], (nodes2 !! i) as [n2|]; try done.
by injection H as -> _.
Qed.

Lemma names_same found : forall known, names nodes1 found known = names nodes2 found known.
Proof.
induction found as [|id found IH]; intros known; [done|]. cbn [names]. pose proof (same_shape id) as H.
destruct (nodes1 !! id) as [n1|], (nodes2 !! id) as [n2|]; try done. injection H as _ H. cbn [or_panic mbind Result_bind].
rewrite H. destruct (match known with Some _ => _ | None => _ end); [done|apply IH].
Qed.

Lemma bind_same {A B} (r1 r2 : Result BadSchema A) (f1 f2 : A -> Result BadSchema B) :
r1 = r2 -> (forall a, f1 a = f2 a) -> (r1 ≫= f1) = (r2 ≫= f2).
Proof. intros -> H. destruct r2; simpl; auto. Qed.

Section levels.
Variables inner1 inner2 : Cursor -> parsed Expr.
Hypothesis Hinner : forall c, inner1 c = inner2 c.

Lemma atom_same c : parse_atom words nodes1 ids inner1 c = parse_atom words nodes2 ids inner2 c.
Proof.
unfold parse_atom. rewrite Hinner. destruct (at_token _ _ _); [done|]. apply bind_same; [done|]. intros name.
rewrite resolve_name_same. destruct (forallb _ _); [|done]. apply bind_same; [done|]. intros found. by rewrite names_same.
Qed.

Lemma subscript_same c : parse_subscript words nodes1 ids inner1 c = parse_subscript words nodes2 ids inner2 c.
Proof. unfold parse_subscript. by rewrite atom_same. Qed.

Lemma more_same fuel : forall es c, parse_more words nodes1 ids inner1 fuel es c = parse_more words nodes2 ids inner2 fuel es c.
Proof.
induction fuel as [|fuel IH]; intros es c; [done|]. cbn [parse_more]. rewrite subscript_same.
destruct (peek words c); [|done]. destruct (_ && _); [|done]. apply bind_same; [done|]. intros []. apply IH.
Qed.

Lemma seq_same c : parse_seq words nodes1 ids inner1 c = parse_seq words nodes2 ids inner2 c.
Proof. apply bind_same; [apply subscript_same|]. intros [e c1]. by rewrite more_same. Qed.

Lemma choices_same fuel : forall es c, parse_choices words nodes1 ids inner1 fuel es c = parse_choices words nodes2 ids inner2 fuel es c.
Proof.
induction fuel as [|fuel IH]; intros es c; [done|]. cbn [parse_choices]. rewrite seq_same.
destruct (at_token _ _ _); [|done]. apply bind_same; [done|]. intros []. apply IH.
Qed.

Lemma level_same c : parse_level words nodes1 ids inner1 c = parse_level words nodes2 ids inner2 c.
Proof. apply bind_same; [apply seq_same|]. intros [e c1]. by rewrite choices_same. Qed.
End levels.

Lemma parse_same fuel : forall c, parse_expr words nodes1 ids fuel c = parse_expr words nodes2 ids fuel c.
Proof. induction fuel as [|fuel IH]; intros c; [done|]. by apply level_same. Qed.
End same.

(** ** The kinds of an automaton *)

Section terms.
Variable P : NodeId -> Prop.

Definition term_in (e : Edge) : Prop := forall k, term e = Some k -> P k.
Definition terms_in (nfa : Nfa) : Prop := Forall (Forall term_in) nfa.

Lemma node_terms nfa nfa' n : Nfa.node nfa = (nfa', n) -> terms_in nfa -> terms_in nfa'.
Proof. intros [= <- <-] H. apply Forall_app. split; [done|]. by repeat constructor. Qed.

Lemma edge_terms nfa from t o nfa' r : Nfa.edge nfa from t o = Ok (nfa', r) -> (forall k, o = Some k -> P k) ->
terms_in nfa -> terms_in nfa'.
Proof.
unfold Nfa.edge. intros (row & Hrow%or_panic_ok & [= <- <-])%bind_ok Ho H. apply Forall_insert; [done|].
apply Forall_app. split; [by eapply Forall_lookup_1 in Hrow|]. by repeat constructor.
Qed.

Lemma connect_terms es t : forall nfa nfa', Nfa.connect nfa es t = Ok nfa' -> terms_in nfa -> terms_in nfa'.
Proof.
induction es as [|[p i] es IH]; intros nfa nfa'; cbn [Nfa.connect]; [by intros [= <-]|].
intros (row & Hrow%or_panic_ok & (e & He%or_panic_ok & H)%bind_ok)%bind_ok HT. apply (IH _ _ H).
pose proof (Forall_lookup_1 _ _ _ _ HT Hrow) as HR. apply Forall_insert; [done|]. apply Forall_insert; [done|].
exact (Forall_lookup_1 _ _ _ _ HR He).
Qed.

Definition keeps_terms (e : Expr) : Prop := forall nfa from nfa' es, Nfa.compile e nfa from = Ok (nfa', es) ->
Forall P (mentions e) -> terms_in nfa -> terms_in nfa'.

Lemma times_terms k round : (forall nfa c nfa' c', round nfa c = Ok (nfa', c') -> terms_in nfa -> terms_in nfa') ->
forall nfa c nfa' c', Nfa.times k round nfa c = Ok (nfa', c') -> terms_in nfa -> terms_in nfa'.
Proof.
intros Hr. induction k as [|k IH]; intros nfa c nfa' c'; cbn [Nfa.times]; [by intros [= <- <-]|].
intros ([n1 c1] & H1 & H2)%bind_ok HT. eapply IH; [exact H2|]. by eapply Hr.
Qed.

(** Takes a call of [compile] apart, and follows the automaton through its calls. *)
Ltac terms :=
repeat match goal with
| H : (_ ≫= _) = Ok _ |- _ => apply bind_ok in H as (? & ? & ?)
| H : (let '(_, _) := ?x in _) = Ok _ |- _ => destruct x eqn:?
| H : Ok _ = Ok _ |- _ => injection H; clear H; intros; subst
end;
repeat match goal with
| HT : terms_in ?n, H : Nfa.node ?n = _ |- _ => apply (node_terms _ _ _ H) in HT
| HT : terms_in ?n, H : Nfa.edge ?n _ _ None = Ok (_, _) |- _ => apply (edge_terms _ _ _ _ _ _ H ltac:(done)) in HT
| HT : terms_in ?n, H : Nfa.connect ?n _ _ = Ok _ |- _ => apply (connect_terms _ _ _ _ H) in HT
| HT : terms_in ?n, IH : keeps_terms ?e, H : Nfa.compile ?e ?n _ = Ok (_, _) |- _ => apply (IH _ _ _ _ H ltac:(done)) in HT
end; try done.

Lemma compile_terms e : keeps_terms e.
Proof.
induction e as [es IH|es IH|e IH|e IH|e IH|min max e IH|id] using expr_tree_ind; intros nfa from nfa' out; cbn [Nfa.compile mentions].
- revert nfa nfa' out. induction IH as [|e es He _ IHes]; intros nfa nfa' out; [by intros [= <- <-]|].
intros ([n1 e1] & H1 & ([n2 e2] & H2 & [= <- <-])%bind_ok)%bind_ok [Hm1 Hm2]%Forall_app HT. eauto.
- revert nfa from nfa' out. induction IH as [|e es He _ IHes]; intros nfa from nfa' out; [by intros [= <- <-]|].
destruct es as [|e' es]; [simpl; rewrite app_nil_r; apply He|]. remember (e' :: es) as es' eqn:E. simpl.
intros ([n1 e1] & H1 & H)%bind_ok [Hm1 Hm2]%Forall_app HT. destruct (Nfa.node n1) as [n2 from2] eqn:En.
apply bind_ok in H as (n3 & H3 & H). eapply IHes; [exact H|done|]. eauto using node_terms, connect_terms.
- intros H Hm HT. terms.
- intros H Hm HT. terms.
- intros H Hm HT. terms.
- intros ([n1 c1] & H1 & ([n2 c2] & H2 & ([n3 o3] & H3 & [= <- <-])%bind_ok)%bind_ok)%bind_ok Hm HT.
eapply edge_terms; [exact H3|done|]. assert (HT1 : terms_in n1).
{ eapply times_terms; [|exact H1|done]. intros m c m' c' H HT'. cbv beta in H. terms. }
destruct max as [max|].
+ eapply times_terms; [|exact H2|exact HT1]. intros m c m' c' H HT'. cbv beta in H. terms.
+ clear H3. cbv beta iota in H2. terms.
- intros H Hm HT. terms. eapply edge_terms; [eassumption| |done]. intros k [= <-]. by apply Forall_cons in Hm as [? _].
Qed.

Lemma terms_edges nfa p k t : terms_in nfa -> edges_of nfa p (Some k) t -> P k.
Proof.
intros HT (i & (row & Hrow & Hi)%bind_Some). simpl in *. pose proof (Forall_lookup_1 _ _ _ _ HT Hrow) as HR.
exact (Forall_lookup_1 _ _ _ _ HR Hi k eq_refl).
Qed.

Lemma of_expr_terms e nfa : Nfa.of_expr e = Ok nfa -> Forall P (mentions e) -> terms_in nfa.
Proof.
unfold Nfa.of_expr. destruct (Nfa.node []) as [n0 z] eqn:E0. intros ([n1 es] & H1 & H)%bind_ok Hm.
destruct (Nfa.node n1) as [n2 l] eqn:E1. eapply connect_terms; [exact H|]. eapply node_terms; [exact E1|].
eapply compile_terms; [exact H1|done|]. eapply node_terms; [exact E0|constructor].
Qed.
End terms.

(* ------------------------------------------------------------ *)

(** [compile] and [Schema::new] of [documents/crates/text/src/schema.rs]: the content rule of
    each node type accepts the language of its expression, and nothing panics. *)

Open Scope nat_scope.

(** ** Tables that grow *)

Definition grown (m m' : list MatchState) : Prop :=
  length m <= length m' /\ forall i, i < length m -> m' !! i = m !! i.
Definition table_in_range (m : list MatchState) : Prop :=
  Forall (fun row => Forall (fun e => e.2 < length m) (next row)) m.

(** The kinds that the edges name. *)
Definition kinds_below (n : nat) (m : list MatchState) : Prop :=
  Forall (fun row => Forall (fun e => e.1 < n) (next row)) m.

Lemma grown_refl m : grown m m.
Proof. by split. Qed.

Lemma grown_trans m1 m2 m3 : grown m1 m2 -> grown m2 m3 -> grown m1 m3.
Proof. intros [L1 G1] [L2 G2]. split; [lia|]. intros i Hi. rewrite G2 by lia. by apply G1. Qed.

Lemma find_edge_in k es t : Schema.find_edge k es = Some t -> (k, t) ∈ es.
Proof.
  induction es as [|[k' t'] es IH]; [done|]. simpl. case_bool; [intros [= <-]; subst; by left|]. intros H. right. by apply IH.
Qed.

Lemma table_target m i row k t : table_in_range m -> m !! i = Some row -> Schema.find_edge k (next row) = Some t -> t < length m.
Proof.
  intros HT Hrow Hf%find_edge_in. pose proof (Forall_lookup_1 _ _ _ _ HT Hrow) as H. simpl in H. rewrite Forall_forall in H.
  exact (H _ Hf).
Qed.

Lemma run_in_range m : table_in_range m -> forall w id e, id < length m -> run m id w = Some e -> e < length m.
Proof.
  intros HT. induction w as [|k w IH]; intros id e Hid; simpl; [by intros [= <-]|].
  intros (row & Hrow & (t & Ht & H)%bind_Some)%bind_Some. eapply IH; [|exact H]. by eapply table_target.
Qed.

Lemma run_grown m m' : grown m m' -> table_in_range m -> forall w id, id < length m -> run m' id w = run m id w.
Proof.
  intros [_ HG] HT. induction w as [|k w IH]; intros id Hid; simpl; [done|]. rewrite HG by done.
  destruct (m !! id) as [row|] eqn:Hrow; simpl; [|done]. destruct (Schema.find_edge k (next row)) as [t|] eqn:Ht; simpl; [|done].
  apply IH. by eapply table_target.
Qed.

Lemma accepts_grown m m' id w : grown m m' -> table_in_range m -> id < length m -> accepts m' id w <-> accepts m id w.
Proof.
  intros HG HT Hid. unfold accepts. rewrite (run_grown m m') by done.
  split; intros (e & row & He & Hrow & Hv); exists e, row; (split; [done|split; [|done]]);
    pose proof (run_in_range m HT w id e Hid He) as Hlt; destruct HG as [_ HG]; specialize (HG e Hlt); congruence.
Qed.

(** ** The rule of an expression *)

(** What an expression says: nothing, or an [Expr]. *)
Definition content_of (nodes : list NodeType) (ids : gmap string NodeId) (expression : string) : built (option Expr) :=
  match tokenize expression with
  | [] => Ok None
  | words =>
      '(expr, c) ← parse_expr words nodes ids (S (length words)) start_cursor;
      if bool_decide (peek words c = None) then Ok (Some expr) else Err (TrailingText expression)
  end.

(** The lists of kinds that the rule lets a node have as its children. *)
Definition rule_lang (rule : option Expr) (w : list NodeId) : Prop :=
  match rule with None => w = [] | Some e => lang e w end.
Definition rule_tame (rule : option Expr) : bool := match rule with None => true | Some e => tame e end.

Lemma compile_content expression nodes ids matches :
  compile expression nodes ids matches =
  (rule ← content_of nodes ids expression;
   match rule with
   | None => Ok (EMPTY_MATCH, matches)
   | Some expr =>
       nfa ← Nfa.of_expr expr;
       start ← Nfa.null_from nfa 0;
       '(id, _, matches) ← explore nfa start ∅ matches;
       Ok (id, matches)
   end).
Proof.
  unfold compile, content_of. destruct (tokenize expression) as [|word words]; [done|].
  destruct (parse_expr _ _ _ _ _) as [[e c]|err|]; simpl; [|done..]. by destruct (bool_decide _).
Qed.

Lemma content_of_same nodes1 nodes2 ids expression : shape <$> nodes1 = shape <$> nodes2 ->
  content_of nodes1 ids expression = content_of nodes2 ids expression.
Proof.
  intros H. unfold content_of. destruct (tokenize expression) as [|word words]; [done|].
  by rewrite (parse_same _ nodes1 nodes2 ids H).
Qed.

Lemma content_of_safe nodes ids expression : (forall name id, ids !! name = Some id -> id < length nodes) ->
  safe (content_of nodes ids expression).
Proof.
  intros Hids. unfold content_of. destruct (tokenize expression) as [|word words]; [done|].
  apply safe_bind; [apply parse_reads; [done|simpl; lia..]|]. intros [e c] _. by destruct (bool_decide _).
Qed.

Lemma content_of_range nodes ids expression e : content_of nodes ids expression = Ok (Some e) -> in_range nodes e.
Proof.
  unfold content_of. destruct (tokenize expression) as [|word words]; [done|]. intros ([e' c] & He & H)%bind_ok.
  destruct (bool_decide _); [|done]. injection H as <-. by eapply parse_range_names.
Qed.

(** The row [id] of a table is the rule of an expression. *)
Record rule_ok (n : nat) (matches : list MatchState) (id : MatchId) (rule : option Expr) : Prop := {
  ru_in : id < length matches;
  ru_lang : forall w, accepts matches id w <-> rule_lang rule w;
  ru_kinds : forall row, matches !! id = Some row -> Forall (fun e => e.1 < n) (next row)
}.

Lemma rule_ok_grown n m m' id rule : grown m m' -> table_in_range m -> rule_ok n m id rule -> rule_ok n m' id rule.
Proof.
  intros HG HT [Hi Hl Hk]. constructor.
  - destruct HG. lia.
  - intros w. by rewrite (accepts_grown m m').
  - intros row. destruct HG as [_ HG]. rewrite HG by done. apply Hk.
Qed.

Lemma empty_rule n matches : matches !! 0 = Some (MkMatchState true []) -> rule_ok n matches EMPTY_MATCH None.
Proof.
  intros H0. constructor.
  - by eapply lookup_lt_Some.
  - intros w. unfold accepts, EMPTY_MATCH. simpl. split.
    + intros (e & row & He & _). destruct w as [|k w]; [done|]. simpl in He. by rewrite H0 in He.
    + intros ->. by exists 0, (MkMatchState true []).
  - intros row. unfold EMPTY_MATCH. rewrite H0. intros [= <-]. constructor.
Qed.

Section automaton.
Context (e : Expr) (nfa : Nfa).
Hypothesis Hau : automaton e nfa.
Hypothesis Htame : tame e = true.

Lemma au_null_ends n : n < length nfa -> exists l, Nfa.null_from nfa n = Ok l.
Proof.
destruct (au_calm _ _ Hau Htame) as (r & Hr & Hup). apply (null_from_ends nfa r); [|done..]. apply (au_led _ _ Hau).
Qed.

Lemma start_closed start : Nfa.null_from nfa 0 = Ok start -> closed nfa start.
Proof.
intros Hs p q Hp Hpq Hq. pose proof (null_from_found nfa 0 start Hs) as H. apply H. apply H in Hp as [Hp _].
split; [|done]. by apply (walks_app nfa 0 [] p []).
Qed.

Lemma start_spelled start w : Nfa.null_from nfa 0 = Ok start -> spelled nfa start w <-> lang e w.
Proof.
intros Hs. pose proof (null_from_found nfa 0 start Hs) as H. rewrite <- (au_lang _ _ Hau). split.
- intros (p & [Hp _]%H & Hw). by apply (walks_app nfa 0 [] p w).
- intros Hw. pose proof (walks_start nfa 0 w _ Hw) as Hst. destruct w as [|k w].
+ exists (length nfa - 1). split; [|constructor]. apply H. split; [done|]. apply last_not_skip, (au_last _ _ Hau).
+ destruct Hst as (q & t & Hq & He & Hw'). exists q. split; [apply H; split; [done|by eapply taker_not_skip]|].
exact (walks_step _ q (Some k) t w _ He Hw').
Qed.

(** The rows that [explore] adds for the automaton. *)
Lemma explore_rule n matches : terms_in (fun k => k < n) nfa -> table_in_range matches ->
exists start labeled matches', Nfa.null_from nfa 0 = Ok start /\
explore nfa start ∅ matches = Ok (length matches, labeled, matches') /\
grown matches matches' /\ table_in_range matches' /\ (kinds_below n matches -> kinds_below n matches') /\
rule_ok n matches' (length matches) (Some e).
Proof.
intros Hterms HT. pose proof (au_end _ _ Hau) as Hend. pose proof (au_led _ _ Hau) as Hled. pose proof (au_last _ _ Hau) as Hlast.
destruct (au_null_ends 0) as [start Hs]; [lia|]. pose proof (null_from_found nfa 0 start Hs) as Hfound.
assert (Hin : inside nfa start).
{ apply Forall_forall. intros q [Hq _]%Hfound. eapply leads_in; [exact Hled|exact Hq|lia]. }
destruct (explore_works nfa ltac:(lia) Hled Hlast au_null_ends start ∅ matches ltac:(done) Hin)
as (labeled & matches' & Hex & Hid & [_ GN GS GW GC]).
assert (Hnew : forall S i, labeled !! S = Some i -> length matches <= i /\ exists row, matches' !! i = Some row /\ row_ok nfa labeled S row).
{ intros S i [HS|(Hi & _ & H)]%GW; [done|]. by split. }
assert (Hlt : forall S i, labeled !! S = Some i -> i < length matches').
{ intros S i (_ & row & Hrow & _)%Hnew. by eapply lookup_lt_Some. }
exists start, labeled, matches'. split; [done|]. split; [done|]. split; [by split|]. split; [|split; [|constructor]].
- apply Forall_lookup_2. intros i row Hrow. destruct (decide (i < length matches)) as [Hi|Hi].
+ rewrite GS in Hrow by done. eapply Forall_impl; [exact (Forall_lookup_1 _ _ _ _ HT Hrow)|]. simpl. intros. lia.
+ destruct (GC i) as [S HS]; [apply lookup_lt_Some in Hrow; lia|]. destruct (Hnew _ _ HS) as (_ & row' & Hrow' & Hok).
rewrite Hrow in Hrow'. injection Hrow' as <-. eapply Forall_impl; [exact (ro_all _ _ _ _ Hok)|].
intros x [[S' HS'] _]. by eapply Hlt.
- intros HK. apply Forall_lookup_2. intros i row Hrow. destruct (decide (i < length matches)) as [Hi|Hi].
+ rewrite GS in Hrow by done. exact (Forall_lookup_1 _ _ _ _ HK Hrow).
+ destruct (GC i) as [S HS]; [apply lookup_lt_Some in Hrow; lia|]. destruct (Hnew _ _ HS) as (_ & row' & Hrow' & Hok).
rewrite Hrow in Hrow'. injection Hrow' as <-. eapply Forall_impl; [exact (ro_all _ _ _ _ Hok)|].
intros x [_ (t & (p & _ & Hp)%rows_in)]. simpl in Hp. by eapply (terms_edges (fun k => k < n)).
- by eapply Hlt.
- intros w. simpl. rewrite <- (start_spelled start w Hs).
apply (table_accepts nfa Hlast labeled matches'); [|done|by apply start_closed]. intros S i HS. by apply Hnew in HS as [_ ?].
- intros row Hrow. destruct (Hnew _ _ Hid) as (_ & row' & Hrow' & Hok). rewrite Hrow in Hrow'. injection Hrow' as <-.
eapply Forall_impl; [exact (ro_all _ _ _ _ Hok)|]. intros x [_ (t & (p & _ & Hp)%rows_in)]. simpl in Hp.
by eapply (terms_edges (fun k => k < n)).
Qed.
End automaton.

Lemma compile_rule nodes ids expression matches rule :
  content_of nodes ids expression = Ok rule -> rule_tame rule = true ->
  table_in_range matches -> matches !! 0 = Some (MkMatchState true []) ->
  exists id matches', compile expression nodes ids matches = Ok (id, matches') /\
    grown matches matches' /\ table_in_range matches' /\
    (kinds_below (length nodes) matches -> kinds_below (length nodes) matches') /\ rule_ok (length nodes) matches' id rule.
Proof.
  intros Hc Ht HT H0. rewrite compile_content, Hc. cbn [mbind Result_bind]. destruct rule as [e|].
  - destruct (of_expr_spec e (tame_sound e Ht)) as (nfa & Hn & Hau).
    assert (Hterms : terms_in (fun k => k < length nodes) nfa).
    { eapply of_expr_terms; [exact Hn|]. by eapply content_of_range. }
    destruct (explore_rule e nfa Hau Ht (length nodes) matches Hterms HT) as (start & labeled & matches' & Hs & Hex & H).
    rewrite Hn. cbn [mbind Result_bind]. rewrite Hs. cbn [mbind Result_bind]. rewrite Hex. cbn [mbind Result_bind].
    by exists (length matches), matches'.
  - exists EMPTY_MATCH, matches. split; [done|]. split; [apply grown_refl|]. split; [done|]. split; [done|]. by apply empty_rule.
Qed.

(* ------------------------------------------------------------ *)

(** [Schema::new] of [documents/crates/text/src/schema.rs]: with tame content expressions it
    builds a schema or refuses the spec, and each content rule of the schema accepts the
    language of its expression. *)

Open Scope nat_scope.

(** ** Loops over a list with its indices *)

Lemma try_fold_enumerate {E A B} (f : B -> nat * A -> Result E B) (I : nat -> B -> Prop) (l : list A) :
  (forall i x b, l !! i = Some x -> I i b -> safe (f b (i, x)) /\ forall b', f b (i, x) = Ok b' -> I (S i) b') ->
  forall b, I 0 b -> safe (try_fold f (enumerate l) b) /\ forall b', try_fold f (enumerate l) b = Ok b' -> I (length l) b'.
Proof.
  intros Hf. unfold enumerate.
  assert (H : forall l' i b, (forall j x, l' !! j = Some x -> l !! (i + j) = Some x) -> I i b ->
    safe (try_fold f (zip (seq i (length l')) l') b) /\
    forall b', try_fold f (zip (seq i (length l')) l') b = Ok b' -> I (i + length l') b').
  { induction l' as [|x l' IH]; intros i b Hl Hb; cbn [length seq zip zip_with try_fold].
    - split; [done|]. intros b' [= <-]. by rewrite Nat.add_0_r.
    - destruct (Hf i x b) as [Hs Hok]; [specialize (Hl 0 x eq_refl); by rewrite Nat.add_0_r in Hl|done|].
      destruct (f b (i, x)) as [b1|e|]; [|done..]. cbn [mbind Result_bind].
      rewrite <- Nat.add_succ_comm. apply IH; [|by apply Hok]. intros j y Hj. rewrite Nat.add_succ_comm. by apply (Hl (S j)). }
  intros b Hb. apply (H l 0 b); [done|done].
Qed.

Lemma number_in {T} (name : T -> string) e : forall specs i ids ids',
  number name e specs i ids = Ok ids' -> (forall k v, ids !! k = Some v -> v < i) ->
  forall k v, ids' !! k = Some v -> v < i + length specs.
Proof.
  induction specs as [|s specs IH]; intros i ids ids'; cbn [number length].
  - intros [= <-] H k v Hk%H. lia.
  - intros (id & Hid%ok_or_ok & Hn)%bind_ok H k v Hk. rewrite <- Nat.add_succ_comm. eapply IH; [exact Hn| |exact Hk].
    assert (id = i) as -> by (unfold small in Hid; destruct (_ <? _)%N; congruence).
    intros k' v' [[<- <-]|[_ Hk']]%lookup_insert_Some; [lia|]. apply H in Hk'. lia.
Qed.

(** Each number in the table is that of a type of the name, and no type of the name comes later. *)
Lemma number_names {T} (name : T -> string) e : forall specs i ids ids',
  number name e specs i ids = Ok ids' ->
  (forall k v, ids' !! k = Some v -> ids !! k = Some v \/ exists j s, specs !! j = Some s /\ name s = k /\ v = i + j) /\
  (forall k v, ids !! k = Some v -> v <= i -> exists v', ids' !! k = Some v' /\ v <= v') /\
  (forall j s, specs !! j = Some s -> exists v, ids' !! name s = Some v /\ i + j <= v).
Proof.
  induction specs as [|s specs IH]; intros i ids ids'; cbn [number].
  - intros [= <-]. split; [by left|]. split; [eauto|done].
  - intros (id & Hid%ok_or_ok & Hn)%bind_ok. assert (id = i) as -> by (unfold small in Hid; destruct (_ <? _)%N; congruence).
    destruct (IH _ _ _ Hn) as (H1 & H2 & H3). split; [|split].
    + intros k v [Hv|(j & s' & Hs' & Ek & ->)]%H1; [|right; exists (S j), s'; split; [done|split; [done|lia]]].
      apply lookup_insert_Some in Hv as [[<- <-]|[_ Hv]]; [right; exists 0, s; split; [done|split; [done|lia]]|by left].
    + intros k v Hv Hi. destruct (decide (name s = k)) as [<-|Hne].
      * destruct (H2 (name s) i) as (v' & Hv' & ?); [apply lookup_insert_eq|lia|]. exists v'. split; [done|lia].
      * apply H2; [by rewrite lookup_insert_ne|lia].
    + intros [|j] s' Hs'; [injection Hs' as <-|].
      * destruct (H2 (name s) i) as (v' & Hv' & ?); [apply lookup_insert_eq|lia|]. exists v'. split; [done|lia].
      * destruct (H3 j s' Hs') as (v & Hv & ?). exists v. split; [done|lia].
Qed.

Lemma number_safe {T} (name : T -> string) e specs : forall i ids, safe (number name e specs i ids).
Proof.
  induction specs as [|s specs IH]; intros i ids; cbn [number]; [done|]. apply safe_bind; [apply safe_ok_or|]. intros. apply IH.
Qed.

Lemma try_fold_safe {E A B} (f : B -> A -> Result E B) l : (forall b x, safe (f b x)) -> forall b, safe (try_fold f l b).
Proof. intros Hf. induction l as [|x l IH]; intros b; cbn [try_fold]; [done|]. apply safe_bind; [apply Hf|]. intros. apply IH. Qed.

Lemma try_fold_holds {E A B} (f : B -> A -> Result E B) (I : B -> Prop) l :
  (forall b x b', I b -> f b x = Ok b' -> I b') -> forall b b', I b -> try_fold f l b = Ok b' -> I b'.
Proof.
  intros Hf. induction l as [|x l IH]; intros b b' Hb; cbn [try_fold]; [by intros [= <-]|].
  intros (b1 & H1 & H2)%bind_ok. eapply IH; [|exact H2]. by eapply Hf.
Qed.

(** The marks that a spec names are marks of the schema. *)
Lemma gather_marks_in marks ids names found : (forall name id, ids !! name = Some id -> id < length marks) ->
  gather_marks marks ids names = Ok found -> Forall (fun id => id < length marks) found.
Proof.
  intros Hids. apply try_fold_holds; [|constructor]. intros l name l' Hl. unfold gather_name.
  destruct (ids !! name) as [id|] eqn:Hid.
  - intros [= <-]. apply Forall_app. split; [done|]. apply Forall_singleton. by eapply Hids.
  - set (more := omap _ _). assert (Hmore : Forall (fun id => id < length marks) more).
    { apply Forall_forall. intros x ([index mark] & Hin & Hx)%list_elem_of_omap. destruct (_ || _); [|done]. injection Hx as <-.
      unfold enumerate in Hin. apply elem_of_zip_l, elem_of_seq in Hin. unfold small. destruct (_ <? _)%N; simpl; lia. }
    destruct more as [|x rest]; [done|]. intros [= <-]. by apply Forall_app.
Qed.

Lemma gather_marks_safe marks ids names : safe (gather_marks marks ids names).
Proof.
  apply try_fold_safe. intros found name. unfold gather_name. destruct (ids !! name); [done|]. by destruct (omap _ _).
Qed.

Lemma mark_set_of_safe marks ids names inline_content : safe (mark_set_of marks ids names inline_content).
Proof.
  unfold mark_set_of. destruct names as [names|]; [|done]. destruct (bool_decide _); [done|].
  destruct (bool_decide _); [done|]. apply safe_fmap, gather_marks_safe.
Qed.

(** ** The loop over the node specs *)

Section new.
Variable spec : SchemaSpec.
Variable ids : gmap string NodeId.
Variable mark_ids : gmap string MarkId.

Definition plain_nodes : list NodeType := node_type <$> ss_nodes spec.
Definition rule_of (node : NodeSpec) : built (option Expr) :=
content_of plain_nodes ids (default ""%string (ns_content node)).

Hypothesis Hids : forall name id, ids !! name = Some id -> id < length plain_nodes.
Hypothesis Hmark_ids : forall name id, mark_ids !! name = Some id -> id < length (ss_marks spec).
Hypothesis Htame : forall node rule, node ∈ ss_nodes spec -> rule_of node = Ok rule -> rule_tame rule = true.

Abbreviation N := (length plain_nodes).

Definition set_in (n : NodeType) : Prop :=
match nt_mark_set n with Some l => Forall (fun id => id < length (ss_marks spec)) l | None => True end.

Record filled (i : nat) (b : Building) : Prop := {
fi_names : nt_name <$> b_nodes b = ns_name <$> ss_nodes spec;
fi_kinds : kinds_below N (b_matches b);
fi_sets : Forall set_in (b_nodes b);
fi_shape : shape <$> b_nodes b = shape <$> plain_nodes;
fi_zero : b_matches b !! 0 = Some (MkMatchState true []);
fi_range : table_in_range (b_matches b);
fi_compiled : forall expression id, b_compiled b !! expression = Some id ->
exists rule, content_of plain_nodes ids expression = Ok rule /\ rule_ok N (b_matches b) id rule;
fi_done : forall j n node, j < i -> b_nodes b !! j = Some n -> ss_nodes spec !! j = Some node ->
exists rule, rule_of node = Ok rule /\ rule_ok N (b_matches b) (nt_content_match n) rule;
fi_in : Forall (fun n => nt_content_match n < length (b_matches b)) (b_nodes b)
}.

Lemma filled_length i b : filled i b -> length (b_nodes b) = N.
Proof. intros H. rewrite <- (length_fmap shape), (fi_shape _ _ H). apply length_fmap. Qed.

Lemma filled_zero : filled 0 (MkBuilding plain_nodes [MkMatchState true []] ∅).
Proof.
constructor; simpl; [unfold plain_nodes; by rewrite <- list_fmap_compose|by repeat constructor| |done|done|by repeat constructor|done|lia|].
{ apply Forall_fmap, Forall_forall. done. }
apply Forall_fmap, Forall_forall. intros node _. simpl. unfold EMPTY_MATCH. lia.
Qed.

(** The table may grow, and what is compiled is remembered. *)
Lemma filled_grown i b matches compiled : filled i b -> grown (b_matches b) matches -> table_in_range matches -> kinds_below N matches ->
(forall expression id, compiled !! expression = Some id -> b_compiled b !! expression = Some id \/
exists rule, content_of plain_nodes ids expression = Ok rule /\ rule_ok N matches id rule) ->
filled i (MkBuilding (b_nodes b) matches compiled).
Proof.
intros [HN HK HS H1 H2 H3 H4 H5 H6] HG HT HK' HC. constructor; simpl; [done..| |done| | |].
- rewrite (proj2 HG); [done|by eapply lookup_lt_Some].
- intros ex id [(rule & Hr & Hok)%H4|H]%HC; [|done]. exists rule. split; [done|]. by eapply rule_ok_grown.
- intros j n node Hj Hn Hs. destruct (H5 j n node Hj Hn Hs) as (rule & Hr & Hok). exists rule. split; [done|]. by eapply rule_ok_grown.
- eapply Forall_impl; [exact H6|]. simpl. destruct HG. lia.
Qed.

Lemma content_rule_ok i b node : filled i b -> node ∈ ss_nodes spec ->
let r := content_rule ids b (default ""%string (ns_content node)) in
safe r /\ forall id b', r = Ok (id, b') -> filled i b' /\ b_nodes b' = b_nodes b /\
exists rule, rule_of node = Ok rule /\ rule_ok N (b_matches b') id rule.
Proof.
intros Hb Hnode. cbv zeta. unfold content_rule. set (ex := default _ _). destruct (b_compiled b !! ex) as [found|] eqn:Hc.
- split; [done|]. intros id b' [= <- <-]. split; [done|]. split; [done|]. exact (fi_compiled _ _ Hb _ _ Hc).
- assert (Hsame : content_of (b_nodes b) ids ex = rule_of node) by (apply content_of_same, (fi_shape _ _ Hb)).
destruct (rule_of node) as [rule|err|] eqn:Hr; rewrite ?Hr in Hsame.
+ pose proof (Htame node rule Hnode Hr) as Ht. pose proof (fi_range _ _ Hb) as HT0. pose proof (fi_zero _ _ Hb) as HZ0.
destruct (compile_rule (b_nodes b) ids ex (b_matches b) rule Hsame Ht HT0 HZ0)
as (id & matches & Hcomp & HG & HT & HK & Hok). rewrite Hcomp. rewrite (filled_length _ _ Hb) in Hok, HK. cbn [mbind Result_bind]. split; [done|].
intros id' b' [= <- <-]. simpl. split; [|split; [done|by exists rule]]. apply filled_grown; [done|done|done|apply HK, Hb|].
intros ex' id' [[<- <-]|[_ H]]%lookup_insert_Some; [right; exists rule; split; [exact Hr|exact Hok]|by left].
+ rewrite compile_content, Hsame. by split.
+ exfalso. pose proof (content_of_safe plain_nodes ids ex Hids) as Hs. unfold rule_of in Hr. unfold ex in *. by rewrite Hr in Hs.
Qed.

Lemma is_inline_content_safe i b id rule : filled i b -> rule_ok N (b_matches b) id rule -> safe (is_inline_content b id).
Proof.
intros Hb [Hid _ Hk]. unfold is_inline_content. destruct (lookup_lt_is_Some_2 _ _ Hid) as [row Hrow]. rewrite Hrow. simpl.
specialize (Hk row Hrow). destruct (next row) as [|[first t] es]; [done|]. apply Forall_cons in Hk as [Hf _]. simpl in Hf.
rewrite <- (filled_length _ _ Hb) in Hf. by destruct (lookup_lt_is_Some_2 _ _ Hf) as [n ->].
Qed.

Lemma fill_node_ok marks i node b : length marks = length (ss_marks spec) -> ss_nodes spec !! i = Some node -> filled i b ->
safe (fill_node marks ids mark_ids b (i, node)) /\
forall b', fill_node marks ids mark_ids b (i, node) = Ok b' -> filled (S i) b'.
Proof.
intros Hmarks Hnode Hb. unfold fill_node.
destruct (content_rule_ok i b node Hb (list_elem_of_lookup_2 _ _ _ Hnode)) as [Hs Hok].
destruct (content_rule ids b _) as [[id b1]|err|]; [|by split|done]. cbn [mbind Result_bind].
destruct (Hok id b1 eq_refl) as (Hb1 & Hnodes & rule & Hr & Hrule). clear Hok.
pose proof (is_inline_content_safe i b1 id rule Hb1 Hrule) as Hi. destruct (is_inline_content b1 id) as [ic|err|]; [|by split|done].
cbn [mbind Result_bind]. pose proof (mark_set_of_safe marks mark_ids (ns_marks node) ic) as Hm.
destruct (mark_set_of _ _ _ _) as [set|err|] eqn:Eset; [|by split|done]. cbn [mbind Result_bind].
assert (Hlt : i < length (b_nodes b1)).
{ rewrite (filled_length _ _ Hb1). unfold plain_nodes. rewrite length_fmap. by eapply lookup_lt_Some. }
destruct (lookup_lt_is_Some_2 _ _ Hlt) as [target Ht]. rewrite Ht. cbn [or_panic mbind Result_bind]. split; [done|].
intros b' [= <-]. destruct Hb1 as [HN HK HS H1 H2 H3 H4 H5 H6]. constructor; simpl; try done.
- rewrite list_fmap_insert, <- HN. apply list_insert_id. by rewrite list_lookup_fmap, Ht.
- apply Forall_insert; [done|]. unfold set_in. simpl. unfold mark_set_of in Eset. destruct (ns_marks node) as [names|].
+ destruct (bool_decide _); [by injection Eset as <-|]. destruct (bool_decide _); [by injection Eset as <-|].
apply fmap_ok in Eset as (l & Hl & <-). rewrite <- Hmarks. eapply gather_marks_in; [|exact Hl]. by rewrite Hmarks.
+ injection Eset as <-. by destruct ic.
- rewrite list_fmap_insert, <- H1. apply list_insert_id. by rewrite list_lookup_fmap, Ht.
- intros j n node' Hj Hn Hs'. destruct (decide (i = j)) as [<-|Hne].
+ rewrite list_lookup_insert_eq in Hn by done. injection Hn as <-. simpl. rewrite Hnode in Hs'. injection Hs' as <-. by exists rule.
+ rewrite list_lookup_insert_ne in Hn by done. apply (H5 j n node'); [lia|done|done].
- apply Forall_insert; [done|]. apply (ru_in _ _ _ _ Hrule).
Qed.
End new.

(** What the loop over the mark specs keeps. *)
Record mark_filled (specs : list MarkSpec) (marks : list MarkType) : Prop := {
  mf_names : mt_name <$> marks = ms_name <$> specs;
  mf_excluded : Forall (fun m => Forall (fun id => id < length specs) (mt_excluded m)) marks
}.

Lemma mark_filled_length specs marks : mark_filled specs marks -> length marks = length specs.
Proof. intros H. by rewrite <- (length_fmap mt_name), (mf_names _ _ H), length_fmap. Qed.

Lemma mark_filled_zero specs : mark_filled specs (mark_type <$> specs).
Proof.
  constructor; [by rewrite <- list_fmap_compose|]. apply Forall_fmap, Forall_forall. intros m _. constructor.
Qed.

Lemma fill_mark_ok mark_ids specs i mark (marks : list MarkType) :
  (forall name id, mark_ids !! name = Some id -> id < length specs) -> i < length specs -> mark_filled specs marks ->
  safe (fill_mark mark_ids marks (i, mark)) /\ forall marks', fill_mark mark_ids marks (i, mark) = Ok marks' -> mark_filled specs marks'.
Proof.
  intros Hids Hi Hm. pose proof (mark_filled_length _ _ Hm) as Hn. unfold fill_mark.
  set (r := match ms_excludes mark with Some _ => _ | None => _ end).
  assert (Hr : safe r /\ forall l, r = Ok l -> Forall (fun id => id < length specs) l).
  { unfold r. destruct (ms_excludes mark) as [names|].
    - destruct (bool_decide _); [split; [done|by intros l [= <-]]|]. split; [apply gather_marks_safe|]. intros l Hl.
      rewrite <- Hn. eapply gather_marks_in; [|exact Hl]. by rewrite Hn.
    - split; [done|]. intros l [= <-]. apply Forall_singleton. unfold small. destruct (_ <? _)%N; simpl; lia. }
  destruct Hr as [Hr Hl]. destruct r as [l|err|]; [|by split|done]. specialize (Hl l eq_refl). cbn [mbind Result_bind]. rewrite <- Hn in Hi.
  destruct (lookup_lt_is_Some_2 _ _ Hi) as [target Ht]. rewrite Ht. cbn [or_panic mbind Result_bind]. split; [done|].
  intros marks' [= <-]. destruct Hm as [HN HE]. constructor.
  - rewrite list_fmap_insert, <- HN. apply list_insert_id. by rewrite list_lookup_fmap, Ht.
  - by apply Forall_insert.
Qed.

(** Every content expression of a spec is tame, with the names that the spec gives. *)
Definition tame_spec (spec : SchemaSpec) : bool :=
  match number ns_name TooManyNodes (ss_nodes spec) 0 ∅ with
  | Ok ids =>
      forallb (fun node => match rule_of spec ids node with Ok rule => rule_tame rule | _ => true end) (ss_nodes spec)
  | _ => true
  end.

(** Every id that a schema holds names something of it, and the tables give each name the last
    type that has it. *)
Record ids_in_range (schema : Schema) : Prop := {
  ir_top : sc_top schema < length (sc_nodes schema);
  ir_text : sc_text schema < length (sc_nodes schema);
  ir_matches : Forall (fun n => nt_content_match n < length (sc_matches schema)) (sc_nodes schema);
  ir_edges : Forall (fun row => Forall (fun e => e.1 < length (sc_nodes schema) /\ e.2 < length (sc_matches schema)) (next row))
    (sc_matches schema);
  ir_sets : Forall (fun n => match nt_mark_set n with Some l => Forall (fun id => id < length (sc_marks schema)) l | None => True end)
    (sc_nodes schema);
  ir_excluded : Forall (fun m => Forall (fun id => id < length (sc_marks schema)) (mt_excluded m)) (sc_marks schema);
  ir_node_names name id : sc_node_ids schema !! name = Some id ->
    exists n, sc_nodes schema !! id = Some n /\ nt_name n = name;
  ir_nodes_named i n : sc_nodes schema !! i = Some n -> exists id, sc_node_ids schema !! nt_name n = Some id /\ i <= id;
  ir_mark_names name id : sc_mark_ids schema !! name = Some id ->
    exists m, sc_marks schema !! id = Some m /\ mt_name m = name;
  ir_marks_named i m : sc_marks schema !! i = Some m -> exists id, sc_mark_ids schema !! mt_name m = Some id /\ i <= id
}.

(** A table of [number] names the types that have the names of the specs. *)
Lemma number_table {T X} (name : T -> string) (name_of : X -> string) e specs ids (types : list X) :
  number name e specs 0 ∅ = Ok ids -> name_of <$> types = name <$> specs ->
  (forall k id, ids !! k = Some id -> exists x, types !! id = Some x /\ name_of x = k) /\
  (forall i x, types !! i = Some x -> exists id, ids !! name_of x = Some id /\ i <= id).
Proof.
  intros Hn Hsame. destruct (number_names _ _ _ _ _ _ Hn) as (H1 & _ & H3). split.
  - intros k id [Hid|(j & s & Hs & <- & ->)]%H1; [by rewrite lookup_empty in Hid|]. simpl.
    pose proof (f_equal (lookup j) Hsame) as E. rewrite !list_lookup_fmap, Hs in E. destruct (types !! j) as [x|]; [|done].
    injection E as E. by exists x.
  - intros i x Hx. pose proof (f_equal (lookup i) Hsame) as E. rewrite !list_lookup_fmap, Hx in E.
    destruct (specs !! i) as [s|] eqn:Hs; [|done]. injection E as ->. by apply H3.
Qed.

(** A schema is what its spec says. *)
Record built_from (spec : SchemaSpec) (schema : Schema) : Prop := {
  bf_wf : Schema.wf schema = true;
  bf_ids : ids_in_range schema;
  bf_length : length (sc_nodes schema) = length (ss_nodes spec);
  bf_nodes : nt_name <$> sc_nodes schema = ns_name <$> ss_nodes spec;
  bf_shape : shape <$> sc_nodes schema = shape <$> plain_nodes spec;
  bf_marks : mt_name <$> sc_marks schema = ms_name <$> ss_marks spec;
  bf_top : sc_node_ids schema !! default "doc"%string (ss_top_node spec) = Some (sc_top schema);
  bf_text : sc_node_ids schema !! "text"%string = Some (sc_text schema);
  bf_rule : forall i node n, ss_nodes spec !! i = Some node -> sc_nodes schema !! i = Some n ->
    exists rule, rule_of spec (sc_node_ids schema) node = Ok rule /\
      forall w, accepts (sc_matches schema) (nt_content_match n) w <-> rule_lang rule w
}.

Lemma new_ok spec : tame_spec spec = true -> safe (new spec) /\ forall schema, new spec = Ok schema -> built_from spec schema.
Proof.
  unfold tame_spec. intros Htame. unfold new. pose proof (number_safe ns_name TooManyNodes (ss_nodes spec) 0 ∅) as Hns.
  destruct (number ns_name TooManyNodes (ss_nodes spec) 0 ∅) as [ids|err|] eqn:Hn; [|by split|done]. cbn [mbind Result_bind].
  assert (Hids : forall name id, ids !! name = Some id -> id < length (plain_nodes spec)).
  { intros name id Hid. unfold plain_nodes. rewrite length_fmap. by eapply (number_in _ _ _ _ _ _ Hn). }
  pose proof (number_safe ms_name TooManyMarks (ss_marks spec) 0 ∅) as Hms.
  destruct (number ms_name TooManyMarks (ss_marks spec) 0 ∅) as [mark_ids|err|] eqn:Hnm; [|by split|done]. cbn [mbind Result_bind].
  assert (Hmids : forall name id, mark_ids !! name = Some id -> id < length (ss_marks spec)).
  { intros name id Hid. by eapply (number_in _ _ _ _ _ _ Hnm). }
  destruct (ids !! default "doc"%string (ss_top_node spec)) as [top|] eqn:Htop; [|by split]. cbn [ok_or mbind Result_bind].
  destruct (ids !! "text"%string) as [text|] eqn:Ht; [|by split]. cbn [ok_or mbind Result_bind].
  assert (Htame' : forall node rule, node ∈ ss_nodes spec -> rule_of spec ids node = Ok rule -> rule_tame rule = true).
  { intros node rule Hin%list_elem_of_In Hr. rewrite forallb_forall in Htame. specialize (Htame node Hin). by rewrite Hr in Htame. }
  destruct (try_fold_enumerate (fill_node (mark_type <$> ss_marks spec) ids mark_ids) (filled spec ids) (ss_nodes spec)
    ltac:(intros; eapply fill_node_ok; eauto using length_fmap) _ (filled_zero spec ids)) as [Hs Hok].
  change (node_type <$> ss_nodes spec) with (plain_nodes spec).
  destruct (try_fold _ (enumerate (ss_nodes spec)) _) as [b|err|]; [|by split|done]. cbn [mbind Result_bind]. specialize (Hok b eq_refl).
  destruct (try_fold_enumerate (fill_mark mark_ids) (fun _ m => mark_filled (ss_marks spec) m) (ss_marks spec)
    ltac:(intros i x m Hx Hm; apply fill_mark_ok; [done|by eapply lookup_lt_Some|done]) _ (mark_filled_zero (ss_marks spec))) as [Hs2 Hok2].
  destruct (try_fold _ (enumerate (ss_marks spec)) _) as [marks|err|]; [|by split|done]. specialize (Hok2 marks eq_refl).
  cbn [mbind Result_bind]. split; [done|].
  intros schema [= <-]. pose proof (filled_length _ _ _ _ Hok) as Hlen. pose proof (mark_filled_length _ _ Hok2) as Hmlen.
  destruct (number_table _ nt_name _ _ _ _ Hn (fi_names _ _ _ _ Hok)) as [HN1 HN2].
  destruct (number_table _ mt_name _ _ _ _ Hnm (mf_names _ _ Hok2)) as [HM1 HM2].
  pose proof (fi_in _ _ _ _ Hok) as Hin. pose proof (fi_range _ _ _ _ Hok) as Hrange. pose proof (fi_kinds _ _ _ _ Hok) as Hkinds.
  unfold table_in_range in Hrange. unfold kinds_below in Hkinds.
  constructor; simpl; [|constructor; simpl| |apply Hok|apply Hok|apply Hok2|done|done|]; try done.
  - unfold Schema.wf. simpl. rewrite !andb_true_iff. split; [split|].
    + apply forallb_forall. intros n Hn'%list_elem_of_In. apply Nat.ltb_lt. rewrite Forall_forall in Hin. by apply Hin.
    + apply forallb_forall. intros row Hr%list_elem_of_In. apply forallb_forall. intros x Hx%list_elem_of_In. apply Nat.ltb_lt.
      rewrite Forall_forall in Hrange. specialize (Hrange row Hr). rewrite Forall_forall in Hrange. by apply Hrange.
    + apply Nat.ltb_lt. rewrite Hlen. by eapply Hids.
  - rewrite Hlen. by eapply Hids.
  - rewrite Hlen. by eapply Hids.
  - apply Forall_forall. intros row Hr. rewrite Forall_forall in Hrange, Hkinds. specialize (Hrange row Hr). specialize (Hkinds row Hr).
    apply Forall_forall. intros x Hx. rewrite Forall_forall in Hrange, Hkinds. rewrite Hlen. auto.
  - rewrite Hmlen. apply Hok.
  - rewrite Hmlen. apply Hok2.
  - rewrite Hlen. apply length_fmap.
  - intros i node n Hnode Hni. destruct (fi_done _ _ _ _ Hok i n node) as (rule & Hr & [_ Hl _]); [by eapply lookup_lt_Some|done|done|].
    by exists rule.
Qed.
