(* ===== verification/TextGrammar.v ===== *)
(** The grammar of content expressions, apart from the parser that reads them: how a text falls
    into words, and which expression a list of words spells.  [parse_expr] gives just what the
    grammar says, so an expression is read as that one or refused. *)

From S2P Require Import Prelude Json Utf TextData TextSchema TextExpr TextNfa TextThompson.
From S2P Require Import TextCompile TextNew.
From stdpp Require Import sorting.
Open Scope string_scope.
Open Scope list_scope.
Open Scope nat_scope.

(** ** Words *)

(** A run of letters, digits and underlines is a word, white space parts words, and any other
    character is a word of its own. *)
Inductive lexes : list N -> list string -> Prop :=
| lex_end : lexes [] []
| lex_space c text words : is_word c = false -> is_whitespace c = true -> lexes text words -> lexes (c :: text) words
| lex_sign c text words :
    is_word c = false -> is_whitespace c = false -> lexes text words -> lexes (c :: text) (of_chars [c] :: words)
| lex_word word text words :
    word <> [] -> Forall (fun c => is_word c = true) word -> match text with c :: _ => is_word c = false | [] => True end ->
    lexes text words -> lexes (word ++ text) (of_chars word :: words).

Lemma tokenize_run word : forall text acc, Forall (fun c => is_word c = true) word ->
  tokenize_loop (word ++ text) acc = tokenize_loop text (acc ++ word).
Proof.
  induction word as [|c word IH]; intros text acc Hw; [by rewrite app_nil_r|]. apply Forall_cons in Hw as [Hc Hw].
  simpl. rewrite Hc, IH by done. by rewrite <- app_assoc.
Qed.

Lemma tokenize_stop text acc : match text with c :: _ => is_word c = false | [] => True end ->
  tokenize_loop text acc = match acc with [] => [] | _ => [of_chars acc] end ++ tokenize_loop text [].
Proof. destruct text as [|c text]; simpl; [by rewrite app_nil_r|]. intros ->. done. Qed.

Lemma lexes_tokenize text words : lexes text words -> tokenize_loop text [] = words.
Proof.
  induction 1 as [|c text words Hw Hs _ IH|c text words Hw Hs _ IH|word text words Hne Hw Ht _ IH]; simpl; rewrite ?Hw, ?Hs, ?IH; [done..|].
  rewrite tokenize_run, tokenize_stop, IH by done. by destruct word.
Qed.

Lemma tokenize_lexes text : forall acc, Forall (fun c => is_word c = true) acc -> exists rest words,
  tokenize_loop text acc = match acc ++ rest with [] => [] | _ => [of_chars (acc ++ rest)] end ++ words /\
  exists text', text = rest ++ text' /\ Forall (fun c => is_word c = true) rest /\
    match text' with c :: _ => is_word c = false | [] => True end /\ lexes text' words.
Proof.
  induction text as [|c text IH]; intros acc Hacc.
  - exists [], []. simpl. rewrite !app_nil_r. split; [done|]. exists []. split; [done|]. split; [done|]. split; [done|constructor].
  - simpl. destruct (is_word c) eqn:Hc.
    + destruct (IH (acc ++ [c])) as (rest & words & E & text' & -> & Hr & Ht & Hl).
      { apply Forall_app. by repeat constructor. }
      exists (c :: rest), words. rewrite E. rewrite <- app_assoc. split; [done|]. exists text'. by repeat constructor.
    + exists []. rewrite app_nil_r. eexists. split; [reflexivity|]. exists (c :: text). split; [done|]. split; [done|]. split; [done|].
      destruct (IH [] ltac:(done)) as (rest & words & E & text' & -> & Hr & Ht & Hl). simpl in E. rewrite E.
      assert (lexes (rest ++ text') (match rest with [] => [] | _ => [of_chars rest] end ++ words)) as H.
      { destruct rest as [|r rest]; [done|]. by apply lex_word. }
      destruct (is_whitespace c) eqn:Hs; [by apply lex_space|by apply lex_sign].
Qed.

(** The words of a text are those of [tokenize], and no others. *)
Lemma lexes_iff text words : lexes (chars text) words <-> tokenize text = words.
Proof.
  unfold tokenize. split; [apply lexes_tokenize|]. intros <-.
  destruct (tokenize_lexes (chars text) [] ltac:(done)) as (rest & words & -> & text' & -> & Hr & Ht & Hl). simpl.
  destruct rest as [|r rest]; [done|]. by apply lex_word.
Qed.

(** ** The grammar *)

Section grammar.
Context (nodes : list NodeType) (ids : gmap string NodeId).

(** A name stands for the type of that name, or else for each type of the group. *)
Definition in_group (name : string) (id : NodeId) : Prop :=
match nodes !! id with Some node => existsb (String.eqb name) (nt_groups node) = true | None => False end /\ (N.of_nat id < 65536)%N.

Inductive stands_for (name : string) : list NodeId -> Prop :=
| stands_type id : ids !! name = Some id -> stands_for name [id]
| stands_group found : ids !! name = None -> found <> [] -> StronglySorted lt found ->
(forall id, id ∈ found <-> in_group name id) -> stands_for name found.

(** The types are all inline, or all blocks. *)
Definition all_inline (inline : bool) (found : list NodeId) : Prop :=
Forall (fun id => exists node, nodes !! id = Some node /\ nt_is_block node = negb inline) found.

(** [2], [2,] and [2,3], which stand between braces. *)
Inductive bounds : list string -> nat -> option nat -> Prop :=
| bounds_exact t n : parse_usize t = Some n -> bounds [t] (N.to_nat n) (Some (N.to_nat n))
| bounds_least t n : parse_usize t = Some n -> bounds [t; ","] (N.to_nat n) None
| bounds_both t n u m : parse_usize t = Some n -> parse_usize u = Some m ->
bounds [t; ","; u] (N.to_nat n) (Some (N.to_nat m)).

(** The signs after an expression, from the inside out. *)
Inductive suffixed : Expr -> list string -> Expr -> Prop :=
| suffix_none e : suffixed e [] e
| suffix_plus e ws e' : suffixed (Plus e) ws e' -> suffixed e ("+" :: ws) e'
| suffix_star e ws e' : suffixed (Star e) ws e' -> suffixed e ("*" :: ws) e'
| suffix_opt e ws e' : suffixed (Opt e) ws e' -> suffixed e ("?" :: ws) e'
| suffix_range e range min max ws e' :
bounds range min max -> suffixed (Range min max e) ws e' -> suffixed e ("{" :: range ++ "}" :: ws) e'.

(** One expression stands for itself. *)
Definition together (many : list Expr -> Expr) (exprs : list Expr) : Expr :=
match exprs with [expr] => expr | _ => many exprs end.

(** A name, or choices in parentheses; with signs; some of these one after another; and some
of those with bars between them. *)
Inductive atom (inline : bool) : list string -> Expr -> Prop :=
| atom_name name found : Forall (fun c => is_word c = true) (chars name) -> stands_for name found -> all_inline inline found ->
atom inline [name] (together Choice (Name <$> found))
| atom_group ws es : choices inline ws es -> atom inline ("(" :: ws ++ [")"]) (together Choice es)
with item (inline : bool) : list string -> Expr -> Prop :=
| item_signs ws e signs e' : atom inline ws e -> suffixed e signs e' -> item inline (ws ++ signs) e'
with items (inline : bool) : list string -> list Expr -> Prop :=
| items_one ws e : item inline ws e -> items inline ws [e]
| items_more ws e ws' es : item inline ws e -> items inline ws' es -> items inline (ws ++ ws') (e :: es)
with choices (inline : bool) : list string -> list Expr -> Prop :=
| choices_one ws es : items inline ws es -> choices inline ws [together Seq es]
| choices_more ws es ws' more : items inline ws es -> choices inline ws' more ->
choices inline (ws ++ "|" :: ws') (together Seq es :: more).

(** What a text spells: no words are the rule that nothing may stand there. *)
Inductive spells (text : string) : option Expr -> Prop :=
| spells_nothing : lexes (chars text) [] -> spells text None
| spells_expr inline words es : lexes (chars text) words -> choices inline words es -> spells text (Some (together Choice es)).
End grammar.

(** ** The parser gives what the grammar says *)

Section names.
Context (nodes : list NodeType) (ids : gmap string NodeId).

#[local] Instance lt_antisymm : AntiSymm (=) lt.
Proof. intros x y. lia. Qed.

Lemma seq_sorted a n : StronglySorted lt (seq a n).
Proof.
revert a. induction n as [|n IH]; intros a; simpl; constructor; [apply IH|]. apply Forall_forall. intros x. rewrite elem_of_seq. lia.
Qed.

Lemma ids_filter_sorted (P : nat -> Prop) `{forall x, Decision (P x)} l : StronglySorted lt l -> StronglySorted lt (filter P l).
Proof.
induction 1 as [|x l _ IH Hx]; [constructor|]. rewrite filter_cons. case_decide; [|done]. constructor; [done|].
apply Forall_forall. intros y [_ Hy]%list_elem_of_filter. rewrite Forall_forall in Hx. by apply Hx.
Qed.

Lemma sorted_NoDup l : StronglySorted lt l -> NoDup l.
Proof.
induction 1 as [|x l _ IH Hx]; constructor; [|done]. intros Hin. rewrite Forall_forall in Hx. specialize (Hx x Hin). lia.
Qed.

Lemma resolve_stands name found : resolve_name nodes ids name = Ok found <-> stands_for nodes ids name found.
Proof.
unfold resolve_name. destruct (ids !! name) as [id|] eqn:Hid.
{ split; [intros [= <-]; by constructor|]. by inversion 1; simplify_eq. }
set (group := filter _ _). assert (Hs : StronglySorted lt group) by apply ids_filter_sorted, seq_sorted.
assert (Hg : forall id, id ∈ group <-> in_group nodes name id).
{ intros id. unfold group, in_group. rewrite list_elem_of_filter, elem_of_seq. split.
- intros [[H ?] _]. split; [|done]. by destruct (nodes !! id).
- intros [H ?]. destruct (nodes !! id) eqn:E; [|done]. apply lookup_lt_Some in E. split; [done|lia]. }
assert (forall found, stands_for nodes ids name found -> found = group) as Huniq.
{ inversion 1 as [|? _ _ Hs' Hg']; simplify_eq. apply (StronglySorted_unique lt); [done..|].
apply NoDup_Permutation; [by apply sorted_NoDup..|]. intros x. by rewrite Hg', Hg. }
clearbody group. destruct group as [|x rest].
- split; [done|]. intros H. inversion H; simplify_eq. by destruct (Huniq found).
- split; [intros [= <-]; by apply stands_group|]. by intros ->%Huniq.
Qed.

Definition knows (known : option bool) (b : bool) : Prop := known = None \/ known = Some b.

Lemma names_inline found : forall known out, found <> [] ->
names nodes found known = Ok out <-> exists b, out = Some b /\ knows known b /\ all_inline nodes b found.
Proof.
induction found as [|id found IH]; intros known out Hne; [done|]. cbn [names]. unfold all_inline.
setoid_rewrite Forall_cons. destruct (nodes !! id) as [node|] eqn:En; cbn [or_panic mbind Result_bind].
2: { split; [done|]. intros (b & _ & _ & (? & ? & _) & _). congruence. }
assert (Hk : (if known is Some k then negb (eqb k (negb (nt_is_block node))) else false) = false <-> knows known (negb (nt_is_block node))).
{ unfold knows. destruct known as [k|]; [|naive_solver]. rewrite negb_false_iff, eqb_true_iff. naive_solver. }
destruct (if known is Some k then _ else false) eqn:Em.
- split; [done|]. intros (b & _ & Hkb & (n' & E' & Hb) & _). injection E' as <-.
apply (f_equal negb) in Hb. rewrite negb_involutive in Hb. subst b. by apply Hk in Hkb.
- pose proof (proj1 Hk eq_refl) as Hkn. clear Hk. destruct found as [|id' found].
+ split.
* intros [= <-]. eexists. split; [done|]. split; [done|]. split; [|done]. exists node. by rewrite negb_involutive.
* intros (b & -> & _ & (n' & E' & Hb) & _). cbn [names]. injection E' as <-. by rewrite Hb, negb_involutive.
+ rewrite IH by done. split.
* intros (b & -> & [?|[= <-]] & Hall); [done|]. eexists. split; [done|]. split; [done|]. split; [|done].
  exists node. by rewrite negb_involutive.
* intros (b & -> & _ & (n' & E' & Hb) & H). exists b. split; [done|]. split; [|done]. right.
  injection E' as <-. by rewrite Hb, negb_involutive.
Qed.
End names.

Section reads.
Context (words : list string) (nodes : list NodeType) (ids : gmap string NodeId).
Local Abbreviation parsed A := (Result BadSchema (A * Cursor)).

(** The words that are left, and the cursor past some of them. *)
Definition left_of (c : Cursor) : list string := drop (position c) words.
Definition moved (c : Cursor) (ws : list string) (known : option bool) : Cursor := MkCursor (position c + length ws) known.

Lemma peek_left c : peek words c = head (left_of c).
Proof. unfold peek, left_of. by rewrite head_lookup, lookup_drop, Nat.add_0_r. Qed.

Lemma left_moved c ws post known : left_of c = ws ++ post -> left_of (moved c ws known) = post.
Proof. unfold left_of, moved. simpl. intros H. by rewrite <- drop_drop, H, drop_app_length. Qed.

Lemma moved_moved c ws1 known1 ws2 known2 : moved (moved c ws1 known1) ws2 known2 = moved c (ws1 ++ ws2) known2.
Proof. unfold moved. simpl. f_equal. rewrite length_app. lia. Qed.

Lemma advance_moved c t : advance c = moved c [t] (inline c).
Proof. unfold advance, moved. f_equal. simpl. lia. Qed.

Lemma at_token_left t c : at_token words t c = bool_decide (head (left_of c) = Some t).
Proof. unfold at_token. by rewrite peek_left. Qed.

Lemma at_token_is t c : at_token words t c = true <-> exists post, left_of c = t :: post.
Proof.
rewrite at_token_left, bool_decide_eq_true. destruct (left_of c) as [|t' post]; simpl; naive_solver.
Qed.

Lemma number_reads_iff c n c' : parse_number words c = Ok (n, c') <->
exists t k post, left_of c = t :: post /\ parse_usize t = Some k /\ n = N.to_nat k /\ c' = moved c [t] (inline c).
Proof.
unfold parse_number. rewrite peek_left. destruct (left_of c) as [|t post]; [split; [done|naive_solver]|].
cbn [head mbind option_bind]. destruct (parse_usize t) as [k|] eqn:Ek; cbn [ok_or mbind Result_bind].
- rewrite (advance_moved c t). split; [intros [= <- <-]; eauto 10|]. intros (t' & k' & post' & [= <- <-] & Ek' & -> & ->). naive_solver.
- split; [done|]. intros (t' & k' & post' & [= <- <-] & Ek' & _). congruence.
Qed.

Lemma range_reads_iff e c e' c' : parse_range words e c = Ok (e', c') <->
exists range min max post, left_of c = range ++ "}" :: post /\ bounds range min max /\ e' = Range min max e /\
c' = moved c (range ++ ["}"]) (inline c).
Proof.
unfold parse_range. split.
- intros ([min c1] & (t & k & post & El & Ek & -> & ->)%number_reads_iff & H)%bind_ok.
pose proof (left_moved c [t] post (inline c) El) as L1.
apply bind_ok in H as ([max c2] & H & H2).
assert (exists range, left_of c = range ++ left_of c2 /\ bounds range (N.to_nat k) max /\ c2 = moved c range (inline c)) as (range & Er & Hb & ->).
{ destruct (at_token words "," _) eqn:Ecomma.
- apply at_token_is in Ecomma as [post' E']. rewrite L1 in E'. subst post. rewrite (advance_moved _ ",") in H.
rewrite moved_moved in H. pose proof (left_moved c [t; ","] post' (inline c) El) as L2. cbv zeta in H.
rewrite peek_left in H. cbn [inline moved app] in H. rewrite L2 in H. destruct (bool_decide_reflect (head post' = Some "}")).
+ injection H as <- <-. exists [t; ","]. rewrite L2. split; [done|]. split; [by constructor|done].
+ apply bind_ok in H as ([m c3] & (u & km & post2 & El2 & Ekm & -> & ->)%number_reads_iff & [= <- <-]).
rewrite L2 in El2. subst post'. rewrite moved_moved. exists [t; ","; u]. cbn [inline moved app].
rewrite (left_moved c [t; ","; u] post2 (inline c) El). split; [done|]. split; [by constructor|done].
- injection H as <- <-. exists [t]. rewrite L1. split; [done|]. split; [by constructor|done]. }
destruct (at_token words "}" _) eqn:Ebrace; [|done]. injection H2 as <- <-. apply at_token_is in Ebrace as [post2 E2].
rewrite (advance_moved _ "}"), moved_moved. eexists range, _, max, post2. rewrite Er, E2. done.
- intros (range & min & max & post & El & Hb & -> & ->).
assert (forall ws rest t, left_of c = ws ++ t :: rest -> forall t', at_token words t' (moved c ws (inline c)) = bool_decide (t = t')) as Hat.
{ intros ws rest t E t'. rewrite at_token_left, (left_moved _ _ _ _ E). simpl. apply bool_decide_ext. split; congruence. }
assert (forall ws rest t k, left_of c = ws ++ t :: rest -> parse_usize t = Some k ->
parse_number words (moved c ws (inline c)) = Ok (N.to_nat k, moved c (ws ++ [t]) (inline c))) as Hnum.
{ intros ws rest t k E Ek. apply number_reads_iff. exists t, k, rest. rewrite (left_moved _ _ _ _ E), moved_moved. done. }
assert (c = moved c [] (inline c)) as Ec by (destruct c; unfold moved; simpl; by rewrite Nat.add_0_r).
destruct Hb as [t n En|t n En|t n u m En Em]; simpl in El.
+ rewrite Ec at 1. rewrite (Hnum [] _ t n El En). cbn [mbind Result_bind app].
rewrite (Hat [t] post "}" El ","). cbn [bool_decide]. rewrite bool_decide_eq_false_2 by done. cbn [mbind Result_bind].
rewrite (Hat [t] post "}" El "}"), bool_decide_eq_true_2 by done. by rewrite (advance_moved _ "}"), moved_moved.
+ rewrite Ec at 1. rewrite (Hnum [] _ t n El En). cbn [mbind Result_bind app].
rewrite (Hat [t] ("}" :: post) "," El ","), bool_decide_eq_true_2 by done. cbv zeta.
rewrite (advance_moved _ ","), moved_moved, peek_left. cbn [inline moved app]. rewrite (left_moved c [t; ","] ("}" :: post) _ El).
rewrite bool_decide_eq_true_2 by done. cbn [mbind Result_bind].
rewrite (Hat [t; ","] post "}" El "}"), bool_decide_eq_true_2 by done. by rewrite (advance_moved _ "}"), moved_moved.
+ rewrite Ec at 1. rewrite (Hnum [] _ t n El En). cbn [mbind Result_bind app].
rewrite (Hat [t] (u :: "}" :: post) "," El ","), bool_decide_eq_true_2 by done. cbv zeta.
rewrite (advance_moved _ ","), moved_moved, peek_left. cbn [inline moved app]. rewrite (left_moved c [t; ","] (u :: "}" :: post) _ El).
rewrite bool_decide_eq_false_2 by (intros [= ->]; by vm_compute in Em).
rewrite (Hnum [t; ","] _ u m El Em). cbn [mbind Result_bind app].
rewrite (Hat [t; ","; u] post "}" El "}"), bool_decide_eq_true_2 by done. by rewrite (advance_moved _ "}"), moved_moved.
Qed.

(** ** Signs *)

Definition no_sign (post : list string) : Prop := match head post with Some t => t ∉ ["+"; "*"; "?"; "{"] | None => True end.

Lemma left_advance c t post : left_of c = t :: post -> left_of (moved c [t] (inline c)) = post.
Proof. apply (left_moved c [t] post). Qed.

Lemma suffixes_iff fuel : forall e c e' c', length (left_of c) < fuel ->
parse_suffixes words fuel e c = Ok (e', c') <->
exists ws post, left_of c = ws ++ post /\ suffixed e ws e' /\ no_sign post /\ c' = moved c ws (inline c).
Proof.
induction fuel as [|fuel IH]; intros e c e' c' Hlen; [lia|]. cbn [parse_suffixes].
assert (Hone : forall t e1, (forall ws, suffixed e1 ws e' -> suffixed e (t :: ws) e') ->
(forall ws, suffixed e (t :: ws) e' -> suffixed e1 ws e') -> t ∈ ["+"; "*"; "?"; "{"] -> at_token words t c = true ->
parse_suffixes words fuel e1 (advance c) = Ok (e', c') <->
exists ws post, left_of c = ws ++ post /\ suffixed e ws e' /\ no_sign post /\ c' = moved c ws (inline c)).
{ intros t e1 H1 H2 Hin [post0 El]%at_token_is. rewrite (advance_moved c t), IH; rewrite (left_advance c t post0 El); [|rewrite El in Hlen; simpl in *; lia].
split.
- intros (ws & post & -> & Hs & Hn & ->). exists (t :: ws), post. rewrite moved_moved. split; [done|]. auto.
- intros (ws & post & E & Hs & Hn & ->). rewrite El in E. destruct ws as [|t' ws].
+ simpl in E. subst post. by destruct Hn.
+ injection E as <- ->. exists ws, post. rewrite moved_moved. auto. }
destruct (at_token words "+" c) eqn:E1; [apply (Hone "+"); [by constructor|by inversion 1|set_solver|done]|].
destruct (at_token words "*" c) eqn:E2; [apply (Hone "*"); [by constructor|by inversion 1|set_solver|done]|].
destruct (at_token words "?" c) eqn:E3; [apply (Hone "?"); [by constructor|by inversion 1|set_solver|done]|]. clear Hone.
destruct (at_token words "{" c) eqn:E4.
- apply at_token_is in E4 as [post0 El]. rewrite (advance_moved c "{"). pose proof (left_advance c "{" post0 El) as L0. split.
+ intros ([e1 c1] & (range & min & max & post1 & Er & Hb & -> & ->)%range_reads_iff & H)%bind_ok. rewrite L0 in Er.
rewrite moved_moved in H. cbn [inline moved] in H. assert (El1 : left_of c = (["{"] ++ range ++ ["}"]) ++ post1).
{ rewrite El, Er. simpl. by rewrite <- app_assoc. }
pose proof (left_moved c _ post1 (inline c) El1) as L1. apply IH in H as (ws & post & E & Hs & Hn & ->).
2: { rewrite L1. rewrite El1, length_app in Hlen. simpl in Hlen. lia. }
rewrite L1 in E. subst post1. rewrite moved_moved. exists ("{" :: range ++ "}" :: ws), post.
split; [rewrite El1; simpl; by rewrite <- !app_assoc|]. split; [by eapply suffix_range|]. split; [done|].
cbn [inline moved]. f_equal. simpl. by rewrite <- app_assoc.
+ intros (ws & post & E & Hs & Hn & ->). rewrite El in E. destruct ws as [|t' ws]; [simpl in E; subst post; destruct Hn; set_solver|].
injection E as <- ->. inversion Hs as [| | | |? range min max ws' ? Hb Hs']; subst. simplify_eq.
assert (parse_range words e (moved c ["{"] (inline c)) = Ok (Range min max e, moved c ("{" :: range ++ ["}"]) (inline c))) as Er.
{ apply range_reads_iff. exists range, min, max, (ws' ++ post). rewrite L0, moved_moved. split; [by rewrite <- app_assoc|done]. }
rewrite Er. cbn [mbind Result_bind]. assert (El1 : left_of c = ("{" :: range ++ ["}"]) ++ ws' ++ post).
{ rewrite El. simpl. by rewrite <- !app_assoc. }
pose proof (left_moved c _ _ (inline c) El1) as L1. apply IH.
{ rewrite L1. rewrite El1, length_app in Hlen. simpl in Hlen. lia. }
exists ws', post. split; [done|]. split; [done|]. split; [done|]. rewrite moved_moved. cbn [inline moved]. f_equal. simpl. by rewrite <- app_assoc.
- assert (Hns : no_sign (left_of c)).
{ unfold no_sign. destruct (left_of c) as [|t post] eqn:El; [done|]. simpl. rewrite !elem_of_cons, elem_of_nil.
assert (forall t', at_token words t' c = false -> t <> t') as Ht.
{ intros t' Hf ->. rewrite at_token_left, El in Hf. by apply bool_decide_eq_false in Hf. }
intros [Hx|[Hx|[Hx|[Hx|[]]]]]; revert Hx; by apply Ht. }
assert (c = moved c [] (inline c)) as Ec by (destruct c; unfold moved; simpl; by rewrite Nat.add_0_r). split.
+ intros [= <- <-]. exists [], (left_of c). split; [done|]. split; [constructor|]. done.
+ intros (ws & post & El & Hs & Hn & ->). destruct Hs as [| | | |]; [by rewrite <- Ec|exfalso..].
all: unfold no_sign in Hns; rewrite El in Hns; simpl in Hns; set_solver.
Qed.

(** ** Levels *)

Abbreviation atom := (atom nodes ids).
Abbreviation item := (item nodes ids).
Abbreviation items := (items nodes ids).
Abbreviation choices := (choices nodes ids).

Definition starts (ws : list string) : Prop :=
exists t ws', ws = t :: ws' /\ (t = "(" \/ Forall (fun c => is_word c = true) (chars t)).

Lemma atom_starts b ws e : atom b ws e -> starts ws.
Proof. destruct 1; eexists _, _; split; eauto. Qed.

Lemma item_starts b ws e : item b ws e -> starts ws.
Proof. destruct 1 as [ws e signs e' (t & ws' & -> & H)%atom_starts _]. by exists t, (ws' ++ signs). Qed.

Lemma items_starts b ws es : items b ws es -> starts ws.
Proof.
destruct 1 as [ws e H|ws e ws' es H _]; apply item_starts in H; [done|].
destruct H as (t & ws1 & -> & H). by exists t, (ws1 ++ ws').
Qed.

(** No sign, bar or parenthesis that closes starts an expression. *)
Lemma starts_no ws post t : starts ws -> head (ws ++ post) = Some t -> t ∉ ["+"; "*"; "?"; "{"; ")"; "|"].
Proof.
intros (t' & ws' & -> & Ht) [= ->]. rewrite !elem_of_cons, elem_of_nil. intros Hin.
destruct Ht as [->|Hw]; [by intuition discriminate|].
destruct Hin as [->|[->|[->|[->|[->|[->|[]]]]]]]; vm_compute in Hw; apply Forall_cons in Hw as [? _]; discriminate.
Qed.

Lemma starts_no_sign ws post : starts ws -> no_sign (ws ++ post).
Proof.
intros Hs. unfold no_sign. destruct (head (ws ++ post)) as [t|] eqn:E; [|done]. pose proof (starts_no _ _ _ Hs E). set_solver.
Qed.

Definition ends (post : list string) : Prop := head post = None \/ head post = Some ")" \/ head post = Some "|".
Definition closes (post : list string) : Prop := head post = None \/ head post = Some ")".

Lemma ends_no_sign post : ends post -> no_sign post.
Proof. unfold no_sign. intros [->|[->| ->]]; [done|set_solver..]. Qed.

Lemma left_length c : length (left_of c) < rounds words.
Proof. unfold left_of, rounds. rewrite length_drop. lia. Qed.

Lemma knows_same b b' : knows (Some b) b' <-> b' = b.
Proof. unfold knows. naive_solver. Qed.

Section levels.
Context (inner : Cursor -> parsed Expr) (n : nat).
Hypothesis Hinner : forall c e c', length (left_of c) < n -> inner c = Ok (e, c') <->
exists b ws es post, left_of c = ws ++ post /\ choices b ws es /\ closes post /\ e = together Choice es /\
knows (inline c) b /\ c' = moved c ws (Some b).

Lemma atom_iff c e c' : length (left_of c) <= n -> parse_atom words nodes ids inner c = Ok (e, c') <->
exists b ws post, left_of c = ws ++ post /\ atom b ws e /\ knows (inline c) b /\ c' = moved c ws (Some b).
Proof.
intros Hlen. unfold parse_atom. destruct (at_token words "(" c) eqn:Ep.
- apply at_token_is in Ep as [post0 El]. rewrite (advance_moved c "("). pose proof (left_advance c "(" post0 El) as L0.
assert (Hlt : length (left_of (moved c ["("] (inline c))) < n) by (rewrite L0; rewrite El in Hlen; simpl in Hlen; lia). split.
+ intros ([e1 c1] & (b & ws & es & post & E & Hc & Hp & -> & Hk & ->)%Hinner & H)%bind_ok; [|done].
rewrite L0 in E. clear L0 Hlt. subst post0. rewrite moved_moved in H. destruct (at_token words ")" _) eqn:Ec; [|done]. injection H as <- <-.
apply at_token_is in Ec as [post' Ec]. rewrite (left_moved c (["("] ++ ws) post (Some b) El) in Ec. subst post.
rewrite (advance_moved _ ")"), moved_moved. exists b, ("(" :: ws ++ [")"]), post'. rewrite El. simpl. rewrite <- app_assoc.
split; [done|]. split; [by constructor|]. split; [exact Hk|]. done.
+ intros (b & ws & post & E & Ha & Hk & ->). destruct Ha as [name found Hw _ _|ws1 es Hc].
{ rewrite El in E. injection E as <- _. vm_compute in Hw. by apply Forall_cons in Hw as [? _]. }
rewrite El in E. injection E as E. rewrite <- app_assoc in E. simpl in E.
assert (inner (moved c ["("] (inline c)) = Ok (together Choice es, moved c ("(" :: ws1) (Some b))) as ->.
{ apply Hinner; [done|]. exists b, ws1, es, (")" :: post). rewrite L0, moved_moved. split; [done|]. split; [done|].
split; [by right|]. done. }
cbn [mbind Result_bind]. assert (at_token words ")" (moved c ("(" :: ws1) (Some b)) = true) as ->.
{ apply at_token_is. exists post. apply left_moved. by rewrite El, E. }
by rewrite (advance_moved _ ")"), moved_moved.
- assert (Hno : forall t post, left_of c = t :: post -> t <> "(").
{ intros t post El ->. rewrite at_token_left, El in Ep. by apply bool_decide_eq_false in Ep. }
rewrite peek_left. destruct (left_of c) as [|name post0] eqn:El.
{ split; [done|]. intros (b & ws & post & E & (t & ws' & -> & _)%atom_starts & _). done. }
cbn [head ok_or mbind Result_bind]. destruct (forallb is_word (chars name)) eqn:Ew.
+ assert (Hw : Forall (fun c => is_word c = true) (chars name)).
{ rewrite forallb_forall in Ew. apply Forall_forall. intros x Hx%list_elem_of_In. by apply Ew. }
split.
* intros (found & Hr%resolve_stands & (known & Hn & [= <- <-])%bind_ok)%bind_ok.
assert (found <> []) as Hne by (by destruct Hr).
apply names_inline in Hn as (b & -> & Hk & Ha); [|done]. exists b, [name], post0. split; [done|]. split; [by constructor|].
split; [done|]. unfold moved. f_equal. simpl. lia.
* intros (b & ws & post & E & Ha & Hk & ->). inversion Ha as [name' found Hw' Hs Hi|ws1 es Hc]; subst.
2: { injection E as -> _. by destruct (Hno "(" post0 eq_refl). }
injection E as -> ->. rewrite (proj2 (resolve_stands nodes ids name' found) Hs). cbn [mbind Result_bind].
assert (found <> []) as Hne by (by destruct Hs). rewrite (proj2 (names_inline nodes found (inline c) (Some b) Hne)); [|by exists b].
cbn [mbind Result_bind]. do 3 f_equal. unfold moved. simpl. f_equal. lia.
+ split; [done|]. intros (b & ws & post & E & Ha & _). inversion Ha as [name' found Hw' Hs Hi|ws1 es Hc]; subst.
* injection E as -> ->. assert (forallb is_word (chars name') = true); [|congruence].
apply forallb_forall. intros x Hx%list_elem_of_In. rewrite Forall_forall in Hw'. by apply Hw'.
* injection E as -> _. by destruct (Hno "(" post0 eq_refl).
Qed.

Lemma item_iff c e c' : length (left_of c) <= n -> parse_subscript words nodes ids inner c = Ok (e, c') <->
exists b ws post, left_of c = ws ++ post /\ item b ws e /\ no_sign post /\ knows (inline c) b /\ c' = moved c ws (Some b).
Proof.
intros Hlen. unfold parse_subscript. split.
- intros ([e1 c1] & (b & ws & post & E & Ha & Hk & ->)%atom_iff & H)%bind_ok; [|done].
pose proof (left_moved c ws post (Some b) E) as L1. apply suffixes_iff in H as (signs & post' & E' & Hs & Hn & ->); [|apply left_length].
rewrite L1 in E'. subst post. rewrite moved_moved. exists b, (ws ++ signs), post'. rewrite E, app_assoc. split; [done|].
split; [by econstructor|]. done.
- intros (b & ws & post & E & Hi & Hn & Hk & ->). destruct Hi as [ws e1 signs e Ha Hs]. rewrite <- app_assoc in E.
assert (parse_atom words nodes ids inner c = Ok (e1, moved c ws (Some b))) as -> by (apply atom_iff; [done|]; by exists b, ws, (signs ++ post)).
cbn [mbind Result_bind]. apply suffixes_iff; [apply left_length|]. exists signs, post. rewrite (left_moved c ws _ _ E), moved_moved. done.
Qed.

Lemma item_shorter b ws post e c : left_of c = ws ++ post -> item b ws e -> length post < length (left_of c).
Proof. intros -> (t & ws' & -> & _)%item_starts. rewrite length_app. simpl. lia. Qed.

Lemma more_iff fuel : forall es c es' c', length (left_of c) < fuel -> length (left_of c) <= n ->
parse_more words nodes ids inner fuel es c = Ok (es', c') <->
(ends (left_of c) /\ es' = es /\ c' = c) \/
(exists b ws post more, left_of c = ws ++ post /\ items b ws more /\ ends post /\ knows (inline c) b /\
es' = es ++ more /\ c' = moved c ws (Some b)).
Proof.
induction fuel as [|fuel IH]; intros es c es' c' Hf Hn; [lia|]. cbn [parse_more]. rewrite peek_left.
destruct (left_of c) as [|next post0] eqn:El.
{ cbn [head]. split; [intros [= <- <-]; left; split; [by left|done]|]. intros [(_ & -> & ->)|(b & ws & post & more & E & (t & ws' & -> & _)%items_starts & _)]; done. }
cbn [head]. destruct (bool_decide (next <> ")") && bool_decide (next <> "|")) eqn:En.
- apply andb_true_iff in En as [H1%bool_decide_eq_true H2%bool_decide_eq_true]. rewrite <- El in Hf, Hn. split.
+ intros ([e1 c1] & (b & ws & post & E & Hi & Hs & Hk & ->)%item_iff & H)%bind_ok; [|done]. right.
pose proof (left_moved c ws post (Some b) E) as L1. pose proof (item_shorter _ _ _ _ _ E Hi).
apply IH in H as [(He & -> & ->)|(b' & ws' & post' & more & E' & Hm & He & Hk' & -> & ->)]; [..|rewrite L1; lia|rewrite L1; lia].
* rewrite L1 in He. exists b, ws, post, [e1]. rewrite El in E. split; [done|]. split; [by constructor|]. done.
* rewrite L1 in E'. subst post. cbn [inline moved] in Hk'. apply knows_same in Hk' as ->. rewrite moved_moved.
exists b, (ws ++ ws'), post', (e1 :: more). rewrite El in E. rewrite <- app_assoc. split; [done|]. split; [by constructor|].
split; [done|]. split; [done|]. by rewrite <- app_assoc.
+ intros [([?|[[= ?]|[= ?]]] & _)|(b & ws & post & more & E & Hm & He & Hk & -> & ->)]; [done..|]. rewrite <- El in E.
destruct Hm as [ws e1 Hi|ws e1 ws' more Hi Hm].
* pose proof (item_shorter _ _ _ _ _ E Hi). pose proof (left_moved c ws post (Some b) E) as L1.
assert (parse_subscript words nodes ids inner c = Ok (e1, moved c ws (Some b))) as ->.
{ apply item_iff; [done|]. exists b, ws, post. split; [done|]. split; [done|]. split; [by apply ends_no_sign|]. done. }
cbn [mbind Result_bind]. apply IH; [rewrite L1; lia..|]. left. by rewrite L1.
* rewrite <- app_assoc in E. pose proof (item_shorter _ _ _ _ _ E Hi). pose proof (left_moved c ws (ws' ++ post) (Some b) E) as L1.
assert (parse_subscript words nodes ids inner c = Ok (e1, moved c ws (Some b))) as ->.
{ apply item_iff; [done|]. exists b, ws, (ws' ++ post). split; [done|]. split; [done|].
split; [by eapply starts_no_sign, items_starts|]. done. }
cbn [mbind Result_bind]. apply IH; [rewrite L1; lia..|]. right. exists b, ws', post, more. rewrite L1, moved_moved. split; [done|].
split; [done|]. split; [done|]. split; [by apply knows_same|]. by rewrite <- app_assoc.
- apply andb_false_iff in En. rewrite !bool_decide_eq_false in En. split.
+ intros [= <- <-]. left. split; [|done]. right. simpl. destruct En as [En|En]; apply dec_stable in En as ->; auto.
+ intros [(_ & -> & ->)|(b & ws & post & more & E & Hm & _)]; [done|]. exfalso.
apply items_starts in Hm. pose proof (starts_no ws post next Hm) as Hno. rewrite <- E in Hno. specialize (Hno eq_refl).
destruct En as [En|En]; apply dec_stable in En as ->; set_solver.
Qed.

Lemma seq_iff c e c' : length (left_of c) <= n -> parse_seq words nodes ids inner c = Ok (e, c') <->
exists b ws es post, left_of c = ws ++ post /\ items b ws es /\ ends post /\ e = together Seq es /\
knows (inline c) b /\ c' = moved c ws (Some b).
Proof.
intros Hn. unfold parse_seq. split.
- intros ([e1 c1] & (b & ws & post & E & Hi & _ & Hk & ->)%item_iff & ([es c2] & H & [= <- <-])%bind_ok)%bind_ok; [|done].
pose proof (left_moved c ws post (Some b) E) as L1. pose proof (item_shorter _ _ _ _ _ E Hi).
apply more_iff in H as [(He & -> & ->)|(b' & ws' & post' & more & E' & Hm & He & Hk' & -> & ->)]; [..|apply left_length|rewrite L1; lia].
+ rewrite L1 in He. exists b, ws, [e1], post. split; [done|]. split; [by constructor|]. done.
+ rewrite L1 in E'. subst post. cbn [inline moved] in Hk'. apply knows_same in Hk' as ->. rewrite moved_moved.
exists b, (ws ++ ws'), (e1 :: more), post'. rewrite <- app_assoc. split; [done|]. split; [by constructor|]. done.
- intros (b & ws & es & post & E & Hm & He & -> & Hk & ->). destruct Hm as [ws e1 Hi|ws e1 ws' more Hi Hm].
+ pose proof (item_shorter _ _ _ _ _ E Hi). pose proof (left_moved c ws post (Some b) E) as L1.
assert (parse_subscript words nodes ids inner c = Ok (e1, moved c ws (Some b))) as ->.
{ apply item_iff; [done|]. exists b, ws, post. split; [done|]. split; [done|]. split; [by apply ends_no_sign|]. done. }
cbn [mbind Result_bind]. assert (parse_more words nodes ids inner (rounds words) [e1] (moved c ws (Some b)) = Ok ([e1], moved c ws (Some b))) as ->; [|done].
apply more_iff; [apply left_length|rewrite L1; lia|]. left. by rewrite L1.
+ rewrite <- app_assoc in E. pose proof (item_shorter _ _ _ _ _ E Hi). pose proof (left_moved c ws (ws' ++ post) (Some b) E) as L1.
assert (parse_subscript words nodes ids inner c = Ok (e1, moved c ws (Some b))) as ->.
{ apply item_iff; [done|]. exists b, ws, (ws' ++ post). split; [done|]. split; [done|].
split; [by eapply starts_no_sign, items_starts|]. done. }
cbn [mbind Result_bind].
assert (parse_more words nodes ids inner (rounds words) [e1] (moved c ws (Some b)) = Ok (e1 :: more, moved c (ws ++ ws') (Some b))) as ->; [|done].
apply more_iff; [apply left_length|rewrite L1; lia|]. right. exists b, ws', post, more. rewrite L1, moved_moved. split; [done|].
split; [done|]. split; [done|]. split; [by apply knows_same|]. done.
Qed.

Lemma closes_ends post : closes post -> ends post.
Proof. intros [?|?]; [by left|by right; left]. Qed.

Lemma choices_iff fuel : forall es c es' c', length (left_of c) < fuel -> length (left_of c) <= n -> ends (left_of c) ->
parse_choices words nodes ids inner fuel es c = Ok (es', c') <->
(closes (left_of c) /\ es' = es /\ c' = c) \/
(exists b ws post more, left_of c = "|" :: ws ++ post /\ choices b ws more /\ closes post /\ knows (inline c) b /\
es' = es ++ more /\ c' = moved c ("|" :: ws) (Some b)).
Proof.
induction fuel as [|fuel IH]; intros es c es' c' Hf Hn He; [lia|]. cbn [parse_choices].
destruct (at_token words "|" c) eqn:Ebar.
- apply at_token_is in Ebar as [post0 El]. rewrite (advance_moved c "|"). pose proof (left_advance c "|" post0 El) as L0. rewrite El in Hf, Hn.
simpl in Hf, Hn. split.
+ intros ([e1 c1] & (b & ws & es1 & post & E & Hi & Hp & -> & Hk & ->)%seq_iff & H)%bind_ok; [|rewrite L0; lia].
rewrite L0 in E. clear L0. subst post0. cbn [inline moved] in Hk. rewrite length_app in Hf, Hn. rewrite moved_moved in H. simpl app in H.
pose proof (left_moved c ("|" :: ws) post (Some b) El) as L1.
apply IH in H as [(Hc & -> & ->)|(b' & ws' & post' & more & E' & Hm & Hc & Hk' & -> & ->)]; rewrite ?L1 in *; [..|lia|lia|done].
* right. exists b, ws, post, [together Seq es1]. split; [done|]. split; [by constructor|]. done.
* subst post. cbn [inline moved] in Hk'. apply knows_same in Hk' as ->. rewrite moved_moved. right.
exists b, (ws ++ "|" :: ws'), post', (together Seq es1 :: more). rewrite El. simpl. rewrite <- !app_assoc. split; [done|]. split; [by constructor|].
done.
+ intros [([Hc|Hc] & _)|(b & ws & post & more & E & Hm & Hc & Hk & -> & ->)]; [by rewrite El in Hc..|]. rewrite El in E. injection E as ->.
assert (Hstep : forall ws1 es1 post1, ws ++ post = ws1 ++ post1 -> items b ws1 es1 -> ends post1 ->
parse_seq words nodes ids inner (moved c ["|"] (inline c)) = Ok (together Seq es1, moved c ("|" :: ws1) (Some b)) /\
left_of (moved c ("|" :: ws1) (Some b)) = post1).
{ intros ws1 es1 post1 E1 Hi1 He1. split; [|apply left_moved; by rewrite El, E1]. apply seq_iff; [rewrite L0; lia|].
exists b, ws1, es1, post1. rewrite L0, moved_moved. done. }
rewrite length_app in Hf, Hn. destruct Hm as [ws es1 Hi|ws es1 ws' more Hi Hm].
* destruct (Hstep ws es1 post eq_refl Hi (closes_ends _ Hc)) as [-> L1]. cbn [mbind Result_bind].
apply IH; rewrite L1; [lia|lia|by apply closes_ends|]. by left.
* rewrite <- app_assoc in Hstep. destruct (Hstep ws es1 (("|" :: ws') ++ post) eq_refl Hi ltac:(by right; right)) as [-> L1].
cbn [mbind Result_bind]. rewrite length_app in Hf, Hn. apply IH; rewrite L1, ?length_app; [lia|lia|by right; right|]. right.
exists b, ws', post, more. rewrite moved_moved. split; [done|]. split; [done|]. split; [done|]. split; [by apply knows_same|].
by rewrite <- app_assoc.
- assert (Hno : head (left_of c) <> Some "|") by (rewrite at_token_left in Ebar; by apply bool_decide_eq_false in Ebar). split.
+ intros [= <- <-]. left. split; [|done]. destruct He as [?|[?|?]]; [by left|by right|done].
+ intros [(_ & -> & ->)|(b & ws & post & more & E & _)]; [done|]. by rewrite E in Hno.
Qed.

Lemma level_iff c e c' : length (left_of c) <= n -> parse_level words nodes ids inner c = Ok (e, c') <->
exists b ws es post, left_of c = ws ++ post /\ choices b ws es /\ closes post /\ e = together Choice es /\
knows (inline c) b /\ c' = moved c ws (Some b).
Proof.
intros Hn. unfold parse_level. split.
- intros ([e1 c1] & (b & ws & es1 & post & E & Hi & Hp & -> & Hk & ->)%seq_iff & ([es c2] & H & [= <- <-])%bind_ok)%bind_ok; [|done].
pose proof (left_moved c ws post (Some b) E) as L1. pose proof Hn as Hn'. rewrite E, length_app in Hn'.
apply (choices_iff (rounds words)) in H; [|apply left_length|rewrite L1; lia|by rewrite L1]. rewrite L1 in H.
destruct H as [(Hc & -> & ->)|(b' & ws' & post' & more & E' & Hm & Hc & Hk' & -> & ->)].
+ exists b, ws, [together Seq es1], post. split; [done|]. split; [by constructor|]. done.
+ subst post. cbn [inline moved] in Hk'. apply knows_same in Hk' as ->. rewrite moved_moved.
exists b, (ws ++ "|" :: ws'), (together Seq es1 :: more), post'. rewrite <- app_assoc. split; [done|]. split; [by constructor|]. done.
- intros (b & ws & es & post & E & Hm & Hc & -> & Hk & ->). destruct Hm as [ws es1 Hi|ws es1 ws' more Hi Hm].
+ assert (parse_seq words nodes ids inner c = Ok (together Seq es1, moved c ws (Some b))) as ->.
{ apply seq_iff; [done|]. exists b, ws, es1, post. split; [done|]. split; [done|]. split; [by apply closes_ends|]. done. }
pose proof (left_moved c ws post (Some b) E) as L1. rewrite E, length_app in Hn. cbn [mbind Result_bind].
assert (parse_choices words nodes ids inner (rounds words) [together Seq es1] (moved c ws (Some b)) =
Ok ([together Seq es1], moved c ws (Some b))) as ->; [|done].
apply choices_iff; [apply left_length|rewrite L1; lia|rewrite L1; by apply closes_ends|]. left. by rewrite L1.
+ rewrite <- app_assoc in E. assert (parse_seq words nodes ids inner c = Ok (together Seq es1, moved c ws (Some b))) as ->.
{ apply seq_iff; [done|]. exists b, ws, es1, (("|" :: ws') ++ post). split; [done|]. split; [done|]. split; [by right; right|]. done. }
pose proof (left_moved c ws _ (Some b) E) as L1. rewrite E, length_app in Hn. cbn [mbind Result_bind].
assert (parse_choices words nodes ids inner (rounds words) [together Seq es1] (moved c ws (Some b)) =
Ok (together Seq es1 :: more, moved c (ws ++ "|" :: ws') (Some b))) as ->; [|done].
apply choices_iff; [apply left_length|rewrite L1; lia|rewrite L1; by right; right|]. right.
exists b, ws', post, more. rewrite L1, moved_moved. split; [done|]. split; [done|]. split; [done|]. split; [by apply knows_same|]. done.
Qed.
End levels.

Lemma expr_iff fuel : forall c e c', length (left_of c) < fuel -> parse_expr words nodes ids fuel c = Ok (e, c') <->
exists b ws es post, left_of c = ws ++ post /\ choices b ws es /\ closes post /\ e = together Choice es /\
knows (inline c) b /\ c' = moved c ws (Some b).
Proof.
induction fuel as [|fuel IH]; intros c e c' Hf; [lia|]. apply (level_iff _ fuel); [|lia]. intros. by apply IH.
Qed.
End reads.

(** The rule of a text is the one that it spells; a text that spells none is refused. *)
Lemma content_spells nodes ids text rule : content_of nodes ids text = Ok rule <-> spells nodes ids text rule.
Proof.
  unfold content_of. destruct (tokenize text) as [|word words] eqn:Et.
  - split; [intros [= <-]; constructor; by apply lexes_iff|]. destruct 1 as [|b ws es Hl%lexes_iff Hc]; [done|].
    rewrite Et in Hl. subst ws. destruct es as [|e es]; inversion Hc as [ws' es' Hi|ws1 es1 ws2 more Hi _ E]; subst; [|by destruct ws1].
    all: by apply items_starts in Hi as (? & ? & ? & _).
  - set (all := word :: words) in *. assert (Hall : left_of all start_cursor = all) by done. split.
    + intros ([e c] & (b & ws & es & post & E & Hc & Hp & -> & _ & ->)%expr_iff & H)%bind_ok; [|rewrite Hall; lia].
      rewrite peek_left, (left_moved all start_cursor ws post) in H by done. case_bool_decide as Hh; [|done]. injection H as <-.
      destruct post as [|]; [|done]. rewrite Hall, app_nil_r in E. subst ws. eapply spells_expr; [|exact Hc]. by apply lexes_iff.
    + destruct 1 as [Hl%lexes_iff|b ws es Hl%lexes_iff Hc]; rewrite Et in Hl; [done|]. subst ws.
      assert (parse_expr all nodes ids (S (length all)) start_cursor = Ok (together Choice es, moved start_cursor all (Some b))) as ->.
      { apply expr_iff; [rewrite Hall; lia|]. exists b, all, es, []. rewrite app_nil_r. split; [done|]. split; [done|].
        split; [by left|]. split; [done|]. split; [by left|done]. }
      cbn [mbind Result_bind]. rewrite peek_left, (left_moved all start_cursor all []) by (by rewrite app_nil_r). done.
Qed.
