(* ===== verification/TextNode.v ===== *)
(** The operations of [documents/crates/text/src/node.rs] that ask the schema: mark
    sets, new nodes, attributes, and [Slice::insert_at]. *)

From S2P Require Import Prelude Json TextData TextSchema.

(** [sort_by_key(Mark::kind)]: a stable sort. *)
Fixpoint insert_by_kind (m : Mark) (l : list Mark) : list Mark :=
  match l with
  | [] => [m]
  | other :: l' => if m_kind m <=? m_kind other then m :: l else other :: insert_by_kind m l'
  end.
Definition sort_by_kind (l : list Mark) : list Mark := foldr insert_by_kind [] l.

Module Marks.
Definition new (schema : Schema) (kind : MarkId) (attrs : option Value) : res Mark :=
attrs ← Schema.mark_attrs schema kind attrs; Ok (MkMark kind attrs).

Section add_to_set.
Variables (schema : Schema) (self : Mark) (set : list Mark).

(** [copy.get_or_insert_with(|| set[..index].to_vec())]. *)
Definition get_or_insert (copy : option (list Mark)) (index : nat) : list Mark :=
default (take index set) copy.

Fixpoint add_loop (rest : list Mark) (index : nat) (copy : option (list Mark))
(placed : bool) : res (list Mark) :=
match rest with
| [] =>
let copy := default set copy in
Ok (if placed then copy else copy ++ [self])
| other :: rest =>
if bool_decide (self = other) then Ok set
else
excluded ← Schema.excludes schema (m_kind self) (m_kind other);
if excluded : bool then
add_loop rest (S index) (Some (get_or_insert copy index)) placed
else
blocked ← Schema.excludes schema (m_kind other) (m_kind self);
if blocked : bool then Ok set
else
let '(copy, placed) :=
if negb placed && (m_kind self <? m_kind other)
then (Some (get_or_insert copy index ++ [self]), true)
else (copy, placed) in
add_loop rest (S index) ((fun c => c ++ [other]) <$> copy) placed
end.

(** Places this mark in a set, by its rank, and removes what it excludes. *)
Definition add_to_set : res (list Mark) := add_loop set 0 None false.
End add_to_set.

Fixpoint remove_from_set (self : Mark) (set : list Mark) : list Mark :=
match set with
| [] => []
| m :: set => if bool_decide (m = self) then set else m :: remove_from_set self set
end.
End Marks.

Module Nodes.
Definition new (schema : Schema) (kind : NodeId) (attrs : option Value)
(content : Fragment) (marks : list Mark) : res Node :=
attrs ← Schema.node_attrs schema kind attrs;
leaf ← Schema.is_leaf schema kind;
Ok (MkNode kind attrs content (sort_by_kind marks) None leaf).

Definition text_units (schema : Schema) (text : list N) (marks : list Mark) : res Node :=
match text with
| [] => Err EmptyText
| _ => Ok (MkNode (Schema.text_node schema) [] empty_fragment (sort_by_kind marks)
(Some text) true)
end.

Definition with_attrs (schema : Schema) (n : Node) (attrs : Value) : res Node :=
attrs ← Schema.node_attrs schema (n_kind n) (Some attrs);
Ok (MkNode (n_kind n) attrs empty_fragment (n_marks n) None (n_leaf n)).

Definition with_doc_attrs (schema : Schema) (n : Node) (attrs : Value) : res Node :=
attrs ← Schema.node_attrs schema (n_kind n) (Some attrs);
Ok (MkNode (n_kind n) attrs (n_content n) (n_marks n) None (n_leaf n)).

(** [Node::node_at]: the loop goes down into the content of a child. *)
Fixpoint node_at_in (content : Fragment) (position : nat) {struct content} : res (option Node) :=
match content with
| MkFragment children _ =>
'(index, offset) ← Fragment.find_index content position;
match children !! index with
| None => Ok None
| Some child =>
if (offset =? position) || Node.is_text child then Ok (Some child)
else
rest ← usub position (offset + 1);
default (Ok None) (with_nth (fun child => node_at_in (n_content child) rest) children index)
end
end.
Definition node_at (n : Node) (position : nat) : res (option Node) :=
node_at_in (n_content n) position.
End Nodes.

Definition as_signed (value : nat) : Z :=
  if (N.of_nat value <? 9223372036854775808)%N then Z.of_nat value else 9223372036854775806.

Fixpoint insert_into (schema : Schema) (content : Fragment) (distance : nat) (insert : Fragment)
    (open_start open_end : Z) (parent : option Node) {struct content} : res (option Fragment) :=
  match content with
  | MkFragment children _ =>
      '(index, offset) ← Fragment.find_index content distance;
      let child := children !! index in
      if (offset =? distance) || (match child with Some c => Node.is_text c | None => false end) then
        blocked ←
          match parent with
          | Some parent =>
              if (open_start <=? 0)%Z && (open_end <=? 0)%Z
              then can ← Schema.can_replace schema parent index index insert; Ok (negb can)
              else Ok false
          | None => Ok false
          end;
        if blocked : bool then Ok None
        else
          left ← Fragment.cut content 0 distance;
          right ← Fragment.cut_end content distance;
          Ok (Some (Fragment.append (Fragment.append left insert) right))
      else
        match child with
        | None => Err NoNodeAtPosition
        | Some child =>
            distance ← usub distance offset;
            distance ← usub distance 1;
            inner ← default (Err NoNodeAtPosition) (with_nth (fun child =>
              insert_into schema (n_content child) distance insert
                (if index =? 0 then (open_start - 1)%Z else 0%Z)
                (if index + 1 =? length children then (open_end - 1)%Z else 0%Z)
                (Some child)) children index);
            match inner with
            | None => Ok None
            | Some inner => Some <$> Fragment.replace_child content index (Node.copy child inner)
            end
        end
  end.

Definition insert_at (schema : Schema) (self : Slice) (position : nat) (fragment : Fragment) :
    res (option Slice) :=
  distance ← uadd position (s_open_start self);
  content ← insert_into schema (s_content self) distance fragment
    (as_signed (s_open_start self) + 1) (as_signed (s_open_end self) + 1) None;
  Ok (match content with
      | None => None
      | Some content => Some (MkSlice content (s_open_start self) (s_open_end self))
      end).
