(* ===== verification/TextResolved.v ===== *)
(** [documents/crates/text/src/resolved.rs]: a position with the path of nodes down to
    it, and [Node::slice] and [Node::resolve] of [src/node.rs]. *)

From S2P Require Import Prelude Json TextData TextSchema TextNode.

Record Level : Type := MkLevel { l_node : Node; l_index : nat; l_offset : nat }.

Record ResolvedPos : Type := MkResolvedPos {
  r_pos : nat;
  r_path : list Level;
  r_parent_offset : nat
}.

Module Resolved.
(** The loop of [resolve] from one node down: the path from this node, and the
offset in the last node of it. *)
Fixpoint resolve_in (node : Node) (parent_offset start : nat) {struct node} :
res (list Level * nat) :=
match node with
| MkNode _ _ (MkFragment children size) _ _ _ =>
'(index, offset) ← Fragment.find_index (MkFragment children size) parent_offset;
rest ← usub parent_offset offset;
let level := MkLevel node index (start + offset) in
if rest =? 0 then Ok ([level], parent_offset)
else
child ← Fragment.child (MkFragment children size) index;
if Node.is_text child then Ok ([level], parent_offset)
else
rest ← usub rest 1;
'(path, last) ← default (Err (IndexOutOfRange index))
(with_nth (fun child => resolve_in child rest (start + (offset + 1))) children index);
Ok (level :: path, last)
end.

Definition resolve (doc : Node) (pos : nat) : res ResolvedPos :=
if f_size (n_content doc) <? pos then Err (PositionOutOfRange pos)
else
'(path, parent_offset) ← resolve_in doc pos 0;
Ok (MkResolvedPos pos path parent_offset).

Definition depth (r : ResolvedPos) : nat := length (r_path r) - 1.

(** [self.path[depth]] panics past the end of the path. *)
Definition level (r : ResolvedPos) (depth : nat) : res Level := or_panic (r_path r !! depth).
Definition node (r : ResolvedPos) (depth : nat) : res Node := l_node <$> level r depth.
Definition index (r : ResolvedPos) (depth : nat) : res nat := l_index <$> level r depth.

Definition parent (r : ResolvedPos) : res Node := node r (depth r).

Definition text_offset (r : ResolvedPos) : res nat :=
last ← level r (depth r); usub (r_pos r) (l_offset last).

Definition index_after (r : ResolvedPos) (d : nat) : res nat :=
index ← index r d;
if d =? depth r then
offset ← text_offset r; Ok (index + if offset =? 0 then 0 else 1)
else Ok (index + 1).

Definition start (r : ResolvedPos) (d : nat) : res nat :=
match d with
| O => Ok 0
| S above => l ← level r above; Ok (l_offset l + 1)
end.

Definition end_ (r : ResolvedPos) (d : nat) : res nat :=
start ← start r d; n ← node r d; Ok (start + f_size (n_content n)).

Definition node_after (r : ResolvedPos) : res (option Node) :=
parent ← parent r;
index ← index r (depth r);
if index =? Node.child_count parent then Ok None
else
offset ← text_offset r;
child ← Fragment.child (n_content parent) index;
if offset =? 0 then Ok (Some child)
else Some <$> node_cut child offset (Node.node_size child).

Definition node_before (r : ResolvedPos) : res (option Node) :=
index ← index r (depth r);
offset ← text_offset r;
if negb (offset =? 0) then
parent ← parent r;
child ← Fragment.child (n_content parent) index;
Some <$> node_cut child 0 offset
else if index =? 0 then Ok None
else parent ← parent r; Some <$> Fragment.child (n_content parent) (index - 1).

(** The deepest level whose node holds both this position and [pos]: the search goes
from [depth] down to 1, and 0 is the answer when none is found. *)
Fixpoint shared_from (r : ResolvedPos) (pos d : nat) : res nat :=
match d with
| O => Ok 0
| S above =>
start ← start r d;
if start <=? pos then
end_ ← end_ r d;
if pos <=? end_ then Ok d else shared_from r pos above
else shared_from r pos above
end.
Definition shared_depth (r : ResolvedPos) (pos : nat) : res nat := shared_from r pos (depth r).
End Resolved.

(** [Node::slice]. *)
Definition node_slice (n : Node) (from to : nat) : res Slice :=
  if from =? to then Ok Slice.empty
  else
    start ← Resolved.resolve n from;
    end_ ← Resolved.resolve n to;
    depth ← Resolved.shared_depth start to;
    node_start ← Resolved.start start depth;
    node ← Resolved.node start depth;
    a ← usub (r_pos start) node_start;
    b ← usub (r_pos end_) node_start;
    content ← Fragment.cut (n_content node) a b;
    open_start ← usub (Resolved.depth start) depth;
    open_end ← usub (Resolved.depth end_) depth;
    Ok (MkSlice content open_start open_end).
