(* ===== verification/TextReplace.v ===== *)
(** [documents/crates/text/src/replace.rs]: a slice takes the place of a range.

    The three walks go down the two paths together.  Their recursion is on the number
    of levels that the left path still has below [depth], [from.depth() - depth], so
    the tests [from.depth() > depth] are the two cases of that number. *)

From S2P Require Import Prelude Json TextData TextSchema TextNode TextResolved.

Section replace.
Variable schema : Schema.

Definition check_join (main sub : Node) : res unit :=
ok ← Schema.compatible_content schema (n_kind sub) (n_kind main);
if ok : bool then Ok () else Err (CannotJoin (n_kind sub) (n_kind main)).

Definition joinable (before after : ResolvedPos) (depth : nat) : res Node :=
node ← Resolved.node before depth;
other ← Resolved.node after depth;
_ ← check_join node other;
Ok node.

Definition add_node (child : Node) (target : list Node) : list Node :=
match last target with
| Some l =>
if Node.is_text child && Node.same_markup child l
then removelast target ++ [Node.joined_text l child]
else target ++ [child]
| None => target ++ [child]
end.

Definition add_option (child : option Node) (target : list Node) : list Node :=
match child with Some child => add_node child target | None => target end.

(** The children from [index] on, [count] of them. *)
Fixpoint add_children (node : Node) (index count : nat) (target : list Node) : res (list Node) :=
match count with
| O => Ok target
| S count =>
child ← Fragment.child (n_content node) index;
add_children node (S index) count (add_node child target)
end.

Definition add_range (start end_ : option ResolvedPos) (depth : nat) (target : list Node) :
res (list Node) :=
match (match end_ with Some any => Some any | None => start end) with
| None => Ok target
| Some any =>
node ← Resolved.node any depth;
end_index ←
match end_ with
| None => Ok (Node.child_count node)
| Some end_ => Resolved.index end_ depth
end;
'(start_index, target) ←
match start with
| None => Ok (0, target)
| Some start =>
index ← Resolved.index start depth;
if depth <? Resolved.depth start then Ok (index + 1, target)
else
offset ← Resolved.text_offset start;
if offset =? 0 then Ok (index, target)
else
after ← Resolved.node_after start;
Ok (index + 1, add_option after target)
end;
target ← add_children node start_index (end_index - start_index) target;
match end_ with
| None => Ok target
| Some end_ =>
if Resolved.depth end_ =? depth then
offset ← Resolved.text_offset end_;
if offset =? 0 then Ok target
else before ← Resolved.node_before end_; Ok (add_option before target)
else Ok target
end
end.

Definition close (node : Node) (content : Fragment) : res Node :=
ok ← Schema.valid_content schema (n_kind node) content;
if ok : bool then Ok (Node.copy node content) else Err (InvalidContent (n_kind node)).

(** [levels] is [from.depth() - depth]. *)
Fixpoint replace_two_way_in (levels : nat) (from to : ResolvedPos) (depth : nat) : res Fragment :=
content ← add_range None (Some from) depth [];
content ←
match levels with
| O => Ok content
| S levels =>
kind ← joinable from to (depth + 1);
inner ← replace_two_way_in levels from to (depth + 1);
closed ← close kind inner;
Ok (add_node closed content)
end;
content ← add_range (Some to) None depth content;
Ok (Fragment.new content).

Definition replace_two_way (from to : ResolvedPos) (depth : nat) : res Fragment :=
replace_two_way_in (Resolved.depth from - depth) from to depth.

Fixpoint replace_three_way_in (levels : nat) (from start end_ to : ResolvedPos) (depth : nat) :
res Fragment :=
open_start ←
match levels with
| O => Ok None
| S _ => Some <$> joinable from start (depth + 1)
end;
open_end ←
(if depth <? Resolved.depth to then Some <$> joinable end_ to (depth + 1) else Ok None);
content ← add_range None (Some from) depth [];
same ←
match open_start, open_end with
| Some _, Some _ =>
s ← Resolved.index start depth; e ← Resolved.index end_ depth; Ok (s =? e)
| _, _ => Ok false
end;
content ←
match levels, open_start, open_end, (same : bool) with
| S levels, Some first, Some last, true =>
_ ← check_join first last;
inner ← replace_three_way_in levels from start end_ to (depth + 1);
closed ← close first inner;
Ok (add_node closed content)
| _, _, _, _ =>
content ←
match open_start with
| Some first =>
inner ← replace_two_way from start (depth + 1);
closed ← close first inner;
Ok (add_node closed content)
| None => Ok content
end;
content ← add_range (Some start) (Some end_) depth content;
match open_end with
| Some last =>
inner ← replace_two_way end_ to (depth + 1);
closed ← close last inner;
Ok (add_node closed content)
| None => Ok content
end
end;
content ← add_range (Some to) None depth content;
Ok (Fragment.new content).

Definition replace_three_way (from start end_ to : ResolvedPos) (depth : nat) : res Fragment :=
replace_three_way_in (Resolved.depth from - depth) from start end_ to depth.

(** [for depth in (0..extra).rev()]: the nodes of the path wrap the slice. *)
Fixpoint wrap (along : ResolvedPos) (extra : nat) (node : Node) : res Node :=
match extra with
| O => Ok node
| S depth =>
outer ← Resolved.node along depth;
wrap along depth (Node.copy outer (Fragment.new [node]))
end.

Definition prepare_slice (slice : Slice) (along : ResolvedPos) : res (ResolvedPos * ResolvedPos) :=
extra ← usub (Resolved.depth along) (s_open_start slice);
node ← Resolved.node along extra;
node ← wrap along extra (Node.copy node (s_content slice));
position ← uadd (s_open_start slice) extra;
start ← Resolved.resolve node position;
open ← uadd (s_open_end slice) extra;
if open <=? f_size (n_content node) then
end_ ← Resolved.resolve node (f_size (n_content node) - open);
Ok (start, end_)
else Err SliceSmaller.

Fixpoint replace_outer_in (levels : nat) (from to : ResolvedPos) (slice : Slice) (depth : nat) :
res Node :=
index ← Resolved.index from depth;
node ← Resolved.node from depth;
to_index ← Resolved.index to depth;
let rest :=
if f_size (s_content slice) =? 0 then
content ← replace_two_way from to depth;
close node content
else if (s_open_start slice =? 0) && (s_open_end slice =? 0) &&
(Resolved.depth from =? depth) && (Resolved.depth to =? depth) then
parent ← Resolved.parent from;
let content := n_content parent in
left ← Fragment.cut content 0 (r_parent_offset from);
right ← Fragment.cut_end content (r_parent_offset to);
close parent (Fragment.append (Fragment.append left (s_content slice)) right)
else
'(start, end_) ← prepare_slice slice from;
content ← replace_three_way from start end_ to depth;
close node content
in
match levels with
| S levels =>
if (index =? to_index) && (depth + s_open_start slice <? Resolved.depth from) then
inner ← replace_outer_in levels from to slice (depth + 1);
content ← Fragment.replace_child (n_content node) index inner;
Ok (Node.copy node content)
else rest
| O => rest
end.

Definition replace_outer (from to : ResolvedPos) (slice : Slice) (depth : nat) : res Node :=
replace_outer_in (Resolved.depth from - depth) from to slice depth.

Definition replace (from to : ResolvedPos) (slice : Slice) : res Node :=
if Resolved.depth from <? s_open_start slice then Err InsertedDeeper
else
left ← uadd (Resolved.depth from) (s_open_end slice);
right ← uadd (Resolved.depth to) (s_open_start slice);
if negb (left =? right) then Err InconsistentDepths
else replace_outer from to slice 0.
End replace.

(** [Node::replace]. *)
Definition node_replace (schema : Schema) (doc : Node) (from to : nat) (slice : Slice) : res Node :=
  from ← Resolved.resolve doc from;
  to ← Resolved.resolve doc to;
  replace schema from to slice.
