(* ===== verification/TextTokens.v ===== *)
(** What a tree text means: the sequence of its tokens.

    A position in a document counts tokens: an open and a close token for a node with
    content, one token for a leaf, one for each UTF-16 unit of text.  [toks] gives the
    tokens of a fragment.  The theorems about steps are stated on this sequence, which
    is the abstract specification of the tree. *)

From S2P Require Import Prelude Json TextData TextSchema TextNode.
Inductive token : Type :=
| TOpen (kind : NodeId) (attrs : Attrs) (marks : list Mark)
| TClose
| TLeaf (n : Node)
| TUnit (kind : NodeId) (attrs : Attrs) (marks : list Mark) (unit : N).

Definition open_token (n : Node) : token := TOpen (n_kind n) (n_attrs n) (n_marks n).

Fixpoint flatten (n : Node) : list token :=
  match n with
  | MkNode kind attrs (MkFragment content _) marks text leaf =>
      match text with
      | Some units => TUnit kind attrs marks <$> units
      | None =>
          if leaf then [TLeaf n]
          else TOpen kind attrs marks :: flat_map flatten content ++ [TClose]
      end
  end.

Definition flat (l : list Node) : list token := flat_map flatten l.
Definition toks (f : Fragment) : list token := flat (f_content f).

(** ** Well-formed trees

    Each kind is in the schema, text is not empty and has the text kind and no content,
    no other node has the text kind, each node knows
    whether its kind is a leaf, and each fragment holds its true size. *)
Section wf.
Variable schema : Schema.

(** [Schema::is_leaf] of a kind in range. *)
Definition leaf_kind (kind : NodeId) : bool :=
match sc_nodes schema !! kind with Some t => nt_content_match t =? EMPTY_MATCH | None => false end.

Fixpoint wf_node (n : Node) : bool :=
match n with
| MkNode kind _ (MkFragment content size) _ text leaf =>
(kind <? length (sc_nodes schema)) &&
match text with
| Some units =>
(kind =? sc_text schema) && negb (length units =? 0) && leaf &&
(length content =? 0) && (size =? 0)
| None =>
negb (kind =? sc_text schema) && eqb leaf (leaf_kind kind) &&
(size =? sum_list_with Node.node_size content) && forallb wf_node content
end
end.

Definition wf_list (l : list Node) : Prop := Forall (fun n => wf_node n = true) l.
Definition wf_fragment (f : Fragment) : Prop :=
f_size f = sum_list_with Node.node_size (f_content f) /\ wf_list (f_content f).
End wf.

Section facts.
Context {schema : Schema}.
Local Abbreviation wfn n := (wf_node schema n = true).
Local Abbreviation wfl l := (wf_list schema l).
Local Abbreviation wff f := (wf_fragment schema f).

Lemma flat_nil : flat [] = [].
Proof. done. Qed.
Lemma flat_cons n l : flat (n :: l) = flatten n ++ flat l.
Proof. done. Qed.
Lemma flat_app l1 l2 : flat (l1 ++ l2) = flat l1 ++ flat l2.
Proof. apply flat_map_app. Qed.
Lemma flat_singleton n : flat [n] = flatten n.
Proof. unfold flat. simpl. apply app_nil_r. Qed.

(** A node of one of three kinds. *)
Lemma wf_node_cases n :
wfn n ->
n_kind n < length (sc_nodes schema) /\
match n_text n with
| Some units =>
n_kind n = sc_text schema /\ units <> [] /\ n_leaf n = true /\
n_content n = empty_fragment
| None => n_kind n <> sc_text schema /\ n_leaf n = leaf_kind schema (n_kind n) /\ wff (n_content n)
end.
Proof.
destruct n as [kind attrs [content size] marks [units|] leaf]; simpl;
rewrite !andb_true_iff, ?Nat.ltb_lt, ?Nat.eqb_eq, ?negb_true_iff, ?Nat.eqb_neq, ?eqb_true_iff.
- intros (? & ((((? & Hu) & ?) & Hc) & ?)). split; [done|]. split; [done|].
split; [|split; [done|]].
+ by destruct units.
+ unfold empty_fragment. apply length_zero_iff_nil in Hc. by subst.
- intros (? & (((? & ?) & ?) & Hc)). split; [done|]. split; [done|]. split; [done|]. split; [done|].
unfold wf_list. apply Forall_forall. intros x Hx.
apply (proj1 (forallb_forall _ _) Hc). by apply list_elem_of_In.
Qed.

Lemma wf_kind n : wfn n -> n_kind n < length (sc_nodes schema).
Proof. intros H. by apply wf_node_cases in H as [? _]. Qed.

Lemma wf_text n units :
wfn n -> n_text n = Some units ->
n_kind n = sc_text schema /\ units <> [] /\ n_leaf n = true /\ n_content n = empty_fragment.
Proof. intros H E. apply wf_node_cases in H as [_ H]. by rewrite E in H. Qed.

Lemma wf_content n : wfn n -> wff (n_content n).
Proof.
intros H. apply wf_node_cases in H as [_ H]. destruct (n_text n).
- destruct H as (_ & _ & _ & ->). split; [done|constructor].
- apply H.
Qed.

Lemma wf_make kind attrs content marks leaf :
kind < length (sc_nodes schema) -> kind <> sc_text schema -> leaf = leaf_kind schema kind -> wff content ->
wfn (MkNode kind attrs content marks None leaf).
Proof.
intros H1 H2 Hl [H3 H4]. destruct content as [content size]. simpl in *.
rewrite !andb_true_iff, Nat.ltb_lt, Nat.eqb_eq, negb_true_iff, Nat.eqb_neq, eqb_true_iff.
split; [done|]. split; [done|]. apply forallb_forall. intros x Hx.
eapply Forall_forall in H4; [done|]. by apply list_elem_of_In.
Qed.

Lemma wf_make_text kind attrs marks units :
kind < length (sc_nodes schema) -> kind = sc_text schema -> units <> [] ->
wfn (MkNode kind attrs empty_fragment marks (Some units) true).
Proof.
intros H1 -> H3. simpl. rewrite !andb_true_iff, Nat.ltb_lt, Nat.eqb_eq.
repeat split; try done. by destruct units.
Qed.

Lemma wf_list_cons n l : wfl (n :: l) <-> wfn n /\ wfl l.
Proof. unfold wf_list. by rewrite Forall_cons. Qed.
Lemma wf_list_app l1 l2 : wfl (l1 ++ l2) <-> wfl l1 /\ wfl l2.
Proof. unfold wf_list. by rewrite Forall_app. Qed.
Lemma wf_list_nil : wfl [].
Proof. constructor. Qed.
Lemma wf_list_lookup l i n : wfl l -> l !! i = Some n -> wfn n.
Proof. intros H E. by eapply Forall_lookup_1 in H. Qed.
Lemma wf_list_take l i : wfl l -> wfl (take i l).
Proof. apply Forall_take. Qed.
Lemma wf_list_drop l i : wfl l -> wfl (drop i l).
Proof. apply Forall_drop. Qed.

Lemma wf_new l : wfl l -> wff (Fragment.new l).
Proof. by split. Qed.

Lemma wf_empty : wff empty_fragment.
Proof. split; [done|constructor]. Qed.

(** *** Sizes count tokens *)

Lemma node_size_flatten n : wfn n -> Node.node_size n = length (flatten n).
Proof.
induction n as [kind attrs content size marks text leaf IH] using node_tree_ind.
intros Hwf. pose proof (wf_content _ Hwf) as [Hs Hl].
unfold Node.node_size. simpl in *. destruct text as [units|].
- by rewrite length_fmap.
- destruct leaf; [done|]. simpl. rewrite length_app. simpl. subst size.
cut (sum_list_with Node.node_size content = length (flat_map flatten content)); [lia|].
clear Hwf. induction content as [|c l IHl]; [done|]. simpl.
apply Forall_cons in IH as [IHc IH]. apply wf_list_cons in Hl as [Hc Hl].
rewrite length_app, <- IHc, IHl by done. done.
Qed.

Lemma sum_size_flat l : wfl l -> sum_list_with Node.node_size l = length (flat l).
Proof.
induction l as [|n l IH]; [done|]. rewrite wf_list_cons, flat_cons, length_app.
intros [? ?]. simpl. by rewrite node_size_flatten, IH.
Qed.

Lemma f_size_toks f : wff f -> f_size f = length (toks f).
Proof. intros [-> H]. by apply sum_size_flat. Qed.

Lemma node_size_pos n : wfn n -> 0 < Node.node_size n.
Proof.
intros H. apply wf_node_cases in H as [_ H]. unfold Node.node_size.
destruct (n_text n) as [units|].
- destruct H as (_ & H & _). destruct units; [done|simpl; lia].
- destruct (n_leaf n); lia.
Qed.

Lemma flatten_text n units :
n_text n = Some units -> flatten n = TUnit (n_kind n) (n_attrs n) (n_marks n) <$> units.
Proof. destruct n as [? ? [] ? ? ?]; simpl. by intros ->. Qed.

Lemma flatten_leaf n : n_text n = None -> n_leaf n = true -> flatten n = [TLeaf n].
Proof. destruct n as [? ? [] ? ? ?]; simpl. by intros -> ->. Qed.

Lemma flatten_inner n :
n_text n = None -> n_leaf n = false ->
flatten n = open_token n :: toks (n_content n) ++ [TClose].
Proof. destruct n as [? ? [] ? ? ?]; simpl. by intros -> ->. Qed.

Lemma is_text_true n : Node.is_text n = true <-> exists units, n_text n = Some units.
Proof. unfold Node.is_text. destruct (n_text n); naive_solver. Qed.
Lemma is_text_false n : Node.is_text n = false <-> n_text n = None.
Proof. unfold Node.is_text. destruct (n_text n); naive_solver. Qed.

(** *** Copies *)

Lemma flatten_copy n f :
n_text n = None -> n_leaf n = false ->
flatten (Node.copy n f) = open_token n :: toks f ++ [TClose].
Proof. intros H1 H2. rewrite flatten_inner; done. Qed.

Lemma wf_copy n f : wfn n -> n_text n = None -> wff f -> wfn (Node.copy n f).
Proof.
intros H E Hf. apply wf_node_cases in H as [Hk H]. rewrite E in H.
unfold Node.copy. rewrite E. apply wf_make; naive_solver.
Qed.

Lemma flatten_with_units n units :
flatten (Node.with_units n units) = TUnit (n_kind n) (n_attrs n) (n_marks n) <$> units.
Proof. done. Qed.

(** *** Text that joins *)

Lemma same_markup_true a b :
Node.same_markup a b = true <->
n_kind a = n_kind b /\ n_attrs a = n_attrs b /\ n_marks a = n_marks b.
Proof. unfold Node.same_markup. rewrite !andb_true_iff, !bool_decide_eq_true. tauto. Qed.

Lemma same_markup_sym a b : Node.same_markup a b = Node.same_markup b a.
Proof. apply eq_true_iff_eq. rewrite !same_markup_true. naive_solver. Qed.

(** Text joins only with text, because only text has the text kind. *)
Lemma same_markup_text a b :
wfn a -> wfn b -> Node.is_text a = true -> Node.same_markup a b = true ->
Node.is_text b = true.
Proof.
intros Ha Hb [units Ht]%is_text_true (Hk & _ & _)%same_markup_true.
apply wf_text with (units := units) in Ha as (Ha & _); [|done].
apply wf_node_cases in Hb as [_ Hb]. unfold Node.is_text.
destruct (n_text b); [done|]. destruct Hb. congruence.
Qed.

Lemma joined_flatten a b :
wfn a -> wfn b -> Node.is_text a = true -> Node.same_markup a b = true ->
flatten (Node.joined_text a b) = flatten a ++ flatten b.
Proof.
intros Ha Hb Hta Hm. pose proof (same_markup_text a b Ha Hb Hta Hm) as Htb.
apply is_text_true in Hta as [ua Ea]. apply is_text_true in Htb as [ub Eb].
apply same_markup_true in Hm as (H1 & H2 & H3).
unfold Node.joined_text, Node.units_or_default. rewrite Ea, Eb. simpl.
rewrite fmap_app, (flatten_text a ua), (flatten_text b ub) by done.
by rewrite H1, H2, H3.
Qed.

Lemma joined_wf a b :
wfn a -> wfn b -> Node.is_text a = true -> wfn (Node.joined_text a b).
Proof.
intros Ha Hb [ua Ea]%is_text_true. pose proof (wf_kind _ Ha).
apply wf_text with (units := ua) in Ha as (? & Hu & _); [|done].
unfold Node.joined_text, Node.with_units. apply wf_make_text; [done|done|].
unfold Node.units_or_default. rewrite Ea. by destruct ua.
Qed.
End facts.

#[export] Hint Resolve wf_list_nil wf_empty wf_new wf_list_take wf_list_drop wf_content : kodosi.

#[global] Arguments flat : simpl never.
#[global] Arguments toks : simpl never.
#[global] Arguments flatten : simpl never.
#[global] Arguments wf_node : simpl never.
#[export] Hint Resolve wf_list_nil wf_empty : core.

(* ------------------------------------------------------------ *)

(** What the fragment operations of [documents/crates/text/src/node.rs] do to the
    tokens: joins keep them, [find_index] finds the child at a position, and [cut]
    keeps the tokens between two positions and closes what stays open. *)

Section fragment.
Context {schema : Schema}.
Local Abbreviation wfn n := (wf_node schema n = true).
Local Abbreviation wfl l := (wf_list schema l).
Local Abbreviation wff f := (wf_fragment schema f).

(** ** Joins *)

Lemma toks_new l : toks (Fragment.new l) = flat l.
Proof. done. Qed.

Lemma join_onto_spec node joined :
wfn node -> wfl joined ->
flat (rev (Fragment.join_onto node joined)) = flat (rev joined) ++ flatten node /\
wfl (Fragment.join_onto node joined).
Proof.
intros Hn Hj. destruct joined as [|l before]; simpl.
{ rewrite flat_singleton. split; [done|]. by apply wf_list_cons. }
apply wf_list_cons in Hj as [Hl Hb].
destruct (Node.is_text node && Node.same_markup l node) eqn:E; simpl.
- apply andb_true_iff in E as [Ht Hm].
assert (Htl : Node.is_text l = true).
{ rewrite same_markup_sym in Hm. exact (same_markup_text node l Hn Hl Ht Hm). }
rewrite !flat_app, !flat_singleton, (joined_flatten (schema:=schema)) by done.
rewrite <- app_assoc. split; [done|].
apply wf_list_cons. split; [|done]. by apply joined_wf.
- rewrite !flat_app, !flat_singleton. split; [done|]. by rewrite !wf_list_cons.
Qed.

Lemma from_array_spec nodes :
wfl nodes ->
toks (Fragment.from_array nodes) = flat nodes /\ wff (Fragment.from_array nodes).
Proof.
intros Hw. unfold Fragment.from_array.
assert (H : forall joined, wfl joined ->
let l := foldl (fun joined node => Fragment.join_onto node joined) joined nodes in
flat (rev l) = flat (rev joined) ++ flat nodes /\ wfl l).
{ induction nodes as [|n l IH]; intros joined Hj; simpl.
- by rewrite flat_nil, app_nil_r.
- apply wf_list_cons in Hw as [Hn Hl].
destruct (join_onto_spec n joined) as [E Hj']; [done|done|].
destruct (IH Hl _ Hj') as [E2 Hl2]. split; [|done].
by rewrite E2, E, flat_cons, app_assoc. }
destruct (H [] wf_list_nil) as [E Hl]. rewrite toks_new. simpl in *.
split; [done|]. apply wf_new. by apply Forall_rev.
Qed.

Lemma toks_zero f : wff f -> f_size f = 0 -> f_content f = [].
Proof.
intros [Hs Hl] Hz. rewrite Hs in Hz. destruct (f_content f) as [|n l]; [done|].
apply wf_list_cons in Hl as [Hn _]. apply node_size_pos in Hn. simpl in Hz. lia.
Qed.

Lemma toks_nil f : wff f -> f_size f = 0 -> toks f = [].
Proof. intros H1 H2. unfold toks. by rewrite (toks_zero f). Qed.

Lemma append_spec f other :
wff f -> wff other ->
toks (Fragment.append f other) = toks f ++ toks other /\ wff (Fragment.append f other).
Proof.
intros Hf Ho. unfold Fragment.append.
destruct (Nat.eqb_spec (f_size other) 0) as [E|_].
{ by rewrite (toks_nil other), app_nil_r. }
destruct (Nat.eqb_spec (f_size f) 0) as [E|_].
{ by rewrite (toks_nil f). }
destruct Hf as [Hfs Hfl], Ho as [Hos Hol].
set (plain := f_content f ++ f_content other).
assert (Hplain : flat plain = toks f ++ toks other /\ wfl plain).
{ split; [apply flat_app|by apply wf_list_app]. }
assert (Hgoal : forall content, flat content = toks f ++ toks other -> wfl content ->
toks (MkFragment content (f_size f + f_size other)) = toks f ++ toks other /\
wff (MkFragment content (f_size f + f_size other))).
{ intros content Hc Hw. split; [done|]. split; [|done]. simpl.
rewrite (sum_size_flat (schema:=schema)) by done. rewrite Hc, length_app.
rewrite Hfs, Hos, !(sum_size_flat (schema:=schema)) by done. done. }
destruct (last (f_content f)) as [l|] eqn:El; [|apply Hgoal; apply Hplain].
destruct (f_content other) as [|first rest] eqn:Eo; [apply Hgoal; apply Hplain|].
destruct (Node.is_text l && Node.same_markup l first) eqn:E; [|apply Hgoal; apply Hplain].
apply andb_true_iff in E as [Ht Hm].
apply last_Some in El as [before Ef]. rewrite Ef in *.
apply wf_list_app in Hfl as [Hb Hl]. apply wf_list_cons in Hl as [Hl _].
apply wf_list_cons in Hol as [Hfirst Hrest].
rewrite removelast_last. apply Hgoal.
- unfold toks. rewrite Ef, Eo, !flat_app, !flat_cons, flat_nil, app_nil_r.
rewrite (joined_flatten (schema:=schema)) by done. by rewrite <- !app_assoc.
- apply wf_list_app. split; [done|]. apply wf_list_cons. split; [|done].
by apply joined_wf.
Qed.

Lemma replace_child_spec f index node f' :
wff f -> wfn node -> Fragment.replace_child f index node = Ok f' ->
wff f' /\ toks f' = flat (take index (f_content f)) ++ flatten node
++ flat (drop (S index) (f_content f)) /\
f_content f' = <[index := node]> (f_content f).
Proof.
intros [Hs Hl] Hn. unfold Fragment.replace_child.
destruct (f_content f !! index) as [current|] eqn:E; [|done]. intros H. inv_ok.
assert (index < length (f_content f)) by by eapply lookup_lt_Some.
assert (Hins : <[index := node]> (f_content f) =
take index (f_content f) ++ node :: drop (S index) (f_content f)).
{ by rewrite insert_take_drop. }
split; [split|split]; simpl.
- rewrite Hs, Hins, (sum_list_with_lookup _ _ _ _ E), sum_list_with_app. simpl. lia.
- rewrite Hins. apply wf_list_app. split; [auto with kodosi|].
apply wf_list_cons. auto with kodosi.
- unfold toks. simpl. rewrite Hins, flat_app, flat_cons. done.
- done.
Qed.

Lemma safe_replace_child f index node :
wff f -> safe (Fragment.replace_child f index node).
Proof.
intros [Hs Hl]. unfold Fragment.replace_child.
destruct (f_content f !! index) as [current|] eqn:E; [|done].
apply safe_bind; [|done]. apply safe_usub.
rewrite Hs, (sum_list_with_lookup _ _ _ _ E). lia.
Qed.

(** ** [find_index] *)

(** [index] is the child at [position], which starts at [offset]. *)
Definition found (content : list Node) (position index offset : nat) : Prop :=
offset = length (flat (take index content)) /\ index <= length content /\
(offset = position \/
exists c, content !! index = Some c /\ offset < position < offset + Node.node_size c).

Lemma find_loop_spec all before content position :
all = before ++ content -> wfl all ->
length (flat before) <= position -> (length (flat before) = position -> before = []) ->
0 < position <= length (flat all) ->
exists index offset,
Fragment.find_loop content (length before) (length (flat before)) position = Ok (index, offset)
/\ found all position index offset.
Proof.
intros Hall Hw. revert before Hall.
induction content as [|c content IH]; intros before Hall Hb Hne Hp; simpl.
- subst all. rewrite app_nil_r in Hp.
destruct (decide (length (flat before) = position)) as [E|]; [|lia].
rewrite (Hne E) in E. simpl in E. lia.
- assert (Hlook : all !! length before = Some c).
{ subst all. by rewrite lookup_app_r, Nat.sub_diag by lia. }
assert (Hc : wfn c) by by eapply wf_list_lookup.
assert (Hoff : length (flat before) + Node.node_size c = length (flat (before ++ [c]))).
{ by rewrite flat_app, length_app, flat_singleton, (node_size_flatten (schema:=schema)). }
assert (Htake : take (length before) all = before).
{ subst all. by rewrite take_app_length. }
assert (Hlen : length before < length all) by by eapply lookup_lt_Some.
destruct (Nat.leb_spec position (length (flat before) + Node.node_size c)).
+ destruct (Nat.eqb_spec (length (flat before) + Node.node_size c) position) as [E|E].
* do 2 eexists. split; [done|]. split; [|split; [lia|by left]].
erewrite take_S_r by done. by rewrite Htake.
* do 2 eexists. split; [done|]. split; [by rewrite Htake|split; [lia|]].
destruct (decide (length (flat before) = position)) as [E2|]; [by left|].
right. exists c. split; [done|]. lia.
+ rewrite Hoff. specialize (IH (before ++ [c])). rewrite length_app in IH. simpl in IH.
replace (S (length before)) with (length before + 1) by lia.
apply IH; [by rewrite <- app_assoc|lia|lia|lia].
Qed.

Lemma find_index_spec f position :
wff f -> position <= f_size f ->
exists index offset, Fragment.find_index f position = Ok (index, offset)
/\ found (f_content f) position index offset.
Proof.
intros Hf Hp. pose proof (f_size_toks _ Hf) as Hsize. destruct Hf as [Hs Hl].
unfold Fragment.find_index.
destruct (Nat.eqb_spec position 0) as [->|].
{ exists 0, 0. split; [done|]. split; [done|]. split; [lia|by left]. }
destruct (Nat.eqb_spec position (f_size f)) as [->|].
{ do 2 eexists. split; [done|]. split; [|split; [lia|by left]].
by rewrite take_ge, Hsize by lia. }
rewrite (proj2 (Nat.ltb_ge _ _)) by lia.
apply (find_loop_spec (f_content f) []); simpl; [done|done|lia|lia|].
unfold toks in Hsize. lia.
Qed.

Lemma find_index_outside f position :
f_size f < position -> 0 < position -> Fragment.find_index f position = Err (PositionOutsideFragment position).
Proof.
intros H1 H2. unfold Fragment.find_index.
rewrite (proj2 (Nat.eqb_neq _ _)) by lia. rewrite (proj2 (Nat.eqb_neq _ _)) by lia.
by rewrite (proj2 (Nat.ltb_lt _ _)) by lia.
Qed.

Lemma find_index_ok f position index offset :
wff f -> Fragment.find_index f position = Ok (index, offset) ->
position <= f_size f /\ found (f_content f) position index offset.
Proof.
intros Hf E. assert (Hp : position <= f_size f).
{ destruct (decide (position <= f_size f)); [done|].
rewrite find_index_outside in E by lia. done. }
split; [done|]. destruct (find_index_spec f position) as (i & o & E2 & H); [done|done|].
rewrite E in E2. by injection E2 as -> ->.
Qed.

Lemma safe_find_index f position : wff f -> safe (Fragment.find_index f position).
Proof.
intros Hf. destruct (decide (position <= f_size f)).
- destruct (find_index_spec f position) as (i & o & -> & _); done.
- rewrite find_index_outside by lia. done.
Qed.

Lemma found_le content position index offset : found content position index offset -> offset <= position.
Proof. intros (_ & _ & [->|(c & _ & ?)]); lia. Qed.
End fragment.
