(* ===== verification/TextCut.v ===== *)
(** [Fragment::cut] in tokens.

    A cut keeps the tokens between its two positions.  It also keeps the nodes that
    are open at its start, so their open tokens come first, and it closes the nodes
    that are open at its end. *)

From S2P Require Import Prelude Json TextData TextSchema TextNode TextResolved TextTokens.
(** The open tokens that no close token of the sequence matches, innermost first. *)
Fixpoint pend (l stack : list token) : list token :=
  match l with
  | [] => stack
  | TOpen k a m :: l => pend l (TOpen k a m :: stack)
  | TClose :: l => pend l (tail stack)
  | _ :: l => pend l stack
  end.

Definition pending (l : list token) : list token := pend l [].

(** The tokens of a cut from [a] to [b]. *)
Definition cut_tokens (a b : nat) (l : list token) : list token :=
  rev (pending (take a l)) ++ drop a (take b l) ++
  replicate (length (pending (take b l))) TClose.

Lemma pend_app l1 l2 st : pend (l1 ++ l2) st = pend l2 (pend l1 st).
Proof. revert st. induction l1 as [|[] l1 IH]; intros st; simpl; auto. Qed.

Section cut.
Context {schema : Schema}.
Local Abbreviation wfn n := (wf_node schema n = true).
Local Abbreviation wfl l := (wf_list schema l).
Local Abbreviation wff f := (wf_fragment schema f).

Lemma pend_units k a m units st : pend (TUnit k a m <$> units) st = st.
Proof. induction units; simpl; auto. Qed.

(** A prefix of a forest never closes a node that it did not open. *)
Lemma pend_node_list :
(forall n, wfn n -> (forall st, pend (flatten n) st = st) /\
(forall k st, pend (take k (flatten n)) st = pend (take k (flatten n)) [] ++ st)).
Proof.
intros n. induction n as [kind attrs content size marks text leaf IH] using node_tree_ind.
intros Hwf. pose proof (wf_content _ Hwf) as [_ Hl]. simpl in Hl.
assert (Hlist : (forall st, pend (flat content) st = st) /\
(forall k st, pend (take k (flat content)) st = pend (take k (flat content)) [] ++ st)).
{ clear Hwf. induction content as [|c l IHl]; [by split; intros; rewrite flat_nil, ?take_nil|].
apply Forall_cons in IH as [IHc IH]. apply wf_list_cons in Hl as [Hc Hl].
destruct (IHc Hc) as [Hc1 Hc2], (IHl IH Hl) as [Hl1 Hl2]. rewrite flat_cons.
split; intros; [by rewrite pend_app, Hc1|].
rewrite !take_app, !pend_app. destruct (decide (k <= length (flatten c))) as [Hk|Hk].
- replace (k - length (flatten c)) with 0 by lia. simpl. apply Hc2.
- rewrite (take_ge (flatten c)) by lia. rewrite !Hc1. apply Hl2. }
destruct Hlist as [H1 H2].
destruct text as [units|].
{ rewrite (flatten_text _ units) by done. split; intros; [apply pend_units|].
by rewrite <- fmap_take, !pend_units. }
destruct leaf.
{ rewrite flatten_leaf by done. split; intros; [done|]. by destruct k as [|[|k]]. }
rewrite flatten_inner by done. unfold toks, open_token. simpl.
split; intros; [by rewrite pend_app, H1|].
destruct k as [|k]; [done|]. simpl. rewrite take_app, !pend_app.
rewrite (H2 k (_ :: st)), (H2 k [_]).
destruct (decide (k <= length (flat content))) as [Hk|Hk].
- replace (k - length (flat content)) with 0 by lia. simpl. by rewrite <- app_assoc.
- rewrite (take_ge (flat content)) by lia. rewrite H1. simpl.
rewrite take_ge by (simpl; lia). done.
Qed.

Lemma pending_flatten n st : wfn n -> pend (flatten n) st = st.
Proof. intros H. by apply pend_node_list. Qed.

Lemma pend_flat l st : wfl l -> pend (flat l) st = st.
Proof.
induction l as [|n l IH]; intros H; [done|]. apply wf_list_cons in H as [? ?].
rewrite flat_cons, pend_app, pending_flatten by done. auto.
Qed.

Lemma pend_take_flat l k st :
wfl l -> pend (take k (flat l)) st = pending (take k (flat l)) ++ st.
Proof.
unfold pending. revert k. induction l as [|n l IH]; intros k H.
{ by rewrite flat_nil, take_nil. }
apply wf_list_cons in H as [Hn Hl]. rewrite flat_cons, !take_app, !pend_app.
destruct (pend_node_list n Hn) as [H1 H2].
destruct (decide (k <= length (flatten n))) as [Hk|Hk].
- replace (k - length (flatten n)) with 0 by lia. simpl. apply H2.
- rewrite (take_ge (flatten n)) by lia. rewrite !H1. by apply IH.
Qed.

(** *** Cuts of one node *)

Lemma cut_tokens_all l n : pending l = [] -> length l <= n -> cut_tokens 0 n l = l.
Proof.
intros Hp Hn. unfold cut_tokens. rewrite (take_ge l n) by lia. rewrite Hp. simpl.
by rewrite drop_0, app_nil_r.
Qed.

Lemma cut_tokens_units k a m units from to :
cut_tokens from to (TUnit k a m <$> units) = TUnit k a m <$> drop from (take to units).
Proof.
unfold cut_tokens, pending. rewrite <- !fmap_take, !pend_units. simpl.
by rewrite app_nil_r, fmap_drop.
Qed.

(** The tokens of a node that a cut opens: the cut of its content, in its pair. *)
Lemma cut_tokens_inner n a b :
wfn n -> n_text n = None -> n_leaf n = false ->
a < b -> a < length (flatten n) ->
let size := length (toks (n_content n)) in
cut_tokens a b (flatten n) =
open_token n ::
(if (a - 1 <? Nat.min size (b - 1))
then cut_tokens (a - 1) (Nat.min size (b - 1)) (toks (n_content n)) else [])
++ [TClose].
Proof.
intros Hwf Ht Hlf Hab Ha size. pose proof (wf_content _ Hwf) as [_ Hl].
rewrite flatten_inner in * by done. simpl in Ha. rewrite length_app in Ha. simpl in Ha.
set (C := toks (n_content n)) in *. change (length C) with size in Ha.
assert (HC : forall st, pend C st = st) by (intros; by apply pend_flat).
assert (Hpre : forall k st, pend (take k C) st = pending (take k C) ++ st)
by (intros; by apply pend_take_flat).
assert (Hopen : forall k, k <= size ->
pending (take (S k) (open_token n :: C ++ [TClose])) = pending (take k C) ++ [open_token n]).
{ intros k Hk. unfold pending at 1. simpl. rewrite take_app_le by (fold size; lia). apply Hpre. }
assert (Hshut : forall k, S size <= k ->
pending (take (S k) (open_token n :: C ++ [TClose])) = []).
{ intros k Hk. unfold pending. simpl. rewrite take_ge by (rewrite length_app; fold size; simpl; lia).
rewrite pend_app, HC. done. }
destruct b as [|b]; [lia|]. replace (S b - 1) with b by lia.
unfold cut_tokens.
assert (exists full, full = (S size <=? b)) as [full Hfull] by eauto.
assert (Hfull' : if full then S size <= b else b < S size)
by (subst full; by destruct (Nat.leb_spec (S size) b)).
assert (Hend : forall x, replicate (length (pending (take (S b) (open_token n :: C ++ [TClose])))) TClose
= (if full then [] else replicate (length (pending (take (Nat.min size b) C))) TClose ++ [TClose])
/\ drop x (take b (C ++ [TClose])) =
drop x (take (Nat.min size b) C ++ if full then [TClose] else [])).
{ intros x. destruct full.
- rewrite Hshut by lia. split; [done|].
rewrite Nat.min_l, (take_ge C) by (fold size; lia).
by rewrite take_ge by (rewrite length_app; fold size; simpl; lia).
- rewrite Hopen, length_app, replicate_add, Nat.min_r by lia. split; [done|].
rewrite take_app_le by (fold size; lia). by rewrite app_nil_r. }
assert (Hrest : forall l, (l ++ if full then [TClose] else []) ++
(if full then [] else replicate (length (pending (take (Nat.min size b) C))) TClose ++ [TClose])
= l ++ replicate (length (pending (take (Nat.min size b) C))) TClose ++ [TClose]).
{ intros l. rewrite <- app_assoc. destruct full; [|done].
rewrite Nat.min_l, (take_ge C) by (fold size; lia). unfold pending. by rewrite HC. }
clear Hfull. destruct a as [|a].
- destruct (Hend 0) as [E1 E2]. rewrite E1. rewrite !drop_0 in E2. rewrite drop_0.
change (take (S b) (open_token n :: C ++ [TClose]))
with (open_token n :: take b (C ++ [TClose])). rewrite E2.
rewrite <- app_comm_cons, Hrest. change (rev (pending (take 0 (open_token n :: C ++ [TClose])))) with (@nil token).
rewrite app_nil_l. f_equal. change (0 - 1) with 0. rewrite drop_0.
change (rev (pending (take 0 C))) with (@nil token). rewrite app_nil_l.
destruct (Nat.ltb_spec 0 (Nat.min size b)) as [|E]; [by rewrite <- app_assoc|].
apply Nat.le_0_r in E. rewrite E. done.
- replace (S a - 1) with a by lia.
destruct (Hend a) as [E1 E2]. rewrite E1.
change (drop (S a) (take (S b) (open_token n :: C ++ [TClose])))
with (drop a (take b (C ++ [TClose]))). rewrite E2.
rewrite Hopen by lia. rewrite rev_app_distr. rewrite <- app_assoc. simpl. f_equal.
destruct (Nat.ltb_spec a (Nat.min size b)).
+ rewrite drop_app_le by (rewrite length_take; fold size; lia).
rewrite Hrest. by rewrite <- !app_assoc.
+ destruct full; [|lia]. assert (a = size) as -> by lia.
rewrite Nat.min_l, (take_ge C) by (fold size; lia). unfold pending. rewrite HC. simpl.
by rewrite drop_app_exact.
Qed.

(** *** The cut of a fragment *)

Definition cut_ok (f : Fragment) : Prop :=
forall from to g, wff f -> from < to -> Fragment.cut f from to = Ok g ->
wff g /\ toks g = cut_tokens from to (toks f).

(** The cut of one child that a boundary may cross. *)
Lemma cut_node_spec n from to n' :
wfn n -> cut_ok (n_content n) -> from < length (flatten n) -> from < to ->
(match n_text n with
| Some text => node_cut n from (Nat.min (length text) to)
| None => node_cut n (from - 1) (Nat.min (f_size (n_content n)) (to - 1))
end) = Ok n' ->
n_leaf n = false \/ is_Some (n_text n) ->
wfn n' /\ flatten n' = cut_tokens from to (flatten n).
Proof.
intros Hwf IH Hf Hft Hcut Hkind.
unfold node_cut, Fragment.cut_node_with in Hcut.
destruct (n_text n) as [units|] eqn:Et.
- rewrite (flatten_text n units Et) in *. rewrite length_fmap in Hf.
rewrite cut_tokens_units.
destruct (_ && _) eqn:Ef in Hcut.
+ apply andb_true_iff in Ef as [->%Nat.eqb_eq Ef%Nat.eqb_eq]. inv_ok.
split; [done|]. rewrite (flatten_text n' units Et), drop_0.
by rewrite take_ge by lia.
+ clear Ef. destruct (_ && _) eqn:Er in Hcut; [|done].
apply andb_true_iff in Er as [Er%Nat.leb_le _]. inv_ok.
pose proof (wf_kind _ Hwf). apply wf_text with (units := units) in Hwf as (? & ? & _ & _); [|done].
split.
* apply wf_make_text; [done|done|]. intros E%(f_equal length).
rewrite length_take, length_drop in E. simpl in E. lia.
* rewrite flatten_with_units. f_equal.
rewrite take_drop_commute. f_equal.
destruct (decide (to <= length units)); [f_equal; lia|].
rewrite !take_ge by lia. done.
- assert (Hlf : n_leaf n = false) by (destruct Hkind as [|[]]; done).
pose proof (wf_content _ Hwf) as Hc. pose proof (f_size_toks _ Hc) as Hsize.
rewrite (cut_tokens_inner n from to) by done. rewrite <- Hsize.
destruct (_ && _) eqn:Ef in Hcut.
+ apply andb_true_iff in Ef as [Ef%Nat.eqb_eq Et2%Nat.eqb_eq]. inv_ok.
split; [done|]. rewrite flatten_inner, Ef, Et2 by done. do 2 f_equal.
destruct (Nat.ltb_spec 0 (f_size (n_content n'))).
* rewrite cut_tokens_all; [done|by apply pend_flat, Hc|lia].
* apply (toks_nil (schema:=schema)); [done|lia].
+ inv_ok. destruct (Nat.ltb_spec (from - 1) (Nat.min (f_size (n_content n)) (to - 1))).
* apply IH in E as [Hw E]; [|done|lia]. split; [by apply wf_copy|].
by rewrite flatten_copy, E.
* destruct (n_content n) as [content size]. simpl in *.
rewrite Ef, (proj2 (Nat.ltb_ge _ _)) in E by lia. inv_ok.
split; [apply wf_copy; auto with kodosi|]. by rewrite flatten_copy.
Qed.

Lemma cut_tokens_app n T a b :
wfn n -> let F := flatten n in
a < length F ->
cut_tokens a b (F ++ T) = cut_tokens a b F ++ cut_tokens 0 (b - length F) T.
Proof.
intros Hwf F Ha. assert (HF : forall st, pend F st = st) by (intros; by apply pending_flatten).
clearbody F. unfold cut_tokens, pending.
rewrite (take_app_le F T a) by lia. rewrite <- !app_assoc. f_equal.
rewrite take_app, pend_app. change (pend (take 0 T) []) with (@nil token).
rewrite drop_0. destruct (Nat.le_gt_cases (length F) b) as [Hb|Hb].
- rewrite (take_ge F), !HF by lia. rewrite drop_app_le by lia. by rewrite <- !app_assoc.
- replace (b - length F) with 0 by lia. simpl. by rewrite !app_nil_r.
Qed.

Lemma cut_tokens_skip n T a b :
wfn n -> let F := flatten n in
length F <= a -> a < b ->
cut_tokens a b (F ++ T) = cut_tokens (a - length F) (b - length F) T.
Proof.
intros Hwf F Ha Hb. assert (HF : forall st, pend F st = st) by (intros; by apply pending_flatten).
clearbody F. unfold cut_tokens, pending.
rewrite !take_app, (take_ge F a), (take_ge F b), !pend_app, !HF by lia.
by rewrite drop_app, (drop_ge F) by lia.
Qed.

Lemma cut_loop_spec content : forall from to position result size stop,
Forall (fun n => cut_ok (n_content n)) content -> wfl content -> from < to ->
Fragment.cut_loop node_cut from to content position = Ok (result, size, stop) ->
wfl result /\ size = sum_list_with Node.node_size result /\
flat result = cut_tokens (from - position) (to - position) (flat content).
Proof.
induction content as [|c l IHl]; intros from to position result size stop IH Hwf Hft; simpl.
{ intros ?. inv_ok. split; [constructor|]. split; [done|].
unfold cut_tokens. by rewrite flat_nil, !take_nil, drop_nil. }
apply Forall_cons in IH as [IHc IH]. apply wf_list_cons in Hwf as [Hc Hl].
pose proof (node_size_flatten c Hc) as Hn. pose proof (node_size_pos c Hc) as Hpos.
destruct (Nat.leb_spec to position).
{ replace (to - position) with 0 by lia. replace (from - position) with 0 by lia.
intros ?. inv_ok. by split; [constructor|]. }
rewrite flat_cons. destruct (Nat.ltb_spec from (position + Node.node_size c)).
- intros ?. inv_ok. rename a into c'. destruct a0 as [[result' size'] stop']. inv_ok.
destruct (IHl _ _ _ _ _ _ IH Hl Hft E0) as (Hw & Hs & Hflat).
cut (wfn c' /\ flatten c' = cut_tokens (from - position) (to - position) (flatten c)).
{ intros [Hc' Ec']. split; [by apply wf_list_cons|]. split; [simpl; lia|].
rewrite cut_tokens_app by (done || lia). rewrite flat_cons, Ec', Hflat, <- Hn.
do 2 f_equal; lia. }
unfold Fragment.cut_child in E. destruct (_ || _) eqn:Ecut.
+ apply cut_node_spec; try done; try lia.
* destruct (n_text c); [done|].
replace (from - position - 1) with (from - (position + 1)) by lia.
by replace (to - position - 1) with (to - (position + 1)) by lia.
* destruct (n_text c) eqn:Et; [by right|]. left.
destruct (n_leaf c) eqn:El; [|done]. exfalso.
unfold Node.node_size in *. rewrite Et, El in *.
apply orb_true_iff in Ecut. rewrite !Nat.ltb_lt in Ecut. lia.
+ apply orb_false_iff in Ecut. rewrite !Nat.ltb_ge in Ecut. inv_ok.
split; [done|]. replace (from - position) with 0 by lia.
rewrite cut_tokens_all; [done|by apply pending_flatten|lia].
- intros Hloop. destruct (IHl _ _ _ _ _ _ IH Hl Hft Hloop) as (Hw & Hs & Hflat).
split; [done|]. split; [done|]. rewrite cut_tokens_skip by (done || lia).
rewrite Hflat. f_equal; lia.
Qed.

Lemma cut_spec f : cut_ok f.
Proof.
induction f as [content size IH] using fragment_ind.
intros from to g Hf Hft. simpl. pose proof (f_size_toks _ Hf) as Hsize. simpl in Hsize.
destruct (_ && _) eqn:E.
{ apply andb_true_iff in E as [->%Nat.eqb_eq ->%Nat.eqb_eq]. intros. inv_ok.
split; [done|]. rewrite cut_tokens_all; [done|by apply pend_flat, Hf|lia]. }
rewrite (proj2 (Nat.ltb_lt _ _)) by done. intros H. inv_ok.
destruct a as [[result size'] stop]. destruct (stop <? to); [done|]. inv_ok.
apply cut_loop_spec in E0 as (Hw & -> & Hflat); [|done|by apply Hf|done].
rewrite !Nat.sub_0_r in Hflat. by split.
Qed.
(** *** A cut inside the fragment succeeds *)

Definition cut_succeeds (f : Fragment) : Prop :=
forall from to, wff f -> from <= to <= f_size f -> exists g, Fragment.cut f from to = Ok g.

Lemma node_cut_succeeds n from to :
wfn n -> cut_succeeds (n_content n) ->
match n_text n with
| Some text => from <= to <= length text
| None => from <= to <= f_size (n_content n)
end ->
exists n', node_cut n from to = Ok n'.
Proof.
intros Hwf IH H. unfold node_cut, Fragment.cut_node_with.
destruct (n_text n) as [text|].
- destruct (_ && _); [eauto|]. rewrite !(proj2 (Nat.leb_le _ _)) by lia. simpl. eauto.
- destruct (_ && _); [eauto|].
destruct (IH from to) as [g ->]; [by apply wf_content|done|]. simpl. eauto.
Qed.

Lemma cut_child_succeeds c from to position :
wfn c -> cut_succeeds (n_content c) -> from < to ->
from < position + Node.node_size c -> position < to ->
exists c', Fragment.cut_child node_cut from to c position = Ok c'.
Proof.
intros Hc IH Hft Hf Ht. unfold Fragment.cut_child, Node.node_size in *.
destruct (_ || _) eqn:E; [|eauto].
apply orb_true_iff in E. rewrite !Nat.ltb_lt in E.
destruct (n_text c) as [text|] eqn:Et.
- apply node_cut_succeeds; [done|done|]. rewrite Et. lia.
- destruct (n_leaf c) eqn:El; [lia|].
apply node_cut_succeeds; [done|done|]. rewrite Et. lia.
Qed.

Lemma cut_loop_succeeds content : forall from to position,
Forall (fun n => cut_succeeds (n_content n)) content -> wfl content -> from < to ->
to <= position + sum_list_with Node.node_size content ->
exists result size stop,
Fragment.cut_loop node_cut from to content position = Ok (result, size, stop) /\ to <= stop.
Proof.
induction content as [|c l IHl]; intros from to position IH Hwf Hft Hto; simpl in *.
{ do 3 eexists. split; [done|lia]. }
apply Forall_cons in IH as [IHc IH]. apply wf_list_cons in Hwf as [Hc Hl].
destruct (Nat.leb_spec to position). { do 3 eexists. split; [done|lia]. }
destruct (IHl from to (position + Node.node_size c) IH Hl Hft) as (r & s & stop & E & ?); [lia|].
destruct (Nat.ltb_spec from (position + Node.node_size c)); [|eauto 10].
destruct (cut_child_succeeds c from to position) as [c' ->]; try done.
simpl. rewrite E. simpl. eauto 10.
Qed.

Lemma cut_total f : cut_succeeds f.
Proof.
induction f as [content size IH] using fragment_ind.
intros from to [Hs Hl] Hft. simpl in *. destruct (_ && _); [eauto|].
destruct (Nat.ltb_spec from to); [|eauto].
destruct (cut_loop_succeeds content from to 0) as (r & s & stop & E & ?); try done; [lia|].
change (Fragment.cut_node_with Fragment.cut) with node_cut.
rewrite E. simpl. rewrite (proj2 (Nat.ltb_ge _ _)) by lia. eauto.
Qed.

(** The flat cuts at one position split the tokens there. *)
Lemma cut_front f p g :
wff f -> p <= f_size f -> pending (take p (toks f)) = [] ->
Fragment.cut f 0 p = Ok g -> wff g /\ toks g = take p (toks f).
Proof.
intros Hf Hp Hpend E. destruct (decide (p = 0)) as [->|].
- destruct f as [content size]. simpl in *. destruct size.
+ inv_ok. split; [done|]. rewrite take_0. by apply (toks_nil (schema:=schema)).
+ inv_ok. by split; [apply wf_empty|].
- apply cut_spec in E as [Hg E]; [|done|lia]. split; [done|].
rewrite E. unfold cut_tokens. rewrite Hpend. simpl. by rewrite drop_0, app_nil_r.
Qed.

Lemma cut_back f p g :
wff f -> p <= f_size f -> pending (take p (toks f)) = [] ->
Fragment.cut_end f p = Ok g -> wff g /\ toks g = drop p (toks f).
Proof.
intros Hf Hp Hpend E. unfold Fragment.cut_end in E. pose proof (f_size_toks _ Hf).
destruct (decide (p = f_size f)) as [->|].
- destruct f as [content size]. simpl in *. destruct (_ && _) eqn:E2.
+ apply andb_true_iff in E2 as [E2 _]. apply Nat.eqb_eq in E2 as ->. inv_ok.
split; [done|]. by rewrite drop_0.
+ rewrite (proj2 (Nat.ltb_ge _ _)) in E by lia. inv_ok.
split; [auto with kodosi|]. by rewrite drop_ge by lia.
- apply cut_spec in E as [Hg E]; [|done|lia]. split; [done|].
rewrite E. unfold cut_tokens. rewrite Hpend. rewrite (take_ge (toks f)) by lia.
unfold pending, toks. rewrite pend_flat by apply Hf. simpl. by rewrite app_nil_r.
Qed.
End cut.

(* ------------------------------------------------------------ *)

(** Resolved positions in tokens: [ResolvedPos::resolve] finds a path for each position
    of a document, and the path splits the tokens at that position. *)

(** The path from [node] down to the offset [po] of its content.  [start] is the
    position of the content in the document, and [last] the offset in the last node. *)
Inductive path_ok : Node -> nat -> nat -> list Level -> nat -> Prop :=
| path_last node po start i off :
    found (f_content (n_content node)) po i off ->
    (off = po \/ exists c, f_content (n_content node) !! i = Some c /\ Node.is_text c = true) ->
    path_ok node po start [MkLevel node i (start + off)] po
| path_down node po start i off c path last :
    found (f_content (n_content node)) po i off -> off < po ->
    f_content (n_content node) !! i = Some c -> n_text c = None -> n_leaf c = false ->
    path_ok c (po - off - 1) (start + off + 1) path last ->
    path_ok node po start (MkLevel node i (start + off) :: path) last.

(** The tokens left and right of a path, inside its first node. *)
Definition before_level (l : Level) : list token := flat (take (l_index l) (f_content (n_content (l_node l)))).
Definition after_level (l : Level) : list token := flat (drop (S (l_index l)) (f_content (n_content (l_node l)))).
Definition level_toks (l : Level) : list token := toks (n_content (l_node l)).

Fixpoint lefts (path : list Level) (last : nat) : list token :=
  match path with
  | [] => []
  | [l] => take last (level_toks l)
  | l :: ((below :: _) as path) => before_level l ++ open_token (l_node below) :: lefts path last
  end.

Fixpoint rights (path : list Level) (last : nat) : list token :=
  match path with
  | [] => []
  | [l] => drop last (level_toks l)
  | l :: path => rights path last ++ TClose :: after_level l
  end.

(** The open tokens that a path goes through, outermost first. *)
Definition opens (path : list Level) : list token := open_token <$> (l_node <$> tail path).

Section path.
Context {schema : Schema}.
Local Abbreviation wfn n := (wf_node schema n = true).
Local Abbreviation wfl l := (wf_list schema l).
Local Abbreviation wff f := (wf_fragment schema f).

Lemma path_nonempty node po st path last : path_ok node po st path last -> path <> [].
Proof. by destruct 1. Qed.

Lemma path_head node po st path last :
path_ok node po st path last -> exists l path', path = l :: path' /\ l_node l = node.
Proof. destruct 1; eauto. Qed.

(** The tokens of a content around the child at an index. *)
Lemma flat_child content i c :
content !! i = Some c ->
flat content = flat (take i content) ++ flatten c ++ flat (drop (S i) content).
Proof.
intros H. rewrite (take_drop_split content i c H) at 1.
by rewrite flat_app, flat_cons.
Qed.

Lemma flat_child_inner content i c :
content !! i = Some c -> n_text c = None -> n_leaf c = false ->
flat content = flat (take i content) ++ open_token c :: toks (n_content c) ++
TClose :: flat (drop (S i) content).
Proof.
intros H H1 H2. rewrite (flat_child _ _ _ H), flatten_inner by done.
simpl. by rewrite <- app_assoc.
Qed.

(** A path splits the tokens of its node. *)
Lemma path_split node po st path last :
path_ok node po st path last -> wfn node ->
lefts path last = take po (toks (n_content node)) /\
rights path last = drop po (toks (n_content node)).
Proof.
induction 1 as [node po st i off Hf _|node po st i off c path last Hf Hlt Hc Ht Hlf Hp IH];
intros Hwf; [done|].
pose proof (wf_content _ Hwf) as [_ Hl].
assert (Hwc : wfn c) by by eapply wf_list_lookup.
destruct (IH Hwc) as [E1 E2]. destruct (path_head _ _ _ _ _ Hp) as (l & path' & -> & El).
destruct Hf as (Hoff & _ & Hin).
assert (Hpo : po - off - 1 <= length (toks (n_content c))).
{ destruct Hin as [|(c' & Hc' & Hin)]; [lia|]. rewrite Hc in Hc'. injection Hc' as <-.
unfold Node.node_size in Hin. rewrite Ht, Hlf in Hin.
rewrite <- (f_size_toks (schema:=schema)) by by apply wf_content. lia. }
change (lefts (MkLevel node i (st + off) :: l :: path') last) with
(flat (take i (f_content (n_content node))) ++ open_token (l_node l) :: lefts (l :: path') last).
change (rights (MkLevel node i (st + off) :: l :: path') last) with
(rights (l :: path') last ++ TClose :: flat (drop (S i) (f_content (n_content node)))).
rewrite E1, E2, El. unfold toks at 2 4. rewrite (flat_child_inner (f_content (n_content node)) i c) by done.
rewrite take_app_ge, drop_app_ge by lia. rewrite <- Hoff.
replace (po - off) with (S (po - off - 1)) by lia. simpl.
replace (S (po - off - 1) - 1) with (po - off - 1) by lia.
rewrite take_app_le, drop_app_le by lia. by rewrite Nat.sub_0_r.
Qed.

(** Each path goes on below each of its levels. *)
Lemma path_drop node po st path last d l :
path_ok node po st path last -> wfn node -> path !! d = Some l ->
exists po', path_ok (l_node l) po' (st + po - po') (drop d path) last /\ po' <= po /\
wfn (l_node l).
Proof.
intros Hp. revert d l. induction Hp as [node po st i off Hf Hb|node po st i off c path last Hf Hlt Hc Ht Hlf Hp IH];
intros d l Hwf Hd.
- destruct d; [|done]. injection Hd as <-. exists po. rewrite Nat.add_sub. simpl.
split; [by constructor|]. done.
- destruct d as [|d]; simpl in Hd.
+ injection Hd as <-. exists po. rewrite Nat.add_sub. simpl.
split; [by econstructor|]. done.
+ pose proof (wf_content _ Hwf) as [_ Hl].
destruct (IH d l) as (po' & H1 & H2 & H3); [by eapply wf_list_lookup|done|].
exists po'. simpl. split; [|split; [lia|done]].
by replace (st + off + 1 + (po - off - 1) - po') with (st + po - po') in H1 by lia.
Qed.

(** ** [resolve] succeeds on each position, and only there *)

Lemma resolve_in_spec node : forall po start,
wfn node -> po <= f_size (n_content node) ->
exists path last, Resolved.resolve_in node po start = Ok (path, last) /\
path_ok node po start path last.
Proof.
induction node as [kind attrs content size marks text leaf IH] using node_tree_ind.
intros po start Hwf Hpo. pose proof (wf_content _ Hwf) as Hc. simpl in Hpo, Hc.
cbn -[Fragment.find_index].
destruct (find_index_spec (schema:=schema) (MkFragment content size) po) as (i & off & E & Hf); [done..|].
rewrite E. simpl. pose proof (found_le _ _ _ _ Hf). rewrite usub_le by done. simpl.
destruct (Nat.eqb_spec (po - off) 0) as [E0|E0].
{ do 2 eexists. split; [done|]. assert (off = po) by lia.
by constructor; [|left]. }
pose proof Hf as (Hoff & Hi & [|(c & Ec & Hin)]); [lia|].
unfold Fragment.child. simpl in Ec. simpl f_content. rewrite Ec. simpl.
assert (Hwc : wfn c) by (destruct Hc as [_ Hc]; by eapply wf_list_lookup).
destruct (Node.is_text c) eqn:Et.
{ do 2 eexists. split; [done|]. constructor; [done|]. right. eauto. }
apply is_text_false in Et.
assert (Hlf : n_leaf c = false).
{ unfold Node.node_size in Hin. rewrite Et in Hin. destruct (n_leaf c); [lia|done]. }
rewrite usub_le by lia. simpl. rewrite with_nth_lookup, Ec. simpl.
eapply Forall_lookup_1 in IH; [|exact Ec].
destruct (IH (po - off - 1) (start + (off + 1))) as (path & last & -> & Hp); [done| |].
{ unfold Node.node_size in Hin. rewrite Et, Hlf in Hin. lia. }
simpl. do 2 eexists. split; [done|].
econstructor; try done; [lia|]. by rewrite <- Nat.add_assoc.
Qed.

(** What a resolved position holds. *)
Record resolved (doc : Node) (pos : nat) (r : ResolvedPos) : Prop := {
res_pos : r_pos r = pos;
res_path : path_ok doc pos 0 (r_path r) (r_parent_offset r)
}.

Lemma resolve_spec doc pos :
wfn doc -> pos <= f_size (n_content doc) ->
exists r, Resolved.resolve doc pos = Ok r /\ resolved doc pos r.
Proof.
intros Hwf Hpos. unfold Resolved.resolve. rewrite (proj2 (Nat.ltb_ge _ _)) by lia.
destruct (resolve_in_spec doc pos 0) as (path & last & -> & Hp); [done|done|].
simpl. eexists. split; [done|]. by split.
Qed.

Lemma resolve_ok doc pos r :
wfn doc -> Resolved.resolve doc pos = Ok r ->
pos <= f_size (n_content doc) /\ resolved doc pos r.
Proof.
intros Hwf E. assert (Hp : pos <= f_size (n_content doc)).
{ unfold Resolved.resolve in E. destruct (Nat.ltb_spec (f_size (n_content doc)) pos); [done|lia]. }
split; [done|]. destruct (resolve_spec doc pos) as (r' & E' & H); [done|done|].
rewrite E in E'. by injection E' as ->.
Qed.

Lemma resolve_err doc pos :
f_size (n_content doc) < pos -> Resolved.resolve doc pos = Err (PositionOutOfRange pos).
Proof. intros H. unfold Resolved.resolve. by rewrite (proj2 (Nat.ltb_lt _ _)). Qed.

Lemma safe_resolve doc pos : wfn doc -> safe (Resolved.resolve doc pos).
Proof.
intros Hwf. destruct (decide (pos <= f_size (n_content doc))).
- destruct (resolve_spec doc pos) as (r & -> & _); done.
- by rewrite resolve_err by lia.
Qed.
End path.
