(* ===== verification/TextReplaceSpec.v ===== *)
(** The walks of [documents/crates/text/src/replace.rs] in tokens: each puts together
    the tokens left of one position and the tokens right of another. *)

From S2P Require Import Prelude Json TextData TextSchema TextNode TextResolved TextReplace.
From S2P Require Import TextTokens TextCut.
(** The tokens left and right of a position inside its node at a depth. *)
Definition left (r : ResolvedPos) (d : nat) : list token := lefts (drop d (r_path r)) (r_parent_offset r).
Definition right (r : ResolvedPos) (d : nat) : list token := rights (drop d (r_path r)) (r_parent_offset r).

(** The part of these tokens that no deeper level holds. *)
Definition here_left (r : ResolvedPos) (d : nat) (l : Level) : list token :=
  if d =? Resolved.depth r then take (r_parent_offset r) (level_toks l) else before_level l.
Definition here_right (r : ResolvedPos) (d : nat) (l : Level) : list token :=
  if d =? Resolved.depth r then drop (r_parent_offset r) (level_toks l) else after_level l.

Section spec.
Context {schema : Schema}.
Local Abbreviation wfn n := (wf_node schema n = true).
Local Abbreviation wfl l := (wf_list schema l).
Local Abbreviation wff f := (wf_fragment schema f).

(** A position that [resolve] gave in some well-formed tree. *)
Definition ok (r : ResolvedPos) : Prop :=
exists doc, wfn doc /\ n_text doc = None /\ path_ok doc (r_pos r) 0 (r_path r) (r_parent_offset r).

Lemma resolved_is_ok doc pos r : wfn doc -> n_text doc = None -> resolved doc pos r -> ok r.
Proof. intros H1 H2 [<- H]. by exists doc. Qed.

Lemma level_ok r d l : Resolved.level r d = Ok l <-> r_path r !! d = Some l.
Proof. apply or_panic_ok. Qed.

Lemma node_ok r d n : Resolved.node r d = Ok n <-> exists l, r_path r !! d = Some l /\ l_node l = n.
Proof. unfold Resolved.node. rewrite fmap_ok. setoid_rewrite level_ok. done. Qed.

Lemma index_ok r d i : Resolved.index r d = Ok i <-> exists l, r_path r !! d = Some l /\ l_index l = i.
Proof. unfold Resolved.index. rewrite fmap_ok. setoid_rewrite level_ok. done. Qed.

Lemma depth_length r : ok r -> length (r_path r) = S (Resolved.depth r).
Proof.
intros (doc & _ & _ & H%path_nonempty). unfold Resolved.depth. destruct (r_path r); [done|simpl; lia].
Qed.

Lemma level_exists r d : ok r -> d <= Resolved.depth r -> exists l, r_path r !! d = Some l.
Proof. intros H Hd. apply lookup_lt_is_Some. rewrite depth_length by done. lia. Qed.

Lemma level_depth r d l : ok r -> r_path r !! d = Some l -> d <= Resolved.depth r.
Proof. intros H E%lookup_lt_Some. rewrite depth_length in E by done. lia. Qed.

(** What [resolve] says of one level: a boundary or a text child at the last level, a
node with content elsewhere. *)
Lemma level_facts r d l :
ok r -> r_path r !! d = Some l ->
wfn (l_node l) /\ n_text (l_node l) = None /\ l_index l <= length (f_content (n_content (l_node l))) /\
exists po, path_ok (l_node l) po (r_pos r - po) (drop d (r_path r)) (r_parent_offset r) /\ po <= r_pos r.
Proof.
intros (doc & Hwf & Ht & Hp) E.
destruct (path_drop _ _ _ _ _ _ _ Hp Hwf E) as (po & H1 & H2 & H3). simpl in H1.
assert (Htext : n_text (l_node l) = None).
{ clear -Hp E Ht. revert d E. induction Hp; intros [|d] E; simpl in E; try done.
- by injection E as <-.
- by injection E as <-.
- by eapply IHHp. }
split; [done|]. split; [done|]. split; [|eauto].
destruct (path_head _ _ _ _ _ H1) as (l' & path' & Epath & _).
assert (l' = l) as ->.
{ rewrite (drop_S _ l) in Epath by done. by injection Epath. }
rewrite Epath in H1. inversion H1; subst; simpl;
match goal with H : found _ _ _ _ |- _ => by destruct H as (_ & ? & _) end.
Qed.

Lemma left_step r d l l' :
r_path r !! d = Some l -> r_path r !! S d = Some l' ->
left r d = before_level l ++ open_token (l_node l') :: left r (S d) /\
right r d = right r (S d) ++ TClose :: after_level l.
Proof.
intros E E'. unfold left, right. rewrite (drop_S (r_path r) l d E), (drop_S (r_path r) l' (S d) E'). done.
Qed.

Lemma left_split r d l :
ok r -> r_path r !! d = Some l ->
left r d = here_left r d l ++
match r_path r !! S d with Some l' => open_token (l_node l') :: left r (S d) | None => [] end /\
right r d = match r_path r !! S d with Some _ => right r (S d) ++ [TClose] | None => [] end ++
here_right r d l.
Proof.
intros Hok E. unfold here_left, here_right. destruct (r_path r !! S d) as [l'|] eqn:E'.
- destruct (left_step r d l l') as [-> ->]; [done..|].
apply level_depth in E'; [|done]. rewrite (proj2 (Nat.eqb_neq _ _)) by lia.
by rewrite <- app_assoc.
- pose proof (level_depth _ _ _ Hok E). apply lookup_ge_None in E'. rewrite depth_length in E' by done.
rewrite (proj2 (Nat.eqb_eq _ _)) by lia. rewrite app_nil_r. unfold left, right.
rewrite (drop_S (r_path r) l d E), drop_ge by (rewrite depth_length by done; lia). done.
Qed.

Lemma left_right r d l :
ok r -> r_path r !! d = Some l ->
left r d ++ right r d = level_toks l.
Proof.
intros Hok E. destruct (level_facts _ _ _ Hok E) as (Hw & _ & _ & po & Hp & _).
destruct (path_split _ _ _ _ _ Hp Hw) as [E1 E2]. unfold left, right. rewrite E1, E2.
apply take_drop.
Qed.

Lemma open_child r d l l' :
ok r -> r_path r !! d = Some l -> r_path r !! S d = Some l' ->
f_content (n_content (l_node l)) !! l_index l = Some (l_node l') /\
n_text (l_node l') = None /\ n_leaf (l_node l') = false.
Proof.
intros Hok E E'. destruct (level_facts _ _ _ Hok E) as (Hw & _ & _ & po & Hp & _).
rewrite (drop_S (r_path r) l d E), (drop_S (r_path r) l' (S d) E') in Hp.
inversion Hp; subst. simpl.
match goal with H : path_ok ?c _ _ (l' :: _) _ |- _ =>
apply path_head in H as (? & ? & [= <- _] & ->) end. done.
Qed.

(** The last level: a child boundary, or a place inside a text child. *)
Lemma bottom r l :
ok r -> r_path r !! Resolved.depth r = Some l ->
exists offset, Resolved.text_offset r = Ok offset /\
let content := f_content (n_content (l_node l)) in
r_parent_offset r = length (before_level l) + offset /\
(offset = 0 \/ exists c, content !! l_index l = Some c /\ Node.is_text c = true /\
0 < offset < Node.node_size c).
Proof.
intros Hok E. destruct (level_facts _ _ _ Hok E) as (Hw & _ & _ & po & Hp & Hpo).
rewrite (drop_S (r_path r) l _ E) in Hp.
rewrite drop_ge in Hp by (rewrite depth_length by done; lia).
unfold Resolved.text_offset. rewrite (proj2 (level_ok _ _ _) E). simpl.
inversion Hp as [? ? ? i off0 (Hoff & Hi & Hin) Hb|]; subst; simpl in *;
[|match goal with H : path_ok _ _ _ [] _ |- _ => by apply path_nonempty in H end].
set (off := length (flat (take i (f_content (n_content (l_node l)))))) in *.
assert (off <= r_parent_offset r) by (destruct Hin as [|(? & ? & ?)]; lia).
rewrite usub_le by lia. eexists. split; [done|]. simpl. split.
{ unfold before_level. simpl. fold off. lia. }
destruct Hin as [|(c & Ec & Hin)]; [left; lia|].
destruct Hb as [|(c' & Ec' & Ht)]; [left; lia|]. right.
assert (c' = c) as -> by congruence. exists c. split; [done|]. split; [done|]. lia.
Qed.

(** *** Pieces of a text child *)

Lemma text_piece c from to :
wfn c -> Node.is_text c = true -> from < to <= Node.node_size c ->
exists c', node_cut c from to = Ok c' /\ wfn c' /\
flatten c' = drop from (take to (flatten c)).
Proof.
intros Hwf [units Et]%is_text_true H. unfold Node.node_size in H. rewrite Et in H.
destruct (node_cut_succeeds c from to Hwf (cut_total _)) as [c' E]; [rewrite Et; lia|].
exists c'. split; [done|].
destruct (cut_node_spec (schema:=schema) c from to c') as [H1 H2]; try done.
- apply cut_spec.
- rewrite (flatten_text _ _ Et), length_fmap. lia.
- lia.
- rewrite Et. by rewrite Nat.min_r by lia.
- right. by rewrite Et.
- split; [done|]. rewrite H2, (flatten_text _ _ Et), cut_tokens_units.
by rewrite <- fmap_take, <- fmap_drop.
Qed.

(** *** Building the children of a node *)

Lemma add_node_spec c target :
wfn c -> wfl target ->
flat (add_node c target) = flat target ++ flatten c /\ wfl (add_node c target).
Proof.
intros Hc Ht. unfold add_node.
assert (Hplain : flat (target ++ [c]) = flat target ++ flatten c /\ wfl (target ++ [c])).
{ rewrite flat_app, flat_singleton. split; [done|]. by rewrite wf_list_app, wf_list_cons. }
destruct (last target) as [l|] eqn:El; [|done].
destruct (_ && _) eqn:E; [|done]. apply andb_true_iff in E as [Htx Hm].
apply last_Some in El as [before ->]. rewrite removelast_last.
apply wf_list_app in Ht as [Hb Hl]. apply wf_list_cons in Hl as [Hl _].
assert (Htl : Node.is_text l = true) by exact (same_markup_text c l Hc Hl Htx Hm).
rewrite same_markup_sym in Hm.
rewrite !flat_app, !flat_singleton, (joined_flatten (schema:=schema)) by done.
split; [by rewrite app_assoc|]. rewrite wf_list_app, wf_list_cons.
split; [done|]. split; [by apply joined_wf|done].
Qed.

Lemma add_children_spec node index count target :
wfn node -> wfl target -> index + count <= length (f_content (n_content node)) ->
exists target', add_children node index count target = Ok target' /\
flat target' = flat target ++ flat (take count (drop index (f_content (n_content node)))) /\
wfl target'.
Proof.
intros Hn. revert index target. induction count as [|count IH]; intros index target Ht Hlen; simpl.
- eexists. split; [done|]. by rewrite take_0, flat_nil, app_nil_r.
- unfold Fragment.child.
destruct (lookup_lt_is_Some_2 (f_content (n_content node)) index) as [c Ec]; [lia|].
rewrite Ec. simpl.
assert (Hc : wfn c) by (apply wf_content in Hn as [_ Hn]; exact (wf_list_lookup _ _ _ Hn Ec)).
destruct (add_node_spec c target Hc Ht) as [E1 Ht'].
destruct (IH (S index) _ Ht') as (t & -> & E2 & Hw); [lia|]. eexists. split; [done|].
split; [|done]. by rewrite E2, E1, (drop_S _ _ _ Ec), firstn_cons, flat_cons, app_assoc.
Qed.

Lemma before_level_length l r : r_path r !! Resolved.depth r = Some l -> ok r ->
forall offset, Resolved.text_offset r = Ok offset ->
r_parent_offset r = length (before_level l) + offset.
Proof.
intros E Hok offset Ho. destruct (bottom r l Hok E) as (o & Ho' & H & _).
rewrite Ho in Ho'. by injection Ho' as <-.
Qed.

(** [add_range(None, Some(r), depth)]: the tokens left of [r] at this level. *)
Lemma add_range_end r d l target :
ok r -> r_path r !! d = Some l -> wfl target ->
exists t, add_range None (Some r) d target = Ok t /\
flat t = flat target ++ here_left r d l /\ wfl t.
Proof.
intros Hok E Ht. destruct (level_facts r d l Hok E) as (Hw & _ & Hi & _).
unfold add_range. rewrite (proj2 (node_ok r d (l_node l))) by eauto. simpl.
rewrite (proj2 (index_ok r d (l_index l))) by eauto. simpl. rewrite Nat.sub_0_r.
destruct (add_children_spec (l_node l) 0 (l_index l) target) as (t & -> & E1 & Hwt); [done|done|lia|].
simpl. rewrite drop_0 in E1. unfold here_left. rewrite (Nat.eqb_sym d).
destruct (Nat.eqb_spec (Resolved.depth r) d) as [<-|]; [|eauto].
destruct (bottom r l Hok E) as (offset & Ho & Hpo & Hin). rewrite Ho. simpl.
pose proof (wf_content _ Hw) as [_ Hl].
destruct Hin as [->|(c & Ec & Htx & Hin)].
- simpl. eexists. split; [done|]. split; [|done]. rewrite E1. f_equal.
unfold level_toks, toks, before_level in *.
rewrite <- (take_drop (l_index l) (f_content _)) at 2. rewrite flat_app.
by rewrite take_app_exact by (rewrite Hpo; lia).
- rewrite (proj2 (Nat.eqb_neq _ _)) by lia.
unfold Resolved.node_before. rewrite (proj2 (index_ok r _ (l_index l))) by eauto. simpl.
rewrite Ho. simpl. rewrite (proj2 (Nat.eqb_neq _ _)) by lia. simpl.
unfold Resolved.parent. rewrite (proj2 (node_ok r _ (l_node l))) by eauto. simpl.
unfold Fragment.child. rewrite Ec. simpl.
destruct (text_piece c 0 offset) as (c' & -> & Hc' & Ec'); [exact (wf_list_lookup _ _ _ Hl Ec)|done|lia|].
simpl. destruct (add_node_spec c' t Hc' Hwt) as [E2 Hw2]. eexists. split; [done|].
split; [|done]. rewrite E2, E1, Ec', <- app_assoc, drop_0. f_equal.
unfold level_toks, toks, before_level in *. rewrite (flat_child _ _ _ Ec), Hpo.
rewrite take_app_add, take_app_le; [done|].
rewrite <- (node_size_flatten (schema:=schema)); [lia|exact (wf_list_lookup _ _ _ Hl Ec)].
Qed.

(** [add_range(Some(r), None, depth)]: the tokens right of [r] at this level. *)
Lemma add_range_start r d l target :
ok r -> r_path r !! d = Some l -> wfl target ->
exists t, add_range (Some r) None d target = Ok t /\
flat t = flat target ++ here_right r d l /\ wfl t.
Proof.
intros Hok E Ht. destruct (level_facts r d l Hok E) as (Hw & _ & Hi & _).
pose proof (level_depth _ _ _ Hok E) as Hd.
unfold add_range. rewrite (proj2 (node_ok r d (l_node l))) by eauto. simpl.
rewrite (proj2 (index_ok r d (l_index l))) by eauto. simpl. unfold Node.child_count.
pose proof (wf_content _ Hw) as [_ Hl]. set (content := f_content (n_content (l_node l))) in *.
assert (Hrest : forall i t, wfl t -> i <= length content ->
exists t', add_children (l_node l) i (length content - i) t = Ok t' /\
flat t' = flat t ++ flat (drop i content) /\ wfl t').
{ intros i t Hwt Hle. destruct (add_children_spec (l_node l) i (length content - i) t)
as (t' & E1 & E2 & Hw'); [done|done|fold content; lia|].
exists t'. split; [done|]. split; [|done]. rewrite E2. fold content.
by rewrite take_ge by (rewrite length_drop; lia). }
unfold here_right. destruct (Nat.ltb_spec d (Resolved.depth r)) as [Hlt|Hge].
- simpl. rewrite (proj2 (Nat.eqb_neq _ _)) by lia.
destruct (level_exists r (S d) Hok) as [l' E']; [lia|].
destruct (open_child r d l l' Hok E E') as (Hc%lookup_lt_Some & _). fold content in Hc.
destruct (Hrest (l_index l + 1) target) as (t & -> & E1 & Hwt); [done|lia|].
simpl. eexists. split; [done|]. split; [|done]. rewrite E1. unfold after_level.
fold content. by rewrite Nat.add_1_r.
- assert (d = Resolved.depth r) as -> by lia. rewrite Nat.eqb_refl.
destruct (bottom r l Hok E) as (offset & Ho & Hpo & Hin). rewrite Ho. simpl.
unfold level_toks, toks, before_level in *. fold content in Hpo, Hin |- *.
destruct Hin as [->|(c & Ec & Htx & Hin)].
+ simpl. destruct (Hrest (l_index l) target) as (t & -> & E1 & Hwt); [done|done|].
simpl. eexists. split; [done|]. split; [|done]. rewrite E1. f_equal.
rewrite <- (take_drop (l_index l) content) at 2. rewrite flat_app.
by rewrite drop_app_exact by (rewrite Hpo; lia).
+ pose proof (lookup_lt_Some _ _ _ Ec) as Hlt.
rewrite (proj2 (Nat.eqb_neq offset 0)) by lia.
unfold Resolved.node_after, Resolved.parent.
rewrite (proj2 (node_ok r _ (l_node l))) by eauto. simpl.
rewrite (proj2 (index_ok r _ (l_index l))) by eauto. simpl. unfold Node.child_count.
fold content. rewrite (proj2 (Nat.eqb_neq _ _)) by lia. rewrite Ho. simpl.
unfold Fragment.child. fold content. rewrite Ec. simpl.
rewrite (proj2 (Nat.eqb_neq offset 0)) by lia.
destruct (text_piece c offset (Node.node_size c)) as (c' & -> & Hc' & Ec');
[exact (wf_list_lookup _ _ _ Hl Ec)|done|lia|].
simpl. destruct (add_node_spec c' target Hc' Ht) as [E2 Hw2].
destruct (Hrest (l_index l + 1) (add_node c' target)) as (t & -> & E1 & Hwt); [done|lia|].
simpl. eexists. split; [done|]. split; [|done].
rewrite E1, E2, Ec', <- app_assoc. f_equal. rewrite Nat.add_1_r.
assert (Hcl : wfn c) by exact (wf_list_lookup _ _ _ Hl Ec).
rewrite take_ge by (rewrite <- (node_size_flatten (schema:=schema)) by done; lia).
rewrite (flat_child content _ _ Ec), Hpo.
rewrite drop_app_add, drop_app_le; [done|].
rewrite <- (node_size_flatten (schema:=schema)) by done. lia.
Qed.
(** *** Between two positions of one node *)

(** A position at a child boundary of its last node. *)
Definition boundary (r : ResolvedPos) : Prop := Resolved.text_offset r = Ok 0.

(** The first child that lies wholly right of [r] at this level. *)
Definition first_after (r : ResolvedPos) (d : nat) (l : Level) : nat :=
if d <? Resolved.depth r then l_index l + 1 else l_index l.

Lemma add_range_between s e d ls le target :
ok s -> ok e -> r_path s !! d = Some ls -> r_path e !! d = Some le ->
boundary s -> boundary e ->
first_after s d ls <= l_index le -> wfl target ->
exists t, add_range (Some s) (Some e) d target = Ok t /\
flat t = flat target ++ flat (take (l_index le - first_after s d ls)
(drop (first_after s d ls) (f_content (n_content (l_node le))))) /\ wfl t.
Proof.
intros Hs He Es Ee Bs Be Hle Ht. destruct (level_facts e d le He Ee) as (Hw & _ & Hi & _).
unfold add_range. rewrite (proj2 (node_ok e d (l_node le))) by eauto. simpl.
rewrite (proj2 (index_ok e d (l_index le))), (proj2 (index_ok s d (l_index ls))) by eauto. simpl.
pose proof (level_depth _ _ _ Hs Es) as Hds. pose proof (level_depth _ _ _ He Ee) as Hde.
assert (Hstart : (if d <? Resolved.depth s then Ok (l_index ls + 1, target)
else offset ← Resolved.text_offset s;
if offset =? 0 then Ok (l_index ls, target)
else after ← Resolved.node_after s; Ok (l_index ls + 1, add_option after target))
= Ok (first_after s d ls, target)).
{ unfold first_after. destruct (d <? Resolved.depth s); [done|]. by rewrite Bs. }
rewrite Hstart. simpl.
destruct (add_children_spec (l_node le) (first_after s d ls)
(l_index le - first_after s d ls) target) as (t & -> & E1 & Hwt); [done|done|lia|].
simpl. exists t. destruct (Resolved.depth e =? d); [|done]. rewrite Be. done.
Qed.

Lemma here_left_boundary r d l :
ok r -> r_path r !! d = Some l -> boundary r -> here_left r d l = before_level l.
Proof.
intros Hok E B. unfold here_left. destruct (Nat.eqb_spec d (Resolved.depth r)) as [->|]; [|done].
rewrite (before_level_length l r E Hok 0 B), Nat.add_0_r. unfold level_toks, toks, before_level.
rewrite <- (take_drop (l_index l) (f_content _)) at 2. rewrite flat_app. by apply take_app_exact.
Qed.

(** The tokens up to the first child that lies wholly right of a boundary. *)
Lemma left_first_after r d l :
ok r -> r_path r !! d = Some l -> boundary r ->
left r d ++ match r_path r !! S d with Some _ => right r (S d) ++ [TClose] | None => [] end =
flat (take (first_after r d l) (f_content (n_content (l_node l)))).
Proof.
intros Hok E B. destruct (left_split r d l Hok E) as [-> _].
rewrite here_left_boundary by done. unfold first_after, before_level.
destruct (r_path r !! S d) as [l'|] eqn:E'.
- pose proof (level_depth _ _ _ Hok E'). rewrite (proj2 (Nat.ltb_lt _ _)) by lia.
destruct (open_child r d l l' Hok E E') as (Hc & Ht & Hl).
rewrite Nat.add_1_r, (take_S_r _ _ _ Hc), flat_app, flat_singleton, flatten_inner by done.
rewrite <- app_assoc. f_equal. simpl. f_equal.
rewrite app_assoc. f_equal. apply (left_right r (S d) l' Hok E').
- apply lookup_ge_None in E'. rewrite depth_length in E' by done.
rewrite (proj2 (Nat.ltb_ge _ _)) by lia. by rewrite !app_nil_r.
Qed.

Lemma flat_take_mono l i j : i <= j -> length (flat (take i l)) <= length (flat (take j l)).
Proof.
intros H. rewrite <- (take_drop i (take j l)), take_take, Nat.min_l by lia.
rewrite flat_app, length_app. lia.
Qed.

Lemma flat_take_S l i c : wfl l -> l !! i = Some c ->
length (flat (take (S i) l)) = length (flat (take i l)) + Node.node_size c.
Proof.
intros Hl Hc. rewrite (take_S_r _ _ _ Hc), flat_app, length_app, flat_singleton.
rewrite <- (node_size_flatten (schema:=schema)); [done|]. exact (wf_list_lookup _ _ _ Hl Hc).
Qed.

(** Between two ordered boundaries of one node, the indexes are ordered too. *)
Lemma first_after_le s e d ls le M :
ok s -> ok e -> r_path s !! d = Some ls -> r_path e !! d = Some le ->
l_node ls = l_node le -> boundary s -> boundary e ->
left s d ++ M = left e d ->
(is_Some (r_path s !! S d) -> is_Some (r_path e !! S d) -> l_index ls <> l_index le) ->
first_after s d ls <= l_index le.
Proof.
intros Hs He Es Ee Hn Bs Be HM Hne.
destruct (level_facts e d le He Ee) as (Hw & _ & Hie & _).
destruct (level_facts s d ls Hs Es) as (_ & _ & His & _).
pose proof (wf_content _ Hw) as [_ Hl].
apply (f_equal length) in HM. rewrite length_app in HM.
destruct (left_split s d ls Hs Es) as [Ls _], (left_split e d le He Ee) as [Le _].
rewrite Ls, Le, !here_left_boundary, !length_app in HM by done. unfold before_level in HM.
rewrite Hn in *. set (C := f_content (n_content (l_node le))) in *.
assert (Hele : match r_path e !! S d with Some l' => length (open_token (l_node l') :: left e (S d)) | None => 0 end
< match C !! l_index le with Some c => Node.node_size c | None => 1 end).
{ destruct (r_path e !! S d) as [l'|] eqn:E'.
- destruct (open_child e d le l' He Ee E') as (Hc & Ht & Hlf). fold C in Hc. rewrite Hc.
unfold Node.node_size. rewrite Ht, Hlf.
destruct (level_facts e (S d) l' He E') as (Hw' & _).
rewrite (f_size_toks (schema:=schema)) by by apply wf_content.
pose proof (f_equal length (left_right e (S d) l' He E')) as HL.
rewrite length_app in HL. unfold level_toks in HL. simpl. lia.
- destruct (C !! l_index le) as [c|] eqn:Ec; [|lia].
apply (node_size_pos (schema:=schema)). exact (wf_list_lookup _ _ _ Hl Ec). }
assert (Hcase : l_index ls <= l_index le).
{ destruct (decide (l_index ls <= l_index le)) as [|Hgt]; [done|exfalso].
destruct (lookup_lt_is_Some_2 C (l_index le)) as [c Ec]; [lia|]. rewrite Ec in Hele.
pose proof (flat_take_S C _ c Hl Ec). pose proof (flat_take_mono C (S (l_index le)) (l_index ls)).
destruct (r_path e !! S d); simpl in *; lia. }
unfold first_after. destruct (Nat.ltb_spec d (Resolved.depth s)); [|done].
destruct (level_exists s (S d) Hs) as [l' E']; [lia|]. rewrite E' in *. simpl in HM.
destruct (decide (l_index ls = l_index le)) as [Eq|]; [|lia]. exfalso.
destruct (r_path e !! S d); [by apply Hne; eauto|]. rewrite Eq in HM. simpl in HM. lia.
Qed.
End spec.
