(* ===== verification/TextSlice.v ===== *)
(** [replace_two_way] and [replace_three_way] of [documents/crates/text/src/replace.rs]
    in tokens. *)

From S2P Require Import Prelude Json TextData TextSchema TextNode TextResolved TextReplace.
From S2P Require Import TextTokens TextCut TextReplaceSpec.
Section walks.
Context {schema : Schema}.
Local Abbreviation wfn n := (wf_node schema n = true).
Local Abbreviation wfl l := (wf_list schema l).
Local Abbreviation wff f := (wf_fragment schema f).
Local Abbreviation ok := (ok (schema:=schema)).

Lemma close_ok node content n :
close schema node content = Ok n ->
n = Node.copy node content /\ Schema.valid_content schema (n_kind node) content = Ok true.
Proof. unfold close. intros E. inv_ok. destruct a; [|done]. by inv_ok. Qed.

Lemma joinable_ok before after d n :
joinable schema before after d = Ok n ->
(exists l, r_path before !! d = Some l /\ l_node l = n) /\
(exists l, r_path after !! d = Some l /\ check_join schema n (l_node l) = Ok ()).
Proof.
unfold joinable. intros E. inv_ok. apply node_ok in E0 as (l & Hl & <-).
apply node_ok in E1 as (l' & Hl' & <-). destruct a1. eauto 10.
Qed.

(** A closed copy of a node of a path, with the tokens left of one position and right
of another as its content. *)
Lemma add_closed r d l content inner closed :
ok r -> r_path r !! S d = Some l -> wff inner -> wfl content ->
close schema (l_node l) inner = Ok closed ->
flat (add_node closed content) = flat content ++ open_token (l_node l) :: toks inner ++ [TClose] /\
wfl (add_node closed content).
Proof.
intros Hr E Hi Hc H. apply close_ok in H as [-> _].
destruct (level_facts r (S d) l Hr E) as (Hw & Ht & _).
destruct (level_exists r d Hr) as [l0 E0]. { apply (level_depth (schema:=schema)) in E; [lia|done]. }
destruct (open_child r d l0 l Hr E0 E) as (_ & _ & Hlf).
destruct (add_node_spec (schema:=schema) (Node.copy (l_node l) inner) content) as [E1 Hw1]; [by apply wf_copy|done|].
rewrite E1, flatten_copy by done. done.
Qed.

Lemma two_way_spec levels from to d f :
ok from -> ok to -> levels = Resolved.depth from - d -> d <= Resolved.depth from ->
Resolved.depth to = Resolved.depth from ->
replace_two_way_in schema levels from to d = Ok f ->
wff f /\ toks f = left from d ++ right to d.
Proof.
intros Hf Ht. revert d f. induction levels as [|levels IH]; intros d f Hlev Hd Hdep E; simpl in E;
destruct (level_exists from d Hf Hd) as [lf Ef]; destruct (level_exists to d Ht) as [lt Et]; try lia.
- destruct (add_range_end from d lf [] Hf Ef) as (t1 & R1 & F1 & W1); [done|].
rewrite R1 in E. simpl in E.
destruct (add_range_start to d lt t1 Ht Et W1) as (t2 & R2 & F2 & W2).
rewrite R2 in E. simpl in E. inv_ok. split; [by apply wf_new|].
rewrite toks_new, F2, F1. destruct (left_split from d lf Hf Ef) as [-> _].
destruct (left_split to d lt Ht Et) as [_ ->].
rewrite (proj2 (lookup_ge_None _ _)), (proj2 (lookup_ge_None _ _))
by (rewrite (depth_length (schema:=schema)) by done; lia). by rewrite app_nil_r.
- destruct (add_range_end from d lf [] Hf Ef) as (t1 & R1 & F1 & W1); [done|].
rewrite R1 in E. simpl in E. rewrite Nat.add_1_r in *.
apply bind_ok in E as (content & Em & E). apply bind_ok in Em as (kind & Ej & Em).
apply bind_ok in Em as (inner & Ei & Em). apply bind_ok in Em as (closed & Ec & Em).
injection Em as <-. apply joinable_ok in Ej as [(lk & Ek & <-) (lk' & Ek' & _)].
apply IH in Ei as [Wi Ti]; [|lia|lia|done].
destruct (add_closed from d lk t1 inner closed) as [F2 W2]; [done..|].
destruct (add_range_start to d lt _ Ht Et W2) as (t3 & R3 & F3 & W3).
rewrite R3 in E. simpl in E. inv_ok. split; [by apply wf_new|].
rewrite toks_new, F3, F2, F1, Ti. destruct (left_split from d lf Hf Ef) as [-> _].
destruct (left_split to d lt Ht Et) as [_ ->]. rewrite Ek, Ek'. simpl.
by rewrite <- !app_assoc, <- !app_comm_cons, <- !app_assoc.
Qed.

Lemma two_way_tokens from to d f :
ok from -> ok to -> d <= Resolved.depth from -> Resolved.depth to = Resolved.depth from ->
replace_two_way schema from to d = Ok f ->
wff f /\ toks f = left from d ++ right to d.
Proof. intros. by eapply two_way_spec. Qed.

(** The two ends of a slice that [prepare_slice] made for [from] and [to]. *)
Record prepared (from start end_ to : ResolvedPos) : Prop := {
pr_from : ok from;
pr_start : ok start;
pr_end : ok end_;
pr_to : ok to;
pr_start_depth : Resolved.depth start = Resolved.depth from;
pr_end_depth : Resolved.depth end_ = Resolved.depth to;
pr_start_boundary : boundary start;
pr_end_boundary : boundary end_
}.

(** One side of a walk: the open node, closed over its new content. *)
Lemma side_closed before after d content t closing :
ok before -> ok after -> Resolved.depth after = Resolved.depth before ->
wfl content ->
match closing with
| Some first =>
(inner ← replace_two_way schema before after (d + 1);
closed ← close schema first inner; Ok (add_node closed content))
| None => Ok content
end = Ok t ->
(match closing with
| Some first => joinable schema before after (d + 1) = Ok first
| None => Resolved.depth before <= d
end) ->
flat t = flat content ++
match r_path before !! S d with
| Some l => open_token (l_node l) :: (left before (S d) ++ right after (S d)) ++ [TClose]
| None => []
end /\ wfl t.
Proof.
intros Hb Ha Hdep Hw E Hj. rewrite Nat.add_1_r in *. destruct closing as [first|].
- apply joinable_ok in Hj as [(l & El & <-) _].
apply bind_ok in E as (inner & Ei & E). apply bind_ok in E as (closed & Ec & E).
injection E as <-. apply two_way_tokens in Ei as [Wi Ti]; [|done|done| |done].
2: { by apply (level_depth (schema:=schema)) in El. }
destruct (add_closed before d l content inner closed) as [F W]; [done..|].
by rewrite El, F, Ti.
- inv_ok. rewrite (proj2 (lookup_ge_None _ _)) by (rewrite (depth_length (schema:=schema)) by done; lia).
by rewrite app_nil_r.
Qed.
(** The walk on both sides of the slice, once the slice's ends part. *)
Lemma three_way_parted from start end_ to d lf lt ls le M open_start open_end content t1 t2 t3 t4 :
prepared from start end_ to ->
r_path from !! d = Some lf -> r_path to !! d = Some lt ->
r_path start !! d = Some ls -> r_path end_ !! d = Some le -> l_node ls = l_node le ->
left start d ++ M = left end_ d ->
(is_Some open_start -> is_Some open_end -> l_index ls <> l_index le) ->
(match open_start with
| Some first => joinable schema from start (d + 1) = Ok first
| None => Resolved.depth from <= d end) ->
(match open_end with
| Some last => joinable schema end_ to (d + 1) = Ok last
| None => Resolved.depth end_ <= d end) ->
flat content = here_left from d lf -> wfl content ->
match open_start with
| Some first =>
(inner ← replace_two_way schema from start (d + 1);
closed ← close schema first inner; Ok (add_node closed content))
| None => Ok content
end = Ok t1 ->
add_range (Some start) (Some end_) d t1 = Ok t2 ->
match open_end with
| Some last =>
(inner ← replace_two_way schema end_ to (d + 1);
closed ← close schema last inner; Ok (add_node closed t2))
| None => Ok t2
end = Ok t3 ->
add_range (Some to) None d t3 = Ok t4 ->
wfl t4 /\ flat t4 = left from d ++ M ++ right to d.
Proof.
intros [Hf Hs He Ht Hds Hde Bs Be] Ef Et Es Ee Hn HM Hne Jf Je Fc Wc R1 R2 R3 R4.
assert (Hdeep_s : is_Some (r_path start !! S d) <-> is_Some open_start).
{ rewrite lookup_lt_is_Some, depth_length, Hds by done. destruct open_start as [first|].
- apply joinable_ok in Jf as [(l & El & _) _]. rewrite Nat.add_1_r in El.
apply (level_depth (schema:=schema)) in El; [|done]. split; [eauto|lia].
- split; [lia|by intros []]. }
assert (Hdeep_e : is_Some (r_path end_ !! S d) <-> is_Some open_end).
{ rewrite lookup_lt_is_Some, depth_length by done. destruct open_end as [last|].
- apply joinable_ok in Je as [(l & El & _) _]. rewrite Nat.add_1_r in El.
apply (level_depth (schema:=schema)) in El; [|done]. split; [eauto|lia].
- split; [lia|by intros []]. }
assert (Hle : first_after start d ls <= l_index le).
{ eapply first_after_le; [exact Hs|exact He|done..|]. rewrite Hdeep_s, Hdeep_e. done. }
destruct (side_closed from start d content t1 open_start) as [F1 W1]; [done..|].
destruct (add_range_between (schema:=schema) start end_ d ls le t1) as (t2' & R2' & F2 & W2); [done..|].
rewrite R2 in R2'. injection R2' as <-.
destruct (side_closed end_ to d t2 t3 open_end) as [F3 W3]; [done..|].
destruct (add_range_start to d lt t3 Ht Et W3) as (t4' & R4' & F4 & W4).
rewrite R4 in R4'. injection R4' as <-. split; [done|].
destruct (left_split from d lf Hf Ef) as [-> _], (left_split to d lt Ht Et) as [_ ->].
rewrite F4, F3, F2, F1, Fc. rewrite <- !app_assoc. f_equal.
pose proof (left_first_after start d ls Hs Es Bs) as Hfa. rewrite Hn in Hfa.
set (C := f_content (n_content (l_node le))) in *.
assert (HX : match r_path start !! S d with Some _ => right start (S d) ++ [TClose] | None => [] end ++
flat (take (l_index le - first_after start d ls) (drop (first_after start d ls) C)) ++
match r_path end_ !! S d with Some l => open_token (l_node l) :: left end_ (S d) | None => [] end = M).
{ apply (app_inv_head (left start d)). rewrite HM, app_assoc, Hfa.
destruct (left_split end_ d le He Ee) as [-> _]. rewrite here_left_boundary by done.
rewrite app_assoc. f_equal. unfold before_level. fold C. rewrite <- flat_app. f_equal.
rewrite <- (take_drop (first_after start d ls) (take (l_index le) C)).
rewrite take_take, Nat.min_l, take_drop_commute by lia.
by replace (first_after start d ls + (l_index le - first_after start d ls)) with (l_index le) by lia. }
rewrite <- HX. clear HX HM.
assert (Ls : is_Some (r_path from !! S d) <-> is_Some (r_path start !! S d)).
{ rewrite !lookup_lt_is_Some, !(depth_length (schema:=schema)), Hds by done. done. }
assert (Le : is_Some (r_path to !! S d) <-> is_Some (r_path end_ !! S d)).
{ rewrite !lookup_lt_is_Some, !(depth_length (schema:=schema)), Hde by done. done. }
clear -Ls Le. rewrite !is_Some_alt in Ls, Le.
destruct (r_path from !! S d), (r_path start !! S d); try tauto;
destruct (r_path to !! S d), (r_path end_ !! S d); try tauto; by list_simplifier.
Qed.

Lemma three_way_spec levels from start end_ to d f M :
prepared from start end_ to ->
levels = Resolved.depth from - d -> d <= Resolved.depth from -> d <= Resolved.depth to ->
(exists ls le, r_path start !! d = Some ls /\ r_path end_ !! d = Some le /\ l_node ls = l_node le) ->
left start d ++ M = left end_ d ->
replace_three_way_in schema levels from start end_ to d = Ok f ->
wff f /\ toks f = left from d ++ M ++ right to d.
Proof.
intros Hp. pose proof Hp as [Hf Hs He Ht Hds Hde Bs Be].
revert d f. induction levels as [|levels IH]; intros d f Hlev Hdf Hdt (ls & le & Es & Ee & Hn) HM E;
simpl in E; destruct (level_exists from d Hf Hdf) as [lf Ef];
destruct (level_exists to d Ht Hdt) as [lt Et];
destruct (add_range_end from d lf [] Hf Ef) as (t0 & R0 & F0 & W0); try done; rewrite app_nil_l in F0.
- apply bind_ok in E as (open_end & Je & E). rewrite R0 in E. simpl in E.
apply bind_ok in E as (t3 & Em & E). apply bind_ok in Em as (t2 & R2 & R3).
apply bind_ok in E as (t4 & R4 & E). injection E as <-. rewrite toks_new.
destruct (three_way_parted from start end_ to d lf lt ls le M None open_end t0 t0 t2 t3 t4)
as [W4 F4]; try done; [lia|].
destruct (Nat.ltb_spec d (Resolved.depth to)); [|inv_ok; lia].
by apply fmap_ok in Je as (last & Je & <-).
- apply bind_ok in E as (open_start & Jf & E). apply fmap_ok in Jf as (first & Jf & <-).
apply bind_ok in E as (open_end & Je & E). rewrite R0 in E. simpl in E.
apply bind_ok in E as (same & Esame & E). apply bind_ok in E as (t3 & Em & E).
apply bind_ok in E as (t4 & R4 & E). injection E as <-. rewrite toks_new.
assert (Hopen : match open_end with
| Some last => joinable schema end_ to (d + 1) = Ok last
| None => Resolved.depth end_ <= d end).
{ destruct (Nat.ltb_spec d (Resolved.depth to)); [|inv_ok; lia].
by apply fmap_ok in Je as (last & Je & <-). }
destruct same, open_end as [last|]; try done.
+ apply bind_ok in Esame as (i & Hi & Esame). apply bind_ok in Esame as (j & Hj & Esame).
injection Esame as Eij%Nat.eqb_eq.
apply index_ok in Hi as (ls' & Es' & <-). apply index_ok in Hj as (le' & Ee' & <-).
rewrite Es in Es'. injection Es' as <-. rewrite Ee in Ee'. injection Ee' as <-.
apply bind_ok in Em as (_ & _ & Em). apply bind_ok in Em as (inner & Ei & Em).
apply bind_ok in Em as (closed & Ec & Em). injection Em as <-.
rewrite Nat.add_1_r in *.
apply joinable_ok in Jf as [(lk & Ek & <-) (ls1 & Es1 & _)].
apply joinable_ok in Hopen as [(le1 & Ee1 & _) (lt1 & Et1 & _)].
destruct (open_child start d ls ls1 Hs Es Es1) as (C1 & _), (open_child end_ d le le1 He Ee Ee1) as (C2 & _).
rewrite Hn, Eij, C2 in C1. injection C1 as C1.
destruct (left_step start d ls ls1 Es Es1) as [Ls _], (left_step end_ d le le1 Ee Ee1) as [Le _].
rewrite Ls, Le in HM. unfold before_level in HM. rewrite Hn, Eij, C1, <- app_assoc in HM.
apply app_inv_head in HM. injection HM as HM.
apply IH in Ei as [Wi Ti]; [|lia| | |by exists ls1, le1|done].
2: { by apply (level_depth (schema:=schema)) in Ek. }
2: { by apply (level_depth (schema:=schema)) in Et1. }
destruct (add_closed from d lk t0 inner closed) as [F1 W1]; [done..|].
destruct (add_range_start to d lt _ Ht Et W1) as (t4' & R4' & F4 & W4).
rewrite R4 in R4'. injection R4' as <-. split; [by apply wf_new|].
rewrite F4, F1, F0, Ti. destruct (left_split from d lf Hf Ef) as [-> _].
destruct (left_split to d lt Ht Et) as [_ ->]. rewrite Ek, Et1. simpl.
by rewrite <- !app_assoc; simpl; rewrite <- !app_assoc.
+ apply bind_ok in Em as (t1 & R1 & Em). apply bind_ok in Em as (t2 & R2 & R3).
destruct (three_way_parted from start end_ to d lf lt ls le M (Some first) (Some last) t0 t1 t2 t3 t4)
as [W4 F4]; try done.
intros _ _ Heq. apply bind_ok in Esame as (i & Hi & Esame). apply bind_ok in Esame as (j & Hj & Esame).
injection Esame as Eij%Nat.eqb_neq.
apply index_ok in Hi as (ls' & Es' & <-). apply index_ok in Hj as (le' & Ee' & <-). congruence.
+ apply bind_ok in Em as (t1 & R1 & Em). apply bind_ok in Em as (t2 & R2 & R3).
destruct (three_way_parted from start end_ to d lf lt ls le M (Some first) None t0 t1 t2 t3 t4)
as [W4 F4]; try done.
Qed.
End walks.

(* ------------------------------------------------------------ *)

(** Slices in tokens: a well-formed slice, and what [prepare_slice] of
    [documents/crates/text/src/replace.rs] makes of it. *)

(** [inner c] is a node that a position can go into. *)
Definition inner (c : Node) : bool := negb (Node.is_text c) && negb (n_leaf c).

(** The first (last) children, one in the other, that an open side goes through. *)
Fixpoint open_left (n : nat) (l : list Node) : bool :=
  match n with
  | O => true
  | S n => match head l with Some c => inner c && open_left n (f_content (n_content c)) | None => false end
  end.
Fixpoint open_right (n : nat) (l : list Node) : bool :=
  match n with
  | O => true
  | S n => match last l with Some c => inner c && open_right n (f_content (n_content c)) | None => false end
  end.

(** A slice whose two sides are as deep as they say. *)
Record wf_slice (schema : Schema) (s : Slice) : Prop := {
  ws_content : wf_fragment schema (s_content s);
  ws_start : open_left (s_open_start s) (f_content (s_content s)) = true;
  ws_end : open_right (s_open_end s) (f_content (s_content s)) = true
}.

(** The tokens that a slice puts in. *)
Definition slice_toks (s : Slice) : list token :=
  drop (s_open_start s) (take (f_size (s_content s) - s_open_end s) (toks (s_content s))).

(** [around k n c]: [n] is [k] nodes, each the only child of the one before, and then [c]. *)
Inductive around : nat -> Node -> Node -> Prop :=
| around_here n : around 0 n n
| around_down k n m c :
    f_content (n_content n) = [m] -> inner m = true -> around k m c -> around (S k) n c.

Section slice.
Context {schema : Schema}.
Local Abbreviation wfn n := (wf_node schema n = true).
Local Abbreviation wfl l := (wf_list schema l).
Local Abbreviation wff f := (wf_fragment schema f).
Local Abbreviation ok := (ok (schema:=schema)).

Lemma inner_true c : inner c = true <-> n_text c = None /\ n_leaf c = false.
Proof. unfold inner. rewrite andb_true_iff, !negb_true_iff, is_text_false. done. Qed.

Lemma inner_size c : inner c = true -> Node.node_size c = 2 + f_size (n_content c).
Proof. intros [E1 E2]%inner_true. unfold Node.node_size. by rewrite E1, E2. Qed.

Lemma inner_flatten c : inner c = true -> flatten c = open_token c :: toks (n_content c) ++ [TClose].
Proof. intros [E1 E2]%inner_true. by apply flatten_inner. Qed.

(** An open side takes two tokens for each level. *)
Lemma open_left_size n : forall f, wff f -> open_left n (f_content f) = true -> n + n <= f_size f.
Proof.
induction n as [|n IH]; intros f Hf Ho; simpl in Ho; [lia|].
destruct (f_content f) as [|c rest] eqn:E; [done|]. simpl in Ho.
apply andb_true_iff in Ho as [Hc Ho]. destruct Hf as [Hs Hl]. rewrite E in Hs, Hl.
apply wf_list_cons in Hl as [Hwc _]. simpl in Hs. rewrite inner_size in Hs by done.
specialize (IH _ (wf_content _ Hwc) Ho). lia.
Qed.

Lemma open_right_size n : forall f, wff f -> open_right n (f_content f) = true -> n + n <= f_size f.
Proof.
induction n as [|n IH]; intros f Hf Ho; simpl in Ho; [lia|].
destruct (last (f_content f)) as [c|] eqn:E; [|done].
apply andb_true_iff in Ho as [Hc Ho]. destruct Hf as [Hs Hl]. apply last_Some in E as [rest E].
rewrite E in Hs, Hl. apply wf_list_app in Hl as [_ Hl]. apply wf_list_cons in Hl as [Hwc _].
rewrite sum_list_with_app in Hs. simpl in Hs. rewrite inner_size in Hs by done.
specialize (IH _ (wf_content _ Hwc) Ho). lia.
Qed.

(** *** Paths through only children, and along the open sides *)

Lemma found_inside content po i off j c :
wfl content -> found content po i off -> content !! j = Some c ->
length (flat (take j content)) < po < length (flat (take j content)) + Node.node_size c ->
i = j /\ off = length (flat (take j content)) /\ off <> po.
Proof.
intros Hl (Hoff & Hi & Hin) Hc Hpo.
pose proof (flat_take_S (schema:=schema) content j c Hl Hc) as HS.
assert (i <= j).
{ destruct (decide (i <= j)) as [|Hgt]; [done|].
pose proof (flat_take_mono content (S j) i). destruct Hin as [|(? & _ & ?)]; lia. }
assert (i = j) as ->; [|lia].
destruct (decide (i = j)) as [|Hne]; [done|]. exfalso.
destruct Hin as [|(c' & Hc' & Hin)].
- pose proof (flat_take_mono content i j). lia.
- pose proof (flat_take_S (schema:=schema) content i c' Hl Hc').
pose proof (flat_take_mono content (S i) j). lia.
Qed.

(** A position inside the child at an index goes down into this child. *)
Lemma path_into n po st path last j c :
path_ok n po st path last -> wfn n -> f_content (n_content n) !! j = Some c -> inner c = true ->
let before := length (flat (take j (f_content (n_content n)))) in
before < po < before + Node.node_size c ->
exists l path', path = l :: path' /\ l_node l = n /\
path_ok c (po - before - 1) (st + before + 1) path' last.
Proof.
intros Hp Hw Hc [Ht Hlf]%inner_true before Hpo. pose proof (wf_content _ Hw) as [_ Hl].
destruct Hp as [n po st i off Hf Hb|n po st i off c' path last Hf Hlt Hc' _ _ Hp].
- destruct (found_inside _ _ _ _ _ _ Hl Hf Hc Hpo) as (-> & Hoff & Hne).
destruct Hb as [|(c' & Hc' & [? Ht']%is_text_true)]; [done|]. congruence.
- destruct (found_inside _ _ _ _ _ _ Hl Hf Hc Hpo) as (-> & -> & Hne).
rewrite Hc in Hc'. injection Hc' as <-. eauto 10.
Qed.

Lemma path_around k n c po st path last :
around k n c -> path_ok n po st path last -> wfn n ->
k <= po -> po + k <= length (toks (n_content n)) ->
exists st', path_ok c (po - k) st' (drop k path) last /\ wfn c /\
length (toks (n_content n)) = k + k + length (toks (n_content c)).
Proof.
intros Ha. revert po st path. induction Ha as [n|k n m c Hn Hm Ha IH]; intros po st path Hp Hw H1 H2.
- exists st. rewrite Nat.sub_0_r, drop_0. done.
- pose proof (wf_content _ Hw) as [_ Hl]. rewrite Hn in Hl. apply wf_list_cons in Hl as [Hwm _].
assert (E : toks (n_content n) = open_token m :: toks (n_content m) ++ [TClose]).
{ unfold toks at 1. by rewrite Hn, flat_singleton, inner_flatten. }
rewrite E in H2 |- *. simpl in H2 |- *. rewrite length_app in H2 |- *. simpl in H2 |- *.
destruct (path_into n po st path last 0 m) as (l & path' & -> & _ & Hp'); try done.
{ by rewrite Hn. }
{ rewrite take_0, flat_nil, inner_size by done. simpl.
rewrite (f_size_toks (schema:=schema)) by by apply wf_content. lia. }
rewrite take_0, flat_nil in Hp'. simpl in Hp'.
destruct (IH (po - 0 - 1) (st + 0 + 1) path') as (st'' & Hp'' & Hwc & El); [done..|lia|lia|].
exists st''. simpl. replace (po - S k) with (po - 0 - 1 - k) by lia.
split; [done|]. split; [done|lia].
Qed.

Lemma path_front po : forall n st path last,
path_ok n po st path last -> wfn n -> open_left po (f_content (n_content n)) = true ->
length path = S po /\ last = 0.
Proof.
induction po as [|po IH]; intros n st path last Hp Hw Ho; simpl in Ho.
- inversion Hp; subst; [done|lia].
- destruct (f_content (n_content n)) as [|c rest] eqn:En; [done|]. simpl in Ho.
apply andb_true_iff in Ho as [Hc Ho]. pose proof (wf_content _ Hw) as [_ Hl].
rewrite En in Hl. apply wf_list_cons in Hl as [Hwc _].
pose proof (open_left_size _ _ (wf_content _ Hwc) Ho) as Hsize.
destruct (path_into n (S po) st path last 0 c) as (l & path' & -> & _ & Hp'); try done.
{ by rewrite En. }
{ rewrite take_0, flat_nil, inner_size by done. simpl. lia. }
rewrite take_0, flat_nil in Hp'. simpl in Hp'. rewrite Nat.sub_0_r in Hp'.
destruct (IH _ _ _ _ Hp' Hwc Ho) as [El ->]. simpl. by rewrite El.
Qed.

Lemma path_back k : forall n po st path last,
path_ok n po st path last -> wfn n -> open_right k (f_content (n_content n)) = true ->
po + k = f_size (n_content n) ->
length path = S k /\ exists l, list_basics.list.last path = Some l /\ last = length (level_toks l).
Proof.
induction k as [|k IH]; intros n po st path last Hp Hw Ho Hpo; simpl in Ho.
- pose proof (wf_content _ Hw) as Hf. pose proof (f_size_toks (schema:=schema) _ Hf) as Hs.
inversion Hp as [? ? ? i off Hfd Hb|? ? ? i off c path' ? Hfd Hlt Hc Ht Hlf Hp']; subst.
+ split; [done|]. eexists. split; [done|]. unfold level_toks. simpl. lia.
+ exfalso. destruct Hfd as (-> & _ & [|(c' & Hc' & Hin)]); [lia|].
destruct Hf as [Hf Hl]. pose proof (flat_take_S (schema:=schema) _ _ c' Hl Hc').
pose proof (flat_take_mono (f_content (n_content n)) (S i) (length (f_content (n_content n)))) as Hm.
rewrite firstn_all in Hm. apply lookup_lt_Some in Hc'. unfold toks in Hs. lia.
- destruct (list_basics.list.last (f_content (n_content n))) as [c|] eqn:En; [|done].
apply andb_true_iff in Ho as [Hc Ho]. pose proof (wf_content _ Hw) as [Hs Hl].
apply last_Some in En as [rest En]. pose proof Hl as Hl'.
rewrite En in Hl'. apply wf_list_app in Hl' as [Hlr Hwc]. apply wf_list_cons in Hwc as [Hwc _].
pose proof (open_right_size _ _ (wf_content _ Hwc) Ho) as Hsize.
rewrite En, sum_list_with_app in Hs. simpl in Hs.
rewrite inner_size, (sum_size_flat (schema:=schema)) in Hs by done.
destruct (path_into n po st path last (length rest) c) as (l & path' & -> & _ & Hp'); try done.
{ rewrite En. by rewrite lookup_app_r, Nat.sub_diag by lia. }
{ rewrite En, take_app_length, inner_size by done. lia. }
rewrite En, take_app_length in Hp'.
destruct (IH _ _ _ _ _ Hp' Hwc Ho) as (El & l' & El' & ->); [lia|].
simpl. rewrite El. split; [done|]. exists l'. split; [|done]. by destruct path'.
Qed.

(** *** The tree that [prepare_slice] wraps around a slice *)

Lemma around_snoc k n m c :
around k n m -> f_content (n_content m) = [c] -> inner c = true -> around (S k) n c.
Proof. induction 1; intros; econstructor; eauto using around. Qed.

Lemma around_split d k n c :
d <= k -> around k n c -> exists m, around d n m /\ around (k - d) m c.
Proof.
revert k n. induction d as [|d IH]; intros k n Hd Ha.
- exists n. rewrite Nat.sub_0_r. split; [constructor|done].
- inversion Ha as [|k' ? m ? Hn Hm Ha']; subst; [lia|].
destruct (IH k' m) as (m' & H1 & H2); [lia|done|]. exists m'. split; [by econstructor|done].
Qed.

Lemma around_toks k n c :
around k n c -> exists pre post, length pre = k /\ length post = k /\
toks (n_content n) = pre ++ toks (n_content c) ++ post.
Proof.
induction 1 as [n|k n m c Hn Hm Ha (pre & post & H1 & H2 & E)].
- exists [], []. by rewrite app_nil_r.
- exists (open_token m :: pre), (post ++ [TClose]). rewrite length_app. simpl.
split; [lia|]. split; [lia|]. unfold toks at 1.
by rewrite Hn, flat_singleton, inner_flatten, E, <- !app_assoc.
Qed.

Lemma inner_below r d l : ok r -> r_path r !! S d = Some l -> inner (l_node l) = true.
Proof.
intros Hr E. destruct (level_exists r d Hr) as [l0 E0].
{ apply (level_depth (schema:=schema)) in E; [lia|done]. }
apply inner_true. by destruct (open_child r d l0 l Hr E0 E).
Qed.

Lemma wrap_spec along e : forall n root,
ok along -> wfn n -> n_text n = None -> (0 < e -> inner n = true) ->
wrap along e n = Ok root ->
around e root n /\ wfn root /\ n_text root = None.
Proof.
induction e as [|e IH]; intros n root Hok Hw Ht Hi E; simpl in E.
- inv_ok. split; [constructor|done].
- apply bind_ok in E as (outer & Eo & E). apply node_ok in Eo as (l & El & <-).
destruct (level_facts along e l Hok El) as (Hwl & Htl & _).
apply IH in E as (Ha & Hw' & Ht'); try done.
+ split; [|done]. eapply around_snoc; [exact Ha|done|apply Hi; lia].
+ apply wf_copy; [done|done|]. apply wf_new. by apply wf_list_cons.
+ intros He. destruct e as [|e]; [lia|]. apply (inner_below along e l Hok El).
Qed.

(** *** The two ends of the slice in this tree *)

Lemma boundary_edge r l :
ok r -> r_path r !! Resolved.depth r = Some l ->
r_parent_offset r = 0 \/ r_parent_offset r = length (level_toks l) -> boundary r.
Proof.
intros Hok El Hedge. destruct (bottom r l Hok El) as (o & Ho & Hpo & Hin).
unfold boundary. rewrite Ho. destruct Hin as [->|(c & Hc & _ & Hlt)]; [done|exfalso].
destruct Hedge as [Hedge|Hedge]; [lia|].
destruct (level_facts r _ l Hok El) as (Hw & _). pose proof (wf_content _ Hw) as [_ Hl].
pose proof (flat_take_S (schema:=schema) _ _ c Hl Hc).
pose proof (flat_take_mono (f_content (n_content (l_node l))) (S (l_index l))
(length (f_content (n_content (l_node l))))) as Hm.
rewrite firstn_all in Hm. apply lookup_lt_Some in Hc.
unfold before_level, level_toks, toks in *. lia.
Qed.

(** One level of the wrapping nodes, as an end of the slice sees it. *)
Lemma level_around root pos r extra n d :
wfn root -> resolved root pos r -> around extra root n ->
d <= extra -> extra <= pos -> pos + extra <= length (toks (n_content root)) ->
exists m l, around d root m /\ around (extra - d) m n /\ r_path r !! d = Some l /\ l_node l = m /\
left r d = take (pos - d) (toks (n_content m)).
Proof.
intros Hw [_ Hp] Ha Hd H1 H2. destruct (around_split d extra root n Hd Ha) as (m & A1 & A2).
destruct (path_around d root m pos 0 _ _ A1 Hp Hw) as (st & Hp' & Hwm & _); [lia|lia|].
destruct (path_head _ _ _ _ _ Hp') as (l & path' & E & Hl).
exists m, l. split; [done|]. split; [done|]. split.
{ pose proof (lookup_drop (r_path r) d 0) as HL. rewrite E, Nat.add_0_r in HL. done. }
split; [done|]. unfold left. by apply (path_split _ _ _ _ _ Hp' Hwm).
Qed.

Lemma drop_depth (r : ResolvedPos) extra k :
length (drop extra (r_path r)) = S k -> Resolved.depth r = extra + k.
Proof. rewrite length_drop. unfold Resolved.depth. lia. Qed.

Lemma last_level (r : ResolvedPos) extra l :
list_basics.list.last (drop extra (r_path r)) = Some l -> r_path r !! Resolved.depth r = Some l.
Proof.
rewrite last_lookup, lookup_drop, length_drop. unfold Resolved.depth. intros H.
pose proof (lookup_lt_Some _ _ _ H). rewrite <- H. f_equal. lia.
Qed.

Lemma start_resolved root extra n open r :
wfn root -> n_text root = None -> around extra root n ->
open_left open (f_content (n_content n)) = true ->
wfn n -> Resolved.resolve root (open + extra) = Ok r ->
ok r /\ Resolved.depth r = extra + open /\ boundary r /\ resolved root (open + extra) r.
Proof.
intros Hw Ht Ha Ho Hwn E. apply (resolve_ok (schema:=schema)) in E as [Hpos Hr]; [|done].
pose proof (resolved_is_ok (schema:=schema) _ _ _ Hw Ht Hr) as Hok.
pose proof Hr as [_ Hp]. rewrite (f_size_toks (schema:=schema)) in Hpos by by apply wf_content.
pose proof (open_left_size _ _ (wf_content _ Hwn) Ho) as Hn.
rewrite (f_size_toks (schema:=schema)) in Hn by by apply wf_content.
destruct (around_toks _ _ _ Ha) as (pre & post & L1 & L2 & El).
apply (f_equal length) in El. rewrite !length_app in El.
destruct (path_around extra root n _ 0 _ _ Ha Hp Hw) as (st & Hp' & _ & _); [lia|lia|].
rewrite Nat.add_sub in Hp'. destruct (path_front _ _ _ _ _ Hp' Hwn Ho) as [Hlen Hlast].
split; [done|]. pose proof (drop_depth _ _ _ Hlen) as Hd. split; [done|]. split; [|done].
destruct (level_exists r (Resolved.depth r) Hok) as [l El']; [done|].
eapply boundary_edge; eauto.
Qed.

Lemma end_resolved root extra n open r :
wfn root -> n_text root = None -> around extra root n ->
open_right open (f_content (n_content n)) = true ->
wfn n -> Resolved.resolve root (f_size (n_content root) - (open + extra)) = Ok r ->
ok r /\ Resolved.depth r = extra + open /\ boundary r /\
resolved root (f_size (n_content root) - (open + extra)) r.
Proof.
intros Hw Ht Ha Ho Hwn E. apply (resolve_ok (schema:=schema)) in E as [Hpos Hr]; [|done].
pose proof (resolved_is_ok (schema:=schema) _ _ _ Hw Ht Hr) as Hok.
pose proof Hr as [_ Hp].
pose proof (open_right_size _ _ (wf_content _ Hwn) Ho) as Hn.
pose proof (f_size_toks (schema:=schema) _ (wf_content _ Hwn)) as Sn.
pose proof (f_size_toks (schema:=schema) _ (wf_content _ Hw)) as Sr.
destruct (around_toks _ _ _ Ha) as (pre & post & L1 & L2 & El).
apply (f_equal length) in El. rewrite !length_app in El.
destruct (path_around extra root n _ 0 _ _ Ha Hp Hw) as (st & Hp' & _ & _); [lia|lia|].
destruct (path_back open n _ _ _ _ Hp' Hwn Ho) as (Hlen & l & Hlast & Hl); [lia|].
split; [done|]. pose proof (drop_depth _ _ _ Hlen) as Hd. split; [done|]. split; [|done].
apply last_level in Hlast. eapply boundary_edge; eauto.
Qed.

Lemma slice_fits s : wf_slice schema s ->
s_open_start s + s_open_end s <= f_size (s_content s).
Proof.
intros [Hf Hs He]. pose proof (open_left_size _ _ Hf Hs). pose proof (open_right_size _ _ Hf He). lia.
Qed.

Lemma slice_toks_length s : wf_slice schema s ->
length (slice_toks s) = f_size (s_content s) - (s_open_start s + s_open_end s).
Proof.
intros [Hf _ _]. unfold slice_toks. rewrite length_drop, length_take, <- (f_size_toks (schema:=schema)) by done.
lia.
Qed.

(** [prepare_slice]: two boundaries of one tree, with the tokens of the slice between. *)
Lemma prepare_spec s along start end_ :
ok along -> wf_slice schema s -> prepare_slice s along = Ok (start, end_) ->
s_open_start s <= Resolved.depth along /\
let extra := Resolved.depth along - s_open_start s in
ok start /\ ok end_ /\ Resolved.depth start = Resolved.depth along /\
Resolved.depth end_ = extra + s_open_end s /\ boundary start /\ boundary end_ /\
forall d, d <= extra ->
(exists ls le, r_path start !! d = Some ls /\ r_path end_ !! d = Some le /\ l_node ls = l_node le) /\
left start d ++ slice_toks s = left end_ d.
Proof.
intros Hok Hs E. pose proof (slice_fits s Hs) as Hfit. destruct Hs as [Hc Hos Hoe].
unfold prepare_slice in E. apply bind_ok in E as (extra & [-> Hd]%usub_ok & E).
apply bind_ok in E as (base & Eb & E). apply node_ok in Eb as (l & El & <-).
apply bind_ok in E as (root & Er & E).
apply bind_ok in E as (position & [-> _]%uadd_ok & E). apply bind_ok in E as (start' & Es & E).
apply bind_ok in E as (open & [-> _]%uadd_ok & E).
destruct (Nat.leb_spec (s_open_end s + (Resolved.depth along - s_open_start s)) (f_size (n_content root)));
[|done]. apply bind_ok in E as (end' & Ee & E). injection E as -> ->.
split; [done|]. intros extra. fold extra in El, Es, Ee, Er.
destruct (level_facts along extra l Hok El) as (Hwl & Htl & _).
set (n := Node.copy (l_node l) (s_content s)) in *.
assert (Hwn : wfn n) by by apply wf_copy.
destruct (wrap_spec along extra n root) as (Ha & Hw & Ht); try done.
{ intros He. destruct extra as [|e]; [lia|]. apply (inner_below along e l Hok El). }
destruct (start_resolved root extra n (s_open_start s) start) as (O1 & D1 & B1 & R1); try done.
destruct (end_resolved root extra n (s_open_end s) end_) as (O2 & D2 & B2 & R2); try done.
split; [done|]. split; [done|]. split; [lia|]. split; [done|]. split; [done|]. split; [done|].
intros d Hde. pose proof (f_size_toks (schema:=schema) _ (wf_content _ Hw)) as Sr.
pose proof (f_size_toks (schema:=schema) _ Hc) as Sn.
destruct (around_toks _ _ _ Ha) as (pre & post & L1 & L2 & Elen).
apply (f_equal length) in Elen. rewrite !length_app in Elen. simpl in Elen.
destruct (level_around root _ start extra n d Hw R1 Ha Hde) as (m & ls & A1 & A2 & Els & Hls & Ls); [lia..|].
destruct (level_around root _ end_ extra n d Hw R2 Ha Hde) as (m' & le & A1' & A2' & Ele & Hle & Le); [lia..|].
assert (m' = m) as ->.
{ clear -A1 A1'. revert m' A1'. induction A1; inversion 1; subst; [done|].
match goal with H : f_content _ = [?a], H' : f_content _ = [?b] |- _ => assert (a = b) as -> by congruence end.
auto. }
split; [exists ls, le; by rewrite Hls, Hle|].
destruct (around_toks _ _ _ A2) as (pre' & post' & L1' & L2' & Em).
rewrite Ls, Le, Em. simpl. unfold slice_toks. rewrite Sr, Elen. fold (toks (s_content s)) in *.
set (C := toks (s_content s)) in *.
rewrite (take_app_ge pre'), (take_app_ge pre') by lia. rewrite <- app_assoc. f_equal.
rewrite L1', !take_app_le by lia.
replace (s_open_start s + extra - d - (extra - d)) with (s_open_start s) by lia.
replace (_ - d - (extra - d)) with (length C - s_open_end s) by lia. rewrite Sn.
rewrite <- (take_drop (s_open_start s) (take (length C - s_open_end s) C)) at 2.
rewrite take_take, Nat.min_l by lia. done.
Qed.
End slice.
