(* ===== verification/TextSafe.v ===== *)
(** [replace_outer] and [replace] of [documents/crates/text/src/replace.rs] in tokens:
    the tokens of a slice take the place of the tokens of a range. *)

From S2P Require Import Prelude Json TextData TextSchema TextNode TextResolved TextReplace.
From S2P Require Import TextTokens TextCut TextReplaceSpec TextSlice.
Section outer.
Context {schema : Schema}.
Local Abbreviation wfn n := (wf_node schema n = true).
Local Abbreviation wfl l := (wf_list schema l).
Local Abbreviation wff f := (wf_fragment schema f).
Local Abbreviation ok := (ok (schema:=schema)).

(** A position in the last level: nothing is open before it. *)
Lemma pending_bottom r l :
ok r -> r_path r !! Resolved.depth r = Some l ->
pending (take (r_parent_offset r) (level_toks l)) = [] /\
r_parent_offset r <= length (level_toks l).
Proof.
intros Hok El. destruct (bottom r l Hok El) as (o & _ & -> & Hin).
destruct (level_facts r _ l Hok El) as (Hw & _ & Hi & _). pose proof (wf_content _ Hw) as [_ Hl].
set (C := f_content (n_content (l_node l))) in *. unfold level_toks, toks, before_level. fold C.
assert (Hsplit : flat C = flat (take (l_index l) C) ++ flat (drop (l_index l) C))
by by rewrite <- flat_app, take_drop.
assert (Hp : pending (flat (take (l_index l) C)) = []).
{ unfold pending. by rewrite (pend_flat (schema:=schema)) by eauto with kodosi. }
destruct Hin as [->|(c & Hc & [units Hu]%is_text_true & Hlt)].
- rewrite Nat.add_0_r, Hsplit, take_app_length, length_app. split; [done|lia].
- pose proof (wf_list_lookup _ _ _ Hl Hc) as Hwc. unfold Node.node_size in Hlt. rewrite Hu in Hlt.
rewrite (flat_child _ _ _ Hc), take_app_add, (flatten_text _ _ Hu), take_app_le by (rewrite length_fmap; lia).
split; [|rewrite !length_app, length_fmap; lia].
unfold pending in *. rewrite pend_app, Hp, <- fmap_take. apply pend_units.
Qed.

(** The flat case: both positions and the slice's ends lie in one node. *)
Lemma flat_case from to lf lt content a b :
ok from -> ok to ->
r_path from !! Resolved.depth from = Some lf -> r_path to !! Resolved.depth to = Some lt ->
l_node lf = l_node lt -> wff content ->
Fragment.cut (n_content (l_node lf)) 0 (r_parent_offset from) = Ok a ->
Fragment.cut_end (n_content (l_node lf)) (r_parent_offset to) = Ok b ->
let all := Fragment.append (Fragment.append a content) b in
wff all /\ toks all = left from (Resolved.depth from) ++ toks content ++ right to (Resolved.depth to).
Proof.
intros Hf Ht Ef Et Hn Hc Ea Eb.
destruct (pending_bottom from lf Hf Ef) as [P1 L1], (pending_bottom to lt Ht Et) as [P2 L2].
destruct (level_facts from _ lf Hf Ef) as (Hw & _). pose proof (wf_content _ Hw) as Hwf.
unfold level_toks in *. rewrite <- Hn in *.
rewrite <- (f_size_toks (schema:=schema)) in L1, L2 by done.
apply (cut_front (schema:=schema)) in Ea as [Wa Ta]; try done.
apply (cut_back (schema:=schema)) in Eb as [Wb Tb]; try done.
destruct (append_spec (schema:=schema) a content Wa Hc) as [T1 W1].
destruct (append_spec (schema:=schema) _ b W1 Wb) as [T2 W2].
split; [done|]. rewrite T2, T1, Ta, Tb, <- app_assoc. f_equal; [|f_equal].
- unfold left. rewrite (drop_S _ _ _ Ef), (drop_ge (r_path from)) by (rewrite (depth_length (schema:=schema)) by done; lia). done.
- unfold right. rewrite (drop_S _ _ _ Et), (drop_ge (r_path to)) by (rewrite (depth_length (schema:=schema)) by done; lia).
unfold rights, level_toks. by rewrite <- Hn.
Qed.

Lemma slice_toks_empty s : wf_slice schema s -> f_size (s_content s) = 0 ->
s_open_start s = 0 /\ s_open_end s = 0 /\ slice_toks s = [].
Proof.
intros Hs Hz. pose proof (slice_fits s Hs). split; [lia|]. split; [lia|].
apply length_zero_iff_nil. rewrite (slice_toks_length s Hs). lia.
Qed.

Lemma slice_toks_closed s : wf_slice schema s -> s_open_start s = 0 -> s_open_end s = 0 ->
slice_toks s = toks (s_content s).
Proof.
intros [Hc _ _] E1 E2. unfold slice_toks. rewrite E1, E2, Nat.sub_0_r, drop_0.
rewrite take_ge; [done|]. by rewrite (f_size_toks (schema:=schema)).
Qed.

(** What [replace_outer] makes of the node of both paths at a depth. *)
Definition outer_result (from to : ResolvedPos) (s : Slice) (d : nat) (n : Node) : Prop :=
exists l content, r_path from !! d = Some l /\ n = Node.copy (l_node l) content /\
wff content /\ toks content = left from d ++ slice_toks s ++ right to d.

(** The part of [replace_outer] that goes no deeper. *)
Lemma outer_here from to s d lf lt n :
ok from -> ok to -> wf_slice schema s ->
d + s_open_start s <= Resolved.depth from ->
Resolved.depth from + s_open_end s = Resolved.depth to + s_open_start s ->
r_path from !! d = Some lf -> r_path to !! d = Some lt -> l_node lf = l_node lt ->
(if f_size (s_content s) =? 0 then
content ← replace_two_way schema from to d; close schema (l_node lf) content
else if (s_open_start s =? 0) && (s_open_end s =? 0) &&
(Resolved.depth from =? d) && (Resolved.depth to =? d) then
parent ← Resolved.parent from;
a ← Fragment.cut (n_content parent) 0 (r_parent_offset from);
b ← Fragment.cut_end (n_content parent) (r_parent_offset to);
close schema parent (Fragment.append (Fragment.append a (s_content s)) b)
else
'(start, end_) ← prepare_slice s from;
content ← replace_three_way schema from start end_ to d;
close schema (l_node lf) content) = Ok n ->
outer_result from to s d n.
Proof.
intros Hf Ht Hs Hd Hdep Ef Et Hn E. pose proof (level_depth _ _ _ Ht Et) as Hdt.
destruct (Nat.eqb_spec (f_size (s_content s)) 0) as [Hz|_].
{ destruct (slice_toks_empty s Hs Hz) as (E1 & E2 & E3).
apply bind_ok in E as (content & Ec & E). apply close_ok in E as [-> _].
apply two_way_tokens in Ec as [Wc Tc]; [|done|done|lia|lia].
exists lf, content. by rewrite E3. }
destruct (_ && _) eqn:Eflat.
- rewrite !andb_true_iff, !Nat.eqb_eq in Eflat. destruct Eflat as (((E1 & E2) & Hdf) & Hdt'). subst d.
apply bind_ok in E as (parent & Ep & E). apply node_ok in Ep as (l & El & <-).
rewrite Ef in El. injection El as <-.
apply bind_ok in E as (a & Ea & E). apply bind_ok in E as (b & Eb & E). apply close_ok in E as [-> _].
rewrite <- Hdt' in Et. destruct (flat_case from to lf lt (s_content s) a b) as [W T]; try done.
{ apply Hs. }
exists lf, (Fragment.append (Fragment.append a (s_content s)) b).
split; [done|]. split; [done|]. split; [done|]. rewrite T, (slice_toks_closed s Hs E1 E2). by rewrite Hdt'.
- apply bind_ok in E as ([start end_] & Ep & E). apply bind_ok in E as (content & Ec & E).
apply close_ok in E as [-> _].
destruct (prepare_spec s from start end_ Hf Hs Ep) as (Hle & O1 & O2 & D1 & D2 & B1 & B2 & Hmid).
destruct (Hmid d) as [Hsame Htoks]; [lia|].
destruct (three_way_spec (schema:=schema) (Resolved.depth from - d) from start end_ to d content
(slice_toks s)) as [W T]; try done; try lia.
{ constructor; done || lia. }
exists lf, content. done.
Qed.

Lemma outer_spec levels from to s d lf lt n :
ok from -> ok to -> wf_slice schema s -> levels = Resolved.depth from - d ->
d + s_open_start s <= Resolved.depth from ->
Resolved.depth from + s_open_end s = Resolved.depth to + s_open_start s ->
r_path from !! d = Some lf -> r_path to !! d = Some lt -> l_node lf = l_node lt ->
replace_outer_in schema levels from to s d = Ok n ->
outer_result from to s d n.
Proof.
intros Hf Ht Hs. revert d lf lt n.
induction levels as [|levels IH]; intros d lf lt n Hlev Hd Hdep Ef Et Hn E; cbn [replace_outer_in] in E;
apply bind_ok in E as (index & Ei & E); apply index_ok in Ei as (l1 & E1 & <-); rewrite Ef in E1; injection E1 as <-;
apply bind_ok in E as (node & En & E); apply node_ok in En as (l1 & E1 & <-); rewrite Ef in E1; injection E1 as <-;
apply bind_ok in E as (to_index & Et' & E); apply index_ok in Et' as (l1 & E1 & <-); rewrite Et in E1; injection E1 as <-.
- by eapply outer_here.
- destruct (_ && _) eqn:Edown; [|by eapply outer_here].
apply andb_true_iff in Edown as [Hi%Nat.eqb_eq Hlt%Nat.ltb_lt].
rewrite Nat.add_1_r in *.
apply bind_ok in E as (inner & Einner & E). apply bind_ok in E as (content & Ec & E). injection E as <-.
destruct (level_exists from (S d) Hf) as [lf' Ef']; [lia|].
destruct (level_exists to (S d) Ht) as [lt' Et']; [lia|].
destruct (open_child from d lf lf' Hf Ef Ef') as (C1 & T1 & L1).
destruct (open_child to d lt lt' Ht Et Et') as (C2 & _).
assert (Hn' : l_node lf' = l_node lt') by (rewrite Hn, Hi, C2 in C1; by injection C1 as ->).
destruct (IH (S d) lf' lt' inner) as (l & c & El & -> & Wc & Tc); try done; [lia..|].
rewrite Ef' in El. injection El as <-.
destruct (level_facts from d lf Hf Ef) as (Hw & _).
destruct (level_facts from (S d) lf' Hf Ef') as (Hw' & _).
apply (replace_child_spec (schema:=schema)) in Ec as (W & T & _); [|by apply wf_content|by apply wf_copy].
exists lf, content. split; [done|]. split; [done|]. split; [done|].
rewrite T, flatten_copy by done. rewrite Tc.
destruct (left_step from d lf lf' Ef Ef') as [-> _], (left_step to d lt lt' Et Et') as [_ ->].
unfold before_level, after_level. rewrite <- Hn, <- Hi. by list_simplifier.
Qed.

Lemma left_root doc pos r : wfn doc -> resolved doc pos r ->
left r 0 = take pos (toks (n_content doc)) /\ right r 0 = drop pos (toks (n_content doc)).
Proof. intros Hw [_ Hp]. unfold left, right. rewrite drop_0. by eapply path_split. Qed.

(** [Node::replace] puts the tokens of the slice in place of the tokens of the range. *)
Lemma node_replace_tokens doc from to s doc' :
wfn doc -> n_text doc = None -> wf_slice schema s ->
node_replace schema doc from to s = Ok doc' ->
from <= f_size (n_content doc) /\ to <= f_size (n_content doc) /\
wfn doc' /\ doc' = Node.copy doc (n_content doc') /\
toks (n_content doc') =
take from (toks (n_content doc)) ++ slice_toks s ++ drop to (toks (n_content doc)).
Proof.
intros Hw Ht Hs E. unfold node_replace in E.
apply bind_ok in E as (rf & Ef & E). apply bind_ok in E as (rt & Et & E).
apply (resolve_ok (schema:=schema)) in Ef as [Lf Rf], Et as [Lt Rt]; try done.
pose proof (resolved_is_ok (schema:=schema) _ _ _ Hw Ht Rf) as Of.
pose proof (resolved_is_ok (schema:=schema) _ _ _ Hw Ht Rt) as Ot.
unfold replace in E. destruct (Nat.ltb_spec (Resolved.depth rf) (s_open_start s)); [done|].
apply bind_ok in E as (a & [-> _]%uadd_ok & E). apply bind_ok in E as (b & [-> _]%uadd_ok & E).
destruct (Nat.eqb_spec (Resolved.depth rf + s_open_end s) (Resolved.depth rt + s_open_start s)); [|done].
simpl in E.
destruct (path_head _ _ _ _ _ (res_path _ _ _ Rf)) as (lf & pf & Hpf & Hlf).
destruct (path_head _ _ _ _ _ (res_path _ _ _ Rt)) as (lt & pt & Hpt & Hlt).
unfold replace_outer in E. apply (outer_spec _ rf rt s 0 lf lt) in E; try done.
- destruct E as (l & content & El & -> & W & T). rewrite Hpf in El. injection El as <-. rewrite Hlf in *.
destruct (left_root _ _ _ Hw Rf) as [EL _], (left_root _ _ _ Hw Rt) as [_ ER].
rewrite EL, ER in T. split; [done|]. split; [done|]. split; [by apply wf_copy|]. done.
- by rewrite Hpf.
- by rewrite Hpt.
- congruence.
Qed.
End outer.

(* ------------------------------------------------------------ *)

(** No call of [replace] panics on a well-formed tree and slice: each index of a
    [Vec] is in range, and each subtraction of sizes is of the smaller one. *)

(** ** The questions to a schema *)
Section schema.
Context (schema : Schema) (Hschema : Schema.wf schema = true).

Lemma schema_start id n : Schema.node schema id = Ok n -> nt_content_match n < length (sc_matches schema).
Proof.
intros H%or_panic_ok. apply andb_true_iff in Hschema as [[H1 _]%andb_true_iff _].
rewrite forallb_forall in H1. apply Nat.ltb_lt, H1. apply list_elem_of_In. by eapply list_elem_of_lookup_2.
Qed.

Lemma schema_edge id s kind target :
Schema.match_state schema id = Ok s -> Schema.find_edge kind (next s) = Some target ->
target < length (sc_matches schema).
Proof.
intros H%or_panic_ok Hf. apply andb_true_iff in Hschema as [[_ H1]%andb_true_iff _].
rewrite forallb_forall in H1.
assert (Hs : In s (sc_matches schema)) by (apply list_elem_of_In; by eapply list_elem_of_lookup_2).
apply H1 in Hs. clear H1. induction (next s) as [|[k t] l IH]; [done|]. simpl in *.
apply andb_true_iff in Hs as [Ht Hs]. destruct (k =? kind); [|by apply IH].
injection Hf as ->. by apply Nat.ltb_lt.
Qed.

Lemma safe_node id : id < length (sc_nodes schema) -> safe (Schema.node schema id).
Proof. intros H. by apply safe_or_panic, lookup_lt_is_Some. Qed.

Lemma safe_match_state id : id < length (sc_matches schema) -> safe (Schema.match_state schema id).
Proof. intros H. by apply safe_or_panic, lookup_lt_is_Some. Qed.

Lemma safe_all_of {A} (f : A -> res bool) l : (forall x, safe (f x)) -> safe (all_of f l).
Proof. intros Hf. induction l as [|x l IH]; [done|]. apply safe_bind; [done|]. by intros [] _. Qed.

Lemma match_children_safe children : forall start, start < length (sc_matches schema) ->
safe (Schema.match_children schema start children) /\
forall r, Schema.match_children schema start children = Ok (Some r) -> r < length (sc_matches schema).
Proof.
induction children as [|c l IH]; intros start H; simpl; [by split; [|by intros r [= <-]]|].
pose proof (safe_match_state start H) as Hs.
destruct (Schema.match_state schema start) as [s| |] eqn:E; [|by split|done]. simpl.
destruct (Schema.find_edge _ _) as [target|] eqn:Ef; [|by split].
apply IH. by eapply schema_edge.
Qed.

Lemma safe_allows_marks id children :
id < length (sc_nodes schema) -> safe (Schema.allows_marks schema id children).
Proof.
intros H. apply safe_all_of. intros c. apply safe_all_of. intros m.
apply safe_bind; [by apply safe_node|done].
Qed.

Lemma safe_valid_content id content :
id < length (sc_nodes schema) -> safe (Schema.valid_content schema id content).
Proof.
intros H. apply safe_bind; [by apply safe_node|]. intros n Hn.
destruct (match_children_safe (f_content content) _ (schema_start id n Hn)) as [H1 H2].
apply safe_bind; [done|]. intros [r|] Hr; [|done]. apply safe_bind; [by apply safe_match_state, H2|].
intros s _. destruct (valid_end s); [by apply safe_allows_marks|done].
Qed.

Lemma safe_compatible id other :
id < length (sc_nodes schema) -> other < length (sc_nodes schema) ->
safe (Schema.compatible_content schema id other).
Proof.
intros H1 H2. unfold Schema.compatible_content. destruct (id =? other); [done|].
apply safe_bind; [by apply safe_node|]. intros n Hn.
apply safe_bind; [by eapply safe_match_state, schema_start|]. intros left _.
apply safe_bind; [by apply safe_node|]. intros o Ho.
apply safe_bind; [by eapply safe_match_state, schema_start|]. done.
Qed.
End schema.

Section walks.
Context {schema : Schema} (Hschema : Schema.wf schema = true).
Local Abbreviation wfn n := (wf_node schema n = true).
Local Abbreviation wfl l := (wf_list schema l).
Local Abbreviation wff f := (wf_fragment schema f).
Local Abbreviation ok := (ok (schema:=schema)).

Lemma safe_close n f : wfn n -> safe (close schema n f).
Proof.
intros H%wf_kind. apply safe_bind; [by apply safe_valid_content|]. by intros [] _.
Qed.

Lemma safe_check_join a b : wfn a -> wfn b -> safe (check_join schema a b).
Proof.
intros Ha%wf_kind Hb%wf_kind. apply safe_bind; [by apply safe_compatible|]. by intros [] _.
Qed.

Lemma safe_node_at r d : ok r -> d <= Resolved.depth r ->
exists n, Resolved.node r d = Ok n /\ wfn n.
Proof.
intros Hr Hd. destruct (level_exists r d Hr Hd) as [l E].
exists (l_node l). split; [by apply node_ok; eauto|]. by eapply level_facts.
Qed.

Lemma safe_joinable a b d :
ok a -> ok b -> d <= Resolved.depth a -> d <= Resolved.depth b -> safe (joinable schema a b d).
Proof.
intros Ha Hb H1 H2. unfold joinable.
destruct (safe_node_at a d Ha H1) as (n & -> & Hn), (safe_node_at b d Hb H2) as (m & -> & Hm).
simpl. apply safe_bind; [by apply safe_check_join|done].
Qed.

Lemma safe_add_children node count : forall index target, safe (add_children node index count target).
Proof.
induction count as [|count IH]; intros index target; [done|]. simpl.
apply safe_bind; [apply safe_ok_or|]. auto.
Qed.

(** What stands on either side of a position, in its parent. *)
Lemma safe_sides r : ok r ->
safe (Resolved.text_offset r) /\ safe (Resolved.node_after r) /\ safe (Resolved.node_before r).
Proof.
intros Hr. destruct (level_exists r (Resolved.depth r) Hr) as [l El]; [done|].
destruct (bottom r l Hr El) as (o & Ho & _ & Hin).
destruct (level_facts r _ l Hr El) as (Hw & _ & _). pose proof (wf_content _ Hw) as [_ Hl].
unfold Resolved.node_after, Resolved.node_before, Resolved.parent.
rewrite (proj2 (node_ok r _ (l_node l))), (proj2 (index_ok r _ (l_index l))), Ho by eauto. simpl.
split; [done|]. split.
- case_bool; [done|]. apply safe_bind; [apply safe_ok_or|]. intros c Hc%ok_or_ok.
case_bool; [done|]. destruct Hin as [|(c' & Hc' & Ht & Hlt)]; [lia|].
rewrite Hc in Hc'. injection Hc' as <-.
destruct (text_piece (schema:=schema) c o (Node.node_size c)) as (c' & -> & _); [|done|lia|done].
exact (wf_list_lookup _ _ _ Hl Hc).
- destruct (Nat.eqb_spec o 0); simpl.
+ case_bool; [done|]. apply safe_fmap, safe_ok_or.
+ apply safe_bind; [apply safe_ok_or|]. intros c Hc%ok_or_ok.
destruct Hin as [|(c' & Hc' & Ht & Hlt)]; [lia|]. rewrite Hc in Hc'. injection Hc' as <-.
destruct (text_piece (schema:=schema) c 0 o) as (c' & -> & _); [|done|lia|done].
exact (wf_list_lookup _ _ _ Hl Hc).
Qed.

Lemma safe_add_range s e d target :
(forall r, s = Some r -> ok r /\ d <= Resolved.depth r) ->
(forall r, e = Some r -> ok r /\ d <= Resolved.depth r) ->
safe (add_range s e d target).
Proof.
intros Hs He. unfold add_range.
assert (Hany : forall r, match e with Some a => Some a | None => s end = Some r -> ok r /\ d <= Resolved.depth r).
{ destruct e; auto. }
destruct (match e with Some a => Some a | None => s end) as [any|]; [|done].
destruct (Hany any eq_refl) as [Ha Hd]. destruct (safe_node_at any d Ha Hd) as (node & -> & _). simpl.
apply safe_bind.
{ destruct e as [r|]; [|done]. destruct (He r eq_refl) as [Hr Hdr].
destruct (level_exists r d Hr Hdr) as [l El]. by rewrite (proj2 (index_ok r d (l_index l))) by eauto. }
intros end_index _. apply safe_bind.
{ destruct s as [r|]; [|done]. destruct (Hs r eq_refl) as [Hr Hdr].
destruct (level_exists r d Hr Hdr) as [l El]. rewrite (proj2 (index_ok r d (l_index l))) by eauto. simpl.
destruct (safe_sides r Hr) as (H1 & H2 & _). case_bool; [done|].
apply safe_bind; [done|]. intros o _. case_bool; [done|]. by apply safe_bind. }
intros [start_index t] _. apply safe_bind; [apply safe_add_children|]. intros t' _.
destruct e as [r|]; [|done]. destruct (He r eq_refl) as [Hr _].
destruct (safe_sides r Hr) as (H1 & _ & H3). case_bool; [|done].
apply safe_bind; [done|]. intros o _. case_bool; [done|]. by apply safe_bind.
Qed.

Lemma safe_close_joined a b d n f :
ok a -> joinable schema a b d = Ok n -> safe (close schema n f).
Proof.
intros Ha [(l & El & <-) _]%joinable_ok. apply safe_close. by eapply level_facts.
Qed.

Lemma safe_range_left r d : ok r -> d <= Resolved.depth r -> safe (add_range None (Some r) d []).
Proof. intros Hr Hd. apply safe_add_range; [done|]. by intros ? [= <-]. Qed.

Lemma safe_range_right r d t : ok r -> d <= Resolved.depth r -> safe (add_range (Some r) None d t).
Proof. intros Hr Hd. apply safe_add_range; [|done]. by intros ? [= <-]. Qed.

Lemma safe_two_way_in levels from to : forall d,
ok from -> ok to -> levels = Resolved.depth from - d -> d <= Resolved.depth from ->
Resolved.depth to = Resolved.depth from -> safe (replace_two_way_in schema levels from to d).
Proof.
induction levels as [|levels IH]; intros d Hf Ht Hlev Hd Hdep; cbn [replace_two_way_in];
(apply safe_bind; [by apply safe_range_left|]; intros content _).
- apply safe_bind; [done|]. intros c _. apply safe_bind; [apply safe_range_right; done || lia|done].
- apply safe_bind.
+ apply safe_bind; [apply safe_joinable; done || lia|]. intros kind Hk.
apply safe_bind; [apply IH; done || lia|]. intros inner _.
apply safe_bind; [exact (safe_close_joined _ _ _ _ _ Hf Hk)|done].
+ intros c _. apply safe_bind; [apply safe_range_right; done || lia|done].
Qed.

(** A side of the three-way walk, [side] standing for its open node. *)
Lemma safe_side a b d side (content : list Node) :
ok a -> ok b -> Resolved.depth b = Resolved.depth a ->
match side with Some n => joinable schema a b (d + 1) = Ok n | None => True end ->
safe (match side with
| Some n => inner ← replace_two_way schema a b (d + 1);
closed ← close schema n inner; Ok (add_node closed content)
| None => Ok content
end).
Proof.
intros Ha Hb Hdep Hj. destruct side as [n|]; [|done]. pose proof Hj as [(l & El & _) _]%joinable_ok.
apply (level_depth (schema:=schema)) in El; [|done].
apply safe_bind; [by apply safe_two_way_in|]. intros inner _.
apply safe_bind; [exact (safe_close_joined _ _ _ _ _ Ha Hj)|done].
Qed.

Lemma safe_three_way_in levels from start end_ to : forall d,
prepared (schema:=schema) from start end_ to -> levels = Resolved.depth from - d ->
d <= Resolved.depth from -> d <= Resolved.depth to ->
safe (replace_three_way_in schema levels from start end_ to d).
Proof.
induction levels as [|levels IH]; intros d Hp Hlev Hdf Hdt; pose proof Hp as [Hf Hs He Ht Hds Hde _ _];
cbn [replace_three_way_in]; (apply safe_bind;
[first [exact I|apply safe_fmap, safe_joinable; done || lia]|]);
intros open_start Jf; (apply safe_bind;
[case_bool; [apply safe_fmap, safe_joinable; done || lia|done]|]); intros open_end Je;
(apply safe_bind; [by apply safe_range_left|]); intros content _;
assert (Jend : match open_end with Some n => joinable schema end_ to (d + 1) = Ok n | None => True end)
by (case_bool; [apply fmap_ok in Je as (? & ? & <-)|injection Je as <-]; done);
assert (Hmid : forall t, safe (add_range (Some start) (Some end_) d t))
by (intros t; apply safe_add_range; intros ? [= <-]; split; done || lia);
assert (Hlast : forall t, safe (add_range (Some to) None d t)) by (intros t; by apply safe_range_right).
- apply safe_bind; [by destruct open_start, open_end|]. intros same _. injection Jf as <-.
apply safe_bind; [|intros; by apply safe_bind].
apply safe_bind; [done|]. intros t _. apply safe_bind; [done|]. intros t' _. by apply safe_side.
- apply fmap_ok in Jf as (first & Jf & <-).
assert (Hparted : safe (content ← (inner ← replace_two_way schema from start (d + 1);
closed ← close schema first inner; Ok (add_node closed content));
content ← add_range (Some start) (Some end_) d content;
match open_end with
| Some last => inner ← replace_two_way schema end_ to (d + 1);
closed ← close schema last inner; Ok (add_node closed content)
| None => Ok content
end)).
{ apply safe_bind; [by apply (safe_side from start d (Some first))|]. intros t _.
apply safe_bind; [done|]. intros t' _. by apply safe_side. }
apply safe_bind.
{ destruct open_end; [|done].
destruct (level_exists start d Hs) as [ls Es]; [lia|]. destruct (level_exists end_ d He) as [le Ee]; [lia|].
by rewrite (proj2 (index_ok start d (l_index ls))), (proj2 (index_ok end_ d (l_index le))) by eauto. }
intros same _. apply safe_bind; [|intros; by apply safe_bind].
destruct open_end as [last|]; [destruct same|]; [|done..].
pose proof Jf as [(lf & Ef & Enf) _]%joinable_ok. pose proof Jend as [(le & Ee & Ene) (lt & Et & _)]%joinable_ok.
pose proof (level_depth (schema:=schema) _ _ _ Hf Ef). pose proof (level_depth (schema:=schema) _ _ _ Ht Et).
apply safe_bind. { subst. apply safe_check_join; [exact (proj1 (level_facts _ _ _ Hf Ef))|exact (proj1 (level_facts _ _ _ He Ee))]. }
intros _ _. apply safe_bind; [apply IH; done || lia|]. intros inner _.
apply safe_bind; [exact (safe_close_joined _ _ _ _ _ Hf Jf)|done].
Qed.

(** *** [prepare_slice] and the walk from the root *)

Lemma path_depth_le n po st path last : path_ok n po st path last -> length path <= S po.
Proof. induction 1; simpl; lia. Qed.

Lemma safe_wrap along e : forall n,
ok along -> e <= S (Resolved.depth along) -> safe (wrap along e n).
Proof.
induction e as [|e IH]; intros n Ha He; [done|]. simpl.
destruct (safe_node_at along e Ha) as (outer & -> & _); [lia|]. simpl. apply IH; [done|lia].
Qed.

Lemma safe_prepare s along :
ok along -> wf_slice schema s -> s_open_start s <= Resolved.depth along ->
(N.of_nat (Resolved.depth along + f_size (s_content s)) < USIZE)%N ->
safe (prepare_slice s along).
Proof.
intros Ha Hs Hd Hbound. pose proof (slice_fits s Hs) as Hfit. unfold prepare_slice.
rewrite usub_le by done. simpl. set (extra := Resolved.depth along - s_open_start s).
destruct (level_exists along extra Ha) as [l El]; [lia|].
destruct (level_facts along extra l Ha El) as (Hwl & Htl & _).
rewrite (proj2 (node_ok along extra (l_node l))) by eauto. simpl.
pose proof (safe_wrap along extra (Node.copy (l_node l) (s_content s)) Ha) as Hwrap.
destruct (wrap along extra _) as [root| |] eqn:E; [|done|destruct Hwrap; lia]. simpl.
destruct (wrap_spec (schema:=schema) along extra (Node.copy (l_node l) (s_content s)) root)
as (_ & Hw & _); try done.
{ apply wf_copy; [done|done|apply Hs]. }
{ intros He. unfold extra in *. destruct (Resolved.depth along - s_open_start s) as [|e]; [lia|].
exact (inner_below along e l Ha El). }
apply safe_bind; [apply safe_uadd; lia|]. intros position _.
apply safe_bind; [by eapply safe_resolve|]. intros start _.
apply safe_bind; [apply safe_uadd; lia|]. intros open _. case_bool; [|done].
apply safe_bind; [by eapply safe_resolve|done].
Qed.

Lemma safe_cut_front f p : wff f -> p <= f_size f -> safe (Fragment.cut f 0 p).
Proof. intros Hf Hp. destruct (cut_total (schema:=schema) f 0 p Hf) as [g ->]; [lia|done]. Qed.

Lemma safe_cut_back f p : wff f -> p <= f_size f -> safe (Fragment.cut_end f p).
Proof. intros Hf Hp. destruct (cut_total (schema:=schema) f p (f_size f) Hf) as [g E]; [lia|]. by unfold Fragment.cut_end; rewrite E. Qed.

Lemma safe_outer_here from to s d lf lt :
ok from -> ok to -> wf_slice schema s ->
d + s_open_start s <= Resolved.depth from ->
Resolved.depth from + s_open_end s = Resolved.depth to + s_open_start s ->
(N.of_nat (Resolved.depth from + f_size (s_content s)) < USIZE)%N ->
r_path from !! d = Some lf -> r_path to !! d = Some lt -> l_node lf = l_node lt ->
safe (if f_size (s_content s) =? 0 then
content ← replace_two_way schema from to d; close schema (l_node lf) content
else if (s_open_start s =? 0) && (s_open_end s =? 0) &&
(Resolved.depth from =? d) && (Resolved.depth to =? d) then
parent ← Resolved.parent from;
a ← Fragment.cut (n_content parent) 0 (r_parent_offset from);
b ← Fragment.cut_end (n_content parent) (r_parent_offset to);
close schema parent (Fragment.append (Fragment.append a (s_content s)) b)
else
'(start, end_) ← prepare_slice s from;
content ← replace_three_way schema from start end_ to d;
close schema (l_node lf) content).
Proof.
intros Hf Ht Hs Hd Hdep Hbound Ef Et Hn. pose proof (level_depth (schema:=schema) _ _ _ Ht Et) as Hdt.
destruct (level_facts from d lf Hf Ef) as (Hw & _). pose proof (wf_content _ Hw) as Hc.
destruct (Nat.eqb_spec (f_size (s_content s)) 0) as [Hz|_].
{ destruct (slice_toks_empty s Hs Hz) as (? & ? & _).
apply safe_bind; [apply safe_two_way_in; done || lia|]. intros c _. by apply safe_close. }
destruct (_ && _) eqn:Eflat.
- rewrite !andb_true_iff, !Nat.eqb_eq in Eflat. destruct Eflat as (((E1 & E2) & Hdf) & Hdt').
unfold Resolved.parent. rewrite (proj2 (node_ok from _ (l_node lf))) by (rewrite Hdf; eauto). simpl.
destruct (pending_bottom from lf Hf) as [_ L1]; [by rewrite Hdf|].
destruct (pending_bottom to lt Ht) as [_ L2]; [by rewrite Hdt'|].
unfold level_toks in *. rewrite <- Hn, <- (f_size_toks (schema:=schema)) in L2 by done.
rewrite <- (f_size_toks (schema:=schema)) in L1 by done.
apply safe_bind; [by apply safe_cut_front|]. intros a _.
apply safe_bind; [by apply safe_cut_back|]. intros b _. by apply safe_close.
- apply safe_bind; [apply safe_prepare; done || lia|]. intros [start end_] Ep.
destruct (prepare_spec (schema:=schema) s from start end_ Hf Hs Ep)
as (Hle & O1 & O2 & D1 & D2 & B1 & B2 & _).
apply safe_bind; [|intros c _; by apply safe_close].
apply safe_three_way_in; [constructor; done || lia|done|lia|done].
Qed.

Lemma safe_outer levels from to s : forall d lf lt,
ok from -> ok to -> wf_slice schema s -> levels = Resolved.depth from - d ->
d + s_open_start s <= Resolved.depth from ->
Resolved.depth from + s_open_end s = Resolved.depth to + s_open_start s ->
(N.of_nat (Resolved.depth from + f_size (s_content s)) < USIZE)%N ->
r_path from !! d = Some lf -> r_path to !! d = Some lt -> l_node lf = l_node lt ->
safe (replace_outer_in schema levels from to s d).
Proof.
induction levels as [|levels IH]; intros d lf lt Hf Ht Hs Hlev Hd Hdep Hbound Ef Et Hn;
cbn [replace_outer_in];
rewrite (proj2 (index_ok from d (l_index lf))), (proj2 (node_ok from d (l_node lf))),
(proj2 (index_ok to d (l_index lt))) by eauto; cbn [mbind Result_bind].
- by eapply safe_outer_here.
- destruct (_ && _) eqn:Edown; [|by eapply safe_outer_here].
apply andb_true_iff in Edown as [Hi%Nat.eqb_eq Hlt%Nat.ltb_lt]. rewrite Nat.add_1_r in *.
destruct (level_facts from d lf Hf Ef) as (Hw & _).
destruct (level_exists from (S d) Hf) as [lf' Ef']; [lia|].
destruct (level_exists to (S d) Ht) as [lt' Et']; [lia|].
destruct (open_child from d lf lf' Hf Ef Ef') as (C1 & _).
destruct (open_child to d lt lt' Ht Et Et') as (C2 & _).
apply safe_bind; [apply (IH (S d) lf' lt'); try done; try lia|].
{ rewrite Hn, Hi, C2 in C1. by injection C1. }
intros inner _. apply safe_bind; [by apply (safe_replace_child (schema:=schema)), wf_content|done].
Qed.

Lemma safe_node_replace doc from to s :
wfn doc -> n_text doc = None -> wf_slice schema s ->
(N.of_nat (f_size (n_content doc) + f_size (s_content s)) < USIZE)%N ->
safe (node_replace schema doc from to s).
Proof.
intros Hw Ht Hs Hbound. unfold node_replace.
apply safe_bind; [by eapply safe_resolve|]. intros rf Ef.
apply safe_bind; [by eapply safe_resolve|]. intros rt Et.
apply (resolve_ok (schema:=schema)) in Ef as [Lf Rf], Et as [Lt Rt]; try done.
pose proof (resolved_is_ok (schema:=schema) _ _ _ Hw Ht Rf) as Of.
pose proof (resolved_is_ok (schema:=schema) _ _ _ Hw Ht Rt) as Ot.
pose proof (path_depth_le _ _ _ _ _ (res_path _ _ _ Rf)) as Df.
pose proof (path_depth_le _ _ _ _ _ (res_path _ _ _ Rt)) as Dt.
rewrite (depth_length (schema:=schema)) in Df, Dt by done. pose proof (slice_fits s Hs) as Hfit.
unfold replace. case_bool; [done|].
apply safe_bind; [apply safe_uadd; lia|]. intros a [-> _]%uadd_ok.
apply safe_bind; [apply safe_uadd; lia|]. intros b [-> _]%uadd_ok.
destruct (Nat.eqb_spec (Resolved.depth rf + s_open_end s) (Resolved.depth rt + s_open_start s)); [|done]. simpl.
destruct (path_head _ _ _ _ _ (res_path _ _ _ Rf)) as (lf & pf & Hpf & Hlf).
destruct (path_head _ _ _ _ _ (res_path _ _ _ Rt)) as (lt & pt & Hpt & Hlt).
apply (safe_outer _ rf rt s 0 lf lt); try done; try lia; [by rewrite Hpf|by rewrite Hpt|congruence].
Qed.
End walks.
