(* ===== verification/TextTake.v ===== *)
(** [Node::slice] in tokens: the slice of a range holds the tokens of the range, and
    its open sides are as deep as the positions are below their shared node. *)

From S2P Require Import Prelude Json TextData TextSchema TextNode TextResolved TextReplace.
From S2P Require Import TextTokens TextCut TextReplaceSpec TextSlice.
(** The kind of the node that the next token lies in, when [open] is open in a node. *)
Definition innermost (kind : NodeId) (open : list token) : NodeId :=
  match open with TOpen k _ _ :: _ => k | _ => kind end.

Definition is_open (t : token) : Prop := match t with TOpen _ _ _ => True | _ => False end.

Section take.
Context {schema : Schema}.
Local Abbreviation wfn n := (wf_node schema n = true).
Local Abbreviation wfl l := (wf_list schema l).
Local Abbreviation wff f := (wf_fragment schema f).
Local Abbreviation ok := (ok (schema:=schema)).

(** *** The depth of a position counts the open tokens before it *)

Lemma path_pending n po st path last :
path_ok n po st path last -> wfn n ->
length path = S (length (pending (take po (toks (n_content n))))).
Proof.
induction 1 as [n po st i off Hf Hb|n po st i off c path last Hf Hlt Hc Ht Hlf Hp IH]; intros Hw;
pose proof (wf_content _ Hw) as [_ Hl]; unfold toks; set (C := f_content (n_content n)) in *.
- assert (pending (take po (flat C)) = []) as ->; [|done].
assert (Hpre : pending (flat (take i C)) = []).
{ unfold pending. by rewrite (pend_flat (schema:=schema)) by eauto with kodosi. }
destruct Hf as (Hoff & Hi & Hin). destruct Hb as [->|(c & Hc & [units Hu]%is_text_true)].
+ rewrite <- (take_drop i C), flat_app, take_app_exact by done. done.
+ destruct Hin as [->|(c' & Hc' & Hin)].
{ rewrite <- (take_drop i C), flat_app, take_app_exact by done. done. }
rewrite Hc in Hc'. injection Hc' as <-. unfold Node.node_size in Hin. rewrite Hu in Hin.
rewrite (flat_child _ _ _ Hc), take_app_ge, (flatten_text _ _ Hu), take_app_le
by (rewrite ?length_fmap; lia).
unfold pending in *. rewrite pend_app, Hpre, <- fmap_take. apply pend_units.
- pose proof (wf_list_lookup _ _ _ Hl Hc) as Hwc. specialize (IH Hwc). simpl. rewrite IH.
destruct Hf as (Hoff & Hi & Hin). destruct Hin as [|(c' & Hc' & Hin)]; [lia|].
rewrite Hc in Hc'. injection Hc' as <-. unfold Node.node_size in Hin. rewrite Ht, Hlf in Hin.
rewrite (f_size_toks (schema:=schema)) in Hin by by apply wf_content.
rewrite (flat_child_inner _ _ _ Hc Ht Hlf), take_app_ge by lia. rewrite <- Hoff.
replace (po - off) with (S (po - off - 1)) by lia. simpl.
replace (S (po - off - 1) - 1) with (po - off - 1) by lia. rewrite (take_app_le (toks (n_content c))), Nat.sub_0_r by lia.
unfold pending at 2. rewrite pend_app. fold (pending (flat (take i C))).
assert (pending (flat (take i C)) = []) as ->.
{ unfold pending. by rewrite (pend_flat (schema:=schema)) by eauto with kodosi. }
simpl. unfold toks. rewrite (pend_take_flat (schema:=schema)) by by apply wf_content.
rewrite length_app. simpl. f_equal. lia.
Qed.

Lemma pend_open l : forall st, Forall is_open st -> Forall is_open (pend l st).
Proof.
induction l as [|[] l IH]; intros st Hst; simpl; [done|..]; apply IH; [by constructor| |done..].
by destruct Hst.
Qed.

(** *** Nodes below a node *)

(** [m] is [d] levels below [n]; their contents start at [st_m] and [st]. *)
Inductive below : Node -> nat -> nat -> Node -> nat -> Prop :=
| below_here n st : below n st 0 n st
| below_child n st i c d m st_m :
f_content (n_content n) !! i = Some c -> inner c = true ->
below c (st + length (flat (take i (f_content (n_content n)))) + 1) d m st_m ->
below n st (S d) m st_m.

Lemma below_range n st d m st_m :
below n st d m st_m -> wfn n ->
wfn m /\ st <= st_m /\ st_m + f_size (n_content m) <= st + f_size (n_content n) /\
toks (n_content m) = take (f_size (n_content m)) (drop (st_m - st) (toks (n_content n))).
Proof.
induction 1 as [n st|n st i c d m st_m Hc Hin Hb IH]; intros Hw.
- split; [done|]. split; [done|]. split; [done|]. rewrite Nat.sub_diag, drop_0.
rewrite take_ge; [done|]. by rewrite (f_size_toks (schema:=schema)) by by apply wf_content.
- pose proof (wf_content _ Hw) as [Hs Hl]. pose proof (wf_list_lookup _ _ _ Hl Hc) as Hwc.
destruct (IH Hwc) as (Hwm & H1 & H2 & E). set (off := length (flat (take i (f_content (n_content n))))) in *.
pose proof (flat_take_S (schema:=schema) _ _ c Hl Hc) as HS. rewrite inner_size in HS by done.
pose proof (flat_take_mono (f_content (n_content n)) (S i) (length (f_content (n_content n)))) as Hm.
rewrite firstn_all, <- (sum_size_flat (schema:=schema) (f_content (n_content n))), <- Hs in Hm by done.
apply lookup_lt_Some in Hc as Hlt. fold off in HS.
split; [done|]. split; [lia|]. split; [lia|]. rewrite E. apply inner_true in Hin as [Ht Hlf].
pose proof (f_size_toks (schema:=schema) _ (wf_content _ Hwc)) as Sc.
unfold toks at 2. rewrite (flat_child_inner _ _ _ Hc Ht Hlf), drop_app_ge by (fold off; lia). fold off.
replace (st_m - st - off) with (S (st_m - (st + off + 1))) by lia. simpl.
rewrite drop_app_le, take_app_le by (rewrite ?length_drop; lia). done.
Qed.

Lemma path_below n po st path last d l :
path_ok n po st path last -> path !! d = Some l ->
exists st_d, below n st d (l_node l) st_d /\ st_d <= st + po /\
path_ok (l_node l) (st + po - st_d) st_d (drop d path) last /\
(d = 0 -> st_d = st) /\
(forall above d', d = S d' -> path !! d' = Some above -> st_d = l_offset above + 1).
Proof.
intros Hp. revert d. induction Hp as [n po st i off Hf Hb|n po st i off c path last Hf Hlt Hc Ht Hlf Hp IH];
intros d El.
- destruct d; [|done]. injection El as <-. exists st. simpl. rewrite Nat.add_comm, Nat.add_sub.
split; [constructor|]. split; [lia|]. by split; [constructor|].
- destruct d as [|d].
{ injection El as <-. exists st. simpl. rewrite Nat.add_comm, Nat.add_sub.
split; [constructor|]. split; [lia|]. by split; [econstructor|]. }
destruct (IH d El) as (st_d & B & H1 & Hp' & H0 & HS). destruct Hf as (Hoff & _).
exists st_d. split.
{ econstructor; [done|by apply inner_true|]. by rewrite <- Hoff. }
split; [lia|]. split; [|split; [done|]].
+ simpl. by replace (st + po - st_d) with (st + off + 1 + (po - off - 1) - st_d) by lia.
+ intros above d' [= <-] Ea. destruct d as [|d]; simpl in Ea.
* injection Ea as <-. simpl. by apply H0.
* by apply (HS above d).
Qed.

Lemma below_path n st d m st_m po path last :
below n st d m st_m -> wfn n -> path_ok n po st path last ->
st_m <= st + po <= st_m + f_size (n_content m) ->
exists l, path !! d = Some l /\ l_node l = m /\ path_ok m (st + po - st_m) st_m (drop d path) last.
Proof.
intros Hb. revert po path. induction Hb as [n st|n st i c d m st_m Hc Hin Hb IH]; intros po path Hw Hp Hr.
- destruct (path_head _ _ _ _ _ Hp) as (l & p' & E & Hl). exists l. rewrite drop_0, Nat.add_comm, Nat.add_sub.
by rewrite E at 1.
- pose proof (wf_content _ Hw) as [_ Hl]. pose proof (wf_list_lookup _ _ _ Hl Hc) as Hwc.
destruct (below_range _ _ _ _ _ Hb Hwc) as (_ & H1 & H2 & _).
destruct (path_into (schema:=schema) n po st path last i c) as (l & path' & -> & _ & Hp'); try done.
{ rewrite inner_size by done. lia. }
set (off := length (flat (take i (f_content (n_content n))))) in *.
destruct (IH (po - off - 1) path') as (l' & El & Hl' & Hp''); [done|done|lia|].
exists l'. split; [done|]. split; [done|]. simpl.
by replace (st + po - st_m) with (st + off + 1 + (po - off - 1) - st_m) by lia.
Qed.

(** *** The shared node of two positions *)

(** What [resolve] says of one level of a position: its node, and where its content starts. *)
Lemma level_below doc pos r d :
wfn doc -> n_text doc = None -> resolved doc pos r -> d <= Resolved.depth r ->
exists m st, below doc 0 d m st /\ Resolved.node r d = Ok m /\ Resolved.start r d = Ok st /\
st <= pos /\ pos <= st + f_size (n_content m) /\
path_ok m (pos - st) st (drop d (r_path r)) (r_parent_offset r).
Proof.
intros Hw Ht Hr Hd. pose proof (resolved_is_ok (schema:=schema) _ _ _ Hw Ht Hr) as Hok.
destruct Hr as [Hpos Hp]. destruct (level_exists r d Hok Hd) as [l El].
destruct (path_below _ _ _ _ _ d l Hp El) as (st & B & H1 & Hp' & H0 & HS).
destruct (below_range _ _ _ _ _ B Hw) as (Hwm & _).
exists (l_node l), st. split; [done|]. split; [by apply node_ok; eauto|]. split.
{ destruct d as [|d]; simpl; [by rewrite H0|]. destruct (level_exists r d Hok) as [above Ea]; [lia|].
unfold Resolved.level. rewrite Ea. simpl. f_equal. by symmetry; apply (HS above d). }
simpl in *. split; [done|]. split; [|done].
assert (Hle : pos - st <= f_size (n_content (l_node l))); [|lia].
pose proof (wf_content _ Hwm) as Hc. pose proof (f_size_toks (schema:=schema) _ Hc) as Hsz. destruct Hc as [_ Hl].
assert (Hfound : exists i off, found (f_content (n_content (l_node l))) (pos - st) i off)
by (inversion Hp'; eauto).
destruct Hfound as (i & off & -> & Hi & Hin).
pose proof (flat_take_mono (f_content (n_content (l_node l))) i (length (f_content (n_content (l_node l))))) as Hm.
rewrite firstn_all in Hm. unfold toks in Hsz. destruct Hin as [|(c & Hc & Hin)]; [lia|].
pose proof (flat_take_S (schema:=schema) _ _ c Hl Hc).
pose proof (flat_take_mono (f_content (n_content (l_node l))) (S i) (length (f_content (n_content (l_node l))))) as Hm'.
rewrite firstn_all in Hm'. apply lookup_lt_Some in Hc. lia.
Qed.

Lemma shared_from_spec doc pos r to d :
wfn doc -> n_text doc = None -> resolved doc pos r -> d <= Resolved.depth r ->
to <= f_size (n_content doc) ->
exists k m st, Resolved.shared_from r to d = Ok k /\ k <= Resolved.depth r /\
below doc 0 k m st /\ Resolved.node r k = Ok m /\ Resolved.start r k = Ok st /\
st <= to /\ to <= st + f_size (n_content m) /\ st <= pos /\ pos <= st + f_size (n_content m).
Proof.
intros Hw Ht Hr Hd Hto. induction d as [|d IH].
- destruct (level_below doc pos r 0 Hw Ht Hr) as (m & st & B & En & Es & H1 & H2 & _); [lia|].
exists 0, m, st. inversion B; subst. split; [done|]. split; [lia|]. by split; [|split; [|split; [|lia]]].
- destruct (level_below doc pos r (S d) Hw Ht Hr Hd) as (m & st & B & En & Es & H1 & H2 & _).
cbn [Resolved.shared_from]. rewrite Es. cbn [mbind Result_bind].
destruct (Nat.leb_spec st to); [|apply IH; lia].
unfold Resolved.end_. rewrite Es, En. cbn [mbind Result_bind].
destruct (Nat.leb_spec to (st + f_size (n_content m))); [|apply IH; lia].
exists (S d), m, st. done.
Qed.

(** *** Open sides, from tokens *)

Lemma open_left_toks k : forall f, wff f ->
(forall i, i < k -> exists t, toks f !! i = Some t /\ is_open t) -> open_left k (f_content f) = true.
Proof.
induction k as [|k IH]; intros f Hf H; [done|]. simpl. pose proof Hf as [_ Hl].
destruct (H 0) as (t & Et & Ho); [lia|]. unfold toks in H, Et.
destruct (f_content f) as [|c rest] eqn:E; [done|]. simpl.
apply wf_list_cons in Hl as [Hwc _]. rewrite flat_cons in H, Et.
assert (Hin : inner c = true).
{ apply inner_true. destruct (n_text c) as [units|] eqn:Etx.
- rewrite (flatten_text _ _ Etx) in Et. apply wf_text with (units := units) in Hwc as (_ & Hu & _); [|done].
destruct units; [done|]. simpl in Et. by injection Et as <-.
- split; [done|]. destruct (n_leaf c) eqn:El; [|done]. rewrite flatten_leaf in Et by done.
simpl in Et. by injection Et as <-. }
rewrite Hin. simpl. apply IH; [by apply wf_content|]. intros i Hi.
destruct (decide (i < length (toks (n_content c)))) as [Hlt|Hge].
- destruct (H (S i)) as (t' & Et' & Ho'); [lia|]. rewrite inner_flatten in Et' by done. simpl in Et'.
rewrite <- app_assoc, lookup_app_l in Et' by done. eauto.
- exfalso. destruct (H (S (length (toks (n_content c))))) as (t' & Et' & Ho'); [lia|].
rewrite inner_flatten in Et' by done. simpl in Et'.
rewrite <- app_assoc, lookup_app_r, Nat.sub_diag in Et' by done. simpl in Et'. by injection Et' as <-.
Qed.

Lemma open_right_toks k : forall f, wff f -> k <= length (toks f) ->
(forall i, length (toks f) - k <= i -> i < length (toks f) -> toks f !! i = Some TClose) ->
open_right k (f_content f) = true.
Proof.
induction k as [|k IH]; intros f Hf Hk H; [done|]. simpl. pose proof Hf as [_ Hl].
pose proof (H (length (toks f) - 1)) as Et. unfold toks in *.
destruct (last (f_content f)) as [c|] eqn:E.
2: { apply last_None in E. rewrite E, flat_nil in Hk. simpl in Hk. lia. }
apply last_Some in E as [rest E]. rewrite E in *. rewrite flat_app, flat_singleton, length_app in *.
apply wf_list_app in Hl as [_ Hl]. apply wf_list_cons in Hl as [Hwc _].
pose proof (node_size_pos (schema:=schema) c Hwc) as Hpos. rewrite (node_size_flatten (schema:=schema)) in Hpos by done.
specialize (Et ltac:(lia) ltac:(lia)). rewrite lookup_app_r in Et by lia.
assert (Hin : inner c = true).
{ apply inner_true. destruct (n_text c) as [units|] eqn:Etx.
- rewrite (flatten_text _ _ Etx), list_lookup_fmap in Et. by destruct (units !! _).
- split; [done|]. destruct (n_leaf c) eqn:El; [|done]. rewrite flatten_leaf in Et by done.
simpl in Et. replace (_ - _ - _) with 0 in Et by lia. done. }
rewrite Hin. simpl. rewrite inner_flatten in H, Hk by done. simpl in H, Hk. rewrite length_app in H, Hk. simpl in H, Hk.
assert (Hk' : k <= length (toks (n_content c))).
{ destruct (decide (k <= length (toks (n_content c)))) as [|Hgt]; [done|exfalso].
specialize (H (length (flat rest)) ltac:(lia) ltac:(lia)).
by rewrite lookup_app_r, Nat.sub_diag in H by lia. }
apply IH; [by apply wf_content|done|]. fold (toks (n_content c)). intros i H1 H2.
specialize (H (length (flat rest) + S i) ltac:(lia) ltac:(lia)).
rewrite lookup_app_r in H by lia. replace (length (flat rest) + S i - length (flat rest)) with (S i) in H by lia.
simpl in H. by rewrite lookup_app_l in H by done.
Qed.

Lemma open_left_pre k : forall f, wff f -> open_left k (f_content f) = true ->
exists pre rest, toks f = pre ++ rest /\ length pre = k /\ Forall is_open pre.
Proof.
induction k as [|k IH]; intros f Hf Ho; [by exists [], (toks f)|]. simpl in Ho. unfold toks.
pose proof Hf as [_ Hl]. destruct (f_content f) as [|c rest]; [done|]. simpl in Ho.
apply andb_true_iff in Ho as [Hin Ho]. apply wf_list_cons in Hl as [Hwc _].
destruct (IH _ (wf_content _ Hwc) Ho) as (pre & r & E & Hlen & Hpre).
exists (open_token c :: pre), (r ++ TClose :: flat rest). rewrite flat_cons, inner_flatten, E by done.
split; [by list_simplifier|]. simpl. split; [lia|by constructor].
Qed.

Lemma open_right_post k : forall f, wff f -> open_right k (f_content f) = true ->
exists rest, toks f = rest ++ replicate k TClose.
Proof.
induction k as [|k IH]; intros f Hf Ho; [exists (toks f); by rewrite app_nil_r|]. simpl in Ho. unfold toks.
pose proof Hf as [_ Hl]. destruct (last (f_content f)) as [c|] eqn:E; [|done].
apply last_Some in E as [rest E]. rewrite E in *. apply andb_true_iff in Ho as [Hin Ho].
apply wf_list_app in Hl as [_ Hl]. apply wf_list_cons in Hl as [Hwc _].
destruct (IH _ (wf_content _ Hwc) Ho) as (r & Er).
exists (flat rest ++ open_token c :: r). rewrite flat_app, flat_singleton, inner_flatten, Er by done.
rewrite replicate_S_end. by list_simplifier.
Qed.

(** A slice is its open tokens, the tokens it puts in, and its close tokens. *)
Lemma slice_parts s : wf_slice schema s ->
exists pre, toks (s_content s) = pre ++ slice_toks s ++ replicate (s_open_end s) TClose /\
length pre = s_open_start s /\ Forall is_open pre.
Proof.
intros Hs. pose proof (slice_fits s Hs) as Hfit. destruct Hs as [Hf Hos Hoe].
destruct (open_left_pre _ _ Hf Hos) as (pre & r1 & E1 & Hlen & Hpre).
destruct (open_right_post _ _ Hf Hoe) as (r2 & E2). exists pre. split; [|done].
unfold slice_toks. rewrite (f_size_toks (schema:=schema)) in Hfit |- * by done.
set (C := toks (s_content s)) in *.
assert (Htake : take (length C - s_open_end s) C = r2).
{ rewrite E2 at 2. apply take_app_exact. rewrite E2, length_app, length_replicate. lia. }
rewrite Htake. rewrite E2 at 1. rewrite <- (take_drop (s_open_start s) r2) at 1. rewrite <- app_assoc. f_equal.
rewrite <- Htake, take_take, Nat.min_l by lia. rewrite E1 at 1. by apply take_app_exact.
Qed.

Lemma slice_of_parts content pre mid k :
wff content -> toks content = pre ++ mid ++ replicate k TClose -> Forall is_open pre ->
wf_slice schema (MkSlice content (length pre) k) /\
slice_toks (MkSlice content (length pre) k) = mid.
Proof.
intros Hc E Hpre. pose proof (f_size_toks (schema:=schema) _ Hc) as Hs.
assert (Hlen : length (toks content) = length pre + (length mid + k)).
{ by rewrite E, !length_app, length_replicate. }
split; [constructor; [done| |]|]; simpl.
- apply open_left_toks; [done|]. intros i Hi. rewrite E, lookup_app_l by done.
destruct (lookup_lt_is_Some_2 pre i) as [t Et]; [done|]. exists t. split; [done|].
by eapply Forall_lookup_1 in Hpre.
- apply open_right_toks; [done|lia|]. intros i H1 H2. rewrite E, app_assoc, lookup_app_r
by (rewrite length_app; lia). apply lookup_replicate. rewrite length_app. split; [done|lia].
- unfold slice_toks. simpl. rewrite Hs, Hlen, E.
replace (_ - k) with (length (pre ++ mid)) by (rewrite length_app; lia).
rewrite app_assoc, take_app_length. by apply drop_app_exact.
Qed.

(** The slice that a cut of a node's content makes. *)
Lemma cut_slice f a b g :
wff f -> a < b -> b <= f_size f -> Fragment.cut f a b = Ok g ->
let s := MkSlice g (length (pending (take a (toks f)))) (length (pending (take b (toks f)))) in
wf_slice schema s /\ slice_toks s = drop a (take b (toks f)).
Proof.
intros Hf Hab Hb E. apply (cut_spec (schema:=schema)) in E as [Hg Tg]; [|done|done].
simpl. rewrite <- (length_rev (pending (take a (toks f)))). apply slice_of_parts; [done|done|].
apply Forall_rev, pend_open. constructor.
Qed.

(** [Node::slice] of a range cuts the node that both positions share. *)
Lemma node_slice_shared doc from to :
wfn doc -> n_text doc = None -> from < to -> to <= f_size (n_content doc) ->
exists s rf k m st, node_slice doc from to = Ok s /\ wf_slice schema s /\
slice_toks s = drop from (take to (toks (n_content doc))) /\
Resolved.resolve doc from = Ok rf /\ Resolved.shared_depth rf to = Ok k /\ Resolved.node rf k = Ok m /\
below doc 0 k m st /\ st <= from /\ to <= st + f_size (n_content m) /\
toks (s_content s) = cut_tokens (from - st) (to - st) (toks (n_content m)) /\
s_open_start s = length (pending (take (from - st) (toks (n_content m)))) /\
s_open_end s = length (pending (take (to - st) (toks (n_content m)))).
Proof.
intros Hw Ht Hlt Hto. unfold node_slice. rewrite (proj2 (Nat.eqb_neq from to)) by lia.
destruct (resolve_spec (schema:=schema) doc from Hw) as (rf & Erf & Rf); [lia|]. rewrite Erf. simpl.
destruct (resolve_spec (schema:=schema) doc to Hw Hto) as (rt & -> & Rt). simpl.
destruct (shared_from_spec doc from rf to (Resolved.depth rf)) as
(k & m & st & Ek & Hk & B & En & Es & H1 & H2 & H3 & H4); try done.
unfold Resolved.shared_depth. rewrite Ek. cbn [mbind Result_bind]. rewrite Es. cbn [mbind Result_bind].
rewrite En. cbn [mbind Result_bind]. rewrite (res_pos _ _ _ Rf), (res_pos _ _ _ Rt), (usub_le from st), (usub_le to st) by lia.
cbn [mbind Result_bind]. destruct (below_range _ _ _ _ _ B Hw) as (Hwm & _ & Hsize & Tm).
pose proof (wf_content _ Hwm) as Hc.
destruct (cut_total (schema:=schema) (n_content m) (from - st) (to - st) Hc) as [g Eg]; [lia|].
rewrite Eg. cbn [mbind Result_bind].
destruct (cut_slice (n_content m) (from - st) (to - st) g) as [Hs Hts]; try done; try lia.
destruct (level_below doc from rf k Hw Ht Rf Hk) as (m1 & st1 & B1 & En1 & Es1 & _ & _ & P1).
rewrite En in En1. injection En1 as <-. rewrite Es in Es1. injection Es1 as <-.
destruct (below_path doc 0 k m st to _ _ B Hw (res_path _ _ _ Rt)) as (lt & Et & _ & P2); [lia|].
pose proof (resolved_is_ok (schema:=schema) _ _ _ Hw Ht Rt) as Okt.
pose proof (level_depth (schema:=schema) _ _ _ Okt Et) as Hkt.
pose proof (path_pending _ _ _ _ _ P1 Hwm) as L1. pose proof (path_pending _ _ _ _ _ P2 Hwm) as L2.
pose proof (resolved_is_ok (schema:=schema) _ _ _ Hw Ht Rf) as Okf.
rewrite length_drop, (depth_length (schema:=schema)) in L1, L2 by done. simpl in L2.
rewrite !usub_le by done. cbn [mbind Result_bind].
replace (Resolved.depth rf - k) with (length (pending (take (from - st) (toks (n_content m))))) by lia.
replace (Resolved.depth rt - k) with (length (pending (take (to - st) (toks (n_content m))))) by lia.
eexists _, rf, k, m, st. split; [done|]. split; [done|].
apply (cut_spec (schema:=schema)) in Eg as [_ Tg]; [|done|lia].
split; [|done]. rewrite Hts, Tm, Nat.sub_0_r, take_take, Nat.min_l by lia.
rewrite !skipn_firstn_comm, drop_drop. f_equal; [lia|]. f_equal. lia.
Qed.

Lemma node_slice_spec doc from to :
wfn doc -> n_text doc = None -> from <= to -> to <= f_size (n_content doc) ->
exists s, node_slice doc from to = Ok s /\ wf_slice schema s /\
slice_toks s = drop from (take to (toks (n_content doc))).
Proof.
intros Hw Ht Hle Hto. destruct (decide (from = to)) as [->|].
- exists Slice.empty. unfold node_slice. rewrite Nat.eqb_refl. split; [done|].
split; [by split|]. unfold slice_toks, Slice.empty. simpl.
rewrite drop_ge; [done|]. rewrite length_take. lia.
- destruct (node_slice_shared doc from to) as (s & ? & ? & ? & ? & ? & ? & ? & _); try done; [lia|]. eauto.
Qed.

(** What is open below a node counts from that node. *)
Lemma below_open n st d m st_m :
below n st d m st_m -> wfn n ->
exists B, innermost (n_kind n) B = n_kind m /\ Forall is_open B /\
forall i, i <= f_size (n_content m) ->
pending (take (st_m - st + i) (toks (n_content n))) = pending (take i (toks (n_content m))) ++ B.
Proof.
induction 1 as [n st|n st i c d m st_m Hc Hin Hb IH]; intros Hw.
- exists []. split; [done|]. split; [constructor|]. intros i _. by rewrite Nat.sub_diag, app_nil_r.
- pose proof (wf_content _ Hw) as [Hs Hl]. pose proof (wf_list_lookup _ _ _ Hl Hc) as Hwc.
destruct (IH Hwc) as (B & HB & Hop & H). destruct (below_range _ _ _ _ _ Hb Hwc) as (_ & H1 & H2 & _).
set (off := length (flat (take i (f_content (n_content n))))) in *.
exists (B ++ [open_token c]). split; [|split; [apply Forall_app; split; [done|by repeat constructor]|]].
{ destruct Hop as [|[] B ? Hop]; done. }
intros j Hj. rewrite app_assoc, <- H by done. pose proof Hin as [Ht Hlf]%inner_true.
unfold toks at 1. rewrite (flat_child_inner _ _ _ Hc Ht Hlf), take_app_ge by (fold off; lia). fold off.
replace (st_m - st + j - off) with (S (st_m - (st + off + 1) + j)) by lia. simpl.
pose proof (f_size_toks (schema:=schema) _ (wf_content _ Hwc)) as Sc. rewrite take_app_le by lia.
unfold pending at 1. rewrite pend_app, (pend_flat (schema:=schema)) by eauto with kodosi. simpl.
unfold toks. by rewrite (pend_take_flat (schema:=schema)) by by apply wf_content.
Qed.
End take.

(* ------------------------------------------------------------ *)

(** [Slice::insert_at] of [documents/crates/text/src/node.rs] in tokens: the tokens of a
    fragment go in at a position of a slice. *)

Section insert.
Context {schema : Schema}.
Local Abbreviation wfn n := (wf_node schema n = true).
Local Abbreviation wfl l := (wf_list schema l).
Local Abbreviation wff f := (wf_fragment schema f).

(** Nothing is open before a child, or inside a text child. *)
Lemma pending_found f position index offset :
wff f -> found (f_content f) position index offset ->
(offset = position \/ exists c, f_content f !! index = Some c /\ Node.is_text c = true) ->
pending (take position (toks f)) = [] /\ position <= f_size f.
Proof.
intros Hf Hfound Hat. rewrite (f_size_toks (schema:=schema)) by done. destruct Hf as [_ Hl]. unfold toks.
set (C := f_content f) in *. destruct Hfound as (Hoff & Hi & Hin).
assert (Hpre : pending (flat (take index C)) = []).
{ unfold pending. by rewrite (pend_flat (schema:=schema)) by eauto with kodosi. }
assert (Hb : offset = position -> pending (take position (flat C)) = [] /\ position <= length (flat C)).
{ intros <-. rewrite <- (take_drop index C), flat_app, take_app_exact, length_app by done. split; [done|lia]. }
destruct Hat as [|(c & Hc & [units Hu]%is_text_true)]; [auto|].
destruct Hin as [|(c' & Hc' & Hin)]; [auto|]. rewrite Hc in Hc'. injection Hc' as <-.
unfold Node.node_size in Hin. rewrite Hu in Hin.
rewrite (flat_child _ _ _ Hc), take_app_ge, (flatten_text _ _ Hu), take_app_le
by (rewrite ?length_fmap; lia).
split; [|rewrite !length_app, length_fmap; lia].
unfold pending in *. rewrite pend_app, Hpre, <- fmap_take. apply pend_units.
Qed.

Lemma insert_into_spec content : forall distance insert os oe parent content',
wff content -> wff insert ->
insert_into schema content distance insert os oe parent = Ok (Some content') ->
wff content' /\ distance <= f_size content /\
toks content' = take distance (toks content) ++ toks insert ++ drop distance (toks content).
Proof.
induction content as [children size IH] using fragment_ind.
intros distance insert os oe parent content' Hf Hi E. cbn [insert_into] in E.
apply bind_ok in E as ([index offset] & Efind & E).
destruct (decide (distance <= f_size (MkFragment children size))) as [Hd|Hd].
2: { rewrite find_index_outside in Efind by lia. done. }
destruct (find_index_spec (schema:=schema) _ distance Hf Hd) as (i & o & E' & Hfound).
rewrite Efind in E'. injection E' as <- <-. cbn [f_content] in Hfound.
destruct (_ || _) eqn:Eat.
- apply bind_ok in E as (blocked & _ & E). destruct blocked; [done|].
apply bind_ok in E as (a & Ea & E). apply bind_ok in E as (b & Eb & E). injection E as <-.
destruct (pending_found _ _ _ _ Hf Hfound) as [Hp Hle].
{ apply orb_true_iff in Eat as [->%Nat.eqb_eq|Et]; [by left|right]. cbn [f_content].
destruct (children !! index) as [c|]; [eauto|done]. }
apply (cut_front (schema:=schema)) in Ea as [Wa Ta]; [|done..].
apply (cut_back (schema:=schema)) in Eb as [Wb Tb]; [|done..].
destruct (append_spec (schema:=schema) a insert Wa Hi) as [T1 W1].
destruct (append_spec (schema:=schema) _ b W1 Wb) as [T2 W2].
split; [done|]. split; [done|]. by rewrite T2, T1, Ta, Tb, <- app_assoc.
- apply orb_false_iff in Eat as [Hne%Nat.eqb_neq Et].
destruct (children !! index) as [c|] eqn:Ec; [|done].
pose proof Hfound as (Hoff & _ & [|(c' & Hc' & Hin)]); [done|].
rewrite Ec in Hc'. injection Hc' as <-.
pose proof Hf as [_ Hl]. cbn [f_content] in Hl. pose proof (wf_list_lookup _ _ _ Hl Ec) as Hwc.
assert (Hinner : inner c = true).
{ apply inner_true. apply is_text_false in Et. split; [done|]. unfold Node.node_size in Hin.
rewrite Et in Hin. destruct (n_leaf c); [lia|done]. }
pose proof Hinner as [Hct Hcl]%inner_true.
rewrite usub_le in E by lia. cbn [mbind Result_bind] in E. rewrite usub_le in E by lia.
cbn [mbind Result_bind] in E. rewrite with_nth_lookup, Ec in E. cbn [fmap option_fmap option_map default] in E.
apply bind_ok in E as ([inner'|] & Einner & E); [|done]. apply fmap_ok in E as (f' & Erep & [= <-]).
cbn [from_option id] in Einner. eapply Forall_lookup_1 in IH; [|exact Ec].
apply IH in Einner as (Wi & Hdi & Ti); [|by apply wf_content|done].
apply (replace_child_spec (schema:=schema)) in Erep as (Wf & Tf & _); [|done|by apply wf_copy].
split; [done|]. split; [done|]. rewrite Tf. cbn [f_content]. rewrite flatten_copy, Ti by done.
unfold toks at 4 6. cbn [f_content]. rewrite (flat_child_inner _ _ _ Ec Hct Hcl).
rewrite (f_size_toks (schema:=schema)) in Hdi by by apply wf_content.
rewrite take_app_ge, drop_app_ge by lia. rewrite <- Hoff.
replace (distance - offset) with (S (distance - offset - 1)) by lia. cbn [take drop firstn skipn].
replace (S (distance - offset - 1) - 1) with (distance - offset - 1) by lia.
rewrite (take_app_le (toks (n_content c))), (drop_app_le (toks (n_content c))) by lia.
by list_simplifier.
Qed.

(** The tokens of a slice with a fragment put in. *)
Lemma insert_at_spec s position fragment s' :
wf_slice schema s -> wff fragment -> position <= length (slice_toks s) ->
insert_at schema s position fragment = Ok (Some s') ->
wf_slice schema s' /\
slice_toks s' = take position (slice_toks s) ++ toks fragment ++ drop position (slice_toks s).
Proof.
intros Hs Hf Hp E. pose proof (slice_fits s Hs) as Hfit. rewrite (slice_toks_length s Hs) in Hp.
unfold insert_at in E. apply bind_ok in E as (distance & [-> _]%uadd_ok & E).
apply bind_ok in E as ([content|] & Ei & E); [|done]. injection E as <-.
apply insert_into_spec in Ei as (Hc' & _ & Tc); [|by apply Hs|done].
destruct (slice_parts s Hs) as (pre & E & Hlen & Hpre). rewrite <- Hlen. apply slice_of_parts; [done| |done].
rewrite Tc, E, <- Hlen, Nat.add_comm, take_app_add', drop_app_add' by done.
rewrite take_app_le, drop_app_le by (rewrite (slice_toks_length s Hs); lia). by list_simplifier.
Qed.
End insert.
