(* ===== verification/TextStep.v ===== *)
(** [documents/crates/text/src/step.rs]: the eight steps, how each changes a document,
    the range it reads or changes, and how it moves positions. *)

From S2P Require Import Prelude Json TextMap TextData TextSchema TextNode TextResolved TextReplace.
Open Scope nat_scope.

Module Step.
Inductive t : Type :=
| Replace (from to : nat) (slice : Slice) (structure : bool)
| ReplaceAround (from to gap_from gap_to : nat) (slice : Slice) (insert : nat) (structure : bool)
| AddMark (from to : nat) (mark : Mark)
| RemoveMark (from to : nat) (mark : Mark)
| AddNodeMark (pos : nat) (mark : Mark)
| RemoveNodeMark (pos : nat) (mark : Mark)
| Attr (pos : nat) (attr : string) (value : Value)
| DocAttr (attr : string) (value : Value).

Section apply.
Variable schema : Schema.

(** *** [content_between] *)

(** The first loop, on [depth]: out of each node that ends at the position. *)
Fixpoint climb (start : ResolvedPos) (depth distance : nat) : res (nat * nat) :=
match depth with
| O => Ok (0, distance)
| S above =>
if 0 <? distance then
after ← Resolved.index_after start depth;
node ← Resolved.node start depth;
if after =? Node.child_count node then climb start above (distance - 1)
else Ok (depth, distance)
else Ok (depth, distance)
end.

(** The second loop, on [distance]: into each first child. *)
Fixpoint descend (distance : nat) (next : option Node) : bool :=
match distance with
| O => false
| S distance =>
match next with
| Some node =>
if n_leaf node then true else descend distance (Fragment.maybe_child (n_content node) 0)
| None => true
end
end.

Definition content_between (doc : Node) (from to : nat) : res bool :=
start ← Resolved.resolve doc from;
if from <=? to then
'(depth, distance) ← climb start (Resolved.depth start) (to - from);
if 0 <? distance then
node ← Resolved.node start depth;
after ← Resolved.index_after start depth;
Ok (descend distance (Fragment.maybe_child (n_content node) after))
else Ok false
else Err EndsBeforeStart.

(** *** [map_fragment] *)
Section map_fragment.
Variable change : Node -> Node -> res Node.

Definition map_child (inner : Node -> res Fragment) (parent child : Node) : res Node :=
child ←
(if 0 <? f_size (n_content child)
then content ← inner child; Ok (Node.copy child content)
else Ok child);
inline ← Schema.is_inline schema (n_kind child);
if inline : bool then change child parent else Ok child.

Fixpoint map_fragment (fragment : Fragment) (parent : Node) {struct fragment} : res Fragment :=
match fragment with
| MkFragment children _ =>
mapped ← try_map (map_child (fun child => map_fragment (n_content child) child) parent) children;
Ok (Fragment.from_array mapped)
end.
End map_fragment.

Definition add_mark_change (mark : Mark) (node parent : Node) : res Node :=
atom ← Schema.is_atom schema (n_kind node);
allowed ← (if atom : bool then Schema.allows_mark_type schema (n_kind parent) (m_kind mark) else Ok false);
if allowed : bool then
marks ← Marks.add_to_set schema mark (n_marks node);
Ok (Node.with_marks node marks)
else Ok node.

Definition remove_mark_change (mark : Mark) (node parent : Node) : res Node :=
Ok (Node.with_marks node (Marks.remove_from_set mark (n_marks node))).

Definition add_mark (doc : Node) (from to : nat) (mark : Mark) : res Node :=
old ← node_slice doc from to;
start ← Resolved.resolve doc from;
depth ← Resolved.shared_depth start to;
parent ← Resolved.node start depth;
content ← map_fragment (add_mark_change mark) (s_content old) parent;
node_replace schema doc from to (MkSlice content (s_open_start old) (s_open_end old)).

Definition remove_mark (doc : Node) (from to : nat) (mark : Mark) : res Node :=
old ← node_slice doc from to;
content ← map_fragment (remove_mark_change mark) (s_content old) doc;
node_replace schema doc from to (MkSlice content (s_open_start old) (s_open_end old)).

(** *** One node *)

Definition put_node (doc : Node) (pos : nat) (node updated : Node) : res Node :=
to ← uadd pos 1;
node_replace schema doc pos to
(MkSlice (Fragment.new [updated]) 0 (if n_leaf node then 0 else 1)).

Definition set_attr (doc : Node) (pos : nat) (attr : string) (value : Value) : res Node :=
node ← Nodes.node_at doc pos;
match node with
| None => Err NoNodeAtAttribute
| Some node =>
updated ← Nodes.with_attrs schema node (Object (Map.insert attr value (n_attrs node)));
put_node doc pos node updated
end.

Definition update_node (doc : Node) (pos : nat) (node : Node) (marks : list Mark) : res Node :=
updated ← Nodes.new schema (n_kind node) (Some (Object (n_attrs node))) empty_fragment marks;
put_node doc pos node updated.

Definition apply (self : t) (doc : Node) : res Node :=
match self with
| Replace from to slice structure =>
blocked ← (if structure then content_between doc from to else Ok false);
if blocked : bool then Err StructureReplace
else node_replace schema doc from to slice
| ReplaceAround from to gap_from gap_to slice insert structure =>
blocked ←
(if structure then
before ← content_between doc from gap_from;
if before : bool then Ok true else content_between doc gap_to to
else Ok false);
if blocked : bool then Err StructureGapReplace
else
gap ← node_slice doc gap_from gap_to;
if negb (s_open_start gap =? 0) || negb (s_open_end gap =? 0) then Err GapNotFlat
else
inserted ← insert_at schema slice insert (s_content gap);
match inserted with
| None => Err ContentDoesNotFit
| Some inserted => node_replace schema doc from to inserted
end
| AddMark from to mark => add_mark doc from to mark
| RemoveMark from to mark => remove_mark doc from to mark
| AddNodeMark pos mark =>
node ← Nodes.node_at doc pos;
match node with
| None => Err NoNodeAtMark
| Some node =>
marks ← Marks.add_to_set schema mark (n_marks node);
update_node doc pos node marks
end
| RemoveNodeMark pos mark =>
node ← Nodes.node_at doc pos;
match node with
| None => Err NoNodeAtMark
| Some node => update_node doc pos node (Marks.remove_from_set mark (n_marks node))
end
| Attr pos attr value => set_attr doc pos attr value
| DocAttr attr value =>
Nodes.with_doc_attrs schema doc (Object (Map.insert attr value (n_attrs doc)))
end.
End apply.

Definition range (self : t) : option (nat * nat) :=
match self with
| Replace from to _ _ | ReplaceAround from to _ _ _ _ _
| AddMark from to _ | RemoveMark from to _ => Some (from, to)
| AddNodeMark pos _ | RemoveNodeMark pos _ | Attr pos _ _ => Some (pos, pos)
| DocAttr _ _ => None
end.

Definition map (self : t) : res StepMap.t :=
match self with
| Replace from to slice _ =>
old ← usub to from;
size ← Slice.size slice;
Ok (StepMap.new (Z.of_nat <$> [from; old; size]))
| ReplaceAround from to gap_from gap_to slice insert _ =>
before ← usub gap_from from;
after ← usub to gap_to;
size ← Slice.size slice;
Ok (StepMap.new (Z.of_nat <$> [from; before; insert; gap_to; after; size - insert]))
| _ => Ok StepMap.default
end.
End Step.
