(* ===== verification/TextMarks.v ===== *)
(** [map_fragment] of [documents/crates/text/src/step.rs] in tokens: each token keeps its
    place, and only the marks of inline content change. *)

From Stdlib Require Import Sorting.Sorted.
From S2P Require Import Prelude Json TextData TextSchema TextNode TextResolved TextReplace.
From S2P Require Import TextTokens TextCut TextReplaceSpec TextSlice TextTake TextStep.
(** The kind of the node that the next token lies in, after the tokens [l] of a node. *)
Definition enclosing (kind : NodeId) (l : list token) : NodeId := innermost kind (pending l).

Lemma innermost_app kind X B : Forall is_open X -> innermost kind (X ++ B) = innermost (innermost kind B) X.
Proof. by destruct 1 as [|[]]. Qed.

Section remark.
(** The new marks, from the kind of the parent, the kind of the node, and its marks. *)
Variable g : NodeId -> NodeId -> list Mark -> list Mark.

(** A leaf, with the marks in its content changed as [map_fragment] does. *)
Fixpoint remark (parent : NodeId) (n : Node) : Node :=
match n with
| MkNode kind attrs (MkFragment content size) marks text leaf =>
MkNode kind attrs
(if 0 <? size then Fragment.from_array (remark kind <$> content) else MkFragment content size)
(g parent kind marks) text leaf
end.

Definition remark_token (parent : NodeId) (t : token) : token :=
match t with
| TOpen kind attrs marks => TOpen kind attrs (g parent kind marks)
| TClose => TClose
| TLeaf n => TLeaf (remark parent n)
| TUnit kind attrs marks unit => TUnit kind attrs (g parent kind marks) unit
end.

(** The tokens [l] that come after [before] in a node of a kind. *)
Definition retok_from (kind : NodeId) (before l : list token) : list token :=
imap (fun i t => remark_token (enclosing kind (before ++ take i l)) t) l.
Definition retok (kind : NodeId) (l : list token) : list token := retok_from kind [] l.

Lemma retok_from_app kind before l1 l2 :
retok_from kind before (l1 ++ l2) = retok_from kind before l1 ++ retok_from kind (before ++ l1) l2.
Proof.
unfold retok_from. rewrite imap_app. f_equal; apply imap_ext; intros i t Ht.
- by rewrite take_app_le by (apply lookup_lt_Some in Ht; lia).
- simpl. by rewrite take_app_add, app_assoc.
Qed.

Lemma retok_from_length kind before l : length (retok_from kind before l) = length l.
Proof. apply length_imap. Qed.

(** Only what is open counts. *)
Lemma retok_from_open kind kind' before before' l :
(forall i, i < length l -> innermost kind (pend (take i l) (pending before)) =
innermost kind' (pend (take i l) (pending before'))) ->
retok_from kind before l = retok_from kind' before' l.
Proof.
intros H. apply imap_ext. intros i t Ht. unfold enclosing, pending. rewrite !pend_app.
fold (pending before) (pending before'). by rewrite H by by eapply lookup_lt_Some.
Qed.

Lemma retok_closed kind before l : pending before = [] -> retok_from kind before l = retok kind l.
Proof. intros H. apply retok_from_open. intros i _. by rewrite H. Qed.

Lemma retok_from_open_pre kind l :
Forall is_open l -> exists l', retok kind l = l' /\ length l' = length l /\ Forall is_open l'.
Proof.
intros H. eexists. split; [done|]. split; [apply retok_from_length|].
apply Forall_lookup. intros i t. unfold retok, retok_from. rewrite list_lookup_imap, fmap_Some.
intros (t0 & E & ->). eapply Forall_lookup_1 in H; [|done]. by destruct t0.
Qed.

Lemma retok_from_close kind before k : retok_from kind before (replicate k TClose) = replicate k TClose.
Proof.
unfold retok_from. apply list_eq. intros i. rewrite list_lookup_imap.
destruct (replicate k TClose !! i) as [t|] eqn:E; [|done]. by apply lookup_replicate in E as [-> _].
Qed.
End remark.

Section map.
Context {schema : Schema}.
Local Abbreviation wfn n := (wf_node schema n = true).
Local Abbreviation wfl l := (wf_list schema l).
Local Abbreviation wff f := (wf_fragment schema f).
Variable g : NodeId -> NodeId -> list Mark -> list Mark.

Lemma retok_node kind n :
wfn n -> inner n = true ->
retok g kind (flatten n) =
TOpen (n_kind n) (n_attrs n) (g kind (n_kind n) (n_marks n)) :: retok g (n_kind n) (toks (n_content n)) ++ [TClose].
Proof.
intros Hw Hin. rewrite inner_flatten by done. change (open_token n :: ?l) with ([open_token n] ++ l).
unfold retok at 1. rewrite !retok_from_app. rewrite !app_nil_l. simpl. f_equal. f_equal.
apply retok_from_open. intros i _. unfold toks. unfold pending at 1. simpl.
rewrite (pend_take_flat (schema:=schema)) by by apply wf_content.
change (pending []) with (@nil token). fold (pending (take i (flat (f_content (n_content n))))).
apply innermost_app, pend_open. constructor.
Qed.

Lemma retok_flat_cons kind n l :
wfn n -> retok g kind (flatten n ++ flat l) = retok g kind (flatten n) ++ retok g kind (flat l).
Proof.
intros Hw. unfold retok at 1. rewrite retok_from_app. f_equal. apply retok_closed. by apply (pending_flatten (schema:=schema)).
Qed.

(** One child: the marks in its content, then its own. *)
Lemma remark_spec n : forall parent, wfn n ->
wfn (remark g parent n) /\ flatten (remark g parent n) = retok g parent (flatten n).
Proof.
induction n as [kind attrs content size marks text leaf IH] using node_tree_ind. intros parent Hw.
pose proof (wf_content _ Hw) as Hc. simpl in Hc. pose proof Hc as [Hs Hl]. simpl in Hs, Hl.
assert (Hlist : wfl (remark g kind <$> content) /\ flat (remark g kind <$> content) = retok g kind (flat content)).
{ clear Hw Hc Hs. induction content as [|c l IHl]; [done|]. apply Forall_cons in IH as [IHc IH].
apply wf_list_cons in Hl as [Hwc Hl]. destruct (IHc kind Hwc) as [W1 T1], (IHl IH Hl) as [W2 T2].
rewrite fmap_cons, wf_list_cons, !flat_cons, retok_flat_cons, T1, T2 by done. done. }
destruct Hlist as [Wl Tl]. cbn [remark].
set (content' := if 0 <? size then _ else _).
assert (Hc' : wff content' /\ toks content' = retok g kind (toks (MkFragment content size))).
{ unfold content'. destruct (Nat.ltb_spec 0 size).
- destruct (from_array_spec (schema:=schema) _ Wl) as [-> W]. by rewrite Tl.
- split; [done|]. assert (size = 0) as -> by lia. apply (toks_nil (schema:=schema)) in Hc as ->; done. }
destruct Hc' as [Wc Tc]. pose proof (wf_kind _ Hw) as Hk. simpl in Hk.
apply wf_node_cases in Hw as Hcases. destruct Hcases as [_ Hcases]. simpl in Hcases. destruct text as [units|].
- destruct Hcases as (Hkt & Hu & -> & [= -> ->]). unfold content'. simpl.
split; [by apply wf_make_text|]. rewrite !(flatten_text _ units) by done. simpl.
clear -Hu. unfold retok, retok_from. rewrite imap_fmap. apply list_eq. intros i.
rewrite list_lookup_fmap, list_lookup_imap. destruct (units !! i); [|done]. simpl.
unfold enclosing. by rewrite <- fmap_take; unfold pending; rewrite pend_units.
- destruct Hcases as (Hkt & Hlf & _). split; [by apply wf_make|].
destruct leaf.
+ rewrite !flatten_leaf by done. unfold retok, retok_from. simpl. unfold content'. done.
+ rewrite (retok_node parent (MkNode kind attrs (MkFragment content size) marks None false)) by done.
rewrite inner_flatten by done. unfold open_token. simpl. by rewrite Tc.
Qed.

(** [map_fragment] does so for each child, when the change is one of marks alone. *)
Definition changes (change : Node -> Node -> res Node) : Prop :=
forall child parent child',
(inline ← Schema.is_inline schema (n_kind child);
if inline : bool then change child parent else Ok child) = Ok child' ->
child' = Node.with_marks child (g (n_kind parent) (n_kind child) (n_marks child)).

Lemma map_fragment_spec change f : forall parent f',
changes change -> Step.map_fragment schema change f parent = Ok f' ->
f' = Fragment.from_array (remark g (n_kind parent) <$> f_content f).
Proof.
induction f as [children size IH] using fragment_ind. intros parent f' Hch E. cbn [Step.map_fragment] in E.
apply bind_ok in E as (mapped & Em & E). injection E as <-. cbn [f_content]. f_equal.
revert mapped Em. induction children as [|c l IHl]; intros mapped Em; simpl in Em; [by injection Em as <-|].
apply Forall_cons in IH as [IHc IH].
apply bind_ok in Em as (c' & Ec & Em). apply bind_ok in Em as (l' & El & Em). injection Em as <-.
rewrite fmap_cons. f_equal; [|by apply IHl]. clear IHl IH El.
unfold Step.map_child in Ec. apply bind_ok in Ec as (c2 & Ec2 & Ec).
apply Hch in Ec. subst c'. destruct c as [kind attrs [cc cs] marks text leaf]. cbn [n_content f_size] in *.
cbn [remark]. destruct (0 <? cs).
- apply bind_ok in Ec2 as (inner & Ei & Ec2). injection Ec2 as <-. apply IHc in Ei as ->; done.
- by injection Ec2 as <-.
Qed.

Lemma map_fragment_tokens change f parent f' :
changes change -> wff f -> Step.map_fragment schema change f parent = Ok f' ->
wff f' /\ toks f' = retok g (n_kind parent) (toks f).
Proof.
intros Hch [_ Hl] ->%map_fragment_spec; [|done].
assert (H : wfl (remark g (n_kind parent) <$> f_content f) /\
flat (remark g (n_kind parent) <$> f_content f) = retok g (n_kind parent) (toks f)).
{ unfold toks. induction (f_content f) as [|c l IH]; [done|]. apply wf_list_cons in Hl as [Hc Hl].
destruct (IH Hl) as [W T], (remark_spec c (n_kind parent) Hc) as [W1 T1].
by rewrite fmap_cons, wf_list_cons, !flat_cons, retok_flat_cons, T, T1. }
destruct H as [W T]. destruct (from_array_spec (schema:=schema) _ W) as [-> W']. done.
Qed.
End map.

(** ** The two changes of marks *)
Definition ok_true {E} (r : Result E bool) : bool := match r with Ok b => b | _ => false end.

(** What [addMark] makes of the marks of a node: an atom in inline content, in a parent
    that takes the mark, gets it by [add_to_set]. *)
Definition marks_added (schema : Schema) (mark : Mark) (parent kind : NodeId) (marks : list Mark) : list Mark :=
  if ok_true (Schema.is_inline schema kind) && ok_true (Schema.is_atom schema kind) &&
     ok_true (Schema.allows_mark_type schema parent (m_kind mark))
  then match Marks.add_to_set schema mark marks with Ok marks => marks | _ => marks end
  else marks.

(** What [removeMark] makes of them: inline content loses the mark. *)
Definition marks_removed (schema : Schema) (mark : Mark) (parent kind : NodeId) (marks : list Mark) : list Mark :=
  if ok_true (Schema.is_inline schema kind) then Marks.remove_from_set mark marks else marks.

Lemma with_same_marks n : Node.with_marks n (n_marks n) = n.
Proof. by destruct n. Qed.

Lemma add_changes schema mark :
  changes (schema:=schema) (marks_added schema mark) (Step.add_mark_change schema mark).
Proof.
  intros child parent child' E. apply bind_ok in E as (inline & Ei & E). unfold marks_added. rewrite Ei. cbn [ok_true andb].
  destruct inline; [|injection E as <-; by rewrite with_same_marks].
  apply bind_ok in E as (atom & Eatom & E). apply bind_ok in E as (allowed & Ea & E).
  rewrite Eatom. cbn [ok_true andb]. destruct atom; cbn [andb] in *.
  2: { injection Ea as <-. injection E as <-. by rewrite with_same_marks. }
  rewrite Ea. cbn [ok_true]. destruct allowed; [|injection E as <-; by rewrite with_same_marks].
  apply bind_ok in E as (marks & -> & E). by injection E as <-.
Qed.

Lemma remove_changes schema mark :
  changes (schema:=schema) (marks_removed schema mark) (Step.remove_mark_change mark).
Proof.
  intros child parent child' E. apply bind_ok in E as (inline & Ei & E). unfold marks_removed. rewrite Ei. cbn [ok_true andb].
  destruct inline; injection E as <-; [done|by rewrite with_same_marks].
Qed.

(* ------------------------------------------------------------ *)

(** Mark sets of [documents/crates/text/src/node.rs]: [add_to_set] against a plain
    definition, and what it keeps true of a set. *)

Section set.
Variable schema : Schema.

(** A mark excludes another, and is out of range of no question. *)
Definition excludes (m other : Mark) : bool :=
match sc_marks schema !! m_kind m with
| Some t => bool_decide (m_kind other ∈ mt_excluded t)
| None => false
end.

Definition known (m : Mark) : Prop := m_kind m < length (sc_marks schema).

Lemma excludes_ok m other : known m -> Schema.excludes schema (m_kind m) (m_kind other) = Ok (excludes m other).
Proof.
intros H. unfold Schema.excludes, Schema.mark, excludes.
by destruct (lookup_lt_is_Some_2 _ _ H) as [t ->].
Qed.

(** *** The plain definition *)

(** Before the first mark of a later rank. *)
Fixpoint insert_rank (m : Mark) (l : list Mark) : list Mark :=
match l with
| [] => [m]
| other :: l' => if m_kind m <? m_kind other then m :: l else other :: insert_rank m l'
end.

(** A mark that keeps [m] out of the set: itself, or one that excludes it and stays. *)
Definition keeps_out (m other : Mark) : bool :=
bool_decide (m = other) || (negb (excludes m other) && excludes other m).

Definition add_ref (m : Mark) (set : list Mark) : list Mark :=
if existsb (keeps_out m) set then set
else insert_rank m (filter (fun other => excludes m other = false) set).

Lemma add_loop_ref m set : known m -> Forall known set ->
forall rest index copy placed acc,
set = take index set ++ rest -> acc = default (take index set) copy -> index <= length set ->
(placed = true -> is_Some copy) ->
(copy = None -> take index set = filter (fun other => excludes m other = false) (take index set)) ->
Marks.add_loop schema m set rest index copy placed =
Ok (if existsb (keeps_out m) rest then set
else acc ++ (if placed then filter (fun other => excludes m other = false) rest
else insert_rank m (filter (fun other => excludes m other = false) rest))).
Proof.
intros Hm Hset rest. induction rest as [|other rest IH]; intros index copy placed acc Hsplit -> Hi Hplaced Hnone;
cbn [Marks.add_loop existsb].
- assert (default set copy = default (take index set) copy) as ->.
{ destruct copy; [done|]. simpl. by rewrite app_nil_r in Hsplit. }
destruct placed; simpl; [by rewrite app_nil_r|done].
- assert (Hko : known other).
{ rewrite Hsplit in Hset. apply Forall_app in Hset as [_ Hset]. by inversion Hset. }
assert (Hother : set !! index = Some other).
{ rewrite Hsplit, lookup_app_r; rewrite length_take_le by done; [|done]. by rewrite Nat.sub_diag. }
assert (Hsplit' : set = take (S index) set ++ rest).
{ rewrite (take_S_r _ _ _ Hother), <- app_assoc. done. }
pose proof (lookup_lt_Some _ _ _ Hother) as Hlt.
unfold keeps_out at 1. destruct (bool_decide_reflect (m = other)); [done|]. cbn [orb].
rewrite !excludes_ok by done. cbn [mbind Result_bind]. rewrite filter_cons.
destruct (excludes m other) eqn:Ex; cbn [negb andb orb].
+ rewrite (IH (S index) _ placed (default (take index set) copy)); try done.
+ cbn [mbind Result_bind]. destruct (excludes other m); cbn [orb]; [done|].
destruct (decide (false = false)) as [_|]; [|done].
destruct (negb placed && (m_kind m <? m_kind other)) eqn:Eplace.
* apply andb_true_iff in Eplace as [->%negb_true_iff Hlt'].
rewrite (IH (S index) _ true (default (take index set) copy ++ [m] ++ [other])); try done; [|by simpl; rewrite <- app_assoc].
destruct (existsb _ rest); [done|]. f_equal. cbn [insert_rank]. rewrite Hlt'. by rewrite <- !app_assoc.
* rewrite (IH (S index) _ placed (default (take index set) copy ++ [other])); try done; [|..].
-- destruct (existsb _ rest); [done|]. f_equal. rewrite <- app_assoc. f_equal. destruct placed; [done|].
cbn [insert_rank]. simpl in Eplace. by rewrite Eplace.
-- destruct copy; [done|]. simpl. by rewrite (take_S_r _ _ _ Hother).
-- intros H. destruct (Hplaced H) as [c ->]. eauto.
-- intros H. destruct copy; [done|]. rewrite (take_S_r _ _ _ Hother), filter_app, <- Hnone by done.
f_equal. by rewrite filter_cons, decide_True.
Qed.

Lemma add_to_set_ref m set : known m -> Forall known set -> Marks.add_to_set schema m set = Ok (add_ref m set).
Proof.
intros Hm Hset. unfold Marks.add_to_set, add_ref. rewrite (add_loop_ref m set Hm Hset set 0 None false []); done || (simpl; lia) || done.
Qed.

(** *** What a set keeps *)

(** Sorted by rank, each mark once, and no mark with one that it excludes. *)
Definition ranked (l : list Mark) : Prop := StronglySorted (fun a b => m_kind a <= m_kind b) l.
Definition apart (l : list Mark) : Prop :=
NoDup l /\ forall a b, a ∈ l -> b ∈ l -> a <> b -> excludes a b = false.

Lemma insert_rank_in m l x : x ∈ insert_rank m l <-> x = m \/ x ∈ l.
Proof.
induction l as [|other l IH]; simpl; [set_solver|]. destruct (_ <? _); set_solver.
Qed.

Lemma insert_rank_ranked m l : ranked l -> ranked (insert_rank m l).
Proof.
induction 1 as [|other l Hl IH Hall]; simpl; [by repeat constructor|].
destruct (Nat.ltb_spec (m_kind m) (m_kind other)).
- constructor; [by constructor|]. constructor; [lia|]. eapply Forall_impl; [exact Hall|]. simpl. lia.
- constructor; [done|]. apply Forall_forall. intros x [->|Hx]%insert_rank_in; [done|].
by eapply Forall_forall in Hall.
Qed.

Lemma ranked_filter (P : Mark -> Prop) `{forall x, Decision (P x)} l : ranked l -> ranked (filter P l).
Proof.
induction 1 as [|m l Hl IH Hall]; [constructor|]. rewrite filter_cons. destruct (decide (P m)); [|done].
constructor; [done|]. apply Forall_forall. intros x [_ Hx]%list_elem_of_filter. by eapply Forall_forall in Hall.
Qed.

Lemma insert_rank_NoDup m l : NoDup l -> m ∉ l -> NoDup (insert_rank m l).
Proof.
induction 1 as [|other l Hn Hl IH]; intros Hm; simpl; [apply NoDup_singleton|].
destruct (_ <? _); [constructor; [done|by constructor]|].
constructor; [|apply IH; set_solver]. rewrite insert_rank_in. set_solver.
Qed.

Lemma add_ref_ranked m l : ranked l -> ranked (add_ref m l).
Proof.
intros H. unfold add_ref. destruct (existsb _ l); [done|]. by apply insert_rank_ranked, ranked_filter.
Qed.

Lemma add_ref_apart m l : apart l -> apart (add_ref m l).
Proof.
intros [Hn Hex]. unfold add_ref. destruct (existsb (keeps_out m) l) eqn:E; [done|].
assert (Hout : forall o, o ∈ l -> keeps_out m o = false).
{ intros o Ho. destruct (keeps_out m o) eqn:E'; [|done]. rewrite <- E. symmetry. apply existsb_exists.
exists o. split; [by apply list_elem_of_In|done]. }
assert (Hin : forall x, x ∈ insert_rank m (filter (fun o => excludes m o = false) l) ->
x = m \/ x ∈ l /\ excludes m x = false /\ excludes x m = false).
{ intros x [->|[Hx Hxl]%list_elem_of_filter]%insert_rank_in; [by left|right]. split; [done|]. split; [done|].
specialize (Hout x Hxl). unfold keeps_out in Hout. rewrite Hx in Hout.
by apply orb_false_iff in Hout as [_ Hout]. }
split.
- apply insert_rank_NoDup; [by apply NoDup_filter|]. intros [_ Hm]%list_elem_of_filter.
specialize (Hout m Hm). unfold keeps_out in Hout. by rewrite bool_decide_eq_true_2 in Hout.
- intros a b [->|(Ha & Ha1 & Ha2)]%Hin [->|(Hb & Hb1 & Hb2)]%Hin Hne; [done..|]. by apply Hex.
Qed.

Lemma remove_in m l x : NoDup l -> x ∈ Marks.remove_from_set m l <-> x ∈ l /\ x <> m.
Proof.
induction 1 as [|o l Hn Hl IH]; simpl; [set_solver|].
destruct (bool_decide_reflect (o = m)) as [->|Hne]; [set_solver|]. rewrite !elem_of_cons, IH. set_solver.
Qed.

Lemma remove_sublist m l : sublist (Marks.remove_from_set m l) l.
Proof.
induction l as [|o l IH]; simpl; [constructor|]. destruct (bool_decide _); [by constructor|by constructor].
Qed.

Lemma ranked_sublist l l' : sublist l l' -> ranked l' -> ranked l.
Proof.
induction 1 as [|x l l' Hs IH|x l l' Hs IH]; [done|..]; intros [Hr Hall]%StronglySorted_inv; [|by apply IH].
constructor; [by apply IH|]. apply Forall_forall. intros y Hy. eapply Forall_forall in Hall; [done|].
by eapply sublist_subseteq.
Qed.
End set.
