(* ===== verification/TextStepSpec.v ===== *)
(** The steps of [documents/crates/text/src/step.rs] in tokens. *)

From S2P Require Import Prelude Json TextMap TextData TextSchema TextNode TextResolved TextReplace.
From S2P Require Import TextTokens TextCut TextReplaceSpec TextSlice TextSafe TextTake TextStep.
From S2P Require Import TextMarks.
Open Scope nat_scope.

(** The tokens with a range replaced. *)
Definition splice (from to : nat) (new l : list token) : list token := take from l ++ new ++ drop to l.

(** The tokens of a node of a kind with the marks of a range changed. *)
Definition restyle (g : NodeId -> NodeId -> list Mark -> list Mark) (kind : NodeId) (from to : nat)
    (l : list token) : list token := splice from to (drop from (take to (retok g kind l))) l.

Section marks.
Context {schema : Schema}.
Local Abbreviation wfn n := (wf_node schema n = true).
Local Abbreviation wfl l := (wf_list schema l).
Local Abbreviation wff f := (wf_fragment schema f).
Variable g : NodeId -> NodeId -> list Mark -> list Mark.

Lemma pend_rev l st : Forall is_open l -> pend (rev l) st = l ++ st.
Proof.
intros H. revert st. induction H as [|t l Ht Hl IH]; intros st; [done|]. simpl.
rewrite pend_app, IH. by destruct t.
Qed.

Lemma retok_range kind from to l : from <= to -> to <= length l ->
drop from (take to (retok g kind l)) = retok_from g kind (take from l) (drop from (take to l)).
Proof.
intros H1 H2.
assert (E : l = take from l ++ drop from (take to l) ++ drop to l).
{ rewrite <- (take_drop to l) at 1. rewrite <- (take_drop from (take to l)) at 1.
by rewrite take_take, Nat.min_l, <- app_assoc by lia. }
unfold retok. rewrite E at 1. rewrite !retok_from_app, app_nil_l.
assert (L1 : length (retok_from g kind [] (take from l)) = from)
by (rewrite retok_from_length, length_take; lia).
assert (L2 : length (retok_from g kind (take from l) (drop from (take to l))) = to - from)
by (rewrite retok_from_length, length_drop, length_take; lia).
rewrite app_assoc, take_app_exact by (rewrite length_app; lia). by apply drop_app_exact.
Qed.

(** The tokens of a cut, restyled below the node that was cut. *)
Lemma retok_cut doc k m st from to :
wfn doc -> below doc 0 k m st -> from <= to -> st <= from -> to <= st + f_size (n_content m) ->
let pre := rev (pending (take (from - st) (toks (n_content m)))) in
let mid := drop from (take to (toks (n_content doc))) in
retok_from g (n_kind m) pre mid = retok_from g (n_kind doc) (take from (toks (n_content doc))) mid.
Proof.
intros Hw B Hle H1 H2 pre mid. destruct (below_range _ _ _ _ _ B Hw) as (Hwm & _ & Hsz & Tm).
destruct (below_open _ _ _ _ _ B Hw) as (Bs & HB & Hop & HBs). rewrite Nat.sub_0_r in HBs, Tm.
pose proof (f_size_toks (schema:=schema) _ (wf_content _ Hw)) as Sd.
set (T := toks (n_content doc)) in *. set (TM := toks (n_content m)) in *.
assert (Hmid : length mid = to - from) by (unfold mid; rewrite length_drop, length_take; lia).
assert (HT : forall i, i <= to - from -> take from T ++ take i mid = take (from + i) T).
{ intros i Hi. rewrite <- (take_take_drop T from i). f_equal. unfold mid.
rewrite skipn_firstn_comm, take_take, Nat.min_l by lia. done. }
assert (HTM : forall i, i <= to - from -> take (from - st) TM ++ take i mid = take (from - st + i) TM).
{ intros i Hi. rewrite <- (take_take_drop TM (from - st) i). f_equal. rewrite Tm.
rewrite skipn_firstn_comm, drop_drop, take_take. unfold mid. rewrite skipn_firstn_comm, take_take.
f_equal; [lia|f_equal; lia]. }
apply retok_from_open. intros i Hi. unfold pre. unfold pending at 1. rewrite pend_rev, app_nil_r
by (apply pend_open; constructor).
assert (E1 : pend (take i mid) (pending (take (from - st) TM)) = pending (take (from - st + i) TM)).
{ rewrite <- HTM by lia. unfold pending. by rewrite pend_app. }
assert (E2 : pend (take i mid) (pending (take from T)) = pending (take (from + i) T)).
{ rewrite <- HT by lia. unfold pending. by rewrite pend_app. }
rewrite E1, E2. replace (from + i) with (st + (from - st + i)) by lia. rewrite HBs by lia.
rewrite innermost_app, HB by (apply pend_open; constructor). done.
Qed.

Lemma restyle_empty kind from l : from <= length l -> restyle g kind from from l = l.
Proof.
intros H. unfold restyle, splice. rewrite drop_ge by (rewrite length_take; lia).
rewrite app_nil_l. apply take_drop.
Qed.

(** A step that changes marks: the slice of a range, mapped, goes back in its place.
[parent] stands for the node that both ends share. *)
Lemma mark_step_tokens change parent doc from to old content doc' :
wfn doc -> n_text doc = None -> from <= to -> changes (schema:=schema) g change ->
node_slice doc from to = Ok old ->
(forall rf k, Resolved.resolve doc from = Ok rf -> Resolved.shared_depth rf to = Ok k ->
forall m, Resolved.node rf k = Ok m -> forall before l,
retok_from g (n_kind parent) before l = retok_from g (n_kind m) before l) ->
Step.map_fragment schema change (s_content old) parent = Ok content ->
node_replace schema doc from to (MkSlice content (s_open_start old) (s_open_end old)) = Ok doc' ->
wfn doc' /\ doc' = Node.copy doc (n_content doc') /\ from <= to <= f_size (n_content doc) /\
toks (n_content doc') = restyle g (n_kind doc) from to (toks (n_content doc)).
Proof.
intros Hw Ht Hle Hch Eold Hparent Emap Erep. pose proof (f_size_toks (schema:=schema) _ (wf_content _ Hw)) as Sd.
destruct (decide (from = to)) as [->|].
- unfold node_slice in Eold. rewrite Nat.eqb_refl in Eold. injection Eold as <-.
simpl in Emap. injection Emap as <-. simpl in Erep.
apply (node_replace_tokens (schema:=schema)) in Erep as (L1 & L2 & Wd & Cd & Td); [|done|done|by split; [apply wf_new|..]].
rewrite restyle_empty by lia. rewrite Td.
change (slice_toks _) with (@nil token). by rewrite app_nil_l, take_drop.
- destruct (decide (to <= f_size (n_content doc))) as [Hto|Hto].
2: { exfalso. unfold node_slice in Eold. rewrite (proj2 (Nat.eqb_neq from to)) in Eold by done.
apply bind_ok in Eold as (rf & _ & Eold). by rewrite (resolve_err doc to) in Eold by lia. }
destruct (node_slice_shared (schema:=schema) doc from to) as
(old' & rf & k & m & st & E' & Hs & Hmid & Erf & Ek & Em & B & H1 & H2 & Tc & Hos & Hoe); [done|done|lia|done|].
rewrite Eold in E'. injection E' as <-. specialize (Hparent rf k Erf Ek m Em).
apply (map_fragment_tokens (schema:=schema)) with (1 := Hch) in Emap as [Wc Tmap]; [|by apply Hs].
destruct (below_range _ _ _ _ _ B Hw) as (Hwm & _ & Hsz & Tm). rewrite Nat.sub_0_r in Tm.
rewrite Tc in Tmap. unfold cut_tokens, retok in Tmap. rewrite <- Hoe in Tmap.
rewrite !retok_from_app, retok_from_close, !Hparent, app_nil_l in Tmap.
set (pre := rev (pending _)) in *.
assert (Hpre : Forall is_open pre) by (apply Forall_rev, pend_open; constructor).
destruct (retok_from_open_pre g (n_kind m) pre Hpre) as (pre' & Epre & Hlen & Hpre').
unfold retok in Epre. rewrite Epre in Tmap.
assert (Emid : drop (from - st) (take (to - st) (toks (n_content m))) = drop from (take to (toks (n_content doc)))).
{ rewrite Tm, !skipn_firstn_comm, drop_drop, take_take. f_equal; [lia|f_equal; lia]. }
rewrite Emid in Tmap. unfold pre in Tmap at 1.
rewrite (retok_cut doc k m st from to) in Tmap; try done.
rewrite <- retok_range in Tmap by lia.
assert (Hlen' : s_open_start old = length pre') by (rewrite Hlen; unfold pre; rewrite length_rev; done).
destruct (slice_of_parts (schema:=schema) content pre' _ (s_open_end old) Wc Tmap Hpre') as [Ws Ts].
rewrite Hlen' in Erep.
apply (node_replace_tokens (schema:=schema)) in Erep as (L1 & L2 & Wd & Cd & Td); [|done..].
split; [done|]. split; [done|]. split; [lia|]. by rewrite Td, Ts.
Qed.
End marks.

(** [marks_removed] does not depend on the parent. *)
Lemma remark_parent g p p' n :
  (forall k marks, g p k marks = g p' k marks) -> remark g p n = remark g p' n.
Proof. intros H. destruct n as [? ? [] ? ? ?]. cbn [remark]. by rewrite H. Qed.

Lemma retok_parent g kind kind' before l :
  (forall p p' k marks, g p k marks = g p' k marks) -> retok_from g kind before l = retok_from g kind' before l.
Proof.
  intros H. apply imap_ext. intros i t _. destruct t; simpl; [|done|..]; f_equal; auto.
  by apply remark_parent.
Qed.

Section steps.
Context {schema : Schema}.
Local Abbreviation wfn n := (wf_node schema n = true).
Local Abbreviation wfl l := (wf_list schema l).
Local Abbreviation wff f := (wf_fragment schema f).

(** *** The node at a position *)

(** The first token of a node that is not text. *)
Definition head_token (n : Node) : token := if n_leaf n then TLeaf n else open_token n.

Lemma node_at_in_spec content : forall position c,
wff content -> Nodes.node_at_in content position = Ok (Some c) ->
wfn c /\ (Node.is_text c = false -> toks content !! position = Some (head_token c)).
Proof.
induction content as [children size IH] using fragment_ind. intros position c Hf E. cbn [Nodes.node_at_in] in E.
apply bind_ok in E as ([index offset] & Ei & E). apply (find_index_ok (schema:=schema)) in Ei as [_ Hfound]; [|done].
cbn [f_content] in Hfound. destruct (children !! index) as [child|] eqn:Ec; [|done].
pose proof Hf as [_ Hl]. cbn [f_content] in Hl. pose proof (wf_list_lookup _ _ _ Hl Ec) as Hwc.
destruct (_ || _) eqn:Eat.
- injection E as <-. split; [done|]. intros Ht. rewrite Ht, orb_false_r in Eat. apply Nat.eqb_eq in Eat as <-.
destruct Hfound as (-> & _ & _). unfold toks. cbn [f_content].
rewrite (flat_child _ _ _ Ec), lookup_app_r, Nat.sub_diag by lia. apply is_text_false in Ht. unfold head_token.
destruct (n_leaf child) eqn:El; [by rewrite flatten_leaf|by rewrite flatten_inner].
- apply orb_false_iff in Eat as [Hne%Nat.eqb_neq Ht%is_text_false].
destruct Hfound as (Hoff & _ & [|(c' & Hc' & Hin)]); [done|]. rewrite Ec in Hc'. injection Hc' as <-.
assert (Hlf : n_leaf child = false).
{ unfold Node.node_size in Hin. rewrite Ht in Hin. destruct (n_leaf child); [lia|done]. }
rewrite usub_le in E by lia. cbn [mbind Result_bind] in E. rewrite with_nth_lookup, Ec in E. simpl in E.
eapply Forall_lookup_1 in IH; [|exact Ec]. apply IH in E as [Hc E]; [|by apply wf_content].
split; [done|]. intros H. specialize (E H). unfold toks. cbn [f_content].
rewrite (flat_child_inner _ _ _ Ec Ht Hlf), lookup_app_r by lia. rewrite <- Hoff.
replace (position - offset) with (S (position - (offset + 1))) by lia. simpl.
by rewrite lookup_app_l by by eapply lookup_lt_Some.
Qed.

Lemma splice_one pos (t : token) l : pos < length l -> splice pos (pos + 1) [t] l = <[pos := t]> l.
Proof. intros H. unfold splice. by rewrite insert_take_drop, Nat.add_1_r by done. Qed.

(** A node without content in the place of the first token of another. *)
Lemma put_node_tokens doc pos node updated doc' :
wfn doc -> n_text doc = None -> wfn updated -> n_text updated = None -> n_content updated = empty_fragment ->
n_leaf updated = n_leaf node -> Step.put_node schema doc pos node updated = Ok doc' ->
wfn doc' /\ doc' = Node.copy doc (n_content doc') /\
toks (n_content doc') = <[pos := head_token updated]> (toks (n_content doc)).
Proof.
intros Hw Ht Hu Htu Hcu Hlf E. unfold Step.put_node in E. apply bind_ok in E as (to & [-> _]%uadd_ok & E).
assert (Hw1 : wff (Fragment.new [updated])) by (apply wf_new, wf_list_cons; split; [done|constructor]).
assert (Hs : wf_slice schema (MkSlice (Fragment.new [updated]) 0 (if n_leaf node then 0 else 1)) /\
slice_toks (MkSlice (Fragment.new [updated]) 0 (if n_leaf node then 0 else 1)) = [head_token updated]).
{ apply (slice_of_parts (schema:=schema) _ [] [head_token updated]); [done| |constructor]. unfold head_token. rewrite Hlf.
unfold toks. simpl. rewrite flat_singleton. destruct (n_leaf node) eqn:El.
- by rewrite flatten_leaf by congruence.
- rewrite flatten_inner by congruence. by rewrite Hcu. }
destruct Hs as [Hs Hst].
apply (node_replace_tokens (schema:=schema)) in E as (L1 & L2 & Wd & Cd & Td); [|done..].
split; [done|]. split; [done|]. rewrite Td, Hst. apply splice_one.
rewrite <- (f_size_toks (schema:=schema)) by by apply wf_content. lia.
Qed.

Lemma is_leaf_kind kind b : Schema.is_leaf schema kind = Ok b -> b = leaf_kind schema kind.
Proof.
intros E. apply bind_ok in E as (n & En & E). injection E as <-. apply or_panic_ok in En.
unfold leaf_kind. by rewrite En.
Qed.

(** The node that a step at a position makes of the node there. *)
Lemma with_attrs_spec node attrs updated :
wfn node -> n_text node = None -> Nodes.with_attrs schema node attrs = Ok updated ->
exists built, Schema.node_attrs schema (n_kind node) (Some attrs) = Ok built /\
updated = MkNode (n_kind node) built empty_fragment (n_marks node) None (n_leaf node) /\ wfn updated.
Proof.
intros Hw Ht E. apply bind_ok in E as (built & Eb & E). injection E as <-. exists built.
split; [done|]. split; [done|]. pose proof (wf_kind _ Hw). apply wf_node_cases in Hw as [_ Hw].
rewrite Ht in Hw. destruct Hw as (? & ? & _). by apply wf_make.
Qed.

Lemma new_node_spec node marks updated :
wfn node -> n_text node = None ->
Nodes.new schema (n_kind node) (Some (Object (n_attrs node))) empty_fragment marks = Ok updated ->
exists built, Schema.node_attrs schema (n_kind node) (Some (Object (n_attrs node))) = Ok built /\
updated = MkNode (n_kind node) built empty_fragment (sort_by_kind marks) None (n_leaf node) /\ wfn updated.
Proof.
intros Hw Ht E. apply bind_ok in E as (built & Eb & E). apply bind_ok in E as (leaf & El & E).
injection E as <-. apply is_leaf_kind in El as ->. pose proof (wf_kind _ Hw).
apply wf_node_cases in Hw as [_ Hw]. rewrite Ht in Hw. destruct Hw as (? & Hlf & _).
exists built. rewrite Hlf. split; [done|]. split; [done|]. by apply wf_make.
Qed.

(** *** A gap *)

Lemma node_slice_gap doc from to gap :
wfn doc -> n_text doc = None -> node_slice doc from to = Ok gap ->
s_open_start gap = 0 -> s_open_end gap = 0 ->
wff (s_content gap) /\ toks (s_content gap) = drop from (take to (toks (n_content doc))).
Proof.
intros Hw Ht E H1 H2. pose proof (f_size_toks (schema:=schema) _ (wf_content _ Hw)) as Sd.
destruct (decide (to < from)) as [Hlt|Hle].
- assert (s_content gap = empty_fragment) as ->.
{ unfold node_slice in E. rewrite (proj2 (Nat.eqb_neq from to)) in E by lia.
apply bind_ok in E as (rf & Ef & E). apply bind_ok in E as (rt & Et & E).
apply (resolve_ok (schema:=schema)) in Ef as [_ [Pf _]], Et as [_ [Pt _]]; [|done..].
apply bind_ok in E as (k & _ & E). apply bind_ok in E as (st & _ & E). apply bind_ok in E as (m & _ & E).
apply bind_ok in E as (a & [-> La]%usub_ok & E). apply bind_ok in E as (b & [-> Lb]%usub_ok & E).
apply bind_ok in E as (content & Ec & E). apply bind_ok in E as (os & _ & E). apply bind_ok in E as (oe & _ & E).
injection E as <-. cbn [s_content]. destruct (n_content m) as [children size]. cbn [Fragment.cut] in Ec.
rewrite (proj2 (Nat.eqb_neq (r_pos rf - st) 0)), (proj2 (Nat.ltb_ge (r_pos rf - st) (r_pos rt - st))) in Ec by lia.
by injection Ec as <-. }
split; [done|]. symmetry. apply drop_ge. rewrite length_take. lia.
- destruct (decide (to <= f_size (n_content doc))).
+ destruct (node_slice_spec (schema:=schema) doc from to) as (s & Eq & Hs & Hst); try done; try lia.
rewrite E in Eq. injection Eq as <-. split; [by apply Hs|]. rewrite <- Hst. symmetry.
by apply (slice_toks_closed (schema:=schema)).
+ destruct (decide (from = to)) as [->|].
* unfold node_slice in E. rewrite Nat.eqb_refl in E. injection E as <-. split; [done|].
symmetry. apply drop_ge. rewrite length_take. lia.
* exfalso. unfold node_slice in E. rewrite (proj2 (Nat.eqb_neq from to)) in E by done.
apply bind_ok in E as (rf & _ & E). by rewrite (resolve_err doc to) in E by lia.
Qed.

(** *** What a step makes of the tokens of a document *)

(** A step whose slice is well formed, whose gap goes in between the ends of its slice,
whose range is in order, and which names no position in text for a node. *)
Definition step_ok (step : Step.t) (doc : Node) : Prop :=
match step with
| Step.Replace _ _ slice _ => wf_slice schema slice
| Step.ReplaceAround _ _ _ _ slice insert _ => wf_slice schema slice /\ insert <= length (slice_toks slice)
| Step.AddMark from to _ | Step.RemoveMark from to _ => from <= to
| Step.AddNodeMark pos _ | Step.RemoveNodeMark pos _ | Step.Attr pos _ _ =>
forall node, Nodes.node_at doc pos = Ok (Some node) -> Node.is_text node = false
| Step.DocAttr _ _ => True
end.

(** The node at a position, with other attributes or marks. *)
Definition node_changed (doc : Node) (pos : nat) (attrs : Node -> Value) (marks : Node -> res (list Mark))
(T' : list token) : Prop :=
exists node built new_marks, Nodes.node_at doc pos = Ok (Some node) /\
Schema.node_attrs schema (n_kind node) (Some (attrs node)) = Ok built /\ marks node = Ok new_marks /\
toks (n_content doc) !! pos = Some (head_token node) /\
T' = <[pos := head_token (MkNode (n_kind node) built empty_fragment new_marks None (n_leaf node))]>
(toks (n_content doc)).

Definition outcome (step : Step.t) (doc : Node) (T' : list token) : Prop :=
let T := toks (n_content doc) in
match step with
| Step.Replace from to slice _ => T' = splice from to (slice_toks slice) T
| Step.ReplaceAround from to gap_from gap_to slice insert _ =>
T' = splice from to (splice insert insert (drop gap_from (take gap_to T)) (slice_toks slice)) T
| Step.AddMark from to mark => T' = restyle (marks_added schema mark) (n_kind doc) from to T
| Step.RemoveMark from to mark => T' = restyle (marks_removed schema mark) (n_kind doc) from to T
| Step.AddNodeMark pos mark =>
node_changed doc pos (fun node => Object (n_attrs node))
(fun node => sort_by_kind <$> Marks.add_to_set schema mark (n_marks node)) T'
| Step.RemoveNodeMark pos mark =>
node_changed doc pos (fun node => Object (n_attrs node))
(fun node => Ok (sort_by_kind (Marks.remove_from_set mark (n_marks node)))) T'
| Step.Attr pos attr value =>
node_changed doc pos (fun node => Object (Map.insert attr value (n_attrs node)))
(fun node => Ok (n_marks node)) T'
| Step.DocAttr _ _ => T' = T
end.

Lemma replace_around_tokens doc from to gap_from gap_to slice insert structure doc' :
wfn doc -> n_text doc = None -> wf_slice schema slice -> insert <= length (slice_toks slice) ->
Step.apply schema (Step.ReplaceAround from to gap_from gap_to slice insert structure) doc = Ok doc' ->
wfn doc' /\ doc' = Node.copy doc (n_content doc') /\
outcome (Step.ReplaceAround from to gap_from gap_to slice insert structure) doc (toks (n_content doc')).
Proof.
intros Hw Ht Hs Hi E. cbn [Step.apply] in E. apply bind_ok in E as (blocked & _ & E). destruct blocked; [done|].
apply bind_ok in E as (gap & Eg & E). destruct (_ || _) eqn:Eopen; [done|].
apply orb_false_iff in Eopen as [H1%negb_false_iff%Nat.eqb_eq H2%negb_false_iff%Nat.eqb_eq].
destruct (node_slice_gap _ _ _ _ Hw Ht Eg H1 H2) as [Wg Tg].
apply bind_ok in E as ([inserted|] & Eins & E); [|done].
apply (insert_at_spec (schema:=schema)) in Eins as [Ws Ts]; [|done..].
apply (node_replace_tokens (schema:=schema)) in E as (_ & _ & Wd & Cd & Td); [|done..].
split; [done|]. split; [done|]. unfold outcome. rewrite Td, Ts, Tg. done.
Qed.

Lemma node_step_tokens doc pos node updated (attrs : Node -> Value) marks new_marks built doc' :
wfn doc -> n_text doc = None -> Nodes.node_at doc pos = Ok (Some node) -> Node.is_text node = false ->
Schema.node_attrs schema (n_kind node) (Some (attrs node)) = Ok built -> marks node = Ok new_marks ->
updated = MkNode (n_kind node) built empty_fragment new_marks None (n_leaf node) -> wfn updated ->
Step.put_node schema doc pos node updated = Ok doc' ->
wfn doc' /\ doc' = Node.copy doc (n_content doc') /\ node_changed doc pos attrs marks (toks (n_content doc')).
Proof.
intros Hw Ht En Hnt Eb Em -> Hu E.
destruct (put_node_tokens _ _ _ _ _ Hw Ht Hu eq_refl eq_refl eq_refl E) as (Wd & Cd & Td).
split; [done|]. split; [done|]. exists node, built, new_marks. split; [done|]. split; [done|]. split; [done|].
split; [|done]. apply node_at_in_spec in En as [_ H]; [|by apply wf_content]. by apply H.
Qed.

(** Each step: what it makes is well formed, has the same root, and the tokens it says. *)
Lemma apply_outcome step doc doc' :
wfn doc -> n_text doc = None -> step_ok step doc -> Step.apply schema step doc = Ok doc' ->
wfn doc' /\ n_text doc' = None /\ n_kind doc' = n_kind doc /\ outcome step doc (toks (n_content doc')).
Proof.
intros Hw Ht Hok E.
assert (Hroot : forall f, wfn doc' -> doc' = Node.copy doc f ->
wfn doc' /\ n_text doc' = None /\ n_kind doc' = n_kind doc) by (intros f H ->; done).
destruct step as [from to slice structure|from to gap_from gap_to slice insert structure|from to mark|from to mark
|pos mark|pos mark|pos attr value|attr value].
- apply bind_ok in E as (blocked & _ & E). destruct blocked; [done|].
apply (node_replace_tokens (schema:=schema)) in E as (_ & _ & Wd & Cd & Td); [|done..].
destruct (Hroot _ Wd Cd) as (? & ? & ?). done.
- destruct Hok as [Hs Hi]. apply replace_around_tokens in E as (Wd & Cd & Td); [|done..].
destruct (Hroot _ Wd Cd) as (? & ? & ?). done.
- apply bind_ok in E as (old & Eold & E). apply bind_ok in E as (rf & Erf & E).
apply bind_ok in E as (k & Ek & E). apply bind_ok in E as (m & Em & E). apply bind_ok in E as (content & Ec & E).
apply (mark_step_tokens (schema:=schema) (marks_added schema mark) (Step.add_mark_change schema mark) m)
with (content := content) (old := old) in E as (Wd & Cd & _ & Td); [|done..|apply add_changes|done| |done].
{ destruct (Hroot _ Wd Cd) as (? & ? & ?). done. }
intros rf' k' Erf' Ek' m' Em' before l. congruence.
- apply bind_ok in E as (old & Eold & E). apply bind_ok in E as (content & Ec & E).
apply (mark_step_tokens (schema:=schema) (marks_removed schema mark) (Step.remove_mark_change mark) doc)
with (content := content) (old := old) in E as (Wd & Cd & _ & Td); [|done..|apply remove_changes|done| |done].
{ destruct (Hroot _ Wd Cd) as (? & ? & ?). done. }
intros rf k _ _ m _ before l. by apply retok_parent.
- apply bind_ok in E as ([node|] & En & E); [|done]. apply bind_ok in E as (marks & Em & E).
apply bind_ok in E as (updated & Eu & E). pose proof (Hok _ En) as Hnt.
pose proof (node_at_in_spec _ _ _ (wf_content _ Hw) En) as [Hwn _].
apply new_node_spec in Eu as (built & Eb & Eu & Wu); [|done|by apply is_text_false].
apply (node_step_tokens doc pos node updated (fun node => Object (n_attrs node))
(fun node => sort_by_kind <$> Marks.add_to_set schema mark (n_marks node)) (sort_by_kind marks) built) in E
as (Wd & Cd & Td); try done; [|by rewrite Em].
destruct (Hroot _ Wd Cd) as (? & ? & ?). done.
- apply bind_ok in E as ([node|] & En & E); [|done].
apply bind_ok in E as (updated & Eu & E). pose proof (Hok _ En) as Hnt.
pose proof (node_at_in_spec _ _ _ (wf_content _ Hw) En) as [Hwn _].
apply new_node_spec in Eu as (built & Eb & Eu & Wu); [|done|by apply is_text_false].
apply (node_step_tokens doc pos node updated (fun node => Object (n_attrs node))
(fun node => Ok (sort_by_kind (Marks.remove_from_set mark (n_marks node))))
(sort_by_kind (Marks.remove_from_set mark (n_marks node))) built) in E
as (Wd & Cd & Td); try done.
destruct (Hroot _ Wd Cd) as (? & ? & ?). done.
- apply bind_ok in E as ([node|] & En & E); [|done].
apply bind_ok in E as (updated & Eu & E). pose proof (Hok _ En) as Hnt.
pose proof (node_at_in_spec _ _ _ (wf_content _ Hw) En) as [Hwn _].
apply with_attrs_spec in Eu as (built & Eb & Eu & Wu); [|done|by apply is_text_false].
apply (node_step_tokens doc pos node updated (fun node => Object (Map.insert attr value (n_attrs node)))
(fun node => Ok (n_marks node)) (n_marks node) built) in E as (Wd & Cd & Td); try done.
destruct (Hroot _ Wd Cd) as (? & ? & ?). done.
- apply bind_ok in E as (built & _ & E). injection E as <-. simpl.
pose proof (wf_kind _ Hw). pose proof (wf_content _ Hw) as Wc. apply wf_node_cases in Hw as [_ Hw].
rewrite Ht in Hw. destruct Hw as (? & ? & _). split; [by apply wf_make|]. done.
Qed.
End steps.

(* ------------------------------------------------------------ *)

(** Where a step moves each position: [Step::map] with [StepMap::map] follow the tokens
    of the document. *)

Open Scope nat_scope.

(** The slice that a step puts in. *)
Definition step_slice (step : Step.t) : Slice :=
  match step with
  | Step.Replace _ _ slice _ | Step.ReplaceAround _ _ _ _ slice _ _ => slice
  | _ => Slice.empty
  end.

(** The ranges of a step in order: its ends, and its gap between them, not empty. *)
Definition in_order (step : Step.t) : Prop :=
  match step with
  | Step.Replace from to _ _ => from <= to
  | Step.ReplaceAround from to gap_from gap_to _ _ _ => from <= gap_from /\ gap_from < gap_to /\ gap_to <= to
  | _ => True
  end.

(** The positions whose token the step leaves in the document. *)
Definition kept (step : Step.t) (p : nat) : Prop :=
  match step with
  | Step.Replace from to _ _ => p < from \/ to <= p
  | Step.ReplaceAround from to gap_from gap_to _ _ _ => p < from \/ gap_from <= p < gap_to \/ to <= p
  | _ => True
  end.

(** The steps that move tokens. *)
Definition moves (step : Step.t) : bool :=
  match step with Step.Replace _ _ _ _ | Step.ReplaceAround _ _ _ _ _ _ _ => true | _ => false end.

(** Sizes far from the end of the machine's integers. *)
Definition small (doc : Node) (step : Step.t) : Prop :=
  (2 * Z.of_nat (f_size (n_content doc)) + Z.of_nat (f_size (s_content (step_slice step))) <= ISIZE_MAX)%Z.

Section map.
Context {schema : Schema}.
Local Abbreviation wfn n := (wf_node schema n = true).

Lemma slice_size_ok s : wf_slice schema s -> (Z.of_nat (f_size (s_content s)) <= ISIZE_MAX)%Z ->
Slice.size s = Ok (length (slice_toks s)).
Proof.
intros Hs Hb. pose proof (slice_fits s Hs) as Hfit. unfold Slice.size, uadd, ISIZE_MAX, USIZE in *.
rewrite (proj2 (N.ltb_lt _ _)) by lia. simpl. by rewrite (slice_toks_length s Hs).
Qed.

(** One range, and then the rest. *)
Lemma exact_range p s o n l d :
StepMap.exact p 1 (s :: o :: n :: l) d =
(if (p <? s)%Z then p + d
else if (p <=? s + o)%Z && ((p =? s) && negb (o =? 0))%Z then s + d
else if (p <=? s + o)%Z then s + n + d
else StepMap.exact p 1 l (d + n - o))%Z.
Proof.
cbn [StepMap.exact]. destruct (Z.ltb_spec p s); [done|]. destruct (Z.leb_spec p (s + o)); [|done].
cbn [andb]. unfold StepMap.side. destruct (Z.eqb_spec o 0), (Z.eqb_spec p s), (Z.eqb_spec p (s + o));
simpl; lia.
Qed.

(** The tokens that [splice] leaves, and where. *)
Lemma splice_before from to new l p (t : token) : p < from -> l !! p = Some t -> splice from to new l !! p = Some t.
Proof.
intros H E. unfold splice. pose proof (lookup_lt_Some _ _ _ E).
rewrite lookup_app_l by (rewrite length_take; lia). by rewrite lookup_take_lt by done.
Qed.

Lemma splice_after from to new l p (t : token) :
from <= to -> to <= p -> l !! p = Some t -> splice from to new l !! (from + length new + (p - to)) = Some t.
Proof.
intros Hle H E. unfold splice. pose proof (lookup_lt_Some _ _ _ E).
rewrite app_assoc, lookup_app_r by (rewrite length_app, length_take; lia).
rewrite length_app, length_take, lookup_drop, <- E. f_equal. lia.
Qed.

Lemma splice_in from to new l i (t : token) :
from <= length l -> new !! i = Some t -> splice from to new l !! (from + i) = Some t.
Proof.
intros Hle E. unfold splice. rewrite lookup_app_r by (rewrite length_take; lia).
rewrite length_take, Nat.min_l by lia. replace (from + i - from) with i by lia.
rewrite lookup_app_l; [done|]. by eapply lookup_lt_Some.
Qed.

Lemma splice_length from to new (l : list token) : from <= length l ->
length (splice from to new l) = from + length new + (length l - to).
Proof. intros H. unfold splice. rewrite !length_app, length_take, length_drop. lia. Qed.

(** [Step::map] gives the ranges of a step in order. *)
Lemma step_ranges step doc :
moves step = true -> step_ok (schema:=schema) step doc -> in_order step -> small doc step ->
exists m, Step.map step = Ok m /\
StepMap.ranges m = Z.of_nat <$>
match step with
| Step.Replace from to slice _ => [from; to - from; length (slice_toks slice)]
| Step.ReplaceAround from to gap_from gap_to slice insert _ =>
[from; gap_from - from; insert; gap_to; to - gap_to; length (slice_toks slice) - insert]
| _ => []
end /\ StepMap.ordered 0 (StepMap.ranges m) = true /\
(forall p, p <= f_size (n_content doc) ->
match Step.range step with Some (_, to) => to <= f_size (n_content doc) | None => True end ->
StepMap.map (E:=Failed) m (Z.of_nat p) 1 = Ok (StepMap.exact (Z.of_nat p) 1 (StepMap.ranges m) 0)).
Proof.
intros Hm Hok Hord Hsmall. unfold small in Hsmall. destruct step; try done; simpl in *.
- rewrite usub_le by done. simpl. rewrite slice_size_ok by (done || lia). simpl. eexists. split; [done|].
split; [done|]. assert (Ho : StepMap.ordered 0 (Z.of_nat <$> [from; to - from; length (slice_toks slice)]) = true).
{ simpl. by rewrite !(proj2 (Z.leb_le _ _)) by lia. }
split; [done|]. intros p Hp Hto. apply (StepMapFacts.map_loop_exact _ _ 0); [done|lia|lia|].
rewrite (slice_toks_length _ Hok). simpl. unfold ISIZE_MAX in *. lia.
- destruct Hord as (H1 & H2 & H3), Hok as [Hok Hi].
rewrite !usub_le by lia. simpl. rewrite slice_size_ok by (done || lia). simpl.
eexists. split; [done|]. split; [done|].
assert (Ho : StepMap.ordered 0 (Z.of_nat <$>
[from; gap_from - from; insert; gap_to; to - gap_to; length (slice_toks slice) - insert]) = true).
{ simpl. by rewrite !(proj2 (Z.leb_le _ _)) by lia. }
split; [done|]. intros p Hp Hto. apply (StepMapFacts.map_loop_exact _ _ 0); [done|lia|lia|].
rewrite (slice_toks_length _ Hok) in Hi |- *. simpl. unfold ISIZE_MAX in *. lia.
Qed.

(** A step that went in has its range in the document. *)
Lemma apply_range step doc doc' :
wfn doc -> n_text doc = None -> step_ok (schema:=schema) step doc -> moves step = true ->
Step.apply schema step doc = Ok doc' ->
match Step.range step with Some (_, to) => to <= f_size (n_content doc) | None => True end.
Proof.
intros Hw Ht Hok Hm E. destruct step as [from to s st|from to gf gt s ins st| | | | | |]; try done;
cbn [Step.apply Step.range] in *; apply bind_ok in E as ([] & _ & E); try done.
- by apply (node_replace_tokens (schema:=schema)) in E as (_ & L & _).
- destruct Hok as [Hs Hi]. apply bind_ok in E as (gap & Eg & E). destruct (_ || _) eqn:Eopen; [done|].
apply orb_false_iff in Eopen as [H1%negb_false_iff%Nat.eqb_eq H2%negb_false_iff%Nat.eqb_eq].
destruct (node_slice_gap (schema:=schema) _ _ _ _ Hw Ht Eg H1 H2) as [Wg _].
apply bind_ok in E as ([inserted|] & Eins & E); [|done].
apply (insert_at_spec (schema:=schema)) in Eins as [Ws _]; [|done..].
by apply (node_replace_tokens (schema:=schema)) in E as (_ & L & _).
Qed.

(** The token at a position that a step keeps stands at the mapped position after it. *)
Lemma map_follows_tokens step doc doc' p t :
wfn doc -> n_text doc = None -> step_ok (schema:=schema) step doc -> in_order step -> small doc step ->
moves step = true -> kept step p ->
match Step.range step with Some (_, to) => to <= f_size (n_content doc) | None => True end ->
outcome (schema:=schema) step doc (toks (n_content doc')) ->
toks (n_content doc) !! p = Some t ->
exists m p', Step.map step = Ok m /\ StepMap.map (E:=Failed) m (Z.of_nat p) 1 = Ok (Z.of_nat p') /\
toks (n_content doc') !! p' = Some t.
Proof.
intros Hw Ht Hok Hord Hsmall Hm Hkept Hto Hout Et.
destruct (step_ranges step doc Hm Hok Hord Hsmall) as (m & Em & Er & _ & Hmap). exists m.
pose proof (lookup_lt_Some _ _ _ Et) as Hp. rewrite <- (f_size_toks (schema:=schema)) in Hp by by apply wf_content.
rewrite (Hmap p) by (done || lia). rewrite Er. setoid_rewrite Em. clear Hmap Em Er.
pose proof (f_size_toks (schema:=schema) _ (wf_content _ Hw)) as Sd.
set (T := toks (n_content doc)) in *. set (T' := toks (n_content doc')) in *.
assert (Hgo : forall p', T' !! p' = Some t -> forall z, z = Z.of_nat p' ->
exists p'', Ok (E:=Failed) m = Ok m /\ Ok (E:=Failed) z = Ok (Z.of_nat p'') /\ T' !! p'' = Some t).
{ intros p' E z ->. by exists p'. }
destruct step as [from to slice structure|from to gap_from gap_to slice insert structure|? ? ?|? ? ?|? ?|? ?|? ? ?|? ?]; try done;
cbn [outcome in_order kept Step.range step_ok] in *; fold T in Hout.
- simpl fmap. rewrite exact_range. set (n := length (slice_toks slice)).
destruct Hkept as [Hlt|Hge].
+ apply (Hgo p); [rewrite Hout; by apply splice_before|]. rewrite (proj2 (Z.ltb_lt _ _)) by lia. lia.
+ apply (Hgo (from + n + (p - to))); [rewrite Hout; by apply splice_after|].
repeat case_match; rewrite ?andb_true_iff, ?andb_false_iff, ?negb_true_iff, ?negb_false_iff,
?Z.ltb_lt, ?Z.ltb_ge, ?Z.leb_le, ?Z.leb_gt, ?Z.eqb_eq, ?Z.eqb_neq in *; simpl; lia.
- simpl fmap. rewrite !exact_range. destruct Hok as [Hs Hi], Hord as (H1 & H2 & H3).
set (gap := drop gap_from (take gap_to T)) in *. set (S := slice_toks slice) in *.
assert (Hgap : length gap = gap_to - gap_from) by (unfold gap; rewrite length_drop, length_take; lia).
assert (Hnew : length (splice insert insert gap S) = length S + (gap_to - gap_from))
by (rewrite splice_length; lia).
destruct Hkept as [Hlt|[Hin|Hge]].
+ apply (Hgo p); [rewrite Hout; by apply splice_before|]. rewrite (proj2 (Z.ltb_lt _ _)) by lia. lia.
+ apply (Hgo (from + (insert + (p - gap_from)))).
{ rewrite Hout. apply splice_in; [lia|]. apply splice_in; [done|].
unfold gap. rewrite lookup_drop, lookup_take_lt by lia. rewrite <- Et. f_equal. lia. }
repeat case_match; rewrite ?andb_true_iff, ?andb_false_iff, ?negb_true_iff, ?negb_false_iff,
?Z.ltb_lt, ?Z.ltb_ge, ?Z.leb_le, ?Z.leb_gt, ?Z.eqb_eq, ?Z.eqb_neq in *; simpl; lia.
+ apply (Hgo (from + (length S + (gap_to - gap_from)) + (p - to))).
{ rewrite Hout, <- Hnew. apply splice_after; [lia|done|done]. }
repeat case_match; rewrite ?andb_true_iff, ?andb_false_iff, ?negb_true_iff, ?negb_false_iff,
?Z.ltb_lt, ?Z.ltb_ge, ?Z.leb_le, ?Z.leb_gt, ?Z.eqb_eq, ?Z.eqb_neq in *; simpl; lia.
Qed.
End map.
