(* ===== verification/TextJson.v ===== *)
(** The JSON forms of tree text: [to_json] and [from_json] of marks, nodes, fragments and
    slices ([documents/crates/text/src/node.rs]) and of steps ([src/step.rs]).

    Reading goes [MOST_DEPTH] levels down and no further, so the levels that are left are the
    fuel, and no more is needed.  Writing asks the schema for names, which panics for a kind
    that is out of range, so it returns a [res]. *)

From S2P Require Import Prelude Json Utf TextData TextSchema TextNode TextStep.
Open Scope nat_scope.

Definition MOST_DEPTH : nat := 128.

(** [json["key"] = value] of an object. *)
Definition set_key (json : Value) (key : string) (value : Value) : Value :=
  match json with Object m => Object (Map.insert key value m) | _ => json end.

Definition number_of (n : nat) : Value := Num (PosInt (N.of_nat n)).

(** ** Writing *)

Section to_json.
Variable schema : Schema.

Definition mark_to_json (m : Mark) : res Value :=
name ← Schema.mark_name schema (m_kind m);
has_attrs ← Schema.mark_has_attrs schema (m_kind m);
let json := object [("type", Str name)]%string in
Ok (if has_attrs : bool then set_key json "attrs" (Object (m_attrs m)) else json).

(** [Node::text_of]. *)
Definition text_of (n : Node) : option string := (fun units => of_chars (from_utf16_lossy units)) <$> n_text n.

(** What [Node::to_json] writes, with the JSON of the content. *)
Definition node_json (n : Node) (content : res Value) : res Value :=
name ← Schema.node_name schema (n_kind n);
has_attrs ← Schema.node_has_attrs schema (n_kind n);
let json := object [("type", Str name)]%string in
let json := if has_attrs : bool then set_key json "attrs" (Object (n_attrs n)) else json in
json ← (if 0 <? f_size (n_content n) then content ← content; Ok (set_key json "content" content) else Ok json);
json ← (match n_marks n with
| [] => Ok json
| marks => marks ← try_map mark_to_json marks; Ok (set_key json "marks" (Array marks))
end);
Ok (match text_of n with Some text => set_key json "text" (Str text) | None => json end).

Fixpoint fragment_to_json (f : Fragment) : res Value :=
match f with
| MkFragment [] _ => Ok Null
| MkFragment content _ => Array <$> try_map (fun n => node_json n (fragment_to_json (n_content n))) content
end.

Definition node_to_json (n : Node) : res Value := node_json n (fragment_to_json (n_content n)).

Definition slice_to_json (s : Slice) : res Value :=
if f_size (s_content s) =? 0 then Ok Null
else
content ← fragment_to_json (s_content s);
let json := object [("content", content)]%string in
let json := if 0 <? s_open_start s then set_key json "openStart" (number_of (s_open_start s)) else json in
Ok (if 0 <? s_open_end s then set_key json "openEnd" (number_of (s_open_end s)) else json).

(** The closure [with_slice] of [Step::to_json]. *)
Definition with_slice (json : Value) (slice : Slice) (structure : bool) : res Value :=
size ← Slice.size slice;
json ← (if 0 <? size then slice ← slice_to_json slice; Ok (set_key json "slice" slice) else Ok json);
Ok (if structure then set_key json "structure" (Bool true) else json).

Definition step_to_json (s : Step.t) : res Value :=
match s with
| Step.Replace from to slice structure =>
with_slice (object [("stepType", Str "replace"); ("from", number_of from); ("to", number_of to)]%string)
slice structure
| Step.ReplaceAround from to gap_from gap_to slice insert structure =>
with_slice (object [("stepType", Str "replaceAround"); ("from", number_of from); ("to", number_of to);
("gapFrom", number_of gap_from); ("gapTo", number_of gap_to); ("insert", number_of insert)]%string)
slice structure
| Step.AddMark from to mark =>
mark ← mark_to_json mark;
Ok (object [("stepType", Str "addMark"); ("mark", mark); ("from", number_of from); ("to", number_of to)]%string)
| Step.RemoveMark from to mark =>
mark ← mark_to_json mark;
Ok (object [("stepType", Str "removeMark"); ("mark", mark); ("from", number_of from); ("to", number_of to)]%string)
| Step.AddNodeMark pos mark =>
mark ← mark_to_json mark;
Ok (object [("stepType", Str "addNodeMark"); ("pos", number_of pos); ("mark", mark)]%string)
| Step.RemoveNodeMark pos mark =>
mark ← mark_to_json mark;
Ok (object [("stepType", Str "removeNodeMark"); ("pos", number_of pos); ("mark", mark)]%string)
| Step.Attr pos attr value =>
Ok (object [("stepType", Str "attr"); ("pos", number_of pos); ("attr", Str attr); ("value", value)]%string)
| Step.DocAttr attr value =>
Ok (object [("stepType", Str "docAttr"); ("attr", Str attr); ("value", value)]%string)
end.
End to_json.

(** ** Reading *)

Section from_json.
Variable schema : Schema.

(** [json[key].as_str().unwrap_or_default()]. *)
Definition str_or_empty (json : Value) (key : string) : string :=
default ""%string (ValueOps.as_str (ValueOps.index json key)).

Definition mark_from_json (json : Value) : res Mark :=
let name := str_or_empty json "type" in
match Schema.mark_id schema name with
| None => Err (UnknownMark name)
| Some kind => Marks.new schema kind (ValueOps.get "attrs" json)
end.

Definition marks_from_json (json : Value) : res (list Mark) :=
match ValueOps.get "marks" json with
| None | Some Null => Ok []
| Some (Array marks) => try_map mark_from_json marks
| Some _ => Err InvalidMarks
end.

(** [Node::text]. *)
Definition node_text (text : string) (marks : list Mark) : res Node :=
Nodes.text_units schema (encode_utf16 (chars text)) marks.

(** [Fragment::from_json_at], with the way to read a node of it. *)
Definition fragment_from (node : Value -> res Node) (json : option Value) : res Fragment :=
match json with
| None | Some Null => Ok empty_fragment
| Some (Array nodes) => nodes ← try_map node nodes; Ok (Fragment.from_array nodes)
| Some _ => Err InvalidFragment
end.

(** [Node::from_json_at]: [levels] is [MOST_DEPTH + 1 - depth], the levels that are left. *)
Fixpoint node_from_json_at (levels : nat) (json : Value) : res Node :=
match levels with
| O => Err NestedTooDeep
| S levels =>
marks ← marks_from_json json;
let name := str_or_empty json "type" in
if bool_decide (name = "text"%string) then
text ← ok_or InvalidText (ValueOps.as_str (ValueOps.index json "text"));
node_text text marks
else
match Schema.node_id schema name with
| None => Err (UnknownNode name)
| Some kind =>
content ← fragment_from (node_from_json_at levels) (ValueOps.get "content" json);
Nodes.new schema kind (ValueOps.get "attrs" json) content marks
end
end.

Definition node_from_json (json : Value) : res Node := node_from_json_at (S MOST_DEPTH) json.
Definition fragment_from_json (json : option Value) : res Fragment :=
fragment_from (node_from_json_at (S MOST_DEPTH)) json.

(** The closure [open] of [Slice::from_json]. *)
Definition open_of (json : Value) (name : string) : res nat :=
match ValueOps.get name json with
| None => Ok 0
| Some value => N.to_nat <$> ok_or InvalidSlice (ValueOps.as_u64 value)
end.

Definition slice_from_json (json : option Value) : res Slice :=
match json with
| None | Some Null => Ok Slice.empty
| Some json =>
content ← fragment_from_json (ValueOps.get "content" json);
open_start ← open_of json "openStart";
open_end ← open_of json "openEnd";
Ok (MkSlice content open_start open_end)
end.

(** [number] and [text] of [step.rs]. *)
Definition number (json : Value) (name : string) : res nat :=
N.to_nat <$> ok_or (InvalidField name) (ValueOps.as_u64 (ValueOps.index json name)).
Definition text (json : Value) (name : string) : res string :=
ok_or (InvalidField name) (ValueOps.as_str (ValueOps.index json name)).

Definition step_from_json (json : Value) : res Step.t :=
let mark := mark_from_json (ValueOps.index json "mark") in
let slice := slice_from_json (ValueOps.get "slice" json) in
let structure := default false (ValueOps.as_bool (ValueOps.index json "structure")) in
let value := default Null (ValueOps.get "value" json) in
let kind := str_or_empty json "stepType" in
if bool_decide (kind = "replace"%string) then
from ← number json "from"; to ← number json "to"; slice ← slice;
Ok (Step.Replace from to slice structure)
else if bool_decide (kind = "replaceAround"%string) then
from ← number json "from"; to ← number json "to";
gap_from ← number json "gapFrom"; gap_to ← number json "gapTo";
slice ← slice; insert ← number json "insert";
Ok (Step.ReplaceAround from to gap_from gap_to slice insert structure)
else if bool_decide (kind = "addMark"%string) then
from ← number json "from"; to ← number json "to"; mark ← mark; Ok (Step.AddMark from to mark)
else if bool_decide (kind = "removeMark"%string) then
from ← number json "from"; to ← number json "to"; mark ← mark; Ok (Step.RemoveMark from to mark)
else if bool_decide (kind = "addNodeMark"%string) then
pos ← number json "pos"; mark ← mark; Ok (Step.AddNodeMark pos mark)
else if bool_decide (kind = "removeNodeMark"%string) then
pos ← number json "pos"; mark ← mark; Ok (Step.RemoveNodeMark pos mark)
else if bool_decide (kind = "attr"%string) then
pos ← number json "pos"; attr ← text json "attr"; Ok (Step.Attr pos attr value)
else if bool_decide (kind = "docAttr"%string) then
attr ← text json "attr"; Ok (Step.DocAttr attr value)
else Err (UnknownStep kind).
End from_json.
