(* ===== verification/TextJsonSpec.v ===== *)
(** What the JSON forms of tree text keep: a tree that is written and read is the same tree,
    and a tree that is read is well formed. *)

From S2P Require Import Prelude Json Utf TextData TextSchema TextNode TextTokens TextStep TextJson.
Open Scope nat_scope.

(** ** Entries of an object *)

Lemma entry_inserted {V} key key' (v : V) m :
  Map.get key' (Map.insert key v m) = if String.eqb key key' then Some v else Map.get key' m.
Proof. destruct (String.eqb_spec key key') as [->|Hne]; [apply map_get_insert_eq|by apply map_get_insert_ne]. Qed.

(** Reads a key of an object that was put together. *)
Ltac read_keys :=
  unfold object, set_key, str_or_empty, ValueOps.index; cbn [foldl ValueOps.get];
  rewrite ?entry_inserted; cbn [String.eqb Ascii.eqb Bool.eqb Map.get default from_option id
    ValueOps.as_str ValueOps.as_u64 ValueOps.as_bool].

(** Goes on after a step that returned [Ok]. *)
Ltac go_on := cbn [or_panic ok_or mbind Result_bind fmap Result_fmap negb].

Lemma try_map_back {E A B} (f : A -> Result E B) (g : B -> Result E A) l :
  Forall (fun x => exists y, f x = Ok y /\ g y = Ok x) l -> exists ys, try_map f l = Ok ys /\ try_map g ys = Ok l.
Proof.
  induction 1 as [|x l (y & Hf & Hg) _ (ys & IHf & IHg)]; [by exists []|]. exists (y :: ys). simpl.
  rewrite Hf, IHf. simpl. by rewrite Hg, IHg.
Qed.

Lemma try_map_forall {E A B} (f : A -> Result E B) (P : B -> Prop) l l' :
  try_map f l = Ok l' -> Forall (fun x => forall y, f x = Ok y -> P y) l -> Forall P l'.
Proof.
  revert l'. induction l as [|x l IH]; intros l'; simpl; [intros [= <-] _; constructor|].
  intros (y & Hy & (ys & Hys & [= <-])%bind_ok)%bind_ok [Hx Hl]%Forall_cons. constructor; auto.
Qed.

Lemma try_map_safe {E A B} (f : A -> Result E B) l : (forall x, x ∈ l -> safe (f x)) -> safe (try_map f l).
Proof.
  induction l as [|x l IH]; intros Hf; simpl; [done|]. apply safe_bind; [apply Hf; by left|]. intros y _.
  apply safe_bind; [apply IH; intros; apply Hf; by right|]. done.
Qed.

(** ** Trees that JSON can hold *)

Section portable.
Variable schema : Schema.

(** Each name stands for the type that has it, and [text] for the text type. *)
Record named : Prop := {
nd_nodes : forall name id, sc_node_ids schema !! name = Some id <->
exists n, sc_nodes schema !! id = Some n /\ nt_name n = name;
nd_marks : forall name id, sc_mark_ids schema !! name = Some id <->
exists m, sc_marks schema !! id = Some m /\ mt_name m = name;
nd_text : exists n, sc_nodes schema !! sc_text schema = Some n /\ nt_name n = "text"%string
}.

(** The attributes are those of the type, each with a value. *)
Definition whole (spec : list Attribute) (attrs : Map.t) : bool :=
bool_decide (compute_attrs spec (Some (Object attrs)) = Ok attrs).

Definition portable_mark (m : Mark) : bool :=
match sc_marks schema !! m_kind m with Some t => whole (mt_attrs t) (m_attrs m) | None => false end.

(** No text beside text that it would join. *)
Fixpoint joined (l : list Node) : bool :=
match l with
| a :: (b :: _) as l' => negb (Node.is_text b && Node.same_markup a b) && joined l'
| _ => true
end.

Fixpoint portable (levels : nat) (n : Node) : bool :=
match levels with
| O => false
| S levels =>
forallb portable_mark (n_marks n) && bool_decide (sort_by_kind (n_marks n) = n_marks n) &&
match n_text n with
| Some units =>
(n_kind n =? sc_text schema) && bool_decide (n_attrs n = []) && paired units && negb (length units =? 0) &&
n_leaf n && (length (f_content (n_content n)) =? 0) && (f_size (n_content n) =? 0)
| None =>
negb (n_kind n =? sc_text schema) &&
match sc_nodes schema !! n_kind n with
| Some t => whole (nt_attrs t) (n_attrs n) && eqb (n_leaf n) (nt_content_match t =? EMPTY_MATCH)
| None => false
end &&
joined (f_content (n_content n)) && forallb (portable levels) (f_content (n_content n)) &&
(f_size (n_content n) =? sum_list_with Node.node_size (f_content (n_content n)))
end
end.

Definition portable_fragment (levels : nat) (f : Fragment) : bool :=
joined (f_content f) && forallb (portable levels) (f_content f) &&
(f_size f =? sum_list_with Node.node_size (f_content f)).

Lemma portable_size levels n : portable levels n = true -> 0 < Node.node_size n.
Proof.
destruct levels as [|levels]; [done|]. simpl. unfold Node.node_size. destruct (n_text n) as [units|].
- rewrite !andb_true_iff, negb_true_iff, Nat.eqb_neq. lia.
- destruct (n_leaf n); lia.
Qed.

(** ** Reading what was written *)

Hypothesis Hnamed : named.

Lemma compute_attrs_nil spec given : spec = [] -> compute_attrs spec given = Ok [].
Proof. by intros ->. Qed.

Lemma mark_back m : portable_mark m = true -> exists j, mark_to_json schema m = Ok j /\ mark_from_json schema j = Ok m.
Proof.
unfold portable_mark. destruct (sc_marks schema !! m_kind m) as [t|] eqn:Ht; [|done]. intros Hw%bool_decide_eq_true.
unfold mark_to_json, Schema.mark_name, Schema.mark_has_attrs, Schema.mark. rewrite Ht. go_on.
eexists. split; [done|]. assert (Hid : sc_mark_ids schema !! mt_name t = Some (m_kind m)) by (apply (nd_marks Hnamed); by exists t).
unfold mark_from_json, Schema.mark_id, Marks.new, Schema.mark_attrs, Schema.mark. destruct (length (mt_attrs t) =? 0) eqn:El; go_on.
- apply Nat.eqb_eq, length_zero_iff_nil in El. read_keys. rewrite Hid, Ht. go_on. rewrite El in *.
injection Hw as Hw. destruct m. simpl in *. by subst.
- read_keys. rewrite Hid, Ht. go_on. rewrite Hw. by destruct m.
Qed.

Lemma marks_back marks : forallb portable_mark marks = true ->
exists l, try_map (mark_to_json schema) marks = Ok l /\ try_map (mark_from_json schema) l = Ok marks.
Proof.
intros H. apply try_map_back, Forall_forall. intros m Hm. apply mark_back. rewrite forallb_forall in H. by apply H, list_elem_of_In.
Qed.

Lemma joined_snoc l a b : joined (l ++ [a; b]) = joined (l ++ [a]) && negb (Node.is_text b && Node.same_markup a b).
Proof.
induction l as [|x l IH]; simpl; [by rewrite andb_true_r|]. destruct l as [|y l]; simpl in *.
- by rewrite !andb_true_r.
- by rewrite IH, andb_assoc.
Qed.

(** Nothing joins in a list that is joined. *)
Lemma from_array_joined l : joined l = true -> Fragment.from_array l = Fragment.new l.
Proof.
unfold Fragment.from_array. intros H. f_equal.
assert (Hfold : forall l done, joined (rev done ++ l) = true ->
rev (foldl (fun joined node => Fragment.join_onto node joined) done l) = rev done ++ l).
{ clear l H. induction l as [|n l IH]; intros done H; simpl; [by rewrite app_nil_r|].
assert (E : Fragment.join_onto n done = n :: done).
{ destruct done as [|last done]; [done|]. simpl in *. destruct (_ && _) eqn:Ej; [|done]. exfalso.
rewrite <- app_assoc in H. simpl in H. clear IH. revert H. generalize (rev done) as front. intros front.
induction front as [|x front IHf]; simpl; [by rewrite Ej|].
destruct front as [|y front]; simpl in *; intros [_ H]%andb_true_iff; [|by apply IHf]. by rewrite Ej in H. }
rewrite E. rewrite IH; simpl; by rewrite <- app_assoc. }
by rewrite (Hfold l []).
Qed.

(** The entries that [node_json] writes. *)
Record entries (n : Node) (t : NodeType) (content : Value) (marks : list Value) (j : Value) : Prop := {
en_type : ValueOps.get "type" j = Some (Str (nt_name t));
en_attrs : ValueOps.get "attrs" j = (if length (nt_attrs t) =? 0 then None else Some (Object (n_attrs n)));
en_content : ValueOps.get "content" j = (if 0 <? f_size (n_content n) then Some content else None);
en_marks : ValueOps.get "marks" j = (match n_marks n with [] => None | _ => Some (Array marks) end);
en_text : ValueOps.get "text" j = Str <$> text_of n
}.

Lemma node_json_entries n t content marks : sc_nodes schema !! n_kind n = Some t ->
try_map (mark_to_json schema) (n_marks n) = Ok marks ->
exists j, node_json schema n (Ok content) = Ok j /\ entries n t content marks j.
Proof.
intros Ht Hm. unfold node_json, Schema.node_name, Schema.node_has_attrs, Schema.node. rewrite Ht. go_on.
destruct (length (nt_attrs t) =? 0) eqn:Ea, (0 <? f_size (n_content n)) eqn:Es, (n_marks n) as [|m ms] eqn:Em, (text_of n) as [text|] eqn:Et;
go_on; rewrite ?Hm; go_on; (eexists; split; [reflexivity|]); constructor; rewrite ?Ea, ?Es, ?Em, ?Et; by read_keys.
Qed.

Lemma from_entries_type j t : ValueOps.get "type" j = Some (Str (nt_name t)) -> str_or_empty j "type" = nt_name t.
Proof. intros H. unfold str_or_empty, ValueOps.index. by rewrite H. Qed.

Lemma entries_marks n t content marks j : entries n t content marks j ->
try_map (mark_from_json schema) marks = Ok (n_marks n) -> marks_from_json schema j = Ok (n_marks n).
Proof. intros [_ _ _ H _] Hm. unfold marks_from_json. rewrite H. by destruct (n_marks n). Qed.

Definition returns (levels : nat) (n : Node) : Prop :=
exists j, node_to_json schema n = Ok j /\ node_from_json_at schema levels j = Ok n.

Lemma fragment_back levels f : portable_fragment levels f = true ->
(forall n, portable levels n = true -> returns levels n) ->
exists v, fragment_to_json schema f = Ok v /\ fragment_from (node_from_json_at schema levels) (Some v) = Ok f /\
(f_size f = 0 -> f = empty_fragment).
Proof.
intros Hp Hback. apply andb_true_iff in Hp as [[Hj Hp]%andb_true_iff Hs%Nat.eqb_eq]. destruct f as [content size]. simpl in *.
destruct content as [|n content].
- exists Null. simpl in Hs. by subst.
- destruct (try_map_back (node_to_json schema) (node_from_json_at schema levels) (n :: content)) as (l & H1 & H2).
{ apply Forall_forall. intros x Hx%list_elem_of_In. rewrite forallb_forall in Hp. by apply Hback, Hp. }
exists (Array l). unfold node_to_json in H1. split; [|split].
+ cbn [fragment_to_json]. by rewrite H1.
+ cbn [fragment_from]. rewrite H2. go_on. rewrite from_array_joined by done. unfold Fragment.new. by rewrite <- Hs.
+ intros Hz. exfalso. rewrite Hz in Hs. simpl in Hp. apply andb_true_iff in Hp as [Hp _]. apply portable_size in Hp. simpl in Hs. lia.
Qed.

Lemma text_name t : sc_nodes schema !! sc_text schema = Some t -> nt_name t = "text"%string.
Proof. intros Ht. destruct (nd_text Hnamed) as (t' & Ht' & Hn). rewrite Ht in Ht'. by injection Ht' as <-. Qed.

Lemma other_name kind t : sc_nodes schema !! kind = Some t -> kind <> sc_text schema -> nt_name t <> "text"%string.
Proof.
intros Ht Hk Hn. destruct (nd_text Hnamed) as (t' & Ht' & Hn').
assert (H1 : sc_node_ids schema !! "text"%string = Some kind) by (apply (nd_nodes Hnamed); by exists t).
assert (H2 : sc_node_ids schema !! "text"%string = Some (sc_text schema)) by (apply (nd_nodes Hnamed); by exists t').
congruence.
Qed.

Lemma node_back levels : forall n, portable levels n = true -> returns levels n.
Proof.
induction levels as [|levels IH]; [done|]. intros n Hp. cbn [portable] in Hp.
apply andb_true_iff in Hp as [[Hmarks Hsort%bool_decide_eq_true]%andb_true_iff Hp].
destruct (marks_back _ Hmarks) as (marks & Hm1 & Hm2). unfold returns, node_to_json.
destruct n as [kind attrs content ms text leaf]. simpl in *. destruct text as [units|].
- rewrite !andb_true_iff, !Nat.eqb_eq, bool_decide_eq_true, negb_true_iff, Nat.eqb_neq in Hp.
destruct Hp as ((((((-> & ->) & Hpair) & Hne) & ->) & Hc) & Hs). destruct content as [content size]. simpl in *.
apply length_zero_iff_nil in Hc. subst content size. destruct (nd_text Hnamed) as (t & Ht & Hn).
destruct (node_json_entries (MkNode (sc_text schema) [] (MkFragment [] 0) ms (Some units) true) t Null marks Ht Hm1) as (j & Hj & Hen).
exists j. split; [exact Hj|]. cbn [node_from_json_at]. rewrite (entries_marks _ _ _ _ _ Hen Hm2). go_on.
rewrite (from_entries_type _ _ (en_type _ _ _ _ _ Hen)), Hn, bool_decide_eq_true_2 by done.
unfold ValueOps.index. rewrite (en_text _ _ _ _ _ Hen). simpl. unfold node_text. rewrite units_round_trip by done.
unfold Nodes.text_units. destruct units; [done|]. cbn [n_marks]. by rewrite Hsort.
- rewrite !andb_true_iff, negb_true_iff, Nat.eqb_neq in Hp. destruct Hp as ((((Hk & Ht) & Hj) & Hc) & Hs).
destruct (sc_nodes schema !! kind) as [t|] eqn:Et; [|done]. apply andb_true_iff in Ht as [Hw%bool_decide_eq_true Hleaf%eqb_prop].
destruct (fragment_back levels content) as (v & Hv1 & Hv2 & Hv3); [|exact IH|].
{ unfold portable_fragment. by rewrite Hj, Hc, Hs. }
destruct (node_json_entries (MkNode kind attrs content ms None leaf) t v marks Et Hm1) as (j & Hj' & Hen).
exists j. rewrite Hv1. split; [exact Hj'|]. cbn [node_from_json_at]. rewrite (entries_marks _ _ _ _ _ Hen Hm2). go_on.
rewrite (from_entries_type _ _ (en_type _ _ _ _ _ Hen)), bool_decide_eq_false_2 by (by eapply other_name).
assert (Hid : Schema.node_id schema (nt_name t) = Some kind) by (apply (nd_nodes Hnamed); by exists t). rewrite Hid.
rewrite (en_content _ _ _ _ _ Hen), (en_attrs _ _ _ _ _ Hen). cbn [n_content n_attrs].
assert (Hf : fragment_from (node_from_json_at schema levels) (if 0 <? f_size content then Some v else None) = Ok content).
{ destruct (Nat.ltb_spec 0 (f_size content)); [done|]. rewrite Hv3 by lia. done. }
rewrite Hf. go_on. unfold Nodes.new, Schema.node_attrs, Schema.is_leaf, Schema.node. rewrite Et. go_on.
assert (Ha : compute_attrs (nt_attrs t) (if length (nt_attrs t) =? 0 then None else Some (Object attrs)) = Ok attrs).
{ destruct (length (nt_attrs t) =? 0) eqn:El; [|done]. apply Nat.eqb_eq, length_zero_iff_nil in El. rewrite El in *. exact Hw. }
rewrite Ha. go_on. cbn [n_marks]. by rewrite Hsort, <- Hleaf.
Qed.

(** ** Slices and steps *)

Definition portable_slice (s : Slice) : bool :=
portable_fragment (S MOST_DEPTH) (s_content s) &&
(negb (f_size (s_content s) =? 0) || (s_open_start s =? 0) && (s_open_end s =? 0)).

(** A slice that a step can carry: it adds something, or it is the empty slice. *)
Definition carried (s : Slice) : bool :=
portable_slice s && (N.of_nat (s_open_start s + s_open_end s) <? USIZE)%N &&
((s_open_start s + s_open_end s <? f_size (s_content s)) || (f_size (s_content s) =? 0)).

Definition portable_step (s : Step.t) : bool :=
match s with
| Step.Replace _ _ slice _ | Step.ReplaceAround _ _ _ _ slice _ _ => carried slice
| Step.AddMark _ _ m | Step.RemoveMark _ _ m | Step.AddNodeMark _ m | Step.RemoveNodeMark _ m => portable_mark m
| Step.Attr _ _ _ | Step.DocAttr _ _ => true
end.

Definition returned (s : Step.t) : Prop :=
exists j, step_to_json schema s = Ok j /\ step_from_json schema j = Ok s.

Lemma open_back json name n : ValueOps.get name json = (if 0 <? n then Some (number_of n) else None) -> open_of json name = Ok n.
Proof.
intros H. unfold open_of. rewrite H. destruct (Nat.ltb_spec 0 n); simpl; [by rewrite Nat2N.id|]. f_equal. lia.
Qed.

Lemma slice_back s : portable_slice s = true ->
exists v, slice_to_json schema s = Ok v /\ slice_from_json schema (Some v) = Ok s.
Proof.
intros [Hf Hz]%andb_true_iff. destruct s as [content start end_]. simpl in *. unfold slice_to_json. cbn [s_content s_open_start s_open_end].
destruct (fragment_back (S MOST_DEPTH) content Hf (node_back _)) as (v & Hv1 & Hv2 & Hv3).
destruct (f_size content =? 0) eqn:Es; simpl in Hz.
- exists Null. split; [done|]. apply andb_true_iff in Hz as [->%Nat.eqb_eq ->%Nat.eqb_eq]. apply Nat.eqb_eq in Es.
by rewrite (Hv3 Es).
- rewrite Hv1. go_on. eexists. split; [reflexivity|]. set (j := if 0 <? end_ then _ else _).
assert (Hj : exists m, j = Object m /\ Map.get "content" m = Some v /\
Map.get "openStart" m = (if 0 <? start then Some (number_of start) else None) /\
Map.get "openEnd" m = (if 0 <? end_ then Some (number_of end_) else None)).
{ unfold j. destruct (0 <? start), (0 <? end_); (eexists; split; [reflexivity|]); by repeat split. }
destruct Hj as (m & -> & H1 & H2 & H3). cbn [slice_from_json ValueOps.get]. rewrite H1. unfold fragment_from_json. rewrite Hv2. go_on.
by rewrite (open_back (Object m) "openStart" start H2), (open_back (Object m) "openEnd" end_ H3).
Qed.

(** The entries that [with_slice] adds. *)
Lemma with_slice_back m slice structure : carried slice = true ->
Map.get "slice" m = None -> Map.get "structure" m = None ->
exists m', with_slice schema (Object m) slice structure = Ok (Object m') /\
(forall key, key <> "slice"%string -> key <> "structure"%string -> Map.get key m' = Map.get key m) /\
slice_from_json schema (Map.get "slice" m') = Ok slice /\
default false (ValueOps.as_bool (default Null (Map.get "structure" m'))) = structure.
Proof.
intros [[Hp Hs%N.ltb_lt]%andb_true_iff Hz]%andb_true_iff Hm1 Hm2. unfold with_slice, Slice.size.
assert (Hadd : uadd (s_open_start slice) (s_open_end slice) = Ok (s_open_start slice + s_open_end slice) :> res nat) by by apply uadd_ok.
rewrite Hadd. go_on. destruct (slice_back slice Hp) as (v & Hv1 & Hv2).
destruct (Nat.ltb_spec 0 (f_size (s_content slice) - (s_open_start slice + s_open_end slice))) as [Hlt|Hge].
- rewrite Hv1. go_on. cbn [set_key]. destruct structure; (eexists; split; [reflexivity|]); (split; [|split]).
+ intros key H1 H2. by rewrite !map_get_insert_ne.
+ rewrite map_get_insert_ne by done. by rewrite map_get_insert_eq.
+ by rewrite map_get_insert_eq.
+ intros key H1 H2. by rewrite map_get_insert_ne.
+ by rewrite map_get_insert_eq.
+ rewrite map_get_insert_ne by done. by rewrite Hm2.
- assert (Hzero : f_size (s_content slice) = 0).
{ apply orb_true_iff in Hz as [Hz%Nat.ltb_lt|Hz%Nat.eqb_eq]; [lia|done]. }
assert (Hempty : slice_from_json schema None = Ok slice).
{ unfold slice_to_json in Hv1. rewrite Hzero in Hv1. simpl in Hv1. by injection Hv1 as <-. }
destruct structure; (eexists; split; [reflexivity|]); (split; [|split]).
+ intros key H1 H2. by rewrite map_get_insert_ne.
+ rewrite map_get_insert_ne by done. by rewrite Hm1.
+ by rewrite map_get_insert_eq.
+ done.
+ by rewrite Hm1.
+ by rewrite Hm2.
Qed.

Lemma number_back json name n : ValueOps.get name json = Some (number_of n) -> number json name = Ok n.
Proof. intros H. unfold number, ValueOps.index. rewrite H. simpl. by rewrite Nat2N.id. Qed.

Lemma kind_back json kind : ValueOps.get "stepType" json = Some (Str kind) -> str_or_empty json "stepType" = kind.
Proof. intros H. unfold str_or_empty, ValueOps.index. by rewrite H. Qed.

(** Chooses the branch of [step_from_json]. *)
Ltac choose_kind json kind H :=
unfold step_from_json; rewrite (kind_back json kind H);
repeat first [rewrite bool_decide_eq_true_2 by reflexivity | rewrite bool_decide_eq_false_2 by discriminate].

Lemma replace_back from to slice st : carried slice = true -> returned (Step.Replace from to slice st).
Proof.
intros Hp. destruct (with_slice_back (foldl (fun m '(k, v) => Map.insert k v m) []
[("stepType", Str "replace"); ("from", number_of from); ("to", number_of to)]%string) slice st Hp eq_refl eq_refl) as (m' & Hw & Hk & Hs & Hst).
exists (Object m'). split; [exact Hw|].
choose_kind (Object m') "replace"%string (Hk "stepType"%string ltac:(discriminate) ltac:(discriminate)).
rewrite (number_back (Object m') "from" from (Hk "from"%string ltac:(discriminate) ltac:(discriminate))). go_on.
rewrite (number_back (Object m') "to" to (Hk "to"%string ltac:(discriminate) ltac:(discriminate))). go_on.
unfold ValueOps.index. cbn [ValueOps.get]. by rewrite Hs, Hst.
Qed.

Lemma replace_around_back from to gap_from gap_to slice insert st : carried slice = true ->
returned (Step.ReplaceAround from to gap_from gap_to slice insert st).
Proof.
intros Hp. destruct (with_slice_back (foldl (fun m '(k, v) => Map.insert k v m) []
[("stepType", Str "replaceAround"); ("from", number_of from); ("to", number_of to);
("gapFrom", number_of gap_from); ("gapTo", number_of gap_to); ("insert", number_of insert)]%string)
slice st Hp eq_refl eq_refl) as (m' & Hw & Hk & Hs & Hst).
exists (Object m'). split; [exact Hw|].
choose_kind (Object m') "replaceAround"%string (Hk "stepType"%string ltac:(discriminate) ltac:(discriminate)).
rewrite (number_back (Object m') "from" from (Hk "from"%string ltac:(discriminate) ltac:(discriminate))). go_on.
rewrite (number_back (Object m') "to" to (Hk "to"%string ltac:(discriminate) ltac:(discriminate))). go_on.
rewrite (number_back (Object m') "gapFrom" gap_from (Hk "gapFrom"%string ltac:(discriminate) ltac:(discriminate))). go_on.
rewrite (number_back (Object m') "gapTo" gap_to (Hk "gapTo"%string ltac:(discriminate) ltac:(discriminate))). go_on.
unfold ValueOps.index. cbn [ValueOps.get]. rewrite Hs, Hst. go_on.
by rewrite (number_back (Object m') "insert" insert (Hk "insert"%string ltac:(discriminate) ltac:(discriminate))).
Qed.

(** Reads a step without a slice. *)
Ltac plain_back kind :=
eexists; split; [reflexivity|];
match goal with |- step_from_json _ ?j = _ => choose_kind j kind (eq_refl : ValueOps.get "stepType" j = Some (Str kind)) end;
repeat match goal with |- context [number ?j ?name] => rewrite (number_back j name _ eq_refl); go_on end;
unfold text, ValueOps.index; read_keys; go_on.

Lemma step_back s : portable_step s = true -> returned s.
Proof.
destruct s as [from to slice st|from to gap_from gap_to slice insert st|from to m|from to m|pos m|pos m|pos attr value|attr value];
cbn [portable_step]; intros Hp; [by apply replace_back|by apply replace_around_back|..];
unfold returned; cbn [step_to_json]; try (destruct (mark_back m Hp) as (j & Hj1 & Hj2); rewrite Hj1; go_on).
- plain_back "addMark"%string. by rewrite Hj2.
- plain_back "removeMark"%string. by rewrite Hj2.
- plain_back "addNodeMark"%string. by rewrite Hj2.
- plain_back "removeNodeMark"%string. by rewrite Hj2.
- by plain_back "attr"%string.
- by plain_back "docAttr"%string.
Qed.
End portable.

(* ------------------------------------------------------------ *)

(** Reading tree text from JSON: it never panics, what it gives is well formed, and a tree
    that was read can be written and read again. *)

Open Scope nat_scope.

Section read.
Variable schema : Schema.
Hypothesis Hnamed : named schema.

(** ** No panic *)

Lemma attrs_loop_safe attrs given : forall built, safe (compute_attrs_loop attrs given built).
Proof.
induction attrs as [|a attrs IH]; intros built; simpl; [done|].
destruct (given ≫= _); [apply IH|]. destruct (a_default a); [apply IH|done].
Qed.

Lemma mark_read_safe json : safe (mark_from_json schema json).
Proof.
unfold mark_from_json. destruct (Schema.mark_id schema _) as [kind|] eqn:Hk; [|done].
apply (nd_marks _ Hnamed) in Hk as (t & Ht & _). unfold Marks.new, Schema.mark_attrs, Schema.mark. rewrite Ht. go_on.
apply safe_bind; [apply attrs_loop_safe|done].
Qed.

Lemma marks_read_safe json : safe (marks_from_json schema json).
Proof.
unfold marks_from_json. destruct (ValueOps.get "marks" json) as [[| | | |l|]|]; try done.
apply try_map_safe. intros x _. apply mark_read_safe.
Qed.

Lemma fragment_read_safe read json : (forall j, safe (read j)) -> safe (fragment_from read json).
Proof.
intros Hr. destruct json as [[| | | |l|]|]; try done. cbn [fragment_from]. apply safe_bind; [|done].
apply try_map_safe. auto.
Qed.

Lemma new_safe kind t attrs content marks : sc_nodes schema !! kind = Some t -> safe (Nodes.new schema kind attrs content marks).
Proof.
intros Ht. unfold Nodes.new, Schema.node_attrs, Schema.is_leaf, Schema.node. rewrite Ht. go_on.
apply safe_bind; [apply attrs_loop_safe|done].
Qed.

Lemma node_read_safe levels : forall json, safe (node_from_json_at schema levels json).
Proof.
induction levels as [|levels IH]; intros json; [done|]. cbn [node_from_json_at].
apply safe_bind; [apply marks_read_safe|]. intros marks _. destruct (bool_decide _).
- apply safe_bind; [apply safe_ok_or|]. intros text _. unfold node_text, Nodes.text_units. by destruct (encode_utf16 _).
- destruct (Schema.node_id schema _) as [kind|] eqn:Hk; [|done]. apply (nd_nodes _ Hnamed) in Hk as (t & Ht & _).
apply safe_bind; [by apply fragment_read_safe|]. intros. by eapply new_safe.
Qed.

Lemma slice_read_safe json : safe (slice_from_json schema json).
Proof.
assert (Ho : forall j name, safe (open_of j name)).
{ intros j name. unfold open_of. destruct (ValueOps.get _ _); [|done]. apply safe_fmap, safe_ok_or. }
assert (H : forall j, safe (content ← fragment_from_json schema (ValueOps.get "content" j); open_start ← open_of j "openStart";
open_end ← open_of j "openEnd"; Ok (MkSlice content open_start open_end) : res Slice)).
{ intros j. apply safe_bind; [apply fragment_read_safe, node_read_safe|]. intros. apply safe_bind; [apply Ho|]. intros.
by apply safe_bind; [apply Ho|]. }
destruct json as [[| | | | |]|]; try done; apply H.
Qed.

Lemma step_read_safe json : safe (step_from_json schema json).
Proof.
assert (Hn : forall name, safe (number json name)) by (intros; apply safe_fmap, safe_ok_or).
unfold step_from_json.
repeat first [case_bool_decide | apply safe_bind; [solve [apply Hn|apply safe_ok_or|apply mark_read_safe|apply slice_read_safe]|intros ? _] | done].
Qed.

(** ** Well-formed trees *)

Lemma fragment_read_wf read json f :
(forall j n, read j = Ok n -> wf_node schema n = true) -> fragment_from read json = Ok f -> wf_fragment schema f.
Proof.
intros Hr. destruct json as [[| | | |l|]|]; cbn [fragment_from]; try done; try (intros [= <-]; apply wf_empty).
intros (nodes & Hn & [= <-])%bind_ok. apply from_array_spec. eapply try_map_forall; [exact Hn|].
apply Forall_forall. intros x _ y Hy. by eapply Hr.
Qed.

Lemma text_in_range : sc_text schema < length (sc_nodes schema).
Proof. destruct (nd_text _ Hnamed) as (t & Ht & _). by eapply lookup_lt_Some. Qed.

Lemma new_wf kind t attrs content marks n : sc_nodes schema !! kind = Some t -> kind <> sc_text schema ->
wf_fragment schema content -> Nodes.new schema kind attrs content marks = Ok n -> wf_node schema n = true.
Proof.
intros Ht Hk Hw. unfold Nodes.new, Schema.node_attrs, Schema.is_leaf, Schema.node. rewrite Ht. go_on.
intros (a & _ & [= <-])%bind_ok. apply wf_make; [by eapply lookup_lt_Some|done| |done].
unfold leaf_kind. by rewrite Ht.
Qed.

Lemma node_read_wf levels : forall json n, node_from_json_at schema levels json = Ok n -> wf_node schema n = true.
Proof.
induction levels as [|levels IH]; intros json n; [done|]. cbn [node_from_json_at].
intros (marks & _ & H)%bind_ok. case_bool_decide as Hname.
- apply bind_ok in H as (text & _ & H). unfold node_text, Nodes.text_units in H. destruct (encode_utf16 _) as [|u units]; [done|].
injection H as <-. apply wf_make_text; [apply text_in_range|done|done].
- destruct (Schema.node_id schema _) as [kind|] eqn:Hk; [|done]. apply (nd_nodes _ Hnamed) in Hk as (t & Ht & Hn).
apply bind_ok in H as (content & Hc & H). eapply new_wf; [exact Ht| |by eapply fragment_read_wf|exact H].
intros ->. apply Hname. rewrite <- Hn. by apply (text_name schema Hnamed).
Qed.

(** ** What was read can be written *)

(** No type has two attributes of one name. *)
Definition tidy (schema : Schema) : bool :=
forallb (fun t => bool_decide (NoDup (a_name <$> nt_attrs t))) (sc_nodes schema) &&
forallb (fun t => bool_decide (NoDup (a_name <$> mt_attrs t))) (sc_marks schema).

Hypothesis Htidy : tidy schema = true.

(** Each string in a value is UTF-8, as each [String] is. *)
Fixpoint utf8 (v : Value) : bool :=
match v with
| Str s => forallb scalar (chars s)
| Array l => forallb utf8 l
| Object m => forallb (fun e => utf8 e.2) m
| _ => true
end.

Lemma utf8_get key v v' : utf8 v = true -> ValueOps.get key v = Some v' -> utf8 v' = true.
Proof.
destruct v as [| | | | |m]; try done. cbn [utf8 ValueOps.get]. induction m as [|[k w] m IH]; [done|]. simpl.
intros [Hw Hm]%andb_true_iff. destruct (decide _); [by intros [= <-]|by apply IH].
Qed.

Lemma encode_paired l : Forall (fun c => scalar c = true) l -> paired (encode_utf16 l) = true.
Proof.
induction 1 as [|c l Hc _ IH]; [done|]. unfold encode_utf16 in *. cbn [flat_map]. unfold scalar in Hc.
apply andb_true_iff in Hc as [H1%N.ltb_lt H2%negb_true_iff%andb_false_iff].
destruct (N.ltb_spec c 65536) as [Hs|Hs]; cbn [app paired].
- assert (Eh : high c = false) by (unfold high; apply andb_false_iff; rewrite N.leb_gt, N.ltb_ge; destruct H2 as [H2%N.leb_gt|H2%N.ltb_ge]; lia).
assert (El : low c = false) by (unfold low; apply andb_false_iff; rewrite N.leb_gt, N.ltb_ge; destruct H2 as [H2%N.leb_gt|H2%N.ltb_ge]; lia).
rewrite Eh, El, IH. rewrite andb_true_r. by apply N.ltb_lt.
- pose proof (N.mod_lt (c - 65536) 1024 ltac:(lia)) as Hm. pose proof (N.Div0.div_lt_upper_bound (c - 65536) 1024 1024 ltac:(lia)) as Hd.
revert Hm Hd. generalize ((c - 65536) / 1024)%N ((c - 65536) mod 1024)%N. intros q r Hm Hd.
assert (Eh : high (55296 + q) = true) by (unfold high; apply andb_true_iff; rewrite N.leb_le, N.ltb_lt; lia).
assert (El : low (56320 + r) = true) by (unfold low; apply andb_true_iff; rewrite N.leb_le, N.ltb_lt; lia).
rewrite Eh, El, IH, !andb_true_r. apply N.ltb_lt. lia.
Qed.

Lemma paired_app n : forall a b, length a <= n -> paired a = true -> paired b = true -> paired (a ++ b) = true.
Proof.
induction n as [|n IH]; intros [|u a] b Hn; try done; [simpl in Hn; lia|]. cbn [paired app]. simpl in Hn.
intros [Hu H]%andb_true_iff Hb. rewrite Hu. simpl. destruct (high u).
- destruct a as [|v a]; [done|]. apply andb_true_iff in H as [Hv H]. simpl. rewrite Hv. simpl. apply IH; [simpl in Hn; lia|done..].
- apply andb_true_iff in H as [Hl H]. rewrite Hl. simpl. apply IH; [lia|done..].
Qed.

(** The attributes that a type gives are whole. *)
Lemma attrs_loop_get attrs given : forall built out, compute_attrs_loop attrs given built = Ok out ->
forall key, key ∉ (a_name <$> attrs) -> Map.get key out = Map.get key built.
Proof.
induction attrs as [|a attrs IH]; intros built out; simpl; [by intros [= <-]|]. intros H key [Hne Hk]%not_elem_of_cons.
assert (Hins : forall v, compute_attrs_loop attrs given (Map.insert (a_name a) v built) = Ok out -> Map.get key out = Map.get key built).
{ intros v Hv. rewrite (IH _ _ Hv key Hk). apply map_get_insert_ne. congruence. }
destruct (given ≫= _); [by eapply Hins|]. destruct (a_default a); [by eapply Hins|done].
Qed.

Lemma attrs_loop_again attrs given : NoDup (a_name <$> attrs) -> forall built out, compute_attrs_loop attrs given built = Ok out ->
compute_attrs_loop attrs (Some (Object out)) built = Ok out.
Proof.
induction attrs as [|a attrs IH]; intros Hnd built out; [done|]. rewrite fmap_cons in Hnd. apply NoDup_cons in Hnd as [Ha Hnd].
assert (Hins : forall v, compute_attrs_loop attrs given (Map.insert (a_name a) v built) = Ok out ->
compute_attrs_loop (a :: attrs) (Some (Object out)) built = Ok out).
{ intros v Hv. cbn [compute_attrs_loop mbind option_bind ValueOps.get]. rewrite (attrs_loop_get _ _ _ _ Hv _ Ha), map_get_insert_eq. by apply IH. }
intros H. cbn [compute_attrs_loop] in H. destruct (given ≫= _); [by eapply Hins|]. destruct (a_default a); [by eapply Hins|done].
Qed.

Lemma mark_read_portable json m : mark_from_json schema json = Ok m -> portable_mark schema m = true.
Proof.
unfold mark_from_json. destruct (Schema.mark_id schema _) as [kind|] eqn:Hk; [|done].
apply (nd_marks _ Hnamed) in Hk as (t & Ht & _). unfold Marks.new, Schema.mark_attrs, Schema.mark. rewrite Ht. go_on.
intros (a & Ha & [= <-])%bind_ok. unfold portable_mark, whole. cbn [m_kind m_attrs]. rewrite Ht. apply bool_decide_eq_true.
eapply attrs_loop_again; [|exact Ha]. apply andb_true_iff in Htidy as [_ H]. rewrite forallb_forall in H.
specialize (H t). rewrite bool_decide_eq_true in H. apply H, list_elem_of_In. by eapply list_elem_of_lookup_2.
Qed.

Lemma marks_read_portable json marks : marks_from_json schema json = Ok marks -> forallb (portable_mark schema) marks = true.
Proof.
unfold marks_from_json. intros H. apply forallb_forall. intros m Hm%list_elem_of_In.
destruct (ValueOps.get "marks" json) as [[| | | |l|]|]; try done; try (injection H as <-; by apply elem_of_nil in Hm).
assert (Hall : Forall (fun m => portable_mark schema m = true) marks); [|rewrite Forall_forall in Hall; by apply Hall].
eapply try_map_forall; [exact H|]. apply Forall_forall. intros x _ y Hy. by eapply mark_read_portable.
Qed.

(** *** Sorting twice is sorting once *)

Lemma insert_by_kind_in m l x : x ∈ insert_by_kind m l <-> x = m \/ x ∈ l.
Proof. induction l as [|y l IH]; simpl; [set_solver|]. destruct (_ <=? _); set_solver. Qed.

Lemma sort_by_kind_in l x : x ∈ sort_by_kind l <-> x ∈ l.
Proof. induction l as [|m l IH]; [done|]. simpl. rewrite insert_by_kind_in, IH. set_solver. Qed.

Fixpoint ordered_kinds (l : list Mark) : Prop :=
match l with [] => True | m :: l => Forall (fun o => m_kind m <= m_kind o) l /\ ordered_kinds l end.

Lemma insert_by_kind_ordered m l : ordered_kinds l -> ordered_kinds (insert_by_kind m l).
Proof.
induction l as [|o l IH]; [by repeat constructor|]. simpl. intros [Ho Hl]. destruct (Nat.leb_spec (m_kind m) (m_kind o)); simpl.
- split; [|done]. constructor; [done|]. eapply Forall_impl; [exact Ho|]. simpl. lia.
- split; [|by apply IH]. rewrite Forall_forall in *. intros x [->|Hx]%insert_by_kind_in; [lia|by apply Ho].
Qed.

Lemma sort_by_kind_ordered l : ordered_kinds (sort_by_kind l).
Proof. induction l; [done|]. by apply insert_by_kind_ordered. Qed.

Lemma sort_by_kind_id l : ordered_kinds l -> sort_by_kind l = l.
Proof.
induction l as [|m l IH]; [done|]. intros [Hm Hl]. simpl. rewrite IH by done. destruct l as [|o l]; [done|]. simpl.
apply Forall_cons in Hm as [Hm _]. by rewrite (proj2 (Nat.leb_le _ _) Hm).
Qed.

Lemma sort_portable marks : forallb (portable_mark schema) marks = true ->
forallb (portable_mark schema) (sort_by_kind marks) && bool_decide (sort_by_kind (sort_by_kind marks) = sort_by_kind marks) = true.
Proof.
intros H. apply andb_true_iff. split.
- rewrite forallb_forall in H. apply forallb_forall. intros x Hx. apply H.
by apply list_elem_of_In, sort_by_kind_in, list_elem_of_In.
- apply bool_decide_eq_true, sort_by_kind_id, sort_by_kind_ordered.
Qed.

(** *** Joining *)

Definition all_portable (levels : nat) (l : list Node) : Prop := Forall (fun n => portable schema levels n = true) l.

Lemma portable_text levels n : portable schema levels n = true ->
n_kind n = sc_text schema <-> Node.is_text n = true.
Proof.
destruct levels as [|levels]; [done|]. cbn [portable]. unfold Node.is_text. intros [_ H]%andb_true_iff. destruct (n_text n).
- rewrite !andb_true_iff, Nat.eqb_eq in H. naive_solver.
- rewrite !andb_true_iff, negb_true_iff, Nat.eqb_neq in H. naive_solver.
Qed.

Lemma joined_text_portable levels a b : portable schema levels a = true -> portable schema levels b = true ->
Node.is_text b = true -> Node.same_markup a b = true -> portable schema levels (Node.joined_text a b) = true.
Proof.
intros Ha Hb Htb Hm. assert (Hta : Node.is_text a = true).
{ apply (portable_text _ _ Ha). apply same_markup_true in Hm as (-> & _). by apply (portable_text _ _ Hb). }
apply is_text_true in Hta as [ua Ea]. apply is_text_true in Htb as [ub Eb].
destruct levels as [|levels]; [done|]. cbn [portable] in *. rewrite Ea in Ha. rewrite Eb in Hb.
unfold Node.joined_text, Node.with_units, Node.units_or_default. rewrite Ea, Eb. cbn [n_kind n_attrs n_content n_marks n_text n_leaf default from_option id].
rewrite !andb_true_iff in *. destruct Ha as (? & (((((? & ?) & Hp) & Hne) & ?) & ?) & ?). destruct Hb as (_ & ((((_ & Hp') & _) & _) & _) & _).
split; [done|]. split; [|done]. split; [|done]. split; [|done]. split; [|by destruct ua]. split; [done|]. by eapply paired_app.
Qed.

Lemma joined_last l a b : Node.is_text a = Node.is_text b -> (forall x, Node.same_markup x a = Node.same_markup x b) ->
joined (l ++ [a]) = joined (l ++ [b]).
Proof.
intros Ht Hm. induction l as [|x l IH]; [done|]. destruct l as [|y l]; simpl in *; [by rewrite Ht, Hm|by rewrite IH].
Qed.

Lemma from_array_portable levels l : all_portable levels l ->
joined (f_content (Fragment.from_array l)) = true /\ all_portable levels (f_content (Fragment.from_array l)).
Proof.
intros Hl. unfold Fragment.from_array. cbn [Fragment.new f_content].
assert (H : forall acc, all_portable levels acc -> joined (rev acc) = true ->
let r := foldl (fun joined node => Fragment.join_onto node joined) acc l in joined (rev r) = true /\ all_portable levels r).
{ induction Hl as [|n l Hn Hl IH]; intros acc Hacc Hj; [done|]. cbn [foldl]. apply IH; destruct acc as [|a acc]; cbn [Fragment.join_onto].
- by constructor.
- apply Forall_cons in Hacc as [Ha Hacc]. destruct (_ && _) eqn:E; [|by repeat constructor].
apply andb_true_iff in E as [Ht Hm]. constructor; [by apply joined_text_portable|done].
- done.
- apply Forall_cons in Hacc as [Ha Hacc]. destruct (_ && _) eqn:E.
+ apply andb_true_iff in E as [Ht Hm]. simpl in *. rewrite <- Hj. apply joined_last; [|done].
symmetry. apply (portable_text _ _ Ha). apply same_markup_true in Hm as (-> & _). by apply (portable_text _ _ Hn).
+ simpl in *. rewrite <- app_assoc. simpl. by rewrite joined_snoc, Hj, E. }
destruct (H [] ltac:(constructor) eq_refl) as [Hj Hp]. split; [done|]. by apply Forall_rev.
Qed.

Lemma fragment_read_portable levels json f :
(forall v, json = Some v -> utf8 v = true) ->
(forall j n, utf8 j = true -> node_from_json_at schema levels j = Ok n -> portable schema levels n = true) ->
fragment_from (node_from_json_at schema levels) json = Ok f -> portable_fragment schema levels f = true.
Proof.
intros Hu Hr Hf. destruct json as [[| | | |l|]|]; cbn [fragment_from] in Hf; try done; try by injection Hf as <-.
apply bind_ok in Hf as (nodes & Hn & [= <-]). specialize (Hu (Array l) eq_refl). cbn [utf8] in Hu.
destruct (from_array_portable levels nodes) as [Hj Hp].
{ eapply try_map_forall; [exact Hn|]. apply Forall_forall. intros x Hx%list_elem_of_In y Hy. rewrite forallb_forall in Hu. by eapply Hr; [apply Hu|]. }
unfold portable_fragment. rewrite Hj. simpl. rewrite Nat.eqb_refl, andb_true_r. apply forallb_forall. intros x Hx%list_elem_of_In.
unfold all_portable in Hp. rewrite Forall_forall in Hp. by apply Hp.
Qed.

Lemma node_read_portable levels : forall json n, utf8 json = true ->
node_from_json_at schema levels json = Ok n -> portable schema levels n = true.
Proof.
induction levels as [|levels IH]; intros json n Hu; [done|]. cbn [node_from_json_at].
intros (marks & Hmarks & H)%bind_ok. apply marks_read_portable, sort_portable in Hmarks. case_bool_decide as Hname.
- apply bind_ok in H as (text & Htext%ok_or_ok & H). unfold node_text, Nodes.text_units in H.
assert (Hp : paired (encode_utf16 (chars text)) = true).
{ apply encode_paired. unfold ValueOps.index in Htext. destruct (ValueOps.get "text" json) as [v|] eqn:Hv; [|done].
apply (utf8_get _ _ _ Hu) in Hv. destruct v; try done. injection Htext as ->. cbn [utf8] in Hv. apply Forall_forall.
intros c Hc%list_elem_of_In. rewrite forallb_forall in Hv. by apply Hv. }
destruct (encode_utf16 _) as [|u units]; [done|]. injection H as <-. cbn [portable n_marks n_text n_kind n_attrs n_content n_leaf].
rewrite Hmarks, Hp, Nat.eqb_refl. done.
- destruct (Schema.node_id schema _) as [kind|] eqn:Hk; [|done]. apply (nd_nodes _ Hnamed) in Hk as (t & Ht & Hn).
apply bind_ok in H as (content & Hc & H). apply (fragment_read_portable levels) in Hc; [|intros v Hv; by eapply utf8_get|exact IH].
unfold Nodes.new, Schema.node_attrs, Schema.is_leaf, Schema.node in H. rewrite Ht in H. cbn [or_panic mbind Result_bind] in H.
apply bind_ok in H as (a & Ha & [= <-]). cbn [portable n_marks n_text n_kind n_attrs n_content n_leaf]. rewrite Hmarks, Ht.
assert (Hkt : kind <> sc_text schema) by (intros ->; apply Hname; rewrite <- Hn; by apply (text_name schema Hnamed)).
apply Nat.eqb_neq in Hkt. rewrite Hkt. cbn [negb andb]. rewrite eqb_reflx, andb_true_r.
assert (Hw : whole (nt_attrs t) a = true).
{ apply bool_decide_eq_true. eapply attrs_loop_again; [|exact Ha]. apply andb_true_iff in Htidy as [H _]. rewrite forallb_forall in H.
specialize (H t). rewrite bool_decide_eq_true in H. apply H, list_elem_of_In. by eapply list_elem_of_lookup_2. }
rewrite Hw. exact Hc.
Qed.
End read.
