(* ===== verification/TextExample.v ===== *)
(** A small schema and document, for the witnesses of the theorems about tree text:
    paragraphs of text and line breaks, with one mark. *)

From S2P Require Import Prelude Json TextData TextSchema TextNode TextResolved TextReplace.
From S2P Require Import TextTokens TextSlice TextStep.
Open Scope nat_scope.

(** [doc] holds paragraphs, a [paragraph] holds inline nodes, [text] and [hard_break] are leaves. *)
Definition ex_schema : Schema := {|
  sc_nodes := [
    MkNodeType "doc" [] [] true false 1 false (Some []);
    MkNodeType "paragraph" ["block"] [MkAttribute "align" (Some Null)] true false 3 true None;
    MkNodeType "text" ["inline"] [] false false 0 false (Some []);
    MkNodeType "hard_break" ["inline"] [] false false 0 false (Some []) ]%string;
  sc_marks := [
    MkMarkType "strong" [] [] [0];
    MkMarkType "em" [] [] [1] ]%string;
  sc_node_ids := {[ "doc" := 0; "paragraph" := 1; "text" := 2; "hard_break" := 3 ]}%string;
  sc_mark_ids := {[ "strong" := 0; "em" := 1 ]}%string;
  sc_matches := [
    MkMatchState true [];
    MkMatchState false [(1, 2)];
    MkMatchState true [(1, 2)];
    MkMatchState true [(2, 3); (3, 3)] ];
  sc_top := 0;
  sc_text := 2
|}.

Definition ex_attrs : Map.t := [("align"%string, Null)].
Definition ex_text (marks : list Mark) (units : list N) : Node := MkNode 2 [] empty_fragment marks (Some units) true.
Definition ex_break : Node := MkNode 3 [] empty_fragment [] None true.
Definition ex_paragraph (children : list Node) : Node := MkNode 1 ex_attrs (Fragment.new children) [] None false.
Definition ex_doc_of (paragraphs : list Node) : Node := MkNode 0 [] (Fragment.new paragraphs) [] None false.

(** Two paragraphs: [ab] and [c], with a break after [c]. *)
Definition ex_doc : Node :=
  ex_doc_of [ex_paragraph [ex_text [] [97; 98]%N]; ex_paragraph [ex_text [] [99]%N; ex_break]].

(** The end of one paragraph and the start of the next: [x], [y]. *)
Definition ex_slice : Slice :=
  MkSlice (Fragment.new [ex_paragraph [ex_text [] [120]%N]; ex_paragraph [ex_text [] [121]%N]]) 1 1.

Definition strong : Mark := MkMark 0 [].
Definition em : Mark := MkMark 1 [].

Lemma ex_doc_wf : wf_node ex_schema ex_doc = true.
Proof. reflexivity. Qed.

Lemma ex_schema_wf : Schema.wf ex_schema = true.
Proof. reflexivity. Qed.

Lemma ex_slice_wf : wf_slice ex_schema ex_slice.
Proof.
  constructor; [|reflexivity..]. split; [reflexivity|]. repeat constructor.
Qed.
