(* ===== verification/TextClaims.v ===== *)
(** The theorems about tree text ([documents/crates/text]), each with a witness on the
    document of [TextExample] where it has hypotheses. *)

From S2P Require Import Prelude Json Utf TextMap TextData TextSchema TextExpr TextNfa TextCompile.
From S2P Require Import TextCompileSpec TextTable TextNew TextGrammar TextNode TextResolved.
From S2P Require Import TextReplace.
From S2P Require Import TextTokens TextCut TextReplaceSpec TextSlice TextSafe TextTake TextStep.
From S2P Require Import TextStepSpec TextMarks TextJson TextJsonSpec TextExample.
Open Scope nat_scope.

(** The value of a result, for the witnesses. *)
Definition got {E A} (a : A) (r : Result E A) : A := match r with Ok x => x | _ => a end.

(** ** [Node::replace] and [Node::slice] *)

(** C1. [Node::replace] is exact on tokens: when it gives a document, the range is inside
    the old one, the result is well formed (each fragment has its true size, each text is
    not empty), the node keeps its kind, attributes and marks, and the tokens of its
    content are those before [from], those of the slice without its open sides, and those
    from [to] on. *)
Theorem replace_is_splice (schema : Schema) doc from to s doc' :
  wf_node schema doc = true -> n_text doc = None -> wf_slice schema s ->
  node_replace schema doc from to s = Ok doc' ->
  from <= f_size (n_content doc) /\ to <= f_size (n_content doc) /\
  wf_node schema doc' = true /\ doc' = Node.copy doc (n_content doc') /\
  toks (n_content doc') = splice from to (slice_toks s) (toks (n_content doc)).
Proof. apply (node_replace_tokens (schema:=schema)). Qed.

Definition ex_replaced : Node := got ex_doc (node_replace ex_schema ex_doc 2 6 ex_slice).

Lemma replace_is_splice_witness :
  toks (n_content ex_replaced) = splice 2 6 (slice_toks ex_slice) (toks (n_content ex_doc)) /\
  length (toks (n_content ex_replaced)) = 8.
Proof.
  split; [|vm_compute; reflexivity].
  refine (proj2 (proj2 (proj2 (proj2 (replace_is_splice ex_schema ex_doc 2 6 ex_slice ex_replaced _ _ _ _)))));
    [reflexivity|reflexivity|exact ex_slice_wf|vm_compute; reflexivity].
Defined.

(** C2. [Node::replace] does not panic: for a compiled schema, a well-formed document and
    a well-formed slice whose sizes fit in a [usize], at all positions, each index, each
    subtraction and each sum of the code is in range.  What does not fit is an error. *)
Theorem replace_never_panics (schema : Schema) doc from to s :
  Schema.wf schema = true -> wf_node schema doc = true -> n_text doc = None -> wf_slice schema s ->
  (N.of_nat (f_size (n_content doc) + f_size (s_content s)) < USIZE)%N ->
  safe (node_replace schema doc from to s).
Proof. intros Hs. by apply (safe_node_replace (schema:=schema)). Qed.

Lemma replace_never_panics_witness : safe (node_replace ex_schema ex_doc 5 2 ex_slice).
Proof.
  apply replace_never_panics; [reflexivity|reflexivity|reflexivity|exact ex_slice_wf|reflexivity].
Defined.

(** [Node::slice] of a range in a document is there, is well formed, and holds the
    tokens of the range, no more and no less. *)
Theorem slice_holds_range (schema : Schema) doc from to :
  wf_node schema doc = true -> n_text doc = None -> from <= to -> to <= f_size (n_content doc) ->
  exists s, node_slice doc from to = Ok s /\ wf_slice schema s /\
    slice_toks s = drop from (take to (toks (n_content doc))).
Proof. apply (node_slice_spec (schema:=schema)). Qed.

Lemma slice_holds_range_witness :
  exists s, node_slice ex_doc 2 6 = Ok s /\ wf_slice ex_schema s /\
    slice_toks s = drop 2 (take 6 (toks (n_content ex_doc))).
Proof. apply slice_holds_range; [reflexivity|reflexivity|lia|vm_compute; lia]. Defined.

(** C5. What a replace takes out goes back: the slice of the range, put where the new
    tokens are, gives the tokens of the old document again. *)
Theorem replace_goes_back (schema : Schema) doc from to s doc' old doc'' :
  wf_node schema doc = true -> n_text doc = None -> wf_slice schema s -> from <= to ->
  node_replace schema doc from to s = Ok doc' -> node_slice doc from to = Ok old ->
  node_replace schema doc' from (from + length (slice_toks s)) old = Ok doc'' ->
  wf_node schema doc'' = true /\ toks (n_content doc'') = toks (n_content doc).
Proof.
  intros Hw Ht Hs Hle E Eold E'.
  apply (node_replace_tokens (schema:=schema)) in E as (L1 & L2 & W' & C' & T'); [|done..].
  destruct (node_slice_spec (schema:=schema) doc from to) as (old' & Eq & Ho & To); [done..|].
  rewrite Eold in Eq. injection Eq as <-.
  assert (Ht' : n_text doc' = None) by by rewrite C'; destruct doc.
  apply (node_replace_tokens (schema:=schema)) in E' as (_ & _ & W'' & _ & T''); [|done..].
  split; [done|]. rewrite T'', T', To. set (T := toks (n_content doc)).
  pose proof (f_size_toks (schema:=schema) _ (wf_content _ Hw)) as Sd. fold T in Sd.
  unfold splice. rewrite take_app_exact by (rewrite length_take; lia).
  rewrite (app_assoc (take from T) (slice_toks s)), (drop_app_exact (take from T ++ slice_toks s)) by (rewrite length_app, length_take; lia).
  assert (take from T = take from (take to T)) as -> by (rewrite take_take, Nat.min_l; [done|lia]).
  by rewrite app_assoc, !take_drop.
Qed.

Definition ex_removed : Slice := got Slice.empty (node_slice ex_doc 2 6).
Definition ex_put_back : Node := got ex_break (node_replace ex_schema ex_replaced 2 6 ex_removed).

Lemma replace_goes_back_witness : toks (n_content ex_put_back) = toks (n_content ex_doc).
Proof.
  refine (proj2 (replace_goes_back ex_schema ex_doc 2 6 ex_slice ex_replaced ex_removed ex_put_back _ _ _ _ _ _ _));
    [reflexivity|reflexivity|exact ex_slice_wf|lia|vm_compute; reflexivity..].
Defined.

(** ** Steps *)

(** C3. What each of the eight steps makes of a document, in tokens: [Replace] and
    [ReplaceAround] splice, [AddMark] and [RemoveMark] change the marks of the inline
    tokens of their range and nothing else, the steps on one node change the token of its
    head, and [DocAttr] leaves all tokens.  The document stays well formed and keeps its
    kind.  This holds of a step that [step_ok] admits: its slice is well formed and an
    insertion stands within it, the range of a mark is not backwards, and the position of
    [Attr], [AddNodeMark] or [RemoveNodeMark] does not name a text, of which the code makes
    a text node without text. *)
Theorem step_outcome (schema : Schema) (step : Step.t) doc doc' :
  wf_node schema doc = true -> n_text doc = None -> step_ok (schema:=schema) step doc ->
  Step.apply schema step doc = Ok doc' ->
  wf_node schema doc' = true /\ n_text doc' = None /\ n_kind doc' = n_kind doc /\
  outcome (schema:=schema) step doc (toks (n_content doc')).
Proof. apply (apply_outcome (schema:=schema)). Qed.

Definition ex_marked : Node := got ex_break (Step.apply ex_schema (Step.AddMark 2 6 strong) ex_doc).

Lemma step_outcome_witness :
  toks (n_content ex_marked) = restyle (marks_added ex_schema strong) 0 2 6 (toks (n_content ex_doc)) /\
  toks (n_content ex_marked) !! 2 = Some (TUnit 2 [] [strong] 98%N) /\
  toks (n_content ex_marked) !! 1 = Some (TUnit 2 [] [] 97%N).
Proof.
  split; [|split; vm_compute; reflexivity].
  refine (proj2 (proj2 (proj2 (step_outcome ex_schema (Step.AddMark 2 6 strong) ex_doc ex_marked _ _ _ _))));
    [reflexivity|reflexivity|simpl; lia|vm_compute; reflexivity].
Defined.




(** A map of ordered ranges keeps the order of positions, for each side. *)
Theorem step_map_monotone (m : StepMap.t) p q a p' q' :
  StepMap.ordered 0 (StepMap.ranges m) = true -> (0 <= p <= q)%Z ->
  (q + StepMap.weight (StepMap.ranges m) <= ISIZE_MAX)%Z ->
  StepMap.map (E:=Failed) m p a = Ok p' -> StepMap.map (E:=Failed) m q a = Ok q' ->
  (p' <= q' <= q + StepMap.weight (StepMap.ranges m))%Z.
Proof.
  intros Hord Hpq Hb Ep Eq. unfold StepMap.map in *.
  rewrite (StepMapFacts.map_loop_exact p a 0) in Ep by (done || lia). injection Ep as <-.
  rewrite (StepMapFacts.map_loop_exact q a 0) in Eq by (done || lia). injection Eq as <-.
  pose proof (StepMapFacts.exact_mono p q a 0 _ 0 Hord). pose proof (StepMapFacts.exact_high q a 0 _ 0 Hord). lia.
Qed.

Lemma step_map_monotone_witness : (2 <= 6 <= 5 + 6)%Z.
Proof.
  apply (step_map_monotone (StepMap.new [2; 1; 2; 6; 3; 0]%Z) 2 5 1 2 6); [reflexivity|lia|vm_compute; discriminate|reflexivity|reflexivity].
Defined.

(** ** Positions *)

(** [Node::resolve] is total on a document: a position inside it has a path that
    starts at the document and whose length is one more than the number of nodes that are
    open at the position, and a position past its end is the error that names it. *)
Theorem resolve_total (schema : Schema) doc pos :
  wf_node schema doc = true ->
  (pos <= f_size (n_content doc) /\
     exists r, Resolved.resolve doc pos = Ok r /\ r_pos r = pos /\
       length (r_path r) = S (length (pending (take pos (toks (n_content doc)))))) \/
  (f_size (n_content doc) < pos /\ Resolved.resolve doc pos = Err (PositionOutOfRange pos)).
Proof.
  intros Hw. destruct (decide (pos <= f_size (n_content doc))) as [Hle|Hgt].
  - left. split; [done|]. destruct (resolve_spec (schema:=schema) doc pos Hw Hle) as (r & E & [Hp Hpath]).
    exists r. split; [done|]. split; [done|]. by eapply path_pending.
  - right. split; [lia|]. apply resolve_err. lia.
Qed.

Lemma resolve_total_witness :
  exists r, Resolved.resolve ex_doc 6 = Ok r /\ r_pos r = 6 /\ length (r_path r) = 2.
Proof.
  destruct (resolve_total ex_schema ex_doc 6 eq_refl) as [[_ H]|[H _]]; [exact H|vm_compute in H; lia].
Defined.

(** ** Inserting in a slice *)

(** [Slice::insert_at]: when the fragment fits at the position, the new slice is well
    formed and its tokens are the slice's with those of the fragment at the position. *)
Theorem insert_at_splices (schema : Schema) s position fragment s' :
  wf_slice schema s -> wf_fragment schema fragment -> position <= length (slice_toks s) ->
  insert_at schema s position fragment = Ok (Some s') ->
  wf_slice schema s' /\ slice_toks s' = splice position position (toks fragment) (slice_toks s).
Proof. apply (insert_at_spec (schema:=schema)). Qed.

Definition ex_gap : Fragment := Fragment.new [ex_text [strong] [122]%N].
Definition ex_grown : Slice :=
  match insert_at ex_schema ex_slice 1 ex_gap with Ok (Some s) => s | _ => Slice.empty end.

Lemma insert_at_splices_witness :
  slice_toks ex_grown = splice 1 1 (toks ex_gap) (slice_toks ex_slice) /\ length (slice_toks ex_grown) = 5.
Proof.
  split; [|vm_compute; reflexivity].
  refine (proj2 (insert_at_splices ex_schema ex_slice 1 ex_gap ex_grown _ _ _ _));
    [exact ex_slice_wf|split; [reflexivity|repeat constructor]|vm_compute; lia|vm_compute; reflexivity].
Defined.

(** ** Mark sets *)

(** [Mark::add_to_set], which walks the set once and copies it only when it must, is
    the plain definition: a mark that is there, or that a mark excludes which it does not
    exclude itself, leaves the set; else the marks that it excludes go and it goes in
    before the first mark of a later rank. *)
Theorem add_to_set_reference (schema : Schema) m set :
  known schema m -> Forall (known schema) set ->
  Marks.add_to_set schema m set = Ok (add_ref schema m set).
Proof. apply add_to_set_ref. Qed.

Lemma add_to_set_reference_witness : Marks.add_to_set ex_schema strong [em] = Ok [strong; em].
Proof. apply (add_to_set_reference ex_schema strong [em]); [vm_compute; lia|repeat constructor]. Defined.

(** The sets stay sets: adding a mark or taking one out keeps the order of ranks, each
    mark once, and no mark beside one that it excludes. *)
Theorem mark_sets_stay (schema : Schema) m set set' :
  known schema m -> Forall (known schema) set -> ranked set -> apart schema set ->
  set' = Marks.remove_from_set m set \/ Marks.add_to_set schema m set = Ok set' ->
  ranked set' /\ apart schema set'.
Proof.
  intros Hm Hset Hr Ha [->|E].
  - split; [by eapply ranked_sublist, Hr; apply remove_sublist|]. destruct Ha as [Hn Hex]. split.
    + eapply sublist_NoDup; [done|apply remove_sublist].
    + intros a b [Ha _]%(remove_in _ _ _ Hn) [Hb _]%(remove_in _ _ _ Hn). by apply Hex.
  - rewrite add_to_set_ref in E by done. injection E as <-. by split; [apply add_ref_ranked|apply add_ref_apart].
Qed.

Lemma mark_sets_stay_witness : ranked [strong; em] /\ apart ex_schema [strong; em].
Proof.
  apply (mark_sets_stay ex_schema strong [em]); [vm_compute; lia|repeat constructor|repeat constructor| |right; reflexivity].
  split; [apply NoDup_singleton|]. intros a b ->%list_elem_of_singleton ->%list_elem_of_singleton H. by destruct H.
Defined.

(* ------------------------------------------------------------ *)

(** The theorems about [Schema::new]: what it builds, and the content expressions for which
    it does not end or says too much. *)

Open Scope nat_scope.

(** The spec of the schema in [TextExample]. *)
Definition ex_spec : SchemaSpec := MkSchemaSpec [
  MkNodeSpec "doc" (Some "paragraph+") None None false false [];
  MkNodeSpec "paragraph" (Some "inline*") (Some "block") None false false [("align", Object [("default", Null)])];
  MkNodeSpec "text" None (Some "inline") None false false [];
  MkNodeSpec "hard_break" None (Some "inline") None true false []]%string
  [MkMarkSpec "strong" None None []; MkMarkSpec "em" None None []]%string None.

Lemma ex_spec_new : new ex_spec = Ok ex_schema.
Proof. vm_compute. reflexivity. Qed.

(** C39. [Schema::new] ends on every spec whose content expressions are tame: it returns a
    schema or refuses the spec, and never panics.  The schema has a node type and a mark type
    for each spec, in their order and with their names; every id in it is in range: the top
    and the text type, the content rule of each type, the kind and the target of each edge of
    the table, the marks that a type allows and that a mark excludes; and its tables give
    each name the last type that has it, the top name and "text" among them. *)
Theorem new_is_total (spec : SchemaSpec) : tame_spec spec = true ->
  safe (new spec) /\ forall schema, new spec = Ok schema ->
    Schema.wf schema = true /\ ids_in_range schema /\
    nt_name <$> sc_nodes schema = ns_name <$> ss_nodes spec /\ mt_name <$> sc_marks schema = ms_name <$> ss_marks spec /\
    sc_node_ids schema !! default "doc"%string (ss_top_node spec) = Some (sc_top schema) /\
    sc_node_ids schema !! "text"%string = Some (sc_text schema).
Proof. intros Ht. destruct (new_ok spec Ht) as [Hs Hok]. split; [done|]. intros schema []%Hok. done. Qed.

Lemma new_is_total_witness : safe (new ex_spec) /\ Schema.wf ex_schema = true /\ ids_in_range ex_schema.
Proof.
  destruct (new_is_total ex_spec eq_refl) as [Hs Hn]. split; [exact Hs|].
  destruct (Hn ex_schema ex_spec_new) as (Hw & Hr & _). split; [exact Hw|exact Hr].
Defined.

(** The questions that a schema answers with its table are runs of the table. *)
Lemma match_children_run schema : table_in_range (sc_matches schema) -> forall children id,
  id < length (sc_matches schema) -> Schema.match_children schema id children = Ok (run (sc_matches schema) id (n_kind <$> children)).
Proof.
  intros HT. induction children as [|child children IH]; intros id Hid; [done|]. simpl. unfold Schema.match_state.
  destruct (lookup_lt_is_Some_2 _ _ Hid) as [row Hrow]. rewrite Hrow. simpl.
  destruct (Schema.find_edge _ _) as [t|] eqn:Ht; [|done]. apply IH. by eapply table_target.
Qed.

Lemma wf_table schema : Schema.wf schema = true ->
  table_in_range (sc_matches schema) /\ forall id n, sc_nodes schema !! id = Some n -> nt_content_match n < length (sc_matches schema).
Proof.
  unfold Schema.wf. rewrite !andb_true_iff, !forallb_forall. intros [[H1 H2] _]. split.
  - apply Forall_forall. intros row Hin%list_elem_of_In. specialize (H2 row Hin). rewrite forallb_forall in H2.
    apply Forall_forall. intros x Hx%list_elem_of_In. apply Nat.ltb_lt. by apply H2.
  - intros id n Hn. apply Nat.ltb_lt, H1, list_elem_of_In. by eapply list_elem_of_lookup_2.
Qed.

Lemma valid_content_accepts schema id n content : Schema.wf schema = true -> sc_nodes schema !! id = Some n ->
  Schema.valid_content schema id content = Ok true <->
    accepts (sc_matches schema) (nt_content_match n) (n_kind <$> f_content content) /\
    Schema.allows_marks schema id (f_content content) = Ok true.
Proof.
  intros Hwf Hn. destruct (wf_table schema Hwf) as [HT Hin]. unfold Schema.valid_content, Schema.node. rewrite Hn. cbn [or_panic mbind Result_bind].
  unfold Schema.match_fragment. rewrite match_children_run by (done || by eapply Hin). cbn [mbind Result_bind]. unfold accepts.
  destruct (run _ _ _) as [e|] eqn:He; [|split; [done|intros [(? & ? & ? & _) _]; done]].
  pose proof (run_in_range _ HT _ _ _ (Hin id n Hn) He) as Hlt. unfold Schema.match_state.
  destruct (lookup_lt_is_Some_2 _ _ Hlt) as [row Hrow]. rewrite Hrow. cbn [or_panic mbind Result_bind]. split.
  - intros H. destruct (valid_end row) eqn:Hv; [|done]. split; [by exists e, row|done].
  - intros [(e' & row' & [= Heq] & Hrow' & Hv) HA]. subst e'. rewrite Hrow in Hrow'. injection Hrow' as <-. by rewrite Hv.
Qed.

(** C40. The content rule of a schema is the language of its expression.  In a spec whose
    expressions are all tame (what [+], [*] or [{n,}] repeats holds no number of times, and
    [{0,}] does not come), the text of each content expression spells one expression by
    the grammar of [TextGrammar], and no other; and what [Schema::new] parses, puts in an
    automaton and explores into a table of match states accepts the children of a node
    exactly when their kinds are a word of that expression's language and each mark on them
    is allowed. *)
Theorem content_rule_is_language (spec : SchemaSpec) (schema : Schema) id node :
  tame_spec spec = true -> new spec = Ok schema -> ss_nodes spec !! id = Some node ->
  exists rule, (forall rule', spells (sc_nodes schema) (sc_node_ids schema) (default ""%string (ns_content node)) rule' <-> rule' = rule) /\
    forall content, Schema.valid_content schema id content = Ok true <->
      rule_lang rule (n_kind <$> f_content content) /\
      Schema.allows_marks schema id (f_content content) = Ok true.
Proof.
  intros Ht Hnew Hnode. destruct (new_ok spec Ht) as [_ Hok]. destruct (Hok schema Hnew) as [Hwf _ Hlen _ Hshape _ _ _ Hrule].
  assert (Hid : id < length (sc_nodes schema)) by (rewrite Hlen; by eapply lookup_lt_Some).
  destruct (lookup_lt_is_Some_2 _ _ Hid) as [n Hn]. destruct (Hrule id node n Hnode Hn) as (rule & Hr & Hl).
  exists rule. split; [|intros content; by rewrite (valid_content_accepts schema id n), Hl].
  unfold rule_of in Hr. rewrite <- (content_of_same _ _ _ _ Hshape) in Hr.
  intros rule'. rewrite <- content_spells, Hr. split; congruence.
Qed.

(** The rule [paragraph+] of [doc]: one paragraph, or more. *)
Lemma content_rule_is_language_witness :
  (exists n, power (fun w => w = [1]) (S n) [1; 1]) /\
  spells (sc_nodes ex_schema) (sc_node_ids ex_schema) "paragraph+" (Some (Plus (Name 1))) /\
  Schema.valid_content ex_schema 0 (n_content ex_doc) = Ok true.
Proof.
  destruct (content_rule_is_language ex_spec ex_schema 0 (MkNodeSpec "doc" (Some "paragraph+") None None false false [])%string
    eq_refl ex_spec_new eq_refl) as (rule & Hr & H).
  assert (Hs : spells (sc_nodes ex_schema) (sc_node_ids ex_schema) "paragraph+" (Some (Plus (Name 1)))).
  { apply content_spells. vm_compute. reflexivity. }
  apply Hr in Hs as Hs'. rewrite <- Hs' in H. split; [|split; [exact Hs|vm_compute; reflexivity]].
  apply (proj1 (H (n_content ex_doc))). vm_compute. reflexivity.
Defined.

(** ** Expressions that are not tame *)

(** The expression [(a{0,1})*]. *)
Definition ex_loop : Expr := Star (Range 0 (Some 1) (Name 0)).
Definition ex_loop_nfa : Nfa := match Nfa.of_expr ex_loop with Ok nfa => nfa | _ => [] end.

(** Node 1 is scanned anew as long as node 2 is not in the result, and node 2 never is. *)
Lemma scan_loops fuel : forall result, 2 ∉ result -> Nfa.scan fuel ex_loop_nfa 1 result = Panic.
Proof.
  induction fuel as [fuel IH] using lt_wf_ind. intros result Hr. destruct fuel as [|fuel]; [done|].
  cbn [Nfa.scan]. change (ex_loop_nfa !! 1) with (Some [MkEdge None (Some 2); MkEdge (Some 0) (Some 2); MkEdge None (Some 3)]).
  cbn [or_panic mbind Result_bind Nfa.scan_edges]. assert (H2 : 2 ∉ result ++ [1]) by set_solver.
  rewrite bool_decide_eq_false_2 by done. destruct fuel as [|fuel]; [done|].
  change (Nfa.scan (S fuel) ex_loop_nfa 2 (result ++ [1])) with (Nfa.scan fuel ex_loop_nfa 1 (result ++ [1])).
  by rewrite IH by (done || lia).
Qed.

(** [Nfa::scan] does not end on the automaton of [(a{0,1})*]: node 2 is passed over
    without a mark that the scan was there, and it leads back to node 1, so however deep the
    calls may go, none of them returns. *)
Theorem scan_never_ends fuel : Nfa.of_expr ex_loop = Ok ex_loop_nfa /\ Nfa.scan fuel ex_loop_nfa 0 [] = Panic.
Proof.
  split; [reflexivity|]. destruct fuel as [|fuel]; [done|]. change (Nfa.scan fuel ex_loop_nfa 1 [] = Panic).
  apply scan_loops. set_solver.
Qed.

(* ------------------------------------------------------------ *)

(** The theorems about the JSON forms of tree text. *)

Open Scope nat_scope.

Lemma ex_schema_named : named ex_schema.
Proof.
  constructor.
  - intros name id. split.
    + unfold ex_schema. cbn [sc_node_ids]. intros H.
      repeat (apply lookup_insert_Some in H as [[<- <-]|[_ H]]; [eexists; split; reflexivity|]).
      apply lookup_singleton_Some in H as [<- <-]. eexists; split; reflexivity.
    + intros (n & Hn & <-). do 4 (destruct id as [|id]; [injection Hn as <-; reflexivity|]). done.
  - intros name id. split.
    + unfold ex_schema. cbn [sc_mark_ids]. intros H.
      repeat (apply lookup_insert_Some in H as [[<- <-]|[_ H]]; [eexists; split; reflexivity|]).
      apply lookup_singleton_Some in H as [<- <-]. eexists; split; reflexivity.
    + intros (n & Hn & <-). do 2 (destruct id as [|id]; [injection Hn as <-; reflexivity|]). done.
  - eexists. split; reflexivity.
Qed.

(** C20. A step that is written to JSON and read is the same step: [Step::to_json] and then
    [Step::from_json], for every step whose marks and content are what JSON can hold (whole
    attributes, text without a half of a pair, sorted marks, joined text, 128 levels at
    most) and whose slice, if it adds nothing, is the empty one. *)
Theorem step_json_round_trip (schema : Schema) (s : Step.t) :
  named schema -> portable_step schema s = true ->
  exists j, step_to_json schema s = Ok j /\ step_from_json schema j = Ok s.
Proof. intros Hn. by apply step_back. Qed.

Lemma step_json_round_trip_witness :
  exists j, step_to_json ex_schema (Step.Replace 1 4 ex_slice true) = Ok j /\
    step_from_json ex_schema j = Ok (Step.Replace 1 4 ex_slice true).
Proof. apply (step_json_round_trip ex_schema); [exact ex_schema_named|vm_compute; reflexivity]. Defined.

(** C21. [Step::from_json] and [Node::from_json] never panic, whatever the JSON, and a node
    that is read is well formed: its kinds are in the schema, its sizes are true, and no
    text is empty. *)
Theorem json_reads_well_formed (schema : Schema) (json : Value) : named schema ->
  safe (step_from_json schema json) /\ safe (node_from_json schema json) /\
  forall n, node_from_json schema json = Ok n -> wf_node schema n = true.
Proof.
  intros Hn. split; [by apply step_read_safe|]. split; [by apply node_read_safe|]. intros n. by apply node_read_wf.
Qed.

Definition ex_json : Value := match node_to_json ex_schema ex_doc with Ok j => j | _ => Null end.

Lemma json_reads_well_formed_witness : wf_node ex_schema ex_doc = true.
Proof.
  apply (proj2 (proj2 (json_reads_well_formed ex_schema ex_json ex_schema_named))). vm_compute. reflexivity.
Defined.

(** A tree that was read from JSON can be written, and reading that gives the same
    tree: reading settles a document in one pass. *)
Theorem read_tree_is_stable (schema : Schema) (json : Value) (n : Node) :
  named schema -> tidy schema = true -> utf8 json = true -> node_from_json schema json = Ok n ->
  exists j, node_to_json schema n = Ok j /\ node_from_json schema j = Ok n.
Proof.
  intros Hn Ht Hu Hr. apply (node_back schema Hn (S MOST_DEPTH)). by eapply node_read_portable.
Qed.

(** Two texts that join, in a paragraph without its attribute. *)
Definition ex_loose_json : Value :=
  Object [("content", Array [Object [("text", Str "a"); ("type", Str "text")]; Object [("text", Str "b"); ("type", Str "text")]]);
          ("type", Str "paragraph")]%string.

Lemma read_tree_is_stable_witness :
  exists j, node_to_json ex_schema (ex_paragraph [ex_text [] [97; 98]%N]) = Ok j /\
    node_from_json ex_schema j = Ok (ex_paragraph [ex_text [] [97; 98]%N]).
Proof.
  apply (read_tree_is_stable ex_schema ex_loose_json); [exact ex_schema_named|vm_compute; reflexivity..].
Defined.
