(* ===== verification/Contract.v ===== *)
(** [documents/crates/document/src/contract.rs]: the messages of a document and its
    clients, and the frames that carry them.

    [serde_json] and [flate2] are parameters: what the code relies on is that a message
    reads back from its own text, and that a stream that [GzEncoder] finished gives back
    its bytes. *)

From S2P Require Import Prelude Json.

Definition CONTRACT : N := 2.
Definition JSON_FRAME : Byte.byte := Byte.x00.
Definition GZIP_FRAME : Byte.byte := Byte.x01.
Definition ASSET_FRAME : Byte.byte := Byte.x02.
Definition HASH_BYTES : nat := 32.
Definition GZIP_FROM : N := 16384.
Definition MOST_UNPACKED : N := 268435456.

Abbreviation Rev := N (only parsing).
Abbreviation Seq := N (only parsing).
Abbreviation Hash := bytes (only parsing).

(** ** Messages *)

Record Viewer : Type := MkViewer { v_id : string; v_name : string; v_can_edit : bool }.

Inductive ToDocument : Type :=
| Join (contract : N) (client : string) (epoch : N) (rev : Rev)
| Change (seq : Seq) (base : Rev) (body : Value)
| Place (rev : Rev) (body : Value)
| Query (id : N) (body : Value)
| People (id : N).

Record Changed : Type := MkChanged {
  c_rev : Rev; c_author : string; c_client : string; c_seq : Seq; c_body : Value
}.

Record Peer : Type := MkPeer { p_id : string; p_person : string; p_name : string; p_place : Value }.

Inductive Catchup : Type :=
| Snapshot (snapshot : Value)
| Missed (changes : list Changed).

Inductive RefusedReason : Type := RefusedBehind | RefusedInvalid.
Inductive ClosedReason : Type := ClosedContract | ClosedRemoved | ClosedFailed.

Inductive ToClient : Type :=
| ToJoined (id name : string) (can_edit : bool) (epoch : N) (rev : Rev) (seq : Seq)
    (peers : list Peer) (catchup : Catchup)
| ToChanged (changed : Changed)
| ToRefused (seq : Seq) (reason : RefusedReason) (detail : option string)
| ToAnswer (id : N) (rev : Rev) (body : Value)
| ToSaved (rev : Rev) (waits : bool)
| ToPeer (peer : Peer)
| ToLeft (id : string)
| ToClosed (reason : ClosedReason).

Inductive Frame (T : Type) : Type :=
| Message (message : T)
| Asset (hash : Hash) (data : bytes).
Arguments Message {T} message.
Arguments Asset {T} hash data.

(** [BadFrame] is the one error of [decode]. *)
Inductive BadFrame : Type := MkBadFrame.

(** ** The libraries *)

(** [gzip] is what a [GzEncoder] writes for some bytes, when it finishes.  [inflate] is
    all that a [GzDecoder] gives, and whether it ends without an error. *)
Class Gzip : Type := {
  gzip : bytes -> option bytes;
  inflate : bytes -> bytes * bool
}.

Class GzipLaws `{Gzip} : Prop :=
  inflate_gzip : forall data packed, gzip data = Some packed -> inflate packed = (data, true).

Section frames.
Context `{Gzip}.

Section of_type.
Context {T : Type} `{Serde T}.

(** [to_vec(message).unwrap_or_default()]. *)
Definition text_of (message : T) : bytes := default [] (to_vec message).

Definition encode_message (message : T) : bytes :=
let json := text_of message in
match (if (GZIP_FROM <=? len json)%N then gzip json else None) with
| Some packed => GZIP_FRAME :: packed
| None => JSON_FRAME :: json
end.

(** [GzDecoder::new(body).take(MOST_UNPACKED).read_to_end]: past the limit the
decoder is not asked again. *)
Definition read_packed (body : bytes) : option bytes :=
let '(data, ended) := inflate body in
if (MOST_UNPACKED <=? len data)%N then Some (take (N.to_nat MOST_UNPACKED) data)
else if (ended : bool) then Some data else None.

Definition decode (frame : bytes) : Result BadFrame (Frame T) :=
match frame with
| [] => Err MkBadFrame
| kind :: body =>
if decide (kind = JSON_FRAME) then Message <$> ok_or MkBadFrame (from_slice body)
else if decide (kind = GZIP_FRAME) then
json ← ok_or MkBadFrame (read_packed body);
Message <$> ok_or MkBadFrame (from_slice json)
else if decide (kind = ASSET_FRAME) then
'(hash, data) ← ok_or MkBadFrame (split_at HASH_BYTES body);
Ok (Asset hash data)
else Err MkBadFrame
end.
End of_type.

Definition encode_asset (hash : Hash) (data : bytes) : bytes := ASSET_FRAME :: hash ++ data.

Context {T : Type} `{Serde T}.

Lemma decode_asset hash data :
length hash = HASH_BYTES -> decode (T:=T) (encode_asset hash data) = Ok (Asset hash data).
Proof. intros Hl. unfold decode, encode_asset. simpl. by rewrite split_at_app by done. Qed.

Lemma decode_message_ok `{!SerdeLaws T, !GzipLaws} (message : T) text :
to_vec message = Some text -> (len text < MOST_UNPACKED)%N ->
decode (encode_message message) = Ok (Message message).
Proof.
intros Ht Hlen. unfold encode_message, text_of. rewrite Ht. simpl.
assert (Hplain : decode (JSON_FRAME :: text) = Ok (Message message)).
{ simpl. by rewrite (from_to _ _ Ht). }
destruct (_ <=? _)%N; [|done]. destruct (gzip text) as [packed|] eqn:Eg; [|done].
cbn -[read_packed]. unfold read_packed. rewrite (inflate_gzip _ _ Eg).
rewrite (proj2 (N.leb_gt _ _) Hlen). cbn [ok_or mbind Result_bind]. by rewrite (from_to _ _ Ht).
Qed.

(** No frame panics, and only frames of the three kinds are read. *)
Lemma decode_kinds frame (f : Frame T) :
decode frame = Ok f ->
exists kind body, frame = kind :: body /\
match f with
| Message message =>
kind = JSON_FRAME /\ from_slice body = Some message \/
kind = GZIP_FRAME /\ exists json, read_packed body = Some json /\ from_slice json = Some message
| Asset hash data => kind = ASSET_FRAME /\ length hash = HASH_BYTES /\ body = hash ++ data
end.
Proof.
destruct frame as [|kind body]; [done|]. intros E. exists kind, body. split; [done|]. simpl in E.
destruct (decide (kind = JSON_FRAME)).
{ apply fmap_ok in E as (m & E & <-). apply ok_or_ok in E. by left. }
destruct (decide (kind = GZIP_FRAME)).
{ apply bind_ok in E as (json & Ej & E). apply fmap_ok in E as (m & E & <-). apply ok_or_ok in E, Ej.
right. eauto. }
destruct (decide (kind = ASSET_FRAME)); [|done].
apply bind_ok in E as ([hash data] & Es & E). apply ok_or_ok in Es. injection E as <-. split; [done|].
unfold split_at in Es. destruct (Nat.leb_spec HASH_BYTES (length body)); [|done]. injection Es as <- <-.
rewrite length_take. split; [lia|]. by rewrite take_drop.
Qed.

Lemma read_packed_bound body json : read_packed body = Some json -> (len json <= MOST_UNPACKED)%N.
Proof.
unfold read_packed, len. generalize MOST_UNPACKED as most; intros most. destruct (inflate body) as [data ended].
destruct (N.leb_spec most (N.of_nat (length data))).
- intros E. injection E as <-. rewrite length_take. lia.
- destruct ended; [|done]. intros E. injection E as <-. lia.
Qed.
End frames.
