(* ===== verification/BTree.v ===== *)
(** [BTreeMap] with number keys: the entries in the order of their keys. *)

From S2P Require Import Prelude.

Module BTree.
Abbreviation t V := (list (N * V)).

Section ops.
Context {V : Type}.

Fixpoint get (key : N) (m : t V) : option V :=
match m with
| [] => None
| (k, v) :: m => if decide (k = key) then Some v else get key m
end.

Fixpoint insert (key : N) (value : V) (m : t V) : t V :=
match m with
| [] => [(key, value)]
| (k, v) :: m' =>
if (key <? k)%N then (key, value) :: m
else if (key =? k)%N then (key, value) :: m'
else (k, v) :: insert key value m'
end.

Definition remove (key : N) (m : t V) : t V := filter (fun e => e.1 <> key) m.

(** [get_mut] of a key that is there, and [values_mut]. *)
Definition alter (f : V -> V) (key : N) (m : t V) : t V :=
(fun e => if decide (e.1 = key) then (e.1, f e.2) else e) <$> m.
Definition map_values (f : V -> V) (m : t V) : t V := (fun e => (e.1, f e.2)) <$> m.

Definition keys (m : t V) : list N := m.*1.
Definition values (m : t V) : list V := m.*2.

(** The keys increase. *)
Fixpoint sorted (low : option N) (m : t V) : bool :=
match m with
| [] => true
| (k, _) :: m => match low with Some l => (l <? k)%N | None => true end && sorted (Some k) m
end.

Lemma get_insert key v m : get key (insert key v m) = Some v.
Proof.
induction m as [|[k w] m IH]; simpl; [by rewrite decide_True|].
destruct (N.ltb_spec key k); simpl; [by rewrite decide_True|].
destruct (N.eqb_spec key k); simpl; [by rewrite decide_True|]. by rewrite decide_False.
Qed.

Lemma get_insert_ne key key' v m : key <> key' -> get key' (insert key v m) = get key' m.
Proof.
intros Hne. induction m as [|[k w] m IH]; simpl; [by rewrite decide_False|].
destruct (N.ltb_spec key k); simpl; [by rewrite decide_False|].
destruct (N.eqb_spec key k) as [->|]; simpl; [by rewrite !decide_False|]. by rewrite IH.
Qed.

Lemma elem_insert key v m e : e ∈ insert key v m -> e = (key, v) \/ e ∈ m.
Proof.
induction m as [|[k w] m IH]; simpl; [set_solver|].
destruct (_ <? _)%N; [set_solver|]. destruct (_ =? _)%N; set_solver.
Qed.

Lemma sorted_insert low key v m :
match low with Some l => (l < key)%N | None => True end ->
sorted low m = true -> sorted low (insert key v m) = true.
Proof.
revert low. induction m as [|[k w] m IH]; intros low Hl; simpl.
- destruct low; [|done]. by rewrite (proj2 (N.ltb_lt _ _)).
- intros [Hk Hm]%andb_true_iff. destruct (N.ltb_spec key k); simpl.
+ rewrite Hm, (proj2 (N.ltb_lt key k)) by done. destruct low; [|done]. by rewrite (proj2 (N.ltb_lt _ _)).
+ destruct (N.eqb_spec key k) as [->|]; simpl; [by rewrite Hk, Hm|]. rewrite Hk. apply IH; [lia|done].
Qed.

Lemma sorted_weaken low low' m :
match low, low' with Some l, Some l' => (l' <= l)%N | _, None => True | None, Some _ => False end ->
sorted low m = true -> sorted low' m = true.
Proof.
destruct m as [|[k w] m]; [done|]. simpl. intros H [Hk Hm]%andb_true_iff. rewrite Hm.
destruct low, low'; try done. apply N.ltb_lt in Hk. by rewrite (proj2 (N.ltb_lt _ _)) by lia.
Qed.

Lemma sorted_filter (P : N * V -> Prop) `{forall e, Decision (P e)} low m :
sorted low m = true -> sorted low (filter P m) = true.
Proof.
revert low. induction m as [|[k w] m IH]; intros low; [done|]. intros [Hk Hm]%andb_true_iff.
rewrite filter_cons. destruct (decide _).
- simpl. by rewrite Hk, IH.
- apply IH. eapply sorted_weaken; [|exact Hm]. destruct low; [|done]. apply N.ltb_lt in Hk. lia.
Qed.

Lemma sorted_keys low (f : N * V -> N * V) m : (forall e, (f e).1 = e.1) -> sorted low (f <$> m) = sorted low m.
Proof.
intros Hf. revert low. induction m as [|[k w] m IH]; intros low; [done|]. simpl.
pose proof (Hf (k, w)) as Hk. destruct (f (k, w)) as [k' w']. simpl in Hk. subst k'. by rewrite IH.
Qed.

Lemma get_elem key v m : get key m = Some v -> (key, v) ∈ m.
Proof.
induction m as [|[k w] m IH]; simpl; [done|]. destruct (decide (k = key)) as [->|].
- intros [= ->]. by left.
- intros H. right. auto.
Qed.

Lemma sorted_low l m k v : sorted (Some l) m = true -> (k, v) ∈ m -> (l < k)%N.
Proof.
revert l. induction m as [|[k' w] m IH]; intros l; [by intros _ ?%elem_of_nil|].
simpl. intros [Hk%N.ltb_lt Hm]%andb_true_iff [[= -> ->]|Hin]%elem_of_cons; [done|].
specialize (IH _ Hm Hin). lia.
Qed.

Lemma elem_get low key v m : sorted low m = true -> (key, v) ∈ m -> get key m = Some v.
Proof.
revert low. induction m as [|[k w] m IH]; intros low; [by intros _ ?%elem_of_nil|].
simpl. intros [Hk Hm]%andb_true_iff [[= -> ->]|Hin]%elem_of_cons; [by rewrite decide_True|].
rewrite decide_False; [eauto|]. intros ->. pose proof (sorted_low _ _ _ _ Hm Hin). lia.
Qed.

Lemma get_remove key m : get key (remove key m) = None.
Proof.
unfold remove. induction m as [|[k w] m IH]; [done|]. rewrite filter_cons. destruct (decide _) as [H|]; [|done].
simpl in *. by rewrite decide_False.
Qed.

Lemma get_remove_ne key key' m : key <> key' -> get key' (remove key m) = get key' m.
Proof.
intros Hne. unfold remove. induction m as [|[k w] m IH]; [done|]. rewrite filter_cons. simpl.
destruct (decide (k <> key)) as [Hk|Hk]; simpl; [by rewrite IH|].
destruct (decide (k = key')); [|exact IH]. destruct Hk. congruence.
Qed.

Lemma get_remove_all keys key m :
get key (foldl (fun m key => remove key m) m keys) = if decide (key ∈ keys) then None else get key m.
Proof.
revert m. induction keys as [|k keys IH]; intros m; simpl; [done|].
rewrite IH. destruct (decide (k = key)) as [->|Hne].
- rewrite get_remove, (decide_True (P := key ∈ key :: keys)) by set_solver. by destruct (decide _).
- rewrite get_remove_ne by done. by apply decide_ext; set_solver.
Qed.

Lemma sorted_remove_all keys m low :
sorted low m = true -> sorted low (foldl (fun m key => remove key m) m keys) = true.
Proof. revert m. induction keys as [|k keys IH]; intros m Hm; [done|]. apply IH. by apply sorted_filter. Qed.

Lemma get_alter f key m : get key (alter f key m) = f <$> get key m.
Proof.
unfold alter. induction m as [|[k w] m IH]; [done|]. simpl. destruct (decide (k = key)); simpl.
- by rewrite decide_True.
- by rewrite decide_False.
Qed.

Lemma get_alter_ne f key key' m : key <> key' -> get key' (alter f key m) = get key' m.
Proof.
intros Hne. induction m as [|[k w] m IH]; [done|]. unfold alter in *. rewrite fmap_cons. cbn [fst snd].
destruct (decide (k = key)) as [->|]; cbn [get]; rewrite IH; [by rewrite !(decide_False (P := key = key'))|done].
Qed.

Lemma get_map_values f key m : get key (map_values f m) = f <$> get key m.
Proof.
unfold map_values. induction m as [|[k w] m IH]; [done|]. simpl. by destruct (decide (k = key)).
Qed.
End ops.
End BTree.
