(* ===== verification/Format.v ===== *)
(** [documents/crates/document/src/format.rs]: what a document asks of a kind of file.

    The trait [Format] is a class, and [FormatLaws] says what the document relies on.
    Each format of the repository implements the trait on its own model. *)

From S2P Require Import Prelude Json Contract.

(** SHA-256 is a parameter. *)
Class Digest : Type := sha256 : bytes -> Hash.

(** ** Assets *)
Record Assets : Type := MkAssets { held : gmap (list Byte.byte) bytes }.

Module AssetOps.
Definition empty : Assets := MkAssets ∅.

(** [entry(hash).or_insert_with(..)]. *)
Definition or_insert (hash : Hash) (data : bytes) (a : Assets) : Assets :=
match held a !! hash with
| Some _ => a
| None => MkAssets (<[hash := data]> (held a))
end.

Section digest.
Context `{Digest}.

Definition put (data : bytes) (a : Assets) : Assets * Hash :=
let hash := sha256 data in (or_insert hash data a, hash).

Definition take (hash : Hash) (data : bytes) (a : Assets) : Assets * bool :=
if decide (sha256 data = hash) then (or_insert hash data a, true) else (a, false).
End digest.

Definition get (hash : Hash) (a : Assets) : option bytes := held a !! hash.
Definition size (a : Assets) : N := map_fold (fun _ data n => len data + n)%N 0%N (held a).

(** Each asset is under the hash of its bytes. *)
Definition named `{Digest} (a : Assets) : Prop :=
map_Forall (fun hash data => sha256 data = hash) (held a).

Lemma or_insert_named `{Digest} data a : named a -> named (or_insert (sha256 data) data a).
Proof.
intros Hn. unfold or_insert. destruct (held a !! sha256 data); [done|]. by apply map_Forall_insert_2.
Qed.

Lemma put_named `{Digest} data a : named a -> named (put data a).1.
Proof. apply or_insert_named. Qed.

Lemma take_named `{Digest} hash data a : named a -> named (take hash data a).1.
Proof. intros Hn. unfold take. destruct (decide _) as [<-|]; [by apply or_insert_named|done]. Qed.

Lemma size_insert hash data m : m !! hash = None ->
size (MkAssets (<[hash := data]> m)) = (len data + size (MkAssets m))%N.
Proof.
intros Hm. unfold size. simpl. rewrite map_fold_insert_L; [done| |done]. intros. lia.
Qed.
End AssetOps.

(** ** The trait *)

Record Ordered (C : Type) : Type := MkOrdered {
  o_rev : Rev; o_author : string; o_client : string; o_seq : Seq; o_change : C
}.
Arguments MkOrdered {C}. Arguments o_rev {C}. Arguments o_author {C}.
Arguments o_client {C}. Arguments o_seq {C}. Arguments o_change {C}.

Inductive Refused : Type := Behind (detail : string) | Invalid (detail : string).

(** [apply] takes its model and assets by [&mut]: it gives them back in each case.
    [C] is read from JSON and put in JSON, and [Q] is read from JSON. *)
Class Format (M C Q : Type) : Type := {
  f_read : bytes -> Assets -> option (M * Assets);
  f_snapshot : M -> Value;
  f_apply : M -> C -> list (Ordered C) -> Assets -> M * Assets * (C + Refused);
  f_compare : M -> M -> list C;
  f_write : M -> bytes -> Assets -> option bytes;
  f_query : M -> Q -> Value;
  f_seals : C -> bool;
  f_map_place : Value -> C -> Value;
  f_describe_place : M -> Value -> Value;
  change_from_value : Value -> C + string;
  change_to_value : C -> option Value;
  query_from_value : Value -> option Q
}.

(** What a document relies on:
    - a refused change leaves the model as it was;
    - a change that went in the order, as views see it, makes the same model again when
      it is applied to the same model with nothing after its base;
    - such a change reads back from its JSON;
    - the model that a file reads as does not depend on the assets that are held. *)
Class FormatLaws (M C Q : Type) `{Format M C Q} : Prop := {
  refused_keeps : forall m c since a m' a' r, f_apply m c since a = (m', a', inr r) -> m' = m;
  replays : forall m c since a m' a' c', f_apply m c since a = (m', a', inl c') ->
    forall a2, exists a2', f_apply m c' [] a2 = (m', a2', inl c');
  change_reads : forall m c since a m' a' c', f_apply m c since a = (m', a', inl c') ->
    exists v, change_to_value c' = Some v /\ change_from_value v = inl c';
  read_same : forall file a m a', f_read file a = Some (m, a') ->
    forall a2, exists a2', f_read file a2 = Some (m, a2')
}.
