(* ===== verification/Live.v ===== *)
(** [documents/crates/document/src/live.rs]: one file while someone has it open.

    A document takes an input and gives effects; [step] is the whole state machine.
    The host's part, that runs the effects, is in [Task]. *)

From S2P Require Import Prelude Json Contract BTree Format.

Definition MOST_ASSET_BYTES : N := 134217728.
Definition MOST_SAVED_STATES : nat := 32.

Abbreviation PipeId := N (only parsing).

Inductive Input : Type :=
| Connected (pipe : PipeId) (viewer : Viewer)
| InMessage (pipe : PipeId) (frame : bytes)
| Left (pipe : PipeId)
| FileChanged (file : bytes) (writer : string)
| Save (file : bytes)
| Saved (rev : Rev)
| SaveWaits
| Rebased (file : bytes) (epoch : N)
| Closing (reason : ClosedReason).

Inductive Effect : Type :=
| Send (to : list PipeId) (frame : bytes) (catchup : bool)
| Drop (pipe : PipeId)
| Append (record : bytes)
| KeepAsset (hash : Hash)
| Unsaved
| FileTaken
| Write (rev : Rev) (file : bytes)
| Seal.

Record Restored : Type := MkRestored {
  r_epoch : N; r_first_rev : Rev; r_seqs : gmap string Seq; r_saved : list Rev
}.

Record Seat : Type := MkSeat { s_viewer : Viewer; s_client : option string; s_place : Value }.

Definition seat_at (place : Value) (s : Seat) : Seat := MkSeat (s_viewer s) (s_client s) place.

Section document.
Context {M C Q : Type} `{Format M C Q, Digest, Gzip, Serde ToDocument, Serde ToClient, Serde Changed}.

Record Document : Type := MkDocument {
d_model : M; d_assets : Assets; d_original : bytes; d_epoch : N;
d_first_rev : Rev; d_rev : Rev; d_log : list (Ordered C); d_seqs : gmap string Seq;
d_seats : BTree.t Seat; d_saved_rev : Rev; d_saved_states : list Rev; d_waits : bool
}.

(** Assignments to fields. *)
Definition with_model (d : Document) model assets : Document :=
MkDocument model assets (d_original d) (d_epoch d) (d_first_rev d) (d_rev d) (d_log d) (d_seqs d)
(d_seats d) (d_saved_rev d) (d_saved_states d) (d_waits d).
Definition with_order (d : Document) rev log : Document :=
MkDocument (d_model d) (d_assets d) (d_original d) (d_epoch d) (d_first_rev d) rev log (d_seqs d)
(d_seats d) (d_saved_rev d) (d_saved_states d) (d_waits d).
Definition with_seqs (d : Document) seqs : Document :=
MkDocument (d_model d) (d_assets d) (d_original d) (d_epoch d) (d_first_rev d) (d_rev d) (d_log d) seqs
(d_seats d) (d_saved_rev d) (d_saved_states d) (d_waits d).
Definition with_seats (d : Document) seats : Document :=
MkDocument (d_model d) (d_assets d) (d_original d) (d_epoch d) (d_first_rev d) (d_rev d) (d_log d) (d_seqs d)
seats (d_saved_rev d) (d_saved_states d) (d_waits d).
Definition with_saved (d : Document) saved_rev saved_states waits : Document :=
MkDocument (d_model d) (d_assets d) (d_original d) (d_epoch d) (d_first_rev d) (d_rev d) (d_log d) (d_seqs d)
(d_seats d) saved_rev saved_states waits.

(** ** Opening *)

Definition open (file : bytes) (epoch : N) (assets : Assets) : option Document :=
'(model, assets) ← f_read file assets;
Some (MkDocument model assets file epoch 0 0 [] ∅ [] 0 [0%N] false).

Definition replay (d : Document) (changed : Changed) : option Document :=
match change_from_value (c_body changed) with
| inr _ => None
| inl change =>
let '(model, assets, result) := f_apply (d_model d) change [] (d_assets d) in
match result with
| inr _ => None
| inl change =>
let d := with_model d model assets in
let seqs := if (0 <? c_seq changed)%N
then <[c_client changed := c_seq changed]> (d_seqs d) else d_seqs d in
let ordered := MkOrdered (c_rev changed) (c_author changed) (c_client changed) (c_seq changed) change in
Some (with_order (with_seqs d seqs) (c_rev changed) (d_log d ++ [ordered]))
end
end.

Fixpoint replay_all (d : Document) (records : list bytes) : option Document :=
match records with
| [] => Some d
| record :: records =>
changed ← from_slice record;
d ← replay d changed;
replay_all d records
end.

Definition restore (original : bytes) (restored : Restored) (records : list bytes) (assets : Assets) :
option Document :=
d ← open original (r_epoch restored) assets;
let saved_rev := default (r_first_rev restored) (last (r_saved restored)) in
let d := with_saved d saved_rev (r_first_rev restored :: r_saved restored) (d_waits d) in
let d := MkDocument (d_model d) (d_assets d) (d_original d) (d_epoch d) (r_first_rev restored)
(r_first_rev restored) (d_log d) (r_seqs restored) (d_seats d) (d_saved_rev d) (d_saved_states d) (d_waits d) in
replay_all d records.

(** ** Small parts *)

Definition send_to (to : list PipeId) (message : ToClient) : Effect :=
Send to (encode_message message) false.

Definition refuse (pipe : PipeId) (seq : Seq) (reason : RefusedReason) (detail : option string) : Effect :=
send_to [pipe] (ToRefused seq reason detail).

Definition changed_of (o : Ordered C) : Changed :=
MkChanged (o_rev o) (o_author o) (o_client o) (o_seq o) (default Null (change_to_value (o_change o))).

(** [self.log.get(skip..)], after a [checked_sub]. *)
Definition log_since (d : Document) (rev : Rev) : option (list (Ordered C)) :=
if (rev <? d_first_rev d)%N then None
else
let skip := N.to_nat (rev - d_first_rev d) in
if skip <=? length (d_log d) then Some (drop skip (d_log d)) else None.

Definition peer_of (s : Seat) : option Peer :=
id ← s_client s; Some (MkPeer id (v_id (s_viewer s)) (v_name (s_viewer s)) (s_place s)).
Definition peers (d : Document) : list Peer := omap peer_of (BTree.values (d_seats d)).

Definition has_client (s : Seat) : bool := match s_client s with Some _ => true | None => false end.
Definition joined_pipes (d : Document) : list PipeId :=
BTree.keys (filter (fun e => has_client e.2 = true) (d_seats d)).
Definition others (d : Document) (pipe : PipeId) : list PipeId :=
filter (fun other => other <> pipe) (joined_pipes d).

Definition catchup (d : Document) (epoch : N) (rev : Rev) : Catchup :=
match (if (epoch =? d_epoch d)%N && (0 <? rev)%N then log_since d rev else None) with
| None => Snapshot (f_snapshot (d_model d))
| Some missed => Missed (changed_of <$> missed)
end.

(** ** The messages of a client *)

Definition asset_frame (d : Document) (pipe : PipeId) (hash : Hash) (data : bytes) : Document * list Effect :=
match data with
| [] =>
(d, match AssetOps.get hash (d_assets d) with
| None => []
| Some asset => [Send [pipe] (encode_asset hash asset) true]
end)
| _ =>
if (MOST_ASSET_BYTES <? AssetOps.size (d_assets d) + len data)%N then (d, [Drop pipe])
else
let '(assets, fits) := AssetOps.take hash data (d_assets d) in
let d := with_model d (d_model d) assets in
if (fits : bool) then (d, [KeepAsset hash]) else (d, [Drop pipe])
end.

Definition join (d : Document) (pipe : PipeId) (contract_number : N) (client : string) (epoch : N) (rev : Rev) :
Document * list Effect :=
if negb (contract_number =? CONTRACT)%N
then (d, [send_to [pipe] (ToClosed ClosedContract); Drop pipe])
else
let replaced := BTree.keys (filter (fun e => s_client e.2 = Some client) (d_seats d)) in
let d := with_seats d (foldl (fun seats pipe => BTree.remove pipe seats) (d_seats d) replaced) in
let effects := Drop <$> replaced in
let missed := catchup d epoch rev in
let here := peers d in
match BTree.get pipe (d_seats d) with
| None => (d, effects)
| Some seat =>
let d := with_seats d
(BTree.alter (fun s => MkSeat (s_viewer s) (Some client) (s_place s)) pipe (d_seats d)) in
let joined := ToJoined client (v_name (s_viewer seat)) (v_can_edit (s_viewer seat)) (d_epoch d) (d_rev d)
(default 0%N (d_seqs d !! client)) here missed in
let peer := ToPeer (MkPeer client (v_id (s_viewer seat)) (v_name (s_viewer seat)) Null) in
(d, effects ++ [Send [pipe] (encode_message joined) true; send_to (others d pipe) peer])
end.

(** Puts a change in the order. *)
Definition ordered (d : Document) (change : C) (author client : string) (seq : Seq) : Document * list Effect :=
let rev := (d_rev d + 1)%N in
let d := with_seats d
(BTree.map_values (fun s => seat_at (f_map_place (s_place s) change) s) (d_seats d)) in
let o := MkOrdered rev author client seq change in
let changed := changed_of o in
let d := with_order d rev (d_log d ++ [o]) in
(d, [Append (text_of changed); send_to (joined_pipes d) (ToChanged changed); Unsaved] ++
(if f_seals change then [Seal] else [])).

Definition change (d : Document) (pipe : PipeId) (seq : Seq) (base : Rev) (body : Value) :
Document * list Effect :=
match BTree.get pipe (d_seats d) with
| None => (d, [])
| Some seat =>
match s_client seat with
| None => (d, [])
| Some client =>
if negb (v_can_edit (s_viewer seat))
then (d, [refuse pipe seq RefusedInvalid (Some "This person can only read the file."%string)])
else if (seq <=? default 0%N (d_seqs d !! client))%N then (d, [])
else
match change_from_value body with
| inr error =>
(d, [refuse pipe seq RefusedInvalid (Some ("The change is not valid: " +:+ error +:+ "."))])
| inl c =>
if (d_rev d <? base)%N then
(d, [refuse pipe seq RefusedInvalid (Some ("The file opened again since rev " +:+ pretty base +:+
" and is at rev " +:+ pretty (d_rev d) +:+ " now. Read again."))])
else
match log_since d base with
| None =>
(d, [refuse pipe seq RefusedBehind
(Some ("The changes since rev " +:+ pretty base +:+ " are gone. Read again."))])
| Some since =>
let '(model, assets, result) := f_apply (d_model d) c since (d_assets d) in
let d := with_model d model assets in
match result with
| inl c =>
ordered (with_seqs d (<[client := seq]> (d_seqs d))) c (v_name (s_viewer seat)) client seq
| inr (Behind detail) => (d, [refuse pipe seq RefusedBehind (Some detail)])
| inr (Invalid detail) => (d, [refuse pipe seq RefusedInvalid (Some detail)])
end
end
end
end
end.

Definition map_places (body : Value) (since : list (Ordered C)) : Value :=
foldl (fun body o => f_map_place body (o_change o)) body since.

Definition place (d : Document) (pipe : PipeId) (rev : Rev) (body : Value) : Document * list Effect :=
match log_since d rev with
| None => (d, [])
| Some since =>
let body := map_places body since in
let others := others d pipe in
match BTree.get pipe (d_seats d) with
| None => (d, [])
| Some seat =>
let d := with_seats d (BTree.alter (seat_at body) pipe (d_seats d)) in
match s_client seat with
| None => (d, [])
| Some id =>
(d, [send_to others (ToPeer (MkPeer id (v_id (s_viewer seat)) (v_name (s_viewer seat)) body))])
end
end
end.

Definition people (d : Document) (pipe : PipeId) (id : N) : list Effect :=
let here := filter (fun e => e.1 <> pipe /\ has_client e.2 = true) (d_seats d) in
let people := (fun e => Object (Map.insert "name" (Str (v_name (s_viewer e.2)))
(Map.insert "place" (f_describe_place (d_model d) (s_place e.2)) []))) <$> here in
[send_to [pipe] (ToAnswer id (d_rev d) (Array people))].

Definition query (d : Document) (pipe : PipeId) (id : N) (body : Value) : list Effect :=
match query_from_value body with
| None => [Drop pipe]
| Some q => [send_to [pipe] (ToAnswer id (d_rev d) (f_query (d_model d) q))]
end.

Definition message (d : Document) (pipe : PipeId) (frame : bytes) : Document * list Effect :=
match decode (T:=ToDocument) frame with
| Ok (Asset hash data) => asset_frame d pipe hash data
| Ok (Message message) =>
let joined := match BTree.get pipe (d_seats d) with Some seat => has_client seat | None => false end in
match message, joined with
| Join contract client epoch rev, false => join d pipe contract client epoch rev
| Change seq base body, true => change d pipe seq base body
| Place rev body, true => place d pipe rev body
| Query id body, true => (d, query d pipe id body)
| People id, true => (d, people d pipe id)
| _, _ => (d, [Drop pipe])
end
| _ => (d, [Drop pipe])
end.

Definition left (d : Document) (pipe : PipeId) : Document * list Effect :=
let gone := BTree.get pipe (d_seats d) in
let d := with_seats d (BTree.remove pipe (d_seats d)) in
(d, match gone ≫= s_client with
| None => []
| Some id => [send_to (joined_pipes d) (ToLeft id)]
end).

(** ** Writes of another program *)

(** The inner loop of [nearest_changes]: the state at a saved rev. *)
Fixpoint advance (log : list (Ordered C)) (applied : Rev) (state : M) (assets : Assets) (saved : Rev) :
option (list (Ordered C) * Rev * M * Assets) :=
if (applied <? saved)%N then
match log with
| [] => None
| o :: log =>
let '(state, assets, result) := f_apply state (o_change o) [] assets in
match result with
| inr _ => None
| inl _ => advance log (o_rev o) state assets saved
end
end
else Some (log, applied, state, assets).

Fixpoint nearest_loop (saved_states : list Rev) (log : list (Ordered C)) (applied : Rev) (state : M)
(assets : Assets) (new : M) (nearest : option (list C)) : option (list C) :=
match saved_states with
| [] => nearest
| saved :: saved_states =>
'(log, applied, state, assets) ← advance log applied state assets saved;
let changes := f_compare state new in
let better := match nearest with Some best => length changes <? length best | None => true end in
nearest_loop saved_states log applied state assets new (if better then Some changes else nearest)
end.

Definition nearest_changes (d : Document) (new : M) : option (list C) :=
'(state, assets) ← f_read (d_original d) (d_assets d);
nearest_loop (d_saved_states d) (d_log d) (d_first_rev d) state assets new None.

Fixpoint apply_outside (d : Document) (writer : string) (changes : list C) : Document * list Effect :=
match changes with
| [] => (d, [])
| c :: changes =>
let '(model, assets, result) := f_apply (d_model d) c [] (d_assets d) in
let d := with_model d model assets in
match result with
| inr _ => apply_outside d writer changes
| inl c =>
let '(d, effects) := ordered d c writer ("file:" +:+ writer) 0 in
let '(d, more) := apply_outside d writer changes in
(d, effects ++ more)
end
end.

Definition file_changed (d : Document) (file : bytes) (writer : string) : Document * list Effect :=
match f_read file (d_assets d) with
| None => (d, [])
| Some (new, assets) =>
let d := with_model d (d_model d) assets in
match nearest_changes d new with
| None => (d, [])
| Some changes =>
let '(d, effects) := apply_outside d writer changes in (d, FileTaken :: effects)
end
end.

(** ** Saving *)

Definition save_waits (d : Document) : Document * list Effect :=
if d_waits d then (d, [])
else
let d := with_saved d (d_saved_rev d) (d_saved_states d) true in
(d, [send_to (joined_pipes d) (ToSaved (d_saved_rev d) true)]).

Definition save (d : Document) (file : bytes) : Document * list Effect :=
if (d_rev d =? d_saved_rev d)%N then (d, [])
else
match f_write (d_model d) file (d_assets d) with
| Some file => (d, [Write (d_rev d) file])
| None => save_waits d
end.

(** [Vec::remove(1)]. *)
Definition remove_second (l : list Rev) : list Rev := delete 1 l.

Definition saved (d : Document) (rev : Rev) : Document * list Effect :=
let states :=
if decide (last (d_saved_states d) = Some rev) then d_saved_states d else d_saved_states d ++ [rev] in
let states := if MOST_SAVED_STATES <? length states then remove_second states else states in
let d := with_saved d rev states false in
(d, [send_to (joined_pipes d) (ToSaved rev false)]).

Definition rebased (d : Document) (file : bytes) (epoch : N) : Document * list Effect :=
(MkDocument (d_model d) (d_assets d) file epoch (d_rev d) (d_rev d) [] (d_seqs d) (d_seats d)
(d_rev d) [d_rev d] (d_waits d), []).

Definition step (d : Document) (input : Input) : Document * list Effect :=
match input with
| Connected pipe viewer => (with_seats d (BTree.insert pipe (MkSeat viewer None Null) (d_seats d)), [])
| InMessage pipe frame => message d pipe frame
| Left pipe => left d pipe
| FileChanged file writer => file_changed d file writer
| Save file => save d file
| Saved rev => saved d rev
| SaveWaits => save_waits d
| Rebased file epoch => rebased d file epoch
| Closing reason =>
(d, [Send (BTree.keys (d_seats d)) (encode_message (ToClosed reason)) false])
end.
End document.
Arguments Document : clear implicits.
