(* ===== verification/LiveSpec.v ===== *)
(** The order of a document: the abstract machine that [Live.step] refines.

    Its state is the model and the changes that made it.  A transition puts one change
    in the order, and a document takes some transitions for each input, appends a record
    for each, and changes nothing else of that state. *)

From S2P Require Import Prelude Json Contract BTree Format Live.
Section order.
Context {M C Q : Type} `{Format M C Q, Digest, Gzip, Serde ToDocument, Serde ToClient, Serde Changed}.
Abbreviation Document := (Live.Document M C).

Record Order : Type := MkOrder {
a_model : M; a_original : bytes; a_epoch : N; a_first : Rev; a_rev : Rev;
a_log : list (Ordered C); a_seqs : gmap string Seq
}.

Definition order_of (d : Document) : Order :=
MkOrder (d_model d) (d_original d) (d_epoch d) (d_first_rev d) (d_rev d) (d_log d) (d_seqs d).

(** One change [o] goes in the order.  A client's own changes have rising numbers; 0 is
for a write of another program, and it counts for no client. *)
Inductive order_step (a : Order) (o : Ordered C) : Order -> Prop :=
| order_change change since assets model assets' :
f_apply (a_model a) change since assets = (model, assets', inl (o_change o)) ->
o_rev o = (a_rev a + 1)%N ->
(0 < o_seq o -> default 0 (a_seqs a !! o_client o) < o_seq o)%N ->
order_step a o (MkOrder model (a_original a) (a_epoch a) (a_first a) (o_rev o) (a_log a ++ [o])
(if (0 <? o_seq o)%N then <[o_client o := o_seq o]> (a_seqs a) else a_seqs a)).

Inductive order_run (a : Order) : list (Ordered C) -> Order -> Prop :=
| run_nil : order_run a [] a
| run_cons o os b c : order_step a o b -> order_run b os c -> order_run a (o :: os) c.

Lemma run_app a os b os' c : order_run a os b -> order_run b os' c -> order_run a (os ++ os') c.
Proof. induction 1; [done|]. intros Hr. simpl. econstructor; eauto. Qed.

Lemma run_one a o b : order_step a o b -> order_run a [o] b.
Proof. intros Hs. econstructor; [done|constructor]. Qed.

(** What a run leaves in place. *)
Lemma run_fixed a os b : order_run a os b ->
a_log b = a_log a ++ os /\ a_original b = a_original a /\ a_epoch b = a_epoch a /\
a_first b = a_first a /\ a_rev b = (a_rev a + len os)%N.
Proof.
induction 1 as [a|a o os b c Hs Hr IH]; [by rewrite app_nil_r, N.add_0_r|].
destruct Hs as [? ? ? ? ? _ Hrev _]. simpl in IH. destruct IH as (-> & -> & -> & -> & ->).
rewrite <- app_assoc, Hrev. unfold len. simpl. split; [done|]. repeat (split; [done|]). lia.
Qed.

(** ** The effects that go to the journal and to clients *)

Definition record_of (o : Ordered C) : bytes := text_of (changed_of o).
Definition appended (effects : list Effect) : list bytes :=
omap (fun e => match e with Append record => Some record | _ => None end) effects.

Lemma appended_app l1 l2 : appended (l1 ++ l2) = appended l1 ++ appended l2.
Proof. apply omap_app. Qed.

Lemma appended_drops (l : list PipeId) : appended (Drop <$> l) = [].
Proof. induction l; [done|]. done. Qed.

Lemma order_of_ordered d change author client seq d' effects :
ordered d change author client seq = (d', effects) ->
let o := MkOrdered (d_rev d + 1) author client seq change in
order_of d' = MkOrder (d_model d) (d_original d) (d_epoch d) (d_first_rev d) (d_rev d + 1) (d_log d ++ [o]) (d_seqs d) /\
appended effects = [record_of o].
Proof.
unfold ordered. intros [= <- <-]. split; [done|]. simpl. unfold record_of. by destruct (f_seals change).
Qed.

Context `{!FormatLaws M C Q}.

Definition quiet (d d' : Document) (effects : list Effect) : Prop :=
order_of d' = order_of d /\ appended effects = [].

Lemma quiet_asset_frame d pipe hash data d' effects :
asset_frame d pipe hash data = (d', effects) -> quiet d d' effects.
Proof.
unfold asset_frame. destruct data as [|b data].
- intros [= <- <-]. split; [done|]. by destruct (AssetOps.get _ _).
- destruct (_ <? _)%N; [by intros [= <- <-]|]. destruct (AssetOps.take _ _ _) as [assets []]; by intros [= <- <-].
Qed.

Lemma quiet_join d pipe number client epoch rev d' effects :
join d pipe number client epoch rev = (d', effects) -> quiet d d' effects.
Proof.
unfold join. destruct (negb _); [by intros [= <- <-]|].
destruct (BTree.get pipe _) as [seat|]; intros [= <- <-]; (split; [done|]).
- by rewrite appended_app, appended_drops.
- apply appended_drops.
Qed.

Lemma quiet_place d pipe rev body d' effects : place d pipe rev body = (d', effects) -> quiet d d' effects.
Proof.
unfold place. destruct (log_since d rev); [|by intros [= <- <-]].
destruct (BTree.get pipe _) as [seat|]; [|by intros [= <- <-]].
by destruct (s_client seat); intros [= <- <-].
Qed.

Lemma quiet_save_waits d d' effects : save_waits d = (d', effects) -> quiet d d' effects.
Proof. unfold save_waits. by destruct (d_waits d); intros [= <- <-]. Qed.

(** A change of a client: refused, and nothing of the order moves; or in the order. *)
Lemma change_run d pipe seq base body d' effects :
change d pipe seq base body = (d', effects) ->
quiet d d' effects \/
exists seat client o, BTree.get pipe (d_seats d) = Some seat /\ s_client seat = Some client /\
v_can_edit (s_viewer seat) = true /\ o_client o = client /\ o_author o = v_name (s_viewer seat) /\
o_seq o = seq /\ order_step (order_of d) o (order_of d') /\ appended effects = [record_of o].
Proof.
unfold change. destruct (BTree.get pipe (d_seats d)) as [seat|] eqn:Es; [|intros [= <- <-]; by left].
destruct (s_client seat) as [client|] eqn:Ec; [|intros [= <- <-]; by left].
destruct (v_can_edit (s_viewer seat)) eqn:Ee; cbn [negb]; [|intros [= <- <-]; by left].
destruct (N.leb_spec seq (default 0%N (d_seqs d !! client))) as [|Hseq]; [intros [= <- <-]; by left|].
destruct (change_from_value body) as [c|error]; [|intros [= <- <-]; by left].
destruct (_ <? _)%N; [intros [= <- <-]; by left|].
destruct (log_since d base) as [since|]; [|intros [= <- <-]; by left].
destruct (f_apply (d_model d) c since (d_assets d)) as [[model assets] [c'|r]] eqn:Ea.
- intros E. right. apply order_of_ordered in E as [E Ha]. exists seat, client.
eexists. split; [done|]. split; [done|]. split; [done|]. split; [|split; [|split; [|split; [|exact Ha]]]]; try done.
rewrite E. simpl.
pose proof (order_change (order_of d) (MkOrdered (d_rev d + 1) (v_name (s_viewer seat)) client seq c')
c since (d_assets d) model assets Ea eq_refl) as Hs.
simpl in Hs. rewrite (proj2 (N.ltb_lt 0 seq)) in Hs by lia. apply Hs. lia.
- intros E. left. pose proof (refused_keeps _ _ _ _ _ _ _ Ea) as ->. by destruct r; injection E as <- <-.
Qed.

Lemma apply_outside_run writer changes : forall d d' effects,
apply_outside d writer changes = (d', effects) ->
exists os, order_run (order_of d) os (order_of d') /\ appended effects = record_of <$> os /\
Forall (fun o => o_seq o = 0%N) os.
Proof.
induction changes as [|c changes IH]; intros d d' effects; cbn [apply_outside].
- intros [= <- <-]. exists []. by split; [constructor|].
- destruct (f_apply (d_model d) c [] (d_assets d)) as [[model assets] [c'|r]] eqn:Ea.
+ destruct (ordered (with_model d model assets) c' writer ("file:" +:+ writer) 0) as [d1 e1] eqn:E1. destruct (apply_outside d1 writer changes) as [d2 e2] eqn:E2.
intros [= <- <-]. apply IH in E2 as (os & Hr & Ha & Hz). apply order_of_ordered in E1 as [E1 Ha1].
eexists (_ :: os). split; [|split].
* econstructor; [|exact Hr]. rewrite E1. simpl.
apply (order_change (order_of d) (MkOrdered (d_rev d + 1) writer ("file:" +:+ writer) 0 c')
c [] (d_assets d) model assets Ea eq_refl). simpl. lia.
* rewrite appended_app, Ha1, Ha. done.
* by constructor.
+ intros E. apply IH in E as (os & Hr & Ha & Hz). exists os.
pose proof (refused_keeps _ _ _ _ _ _ _ Ea) as ->. done.
Qed.

(** Each input but [Rebased] takes the order some changes further, and appends a record
for each of them. *)
Lemma step_run d input d' effects :
step d input = (d', effects) -> (forall file epoch, input <> Rebased file epoch) ->
exists os, order_run (order_of d) os (order_of d') /\ appended effects = record_of <$> os.
Proof.
intros E Hnr.
assert (Hquiet : quiet d d' effects -> exists os, order_run (order_of d) os (order_of d') /\ appended effects = record_of <$> os).
{ intros [-> ->]. exists []. by split; [constructor|]. }
destruct input as [pipe viewer|pipe frame|pipe|file writer|file|rev| |file epoch|reason]; simpl in E.
- injection E as <- <-. by apply Hquiet.
- unfold message in E. destruct (decode frame) as [[msg|hash data]|e|]; [|by apply Hquiet; eapply quiet_asset_frame|
injection E as <- <-; by apply Hquiet..].
destruct msg as [contract client epoch rev|seq base body|rev body|id body|id];
destruct (match BTree.get pipe (d_seats d) with Some seat => has_client seat | None => false end);
try (injection E as <- <-; by apply Hquiet).
+ apply Hquiet. by eapply quiet_join.
+ apply change_run in E as [Hq|(seat & client & o & _ & _ & _ & _ & _ & _ & Hs & Ha)]; [by apply Hquiet|].
exists [o]. split; [by apply run_one|done].
+ apply Hquiet. by eapply quiet_place.
+ injection E as <- <-. apply Hquiet. split; [done|]. unfold query. by destruct (query_from_value body).
- apply Hquiet. unfold left in E. injection E as <- <-. split; [done|]. by destruct (_ ≫= _).
- unfold file_changed in E. destruct (f_read file (d_assets d)) as [[new assets]|]; [|injection E as <- <-; by apply Hquiet].
destruct (nearest_changes _ new) as [changes|]; [|injection E as <- <-; by apply Hquiet].
destruct (apply_outside _ writer changes) as [d1 e1] eqn:E1. injection E as <- <-.
apply apply_outside_run in E1 as (os & Hr & Ha & _). exists os. done.
- unfold save in E. destruct (_ =? _)%N; [injection E as <- <-; by apply Hquiet|].
destruct (f_write _ _ _); [injection E as <- <-; by apply Hquiet|]. apply Hquiet. by eapply quiet_save_waits.
- injection E as <- <-. by apply Hquiet.
- apply Hquiet. by eapply quiet_save_waits.
- by destruct (Hnr file epoch).
- injection E as <- <-. by apply Hquiet.
Qed.
End order.
Arguments Order : clear implicits.

(* ------------------------------------------------------------ *)

(** What holds of each document that [Live.step] reaches: the order has no gap, each
    client's change is in it once, and a journal makes the document again. *)

Section spec.
Context {M C Q : Type} `{Format M C Q, Digest, Gzip, Serde ToDocument, Serde ToClient, Serde Changed}.
Context `{!FormatLaws M C Q}.
Abbreviation Document := (Live.Document M C).
Abbreviation Order := (LiveSpec.Order M C).

(** *** The order *)

(** The revs count on by one from the first, and the numbers of a client's changes rise. *)
Record order_ok (a : Order) : Prop := {
ok_rev : a_rev a = (a_first a + len (a_log a))%N;
ok_revs : forall i o, a_log a !! i = Some o -> o_rev o = (a_first a + N.of_nat i + 1)%N;
ok_seqs : forall i j o o', a_log a !! i = Some o -> a_log a !! j = Some o' -> i < j ->
o_client o = o_client o' -> (0 < o_seq o)%N -> (0 < o_seq o')%N -> (o_seq o < o_seq o')%N;
ok_last : forall i o, a_log a !! i = Some o -> (0 < o_seq o)%N ->
(o_seq o <= default 0 (a_seqs a !! o_client o))%N
}.

Lemma order_step_ok a o b : order_ok a -> order_step a o b -> order_ok b.
Proof.
intros [Hrev Hrevs Hseqs Hlast] [? ? ? ? ? _ Ho Hs]. constructor; simpl.
- rewrite Ho, Hrev. unfold len. rewrite length_app. simpl. lia.
- intros i x [[_ Hx]|[-> <-]]%lookup_snoc_Some; [by apply Hrevs|].
rewrite Ho, Hrev. unfold len. lia.
- intros i j x y [[Hi Hx]|[-> ->]]%lookup_snoc_Some [[Hj Hy]|[-> ->]]%lookup_snoc_Some Hij Hc Hx0 Hy0;
[by eapply Hseqs| |lia|lia].
specialize (Hs Hy0). specialize (Hlast i x Hx Hx0). rewrite Hc in Hlast. lia.
- intros i x [[Hi Hx]|[-> ->]]%lookup_snoc_Some Hx0.
+ specialize (Hlast i x Hx Hx0). destruct (N.ltb_spec 0 (o_seq o)) as [H0o|]; [|done].
destruct (decide (o_client o = o_client x)) as [E|].
* rewrite E, lookup_insert_eq. simpl. specialize (Hs H0o). rewrite E in Hs. lia.
* by rewrite lookup_insert_ne.
+ rewrite (proj2 (N.ltb_lt _ _) Hx0), lookup_insert_eq. simpl. lia.
Qed.

Lemma order_run_ok a os b : order_run a os b -> order_ok a -> order_ok b.
Proof. induction 1 as [|a o os b c Hs Hr IH]; intros Ha; [done|]. apply IH. by eapply order_step_ok. Qed.

Lemma rebased_ok d file epoch : order_ok (order_of (rebased d file epoch).1).
Proof. constructor; simpl; try done. unfold len. simpl. lia. Qed.

Lemma step_order_ok d input d' effects :
order_ok (order_of d) -> step d input = (d', effects) -> order_ok (order_of d').
Proof.
intros Ha E. assert (Hrun : forall os, order_run (order_of d) os (order_of d') -> order_ok (order_of d'))
by (intros os Hr; by eapply order_run_ok).
destruct input; try (apply step_run in E as (os & Hr & _); [by eapply Hrun|done]).
simpl in E. injection E as <- <-. apply (rebased_ok d).
Qed.

(** *** The model is what its journal makes *)

(** The changes of a log, one after another, with nothing after their bases. *)
Inductive makes : M -> list (Ordered C) -> M -> Prop :=
| makes_nil m : makes m [] m
| makes_cons m o log m1 m2 :
(forall x, exists x', f_apply m (o_change o) [] x = (m1, x', inl (o_change o))) ->
(exists v, change_to_value (o_change o) = Some v /\ change_from_value v = inl (o_change o)) ->
makes m1 log m2 -> makes m (o :: log) m2.

Lemma makes_app m log m1 log' m2 : makes m log m1 -> makes m1 log' m2 -> makes m (log ++ log') m2.
Proof. induction 1; [done|]. intros Hm. simpl. econstructor; eauto. Qed.

Lemma makes_split log : forall m log' m2, makes m (log ++ log') m2 ->
exists m1, makes m log m1 /\ makes m1 log' m2.
Proof.
induction log as [|o log IH]; intros m log' m2; [intros Hm; exists m; by split; [constructor|]|].
simpl. inversion 1 as [|? ? ? m' ? Ha Hv Hm]; subst. destruct (IH _ _ _ Hm) as (m1 & L1 & L2).
exists m1. split; [by econstructor|done].
Qed.

(** The last number of each client, after a log. *)
Definition seqs_after (seqs : gmap string Seq) (log : list (Ordered C)) : gmap string Seq :=
foldl (fun seqs o => if (0 <? o_seq o)%N then <[o_client o := o_seq o]> seqs else seqs) seqs log.

Lemma seqs_after_last seqs log :
(forall i j o o', log !! i = Some o -> log !! j = Some o' -> i < j ->
o_client o = o_client o' -> (0 < o_seq o)%N -> (0 < o_seq o')%N -> (o_seq o < o_seq o')%N) ->
forall i o, log !! i = Some o -> (0 < o_seq o)%N -> (o_seq o <= default 0 (seqs_after seqs log !! o_client o))%N.
Proof.
induction log as [|x log IH] using rev_ind; intros Hs i o Hi Hpos; [done|].
unfold seqs_after in *. rewrite foldl_app. simpl. apply lookup_snoc_Some in Hi as [[Hlt Hi]|[-> ->]].
- destruct (N.ltb_spec 0 (o_seq x)) as [Hx|].
+ destruct (decide (o_client x = o_client o)) as [E|].
* rewrite E, lookup_insert_eq. simpl.
assert (Hlt' : (o_seq o < o_seq x)%N); [|lia].
apply (Hs i (length log)); [by apply lookup_app_l_Some|apply lookup_snoc_Some; by right|done..].
* rewrite lookup_insert_ne by done. eapply IH; [|done|done]. intros i' j' o1 o2 H1' H2'.
apply Hs; by apply lookup_app_l_Some.
+ eapply IH; [|done|done]. intros i' j' o1 o2 H1' H2'. apply Hs; by apply lookup_app_l_Some.
- by rewrite (proj2 (N.ltb_lt _ _) Hpos), lookup_insert_eq.
Qed.

(** The order comes from its file and its log; [seqs] are the numbers at its first rev. *)
Record made (seqs : gmap string Seq) (a : Order) : Prop := {
made_model : exists m0, (forall x, exists x', f_read (a_original a) x = Some (m0, x')) /\ makes m0 (a_log a) (a_model a);
made_seqs : a_seqs a = seqs_after seqs (a_log a)
}.

Lemma order_step_made seqs a o b : made seqs a -> order_step a o b -> made seqs b.
Proof.
intros [(m0 & Hread & Hm) Hs] [change since x model x' Ha Ho _]. constructor; simpl.
- exists m0. split; [done|]. eapply makes_app; [exact Hm|]. econstructor; [|by eapply change_reads|constructor].
intros x2. by eapply replays.
- unfold seqs_after in *. by rewrite foldl_app, <- Hs.
Qed.

Lemma order_run_made seqs a os b : order_run a os b -> made seqs a -> made seqs b.
Proof. induction 1 as [|a o os b c Hst Hr IH]; intros Ha; [done|]. apply IH. by eapply order_step_made. Qed.

Lemma open_made file epoch assets d : open file epoch assets = Some d -> made ∅ (order_of d) /\ order_ok (order_of d).
Proof.
unfold open. destruct (f_read file assets) as [[model x]|] eqn:E; [|done]. intros [= <-].
split; constructor; simpl; try done.
exists model. split; [|constructor]. intros x2. by eapply read_same.
Qed.

(** A journal that starts again: its file must read as the model is. *)
Lemma rebased_made d file epoch seqs :
(forall x, exists x', f_read file x = Some (d_model d, x')) ->
made seqs (order_of d) -> made (d_seqs d) (order_of (rebased d file epoch).1).
Proof. intros Hread _. constructor; simpl; [|done]. exists (d_model d). split; [done|constructor]. Qed.

(** *** Restoring *)

Lemma replay_changed d o m1 :
(forall x, exists x', f_apply (d_model d) (o_change o) [] x = (m1, x', inl (o_change o))) ->
(exists v, change_to_value (o_change o) = Some v /\ change_from_value v = inl (o_change o)) ->
exists d', replay d (changed_of o) = Some d' /\
order_of d' = MkOrder m1 (d_original d) (d_epoch d) (d_first_rev d) (o_rev o) (d_log d ++ [o])
(if (0 <? o_seq o)%N then <[o_client o := o_seq o]> (d_seqs d) else d_seqs d) /\
d_saved_rev d' = d_saved_rev d /\ d_saved_states d' = d_saved_states d /\ d_seats d' = d_seats d.
Proof.
intros Ha (v & Ev & Er). unfold replay, changed_of. cbn [c_body c_seq c_client c_rev c_author].
rewrite Ev. cbn [default from_option id]. rewrite Er. destruct (Ha (d_assets d)) as [x' ->].
eexists. split; [done|]. by destruct o.
Qed.

Lemma replay_all_spec log : forall d m,
makes (d_model d) log m ->
Forall (fun o => from_slice (record_of o) = Some (changed_of o)) log ->
exists d', replay_all d (record_of <$> log) = Some d' /\ d_model d' = m /\ d_log d' = d_log d ++ log /\
d_original d' = d_original d /\ d_epoch d' = d_epoch d /\ d_first_rev d' = d_first_rev d /\
d_seqs d' = seqs_after (d_seqs d) log /\ d_rev d' = default (d_rev d) (o_rev <$> last log) /\
d_saved_rev d' = d_saved_rev d /\ d_saved_states d' = d_saved_states d /\ d_seats d' = d_seats d.
Proof.
induction log as [|o log IH]; intros d m Hm Hread.
- inversion Hm; subst. exists d. simpl. rewrite app_nil_r. done.
- inversion Hm as [|? ? ? m1 ? Ha Hv Hm']; subst. apply Forall_cons in Hread as [Ho Hread].
destruct (replay_changed d o m1 Ha Hv) as (d1 & E1 & O1 & S1 & S2 & S3).
rewrite fmap_cons. cbn [replay_all]. rewrite Ho. cbn [mbind option_bind]. rewrite E1. cbn [mbind option_bind].
pose proof (f_equal a_model O1) as Em. pose proof (f_equal a_log O1) as El.
pose proof (f_equal a_original O1) as Eo. pose proof (f_equal a_epoch O1) as Ee.
pose proof (f_equal a_first O1) as Ef. pose proof (f_equal a_seqs O1) as Eq. pose proof (f_equal a_rev O1) as Ev.
simpl in *.
destruct (IH d1 m) as (d' & E' & Hmod & Hlog & Horig & Hep & Hfirst & Hseqs & Hrev & H1' & H2' & H3'); [by rewrite Em|done|].
exists d'. split; [done|]. split; [done|]. split; [by rewrite Hlog, El, <- app_assoc|].
split; [congruence|]. split; [congruence|]. split; [congruence|].
split; [rewrite Hseqs, Eq; done|]. split; [|split; [congruence|split; congruence]].
rewrite Hrev, Ev. by destruct log as [|o' log]; [|rewrite last_cons_cons; destruct (last (o' :: log)) eqn:E0; [|by apply last_None in E0]].
Qed.

(** The journal of a log makes the order that ends with it. *)
Lemma restore_log original epoch first seqs saved log assets m0 m :
(forall x, exists x', f_read original x = Some (m0, x')) -> makes m0 log m ->
(forall i o, log !! i = Some o -> o_rev o = (first + N.of_nat i + 1)%N) ->
Forall (fun o => from_slice (record_of o) = Some (changed_of o)) log ->
exists d', restore original (MkRestored epoch first seqs saved) (record_of <$> log) assets = Some d' /\
order_of d' = MkOrder m original epoch first (first + len log) log (seqs_after seqs log) /\
d_saved_rev d' = default first (last saved) /\ d_saved_states d' = first :: saved /\ d_seats d' = [].
Proof.
intros Hread Hm Hrevs Hrec. unfold restore, open. destruct (Hread assets) as [x Ex]. rewrite Ex. cbn [mbind option_bind].
cbn [r_epoch r_first_rev r_seqs r_saved with_saved d_model d_assets d_original d_epoch d_log d_seats d_saved_rev
d_saved_states d_waits].
match goal with |- context [replay_all ?d0 _] => destruct (replay_all_spec log d0 m)
as (d' & E' & Hmod & Hlog & Horig & Hep & Hfirst & Hseqs & Hrev' & H1' & H2' & H3'); [done|done|] end.
exists d'. split; [done|]. simpl in *. split; [|done]. unfold order_of.
rewrite Hmod, Hlog, Horig, Hep, Hfirst, Hseqs, Hrev'. f_equal.
rewrite last_lookup. destruct log as [|o log]; [simpl; unfold len; simpl; lia|].
destruct (lookup_lt_is_Some_2 (o :: log) (Nat.pred (length (o :: log)))) as [o' Eo']; [simpl; lia|].
rewrite Eo'. simpl. rewrite (Hrevs _ _ Eo'). unfold len. simpl. lia.
Qed.

(** What the journal of a document keeps makes its order again. *)
Lemma restore_order d seqs saved assets :
made seqs (order_of d) -> order_ok (order_of d) ->
Forall (fun o => from_slice (record_of o) = Some (changed_of o)) (d_log d) ->
exists d', restore (d_original d) (MkRestored (d_epoch d) (d_first_rev d) seqs saved)
(record_of <$> d_log d) assets = Some d' /\
order_of d' = order_of d /\ d_saved_rev d' = default (d_first_rev d) (last saved) /\
d_saved_states d' = d_first_rev d :: saved /\ d_seats d' = [].
Proof.
intros [(m0 & Hread & Hm) Hs] [Hrev Hrevs _ _] Hrec. simpl in *.
destruct (restore_log (d_original d) (d_epoch d) (d_first_rev d) seqs saved (d_log d) assets m0 (d_model d))
as (d' & E & Ho & Hrest); [done..|]. exists d'. split; [done|]. split; [|done].
rewrite Ho. unfold order_of. by rewrite Hs, Hrev.
Qed.

(** The documents that a host has, with the client numbers at the first rev of their journal: one
that was opened, what any inputs make of it, one whose journal started again with a file that
reads as the model then was, and one that came back from the start of its journal. *)
Inductive journaled : gmap string Seq -> Document -> Prop :=
| journaled_open file epoch assets d : open file epoch assets = Some d -> journaled ∅ d
| journaled_step seqs d input d' effects :
journaled seqs d -> step d input = (d', effects) -> (forall file epoch, input <> Rebased file epoch) -> journaled seqs d'
| journaled_rebased seqs d file epoch assets assets' :
journaled seqs d -> f_read file assets = Some (d_model d, assets') -> journaled (d_seqs d) (rebased d file epoch).1
| journaled_restored seqs d k saved assets d' :
journaled seqs d -> Forall (fun o => from_slice (record_of o) = Some (changed_of o)) (take k (d_log d)) ->
restore (d_original d) (MkRestored (d_epoch d) (d_first_rev d) seqs saved) (record_of <$> take k (d_log d)) assets = Some d' ->
journaled seqs d'.

Lemma restored_made seqs d k saved assets d' :
made seqs (order_of d) -> order_ok (order_of d) ->
Forall (fun o => from_slice (record_of o) = Some (changed_of o)) (take k (d_log d)) ->
restore (d_original d) (MkRestored (d_epoch d) (d_first_rev d) seqs saved) (record_of <$> take k (d_log d)) assets = Some d' ->
made seqs (order_of d') /\ order_ok (order_of d').
Proof.
intros [(m0 & Hread & Hm) _] [_ Hrevs Hseqs _] Hrec E. simpl in *. set (log := take k (d_log d)) in *.
rewrite <- (take_drop k (d_log d)) in Hm. apply makes_split in Hm as (m1 & Hm1 & _).
assert (Hrevs' : forall i o, log !! i = Some o -> o_rev o = (d_first_rev d + N.of_nat i + 1)%N).
{ intros i o [Ho _]%lookup_take_Some. by apply Hrevs. }
assert (Hseqs' : forall i j o o', log !! i = Some o -> log !! j = Some o' -> i < j ->
o_client o = o_client o' -> (0 < o_seq o)%N -> (0 < o_seq o')%N -> (o_seq o < o_seq o')%N).
{ intros i j o o' [Hi _]%lookup_take_Some [Hj _]%lookup_take_Some. by eapply Hseqs. }
destruct (restore_log (d_original d) (d_epoch d) (d_first_rev d) seqs saved log assets m0 m1) as (d2 & E2 & Ho & _); [done..|].
rewrite E in E2. injection E2 as <-. rewrite Ho. split; constructor; simpl; [by exists m0|done..|by apply seqs_after_last].
Qed.

Lemma journaled_made seqs d : journaled seqs d -> made seqs (order_of d) /\ order_ok (order_of d).
Proof.
induction 1 as [file epoch assets d E|seqs d input d' effects _ [Hm Hok] E Hn|seqs d file epoch x x' _ [Hm Hok] E
|seqs d k saved assets d' _ [Hm Hok] Hrec E].
- by eapply open_made.
- pose proof (step_run _ _ _ _ E Hn) as (os & Hr & _). split; [by eapply order_run_made|by eapply order_run_ok].
- split; [|by apply (step_order_ok d (Rebased file epoch) _ [] Hok)].
eapply rebased_made; [|done]. by eapply read_same.
- by eapply restored_made.
Qed.
End spec.
