(* ===== verification/LiveClients.v ===== *)
(** The clients of a document: who may change it, what a client that comes back gets,
    where each person is, and which saved state an outside write starts from. *)

From S2P Require Import Prelude Json Contract BTree Format Live LiveSpec.
Section clients.
Context {M C Q : Type} `{Format M C Q, Digest, Gzip, Serde ToDocument, Serde ToClient, Serde Changed}.
Context `{!FormatLaws M C Q}.
Abbreviation Document := (Live.Document M C).

(** *** Who may change a document *)

(** The pipe has a seat that joined, of a viewer that may edit. *)
Definition may_edit (d : Document) (pipe : PipeId) : Prop :=
exists seat client, BTree.get pipe (d_seats d) = Some seat /\ s_client seat = Some client /\
v_can_edit (s_viewer seat) = true.

Lemma message_order d pipe frame d' effects :
step d (InMessage pipe frame) = (d', effects) -> ~ may_edit d pipe ->
order_of d' = order_of d /\ appended effects = [].
Proof.
intros E Hno. simpl in E. unfold message in E.
destruct (decode frame) as [[msg|hash data]|e|]; [|by eapply quiet_asset_frame|by injection E as <- <-..].
destruct msg as [contract client epoch rev|seq base body|rev body|id body|id];
destruct (match BTree.get pipe (d_seats d) with Some seat => has_client seat | None => false end);
try (injection E as <- <-; by split).
- by eapply quiet_join.
- apply change_run in E as [Hq|(seat & client & o & H1' & H2' & H3' & _)]; [done|]. destruct Hno. by exists seat, client.
- by eapply quiet_place.
- injection E as <- <-. split; [done|]. unfold query. by destruct (query_from_value body).
Qed.

(** *** What a client missed *)

Lemma log_since_spec (d : Document) rev missed :
order_ok (order_of d) -> log_since d rev = Some missed <->
(d_first_rev d <= rev <= d_rev d)%N /\ missed = drop (N.to_nat (rev - d_first_rev d)) (d_log d).
Proof.
intros [Hrev _ _ _]. simpl in Hrev. unfold log_since, len in *.
destruct (N.ltb_spec rev (d_first_rev d)); [split; [done|lia]|].
destruct (Nat.leb_spec (N.to_nat (rev - d_first_rev d)) (length (d_log d))); split; try done.
- intros [= <-]. split; [lia|done].
- by intros [_ ->].
- intros [Hr _]. lia.
Qed.

(** The changes after a rev, and only they, in their order. *)
Lemma log_since_revs (d : Document) rev missed :
order_ok (order_of d) -> log_since d rev = Some missed ->
len missed = (d_rev d - rev)%N /\
forall i o, missed !! i = Some o -> o_rev o = (rev + N.of_nat i + 1)%N.
Proof.
intros Hok Hl. pose proof Hok as [Hrev Hrevs _ _]. simpl in *.
apply log_since_spec in Hl as [Hr ->]; [|done]. unfold len in *. rewrite length_drop.
split; [lia|]. intros i o Ho. rewrite lookup_drop in Ho. rewrite (Hrevs _ _ Ho). lia.
Qed.

(** The model that a client had at a rev becomes the document's, by what it missed. *)
Lemma missed_makes (d : Document) seqs rev missed :
made seqs (order_of d) -> order_ok (order_of d) -> log_since d rev = Some missed ->
exists m0 m1, (forall x, exists x', f_read (d_original d) x = Some (m0, x')) /\
makes m0 (take (N.to_nat (rev - d_first_rev d)) (d_log d)) m1 /\ makes m1 missed (d_model d).
Proof.
intros [(m0 & Hread & Hm) _] Hok Hl. simpl in *. apply log_since_spec in Hl as [_ ->]; [|done].
rewrite <- (take_drop (N.to_nat (rev - d_first_rev d)) (d_log d)) in Hm at 1.
apply makes_split in Hm as (m1 & L1 & L2). exists m0, m1. done.
Qed.

(** *** Where a person is *)

Lemma map_places_app body l1 l2 : map_places body (l1 ++ l2) = map_places (map_places body l1) l2.
Proof. apply foldl_app. Qed.

(** The seat of a pipe through changes in the order: its place moves with them. *)
Lemma ordered_seat (d : Document) change author client seq d' effects pipe :
ordered d change author client seq = (d', effects) ->
BTree.get pipe (d_seats d') =
(fun s => seat_at (f_map_place (s_place s) change) s) <$> BTree.get pipe (d_seats d).
Proof. unfold ordered. intros [= <- <-]. simpl. apply BTree.get_map_values. Qed.

Lemma change_seat (d : Document) pipe0 seq base body d' effects pipe seat :
change d pipe0 seq base body = (d', effects) -> BTree.get pipe (d_seats d) = Some seat ->
exists os, d_log d' = d_log d ++ os /\
BTree.get pipe (d_seats d') = Some (seat_at (map_places (s_place seat) os) seat).
Proof.
unfold change. intros E Hs.
assert (Hsame : forall (d1 : Document), d_log d1 = d_log d -> d_seats d1 = d_seats d ->
exists os, d_log d1 = d_log d ++ os /\
BTree.get pipe (d_seats d1) = Some (seat_at (map_places (s_place seat) os) seat)).
{ intros d1 -> ->. exists []. rewrite app_nil_r, Hs. by destruct seat. }
destruct (BTree.get pipe0 (d_seats d)) as [seat0|]; [|injection E as <- <-; by apply Hsame].
destruct (s_client seat0) as [client|]; [|injection E as <- <-; by apply Hsame].
destruct (negb _); [injection E as <- <-; by apply Hsame|].
destruct (_ <=? _)%N; [injection E as <- <-; by apply Hsame|].
destruct (change_from_value body) as [c|error]; [|injection E as <- <-; by apply Hsame].
destruct (_ <? _)%N; [injection E as <- <-; by apply Hsame|].
destruct (log_since d base) as [since|]; [|injection E as <- <-; by apply Hsame].
destruct (f_apply (d_model d) c since (d_assets d)) as [[model assets] [c'|[]]];
[|injection E as <- <-; by apply Hsame..].
pose proof (ordered_seat _ _ _ _ _ _ _ pipe E) as Hseat.
eexists [_]. unfold ordered in E. injection E as <- <-. split; [done|].
rewrite Hseat. simpl. by rewrite Hs.
Qed.

Lemma apply_outside_seat writer changes pipe : forall (d d' : Document) effects seat,
apply_outside d writer changes = (d', effects) -> BTree.get pipe (d_seats d) = Some seat ->
exists os, d_log d' = d_log d ++ os /\
BTree.get pipe (d_seats d') = Some (seat_at (map_places (s_place seat) os) seat).
Proof.
induction changes as [|c changes IH]; intros d d' effects seat; cbn [apply_outside].
- intros [= <- <-] Hs. exists []. rewrite app_nil_r, Hs. by destruct seat.
- destruct (f_apply (d_model d) c [] (d_assets d)) as [[model assets] [c'|r]].
+ destruct (ordered (with_model d model assets) c' writer ("file:" +:+ writer) 0) as [d1 e1] eqn:E1.
destruct (apply_outside d1 writer changes) as [d2 e2] eqn:E2. intros [= <- <-] Hs.
pose proof (ordered_seat _ _ _ _ _ _ _ pipe E1) as Hseat. simpl in Hseat. rewrite Hs in Hseat.
destruct (IH _ _ _ _ E2 Hseat) as (os & Hlog & Hget).
unfold ordered in E1. injection E1 as <- <-. simpl in Hlog. rewrite <- app_assoc in Hlog.
eexists (_ :: os). split; [exact Hlog|]. rewrite Hget. by destruct seat.
+ intros E Hs. by eapply (IH (with_model d model assets)).
Qed.

(** *** The saved state that an outside write starts from *)

(** The states at the saved revs, in their order. *)
Inductive states_at : list Rev -> list (Ordered C) -> Rev -> M -> Assets -> list M -> Prop :=
| at_nil log applied m x : states_at [] log applied m x []
| at_cons saved revs log applied m x log' applied' m' x' ms :
advance log applied m x saved = Some (log', applied', m', x') ->
states_at revs log' applied' m' x' ms ->
states_at (saved :: revs) log applied m x (m' :: ms).

Lemma nearest_loop_spec revs new : forall log applied m x nearest result,
nearest_loop revs log applied m x new nearest = Some result ->
exists ms, states_at revs log applied m x ms /\
(nearest = Some result \/ exists m', m' ∈ ms /\ result = f_compare m' new) /\
(forall m', m' ∈ ms -> length result <= length (f_compare m' new)) /\
(forall best, nearest = Some best -> length result <= length best).
Proof.
induction revs as [|saved revs IH]; intros log applied m x nearest result E; cbn [nearest_loop] in E.
- exists []. split; [constructor|]. split; [by left|]. split; [by intros ? ?%elem_of_nil|].
intros best ->. by injection E as ->.
- destruct (advance log applied m x saved) as [[[[log' applied'] m'] x']|] eqn:Ea; [|done].
cbn [mbind option_bind] in E. apply IH in E as (ms & Hs & Hres & Hle & Hbest).
exists (m' :: ms). split; [by econstructor|].
destruct nearest as [best|].
+ destruct (Nat.ltb_spec (length (f_compare m' new)) (length best)) as [Hlt|Hge].
* specialize (Hbest _ eq_refl). split; [|split].
-- right. destruct Hres as [[= <-]|(m2 & Hm2 & ->)]; [exists m'|exists m2]; (split; [set_solver|done]).
-- intros m2 [->|Hm2]%elem_of_cons; [done|by apply Hle].
-- intros b [= <-]. lia.
* specialize (Hbest _ eq_refl). split; [|split].
-- destruct Hres as [Hres|(m2 & Hm2 & ->)]; [by left|right; exists m2; split; [set_solver|done]].
-- intros m2 [->|Hm2]%elem_of_cons; [lia|by apply Hle].
-- by intros b [= <-].
+ specialize (Hbest _ eq_refl). split; [|split; [|done]].
* right. destruct Hres as [[= <-]|(m2 & Hm2 & ->)]; [exists m'|exists m2]; (split; [set_solver|done]).
* intros m2 [->|Hm2]%elem_of_cons; [done|by apply Hle].
Qed.

(** [advance] stops at the saved rev, when the revs of the log are in order. *)
Lemma advance_makes log : forall applied m x saved log' applied' m' x' m2,
(forall i o, log !! i = Some o -> o_rev o = (applied + N.of_nat i + 1)%N) ->
makes m log m2 -> (applied <= saved)%N ->
advance log applied m x saved = Some (log', applied', m', x') ->
applied' = saved /\ log = take (N.to_nat (saved - applied)) log ++ log' /\
makes m (take (N.to_nat (saved - applied)) log) m' /\ makes m' log' m2.
Proof.
induction log as [|o log IH]; intros applied m x saved log' applied' m' x' m2 Hrevs Hm Hle E; cbn [advance] in E.
- destruct (N.ltb_spec applied saved); [done|]. injection E as <- <- <- <-. rewrite take_nil.
split; [lia|]. split; [done|]. by split; [constructor|].
- destruct (N.ltb_spec applied saved) as [Hlt|Hge].
+ inversion Hm as [|? ? ? m1 ? Ha Hv Hm']; subst. destruct (Ha x) as [x1 Ea]. rewrite Ea in E.
assert (Ho : o_rev o = (applied + 1)%N) by (rewrite (Hrevs 0 o eq_refl); lia).
assert (Hrevs' : forall i o', log !! i = Some o' -> o_rev o' = (o_rev o + N.of_nat i + 1)%N).
{ intros i o' Hi. rewrite Ho, (Hrevs (S i) o' Hi). lia. }
apply (IH _ _ _ _ _ _ _ _ m2) in E as (Eq1 & Eq2 & Eq3 & Eq4); [|done|done|lia].
replace (N.to_nat (saved - applied)) with (S (N.to_nat (saved - o_rev o))) by lia. simpl.
split; [done|]. split; [by f_equal|]. split; [by econstructor|done].
+ injection E as <- <- <- <-. replace (N.to_nat (saved - applied)) with 0 by lia. simpl.
split; [lia|]. split; [done|]. by split; [constructor|].
Qed.

(** *** Saved states *)

Lemma saved_states_bound (d : Document) rev d' effects :
saved d rev = (d', effects) -> length (d_saved_states d) <= MOST_SAVED_STATES ->
length (d_saved_states d') <= MOST_SAVED_STATES.
Proof.
unfold saved. intros [= <- <-] Hl. simpl. unfold remove_second, MOST_SAVED_STATES in *.
destruct (decide _).
- by rewrite (proj2 (Nat.ltb_ge _ _)).
- rewrite length_app. simpl. destruct (Nat.ltb_spec 32 (length (d_saved_states d) + 1)).
+ rewrite length_delete, length_app; [simpl; lia|]. apply lookup_lt_is_Some. rewrite length_app. simpl. lia.
+ rewrite length_app. simpl. lia.
Qed.

(** *** One pipe for each client *)

(** The seats are in the order of their pipes, and no two are one client's. *)
Definition seats_ok (seats : BTree.t Seat) : Prop :=
BTree.sorted None seats = true /\
forall p p' s s' c, BTree.get p seats = Some s -> BTree.get p' seats = Some s' ->
s_client s = Some c -> s_client s' = Some c -> p = p'.

(** The seats keep their clients, or go. *)
Lemma seats_ok_from seats seats' :
BTree.sorted None seats' = true ->
(forall p s', BTree.get p seats' = Some s' -> s_client s' <> None ->
exists s, BTree.get p seats = Some s /\ s_client s = s_client s') ->
seats_ok seats -> seats_ok seats'.
Proof.
intros Hs Hfrom [_ Hu]. split; [done|]. intros p p' s s' c Ep Ep' Es Es'.
destruct (Hfrom p s Ep) as (t & Et & Ec); [congruence|]. destruct (Hfrom p' s' Ep') as (t' & Et' & Ec'); [congruence|].
apply (Hu p p' t t' c); congruence.
Qed.

Lemma seats_alter f pipe seats : (forall s, s_client (f s) = s_client s) ->
seats_ok seats -> seats_ok (BTree.alter f pipe seats).
Proof.
intros Hf Hok. eapply seats_ok_from; [|intros p s' E Hc|exact Hok].
- unfold BTree.alter. rewrite BTree.sorted_keys; [apply Hok|]. intros e. by destruct (decide _).
- destruct (decide (pipe = p)) as [->|].
+ rewrite BTree.get_alter in E. apply fmap_Some in E as (s & E & ->). exists s. by rewrite Hf.
+ rewrite BTree.get_alter_ne in E by done. eauto.
Qed.

Lemma seats_map f seats : (forall s, s_client (f s) = s_client s) ->
seats_ok seats -> seats_ok (BTree.map_values f seats).
Proof.
intros Hf Hok. eapply seats_ok_from; [|intros p s' E Hc|exact Hok].
- unfold BTree.map_values. by rewrite BTree.sorted_keys; [apply Hok|].
- rewrite BTree.get_map_values in E. apply fmap_Some in E as (s & E & ->). exists s. by rewrite Hf.
Qed.

Lemma seats_remove pipe seats : seats_ok seats -> seats_ok (BTree.remove pipe seats).
Proof.
intros Hok. eapply seats_ok_from; [|intros p s' E Hc|exact Hok].
- apply BTree.sorted_filter, Hok.
- destruct (decide (pipe = p)) as [->|]; [by rewrite BTree.get_remove in E|].
rewrite BTree.get_remove_ne in E by done. eauto.
Qed.

Lemma seats_connect pipe viewer seats : seats_ok seats ->
seats_ok (BTree.insert pipe (MkSeat viewer None Null) seats).
Proof.
intros Hok. eapply seats_ok_from; [|intros p s' E Hc|exact Hok].
- by apply BTree.sorted_insert, Hok.
- destruct (decide (pipe = p)) as [->|].
+ rewrite BTree.get_insert in E. by injection E as <-.
+ rewrite BTree.get_insert_ne in E by done. eauto.
Qed.

(** A client that joins again takes its seat from its older pipes. *)
Lemma seats_join client pipe seats :
seats_ok seats ->
let replaced := BTree.keys (filter (fun e => s_client e.2 = Some client) seats) in
seats_ok (BTree.alter (fun s => MkSeat (s_viewer s) (Some client) (s_place s)) pipe
(foldl (fun seats pipe => BTree.remove pipe seats) seats replaced)).
Proof.
intros [Hs Hu] replaced. set (rest := foldl _ seats replaced).
assert (Hrest : forall p s, BTree.get p rest = Some s -> BTree.get p seats = Some s /\ s_client s <> Some client).
{ intros p s. unfold rest. rewrite BTree.get_remove_all. destruct (decide (p ∈ replaced)) as [|Hn]; [done|].
intros E. split; [done|]. intros Hc. apply Hn. unfold replaced, BTree.keys. apply list_elem_of_fmap.
exists (p, s). split; [done|]. apply list_elem_of_filter. split; [done|]. by apply BTree.get_elem. }
split.
{ unfold BTree.alter. rewrite BTree.sorted_keys; [by apply BTree.sorted_remove_all|]. intros e. by destruct (decide _). }
assert (Hget : forall p s, BTree.get p (BTree.alter (fun s => MkSeat (s_viewer s) (Some client) (s_place s)) pipe rest) = Some s ->
p = pipe /\ s_client s = Some client \/ BTree.get p seats = Some s /\ s_client s <> Some client).
{ intros p s E. destruct (decide (pipe = p)) as [->|].
- rewrite BTree.get_alter in E. apply fmap_Some in E as (s0 & _ & ->). by left.
- rewrite BTree.get_alter_ne in E by done. right. by apply Hrest. }
intros p p' s s' c [[-> Es]|[Es Hn]]%Hget [[-> Es']|[Es' Hn']]%Hget Ec Ec'; [done|congruence|congruence|].
by apply (Hu p p' s s' c).
Qed.

Lemma ordered_seats_ok (d : Document) c author client seq d' effects :
ordered d c author client seq = (d', effects) -> seats_ok (d_seats d) -> seats_ok (d_seats d').
Proof. unfold ordered. intros [= <- <-]. simpl. by apply seats_map. Qed.

Lemma apply_outside_seats_ok writer changes : forall (d d' : Document) effects,
apply_outside d writer changes = (d', effects) -> seats_ok (d_seats d) -> seats_ok (d_seats d').
Proof.
induction changes as [|c changes IH]; intros d d' effects; cbn [apply_outside]; [by intros [= <- <-]|].
destruct (f_apply (d_model d) c [] (d_assets d)) as [[model assets] [c'|r]]; [|by apply (IH (with_model d model assets))].
destruct (ordered (with_model d model assets) c' writer ("file:" +:+ writer) 0) as [d1 e1] eqn:E1.
destruct (apply_outside d1 writer changes) as [d2 e2] eqn:E2. intros [= <- <-] Hok.
eapply IH; [exact E2|]. by eapply ordered_seats_ok.
Qed.

Lemma change_seats_ok (d : Document) pipe seq base body d' effects :
change d pipe seq base body = (d', effects) -> seats_ok (d_seats d) -> seats_ok (d_seats d').
Proof.
unfold change. intros E Hok. destruct (BTree.get pipe (d_seats d)) as [seat|]; [|by injection E as <- <-].
destruct (s_client seat) as [client|]; [|by injection E as <- <-].
destruct (negb _); [by injection E as <- <-|]. destruct (_ <=? _)%N; [by injection E as <- <-|].
destruct (change_from_value body) as [c|error]; [|by injection E as <- <-].
destruct (_ <? _)%N; [by injection E as <- <-|]. destruct (log_since d base) as [since|]; [|by injection E as <- <-].
destruct (f_apply (d_model d) c since (d_assets d)) as [[model assets] [c'|[]]]; [|by injection E as <- <-..].
by eapply ordered_seats_ok.
Qed.

Lemma step_seats_ok (d : Document) input d' effects :
step d input = (d', effects) -> seats_ok (d_seats d) -> seats_ok (d_seats d').
Proof.
intros E Hok. destruct input as [pipe viewer|pipe frame|pipe|file writer|file|rev| |file epoch|reason]; simpl in E.
- injection E as <- <-. by apply seats_connect.
- unfold message in E. destruct (decode frame) as [[msg|hash data]|e|]; [| |by injection E as <- <-..].
+ destruct msg as [contract client epoch rev|seq base body|rev body|id body|id];
destruct (match BTree.get pipe (d_seats d) with Some seat => has_client seat | None => false end);
try (by injection E as <- <-).
* unfold join in E. destruct (negb _); [by injection E as <- <-|].
destruct (BTree.get pipe _) as [seat|]; injection E as <- <-; simpl.
-- by apply seats_join.
-- eapply seats_ok_from; [by apply BTree.sorted_remove_all, Hok| |exact Hok].
intros p s'. rewrite BTree.get_remove_all. destruct (decide _); [done|]. eauto.
* by eapply change_seats_ok.
* unfold place in E. destruct (log_since d rev); [|by injection E as <- <-].
destruct (BTree.get pipe _) as [seat|]; [|by injection E as <- <-].
destruct (s_client seat); injection E as <- <-; by apply seats_alter.
+ unfold asset_frame in E. destruct data; [by injection E as <- <-|].
destruct (_ <? _)%N; [by injection E as <- <-|]. by destruct (AssetOps.take _ _ _) as [x []]; injection E as <- <-.
- unfold left in E. injection E as <- <-. by apply seats_remove.
- unfold file_changed in E. destruct (f_read file (d_assets d)) as [[new assets]|]; [|by injection E as <- <-].
destruct (nearest_changes _ new) as [changes|]; [|by injection E as <- <-].
destruct (apply_outside _ writer changes) as [d1 e1] eqn:E1. injection E as <- <-.
by eapply apply_outside_seats_ok in E1.
- unfold save in E. destruct (_ =? _)%N; [by injection E as <- <-|]. destruct (f_write _ _ _); [by injection E as <- <-|].
unfold save_waits in E. by destruct (d_waits d); injection E as <- <-.
- by injection E as <- <-.
- unfold save_waits in E. by destruct (d_waits d); injection E as <- <-.
- by injection E as <- <-.
- by injection E as <- <-.
Qed.
End clients.
