(* ===== verification/Journal.v ===== *)
(** [documents/crates/documents/src/journal.rs]: a copy of the file as it was opened, and
    a record for each change and save since.

    The folder of a journal is its files.  A call of the file system that fails is not
    modelled; a crash that leaves part of the records is: [find] reads what any cut of
    the records file leaves. *)

From S2P Require Import Prelude Json Contract BTree Format Live LiveSpec.
(** ** Big-endian numbers *)

Definition byte_of (n : N) : Byte.byte := default Byte.x00 (Byte.of_N (n mod 256)).

Fixpoint be_bytes (k : nat) (n : N) : bytes :=
  match k with
  | O => []
  | S k => be_bytes k (n / 256) ++ [byte_of n]
  end.

Definition from_be (l : bytes) : N := foldl (fun n b => n * 256 + Byte.to_N b)%N 0%N l.

Lemma byte_of_to n : Byte.to_N (byte_of n) = (n mod 256)%N.
Proof.
  unfold byte_of. assert (Hb : (n mod 256 < 256)%N) by (apply N.mod_lt; lia).
  destruct (Byte.of_N (n mod 256)) as [b|] eqn:E; simpl.
  - by apply Byte.to_of_N in E.
  - apply Byte.of_N_None_iff in E. lia.
Qed.

Lemma be_bytes_length k n : length (be_bytes k n) = k.
Proof. revert n. induction k as [|k IH]; intros n; [done|]. simpl. rewrite length_app, IH. simpl. lia. Qed.

Lemma from_be_bytes k n : from_be (be_bytes k n) = (n mod 256 ^ N.of_nat k)%N.
Proof.
  revert n. induction k as [|k IH]; intros n; [by rewrite N.mod_1_r|]. cbn [be_bytes].
  unfold from_be in *. rewrite foldl_app, IH. simpl. rewrite byte_of_to.
  rewrite Nat2N.inj_succ, N.pow_succ_r', N.Div0.mod_mul_r. lia.
Qed.

(** ** Records *)

Definition CHANGE : Byte.byte := Byte.x00.
Definition SAVED : Byte.byte := Byte.x01.
Definition HEADER : nat := 5.
Definition U32 : N := 4294967296.

(** [record]: [u32::try_from] refuses a body that is too long. *)
Definition record (kind : Byte.byte) (body : bytes) : option bytes :=
  if (len body <? U32)%N then Some (kind :: be_bytes 4 (len body) ++ body) else None.

Record Meta : Type := MkMeta { m_path : string; m_epoch : N; m_first_rev : Rev; m_seqs : gmap string Seq }.

(** The folder: [original], [records], [meta.json] and [assets]. *)
Record Folder : Type := MkFolder {
  fo_original : option bytes; fo_records : option bytes; fo_meta : option Meta;
  fo_assets : option (list bytes)
}.

Record Journal : Type := MkJournal { j_folder : Folder; j_open : bool; j_bytes : N }.

Record Found : Type := MkFound {
  fd_original : bytes; fd_restored : Restored; fd_records : list bytes; fd_assets : Assets;
  fd_saved_hash : option Hash
}.

Definition start (path : string) (file : bytes) (epoch : N) (first_rev : Rev) (seqs : gmap string Seq) : Journal :=
  MkJournal (MkFolder (Some file) (Some []) (Some (MkMeta path epoch first_rev seqs)) (Some [])) true 0.

Definition write_record (j : Journal) (kind : Byte.byte) (body : bytes) : option Journal :=
  record ← record kind body;
  let f := j_folder j in
  let folder := if j_open j
    then MkFolder (fo_original f) (Some (default [] (fo_records f) ++ record)) (fo_meta f) (fo_assets f) else f in
  Some (MkJournal folder (j_open j) (j_bytes j + len record)).

Definition append (j : Journal) (change : bytes) : option Journal := write_record j CHANGE change.
Definition save_record (j : Journal) (rev : Rev) (hash : Hash) : option Journal :=
  write_record j SAVED (be_bytes 8 rev ++ hash).

Definition keep_asset (j : Journal) (data : bytes) : Journal :=
  let f := j_folder j in
  MkJournal (MkFolder (fo_original f) (fo_records f) (fo_meta f) ((fun l => data :: l) <$> fo_assets f))
    (j_open j) (j_bytes j).

Definition remove (j : Journal) : Journal := MkJournal (MkFolder None None None None) false (j_bytes j).

(** ** Finding a journal *)

(** What the loop of [find] has read: the changes and saves, newest last, and the hash of
    the last save. *)
Record Read : Type := MkRead { rd_records : list bytes; rd_saved : list Rev; rd_hash : option Hash }.

Definition read_one (kind : Byte.byte) (body : bytes) (r : Read) : option Read :=
  if decide (kind = CHANGE) then Some (MkRead (rd_records r ++ [body]) (rd_saved r) (rd_hash r))
  else if decide (kind = SAVED) then
    Some match split_at 8 body with
         | Some (rev, hash) => MkRead (rd_records r) (rd_saved r ++ [from_be rev])
             (if decide (length hash = HASH_BYTES) then Some hash else None)
         | None => r
         end
  else None.

(** Each round takes a header at least, so the length of the file is fuel enough. *)
Fixpoint read_loop (fuel : nat) (rest : bytes) (r : Read) : option (Read * bytes) :=
  match fuel with
  | O => Some (r, rest)
  | S fuel =>
      match rest with
      | kind :: a :: b :: c :: d :: tail =>
          match split_len (from_be [a; b; c; d]) tail with
          | None => Some (r, rest)
          | Some (body, tail) => r ← read_one kind body r; read_loop fuel tail r
          end
      | _ => Some (r, rest)
      end
  end.

Definition read_records (file : bytes) : option (Read * bytes) :=
  read_loop (length file) file (MkRead [] [] None).

Section find.
Context `{Digest}.

Definition find (f : Folder) (path : string) : option (Journal * Found) :=
meta ← fo_meta f;
if decide (m_path meta = path) then
original ← fo_original f;
let file := default [] (fo_records f) in
'(r, rest) ← read_records file;
let whole := length file - length rest in
assets ← fo_assets f;
let held := foldl (fun a data => (AssetOps.put data a).1) AssetOps.empty assets in
let folder := MkFolder (fo_original f) (Some (take whole file)) (fo_meta f) (fo_assets f) in
Some (MkJournal folder true (N.of_nat whole),
MkFound original (MkRestored (m_epoch meta) (m_first_rev meta) (m_seqs meta) (rd_saved r))
(rd_records r) held (rd_hash r))
else None.
End find.

(** ** What a records file holds *)

Inductive Entry : Type := EChange (change : bytes) | ESaved (rev : Rev) (hash : Hash).

Definition entry_ok (e : Entry) : Prop :=
  match e with
  | EChange change => (len change < U32)%N
  | ESaved rev hash => (rev < 18446744073709551616)%N /\ length hash = HASH_BYTES
  end.

#[export] Instance entry_ok_decision e : Decision (entry_ok e).
Proof. destruct e; simpl; apply _. Defined.

Definition entry_body (e : Entry) : Byte.byte * bytes :=
  match e with EChange change => (CHANGE, change) | ESaved rev hash => (SAVED, be_bytes 8 rev ++ hash) end.

Definition entry_bytes (e : Entry) : bytes :=
  let '(kind, body) := entry_body e in kind :: be_bytes 4 (len body) ++ body.

Definition read_entry (r : Read) (e : Entry) : Read :=
  match e with
  | EChange change => MkRead (rd_records r ++ [change]) (rd_saved r) (rd_hash r)
  | ESaved rev hash => MkRead (rd_records r) (rd_saved r ++ [rev]) (Some hash)
  end.
Definition read_entries (es : list Entry) : Read := foldl read_entry (MkRead [] [] None) es.
Definition file_of (es : list Entry) : bytes := concat (entry_bytes <$> es).

Definition entry_change (e : Entry) : option bytes := match e with EChange change => Some change | _ => None end.
Definition entry_saved (e : Entry) : option Rev := match e with ESaved rev _ => Some rev | _ => None end.

Lemma read_entries_changes es :
  rd_records (read_entries es) = omap entry_change es /\ rd_saved (read_entries es) = omap entry_saved es.
Proof.
  induction es as [|e es IH] using rev_ind; [done|]. unfold read_entries in *. rewrite foldl_app, !omap_app.
  destruct IH as [E1 E2]. destruct e; simpl; rewrite E1, E2, ?app_nil_r; done.
Qed.

Lemma entry_length e : entry_ok e -> (len (entry_body e).2 < U32)%N.
Proof.
  destruct e as [change|rev hash]; [done|]. intros [_ Hh]. unfold len. cbn [entry_body snd].
  by rewrite length_app, be_bytes_length, Hh.
Qed.

Lemma entry_bytes_length e : length (entry_bytes e) = HEADER + length (entry_body e).2.
Proof. unfold entry_bytes. destruct (entry_body e) as [kind body].
  change (S (length (be_bytes 4 (len body) ++ body)) = 5 + length body).
  by rewrite length_app, be_bytes_length. Qed.

Lemma append_bytes j change j' :
  j_open j = true -> append j change = Some j' ->
  fo_records (j_folder j') = Some (default [] (fo_records (j_folder j)) ++ entry_bytes (EChange change)).
Proof.
  unfold append, write_record, record. intros ->. destruct (_ <? _)%N; [|done]. intros [= <-]. done.
Qed.

(** *** Reading back *)

Lemma from_be_len (body : bytes) : (len body < U32)%N -> from_be (be_bytes 4 (len body)) = len body.
Proof. intros Hl. rewrite from_be_bytes. by apply N.mod_small. Qed.

Lemma read_one_entry e r : entry_ok e -> read_one (entry_body e).1 (entry_body e).2 r = Some (read_entry r e).
Proof.
  destruct e as [change|rev hash]; [done|]. intros [Hrev Hhash]. unfold read_one. cbn [entry_body fst snd].
  rewrite (decide_False (P := SAVED = CHANGE)), (decide_True (P := SAVED = SAVED)) by done.
  rewrite split_at_app by apply be_bytes_length. rewrite decide_True by done.
  by rewrite from_be_bytes, N.mod_small.
Qed.

(** A header and a body that is there. *)
Lemma read_loop_entry fuel e rest r :
  entry_ok e -> read_loop (S fuel) (entry_bytes e ++ rest) r = read_loop fuel rest (read_entry r e).
Proof.
  intros He. pose proof (entry_length e He) as Hl. unfold entry_bytes.
  destruct (entry_body e) as [kind body] eqn:Eb. cbn [snd] in Hl.
  pose proof (be_bytes_length 4 (len body)) as Hh. pose proof (from_be_len body Hl) as Hf.
  destruct (be_bytes 4 (len body)) as [|a [|b [|c [|d [|]]]]]; try done.
  cbn [read_loop app]. rewrite Hf, split_len_app by done.
  pose proof (read_one_entry e r He) as Hr. rewrite Eb in Hr. cbn [fst snd] in Hr. by rewrite Hr.
Qed.

(** A torn record: fewer bytes than a header, or than the body that the header names. *)
Definition torn (rest : bytes) : Prop :=
  exists e n, entry_ok e /\ n < length (entry_bytes e) /\ rest = take n (entry_bytes e).

Lemma read_loop_torn fuel rest r : torn rest -> read_loop fuel rest r = Some (r, rest).
Proof.
  intros (e & n & He & Hn & ->). destruct fuel as [|fuel]; [done|]. pose proof (entry_length e He) as Hl.
  rewrite entry_bytes_length in Hn. unfold entry_bytes. destruct (entry_body e) as [kind body]. cbn [snd] in *.
  pose proof (be_bytes_length 4 (len body)) as Hh. pose proof (from_be_len body Hl) as Hf.
  destruct (be_bytes 4 (len body)) as [|a [|b [|c [|d [|]]]]]; try done.
  destruct n as [|[|[|[|[|n]]]]]; try done. cbn [read_loop app take firstn].
  rewrite Hf, split_len_none; [done|]. unfold len, HEADER in *. rewrite length_take. lia.
Qed.

Lemma read_loop_file es : forall fuel rest r,
  Forall entry_ok es -> torn rest -> length es <= fuel ->
  read_loop fuel (file_of es ++ rest) r = Some (foldl read_entry r es, rest).
Proof.
  induction es as [|e es IH]; intros fuel rest r Hes Ht Hfuel; [by apply read_loop_torn|].
  apply Forall_cons in Hes as [He Hes]. destruct fuel as [|fuel]; [simpl in Hfuel; lia|].
  change (file_of (e :: es)) with (entry_bytes e ++ file_of es). rewrite <- app_assoc, read_loop_entry by done.
  apply IH; [done|done|simpl in Hfuel; lia].
Qed.

Lemma file_of_app es es' : file_of (es ++ es') = file_of es ++ file_of es'.
Proof. unfold file_of. by rewrite fmap_app, concat_app. Qed.

Lemma file_of_length es : length es <= length (file_of es).
Proof.
  induction es as [|e es IH]; [done|]. change (file_of (e :: es)) with (entry_bytes e ++ file_of es).
  rewrite length_app, entry_bytes_length. unfold HEADER. simpl. lia.
Qed.

Lemma read_records_file es rest :
  Forall entry_ok es -> torn rest -> read_records (file_of es ++ rest) = Some (read_entries es, rest).
Proof.
  intros Hes Ht. unfold read_records. apply read_loop_file; [done|done|].
  rewrite length_app. pose proof (file_of_length es). lia.
Qed.

Lemma torn_nil : torn [].
Proof. exists (EChange []), 0. split; [done|]. split; [|done]. rewrite entry_bytes_length. unfold HEADER. lia. Qed.

(** Any cut of a records file is some whole records and a torn one. *)
Lemma cut_file es n : Forall entry_ok es ->
  exists k rest, take n (file_of es) = file_of (take k es) ++ rest /\ torn rest /\
    (forall j, length (file_of (take j es)) <= n -> j <= length es -> j <= k).
Proof.
  revert n. induction es as [|e es IH]; intros n Hes.
  - exists 0, []. split; [by destruct n|]. split; [apply torn_nil|]. intros j _ Hj. simpl in Hj. lia.
  - apply Forall_cons in Hes as [He Hes]. change (file_of (e :: es)) with (entry_bytes e ++ file_of es).
    destruct (decide (n < length (entry_bytes e))) as [Hlt|Hge].
    + exists 0, (take n (entry_bytes e)). split; [by rewrite take_app_le by lia|]. split; [by exists e, n|].
      intros [|j] Hj _; [done|]. simpl in Hj. change (file_of (e :: take j es)) with (entry_bytes e ++ file_of (take j es)) in Hj.
      rewrite length_app in Hj. lia.
    + destruct (IH (n - length (entry_bytes e)) Hes) as (k & rest & E & Ht & Hk).
      exists (S k), rest. split; [|split; [done|]].
      * rewrite take_app_ge by lia. rewrite E. simpl.
        change (file_of (e :: take k es)) with (entry_bytes e ++ file_of (take k es)). by rewrite app_assoc.
      * intros [|j] Hj Hle; [lia|]. simpl in Hj, Hle.
        change (file_of (e :: take j es)) with (entry_bytes e ++ file_of (take j es)) in Hj.
        rewrite length_app in Hj. pose proof (Hk j). lia.
Qed.

(* ------------------------------------------------------------ *)

(** A crash: what [Journal.find] and [Document::restore] make of any cut of the records
    file of a session. *)

Section recovery.
Context {M C Q : Type} `{Format M C Q, Digest, Gzip, Serde ToDocument, Serde ToClient, Serde Changed}.
Context `{!FormatLaws M C Q}.
Abbreviation Document := (Live.Document M C).

(** A document and the entries of its journal: each step appends the records of its
effects, and a save appends its rev. *)
Inductive session (file : bytes) (epoch : N) : Document -> list Entry -> Prop :=
| session_open assets d : open file epoch assets = Some d -> session file epoch d []
| session_step d es input d' effects :
session file epoch d es -> step d input = (d', effects) ->
(forall file' epoch', input <> Rebased file' epoch') ->
session file epoch d' (es ++ (EChange <$> appended effects))
| session_save d es rev hash : session file epoch d es -> session file epoch d (es ++ [ESaved rev hash]).

(** More of the same session. *)
Inductive later : Document -> list Entry -> Document -> list Entry -> Prop :=
| later_here d es : later d es d es
| later_step d es d1 es1 input d2 effects :
later d es d1 es1 -> step d1 input = (d2, effects) ->
(forall file' epoch', input <> Rebased file' epoch') ->
later d es d2 (es1 ++ (EChange <$> appended effects))
| later_save d es d1 es1 rev hash : later d es d1 es1 -> later d es d1 (es1 ++ [ESaved rev hash]).

Lemma changes_of_entries (l : list bytes) : omap entry_change (EChange <$> l) = l.
Proof. induction l as [|x l IH]; [done|]. simpl. by f_equal. Qed.

(** The journal holds the log, record for record. *)
Lemma session_log file epoch d es : session file epoch d es ->
made ∅ (order_of d) /\ order_ok (order_of d) /\ omap entry_change es = record_of <$> d_log d /\
d_original d = file /\ d_epoch d = epoch /\ d_first_rev d = 0%N.
Proof.
induction 1 as [assets d Ho|d es input d' effects Hs IH E Hn|d es rev hash Hs IH].
- destruct (open_made _ _ _ _ Ho) as [Hm Hok]. split; [done|]. split; [done|].
unfold open in Ho. destruct (f_read file assets) as [[m x]|]; [|done]. by injection Ho as <-.
- destruct IH as (Hm & Hok & Hl & Hf & He & H0'). pose proof (step_run _ _ _ _ E Hn) as (os & Hr & Ha).
pose proof (run_fixed _ _ _ Hr) as (Elog & Eorig & Eep & Efirst & _). simpl in *.
split; [by eapply order_run_made|]. split; [by eapply order_run_ok|].
rewrite omap_app, Hl, changes_of_entries, Ha, Elog, fmap_app. split; [done|]. split; [congruence|]. split; congruence.
- destruct IH as (Hm & Hok & Hl & Hrest). split; [done|]. split; [done|].
rewrite omap_app. simpl. by rewrite app_nil_r.
Qed.

Lemma later_entries d es d' es' : later d es d' es' ->
(exists more, es' = es ++ more) /\ (exists os, d_log d' = d_log d ++ os).
Proof.
induction 1 as [d es|d es d1 es1 input d2 effects Hl IH E Hn|d es d1 es1 rev hash Hl IH].
- split; [exists []|exists []]; by rewrite app_nil_r.
- destruct IH as [[more ->] [os Hos]]. pose proof (step_run _ _ _ _ E Hn) as (os' & Hr & _).
pose proof (run_fixed _ _ _ Hr) as (Elog & _). simpl in Elog.
split; [eexists; by rewrite <- app_assoc|]. exists (os ++ os'). by rewrite Elog, Hos, app_assoc.
- destruct IH as [[more ->] [os Hos]]. split; [eexists; by rewrite <- app_assoc|]. by exists os.
Qed.

Lemma later_session file epoch d es d' es' :
session file epoch d es -> later d es d' es' -> session file epoch d' es'.
Proof. intros Hs. induction 1; [done|eapply session_step; eauto|apply session_save; eauto]. Qed.

Lemma omap_prefix {A B} (f : A -> option B) (es : list A) k l :
omap f es = l -> omap f (take k es) = take (length (omap f (take k es))) l.
Proof. intros <-. rewrite <- (take_drop k es) at 3. by rewrite omap_app, take_app_length. Qed.

(** A folder with some bytes of a records file. *)
Definition folder_with (path : string) (file : bytes) (epoch : N) (assets : list bytes) (records : bytes) : Folder :=
MkFolder (Some file) (Some records) (Some (MkMeta path epoch 0 ∅)) (Some assets).

(** What a crash leaves.  [d0] and [es0] are the session when the host last made its
records safe, and the records file keeps at least those bytes. *)
Lemma crash_restore file epoch path assets d0 es0 d es n :
session file epoch d0 es0 -> later d0 es0 d es -> Forall entry_ok es ->
Forall (fun o => from_slice (record_of o) = Some (changed_of o)) (d_log d) ->
length (file_of es0) <= n ->
exists j found d', find (folder_with path file epoch assets (take n (file_of es))) path = Some (j, found) /\
restore (fd_original found) (fd_restored found) (fd_records found) (fd_assets found) = Some d' /\
(exists more, d_log d' = d_log d0 ++ more) /\ (exists lost, d_log d = d_log d' ++ lost) /\
order_ok (order_of d') /\ made ∅ (order_of d') /\
(exists k, fo_records (j_folder j) = Some (file_of (take k es))).
Proof.
intros Hs0 Hl Hes Hrec Hn. pose proof (later_session _ _ _ _ _ _ Hs0 Hl) as Hs.
destruct (session_log _ _ _ _ Hs) as ([(m0 & Hread & Hm) Hseqs] & Hok & Hlog & Horig & Hep & Hfirst).
destruct (session_log _ _ _ _ Hs0) as (_ & _ & Hlog0 & _).
destruct (later_entries _ _ _ _ Hl) as [[more ->] [os Hos]].
destruct (cut_file (es0 ++ more) n Hes) as (k & rest & Ecut & Htorn & Hk).
specialize (Hk (length es0)). rewrite take_app_length in Hk. specialize (Hk Hn ltac:(rewrite length_app; lia)).
set (es := es0 ++ more) in *. set (log' := take (length (omap entry_change (take k es))) (d_log d)).
assert (Hrecords : omap entry_change (take k es) = record_of <$> log').
{ unfold log'. rewrite fmap_take. rewrite (omap_prefix _ _ k _ Hlog) at 1. done. }
simpl in Hread, Hm, Hseqs. rewrite Horig in Hread.
rewrite <- (take_drop (length (omap entry_change (take k es))) (d_log d)) in Hm. apply makes_split in Hm as (m1 & Hm1 & _).
pose proof (read_records_file (take k es) rest (Forall_take _ _ _ Hes) Htorn) as Er. rewrite <- Ecut in Er.
destruct (read_entries_changes (take k es)) as [Ec Esv].
assert (Hrevs : forall i o, log' !! i = Some o -> o_rev o = (0 + N.of_nat i + 1)%N).
{ intros i o Ho. pose proof (ok_revs _ Hok) as Hr. simpl in Hr. rewrite Hfirst in Hr. apply Hr.
unfold log' in Ho. by apply lookup_take_Some in Ho as [Ho _]. }
destruct (restore_log file epoch 0 ∅ (omap entry_saved (take k es)) log'
(foldl (fun a data => (AssetOps.put data a).1) AssetOps.empty assets) m0 m1) as (d' & Ed' & Ho' & _);
[done|done|done|by apply Forall_take|].
eexists _, _, d'. unfold find, folder_with. cbn [fo_meta mbind option_bind m_path fo_original fo_records fo_assets].
rewrite decide_True by done. cbn [default from_option id]. rewrite Er. cbn [mbind option_bind]. split; [done|].
cbn [fd_original fd_restored fd_records fd_assets m_epoch m_first_rev m_seqs]. rewrite Ec, Esv, Hrecords.
split; [exact Ed'|]. pose proof (f_equal a_log Ho') as El. simpl in El.
split; [|split; [|split; [|split]]].
- rewrite El. unfold log'. rewrite Hos.
assert (Hle : length (d_log d0) <= length (omap entry_change (take k es))).
{ rewrite <- (length_fmap record_of), <- Hlog0. unfold es. rewrite take_app_ge by lia. rewrite omap_app, length_app. lia. }
exists (take (length (omap entry_change (take k es)) - length (d_log d0)) os). by rewrite take_app_ge.
- rewrite El. unfold log'. eexists. symmetry. apply take_drop.
- rewrite Ho'. destruct Hok as [_ _ Hok3 _]. simpl in Hok3.
assert (Hok3' : forall i j o o', log' !! i = Some o -> log' !! j = Some o' -> i < j ->
o_client o = o_client o' -> (0 < o_seq o)%N -> (0 < o_seq o')%N -> (o_seq o < o_seq o')%N).
{ intros i j o o' [Hi _]%lookup_take_Some [Hj _]%lookup_take_Some. by eapply Hok3. }
constructor; simpl; [done|done| |].
+ done.
+ by apply seqs_after_last.
- rewrite Ho'. constructor; simpl; [|done]. by exists m0.
- exists k. cbn [j_folder fo_records]. do 2 f_equal. rewrite Ecut, length_app, Nat.add_sub. by apply take_app_exact.
Qed.
End recovery.
