(* ===== verification/Task.v ===== *)
(** [documents/crates/documents/src/task.rs]: the task that owns one open document and does
    its disk and timer work.

    What the task asks of the computer is a [World]: the answer to the [n]-th question that
    the task asks, whatever it may be, so every failure and every reading of the clock is
    some world.  Three fields of a task are for the theorems only: [t_found], [t_safe] and
    [t_events].  A frame that is sent is an event with the records that were safe then and
    the changes that the document had then.  A write to the journal that failed, which the
    task only warns of, is the event [Lost].

    A send calls itself through the views that fall behind, and each round removes a seat, so
    [send] has the number of seats as its fuel. *)

From S2P Require Import Prelude Json Contract BTree Format Live LiveSpec Journal.
Open Scope nat_scope.

(** In milliseconds. *)
Definition SAVE_AFTER_LAST : N := 2000.
Definition SAVE_AFTER_FIRST : N := 15000.
Definition CLOSE_AFTER : N := 60000.
Definition RETRY_SAVE : N := 1000.
Definition MOST_WAITING : N := 8388608.
Definition MOST_JOURNAL : N := 67108864.
Definition OUTSIDE : string := "Another program".

Record Stamp : Type := MkStamp { st_size : N; st_changed : option N }.

#[export] Instance Stamp_eq_dec : EqDecision Stamp.
Proof. solve_decision. Defined.

(** [fs::metadata] of the file. *)
Inductive Look : Type := NotFound | Unknown | At (stamp : Stamp).

Record World : Type := MkWorld {
  w_now : nat -> N;                  (** [Instant::now] *)
  w_grow : nat -> option nat;        (** [write_all]: whole, or the bytes written before it failed *)
  w_call : nat -> bool;              (** a call that works or fails *)
  w_received : nat -> N;             (** the bytes that a view has taken from its pipe *)
  w_stamp : nat -> option Stamp;     (** the last call of [write_whole] *)
  w_epoch : nat -> option N;
  w_start : nat -> option Folder;    (** [Journal::start]: done, or what it left when it failed *)
  w_look : nat -> Look;
  w_read : nat -> option bytes
}.

(** The sender of a pipe: the bytes that were put in, received or not. *)
Record Outgoing : Type := MkOutgoing { o_sent : N }.

(** The file and its temporary copy. *)
Record Files : Type := MkFiles { f_file : bytes; f_temporary : option bytes }.

Section task.
Context {M C Q : Type} `{Format M C Q, Digest, Gzip, Serde ToDocument, Serde ToClient, Serde Changed}.
Abbreviation Document := (Live.Document M C).

Inductive Event : Type :=
| Lost
| Sent (pipe : PipeId) (frame : bytes) (safe : bytes) (made : list bytes)
| Wrote (file : bytes).

Inductive Command : Type :=
| Connect (pipe : PipeId) (viewer : Viewer)
| Enter (input : Input)
| Flush
| Close.

Record Task : Type := MkTask {
t_document : Document;
t_journal : Journal;
t_path : string;
t_disk : bytes;
t_stamp : Stamp;
t_pipes : gmap PipeId Outgoing;
t_first_unsaved : option N;
t_last_unsaved : option N;
t_retry_at : option N;
t_close_at : option N;
t_sealing : bool;
t_found : list bytes;       (** the records of an earlier run, that this journal began with *)
t_files : Files;
t_asked : nat;              (** the questions so far *)
t_safe : bytes;             (** the records that reached the disk *)
t_events : list Event       (** newest last *)
}.

(** ** Assignments to fields *)

Definition with_document (t : Task) document : Task :=
MkTask document (t_journal t) (t_path t) (t_disk t) (t_stamp t) (t_pipes t) (t_first_unsaved t)
(t_last_unsaved t) (t_retry_at t) (t_close_at t) (t_sealing t) (t_found t) (t_files t) (t_asked t)
(t_safe t) (t_events t).
Definition with_journal (t : Task) journal : Task :=
MkTask (t_document t) journal (t_path t) (t_disk t) (t_stamp t) (t_pipes t) (t_first_unsaved t)
(t_last_unsaved t) (t_retry_at t) (t_close_at t) (t_sealing t) (t_found t) (t_files t) (t_asked t)
(t_safe t) (t_events t).
Definition with_disk (t : Task) disk : Task :=
MkTask (t_document t) (t_journal t) (t_path t) disk (t_stamp t) (t_pipes t) (t_first_unsaved t)
(t_last_unsaved t) (t_retry_at t) (t_close_at t) (t_sealing t) (t_found t) (t_files t) (t_asked t)
(t_safe t) (t_events t).
Definition with_stamp (t : Task) stamp : Task :=
MkTask (t_document t) (t_journal t) (t_path t) (t_disk t) stamp (t_pipes t) (t_first_unsaved t)
(t_last_unsaved t) (t_retry_at t) (t_close_at t) (t_sealing t) (t_found t) (t_files t) (t_asked t)
(t_safe t) (t_events t).
Definition with_pipes (t : Task) pipes : Task :=
MkTask (t_document t) (t_journal t) (t_path t) (t_disk t) (t_stamp t) pipes (t_first_unsaved t)
(t_last_unsaved t) (t_retry_at t) (t_close_at t) (t_sealing t) (t_found t) (t_files t) (t_asked t)
(t_safe t) (t_events t).
Definition with_unsaved (t : Task) first last : Task :=
MkTask (t_document t) (t_journal t) (t_path t) (t_disk t) (t_stamp t) (t_pipes t) first last (t_retry_at t)
(t_close_at t) (t_sealing t) (t_found t) (t_files t) (t_asked t) (t_safe t) (t_events t).
Definition with_retry_at (t : Task) retry_at : Task :=
MkTask (t_document t) (t_journal t) (t_path t) (t_disk t) (t_stamp t) (t_pipes t) (t_first_unsaved t)
(t_last_unsaved t) retry_at (t_close_at t) (t_sealing t) (t_found t) (t_files t) (t_asked t) (t_safe t)
(t_events t).
Definition with_close_at (t : Task) close_at : Task :=
MkTask (t_document t) (t_journal t) (t_path t) (t_disk t) (t_stamp t) (t_pipes t) (t_first_unsaved t)
(t_last_unsaved t) (t_retry_at t) close_at (t_sealing t) (t_found t) (t_files t) (t_asked t) (t_safe t)
(t_events t).
Definition with_sealing (t : Task) sealing : Task :=
MkTask (t_document t) (t_journal t) (t_path t) (t_disk t) (t_stamp t) (t_pipes t) (t_first_unsaved t)
(t_last_unsaved t) (t_retry_at t) (t_close_at t) sealing (t_found t) (t_files t) (t_asked t) (t_safe t)
(t_events t).
Definition with_found (t : Task) found : Task :=
MkTask (t_document t) (t_journal t) (t_path t) (t_disk t) (t_stamp t) (t_pipes t) (t_first_unsaved t)
(t_last_unsaved t) (t_retry_at t) (t_close_at t) (t_sealing t) found (t_files t) (t_asked t) (t_safe t)
(t_events t).
Definition with_files (t : Task) files : Task :=
MkTask (t_document t) (t_journal t) (t_path t) (t_disk t) (t_stamp t) (t_pipes t) (t_first_unsaved t)
(t_last_unsaved t) (t_retry_at t) (t_close_at t) (t_sealing t) (t_found t) files (t_asked t) (t_safe t)
(t_events t).
Definition with_safe (t : Task) safe : Task :=
MkTask (t_document t) (t_journal t) (t_path t) (t_disk t) (t_stamp t) (t_pipes t) (t_first_unsaved t)
(t_last_unsaved t) (t_retry_at t) (t_close_at t) (t_sealing t) (t_found t) (t_files t) (t_asked t) safe
(t_events t).
Definition happens (t : Task) event : Task :=
MkTask (t_document t) (t_journal t) (t_path t) (t_disk t) (t_stamp t) (t_pipes t) (t_first_unsaved t)
(t_last_unsaved t) (t_retry_at t) (t_close_at t) (t_sealing t) (t_found t) (t_files t) (t_asked t)
(t_safe t) (t_events t ++ [event]).

(** The next answer of the world. *)
Definition ask {A} (answers : nat -> A) (t : Task) : A * Task :=
(answers (t_asked t),
MkTask (t_document t) (t_journal t) (t_path t) (t_disk t) (t_stamp t) (t_pipes t) (t_first_unsaved t)
(t_last_unsaved t) (t_retry_at t) (t_close_at t) (t_sealing t) (t_found t) (t_files t) (S (t_asked t))
(t_safe t) (t_events t)).

(** [self.document.step(input)]. *)
Definition enter (t : Task) (input : Input) : Task * list Effect :=
let '(document, effects) := step (t_document t) input in (with_document t document, effects).

(** The records of the changes of the document. *)
Definition made_records (t : Task) : list bytes :=
t_found t ++ (record_of <$> drop (length (t_found t)) (d_log (t_document t))).

Section world.
Context (w : World).

(** ** The journal *)

(** [Journal::record].  Bytes that went in before a failure stay in the file. *)
Definition grow (t : Task) (kind : Byte.byte) (body : bytes) : Task * bool :=
match record kind body with
| None => (happens t Lost, false)
| Some bytes =>
let '(answer, t) := ask (w_grow w) t in
let j := t_journal t in
let f := j_folder j in
let put part := MkFolder (fo_original f) (Some (default [] (fo_records f) ++ part)) (fo_meta f) (fo_assets f) in
match answer, j_open j with
| Some k, true => (happens (with_journal t (MkJournal (put (take k bytes)) true (j_bytes j))) Lost, false)
| None, true => (with_journal t (MkJournal (put bytes) true (j_bytes j + len bytes)), true)
| _, false => (with_journal t (MkJournal f false (j_bytes j + len bytes)), true)
end
end.

(** [Journal::sync]. *)
Definition sync (t : Task) : Task :=
if j_open (t_journal t) then
let '(ok, t) := ask (w_call w) t in
if (ok : bool) then with_safe t (default [] (fo_records (j_folder (t_journal t)))) else happens t Lost
else t.

(** [Journal::saved]. *)
Definition save_recorded (t : Task) (rev : Rev) (hash : Hash) : Task :=
let '(t, ok) := grow t SAVED (be_bytes 8 rev ++ hash) in if (ok : bool) then sync t else t.

(** ** Sending *)

(** One view: a view that is behind, or whose receiver is gone, joins the list. *)
Definition offer (frame : bytes) (catchup : bool) (at_ : Task * list PipeId) (pipe : PipeId) : Task * list PipeId :=
let '(t, behind) := at_ in
match t_pipes t !! pipe with
| None => (t, behind)
| Some outgoing =>
let '(received, t) := ask (w_received w) t in
if negb catchup && (MOST_WAITING <? o_sent outgoing - received)%N then (t, behind ++ [pipe])
else
let t := with_pipes t (<[pipe := MkOutgoing (o_sent outgoing + len frame)]> (t_pipes t)) in
let '(ok, t) := ask (w_call w) t in
if (ok : bool) then (happens t (Sent pipe frame (t_safe t) (made_records t)), behind)
else (t, behind ++ [pipe])
end.

(** [send_all], for a way to send. *)
Definition send_each (send : Task -> list PipeId -> bytes -> bool -> Task) (t : Task) (effects : list Effect) : Task :=
foldl (fun t effect => match effect with Send to frame catchup => send t to frame catchup | _ => t end) t effects.

Definition drop_pipe (send : Task -> list PipeId -> bytes -> bool -> Task) (t : Task) (pipe : PipeId) : Task :=
let '(t, more) := enter (with_pipes t (delete pipe (t_pipes t))) (Left pipe) in send_each send t more.

Fixpoint send_fuel (fuel : nat) (t : Task) (to : list PipeId) (frame : bytes) (catchup : bool) : Task :=
match fuel with
| O => t
| S fuel =>
let '(t, behind) := foldl (offer frame catchup) (t, []) to in
foldl (drop_pipe (send_fuel fuel)) t behind
end.

Definition seats (t : Task) : nat := length (d_seats (t_document t)).
Definition send (t : Task) : list PipeId -> bytes -> bool -> Task := send_fuel (S (seats t)) t.
Definition send_all : Task -> list Effect -> Task := send_each send.

(** ** Saving *)

Definition failed (t : Task) : Task * option Stamp :=
let '(ok, t) := ask (w_call w) t in
(if (ok : bool) then with_files t (MkFiles (f_file (t_files t)) None) else t, None).

(** A call of [write_whole]; the first that fails ends it, and the temporary file goes. *)
Definition try (t : Task) (next : Task -> Task * option Stamp) : Task * option Stamp :=
let '(ok, t) := ask (w_call w) t in if (ok : bool) then next t else failed t.

Definition write_whole (t : Task) (bytes : list Byte.byte) : Task * option Stamp :=
try t (fun t =>                                                        (* metadata *)
let '(part, t) := ask (w_grow w) t in
let written := match part with None => bytes | Some k => take k bytes end in
let t := with_files t (MkFiles (f_file (t_files t)) (Some written)) in
if part then failed t else                                             (* write *)
try t (fun t =>                                                        (* sync_data *)
try t (fun t =>                                                        (* set_permissions *)
try t (fun t =>                                                        (* rename *)
let t := happens (with_files t (MkFiles (default [] (f_temporary (t_files t))) None)) (Wrote bytes) in
let '(stamp, t) := ask (w_stamp w) t in                                (* metadata *)
match stamp with Some stamp => (t, Some stamp) | None => failed t end)))).

Definition retry (t : Task) : Task := let '(now, t) := ask (w_now w) t in with_retry_at t (Some (now + RETRY_SAVE)%N).

Definition write (t : Task) (rev : Rev) (file : bytes) : Task :=
let '(t, stamp) := write_whole t file in
match stamp with
| Some stamp =>
let t := with_stamp t stamp in
let t := save_recorded t rev (sha256 file) in
let t := with_disk t file in
let '(t, effects) := enter t (Saved rev) in
send_all t effects
| None =>
let t := retry t in
let '(t, effects) := enter t SaveWaits in
send_all t effects
end.

Definition save_effect (t : Task) (effect : Effect) : Task :=
match effect with
| Write rev file => write t rev file
| Send to frame catchup => send (retry t) to frame catchup
| _ => t
end.

Definition save (t : Task) : Task :=
let '(t, effects) := enter t (Save (t_disk t)) in
foldl save_effect (with_unsaved t None None) effects.

(** A journal that cannot start has removed the old one, whose open file is in no folder now. *)
Definition start_new_journal (t : Task) : Task :=
let '(epoch, t) := ask (w_epoch w) t in
match epoch with
| None => t
| Some epoch =>
let '(answer, t) := ask (w_start w) t in
match answer with
| None =>
let d := t_document t in
let t := with_journal t (Journal.start (t_path t) (t_disk t) epoch (d_rev d) (d_seqs d)) in
let '(t, effects) := enter (with_found (with_safe t []) []) (Rebased (t_disk t) epoch) in
send_all t effects
| Some folder => happens (with_safe (with_journal t (MkJournal folder false (j_bytes (t_journal t)))) []) Lost
end
end.

(** ** Effects *)

(** The first loop of [run_effects]: what must be safe before a view hears of it. *)
Definition note_effect (at_ : Task * bool * list Effect) (effect : Effect) : Task * bool * list Effect :=
let '(t, appended, sends) := at_ in
match effect with
| Append record => ((grow t CHANGE record).1, true, sends)
| KeepAsset hash =>
match AssetOps.get hash (d_assets (t_document t)) with
| None => (t, appended, sends)
| Some bytes =>
let '(ok, t) := ask (w_call w) t in
(if (ok : bool) then with_journal t (keep_asset (t_journal t) bytes) else t, appended, sends)
end
| Unsaved =>
let '(now, t) := ask (w_now w) t in
let first := match t_first_unsaved t with None => now | Some first => first end in
(with_unsaved t (Some first) (Some now), appended, sends)
| Seal => (with_sealing t true, appended, sends)
| _ => (t, appended, sends ++ [effect])
end.

(** The second loop. *)
Definition tell_effect (t : Task) (effect : Effect) : Task :=
match effect with
| Send to frame catchup => send t to frame catchup
| Drop pipe => drop_pipe send t pipe
| Write rev file => write t rev file
| _ => t
end.

Definition seal (t : Task) : Task :=
if t_sealing t || (MOST_JOURNAL <? j_bytes (t_journal t))%N then
let t := save (with_sealing t false) in
if (d_rev (t_document t) =? d_saved_rev (t_document t))%N then start_new_journal t else t
else t.

Definition run_effects (t : Task) (effects : list Effect) : Task :=
let '(t, appended, sends) := foldl note_effect (t, false, []) effects in
let t := if (appended : bool) then sync t else t in
seal (foldl tell_effect t sends).

(** ** What wakes the task *)

(** The flag is true when the task ends. *)
Definition remove_gone (t : Task) : Task :=
let '(t, effects) := enter t (Closing ClosedRemoved) in send_all t effects.

Definition look_at_file (t : Task) : Task * bool :=
let '(look, t) := ask (w_look w) t in
match look with
| NotFound => (remove_gone t, true)
| Unknown => (t, false)
| At stamp =>
if decide (stamp = t_stamp t) then (t, false)
else
let '(read, t) := ask (w_read w) t in
match read with
| None => (t, false)
| Some file =>
let t := with_files (with_stamp t stamp) (MkFiles file (f_temporary (t_files t))) in
if decide (sha256 file = sha256 (t_disk t)) then (t, false)
else
let '(t, effects) := enter t (FileChanged file OUTSIDE) in
let taken := existsb (fun effect => match effect with FileTaken => true | _ => false end) effects in
(run_effects (if taken then with_disk t file else t) effects, false)
end
end.

Definition finish (t : Task) (reason : ClosedReason) : Task :=
let t := save t in
let saved := (d_rev (t_document t) =? d_saved_rev (t_document t))%N in
let '(t, effects) := enter t (Closing reason) in
let t := send_all t effects in
if saved then with_safe (with_journal t (remove (t_journal t))) [] else t.

Definition nobody_left (t : Task) : Task :=
match d_seats (t_document t), t_close_at t with
| [], None => let '(now, t) := ask (w_now w) t in with_close_at t (Some (now + CLOSE_AFTER)%N)
| _, _ => t
end.

Fixpoint take_batch (t : Task) (effects : list Effect) (batch : list Command) : Task * bool :=
match batch with
| [] => (nobody_left (run_effects t effects), false)
| Connect pipe viewer :: batch =>
let t := with_pipes (with_close_at t None) (<[pipe := MkOutgoing 0]> (t_pipes t)) in
let '(t, more) := enter t (Connected pipe viewer) in
take_batch t (effects ++ more) batch
| Enter input :: batch =>
let t := match input with Left pipe => with_pipes t (delete pipe (t_pipes t)) | _ => t end in
let '(t, more) := enter t input in
take_batch t (effects ++ more) batch
| Flush :: batch => take_batch (save (run_effects t effects)) [] batch
| Close :: _ => (finish (run_effects t effects) ClosedFailed, true)
end.

(** [Option::min] of what is there. *)
Definition earliest (l : list (option N)) : option N :=
foldl (fun best at_ => match best, at_ with
| Some a, Some b => Some (N.min a b) | None, at_ => at_ | best, None => best end) None l.

Definition next_deadline (t : Task) : option N :=
let saving := match t_first_unsaved t, t_last_unsaved t with
| Some first, Some last => Some (N.min (first + SAVE_AFTER_FIRST) (last + SAVE_AFTER_LAST))
| _, _ => None end in
earliest [saving; t_retry_at t; t_close_at t].

Definition is_after (now : N) (at_ : option N) : bool := match at_ with Some at_ => (at_ <=? now)%N | None => false end.

Definition deadline_reached (t : Task) : Task * bool :=
let '(now, t) := ask (w_now w) t in
if is_after now (t_close_at t)
then (finish t ClosedFailed, true)
else (save (with_retry_at t None), false).

(** What [select!] takes in [run]: a batch, the deadline, the watch, or the end of the
commands. *)
Inductive Wake : Type := Batch (batch : list Command) | Deadline | Watch | NoCommands.

Definition wake (t : Task) (by_ : Wake) : Task * bool :=
match by_ with
| Batch batch => take_batch t [] batch
| Deadline => deadline_reached t
| Watch => look_at_file t
| NoCommands => (finish t ClosedFailed, true)
end.

(** The inputs that a [Pipe] of [documents/src/lib.rs] makes. *)
Definition from_pipe (input : Input) : bool := match input with InMessage _ _ | Left _ => true | _ => false end.
Definition from_host (by_ : Wake) : bool :=
match by_ with
| Batch batch => forallb (fun command => match command with Enter input => from_pipe input | _ => true end) batch
| _ => true
end.

(** ** Opening *)

(** The document, its journal, whether another program wrote the file since, and the
records that were found. *)
Definition open_or_restore (path : string) (folder : Folder) (disk : bytes) :
option (Document * Journal * bool * list bytes) :=
let fresh :=
epoch ← w_epoch w 0;
document ← open disk epoch AssetOps.empty;
match w_start w 0 with
| None => Some (document, Journal.start path disk epoch 0 ∅, false, [])
| Some _ => None
end in
match find folder path with
| None => fresh
| Some (journal, found) =>
let known := match fd_saved_hash found with Some hash => hash | None => sha256 (fd_original found) end in
match restore (fd_original found) (fd_restored found) (fd_records found) (fd_assets found) with
| Some document => Some (document, journal, negb (bool_decide (sha256 disk = known)), fd_records found)
| None => fresh
end
end.

Definition start (path : string) (folder : Folder) (disk : bytes) (stamp : Stamp) : option Task :=
'(document, journal, outside, found) ← open_or_restore path folder disk;
let unsaved := if (d_rev document =? d_saved_rev document)%N then None else Some (w_now w 0) in
let t := MkTask document journal path disk stamp ∅ unsaved unsaved None (Some (w_now w 0 + CLOSE_AFTER)%N) false
found (MkFiles disk None) 1 (default [] (fo_records (j_folder journal))) [] in
Some (if (outside : bool) then (look_at_file t).1 else t).

(** The states that the loop of [run] comes to; true when the task has ended. *)
Inductive runs : Task -> bool -> Prop :=
| runs_start path folder disk stamp t : start path folder disk stamp = Some t -> runs t false
| runs_wake t by_ t' ended : runs t false -> from_host by_ = true -> wake t by_ = (t', ended) -> runs t' ended.
End world.
End task.
Arguments Task : clear implicits.
Arguments Event : clear implicits.
