(* ===== verification/TaskSpec.v ===== *)
(** What a document task keeps: the records that are safe, the deadline of what is not saved,
    and the rounds of a send.  The theorems are in [TaskClaims]. *)

From S2P Require Import Prelude Json Contract BTree Format Live LiveSpec Journal Task.
Open Scope nat_scope.

(** ** What a records file reads as *)

Inductive reads : bytes -> Read -> Read -> Prop :=
| reads_end r : reads [] r r
| reads_one kind a b c d body tail r r1 r' :
    from_be [a; b; c; d] = len body -> read_one kind body r = Some r1 -> reads tail r1 r' ->
    reads (kind :: a :: b :: c :: d :: body ++ tail) r r'.

Definition unread : Read := MkRead [] [] None.

Lemma reads_app l1 l2 r r1 r2 : reads l1 r r1 -> reads l2 r1 r2 -> reads (l1 ++ l2) r r2.
Proof.
  induction 1 as [|kind a b c d body tail r r0 r' Hl Hr _ IH]; [done|]. intros H2. simpl. rewrite <- app_assoc.
  econstructor; eauto.
Qed.

Lemma reads_loop l r r' : reads l r r' -> forall fuel, length l <= fuel -> read_loop fuel l r = Some (r', []).
Proof.
  induction 1 as [|kind a b c d body tail r r0 r' Hl Hr _ IH]; intros [|fuel] Hf; simpl in Hf; try done; [lia|].
  cbn [read_loop]. rewrite Hl, split_len_app, Hr by done. apply IH. rewrite length_app in Hf. lia.
Qed.

Lemma split_len_spec {A} (n : N) (l a b : list A) : split_len n l = Some (a, b) -> l = a ++ b /\ len a = n.
Proof.
  unfold split_len, len. destruct (N.leb_spec n (N.of_nat (length l))); [|done]. intros [= <- <-]. split; [by rewrite take_drop|]. rewrite length_take. lia.
Qed.

Lemma loop_reads fuel : forall l r r' rest, read_loop fuel l r = Some (r', rest) -> exists pre, l = pre ++ rest /\ reads pre r r'.
Proof.
  induction fuel as [|fuel IH]; intros l r r' rest; cbn [read_loop].
  { intros [= <- <-]. exists []. by split; [|constructor]. }
  assert (Hstop : Some (r, l) = Some (r', rest) -> exists pre, l = pre ++ rest /\ reads pre r r').
  { intros [= <- <-]. exists []. by split; [|constructor]. }
  destruct l as [|kind [|a [|b [|c [|d tail]]]]]; try exact Hstop.
  destruct (split_len (from_be [a; b; c; d]) tail) as [[body tail']|] eqn:Es; [|exact Hstop].
  apply split_len_spec in Es as [-> Hl]. destruct (read_one kind body r) as [r1|] eqn:Er; [|done]. simpl.
  intros (pre & -> & Hp)%IH. exists (kind :: a :: b :: c :: d :: body ++ pre). split; [simpl; by rewrite <- app_assoc|].
  by econstructor.
Qed.

Lemma reads_whole file r rest : read_records file = Some (r, rest) ->
  reads (take (length file - length rest) file) unread r.
Proof.
  unfold read_records. intros (pre & -> & Hp)%loop_reads. rewrite length_app, Nat.add_sub. by rewrite take_app_exact.
Qed.

Lemma reads_safe safe r : reads safe unread r -> read_records safe = Some (r, []).
Proof. intros Hr. by apply reads_loop. Qed.

(** The two kinds of record that a task appends. *)
Lemma record_reads kind body bytes r r' : record kind body = Some bytes -> read_one kind body r = Some r' -> reads bytes r r'.
Proof.
  unfold record. destruct (N.ltb_spec (len body) U32) as [Hl|]; [|done]. intros E Hr.
  assert (bytes = kind :: be_bytes 4 (len body) ++ body) as -> by congruence. clear E.
  pose proof (be_bytes_length 4 (len body)) as Hh. pose proof (from_be_len body Hl) as Hf.
  destruct (be_bytes 4 (len body)) as [|a [|b [|c [|d [|]]]]]; try done. simpl app. rewrite <- (app_nil_r body).
  apply (reads_one _ _ _ _ _ _ _ _ r'); [done|done|constructor].
Qed.

Lemma read_change body r : read_one CHANGE body r = Some (MkRead (rd_records r ++ [body]) (rd_saved r) (rd_hash r)).
Proof. done. Qed.

Lemma read_save body r : exists r', read_one SAVED body r = Some r' /\ rd_records r' = rd_records r.
Proof.
  unfold read_one. rewrite (decide_False (P := SAVED = CHANGE)), (decide_True (P := SAVED = SAVED)) by done.
  eexists. split; [done|]. by destruct (split_at 8 body) as [[]|].
Qed.

Lemma foldl_keeps {A B} (P : A -> Prop) (f : A -> B -> A) l a :
  (forall a b, P a -> P (f a b)) -> P a -> P (foldl f a l).
Proof. intros Hf. revert a. induction l as [|b l IH]; [done|]. simpl. eauto. Qed.

(** ** Safe before told *)

Section spec.
Context {M C Q : Type} `{Format M C Q, Digest, Gzip, Serde ToDocument, Serde ToClient, Serde Changed}.
Context `{!FormatLaws M C Q}.
Context (w : World).
Abbreviation Task := (Task.Task M C).

(** Until a write of the journal fails, the safe records at each send hold every change. *)
Definition told_safe (events : list Event) : Prop :=
forall before pipe frame safe made after, events = before ++ Sent pipe frame safe made :: after ->
Lost ∉ before -> exists r, read_records safe = Some (r, []) /\ rd_records r = made.

(** [pending] are the records that the effects still to run append; the flag says that the
records file is safe. *)
Record holds_of (pending : list bytes) (synced : bool) (events : list Event) (found : list bytes)
(log : list (Ordered C)) (j : Journal) (safe : bytes) : Prop := {
holds_told : told_safe events;
holds_found : length found <= length log;
holds_file : Lost ∉ events -> j_open j = true /\ exists file r,
fo_records (j_folder j) = Some file /\ (synced = true -> file = safe) /\ reads file unread r /\
rd_records r ++ pending = found ++ (record_of <$> drop (length found) log)
}.
Definition holds (pending : list bytes) (synced : bool) (t : Task) : Prop :=
holds_of pending synced (t_events t) (t_found t) (d_log (t_document t)) (t_journal t) (t_safe t).
Definition settled : Task -> Prop := holds [] true.

Lemma told_safe_snoc events event :
(forall pipe frame safe made, event = Sent pipe frame safe made -> Lost ∉ events ->
exists r, read_records safe = Some (r, []) /\ rd_records r = made) ->
told_safe events -> told_safe (events ++ [event]).
Proof.
intros He Ht before pipe frame safe made after E Hb.
destruct after as [|x after _] using rev_ind.
- apply app_inj_tail in E as [-> ->]. by eapply He.
- rewrite app_comm_cons, app_assoc in E. apply app_inj_tail in E as [-> ->]. by eapply Ht.
Qed.

(** A write that failed: nothing is promised from here on. *)
Lemma lost_of pending synced events found log j safe :
told_safe events -> length found <= length log -> holds_of pending synced (events ++ [Lost]) found log j safe.
Proof. intros Ht Hf. constructor; [by apply told_safe_snoc|done|]. intros Hl. destruct Hl. set_solver. Qed.

Lemma lost_holds pending synced synced' pending' t : holds pending synced t -> holds pending' synced' (happens t Lost).
Proof. intros [Ht Hf _]. by apply lost_of. Qed.

Lemma sent_holds t pipe frame : settled t -> settled (happens t (Sent pipe frame (t_safe t) (made_records t))).
Proof.
intros [Ht Hf Hj]. constructor; [|done|].
- simpl. apply told_safe_snoc; [|done]. intros ? ? ? ? [= <- <- <- <-] Hl.
destruct (Hj Hl) as (_ & file & r & _ & Hs & Hr & E). exists r. rewrite <- Hs by done.
split; [by apply reads_safe|]. by rewrite app_nil_r in E.
- simpl. intros Hl. apply Hj. set_solver.
Qed.

Lemma wrote_holds pending synced t file : holds pending synced t -> holds pending synced (happens t (Wrote file)).
Proof. intros [Ht Hf Hj]. constructor; [by apply told_safe_snoc|done|]. simpl. intros Hl. apply Hj. set_solver. Qed.

(** An input puts the records of its changes in front of the journal. *)
Lemma enter_holds pending synced t input t' effects :
(forall file epoch, input <> Rebased file epoch) -> enter t input = (t', effects) ->
holds pending synced t -> holds (pending ++ appended effects) synced t'.
Proof.
unfold enter. intros Hn. destruct (step (t_document t) input) as [d' effects'] eqn:E. intros [= <- <-] [Ht Hf Hj].
pose proof (step_run _ _ _ _ E Hn) as (os & Hr & Ha). pose proof (run_fixed _ _ _ Hr) as (El & _). simpl in El.
constructor; simpl; [done|rewrite El, length_app; lia|]. intros Hl. destruct (Hj Hl) as (Ho & file & r & Hfile & Hs & Hrd & Em).
split; [done|]. exists file, r. split; [done|]. split; [done|]. split; [done|].
rewrite El, drop_app_le, fmap_app, Ha by done. by rewrite !app_assoc, Em.
Qed.

Definition quiet_input (input : Input) : bool :=
match input with InMessage _ _ | FileChanged _ _ | Rebased _ _ => false | _ => true end.

Lemma quiet_step (d : Live.Document M C) input d' effects :
quiet_input input = true -> step d input = (d', effects) -> appended effects = [].
Proof.
destruct input; try done; simpl; intros _.
- by intros [= <- <-].
- unfold left. intros [= <- <-]. by destruct (_ ≫= _).
- unfold Live.save, Live.save_waits. destruct (_ =? _)%N; [by intros [= <- <-]|]. destruct (f_write _ _ _); [by intros [= <- <-]|].
destruct (d_waits d); by intros [= <- <-].
- by intros [= <- <-].
- unfold Live.save_waits. destruct (d_waits d); by intros [= <- <-].
- by intros [= <- <-].
Qed.

Lemma enter_quiet pending synced t input t' effects :
quiet_input input = true -> enter t input = (t', effects) -> holds pending synced t -> holds pending synced t'.
Proof.
intros Hq E Hh. assert (Hn : forall file epoch, input <> Rebased file epoch) by (intros ? ? ->; done).
pose proof (enter_holds _ _ _ _ _ _ Hn E Hh) as Hh'.
unfold enter in E. destruct (step (t_document t) input) as [d' effects'] eqn:Es. injection E as <- <-.
by rewrite (quiet_step _ _ _ _ Hq Es), app_nil_r in Hh'.
Qed.

(** *** The journal *)

Lemma grow_holds pending synced t kind body t' ok r0 :
(forall r, exists r', read_one kind body r = Some r' /\ rd_records r' = rd_records r ++ r0) ->
grow w t kind body = (t', ok) -> holds (r0 ++ pending) synced t -> holds pending false t'.
Proof.
intros Hread. unfold grow. destruct (record kind body) as [bytes|] eqn:Er; [|intros [= <- <-]; by apply lost_holds].
cbn [ask]. intros E Hh. pose proof Hh as [Ht Hf Hj].
destruct (j_open (t_journal t)) eqn:Eo.
- destruct (w_grow w (t_asked t)) as [k|]; cbn in E; rewrite Eo in E; injection E as <- <-.
+ by apply lost_of.
+ constructor; cbn; [done|done|]. intros Hl. split; [done|].
destruct (Hj Hl) as (_ & file & r & Hfile & _ & Hr & Em). destruct (Hread r) as (r' & Hr' & Er').
exists (file ++ bytes), r'. rewrite Hfile. split; [done|]. split; [done|].
split; [eapply reads_app; [done|by eapply record_reads]|]. by rewrite Er', <- app_assoc.
- assert (Hl : ~ (Lost ∉ t_events t)) by (intros Hl; destruct (Hj Hl); congruence).
destruct (w_grow w (t_asked t)) as [k|]; cbn in E; rewrite Eo in E; injection E as <- <-; 
(constructor; [done|done|intros Hl'; by destruct (Hl Hl')]).
Qed.

Lemma sync_holds pending synced t : holds pending synced t -> holds pending true (sync w t).
Proof.
intros Hh. pose proof Hh as [Ht Hf Hj]. unfold sync. destruct (j_open (t_journal t)) eqn:Eo.
- cbn [ask]. destruct (w_call w (t_asked t)); [|by apply (lost_holds pending synced)].
constructor; cbn; [done|done|]. intros Hl. split; [done|].
destruct (Hj Hl) as (_ & file & r & Hfile & _ & Hr & Em). exists file, r. by rewrite Hfile.
- constructor; [done|done|]. intros Hl. destruct (Hj Hl); congruence.
Qed.

Lemma grow_fails pending synced pending' synced' t kind body t' :
grow w t kind body = (t', false) -> holds pending synced t -> holds pending' synced' t'.
Proof.
unfold grow. intros E [Ht Hf _]. destruct (record kind body); [|injection E as <-; by apply lost_of].
cbn [ask] in E. destruct (w_grow w (t_asked t)), (j_open (t_journal t)) eqn:Eo; cbn in E; rewrite Eo in E;
first [discriminate E|injection E as <-; by apply lost_of].
Qed.

Lemma save_recorded_holds t rev hash : settled t -> settled (save_recorded w t rev hash).
Proof.
intros Hh. unfold save_recorded. generalize (be_bytes 8 rev ++ hash). intros body.
destruct (grow w t SAVED body) as [t' [|]] eqn:E; [|by eapply grow_fails].
eapply sync_holds, (grow_holds [] true _ _ _ _ _ []); [|exact E|done]. intros r. rewrite app_nil_r. apply read_save.
Qed.

(** *** Sends and saves *)

Lemma offer_settled frame catchup at_ pipe : settled at_.1 -> settled (offer w frame catchup at_ pipe).1.
Proof.
destruct at_ as [t behind]. cbn [fst]. intros Hs. unfold offer. destruct (t_pipes t !! pipe) as [outgoing|]; [|done].
cbn [ask]. destruct (negb catchup && _); [exact Hs|]. cbn [ask]. destruct (w_call w _); [|exact Hs].
cbn [fst]. apply sent_holds. exact Hs.
Qed.

Lemma send_each_settled send (t : Task) effects :
(forall t to frame catchup, settled t -> settled (send t to frame catchup)) -> settled t -> settled (send_each send t effects).
Proof. intros Hsend. apply foldl_keeps. intros t' [] Ht; auto. Qed.

Lemma drop_pipe_settled send (t : Task) pipe :
(forall t to frame catchup, settled t -> settled (send t to frame catchup)) -> settled t -> settled (drop_pipe send t pipe).
Proof.
intros Hsend Hs. unfold drop_pipe. destruct (enter _ _) as [t' more] eqn:E.
apply send_each_settled; [done|]. by eapply (enter_quiet [] true); [|exact E|].
Qed.

Lemma send_fuel_settled fuel : forall t to frame catchup, settled t -> settled (send_fuel w fuel t to frame catchup).
Proof.
induction fuel as [|fuel IH]; intros t to frame catchup Hs; [done|]. cbn [send_fuel].
destruct (foldl (offer w frame catchup) (t, []) to) as [t' behind] eqn:E.
assert (Ht : settled t').
{ change t' with (t', behind).1. rewrite <- E. apply (foldl_keeps (fun at_ => settled at_.1)); [|done].
intros. by apply offer_settled. }
apply foldl_keeps; [|done]. intros. by apply drop_pipe_settled.
Qed.

Lemma send_settled t to frame catchup : settled t -> settled (send w t to frame catchup).
Proof. apply send_fuel_settled. Qed.

Lemma send_all_settled t effects : settled t -> settled (send_all w t effects).
Proof. apply send_each_settled, send_settled. Qed.

Lemma enter_send_settled t input :
quiet_input input = true -> settled t -> settled (let '(t, effects) := enter t input in send_all w t effects).
Proof.
intros Hq Hs. destruct (enter t input) as [t' effects] eqn:E. apply send_all_settled. by eapply (enter_quiet [] true).
Qed.

Lemma try_settled t next :
(forall t, settled t -> settled (next t).1) -> settled t -> settled (try w t next).1.
Proof.
intros Hn Hs. unfold try. cbn [ask]. destruct (w_call w _); [by apply Hn|]. unfold failed. cbn. by destruct (w_call w _).
Qed.

Lemma failed_settled t : settled t -> settled (failed w t).1.
Proof. intros Hs. unfold failed. cbn. by destruct (w_call w _). Qed.

Lemma write_whole_settled t bytes : settled t -> settled (write_whole w t bytes).1.
Proof.
apply try_settled. clear t. intros t Hs. cbn [ask]. destruct (w_grow w _) as [k|]; [by apply failed_settled|].
do 3 (apply try_settled; [|exact Hs]; clear t Hs; intros t Hs). cbn [ask].
assert (Hw : settled (happens (with_files t (MkFiles (default [] (f_temporary (t_files t))) None)) (Wrote bytes)))
by (apply wrote_holds; exact Hs).
destruct (w_stamp w _); [exact Hw|]. by apply failed_settled.
Qed.

Lemma write_settled t rev file : settled t -> settled (write w t rev file).
Proof.
intros Hs. unfold write. destruct (write_whole w t file) as [t' stamp] eqn:E.
assert (Ht : settled t') by (change t' with (t', stamp).1; rewrite <- E; by apply write_whole_settled).
destruct stamp as [stamp|]; [|by apply enter_send_settled].
pose proof (save_recorded_holds (with_stamp t' stamp) rev (sha256 file) Ht) as Hr. revert Hr.
generalize (save_recorded w (with_stamp t' stamp) rev (sha256 file)). intros t2 Hr.
by apply enter_send_settled.
Qed.

Lemma save_effect_settled t effect : settled t -> settled (save_effect w t effect).
Proof. intros Hs. destruct effect; try done; [by apply send_settled|by apply write_settled]. Qed.

Lemma save_settled t : settled t -> settled (save w t).
Proof.
intros Hs. unfold save. destruct (enter t _) as [t' effects] eqn:E.
apply foldl_keeps; [intros; by apply save_effect_settled|]. by apply (enter_quiet [] true t (Save (t_disk t)) t' effects).
Qed.

Lemma start_new_journal_settled t : settled t -> settled (start_new_journal w t).
Proof.
intros Hs. pose proof Hs as [Ht Hf Hj]. unfold start_new_journal. cbn [ask]. destruct (w_epoch w _) as [epoch|]; [|done].
cbn [ask]. destruct (w_start w _) as [folder|]; [by apply lost_of|].
constructor; cbn; [done|lia|]. intros _. split; [done|].
exists [], unread. split; [done|]. split; [done|]. split; [constructor|done].
Qed.

(** *** Effects *)

(** What the first loop leaves owed to the records file. *)
Lemma note_effects_hold effects : forall (t : Task) appended0 sends pending t' appended' sends',
foldl (note_effect w) (t, appended0, sends) effects = (t', appended', sends') ->
holds (appended effects ++ pending) (negb appended0) t -> holds pending (negb appended') t'.
Proof.
induction effects as [|effect effects IH]; intros t a s pending t' a' s'; cbn [foldl].
{ by intros [= <- <- <-]. }
intros E Hh. change (appended (effect :: effects)) with (appended ([effect] ++ effects)) in Hh.
rewrite appended_app, <- app_assoc in Hh.
destruct (note_effect w (t, a, s) effect) as [[t1 a1] s1] eqn:E1. apply (IH _ _ _ _ _ _ _ E).
destruct effect; simpl in Hh; unfold note_effect in E1; try (injection E1 as <- <- <-; exact Hh).
- destruct (grow w t CHANGE record) as [t2 ok] eqn:Eg. injection E1 as <- <- <-.
eapply (grow_holds (appended effects ++ pending) (negb a) t CHANGE record t2 ok [record]); [|exact Eg|exact Hh].
intros r. eexists. split; [apply read_change|done].
- destruct (AssetOps.get _ _) as [bytes|]; [|injection E1 as <- <- <-; exact Hh]. cbn [ask] in E1.
destruct (w_call w _); injection E1 as <- <- <-; [|exact Hh]. destruct Hh as [Ht Hf Hj].
constructor; [exact Ht|exact Hf|]. cbn. intros Hl. destruct (Hj Hl) as (Ho & Hrest). by rewrite Ho.
Qed.

Lemma tell_effect_settled t effect : settled t -> settled (tell_effect w t effect).
Proof.
intros Hs. destruct effect; try done; simpl.
- by apply send_settled.
- apply drop_pipe_settled; [apply send_settled|done].
- by apply write_settled.
Qed.

Lemma seal_settled t : settled t -> settled (seal w t).
Proof.
intros Hs. unfold seal. destruct (_ || _); [|done].
assert (Hs' : settled (save w (with_sealing t false))) by (apply save_settled; exact Hs).
destruct (_ =? _)%N; [by apply start_new_journal_settled|done].
Qed.

Lemma run_effects_settled t effects : holds (appended effects) true t -> settled (run_effects w t effects).
Proof.
intros Hh. unfold run_effects. destruct (foldl (note_effect w) (t, false, []) effects) as [[t1 a] sends] eqn:E.
apply (note_effects_hold _ _ _ _ []) in E; [|by rewrite app_nil_r].
apply seal_settled, foldl_keeps; [intros; by apply tell_effect_settled|].
destruct a; [by eapply sync_holds|exact E].
Qed.

(** *** Wakes *)

Lemma look_at_file_settled t : settled t -> settled (look_at_file w t).1.
Proof.
intros Hs. unfold look_at_file. cbn [ask]. destruct (w_look w _) as [| |stamp]; [|done|].
{ simpl. unfold remove_gone. by apply enter_send_settled. }
destruct (decide _); [done|]. cbn [ask]. destruct (w_read w _) as [file|]; [|done]. destruct (decide _); [done|].
destruct (enter _ _) as [t' effects] eqn:E. cbn [fst]. apply run_effects_settled.
assert (Ht : holds ([] ++ appended effects) true t') by (eapply enter_holds; [|exact E|exact Hs]; done).
by destruct (existsb _ _).
Qed.

Lemma finish_settled t reason : settled t -> told_safe (t_events (finish w t reason)).
Proof.
intros Hs. unfold finish. set (t1 := save w t).
assert (Hs1 : settled t1) by by apply save_settled.
pose proof (enter_send_settled t1 (Closing reason) eq_refl Hs1) as Hs2.
destruct (enter t1 (Closing reason)) as [t2 effects]. destruct (_ =? _)%N; apply Hs2.
Qed.

Lemma nobody_left_settled t : settled t -> settled (nobody_left w t).
Proof. intros Hs. unfold nobody_left. by destruct (d_seats _), (t_close_at t). Qed.

Lemma take_batch_settled batch : forall t effects t' ended,
take_batch w t effects batch = (t', ended) -> from_host (Batch batch) = true -> holds (appended effects) true t ->
told_safe (t_events t') /\ (ended = false -> settled t').
Proof.
induction batch as [|command batch IH]; intros t effects t' ended; cbn [take_batch].
{ intros [= <- <-] _ Hh. assert (Hs : settled (nobody_left w (run_effects w t effects)))
by by apply nobody_left_settled, run_effects_settled. split; [apply Hs|done]. }
destruct command as [pipe viewer|input| |]; simpl from_host.
- destruct (enter _ _) as [t1 more] eqn:E1. intros E Hb Hh. apply (IH _ _ _ _ E Hb). rewrite appended_app.
eapply enter_holds; [|exact E1|exact Hh]; done.
- intros E [Hi Hb]%andb_true_iff Hh.
assert (Hh' : holds (appended effects) true match input with Left pipe => with_pipes t (delete pipe (t_pipes t)) | _ => t end)
by by destruct input.
destruct (enter _ _) as [t1 more] eqn:E1. apply (IH _ _ _ _ E Hb). rewrite appended_app.
eapply enter_holds; [|exact E1|exact Hh']. by intros ? ? ->.
- intros E Hb Hh. apply (IH _ _ _ _ E Hb). apply save_settled. by apply run_effects_settled.
- intros [= <- <-] _ Hh. split; [|done]. apply finish_settled. by apply run_effects_settled.
Qed.

Lemma wake_settled t by_ t' ended : wake w t by_ = (t', ended) -> from_host by_ = true -> settled t ->
told_safe (t_events t') /\ (ended = false -> settled t').
Proof.
intros E Hb Hs. destruct by_ as [batch| | |]; simpl in E.
- by eapply take_batch_settled.
- unfold deadline_reached in E. destruct (ask (w_now w) t) as [now t1] eqn:Ea.
assert (Hs1 : settled t1) by (injection Ea as <- <-; exact Hs). destruct (is_after _ _); injection E as <- <-.
+ split; [by apply finish_settled|done].
+ assert (Hs' : settled (save w (with_retry_at t1 None))) by (apply save_settled; exact Hs1). by split; [apply Hs'|].
- pose proof (look_at_file_settled t Hs) as Hs'. rewrite E in Hs'. by split; [apply Hs'|].
- injection E as <- <-. split; [by apply finish_settled|done].
Qed.

(** *** Opening *)

Lemma open_log file epoch assets (d : Live.Document M C) : open file epoch assets = Some d -> d_log d = [].
Proof. unfold open. destruct (f_read file assets) as [[m x]|]; [|done]. by intros [= <-]. Qed.

Lemma replay_length (records : list bytes) : forall d d' : Live.Document M C,
replay_all d records = Some d' -> length (d_log d') = length (d_log d) + length records.
Proof.
induction records as [|record records IH]; intros d d'; simpl; [by intros [= <-]|].
destruct (from_slice record) as [changed|]; [|done]. simpl. unfold replay.
destruct (change_from_value _); [|done]. destruct (f_apply _ _ _ _) as [[m x] [c'|]]; [|done]. simpl.
intros Hr. rewrite (IH _ _ Hr). simpl. rewrite length_app. simpl. lia.
Qed.

Lemma restore_length original restored records assets (d : Live.Document M C) :
restore original restored records assets = Some d -> length (d_log d) = length records.
Proof.
unfold restore. destruct (open original _ assets) as [d0|] eqn:Eo; [|done]. simpl. intros Hr.
by rewrite (replay_length _ _ _ Hr), (open_log _ _ _ _ Eo).
Qed.

Lemma open_or_restore_holds path folder disk document journal outside found :
open_or_restore w path folder disk = Some (document, journal, outside, found) ->
holds_of [] true [] found (d_log document) journal (default [] (fo_records (j_folder journal))).
Proof.
assert (Hnew : forall records log (j : Journal) r file, length records = length log -> j_open j = true ->
fo_records (j_folder j) = Some file -> reads file unread r -> rd_records r = records ->
holds_of [] true [] records log j (default [] (fo_records (j_folder j)))).
{ intros records log j r file Hl Ho Hf Hr Er. constructor; [by intros [|? ?] ? ? ? ? ?|lia|]. intros _. split; [done|].
exists file, r. rewrite Hf. split; [done|]. split; [done|]. split; [done|]. by rewrite drop_ge, Er by lia. }
unfold open_or_restore. set (fresh := mbind _ _).
assert (Hfresh : fresh = Some (document, journal, outside, found) ->
holds_of [] true [] found (d_log document) journal (default [] (fo_records (j_folder journal)))).
{ unfold fresh. destruct (w_epoch w 0) as [epoch|]; [|done]. simpl. destruct (open disk epoch _) as [d|] eqn:Eo; [|done].
simpl. destruct (w_start w 0); [done|]. intros [= <- <- <- <-]. rewrite (open_log _ _ _ _ Eo).
by eapply Hnew; [..|apply reads_end|]. }
destruct (find folder path) as [[j f]|] eqn:Ef; [|exact Hfresh].
destruct (restore _ _ _ _) as [d|] eqn:Er; [|exact Hfresh]. intros [= <- <- _ <-]. clear fresh Hfresh.
apply restore_length in Er. unfold find in Ef. destruct (fo_meta folder) as [meta|]; [|done]. simpl in Ef.
destruct (decide _); [|done]. destruct (fo_original folder) as [original|]; [|done]. simpl in Ef.
destruct (read_records _) as [[r rest]|] eqn:Err; [|done]. simpl in Ef. destruct (fo_assets folder); [|done].
simpl in Ef. injection Ef as <- <-. by eapply Hnew; [..|by apply reads_whole|].
Qed.

Lemma start_settled path folder disk stamp t : start w path folder disk stamp = Some t -> settled t.
Proof.
unfold start. destruct (open_or_restore w path folder disk) as [[[[d j] outside] found]|] eqn:E; [|done].
apply open_or_restore_holds in E. simpl. intros [= <-]. destruct outside; [apply look_at_file_settled|]; exact E.
Qed.

Lemma runs_settled t ended : runs w t ended -> told_safe (t_events t) /\ (ended = false -> settled t).
Proof.
induction 1 as [path folder disk stamp t Hs|t by_ t' ended _ [_ IH] Hb E].
- apply start_settled in Hs. split; [apply Hs|done].
- by eapply wake_settled; [exact E|exact Hb|apply IH].
Qed.
End spec.

(* ------------------------------------------------------------ *)

(** A send ends: each round that a send starts has one seat less. *)

Open Scope nat_scope.

Lemma foldl_same {A B} (P : A -> Prop) (f g : A -> B -> A) l a :
  (forall a b, P a -> f a b = g a b /\ P (f a b)) -> P a -> foldl f a l = foldl g a l.
Proof.
  intros Hf. revert a. induction l as [|b l IH]; intros a Ha; [done|]. simpl. destruct (Hf a b Ha) as [<- Hb]. by apply IH.
Qed.

Lemma remove_shorter {V} (key : N) (m : BTree.t V) :
  length (BTree.remove key m) <= length m /\ (BTree.get key m <> None -> length (BTree.remove key m) < length m).
Proof.
  unfold BTree.remove. induction m as [|[k v] m [IH1 IH2]]; [done|]. simpl. rewrite filter_cons. cbn [fst].
  destruct (decide (k = key)) as [->|Hne].
  - rewrite decide_False by (intros Hn; by apply Hn). split; [lia|]. intros _. lia.
  - rewrite decide_True by done. simpl. split; [lia|]. intros Hg. apply IH2 in Hg. lia.
Qed.

Section send.
Context {M C Q : Type} `{Format M C Q, Digest, Gzip, Serde ToDocument, Serde ToClient, Serde Changed}.
Context (w : World).
Abbreviation Task := (Task.Task M C).

(** What a view that left gives: nothing without its seat, or one send. *)
Lemma enter_left (t : Task) pipe : exists t' effects, enter t (Left pipe) = (t', effects) /\ seats t' <= seats t /\
(effects = [] \/ (exists to frame catchup, effects = [Send to frame catchup] /\ seats t' < seats t)).
Proof.
unfold enter, seats. simpl. unfold left. eexists _, _. split; [done|]. simpl.
destruct (remove_shorter pipe (d_seats (t_document t))) as [Hle Hlt]. split; [done|].
destruct (BTree.get pipe _) as [seat|]; simpl; [|by left]. destruct (s_client seat); simpl; [|by left].
right. eexists _, _, _. split; [done|]. by apply Hlt.
Qed.

Lemma offer_seats frame catchup at_ pipe : seats (M:=M) (C:=C) (offer w frame catchup at_ pipe).1 = seats at_.1.
Proof.
destruct at_ as [t behind]. unfold offer. destruct (t_pipes t !! pipe); [|done]. cbn [ask].
destruct (_ && _); [done|]. cbn [ask]. by destruct (w_call w _).
Qed.

Lemma offers_seats frame catchup to (t t' : Task) behind :
foldl (offer w frame catchup) (t, []) to = (t', behind) -> seats t' = seats t.
Proof.
intros E. change t' with (t', behind).1. rewrite <- E. change (seats t) with (seats (t, @nil PipeId).1).
generalize (t, @nil PipeId). clear. induction to as [|pipe to IH]; intros at_; [done|]. simpl.
by rewrite IH, offer_seats.
Qed.

Lemma send_fuel_seats fuel : forall (t : Task) to frame catchup, seats (send_fuel w fuel t to frame catchup) <= seats t.
Proof.
induction fuel as [|fuel IH]; intros t to frame catchup; [done|]. cbn [send_fuel].
destruct (foldl _ (t, []) to) as [t1 behind] eqn:E. apply offers_seats in E as <-.
assert (Hle : seats t1 <= seats t1) by done. revert Hle. generalize t1 at 1 3. generalize (seats t1). clear -IH.
induction behind as [|pipe behind IHb]; intros n t Ht; [done|]. simpl. apply IHb. unfold drop_pipe.
destruct (enter_left (with_pipes t (delete pipe (t_pipes t))) pipe) as (t' & effects & -> & Hle & He).
change (seats (with_pipes t _)) with (seats t) in *.
destruct He as [->|(to & frame & catchup & -> & Hlt)]; simpl; [lia|]. pose proof (IH t' to frame catchup). lia.
Qed.

(** A way to send is used on fewer seats only. *)
Lemma drop_pipe_same send send' n (t : Task) pipe :
(forall t' to frame catchup, seats t' < n -> send t' to frame catchup = send' t' to frame catchup) ->
seats t <= n -> drop_pipe send t pipe = drop_pipe send' t pipe.
Proof.
intros Hsame Hn. unfold drop_pipe.
destruct (enter_left (with_pipes t (delete pipe (t_pipes t))) pipe) as (t' & effects & -> & _ & He).
change (seats (with_pipes t _)) with (seats t) in *.
destruct He as [->|(to & frame & catchup & -> & Hlt)]; [done|]. simpl. apply Hsame. lia.
Qed.

Lemma drop_pipe_seats fuel (t : Task) pipe : seats (drop_pipe (send_fuel w fuel) t pipe) <= seats t.
Proof.
unfold drop_pipe. destruct (enter_left (with_pipes t (delete pipe (t_pipes t))) pipe) as (t' & effects & -> & Hle & He).
change (seats (with_pipes t _)) with (seats t) in *.
destruct He as [->|(to & frame & catchup & -> & Hlt)]; simpl; [lia|]. pose proof (send_fuel_seats fuel t' to frame catchup). lia.
Qed.

(** Any fuel above the number of seats is enough. *)
Lemma send_enough n : forall (t : Task) to frame catchup fuel fuel', seats t <= n -> n < fuel -> n < fuel' ->
send_fuel w fuel t to frame catchup = send_fuel w fuel' t to frame catchup.
Proof.
induction n as [n IH] using lt_wf_ind. intros t to frame catchup [|fuel] [|fuel'] Hn Hf Hf'; try lia. cbn [send_fuel].
destruct (foldl _ (t, []) to) as [t1 behind] eqn:E. apply offers_seats in E.
apply (foldl_same (fun t => seats t <= n)); [|lia]. intros t2 pipe Hs2. split.
- apply (drop_pipe_same _ _ n); [|done]. intros t3 to' frame' catchup' Hs3. apply (IH (seats t3)); lia.
- pose proof (drop_pipe_seats fuel t2 pipe). lia.
Qed.
End send.
