(* ===== verification/TaskDue.v ===== *)
(** A change that is not in the file has a time by which the task saves it. *)

From S2P Require Import Prelude Json Contract BTree Format Live LiveSpec Journal Task TaskSpec.
Open Scope nat_scope.

(** Effects of an input that is no save: each record comes with the notice that the document
    is not saved, and nothing is written. *)
Definition plain (effect : Effect) : bool := match effect with Append _ | Write _ _ => false | _ => true end.

Inductive news : list Effect -> Prop :=
| news_nil : news []
| news_plain effect l : plain effect = true -> news l -> news (effect :: l)
| news_change record effect l : plain effect = true -> news l -> news (Append record :: effect :: Unsaved :: l).

Lemma news_app l1 l2 : news l1 -> news l2 -> news (l1 ++ l2).
Proof. induction 1; [done|by constructor; auto|]. intros Hl. simpl. by constructor; auto. Qed.

Lemma news_all l : Forall (fun effect => plain effect = true) l -> news l.
Proof. induction 1; by constructor. Qed.

Lemma news_no_write l : news l -> Forall (fun effect => match effect with Write _ _ => False | _ => True end) l.
Proof.
  induction 1 as [|effect l He _ IH|record effect l He _ IH]; [done|by constructor; [destruct effect|]|].
  constructor; [done|]. constructor; [by destruct effect|]. by constructor.
Qed.

Lemma news_unsaved l : news l -> appended l <> [] -> Unsaved ∈ l.
Proof.
  induction 1 as [|effect l He _ IH|record effect l He _ IH]; [done| |set_solver].
  intros Ha. apply elem_of_cons. right. apply IH. by destruct effect.
Qed.

Section due.
Context {M C Q : Type} `{Format M C Q, Digest, Gzip, Serde ToDocument, Serde ToClient, Serde Changed}.
Context `{!FormatLaws M C Q}.
Abbreviation Document := (Live.Document M C).

(** ** The effects of an input *)

Definition reports (d : Document) (r : Document * list Effect) : Prop := news r.2 /\ d_saved_rev r.1 = d_saved_rev d.

Lemma reports_plain (d : Document) (r : Document * list Effect) :
Forall (fun effect => plain effect = true) r.2 -> d_saved_rev r.1 = d_saved_rev d -> reports d r.
Proof. split; [by apply news_all|done]. Qed.

Lemma ordered_reports (d : Document) c author client seq : reports d (ordered d c author client seq).
Proof.
unfold ordered. split; [|done]. cbn [snd app]. constructor; [done|]. destruct (f_seals c); repeat (constructor; try done).
Qed.

Lemma change_reports (d : Document) pipe seq base body : reports d (change d pipe seq base body).
Proof.
unfold change. repeat (case_match; try (by apply reports_plain; repeat constructor)).
all: destruct (ordered_reports (with_seqs (with_model d m a) (<[s0:=seq]> (d_seqs (with_model d m a)))) c0 (v_name (s_viewer s)) s0 seq) as [Hn Hs].
all: by split.
Qed.

Lemma apply_outside_reports writer changes : forall d : Document, reports d (apply_outside d writer changes).
Proof.
induction changes as [|c changes IH]; intros d; [by apply reports_plain|]. cbn [apply_outside].
destruct (f_apply _ c [] _) as [[model assets] [c'|]].
- destruct (ordered_reports (with_model d model assets) c' writer ("file:" +:+ writer) 0) as [Hn Hs].
destruct (ordered _ _ _ _ _) as [d1 e1]. destruct (IH d1) as [Hn1 Hs1]. destruct (apply_outside d1 writer changes) as [d2 e2].
split; simpl in *; [by apply news_app|]. congruence.
- destruct (IH (with_model d model assets)) as [Hn Hs]. by split.
Qed.

Lemma message_reports (d : Document) pipe frame : reports d (message d pipe frame).
Proof.
assert (Hdrop : reports d (d, [Drop pipe])) by (apply reports_plain; repeat constructor).
unfold message. destruct (decode frame) as [[msg|hash data]| |]; try exact Hdrop.
- destruct msg as [contract client epoch rev|seq base body|rev body|id body|id];
destruct (match BTree.get pipe (d_seats d) with Some seat => has_client seat | None => false end);
try exact Hdrop; [..|apply change_reports| | |].
+ unfold join. destruct (negb _); [by apply reports_plain; repeat constructor|].
match goal with |- reports d (match ?x with _ => _ end) => destruct x end; apply reports_plain; try done; simpl.
* apply Forall_app. split; [by apply Forall_fmap, Forall_true|by repeat constructor].
* by apply Forall_fmap, Forall_true.
+ unfold place. destruct (log_since d rev); [|by apply reports_plain; repeat constructor].
destruct (BTree.get pipe _) as [seat|]; [|by apply reports_plain; repeat constructor].
destruct (s_client seat); by apply reports_plain; repeat constructor.
+ apply reports_plain; [|done]. simpl. unfold query. by destruct (query_from_value body); repeat constructor.
+ by apply reports_plain; repeat constructor.
- unfold asset_frame. destruct data; [destruct (AssetOps.get _ _); by apply reports_plain; repeat constructor|].
destruct (_ <? _)%N; [by apply reports_plain; repeat constructor|].
destruct (AssetOps.take _ _ _) as [assets [|]]; by apply reports_plain; repeat constructor.
Qed.

Definition no_save (input : Input) : bool :=
match input with Save _ | Saved _ | Rebased _ _ => false | _ => true end.

Lemma step_reports (d : Document) input : no_save input = true -> reports d (step d input).
Proof.
destruct input as [pipe viewer|pipe frame|pipe|file writer|file|rev| |file epoch|reason]; try done; intros _; simpl.
- by apply reports_plain.
- apply message_reports.
- apply reports_plain; [|done]. simpl. destruct (_ ≫= _); by repeat constructor.
- unfold file_changed. destruct (f_read file (d_assets d)) as [[new assets]|]; [|by apply reports_plain].
destruct (nearest_changes _ new) as [changes|]; [|by apply reports_plain].
destruct (apply_outside_reports writer changes (with_model d (d_model d) assets)) as [Hn Hs].
destruct (apply_outside _ writer changes) as [d1 e1]. split; [by constructor|exact Hs].
- unfold save_waits. destruct (d_waits d); by apply reports_plain; repeat constructor.
- by apply reports_plain; repeat constructor.
Qed.

Lemma step_same_rev (d : Document) input d' effects :
step d input = (d', effects) -> (forall file epoch, input <> Rebased file epoch) -> appended effects = [] -> d_rev d' = d_rev d.
Proof.
intros E Hn Ha. pose proof (step_run _ _ _ _ E Hn) as (os & Hr & Eos). rewrite Ha in Eos.
destruct os; [|done]. change (a_rev (order_of d') = a_rev (order_of d)).
revert Hr. generalize (order_of d'). intros b Hr. by inversion Hr.
Qed.

(** ** What a send leaves alone *)

Context (w : World).
Abbreviation Task := (Task.Task M C).

Definition core (t : Task) :=
((d_model (t_document t), d_assets (t_document t), d_rev (t_document t), d_saved_rev (t_document t)),
(t_first_unsaved t, t_last_unsaved t, t_retry_at t), (t_disk t, f_file (t_files t))).

Lemma drop_pipe_core send (t : Task) pipe :
(forall t to frame catchup, core (send t to frame catchup) = core t) -> core (drop_pipe send t pipe) = core t.
Proof.
intros Hsend. unfold drop_pipe.
destruct (enter_left (with_pipes t (delete pipe (t_pipes t))) pipe) as (t' & effects & E & _ & He). rewrite E.
assert (Ht : core t' = core t) by (unfold enter in E; simpl in E; by injection E as <- _).
destruct He as [->|(to & frame & catchup & -> & _)]; simpl; [done|]. by rewrite Hsend.
Qed.

Lemma send_fuel_core fuel : forall (t : Task) to frame catchup, core (send_fuel w fuel t to frame catchup) = core t.
Proof.
induction fuel as [|fuel IH]; intros t to frame catchup; [done|]. cbn [send_fuel].
destruct (foldl _ (t, []) to) as [t1 behind] eqn:E.
assert (Ht : core t1 = core t).
{ change t1 with (t1, behind).1. rewrite <- E. change (core t) with (core (t, @nil PipeId).1).
generalize (t, @nil PipeId). clear. induction to as [|pipe to IH]; intros [t behind]; [done|]. cbn [foldl].
rewrite IH. unfold offer. destruct (t_pipes t !! pipe); [|done]. cbn [ask].
destruct (_ && _); [done|]. cbn [ask]. by destruct (w_call w _). }
rewrite <- Ht. clear E Ht. revert t1. induction behind as [|pipe behind IHb]; intros t1; [done|]. cbn [foldl].
rewrite IHb. by apply drop_pipe_core.
Qed.

Lemma send_core (t : Task) to frame catchup : core (send w t to frame catchup) = core t.
Proof. apply send_fuel_core. Qed.

Lemma send_all_core effects : forall t : Task, core (send_all w t effects) = core t.
Proof.
induction effects as [|effect effects IH]; intros t; [done|]. unfold send_all, send_each in *. cbn [foldl].
rewrite IH. destruct effect; try done. apply send_core.
Qed.

Lemma grow_core (t : Task) kind body : core (grow w t kind body).1 = core t.
Proof.
unfold grow. destruct (record kind body); [|done]. cbn [ask]. by destruct (w_grow w _), (j_open _).
Qed.

Lemma sync_core (t : Task) : core (sync w t) = core t.
Proof. unfold sync. destruct (j_open _); [|done]. cbn [ask]. by destruct (w_call w _). Qed.

Lemma save_recorded_core (t : Task) rev hash : core (save_recorded w t rev hash) = core t.
Proof.
unfold save_recorded. generalize (be_bytes 8 rev ++ hash). intros body. rewrite <- (grow_core t SAVED body).
destruct (grow w t SAVED body) as [t' [|]]; [apply sync_core|done].
Qed.

(** ** Saving *)

(** Saved, or to be saved by a deadline. *)
Definition due (t : Task) : Prop :=
d_rev (t_document t) = d_saved_rev (t_document t) \/ (is_Some (t_first_unsaved t) /\ is_Some (t_last_unsaved t)) \/
is_Some (t_retry_at t).

Lemma core_due (t t' : Task) : core t' = core t -> due t -> due t'.
Proof. intros [= _ _ Er Es Ef El Et _ _]. unfold due. by rewrite Er, Es, Ef, El, Et. Qed.

(** The fields that [write_whole] leaves alone. *)
Definition kept (t : Task) := (t_document t, t_first_unsaved t, t_last_unsaved t, t_retry_at t, t_disk t).

Lemma failed_kept (t : Task) : kept (failed w t).1 = kept t /\ (failed w t).2 = None.
Proof. unfold failed. cbn [ask]. by destruct (w_call w _). Qed.

Lemma try_kept (t : Task) next : (forall t, kept (next t).1 = kept t) -> kept (try w t next).1 = kept t.
Proof.
intros Hn. unfold try. cbn [ask]. destruct (w_call w _); [by rewrite Hn|]. by rewrite (proj1 (failed_kept _)).
Qed.

Lemma write_whole_kept (t : Task) file : kept (write_whole w t file).1 = kept t.
Proof.
apply try_kept. clear t. intros t. cbn [ask]. destruct (w_grow w _); [by rewrite (proj1 (failed_kept _))|].
do 3 (rewrite try_kept; [done|]; clear t; intros t). cbn [ask].
destruct (w_stamp w _); [done|]. by rewrite (proj1 (failed_kept _)).
Qed.

Lemma write_due (t : Task) file : due (write w t (d_rev (t_document t)) file).
Proof.
unfold write. pose proof (write_whole_kept t file) as Hk. destruct (write_whole w t file) as [t1 stamp].
injection Hk as Ed Ef El Er Edisk. destruct stamp as [stamp|].
- pose proof (save_recorded_core (with_stamp t1 stamp) (d_rev (t_document t)) (sha256 file)) as Hc. revert Hc.
generalize (save_recorded w (with_stamp t1 stamp) (d_rev (t_document t)) (sha256 file)). intros t2 Hc.
destruct (enter _ (Saved _)) as [t3 effects] eqn:E. eapply core_due; [apply send_all_core|]. left.
unfold enter in E. cbn [step] in E. unfold saved in E. injection E as <- _. injection Hc as _ _ Erev _ _ _ _ _ _.
simpl. rewrite Erev. simpl. by rewrite Ed.
- destruct (enter _ SaveWaits) as [t2 effects] eqn:E. eapply core_due; [apply send_all_core|]. right. right.
unfold enter in E. destruct (step _ _). injection E as <- _. by eexists.
Qed.

(** For a format that can always write. *)
Hypothesis writes : forall m file assets, f_write m file assets <> None.

Lemma save_due (t : Task) : due (save w t).
Proof.
unfold save, enter. simpl. unfold Live.save. destruct (N.eqb_spec (d_rev (t_document t)) (d_saved_rev (t_document t))) as [Es|_].
{ by left. }
destruct (f_write _ _ _) as [file|] eqn:Ew; [|by destruct (writes _ _ _ Ew)]. simpl.
apply (write_due (with_unsaved (with_document t (t_document t)) None None)).
Qed.

(** ** Every wake leaves a deadline *)

(** What the effects still to run will note: the document is not saved. *)
Definition owed (effects : list Effect) (t : Task) : Prop := due t \/ Unsaved ∈ effects.

Lemma enter_owed (t : Task) input t' effects before :
no_save input = true -> enter t input = (t', effects) -> owed before t -> news before ->
owed (before ++ effects) t' /\ news (before ++ effects).
Proof.
unfold enter. intros Hi. destruct (step_reports (t_document t) input Hi) as [Hn Hs].
destruct (step (t_document t) input) as [d' effects'] eqn:E. intros [= <- <-] Ho Hb. simpl in Hn, Hs.
split; [|by apply news_app]. destruct Ho as [Hd|Hu]; [|right; set_solver].
destruct (decide (appended effects' = [])) as [Ha|Ha]; [|right; apply elem_of_app; right; by apply news_unsaved].
left. assert (Er : d_rev d' = d_rev (t_document t)) by (eapply step_same_rev; [exact E|by destruct input|done]).
unfold due. simpl. rewrite Er, Hs. exact Hd.
Qed.

Lemma note_effects_due effects : forall (t t' : Task) a s a' sends',
foldl (note_effect w) (t, a, s) effects = (t', a', sends') -> owed effects t -> due t'.
Proof.
induction effects as [|effect effects IH]; intros t t' a s a' s'; cbn [foldl].
{ intros [= <- _ _] [Hd|Hu]; [done|set_solver]. }
intros E Ho. destruct (note_effect w (t, a, s) effect) as [[t1 a1] s1] eqn:E1. apply (IH _ _ _ _ _ _ E).
assert (Hc : core t1 = core t -> effect <> Unsaved -> owed effects t1).
{ intros Hc Hne. destruct Ho as [Hd|[Hu|Hu]%elem_of_cons]; [left; by eapply core_due|by destruct Hne|by right]. }
unfold note_effect in E1. destruct effect; try (injection E1 as <- _ _; by apply Hc).
- injection E1 as <- _ _. apply Hc; [apply grow_core|done].
- destruct (AssetOps.get _ _); [|injection E1 as <- _ _; by apply Hc]. cbn [ask] in E1.
destruct (w_call w _); injection E1 as <- _ _; by apply Hc.
- cbn [ask] in E1. injection E1 as <- _ _. left. right. left. simpl. split; by eexists.
Qed.

Lemma note_effects_sends effects : forall (t t' : Task) a s a' s',
foldl (note_effect w) (t, a, s) effects = (t', a', s') ->
Forall (fun effect => match effect with Write _ _ => False | _ => True end) effects ->
Forall (fun effect => match effect with Write _ _ => False | _ => True end) s ->
Forall (fun effect => match effect with Write _ _ => False | _ => True end) s'.
Proof.
induction effects as [|effect effects IH]; intros t t' a s a' s'; cbn [foldl]; [by intros [= _ _ <-]|].
intros E [He Hes]%Forall_cons Hs. destruct (note_effect w (t, a, s) effect) as [[t1 a1] s1] eqn:E1.
apply (IH _ _ _ _ _ _ E Hes).
assert (Hs1 : s1 = s \/ s1 = s ++ [effect]).
{ apply (f_equal snd) in E1. unfold note_effect in E1. destruct effect; simpl in E1; try (subst s1; by auto).
destruct (AssetOps.get _ _); simpl in E1; subst s1; by auto. }
destruct Hs1 as [-> | ->]; [done|]. apply Forall_app. by split; [|constructor].
Qed.

Lemma tell_due sends : forall t : Task,
Forall (fun effect => match effect with Write _ _ => False | _ => True end) sends -> due t -> due (foldl (tell_effect w) t sends).
Proof.
induction sends as [|effect sends IH]; intros t; [done|]. intros [He Hs]%Forall_cons Hd. simpl. apply IH; [done|].
eapply core_due; [|exact Hd]. destruct effect; try done; simpl; [apply send_core|apply drop_pipe_core, send_core].
Qed.

Lemma start_new_journal_due (t : Task) : due t -> due (start_new_journal w t).
Proof.
intros Hd. unfold start_new_journal. cbn [ask]. destruct (w_epoch w _); [|done]. cbn [ask].
destruct (w_start w _); [done|]. by left.
Qed.

Lemma run_effects_due (t : Task) effects : owed effects t -> news effects -> due (run_effects w t effects).
Proof.
intros Ho Hn. unfold run_effects. destruct (foldl (note_effect w) (t, false, []) effects) as [[t1 a] sends] eqn:E.
pose proof (note_effects_due _ _ _ _ _ _ _ E Ho) as Hd.
pose proof (note_effects_sends _ _ _ _ _ _ _ E (news_no_write _ Hn) (Forall_nil_2 _)) as Hs.
assert (Hd' : due (if a then sync w t1 else t1)) by (destruct a; [eapply core_due; [apply sync_core|]|]; done).
apply (tell_due sends _ Hs) in Hd'. revert Hd'. generalize (foldl (tell_effect w) (if a then sync w t1 else t1) sends).
intros t2 Hd2. unfold seal. destruct (_ || _); [|done]. pose proof (save_due (with_sealing t2 false)) as Hs2.
destruct (_ =? _)%N; [by apply start_new_journal_due|done].
Qed.

Lemma take_batch_due batch : forall (t t' : Task) effects, take_batch w t effects batch = (t', false) ->
from_host (Batch batch) = true -> owed effects t -> news effects -> due t'.
Proof.
induction batch as [|command batch IH]; intros t t' effects; cbn [take_batch].
{ intros [= <-] _ Ho Hn. pose proof (run_effects_due t effects Ho Hn) as Hd. unfold nobody_left.
destruct (d_seats _); [|done]. by destruct (t_close_at (run_effects w t effects)). }
destruct command as [pipe viewer|input| |]; simpl from_host; intros E Hb Ho Hn.
- destruct (enter _ _) as [t1 more] eqn:E1. eapply enter_owed in E1 as [Ho1 Hn1]; [|done|exact Ho|done].
by apply (IH _ _ _ E).
- apply andb_true_iff in Hb as [Hi Hb].
assert (Ho' : owed effects match input with Left pipe => with_pipes t (delete pipe (t_pipes t)) | _ => t end) by by destruct input.
destruct (enter _ _) as [t1 more] eqn:E1. eapply enter_owed in E1 as [Ho1 Hn1]; [|by destruct input|exact Ho'|done].
by apply (IH _ _ _ E).
- apply (IH _ _ _ E Hb); [|constructor]. left. apply save_due.
- done.
Qed.

Lemma look_at_file_due (t : Task) : due t -> due (look_at_file w t).1.
Proof.
intros Hd. unfold look_at_file. cbn [ask]. destruct (w_look w _) as [| |stamp]; [|done|].
{ unfold remove_gone, enter. cbn [step fst]. eapply core_due; [apply send_all_core|]. exact Hd. }
destruct (decide _); [done|]. cbn [ask]. destruct (w_read w _) as [file|]; [|done]. destruct (decide _); [done|].
destruct (enter _ _) as [t' effects] eqn:E.
eapply (enter_owed _ _ _ _ []) in E as [Ho Hn]; [|done|left; exact Hd|constructor]. simpl in Ho, Hn. cbn [fst].
by apply run_effects_due; [destruct (existsb _ _)|].
Qed.

Lemma runs_due (t : Task) : runs w t false -> due t.
Proof.
intros Hr. remember false as ended eqn:Ee. induction Hr as [path folder disk stamp t Hs|t by_ t' ended Hr IH Hb E]; subst.
- unfold start in Hs. destruct (open_or_restore _ _ _ _) as [[[[d j] outside] found]|]; [|done]. simpl in Hs.
injection Hs as <-. match goal with |- due (if _ then (look_at_file w ?t).1 else _) => assert (Hd : due t) end.
{ unfold due. simpl. destruct (N.eqb_spec (d_rev d) (d_saved_rev d)); [by left|]. right. left. split; by eexists. }
destruct outside; [by apply look_at_file_due|done].
- destruct by_ as [batch| | |]; simpl in E, Hb.
+ apply (take_batch_due _ _ _ _ E Hb); [left; by apply IH|constructor].
+ unfold deadline_reached in E. cbn [ask] in E. destruct (is_after _ _); injection E as <-; [done|]. apply save_due.
+ pose proof (look_at_file_due t (IH eq_refl)) as Hd. by rewrite E in Hd.
+ done.
Qed.

Lemma due_deadline (t : Task) : due t -> d_rev (t_document t) <> d_saved_rev (t_document t) -> exists at_,
next_deadline t = Some at_ /\ (forall first, t_first_unsaved t = Some first -> is_Some (t_last_unsaved t) ->
(at_ <= first + SAVE_AFTER_FIRST)%N) /\ (forall again, t_retry_at t = Some again -> (at_ <= again)%N).
Proof.
intros [Hs|Hd] Hne; [done|]. unfold next_deadline, earliest. cbn [foldl].
destruct (t_first_unsaved t) as [first|], (t_last_unsaved t) as [last|], (t_retry_at t) as [again|], (t_close_at t) as [close|];
simpl; first [by destruct Hd as [[[] []]|[]]|eexists; split; [done|]; split;
[intros ? [= <-] [? ?]; first [done|lia]|intros ? [= <-]; lia]|idtac].
Qed.

(** ** A save that nothing stops *)

(** From its [n]-th answer on, each call of this world works. *)
Definition works (n : nat) : Prop :=
forall k, n <= k -> w_call w k = true /\ w_grow w k = None /\ w_stamp w k <> None.

Lemma works_later n : works n -> works (S n).
Proof. intros Hw k Hk. apply Hw. lia. Qed.

Lemma try_works (t : Task) next : works (t_asked t) ->
exists t1, try w t next = next t1 /\ works (t_asked t1) /\ t_files t1 = t_files t.
Proof.
intros Hw. unfold try. cbn [ask]. destruct (Hw (t_asked t) (le_n _)) as [Hc _]. rewrite Hc.
eexists. split; [done|]. split; [by apply works_later|done].
Qed.

Lemma write_whole_works (t : Task) file : works (t_asked t) ->
exists t1 stamp, write_whole w t file = (t1, Some stamp) /\ f_file (t_files t1) = file.
Proof.
intros Hw. unfold write_whole. edestruct (try_works t) as (t1 & -> & Hw1 & _); [done|]. cbn [ask].
destruct (Hw1 (t_asked t1) (le_n _)) as (_ & -> & _). apply works_later in Hw1.
set (t2 := with_files _ _). assert (Hf : t_files t2 = MkFiles (f_file (t_files t1)) (Some file)) by done.
change (works (t_asked t2)) in Hw1. clearbody t2.
edestruct (try_works t2) as (t3 & -> & Hw3 & Hf3); [done|]. edestruct (try_works t3) as (t4 & -> & Hw4 & Hf4); [done|].
edestruct (try_works t4) as (t5 & -> & Hw5 & Hf5); [done|]. cbn [ask].
destruct (Hw5 (t_asked t5) (le_n _)) as (_ & _ & Hs). cbn. destruct (w_stamp w (t_asked t5)) as [stamp|]; [|done].
eexists _, stamp. split; [done|]. cbn. by rewrite Hf5, Hf4, Hf3, Hf.
Qed.

Lemma write_works (t : Task) rev file : works (t_asked t) ->
let t' := write w t rev file in
d_saved_rev (t_document t') = rev /\ d_rev (t_document t') = d_rev (t_document t) /\ f_file (t_files t') = file /\ t_disk t' = file.
Proof.
intros Hw. cbv zeta. unfold write. pose proof (write_whole_kept t file) as Hk.
destruct (write_whole_works t file Hw) as (t1 & stamp & E & Hf). rewrite E in Hk |- *. injection Hk as Ed _ _ _ _.
pose proof (save_recorded_core (with_stamp t1 stamp) rev (sha256 file)) as Hc. revert Hc.
generalize (save_recorded w (with_stamp t1 stamp) rev (sha256 file)). intros t2 Hc.
destruct (enter _ (Saved _)) as [t3 effects] eqn:E3. unfold enter in E3. cbn [step] in E3. unfold saved in E3.
injection E3 as <- _. injection Hc as _ _ Erev _ _ _ _ _ Efile.
match goal with |- context [send_all w ?t effects] => pose proof (send_all_core effects t) as Hs end.
injection Hs as _ _ Hrev Hsaved _ _ _ Hdisk Hfile. rewrite Hrev, Hsaved, Hdisk, Hfile. simpl.
rewrite Erev, Efile. simpl. by rewrite Ed.
Qed.

(** The file gets what the format makes of the model. *)
Definition holds_document (t t' : Task) : Prop :=
d_rev (t_document t') = d_rev (t_document t) /\ d_saved_rev (t_document t') = d_rev (t_document t) /\
f_write (d_model (t_document t)) (t_disk t) (d_assets (t_document t)) = Some (f_file (t_files t')).

Lemma save_works (t : Task) : works (t_asked t) -> d_rev (t_document t) <> d_saved_rev (t_document t) ->
holds_document t (save w t).
Proof.
intros Hw Hne. unfold save, enter. simpl. unfold Live.save. rewrite (proj2 (N.eqb_neq _ _) Hne).
destruct (f_write _ _ _) as [file|] eqn:Ew; [|by destruct (writes _ _ _ Ew)]. simpl.
destruct (write_works (with_unsaved (with_document t (t_document t)) None None) (d_rev (t_document t)) file Hw) as (Es & Er & Ef & _).
split; [exact Er|]. split; [exact Es|]. by rewrite Ew, Ef.
Qed.

Lemma deadline_works (t : Task) : works (t_asked t) -> d_rev (t_document t) <> d_saved_rev (t_document t) ->
holds_document t (deadline_reached w t).1.
Proof.
intros Hw Hne. unfold deadline_reached. destruct (ask (w_now w) t) as [now t1] eqn:Ea.
assert (Hw1 : works (t_asked t1)) by (injection Ea as <- <-; intros k Hk; apply Hw; simpl in Hk; lia).
assert (Hc : core t1 = core t) by (by injection Ea as <- <-).
assert (Hd : forall t2, holds_document t1 t2 -> holds_document t t2).
{ injection Hc as Em Ex Er _ _ _ _ Edisk _. unfold holds_document. by rewrite Em, Ex, Er, Edisk. }
assert (Hne1 : d_rev (t_document t1) <> d_saved_rev (t_document t1)) by (injection Hc as _ _ -> -> _ _ _ _ _; done).
clear Hc Ea Hw Hne. destruct (is_after _ _); cbn [fst]; apply Hd; clear Hd.
- destruct (save_works t1 Hw1 Hne1) as (Er & Es & Ef). unfold finish, enter. simpl.
match goal with |- context [send w ?t ?to ?frame ?catchup] =>
pose proof (send_core t to frame catchup) as Hc; injection Hc as _ _ Er' Es' _ _ _ _ Ef' end.
unfold holds_document. rewrite Er, Es, N.eqb_refl. simpl. rewrite Er', Es', Ef'. simpl. by rewrite Er, Es, Ef.
- by apply (save_works (with_retry_at t1 None)).
Qed.
End due.
