(* ===== verification/NotesExample.v ===== *)
(** A small format and small libraries, for the witnesses of the theorems about documents.

    The format is [Notes] of [documents/crates/documents/tests/run.rs]: a file of named
    notes, whose one change sets a note.  The text of a value is the bits of a number that
    stands for it; a stream is packed as it is; a hash is the first bytes of the data. *)

From S2P Require Import Prelude Json Contract BTree Format Live LiveSpec Journal.
Open Scope nat_scope.

(** ** Text of values *)

Fixpoint bits (p : positive) : bytes :=
  match p with xH => [] | xO p => Byte.x00 :: bits p | xI p => Byte.x01 :: bits p end.

Fixpoint of_bits (l : bytes) : option positive :=
  match l with
  | [] => Some xH
  | Byte.x00 :: l => xO <$> of_bits l
  | Byte.x01 :: l => xI <$> of_bits l
  | _ => None
  end.

Lemma of_bits_bits p : of_bits (bits p) = Some p.
Proof. induction p as [p IH|p IH|]; simpl; [by rewrite IH..|done]. Qed.

#[export] Instance countable_serde `{Countable T} : Serde T := {|
  to_vec t := Some (bits (encode t));
  from_slice text := of_bits text ≫= countable.decode
|}.

#[export] Instance countable_serde_laws `{Countable T} : SerdeLaws T.
Proof. intros t text [= <-]. simpl. rewrite of_bits_bits. simpl. apply decode_encode. Qed.

#[export] Instance plain_gzip : Gzip := {| gzip data := Some data; inflate packed := (packed, true) |}.
#[export] Instance plain_gzip_laws : GzipLaws.
Proof. by intros data packed [= ->]. Qed.

#[export] Instance short_digest : Digest := fun data => take 32 (data ++ repeat Byte.x00 32).

(** *** Values and messages as trees of numbers and strings *)

Abbreviation leaf := (string + (N + (Z + N)))%type (only parsing).

Fixpoint value_tree (v : Value) : gen_tree leaf :=
  match v with
  | Null => GenNode 0 []
  | Bool b => GenNode (if b then 1 else 2) []
  | Num (PosInt n) => GenLeaf (inr (inl n))
  | Num (NegInt z) => GenLeaf (inr (inr (inl z)))
  | Num (Float f) => GenLeaf (inr (inr (inr f)))
  | Str s => GenLeaf (inl s)
  | Array l => GenNode 3 (value_tree <$> l)
  | Object m => GenNode 4 ((fun e => GenNode 5 [GenLeaf (inl e.1); value_tree e.2]) <$> m)
  end.

Fixpoint tree_value (t : gen_tree leaf) : Value :=
  match t with
  | GenNode 0 _ => Null
  | GenNode 1 _ => Bool true
  | GenNode 2 _ => Bool false
  | GenLeaf (inr (inl n)) => Num (PosInt n)
  | GenLeaf (inr (inr (inl z))) => Num (NegInt z)
  | GenLeaf (inr (inr (inr f))) => Num (Float f)
  | GenLeaf (inl s) => Str s
  | GenNode 3 l => Array (tree_value <$> l)
  | GenNode _ m => Object ((fun e => match e with GenNode _ [GenLeaf (inl k); v] => (k, tree_value v) | _ => ("", Null) end) <$> m)
  end.

Lemma tree_value_tree : forall v, tree_value (value_tree v) = v.
Proof.
  fix IH 1. intros [|[]|[]| |l|m]; try reflexivity.
  - simpl. f_equal. induction l as [|v l IHl]; [reflexivity|]. simpl. f_equal; [apply IH|apply IHl].
  - simpl. f_equal. induction m as [|[k v] m IHm]; [reflexivity|]. simpl. rewrite IH. f_equal. apply IHm.
Qed.

#[export] Instance Value_countable : Countable Value := inj_countable' value_tree tree_value tree_value_tree.

#[export] Instance Changed_eq_dec : EqDecision Changed.
Proof. solve_decision. Defined.
#[export] Instance Changed_countable : Countable Changed.
Proof.
  refine (inj_countable' (fun c => (c_rev c, c_author c, c_client c, c_seq c, c_body c))
    (fun '(r, a, c, s, b) => MkChanged r a c s b) _). by intros [].
Defined.

#[export] Instance ToDocument_eq_dec : EqDecision ToDocument.
Proof. solve_decision. Defined.
#[export] Instance ToDocument_countable : Countable ToDocument.
Proof.
  refine (inj_countable' (fun m => match m with
      | Join a b c d => inl (a, b, c, d) | Change a b c => inr (inl (a, b, c))
      | Place a b => inr (inr (inl (a, b))) | Query a b => inr (inr (inr (inl (a, b))))
      | People a => inr (inr (inr (inr a))) end)
    (fun t => match t with
      | inl (a, b, c, d) => Join a b c d | inr (inl (a, b, c)) => Change a b c
      | inr (inr (inl (a, b))) => Place a b | inr (inr (inr (inl (a, b)))) => Query a b
      | inr (inr (inr (inr a))) => People a end) _). by intros [].
Defined.

#[export] Instance Peer_eq_dec : EqDecision Peer.
Proof. solve_decision. Defined.
#[export] Instance Peer_countable : Countable Peer.
Proof.
  refine (inj_countable' (fun p => (p_id p, p_person p, p_name p, p_place p)) (fun '(a, b, c, d) => MkPeer a b c d) _).
  by intros [].
Defined.

#[export] Instance Catchup_eq_dec : EqDecision Catchup.
Proof. solve_decision. Defined.
#[export] Instance Catchup_countable : Countable Catchup.
Proof.
  refine (inj_countable' (fun c => match c with Snapshot s => inl s | Missed l => inr l end)
    (fun c => match c with inl s => Snapshot s | inr l => Missed l end) _). by intros [].
Defined.

#[export] Instance RefusedReason_eq_dec : EqDecision RefusedReason.
Proof. solve_decision. Defined.
#[export] Instance RefusedReason_countable : Countable RefusedReason.
Proof.
  refine (inj_countable' (fun r => match r with RefusedBehind => true | RefusedInvalid => false end)
    (fun b : bool => if b then RefusedBehind else RefusedInvalid) _). by intros [].
Defined.

#[export] Instance ClosedReason_eq_dec : EqDecision ClosedReason.
Proof. solve_decision. Defined.
#[export] Instance ClosedReason_countable : Countable ClosedReason.
Proof.
  refine (inj_countable' (fun r => match r with ClosedContract => None | ClosedRemoved => Some true | ClosedFailed => Some false end)
    (fun b : option bool => match b with None => ClosedContract | Some true => ClosedRemoved | Some false => ClosedFailed end) _).
  by intros [].
Defined.

#[export] Instance ToClient_eq_dec : EqDecision ToClient.
Proof. solve_decision. Defined.
#[export] Instance ToClient_countable : Countable ToClient.
Proof.
  refine (inj_countable' (fun m => match m with
      | ToJoined a b c d e f g h => inl (a, b, c, d, e, f, g, h) | ToChanged a => inr (inl a)
      | ToRefused a b c => inr (inr (inl (a, b, c))) | ToAnswer a b c => inr (inr (inr (inl (a, b, c))))
      | ToSaved a b => inr (inr (inr (inr (inl (a, b))))) | ToPeer a => inr (inr (inr (inr (inr (inl a)))))
      | ToLeft a => inr (inr (inr (inr (inr (inr (inl a)))))) | ToClosed a => inr (inr (inr (inr (inr (inr (inr a))))))
      end)
    (fun t => match t with
      | inl (a, b, c, d, e, f, g, h) => ToJoined a b c d e f g h | inr (inl a) => ToChanged a
      | inr (inr (inl (a, b, c))) => ToRefused a b c | inr (inr (inr (inl (a, b, c)))) => ToAnswer a b c
      | inr (inr (inr (inr (inl (a, b))))) => ToSaved a b | inr (inr (inr (inr (inr (inl a))))) => ToPeer a
      | inr (inr (inr (inr (inr (inr (inl a)))))) => ToLeft a | inr (inr (inr (inr (inr (inr (inr a)))))) => ToClosed a
      end) _). by intros [].
Defined.

(** ** The format *)

Definition note_change : Type := (string * string)%type.

(** The model is the object of the file; each of its values is a string. *)
Definition notes_read (file : bytes) (a : Assets) : option (Map.t * Assets) :=
  value ← from_slice (T:=Value) file;
  match value with
  | Object m => if forallb (fun e => match e.2 with Str _ => true | _ => false end) m then Some (m, a) else None
  | _ => None
  end.

#[export] Instance notes_format : Format Map.t note_change Value := {|
  f_read := notes_read;
  f_snapshot m := Object m;
  f_apply m c since a := (Map.insert c.1 (Str c.2) m, a, inl c);
  f_compare from to := omap (fun e => match e.2 with
    | Str v => if decide (Map.get e.1 from = Some e.2) then None else Some (e.1, v)
    | _ => None
    end) to;
  f_write m file a := to_vec (Object m);
  f_query m q := q;
  f_seals c := false;
  f_map_place place c := place;
  f_describe_place m place := place;
  change_from_value v := match v with Array [Str k; Str t] => inl (k, t) | _ => inr "not a note"%string end;
  change_to_value c := Some (Array [Str c.1; Str c.2]);
  query_from_value v := Some v
|}.

#[export] Instance notes_laws : FormatLaws Map.t note_change Value.
Proof.
  constructor; simpl.
  - done.
  - intros m c since a m' a' c' [= <- <- <-] a2. by eexists.
  - intros m [k v] since a m' a' c' [= <- <- <-]. by eexists.
  - intros file a m a'. unfold notes_read. destruct (from_slice file) as [[]|]; try done. simpl.
    destruct (forallb _ _); [|done]. intros [= <- <-] a2. by eexists.
Qed.

(** ** A session *)

Definition notes_file : bytes := text_of (Object []).
Definition writer : Viewer := MkViewer "u1" "Ada" true.
Definition reader : Viewer := MkViewer "u2" "Bob" false.
Definition frame_of (m : ToDocument) : bytes := encode_message m.

Abbreviation Doc := (Document Map.t note_change) (only parsing).

Definition opened : Doc := default (MkDocument [] AssetOps.empty [] 0 0 0 [] ∅ [] 0 [] false)%N (open notes_file 7 AssetOps.empty).
Definition steps (d : Doc) (inputs : list Input) : Doc := foldl (fun d input => (step (Q:=Value) d input).1) d inputs.

(** Ada and Bob are here; Ada has put one note in the order. *)
Definition joining (pipe : PipeId) (viewer : Viewer) (client : string) : list Input :=
  [Connected pipe viewer; InMessage pipe (frame_of (Join CONTRACT client 7 0))].
Definition set_note (seq : Seq) (base : Rev) (k v : string) : bytes :=
  frame_of (Change seq base (Array [Str k; Str v])).

Definition joined_doc : Doc := steps opened (joining 1 writer "a" ++ joining 2 reader "b").
Definition one_note : Doc := steps joined_doc [InMessage 1 (set_note 1 0 "x" "1")].
Definition two_notes : Doc := steps one_note [InMessage 1 (set_note 2 1 "y" "2")].

Example two_notes_model : d_model two_notes = [("x", Str "1"); ("y", Str "2")]%string /\ d_rev two_notes = 2%N.
Proof. by vm_compute. Qed.
