(* ===== verification/LiveClaims.v ===== *)
(** The theorems about documents while they are open ([documents/crates/document]) and
    about their journals ([documents/crates/documents/src/journal.rs]).  The witnesses are
    in [LiveClaims]. *)

From S2P Require Import Prelude Json Contract BTree Format Live LiveSpec LiveClients Journal.
From S2P Require Import NotesExample.
Open Scope nat_scope.

Section claims.
Context {M C Q : Type} `{Format M C Q, Digest, Gzip, Serde ToDocument, Serde ToClient, Serde Changed}.
Abbreviation Document := (Live.Document M C).

(** The documents of a host that opened a file: any inputs, in any order. *)
Inductive reachable : Document -> Prop :=
| reach_open file epoch assets d : open file epoch assets = Some d -> reachable d
| reach_step d input d' effects : reachable d -> step d input = (d', effects) -> reachable d'.

Context `{!FormatLaws M C Q}.

(** ** The order *)


(** C14. The order of every document that a host can have: its revs count on by one from
its first rev with no gap, the rev of the document is that of its last change, and
the numbers of each client's changes rise, so no change of a client is in it twice. *)
Theorem order_has_no_gap (d : Document) : reachable d -> order_ok (order_of d).
Proof.
induction 1 as [file epoch assets d E|d input d' effects Hr IH E].
- by apply (open_made (Q:=Q) file epoch assets d).
- by eapply step_order_ok.
Qed.

(** C15. A document is what its journal says, for a format that keeps [FormatLaws]: whichever
inputs made it of a document that was opened or that came back from its journal, restored from
its file and the records of its log, with any assets and any saved revs, it has the same model,
log, rev, epoch and numbers, and no seats.  Where its journal started again, the file that the
journal then took must have read as the model; and the records of its changes must read back. *)
Theorem journal_makes_document (d : Document) seqs saved assets :
journaled seqs d ->
Forall (fun o => from_slice (record_of o) = Some (changed_of o)) (d_log d) ->
exists d', restore (d_original d) (MkRestored (d_epoch d) (d_first_rev d) seqs saved)
(record_of <$> d_log d) assets = Some d' /\
order_of d' = order_of d /\ d_saved_rev d' = default (d_first_rev d) (last saved) /\
d_saved_states d' = d_first_rev d :: saved /\ d_seats d' = [].
Proof. intros [Hm Hok]%journaled_made. by apply restore_order. Qed.

(** C18. Each input but [Rebased] refines the abstract order: it puts some changes in, each
applied to the model as it then is, with the next rev and, for a client's change, a
number that is greater than its last; and the records that go to the journal are
these changes, one each, in their order. *)
Theorem step_refines_order (d : Document) input d' effects :
step d input = (d', effects) -> (forall file epoch, input <> Rebased file epoch) ->
exists os, order_run (order_of d) os (order_of d') /\ appended effects = record_of <$> os /\
d_log d' = d_log d ++ os /\ d_rev d' = (d_rev d + len os)%N.
Proof.
intros E Hn. destruct (step_run _ _ _ _ E Hn) as (os & Hr & Ha).
pose proof (run_fixed _ _ _ Hr) as (El & _ & _ & _ & Er). eauto.
Qed.

(** ** Clients *)

(** C16. A pipe whose viewer can only read, or that has not joined, puts nothing in the
order and nothing in the journal, whatever frame it sends. *)
Theorem readers_change_nothing (d : Document) pipe frame d' effects :
step d (InMessage pipe frame) = (d', effects) -> ~ may_edit d pipe ->
order_of d' = order_of d /\ appended effects = [].
Proof. apply message_order. Qed.

(** C17. What a client missed since a rev of this epoch is exactly the changes after that
rev, in their order, and they take the model at that rev to the document's.  A client
from another epoch, without a rev, or from before the log gets the whole model. *)
Theorem catchup_is_exact (d : Document) seqs epoch rev :
made seqs (order_of d) -> order_ok (order_of d) ->
if (epoch =? d_epoch d)%N && (0 <? rev)%N && (d_first_rev d <=? rev)%N && (rev <=? d_rev d)%N
then exists missed m0 m1, catchup d epoch rev = Missed (changed_of <$> missed) /\
len missed = (d_rev d - rev)%N /\
(forall i o, missed !! i = Some o -> o_rev o = (rev + N.of_nat i + 1)%N) /\
(forall x, exists x', f_read (d_original d) x = Some (m0, x')) /\
makes m0 (take (N.to_nat (rev - d_first_rev d)) (d_log d)) m1 /\ makes m1 missed (d_model d)
else catchup d epoch rev = Snapshot (f_snapshot (d_model d)).
Proof.
intros Hm Hok. unfold catchup. destruct (_ && (0 <? rev)%N); [|done]. cbn [andb].
destruct (log_since d rev) as [missed|] eqn:El.
- pose proof (proj1 (log_since_spec d rev missed Hok) El) as [[H1' H2'] _].
rewrite (proj2 (N.leb_le _ _) H1'), (proj2 (N.leb_le _ _) H2'). cbn [andb].
destruct (log_since_revs d rev missed Hok El) as [Hlen Hrevs].
destruct (missed_makes d seqs rev missed Hm Hok El) as (m0 & m1 & Hread & Hbefore & Hafter). eauto 10.
- destruct (N.leb_spec (d_first_rev d) rev) as [L1|]; [|done]. destruct (N.leb_spec rev (d_rev d)) as [L2|]; [|done].
by rewrite (proj2 (log_since_spec d rev _ Hok) (conj (conj L1 L2) eq_refl)) in El.
Qed.

(** C19. Where a person is moves with the content: when a change of any client or a write of
another program goes in, the place of each seat is mapped across each new change, in
the order of the log, and nothing else of the seat moves. *)
Theorem places_follow_changes (d : Document) pipe seat d' effects :
BTree.get pipe (d_seats d) = Some seat ->
(exists pipe' seq base body, change d pipe' seq base body = (d', effects)) \/
(exists file writer, step d (FileChanged file writer) = (d', effects)) ->
exists os, d_log d' = d_log d ++ os /\
BTree.get pipe (d_seats d') = Some (seat_at (map_places (s_place seat) os) seat).
Proof.
intros Hs [(pipe' & seq & base & body & E)|(file & writer & E)]; [by eapply change_seat|].
assert (Hsame : exists os : list (Ordered C), d_log d = d_log d ++ os /\
BTree.get pipe (d_seats d) = Some (seat_at (map_places (s_place seat) os) seat)).
{ exists []. rewrite app_nil_r, Hs. by destruct seat. }
simpl in E. unfold file_changed in E. destruct (f_read file (d_assets d)) as [[new assets]|]; [|by injection E as <- <-].
destruct (nearest_changes _ _) as [changes|]; [|by injection E as <- <-].
destruct (apply_outside _ writer changes) as [d1 e1] eqn:E1. injection E as <- <-.
by eapply (apply_outside_seat (Q:=Q) _ _ _ (with_model d (d_model d) assets)).
Qed.

(** In every document that a host can have, the seats are in the order of their pipes,
one for each pipe, and no two seats are of one client: a client that joins again
takes its place from its older pipe. *)
Theorem one_seat_for_each_client (d : Document) : reachable d -> seats_ok (d_seats d).
Proof.
induction 1 as [file epoch assets d E|d input d' effects Hr IH E].
- unfold open in E. destruct (f_read file assets) as [[m x]|]; [|done]. injection E as <-.
split; [done|]. by intros p p' s s' c.
- by eapply step_seats_ok.
Qed.

(** ** Writes of another program *)

(** The changes that a write of another program makes are those from the saved state
that is nearest to it: one of the saved states gives them, and no saved state needs
fewer. *)
Theorem nearest_is_nearest (d : Document) new changes :
nearest_changes d new = Some changes -> d_saved_states d <> [] ->
exists m0 x ms, f_read (d_original d) (d_assets d) = Some (m0, x) /\
states_at (d_saved_states d) (d_log d) (d_first_rev d) m0 x ms /\
(exists m', m' ∈ ms /\ changes = f_compare m' new) /\
(forall m', m' ∈ ms -> length changes <= length (f_compare m' new)).
Proof.
unfold nearest_changes. intros E Hne. destruct (f_read _ _) as [[m0 x]|]; [|done]. cbn [mbind option_bind] in E.
apply nearest_loop_spec in E as (ms & Hs & [|Hres] & Hle & _); [done|]. eauto 10.
Qed.

(** Saving keeps the list of saved states bounded. *)
Theorem saved_states_stay_bounded (d : Document) rev d' effects :
step d (Saved rev) = (d', effects) -> length (d_saved_states d) <= MOST_SAVED_STATES ->
length (d_saved_states d') <= MOST_SAVED_STATES /\ last (d_saved_states d') = Some rev.
Proof.
intros E Hl. split; [by eapply saved_states_bound|]. simpl in E. unfold saved in E. injection E as <- _. simpl.
unfold remove_second, MOST_SAVED_STATES in *. destruct (decide _) as [Hlast|].
- by rewrite (proj2 (Nat.ltb_ge _ _)).
- rewrite length_app. destruct (Nat.ltb_spec 32 (length (d_saved_states d) + length [rev])); [|apply last_snoc].
simpl in *. destruct (d_saved_states d) as [|a [|b l]]; simpl in *; [lia|lia|].
change (last ((a :: l) ++ [rev]) = Some rev). apply last_snoc.
Qed.
End claims.

(** ** Frames *)

(** A message that its text reads back from reads back from its frame, packed or
    not, as long as the text is below the most that a frame may unpack to. *)
Theorem frame_round_trip {T} `{Gzip, Serde T} `{!SerdeLaws T, !GzipLaws} (message : T) text :
  to_vec message = Some text -> (len text < MOST_UNPACKED)%N ->
  decode (encode_message message) = Ok (Message message).
Proof. apply decode_message_ok. Qed.

(** [decode] reads only frames of the three kinds, and reads each part as its kind says:
    plain text, packed text of at most [MOST_UNPACKED] bytes, or the hash and the bytes of
    an asset; and an asset reads back from its frame. *)
Theorem decode_reads_frames {T} `{Gzip, Serde T} :
  (forall frame (f : Frame T), decode frame = Ok f ->
    exists kind body, frame = kind :: body /\
      match f with
      | Message message =>
          kind = JSON_FRAME /\ from_slice body = Some message \/
          kind = GZIP_FRAME /\ exists json, read_packed body = Some json /\
            (len json <= MOST_UNPACKED)%N /\ from_slice json = Some message
      | Asset hash data => kind = ASSET_FRAME /\ length hash = HASH_BYTES /\ body = hash ++ data
      end) /\
  (forall hash data, length hash = HASH_BYTES -> decode (T:=T) (encode_asset hash data) = Ok (Asset hash data)).
Proof.
  split; [|apply decode_asset]. intros frame f E. destruct (decode_kinds frame f E) as (kind & body & -> & Hf).
  exists kind, body. split; [done|]. destruct f as [message|]; [|done].
  destruct Hf as [|(Hk & json & Ej & Em)]; [by left|right]. split; [done|]. exists json.
  split; [done|]. split; [by eapply read_packed_bound|done].
Qed.

(** ** The records file *)

(** Any cut of a records file reads as whole records: those that the cut holds in full,
    with the hash of the last save among them, and the torn rest is what is left over. *)
Theorem cut_records_read es n :
  Forall entry_ok es ->
  exists k rest, read_records (take n (file_of es)) = Some (read_entries (take k es), rest) /\
    take n (file_of es) = file_of (take k es) ++ rest /\
    (forall j, j <= length es -> length (file_of (take j es)) <= n -> j <= k).
Proof.
  intros Hes. destruct (cut_file es n Hes) as (k & rest & E & Ht & Hk). exists k, rest.
  split; [|split; [done|eauto]]. rewrite E. apply read_records_file; [by apply Forall_take|done].
Qed.

(* ------------------------------------------------------------ *)

(** The theorems of [LiveClaims] at work on the notes of [NotesExample]. *)

Open Scope nat_scope.

(** ** A session and its journal *)

Definition not_rebased (input : Input) : bool := match input with Rebased _ _ => false | _ => true end.

(** A document and its entries, after some inputs. *)
Definition run (s : Doc * list Entry) (inputs : list Input) : Doc * list Entry :=
  foldl (fun s input => let r := step (Q:=Value) s.1 input in (r.1, s.2 ++ (EChange <$> appended r.2))) s inputs.

Lemma run_session s inputs :
  forallb not_rebased inputs = true -> session (Q:=Value) notes_file 7 s.1 s.2 ->
  session (Q:=Value) notes_file 7 (run s inputs).1 (run s inputs).2.
Proof.
  revert s. induction inputs as [|input inputs IH]; intros s; [done|]. simpl. intros [Hi Hin]%andb_true_iff Hs.
  apply (IH (_, _) Hin). simpl. eapply session_step; [exact Hs|apply surjective_pairing|]. by intros ? ? ->.
Qed.


Lemma opened_session : session (Q:=Value) notes_file 7 opened [].
Proof. apply (session_open notes_file 7 AssetOps.empty). vm_compute. reflexivity. Qed.

Lemma opened_reachable : reachable (Q:=Value) opened.
Proof. apply (reach_open notes_file 7 AssetOps.empty). vm_compute. reflexivity. Qed.

Lemma steps_reachable d inputs : reachable (Q:=Value) d -> reachable (Q:=Value) (steps d inputs).
Proof.
  revert d. induction inputs as [|input inputs IH]; intros d Hd; [done|]. simpl. apply IH.
  eapply reach_step; [done|]. apply surjective_pairing.
Qed.

Lemma two_notes_reachable : reachable (Q:=Value) two_notes.
Proof. unfold two_notes, one_note, joined_doc. apply steps_reachable, steps_reachable, steps_reachable, opened_reachable. Qed.

Lemma steps_journaled d inputs :
  forallb not_rebased inputs = true -> journaled (Q:=Value) ∅ d -> journaled (Q:=Value) ∅ (steps d inputs).
Proof.
  revert d. induction inputs as [|input inputs IH]; intros d; [done|]. simpl. intros [Hi Hin]%andb_true_iff Hd.
  apply (IH _ Hin). eapply journaled_step; [exact Hd|apply surjective_pairing|]. by intros ? ? ->.
Qed.

Lemma two_notes_journaled : journaled (Q:=Value) ∅ two_notes.
Proof.
  unfold two_notes, one_note, joined_doc. apply steps_journaled; [reflexivity|]. apply steps_journaled; [reflexivity|].
  apply steps_journaled; [reflexivity|]. apply (journaled_open notes_file 7 AssetOps.empty). vm_compute. reflexivity.
Qed.

Lemma two_notes_made : made (Q:=Value) ∅ (order_of two_notes) /\ order_ok (order_of two_notes).
Proof.
  pose proof (run_session (opened, []) (joining 1 writer "a" ++ joining 2 reader "b" ++
    [InMessage 1 (set_note 1 0 "x" "1"); InMessage 1 (set_note 2 1 "y" "2")]) eq_refl opened_session) as Hs.
  apply session_log in Hs as (Hm & Hok & _).
  assert (two_notes = (run (opened, []) (joining 1 writer "a" ++ joining 2 reader "b" ++
    [InMessage 1 (set_note 1 0 "x" "1"); InMessage 1 (set_note 2 1 "y" "2")])).1) as -> by (vm_compute; reflexivity).
  done.
Qed.

Definition early : Doc * list Entry :=
  run (opened, []) (joining 1 writer "a" ++ [InMessage 1 (set_note 1 0 "x" "1")]).
Definition late : Doc * list Entry := run early [InMessage 1 (set_note 2 1 "y" "2"); InMessage 1 (set_note 3 1 "z" "3")].


Lemma order_has_no_gap_witness : order_ok (order_of two_notes).
Proof. apply (order_has_no_gap (Q:=Value)). exact two_notes_reachable. Defined.

Lemma journal_makes_document_witness :
  exists d', restore (Q:=Value) (d_original two_notes) (MkRestored 7 0 ∅ [1%N]) (record_of <$> d_log two_notes)
      AssetOps.empty = Some d' /\
    order_of d' = order_of two_notes /\ d_saved_rev d' = 1%N /\ d_saved_states d' = [0; 1]%N /\ d_seats d' = [].
Proof.
  apply (journal_makes_document (Q:=Value) two_notes ∅ [1%N]); [exact two_notes_journaled|].
  apply (bool_decide_unpack _). vm_compute. exact I.
Defined.

Lemma step_refines_order_witness :
  exists os, order_run (Q:=Value) (order_of one_note) os (order_of two_notes) /\
    appended (step (Q:=Value) one_note (InMessage 1 (set_note 2 1 "y" "2"))).2 = record_of <$> os /\
    d_log two_notes = d_log one_note ++ os /\ d_rev two_notes = (d_rev one_note + len os)%N.
Proof.
  apply (step_refines_order one_note (InMessage 1 (set_note 2 1 "y" "2"))); [|done].
  apply surjective_pairing.
Defined.

(** ** Clients *)

Lemma readers_change_nothing_witness :
  let r := step (Q:=Value) one_note (InMessage 2 (set_note 1 1 "x" "9")) in
  order_of r.1 = order_of one_note /\ appended r.2 = [].
Proof.
  apply (readers_change_nothing one_note 2 (set_note 1 1 "x" "9")); [apply surjective_pairing|].
  intros (seat & client & Hs & _ & He). vm_compute in Hs. injection Hs as <-. discriminate.
Defined.

Lemma catchup_is_exact_witness :
  exists missed m0 m1, catchup two_notes 7 1 = Missed (changed_of <$> missed) /\ len missed = 1%N /\
    (forall i o, missed !! i = Some o -> o_rev o = (1 + N.of_nat i + 1)%N) /\
    (forall x, exists x', f_read (d_original two_notes) x = Some (m0, x')) /\
    makes (Q:=Value) m0 (take 1 (d_log two_notes)) m1 /\ makes (Q:=Value) m1 missed (d_model two_notes).
Proof.
  exact (catchup_is_exact (Q:=Value) two_notes ∅ 7 1 (proj1 two_notes_made) (proj2 two_notes_made)).
Defined.

Definition placed : Doc := steps one_note [InMessage 2 (frame_of (Place 1 (Str "here")))].

Lemma places_follow_changes_witness :
  exists os, d_log (step (Q:=Value) placed (FileChanged (text_of (Object [("x", Str "1"); ("w", Str "5")]%string)) "vim")).1 =
      d_log placed ++ os /\
    BTree.get 2%N (d_seats (step (Q:=Value) placed
      (FileChanged (text_of (Object [("x", Str "1"); ("w", Str "5")]%string)) "vim")).1) =
      Some (seat_at (map_places (Q:=Value) (Str "here") os) (MkSeat reader (Some "b"%string) (Str "here"))).
Proof.
  eapply (places_follow_changes (Q:=Value) placed 2 (MkSeat reader (Some "b"%string) (Str "here")));
    [vm_compute; reflexivity|].
  right. do 2 eexists. apply surjective_pairing.
Defined.

Lemma one_seat_for_each_client_witness : seats_ok (d_seats two_notes).
Proof. apply (one_seat_for_each_client (Q:=Value)). exact two_notes_reachable. Defined.

(** ** Writes of another program, and saving *)

Lemma nearest_is_nearest_witness :
  exists m0 x ms, f_read (d_original two_notes) (d_assets two_notes) = Some (m0, x) /\
    states_at (Q:=Value) [0%N] (d_log two_notes) 0 m0 x ms /\
    (exists m', m' ∈ ms /\ [("w", "5")]%string = f_compare m' [("w", Str "5")]%string) /\
    (forall m', m' ∈ ms -> length [("w", "5")]%string <= length (f_compare m' [("w", Str "5")]%string)).
Proof.
  apply (nearest_is_nearest two_notes [("w", Str "5")]%string [("w", "5")]%string); [vm_compute; reflexivity|vm_compute; discriminate].
Defined.

Lemma saved_states_stay_bounded_witness :
  length (d_saved_states (step (Q:=Value) two_notes (Saved 2)).1) <= MOST_SAVED_STATES /\
  last (d_saved_states (step (Q:=Value) two_notes (Saved 2)).1) = Some 2%N.
Proof.
  apply (saved_states_stay_bounded two_notes 2 _ (step (Q:=Value) two_notes (Saved 2)).2); [apply surjective_pairing|vm_compute; lia].
Defined.

(** ** Frames and records *)

Lemma frame_round_trip_witness :
  Contract.decode (encode_message (People 4)) = Ok (Message (People 4)).
Proof.
  apply (frame_round_trip (People 4) (text_of (People 4))); [reflexivity|vm_compute; reflexivity].
Defined.

Lemma cut_records_read_witness :
  exists k rest, read_records (take 30 (file_of late.2)) = Some (read_entries (take k late.2), rest) /\
    take 30 (file_of late.2) = file_of (take k late.2) ++ rest /\
    (forall j, j <= length late.2 -> length (file_of (take j late.2)) <= 30 -> j <= k).
Proof. apply cut_records_read. apply (bool_decide_unpack _). vm_compute. exact I. Defined.
