(* ===== verification/TaskClaims.v ===== *)
(** The theorems about a document task, and the task at work on the notes of
    [NotesExample]. *)

From S2P Require Import Prelude Json Contract BTree Format Live LiveSpec Journal Task TaskSpec.
From S2P Require Import TaskDue NotesExample.
Open Scope nat_scope.

Section file.
Context {M C : Type}.

(** What other programs see of a save. *)
Definition kept_file (t : Task M C) := (f_file (t_files t), t_events t).

Definition written_or_kept (t : Task M C) (bytes : bytes) (r : Task M C * option Stamp) : Prop :=
let '(t', stamp) := r in
(f_file (t_files t') = bytes /\ t_events t' = t_events t ++ [Wrote bytes]) \/
(f_file (t_files t') = f_file (t_files t) /\ t_events t' = t_events t /\ stamp = None).

Lemma failed_written_or_kept w t bytes t2 :
kept_file t2 = kept_file t \/ kept_file t2 = (bytes, t_events t ++ [Wrote bytes]) -> written_or_kept t bytes (failed w t2).
Proof. unfold failed. cbn [ask]. destruct (w_call w _); intros [[= Ef Ee]|[= Ef Ee]]; [right|left|right|left]; done. Qed.

Lemma try_written_or_kept w t bytes t2 next : kept_file t2 = kept_file t ->
(forall t3, kept_file t3 = kept_file t -> t_files t3 = t_files t2 -> written_or_kept t bytes (next t3)) ->
written_or_kept t bytes (try w t2 next).
Proof.
intros Hk Hn. unfold try. cbn [ask]. destruct (w_call w _); [by apply Hn|]. apply failed_written_or_kept. by left.
Qed.

Lemma write_whole_written_or_kept w t bytes : written_or_kept t bytes (write_whole w t bytes).
Proof.
apply try_written_or_kept; [done|]. intros t1 Hk1 _. cbn [ask]. destruct (w_grow w _) as [k|].
{ apply failed_written_or_kept. by left. }
apply try_written_or_kept; [exact Hk1|]. intros t3 Hk3 Ef3. apply try_written_or_kept; [exact Hk3|]. intros t4 Hk4 Ef4.
apply try_written_or_kept; [exact Hk4|]. intros t5 Hk5 Ef5. cbn [ask].
assert (Hw : kept_file (happens (with_files t5 (MkFiles (default [] (f_temporary (t_files t5))) None)) (Wrote bytes)) =
(bytes, t_events t ++ [Wrote bytes])).
{ injection Hk5 as _ Ee. unfold kept_file. cbn. by rewrite Ee, Ef5, Ef4, Ef3. }
destruct (w_stamp w _); [left; split; [exact (f_equal fst Hw)|exact (f_equal snd Hw)]|]. apply failed_written_or_kept. by right.
Qed.
End file.

Section claims.
Context {M C Q : Type} `{Format M C Q, Digest, Gzip, Serde ToDocument, Serde ToClient, Serde Changed}.
Abbreviation Task := (Task.Task M C).

(** C12. No view hears of a change that a crash can take.  In every state that a task comes
to, with any answers of the computer, each frame that was sent before a write of the
journal failed was sent when the records that had reached the disk read, whole, as
exactly the changes that the document then had, those of an earlier run included. *)
Theorem told_changes_are_safe `{!FormatLaws M C Q} w (t : Task) ended before pipe frame safe made after :
runs w t ended -> t_events t = before ++ Sent pipe frame safe made :: after -> Lost ∉ before ->
exists r, read_records safe = Some (r, []) /\ rd_records r = made.
Proof. intros Hr E Hl. apply runs_settled in Hr as [Ht _]. by eapply Ht. Qed.

(** C13. A change that is not in the file gets there.  When a format can always write, a
task whose document is not saved has a deadline, no later than 15 seconds after the
first change that is not saved and no later than the next try of a save that failed,
and when that deadline comes while the calls of the computer work, the file holds what
the format writes of the model. *)
Theorem unsaved_gets_saved `{!FormatLaws M C Q} w (t : Task) :
(forall m file assets, f_write m file assets <> None) -> runs w t false ->
d_rev (t_document t) <> d_saved_rev (t_document t) ->
(exists at_, next_deadline t = Some at_ /\
(forall first, t_first_unsaved t = Some first -> is_Some (t_last_unsaved t) -> (at_ <= first + SAVE_AFTER_FIRST)%N) /\
(forall again, t_retry_at t = Some again -> (at_ <= again)%N)) /\
(works w (t_asked t) -> holds_document t (deadline_reached w t).1).
Proof.
intros Hf Hr Hne. split; [apply due_deadline; [by eapply runs_due|done]|]. intros Hw. by apply deadline_works.
Qed.

(** A send ends.  With the number of seats as its bound, [send] is the recursion of the
code: it offers the frame to each view, and for each view that is behind or gone, the
document lets it go and the frames that this gives are sent in the same way. *)
Theorem send_unfolds w (t : Task) to frame catchup :
send w t to frame catchup =
let '(t1, behind) := foldl (offer w frame catchup) (t, []) to in foldl (drop_pipe (send w)) t1 behind.
Proof.
unfold send at 1. cbn [send_fuel]. destruct (foldl _ (t, []) to) as [t1 behind] eqn:E. apply offers_seats in E as <-.
apply (foldl_same (fun t => seats t <= seats t1)); [|done]. intros t2 pipe Hs. split.
- apply (drop_pipe_same _ _ (seats t1)); [|done]. intros t3 to' frame' catchup' Hlt. apply (send_enough w (seats t3)); lia.
- pose proof (drop_pipe_seats w (seats t1) t2 pipe). lia.
Qed.

(** C23. A save leaves a whole file.  Whichever calls of [write_whole] fail, the file then holds
all of the new bytes or all of what it held, and a result without an error means the new
bytes. *)
Theorem write_whole_is_whole w (t : Task) bytes :
let '(t', stamp) := write_whole w t bytes in
(f_file (t_files t') = bytes /\ t_events t' = t_events t ++ [Wrote bytes]) \/
(f_file (t_files t') = f_file (t_files t) /\ t_events t' = t_events t /\ stamp = None).
Proof. apply (write_whole_written_or_kept w t bytes). Qed.
End claims.

(* ------------------------------------------------------------ *)

(** A task at work on the notes of [NotesExample]: the theorems of [TaskClaims] on it, and
    two runs in which a change goes lost. *)

Open Scope nat_scope.

Abbreviation NotesTask := (Task.Task Map.t note_change) (only parsing).

(** Each call works but the ones in the list; the clock counts the questions. *)
Definition world_but (failing : list nat) (file : bytes) : World :=
  MkWorld (fun n => N.of_nat n) (fun _ => None) (fun n => negb (bool_decide (n ∈ failing))) (fun _ => 0%N)
    (fun _ => Some (MkStamp 2 None)) (fun _ => Some 7%N) (fun _ => None) (fun _ => At (MkStamp 3 None)) (fun _ => Some file).

Definition no_folder : Folder := MkFolder None None None None.
Definition first_file : bytes := text_of (Object [("x"%string, Str "0")]).

Definition wake_all (w : World) (t : NotesTask) (wakes : list Wake) : NotesTask * bool :=
  foldl (fun r by_ => if (r.2 : bool) then r else wake (Q:=Value) w r.1 by_) (t, false) wakes.

Definition notes_task (w : World) : NotesTask :=
  default (MkTask opened (Journal.remove (MkJournal no_folder true 0)) "" [] (MkStamp 0 None) ∅ None None None None false []
    (MkFiles [] None) 0 [] []) (Task.start (Q:=Value) w "x.notes" no_folder first_file (MkStamp 1 None)).

Definition two_join : Wake :=
  Batch (Task.Connect 1 writer :: Task.Connect 2 reader ::
    (Enter <$> [InMessage 1 (frame_of (Join CONTRACT "a" 7 0)); InMessage 2 (frame_of (Join CONTRACT "b" 7 0))])).
Definition note_batch (seq : Seq) (base : Rev) (k v : string) : Wake := Batch [Enter (InMessage 1 (set_note seq base k v))].

Lemma wake_all_runs w t wakes : runs (Q:=Value) w t false -> forallb from_host wakes = true ->
  runs (Q:=Value) w (wake_all w t wakes).1 (wake_all w t wakes).2.
Proof.
  intros Hr. unfold wake_all. assert (Hr' : runs (Q:=Value) w (t, false).1 (t, false).2) by done. revert Hr'.
  generalize (t, false). clear Hr. induction wakes as [|by_ wakes IH]; intros [t' ended] Hr; [done|].
  simpl. intros [Hb Hbs]%andb_true_iff. destruct ended; [by apply IH|]. apply IH; [|done].
  eapply runs_wake; [exact Hr|exact Hb|apply surjective_pairing].
Qed.

Lemma notes_task_runs failing file wakes : forallb from_host wakes = true ->
  runs (Q:=Value) (world_but failing file) (wake_all (world_but failing file) (notes_task (world_but failing file)) wakes).1
    (wake_all (world_but failing file) (notes_task (world_but failing file)) wakes).2.
Proof.
  apply wake_all_runs. apply (runs_start _ "x.notes" no_folder first_file (MkStamp 1 None)). vm_compute. reflexivity.
Qed.

Definition working : World := world_but [] [].
Definition noted : NotesTask := (wake_all working (notes_task working) [two_join; note_batch 1 0 "y" "1"]).1.

Definition is_sent (event : Event) : bool := match event with Sent _ _ _ _ => true | _ => false end.

(** The frame that is the [k]-th event. *)
Definition sent (t : NotesTask) (k : nat) : option (PipeId * bytes * bytes * list bytes) :=
  match t_events t !! k with Some (Sent pipe frame safe made) => Some (pipe, frame, safe, made) | _ => None end.

Lemma sent_split t k pipe frame safe made : sent t k = Some (pipe, frame, safe, made) ->
  t_events t = take k (t_events t) ++ Sent pipe frame safe made :: drop (S k) (t_events t).
Proof.
  unfold sent. destruct (t_events t !! k) as [[| |]|] eqn:E; try done. intros [= -> -> -> ->].
  by rewrite take_drop_middle.
Qed.

Lemma all_sent k l : forallb is_sent l = true -> Lost ∉ take k l.
Proof.
  intros Hf Hl. apply elem_of_take in Hl as (i & Hi & _). apply list_elem_of_lookup_2 in Hi.
  rewrite forallb_forall in Hf. apply list_elem_of_In in Hi. by apply Hf in Hi.
Qed.

Lemma noted_runs : runs (Q:=Value) working noted false.
Proof.
  pose proof (notes_task_runs [] [] [two_join; note_batch 1 0 "y" "1"] eq_refl) as Hr.
  replace false with (wake_all working (notes_task working) [two_join; note_batch 1 0 "y" "1"]).2 by (vm_compute; reflexivity).
  exact Hr.
Qed.

(** The fourth frame tells the first note, when its record was safe. *)
Lemma told_changes_are_safe_witness :
  match sent noted 3 with
  | Some (_, _, safe, made) => length made = 1 /\ exists r, read_records safe = Some (r, []) /\ rd_records r = made
  | None => False
  end.
Proof.
  destruct (sent noted 3) as [[[[pipe frame] safe] made]|] eqn:E; [|vm_compute in E; discriminate E].
  split; [vm_compute in E; injection E as _ _ _ <-; reflexivity|].
  apply (told_changes_are_safe working noted false (take 3 (t_events noted)) pipe frame safe made (drop 4 (t_events noted)));
    [apply noted_runs|by apply sent_split|]. apply all_sent. vm_compute. reflexivity.
Defined.

Lemma notes_write : forall (m : Map.t) file assets, f_write (C:=note_change) (Q:=Value) m file assets <> None.
Proof. intros m file assets. discriminate. Qed.

Lemma unsaved_gets_saved_witness :
  next_deadline noted = Some 2008%N /\ f_file (t_files noted) = first_file /\
  f_file (t_files (deadline_reached (Q:=Value) working noted).1) = text_of (Object [("x", Str "0"); ("y", Str "1")]%string).
Proof.
  assert (Hne : d_rev (t_document noted) <> d_saved_rev (t_document noted)) by (vm_compute; discriminate).
  destruct (unsaved_gets_saved working noted notes_write noted_runs Hne) as [Hd Hs].
  split; [destruct Hd as (at_ & Ed & _); vm_compute; reflexivity|]. split; [vm_compute; reflexivity|].
  destruct Hs as (_ & _ & Hf); [by intros k _|].
  assert (Ef : f_write (Q:=Value) (d_model (t_document noted)) (t_disk noted) (d_assets (t_document noted)) =
    Some (text_of (Object [("x", Str "0"); ("y", Str "1")]%string))) by (vm_compute; reflexivity).
  rewrite Ef in Hf. apply Some_inj in Hf. symmetry. exact Hf.
Defined.

(** ** A record that did not reach the disk

    The sync of the journal fails and the change is told all the same. *)
Definition unsafe : NotesTask := (wake_all (world_but [9] []) (notes_task (world_but [9] [])) [two_join; note_batch 1 0 "y" "1"]).1.

(** ** A file of an earlier save from another program

    Ada's note is saved; another program puts the first file back; the last view goes.  The
    document still has the note and says that it is saved, the file does not hold it, and
    the journal is gone. *)
Definition undone : NotesTask :=
  (wake_all (world_but [] first_file) (notes_task (world_but [] first_file))
    [two_join; note_batch 1 0 "x" "1"; Batch [Flush]; Watch; Batch [Close]]).1.

Example unsafe_is_told :
  match sent unsafe 4 with Some (_, _, safe, made) => safe = [] /\ length made = 1 | None => False end /\
  t_events unsafe !! 3 = Some Lost.
Proof. by vm_compute. Qed.

Example undone_is_lost :
  d_model (t_document undone) = [("x", Str "1")]%string /\ d_rev (t_document undone) = d_saved_rev (t_document undone) /\
  f_file (t_files undone) = first_file /\ j_folder (t_journal undone) = no_folder.
Proof. by vm_compute. Qed.
