(* ===== verification/Host.v ===== *)
(** [documents/crates/documents/src/lib.rs] and [live.rs]: the open documents of a computer.

    Calls of [Documents::open] run side by side, so each is a small machine, and one step of
    it is what runs between two awaits.  A task is its number; that it is closed is that its
    receiver of commands is gone.  A path is one that [real_path] gave. *)

From Stdlib Require Import Ascii.
From S2P Require Import Prelude Contract Live.
Open Scope nat_scope.

Definition MOST_OPEN : nat := 8.
Definition MOST_FILE_BYTES : N := 33554432.

Inductive OpenError : Type := TooMany (open : nat) | TooLarge | UnknownKind | Unreadable | Io.

(** ** The formats, by file extension *)

Definition lower (c : ascii) : ascii :=
  let n := Ascii.N_of_ascii c in if (65 <=? n)%N && (n <=? 90)%N then Ascii.ascii_of_N (n + 32) else c.

Fixpoint to_ascii_lowercase (s : string) : string :=
  match s with "" => "" | String c s => String (lower c) (to_ascii_lowercase s) end%string.

Lemma lower_lower c : lower (lower c) = lower c.
Proof. destruct c as [[] [] [] [] [] [] [] []]; reflexivity. Qed.

Lemma lowercase_again s : to_ascii_lowercase (to_ascii_lowercase s) = to_ascii_lowercase s.
Proof. induction s as [|c s IH]; [done|]. simpl. by rewrite lower_lower, IH. Qed.

(** The text after the last [sep], if there is one, with what is before it. *)
Fixpoint after_last (sep : ascii) (s : string) : option (string * string) :=
  match s with
  | "" => None
  | String c rest =>
      match after_last sep rest with
      | Some (before, after) => Some (String c before, after)
      | None => if decide (c = sep) then Some ("", rest) else None
      end
  end%string.

(** [Path::extension]: the name of the file from its last dot on, when something is before it. *)
Definition extension (path : string) : option string :=
  let name := match after_last "/" path with Some (_, name) => name | None => path end in
  if decide (name = "..")%string then None
  else match after_last "." name with
    | Some (String _ _, extension) => Some extension
    | _ => None
    end.

Section formats.
Context {O : Type}.
Abbreviation Formats := (gmap string O).

Definition with_format (formats : Formats) (extension : string) (opener : O) : Formats :=
<[to_ascii_lowercase extension := opener]> formats.
Definition format_of (formats : Formats) (path : string) : option O :=
extension ← extension path; formats !! to_ascii_lowercase extension.

Lemma format_of_with formats ext opener path : extension path = Some ext ->
format_of (with_format formats ext opener) path = Some opener.
Proof. intros E. unfold format_of, with_format. rewrite E. simpl. by rewrite lookup_insert_eq. Qed.
End formats.

(** ** The open documents *)

(** Where a call of [Documents::open] is. *)
Inductive Call : Type :=
| Calls (path : string)                 (** before its first look *)
| Waits (path : string)                 (** for [starting] *)
| Sizes (path : string)                 (** asks for the size of the file, and holds [starting] *)
| Starts (path : string)                (** runs [task::start], and holds [starting] *)
| Started (path : string) (task : nat)  (** before the task is in the map *)
| Joins (task : nat)                    (** sends [Connect] *)
| Piped (pipe : PipeId) (task : nat)
| Refused (error : OpenError).

Record Open : Type := MkOpen { o_path : string; o_closed : bool }.

Record Host : Type := MkHost {
  h_open : gmap string nat;     (** [open]: the task of each path *)
  h_starting : bool;            (** [starting] is locked *)
  h_next_pipe : N;
  h_tasks : gmap nat Open;      (** every task there was *)
  h_calls : list Call
}.

Definition with_open (h : Host) open : Host := MkHost open (h_starting h) (h_next_pipe h) (h_tasks h) (h_calls h).
Definition with_starting (h : Host) starting : Host :=
  MkHost (h_open h) starting (h_next_pipe h) (h_tasks h) (h_calls h).
Definition with_tasks (h : Host) tasks : Host := MkHost (h_open h) (h_starting h) (h_next_pipe h) tasks (h_calls h).
Definition with_call (h : Host) (i : nat) (call : Call) : Host :=
  MkHost (h_open h) (h_starting h) (h_next_pipe h) (h_tasks h) (<[i := call]> (h_calls h)).

Definition is_closed (h : Host) (task : nat) : bool :=
  match h_tasks h !! task with Some t => o_closed t | None => true end.

(** The tasks that ended go. *)
Definition running (h : Host) (path : string) : Host * option nat :=
  let open := filter (fun e => is_closed h e.2 = false) (h_open h) in
  (with_open h open, open !! path).

Section host.
Context {O : Type} (formats : gmap string O).

(** What a call finds out from the computer. *)
Inductive Answer : Type := Nothing | Size (bytes : option N) | Opens (opened : bool).

(** One step of the [i]-th call. *)
Definition advance (h : Host) (i : nat) (answer : Answer) : option Host :=
call ← h_calls h !! i;
match call, answer with
| Calls path, Nothing =>
let '(h, task) := running h path in
Some (with_call h i match task with Some task => Joins task | None => Waits path end)
| Waits path, Nothing =>
if h_starting h then None
else
let '(h, task) := running h path in
match task with
| Some task => Some (with_call h i (Joins task))
| None =>
if MOST_OPEN <=? size (h_open h) then Some (with_call h i (Refused (TooMany MOST_OPEN)))
else match format_of formats path with
| None => Some (with_call h i (Refused UnknownKind))
| Some _ => Some (with_call (with_starting h true) i (Sizes path))
end
end
| Sizes path, Size bytes =>
match bytes with
| None => Some (with_call (with_starting h false) i (Refused Io))
| Some bytes =>
if (MOST_FILE_BYTES <? bytes)%N then Some (with_call (with_starting h false) i (Refused TooLarge))
else Some (with_call h i (Starts path))
end
| Starts path, Opens opened =>
if (opened : bool) then
let task := fresh (dom (h_tasks h)) in
Some (with_call (with_tasks h (<[task := MkOpen path false]> (h_tasks h))) i (Started path task))
else Some (with_call (with_starting h false) i (Refused Unreadable))
| Started path task, Nothing =>
Some (with_call (with_starting (with_open h (<[path := task]> (h_open h))) false) i (Joins task))
| Joins task, Nothing =>
let pipe := h_next_pipe h in
let h := MkHost (h_open h) (h_starting h) (pipe + 1) (h_tasks h) (h_calls h) in
Some (with_call h i (if is_closed h task then Refused Io else Piped pipe task))
| _, _ => None
end.

Definition close_task (h : Host) (task : nat) : Host :=
with_tasks h (alter (fun t => MkOpen (o_path t) true) task (h_tasks h)).

Inductive host_step (h : Host) : Host -> Prop :=
| host_calls path : host_step h (MkHost (h_open h) (h_starting h) (h_next_pipe h) (h_tasks h) (h_calls h ++ [Calls path]))
| host_advances i answer h' : advance h i answer = Some h' -> host_step h h'
| host_task_ends task : host_step h (close_task h task).

(** [Documents::close] empties the map, and then waits for each task to end. *)
Definition drain (h : Host) : Host := with_open h ∅.

Definition new : Host := MkHost ∅ false 1 ∅ [].

Inductive host_runs : Host -> Prop :=
| host_new : host_runs new
| host_next h h' : host_runs h -> host_step h h' -> host_runs h'.

(** ** One task for each file *)

(** The path that a call with the lock is on. *)
Definition holds_lock (call : Call) : option string :=
match call with Sizes path | Starts path | Started path _ => Some path | _ => None end.

Definition live (h : Host) (task : nat) (path : string) : Prop := h_tasks h !! task = Some (MkOpen path false).

(** The task of a call that has started it. *)
Definition started (call : Call) : option nat := match call with Started _ task => Some task | _ => None end.

Record host_ok (h : Host) : Prop := {
ok_lock : forall i call path, h_calls h !! i = Some call -> holds_lock call = Some path -> h_starting h = true;
ok_one : forall i j ci cj p q, h_calls h !! i = Some ci -> h_calls h !! j = Some cj ->
holds_lock ci = Some p -> holds_lock cj = Some q -> i = j;
ok_live : forall task path, live h task path ->
h_open h !! path = Some task \/ exists i, h_calls h !! i = Some (Started path task);
ok_alone : forall i call path, h_calls h !! i = Some call -> holds_lock call = Some path ->
(forall task, live h task path -> call = Started path task) /\ size (h_open h) < MOST_OPEN;
ok_size : size (h_open h) <= MOST_OPEN
}.

Lemma lookup_call h i call j : h_calls (with_call h i call) !! j =
if decide (i = j /\ i < length (h_calls h)) then Some call else h_calls h !! j.
Proof.
apply list_lookup_insert.
Qed.

(** A call that moves and holds no lock before or after. *)
Lemma quiet_call h i old new : h_calls h !! i = Some old -> holds_lock old = None -> holds_lock new = None ->
host_ok h -> host_ok (with_call h i new).
Proof.
intros Hi Ho Hn [H1 H2 H3 H4 H5].
assert (Hc : forall j call path, h_calls (with_call h i new) !! j = Some call -> holds_lock call = Some path ->
h_calls h !! j = Some call).
{ intros j call path. rewrite lookup_call. destruct (decide _); [intros [= <-]; congruence|done]. }
constructor; [eauto|eauto| |eauto|done].
intros task path Hl. destruct (H3 task path Hl) as [Hp|[j Hj]]; [by left|]. right. exists j.
rewrite lookup_call. destruct (decide _) as [[<- _]|]; [|done]. rewrite Hi in Hj. by injection Hj as ->.
Qed.

Lemma live_open h task path : live h task path -> is_closed h task = false.
Proof. unfold live, is_closed. by intros ->. Qed.

Lemma running_ok h path : host_ok h -> host_ok (running h path).1.
Proof.
intros [H1 H2 H3 H4 H5]. unfold running. simpl. set (open := filter _ _).
assert (Hs : size open <= size (h_open h)) by (rewrite <- !(size_dom (D := gset string)); apply subseteq_size, subseteq_dom, map_filter_subseteq).
constructor; simpl; [done|done| | |lia].
- intros task p Hl. destruct (H3 task p Hl) as [Hp|Hj]; [|by right]. left. apply map_lookup_filter_Some.
split; [done|]. simpl. by eapply live_open.
- intros i call p Hi Hp. destruct (H4 i call p Hi Hp) as [Ha Hsz]. split; [exact Ha|]. lia.
Qed.

(** With the lock free, a path that [running] does not find has no task. *)
Lemma running_none h path task : host_ok h -> h_starting h = false -> (running h path).2 = None -> ~ live h task path.
Proof.
intros [H1 _ H3 _ _] Hs Hr Hl. destruct (H3 task path Hl) as [Hp|[i Hi]].
- unfold running in Hr. simpl in Hr. apply map_lookup_filter_None in Hr as [Hn|Hf]; [congruence|].
apply (Hf task Hp). simpl. by eapply live_open.
- pose proof (H1 i _ path Hi eq_refl). congruence.
Qed.

(** The call with the lock lets it go. *)
Lemma release_ok h i old new path : h_calls h !! i = Some old -> holds_lock old = Some path -> started old = None ->
holds_lock new = None -> host_ok h -> host_ok (with_call (with_starting h false) i new).
Proof.
intros Hi Ho Hst Hn [H1 H2 H3 H4 H5].
assert (Hno : forall j call p, h_calls (with_call (with_starting h false) i new) !! j = Some call -> holds_lock call <> Some p).
{ intros j call p. rewrite lookup_call. simpl. destruct (decide _) as [|Hd]; [intros [= <-]; congruence|].
intros Hj Hp. assert (i = j) as <- by (eapply H2; eauto). destruct Hd. split; [done|by eapply lookup_lt_Some]. }
constructor; [by intros j call p Hj Hp; destruct (Hno j call p Hj)|by intros j ? ? ? p ? Hj ? Hp; destruct (Hno j _ p Hj)| |
by intros j call p Hj Hp; destruct (Hno j call p Hj)|done].
intros task p Hl. destruct (H3 task p Hl) as [Hp|[j Hj]]; [by left|]. right. exists j. rewrite lookup_call. simpl.
destruct (decide _) as [[<- _]|]; [|done]. rewrite Hi in Hj. by injection Hj as ->.
Qed.

(** The lock is taken for a path without a task. *)
Lemma acquire_ok h i path : h_calls h !! i = Some (Waits path) -> h_starting h = false ->
(forall task, ~ live h task path) -> size (h_open h) < MOST_OPEN ->
host_ok h -> host_ok (with_call (with_starting h true) i (Sizes path)).
Proof.
intros Hi Hs Hn Hsz [H1 H2 H3 H4 H5].
assert (Hc : forall j call p, h_calls (with_call (with_starting h true) i (Sizes path)) !! j = Some call ->
holds_lock call = Some p -> j = i /\ call = Sizes path).
{ intros j call p. rewrite lookup_call. simpl. destruct (decide _) as [[<- _]|]; [by intros [= <-]|].
intros Hj Hp. pose proof (H1 j call p Hj Hp). congruence. }
constructor; [done| | | |done].
- intros j k cj ck p q Hj Hk Hp Hq. destruct (Hc j cj p Hj Hp) as [-> _]. by destruct (Hc k ck q Hk Hq) as [-> _].
- intros task p Hl. destruct (H3 task p Hl) as [Hp|[j Hj]]; [by left|]. pose proof (H1 j _ p Hj eq_refl). congruence.
- intros j call p Hj Hp. destruct (Hc j call p Hj Hp) as [-> ->]. injection Hp as <-. split; [|done].
intros task Hl. by destruct (Hn task).
Qed.

(** The call with the lock goes on, and its path has no task yet. *)
Lemma hold_ok h i old new path : h_calls h !! i = Some old -> holds_lock old = Some path -> started old = None ->
holds_lock new = Some path -> started new = None -> host_ok h -> host_ok (with_call h i new).
Proof.
intros Hi Ho Hst Hn Hsn [H1 H2 H3 H4 H5].
assert (Hc : forall j call p, h_calls (with_call h i new) !! j = Some call -> holds_lock call = Some p ->
j = i /\ call = new /\ p = path).
{ intros j call p. rewrite lookup_call. destruct (decide _) as [[<- _]|Hd]; [intros [= <-]; by rewrite Hn; intros [= ->]|].
intros Hj Hp. assert (i = j) as <- by (eapply H2; eauto). destruct Hd. split; [done|by eapply lookup_lt_Some]. }
constructor.
- intros _ _ _ _ _. by eapply H1.
- intros j k cj ck p q Hj Hk Hp Hq. destruct (Hc j cj p Hj Hp) as [-> _]. by destruct (Hc k ck q Hk Hq) as [-> _].
- intros task p Hl. destruct (H3 task p Hl) as [Hp|[j Hj]]; [by left|]. right. exists j.
rewrite lookup_call. destruct (decide _) as [[<- _]|]; [|done]. rewrite Hi in Hj. by injection Hj as ->.
- intros j call p Hj Hp. destruct (Hc j call p Hj Hp) as (-> & -> & ->). destruct (H4 i old path Hi Ho) as [Ha Hsz].
split; [|exact Hsz]. intros task Hl. apply Ha in Hl as ->. done.
- done.
Qed.

(** [task::start] made a task. *)
Lemma start_ok h i path task : h_calls h !! i = Some (Starts path) -> h_tasks h !! task = None -> host_ok h ->
host_ok (with_call (with_tasks h (<[task := MkOpen path false]> (h_tasks h))) i (Started path task)).
Proof.
intros Hi Hf [H1 H2 H3 H4 H5]. destruct (H4 i _ path Hi eq_refl) as [Ha Hsz].
pose proof (lookup_lt_Some _ _ _ Hi) as Hlt.
assert (Hc : forall j call p, h_calls (with_call (with_tasks h (<[task := MkOpen path false]> (h_tasks h))) i (Started path task)) !! j =
Some call -> holds_lock call = Some p -> j = i /\ call = Started path task /\ p = path).
{ intros j call p. rewrite lookup_call. simpl. destruct (decide _) as [[<- _]|Hd]; [intros [= <-]; by intros [= ->]|].
intros Hj Hp. assert (i = j) as <- by (eapply H2; eauto; done). by destruct Hd. }
constructor.
- intros _ _ _ _ _. by eapply H1.
- intros j k cj ck p q Hj Hk Hp Hq. destruct (Hc j cj p Hj Hp) as [-> _]. by destruct (Hc k ck q Hk Hq) as [-> _].
- intros task' p. unfold live. simpl. destruct (decide (task = task')) as [<-|Hne].
+ rewrite lookup_insert_eq. intros [= <-]. right. exists i. by rewrite list_lookup_insert_eq.
+ rewrite lookup_insert_ne by done. intros Hl. destruct (H3 task' p Hl) as [Hp|[j Hj]]; [by left|].
assert (i = j) as <- by (eapply H2; eauto; done). congruence.
- intros j call p Hj Hp. destruct (Hc j call p Hj Hp) as (-> & -> & ->). split; [|exact Hsz].
intros task'. unfold live. simpl. destruct (decide (task = task')) as [<-|Hne]; [done|].
rewrite lookup_insert_ne by done. intros Hl. by apply Ha in Hl.
- done.
Qed.

(** The task goes in the map, and the lock is free. *)
Lemma insert_ok h i path task : h_calls h !! i = Some (Started path task) -> host_ok h ->
host_ok (with_call (with_starting (with_open h (<[path := task]> (h_open h))) false) i (Joins task)).
Proof.
intros Hi [H1 H2 H3 H4 H5]. destruct (H4 i _ path Hi eq_refl) as [Ha Hsz].
assert (Hno : forall j call p, h_calls (with_call (with_starting (with_open h (<[path := task]> (h_open h))) false) i (Joins task)) !! j =
Some call -> holds_lock call <> Some p).
{ intros j call p. rewrite lookup_call. simpl. destruct (decide _) as [|Hd]; [by intros [= <-]|].
intros Hj Hp. assert (i = j) as <- by (eapply H2; eauto; done). destruct Hd. split; [done|by eapply lookup_lt_Some]. }
constructor; [by intros j call p Hj Hp; destruct (Hno j call p Hj)|by intros j ? ? ? p ? Hj ? Hp; destruct (Hno j _ p Hj)| |
by intros j call p Hj Hp; destruct (Hno j call p Hj)|].
- intros task' p Hl. left. simpl. destruct (decide (path = p)) as [<-|Hne].
+ rewrite lookup_insert_eq. apply Ha in Hl. by injection Hl as ->.
+ rewrite lookup_insert_ne by done. destruct (H3 task' p Hl) as [Hp|[j Hj]]; [done|].
assert (i = j) as <- by (eapply H2; eauto; done). rewrite Hi in Hj. by injection Hj as ? _.
- simpl. rewrite map_size_insert. destruct (h_open h !! path); simpl; lia.
Qed.

Lemma advance_ok h i answer h' : advance h i answer = Some h' -> host_ok h -> host_ok h'.
Proof.
unfold advance. destruct (h_calls h !! i) as [call|] eqn:Hi; [|done]. cbn [mbind option_bind]. intros E Hok.
destruct call as [path|path|path|path|path task|task|pipe task|error], answer as [|bytes|opened]; try done.
- pose proof (running_ok h path Hok) as Hok1. destruct (running h path) as [h1 task] eqn:Er. injection E as <-.
apply (quiet_call h1 i (Calls path)); [by injection Er as <- _|done|by destruct task|exact Hok1].
- destruct (h_starting h) eqn:Es; [done|]. pose proof (running_ok h path Hok) as Hok1.
pose proof (running_none h path) as Hn. destruct (running h path) as [h1 task] eqn:Er.
assert (Hh : h_calls h1 !! i = Some (Waits path) /\ h_starting h1 = false /\ h_tasks h1 = h_tasks h) by (by injection Er as <- _).
destruct Hh as (Hi1 & Hs1 & Ht1).
destruct task as [task|]; [injection E as <-; by apply (quiet_call _ i (Waits path))|].
destruct (Nat.leb_spec MOST_OPEN (size (h_open h1))); [injection E as <-; by apply (quiet_call _ i (Waits path))|].
destruct (format_of formats path); injection E as <-; [|by apply (quiet_call _ i (Waits path))].
apply acquire_ok; try done. unfold live. rewrite Ht1. intros task. by apply (Hn task).
- destruct bytes as [bytes|]; [|injection E as <-; by apply (release_ok _ _ (Sizes path) _ path)].
destruct (_ <? _)%N; injection E as <-; [by apply (release_ok _ _ (Sizes path) _ path)|].
by apply (hold_ok _ _ (Sizes path) _ path).
- destruct opened; injection E as <-; [|by apply (release_ok _ _ (Starts path) _ path)].
apply start_ok; [done| |done]. apply not_elem_of_dom, is_fresh.
- injection E as <-. by apply insert_ok.
- injection E as <-. apply (quiet_call _ i (Joins task)); [done|done|by destruct (is_closed _ _)|].
destruct Hok. by constructor.
Qed.

Lemma close_task_ok h task : host_ok h -> host_ok (close_task h task).
Proof.
intros [H1 H2 H3 H4 H5].
assert (Hl : forall task' path, live (close_task h task) task' path -> live h task' path).
{ intros task' path. unfold live. simpl. rewrite lookup_alter. destruct (decide _) as [->|]; [|done].
by destruct (h_tasks h !! _). }
constructor; simpl; [done|done| | |done].
- intros task' path Hlive. by apply H3, Hl.
- intros i call path Hi Hp. destruct (H4 i call path Hi Hp) as [Ha Hs]. split; [|done]. intros task' Hlive. by apply Ha, Hl.
Qed.

Lemma host_runs_ok h : host_runs h -> host_ok h.
Proof.
induction 1 as [|h h' _ IH Hs].
{ constructor; simpl; try done. rewrite map_size_empty. unfold MOST_OPEN. lia. }
destruct Hs as [path|i answer h' E|task].
- destruct IH as [H1 H2 H3 H4 H5].
assert (Hc : forall i call p, (h_calls h ++ [Calls path]) !! i = Some call -> holds_lock call = Some p ->
h_calls h !! i = Some call).
{ intros i call p [Hi|[_ Hi]]%lookup_app_Some Hp; [done|]. apply list_lookup_singleton_Some in Hi as [_ <-]. done. }
constructor; simpl; [eauto|eauto| |eauto|done].
intros task p Hl. destruct (H3 task p Hl) as [Hp|[i Hi]]; [by left|]. right. exists i. by apply lookup_app_l_Some.
- by eapply advance_ok.
- by apply close_task_ok.
Qed.
End host.

(* ------------------------------------------------------------ *)

(** One task for each file: the theorem about [Host], two calls of [open] that run side by
    side, and what [Documents::close] breaks. *)

Open Scope nat_scope.

(** C22. One task owns each file.  Whatever calls of [Documents::open] run side by side, in
    any order of their steps and with any of them refused, and whenever tasks end, no two
    tasks that have not ended are of one path, and at most eight documents are open. *)
Theorem one_task_for_each_file {O} (formats : gmap string O) (h : Host) : host_runs formats h ->
  (forall task task' path, live h task path -> live h task' path -> task = task') /\ size (h_open h) <= MOST_OPEN.
Proof.
  intros Hr. destruct (host_runs_ok formats h Hr) as [_ H2 H3 H4 H5]. split; [|done].
  intros task task' path Hl Hl'. destruct (H3 task path Hl) as [Hp|[i Hi]], (H3 task' path Hl') as [Hp'|[j Hj]]; [congruence|..].
  - destruct (H4 j _ path Hj eq_refl) as [Ha _]. by injection (Ha task Hl).
  - destruct (H4 i _ path Hi eq_refl) as [Ha _]. by injection (Ha task' Hl').
  - assert (i = j) as <- by (eapply H2; eauto; done). congruence.
Qed.

(** ** Two calls *)

Definition kinds : gmap string unit := with_format ∅ "DOCX" tt.

Definition call_on (h : Host) (path : string) : Host :=
  MkHost (h_open h) (h_starting h) (h_next_pipe h) (h_tasks h) (h_calls h ++ [Calls path]).
Definition advances (h : Host) (moves : list (nat * Answer)) : option Host :=
  foldl (fun h m => h ← h; advance kinds h m.1 m.2) (Some h) moves.

Lemma advances_runs h moves h' : host_runs kinds h -> advances h moves = Some h' -> host_runs kinds h'.
Proof.
  intros Hr. unfold advances. assert (Ho : forall h1, Some h = Some h1 -> host_runs kinds h1) by congruence. revert Ho.
  generalize (Some h). clear Hr. induction moves as [|m moves IH]; intros o Ho; simpl; [apply Ho|]. apply IH.
  destruct o as [h1|]; [|done]. simpl. intros h2 E. eapply host_next; [by apply Ho|by eapply host_advances].
Qed.

Definition two_calls : Host := call_on (call_on Host.new "/a.docx") "/a.docx".

(** Both find nothing; the first takes the lock and starts the task; the second waits. *)
Definition one_started : option Host :=
  advances two_calls [(0, Nothing); (1, Nothing); (0, Nothing); (0, Size (Some 9%N)); (0, Opens true); (0, Nothing);
    (1, Nothing); (0, Nothing); (1, Nothing)].

Lemma one_task_for_each_file_witness : exists h, one_started = Some h /\
  h_calls h = [Piped 1 0; Piped 2 0] /\ (forall task task' path, live h task path -> live h task' path -> task = task').
Proof.
  destruct one_started as [h|] eqn:E; [|vm_compute in E; discriminate E]. exists h. split; [done|]. split.
  - vm_compute in E. by injection E as <-.
  - apply (one_task_for_each_file kinds). eapply (advances_runs two_calls); [|exact E].
    unfold two_calls. eapply host_next; [eapply host_next; [apply host_new|]|]; apply host_calls.
Defined.

(** ** A close with a call beside it

    [Documents::close] empties the map before the tasks end, so a call finds nothing and starts
    a second task on the file and on the journal of the first. *)
Definition reopened : option Host :=
  h ← one_started;
  advances (call_on (drain h) "/a.docx") [(2, Nothing); (2, Nothing); (2, Size (Some 9%N)); (2, Opens true); (2, Nothing)].

Example close_starts_twice :
  match reopened with
  | Some h => live h 0 "/a.docx" /\ live h 1 "/a.docx"
  | None => False
  end.
Proof. by vm_compute. Qed.
