(* ===== verification/SheetFormula.v ===== *)
(** [documents/crates/xlsx/src/formula.rs]: the names of cells and ranges, the references of a
    formula, and how they move with rows and columns.

    A text of this file is the list of its characters.  Which characters past ASCII are
    letters or digits is Unicode's, so it is a parameter.  Rows and columns are [u32] and a
    sum that is too large panics. *)

From S2P Require Import Prelude Json Contract Format.
Open Scope N_scope.

Abbreviation text := (list N).

(** What [char::is_alphanumeric] says past ASCII. *)
Class Unicode : Type := wide_alphanumeric : N -> bool.

Definition U32 : N := 4294967296.

(** [a + b] of [u32]. *)
Definition add32 {E} (a b : N) : Result E N := if a + b <? U32 then Ok (a + b) else Panic.

(** ** Characters *)

Definition is_digit (c : N) : bool := (48 <=? c) && (c <=? 57).
Definition is_upper (c : N) : bool := (65 <=? c) && (c <=? 90).
Definition is_lower (c : N) : bool := (97 <=? c) && (c <=? 122).
Definition is_alphabetic (c : N) : bool := is_upper c || is_lower c.
Definition to_upper (c : N) : N := if is_lower c then c - 32 else c.
(** The characters that [split_whitespace] splits at. *)
Definition is_whitespace (c : N) : bool :=
  ((9 <=? c) && (c <=? 13)) || (c =? 32) || (c =? 133) || (c =? 160) || (c =? 5760) ||
  ((8192 <=? c) && (c <=? 8202)) || (c =? 8232) || (c =? 8233) || (c =? 8239) || (c =? 8287) || (c =? 12288).

Definition QUOTE : N := 34.
Definition DOLLAR : N := 36.
Definition TICK : N := 39.
Definition OPEN : N := 40.
Definition PLUS : N := 43.
Definition COLON : N := 58.
Definition BANG : N := 33.

(** ** Numbers in text *)

(** The digits of a number that has at most [fuel] of them. *)
Fixpoint digits (fuel : nat) (n : N) : text :=
  match fuel with
  | O => []
  | S fuel => (if n <? 10 then [] else digits fuel (n / 10)) ++ [48 + n mod 10]
  end.
(** A [u32] has ten digits. *)
Definition decimal : N -> text := digits 10.

Definition digits_value (l : text) : N := foldl (fun n c => n * 10 + (c - 48)) 0 l.

(** [str::parse::<u32>]. *)
Definition parse_u32 (l : text) : option N :=
  let l := match l with c :: l' => if c =? PLUS then l' else l | [] => l end in
  match l with
  | [] => None
  | _ => if forallb is_digit l && (digits_value l <? U32) then Some (digits_value l) else None
  end.

(** ** Names of columns and cells *)

(** The letters, the last one first.  A [u32] has seven at most. *)
Fixpoint column_letters (fuel : nat) (column : N) : text :=
  match fuel with
  | O => []
  | S fuel => (65 + column mod 26) :: (if column <? 26 then [] else column_letters fuel (column / 26 - 1))
  end.
Definition column_name (column : N) : text := rev (column_letters 7 column).

Definition checked (n : N) : option N := if n <? U32 then Some n else None.

Definition column_number (letters : text) : option N :=
  column ← foldl (fun column letter =>
    column ← column;
    if is_alphabetic letter then
      times ← checked (column * 26); checked (times + (to_upper letter - 65 + 1))
    else None) (Some 0) letters;
  if column =? 0 then None else Some (column - 1).

Definition cell_name {E} (row column : N) : Result E text :=
  row ← add32 row 1; Ok (column_name column ++ decimal row).

(** Where the first digit is. *)
Fixpoint split_digit (l : text) : option (text * text) :=
  match l with
  | [] => None
  | c :: l' => if is_digit c then Some ([], l) else '(a, b) ← split_digit l'; Some (c :: a, b)
  end.

Definition parse_cell (name : text) : option (N * N) :=
  '(letters, digits) ← split_digit name;
  row ← parse_u32 digits;
  if row =? 0 then None
  else column ← column_number letters; Some (row - 1, column).

(** [str::split_once] at a character. *)
Fixpoint split_once (sep : N) (l : text) : option (text * text) :=
  match l with
  | [] => None
  | c :: l => if c =? sep then Some ([], l) else '(a, b) ← split_once sep l; Some (c :: a, b)
  end.

(** A range: its top, left, bottom and right. *)
Definition Bounds : Type := (N * N * N * N).

Definition parse_range (name : text) : option Bounds :=
  let '(first, last) := default (name, name) (split_once COLON name) in
  '(top, left_) ← parse_cell first;
  '(bottom, right_) ← parse_cell last;
  Some (top, left_, bottom, right_).

Definition range_name {E} (range : Bounds) : Result E text :=
  let '(top, left_, bottom, right_) := range in
  if decide ((top, left_) = (bottom, right_)) then cell_name top left_
  else first ← cell_name top left_; last ← cell_name bottom right_; Ok (first ++ [COLON] ++ last).

(** ** References *)

Record Reference : Type := MkReference {
  r_row : option N; r_column : option N; r_row_fixed : bool; r_column_fixed : bool
}.

Definition write_reference {E} (r : Reference) : Result E text :=
  let column := match r_column r with
    | Some column => (if r_column_fixed r then [DOLLAR] else []) ++ column_name column | None => [] end in
  match r_row r with
  | Some row => row ← add32 row 1; Ok (column ++ (if r_row_fixed r then [DOLLAR] else []) ++ decimal row)
  | None => Ok column
  end.

Fixpoint take_while (f : N -> bool) (l : text) : text * text :=
  match l with
  | [] => ([], [])
  | c :: l' => if f c then let '(a, b) := take_while f l' in (c :: a, b) else ([], l)
  end.

(** A [$] in front. *)
Definition fixed (l : text) : bool * text :=
  match l with c :: l' => if c =? DOLLAR then (true, l') else (false, l) | [] => (false, l) end.

Definition parse_reference (word : text) : option Reference :=
  let '(column_fixed, rest) := fixed word in
  let '(letters, rest) := take_while is_alphabetic rest in
  column ← match letters with
    | [] => Some None
    | _ => column ← column_number letters; if column <? 18278 then Some (Some column) else None
    end;
  let '(row_fixed, rest) := fixed rest in
  row ← match rest with
    | [] => Some None
    | _ => if forallb is_digit rest then
             row ← parse_u32 rest; if row =? 0 then None else Some (Some (row - 1))
           else None
    end;
  match column, row with
  | None, None => None
  | _, _ => Some (MkReference row column row_fixed column_fixed)
  end.

(** ** The references of a formula *)

Section scan.
Context `{Unicode}.

Definition is_name_letter (c : N) : bool :=
is_alphabetic c || is_digit c || (if c <? 128 then false else wide_alphanumeric c) ||
(c =? 95) || (c =? 46) || (c =? DOLLAR).

(** After an opening quote: up to its closing one, and the rest. *)
Fixpoint quoted (quote : N) (l : text) : text * text :=
match l with
| [] => ([], [])
| c :: l' =>
if c =? quote then
match l' with
| c2 :: l'' => if c2 =? quote then let '(a, b) := quoted quote l'' in (c :: c2 :: a, b) else ([c], l')
| [] => ([c], [])
end
else let '(a, b) := quoted quote l' in (c :: a, b)
end.

(** [replace("''", "'")]. *)
Fixpoint unquote (l : text) : text :=
match l with
| c :: l' =>
if c =? TICK then
match l' with
| c2 :: l'' => if c2 =? TICK then TICK :: unquote l'' else c :: unquote l'
| [] => [c]
end
else c :: unquote l'
| [] => []
end.

(** The two ends of a reference; nothing makes it [#REF!]. *)
Definition MapReference (E : Type) : Type :=
option text -> Reference -> option Reference -> Result E (option (Reference * option Reference)).

Definition REF : text := [35; 82; 69; 70; 33].

(** [copy_reference]: what it writes, and the rest. *)
Definition copy_reference {E} (change : MapReference E) (sheet : option text) (prefix l : text) : Result E (text * text) :=
let '(word, rest) := take_while is_name_letter l in
match parse_reference word with
| None => Ok (prefix ++ word, rest)
| Some first =>
let '(second, last) := match rest with
| c :: rest' =>
if c =? COLON then
let '(next, after) := take_while is_name_letter rest' in
match parse_reference next with Some reference => (Some reference, after) | None => (None, rest) end
else (None, rest)
| [] => (None, rest)
end in
let whole_line := match r_row first, r_column first with Some _, Some _ => false | _, _ => true end in
if whole_line && match second with None => true | Some _ => false end then Ok (prefix ++ word, rest)
else
changed ← change sheet first second;
match changed with
| Some (first, second) =>
first ← write_reference first;
second ← match second with
| Some second => second ← write_reference second; Ok (COLON :: second)
| None => Ok [] end;
Ok (prefix ++ first ++ second, last)
| None => Ok (prefix ++ REF, last)
end
end.

(** One round of the loop: what it writes, and the rest. *)
Definition map_step {E} (change : MapReference E) (c : N) (l : text) : Result E (text * text) :=
if c =? QUOTE then let '(inside, rest) := quoted QUOTE l in Ok (c :: inside, rest)
else if c =? TICK then
let '(inside, rest) := quoted TICK l in
match rest with
| b :: rest' =>
if b =? BANG then copy_reference change (Some (unquote (removelast inside))) (c :: inside ++ [b]) rest'
else Ok (c :: inside, rest)
| [] => Ok (c :: inside, rest)
end
else if is_name_letter c then
let '(word, rest) := take_while is_name_letter (c :: l) in
match rest with
| b :: rest' =>
if b =? BANG then copy_reference change (Some word) (word ++ [b]) rest'
else if b =? OPEN then Ok (word, rest)
else copy_reference change None [] (c :: l)
| [] => copy_reference change None [] (c :: l)
end
else Ok ([c], l).

(** Each round takes a character at least. *)
Fixpoint map_fuel {E} (fuel : nat) (change : MapReference E) (l : text) : Result E text :=
match fuel, l with
| S fuel, c :: l => '(out, rest) ← map_step change c l; more ← map_fuel fuel change rest; Ok (out ++ more)
| _, _ => Ok []
end.
Definition map_references {E} (formula : text) (change : MapReference E) : Result E text :=
map_fuel (length formula) change formula.
End scan.

(** ** Inserted and deleted lines *)

Record Shift : Type := MkShift { sh_at : N; sh_count : Z }.

(** [i32::unsigned_abs]. *)
Definition amount (s : Shift) : N := Z.to_N (Z.abs (sh_count s)).

Definition shift_line {E} (s : Shift) (line : N) : Result E (option N) :=
  if (0 <=? sh_count s)%Z then
    if sh_at s <=? line then line ← add32 line (amount s); Ok (Some line) else Ok (Some line)
  else if line <? sh_at s then Ok (Some line)
  else
    last ← add32 (sh_at s) (amount s);
    Ok (if line <? last then None else Some (line - amount s)).

Definition span {E} (s : Shift) (first last : N) : Result E (option (N * N)) :=
  if (0 <=? sh_count s)%Z then
    start ← shift_line s first;
    match start with
    | None => Ok None
    | Some start => stop ← shift_line s last; Ok (stop ← stop; Some (start, stop))
    end
  else
    start ← shift_line s first;
    start ← match start with
      | Some start => Ok (Some start)
      | None => gone ← add32 (sh_at s) (amount s); Ok (if gone <=? last then Some (sh_at s) else None)
      end;
    match start with
    | None => Ok None
    | Some start =>
        stop ← shift_line s last;
        Ok match stop with
           | Some stop => Some (start, stop)
           | None => if first <? sh_at s then Some (start, sh_at s - 1) else None
           end
    end.

(** A row or a column of a reference. *)
Definition get_axis (rows : bool) (r : Reference) : option N := if rows then r_row r else r_column r.
Definition set_axis (rows : bool) (r : Reference) (value : option N) : Reference :=
  if rows then MkReference value (r_column r) (r_row_fixed r) (r_column_fixed r)
  else MkReference (r_row r) value (r_row_fixed r) (r_column_fixed r).

Definition move_axis {E} (rows : bool) (s : Shift) (ends : Reference * option Reference) :
    Result E (option (Reference * option Reference)) :=
  let '(first, second) := ends in
  match get_axis rows first with
  | None => Ok (Some ends)
  | Some start =>
      match second with
      | Some stop =>
          match get_axis rows stop with
          | None => Ok None
          | Some last =>
              moved ← span s start last;
              Ok ('(start, last) ← moved; Some (set_axis rows first (Some start), Some (set_axis rows stop (Some last))))
          end
      | None => moved ← shift_line s start; Ok (start ← moved; Some (set_axis rows first (Some start), None))
      end
  end.

(** The rows or the columns of one sheet move. *)
Definition move_reference {E} (own : bool) (sheet : text) (rows : bool) (s : Shift) : MapReference E :=
  fun named first second =>
    let here := match named with None => own | Some named => bool_decide (named = sheet) end in
    if here then move_axis rows s (first, second) else Ok (Some (first, second)).

Definition shift_formula {E} `{Unicode} (formula : text) (own : bool) (sheet : text) (rows : bool) (s : Shift) :
    Result E text :=
  map_references formula (move_reference own sheet rows s).

(** [split_whitespace]. *)
Fixpoint split_words (word l : text) : list text :=
  match l with
  | [] => match word with [] => [] | _ => [word] end
  | c :: l =>
      if is_whitespace c then match word with [] => split_words [] l | _ => word :: split_words [] l end
      else split_words (word ++ [c]) l
  end.

Fixpoint try_omap {E A B} (f : A -> Result E (option B)) (l : list A) : Result E (list B) :=
  match l with
  | [] => Ok []
  | a :: l => b ← f a; l ← try_omap f l; Ok match b with Some b => b :: l | None => l end
  end.

Definition shift_range {E} (s : Shift) (rows : bool) (range : text) : Result E (option text) :=
  match parse_range range with
  | None => Ok None
  | Some (top, left_, bottom, right_) =>
      moved ← if rows then span s top bottom else span s left_ right_;
      match moved with
      | None => Ok None
      | Some (a, b) =>
          name ← range_name (if rows then (a, left_, b, right_) else (top, a, bottom, b)); Ok (Some name)
      end
  end.

Definition shift_ranges {E} (ranges : text) (s : Shift) (rows : bool) : Result E text :=
  words ← try_omap (shift_range s rows) (split_words [] ranges);
  Ok match words with [] => [] | word :: words => foldl (fun out word => out ++ [32] ++ word) word words end.

(** ** Shared formulas *)

(** A line moves by a difference of [i64], and [u32::try_from] refuses what falls out. *)
Definition moved_line (fixed : bool) (by_ : Z) (line : option N) : option (option N) :=
  match line with
  | Some line =>
      if fixed then Some (Some line)
      else let to := (Z.of_N line + by_)%Z in
        if ((0 <=? to) && (to <? Z.of_N U32))%Z then Some (Some (Z.to_N to)) else None
  | None => Some None
  end.

Definition moved_reference (rows columns : Z) (r : Reference) : option Reference :=
  row ← moved_line (r_row_fixed r) rows (r_row r);
  column ← moved_line (r_column_fixed r) columns (r_column r);
  Some (MkReference row column (r_row_fixed r) (r_column_fixed r)).

Definition translate_shared {E} `{Unicode} (formula : text) (rows columns : Z) : Result E text :=
  map_references formula (fun _ first second => Ok (
    first ← moved_reference rows columns first;
    match second with
    | Some second => second ← moved_reference rows columns second; Some (first, Some second)
    | None => Some (first, None)
    end)).
