(* ===== verification/SheetModel.v ===== *)
(** [documents/crates/xlsx/src/model.rs]: the live copy of a workbook and its changes.

    A [BTreeMap] is a finite map here; where the code walks one in the order of its keys and
    the order shows, the walk sorts.  A text is the list of its characters, and a float is its
    64 bits. *)

From S2P Require Import Prelude Json Contract Format SheetFormula.
Open Scope N_scope.

(** [==] of [f64]: not for a NaN, and both zeros are equal. *)
Definition f64_nan (bits : N) : bool := (bits / 4503599627370496 mod 2048 =? 2047) && negb (bits mod 4503599627370496 =? 0).
Definition f64_zero (bits : N) : bool := bits mod 9223372036854775808 =? 0.
Definition f64_eq (a b : N) : bool :=
  negb (f64_nan a) && negb (f64_nan b) && ((a =? b) || (f64_zero a && f64_zero b)).

Inductive CellValue : Type :=
| Number (n : N)
| Boolean (b : bool)
| Text (t : text)
| Error (error : text).

Definition value_eq (a b : CellValue) : bool :=
  match a, b with
  | Number a, Number b => f64_eq a b
  | Boolean a, Boolean b => bool_decide (a = b)
  | Text a, Text b | Error a, Error b => bool_decide (a = b)
  | _, _ => false
  end.

Definition option_eq {A} (eq : A -> A -> bool) (a b : option A) : bool :=
  match a, b with Some a, Some b => eq a b | None, None => true | _, _ => false end.

Record Cell : Type := MkCell { c_value : option CellValue; c_formula : option text; c_style : option N }.

Definition empty_cell : Cell := MkCell None None None.
Definition is_empty (c : Cell) : bool :=
  match c with MkCell None None None => true | _ => false end.
Definition cell_eq (a b : Cell) : bool :=
  option_eq value_eq (c_value a) (c_value b) && bool_decide (c_formula a = c_formula b) &&
  bool_decide (c_style a = c_style b).

Inductive Link : Type := Href (to : text) | Location (to : text).

Record Anchor : Type := MkAnchor { an_tag : text; an_attribute : text; an_ranges : text; an_link : option Link }.

Record Sheet : Type := MkSheet {
  sh_id : text; sh_number : N; sh_name : text; sh_part : option text;
  sh_cells : gmap (N * N) Cell; sh_merges : list Bounds; sh_widths : gmap N N; sh_heights : gmap N N;
  sh_row_looks : gmap N text; sh_column_looks : gmap N text; sh_anchors : list Anchor; sh_moved : bool
}.

Definition default_sheet : Sheet := MkSheet [] 0 [] None ∅ [] ∅ ∅ ∅ ∅ [] false.

Definition with_cells (s : Sheet) cells : Sheet :=
  MkSheet (sh_id s) (sh_number s) (sh_name s) (sh_part s) cells (sh_merges s) (sh_widths s) (sh_heights s)
    (sh_row_looks s) (sh_column_looks s) (sh_anchors s) (sh_moved s).
Definition with_name (s : Sheet) name : Sheet :=
  MkSheet (sh_id s) (sh_number s) name (sh_part s) (sh_cells s) (sh_merges s) (sh_widths s) (sh_heights s)
    (sh_row_looks s) (sh_column_looks s) (sh_anchors s) (sh_moved s).
Definition with_merges (s : Sheet) merges : Sheet :=
  MkSheet (sh_id s) (sh_number s) (sh_name s) (sh_part s) (sh_cells s) merges (sh_widths s) (sh_heights s)
    (sh_row_looks s) (sh_column_looks s) (sh_anchors s) (sh_moved s).
Definition with_sizes (s : Sheet) widths heights : Sheet :=
  MkSheet (sh_id s) (sh_number s) (sh_name s) (sh_part s) (sh_cells s) (sh_merges s) widths heights
    (sh_row_looks s) (sh_column_looks s) (sh_anchors s) (sh_moved s).

(** One look that cells can share. *)
Record Look : Type := MkLook {
  lk_bold : bool; lk_italic : bool; lk_underline : bool; lk_strike : bool; lk_color : option text;
  lk_size : option N; lk_font : option text; lk_fill : option text; lk_number_format : option text;
  lk_align : option text; lk_vertical : option text; lk_wrap : bool
}.

Definition look_eq (a b : Look) : bool :=
  bool_decide ((lk_bold a, lk_italic a, lk_underline a, lk_strike a) = (lk_bold b, lk_italic b, lk_underline b, lk_strike b)) &&
  bool_decide (lk_color a = lk_color b) && option_eq f64_eq (lk_size a) (lk_size b) &&
  bool_decide ((lk_font a, lk_fill a, lk_number_format a) = (lk_font b, lk_fill b, lk_number_format b)) &&
  bool_decide ((lk_align a, lk_vertical a, lk_wrap a) = (lk_align b, lk_vertical b, lk_wrap b)).

Record DefinedName : Type := MkDefinedName { dn_name : text; dn_sheet : option nat; dn_text : text }.

Record Model : Type := MkModel {
  m_sheets : list Sheet; m_looks : list Look; m_names : list DefinedName; m_last_number : N
}.

Definition with_sheets (m : Model) sheets : Model := MkModel sheets (m_looks m) (m_names m) (m_last_number m).

(** A change of one cell.  [value], [formula] and [style] are left alone, emptied, or set. *)
Record CellChange : Type := MkCellChange {
  cc_row : N; cc_column : N; cc_value : option (option CellValue); cc_formula : option (option text);
  cc_style : option (option N); cc_look : option Look
}.

(** What an agent means. *)
Inductive Op : Type :=
| SetCell (sheet cell : text) (value : option CellValue) (formula : option text)
| SetRange (sheet start : text) (rows : list (list (option CellValue)))
| ClearRange (sheet range : text)
| FormatRange (sheet range : text) (look : Look)
| InsertRows (sheet : text) (at_ count : N)
| DeleteRows (sheet : text) (at_ count : N)
| InsertColumns (sheet : text) (at_ count : N)
| DeleteColumns (sheet : text) (at_ count : N)
| OpAddSheet (name : text)
| OpRenameSheet (sheet name : text)
| OpRemoveSheet (sheet : text).

Inductive Change : Type :=
| Cells (sheet : text) (cells : list CellChange)
| Rows (sheet : text) (at_ : N) (count : Z)
| Columns (sheet : text) (at_ : N) (count : Z)
| AddSheet (id name : text)
| RenameSheet (sheet name : text)
| RemoveSheet (sheet : text)
| Size (sheet : text) (widths heights : gmap N N)
| Merges (sheet : text) (add remove : list Bounds)
| Ops (ops : list Op)
| Group (changes : list Change).

(** Induction over a change, with the changes of a group. *)
Lemma change_rect (P : Change -> Prop) :
  (forall c, match c with Group _ => True | _ => P c end) ->
  (forall changes, Forall P changes -> P (Group changes)) -> forall c, P c.
Proof.
  intros Hc Hg. fix IH 1. intros c. destruct c as [| | | | | | | | |changes];
    try (match goal with |- P ?c => exact (Hc c) end).
  apply Hg. induction changes; constructor; [apply IH|assumption].
Qed.

(** ** Sheets by id *)

Definition has_id (id : text) (s : Sheet) : bool := bool_decide (sh_id s = id).

(** [Model::sheet]. *)
Definition sheet_of (m : Model) (id : text) : option Sheet := snd <$> list_find (fun s => has_id id s = true) (m_sheets m).

(** [Model::sheet_mut]: the first sheet of the id changes. *)
Fixpoint alter_first (id : text) (f : Sheet -> Sheet) (sheets : list Sheet) : option (list Sheet) :=
  match sheets with
  | [] => None
  | s :: sheets => if has_id id s then Some (f s :: sheets) else sheets ← alter_first id f sheets; Some (s :: sheets)
  end.
Definition sheet_mut (m : Model) (id : text) (f : Sheet -> Sheet) : option Model :=
  sheets ← alter_first id f (m_sheets m); Some (with_sheets m sheets).

(** [Sheet::size]: the rows and columns that hold the cells. *)
Definition size {E} (s : Sheet) : Result E (N * N) :=
  foldl (fun found key =>
    '(rows, columns) ← found;
    row ← add32 key.1 1; column ← add32 key.2 1;
    Ok (N.max rows row, N.max columns column)) (Ok (0, 0)) (fst <$> map_to_list (sh_cells s)).
