(* ===== verification/SheetOps.v ===== *)
(** [documents/crates/xlsx/src/ops.rs]: what an agent means, as changes. *)

From S2P Require Import Prelude Json Utf Contract Format SheetFormula SheetModel.
Open Scope N_scope.

Abbreviation R A := (Result Refused A).

(** [format!]. *)
Definition say (parts : list text) : string := Utf.of_chars (concat parts).
Abbreviation lit s := (Utf.chars s%string).
Definition invalid {A} (parts : list text) : R A := Err (Invalid (say parts)).

Definition no_sheet (id : text) : Refused := Invalid (say [lit "There is no sheet "; id; lit "."]).

(** [sheet_named]: by its name or its id. *)
Definition sheet_named (m : Model) (name : text) : R Sheet :=
  match list_find (fun s => sh_name s = name \/ sh_id s = name) (m_sheets m) with
  | Some (_, s) => Ok s
  | None => Err (no_sheet name)
  end.

Definition count_from (first : N) (n : nat) : list N := (fun i => first + N.of_nat i) <$> seq 0 n.
(** [first..=last]. *)
Definition lines (first last : N) : list N := count_from first (N.to_nat (last + 1 - first)).

Definition cells_in (range : Bounds) : list (N * N) :=
  let '(top, left_, bottom, right_) := range in
  flat_map (fun row => (fun column => (row, column)) <$> lines left_ right_) (lines top bottom).

Definition max_length {A} (rows : list (list A)) : nat := foldl (fun n row => Nat.max n (length row)) O rows.

(** The cells that an op names. *)
Definition cells_of (op : Op) : R (list (text * N * N)) :=
  let range sheet bounds := (fun at_ => (sheet, at_.1, at_.2)) <$> cells_in bounds in
  match op with
  | SetCell sheet cell _ _ => Ok match parse_cell cell with Some (row, column) => [(sheet, row, column)] | None => [] end
  | SetRange sheet start rows =>
      match parse_cell start with
      | None => Ok []
      | Some (top, left_) =>
          let width := match rows with [] => 1%nat | _ => Nat.max (max_length rows) 1 end in
          bottom ← add32 top (default 0 (checked (N.of_nat (Nat.max (length rows) 1 - 1))));
          right_ ← add32 left_ (default 0 (checked (N.of_nat (width - 1))));
          Ok (range sheet (top, left_, bottom, right_))
      end
  | ClearRange sheet name | FormatRange sheet name _ =>
      Ok match parse_range name with Some bounds => range sheet bounds | None => [] end
  | _ => Ok []
  end.

Fixpoint collect_cells (change : Change) : list (text * N * N) :=
  match change with
  | Cells sheet cells => (fun cell => (sheet, cc_row cell, cc_column cell)) <$> cells
  | Group changes => flat_map collect_cells changes
  | _ => []
  end.

Fixpoint check_cells (m : Model) (author : string) (changed : list (text * N * N)) (cells : list (text * N * N)) : R unit :=
  match cells with
  | [] => Ok tt
  | (sheet, row, column) :: cells =>
      s ← sheet_named m sheet;
      if decide ((sh_id s, row, column) ∈ changed) then
        name ← cell_name row column;
        Err (Behind (author +:+ say [lit " changed "; sheet; [BANG]; name; lit " after you read it. Read again."]))
      else check_cells m author changed cells
  end.

Fixpoint check_ops (m : Model) (author : string) (changed : list (text * N * N)) (ops : list Op) : R unit :=
  match ops with
  | [] => Ok tt
  | op :: ops => cells ← cells_of op; _ ← check_cells m author changed cells; check_ops m author changed ops
  end.

Fixpoint check_conflicts (ops : list Op) (m : Model) (since : list (Ordered Change)) : R unit :=
  match since with
  | [] => Ok tt
  | o :: since => _ ← check_ops m (o_author o) (collect_cells (o_change o)) ops; check_conflicts ops m since
  end.

(** [i32::try_from]. *)
Definition signed (count : N) : R Z := if count <? 2147483648 then Ok (Z.of_N count)
  else invalid [lit "There are too many rows or columns."].

(** [next_sheet_id]: one more than the highest id that is a number. *)
Definition next_sheet_id (m : Model) (taken : N) : R text :=
  let highest := foldl N.max 0 (omap (fun s => parse_u32 (sh_id s)) (m_sheets m)) in
  n ← add32 highest taken; n ← add32 n 1; Ok (decimal n).

(** [(first..).zip(l)]: the range counts on once more than the list has items. *)
Definition zip_from {A} (first : N) (l : list A) : R (list (N * A)) :=
  _ ← (add32 first (N.of_nat (length l) + 1) : R N);
  Ok (zip (count_from first (length l)) l).

Definition trim_start_equals (l : text) : text := (take_while (fun c => c =? 61) l).2.

Definition or_bad {A} (name : text) (o : option A) : R A :=
  match o with Some a => Ok a | None => invalid [name; lit " is not a cell or a range"] end.

Fixpoint set_rows (left_ : N) (rows : list (N * list (option CellValue))) : R (list CellChange) :=
  match rows with
  | [] => Ok []
  | (row, values) :: rows =>
      cells ← zip_from left_ values;
      more ← set_rows left_ rows;
      Ok (((fun cell => MkCellChange row cell.1 (Some cell.2) (Some None) None None) <$> cells) ++ more)
  end.

(** One arm of [to_changes]; [added] counts the sheets so far. *)
Definition to_change (m : Model) (added : N) (op : Op) : R Change :=
  match op with
  | SetCell sheet cell value formula =>
      '(row, column) ← or_bad cell (parse_cell cell);
      s ← sheet_named m sheet;
      Ok (Cells (sh_id s) [MkCellChange row column (Some value) (Some (trim_start_equals <$> formula)) None None])
  | SetRange sheet start rows =>
      '(top, left_) ← or_bad start (parse_cell start);
      rows ← zip_from top rows;
      cells ← set_rows left_ rows;
      s ← sheet_named m sheet;
      Ok (Cells (sh_id s) cells)
  | ClearRange sheet range =>
      bounds ← or_bad range (parse_range range);
      s ← sheet_named m sheet;
      Ok (Cells (sh_id s) ((fun at_ => MkCellChange at_.1 at_.2 (Some None) (Some None) None None) <$> cells_in bounds))
  | FormatRange sheet range look =>
      bounds ← or_bad range (parse_range range);
      s ← sheet_named m sheet;
      Ok (Cells (sh_id s) ((fun at_ => MkCellChange at_.1 at_.2 None None None (Some look)) <$> cells_in bounds))
  | InsertRows sheet at_ count => s ← sheet_named m sheet; count ← signed count; Ok (Rows (sh_id s) at_ count)
  | DeleteRows sheet at_ count => s ← sheet_named m sheet; count ← signed count; Ok (Rows (sh_id s) at_ (- count))
  | InsertColumns sheet at_ count => s ← sheet_named m sheet; count ← signed count; Ok (Columns (sh_id s) at_ count)
  | DeleteColumns sheet at_ count => s ← sheet_named m sheet; count ← signed count; Ok (Columns (sh_id s) at_ (- count))
  | OpAddSheet name => id ← next_sheet_id m added; Ok (AddSheet id name)
  | OpRenameSheet sheet name => s ← sheet_named m sheet; Ok (RenameSheet (sh_id s) name)
  | OpRemoveSheet sheet => s ← sheet_named m sheet; Ok (RemoveSheet (sh_id s))
  end.

Fixpoint to_changes (m : Model) (added : N) (ops : list Op) : R (list Change) :=
  match ops with
  | [] => Ok []
  | op :: ops =>
      change ← to_change m added op;
      changes ← to_changes m (match op with OpAddSheet _ => added + 1 | _ => added end) ops;
      Ok (change :: changes)
  end.
