(* ===== verification/SheetApply.v ===== *)
(** [documents/crates/xlsx/src/apply.rs]: a change goes in a workbook, and what turns one
    workbook into another.

    [apply] works on a copy and puts it in place at its end, so a change that is refused or
    that panics leaves the model as it was: the result is the new model and the change as
    views see it. *)

From stdpp Require Import sorting.
From S2P Require Import Prelude Json Utf Contract Format SheetFormula SheetModel SheetOps.
Open Scope N_scope.

Definition MOST_LINES : N := 1048576.

Fixpoint moves_lines (change : Change) (sheet : text) : bool :=
  match change with
  | Rows moved _ _ | Columns moved _ _ => bool_decide (moved = sheet)
  | Group changes => existsb (fun change => moves_lines change sheet) changes
  | _ => false
  end.

Definition moved_lines (since : list (Ordered Change)) (sheet : text) : bool :=
  existsb (fun o => moves_lines (o_change o) sheet) since.

Fixpoint is_behind (change : Change) (since : list (Ordered Change)) : bool :=
  match change with
  | Cells sheet _ | Rows sheet _ _ | Columns sheet _ _ | Merges sheet _ _ | Size sheet _ _ => moved_lines since sheet
  | Group changes => existsb (fun change => is_behind change since) changes
  | _ => false
  end.

(** ** Cells *)

(** The index of a look, which is new when no cell has it yet. *)
Definition look_index (looks : list Look) (look : Look) : list Look * N :=
  match list_find (fun known => look_eq known look = true) looks with
  | Some (index, _) => (looks, default 0 (checked (N.of_nat index)))
  | None => (looks ++ [look], default 0 (checked (N.of_nat (length looks))))
  end.

Definition set_style (c : CellChange) (style : N) : CellChange :=
  MkCellChange (cc_row c) (cc_column c) (cc_value c) (cc_formula c) (Some (Some style)) (cc_look c).

Fixpoint set_styles (looks : list Look) (cells : list CellChange) : list Look * list CellChange :=
  match cells with
  | [] => (looks, [])
  | c :: cells =>
      let '(looks, c) := match cc_look c with
        | Some look => let '(looks, index) := look_index looks look in (looks, set_style c index)
        | None => (looks, c)
        end in
      let '(looks, cells) := set_styles looks cells in (looks, c :: cells)
  end.

Definition changed_cell (cell : Cell) (change : CellChange) : Cell :=
  MkCell (default (c_value cell) (cc_value change)) (default (c_formula cell) (cc_formula change))
    (default (c_style cell) (cc_style change)).

Definition set_cell (cells : gmap (N * N) Cell) (change : CellChange) : gmap (N * N) Cell :=
  let key := (cc_row change, cc_column change) in
  let cell := changed_cell (default empty_cell (cells !! key)) change in
  if is_empty cell then delete key cells else <[key := cell]> cells.

(** ** Lines that move *)

(** Every entry of a map, with its new key; an entry without one goes. *)
Definition try_entries {K V W} `{Countable K} (f : K * V -> R (option (K * W))) (m : gmap K V) : R (gmap K W) :=
  l ← try_omap f (map_to_list m); Ok (list_to_map l).

Definition moved_keys {V} (s : Shift) (m : gmap N V) : R (gmap N V) :=
  try_entries (fun e => line ← shift_line s e.1; Ok (line ← line; Some (line, e.2))) m.

Definition move_key (rows : bool) (s : Shift) (key : N * N) : R (option (N * N)) :=
  if rows then row ← shift_line s key.1; Ok (row ← row; Some (row, key.2))
  else column ← shift_line s key.2; Ok (column ← column; Some (key.1, column)).

Definition move_merge (rows : bool) (s : Shift) (merge : Bounds) : R (option Bounds) :=
  let '(top, left_, bottom, right_) := merge in
  first ← shift_line s (if rows then top else left_);
  match first with
  | None => Ok None
  | Some first =>
      last ← shift_line s (if rows then bottom else right_);
      Ok (last ← last; Some (if rows then (first, left_, last, right_) else (top, first, bottom, last)))
  end.

Section apply.
Context `{Unicode}.

Definition shift_cell (own : bool) (name : text) (rows : bool) (s : Shift) (cell : Cell) : R Cell :=
match c_formula cell with
| Some formula => formula ← shift_formula formula own name rows s; Ok (MkCell (c_value cell) (Some formula) (c_style cell))
| None => Ok cell
end.

Definition shift_sheet (id name : text) (rows : bool) (s : Shift) (sheet : Sheet) : R Sheet :=
cells ← try_entries (fun e => cell ← shift_cell (has_id id sheet) name rows s e.2; Ok (Some (e.1, cell))) (sh_cells sheet);
Ok (with_cells sheet cells).

Definition shift_name (name : text) (rows : bool) (s : Shift) (defined : DefinedName) : R DefinedName :=
text ← shift_formula (dn_text defined) false name rows s; Ok (MkDefinedName (dn_name defined) (dn_sheet defined) text).

Definition shift_anchor (rows : bool) (s : Shift) (a : Anchor) : R Anchor :=
ranges ← shift_ranges (an_ranges a) s rows; Ok (MkAnchor (an_tag a) (an_attribute a) ranges (an_link a)).

(** The lines of the sheet itself. *)
Definition move_sheet (rows : bool) (s : Shift) (sheet : Sheet) : R Sheet :=
cells ← try_entries (fun e => key ← move_key rows s e.1; Ok (key ← key; Some (key, e.2))) (sh_cells sheet);
merges ← try_omap (move_merge rows s) (sh_merges sheet);
widths ← if rows then Ok (sh_widths sheet) else moved_keys s (sh_widths sheet);
heights ← if rows then moved_keys s (sh_heights sheet) else Ok (sh_heights sheet);
row_looks ← if rows then moved_keys s (sh_row_looks sheet) else Ok (sh_row_looks sheet);
column_looks ← if rows then Ok (sh_column_looks sheet) else moved_keys s (sh_column_looks sheet);
anchors ← try_omap (fun a => a ← shift_anchor rows s a; Ok (Some a)) (sh_anchors sheet);
Ok (MkSheet (sh_id sheet) (sh_number sheet) (sh_name sheet) (sh_part sheet) cells merges widths heights
row_looks column_looks anchors true).

Fixpoint move_first (id : text) (rows : bool) (s : Shift) (sheets : list Sheet) : R (list Sheet) :=
match sheets with
| [] => Err (no_sheet id)
| sheet :: sheets =>
if has_id id sheet then sheet ← move_sheet rows s sheet; Ok (sheet :: sheets)
else sheets ← move_first id rows s sheets; Ok (sheet :: sheets)
end.

Definition bad_lines : Refused := Invalid (say [lit "Those rows or columns are not there."]).

(** [count.abs()] of the least [i32] panics. *)
Definition move_lines (m : Model) (id : text) (at_ : N) (count : Z) (rows : bool) : R Model :=
if decide (count = 0%Z) then Err bad_lines
else if decide (count = -2147483648)%Z then Panic
else if MOST_LINES <? at_ + Z.to_N (Z.abs count) then Err bad_lines
else
let s := MkShift at_ count in
match sheet_of m id with
| None => Err (no_sheet id)
| Some known =>
let name := sh_name known in
names ← try_omap (fun d => d ← shift_name name rows s d; Ok (Some d)) (m_names m);
sheets ← try_omap (fun sheet => sheet ← shift_sheet id name rows s sheet; Ok (Some sheet)) (m_sheets m);
sheets ← move_first id rows s sheets;
Ok (MkModel sheets (m_looks m) names (m_last_number m))
end.

(** ** One change *)

Definition on_sheet (m : Model) (id : text) (f : Sheet -> Sheet) : R Model :=
match sheet_mut m id f with Some m => Ok m | None => Err (no_sheet id) end.

Definition change_merges (add remove : list Bounds) (merges : list Bounds) : list Bounds :=
foldl (fun merges merge => if decide (merge ∈ merges) then merges else merges ++ [merge])
(filter (fun merge => merge ∉ remove) merges) add.

Fixpoint apply_one (m : Model) (change : Change) {struct change} : R (Model * Change) :=
match change with
| Cells sheet cells =>
let '(looks, cells) := set_styles (m_looks m) cells in
let m := MkModel (m_sheets m) looks (m_names m) (m_last_number m) in
m ← on_sheet m sheet (fun s => with_cells s (foldl set_cell (sh_cells s) cells));
Ok (m, Cells sheet cells)
| Rows sheet at_ count => m ← move_lines m sheet at_ count true; Ok (m, change)
| Columns sheet at_ count => m ← move_lines m sheet at_ count false; Ok (m, change)
| AddSheet id name =>
if existsb (fun s => has_id id s || bool_decide (sh_name s = name)) (m_sheets m)
then invalid [lit "The sheet "; name; lit " is there already."]
else
number ← add32 (m_last_number m) 1;
Ok (MkModel (m_sheets m ++ [MkSheet id number name None ∅ [] ∅ ∅ ∅ ∅ [] false]) (m_looks m) (m_names m) number, change)
| RenameSheet sheet name => m ← on_sheet m sheet (fun s => with_name s name); Ok (m, change)
| RemoveSheet sheet =>
if (length (m_sheets m) =? 1)%nat then invalid [lit "A workbook keeps its last sheet."]
else Ok (with_sheets m (filter (fun s => has_id sheet s = false) (m_sheets m)), change)
| Size sheet widths heights =>
m ← on_sheet m sheet (fun s => with_sizes s (widths ∪ sh_widths s) (heights ∪ sh_heights s)); Ok (m, change)
| Merges sheet add remove =>
m ← on_sheet m sheet (fun s => with_merges s (change_merges add remove (sh_merges s))); Ok (m, change)
| Group changes =>
'(m, changes) ← (fix apply_all (m : Model) (changes : list Change) {struct changes} : R (Model * list Change) :=
match changes with
| [] => Ok (m, [])
| change :: changes =>
'(m, change) ← apply_one m change; '(m, changes) ← apply_all m changes; Ok (m, change :: changes)
end) m changes;
Ok (m, Group changes)
| Ops _ => invalid [lit "Ops cannot hold ops."]
end.

Definition apply (m : Model) (change : Change) (since : list (Ordered Change)) : R (Model * Change) :=
if is_behind change since
then Err (Behind (say [lit "Rows or columns moved. Move the change and send it again."]))
else
change ← match change with
| Ops ops => _ ← check_conflicts ops m since; changes ← to_changes m 0 ops; Ok (Group changes)
| _ => Ok change
end;
apply_one m change.
End apply.

(** ** What turns one workbook into another *)

Definition key_le (a b : N * N) : Prop := a.1 < b.1 \/ (a.1 = b.1 /\ a.2 <= b.2).
#[export] Instance key_le_decision a b : Decision (key_le a b).
Proof. unfold key_le. apply _. Defined.

(** The keys of both, in their order. *)
Definition both_keys (old new : gmap (N * N) Cell) : list (N * N) := merge_sort key_le (elements (dom old ∪ dom new)).

Definition cell_change (old new : gmap (N * N) Cell) (key : N * N) : option CellChange :=
  if option_eq cell_eq (old !! key) (new !! key) then None
  else
    let after := default empty_cell (new !! key) in
    Some (MkCellChange key.1 key.2 (Some (c_value after)) (Some (c_formula after)) (Some (c_style after)) None).

Definition cells_change (old new : Sheet) : list Change :=
  match omap (cell_change (sh_cells old) (sh_cells new)) (both_keys (sh_cells old) (sh_cells new)) with
  | [] => []
  | cells => [Cells (sh_id new) cells]
  end.

Definition sizes_change (old new : gmap N N) : gmap N N :=
  filter (fun e => option_eq f64_eq (old !! e.1) (Some e.2) = false) new.

Definition layout_changes (old new : Sheet) : list Change :=
  let widths := sizes_change (sh_widths old) (sh_widths new) in
  let heights := sizes_change (sh_heights old) (sh_heights new) in
  let others (from to : list Bounds) := filter (fun merge => merge ∉ to) from in
  let add := others (sh_merges new) (sh_merges old) in
  let remove := others (sh_merges old) (sh_merges new) in
  (if decide (widths = ∅ /\ heights = ∅) then [] else [Size (sh_id new) widths heights]) ++
  (if decide (add = [] /\ remove = []) then [] else [Merges (sh_id new) add remove]).

Definition sheet_changes (from : Model) (new : Sheet) : list Change :=
  match sheet_of from (sh_id new) with
  | None => AddSheet (sh_id new) (sh_name new) :: cells_change default_sheet new ++ layout_changes default_sheet new
  | Some old =>
      (if decide (sh_name old = sh_name new) then [] else [RenameSheet (sh_id new) (sh_name new)]) ++
      cells_change old new ++ layout_changes old new
  end.

Definition compare (from to : Model) : list Change :=
  flat_map (sheet_changes from) (m_sheets to) ++
  flat_map (fun s => match sheet_of to (sh_id s) with None => [RemoveSheet (sh_id s)] | Some _ => [] end) (m_sheets from).

(* ------------------------------------------------------------ *)

(** [documents/crates/xlsx/src/place.rs]: where a person is in a workbook.

    A place is JSON that a view made, so any field may be missing or wrong. *)

Open Scope N_scope.

(** A field that is a [u32]. *)
Definition line (place : Value) (key : string) : option N :=
  n ← ValueOps.get key place ≫= ValueOps.as_u64; checked n.

Definition place_sheet (place : Value) : option text := Utf.chars <$> (ValueOps.get "sheet" place ≫= ValueOps.as_str).

(** [place[key] = json!(n)]. *)
Definition set_line (place : Value) (key : string) (n : N) : Value :=
  match place with Object m => Object (Map.insert key (Num (PosInt n)) m) | _ => place end.

Fixpoint shift_keys (place : Value) (s : Shift) (keys : list string) : R Value :=
  match keys with
  | [] => Ok place
  | key :: keys =>
      place ← match line place key with
        | Some n => moved ← shift_line s n; Ok (set_line place key (default (sh_at s) moved))
        | None => Ok place
        end;
      shift_keys place s keys
  end.

Definition shift_place (place : Value) (sheet : text) (s : Shift) (keys : list string) : R Value :=
  if decide (place_sheet place = Some sheet) then shift_keys place s keys else Ok place.

Fixpoint map (place : Value) (change : Change) {struct change} : R Value :=
  match change with
  | Group changes =>
      (fix map_all (place : Value) (changes : list Change) {struct changes} : R Value :=
        match changes with [] => Ok place | change :: changes => place ← map place change; map_all place changes end)
        place changes
  | Rows sheet at_ count => shift_place place sheet (MkShift at_ count) ["row"; "endRow"]%string
  | Columns sheet at_ count => shift_place place sheet (MkShift at_ count) ["column"; "endColumn"]%string
  | _ => Ok place
  end.

Section describe.
Context `{Unicode}.

(** [char::is_alphanumeric]. *)
Definition alphanumeric (c : N) : bool :=
is_alphabetic c || is_digit c || (if c <? 128 then false else wide_alphanumeric c).

(** In quotes when it holds more than letters and digits. *)
Definition sheet_name (name : text) : text :=
if forallb (fun c => alphanumeric c || (c =? 95)) name then name
else [TICK] ++ flat_map (fun c => if c =? TICK then [TICK; TICK] else [c]) name ++ [TICK].

Definition describe (m : Model) (place : Value) : R Value :=
match list_find (fun s => Some (sh_id s) = place_sheet place) (m_sheets m), line place "row", line place "column" with
| Some (_, sheet), Some row, Some column =>
first ← cell_name row column;
last ← cell_name (default row (line place "endRow")) (default column (line place "endColumn"));
let cells := if decide (first = last) then first else first ++ [COLON] ++ last in
let described := Map.insert "range" (Str (say [sheet_name (sh_name sheet); [BANG]; cells])) [] in
Ok (Object (if decide (ValueOps.get "editing" place ≫= ValueOps.as_bool = Some true)
then Map.insert "editing" (Bool true) described else described))
| _, _, _ => Ok Null
end.
End describe.
