(* ===== verification/SheetNames.v ===== *)
(** The walk over a formula takes a character in each round, so its length is fuel enough. *)

From S2P Require Import Prelude Json Contract Format SheetFormula.
Open Scope N_scope.

Lemma take_while_length f l : (length (take_while f l).2 <= length l)%nat.
Proof.
  induction l as [|c l IH]; [done|]. simpl. destruct (f c); [|done]. destruct (take_while f l). simpl in *. lia.
Qed.

Lemma take_while_first f c l : f c = true -> (length (take_while f (c :: l)).2 <= length l)%nat.
Proof. intros Hc. simpl. rewrite Hc. pose proof (take_while_length f l). destruct (take_while f l). done. Qed.

Lemma quoted_length quote l : (length (quoted quote l).2 <= length l)%nat.
Proof.
  assert (H : forall n l, (length l <= n)%nat -> (length (quoted quote l).2 <= length l)%nat); [|by apply (H (length l))].
  clear l. induction n as [|n IH]; intros [|c l] Hl; simpl in *; try lia.
  destruct (c =? quote).
  - destruct l as [|c2 l]; [simpl; lia|]. destruct (c2 =? quote); [|simpl; lia].
    specialize (IH l). destruct (quoted quote l). simpl in *. lia.
  - specialize (IH l). destruct (quoted quote l). simpl in *. lia.
Qed.

Section scan.
Context `{Unicode} {E : Type} (change : MapReference E).

Lemma copy_reference_length sheet prefix l out rest : copy_reference change sheet prefix l = Ok (out, rest) ->
(length rest <= length (take_while is_name_letter l).2)%nat.
Proof.
unfold copy_reference. destruct (take_while is_name_letter l) as [word rest0]. cbn [snd].
destruct (parse_reference word) as [first|]; [|by intros [= _ <-]].
set (ends := match rest0 with [] => _ | _ => _ end).
assert (Hl : (length ends.2 <= length rest0)%nat).
{ subst ends. destruct rest0 as [|c rest0]; [done|]. destruct (c =? COLON); [|done].
pose proof (take_while_length is_name_letter rest0). destruct (take_while is_name_letter rest0) as [next after].
destruct (parse_reference next); simpl in *; lia. }
destruct ends as [second last]. cbn [snd] in Hl. destruct (_ && _); [by intros [= _ <-]|].
intros (r & _ & Er)%bind_ok. destruct r as [[a b]|]; [|by injection Er as _ <-].
by apply bind_ok in Er as (x & _ & (y & _ & [= _ <-])%bind_ok).
Qed.

Lemma map_step_length c l out rest : map_step change c l = Ok (out, rest) -> (length rest <= length l)%nat.
Proof.
unfold map_step. destruct (c =? QUOTE).
{ pose proof (quoted_length QUOTE l). destruct (quoted QUOTE l). intros [= _ <-]. done. }
destruct (c =? TICK).
- pose proof (quoted_length TICK l) as Hl. destruct (quoted TICK l) as [inside rest0]. simpl in Hl.
destruct rest0 as [|b rest0]; [intros [= _ <-]; done|]. destruct (b =? BANG); [|intros [= _ <-]; done].
intros Hc%copy_reference_length. pose proof (take_while_length is_name_letter rest0). simpl in *. lia.
- destruct (is_name_letter c) eqn:Ec; [|by intros [= _ <-]].
pose proof (take_while_first is_name_letter c l Ec) as Hl.
assert (Hsame : forall out rest, copy_reference change None [] (c :: l) = Ok (out, rest) -> (length rest <= length l)%nat).
{ intros o r Hc%copy_reference_length. lia. }
destruct (take_while is_name_letter (c :: l)) as [word rest0]. simpl in Hl.
destruct rest0 as [|b rest0]; [by apply Hsame|]. destruct (b =? BANG).
+ intros Hc%copy_reference_length. pose proof (take_while_length is_name_letter rest0). simpl in *. lia.
+ destruct (b =? OPEN); [by intros [= _ <-]|by apply Hsame].
Qed.

Lemma map_fuel_enough fuel : forall fuel' l, (length l <= fuel)%nat -> (length l <= fuel')%nat ->
map_fuel fuel change l = map_fuel fuel' change l.
Proof.
induction fuel as [|fuel IH]; intros fuel' l Hf Hf'; [by destruct l, fuel'; simpl in *; try lia|].
destruct l as [|c l]; [by destruct fuel'|]. destruct fuel' as [|fuel']; [simpl in *; lia|]. cbn [map_fuel].
destruct (map_step change c l) as [[out rest]| |] eqn:Es; [|done..]. cbn [mbind Result_bind].
apply map_step_length in Es. simpl in *. by rewrite (IH fuel') by lia.
Qed.

(** The loop of the code. *)
Lemma map_references_cons c l : map_references (c :: l) change =
'(out, rest) ← map_step change c l; more ← map_references rest change; Ok (out ++ more).
Proof.
unfold map_references. cbn [length map_fuel].
destruct (map_step change c l) as [[out rest]| |] eqn:Es; [|done..]. cbn [mbind Result_bind].
apply map_step_length in Es. by rewrite (map_fuel_enough (length l) (length rest)) by lia.
Qed.
End scan.

(* ------------------------------------------------------------ *)

(** The names of cells read back, and a range moves as its lines do. *)

Open Scope N_scope.

(** ** Decimal numbers *)

Lemma digit_ok d : d < 10 -> is_digit (48 + d) = true.
Proof. intros Hd. unfold is_digit. apply andb_true_iff. split; apply N.leb_le; lia. Qed.

Lemma upper_ok d : d < 26 -> is_upper (65 + d) = true.
Proof. intros Hd. unfold is_upper. apply andb_true_iff. split; apply N.leb_le; lia. Qed.

Lemma digits_value_snoc l c : digits_value (l ++ [c]) = digits_value l * 10 + (c - 48).
Proof. unfold digits_value. by rewrite foldl_app. Qed.

Lemma digits_spec fuel : forall n, n < 10 ^ N.of_nat fuel ->
  digits_value (digits fuel n) = n /\ forallb is_digit (digits fuel n) = true /\ (fuel <> O -> digits fuel n <> []).
Proof.
  induction fuel as [|fuel IH]; intros n Hn; [change (10 ^ N.of_nat 0) with 1 in Hn; assert (n = 0) as -> by lia; done|].
  cbn [digits]. pose proof (N.mod_lt n 10 ltac:(lia)) as Hm.
  assert (Hd : is_digit (48 + n mod 10) = true) by by apply digit_ok.
  destruct (N.ltb_spec n 10) as [Hs|Hs].
  - cbn. rewrite N.mod_small in * by lia. split; [unfold digits_value; simpl; lia|]. by rewrite Hd.
  - rewrite Nat2N.inj_succ, N.pow_succ_r' in Hn.
    assert (Hq : n / 10 < 10 ^ N.of_nat fuel) by (apply N.Div0.div_lt_upper_bound; lia).
    destruct (IH _ Hq) as (Ev & Ed & _). rewrite digits_value_snoc, Ev, forallb_app, Ed. simpl. rewrite Hd.
    split.
    { pose proof (N.div_mod n 10 ltac:(lia)) as D. clear -D. revert D. generalize (n / 10), (n mod 10). intros q r D. lia. }
    split; [done|]. intros _ Hnil. by apply app_eq_nil in Hnil as [_ ?].
Qed.

Lemma parse_decimal n : n < U32 -> parse_u32 (decimal n) = Some n.
Proof.
  intros Hn. unfold U32 in Hn. destruct (digits_spec 10 n) as (Ev & Ed & Hne); [lia|]. specialize (Hne ltac:(done)).
  unfold parse_u32, decimal in *. destruct (digits 10 n) as [|c l] eqn:E; [done|].
  assert (Hc : (c =? PLUS) = false).
  { simpl in Ed. apply andb_prop in Ed as [Hc _]. unfold is_digit, PLUS in *. apply andb_prop in Hc as [Hc _].
    apply N.leb_le in Hc. apply N.eqb_neq. lia. }
  rewrite Hc. cbn [negb]. rewrite Ed, Ev, (proj2 (N.ltb_lt n U32)) by (unfold U32; lia). done.
Qed.

(** ** Columns *)

(** What letters stand for, from 1. *)
Definition letters_value (l : text) : N := foldl (fun n c => n * 26 + (c - 65 + 1)) 0 l.

Lemma letters_value_snoc l c : letters_value (l ++ [c]) = letters_value l * 26 + (c - 65 + 1).
Proof. unfold letters_value. by rewrite foldl_app. Qed.

Lemma column_letters_step fuel c : column_letters (S fuel) c =
  (65 + c mod 26) :: (if c <? 26 then [] else column_letters fuel (c / 26 - 1)).
Proof. done. Qed.

Lemma column_letters_spec fuel : forall c, c < 26 ^ N.of_nat (S fuel) ->
  letters_value (rev (column_letters (S fuel) c)) = c + 1 /\
  forallb is_upper (column_letters (S fuel) c) = true /\ column_letters (S fuel) c <> [].
Proof.
  induction fuel as [|fuel IH]; intros c Hc; pose proof (N.mod_lt c 26 ltac:(lia)) as Hm;
    assert (Hu : is_upper (65 + c mod 26) = true) by by apply upper_ok.
  - simpl in Hc. cbn [column_letters]. rewrite (proj2 (N.ltb_lt _ _)) by lia. rewrite N.mod_small in * by lia.
    unfold letters_value. simpl. rewrite Hu. split; [lia|done].
  - rewrite column_letters_step. destruct (N.ltb_spec c 26) as [Hs|Hs].
    { rewrite N.mod_small in * by lia. unfold letters_value. simpl. rewrite Hu. split; [lia|done]. }
    rewrite Nat2N.inj_succ, N.pow_succ_r' in Hc.
    assert (Hq : c / 26 - 1 < 26 ^ N.of_nat (S fuel)).
    { assert (c / 26 < 26 ^ N.of_nat (S fuel)) by (apply N.Div0.div_lt_upper_bound; lia). lia. }
    assert (H1 : 1 <= c / 26) by (apply N.div_le_lower_bound; lia).
    destruct (IH _ Hq) as (Ev & Eu & _). revert Ev Eu. generalize (column_letters (S fuel) (c / 26 - 1)). intros l Ev Eu.
    simpl. rewrite letters_value_snoc, Ev, Hu, Eu. split; [|done].
    pose proof (N.div_mod c 26 ltac:(lia)) as D. clear -D H1. revert D H1. generalize (c / 26), (c mod 26). intros q r D H1. lia.
Qed.

(** The steps of [column_number] on letters that are upper case. *)
Definition column_step (column : option N) (letter : N) : option N :=
  column ← column;
  if is_alphabetic letter then
    times ← checked (column * 26); checked (times + (to_upper letter - 65 + 1))
  else None.

Lemma column_fold l : forallb is_upper l = true -> letters_value l < U32 -> foldl column_step (Some 0) l = Some (letters_value l).
Proof.
  induction l as [|c l IH] using rev_ind; [done|]. rewrite forallb_app, letters_value_snoc, foldl_app. simpl.
  intros [Hl [Hc _]%andb_true_iff]%andb_true_iff Hv. rewrite IH by (done || lia). simpl.
  assert (Ha : is_alphabetic c = true) by (unfold is_alphabetic; by rewrite Hc).
  assert (Hu : to_upper c = c).
  { unfold to_upper, is_lower, is_upper in *. apply andb_true_iff in Hc as [_ Hc]. apply N.leb_le in Hc.
    destruct (N.leb_spec 97 c); [lia|done]. }
  rewrite Ha, Hu. unfold checked. rewrite (proj2 (N.ltb_lt _ _)) by lia. simpl. by rewrite (proj2 (N.ltb_lt _ _)) by lia.
Qed.

Lemma column_name_upper c : c < U32 - 1 -> forallb is_upper (column_name c) = true /\ column_name c <> [].
Proof.
  unfold U32. intros Hc. destruct (column_letters_spec 6 c) as (_ & Hu & Hne); [simpl; lia|]. unfold column_name.
  split; [|by intros E%(f_equal (@length N)); rewrite length_rev in E; destruct (column_letters 7 c)].
  rewrite forallb_forall in *. intros x Hx. apply Hu. by apply in_rev.
Qed.

Lemma column_reads c : c < U32 - 1 -> column_number (column_name c) = Some c.
Proof.
  intros Hc. destruct (column_name_upper c Hc) as [Hu _].
  destruct (column_letters_spec 6 c) as (Ev & _ & _); [unfold U32 in Hc; simpl; lia|].
  unfold column_number. change (foldl _ (Some 0) (column_name c)) with (foldl column_step (Some 0) (column_name c)).
  unfold column_name in *. rewrite column_fold; [|done|lia]. rewrite Ev. cbn [mbind option_bind].
  rewrite (proj2 (N.eqb_neq _ _)) by lia. f_equal. lia.
Qed.

(** ** Cells and ranges *)

Lemma upper_not_digit c : is_upper c = true -> is_digit c = false.
Proof.
  unfold is_upper, is_digit. intros [Hc _]%andb_true_iff. apply N.leb_le in Hc.
  destruct (N.leb_spec c 57); [lia|]. by rewrite andb_false_r.
Qed.

Lemma split_digit_app a b : forallb is_upper a = true -> forallb is_digit b = true -> b <> [] -> split_digit (a ++ b) = Some (a, b).
Proof.
  intros Ha Hb Hne. induction a as [|c a IH]; simpl in *.
  - destruct b as [|c b]; [done|]. simpl in *. apply andb_true_iff in Hb as [Hc _]. by rewrite Hc.
  - apply andb_true_iff in Ha as [Hc Ha]. by rewrite upper_not_digit, IH.
Qed.

Definition in_grid (row column : N) : Prop := row < U32 - 1 /\ column < U32 - 1.

Lemma cell_name_ok {E} row column : in_grid row column ->
  cell_name (E:=E) row column = Ok (column_name column ++ decimal (row + 1)).
Proof. intros [Hr _]. unfold cell_name, add32. by rewrite (proj2 (N.ltb_lt _ _)) by lia. Qed.

Lemma cell_reads row column : in_grid row column -> parse_cell (column_name column ++ decimal (row + 1)) = Some (row, column).
Proof.
  intros [Hr Hc]. destruct (column_name_upper column Hc) as [Hu _]. unfold U32 in *.
  destruct (digits_spec 10 (row + 1)) as (_ & Hd & Hne); [simpl; lia|]. unfold parse_cell.
  rewrite split_digit_app by (done || by apply Hne). cbn [mbind option_bind].
  rewrite parse_decimal by (unfold U32; lia). cbn [mbind option_bind]. rewrite (proj2 (N.eqb_neq _ _)) by lia.
  rewrite column_reads by (unfold U32; lia). cbn [mbind option_bind]. by rewrite N.add_sub.
Qed.

Lemma no_colon a b : forallb is_upper a = true -> forallb is_digit b = true -> split_once COLON (a ++ b) = None.
Proof.
  intros Ha Hb. assert (Hn : Forall (fun c => c <> COLON) (a ++ b)).
  { apply Forall_app. split; apply Forall_forall; intros c Hin%list_elem_of_In;
      [rewrite forallb_forall in Ha; apply Ha in Hin|rewrite forallb_forall in Hb; apply Hb in Hin];
      intros ->; discriminate Hin. }
  induction (a ++ b) as [|c l IH]; [done|]. apply Forall_cons in Hn as [Hc Hl]. simpl.
  rewrite (proj2 (N.eqb_neq _ _)) by done. by rewrite IH.
Qed.

Lemma split_colon a b : split_once COLON a = None -> split_once COLON (a ++ COLON :: b) = Some (a, b).
Proof.
  induction a as [|c a IH]; simpl; [done|]. destruct (c =? COLON); [done|].
  destruct (split_once COLON a) as [[]|]; [done|]. intros _. by rewrite IH.
Qed.

Lemma range_reads {E} top left_ bottom right_ : in_grid top left_ -> in_grid bottom right_ ->
  exists name, range_name (E:=E) (top, left_, bottom, right_) = Ok name /\ parse_range name = Some (top, left_, bottom, right_).
Proof.
  intros H1 H2. pose proof (cell_reads _ _ H1) as E1. pose proof (cell_reads _ _ H2) as E2.
  assert (Hn : forall row column, in_grid row column -> split_once COLON (column_name column ++ decimal (row + 1)) = None).
  { intros row column [Hr Hc]. apply no_colon; [by apply column_name_upper|].
    destruct (digits_spec 10 (row + 1)) as (_ & Hd & _); [unfold U32 in *; simpl; lia|]. done. }
  unfold range_name. destruct (decide _) as [[= <- <-]|_].
  - rewrite cell_name_ok by done. eexists. split; [done|]. unfold parse_range. rewrite Hn by done. simpl. by rewrite E1.
  - rewrite !cell_name_ok by done. simpl. eexists. split; [done|]. unfold parse_range. rewrite split_colon by by apply Hn.
    simpl. rewrite E1. simpl. by rewrite E2.
Qed.

(** ** Lines *)

Lemma add32_ok {E} a b : a + b < U32 -> add32 (E:=E) a b = Ok (a + b).
Proof. intros Hl. unfold add32. by rewrite (proj2 (N.ltb_lt _ _)). Qed.

(** What [Shift::line] gives, where nothing is too large. *)
Definition moved (s : Shift) (line : N) : option N :=
  if (0 <=? sh_count s)%Z then Some (if sh_at s <=? line then line + amount s else line)
  else if line <? sh_at s then Some line
  else if line <? sh_at s + amount s then None else Some (line - amount s).

Definition fits (s : Shift) (line : N) : Prop := sh_at s + amount s < U32 /\ ((0 <= sh_count s)%Z -> line + amount s < U32).

Lemma shift_line_ok {E} s line : fits s line -> shift_line (E:=E) s line = Ok (moved s line).
Proof.
  intros [Ha Hl]. unfold shift_line, moved. destruct (Z.leb_spec 0 (sh_count s)) as [Hc|Hc].
  - destruct (sh_at s <=? line); [|done]. by rewrite add32_ok by by apply Hl.
  - destruct (line <? sh_at s); [done|]. by rewrite add32_ok.
Qed.

(** The lines that take the place of a range: those that its lines move to, and those that
    are new inside it. *)
Definition image (s : Shift) (first last y : N) : Prop :=
  (exists x, first <= x <= last /\ moved s x = Some y) \/
  ((0 < sh_count s)%Z /\ first < sh_at s <= last /\ sh_at s <= y < sh_at s + amount s).

Lemma image_deleted s first last y : (sh_count s < 0)%Z ->
  image s first last y <-> (first <= y <= last /\ y < sh_at s) \/ (first <= y + amount s <= last /\ sh_at s <= y).
Proof.
  intros Hc. assert (Hm : forall x, moved s x = Some y <-> (x < sh_at s /\ x = y) \/ (sh_at s <= y /\ x = y + amount s)).
  { intros x. unfold moved. rewrite (proj2 (Z.leb_gt _ _)) by done. destruct (N.ltb_spec x (sh_at s)).
    { split; [intros [= <-]; by left|intros [[_ ->]|[]]; [done|lia]]. }
    destruct (N.ltb_spec x (sh_at s + amount s)); split; try done; [intros [[]|[]]; lia|intros [= <-]; lia|].
    intros [[]|[_ ->]]; [lia|]. f_equal. lia. }
  unfold image. split.
  - intros [(x & Hx & Ex)|[Hp _]]; [|lia]. apply Hm in Ex. lia.
  - intros [[Hy Ha]|[Hy Ha]]; left; [exists y|exists (y + amount s)]; (split; [done|]); apply Hm; lia.
Qed.

Lemma moved_none s x : (sh_count s < 0)%Z -> sh_at s <= x < sh_at s + amount s -> moved s x = None.
Proof.
  intros Hc Hx. unfold moved. rewrite (proj2 (Z.leb_gt _ _)) by done. destruct (N.ltb_spec x (sh_at s)); [lia|].
  by rewrite (proj2 (N.ltb_lt _ _)) by lia.
Qed.

Lemma span_inserted {E} s first last : first <= last -> fits s last -> (0 <= sh_count s)%Z ->
  exists a b, span (E:=E) s first last = Ok (Some (a, b)) /\ forall y, a <= y <= b <-> image s first last y.
Proof.
  intros Hle Hf Hc. assert (Hf1 : fits s first) by (destruct Hf as [Ha Hl]; split; [done|]; intros _; specialize (Hl Hc); lia).
  unfold span. rewrite !shift_line_ok by done. rewrite (proj2 (Z.leb_le _ _)) by done.
  unfold moved at 1 2. rewrite (proj2 (Z.leb_le _ _)) by done. cbn [mbind Result_bind option_bind].
  eexists _, _. split; [done|]. intros y. unfold image, moved. rewrite (proj2 (Z.leb_le _ _)) by done.
  assert (Hn : (0 < sh_count s)%Z \/ amount s = 0) by (unfold amount; lia).
  revert Hle Hn. generalize (amount s), (sh_at s). intros n at_ Hle Hn. split.
  + intros Hy. destruct (N.leb_spec at_ first), (N.leb_spec at_ last); try lia.
    * left. exists (y - n). split; [lia|]. rewrite (proj2 (N.leb_le _ _)) by lia. f_equal. lia.
    * destruct (N.ltb_spec y at_); [left; exists y; split; [lia|]; by rewrite (proj2 (N.leb_gt _ _)) by lia|].
      destruct (N.ltb_spec y (at_ + n)); [right; split; [destruct Hn; [done|lia]|lia]|].
      left. exists (y - n). split; [lia|]. rewrite (proj2 (N.leb_le _ _)) by lia. f_equal. lia.
    * left. exists y. split; [lia|]. by rewrite (proj2 (N.leb_gt _ _)) by lia.
  + intros [(x & Hx & [= <-])|(Hp & Ha & Hy)].
    * destruct (N.leb_spec at_ first), (N.leb_spec at_ last), (N.leb_spec at_ x); lia.
    * destruct (N.leb_spec at_ first), (N.leb_spec at_ last); lia.
Qed.

Lemma span_deleted {E} s first last : first <= last -> fits s last -> (sh_count s < 0)%Z ->
  exists r, span (E:=E) s first last = Ok r /\ match r with
  | None => forall x, first <= x <= last -> moved s x = None
  | Some (a, b) => forall y, a <= y <= b <-> image s first last y
  end.
Proof.
  intros Hle [Ha _] Hc.
  assert (Hi : forall y, image s first last y <->
    (first <= y <= last /\ y < sh_at s) \/ (first <= y + amount s <= last /\ sh_at s <= y)) by (intros y; by apply image_deleted).
  unfold span. rewrite !shift_line_ok by (by split; [|intros; lia]). rewrite (proj2 (Z.leb_gt _ _)) by done.
  rewrite add32_ok by done. unfold moved at 1 2. rewrite (proj2 (Z.leb_gt _ _)) by done. cbn [mbind Result_bind option_bind].
  destruct (N.ltb_spec first (sh_at s)) as [H1|H1]; [|destruct (N.ltb_spec first (sh_at s + amount s)) as [H2|H2]].
  - destruct (N.ltb_spec last (sh_at s)); [|destruct (N.ltb_spec last (sh_at s + amount s))];
      (eexists; split; [done|]; simpl; intros y; rewrite Hi; lia).
  - destruct (N.leb_spec (sh_at s + amount s) last); simpl.
    + destruct (N.ltb_spec last (sh_at s)); [lia|]. destruct (N.ltb_spec last (sh_at s + amount s)); [lia|].
      eexists. split; [done|]. simpl. intros y. rewrite Hi. lia.
    + eexists. split; [done|]. simpl. intros x Hx. apply moved_none; [done|lia].
  - destruct (N.ltb_spec last (sh_at s)); [lia|]. destruct (N.ltb_spec last (sh_at s + amount s)); [lia|].
    eexists. split; [done|]. simpl. intros y. rewrite Hi. lia.
Qed.
