(* ===== verification/SheetLines.v ===== *)
(** Lines that move in a workbook: a deletion always goes in, and it takes an insertion back. *)

From S2P Require Import Prelude Json Utf Contract Format SheetFormula SheetModel SheetOps.
From S2P Require Import SheetApply SheetNames.
Open Scope N_scope.

(** ** Lists and maps with new keys *)

Lemma try_omap_total {E A B} (f : A -> Result E (option B)) l :
  (forall a, a ∈ l -> exists b, f a = Ok b) -> exists l', try_omap f l = Ok l'.
Proof.
  induction l as [|a l IH]; intros Hf; [by eexists|]. simpl. destruct (Hf a) as [b ->]; [left|].
  destruct IH as [l' ->]; [intros; apply Hf; by right|]. simpl. by eexists.
Qed.

Lemma elem_of_try_omap {E A B} (f : A -> Result E (option B)) l l' b :
  try_omap f l = Ok l' -> b ∈ l' <-> exists a, a ∈ l /\ f a = Ok (Some b).
Proof.
  revert l'. induction l as [|a l IH]; intros l'; simpl.
  { intros [= <-]. split; [by intros ?%elem_of_nil|by intros (a & ?%elem_of_nil & _)]. }
  intros (o & Ea & (l1 & El & [= <-])%bind_ok)%bind_ok. split.
  - intros Hb. assert (o = Some b \/ b ∈ l1) as [->|Hl] by (destruct o; [apply elem_of_cons in Hb as [->|]|]; auto).
    + exists a. split; [left|done].
    + apply (IH _ El) in Hl as (a' & Ha & E'). exists a'. split; [by right|done].
  - intros (a' & Ha & E'). apply elem_of_cons in Ha as [->|Ha].
    + rewrite Ea in E'. injection E' as ->. left.
    + assert (b ∈ l1) by (apply (IH _ El); eauto). destruct o; [by right|done].
Qed.

(** A list of items that each give one. *)
Lemma try_omap_each {E A B C} (f : A -> Result E B) (g : A -> C) (h : B -> C) l l' :
  (forall a b, f a = Ok b -> h b = g a) ->
  try_omap (fun a => b ← f a; Ok (Some b)) l = Ok l' -> h <$> l' = g <$> l.
Proof.
  intros Hf. revert l'. induction l as [|a l IH]; intros l'; simpl; [by intros [= <-]|].
  intros (o & (b & Ea & [= <-])%bind_ok & (l1 & El & [= <-])%bind_ok)%bind_ok. rewrite !fmap_cons. by rewrite (Hf _ _ Ea), (IH _ El).
Qed.

Section entries.
Context {K V W : Type} `{Countable K} (f : K * V -> R (option (K * W))).

(** No two entries get one key. *)
Definition apart : Prop := forall e1 e2 k w1 w2,
f e1 = Ok (Some (k, w1)) -> f e2 = Ok (Some (k, w2)) -> e1.1 = e2.1.

Lemma try_omap_nodup l l' : apart -> NoDup l.*1 -> try_omap f l = Ok l' -> NoDup l'.*1.
Proof.
intros Hf. revert l'. induction l as [|e l IH]; intros l'; simpl; [by intros _ [= <-]; constructor|].
intros [Hn Hl]%NoDup_cons (o & Ee & (l1 & El & [= <-])%bind_ok)%bind_ok. destruct o as [[k w]|]; [|by apply IH].
simpl. constructor; [|by apply IH]. intros ([k' w'] & -> & Hin)%list_elem_of_fmap.
apply (elem_of_try_omap _ _ _ _ El) in Hin as (e' & He' & E'). apply Hn. apply list_elem_of_fmap. exists e'.
split; [|done]. simpl in *. by apply (Hf _ _ _ _ _ Ee E').
Qed.

Lemma try_entries_lookup m m' k w : apart -> try_entries f m = Ok m' ->
m' !! k = Some w <-> exists k0 v, m !! k0 = Some v /\ f (k0, v) = Ok (Some (k, w)).
Proof.
intros Hf (l & El & [= <-])%bind_ok. rewrite <- elem_of_list_to_map.
2: { apply (try_omap_nodup _ _ Hf) in El; [done|]. apply NoDup_fst_map_to_list. }
rewrite (elem_of_try_omap _ _ _ _ El). split.
- intros ([k0 v] & Hm%elem_of_map_to_list & E0). eauto.
- intros (k0 & v & Hm & E0). exists (k0, v). by rewrite elem_of_map_to_list.
Qed.

Lemma try_entries_total (m : gmap K V) : (forall k v, m !! k = Some v -> exists o, f (k, v) = Ok o) -> exists m', try_entries f m = Ok m'.
Proof.
intros Hf. unfold try_entries. destruct (try_omap_total f (map_to_list m)) as [l ->]; [|by eexists].
intros [k v] Hm%elem_of_map_to_list. by apply Hf.
Qed.
End entries.

Lemma try_omap_ok {E A B} (f : A -> Result E (option B)) l l' a : try_omap f l = Ok l' -> a ∈ l -> exists o, f a = Ok o.
Proof.
  revert l'. induction l as [|b l IH]; intros l'; simpl; [by intros _ ?%elem_of_nil|].
  intros (o & Ea & (l1 & El & _)%bind_ok)%bind_ok [->|Ha]%elem_of_cons; eauto.
Qed.

(** Entries that move to new keys. *)
Lemma try_entries_moved {K V} `{Countable K} (f : K * V -> R (option (K * V))) (g : K -> option K) (m m' : gmap K V) k v :
  (forall k v o, f (k, v) = Ok o -> o = (to ← g k; Some (to, v))) ->
  (forall a b k, g a = Some k -> g b = Some k -> a = b) ->
  try_entries f m = Ok m' -> m' !! k = Some v <-> exists k0, m !! k0 = Some v /\ g k0 = Some k.
Proof.
  intros Hf Hg Em. assert (Hk : forall k0 v0 w, f (k0, v0) = Ok (Some w) -> g k0 = Some w.1 /\ w.2 = v0).
  { intros k0 v0 [k1 v1] E0%Hf. destruct (g k0); by simplify_eq/=. }
  rewrite (try_entries_lookup f m m' k v); [|intros [a ?] [b ?] k1 w1 w2 [E1 _]%Hk [E2 _]%Hk; by eapply Hg|done]. split.
  - intros (k0 & v0 & Hv & [E0 [= <-]]%Hk). eauto.
  - intros (k0 & Hv & E0). exists k0, v. split; [done|]. unfold try_entries in Em. apply bind_ok in Em as (l & El & _).
    destruct (try_omap_ok _ _ _ (k0, v) El) as [o Eo]; [by apply elem_of_map_to_list|].
    rewrite Eo. apply Hf in Eo. by rewrite Eo, E0.
Qed.

(** ** Lines there and back *)

Lemma shift_line_moved {E} s line o : shift_line (E:=E) s line = Ok o -> o = moved s line.
Proof.
  unfold shift_line, moved. destruct (0 <=? sh_count s)%Z; [destruct (sh_at s <=? line)|destruct (line <? sh_at s)];
    unfold add32; try (destruct (_ <? U32)); simpl; intros [=]; done.
Qed.

Lemma moved_inj s x x' y : moved s x = Some y -> moved s x' = Some y -> x = x'.
Proof.
  unfold moved. destruct (0 <=? sh_count s)%Z.
  - intros [= <-]. destruct (N.leb_spec (sh_at s) x), (N.leb_spec (sh_at s) x'); intros [= Hx]; lia.
  - repeat match goal with |- context [?a <? ?b] => destruct (N.ltb_spec a b) end; intros; simplify_eq; lia.
Qed.

Definition inserts (at_ : N) (n : Z) : Shift := MkShift at_ n.
Definition deletes (at_ : N) (n : Z) : Shift := MkShift at_ (- n).

Lemma moved_back at_ n x y : (0 < n)%Z -> moved (inserts at_ n) x = Some y -> moved (deletes at_ n) y = Some x.
Proof.
  intros Hn. unfold moved, inserts, deletes, amount. simpl.
  rewrite (proj2 (Z.leb_le _ _)), (proj2 (Z.leb_gt _ _)), Z.abs_opp by lia. intros [= <-].
  destruct (N.leb_spec at_ x).
  - rewrite (proj2 (N.ltb_ge (x + Z.to_N (Z.abs n)) at_)), (proj2 (N.ltb_ge _ _)) by lia. f_equal. lia.
  - by rewrite (proj2 (N.ltb_lt _ _)).
Qed.

Definition moved_key (rows : bool) (s : Shift) (key : N * N) : option (N * N) :=
  if rows then row ← moved s key.1; Some (row, key.2) else column ← moved s key.2; Some (key.1, column).

Lemma move_key_moved rows s key o : move_key rows s key = Ok o -> o = moved_key rows s key.
Proof.
  unfold move_key, moved_key. destruct rows; by intros (line & ->%shift_line_moved & [= <-])%bind_ok.
Qed.

Lemma moved_key_inj rows s a b k : moved_key rows s a = Some k -> moved_key rows s b = Some k -> a = b.
Proof.
  destruct a as [r c], b as [r' c']. unfold moved_key. destruct rows; simpl;
    intros (x & Ex & [= <-])%bind_Some (y & Ey & [= -> ->])%bind_Some; f_equal; by eapply moved_inj.
Qed.

Lemma moved_key_back rows at_ n a b : (0 < n)%Z ->
  moved_key rows (inserts at_ n) a = Some b -> moved_key rows (deletes at_ n) b = Some a.
Proof.
  intros Hn. destruct a as [r c]. unfold moved_key. destruct rows; cbn [fst snd];
    intros (x & Ex & [= <-])%bind_Some; cbn [fst snd]; by rewrite (moved_back _ _ _ _ Hn Ex).
Qed.

(* ------------------------------------------------------------ *)

(** A deletion of lines never fails: neither a formula nor a range stops it. *)

Open Scope N_scope.

(** A line that has a number from 1. *)
Definition numbered (line : N) : Prop := line < U32 - 1.

(** The lines that a deletion takes have numbers. *)
Definition deletion (s : Shift) : Prop := (sh_count s < 0)%Z /\ sh_at s + amount s < U32.

Section lines.
Context {E : Type} (s : Shift) (Hs : deletion s).

Lemma shift_line_deletion line : shift_line (E:=E) s line = Ok (moved s line).
Proof. destruct Hs. apply shift_line_ok. split; [done|lia]. Qed.

Lemma moved_deletion line y : moved s line = Some y -> y <= line.
Proof.
destruct Hs as [Hc _]. unfold moved. rewrite (proj2 (Z.leb_gt _ _)) by done.
repeat case_match; intros [=]; lia.
Qed.

Lemma moved_deleted line : moved s line = None -> sh_at s <= line.
Proof.
destruct Hs as [Hc _]. unfold moved. rewrite (proj2 (Z.leb_gt _ _)) by done.
destruct (N.ltb_spec line (sh_at s)); [done|lia].
Qed.

Lemma span_deletion first last : exists r, span (E:=E) s first last = Ok r /\
forall a b, r = Some (a, b) -> numbered first -> numbered last -> numbered a /\ numbered b.
Proof.
destruct Hs as [Hc Ha]. unfold span. rewrite (proj2 (Z.leb_gt _ _)) by done. rewrite !shift_line_deletion.
pose proof (moved_deletion first) as Hf. pose proof (moved_deletion last) as Hl. pose proof (moved_deleted last) as Hd.
unfold numbered. cbn [mbind Result_bind].
destruct (moved s first) as [a|].
- cbn [mbind Result_bind]. specialize (Hf _ eq_refl). destruct (moved s last) as [b|].
+ specialize (Hl _ eq_refl). eexists. split; [done|]. intros ? ? [= <- <-]. lia.
+ specialize (Hd eq_refl). destruct (N.ltb_spec first (sh_at s)); (eexists; split; [done|]); [|done].
intros ? ? [= <- <-]. lia.
- rewrite add32_ok by done. cbn [mbind Result_bind]. destruct (N.leb_spec (sh_at s + amount s) last); [|by eexists].
destruct (moved s last) as [b|].
+ specialize (Hl _ eq_refl). eexists. split; [done|]. intros ? ? [= <- <-]. lia.
+ specialize (Hd eq_refl). destruct (N.ltb_spec first (sh_at s)); (eexists; split; [done|]); [|done].
intros ? ? [= <- <-]. lia.
Qed.
End lines.

(** ** What was read has numbers *)

Lemma parse_u32_bound l n : parse_u32 l = Some n -> n < U32.
Proof.
  unfold parse_u32. destruct (match l with [] => l | _ => _ end) as [|c l']; [done|].
  destruct (forallb _ _); [|done]. cbn [andb]. destruct (N.ltb_spec (digits_value (c :: l')) U32); by intros [= <-].
Qed.

Lemma parse_cell_bound name row column : parse_cell name = Some (row, column) -> numbered row.
Proof.
  unfold parse_cell. intros ([letters ds] & _ & E)%bind_Some. apply bind_Some in E as (n & En%parse_u32_bound & E).
  destruct (N.eqb_spec n 0); [done|]. apply bind_Some in E as (c & _ & [= <- <-]). unfold numbered, U32 in *. lia.
Qed.

Lemma cell_name_total {E} row column : numbered row -> exists name, cell_name (E:=E) row column = Ok name.
Proof. unfold numbered, cell_name. intros Hr. rewrite add32_ok by lia. by eexists. Qed.

Lemma range_name_total {E} top left_ bottom right_ : numbered top -> numbered bottom ->
  exists name, range_name (E:=E) (top, left_, bottom, right_) = Ok name.
Proof.
  intros Ht Hb. unfold range_name. destruct (decide _); [by apply cell_name_total|].
  destruct (cell_name_total (E:=E) top left_ Ht) as [a ->]. destruct (cell_name_total (E:=E) bottom right_ Hb) as [b ->]. by eexists.
Qed.

Definition numbered_ref (r : Reference) : Prop := forall row, r_row r = Some row -> numbered row.
Definition numbered_ends (ends : Reference * option Reference) : Prop :=
  numbered_ref ends.1 /\ forall r, ends.2 = Some r -> numbered_ref r.

Lemma parse_reference_bound word r : parse_reference word = Some r -> numbered_ref r.
Proof.
  unfold parse_reference. destruct (fixed word) as [cf rest]. destruct (take_while _ rest) as [letters rest'].
  intros (column & _ & E)%bind_Some. destruct (fixed rest') as [rf rest'']. apply bind_Some in E as (row & Er & E).
  assert (r_row r = row) as Hr by (destruct column, row; by inversion E). intros y Ey. rewrite Hr in Ey. rewrite Ey in Er.
  destruct rest'' as [|c rest'']; [done|]. destruct (forallb _ _); [|done].
  apply bind_Some in Er as (n & En%parse_u32_bound & Er). destruct (N.eqb_spec n 0); [done|].
  injection Er as <-. unfold numbered, U32 in *. lia.
Qed.

Lemma write_reference_total {E} r : numbered_ref r -> exists out, write_reference (E:=E) r = Ok out.
Proof.
  intros Hr. unfold write_reference. destruct (r_row r) as [row|] eqn:Er; [|by eexists].
  specialize (Hr _ Er). unfold numbered in Hr. rewrite add32_ok by lia. by eexists.
Qed.

(** ** Formulas *)

Section total.
Context `{Unicode} {E : Type} (change : MapReference E).
Context (Hchange : forall sheet first second, numbered_ends (first, second) ->
exists r, change sheet first second = Ok r /\ forall ends, r = Some ends -> numbered_ends ends).

Lemma copy_reference_total sheet prefix l : exists out, copy_reference change sheet prefix l = Ok out.
Proof.
unfold copy_reference. destruct (take_while _ l) as [word rest].
destruct (parse_reference word) as [first|] eqn:Ef; [|by eexists].
destruct (match rest with [] => _ | _ => _ end) as [second last] eqn:Es.
assert (Hends : numbered_ends (first, second)).
{ split; [by eapply parse_reference_bound|]. intros r Er. simpl in Er. subst second. destruct rest as [|c rest]; [done|].
destruct (c =? COLON); [|done]. destruct (take_while _ rest) as [next after].
destruct (parse_reference next) as [r'|] eqn:En; [|done]. injection Es as -> _. by eapply parse_reference_bound. }
destruct (_ && _); [by eexists|]. destruct (Hchange sheet first second Hends) as (r & -> & Hr).
cbn [mbind Result_bind]. destruct r as [[a b]|]; [|by eexists]. destruct (Hr _ eq_refl) as [Ha Hb].
destruct (write_reference_total (E:=E) a Ha) as [out ->]. cbn [mbind Result_bind]. destruct b as [b|]; [|by eexists].
destruct (write_reference_total (E:=E) b (Hb _ eq_refl)) as [out' ->]. by eexists.
Qed.

Lemma map_step_total c l : exists out, map_step change c l = Ok out.
Proof.
unfold map_step. repeat first [by eexists | apply copy_reference_total | case_match].
Qed.

Lemma map_references_total formula : exists out, map_references formula change = Ok out.
Proof.
unfold map_references. generalize (length formula). intros fuel. revert formula.
induction fuel as [|fuel IH]; intros [|c l]; try by eexists. cbn [map_fuel].
destruct (map_step_total c l) as [[out rest] ->]. cbn [mbind Result_bind]. destruct (IH rest) as [more ->]. by eexists.
Qed.
End total.

Lemma set_axis_numbered rows r line : numbered_ref r -> (rows = true -> numbered line) ->
  numbered_ref (set_axis rows r (Some line)).
Proof. intros Hr Hl. destruct rows; unfold numbered_ref, set_axis; simpl; [|done]. intros ? [= <-]. by apply Hl. Qed.

Lemma get_axis_numbered rows r line : numbered_ref r -> get_axis rows r = Some line -> rows = true -> numbered line.
Proof. intros Hr Hg ->. by apply Hr. Qed.

Section deletion.
Context {E : Type} (s : Shift) (Hs : deletion s).

Lemma move_axis_total rows ends : numbered_ends ends ->
exists r, move_axis (E:=E) rows s ends = Ok r /\ forall ends, r = Some ends -> numbered_ends ends.
Proof.
destruct ends as [first second]. intros [Hf Hse]. simpl in *.
assert (Hsame : numbered_ends (first, second)) by done. unfold move_axis.
destruct (get_axis rows first) as [start|] eqn:Ef; [|eexists; split; [done|]; by intros ? [= <-]].
pose proof (get_axis_numbered _ _ _ Hf Ef) as Hstart. destruct second as [stop|].
- destruct (get_axis rows stop) as [last|] eqn:Es; [|by eexists].
pose proof (get_axis_numbered _ _ _ (Hse _ eq_refl) Es) as Hlast.
destruct (span_deletion (E:=E) s Hs start last) as (r & -> & Hr). eexists. split; [done|].
destruct r as [[a b]|]; [|done]. intros ? [= <-]. specialize (Hr _ _ eq_refl).
split; simpl; [|intros ? [= <-]]; apply set_axis_numbered; auto; intros ->; apply Hr; auto.
- rewrite shift_line_deletion by done. eexists. split; [done|].
pose proof (moved_deletion s Hs start) as Hm. destruct (moved s start) as [line|]; [|done]. intros ? [= <-].
specialize (Hm _ eq_refl). split; [|done]. apply set_axis_numbered; [done|]. intros ->. unfold numbered in *.
specialize (Hstart eq_refl). lia.
Qed.

Lemma shift_formula_total `{Unicode} formula own sheet rows : exists out, shift_formula (E:=E) formula own sheet rows s = Ok out.
Proof.
apply map_references_total. intros named first second Hends. unfold move_reference.
destruct (match named with None => own | _ => _ end); [by apply move_axis_total|].
eexists. split; [done|]. by intros ? [= <-].
Qed.

Lemma parse_range_bound name top left_ bottom right_ : parse_range name = Some (top, left_, bottom, right_) ->
numbered top /\ numbered bottom.
Proof.
unfold parse_range. destruct (default _ _) as [first last].
intros ([r c] & E1%parse_cell_bound & ([r' c'] & E2%parse_cell_bound & [= <- <- <- <-])%bind_Some)%bind_Some. done.
Qed.

Lemma shift_range_total rows range : exists o, shift_range (E:=E) s rows range = Ok o.
Proof.
unfold shift_range. destruct (parse_range range) as [[[[top left_] bottom] right_]|] eqn:Er; [|by eexists].
apply parse_range_bound in Er as [Ht Hb].
assert (exists r, (if rows then span (E:=E) s top bottom else span s left_ right_) = Ok r /\
forall a b, r = Some (a, b) -> rows = true -> numbered a /\ numbered b) as (r & -> & Hr).
{ destruct rows; [destruct (span_deletion (E:=E) s Hs top bottom) as (r & -> & Hr)|destruct (span_deletion (E:=E) s Hs left_ right_) as (r & -> & _)];
exists r; (split; [done|]); [|done]. intros a b -> _. by apply Hr. }
cbn [mbind Result_bind]. destruct r as [[a b]|]; [|by eexists]. specialize (Hr _ _ eq_refl).
destruct rows.
- destruct (range_name_total (E:=E) a left_ b right_) as [name ->]; [by apply Hr..|]. by eexists.
- destruct (range_name_total (E:=E) top a bottom b) as [name ->]; [done..|]. by eexists.
Qed.

Lemma shift_ranges_total rows ranges : exists out, shift_ranges (E:=E) ranges s rows = Ok out.
Proof.
unfold shift_ranges. destruct (try_omap_total (shift_range (E:=E) s rows) (split_words [] ranges)) as [words ->].
{ intros a _. apply shift_range_total. }
by eexists.
Qed.
End deletion.

(** ** The workbook *)

Section workbook.
Context `{Unicode} (s : Shift) (Hs : deletion s).

Lemma each_total {A B} (f : A -> R B) l : (forall a, exists b, f a = Ok b) -> exists l', try_omap (fun a => b ← f a; Ok (Some b)) l = Ok l'.
Proof. intros Hf. apply try_omap_total. intros a _. destruct (Hf a) as [b ->]. by eexists. Qed.

Lemma shift_cell_total own name rows cell : exists c, shift_cell own name rows s cell = Ok c.
Proof.
unfold shift_cell. destruct (c_formula cell) as [formula|]; [|by eexists].
destruct (shift_formula_total (E:=Refused) s Hs formula own name rows) as [out ->]. by eexists.
Qed.

Lemma shift_sheet_total id name rows sheet : exists s', shift_sheet id name rows s sheet = Ok s'.
Proof.
unfold shift_sheet. match goal with |- context [try_entries ?f ?m] => destruct (try_entries_total f m) as [cells ->] end.
{ intros k v _. cbn [snd]. destruct (shift_cell_total (has_id id sheet) name rows v) as [c ->]. by eexists. }
by eexists.
Qed.

Lemma moved_keys_total {V} (m : gmap N V) : exists m', moved_keys s m = Ok m'.
Proof.
apply try_entries_total. intros k v _. rewrite shift_line_deletion by done. by eexists.
Qed.

Lemma move_key_total rows key : exists o, move_key rows s key = Ok o.
Proof. unfold move_key. rewrite !shift_line_deletion by done. destruct rows; by eexists. Qed.

Lemma move_merge_total rows merge : exists o, move_merge rows s merge = Ok o.
Proof.
destruct merge as [[[top left_] bottom] right_]. unfold move_merge. rewrite !shift_line_deletion by done.
cbn [mbind Result_bind]. destruct (moved s _); by eexists.
Qed.

Lemma move_sheet_total rows sheet : exists s', move_sheet rows s sheet = Ok s'.
Proof.
unfold move_sheet. match goal with |- context [try_entries ?f ?m] => destruct (try_entries_total f m) as [cells ->] end.
{ intros k v _. cbn [fst snd]. destruct (move_key_total rows k) as [o ->]. by eexists. }
cbn [mbind Result_bind]. destruct (try_omap_total (move_merge rows s) (sh_merges sheet)) as [merges ->];
[intros; apply move_merge_total|].
destruct (moved_keys_total (sh_widths sheet)) as [w ->], (moved_keys_total (sh_heights sheet)) as [h ->].
destruct (moved_keys_total (sh_row_looks sheet)) as [r ->], (moved_keys_total (sh_column_looks sheet)) as [c ->].
destruct (each_total (shift_anchor rows s) (sh_anchors sheet)) as [anchors ->].
{ intros a. unfold shift_anchor. destruct (shift_ranges_total (E:=Refused) s Hs rows (an_ranges a)) as [out ->]. by eexists. }
destruct rows; by eexists.
Qed.

Lemma move_first_total id rows sheets : existsb (has_id id) sheets = true -> exists l, move_first id rows s sheets = Ok l.
Proof.
induction sheets as [|sheet sheets IH]; [done|]. simpl. destruct (has_id id sheet); simpl.
- destruct (move_sheet_total rows sheet) as [s' ->]. by eexists.
- intros Hin. destruct (IH Hin) as [l ->]. by eexists.
Qed.

Lemma shift_sheets_ids id id' name rows sheets sheets' :
try_omap (fun sheet => sheet ← shift_sheet id name rows s sheet; Ok (Some sheet)) sheets = Ok sheets' ->
existsb (has_id id') sheets' = existsb (has_id id') sheets.
Proof.
revert sheets'. induction sheets as [|sheet sheets IH]; intros sheets'; simpl; [by intros [= <-]|].
intros (o & (s' & Es & [= <-])%bind_ok & (l & El & [= <-])%bind_ok)%bind_ok. simpl. rewrite (IH _ El). f_equal.
unfold shift_sheet in Es. by apply bind_ok in Es as (cells & _ & [= <-]).
Qed.

Lemma sheet_of_has m id sheet : sheet_of m id = Some sheet -> existsb (has_id id) (m_sheets m) = true.
Proof.
unfold sheet_of. intros ([i s'] & (Hi & Hid & _)%list_find_Some & _)%fmap_Some.
apply existsb_exists. exists s'. split; [|done]. apply list_elem_of_In. by eapply list_elem_of_lookup_2.
Qed.

(** A sheet that is there loses any lines up to the most that there are. *)
Lemma delete_lines_total m id rows : is_Some (sheet_of m id) -> sh_at s + amount s <= MOST_LINES ->
sh_count s <> (-2147483648)%Z -> exists m', move_lines m id (sh_at s) (sh_count s) rows = Ok m'.
Proof.
intros [sheet Es] Hm Hc. pose proof (proj1 Hs) as Hneg. unfold move_lines.
rewrite decide_False by lia. rewrite decide_False by done. unfold amount in Hm. rewrite (proj2 (N.ltb_ge _ _)) by done.
rewrite Es. assert (MkShift (sh_at s) (sh_count s) = s) as -> by by destruct s.
destruct (each_total (shift_name (sh_name sheet) rows s) (m_names m)) as [names ->].
{ intros d. unfold shift_name. destruct (shift_formula_total (E:=Refused) s Hs (dn_text d) false (sh_name sheet) rows) as [out ->].
by eexists. }
cbn [mbind Result_bind]. destruct (each_total (shift_sheet id (sh_name sheet) rows s) (m_sheets m)) as [sheets El].
{ apply shift_sheet_total. }
rewrite El. cbn [mbind Result_bind]. destruct (move_first_total id rows sheets) as [l ->]; [|by eexists].
rewrite (shift_sheets_ids _ _ _ _ _ _ El). by apply (sheet_of_has _ _ sheet).
Qed.
End workbook.

(* ------------------------------------------------------------ *)

(** Lines that a workbook got and then lost leave it as it was. *)

Open Scope N_scope.

(** What a cell has apart from the text of its formula. *)
Definition cell_shape (c : Cell) : option CellValue * option N * bool :=
  (c_value c, c_style c, match c_formula c with Some _ => true | None => false end).

(** What a sheet has apart from the texts of formulas and of anchors. *)
Definition sheet_shape (s : Sheet) :=
  (sh_id s, sh_number s, sh_name s, sh_part s, cell_shape <$> sh_cells s, sh_merges s,
   (sh_widths s, sh_heights s, sh_row_looks s, sh_column_looks s)).

(** The same of a workbook. *)
Definition model_shape (m : Model) :=
  (sheet_shape <$> m_sheets m, m_looks m, (fun d => (dn_name d, dn_sheet d)) <$> m_names m, m_last_number m).

(** ** Maps *)

Lemma map_eq_some {K V} `{Countable K} (m1 m2 : gmap K V) : (forall k v, m1 !! k = Some v <-> m2 !! k = Some v) -> m1 = m2.
Proof. intros Hm. apply map_eq. intros k. apply option.option_eq. apply Hm. Qed.

Lemma moved_keys_lookup {V} s (m m' : gmap N V) k v : moved_keys s m = Ok m' ->
  m' !! k = Some v <-> exists k0, m !! k0 = Some v /\ moved s k0 = Some k.
Proof.
  apply try_entries_moved; [|by apply moved_inj]. by intros k0 v0 o (line & ->%shift_line_moved & [= <-])%bind_ok.
Qed.

Definition move_cells (rows : bool) (s : Shift) (cells : gmap (N * N) Cell) : R (gmap (N * N) Cell) :=
  try_entries (fun e => key ← move_key rows s e.1; Ok (key ← key; Some (key, e.2))) cells.

Lemma move_cells_lookup rows s m m' k v : move_cells rows s m = Ok m' ->
  m' !! k = Some v <-> exists k0, m !! k0 = Some v /\ moved_key rows s k0 = Some k.
Proof.
  apply try_entries_moved; [|by apply moved_key_inj]. by intros k0 v0 o (key & ->%move_key_moved & [= <-])%bind_ok.
Qed.

Section back.
Context (at_ : N) (n : Z) (Hn : (0 < n)%Z).

Lemma moved_some x : exists y, moved (inserts at_ n) x = Some y.
Proof. unfold moved, inserts. simpl. rewrite (proj2 (Z.leb_le _ _)) by lia. by eexists. Qed.

Lemma moved_key_some rows k : exists k', moved_key rows (inserts at_ n) k = Some k'.
Proof.
unfold moved_key. destruct (moved_some k.1) as [y1 ->], (moved_some k.2) as [y2 ->]. destruct rows; by eexists.
Qed.

(** Entries go to new keys and come back to theirs, with what they show the same. *)
Lemma there_and_back {K V S} `{Countable K} (shape : V -> S) (to from : K -> option K) (m m1 m2 m3 : gmap K V) :
(forall k, exists k', to k = Some k') -> (forall a b, to a = Some b -> from b = Some a) ->
(forall k v, m1 !! k = Some v <-> exists k0, m !! k0 = Some v /\ to k0 = Some k) ->
shape <$> m2 = shape <$> m1 ->
(forall k v, m3 !! k = Some v <-> exists k0, m2 !! k0 = Some v /\ from k0 = Some k) ->
shape <$> m3 = shape <$> m.
Proof.
intros Hto Hfrom H1 H2 H3. assert (H12 : forall k w, (exists v, m2 !! k = Some v /\ shape v = w) <-> (exists v, m1 !! k = Some v /\ shape v = w)).
{ intros k w. assert (E : (shape <$> m2) !! k = (shape <$> m1) !! k) by by rewrite H2. rewrite !lookup_fmap in E.
destruct (m2 !! k), (m1 !! k); simplify_eq/=; split; intros (v' & [= <-] & <-); eauto. }
apply map_eq_some. intros k w. rewrite !lookup_fmap, !fmap_Some. split.
- intros (v & (k' & Hv & Ek)%H3 & ->). destruct (proj1 (H12 k' (shape v))) as (v1 & (k0 & Hm & E0)%H1 & Es); [by eauto|].
apply Hfrom in E0. rewrite Ek in E0. injection E0 as ->. eauto.
- intros (v & Hm & ->). destruct (Hto k) as [k' Ek]. destruct (proj2 (H12 k' (shape v))) as (v2 & Hv2 & Es).
{ exists v. split; [|done]. apply H1. eauto. }
exists v2. split; [|done]. apply H3. eauto.
Qed.

Lemma keys_back {V} (m m1 m2 : gmap N V) :
moved_keys (inserts at_ n) m = Ok m1 -> moved_keys (deletes at_ n) m1 = Ok m2 -> m2 = m.
Proof.
intros E1 E2. rewrite <- (map_fmap_id m), <- (map_fmap_id m2).
apply (there_and_back id (moved (inserts at_ n)) (moved (deletes at_ n)) m m1 m1 m2).
- apply moved_some.
- intros a b. by apply moved_back.
- intros k v. by apply moved_keys_lookup.
- done.
- intros k v. by apply moved_keys_lookup.
Qed.

Lemma merges_back rows merges l l' :
try_omap (move_merge rows (inserts at_ n)) merges = Ok l -> try_omap (move_merge rows (deletes at_ n)) l = Ok l' -> l' = merges.
Proof.
revert l l'. induction merges as [|merge merges IH]; intros l l'; [by intros [= <-] [= <-]|]. cbn [try_omap].
intros (o & Eo & (l1 & E1 & [= <-])%bind_ok)%bind_ok. destruct merge as [[[top left_] bottom] right_].
unfold move_merge in Eo. apply bind_ok in Eo as (first & ->%shift_line_moved & Eo).
destruct (moved_some (if rows then top else left_)) as [a Ea]. rewrite Ea in Eo.
apply bind_ok in Eo as (last & ->%shift_line_moved & [= <-]).
destruct (moved_some (if rows then bottom else right_)) as [b Eb]. rewrite Eb.
apply (moved_back _ _ _ _ Hn) in Ea, Eb. cbn [mbind option_bind].
cbn [try_omap]. intros (o & Eo & (l2 & E2 & [= <-])%bind_ok)%bind_ok. unfold move_merge in Eo.
destruct rows; apply bind_ok in Eo as (first & ->%shift_line_moved & Eo); rewrite Ea in Eo;
apply bind_ok in Eo as (last & ->%shift_line_moved & [= <-]); rewrite Eb; cbn; by rewrite (IH _ _ E1 E2).
Qed.
End back.

(** ** Sheets *)

Section sheets.
Context `{Unicode}.

Lemma shift_cell_shape own name rows s c c' : shift_cell own name rows s c = Ok c' -> cell_shape c' = cell_shape c.
Proof.
unfold shift_cell. destruct c as [v [formula|] style]; cbn [c_formula c_value c_style]; [|by intros [= <-]].
by intros (out & _ & [= <-])%bind_ok.
Qed.

Lemma shift_cells_shape (own : bool) (name : text) (rows : bool) (s : Shift) (m m' : gmap (N * N) Cell) :
try_entries (fun e : N * N * Cell => cell ← shift_cell own name rows s e.2; Ok (Some (e.1, cell))) m = Ok m' ->
cell_shape <$> m' = cell_shape <$> m.
Proof.
set (f := fun e : N * N * Cell => _). intros Em.
assert (Hf : forall k v o, f (k, v) = Ok o -> exists c, o = Some (k, c) /\ cell_shape c = cell_shape v).
{ intros k v o (c & Ec%shift_cell_shape & [= <-])%bind_ok. eauto. }
assert (Ha : apart f).
{ intros [k1 v1] [k2 v2] k w1 w2 (c1 & [= -> ->] & _)%Hf (c2 & [= <- ->] & _)%Hf. done. }
assert (Hl : forall k v, m !! k = Some v -> exists c, m' !! k = Some c /\ cell_shape c = cell_shape v).
{ intros k v Hv. pose proof Em as (l & El & _)%bind_ok.
destruct (try_omap_ok _ _ _ (k, v) El) as [o Eo]; [by apply elem_of_map_to_list|].
destruct (Hf _ _ _ Eo) as (c & -> & Es). exists c. split; [|done]. apply (try_entries_lookup f m m' k c Ha Em). eauto. }
apply map_eq_some. intros k w. rewrite !lookup_fmap, !fmap_Some. split.
- intros (c & (k0 & v & Hv & (c' & [= <- <-] & Es)%Hf)%(try_entries_lookup f m m' k _ Ha Em) & ->). eauto.
- intros (v & (c & Hc & Es)%Hl & ->). eauto.
Qed.

Lemma shift_sheet_shape id name rows s sheet sheet' : shift_sheet id name rows s sheet = Ok sheet' ->
sheet_shape sheet' = sheet_shape sheet.
Proof.
unfold shift_sheet. intros (cells & Ec%shift_cells_shape & [= <-])%bind_ok. unfold sheet_shape. simpl. by rewrite Ec.
Qed.

Lemma shape_id s s' id : sheet_shape s = sheet_shape s' -> has_id id s = has_id id s'.
Proof. unfold sheet_shape, has_id. intros [= -> _]. done. Qed.

Lemma move_sheet_ok rows s sheet sheet' : move_sheet rows s sheet = Ok sheet' ->
sh_id sheet' = sh_id sheet /\ sh_number sheet' = sh_number sheet /\ sh_name sheet' = sh_name sheet /\ sh_part sheet' = sh_part sheet /\
move_cells rows s (sh_cells sheet) = Ok (sh_cells sheet') /\
try_omap (move_merge rows s) (sh_merges sheet) = Ok (sh_merges sheet') /\
(if rows then Ok (sh_widths sheet) else moved_keys s (sh_widths sheet)) = Ok (sh_widths sheet') /\
(if rows then moved_keys s (sh_heights sheet) else Ok (sh_heights sheet)) = Ok (sh_heights sheet') /\
(if rows then moved_keys s (sh_row_looks sheet) else Ok (sh_row_looks sheet)) = Ok (sh_row_looks sheet') /\
(if rows then Ok (sh_column_looks sheet) else moved_keys s (sh_column_looks sheet)) = Ok (sh_column_looks sheet').
Proof.
unfold move_sheet.
intros (cells & Ec & (merges & Em & (w & Ew & (h & Eh & (r & Er & (c & El & (a & _ & [= <-])%bind_ok)%bind_ok)%bind_ok)%bind_ok)%bind_ok)%bind_ok)%bind_ok.
done.
Qed.

Context (at_ : N) (n : Z) (Hn : (0 < n)%Z).

Lemma sheet_back id rows name s1 s2 s3 s4 :
move_sheet rows (inserts at_ n) s1 = Ok s2 ->
shift_sheet id name rows (deletes at_ n) s2 = Ok s3 ->
move_sheet rows (deletes at_ n) s3 = Ok s4 -> sheet_shape s4 = sheet_shape s1.
Proof.
intros (I1 & N1 & A1 & P1 & C1 & M1 & W1 & H1 & R1 & L1)%move_sheet_ok E3%shift_sheet_shape
(I2 & N2 & A2 & P2 & C2 & M2 & W2 & H2 & R2 & L2)%move_sheet_ok.
unfold sheet_shape in *. injection E3 as I3 N3 A3 P3 C3 M3 W3 H3 R3 L3.
rewrite M3 in M2. apply (merges_back _ _ Hn _ _ _ _ M1) in M2.
assert (Ec : cell_shape <$> sh_cells s4 = cell_shape <$> sh_cells s1).
{ apply (there_and_back cell_shape (moved_key rows (inserts at_ n)) (moved_key rows (deletes at_ n)) _ (sh_cells s2) (sh_cells s3)).
- by apply moved_key_some.
- intros a b. by apply moved_key_back.
- intros k v. by apply move_cells_lookup.
- done.
- intros k v. by apply move_cells_lookup. }
rewrite Ec, M2, I2, I3, I1, N2, N3, N1, A2, A3, A1, P2, P3, P1. f_equal. rewrite W3 in W2. rewrite H3 in H2. rewrite R3 in R2. rewrite L3 in L2.
destruct rows.
- injection W1 as W1. injection W2 as W2. injection L1 as L1. injection L2 as L2.
by rewrite <- W2, <- W1, <- L2, <- L1, (keys_back _ _ Hn _ _ _ H1 H2), (keys_back _ _ Hn _ _ _ R1 R2).
- injection H1 as H1. injection H2 as H2. injection R1 as R1. injection R2 as R2.
by rewrite <- H2, <- H1, <- R2, <- R1, (keys_back _ _ Hn _ _ _ W1 W2), (keys_back _ _ Hn _ _ _ L1 L2).
Qed.

Abbreviation shift_all id name rows s := (try_omap (fun sheet => sheet ← shift_sheet id name rows s sheet; Ok (Some sheet))).

Lemma shift_all_shape id name rows s l l' : shift_all id name rows s l = Ok l' -> sheet_shape <$> l' = sheet_shape <$> l.
Proof. apply try_omap_each. intros a b. apply shift_sheet_shape. Qed.

Lemma sheets_back id rows name l1 : forall l2 l3 l4,
move_first id rows (inserts at_ n) l1 = Ok l2 -> shift_all id name rows (deletes at_ n) l2 = Ok l3 ->
move_first id rows (deletes at_ n) l3 = Ok l4 -> sheet_shape <$> l4 = sheet_shape <$> l1.
Proof.
induction l1 as [|s1 l1 IH]; intros l2 l3 l4; [done|]. cbn [move_first]. destruct (has_id id s1) eqn:Eid.
- intros (s2 & E2 & [= <-])%bind_ok. cbn [try_omap].
intros (o & (s3 & E3 & [= <-])%bind_ok & (l3' & El & [= <-])%bind_ok)%bind_ok. cbn [move_first].
assert (has_id id s3 = true) as ->.
{ rewrite (shape_id s3 s2); [|by eapply shift_sheet_shape]. apply move_sheet_ok in E2. unfold has_id in *. by rewrite (proj1 E2). }
intros (s4 & E4 & [= <-])%bind_ok. rewrite !fmap_cons. rewrite (sheet_back _ _ _ _ _ _ _ E2 E3 E4).
by rewrite (shift_all_shape _ _ _ _ _ _ El).
- intros (l2' & E2 & [= <-])%bind_ok. cbn [try_omap].
intros (o & (s3 & E3 & [= <-])%bind_ok & (l3' & El & [= <-])%bind_ok)%bind_ok. cbn [move_first].
apply shift_sheet_shape in E3. rewrite (shape_id _ _ id E3), Eid.
intros (l4' & E4 & [= <-])%bind_ok. rewrite !fmap_cons, E3. by rewrite (IH _ _ _ E2 El E4).
Qed.

Lemma names_shape name rows s l l' : try_omap (fun d => d ← shift_name name rows s d; Ok (Some d)) l = Ok l' ->
(fun d => (dn_name d, dn_sheet d)) <$> l' = (fun d => (dn_name d, dn_sheet d)) <$> l.
Proof. apply try_omap_each. intros a b (out & _ & [= <-])%bind_ok. done. Qed.

Lemma move_lines_ok m id a count rows m' : move_lines m id a count rows = Ok m' ->
count <> 0%Z /\ count <> (-2147483648)%Z /\ a + Z.to_N (Z.abs count) <= MOST_LINES /\
exists name names sheets sheets', m' = MkModel sheets' (m_looks m) names (m_last_number m) /\ is_Some (sheet_of m id) /\
try_omap (fun d => d ← shift_name name rows (MkShift a count) d; Ok (Some d)) (m_names m) = Ok names /\
shift_all id name rows (MkShift a count) (m_sheets m) = Ok sheets /\
move_first id rows (MkShift a count) sheets = Ok sheets'.
Proof.
unfold move_lines. destruct (decide _); [done|]. destruct (decide _); [done|]. destruct (N.ltb_spec MOST_LINES (a + Z.to_N (Z.abs count))); [done|].
destruct (sheet_of m id) as [known|]; [|done].
intros (names & En & (sheets & Es & (sheets' & E' & [= <-])%bind_ok)%bind_ok)%bind_ok.
do 3 (split; [done|]). exists (sh_name known), names, sheets, sheets'. eauto.
Qed.

Lemma lines_back m id rows m1 m2 : move_lines m id at_ n rows = Ok m1 -> move_lines m1 id at_ (- n) rows = Ok m2 ->
model_shape m2 = model_shape m.
Proof.
intros (_ & _ & _ & name & names & sheets & sheets1 & -> & _ & En & Es & Ef)%move_lines_ok
(_ & _ & _ & name' & names' & sheets' & sheets2 & -> & _ & En' & Es' & Ef')%move_lines_ok. unfold model_shape. simpl in *.
rewrite (sheets_back _ _ _ _ _ _ _ Ef Es' Ef'), (shift_all_shape _ _ _ _ _ _ Es).
by rewrite (names_shape _ _ _ _ _ En'), (names_shape _ _ _ _ _ En).
Qed.

Lemma move_first_has id rows s l l' : move_first id rows s l = Ok l' -> existsb (has_id id) l' = true.
Proof.
revert l'. induction l as [|sheet l IH]; intros l'; simpl; [done|]. destruct (has_id id sheet) eqn:Eid.
- intros (s' & E%move_sheet_ok & [= <-])%bind_ok. simpl. unfold has_id in *. by rewrite (proj1 E), Eid.
- intros (l1 & E & [= <-])%bind_ok. simpl. by rewrite (IH _ E), orb_true_r.
Qed.

Lemma has_sheet m id : existsb (has_id id) (m_sheets m) = true -> is_Some (sheet_of m id).
Proof.
intros (s & Hin & Hs)%existsb_exists. unfold sheet_of. apply fmap_is_Some.
apply (list_find_elem_of (fun s => has_id id s = true) _ s); [by apply list_elem_of_In|done].
Qed.

Lemma lines_return m id rows m1 : move_lines m id at_ n rows = Ok m1 ->
exists m2, move_lines m1 id at_ (- n) rows = Ok m2 /\ model_shape m2 = model_shape m.
Proof.
intros E1. pose proof (move_lines_ok _ _ _ _ _ _ E1) as (_ & _ & Hm & name & names & sheets & sheets' & -> & _ & _ & _ & Ef).
destruct (delete_lines_total (deletes at_ n)) with (m := MkModel sheets' (m_looks m) names (m_last_number m)) (id := id) (rows := rows)
as [m2 E2].
- split; [simpl; lia|]. unfold amount, deletes. cbn [sh_at sh_count]. rewrite Z.abs_opp. unfold MOST_LINES, U32 in *. lia.
- apply has_sheet. by eapply move_first_has.
- unfold amount, deletes. cbn [sh_at sh_count]. by rewrite Z.abs_opp.
- unfold deletes. cbn [sh_count]. unfold MOST_LINES in Hm. lia.
- exists m2. split; [done|]. by eapply lines_back.
Qed.
End sheets.
