(* ===== verification/SheetReach.v ===== *)
(** A change that went in a workbook goes in again, and gives the same. *)

From stdpp Require Import sorting.
From S2P Require Import Prelude Json Utf Contract Format SheetFormula SheetModel SheetOps.
From S2P Require Import SheetApply.
Open Scope N_scope.

Lemma ok_inv {A B} (r : R A) (f : A -> R B) b : r ≫= f = Ok b -> exists a, r = Ok a /\ f a = Ok b.
Proof. destruct r as [a| |]; try done. simpl. eauto. Qed.

(** Without changes since, nothing is behind. *)
Lemma not_behind change : is_behind change [] = false.
Proof.
  revert change. apply change_rect; [by intros []|]. intros changes IH. simpl.
  induction IH as [|c changes Hc _ IHl]; [done|]. simpl. by rewrite Hc, IHl.
Qed.

(** The looks alone say which styles cells get. *)
Lemma set_styles_again cells : forall looks looks' cells', set_styles looks cells = (looks', cells') ->
  set_styles looks cells' = (looks', cells').
Proof.
  induction cells as [|c cells IH]; intros looks looks' cells'; simpl; [by intros [= <- <-]|].
  destruct (cc_look c) as [look|] eqn:El.
  - destruct (look_index looks look) as [looks1 index] eqn:Ei. destruct (set_styles looks1 cells) as [looks2 cells2] eqn:Es.
    intros [= <- <-]. simpl. rewrite El, Ei. by rewrite (IH _ _ _ Es).
  - destruct (set_styles looks cells) as [looks2 cells2] eqn:Es. intros [= <- <-]. simpl. rewrite El. by rewrite (IH _ _ _ Es).
Qed.

Section replay.
Context `{Unicode}.

(** The changes of a group, one after the other. *)
Fixpoint apply_all (m : Model) (changes : list Change) : R (Model * list Change) :=
match changes with
| [] => Ok (m, [])
| change :: changes => '(m, change) ← apply_one m change; '(m, changes) ← apply_all m changes; Ok (m, change :: changes)
end.

Lemma apply_group m changes : apply_one m (Group changes) = '(m, changes) ← apply_all m changes; Ok (m, Group changes).
Proof. done. Qed.

Lemma apply_one_again : forall change m m' change', apply_one m change = Ok (m', change') -> apply_one m change' = Ok (m', change').
Proof.
apply (change_rect (fun change => forall m m' change', apply_one m change = Ok (m', change') -> apply_one m change' = Ok (m', change'))).
- intros [sheet cells|sheet at_ count|sheet at_ count|id name|sheet name|sheet|sheet widths heights|sheet add remove|ops|changes];
try exact I; intros m m' change'; cbn [apply_one].
+ destruct (set_styles (m_looks m) cells) as [looks cells'] eqn:Es. intros (m1 & E1 & [= <- <-])%ok_inv.
cbn [apply_one]. rewrite (set_styles_again _ _ _ _ Es). by rewrite E1.
+ intros (m1 & E1 & [= <- <-])%ok_inv. cbn [apply_one]. by rewrite E1.
+ intros (m1 & E1 & [= <- <-])%ok_inv. cbn [apply_one]. by rewrite E1.
+ destruct (existsb _ _) eqn:Ee; [done|]. intros (n & E1 & [= <- <-])%ok_inv. cbn [apply_one]. by rewrite Ee, E1.
+ intros (m1 & E1 & [= <- <-])%ok_inv. cbn [apply_one]. by rewrite E1.
+ destruct (_ =? _)%nat eqn:Ee; [done|]. intros [= <- <-]. cbn [apply_one]. by rewrite Ee.
+ intros (m1 & E1 & [= <- <-])%ok_inv. cbn [apply_one]. by rewrite E1.
+ intros (m1 & E1 & [= <- <-])%ok_inv. cbn [apply_one]. by rewrite E1.
+ done.
- intros changes IH m m' change'. rewrite apply_group. intros ([m1 changes1] & E1 & [= <- <-])%ok_inv.
rewrite apply_group. enough (apply_all m changes1 = Ok (m1, changes1)) as -> by done.
revert m m1 changes1 E1. induction IH as [|c changes Hc _ IHl]; intros m m1 changes1; simpl; [by intros [= <- <-]|].
intros ([m2 c2] & E2 & ([m3 changes3] & E3 & [= <- <-])%ok_inv)%ok_inv. simpl.
rewrite (Hc _ _ _ E2). simpl. by rewrite (IHl _ _ _ E3).
Qed.

(** What views see is never ops. *)
Lemma apply_one_no_ops m change m' ops : apply_one m change <> Ok (m', Ops ops).
Proof. intros E%apply_one_again. done. Qed.

Lemma apply_again m change since m' change' : apply m change since = Ok (m', change') -> apply m change' [] = Ok (m', change').
Proof.
unfold apply. destruct (is_behind change since); [done|]. rewrite not_behind. intros (c1 & _ & E2)%ok_inv.
destruct change' as [| | | | | | | |ops|]; [| | | | | | | |by apply apply_one_no_ops in E2|];
simpl; exact (apply_one_again _ _ _ _ E2).
Qed.
End replay.

(* ------------------------------------------------------------ *)

(** What [compare] finds turns one workbook into the other. *)

Open Scope N_scope.

(** ** Cells *)

Definition same_cell (a b : Cell) : Prop := a = b \/ cell_eq a b = true.
Definition same_cells (a b : gmap (N * N) Cell) : Prop :=
  forall key, same_cell (default empty_cell (a !! key)) (default empty_cell (b !! key)).

Lemma is_empty_empty c : is_empty c = true -> c = empty_cell.
Proof. by destruct c as [[] [] []]. Qed.

(** What the cell of a key is after its change. *)
Definition put (after : Cell) (key : N * N) (m : gmap (N * N) Cell) : gmap (N * N) Cell :=
  if is_empty after then delete key m else <[key := after]> m.

Lemma put_lookup after key m k : default empty_cell (put after key m !! k) =
  if decide (k = key) then after else default empty_cell (m !! k).
Proof.
  unfold put. destruct (is_empty after) eqn:Ee, (decide (k = key)) as [->|Hk].
  - rewrite lookup_delete_eq. simpl. by rewrite (is_empty_empty _ Ee).
  - by rewrite lookup_delete_ne.
  - by rewrite lookup_insert_eq.
  - by rewrite lookup_insert_ne.
Qed.

Lemma set_cell_put m key after : set_cell m (MkCellChange key.1 key.2 (Some (c_value after)) (Some (c_formula after)) (Some (c_style after)) None)
  = put after key m.
Proof. destruct key, after. done. Qed.

Section cells.
Context (old new : gmap (N * N) Cell).

Lemma set_cells_lookup keys : forall m key, NoDup keys -> (forall k, k ∈ keys -> m !! k = old !! k) ->
default empty_cell (foldl set_cell m (omap (cell_change old new) keys) !! key) =
if decide (key ∈ keys /\ SheetModel.option_eq cell_eq (old !! key) (new !! key) = false)
then default empty_cell (new !! key) else default empty_cell (m !! key).
Proof.
induction keys as [|k keys IH]; intros m key; [by intros _ _; rewrite decide_False by (intros [?%elem_of_nil _]; done)|].
intros [Hk Hn]%NoDup_cons Hm. cbn [omap list_omap]. unfold cell_change at 1.
destruct (SheetModel.option_eq cell_eq (old !! k) (new !! k)) eqn:Eo.
- rewrite IH; [|done|intros; apply Hm; by right].
destruct (decide (key ∈ keys /\ _)) as [[Hin He]|Hno]; [by rewrite decide_True by (split; [by right|done])|].
rewrite decide_False; [done|]. intros [[->|Hin]%elem_of_cons He]; [congruence|by apply Hno].
- cbn [foldl]. rewrite set_cell_put, IH; [|done|].
2: { intros k' Hk'. unfold put. destruct (is_empty _); [rewrite lookup_delete_ne|rewrite lookup_insert_ne]; set_solver. }
rewrite put_lookup. destruct (decide (key = k)) as [->|Hne].
+ rewrite decide_False by naive_solver. rewrite decide_True; [done|]. split; [left|done].
+ destruct (decide (key ∈ keys /\ _)) as [[Hin He]|Hno]; [by rewrite decide_True by (split; [by right|done])|].
rewrite decide_False; [done|]. intros [Hin He]. apply Hno. split; [|done]. by apply elem_of_cons in Hin as [->|].
Qed.

Lemma both_keys_spec : NoDup (both_keys old new) /\ forall k, k ∈ both_keys old new <-> is_Some (old !! k) \/ is_Some (new !! k).
Proof.
unfold both_keys. split; [rewrite (merge_sort_Permutation key_le); apply NoDup_elements|].
intros k. rewrite (merge_sort_Permutation key_le), (elem_of_elements (dom old ∪ dom new) k), elem_of_union, !elem_of_dom. done.
Qed.

(** The changes of the cells give the new ones. *)
Lemma cells_reached : same_cells (foldl set_cell old (omap (cell_change old new) (both_keys old new))) new.
Proof.
destruct both_keys_spec as [Hn Hk]. intros key. rewrite set_cells_lookup by done.
destruct (decide _) as [_|Hno]; [by left|].
destruct (SheetModel.option_eq cell_eq (old !! key) (new !! key)) eqn:Eo.
- destruct (old !! key), (new !! key); try done; [by right|by left].
- assert (key ∉ both_keys old new) as Hnot by naive_solver. rewrite Hk in Hnot.
destruct (old !! key), (new !! key); try by left. all: exfalso; apply Hnot; eauto.
Qed.
End cells.

(** ** Sizes and merges *)

(** Each line that has a size in the new file has it, and each other line has the size that it
had: a size that another program took away stays. *)
Definition sizes_left (old a new : gmap N N) : Prop :=
  forall line, match new !! line with
  | Some n => exists n', a !! line = Some n' /\ (n' = n \/ f64_eq n' n = true)
  | None => a !! line = old !! line
  end.

Lemma sizes_reached old new : sizes_left old (sizes_change old new ∪ old) new.
Proof.
  intros line. unfold sizes_change. destruct (new !! line) as [n|] eqn:Hn.
  2: { apply lookup_union_r, map_lookup_filter_None. by left. }
  destruct (SheetModel.option_eq f64_eq (old !! line) (Some n)) eqn:Eo.
  - assert (filter (fun e => SheetModel.option_eq f64_eq (old !! e.1) (Some e.2) = false) new !! line = None) as Hf.
    { apply map_lookup_filter_None. right. intros n' Hn'. rewrite Hn in Hn'. injection Hn' as <-. simpl. by rewrite Eo. }
    rewrite lookup_union_r by done. destruct (old !! line) as [n'|]; [|done]. exists n'. auto.
  - exists n. split; [|by left]. apply lookup_union_Some_l. by apply map_lookup_filter_Some.
Qed.

Lemma change_no_merges merges : change_merges [] [] merges = merges.
Proof.
  unfold change_merges. cbn [foldl]. induction merges as [|merge merges IH]; [done|].
  rewrite filter_cons_True by apply not_elem_of_nil. by rewrite IH.
Qed.

Lemma add_merges (add : list Bounds) : forall merges x, x ∈ foldl (fun merges merge => if decide (merge ∈ merges) then merges else merges ++ [merge]) merges add
  <-> x ∈ merges \/ x ∈ add.
Proof.
  induction add as [|a add IH]; intros merges x; simpl; [set_solver|]. rewrite IH. case_decide; set_solver.
Qed.

Lemma merges_reached (old new : list Bounds) x :
  x ∈ change_merges (filter (fun merge => merge ∉ old) new) (filter (fun merge => merge ∉ new) old) old <-> x ∈ new.
Proof.
  unfold change_merges. rewrite add_merges, !list_elem_of_filter. destruct (decide (x ∈ old)), (decide (x ∈ new)); set_solver.
Qed.

(** ** One sheet *)

(** [s] is what is left of [old] with the content of [new]. *)
Definition shows (old s new : Sheet) : Prop :=
  sh_name s = sh_name new /\ same_cells (sh_cells s) (sh_cells new) /\
  sizes_left (sh_widths old) (sh_widths s) (sh_widths new) /\
  sizes_left (sh_heights old) (sh_heights s) (sh_heights new) /\ forall merge, merge ∈ sh_merges s <-> merge ∈ sh_merges new.

(** The sheet that the changes of one sheet leave. *)
Definition reached (old new : Sheet) (s : Sheet) : Sheet :=
  MkSheet (sh_id s) (sh_number s) (sh_name new) (sh_part s)
    (foldl set_cell (sh_cells old) (omap (cell_change (sh_cells old) (sh_cells new)) (both_keys (sh_cells old) (sh_cells new))))
    (change_merges (filter (fun merge => merge ∉ sh_merges old) (sh_merges new)) (filter (fun merge => merge ∉ sh_merges new) (sh_merges old)) (sh_merges old))
    (sizes_change (sh_widths old) (sh_widths new) ∪ sh_widths old) (sizes_change (sh_heights old) (sh_heights new) ∪ sh_heights old)
    (sh_row_looks s) (sh_column_looks s) (sh_anchors s) (sh_moved s).

Lemma reached_shows old new s : shows old (reached old new s) new.
Proof.
  unfold shows, reached. simpl.
  split; [done|]. split; [apply cells_reached|]. split; [apply sizes_reached|]. split; [apply sizes_reached|].
  intros merge. apply merges_reached.
Qed.

(** ** Sheets of a workbook *)

Definition keyed (m : Model) : Prop := NoDup (sh_id <$> m_sheets m).

Definition find_sheet (id : text) (l : list Sheet) : option Sheet := snd <$> list_find (fun s => has_id id s = true) l.

Lemma find_sheet_cons id s l : find_sheet id (s :: l) = if has_id id s then Some s else find_sheet id l.
Proof.
  unfold find_sheet. cbn [list_find]. destruct (has_id id s) eqn:Es; [by rewrite decide_True|].
  rewrite decide_False by congruence. by destruct (list_find _ l) as [[]|].
Qed.

Lemma has_id_spec id s : has_id id s = true <-> sh_id s = id.
Proof. unfold has_id. by rewrite bool_decide_eq_true. Qed.

Lemma find_sheet_spec id l s : NoDup (sh_id <$> l) -> find_sheet id l = Some s <-> s ∈ l /\ sh_id s = id.
Proof.
  induction l as [|s0 l IH]; [by intros _; split; [|intros [?%elem_of_nil _]]|]. rewrite fmap_cons.
  intros [Hs Hn]%NoDup_cons. rewrite find_sheet_cons, elem_of_cons. destruct (has_id id s0) eqn:Es.
  - apply has_id_spec in Es. split; [intros [= ->]; auto|]. intros [[->|Hin] Eid]; [done|].
    exfalso. apply Hs. apply list_elem_of_fmap. exists s. split; [congruence|done].
  - rewrite IH by done. split; [naive_solver|]. intros [[->|Hin] Eid]; [|done]. apply has_id_spec in Eid. congruence.
Qed.

Lemma sheet_of_spec m id s : keyed m -> sheet_of m id = Some s <-> s ∈ m_sheets m /\ sh_id s = id.
Proof. apply find_sheet_spec. Qed.

Lemma alter_first_spec id f l s : (forall s, sh_id (f s) = sh_id s) -> find_sheet id l = Some s ->
  exists l', alter_first id f l = Some l' /\ sh_id <$> l' = sh_id <$> l /\
    forall id', find_sheet id' l' = if decide (id' = id) then Some (f s) else find_sheet id' l.
Proof.
  intros Hf. induction l as [|s0 l IH]; [done|]. rewrite find_sheet_cons. cbn [alter_first].
  destruct (has_id id s0) eqn:E0.
  - intros [= ->]. eexists. split; [done|]. split; [by rewrite !fmap_cons, Hf|]. intros id'. rewrite !find_sheet_cons.
    apply has_id_spec in E0. unfold has_id. rewrite Hf, E0. destruct (decide (id' = id)) as [->|Hne];
      [by rewrite bool_decide_eq_true_2|by rewrite bool_decide_eq_false_2 by congruence].
  - intros Hs. destruct (IH Hs) as (l' & -> & Eids & Hl). cbn [mbind option_bind]. eexists. split; [done|].
    split; [by rewrite !fmap_cons, Eids|]. intros id'. rewrite !find_sheet_cons, Hl.
    destruct (has_id id' s0) eqn:E0'; [|done]. rewrite decide_False; [done|].
    intros ->. congruence.
Qed.

(** [m'] is [m] with [s] for the sheet of the id. *)
Record edited (m : Model) (id : text) (s : Sheet) (m' : Model) : Prop := {
  ed_keyed : keyed m';
  ed_number : m_last_number m' = m_last_number m;
  ed_looks : m_looks m' = m_looks m;
  ed_find id' : sheet_of m' id' = if decide (id' = id) then Some s else sheet_of m id'
}.

Lemma edited_trans m id s1 m1 s2 m2 : edited m id s1 m1 -> edited m1 id s2 m2 -> edited m id s2 m2.
Proof.
  intros [K1 N1 L1 F1] [K2 N2 L2 F2]. split; [done|congruence..|]. intros id'. rewrite F2, F1. by destruct (decide _).
Qed.

Lemma edited_same m id s : keyed m -> sheet_of m id = Some s -> edited m id s m.
Proof. intros Hk Hs. split; [done..|]. intros id'. destruct (decide (id' = id)) as [->|]; done. Qed.

Section run.
Context `{Unicode}.

(** Changes one after the other, each with nothing after its base. *)
Fixpoint run (m : Model) (changes : list Change) : R Model :=
match changes with [] => Ok m | change :: changes => '(m, _) ← apply m change []; run m changes end.

Lemma run_changes_app m l1 l2 : run m (l1 ++ l2) = m ← run m l1; run m l2.
Proof.
revert m. induction l1 as [|c l1 IH]; intros m; [done|]. cbn [run app]. destruct (apply m c []) as [[m' c']| |]; [|done..].
apply IH.
Qed.

Lemma on_sheet_edited m id f s : keyed m -> (forall s, sh_id (f s) = sh_id s) -> sheet_of m id = Some s ->
exists m', on_sheet m id f = Ok m' /\ edited m id (f s) m'.
Proof.
intros Hk Hf Hs. destruct (alter_first_spec id f (m_sheets m) s Hf Hs) as (l & El & Eids & Hl).
unfold on_sheet, sheet_mut. rewrite El. eexists. split; [done|].
split; [unfold keyed in *; simpl; by rewrite Eids|done..].
Qed.

(** Changes that give one sheet, or none where the sheet is that already. *)
Definition gives (id : text) (s : Sheet) (changes : list Change) (s' : Sheet) : Prop :=
forall m, keyed m -> sheet_of m id = Some s -> exists m', run m changes = Ok m' /\ edited m id s' m'.

Lemma gives_app id s1 l1 s2 l2 s3 : gives id s1 l1 s2 -> gives id s2 l2 s3 -> gives id s1 (l1 ++ l2) s3.
Proof.
intros H1 H2 m Hk Hs. destruct (H1 m Hk Hs) as (m1 & E1 & Ed1). destruct (H2 m1) as (m2 & E2 & Ed2).
{ by eapply ed_keyed. }
{ rewrite (ed_find _ _ _ _ Ed1). by rewrite decide_True. }
exists m2. rewrite run_changes_app, E1. split; [done|]. by eapply edited_trans.
Qed.

Lemma gives_none id s : gives id s [] s.
Proof. intros m Hk Hs. exists m. split; [done|]. by apply edited_same. Qed.

Lemma gives_one id s f change : (forall s, sh_id (f s) = sh_id s) -> is_behind change [] = false ->
(forall m, apply m change [] = m ← on_sheet m id f; Ok (m, change)) -> gives id s [change] (f s).
Proof.
intros Hf Hb Ha m Hk Hs. destruct (on_sheet_edited m id f s Hk Hf Hs) as (m' & E & Ed).
exists m'. cbn [run]. rewrite Ha, E. done.
Qed.

Lemma set_styles_none looks cells : Forall (fun c => cc_look c = None) cells -> set_styles looks cells = (looks, cells).
Proof. induction 1 as [|c cells Hc _ IH]; [done|]. cbn [set_styles]. by rewrite Hc, IH. Qed.

Lemma cells_changes_no_look old new keys : Forall (fun c => cc_look c = None) (omap (cell_change old new) keys).
Proof.
apply Forall_forall. intros c (k & _ & Ek)%list_elem_of_omap. unfold cell_change in Ek. destruct (SheetModel.option_eq _ _ _); [done|].
by injection Ek as <-.
Qed.

Lemma cells_given old new s : sh_id s = sh_id new -> sh_cells s = sh_cells old ->
gives (sh_id new) s (cells_change old new)
(with_cells s (foldl set_cell (sh_cells old) (omap (cell_change (sh_cells old) (sh_cells new)) (both_keys (sh_cells old) (sh_cells new))))).
Proof.
intros Hid Hc. unfold cells_change. pose proof (cells_changes_no_look (sh_cells old) (sh_cells new) (both_keys (sh_cells old) (sh_cells new))) as Hn.
destruct (omap _ _) as [|c cells] eqn:Eo.
- cbn [foldl]. rewrite <- Hc. destruct s. apply gives_none.
- rewrite <- Hc. apply (gives_one _ s (fun s => with_cells s (foldl set_cell (sh_cells s) (c :: cells)))); [done..|].
intros m. unfold apply. rewrite not_behind. cbn [mbind Result_bind apply_one]. rewrite set_styles_none by done.
by destruct m.
Qed.

Lemma layout_given old new s : sh_id s = sh_id new -> sh_widths s = sh_widths old -> sh_heights s = sh_heights old -> sh_merges s = sh_merges old ->
gives (sh_id new) s (layout_changes old new)
(with_merges (with_sizes s (sizes_change (sh_widths old) (sh_widths new) ∪ sh_widths old) (sizes_change (sh_heights old) (sh_heights new) ∪ sh_heights old))
(change_merges (filter (fun merge => merge ∉ sh_merges old) (sh_merges new)) (filter (fun merge => merge ∉ sh_merges new) (sh_merges old)) (sh_merges old))).
Proof.
intros Hid Hw Hh Hm. unfold layout_changes.
eapply (gives_app _ _ _ (with_sizes s (sizes_change (sh_widths old) (sh_widths new) ∪ sh_widths old) (sizes_change (sh_heights old) (sh_heights new) ∪ sh_heights old))).
- generalize (sizes_change (sh_widths old) (sh_widths new)), (sizes_change (sh_heights old) (sh_heights new)). intros w h.
rewrite <- Hw, <- Hh. destruct (decide _) as [[-> ->]|_]; [rewrite !(left_id_L ∅ (∪)); destruct s; apply gives_none|].
by apply (gives_one _ s (fun s => with_sizes s (w ∪ sh_widths s) (h ∪ sh_heights s))).
- generalize (filter (fun merge => merge ∉ sh_merges old) (sh_merges new)), (filter (fun merge => merge ∉ sh_merges new) (sh_merges old)).
intros add remove. rewrite <- Hm. destruct (decide _) as [[-> ->]|_].
+ rewrite change_no_merges. destruct s. apply gives_none.
+ by apply (gives_one _ (with_sizes s _ _) (fun s => with_merges s (change_merges add remove (sh_merges s)))).
Qed.

Lemma body_given old new s : sh_id s = sh_id new -> sh_name s = sh_name new -> sh_cells s = sh_cells old ->
sh_widths s = sh_widths old -> sh_heights s = sh_heights old -> sh_merges s = sh_merges old ->
gives (sh_id new) s (cells_change old new ++ layout_changes old new) (reached old new s).
Proof.
intros Hid Hn Hc Hw Hh Hm. eapply gives_app; [by apply cells_given|]. unfold reached. rewrite <- Hn.
by apply (layout_given old new (with_cells s _)).
Qed.

Lemma known_given (from : Model) old new : sheet_of from (sh_id new) = Some old -> sh_id old = sh_id new ->
gives (sh_id new) old (sheet_changes from new) (reached old new old).
Proof.
intros Hold Hid. unfold sheet_changes. rewrite Hold. eapply (gives_app _ _ _ (with_name old (sh_name new))).
- destruct (decide _) as [<-|_]; [destruct old; apply gives_none|].
by apply (gives_one _ old (fun s => with_name s (sh_name new))).
- change (reached old new old) with (reached old new (with_name old (sh_name new))). by apply body_given.
Qed.

Lemma new_given from new m : sheet_of from (sh_id new) = None -> keyed m -> sheet_of m (sh_id new) = None ->
(forall s, s ∈ m_sheets m -> sh_name s <> sh_name new) -> m_last_number m + 1 < U32 ->
exists m' s, run m (sheet_changes from new) = Ok m' /\ shows default_sheet s new /\ keyed m' /\ m_last_number m' = m_last_number m + 1 /\
m_looks m' = m_looks m /\
forall id, sheet_of m' id = if decide (id = sh_id new) then Some s else sheet_of m id.
Proof.
intros Hfrom Hk Hm Hn Hl. unfold sheet_changes. rewrite Hfrom. cbn [run]. unfold apply at 1. rewrite not_behind.
cbn [mbind Result_bind apply_one]. destruct (existsb _ _) eqn:Ee.
{ apply existsb_exists in Ee as (s & Hin%list_elem_of_In & [Hid%has_id_spec|Hname]%orb_prop).
- assert (sheet_of m (sh_id new) = Some s) by by apply sheet_of_spec. congruence.
- apply bool_decide_eq_true in Hname. by apply (Hn s) in Hin. }
unfold add32. rewrite (proj2 (N.ltb_lt _ _)) by done. cbn [mbind Result_bind].
set (blank := MkSheet (sh_id new) _ (sh_name new) None ∅ [] ∅ ∅ ∅ ∅ [] false).
set (m1 := MkModel (m_sheets m ++ [blank]) _ _ _).
assert (Hk1 : keyed m1).
{ unfold keyed, m1. simpl. rewrite fmap_app. apply NoDup_app. split; [done|]. split; [|apply NoDup_singleton].
intros id (s & -> & Hin)%list_elem_of_fmap. simpl. intros Eid%list_elem_of_singleton.
assert (sheet_of m (sh_id new) = Some s) by by apply sheet_of_spec. congruence. }
assert (Hf1 : forall id, sheet_of m1 id = if decide (id = sh_id new) then Some blank else sheet_of m id).
{ intros id. apply option.option_eq. intros s. rewrite sheet_of_spec by done. unfold m1 at 1. simpl.
rewrite elem_of_app, list_elem_of_singleton. destruct (decide (id = sh_id new)) as [->|Hne].
- split; [|intros [= <-]; auto]. intros [[Hin| ->] Hid]; [|done].
assert (sheet_of m (sh_id new) = Some s) by by apply sheet_of_spec. congruence.
- rewrite sheet_of_spec by done. split; [|naive_solver]. intros [[Hin| ->] Hid]; [done|]. by simpl in Hid. }
destruct (body_given default_sheet new blank) with (m := m1) as (m2 & E2 & [K2 N2 L2 F2]); try done.
{ by rewrite Hf1, decide_True. }
exists m2, (reached default_sheet new blank). split; [done|]. split; [apply reached_shows|]. split; [done|]. split; [by rewrite N2|]. split; [done|].
intros id. rewrite F2, Hf1. by destruct (decide _).
Qed.
End run.

(* ------------------------------------------------------------ *)

(** A workbook gets every sheet of another, and loses its others. *)

Open Scope N_scope.

Section reach.
Context `{Unicode} (from to : Model).

(** Ids and names are no two sheets', a new sheet does not take a name that is there, and
their numbers fit. *)
Record comparable : Prop := {
cmp_from : keyed from;
cmp_to : keyed to;
cmp_names : NoDup (sh_name <$> m_sheets to);
cmp_fresh new s : new ∈ m_sheets to -> sheet_of from (sh_id new) = None -> s ∈ m_sheets from -> sh_name s <> sh_name new;
cmp_number : m_last_number from + len (m_sheets to) < U32;
cmp_some : m_sheets to <> []
}.

Context (Hc : comparable).

Lemma sheet_of_in m id s : keyed m -> sheet_of m id = Some s -> s ∈ m_sheets m.
Proof. intros Hk Hs. by apply sheet_of_spec in Hs as [? _]. Qed.

Lemma in_sheet_of m s : keyed m -> s ∈ m_sheets m -> sheet_of m (sh_id s) = Some s.
Proof. intros Hk Hs. by apply sheet_of_spec. Qed.

(** The sheet that there was of that id; a sheet that is added starts empty. *)
Definition old_of (new : Sheet) : Sheet := default default_sheet (sheet_of from (sh_id new)).

(** ** The sheets of the other one *)

(** After the changes of some of its sheets. *)
Record partly (m : Model) (done : list Sheet) : Prop := {
pa_keyed : keyed m;
pa_number : m_last_number m <= m_last_number from + len done;
pa_looks : m_looks m = m_looks from;
pa_done new : new ∈ done -> exists s, sheet_of m (sh_id new) = Some s /\ shows (old_of new) s new;
pa_rest id : id ∉ sh_id <$> done -> sheet_of m id = sheet_of from id
}.

Lemma partly_more m m' s done new : partly m done -> sh_id new ∉ sh_id <$> done -> keyed m' -> m_last_number m' <= m_last_number m + 1 ->
m_looks m' = m_looks m -> shows (old_of new) s new ->
(forall id, sheet_of m' id = if decide (id = sh_id new) then Some s else sheet_of m id) ->
partly m' (done ++ [new]).
Proof.
intros [Hk Hn Hl Hd Hr] Hnew Hk' Hn' Hl' Hs Hf. split; [done| |congruence| |].
- unfold len in *. rewrite length_app. simpl. lia.
- intros x. rewrite Hf, elem_of_app, list_elem_of_singleton. intros [Hin| ->]; [|rewrite decide_True by done; eauto].
destruct (decide _) as [Eid|]; [|by apply Hd]. exfalso. apply Hnew. rewrite <- Eid. by apply list_elem_of_fmap_2.
- intros id. rewrite fmap_app, not_elem_of_app, Hf. cbn [fmap list_fmap]. intros [H1 H2].
rewrite decide_False; [by apply Hr|]. intros ->. apply H2. left.
Qed.

Lemma partly_one m done new todo : m_sheets to = done ++ new :: todo -> partly m done ->
exists m', run m (sheet_changes from new) = Ok m' /\ partly m' (done ++ [new]).
Proof.
intros Eto Hp. pose proof Hp as [Hk Hn Hl Hd Hr]. pose proof (cmp_to Hc) as Hids. unfold keyed in Hids.
pose proof (cmp_names Hc) as Hnames. rewrite Eto, fmap_app, fmap_cons in Hids, Hnames.
apply NoDup_app in Hids as (_ & Hids & _), Hnames as (_ & Hnames & _).
assert (Hnew : sh_id new ∉ sh_id <$> done) by (intros Hin; by apply (Hids _ Hin); left).
assert (Hin : new ∈ m_sheets to) by (rewrite Eto; set_solver).
pose proof (Hr _ Hnew) as Em. destruct (sheet_of from (sh_id new)) as [old|] eqn:Eold.
- assert (sh_id old = sh_id new) as Hid by (apply sheet_of_spec in Eold as [_ ?]; [done|apply (cmp_from Hc)]).
destruct (known_given from old new Eold Hid m Hk Em) as (m' & E & [K' N' L' F']).
exists m'. split; [done|]. apply (partly_more m m' (reached old new old)); try done; [lia|].
unfold old_of. rewrite Eold. apply reached_shows.
- destruct (new_given from new m Eold Hk Em) as (m' & s & E & Hs & K' & N' & L' & F').
+ intros s Hs Heq. destruct (decide (sh_id s ∈ sh_id <$> done)) as [(x & Ex & Hx)%list_elem_of_fmap|Hno].
* destruct (Hd _ Hx) as (s' & Es' & Hshow). rewrite <- Ex in Es'. rewrite (proj2 (sheet_of_spec m (sh_id s) s Hk)) in Es' by done.
injection Es' as <-. apply (Hnames (sh_name x)); [by apply list_elem_of_fmap_2|]. rewrite <- (proj1 Hshow), Heq. left.
* apply (cmp_fresh Hc new s); [done..| |done]. apply (sheet_of_in _ (sh_id s)); [apply (cmp_from Hc)|].
rewrite <- (Hr _ Hno). by apply in_sheet_of.
+ pose proof (cmp_number Hc) as Hnum. rewrite Eto in Hnum. unfold len in *. rewrite length_app in Hnum. simpl in Hnum. lia.
+ exists m'. split; [done|]. apply (partly_more m m' s); try done; [lia|]. unfold old_of. by rewrite Eold.
Qed.

Lemma partly_all todo : forall m done, m_sheets to = done ++ todo -> partly m done ->
exists m', run m (flat_map (sheet_changes from) todo) = Ok m' /\ partly m' (m_sheets to).
Proof.
induction todo as [|new todo IH]; intros m done Eto Hp.
- exists m. rewrite app_nil_r in Eto. by rewrite Eto.
- destruct (partly_one _ _ _ _ Eto Hp) as (m1 & E1 & Hp1). destruct (IH m1 (done ++ [new])) as (m2 & E2 & Hp2).
+ by rewrite <- app_assoc.
+ done.
+ exists m2. split; [|done]. cbn [flat_map]. by rewrite run_changes_app, E1.
Qed.

(** ** The sheets that go *)

Definition removals (l : list Sheet) : list Change :=
flat_map (fun s => match sheet_of to (sh_id s) with None => [RemoveSheet (sh_id s)] | Some _ => [] end) l.

Lemma sheet_of_gone m id : keyed m -> keyed (with_sheets m (filter (fun s => has_id id s = false) (m_sheets m))) /\
forall id', sheet_of (with_sheets m (filter (fun s => has_id id s = false) (m_sheets m))) id' =
if decide (id' = id) then None else sheet_of m id'.
Proof.
intros Hk. assert (Hk' : keyed (with_sheets m (filter (fun s => has_id id s = false) (m_sheets m)))).
{ unfold keyed in *. simpl. eapply sublist_NoDup; [done|]. apply fmap_sublist, sublist_filter. }
split; [done|]. intros id'. apply option.option_eq. intros s. rewrite sheet_of_spec by done. simpl.
rewrite list_elem_of_filter. unfold has_id. rewrite bool_decide_eq_false.
destruct (decide (id' = id)) as [->|Hne]; [naive_solver|]. rewrite sheet_of_spec by done. naive_solver.
Qed.

(** With the rest of the old sheets to go. *)
Record going (m : Model) (l : list Sheet) : Prop := {
go_keyed : keyed m;
go_looks : m_looks m = m_looks from;
go_shown new : new ∈ m_sheets to -> exists s, sheet_of m (sh_id new) = Some s /\ shows (old_of new) s new;
go_rest s : s ∈ m_sheets m -> sheet_of to (sh_id s) = None -> s ∈ l;
go_there s : s ∈ l -> sheet_of to (sh_id s) = None -> s ∈ m_sheets m
}.

Lemma two_sheets m s1 s2 : s1 ∈ m_sheets m -> s2 ∈ m_sheets m -> s1 <> s2 -> (length (m_sheets m) =? 1)%nat = false.
Proof.
destruct (m_sheets m) as [|a [|b l]]; [by intros ?%elem_of_nil| |done].
intros ->%list_elem_of_singleton ->%list_elem_of_singleton. done.
Qed.

Lemma sheet_of_some m s : s ∈ m_sheets m -> is_Some (sheet_of m (sh_id s)).
Proof.
intros Hin. unfold sheet_of. apply fmap_is_Some. apply (list_find_elem_of _ _ s Hin). by apply has_id_spec.
Qed.

Lemma going_all l : forall m, NoDup (sh_id <$> l) -> going m l -> exists m', run m (removals l) = Ok m' /\ going m' [].
Proof.
induction l as [|s l IH]; intros m Hn Hg; [by exists m|]. rewrite fmap_cons in Hn. apply NoDup_cons in Hn as [Hs Hn].
pose proof Hg as [Hk Hl Hd Hr Ht]. unfold removals. cbn [flat_map]. fold (removals l).
destruct (sheet_of to (sh_id s)) as [t|] eqn:Et.
- destruct (IH m Hn) as (m' & E & Hg'); [|by exists m']. split; [done..| |].
+ intros x Hx Ex. apply Hr in Hx as [->|Hx]%elem_of_cons; [congruence|done|done].
+ intros x Hx. apply Ht. by right.
- assert (Hin : s ∈ m_sheets m) by (apply Ht; [left|done]).
destruct (m_sheets to) as [|t l0] eqn:El; [by destruct (cmp_some Hc)|].
assert (Htin : t ∈ m_sheets to) by (rewrite El; left).
destruct (Hd t ltac:(left)) as (t' & Et' & _). apply sheet_of_spec in Et' as [Ht' Eid]; [|done].
assert (Hne : s <> t').
{ intros ->. rewrite Eid in Et. destruct (sheet_of_some to t Htin) as [? E']. congruence. }
cbn [app run]. unfold apply at 1. rewrite not_behind. cbn [mbind Result_bind apply_one].
rewrite (two_sheets m s t') by done. destruct (sheet_of_gone m (sh_id s) Hk) as [Hk' Hf'].
cbn [mbind Result_bind]. apply IH; [done|]. rewrite <- El in *. split; [done|done| | |].
+ intros new Hnew. rewrite Hf', decide_False; [by apply Hd|]. intros E'.
destruct (sheet_of_some to new Hnew) as [? E'']. rewrite E' in E''. congruence.
+ intros x. simpl. intros [Hid Hx]%list_elem_of_filter Ex. apply Hr in Hx as [->|Hx]%elem_of_cons; [|done|done].
unfold has_id in Hid. by rewrite bool_decide_eq_true_2 in Hid.
+ intros x Hx Ex. simpl. apply list_elem_of_filter. split; [|apply Ht; [by right|done]].
unfold has_id. apply bool_decide_eq_false. intros E'. apply Hs. rewrite <- E'. by apply list_elem_of_fmap_2.
Qed.

(** ** Both *)

Lemma compare_gives : exists m, run from (compare from to) = Ok m /\
m_looks m = m_looks from /\
(forall new, new ∈ m_sheets to -> exists s, sheet_of m (sh_id new) = Some s /\ shows (old_of new) s new) /\
(forall s, s ∈ m_sheets m -> is_Some (sheet_of to (sh_id s))).
Proof.
destruct (partly_all (m_sheets to) from []) as (m1 & E1 & [Hk Hn Hl Hd Hr]).
{ done. }
{ split; [apply (cmp_from Hc)|unfold len; simpl; lia|done|by intros ? ?%elem_of_nil|done]. }
assert (Hg : going m1 (m_sheets from)).
{ assert (Hno : forall s, sheet_of to (sh_id s) = None -> sheet_of m1 (sh_id s) = sheet_of from (sh_id s)).
{ intros s Es. apply Hr. intros (x & Ex & Hx)%list_elem_of_fmap. destruct (sheet_of_some to x Hx) as [? Es']. congruence. }
pose proof (cmp_from Hc) as Hkf. split; [done..| |].
- intros s Hs Es. apply (sheet_of_in _ (sh_id s)); [done|]. rewrite <- (Hno s Es). by apply in_sheet_of.
- intros s Hs Es. apply (sheet_of_in _ (sh_id s)); [done|]. rewrite (Hno s Es). by apply in_sheet_of. }
destruct (going_all (m_sheets from) m1 (cmp_from Hc) Hg) as (m2 & E2 & [_ Hl2 Hd2 Hr2 _]).
exists m2. split; [|split; [done|split; [done|]]].
- unfold compare. by rewrite run_changes_app, E1.
- intros s Hs. destruct (sheet_of to (sh_id s)) as [t|] eqn:Et; [by eexists|]. by apply (Hr2 s Hs), elem_of_nil in Et.
Qed.
End reach.
