(* ===== verification/SheetClaims.v ===== *)
(** What holds of spreadsheets. *)

From S2P Require Import Prelude Json Utf Contract Format SheetFormula SheetModel SheetOps.
From S2P Require Import SheetApply SheetNames SheetLines SheetReach.
Open Scope N_scope.

(** The lines that take the place of a range when lines are put in or taken out: those that
    the lines of the range move to, and the new ones that are inside it. *)
Definition takes_place {E} (s : Shift) (first last y : N) : Prop :=
  (exists x, first <= x <= last /\ shift_line (E:=E) s x = Ok (Some y)) \/
  ((0 < sh_count s)%Z /\ first < sh_at s <= last /\ sh_at s <= y < sh_at s + amount s).

Lemma takes_place_image {E} s first last y : fits s last -> takes_place (E:=E) s first last y <-> image s first last y.
Proof.
  intros [Ha Hl]. assert (Hx : forall x, x <= last -> fits s x) by (intros x Hx; split; [done|]; intros Hc; specialize (Hl Hc); lia).
  unfold takes_place, image. split; (intros [(x & Hr & Es)|Hn]; [left; exists x|by right]); (split; [done|]).
  - rewrite shift_line_ok in Es by (apply Hx; lia). by injection Es as ->.
  - rewrite shift_line_ok by (apply Hx; lia). by rewrite Es.
Qed.

(** Put in, or taken out with a count below 0. *)
Definition change_lines (rows : bool) (id : text) (at_ : N) (count : Z) : Change :=
  if rows then Rows id at_ count else Columns id at_ count.

Lemma apply_lines `{Unicode} m rows id at_ count : apply m (change_lines rows id at_ count) [] =
  m ← move_lines m id at_ count rows; Ok (m, change_lines rows id at_ count).
Proof. by destruct rows. Qed.

Lemma apply_lines_ok `{Unicode} m rows id at_ count since m' c : apply m (change_lines rows id at_ count) since = Ok (m', c) ->
  move_lines m id at_ count rows = Ok m'.
Proof.
  unfold apply. destruct (is_behind _ since); [done|]. intros (c1 & E1 & E2)%ok_inv.
  destruct rows; injection E1 as <-; cbn [apply_one] in E2; by apply ok_inv in E2 as (m1 & -> & [= <- _]).
Qed.

(** * The claims *)

Section claims.
Context `{Unicode}.

(** A change that went in a workbook, as the views see it, goes in the same workbook
again when nothing is after its base, gives the same workbook, and shows the same: so
the journal of a workbook makes it again, though a change of looks, or the ops of an
agent, became another change when it went in. *)
Theorem sheet_changes_replay m change since m' change' :
apply m change since = Ok (m', change') -> apply m change' [] = Ok (m', change').
Proof. apply apply_again. Qed.

(** The name of any range of the grid reads back as the range, whichever its corners are,
and so does the name of a cell. *)
Theorem cell_names_read_back {E} top left_ bottom right_ : in_grid top left_ -> in_grid bottom right_ ->
exists name, range_name (E:=E) (top, left_, bottom, right_) = Ok name /\ parse_range name = Some (top, left_, bottom, right_).
Proof. apply range_reads. Qed.

(** When lines are put in or taken out, a range covers just the lines that take the place
of its own: where its lines went to and the new ones inside it.  It goes when none is
left. *)
Theorem spans_follow_lines {E} s first last : first <= last -> fits s last ->
exists r, span (E:=E) s first last = Ok r /\ match r with
| Some (a, b) => forall y, a <= y <= b <-> takes_place (E:=E) s first last y
| None => forall y, ~ takes_place (E:=E) s first last y
end.
Proof.
intros Hle Hf. assert (Hi : forall y, takes_place (E:=E) s first last y <-> image s first last y) by (intros; by apply takes_place_image).
destruct (Z.le_gt_cases 0 (sh_count s)) as [Hc|Hc].
- destruct (span_inserted (E:=E) s first last Hle Hf Hc) as (a & b & E1 & Hab). exists (Some (a, b)). split; [done|].
intros y. by rewrite Hab, Hi.
- destruct (span_deleted (E:=E) s first last Hle Hf Hc) as (r & E1 & Hr). exists r. split; [done|].
destruct r as [[a b]|]; intros y; [by rewrite Hr, Hi|]. rewrite Hi. intros [(x & Hx & Ex)|[Hp _]]; [|lia].
by rewrite (Hr x Hx) in Ex.
Qed.

(** Rows or columns that were put in can be taken out again: that never fails and never
panics, whatever the formulas, names, merges and anchors of the workbook are, and every
cell, merge, size and look is back in its place. *)
Theorem lines_come_back m rows id at_ n since m1 c : (0 < n)%Z ->
apply m (change_lines rows id at_ n) since = Ok (m1, c) ->
exists m2, apply m1 (change_lines rows id at_ (- n)) [] = Ok (m2, change_lines rows id at_ (- n)) /\
model_shape m2 = model_shape m.
Proof.
intros Hn E1%apply_lines_ok. destruct (lines_return at_ n Hn _ _ _ _ E1) as (m2 & E2 & Hs).
exists m2. by rewrite apply_lines, E2.
Qed.

(** C24. Where ids and names are no two sheets' and no new sheet takes a name that is there, the
changes that [compare] finds between two workbooks all go in one after the other, and leave each
sheet of the other workbook with its name, cells (with the same index of their look) and merges,
and no other sheet.  Each line that has a size in the other workbook has it; any other line keeps
the size that it had, and the looks that the indexes name stay those that there were. *)
Theorem compare_reaches from to : comparable from to ->
exists m, run from (compare from to) = Ok m /\ m_looks m = m_looks from /\
(forall new, new ∈ m_sheets to -> exists s, sheet_of m (sh_id new) = Some s /\ shows (old_of from new) s new) /\
(forall s, s ∈ m_sheets m -> is_Some (sheet_of to (sh_id s))).
Proof. apply compare_gives. Qed.
End claims.

(* ------------------------------------------------------------ *)

(** The claims of spreadsheets at small workbooks, and what goes wrong in some. *)

Open Scope N_scope.

#[local] Instance ascii : Unicode := fun _ => false.

Definition plain (v : CellValue) : Cell := MkCell (Some v) None None.
Definition formula (f : string) : Cell := MkCell None (Some (Utf.chars f)) (Some 1).

(** A sheet with a sum, a merge and sizes. *)
Definition costs (id name : string) (cells : list ((N * N) * Cell)) : Sheet :=
  MkSheet (Utf.chars id) 1 (Utf.chars name) None (list_to_map cells) [(0, 0, 0, 1)] {[2 := 4621819117588971520]} {[1 := 4626322717216342016]}
    ∅ ∅ [] false.

Definition book : Model := MkModel
  [costs "1" "Costs" [((0, 0), plain (Text (lit "Rent"))); ((1, 0), plain (Number 4607182418800017408)); ((2, 0), formula "SUM(A1:A2)+A3:A3")];
   costs "2" "More" [((4, 1), formula "Costs!A$2*2")]] [] [MkDefinedName (lit "total") None (lit "Costs!$A$1:$A$2")] 2.

(** An agent formats cells, which becomes a change of their style. *)
Definition agent_ops : Change := Ops [FormatRange (lit "Costs") (lit "A1:B2") (MkLook true false false false None None None None None None None false);
  SetCell (lit "More") (lit "C3") (Some (Boolean true)) None].

Lemma sheet_changes_replay_witness :
  match apply book agent_ops [] with
  | Ok (m', change') => change' <> agent_ops /\ apply book change' [] = Ok (m', change')
  | _ => False
  end.
Proof.
  destruct (apply book agent_ops []) as [[m' change']| |] eqn:E; [|vm_compute in E; discriminate E..].
  split; [|exact (sheet_changes_replay book agent_ops [] m' change' E)].
  intros ->. vm_compute in E. discriminate E.
Defined.

Lemma cell_names_read_back_witness :
  (in_grid 9 27 /\ in_grid 12 16383) /\
  exists name, range_name (E:=Refused) (9, 27, 12, 16383) = Ok name /\ parse_range name = Some (9, 27, 12, 16383).
Proof.
  assert (H1 : in_grid 9 27 /\ in_grid 12 16383) by (unfold in_grid, U32; lia).
  split; [exact H1|]. exact (cell_names_read_back 9 27 12 16383 (proj1 H1) (proj2 H1)).
Defined.

Example range_name_letters : range_name (E:=Refused) (9, 27, 12, 16383) = Ok (lit "AB10:XFD13").
Proof. vm_compute. reflexivity. Qed.

Lemma spans_follow_lines_witness :
  fits (MkShift 3 (-2)) 9 /\
  exists r, span (E:=Refused) (MkShift 3 (-2)) 4 9 = Ok r /\ match r with
  | Some (a, b) => forall y, a <= y <= b <-> takes_place (E:=Refused) (MkShift 3 (-2)) 4 9 y
  | None => forall y, ~ takes_place (E:=Refused) (MkShift 3 (-2)) 4 9 y
  end.
Proof.
  assert (Hf : fits (MkShift 3 (-2)) 9) by (split; [reflexivity|intros Hc; vm_compute in Hc; congruence]).
  split; [exact Hf|]. apply (spans_follow_lines (E:=Refused) (MkShift 3 (-2)) 4 9); [lia|exact Hf].
Defined.

Lemma lines_come_back_witness :
  match apply book (change_lines true (lit "1") 1 3) [] with
  | Ok (m1, c) => exists m2, apply m1 (change_lines true (lit "1") 1 (-3)) [] = Ok (m2, change_lines true (lit "1") 1 (-3)) /\
      model_shape m2 = model_shape book
  | _ => False
  end.
Proof.
  destruct (apply book (change_lines true (lit "1") 1 3) []) as [[m1 c]| |] eqn:E; [|vm_compute in E; discriminate E..].
  exact (lines_come_back book true (lit "1") 1 3 [] m1 c eq_refl E).
Defined.

(** The same workbook as another program left it. *)
Definition other_book : Model := MkModel
  [costs "1" "Costs" [((0, 0), plain (Text (lit "Heat"))); ((2, 0), formula "SUM(A1:A2)")];
   costs "3" "New" [((4, 1), plain (Boolean true))]] [] [] 3.

Lemma book_comparable : comparable book other_book.
Proof.
  split.
  - apply (bool_decide_unpack _). by vm_compute.
  - apply (bool_decide_unpack _). by vm_compute.
  - apply (bool_decide_unpack _). by vm_compute.
  - intros new s Hnew Hfrom Hs Heq. cbn [m_sheets book other_book] in *.
    apply elem_of_cons in Hnew as [->|Hnew]; [vm_compute in Hfrom; discriminate Hfrom|].
    apply list_elem_of_singleton in Hnew as ->.
    apply elem_of_cons in Hs as [->|Hs]; [vm_compute in Heq; discriminate Heq|].
    apply list_elem_of_singleton in Hs as ->. vm_compute in Heq. discriminate Heq.
  - by vm_compute.
  - done.
Defined.

Lemma compare_reaches_witness : comparable book other_book /\
  exists m, run book (compare book other_book) = Ok m /\ m_looks m = [] /\
    (forall new, new ∈ m_sheets other_book -> exists s, sheet_of m (sh_id new) = Some s /\ shows (old_of book new) s new) /\
    (forall s, s ∈ m_sheets m -> is_Some (sheet_of other_book (sh_id s))).
Proof. split; [exact book_comparable|]. exact (compare_reaches book other_book book_comparable). Defined.

(** ** What goes wrong *)

(** A sheet that another program made anew keeps its name and gets another id.  What it holds
    does not go in, as the name is there. *)
Definition remade : Model := MkModel [costs "2" "Costs" [((0, 0), plain (Boolean true))]] [] [] 2.
Definition single : Model := MkModel [costs "1" "Costs" [((0, 0), plain (Boolean false))]] [] [] 1.

Example remade_sheet_is_refused :
  match compare single remade with
  | AddSheet id name :: more =>
      apply single (AddSheet id name) [] = Err (Invalid (say [lit "The sheet "; name; lit " is there already."])) /\
      forallb (fun change => match apply single change [] with Err _ => true | _ => false end) more = true
  | _ => False
  end.
Proof. by vm_compute. Qed.

(** Another program gives a column its usual width again: no change is found, and the width stays. *)
Definition usual_width : Model := MkModel
  [MkSheet (lit "1") 1 (lit "Costs") None {[(0, 0) := plain (Boolean false)]} [(0, 0, 0, 1)] ∅ {[1 := 4626322717216342016]}
    ∅ ∅ [] false] [] [] 1.
Example removed_width_stays : compare single usual_width = [].
Proof. vm_compute. reflexivity. Qed.

(** Another program makes a cell bold, with a look that the styles of its file hold: the cell gets
    the index of the look, and the workbook has no look of that index. *)
Definition bold_cell : Model := MkModel [costs "1" "Costs" [((0, 0), MkCell (Some (Boolean false)) None (Some 0))]]
  [MkLook true false false false None None None None None None None false] [] 1.
Example new_look_is_missing :
  match run single (compare single bold_cell) with
  | Ok m => m_looks m = [] /\ (s ← m_sheets m !! 0%nat; c ← sh_cells s !! (0, 0); c_style c) = Some 0
  | _ => False
  end.
Proof. vm_compute. done. Qed.

(** The number of lines that has no absolute value. *)
Example least_count_panics : apply book (Rows (lit "1") 0 (-2147483648)) [] = Panic.
Proof. vm_compute. reflexivity. Qed.

(** A reference near the end of the numbers, and an insertion. *)
Definition far_book : Model := MkModel [costs "1" "Costs" [((0, 0), formula "A4294967295")]] [] [] 1.
Example far_reference_panics : apply far_book (Rows (lit "1") 0 5) [] = Panic.
Proof. vm_compute. reflexivity. Qed.

(** A cell in the last row that a number has. *)
Definition last_row : Change := Cells (lit "1") [MkCellChange 4294967295 0 (Some (Some (Boolean true))) None None None].
Example last_row_goes_in_and_panics :
  match apply single last_row [] with
  | Ok (m, _) => match m_sheets m with s :: _ => size (E:=Refused) s = Panic | [] => False end
  | _ => False
  end.
Proof. vm_compute. reflexivity. Qed.

(** An agent that read before rows moved writes in the wrong cell: ops are never behind. *)
Example ops_miss_moved_rows :
  is_behind agent_ops [MkOrdered 1 "a" "c" 1 (Rows (lit "1") 0 1)] = false /\
  check_conflicts [SetCell (lit "Costs") (lit "A1") None None] book [MkOrdered 1 "a" "c" 1 (Rows (lit "1") 0 1)] = Ok tt.
Proof. vm_compute. done. Qed.

(** A viewer says that they are in the last row, and the first agent that asks who is there
    ends the document. *)
Definition last_place : Value := Object [("column", Num (PosInt 0)); ("row", Num (PosInt 4294967295)); ("sheet", Str "1")]%string.
Example last_place_panics : describe single last_place = Panic.
Proof. by vm_compute. Qed.
