(* ===== verification/TextBlocks.v ===== *)
(** The top-level blocks of a document, from its tokens: what stays of the tokens at either
    side of a change keeps its blocks. *)

From S2P Require Import Prelude Json TextMap TextData TextSchema TextNode TextResolved TextReplace.
From S2P Require Import TextTokens TextCut TextReplaceSpec TextSlice TextTake TextStep TextStepSpec.
From S2P Require Import TextMarks.
Open Scope nat_scope.

(** The tokens of the block that is open, and how deep it is. *)
Definition state : Type := (list token * nat).

(** One token: the blocks that it ends. *)
Definition scan_one (s : state) (t : token) : list (list token) * state :=
let '(open, depth) := s in
match t with
| TOpen _ _ _ => ([], (open ++ [t], S depth))
| TClose => match depth with S (S depth) => ([], (open ++ [t], S depth)) | _ => ([open ++ [t]], ([], 0)) end
| TLeaf _ => match depth with O => ([[t]], ([], 0)) | _ => ([], (open ++ [t], depth)) end
| TUnit _ _ _ _ => match depth with O => ([], ([], 0)) | _ => ([], (open ++ [t], depth)) end
end.

Fixpoint scan (s : state) (l : list token) : list (list token) * state :=
match l with
| [] => ([], s)
| t :: l => let '(blocks, s) := scan_one s t in let '(more, s) := scan s l in (blocks ++ more, s)
end.

Definition start_state : state := ([], 0).

(** A block that is no text. *)
Definition is_block (n : Node) : bool := negb (Node.is_text n).
Definition blocks (l : list Node) : list Node := List.filter is_block l.

Lemma scan_app s l1 l2 : scan s (l1 ++ l2) =
  let '(b1, s1) := scan s l1 in let '(b2, s2) := scan s1 l2 in (b1 ++ b2, s2).
Proof.
  revert s. induction l1 as [|t l1 IH]; intros s; simpl.
  - by destruct (scan s l2).
  - destruct (scan_one s t) as [b s1]. rewrite IH. destruct (scan s1 l1) as [b1 s2]. destruct (scan s2 l2) as [b2 s3].
    by rewrite app_assoc.
Qed.

Lemma flatten_eq kind attrs content size marks text leaf :
  flatten (MkNode kind attrs (MkFragment content size) marks text leaf) =
  match text with
  | Some units => TUnit kind attrs marks <$> units
  | None => if leaf then [TLeaf (MkNode kind attrs (MkFragment content size) marks text leaf)]
            else TOpen kind attrs marks :: flat_map flatten content ++ [TClose]
  end.
Proof. by destruct text. Qed.

Lemma scan_units_deep kind attrs marks us : forall open d,
  scan (open, S d) (TUnit kind attrs marks <$> us) = ([], (open ++ (TUnit kind attrs marks <$> us), S d)).
Proof.
  induction us as [|u us IH]; intros open d; [by rewrite app_nil_r|]. rewrite fmap_cons. cbn [scan scan_one].
  rewrite IH. simpl. by rewrite <- app_assoc.
Qed.

Lemma scan_units_top kind attrs marks us : scan start_state (TUnit kind attrs marks <$> us) = ([], start_state).
Proof. induction us as [|u us IH]; [done|]. rewrite fmap_cons. cbn [scan scan_one start_state]. unfold start_state in IH. by rewrite IH. Qed.

Lemma scan_flatten_deep n : forall open d, scan (open, S d) (flatten n) = ([], (open ++ flatten n, S d)).
Proof.
  induction n as [kind attrs content size marks text leaf IH] using node_tree_ind. intros open d. rewrite flatten_eq.
  destruct text as [units|].
  - apply scan_units_deep.
  - destruct leaf; [done|]. cbn [scan scan_one]. rewrite scan_app.
    assert (Hc : forall open d, scan (open, S d) (flat_map flatten content) = ([], (open ++ flat_map flatten content, S d))).
    { clear -IH. induction IH as [|n content Hn _ IHc]; intros open d; [by rewrite app_nil_r|]. cbn [flat_map].
      rewrite scan_app, Hn, IHc. simpl. by rewrite app_assoc. }
    rewrite Hc. simpl. by rewrite <- !app_assoc.
Qed.

Lemma scan_flatten_top n : scan start_state (flatten n) = (if is_block n then [flatten n] else [], start_state).
Proof.
  destruct n as [kind attrs [content size] marks text leaf]. rewrite flatten_eq. unfold is_block, Node.is_text. cbn [n_text].
  destruct text as [units|].
  - apply scan_units_top.
  - cbn [negb]. destruct leaf; [done|]. cbn [scan scan_one start_state]. rewrite scan_app.
    assert (Hc : forall open, scan (open, 1) (flat_map flatten content) = ([], (open ++ flat_map flatten content, 1))).
    { induction content as [|n content IH]; intros open; [by rewrite app_nil_r|]. cbn [flat_map].
      rewrite scan_app, scan_flatten_deep, IH. simpl. by rewrite app_assoc. }
    rewrite Hc. simpl. done.
Qed.

(** The blocks of a list of nodes are those that its tokens end. *)
Lemma scan_flat l : scan start_state (flat l) = (flatten <$> blocks l, start_state).
Proof.
  induction l as [|n l IH]; [done|]. rewrite flat_cons, scan_app, scan_flatten_top, IH. simpl.
  by destruct (is_block n).
Qed.

Definition sound_state (s : state) : Prop := s.2 = 0 -> s.1 = [].

Lemma scan_sound l : forall s, sound_state s -> sound_state (scan s l).2.
Proof.
  induction l as [|t l IH]; intros s Hs; [done|]. cbn [scan]. destruct (scan_one s t) as [b s1] eqn:E1.
  assert (Hs1 : sound_state s1).
  { destruct s as [open depth]. unfold sound_state in *. destruct t; simpl in E1; repeat case_match; injection E1 as <- <-; simpl in *; done. }
  specialize (IH s1 Hs1). by destruct (scan s1 l).
Qed.

Lemma scan_flat_deep l : forall open d, scan (open, S d) (flat l) = ([], (open ++ flat l, S d)).
Proof.
  induction l as [|n l IH]; intros open d; [by rewrite app_nil_r|]. rewrite flat_cons, scan_app, scan_flatten_deep, IH.
  simpl. by rewrite app_assoc.
Qed.

(** Nodes whose tokens are at the ends of those of a list have their blocks at its ends. *)
Lemma blocks_stay l pre post X : flat l = flat pre ++ X ++ flat post ->
  exists new, flatten <$> blocks l = (flatten <$> blocks pre) ++ new ++ (flatten <$> blocks post).
Proof.
  intros E. pose proof (scan_flat l) as Hl. rewrite E, scan_app, scan_flat, scan_app in Hl.
  assert (Hs : sound_state (scan start_state X).2) by by apply scan_sound.
  destruct (scan start_state X) as [bx [open depth]]. cbn [snd fst] in Hs. exists bx. destruct depth as [|depth].
  - unfold sound_state in Hs. simpl in Hs. rewrite Hs in Hl by done. change ([], 0) with start_state in Hl. rewrite scan_flat in Hl. congruence.
  - rewrite scan_flat_deep in Hl. unfold start_state in Hl. congruence.
Qed.

(** ** Around a position *)

Section around.
Context {schema : Schema}.
Local Abbreviation wfn n := (wf_node schema n = true).

Lemma resolve_index doc pos r : wfn doc -> Resolved.resolve doc pos = Ok r ->
exists index offset, Resolved.index r 0 = Ok index /\ found (f_content (n_content doc)) pos index offset /\
pos <= length (toks (n_content doc)).
Proof.
intros Hw Er. pose proof (f_size_toks (schema:=schema) _ (wf_content _ Hw)) as Sd.
destruct (resolve_ok (schema:=schema) doc pos r Hw Er) as [Hp [_ Hpath]]. rewrite Sd in Hp.
assert (Hh : exists l path off, r_path r = l :: path /\ found (f_content (n_content doc)) pos (l_index l) off).
{ destruct Hpath; eauto. }
destruct Hh as (l & path & off & Epath & Hf). exists (l_index l), off. unfold Resolved.index, Resolved.level. by rewrite Epath.
Qed.

(** A step changes nothing before and after its range. *)
Lemma step_local step doc doc' : wfn doc -> n_text doc = None -> step_ok (schema:=schema) step doc ->
Step.apply schema step doc = Ok doc' ->
match Step.range step with
| None => toks (n_content doc') = toks (n_content doc)
| Some (from, to) => exists upto new, toks (n_content doc') = take from (toks (n_content doc)) ++ new ++ drop upto (toks (n_content doc)) /\
(upto = to \/ upto = S to /\ to < length (toks (n_content doc)))
end.
Proof.
intros Hw Ht Hok E. apply (apply_outcome (schema:=schema)) in E as (_ & _ & _ & Ho); [|done..].
assert (Hnode : forall pos attrs marks T', node_changed (schema:=schema) doc pos attrs marks T' -> exists upto new,
T' = take pos (toks (n_content doc)) ++ new ++ drop upto (toks (n_content doc)) /\ (upto = pos \/ upto = S pos /\ pos < length (toks (n_content doc)))).
{ intros pos attrs marks T' (node & built & nm & _ & _ & _ & Hl & ->). apply lookup_lt_Some in Hl.
eexists (S pos), [_]. split; [by rewrite insert_take_drop|]. by right. }
destruct step; simpl in *; try by eapply Hnode; [by rewrite Ho|..]; eauto. all: try (eexists _, _; split; [exact Ho|by left]).
all: try by eapply Hnode. done.
Qed.

Lemma node_replace_range doc from to s doc' : node_replace schema doc from to s = Ok doc' ->
from <= f_size (n_content doc) /\ to <= f_size (n_content doc).
Proof.
unfold node_replace. intros (r & E1 & (r' & E2 & _)%bind_ok)%bind_ok.
split; apply Nat.nlt_ge; intros Hgt; [rewrite (resolve_err doc from) in E1 by done|rewrite (resolve_err doc to) in E2 by done]; done.
Qed.

(** The range of a step that went in is in the document. *)
Lemma step_in_range step doc doc' : Step.apply schema step doc = Ok doc' ->
match Step.range step with Some (from, to) => from <= f_size (n_content doc) /\ to <= f_size (n_content doc) | None => True end.
Proof.
destruct step as [from to s st|from to gf gt s ins st|from to m|from to m|pos m|pos m|pos a v|a v]; cbn [Step.apply Step.range]; [| | | | | | |done].
- intros ([] & _ & E)%bind_ok; [done|]. by eapply node_replace_range.
- intros ([] & _ & E)%bind_ok; [done|]. apply bind_ok in E as (gap & _ & E). destruct (_ || _); [done|].
apply bind_ok in E as ([ins'|] & _ & E); [|done]. by eapply node_replace_range.
- unfold Step.add_mark. intros (o & _ & (r & _ & (k & _ & (n & _ & (c & _ & E)%bind_ok)%bind_ok)%bind_ok)%bind_ok)%bind_ok.
by eapply node_replace_range.
- unfold Step.remove_mark. intros (o & _ & (c & _ & E)%bind_ok)%bind_ok. by eapply node_replace_range.
- intros ([n|] & _ & E)%bind_ok; [|done]. apply bind_ok in E as (ms & _ & (u & _ & (t & _ & E)%bind_ok)%bind_ok).
by apply node_replace_range in E as [? _].
- intros ([n|] & _ & E)%bind_ok; [|done]. apply bind_ok in E as (u & _ & (t & _ & E)%bind_ok). by apply node_replace_range in E as [? _].
- unfold Step.set_attr. intros ([n|] & _ & E)%bind_ok; [|done]. apply bind_ok in E as (u & _ & (t & _ & E)%bind_ok).
by apply node_replace_range in E as [? _].
Qed.

(** The children of a document that a range leaves out. *)
Definition outside (low high : nat) (l : list Node) : list Node := take low l ++ drop (S high) l.

Lemma around_blocks doc l' from to upto first last low high new : wfn doc ->
Resolved.resolve doc from = Ok first -> Resolved.index first 0 = Ok low ->
Resolved.resolve doc to = Ok last -> Resolved.index last 0 = Ok high ->
flat l' = take from (toks (n_content doc)) ++ new ++ drop upto (toks (n_content doc)) ->
(upto = to \/ upto = S to /\ to < length (toks (n_content doc))) ->
flatten <$> blocks (outside low high (f_content (n_content doc))) `sublist_of` flatten <$> blocks l'.
Proof.
intros Hw E1 I1 E2 I2 El Hu. pose proof (wf_content _ Hw) as [_ Hl].
destruct (resolve_index _ _ _ Hw E1) as (low' & off1 & I1' & (Ho1 & Hi1 & Hf1) & Hp1). rewrite I1 in I1'. injection I1' as <-.
destruct (resolve_index _ _ _ Hw E2) as (high' & off2 & I2' & (Ho2 & Hi2 & Hf2) & Hp2). rewrite I2 in I2'. injection I2' as <-.
set (l := f_content (n_content doc)) in *. change (toks (n_content doc)) with (flat l) in *.
assert (Ha : exists a, take from (flat l) = flat (take low l) ++ a).
{ exists (take (from - off1) (flat (drop low l))). rewrite <- (take_drop low l) at 1. rewrite flat_app, take_app_ge; [by rewrite Ho1|].
rewrite <- Ho1. destruct Hf1 as [->|(c & _ & Hc)]; lia. }
assert (Hb : exists b, drop upto (flat l) = b ++ flat (drop (S high) l)).
{ assert (Hend : upto <= length (flat (take (S high) l)) \/ length l <= high).
{ destruct (decide (high < length l)) as [Hlt|Hge]; [left|right; lia].
destruct (lookup_lt_is_Some_2 l high Hlt) as [c Ec]. rewrite (take_S_r _ _ _ Ec), flat_app, length_app, flat_singleton, <- Ho2.
assert (Hwc : wfn c) by by eapply wf_list_lookup. rewrite <- (node_size_flatten (schema:=schema)) by done.
pose proof (node_size_pos (schema:=schema) c Hwc).
destruct Hf2 as [Heq|(c' & Hc' & Hin)]; [lia|]. assert (c' = c) as -> by congruence. lia. }
destruct Hend as [Hend|Hend].
- exists (drop upto (flat (take (S high) l))). rewrite <- (take_drop (S high) l) at 1. by rewrite flat_app, drop_app_le.
- exists (drop upto (flat l)). rewrite (drop_ge l) by lia. by rewrite app_nil_r. }
destruct Ha as [a Ea], Hb as [b Eb]. rewrite Ea, Eb in El.
destruct (blocks_stay l' (take low l) (drop (S high) l) (a ++ new ++ b)) as [mid Em].
{ rewrite El. by rewrite <- !app_assoc. }
rewrite Em. unfold outside, blocks. rewrite List.filter_app, fmap_app. apply sublist_app; [done|]. by apply sublist_inserts_l.
Qed.
End around.

(* ------------------------------------------------------------ *)

(** A change of whole blocks at the top of a document: [Node::replace] at depth 0. *)

Open Scope nat_scope.

Definition total_size (l : list Node) : nat := sum_list_with Node.node_size l.

Lemma total_size_app l1 l2 : total_size (l1 ++ l2) = total_size l1 + total_size l2.
Proof. apply sum_list_with_app. Qed.

Lemma total_size_cons n l : total_size (n :: l) = Node.node_size n + total_size l.
Proof. done. Qed.

Lemma total_size_take i l : total_size (take i l) <= total_size l.
Proof. rewrite <- (take_drop i l) at 2. rewrite total_size_app. lia. Qed.

Section flat.
Context {schema : Schema}.
Local Abbreviation wfn n := (wf_node schema n = true).
Local Abbreviation wfl l := (wf_list schema l).

Lemma total_size_flat l : wfl l -> total_size l = length (flat l).
Proof. apply (sum_size_flat (schema:=schema)). Qed.

Lemma total_size_take_lt i j l : wfl l -> i < j -> i < length l -> total_size (take i l) < total_size (take j l).
Proof.
intros Hl Hij Hi. destruct (lookup_lt_is_Some_2 _ _ Hi) as [c Hc].
assert (take j l = take i l ++ c :: drop (S i) (take j l)) as ->.
{ rewrite <- (take_drop_middle (take j l) i c) at 1; [|by rewrite lookup_take_lt]. by rewrite take_take, Nat.min_l by lia. }
rewrite total_size_app, total_size_cons. assert (wfn c) by (by eapply wf_list_lookup). pose proof (node_size_pos (schema:=schema) c ltac:(done)). lia.
Qed.

Lemma boundary_index l pos i index offset : wfl l -> i <= length l -> pos = total_size (take i l) -> found l pos index offset ->
index = i /\ offset = pos.
Proof.
intros Hl Hi -> (Ho & Hin & Hf). rewrite <- total_size_flat in Ho by by apply wf_list_take.
assert (Hlt : forall a b, a < b -> b <= length l -> total_size (take a l) < total_size (take b l)) by (intros; apply total_size_take_lt; [done|lia..]).
destruct (Nat.lt_trichotomy index i) as [H|[->|H]].
- exfalso. destruct Hf as [E|(c & Hc & H1 & H2)]; [specialize (Hlt index i H Hi); lia|].
assert (Hs : total_size (take (S index) l) = offset + Node.node_size c).
{ rewrite (take_S_r _ _ _ Hc), total_size_app, total_size_cons, Ho. unfold total_size. simpl. lia. }
destruct (decide (S index = i)) as [<-|]; [lia|]. specialize (Hlt (S index) i ltac:(lia) Hi). lia.
- done.
- exfalso. specialize (Hlt i index H Hin). destruct Hf as [E|(c & Hc & H1 & H2)]; lia.
Qed.

(** A position between two blocks. *)
Definition between (doc : Node) (i : nat) : ResolvedPos :=
let p := total_size (take i (f_content (n_content doc))) in MkResolvedPos p [MkLevel doc i p] p.

Lemma resolve_between doc i : wfn doc -> i <= length (f_content (n_content doc)) ->
Resolved.resolve doc (total_size (take i (f_content (n_content doc)))) = Ok (between doc i).
Proof.
intros Hw Hi. set (p := total_size _). destruct (wf_content _ Hw) as [Hs Hl].
assert (Hp : p <= f_size (n_content doc)) by (rewrite Hs; apply total_size_take).
unfold Resolved.resolve. rewrite (proj2 (Nat.ltb_ge _ _)) by lia.
destruct (find_index_spec (schema:=schema) (n_content doc) p (wf_content _ Hw) Hp) as (index & offset & Ef & Hf).
destruct (boundary_index _ p i index offset Hl Hi eq_refl Hf) as [-> ->]. unfold between. fold p.
destruct doc as [kind attrs [content size] marks text leaf]. cbn [n_content Resolved.resolve_in] in *. rewrite Ef. cbn [mbind Result_bind].
unfold usub. rewrite (proj2 (Nat.leb_le p p)) by done. cbn [mbind Result_bind]. by rewrite Nat.sub_diag.
Qed.

(** ** Cuts between blocks *)

Lemma cut_loop_front l k : forall position, wfl l -> wfl k ->
exists stop, Fragment.cut_loop node_cut 0 (position + total_size l) (l ++ k) position = Ok (l, total_size l, stop) /\ position + total_size l <= stop.
Proof.
induction l as [|n l IH]; intros position.
- intros _ Hk. exists position. unfold total_size. simpl. rewrite Nat.add_0_r. destruct k; simpl; [done|]. by rewrite Nat.leb_refl.
- intros [Hn Hl]%Forall_cons Hk. pose proof (node_size_pos (schema:=schema) n Hn).
destruct (IH (position + Node.node_size n) Hl Hk) as (stop & E & Hs). exists stop.
rewrite total_size_cons, Nat.add_assoc in *. split; [|done].
simpl. rewrite (proj2 (Nat.leb_gt _ _)) by lia. rewrite (proj2 (Nat.ltb_lt _ _)) by lia. unfold Fragment.cut_child.
rewrite (proj2 (Nat.ltb_ge _ _)) by lia. rewrite (proj2 (Nat.ltb_ge _ _)) by lia. simpl. by rewrite E.
Qed.

Lemma cut_loop_back l k : forall position, wfl l -> wfl k -> 
Fragment.cut_loop node_cut (position + total_size l) (position + total_size l + total_size k) (l ++ k) position =
Ok (k, total_size k, position + total_size l + total_size k).
Proof.
induction l as [|n l IH]; intros position.
- intros _. unfold total_size at 1 2 4. simpl. rewrite !Nat.add_0_r.
assert (H : forall from to, from <= position -> to = position + total_size k -> wfl k ->
Fragment.cut_loop node_cut from to k position = Ok (k, total_size k, to)); [|intros; by apply H].
intros from. induction k as [|n k IHk] in position |- *; intros to Hf -> Hk.
{ unfold total_size. simpl. by rewrite Nat.add_0_r. }
apply Forall_cons in Hk as [Hn Hk]. pose proof (node_size_pos (schema:=schema) n Hn).
rewrite total_size_cons, Nat.add_assoc.
simpl. rewrite (proj2 (Nat.leb_gt _ _)) by lia. rewrite (proj2 (Nat.ltb_lt _ _)) by lia. unfold Fragment.cut_child.
rewrite (proj2 (Nat.ltb_ge _ _)) by lia. rewrite (proj2 (Nat.ltb_ge _ _)) by lia. simpl. rewrite (IHk (position + Node.node_size n)) by (lia || done). done.
- intros [Hn Hl]%Forall_cons Hk. pose proof (node_size_pos (schema:=schema) n Hn).
rewrite total_size_cons, !Nat.add_assoc.
simpl. rewrite (proj2 (Nat.leb_gt _ _)) by lia. rewrite (proj2 (Nat.ltb_ge _ _)) by lia. by apply IH.
Qed.
Lemma empty_of_size l : wfl l -> total_size l = 0 -> l = [].
Proof.
destruct l as [|n l]; [done|]. intros [Hn _]%Forall_cons. pose proof (node_size_pos (schema:=schema) n Hn). rewrite total_size_cons. lia.
Qed.

Lemma cut_to f l k : f = Fragment.new (l ++ k) -> wfl l -> wfl k -> Fragment.cut f 0 (total_size l) = Ok (Fragment.new l).
Proof.
intros -> Hl Hk. unfold Fragment.new at 1. cbn [Fragment.cut]. fold (total_size (l ++ k)). rewrite total_size_app.
destruct (Nat.eqb_spec (total_size l) (total_size l + total_size k)) as [E|E]; cbn [andb Nat.eqb].
- assert (k = []) as -> by (apply empty_of_size; [done|lia]). by rewrite app_nil_r, Nat.add_0_r.
- destruct (Nat.ltb_spec 0 (total_size l)).
+ destruct (cut_loop_front l k 0 Hl Hk) as (stop & Ec & Hs). change (Fragment.cut_node_with Fragment.cut) with node_cut.
simpl in Ec, Hs. rewrite Ec. cbn [mbind Result_bind]. by rewrite (proj2 (Nat.ltb_ge _ _)) by lia.
+ by assert (l = []) as -> by (apply empty_of_size; [done|lia]).
Qed.

Lemma cut_from f l k : f = Fragment.new (l ++ k) -> wfl l -> wfl k -> Fragment.cut_end f (total_size l) = Ok (Fragment.new k).
Proof.
intros -> Hl Hk. unfold Fragment.cut_end, Fragment.new at 1 2. cbn [Fragment.cut f_size]. fold (total_size (l ++ k)). rewrite total_size_app.
destruct (Nat.eqb_spec (total_size l) 0) as [E|E]; cbn [andb].
- assert (l = []) as -> by (by apply empty_of_size). by rewrite Nat.eqb_refl.
- destruct (Nat.ltb_spec (total_size l) (total_size l + total_size k)).
+ change (Fragment.cut_node_with Fragment.cut) with node_cut. pose proof (cut_loop_back l k 0 Hl Hk) as Ec. simpl in Ec. rewrite Ec.
cbn [mbind Result_bind]. by rewrite Nat.ltb_irrefl.
+ by assert (k = []) as -> by (apply empty_of_size; [done|lia]).
Qed.

(** ** What replaces them *)

Lemma block_not_text l i n : Forall (fun n => is_block n = true) l -> l !! i = Some n -> Node.is_text n = false.
Proof. intros Hb Hi. eapply Forall_lookup_1 in Hi; [|exact Hb]. unfold is_block in Hi. by destruct (Node.is_text n). Qed.

Lemma add_children_blocks node count : forall index target, Forall (fun n => is_block n = true) (f_content (n_content node)) ->
index + count <= length (f_content (n_content node)) ->
add_children node index count target = Ok (target ++ take count (drop index (f_content (n_content node)))).
Proof.
induction count as [|count IH]; intros index target Hb Hc; [by rewrite app_nil_r|]. cbn [add_children].
destruct (lookup_lt_is_Some_2 (f_content (n_content node)) index ltac:(lia)) as [c Ec]. unfold Fragment.child. rewrite Ec.
cbn [ok_or mbind Result_bind]. rewrite IH by (done || lia). pose proof (block_not_text _ _ _ Hb Ec) as Hn.
assert (add_node c target = target ++ [c]) as -> by (unfold add_node; destruct (last target); [by rewrite Hn|done]).
rewrite <- app_assoc. f_equal. f_equal. rewrite (drop_S _ _ _ Ec). done.
Qed.

Lemma close_blocks node l : Schema.valid_content schema (n_kind node) (Fragment.new l) = Ok true ->
close schema node (Fragment.new l) = Ok (Node.copy node (Fragment.new l)).
Proof. intros Hv. unfold close. by rewrite Hv. Qed.

Lemma append_blocks l k : wfl l -> wfl k -> Forall (fun n => is_block n = true) l ->
Fragment.append (Fragment.new l) (Fragment.new k) = Fragment.new (l ++ k).
Proof.
intros Hl Hk Hb. unfold Fragment.append. cbn [Fragment.new f_size f_content].
destruct (Nat.eqb_spec (sum_list_with Node.node_size k) 0) as [E|E].
{ apply empty_of_size in E as ->; [|done]. by rewrite app_nil_r. }
destruct (Nat.eqb_spec (sum_list_with Node.node_size l) 0) as [E'|E'].
{ by apply empty_of_size in E' as ->. }
unfold Fragment.new. rewrite sum_list_with_app. f_equal. destruct (last l) as [n|] eqn:El; [|done]. destruct k as [|m k]; [done|].
rewrite last_lookup in El. by rewrite (block_not_text _ _ _ Hb El).
Qed.

Lemma text_offset_between doc i : Resolved.text_offset (between doc i) = Ok 0.
Proof. unfold Resolved.text_offset, between, Resolved.level, usub. simpl. by rewrite Nat.leb_refl, Nat.sub_diag. Qed.

Lemma range_before doc i : Forall (fun n => is_block n = true) (f_content (n_content doc)) -> i <= length (f_content (n_content doc)) ->
add_range None (Some (between doc i)) 0 [] = Ok (take i (f_content (n_content doc))).
Proof.
intros Hb Hi. unfold add_range. cbn [Resolved.node Resolved.level Resolved.index between r_path lookup list_lookup or_panic l_node l_index fmap Result_fmap mbind Result_bind].
rewrite add_children_blocks by (done || lia). cbn [mbind Result_bind]. rewrite drop_0, Nat.sub_0_r. cbn [app].
change (Resolved.depth (between doc i) =? 0) with true. cbn iota.
fold (between doc i). by rewrite text_offset_between.
Qed.

Lemma range_after doc i target : Forall (fun n => is_block n = true) (f_content (n_content doc)) -> i <= length (f_content (n_content doc)) ->
add_range (Some (between doc i)) None 0 target = Ok (target ++ drop i (f_content (n_content doc))).
Proof.
intros Hb Hi. unfold add_range. rewrite text_offset_between.
cbn [Resolved.node Resolved.level Resolved.index Resolved.depth between r_path lookup list_lookup or_panic l_node l_index fmap Result_fmap mbind Result_bind length Nat.sub Nat.ltb Nat.leb Nat.eqb].
rewrite add_children_blocks by (unfold Node.child_count, Fragment.child_count; done || lia). cbn [mbind Result_bind].
rewrite take_ge; [done|]. rewrite length_drop. unfold Node.child_count, Fragment.child_count. lia.
Qed.
(** A slice of whole nodes, or none, takes the place of whole blocks. *)
Lemma node_replace_blocks doc pre mid post new : wfn doc -> f_content (n_content doc) = pre ++ mid ++ post ->
Forall (fun n => is_block n = true) (f_content (n_content doc)) -> wfl new -> Forall (fun n => is_block n = true) new ->
Schema.valid_content schema (n_kind doc) (Fragment.new (pre ++ new ++ post)) = Ok true ->
node_replace schema doc (total_size pre) (total_size pre + total_size mid) (MkSlice (Fragment.new new) 0 0) =
Ok (Node.copy doc (Fragment.new (pre ++ new ++ post))).
Proof.
intros Hw El Hb Hn Hbn Hv. pose proof (wf_content _ Hw) as [Hs Hl].
assert (Ef : n_content doc = Fragment.new (pre ++ mid ++ post)).
{ unfold Fragment.new. rewrite <- El, <- Hs. by destruct (n_content doc). }
pose proof Hl as Hl'. rewrite El in Hl'. apply Forall_app in Hl' as [Hpre [Hmid Hpost]%Forall_app].
set (l := f_content (n_content doc)) in *. set (i := length pre). set (j := length (pre ++ mid)).
assert (T1 : take i l = pre) by (unfold i; by rewrite El, take_app_length).
assert (T2 : take j l = pre ++ mid) by (unfold j; by rewrite El, app_assoc, take_app_length).
assert (T3 : drop j l = post) by (unfold j; by rewrite El, app_assoc, drop_app_length).
assert (L1 : i <= length l) by (unfold i; rewrite El, length_app; lia).
assert (L2 : j <= length l) by (unfold j; rewrite El, !length_app; lia).
pose proof (resolve_between doc i Hw L1) as R1. pose proof (resolve_between doc j Hw L2) as R2.
fold l in R1, R2. rewrite T1 in R1. rewrite T2, total_size_app in R2.
unfold node_replace. rewrite R1. cbn [mbind Result_bind]. rewrite R2. cbn [mbind Result_bind].
change (replace schema (between doc i) (between doc j) (MkSlice (Fragment.new new) 0 0)) with
(replace_outer_in schema 0 (between doc i) (between doc j) (MkSlice (Fragment.new new) 0 0) 0).
cbn [replace_outer_in s_content s_open_start s_open_end Resolved.index Resolved.node Resolved.level between r_path lookup list_lookup or_panic l_node l_index fmap Result_fmap mbind Result_bind].
fold (between doc i) (between doc j). cbn [Fragment.new f_size]. fold (total_size new).
destruct (Nat.eqb_spec (total_size new) 0) as [E|E].
- apply empty_of_size in E as ->; [|done]. unfold replace_two_way.
change (Resolved.depth (between doc i) - 0) with 0. cbn [replace_two_way_in]. rewrite range_before by done. cbn [mbind Result_bind].
rewrite range_after by done. cbn [mbind Result_bind]. fold l. rewrite T1, T3. by apply close_blocks.
- change (Resolved.depth (between doc i) =? 0) with true. change (Resolved.depth (between doc j) =? 0) with true. cbn [Nat.eqb andb].
cbn [Resolved.parent Resolved.node Resolved.level Resolved.depth between r_path r_parent_offset length Nat.sub lookup list_lookup or_panic l_node fmap Result_fmap mbind Result_bind].
fold l. rewrite T1, T2, (cut_to _ pre (mid ++ post)) by (done || by apply Forall_app). cbn [mbind Result_bind].
rewrite (cut_from _ (pre ++ mid) post) by (by rewrite <- ?app_assoc || by apply Forall_app || done). cbn [mbind Result_bind].
assert (Forall (fun n => is_block n = true) pre) by (rewrite El in Hb; by apply Forall_app in Hb as [? _]).
fold (Fragment.new new). rewrite append_blocks by done. rewrite append_blocks by (done || by apply Forall_app). rewrite <- app_assoc.
by apply close_blocks.
Qed.
End flat.
