(* ===== verification/DocxDiff.v ===== *)
(** [common_blocks] of [documents/crates/docx/src/apply.rs]: the blocks that two files keep, as
    pairs of indexes. *)

From stdpp Require Import sorting.
From S2P Require Import Prelude.
Open Scope nat_scope.

Definition MOST_COMPARED : N := 2000000.

Section diff.
Context {A : Type} `{EqDecision A} (from to : list A).

(** [from[index] == to[other]], where both are in range. *)
Definition same_at (index other : nat) : bool := bool_decide (from !! index = to !! other).

(** The loop on [start]. *)
Fixpoint grow_start (fuel start : nat) : nat :=
match fuel with
| O => start
| S fuel =>
if (start <? length from) && (start <? length to) && same_at start start then grow_start fuel (S start) else start
end.

(** The loop on [tail]. *)
Fixpoint grow_tail (start fuel tail : nat) : nat :=
match fuel with
| O => tail
| S fuel =>
if (start <? length from - tail) && (start <? length to - tail) && same_at (length from - tail - 1) (length to - tail - 1)
then grow_tail start fuel (S tail) else tail
end.

(** One row of the table, from its last column, over the row below. *)
Fixpoint fill_row (a : A) (columns : list A) (below : list nat) : list nat :=
match columns with
| [] => [0]
| b :: columns =>
let rest := fill_row a columns (tail below) in
(if decide (a = b) then default 0 (tail below !! 0) + 1 else Nat.max (default 0 (below !! 0)) (default 0 (rest !! 0))) :: rest
end.

(** The rows of the table, from the last one. *)
Fixpoint fill (rows columns : list A) : list (list nat) :=
match rows with
| [] => [replicate (length columns + 1) 0]
| a :: rows => let table := fill rows columns in fill_row a columns (default [] (table !! 0)) :: table
end.

(** The walk through the table. *)
Fixpoint trace (table : list (list nat)) (start rows columns fuel row column : nat) : list (nat * nat) :=
let cell row column := default 0 (table !! row ≫= (fun line => line !! column)) in
match fuel with
| O => []
| S fuel =>
if (row <? rows) && (column <? columns) then
if same_at (start + row) (start + column)
then (start + row, start + column) :: trace table start rows columns fuel (S row) (S column)
else if cell row (S column) <=? cell (S row) column then trace table start rows columns fuel (S row) column
else trace table start rows columns fuel row (S column)
else []
end.

Definition common_blocks : list (nat * nat) :=
let start := grow_start (length from) 0 in
let tail := grow_tail start (length from) 0 in
let from_end := length from - tail in
let to_end := length to - tail in
let rows := from_end - start in
let columns := to_end - start in
let middle :=
if (N.of_nat rows * N.of_nat columns <=? MOST_COMPARED)%N && (0 <? rows) && (0 <? columns) then
trace (fill (take rows (drop start from)) (take columns (drop start to))) start rows columns (rows + columns) 0 0
else [] in
((fun index => (index, index)) <$> seq 0 start) ++ middle ++ ((fun offset => (from_end + offset, to_end + offset)) <$> seq 0 tail).
End diff.

(** ** Common sublists *)

Section common.
Context {A : Type} `{EqDecision A}.

Definition common (l a b : list A) : Prop := l `sublist_of` a /\ l `sublist_of` b.

(** The most that two lists have in common. *)
Fixpoint most (a : list A) : list A -> nat :=
match a with
| [] => fun _ => 0
| x :: a => fix inner b :=
match b with
| [] => 0
| y :: b' => if decide (x = y) then most a b' + 1 else Nat.max (most a b) (inner b')
end
end.

Lemma most_nil_r a : most a [] = 0.
Proof. by destruct a. Qed.

Lemma most_cons x a y b : most (x :: a) (y :: b) =
if decide (x = y) then most a b + 1 else Nat.max (most a (y :: b)) (most (x :: a) b).
Proof. done. Qed.

Lemma sublist_tail (x : A) l k : x :: l `sublist_of` k -> l `sublist_of` k.
Proof. intros H. etrans; [|exact H]. by constructor. Qed.

Lemma most_bounds a : forall b l, common l a b -> length l <= most a b.
Proof.
induction a as [|x a IH]; intros b l.
{ intros [H _]. apply sublist_nil_r in H as ->. done. }
induction b as [|y b IHb] in l |- *; [intros [_ H]; apply sublist_nil_r in H as ->; done|].
rewrite most_cons. intros [Ha Hb]. destruct (decide (x = y)) as [<-|Hne].
- assert (Ht : forall l', common l' a b -> length l' <= most a b) by (intros; by apply IH).
apply sublist_cons_r in Ha as [Ha|(l1 & -> & Ha)], Hb as [Hb|(l2 & E2 & Hb)].
+ specialize (Ht l). unfold common in Ht. etrans; [by apply Ht|lia].
+ subst l. simpl. specialize (Ht l2 (conj (sublist_tail _ _ _ Ha) Hb)). lia.
+ simpl. specialize (Ht l1 (conj Ha (sublist_tail _ _ _ Hb))). lia.
+ injection E2 as <-. simpl. specialize (Ht l1 (conj Ha Hb)). lia.
- apply sublist_cons_r in Ha as [Ha|(l1 & -> & Ha)].
+ specialize (IH (y :: b) l (conj Ha Hb)). lia.
+ apply sublist_cons_r in Hb as [Hb|(l2 & [= -> ->] & Hb)]; [|done].
assert (Hx : common (x :: l1) (x :: a) b) by (split; [by constructor|done]). specialize (IHb _ Hx). lia.
Qed.

Lemma most_reached a : forall b, exists l, common l a b /\ length l = most a b.
Proof.
induction a as [|x a IH]; intros b; [exists []; repeat split; apply sublist_nil_l|].
induction b as [|y b IHb]; [exists []; repeat split; apply sublist_nil_l|]. rewrite most_cons.
destruct (decide (x = y)) as [<-|Hne].
- destruct (IH b) as (l & [Ha Hb] & El). exists (x :: l). split; [split; by constructor|]. simpl. lia.
- destruct (IH (y :: b)) as (l1 & [Ha1 Hb1] & E1), IHb as (l2 & [Ha2 Hb2] & E2).
destruct (Nat.max_spec (most a (y :: b)) (most (x :: a) b)) as [[_ ->]|[_ ->]].
+ exists l2. split; [split; [done|by constructor]|done].
+ exists l1. split; [split; [by constructor|done]|done].
Qed.

Lemma sublist_suffix (k l b : list A) : k ++ l `sublist_of` b -> l `sublist_of` b.
Proof. intros H. etrans; [|exact H]. by apply sublist_inserts_l. Qed.

Lemma sublist_prefix (k l b : list A) : k ++ l `sublist_of` b -> k `sublist_of` b.
Proof. intros H. etrans; [|exact H]. by apply sublist_inserts_r. Qed.

(** What is in front of both, or behind both, adds its length. *)
Lemma common_front p l a b : common l (p ++ a) (p ++ b) -> length l <= length p + most a b.
Proof.
intros [(l1 & l2 & -> & Hp & Ha)%sublist_app_r (m1 & m2 & E & Hp' & Hb)%sublist_app_r].
apply sublist_length in Hp, Hp'. assert (Hl : length (l1 ++ l2) = length (m1 ++ m2)) by by rewrite E.
rewrite !length_app in *. apply app_eq_inv in E as [(k & -> & ->)|(k & -> & ->)].
- pose proof (most_bounds a b l2 (conj Ha (sublist_suffix _ _ _ Hb))). lia.
- pose proof (most_bounds a b m2 (conj (sublist_suffix _ _ _ Ha) Hb)). lia.
Qed.

Lemma common_back t l a b : common l (a ++ t) (b ++ t) -> length l <= most a b + length t.
Proof.
intros [(l1 & l2 & -> & Ha & Ht)%sublist_app_r (m1 & m2 & E & Hb & Ht')%sublist_app_r].
apply sublist_length in Ht, Ht'. assert (Hl : length (l1 ++ l2) = length (m1 ++ m2)) by by rewrite E.
rewrite !length_app in *. apply app_eq_inv in E as [(k & -> & ->)|(k & -> & ->)].
- pose proof (most_bounds a b m1 (conj (sublist_prefix _ _ _ Ha) Hb)). lia.
- pose proof (most_bounds a b l1 (conj Ha (sublist_prefix _ _ _ Hb))). lia.
Qed.
End common.

(* ------------------------------------------------------------ *)

(** The blocks that two files keep are as many as can be. *)

Open Scope nat_scope.

Section spec.
Context {A : Type} `{EqDecision A}.
Implicit Types a b from to l rows columns : list A.

(** ** The table *)

Lemma fill_row_spec (x : A) rows columns : forall below,
(forall c, c <= length columns -> below !! c = Some (most rows (drop c columns))) ->
forall c, c <= length columns -> fill_row x columns below !! c = Some (most (x :: rows) (drop c columns)).
Proof.
induction columns as [|y columns IH]; intros below Hb c Hc.
{ simpl in Hc. assert (c = 0) as -> by lia. done. }
assert (Ht : forall c, c <= length columns -> tail below !! c = Some (most rows (drop c columns))).
{ intros c' Hc'. rewrite lookup_tail. apply (Hb (S c')). simpl. lia. }
cbn [fill_row]. destruct c as [|c]; [|apply (IH _ Ht c); simpl in Hc; lia].
rewrite (IH _ Ht 0), (Ht 0), (Hb 0) by (simpl; lia). cbn [lookup list_lookup default drop]. rewrite most_cons, drop_0.
by destruct (decide (x = y)).
Qed.

Lemma fill_spec rows columns : forall r c, r <= length rows -> c <= length columns ->
fill rows columns !! r ≫= (fun line => line !! c) = Some (most (drop r rows) (drop c columns)).
Proof.
induction rows as [|x rows IH]; intros r c Hr Hc.
- simpl in Hr. assert (r = 0) as -> by lia. cbn [fill lookup list_lookup mbind option_bind drop].
rewrite lookup_replicate_2 by lia. done.
- destruct r as [|r]; [|apply (IH r c); simpl in *; lia]. cbn [fill]. cbn [lookup list_lookup mbind option_bind drop].
pose proof (fill_row_spec x rows columns (default [] (fill rows columns !! 0))) as Hf. apply Hf; [|done].
intros c' Hc'. specialize (IH 0 c' ltac:(lia) Hc'). rewrite drop_0 in IH.
by destruct (fill rows columns !! 0) as [line|].
Qed.

(** ** The walk *)

Definition before (p q : nat * nat) : Prop := p.1 < q.1 /\ p.2 < q.2.

Lemma drop_lookup l i (x : A) : l !! i = Some x -> drop i l = x :: drop (S i) l.
Proof. apply drop_S. Qed.

Lemma trace_spec from to a b start : (forall r, r < length a -> from !! (start + r) = a !! r) ->
(forall c, c < length b -> to !! (start + c) = b !! c) ->
forall fuel r c, r <= length a -> c <= length b -> length a - r + (length b - c) <= fuel ->
let pairs := trace from to (fill a b) start (length a) (length b) fuel r c in
length pairs = most (drop r a) (drop c b) /\ StronglySorted before pairs /\
Forall (fun p => start + r <= p.1 < start + length a /\ start + c <= p.2 < start + length b /\ from !! p.1 = to !! p.2) pairs.
Proof.
intros Ha Hb. induction fuel as [|fuel IH]; intros r c Hr Hc Hf.
{ rewrite drop_ge by lia. split; [done|]. split; constructor. }
cbn [trace]. destruct (Nat.ltb_spec r (length a)) as [Lr|Lr]; cbn [andb].
2: { rewrite drop_ge by lia. split; [done|]. split; constructor. }
destruct (Nat.ltb_spec c (length b)) as [Lc|Lc].
2: { rewrite (drop_ge b) by lia. rewrite most_nil_r. split; [done|]. split; constructor. }
destruct (lookup_lt_is_Some_2 a r Lr) as [x Ex], (lookup_lt_is_Some_2 b c Lc) as [y Ey].
rewrite (drop_lookup a r x Ex), (drop_lookup b c y Ey), most_cons. unfold same_at. rewrite Ha, Hb, Ex, Ey by done.
destruct (decide (x = y)) as [->|Hne].
- rewrite bool_decide_eq_true_2 by done. destruct (IH (S r) (S c)) as (El & Hs & Hall); [lia..|].
split; [simpl; rewrite El; lia|]. split.
+ constructor; [done|]. eapply Forall_impl; [exact Hall|]. intros [i j] (H1 & H2 & _). unfold before. simpl in *. lia.
+ constructor; [simpl; rewrite Ha, Hb, Ex, Ey by done; split; [lia|]; split; [lia|done]|].
eapply Forall_impl; [exact Hall|]. simpl. intros [i j] (H1 & H2 & H3). simpl in *. split; [lia|]. split; [lia|done].
- rewrite bool_decide_eq_false_2 by congruence. rewrite !fill_spec by lia. cbn [from_option id].
rewrite <- (drop_lookup b c y Ey), <- (drop_lookup a r x Ex).
destruct (Nat.leb_spec (most (drop r a) (drop (S c) b)) (most (drop (S r) a) (drop c b))).
+ destruct (IH (S r) c) as (El & Hs & Hall); [lia..|]. split; [rewrite El; lia|]. split; [done|].
eapply Forall_impl; [exact Hall|]. intros [i j] (H1 & H2 & H3). simpl in *. split; [lia|]. split; [lia|done].
+ destruct (IH r (S c)) as (El & Hs & Hall); [lia..|]. split; [rewrite El; lia|]. split; [done|].
eapply Forall_impl; [exact Hall|]. intros [i j] (H1 & H2 & H3). simpl in *. split; [lia|]. split; [lia|done].
Qed.

(** ** The loops *)

Lemma grow_start_spec from to fuel : forall start, start <= length from -> start <= length to ->
(forall i, i < start -> from !! i = to !! i) ->
let s := grow_start from to fuel start in
s <= length from /\ s <= length to /\ forall i, i < s -> from !! i = to !! i.
Proof.
induction fuel as [|fuel IH]; intros start Hf Ht Hs; [done|]. cbn [grow_start]. unfold same_at.
destruct (Nat.ltb_spec start (length from)); [|done]. destruct (Nat.ltb_spec start (length to)); [|done]. cbn [andb].
destruct (bool_decide_reflect (from !! start = to !! start)); [|done].
apply IH; [lia..|]. intros i Hi. destruct (decide (i = start)) as [->|]; [done|]. apply Hs. lia.
Qed.

Lemma grow_tail_spec from to start fuel : forall tail, start <= length from - tail -> start <= length to - tail ->
tail <= length from -> tail <= length to ->
(forall i, i < tail -> from !! (length from - i - 1) = to !! (length to - i - 1)) ->
let t := grow_tail from to start fuel tail in
t <= length from /\ t <= length to /\ start <= length from - t /\ start <= length to - t /\
forall i, i < t -> from !! (length from - i - 1) = to !! (length to - i - 1).
Proof.
induction fuel as [|fuel IH]; intros tail Hf Ht Hf' Ht' Hs; [done|]. cbn [grow_tail]. unfold same_at.
destruct (Nat.ltb_spec start (length from - tail)); [|done]. destruct (Nat.ltb_spec start (length to - tail)); [|done].
cbn [andb]. destruct (bool_decide_reflect (from !! (length from - tail - 1) = to !! (length to - tail - 1))); [|done].
apply IH; [lia..|]. intros i Hi. destruct (decide (i = tail)) as [->|]; [done|]. apply Hs. lia.
Qed.

(** The loops end before their fuel does. *)
Lemma grow_start_stops from to : let s := grow_start from to (length from) 0 in
(s <? length from) && (s <? length to) && same_at from to s s = false.
Proof.
assert (H : forall fuel start, length from - start <= fuel ->
let s := grow_start from to fuel start in (s <? length from) && (s <? length to) && same_at from to s s = false); [|apply H; lia].
induction fuel as [|fuel IH]; intros start Hf.
- cbn [grow_start]. by rewrite (proj2 (Nat.ltb_ge _ _)) by lia.
- cbn [grow_start]. destruct ((start <? length from) && (start <? length to) && same_at from to start start) eqn:E; [|exact E].
apply IH. lia.
Qed.

Lemma grow_tail_stops from to start : let t := grow_tail from to start (length from) 0 in
(start <? length from - t) && (start <? length to - t) && same_at from to (length from - t - 1) (length to - t - 1) = false.
Proof.
assert (H : forall fuel tail, length from - tail <= fuel -> let t := grow_tail from to start fuel tail in
(start <? length from - t) && (start <? length to - t) && same_at from to (length from - t - 1) (length to - t - 1) = false); [|apply H; lia].
induction fuel as [|fuel IH]; intros tail Hf.
- cbn [grow_tail]. by rewrite (proj2 (Nat.ltb_ge _ _)) by lia.
- cbn [grow_tail]. destruct ((start <? length from - tail) && (start <? length to - tail) &&
same_at from to (length from - tail - 1) (length to - tail - 1)) eqn:E; [|exact E]. apply IH. lia.
Qed.

(** ** All of it *)

Lemma list_three l start tail : start <= length l - tail -> tail <= length l ->
l = take start l ++ take (length l - tail - start) (drop start l) ++ drop (length l - tail) l.
Proof.
intros H1 H2. rewrite <- (take_drop start l) at 1. f_equal.
rewrite <- (take_drop (length l - tail - start) (drop start l)) at 1. f_equal. rewrite drop_drop. f_equal. lia.
Qed.

Lemma sorted_app (l1 l2 : list (nat * nat)) : StronglySorted before l1 -> StronglySorted before l2 ->
(forall p q, p ∈ l1 -> q ∈ l2 -> before p q) -> StronglySorted before (l1 ++ l2).
Proof.
induction l1 as [|p l1 IH]; [done|]. intros [H1 Hf]%StronglySorted_inv H2 H12. simpl. constructor.
- apply IH; [done..|]. intros. apply H12; [by right|done].
- apply Forall_app. split; [done|]. apply Forall_forall. intros q Hq. apply H12; [left|done].
Qed.

Lemma diagonal_sorted i j n k : StronglySorted before ((fun d => (i + d, j + d)) <$> seq k n).
Proof.
revert k. induction n as [|n IH]; intros k; [constructor|]. cbn [seq fmap list_fmap]. constructor; [apply IH|].
apply Forall_forall. intros p (d & -> & [Hd _]%elem_of_seq)%list_elem_of_fmap. unfold before. simpl. lia.
Qed.

(** The pairs of [common_blocks] go on in both lists, and hold what is the same. *)
Definition matched (from to : list A) (pairs : list (nat * nat)) : Prop :=
StronglySorted before pairs /\ Forall (fun p => is_Some (from !! p.1) /\ from !! p.1 = to !! p.2) pairs.

(** [common_blocks] is what both start with, a walk through the middle, and what both end with. *)
Lemma common_blocks_parts from to : exists start tail middle,
let a := take (length from - tail - start) (drop start from) in
let b := take (length to - tail - start) (drop start to) in
common_blocks from to = ((fun d => (0 + d, 0 + d)) <$> seq 0 start) ++ middle ++
((fun d => (length from - tail + d, length to - tail + d)) <$> seq 0 tail) /\
(start <= length from - tail /\ start <= length to - tail /\ tail <= length from /\ tail <= length to) /\
(forall i, i < start -> from !! i = to !! i) /\
(forall i, i < tail -> from !! (length from - tail + i) = to !! (length to - tail + i)) /\
StronglySorted before middle /\
Forall (fun p => start <= p.1 < length from - tail /\ start <= p.2 < length to - tail /\ from !! p.1 = to !! p.2) middle /\
((N.of_nat (length from) * N.of_nat (length to) <= MOST_COMPARED)%N -> length middle = most a b).
Proof.
unfold common_blocks. set (start := grow_start from to (length from) 0). set (tail := grow_tail from to start (length from) 0).
destruct (grow_start_spec from to (length from) 0) as (Hs1 & Hs2 & Hs3); [lia..|]. fold start in Hs1, Hs2, Hs3.
destruct (grow_tail_spec from to start (length from) 0) as (Ht1 & Ht2 & Ht3 & Ht4 & Ht5); [lia..|].
fold tail in Ht1, Ht2, Ht3, Ht4, Ht5. set (middle := if _ && _ && _ then _ else _). exists start, tail, middle.
set (a := take (length from - tail - start) (drop start from)). set (b := take (length to - tail - start) (drop start to)).
assert (La : length a = length from - tail - start) by (unfold a; rewrite length_take, length_drop; lia).
assert (Lb : length b = length to - tail - start) by (unfold b; rewrite length_take, length_drop; lia).
assert (Htrace : length (trace from to (fill a b) start (length a) (length b) (length a + length b) 0 0) = most a b /\
StronglySorted before (trace from to (fill a b) start (length a) (length b) (length a + length b) 0 0) /\
Forall (fun p => start <= p.1 < length from - tail /\ start <= p.2 < length to - tail /\ from !! p.1 = to !! p.2)
(trace from to (fill a b) start (length a) (length b) (length a + length b) 0 0)).
{ destruct (trace_spec from to a b start) with (fuel := length a + length b) (r := 0) (c := 0) as (H0 & H1 & H2); [..|lia|lia|lia|].
- intros r Hr. unfold a. rewrite lookup_take_lt, lookup_drop by lia. done.
- intros c Hc. unfold b. rewrite lookup_take_lt, lookup_drop by lia. done.
- rewrite !drop_0 in H0. split; [done|]. split; [done|]. eapply Forall_impl; [exact H2|]. simpl. intros p (? & ? & ?). repeat split; [lia..|done]. }
rewrite La, Lb in Htrace. subst middle. fold a b. split; [done|]. split; [lia|]. split; [intros i Hi; apply Hs3; lia|]. split.
{ intros i Hi. specialize (Ht5 (tail - i - 1) ltac:(lia)). replace (length from - (tail - i - 1) - 1) with (length from - tail + i) in Ht5 by lia.
by replace (length to - (tail - i - 1) - 1) with (length to - tail + i) in Ht5 by lia. }
split; [|split].
- destruct (_ && _ && _); [apply Htrace|constructor].
- destruct (_ && _ && _); [apply Htrace|constructor].
- intros Hn. rewrite (proj2 (N.leb_le _ _)) by nia. cbn [andb].
destruct (Nat.ltb_spec 0 (length from - tail - start)); cbn [andb]; [|assert (a = []) as -> by (apply length_zero_iff_nil; lia); done].
destruct (Nat.ltb_spec 0 (length to - tail - start)); [apply Htrace|assert (b = []) as -> by (apply length_zero_iff_nil; lia); by rewrite most_nil_r].
Qed.

Lemma common_blocks_matched from to : matched from to (common_blocks from to).
Proof.
destruct (common_blocks_parts from to) as (start & tail & middle & -> & (L1 & L2 & L3 & L4) & Hs & Ht & Hm1 & Hm2 & _).
rewrite Forall_forall in Hm2. split.
- apply sorted_app; [apply diagonal_sorted| |].
+ apply sorted_app; [done|apply diagonal_sorted|].
intros p q Hp%Hm2 (d & -> & _)%list_elem_of_fmap. unfold before. simpl. lia.
+ intros p q (d & -> & [_ Hd]%elem_of_seq)%list_elem_of_fmap [Hq%Hm2|(e & -> & _)%list_elem_of_fmap]%elem_of_app; unfold before; simpl; lia.
- rewrite !Forall_app. split; [|split].
+ apply Forall_fmap, Forall_forall. intros d [_ Hd]%elem_of_seq. simpl. split; [apply lookup_lt_is_Some_2; lia|apply Hs; lia].
+ apply Forall_forall. intros p (H1 & H2 & H3)%Hm2. split; [apply lookup_lt_is_Some_2; lia|done].
+ apply Forall_fmap, Forall_forall. intros d [_ Hd]%elem_of_seq. simpl. split; [apply lookup_lt_is_Some_2; lia|apply Ht; lia].
Qed.

Lemma common_blocks_most from to : (N.of_nat (length from) * N.of_nat (length to) <= MOST_COMPARED)%N ->
forall l, common l from to -> length l <= length (common_blocks from to).
Proof.
intros Hn l Hl. destruct (common_blocks_parts from to) as (start & tail & middle & -> & (L1 & L2 & L3 & L4) & Hs & Ht & _ & _ & Hm).
specialize (Hm Hn). set (a := take _ (drop start from)) in Hm. set (b := take _ (drop start to)) in Hm.
rewrite !length_app, !length_fmap, !length_seq, Hm.
assert (Hp : take start from = take start to).
{ apply list_eq. intros i. destruct (decide (i < start)); [rewrite !lookup_take_lt by lia; apply Hs; lia|].
by rewrite !lookup_take_ge by lia. }
assert (Hq : drop (length from - tail) from = drop (length to - tail) to).
{ apply list_eq. intros i. rewrite !lookup_drop. destruct (decide (i < tail)); [by apply Ht|].
rewrite !lookup_ge_None_2 by lia. done. }
assert (Hab : common l (take start from ++ (a ++ drop (length from - tail) from)) (take start from ++ (b ++ drop (length from - tail) from))).
{ destruct Hl as [Hf Hto]. split; [|rewrite Hp, Hq]; unfold a, b; by rewrite <- list_three by lia. }
apply common_front in Hab. rewrite length_take in Hab.
destruct (most_reached (a ++ drop (length from - tail) from) (b ++ drop (length from - tail) from)) as (k & Hk & Ek).
apply common_back in Hk. rewrite length_drop in Hk. lia.
Qed.
End spec.
