(* ===== verification/DocxModel.v ===== *)
(** [documents/crates/docx/src/model.rs] and the ops of [ops.rs]: the live copy of a Word
    document and its changes.

    The schema is the one that the crate compiles from its [schema.json]; here it is a
    parameter.  A [HashMap] or [BTreeMap] is a finite map.  [touched] comes out of a [HashSet],
    in no order, and is only asked what it holds, so it is a set. *)

From S2P Require Import Prelude Json TextData Format.

(** A top-level block as it came from the file. *)
Record Source : Type := MkSource { so_node : Node; so_xml : string }.

Record Model : Type := MkModel {
  m_doc : Node; m_sources : gmap string Source; m_raws : gmap string string; m_view : Value
}.

(** What an agent means. *)
Inductive Op : Type :=
| ReplaceText (find with_ : string) (block : option string) (all : bool)
| InsertParagraph (text : string) (after style : option string)
| DeleteBlock (block : string)
| SetStyle (block : string) (style : option string)
| FormatText (find : string) (block : option string) (bold italic underline : bool) (color : option string)
| InsertTable (rows : list (list string)) (after : option string)
| SetCell (table : string) (row column : nat) (text : string)
| AcceptChanges (block : option string)
| RejectChanges (block : option string)
| ReplaceBlock (block : string) (node : Value)
| InsertBlock (after : option string) (node : Value).

Inductive Change : Type :=
| Steps (steps : list Value) (touched : gset string) (keep sources : gmap string string)
| Ops (ops : list Op) (track : bool) (author : string)
| Merge (ops : list Op) (keep sources : gmap string string).

(** [Op::targets]: the blocks that an op acts on. *)
Definition targets (op : Op) : list string :=
  option_list match op with
  | ReplaceText _ _ block _ | FormatText _ block _ _ _ _ | AcceptChanges block | RejectChanges block => block
  | InsertParagraph _ after _ | InsertTable _ after | InsertBlock after _ => after
  | DeleteBlock block | ReplaceBlock block _ | SetStyle block _ => Some block
  | SetCell table _ _ _ => Some table
  end.

(** The id of a top-level block. *)
Definition block_id (node : Node) : option string := Map.get "id"%string (n_attrs node) ≫= ValueOps.as_str.

(** ** Messages

    [Failed] has a constructor for each message of the tree text; these are the texts. *)
Section messages.
Variable node_name : NodeId -> string.

Definition message (failed : Failed) : string :=
match failed with
| PositionOutOfRange pos => "Position " +:+ pretty pos +:+ " out of range"
| PositionOutsideFragment position => "Position " +:+ pretty position +:+ " outside of fragment"
| IndexOutOfRange index => "Index " +:+ pretty index +:+ " out of range"
| CutOutsideText => "Cut outside of text"
| CutOutsideFragment => "Cut outside of the fragment"
| EmptyText => "Empty text nodes are not allowed"
| NoAttributeValue name => "No value supplied for attribute " +:+ name
| InsertedDeeper => "Inserted content deeper than insertion position"
| InconsistentDepths => "Inconsistent open depths"
| CannotJoin sub main => "Cannot join " +:+ node_name sub +:+ " onto " +:+ node_name main
| InvalidContent kind => "Invalid content for node " +:+ node_name kind
| SliceSmaller => "The slice is smaller than its open sides"
| StructureReplace => "Structure replace would overwrite content"
| StructureGapReplace => "Structure gap-replace would overwrite content"
| GapNotFlat => "Gap is not a flat range"
| ContentDoesNotFit => "Content does not fit in gap"
| NoNodeAtMark => "No node at mark step's position"
| NoNodeAtAttribute => "No node at attribute step's position"
| EndsBeforeStart => "The step ends before it starts"
| NoNodeAtPosition => "No node at the position"
| InvalidField name => "Invalid " +:+ name +:+ " in a step"
| UnknownStep name => "No step type " +:+ name +:+ " defined"
| UnknownMark name => "There is no mark type " +:+ name +:+ " in this schema"
| UnknownNode name => "Unknown node type: " +:+ name
| NestedTooDeep => "The document is nested too deep"
| InvalidMarks => "Invalid mark data for Node.fromJSON"
| InvalidText => "Invalid text node in JSON"
| InvalidFragment => "Invalid input for Fragment.fromJSON"
| InvalidSlice => "Invalid input for Slice.fromJSON"
end%string.
End messages.
