(* ===== verification/DocxOps.v ===== *)
(** [documents/crates/docx/src/ops.rs]: what an agent means, as steps of the tree text; and
    [run_steps] of [apply.rs], which runs them.

    An error is its text; [of_text] gives an error of the tree text its message. *)

From S2P Require Import Prelude Json Utf TextData TextSchema TextNode TextResolved TextReplace.
From S2P Require Import TextStep TextJson Format DocxModel.
Open Scope nat_scope.

Section docx.
Variable schema : Schema.

Definition name_of (kind : NodeId) : string := match Schema.node_name schema kind with Ok name => name | _ => ""%string end.

(** [map_err(|failed| failed.0)]. *)
Definition of_text {A} (r : res A) : Result string A :=
match r with Ok a => Ok a | Err failed => Err (message name_of failed) | Panic => Panic end.

(** [Result::ok]. *)
Definition ok {A} (r : res A) : res (option A) :=
match r with Ok a => Ok (Some a) | Err _ => Ok None | Panic => Panic end.

(** ** Steps *)

(** The top-level blocks that a range of a document touches. *)
Definition touched_blocks (doc : Node) (from to : nat) : res (list string) :=
first ← ok (Resolved.resolve doc from);
match first with
| None => Ok []
| Some first =>
last ← ok (Resolved.resolve doc to);
match last with
| None => Ok []
| Some last =>
low ← Resolved.index first 0;
high ← Resolved.index last 0;
Ok (omap (fun index => child ← Fragment.maybe_child (n_content doc) index; block_id child) (seq low (high + 1 - low)))
end
end.

Definition run_step (doc : Node) (json : Value) : res (Node * gset string) :=
step ← step_from_json schema json;
touched ← match Step.range step with Some (from, to) => touched_blocks doc from to | None => Ok [] end;
doc ← Step.apply schema step doc;
Ok (doc, list_to_set touched).

Fixpoint run_steps (doc : Node) (steps : list Value) : res (Node * gset string) :=
match steps with
| [] => Ok (doc, ∅)
| json :: steps =>
'(doc, touched) ← run_step doc json;
'(doc, more) ← run_steps doc steps;
Ok (doc, touched ∪ more)
end.

(** ** Nodes *)

Definition node_kind (name : string) : NodeId := default 0 (Schema.node_id schema name).

Definition mark_of (name : string) (attrs : option Value) : Result string Mark :=
match Schema.mark_id schema name with
| None => Err ("There is no mark " +:+ name +:+ ".")%string
| Some kind => of_text (Marks.new schema kind attrs)
end.

(** An [Option<&str>] in [json!]. *)
Definition str_or_null (o : option string) : Value := match o with Some s => Str s | None => Null end.

Definition paragraph_of (text : string) (style id : option string) : Result string Node :=
content ←
(if decide (text = ""%string) then Ok empty_fragment
else node ← of_text (node_text schema text []); Ok (Fragment.from_array [node]));
of_text (Nodes.new schema (node_kind "paragraph") (Some (object [("style", str_or_null style); ("id", str_or_null id)]%string)) content []).

Definition table_cell (text : string) : Result string Node :=
paragraph ← paragraph_of text None None;
of_text (Nodes.new schema (node_kind "tableCell") None (Fragment.from_array [paragraph]) []).

Definition table_row (row : list string) : Result string Node :=
cells ← try_map table_cell row;
of_text (Nodes.new schema (node_kind "tableRow") None (Fragment.from_array cells) []).

Definition table_of (rows : list (list string)) (id : string) : Result string Node :=
built ← try_map table_row rows;
of_text (Nodes.new schema (node_kind "table") (Some (object [("id", Str id)]%string)) (Fragment.from_array built) []).

(** ** Blocks *)

Fixpoint block_start_from (position : nat) (blocks : list Node) (block : string) : option (nat * Node) :=
match blocks with
| [] => None
| child :: blocks =>
if decide (block_id child = Some block) then Some (position, child)
else block_start_from (position + Node.node_size child) blocks block
end.
Definition block_start (doc : Node) (block : string) : option (nat * Node) :=
block_start_from 0 (f_content (n_content doc)) block.

Definition no_block (block : string) : string := ("There is no block " +:+ block +:+ ".")%string.

Definition end_after (doc : Node) (after : option string) : Result string nat :=
match after with
| None => Ok (f_size (n_content doc))
| Some after => '(start, node) ← ok_or (no_block after) (block_start doc after); Ok (start + Node.node_size node)
end.

(** [str::strip_prefix]. *)
Definition strip_prefix (prefix s : string) : option string :=
if String.prefix prefix s then Some (String.substring (String.length prefix) (String.length s - String.length prefix) s) else None.

Definition new_id (doc : Node) (taken : nat) : Result string string :=
let highest := foldl N.max 0%N (omap (fun child =>
id ← block_id child; number ← strip_prefix "new-" id; parse_usize number) (f_content (n_content doc))) in
if (highest + N.of_nat taken + 1 <? USIZE)%N then Ok ("new-" +:+ pretty (highest + N.of_nat taken + 1)%N)%string else Panic.

Definition insert_step (position : nat) (node : Node) : Step.t :=
Step.Replace position position (MkSlice (Fragment.from_array [node]) 0 0) false.

(** ** Places of text *)

(** A stretch of text in one textblock, with the position of each unit. *)
Record Stretch : Type := MkStretch { units : list N; positions : list nat }.

Definition full (stretch : Stretch) : list Stretch := match units stretch with [] => [] | _ => [stretch] end.

(** The loop over the children of a textblock. *)
Fixpoint text_stretches (children : list Node) (position : nat) (stretch : Stretch) : list Stretch :=
match children with
| [] => full stretch
| child :: children =>
match text_of child with
| Some text =>
let found := encode_utf16 (chars text) in
text_stretches children (position + length found)
(MkStretch (units stretch ++ found) (positions stretch ++ seq position (length found)))
| None => full stretch ++ text_stretches children (position + Node.node_size child) (MkStretch [] [])
end
end.

Fixpoint stretches_in (node : Node) (start : nat) {struct node} : res (list Stretch) :=
match node with
| MkNode kind _ (MkFragment children _) _ _ _ =>
textblock ← Schema.is_textblock schema kind;
if textblock : bool then Ok (text_stretches children start (MkStretch [] []))
else
(fix under (position : nat) (children : list Node) {struct children} : res (list Stretch) :=
match children with
| [] => Ok []
| child :: children =>
found ← stretches_in child (position + 1);
more ← under (position + Node.node_size child) children;
Ok (found ++ more)
end) start children
end.

(** The places of a text in one stretch, from the first. *)
Fixpoint places_in (stretch : Stretch) (needle : list N) (fuel index : nat) : res (list (nat * nat)) :=
match fuel with
| O => Ok []
| S fuel =>
if index + length needle <=? length (units stretch) then
if decide (take (length needle) (drop index (units stretch)) = needle) then
from ← or_panic (positions stretch !! index);
last ← or_panic (positions stretch !! (index + length needle - 1));
places ← places_in stretch needle fuel (index + length needle);
Ok ((from, last + 1) :: places)
else places_in stretch needle fuel (index + 1)
else Ok []
end.

Fixpoint stretches_of (position : nat) (blocks : list Node) : res (list Stretch) :=
match blocks with
| [] => Ok []
| child :: blocks =>
found ← stretches_in child (position + 1);
more ← stretches_of (position + Node.node_size child) blocks;
Ok (found ++ more)
end.

(** Each place of the text, as ranges of positions, from last to first. *)
Definition find_places (doc : Node) (block : option string) (find : string) : Result string (list (nat * nat)) :=
let needle := encode_utf16 (chars find) in
match needle with
| [] => Err "The text to find is empty."%string
| _ =>
stretches ← match block with
| Some block => '(start, node) ← ok_or (no_block block) (block_start doc block); of_text (stretches_in node (start + 1))
| None => of_text (stretches_of 0 (f_content (n_content doc)))
end;
places ← of_text (try_map (fun stretch => places_in stretch needle (length (units stretch) + 1) 0) stretches);
Ok (rev (concat places))
end.

Definition marks_at (doc : Node) (position : nat) : Result string (list Mark) :=
node ← of_text (ok (Nodes.node_at doc position));
Ok (match node with Some (Some node) => n_marks node | _ => [] end).

Definition replace_text_steps (doc : Node) (place : nat * nat) (with_ : string) (track : bool) (author : string) :
Result string (list Step.t) :=
let '(from, to) := place in
marks ← marks_at doc from;
if negb track then
slice ← (if decide (with_ = ""%string) then Ok Slice.empty
else node ← of_text (node_text schema with_ marks); Ok (MkSlice (Fragment.from_array [node]) 0 0));
Ok [Step.Replace from to slice false]
else
let by_ := object [("author", Str author)]%string in
deletion ← mark_of "deletion" (Some by_);
if decide (with_ = ""%string) then Ok [Step.AddMark from to deletion]
else
insertion ← mark_of "insertion" (Some by_);
node ← of_text (node_text schema with_ (marks ++ [insertion]));
Ok [Step.AddMark from to deletion; insert_step to node].

Fixpoint named_marks (names : list (bool * string)) : Result string (list Mark) :=
match names with
| [] => Ok []
| (on, name) :: names =>
mark ← (if on : bool then mark ← mark_of name None; Ok [mark] else Ok []);
marks ← named_marks names; Ok (mark ++ marks)
end.

Definition format_marks (bold italic underline : bool) (color : option string) : Result string (list Mark) :=
marks ← named_marks [(bold, "bold"); (italic, "italic"); (underline, "underline")]%string;
match color with
| Some color => mark ← mark_of "textStyle" (Some (object [("color", Str color)]%string)); Ok (marks ++ [mark])
| None => Ok marks
end.

Definition sizes (nodes : list Node) : nat := sum_list_with Node.node_size nodes.

Definition cell_position (doc : Node) (table : string) (row column : nat) : Result string (nat * Node) :=
'(start, node) ← ok_or ("There is no table " +:+ table +:+ ".")%string (block_start doc table);
target ← ok_or ("There is no row " +:+ pretty row +:+ ".")%string (Fragment.maybe_child (n_content node) row);
let position := start + 1 + sizes (take row (f_content (n_content node))) + 1 in
cell ← ok_or ("There is no column " +:+ pretty column +:+ ".")%string (Fragment.maybe_child (n_content target) column);
Ok (position + sizes (take column (f_content (n_content target))), cell).

(** ** Tracked changes *)

Definition is_change (mark : Mark) : res bool :=
name ← Schema.mark_name schema (m_kind mark);
Ok (bool_decide (name = "insertion"%string) || bool_decide (name = "deletion"%string)).

Fixpoint try_filter {E A} (f : A -> Result E bool) (l : list A) : Result E (list A) :=
match l with
| [] => Ok []
| a :: l => keep ← f a; l ← try_filter f l; Ok (if keep : bool then a :: l else l)
end.

(** The text and pictures of tracked changes under a node, each with its mark. *)
Fixpoint changes_under (node : Node) (offset : nat) {struct node} : res (list (nat * nat * Mark)) :=
match node with
| MkNode _ _ (MkFragment children _) _ _ _ =>
(fix under (position : nat) (children : list Node) {struct children} : res (list (nat * nat * Mark)) :=
match children with
| [] => Ok []
| child :: children =>
let stop := position + Node.node_size child in
changes ←
(if Node.is_text child || n_leaf child
then marks ← try_filter is_change (n_marks child); Ok (List.map (fun mark : Mark => (position, stop, mark)) marks)
else changes_under child (position + 1));
more ← under stop children;
Ok (changes ++ more)
end) offset children
end.

(** [Vec::dedup]. *)
Fixpoint dedup {A} `{EqDecision A} (l : list A) : list A :=
match l with
| [] => []
| a :: l => a :: match l with b :: _ => if decide (a = b) then tail (dedup l) else dedup l | [] => [] end
end.

Definition stays (accept : bool) (change : nat * nat * Mark) : res bool :=
name ← Schema.mark_name schema (m_kind change.2);
Ok (Bool.eqb (bool_decide (name = "insertion"%string)) accept).

Definition decide_steps (doc : Node) (block : option string) (accept : bool) : Result string (list Step.t) :=
changes ← match block with
| Some block => '(start, node) ← ok_or (no_block block) (block_start doc block); of_text (changes_under node (start + 1))
| None => of_text (changes_under doc 0)
end;
match changes with
| [] => Err "There are no tracked changes there."%string
| _ =>
kept ← of_text (try_filter (stays accept) changes);
gone ← of_text (try_filter (fun change => stay ← stays accept change; Ok (negb stay)) changes);
Ok (((fun change => Step.RemoveMark change.1.1 change.1.2 change.2) <$> kept) ++
((fun range => Step.Replace range.1 range.2 Slice.empty false) <$> rev (dedup (fst <$> gone))))
end.

(** ** Ops *)

Definition closed (node : Node) : Slice := MkSlice (Fragment.from_array [node]) 0 0.

Fixpoint replace_all (doc : Node) (places : list (nat * nat)) (with_ : string) (track : bool) (author : string) :
Result string (list Step.t) :=
match places with
| [] => Ok []
| place :: places =>
steps ← replace_text_steps doc place with_ track author;
more ← replace_all doc places with_ track author; Ok (steps ++ more)
end.

Definition QUOTE : string := String (Ascii.ascii_of_nat 34) EmptyString.
Definition not_there (find : string) : string := ("The text " +:+ QUOTE +:+ find +:+ QUOTE +:+ " is not there.")%string.

Definition op_steps (doc : Node) (op : Op) (track : bool) (author : string) (taken : nat) : Result string (list Step.t) :=
match op with
| ReplaceText find with_ block all =>
places ← find_places doc block find;
match places with
| [] => Err (not_there find)
| _ => replace_all doc (if all : bool then places else option_list (last places)) with_ track author
end
| InsertParagraph text after style =>
position ← end_after doc after;
id ← new_id doc taken;
node ← paragraph_of text style (Some id);
Ok [insert_step position node]
| DeleteBlock block =>
'(start, node) ← ok_or (no_block block) (block_start doc block);
if Node.child_count doc =? 1 then
id ← new_id doc taken;
replacement ← paragraph_of "" None (Some id);
Ok [Step.Replace start (start + Node.node_size node) (closed replacement) false]
else Ok [Step.Replace start (start + Node.node_size node) Slice.empty false]
| SetStyle block style =>
'(start, _) ← ok_or (no_block block) (block_start doc block);
Ok [Step.Attr start "style" (str_or_null style)]
| FormatText find block bold italic underline color =>
marks ← format_marks bold italic underline color;
places ← find_places doc block find;
'(from, to) ← ok_or (not_there find) (last places);
Ok (List.map (Step.AddMark from to) marks)
| InsertTable rows after =>
match rows with
| [] => Err "A table needs cells."%string
| _ =>
if existsb (fun row => match row with [] => true | _ => false end) rows then Err "A table needs cells."%string
else
position ← end_after doc after;
id ← new_id doc taken;
table ← table_of rows id;
Ok [insert_step position table]
end
| SetCell table row column text =>
'(position, cell) ← cell_position doc table row column;
paragraph ← paragraph_of text None None;
Ok [Step.Replace (position + 1) (position + Node.node_size cell - 1) (closed paragraph) false]
| ReplaceBlock block node =>
'(start, current) ← ok_or (no_block block) (block_start doc block);
node ← of_text (node_from_json schema node);
Ok [Step.Replace start (start + Node.node_size current) (closed node) false]
| InsertBlock after node =>
position ← end_after doc after;
node ← of_text (node_from_json schema node);
Ok [insert_step position node]
| AcceptChanges block => decide_steps doc block true
| RejectChanges block => decide_steps doc block false
end.

(** The steps of one op run on the document, and their JSON. *)
Fixpoint run_op (doc : Node) (steps : list Step.t) : Result string (Node * list Value) :=
match steps with
| [] => Ok (doc, [])
| step :: steps =>
json ← of_text (step_to_json schema step);
'(doc, _) ← of_text (run_steps doc [json]);
'(doc, more) ← run_op doc steps;
Ok (doc, json :: more)
end.

(** [to_steps]: each op on the document as the ops before it left it. *)
Fixpoint to_steps_from (doc : Node) (ops : list Op) (track : bool) (author : string) (taken : nat) : Result string (list Value) :=
match ops with
| [] => Ok []
| op :: ops =>
steps ← op_steps doc op track author taken;
'(doc, all) ← run_op doc steps;
more ← to_steps_from doc ops track author (S taken);
Ok (all ++ more)
end.
Definition to_steps (doc : Node) (ops : list Op) (track : bool) (author : string) : Result string (list Value) :=
to_steps_from doc ops track author 0.

(** The steps of one op of a merge: an op that cannot be is left out, and an insertion goes to
the end. *)
Definition merge_op (doc : Node) (op : Op) (taken : nat) : Result string (list Step.t) :=
match op_steps doc op false "" taken with
| Ok steps => Ok steps
| Err _ =>
match op with
| InsertBlock _ node => op_steps doc (InsertBlock None node) false "" taken
| _ => Ok []
end
| Panic => Panic
end.

Fixpoint merge_steps_from (doc : Node) (ops : list Op) (taken : nat) : Result string (list Value) :=
match ops with
| [] => Ok []
| op :: ops =>
steps ← merge_op doc op taken;
'(doc, all) ← run_op doc steps;
more ← merge_steps_from doc ops (S taken);
Ok (all ++ more)
end.
Definition merge_steps (doc : Node) (ops : list Op) : Result string (list Value) := merge_steps_from doc ops 0.

(** ** Questions *)

Inductive Query : Type := Read (block : option string) | Check_.

(** [Node::text_content]. *)
Fixpoint text_content (node : Node) {struct node} : string :=
match node with
| MkNode _ _ (MkFragment children _) _ text _ =>
match text with
| Some units => of_chars (from_utf16_lossy units)
| None => foldr (fun child s => (text_content child +:+ s)%string) ""%string children
end
end.

Definition block_json (node : Node) : res Value :=
kind ← Schema.node_name schema (n_kind node);
let id := default Null (Map.get "id" (n_attrs node)) in
Ok (if decide (kind = "table"%string) then
object [("id", id); ("kind", Str kind);
("rows", Array ((fun row => Array ((fun cell => Str (text_content cell)) <$> f_content (n_content row))) <$> f_content (n_content node)))]%string
else
object [("id", id); ("kind", Str kind); ("style", default Null (Map.get "style" (n_attrs node)));
("text", Str (text_content node))]%string).

Fixpoint tracked_changes (node : Node) {struct node} : res nat :=
match node with
| MkNode _ _ (MkFragment children _) marks _ _ =>
own ← try_filter is_change marks;
under ← (fix under (children : list Node) : res nat :=
match children with
| [] => Ok 0
| child :: children => n ← tracked_changes child; more ← under children; Ok (n + more)
end) children;
Ok (length own + under)
end.

Definition answer (model : Model) (query : Query) : res Value :=
match query with
| Read block =>
let chosen := List.filter (fun node => match block with Some block => bool_decide (block_id node = Some block) | None => true end)
(f_content (n_content (m_doc model))) in
blocks ← try_map block_json chosen;
Ok (object [("blocks", Array blocks)]%string)
| Check_ => n ← tracked_changes (m_doc model); Ok (object [("trackedChanges", number_of n)]%string)
end.
End docx.
