(* ===== verification/DocxApply.v ===== *)
(** [documents/crates/docx/src/apply.rs]: a change goes in a Word document, and what turns one
    file into another.

    The text of JSON, which [content_key] compares, is serde_json's. *)

From S2P Require Import Prelude Json Utf TextMap TextData TextSchema TextNode TextResolved TextStep.
From S2P Require Import TextJson Format DocxDiff DocxModel DocxOps.
Open Scope nat_scope.

(** [Value::to_string]. *)
Class JsonText : Type := json_text : Value -> string.

Section docx.
Variable schema : Schema.

Abbreviation R A := (Result Refused A).

(** [map_err(invalid)]. *)
Definition invalid {A} (r : res A) : R A :=
match r with Ok a => Ok a | Err failed => Err (Invalid (message (name_of schema) failed)) | Panic => Panic end.
Definition invalid_text {A} (r : Result string A) : R A :=
match r with Ok a => Ok a | Err text => Err (Invalid text) | Panic => Panic end.

(** ** [apply] *)

(** The blocks by their ids; of two with one id, the last. *)
Definition found_blocks (doc : Node) : gmap string Node :=
list_to_map (rev (omap (fun block => id ← block_id block; Some (id, block)) (f_content (n_content doc)))).

Definition add_sources (model : Model) (sources : gmap string string) : Model :=
let found := found_blocks (m_doc model) in
let added := map_imap (fun id xml => node ← found !! id; Some (MkSource node xml)) sources in
MkModel (m_doc model) (added ∪ m_sources model) (m_raws model) (m_view model).

Definition with_doc (model : Model) (doc : Node) : Model := MkModel doc (m_sources model) (m_raws model) (m_view model).
Definition with_raws (model : Model) (keep : gmap string string) : Model :=
MkModel (m_doc model) (m_sources model) (keep ∪ m_raws model) (m_view model).

Definition is_steps (change : Change) : bool := match change with Steps _ _ _ _ => true | _ => false end.

Definition conflict (ops : list Op) (touched : gset string) : option string :=
snd <$> list_find (fun target => target ∈ touched) (flat_map targets ops).

Fixpoint check_conflicts (ops : list Op) (since : list (Ordered Change)) : R unit :=
match since with
| [] => Ok tt
| ordered :: since =>
match o_change ordered with
| Steps _ touched _ _ =>
match conflict ops touched with
| Some block =>
Err (Behind (o_author ordered +:+ " changed block " +:+ block +:+ " after you read it. Read again.")%string)
| None => check_conflicts ops since
end
| _ => check_conflicts ops since
end
end.

Definition apply (model : Model) (change : Change) (since : list (Ordered Change)) : R (Model * Change) :=
match change with
| Steps steps _ keep sources =>
if existsb (fun ordered => is_steps (o_change ordered)) since
then Err (Behind "The text moved. Move the steps and send them again."%string)
else
'(doc, touched) ← invalid (run_steps schema (m_doc model) steps);
Ok (add_sources (with_raws (with_doc model doc) keep) sources, Steps steps touched keep sources)
| Ops ops track author =>
_ ← check_conflicts ops since;
steps ← invalid_text (to_steps schema (m_doc model) ops track author);
'(doc, touched) ← invalid (run_steps schema (m_doc model) steps);
Ok (with_doc model doc, Steps steps touched ∅ ∅)
| Merge ops keep sources =>
steps ← invalid_text (merge_steps schema (m_doc model) ops);
'(doc, touched) ← invalid (run_steps schema (m_doc model) steps);
Ok (add_sources (with_raws (with_doc model doc) keep) sources, Steps steps touched keep sources)
end.

(** ** [compare] *)

Section compare.
Context `{JsonText}.

(** [Map::remove]. *)
Definition remove (key : string) (m : Map.t) : Map.t := List.filter (fun e => negb (String.eqb e.1 key)) m.

(** The JSON of a block without its id. *)
Definition content_key (node : Node) : res string :=
json ← node_to_json schema node;
Ok (json_text match json with
| Object fields =>
match Map.get "attrs" fields with
| Some (Object attrs) => Object (Map.insert "attrs" (Object (remove "id" attrs)) fields)
| _ => json
end
| _ => json
end).

Definition add_raws (fields : Map.t) (raws keep : gmap string string) : gmap string string :=
foldl (fun keep name =>
match Map.get name fields ≫= ValueOps.as_str with
| Some raw => match raws !! raw with Some xml => <[raw := xml]> keep | None => keep end
| None => keep
end) keep ["props"; "raw"]%string.

(** The pieces of original XML that a block's attributes name. *)
Fixpoint collect_raws (json : Value) (raws keep : gmap string string) {struct json} : gmap string string :=
match json with
| Object fields =>
(fix under (fields : list (string * Value)) (keep : gmap string string) {struct fields} : gmap string string :=
match fields with [] => keep | (_, value) :: fields => under fields (collect_raws value raws keep) end)
fields (add_raws fields raws keep)
| Array values =>
(fix under (values : list Value) (keep : gmap string string) {struct values} : gmap string string :=
match values with [] => keep | value :: values => under values (collect_raws value raws keep) end) values keep
| _ => keep
end.

(** The ops of a gap between two blocks that both files keep: what takes the place of what,
what goes, and what comes after the last of them. *)
Fixpoint insert_ops (anchor : option string) (nodes : list Node) : res (list Op) :=
match nodes with
| [] => Ok []
| node :: nodes => json ← node_to_json schema node; ops ← insert_ops (block_id node) nodes; Ok (InsertBlock anchor json :: ops)
end.
Definition id_or_empty (node : Node) : string := default "" (block_id node).
Fixpoint gap_ops (anchor : option string) (from to : list Node) : res (list Op) :=
match from, to with
| old :: from, node :: to =>
json ← node_to_json schema node;
ops ← gap_ops (Some (id_or_empty old)) from to;
Ok (ReplaceBlock (id_or_empty old) json :: ops)
| from, [] => Ok (List.map (fun old => DeleteBlock (id_or_empty old)) from)
| [], to => insert_ops anchor to
end.

(** [add_piece] of the blocks that go in. *)
Definition piece_raws (to : Model) (ops : list Op) (keep : gmap string string) : gmap string string :=
foldl (fun keep op => match op with ReplaceBlock _ json | InsertBlock _ json => collect_raws json (m_raws to) keep | _ => keep end) keep ops.
Definition piece_sources (to : Model) (nodes : list Node) (sources : gmap string string) : gmap string string :=
foldl (fun sources node =>
match block_id node with
| Some id => match m_sources to !! id with Some source => <[id := so_xml source]> sources | None => sources end
| None => sources
end) sources nodes.

(** The loop over the pairs, the last of which is the ends of both. *)
Fixpoint compare_loop (from_blocks to_blocks : list Node) (pairs : list (nat * nat)) (from_at to_at : nat) :
res (list Op * list Node) :=
match pairs with
| [] => Ok ([], [])
| (from_kept, to_kept) :: pairs =>
let anchor := if decide (from_at = 0) then None else from_blocks !! (from_at - 1) ≫= block_id in
let gone := take (from_kept - from_at) (drop from_at from_blocks) in
let come := take (to_kept - to_at) (drop to_at to_blocks) in
ops ← gap_ops anchor gone come;
'(more, nodes) ← compare_loop from_blocks to_blocks pairs (from_kept + 1) (to_kept + 1);
Ok (ops ++ more, come ++ nodes)
end.

Definition compare (from to : Model) : res (list Change) :=
let from_blocks := f_content (n_content (m_doc from)) in
let to_blocks := f_content (n_content (m_doc to)) in
from_keys ← try_map content_key from_blocks;
to_keys ← try_map content_key to_blocks;
if decide (from_keys = to_keys) then Ok []
else
let kept := common_blocks from_keys to_keys in
'(ops, nodes) ← compare_loop from_blocks to_blocks (kept ++ [(length from_blocks, length to_blocks)]) 0 0;
Ok [Merge ops (piece_raws to ops ∅) (piece_sources to nodes ∅)].
End compare.
End docx.

(* ------------------------------------------------------------ *)

(** [documents/crates/docx/src/place.rs]: where a person is in a Word document. *)

Open Scope nat_scope.

Section place.
Variable schema : Schema.

Definition position (place : Value) (key : string) : option nat :=
n ← ValueOps.get key place ≫= ValueOps.as_u64; Some (N.to_nat n).

(** The loop over the steps: nothing when one does not read. *)
Fixpoint map_ends (steps : list Value) (from to : Z) : res (option (Z * Z)) :=
match steps with
| [] => Ok (Some (from, to))
| json :: steps =>
step ← ok (step_from_json schema json);
match step with
| None => Ok None
| Some step =>
map ← Step.map step;
from ← StepMap.map map from 1;
to ← StepMap.map map to 1;
map_ends steps from to
end
end.

Definition position_json (n : Z) : Value := Num (PosInt (Z.to_N n)).

(** Moves a place across the steps of a change, as a selection moves. *)
Definition map_place (place : Value) (change : Change) : res Value :=
match change with
| Steps steps _ _ _ =>
match position place "from", position place "to" with
| Some from, Some to =>
ends ← map_ends steps (Z.of_nat from) (Z.of_nat to);
Ok match ends with
| Some (from, to) => set_key (set_key place "from" (position_json from)) "to" (position_json (Z.max to from))
| None => place
end
| _, _ => Ok place
end
| _ => Ok place
end.

(** [join] of words. *)
Fixpoint join_lines (words : list string) : string :=
match words with
| [] => ""
| [word] => word
| word :: words => word +:+ String (Ascii.ascii_of_nat 10) (join_lines words)
end%string.

(** The block that holds a place, and the words that it selects. *)
Definition describe_place (doc : Node) (place : Value) : res Value :=
match position place "from", position place "to" with
| Some from, Some to =>
let size := f_size (n_content doc) in
let from := Nat.min from size in
let to := Nat.min (Nat.max to from) size in
at_ ← ok (Resolved.resolve doc from);
block ← match at_ with
| Some at_ => index ← Resolved.index at_ 0; Ok (child ← Fragment.maybe_child (n_content doc) index; block_id child)
| None => Ok None
end;
slice ← ok (node_slice doc from to);
let words := match slice with
| Some slice => join_lines (List.map text_content (f_content (s_content slice)))
| None => ""%string end in
let described := match block with Some block => Map.insert "block" (Str block) [] | None => [] end in
Ok (Object (if decide (words = ""%string) then described else Map.insert "selected" (Str words) described))
| _, _ => Ok Null
end.
End place.
