(* ===== verification/DocxTouched.v ===== *)
(** The steps of a change leave alone each block that they do not name as touched. *)

From S2P Require Import Prelude Json Utf TextMap TextData TextSchema TextNode TextResolved.
From S2P Require Import TextReplace TextTokens TextCut TextSlice TextStep TextStepSpec TextJson.
From S2P Require Import TextBlocks Format DocxDiff DocxModel DocxOps DocxApply.
Open Scope nat_scope.

(** ** Lists *)

Lemma sublist_list_filter {A} (p : A -> bool) l : List.filter p l `sublist_of` l.
Proof. induction l as [|a l IH]; [done|]. simpl. destruct (p a); by constructor. Qed.

Lemma list_filter_mono {A} (p : A -> bool) l1 l2 : l1 `sublist_of` l2 -> List.filter p l1 `sublist_of` List.filter p l2.
Proof. induction 1; simpl; [done|destruct (p x); [by constructor|done]..]. Qed.

Lemma list_filter_and {A} (p q r : A -> bool) l : (forall a, r a = p a && q a) -> List.filter r l = List.filter q (List.filter p l).
Proof.
  intros Hr. induction l as [|a l IH]; [done|]. simpl. rewrite Hr. destruct (p a); simpl; [|done]. by rewrite IH.
Qed.

Lemma sublist_fmap {A B} (f : A -> B) l1 l2 : l1 `sublist_of` l2 -> f <$> l1 `sublist_of` f <$> l2.
Proof. induction 1; simpl; by constructor. Qed.

(** ** Ids of blocks *)

Definition children (doc : Node) : list Node := f_content (n_content doc).

(** The block has an id that is not touched. *)
Definition fresh (touched : gset string) (block : Node) : bool :=
match block_id block with Some id => bool_decide (id ∉ touched) | None => false end.
Definition untouched (touched : gset string) (doc : Node) : list Node := List.filter (fresh touched) (blocks (children doc)).

Definition seg_id (seg : list token) : option string :=
match seg with
| TOpen _ attrs _ :: _ => Map.get "id" attrs ≫= ValueOps.as_str
| TLeaf n :: _ => block_id n
| _ => None
end.
Definition seg_fresh (touched : gset string) (seg : list token) : bool :=
match seg_id seg with Some id => bool_decide (id ∉ touched) | None => false end.

Lemma seg_id_flatten b : is_block b = true -> seg_id (flatten b) = block_id b.
Proof.
  destruct b as [kind attrs [content size] marks text leaf]. rewrite flatten_eq. unfold is_block, Node.is_text. cbn [n_text].
  destruct text; [done|]. intros _. by destruct leaf.
Qed.

Lemma segs_fresh touched l : flatten <$> List.filter (fresh touched) (blocks l) = List.filter (seg_fresh touched) (flatten <$> blocks l).
Proof.
  induction l as [|b l IH]; [done|]. unfold blocks. cbn [List.filter]. destruct (is_block b) eqn:Eb; [|exact IH].
  cbn [List.filter]. rewrite fmap_cons. cbn [List.filter]. unfold seg_fresh at 1. rewrite seg_id_flatten by done.
  fold (fresh touched b). destruct (fresh touched b); [by rewrite fmap_cons; f_equal|exact IH].
Qed.

Section docx.
Context {schema : Schema}.
Local Abbreviation wfn n := (wf_node schema n = true).

(** ** One step *)

Lemma touched_spec doc from to first last low high ts :
Resolved.resolve doc from = Ok first -> Resolved.index first 0 = Ok low ->
Resolved.resolve doc to = Ok last -> Resolved.index last 0 = Ok high ->
touched_blocks doc from to = Ok ts -> forall i b id, low <= i <= high -> children doc !! i = Some b -> block_id b = Some id -> id ∈ ts.
Proof.
intros E1 I1 E2 I2. unfold touched_blocks. rewrite E1. cbn [ok mbind Result_bind]. rewrite E2. cbn [ok mbind Result_bind]. rewrite I1, I2. cbn [mbind Result_bind].
intros [= <-] i b id Hi Eb Eid. apply list_elem_of_omap. exists i. split; [apply elem_of_seq; lia|].
unfold Fragment.maybe_child. unfold children in Eb. by rewrite Eb.
Qed.

Lemma fresh_outside low high (touched : gset string) l : low <= length l ->
(forall i b id, low <= i <= high -> l !! i = Some b -> block_id b = Some id -> id ∈ touched) ->
List.filter (fresh touched) (blocks l) `sublist_of` blocks (outside low high l).
Proof.
intros Hlow Ht. unfold outside, blocks. rewrite List.filter_app.
destruct (decide (low <= S high)) as [Hle|Hgt].
- assert (El : l = take low l ++ take (S high - low) (drop low l) ++ drop (S high) l).
{ rewrite <- (take_drop low l) at 1. f_equal. rewrite <- (take_drop (S high - low) (drop low l)) at 1. f_equal.
rewrite drop_drop. f_equal. lia. }
rewrite El at 1. rewrite !List.filter_app. apply sublist_app; [apply sublist_list_filter|].
assert (List.filter (fresh touched) (List.filter is_block (take (S high - low) (drop low l))) = []) as ->; [|apply sublist_list_filter].
assert (Hm : forall b, b ∈ take (S high - low) (drop low l) -> fresh touched b = false).
{ intros b (i & Hb)%list_elem_of_lookup_1. pose proof (lookup_lt_Some _ _ _ Hb) as Hi. rewrite length_take in Hi.
rewrite lookup_take_lt, lookup_drop in Hb by lia. unfold fresh. destruct (block_id b) as [id|] eqn:Eid; [|done].
apply bool_decide_eq_false. intros Hn. apply Hn. apply (Ht (low + i) b); [lia|done..]. }
clear El. induction (take (S high - low) (drop low l)) as [|b m IH]; [done|]. cbn [List.filter].
assert (IHm : List.filter (fresh touched) (List.filter is_block m) = []) by (apply IH; intros; apply Hm; by right).
destruct (is_block b); [|done]. cbn [List.filter]. by rewrite Hm by left.
- rewrite <- (take_drop (S high) l) at 1. rewrite !List.filter_app. apply sublist_app; [|apply sublist_list_filter].
etrans; [apply sublist_list_filter|]. apply list_filter_mono.
assert (take (S high) l = take (S high) (take low l)) as -> by (by rewrite take_take, Nat.min_l by lia). apply sublist_take.
Qed.

Lemma run_step_untouched doc json step doc' touched : wfn doc -> n_text doc = None ->
step_from_json schema json = Ok step -> step_ok (schema:=schema) step doc ->
run_step schema doc json = Ok (doc', touched) ->
Step.apply schema step doc = Ok doc' /\ wfn doc' /\ n_text doc' = None /\
flatten <$> untouched touched doc `sublist_of` flatten <$> blocks (children doc').
Proof.
intros Hw Ht Ej Hok. unfold run_step. rewrite Ej. cbn [mbind Result_bind].
intros (ts & Ets & (doc1 & Ea & [= <- <-])%bind_ok)%bind_ok. split; [done|].
pose proof (apply_outcome (schema:=schema) _ _ _ Hw Ht Hok Ea) as (Hw' & Ht' & _ & _). split; [done|]. split; [done|].
pose proof (step_local (schema:=schema) _ _ _ Hw Ht Hok Ea) as Hl. revert Hl Ets. destruct (Step.range step) as [[from to]|] eqn:Er.
- intros (upto & new & El & Hu) Ets. unfold untouched.
assert (Hres : forall pos, pos <= f_size (n_content doc) -> exists r i, Resolved.resolve doc pos = Ok r /\ Resolved.index r 0 = Ok i /\ i <= length (children doc)).
{ intros pos Hpos. destruct (resolve_spec (schema:=schema) doc pos Hw Hpos) as (r & Erp & _).
destruct (resolve_index (schema:=schema) _ _ _ Hw Erp) as (i & off & Ei & (_ & Hi & _) & _). eauto. }
pose proof (step_in_range _ _ _ Ea) as Hin. rewrite Er in Hin.
destruct (Hres from) as (first & low & E1 & I1 & L1); [tauto|]. destruct (Hres to) as (last & high & E2 & I2 & L2); [tauto|].
etrans; [|eapply (around_blocks (schema:=schema) doc (children doc1) from to upto first last low high new); eauto].
apply sublist_fmap, fresh_outside; [done|]. intros i b id Hi Eb Eid. apply elem_of_list_to_set.
by eapply (touched_spec doc from to first last low high ts).
- intros Hl [= <-]. change (list_to_set []) with (∅ : gset string).
assert (flatten <$> blocks (children doc1) = flatten <$> blocks (children doc)) as ->.
{ pose proof (scan_flat (children doc1)) as H1. change (flat (children doc1)) with (toks (n_content doc1)) in H1.
rewrite Hl in H1. pose proof (scan_flat (children doc)) as H2. change (flat (children doc)) with (toks (n_content doc)) in H2.
rewrite H1 in H2. congruence. }
apply sublist_fmap, sublist_list_filter.
Qed.

(** ** All steps of a change *)

(** Each step is one that the tree text takes as it stands ([step_ok]). *)
Fixpoint steps_ok (doc : Node) (steps : list Value) : Prop :=
match steps with
| [] => True
| json :: steps => forall step, step_from_json schema json = Ok step ->
step_ok (schema:=schema) step doc /\ forall doc', Step.apply schema step doc = Ok doc' -> steps_ok doc' steps
end.

Lemma run_steps_untouched steps : forall doc doc' touched, wfn doc -> n_text doc = None -> steps_ok doc steps ->
run_steps schema doc steps = Ok (doc', touched) ->
wfn doc' /\ n_text doc' = None /\ flatten <$> untouched touched doc `sublist_of` flatten <$> blocks (children doc').
Proof.
induction steps as [|json steps IH]; intros doc doc' touched Hw Ht Hok.
{ intros [= <- <-]. split; [done|]. split; [done|]. apply sublist_fmap, sublist_list_filter. }
cbn [run_steps]. intros ([doc1 t1] & E1 & ([doc2 t2] & E2 & [= <- <-])%bind_ok)%bind_ok.
pose proof E1 as (step & Ej & _)%bind_ok. destruct (Hok step Ej) as [Hs Hnext].
destruct (run_step_untouched _ _ _ _ _ Hw Ht Ej Hs E1) as (Ea & Hw1 & Ht1 & Hsub).
destruct (IH doc1 doc2 t2 Hw1 Ht1 (Hnext _ Ea) E2) as (Hw2 & Ht2 & Hsub2). split; [done|]. split; [done|].
etrans; [|exact Hsub2]. unfold untouched in *. rewrite !segs_fresh in *.
rewrite (list_filter_and (seg_fresh t1) (seg_fresh t2) (seg_fresh (t1 ∪ t2))).
- by apply list_filter_mono.
- intros seg. unfold seg_fresh. destruct (seg_id seg) as [id|]; [|done]. rewrite <- bool_decide_and. apply bool_decide_ext. set_solver.
Qed.

(** ** The changes since an agent's read *)

Definition change_ok (doc : Node) (change : Change) : Prop :=
match change with Steps steps _ _ _ => steps_ok doc steps | _ => True end.

(** One model comes from another by changes in the order. *)
Inductive follows : Model -> list (Ordered Change) -> Model -> Prop :=
| follows_none m : follows m [] m
| follows_next m ordered since m1 m2 :
apply schema m (o_change ordered) [] = Ok (m1, o_change ordered) -> change_ok (m_doc m) (o_change ordered) ->
follows m1 since m2 -> follows m (ordered :: since) m2.

(** What views see of a change is steps. *)
Lemma apply_steps m change since m' change' : apply schema m change since = Ok (m', change') ->
exists steps touched keep sources, change' = Steps steps touched keep sources /\
run_steps schema (m_doc m) steps = Ok (m_doc m', touched).
Proof.
destruct change as [steps touched keep sources|ops track author|ops keep sources]; cbn [apply].
- destruct (existsb _ _); [done|]. intros ([doc t] & E & [= <- <-])%bind_ok. do 4 eexists. split; [done|].
unfold invalid in E. by destruct (run_steps schema (m_doc m) steps) as [[]| |]; simplify_eq.
- intros (_ & _ & (steps & _ & ([doc t] & E & [= <- <-])%bind_ok)%bind_ok)%bind_ok. do 4 eexists. split; [done|].
unfold invalid in E. by destruct (run_steps schema (m_doc m) steps) as [[]| |]; simplify_eq.
- intros (steps & _ & ([doc t] & E & [= <- <-])%bind_ok)%bind_ok. do 4 eexists. split; [done|].
unfold invalid in E. by destruct (run_steps schema (m_doc m) steps) as [[]| |]; simplify_eq.
Qed.

Lemma check_conflicts_ok ops since : check_conflicts ops since = Ok tt ->
Forall (fun ordered => match o_change ordered with
| Steps _ touched _ _ => forall target, target ∈ flat_map targets ops -> target ∉ touched
| _ => True end) since.
Proof.
induction since as [|ordered since IH]; [constructor|]. cbn [check_conflicts].
destruct (o_change ordered) as [steps touched keep sources| |] eqn:Ec; try (intros Hc; constructor; [by rewrite Ec|by apply IH]).
destruct (conflict ops touched) eqn:Ef; [done|]. intros Hc. constructor; [|by apply IH]. rewrite Ec.
intros target Hin Htouched. unfold conflict in Ef. apply fmap_None, list_find_None in Ef.
rewrite Forall_forall in Ef. by apply (Ef target).
Qed.

Lemma untouched_stays m since m' : follows m since m' -> wfn (m_doc m) -> n_text (m_doc m) = None ->
forall id b, Forall (fun ordered => match o_change ordered with Steps _ touched _ _ => id ∉ touched | _ => True end) since ->
b ∈ blocks (children (m_doc m)) -> block_id b = Some id ->
exists b', b' ∈ blocks (children (m_doc m')) /\ block_id b' = Some id /\ flatten b' = flatten b.
Proof.
induction 1 as [m|m ordered since m1 m2 Ea Hok Hf IH]; intros Hw Ht id b Hall Hb Hid; [by exists b|].
apply Forall_cons in Hall as [Hid1 Hall].
destruct (apply_steps _ _ _ _ _ Ea) as (steps & touched & keep & sources & Ec & Er). rewrite Ec in Hid1, Hok.
destruct (run_steps_untouched _ _ _ _ Hw Ht Hok Er) as (Hw1 & Ht1 & Hsub).
assert (Hin : flatten b ∈ flatten <$> blocks (children (m_doc m1))).
{ eapply elem_of_sublist; [|exact Hsub]. apply list_elem_of_fmap_2. unfold untouched. apply list_elem_of_In, filter_In.
split; [by apply list_elem_of_In|]. unfold fresh. rewrite Hid. by apply bool_decide_eq_true. }
apply list_elem_of_fmap in Hin as (b1 & Eb1 & Hb1).
assert (Hblock : forall b l, b ∈ blocks l -> is_block b = true) by (intros ? ? [_ ?]%list_elem_of_In%filter_In; done).
assert (Hid1' : block_id b1 = Some id).
{ rewrite <- (seg_id_flatten b1), <- Eb1, seg_id_flatten; [done|by eapply Hblock..]. }
destruct (IH Hw1 Ht1 id b1 Hall Hb1 Hid1') as (b2 & H1 & H2 & H3). exists b2. split; [done|]. split; [done|]. congruence.
Qed.
End docx.
