(* ===== verification/DocxSchema.v ===== *)
(** [documents/crates/docx/schema.json], and the schema that [model.rs] compiles it to. *)

From S2P Require Import Prelude Json TextData TextSchema TextExpr TextNfa TextCompile.
From S2P Require Import TextCompileSpec TextTable TextNew.
Open Scope nat_scope.

Definition attr (value : Value) : Value := Object [("default", value)]%string.
Definition given : Value := Object [].
Definition attrs (l : list (string * Value)) : Map.t := foldl (fun m e => Map.insert e.1 e.2 m) [] l.

Definition docx_spec : SchemaSpec := MkSchemaSpec [
  MkNodeSpec "doc" (Some "block+") None None false false [];
  MkNodeSpec "paragraph" (Some "inline*") (Some "block") None false false (attrs [
    ("id", attr Null); ("style", attr Null); ("align", attr Null); ("numId", attr Null);
    ("ilvl", attr Null); ("props", attr Null); ("pageBreak", attr (Bool false))]);
  MkNodeSpec "table" (Some "tableRow+") (Some "block") None false false (attrs [("id", attr Null); ("props", attr Null)]);
  MkNodeSpec "tableRow" (Some "tableCell+") None None false false (attrs [("props", attr Null)]);
  MkNodeSpec "tableCell" (Some "block+") None None false false (attrs [
    ("props", attr Null); ("span", attr (Num (PosInt 1))); ("merged", attr (Bool false))]);
  MkNodeSpec "opaque" None (Some "block") None false true (attrs [("id", attr Null); ("raw", attr Null); ("text", attr (Str ""))]);
  MkNodeSpec "text" None (Some "inline") None false false [];
  MkNodeSpec "hardBreak" None (Some "inline") None true false [];
  MkNodeSpec "tab" None (Some "inline") None true false [];
  MkNodeSpec "image" None (Some "inline") None true true (attrs [
    ("asset", given); ("width", given); ("height", given); ("raw", attr Null)]);
  MkNodeSpec "inlineOpaque" None (Some "inline") None true true (attrs [("raw", given); ("text", attr (Str ""))])
]%string [
  MkMarkSpec "run" None (Some "") (attrs [("props", given)]);
  MkMarkSpec "bold" None None [];
  MkMarkSpec "italic" None None [];
  MkMarkSpec "underline" None None [];
  MkMarkSpec "strike" None None [];
  MkMarkSpec "textStyle" None None (attrs [("color", attr Null); ("size", attr Null); ("font", attr Null); ("highlight", attr Null)]);
  MkMarkSpec "link" None None (attrs [("href", given); ("relation", attr Null)]);
  MkMarkSpec "insertion" None None (attrs [("author", attr (Str "")); ("date", attr (Str ""))]);
  MkMarkSpec "deletion" None None (attrs [("author", attr (Str "")); ("date", attr (Str ""))])
]%string None.

(** [schema()], whose [unwrap_or_else] is never reached ([docx_schema_new]). *)
Definition docx_schema : Schema :=
  Eval vm_compute in match new docx_spec with Ok schema => schema | _ => MkSchema [] [] ∅ ∅ [] 0 0 end.

Lemma docx_schema_new : new docx_spec = Ok docx_schema.
Proof. vm_compute. reflexivity. Qed.

Lemma docx_schema_wf : Schema.wf docx_schema = true.
Proof. reflexivity. Qed.

Lemma docx_spec_tame : tame_spec docx_spec = true.
Proof. vm_compute. reflexivity. Qed.
