(* ===== verification/DocxCompare.v ===== *)
(** The ops of a merge as edits of the list of blocks: what [merge_steps] sends to the tree text
    puts whole blocks in, takes them out and changes them. *)

From stdpp Require Import sorting.
From S2P Require Import Prelude Json TextData TextSchema TextNode TextResolved TextReplace.
From S2P Require Import TextTokens TextStep TextJson TextJsonSpec Format TextBlocks DocxDiff.
From S2P Require Import DocxModel DocxOps DocxApply DocxTouched DocxSchema.
Open Scope nat_scope.

(** ** Blocks of the schema *)

(** A name of the map stands for the type that has it, and each type is in the map. *)
Definition names_agree {T} (name : T -> string) (types : list T) (ids : gmap string nat) : bool :=
forallb (fun e => match types !! e.2 with Some t => bool_decide (name t = e.1) | None => false end) (map_to_list ids) &&
forallb (fun e => bool_decide (ids !! name e.2 = Some e.1)) (imap pair types).

Lemma names_agree_spec {T} (name : T -> string) types ids : names_agree name types ids = true ->
  forall n id, ids !! n = Some id <-> exists t, types !! id = Some t /\ name t = n.
Proof.
  intros [H1 H2]%andb_true_iff n id. rewrite forallb_forall in H1, H2. split.
  - intros Hid. specialize (H1 (n, id)). simpl in H1. destruct (types !! id) as [t|]; [exists t; split; [done|]|].
    + apply (bool_decide_eq_true _), H1, list_elem_of_In, elem_of_map_to_list. done.
    + discriminate H1. apply list_elem_of_In, elem_of_map_to_list. done.
  - intros (t & Ht & <-). specialize (H2 (id, t)). simpl in H2. apply (bool_decide_eq_true _), H2, list_elem_of_In.
    apply elem_of_lookup_imap. by exists id, t.
Qed.

Lemma docx_schema_named : named docx_schema.
Proof.
  constructor; [apply names_agree_spec; vm_compute; reflexivity..|]. eexists. split; reflexivity.
Qed.

(** A paragraph, a table or an opaque block without marks, which JSON can hold. *)
Definition word_block (n : Node) : bool :=
wf_node docx_schema n && portable docx_schema (S MOST_DEPTH) n && is_block n &&
existsb (Nat.eqb (n_kind n)) [1; 2; 5] && match n_marks n with [] => true | _ => false end.

Definition word_doc (doc : Node) : Prop :=
wf_node docx_schema doc = true /\ n_kind doc = 0 /\ children doc <> [] /\ Forall (fun n => word_block n = true) (children doc).

Lemma word_block_facts n : word_block n = true -> wf_node docx_schema n = true /\ portable docx_schema (S MOST_DEPTH) n = true /\
  is_block n = true /\ n_marks n = [] /\ (n_kind n = 1 \/ n_kind n = 2 \/ n_kind n = 5).
Proof.
  unfold word_block. rewrite !andb_true_iff. intros ((((Hw & Hp) & Hb) & Hk) & Hm). split_and!; [done..|by destruct (n_marks n)|].
  cbn [existsb] in Hk. rewrite !orb_true_iff, !Nat.eqb_eq in Hk. destruct Hk as [?|[?|[?|?]]]; [by eauto..|done].
Qed.

Lemma words_wf l : Forall (fun n => word_block n = true) l -> wf_list docx_schema l /\ Forall (fun n => is_block n = true) l.
Proof. intros Hl. split; (eapply Forall_impl; [exact Hl|]); intros n Hn%word_block_facts; tauto. Qed.

(** What holds blocks, and nothing else, is a document. *)
Lemma word_content_valid l : l <> [] -> Forall (fun n => word_block n = true) l ->
  Schema.valid_content docx_schema 0 (Fragment.new l) = Ok true.
Proof.
  intros Hne Hl.
  assert (Hmarks : Schema.allows_marks docx_schema 0 l = Ok true).
  { clear Hne. induction Hl as [|n l Hn _ IH]; [done|]. unfold Schema.allows_marks in *. cbn [all_of].
    apply word_block_facts in Hn as (_ & _ & _ & -> & _). exact IH. }
  assert (Hloop : forall l, Forall (fun n => word_block n = true) l -> Schema.match_children docx_schema 2 l = Ok (Some 2)).
  { clear. induction 1 as [|n l Hn _ IH]; [done|]. cbn [Schema.match_children]. unfold Schema.match_state.
    cbn [docx_schema sc_matches lookup list_lookup or_panic mbind Result_bind next].
    apply word_block_facts in Hn as (_ & _ & _ & _ & [E|[E|E]]); rewrite E; exact IH. }
  destruct Hl as [|n l Hn Hl]; [done|]. unfold Schema.valid_content, Schema.match_fragment, Fragment.new. cbn [f_content].
  assert (Schema.match_children docx_schema 1 (n :: l) = Ok (Some 2)) as E.
  { cbn [Schema.match_children]. unfold Schema.match_state. cbn [docx_schema sc_matches lookup list_lookup or_panic mbind Result_bind next].
    apply word_block_facts in Hn as (_ & _ & _ & _ & [E|[E|E]]); rewrite E; by apply Hloop. }
  change (Schema.node docx_schema 0) with (Ok (E:=Failed) (default (MkNodeType "" [] [] false false 0 false None) (sc_nodes docx_schema !! 0))).
  cbn [mbind Result_bind docx_schema sc_nodes lookup list_lookup default from_option id nt_content_match].
  fold docx_schema. rewrite E. cbn [mbind Result_bind]. exact Hmarks.
Qed.

(** ** Edits *)

Inductive Edit : Type :=
| Put (id : string) (n : Node)
| Cut (id : string)
| Add (after : option string) (n : Node).

(** The first block that has the id becomes other blocks. *)
Fixpoint at_block (id : string) (f : Node -> list Node) (l : list Node) : option (list Node) :=
match l with
| [] => None
| b :: l => if decide (block_id b = Some id) then Some (f b ++ l) else cons b <$> at_block id f l
end.

Definition edit (l : list Node) (e : Edit) : list Node :=
match e with
| Put id n => default l (at_block id (fun _ => [n]) l)
| Cut id => default l (at_block id (fun _ => []) l)
| Add None n => l ++ [n]
| Add (Some id) n => default (l ++ [n]) (at_block id (fun b => [b; n]) l)
end.

(** The op that a merge has for an edit. *)
Definition op_of (e : Edit) (op : Op) : Prop :=
match e, op with
| Put id n, ReplaceBlock block json => block = id /\ node_to_json docx_schema n = Ok json
| Cut id, DeleteBlock block => block = id
| Add anchor n, InsertBlock after json => after = anchor /\ node_to_json docx_schema n = Ok json
| _, _ => False
end.

(** The block that goes in is one of the schema, and what goes out is not all there is. *)
Definition fits (l : list Node) (e : Edit) : Prop :=
match e with Put _ n | Add _ n => word_block n = true | Cut _ => length l <> 1 end.
Fixpoint fit_all (l : list Node) (edits : list Edit) : Prop :=
match edits with [] => True | e :: edits => fits l e /\ fit_all (edit l e) edits end.

Lemma block_start_split position l id :
match block_start_from position l id with
| Some (start, b) => exists pre post, l = pre ++ b :: post /\ start = position + total_size pre /\ forall f, at_block id f l = Some (pre ++ f b ++ post)
| None => forall f, at_block id f l = None
end.
Proof.
  induction l as [|b l IH] in position |- *; [done|]. cbn [block_start_from at_block]. destruct (decide (block_id b = Some id)) as [E|E].
  - exists [], l. split; [done|]. split; [unfold total_size; simpl; lia|done].
  - specialize (IH (position + Node.node_size b)). destruct (block_start_from _ l id) as [[start c]|].
    + destruct IH as (pre & post & -> & -> & Hf). exists (b :: pre), post. split; [done|]. split; [rewrite total_size_cons; lia|].
      intros f. by rewrite Hf.
    + intros f. by rewrite IH.
Qed.

Lemma run_steps_app schema steps1 : forall doc steps2 doc1 t1 doc2 t2, run_steps schema doc steps1 = Ok (doc1, t1) ->
  run_steps schema doc1 steps2 = Ok (doc2, t2) -> run_steps schema doc (steps1 ++ steps2) = Ok (doc2, t1 ∪ t2).
Proof.
  induction steps1 as [|json steps1 IH]; intros doc steps2 doc1 t1 doc2 t2.
  - intros [= <- <-] E. rewrite (left_id_L ∅ (∪)). exact E.
  - cbn [run_steps app]. intros ([d ta] & -> & ([d' tb] & E & [= <- <-])%bind_ok)%bind_ok E2. cbn [mbind Result_bind].
    rewrite (IH _ _ _ _ _ _ E E2). cbn [mbind Result_bind]. by rewrite (assoc_L (∪)).
Qed.

Lemma copy_same doc : wf_node docx_schema doc = true -> Node.copy doc (Fragment.new (children doc)) = doc.
Proof.
  intros Hw. pose proof (wf_content _ Hw) as [Hs _]. destruct doc as [kind attrs [content size] marks text leaf].
  unfold Node.copy, children, Fragment.new in *. simpl in *. by rewrite <- Hs.
Qed.

Lemma word_doc_text doc : word_doc doc -> n_text doc = None.
Proof.
  intros (Hw & Hk & _). destruct (n_text doc) eqn:E; [|done]. destruct (wf_text _ _ Hw E) as [Hkind _]. by rewrite Hk in Hkind.
Qed.

Lemma word_doc_copy doc l : word_doc doc -> l <> [] -> Forall (fun n => word_block n = true) l -> word_doc (Node.copy doc (Fragment.new l)).
Proof.
  intros Hd Hl Hf. destruct (words_wf _ Hf) as [Hwl _]. pose proof (word_doc_text _ Hd) as Ht. destruct Hd as (Hw & Hk & _).
  split_and!; [by apply wf_copy|done..].
Qed.

Definition whole_slice (new : list Node) : Slice := MkSlice (Fragment.new new) 0 0.

(** One step that puts at most one block in the place of some. *)
Lemma replace_step_runs doc pre mid post new : word_doc doc -> children doc = pre ++ mid ++ post -> length new <= 1 ->
  Forall (fun n => word_block n = true) new -> pre ++ new ++ post <> [] ->
  exists json touched, let doc' := Node.copy doc (Fragment.new (pre ++ new ++ post)) in
    run_op docx_schema doc [Step.Replace (total_size pre) (total_size pre + total_size mid) (whole_slice new) false] = Ok (doc', [json]) /\
    run_steps docx_schema doc [json] = Ok (doc', touched) /\ word_doc doc'.
Proof.
  intros Hd El Hlen Hnew Hne. pose proof Hd as (Hw & Hk & _ & Hall). destruct (words_wf _ Hnew) as [Hwn Hbn], (words_wf _ Hall) as [Hwl Hbl].
  assert (Hall' : Forall (fun n => word_block n = true) (pre ++ new ++ post)).
  { rewrite El in Hall. apply Forall_app in Hall as [H1 [_ H2]%Forall_app]. apply Forall_app. split; [done|]. by apply Forall_app. }
  assert (Hc : portable_step docx_schema (Step.Replace (total_size pre) (total_size pre + total_size mid) (whole_slice new) false) = true).
  { destruct new as [|n [|? ?]]; [vm_compute; reflexivity| |simpl in Hlen; lia]. apply Forall_cons in Hnew as [Hnew _].
    apply word_block_facts in Hnew as (_ & Hp & _). pose proof (portable_size _ _ _ Hp).
    cbn [portable_step]. unfold carried, portable_slice, portable_fragment, whole_slice, Fragment.new. cbn [s_content f_content f_size s_open_start s_open_end joined forallb].
    rewrite Hp. simpl. rewrite Nat.add_0_r, Nat.eqb_refl, !orb_true_r. cbn [andb]. by rewrite (proj2 (Nat.ltb_lt _ _)) by lia. }
  destruct (step_back docx_schema docx_schema_named _ Hc) as (json & Hj1 & Hj2).
  assert (Hr : forall i, i <= length (children doc) -> Resolved.resolve doc (total_size (take i (children doc))) = Ok (between doc i))
    by (intros; by apply (resolve_between (schema:=docx_schema))).
  pose proof (Hr (length pre) ltac:(rewrite El, length_app; lia)) as R1. rewrite El, take_app_length in R1.
  pose proof (Hr (length (pre ++ mid)) ltac:(rewrite El, !length_app; lia)) as R2. rewrite El, app_assoc, take_app_length, total_size_app in R2.
  assert (Hv : Schema.valid_content docx_schema (n_kind doc) (Fragment.new (pre ++ new ++ post)) = Ok true).
  { rewrite Hk. by apply word_content_valid. }
  pose proof (node_replace_blocks doc pre mid post new Hw El Hbl Hwn Hbn Hv) as Hrep.
  assert (Hrun : exists touched, run_step docx_schema doc json = Ok (Node.copy doc (Fragment.new (pre ++ new ++ post)), touched)).
  { unfold run_step. rewrite Hj2. cbn [mbind Result_bind Step.range]. unfold touched_blocks, ok. rewrite R1. cbn [mbind Result_bind]. rewrite R2.
    cbn [mbind Result_bind Resolved.index Resolved.level between r_path lookup list_lookup or_panic l_index fmap Result_fmap Step.apply].
    unfold whole_slice. rewrite Hrep. cbn [mbind Result_bind]. eauto. }
  destruct Hrun as [touched Hrun].
  assert (Hsteps : run_steps docx_schema doc [json] = Ok (Node.copy doc (Fragment.new (pre ++ new ++ post)), touched ∪ ∅)).
  { cbn [run_steps]. by rewrite Hrun. }
  exists json, (touched ∪ ∅). split_and!; [|done|by apply word_doc_copy].
  cbn [run_op]. rewrite Hj1. cbn [of_text mbind Result_bind]. rewrite Hsteps. done.
Qed.

Lemma edit_words l e : Forall (fun n => word_block n = true) l -> l <> [] -> fits l e ->
  Forall (fun n => word_block n = true) (edit l e) /\ edit l e <> [].
Proof.
  intros Hl Hne Hf. assert (Hat : forall id f l', at_block id f l = Some l' -> (forall b, word_block b = true -> Forall (fun n => word_block n = true) (f b)) ->
    exists pre b post, l = pre ++ b :: post /\ l' = pre ++ f b ++ post /\ Forall (fun n => word_block n = true) l').
  { intros id f l' E Hfb. pose proof (block_start_split 0 l id) as Hs. destruct (block_start_from 0 l id) as [[start b]|]; [|by rewrite Hs in E].
    destruct Hs as (pre & post & El & _ & Hs). rewrite Hs in E. injection E as <-. exists pre, b, post. split; [done|]. split; [done|].
    rewrite El in Hl. apply Forall_app in Hl as [H1 [H2 H3]%Forall_cons]. apply Forall_app. split; [done|]. apply Forall_app. split; [by apply Hfb|done]. }
  destruct e as [key n|key|[key|] n]; cbn [edit fits] in *.
  - destruct (at_block key _ l) as [l'|] eqn:E; cbn [default from_option id]; [|done].
    destruct (Hat _ _ _ E) as (pre & b & post & -> & -> & H); [by repeat constructor|]. split; [done|]. by destruct pre.
  - destruct (at_block key _ l) as [l'|] eqn:E; cbn [default from_option id]; [|done].
    destruct (Hat _ _ _ E) as (pre & b & post & -> & -> & H); [by constructor|]. split; [done|]. destruct pre; [|done]. by destruct post.
  - destruct (at_block key _ l) as [l'|] eqn:E; cbn [default from_option id].
    + destruct (Hat _ _ _ E) as (pre & b & post & -> & -> & H); [by repeat constructor|]. split; [done|]. by destruct pre.
    + split; [|by destruct l]. apply Forall_app. split; [done|by constructor].
  - split; [|by destruct l]. apply Forall_app. split; [done|by constructor].
Qed.

(** What an op says in the tree text, next to what it says on the list of blocks. *)
Definition does (doc : Node) (steps : list Step.t) (l : list Node) : Prop :=
exists jsons touched, run_op docx_schema doc steps = Ok (Node.copy doc (Fragment.new l), jsons) /\
  run_steps docx_schema doc jsons = Ok (Node.copy doc (Fragment.new l), touched).

Lemma does_replace doc pre mid post new from to l : word_doc doc -> children doc = pre ++ mid ++ post -> length new <= 1 ->
  Forall (fun n => word_block n = true) new -> l = pre ++ new ++ post -> l <> [] ->
  from = total_size pre -> to = total_size pre + total_size mid ->
  does doc [Step.Replace from to (whole_slice new) false] l.
Proof.
  intros Hd El Hlen Hnew -> Hne -> ->. destruct (replace_step_runs doc pre mid post new) as (json & touched & H1 & H2 & _); [done..|].
  by exists [json], touched.
Qed.

Lemma does_nothing doc : word_doc doc -> does doc [] (children doc).
Proof. intros (Hw & _). exists [], ∅. by rewrite copy_same. Qed.

Lemma add_at_end doc n : word_doc doc -> word_block n = true -> does doc [insert_step (f_size (n_content doc)) n] (children doc ++ [n]).
Proof.
  intros Hd Hn. pose proof Hd as (Hw & _). destruct (wf_content _ Hw) as [Hs _]. fold (total_size (children doc)) in Hs.
  apply (does_replace doc (children doc) [] [] [n]); [done|by rewrite !app_nil_r|done|by constructor|done|by destruct (children doc)|done|].
  rewrite Hs. by rewrite Nat.add_0_r.
Qed.

Lemma merge_op_does doc e op taken : word_doc doc -> op_of e op -> fits (children doc) e ->
  exists steps, merge_op docx_schema doc op taken = Ok steps /\ does doc steps (edit (children doc) e).
Proof.
  intros Hd Hop Hf. pose proof Hd as (Hw & Hk & Hne & Hall). destruct (edit_words _ _ Hall Hne Hf) as [_ Hne'].
  assert (Hback : forall n json, word_block n = true -> node_to_json docx_schema n = Ok json -> node_from_json docx_schema json = Ok n).
  { intros n json (_ & Hp & _)%word_block_facts Hj. destruct (node_back docx_schema docx_schema_named _ _ Hp) as (j & Hj1 & Hj2).
    unfold node_from_json. congruence. }
  pose proof (block_start_split 0 (children doc)) as Hs. unfold merge_op.
  destruct e as [key n|key|anchor n], op; try done; cbn [op_of] in Hop.
  - destruct Hop as [-> Hj]. specialize (Hs key). cbn [op_steps edit fits] in *. unfold block_start. fold (children doc).
    destruct (block_start_from 0 (children doc) key) as [[start b]|]; cbn [ok_or mbind Result_bind].
    + destruct Hs as (pre & post & El & -> & Hs). rewrite (Hback _ _ Hf Hj). cbn [of_text mbind Result_bind]. rewrite Hs in *. cbn [default from_option id] in *.
      eexists. split; [done|]. apply (does_replace doc pre [b] post [n]); [done|done|done|by constructor|done..|]. rewrite total_size_cons. change (total_size []) with 0. lia.
    + exists []. rewrite Hs. split; [done|by apply does_nothing].
  - subst block. specialize (Hs key). cbn [op_steps edit fits] in *. unfold block_start. fold (children doc).
    destruct (block_start_from 0 (children doc) key) as [[start b]|]; cbn [ok_or mbind Result_bind].
    + destruct Hs as (pre & post & El & -> & Hs). unfold Node.child_count, Fragment.child_count. fold (children doc).
      rewrite (proj2 (Nat.eqb_neq _ _)) by done. rewrite Hs in *. cbn [default from_option id] in *.
      eexists. split; [done|]. apply (does_replace doc pre [b] post []); [done|done|simpl; lia|by constructor|done..|]. rewrite total_size_cons. change (total_size []) with 0. lia.
    + exists []. rewrite Hs. split; [done|by apply does_nothing].
  - destruct Hop as [-> Hj]. cbn [op_steps edit fits] in *. destruct anchor as [key|]; cbn [end_after].
    + specialize (Hs key). unfold block_start. fold (children doc).
      destruct (block_start_from 0 (children doc) key) as [[start b]|]; cbn [ok_or mbind Result_bind].
      * destruct Hs as (pre & post & El & -> & Hs). rewrite (Hback _ _ Hf Hj). cbn [of_text mbind Result_bind]. rewrite Hs in *. cbn [default from_option id] in *.
        eexists. split; [done|]. apply (does_replace doc (pre ++ [b]) [] post [n]); [done|by rewrite <- app_assoc|done|by constructor| |done|..].
        -- by rewrite <- app_assoc.
        -- rewrite total_size_app, total_size_cons. change (total_size []) with 0. lia.
        -- rewrite total_size_app, total_size_cons. change (total_size []) with 0. lia.
      * rewrite (Hback _ _ Hf Hj). cbn [of_text mbind Result_bind]. eexists. split; [done|]. rewrite Hs. by apply add_at_end.
    + rewrite (Hback _ _ Hf Hj). cbn [of_text mbind Result_bind]. eexists. split; [done|]. by apply add_at_end.
Qed.

(** The ops of a merge do the edits, one after the other. *)
Lemma merge_steps_do edits : forall ops doc taken, word_doc doc -> Forall2 op_of edits ops -> fit_all (children doc) edits ->
  exists steps touched, merge_steps_from docx_schema doc ops taken = Ok steps /\
    run_steps docx_schema doc steps = Ok (Node.copy doc (Fragment.new (foldl edit (children doc) edits)), touched).
Proof.
  induction edits as [|e edits IH]; intros ops doc taken Hd Hops Hf.
  - apply Forall2_nil_inv_l in Hops as ->. exists [], ∅. split; [done|]. cbn [run_steps foldl]. rewrite copy_same; [done|apply Hd].
  - apply Forall2_cons_inv_l in Hops as (op & ops' & Hop & Hops & ->). destruct Hf as [Hf Hfits].
    destruct (merge_op_does doc e op taken Hd Hop Hf) as (steps & Em & jsons & t1 & E1 & E2).
    pose proof Hd as (_ & _ & Hne & Hall). destruct (edit_words _ _ Hall Hne Hf) as [Hall' Hne'].
    destruct (IH ops' (Node.copy doc (Fragment.new (edit (children doc) e))) (S taken)) as (more & t2 & E3 & E4);
      [by apply word_doc_copy|done|done|].
    exists (jsons ++ more), (t1 ∪ t2). cbn [merge_steps_from]. rewrite Em. cbn [mbind Result_bind]. rewrite E1. cbn [mbind Result_bind].
    rewrite E3. cbn [mbind Result_bind]. split; [done|]. cbn [foldl]. by eapply run_steps_app.
Qed.

(* ------------------------------------------------------------ *)

(** What [compare] finds between two files, as edits of the list of blocks: they turn the blocks
    of the one file into those of the other. *)

Open Scope nat_scope.

(** ** The edits of a gap *)

Fixpoint add_edits (anchor : option string) (nodes : list Node) : list Edit :=
match nodes with [] => [] | n :: nodes => Add anchor n :: add_edits (block_id n) nodes end.

Fixpoint gap_edits (anchor : option string) (gone come : list Node) : list Edit :=
match gone, come with
| old :: gone, n :: come => Put (id_or_empty old) n :: gap_edits (Some (id_or_empty old)) gone come
| gone, [] => (fun old => Cut (id_or_empty old)) <$> gone
| [], come => add_edits anchor come
end.

Lemma word_json n : word_block n = true -> exists json, node_to_json docx_schema n = Ok json.
Proof. intros (_ & Hp & _)%word_block_facts. destruct (node_back docx_schema docx_schema_named _ _ Hp) as (j & Hj & _). by exists j. Qed.

Lemma insert_ops_edits nodes : forall anchor, Forall (fun n => word_block n = true) nodes ->
  exists ops, insert_ops docx_schema anchor nodes = Ok ops /\ Forall2 op_of (add_edits anchor nodes) ops.
Proof.
  induction nodes as [|n nodes IH]; intros anchor Hw; [by exists []|]. apply Forall_cons in Hw as [Hn Hw].
  destruct (word_json n Hn) as [json Hj], (IH (block_id n) Hw) as (ops & E & Hops). exists (InsertBlock anchor json :: ops).
  cbn [insert_ops add_edits]. rewrite Hj. cbn [mbind Result_bind]. rewrite E. split; [done|]. by constructor.
Qed.

Lemma gap_ops_edits gone : forall anchor come, Forall (fun n => word_block n = true) come ->
  exists ops, gap_ops docx_schema anchor gone come = Ok ops /\ Forall2 op_of (gap_edits anchor gone come) ops.
Proof.
  assert (Hcut : forall gone, Forall2 op_of ((fun old => Cut (id_or_empty old)) <$> gone) (List.map (fun old => DeleteBlock (id_or_empty old)) gone)).
  { clear. induction gone as [|old gone IH]; constructor; [done|exact IH]. }
  induction gone as [|old gone IH]; intros anchor come Hw.
  - destruct come as [|n come]; [by exists []|]. by apply insert_ops_edits.
  - destruct come as [|n come]; [eexists; split; [done|apply Hcut]|]. apply Forall_cons in Hw as [Hn Hw].
    destruct (word_json n Hn) as [json Hj], (IH (Some (id_or_empty old)) come Hw) as (ops & E & Hops).
    exists (ReplaceBlock (id_or_empty old) json :: ops). cbn [gap_ops gap_edits]. rewrite Hj. cbn [mbind Result_bind]. rewrite E.
    split; [done|]. by constructor.
Qed.

(** ** Ids that are all different *)

Definition ids (l : list Node) : list (option string) := block_id <$> l.
Definition distinct (l : list Node) : Prop := NoDup (ids l) /\ Forall (fun b => is_Some (block_id b)) l.

Lemma distinct_perm l k : l ≡ₚ k -> distinct l -> distinct k.
Proof. intros Hp [Hn Hf]. split; [by rewrite <- (fmap_Permutation block_id _ _ Hp)|by rewrite <- Hp]. Qed.

Lemma distinct_app_r l k : distinct (l ++ k) -> distinct k.
Proof. intros [Hn Hf]. unfold distinct, ids in *. rewrite fmap_app in Hn. apply NoDup_app in Hn as (_ & _ & ?). by apply Forall_app in Hf as [_ ?]. Qed.

Lemma at_block_middle f pre b post id : distinct (pre ++ b :: post) -> block_id b = Some id ->
  at_block id f (pre ++ b :: post) = Some (pre ++ f b ++ post).
Proof.
  intros [Hn _] Hid. induction pre as [|c pre IH]; cbn [app at_block]; [by rewrite decide_True|].
  unfold ids in Hn. cbn [app fmap list_fmap] in Hn. apply NoDup_cons in Hn as [Hni Hn]. rewrite decide_False.
  - by rewrite IH.
  - intros E. destruct Hni. rewrite E, <- Hid. apply list_elem_of_fmap_2. apply elem_of_app. right. left.
Qed.

Lemma at_block_absent f l id : Some id ∉ ids l -> at_block id f l = None.
Proof.
  induction l as [|b l IH]; [done|]. unfold ids. cbn [fmap list_fmap at_block]. intros [H1 H2]%not_elem_of_cons.
  rewrite decide_False by congruence. by rewrite IH.
Qed.

(** [Add] puts a block at the end of what is done, before the rest. *)
Definition anchored (anchor : option string) (l rest : list Node) : Prop :=
(exists l' b, l = l' ++ [b] /\ anchor = block_id b) \/ (rest = [] /\ anchor ∉ ids l).

Lemma add_edits_do come : forall l rest anchor, distinct (l ++ rest ++ come) -> anchored anchor l rest ->
  Forall (fun n => word_block n = true) come ->
  fit_all (l ++ rest) (add_edits anchor come) /\ foldl edit (l ++ rest) (add_edits anchor come) = l ++ come ++ rest.
Proof.
  induction come as [|n come IH]; intros l rest anchor Hd Ha Hw; [done|]. apply Forall_cons in Hw as [Hn Hw].
  assert (E : edit (l ++ rest) (Add anchor n) = (l ++ [n]) ++ rest).
  { cbn [edit]. destruct Ha as [(l' & b & -> & ->)|[-> Ha]].
    - assert (Hb : is_Some (block_id b)) by (destruct Hd as [_ Hf]; rewrite !Forall_app in Hf; destruct Hf as [[_ Hf] _]; by inversion Hf).
      destruct Hb as [id Hid]. rewrite Hid. rewrite <- !app_assoc. cbn [app].
      rewrite (at_block_middle _ l' b rest id); [done| |done]. eapply (distinct_app_r (n :: come)), distinct_perm; [|exact Hd]. solve_Permutation.
    - rewrite app_nil_r. destruct anchor as [id|]; [|by rewrite app_nil_r]. rewrite at_block_absent by done. simpl. by rewrite app_nil_r. }
  cbn [add_edits fit_all foldl]. rewrite E. destruct (IH (l ++ [n]) rest (block_id n)) as [H1 H2]; [|left; by exists l, n|done|].
  { eapply distinct_perm; [|exact Hd]. solve_Permutation. }
  split; [by split|]. rewrite H2. by rewrite <- !app_assoc.
Qed.

Lemma id_or_empty_some b : is_Some (block_id b) -> block_id b = Some (id_or_empty b).
Proof. intros [id Hid]. unfold id_or_empty. by rewrite Hid. Qed.

Lemma cut_edits_do gone : forall l rest, distinct (l ++ gone ++ rest) -> l ++ rest <> [] ->
  let edits := (fun old => Cut (id_or_empty old)) <$> gone in
  fit_all (l ++ gone ++ rest) edits /\ foldl edit (l ++ gone ++ rest) edits = l ++ rest.
Proof.
  induction gone as [|old gone IH]; intros l rest Hd Hne; [done|]. cbn [fmap list_fmap fit_all foldl].
  assert (Hid : block_id old = Some (id_or_empty old)).
  { apply id_or_empty_some. destruct Hd as [_ Hf]. rewrite !Forall_app in Hf. destruct Hf as [_ [Hf _]]. by inversion Hf. }
  assert (E : edit (l ++ (old :: gone) ++ rest) (Cut (id_or_empty old)) = l ++ gone ++ rest).
  { cbn [edit app]. by rewrite (at_block_middle _ l old (gone ++ rest)). }
  rewrite E. destruct (IH l rest) as [H1 H2]; [|done|].
  { eapply (distinct_app_r [old]), distinct_perm; [|exact Hd]. solve_Permutation. }
  split; [|done]. split; [|done]. cbn [fits]. rewrite !length_app. simpl. intros Hlen.
  apply Hne. destruct l; [|simpl in Hlen; lia]. destruct rest; [done|simpl in Hlen; lia].
Qed.

(** The edits of a gap put what comes where what goes was. *)
Lemma gap_edits_do gone : forall l rest come anchor, distinct (l ++ gone ++ rest ++ come) -> l ++ come ++ rest <> [] ->
  length come <= length gone \/ (gone <> [] /\ rest = []) \/ (gone = [] /\ anchored anchor l rest) ->
  Forall (fun n => word_block n = true) come ->
  fit_all (l ++ gone ++ rest) (gap_edits anchor gone come) /\
  foldl edit (l ++ gone ++ rest) (gap_edits anchor gone come) = l ++ come ++ rest.
Proof.
  induction gone as [|old gone IH]; intros l rest come anchor Hd Hne Hc Hw.
  - destruct come as [|n come]; [done|]. destruct Hc as [Hc|[[Hc _]|[_ Hc]]]; [simpl in Hc; lia|done|]. by apply add_edits_do.
  - destruct come as [|n come].
    { rewrite app_nil_r in Hd. by apply cut_edits_do. }
    apply Forall_cons in Hw as [Hn Hw].
    assert (Hid : block_id old = Some (id_or_empty old)).
    { apply id_or_empty_some. destruct Hd as [_ Hf]. rewrite !Forall_app in Hf. destruct Hf as [_ [Hf _]]. by inversion Hf. }
    assert (Hd' : distinct (l ++ old :: gone ++ rest)).
    { eapply (distinct_app_r (n :: come)), distinct_perm; [|exact Hd]. solve_Permutation. }
    assert (E : edit (l ++ (old :: gone) ++ rest) (Put (id_or_empty old) n) = (l ++ [n]) ++ gone ++ rest).
    { cbn [edit app]. rewrite (at_block_middle _ l old (gone ++ rest)) by done. simpl. by rewrite <- app_assoc. }
    cbn [gap_edits fit_all foldl]. rewrite E. destruct (IH (l ++ [n]) rest come (Some (id_or_empty old))) as [H1 H2]; [| | |done|].
    { eapply (distinct_app_r [old]), distinct_perm; [|exact Hd]. solve_Permutation. }
    { by destruct l. }
    { destruct Hc as [Hc|[[_ Hc]|[? _]]]; [left; simpl in Hc; lia| |done]. destruct gone as [|old' gone]; [|right; by left].
      right. right. split; [done|]. right. split; [done|]. rewrite <- Hid. intros Hin.
      assert (Hp : distinct (old :: (l ++ [n]) ++ rest ++ come)) by (eapply distinct_perm; [|exact Hd]; solve_Permutation).
      destruct Hp as [Hp _]. unfold ids in Hp, Hin. cbn [fmap list_fmap] in Hp. apply NoDup_cons in Hp as [Hp _]. apply Hp.
      rewrite fmap_app. apply elem_of_app. by left. }
    split; [by split|]. rewrite H2. by rewrite <- !app_assoc.
Qed.

(** ** All gaps *)

(** The blocks from one index up to another. *)
Definition stretch (l : list Node) (from upto : nat) : list Node := take (upto - from) (drop from l).

Lemma drop_stretch l from upto : from <= upto -> drop from l = stretch l from upto ++ drop upto l.
Proof.
  intros H. unfold stretch. rewrite <- (take_drop (upto - from) (drop from l)) at 1. f_equal. rewrite drop_drop. f_equal. lia.
Qed.

(** What becomes of the blocks: the new file's where something changed, the old file's where
    both are the same. *)
Fixpoint mixed (fb tb : list Node) (pairs : list (nat * nat)) (fa ta : nat) : list Node :=
match pairs with
| [] => []
| (fk, tk) :: pairs => stretch tb ta tk ++ option_list (fb !! fk) ++ mixed fb tb pairs (fk + 1) (tk + 1)
end.
Fixpoint come_in (tb : list Node) (pairs : list (nat * nat)) (ta : nat) : list Node :=
match pairs with [] => [] | (_, tk) :: pairs => stretch tb ta tk ++ come_in tb pairs (tk + 1) end.

Fixpoint ascending (pairs : list (nat * nat)) (fa ta : nat) : Prop :=
match pairs with [] => True | (fk, tk) :: pairs => fa <= fk /\ ta <= tk /\ ascending pairs (fk + 1) (tk + 1) end.

(** No gap has more blocks to put in than to take out, but for one after a block that both
    keep, where nothing is taken out, and the one at the end. *)
Fixpoint gaps_ok (count : nat) (pairs : list (nat * nat)) (fa ta : nat) : bool :=
match pairs with
| [] => true
| (fk, tk) :: pairs => ((tk - ta <=? fk - fa) || (fa =? fk) && (0 <? fa) || (fk =? count)) && gaps_ok count pairs (fk + 1) (tk + 1)
end.

(** The last block that is done is the one before [fa] in the old file. *)
Definition done_to (fb l : list Node) (fa : nat) : Prop :=
match fa with O => True | S before => exists l' b, l = l' ++ [b] /\ fb !! before = Some b end.

Lemma gap_condition fb l fa fk (come : list Node) : done_to fb l fa -> fa <= fk <= length fb -> 0 < length fb ->
  (length come <=? fk - fa) || (fa =? fk) && (0 <? fa) || (fk =? length fb) = true ->
  let anchor := if decide (fa = 0) then None else fb !! (fa - 1) ≫= block_id in
  length come <= length (stretch fb fa fk) \/ (stretch fb fa fk <> [] /\ drop fk fb = []) \/
  (stretch fb fa fk = [] /\ anchored anchor l (drop fk fb)).
Proof.
  intros Hd Hfk Hpos Hg anchor. assert (Hlen : length (stretch fb fa fk) = fk - fa) by (unfold stretch; rewrite length_take, length_drop; lia).
  assert (Hanchor : fa <> 0 -> anchored anchor l (drop fk fb)).
  { intros Hfa. left. unfold anchor. rewrite decide_False by done. destruct fa as [|before]; [done|]. destruct Hd as (l' & b & -> & Hb).
    exists l', b. split; [done|]. replace (S before - 1) with before by lia. by rewrite Hb. }
  rewrite !orb_true_iff, andb_true_iff, Nat.leb_le, !Nat.eqb_eq, Nat.ltb_lt in Hg. rewrite Hlen.
  destruct Hg as [[Hg|[<- Hg]]|Hg]; [by left| |].
  - right. right. split; [apply length_zero_iff_nil; lia|]. apply Hanchor. lia.
  - right. subst fk. destruct (decide (fa = length fb)) as [E|E].
    + right. split; [apply length_zero_iff_nil; lia|]. apply Hanchor. lia.
    + left. split; [intros En; rewrite En in Hlen; simpl in Hlen; lia|]. by rewrite drop_ge.
Qed.

Section loop.
Variables fb tb : list Node.
Hypothesis Hfrom : 0 < length fb.
Hypothesis Hto : Forall (fun n => word_block n = true) tb.

Lemma fit_all_app l edits more : fit_all l (edits ++ more) <-> fit_all l edits /\ fit_all (foldl edit l edits) more.
Proof. revert l. induction edits as [|e edits IH]; intros l; simpl; [naive_solver|]. rewrite IH. naive_solver. Qed.

(** The loop over the pairs does not fail, and its edits make [mixed]. *)
Lemma compare_loop_do kept : forall fa ta l, ascending (kept ++ [(length fb, length tb)]) fa ta ->
Forall (fun p => p.1 < length fb) kept -> gaps_ok (length fb) (kept ++ [(length fb, length tb)]) fa ta = true ->
distinct (l ++ drop fa fb ++ come_in tb (kept ++ [(length fb, length tb)]) ta) -> done_to fb l fa -> l <> [] \/ ta < length tb ->
exists ops edits, compare_loop docx_schema fb tb (kept ++ [(length fb, length tb)]) fa ta =
Ok (ops, come_in tb (kept ++ [(length fb, length tb)]) ta) /\ Forall2 op_of edits ops /\
fit_all (l ++ drop fa fb) edits /\
foldl edit (l ++ drop fa fb) edits = l ++ mixed fb tb (kept ++ [(length fb, length tb)]) fa ta.
Proof.
induction kept as [|[fk tk] kept IH]; intros fa ta l Hasc Hin Hgaps Hd Hdone Hne.
- cbn [app ascending gaps_ok come_in mixed compare_loop] in *. destruct Hasc as (Hfa & Hta & _). rewrite andb_true_r in Hgaps.
fold (stretch fb fa (length fb)) (stretch tb ta (length tb)). set (anchor := if decide _ then _ else _). set (c := stretch tb ta (length tb)) in *.
assert (Hw : Forall (fun n => word_block n = true) c) by (apply Forall_take, Forall_drop, Hto).
assert (Hlc : length c = length tb - ta) by (unfold c, stretch; rewrite length_take, length_drop; lia).
destruct (gap_ops_edits (stretch fb fa (length fb)) anchor c Hw) as (ops & E & Hops). rewrite E. cbn [mbind Result_bind].
rewrite (drop_stretch fb fa (length fb)) in * by lia. rewrite drop_all in *.
assert (Hno : fb !! length fb = None) by (apply lookup_ge_None_2; lia). rewrite Hno. cbn [option_list app] in *. rewrite !app_nil_r in *.
exists ops, (gap_edits anchor (stretch fb fa (length fb)) c). split; [done|]. split; [done|].
pose proof (gap_edits_do (stretch fb fa (length fb)) l [] c anchor) as Hgap. rewrite !app_nil_r in Hgap. apply Hgap; [done| | |done].
+ destruct Hne as [Hne|Hne]; [by destruct l|]. intros [_ Hc]%app_nil. rewrite Hc in Hlc. simpl in Hlc. lia.
+ rewrite <- Hlc in Hgaps. pose proof (gap_condition fb l fa (length fb) c Hdone ltac:(lia) Hfrom Hgaps) as Hg. by rewrite drop_all in Hg.
- cbn [app ascending gaps_ok come_in mixed compare_loop] in *. destruct Hasc as (Hfa & Hta & Hasc). apply andb_true_iff in Hgaps as [Hgap Hgaps].
apply Forall_cons in Hin as [Hfk Hin]. simpl in Hfk.
fold (stretch fb fa fk) (stretch tb ta tk). set (anchor := if decide _ then _ else _). set (c := stretch tb ta tk) in *.
set (pairs := kept ++ [(length fb, length tb)]) in *.
assert (Hw : Forall (fun n => word_block n = true) c) by (apply Forall_take, Forall_drop, Hto).
destruct (lookup_lt_is_Some_2 fb fk Hfk) as [k Hk]. rewrite Hk. cbn [option_list].
assert (Edrop : drop fk fb = k :: drop (fk + 1) fb) by (rewrite Nat.add_1_r; by apply drop_S).
rewrite (drop_stretch fb fa fk) in * by lia. rewrite Edrop in *.
destruct (gap_ops_edits (stretch fb fa fk) anchor c Hw) as (ops & E & Hops). rewrite E. cbn [mbind Result_bind].
destruct (gap_edits_do (stretch fb fa fk) l (k :: drop (fk + 1) fb) c anchor) as [Hg1 Hg2]; [| | |done|].
{ eapply (distinct_app_r (come_in tb pairs (tk + 1))), distinct_perm; [|exact Hd]. solve_Permutation. }
{ destruct l; [|done]. by destruct c. }
{ pose proof (gap_condition fb l fa fk c Hdone ltac:(lia) Hfrom) as Hg. rewrite Edrop in Hg. apply Hg.
rewrite !orb_true_iff, andb_true_iff, Nat.leb_le, !Nat.eqb_eq, Nat.ltb_lt in *.
assert (length c <= tk - ta) by (unfold c, stretch; rewrite length_take; lia). intuition lia. }
destruct (IH (fk + 1) (tk + 1) (l ++ c ++ [k])) as (more & edits & E2 & Hops2 & Hf2 & Hd2); [done..| | | |].
{ eapply (distinct_app_r (stretch fb fa fk)), distinct_perm; [|exact Hd]. solve_Permutation. }
{ rewrite Nat.add_1_r. cbn [done_to]. exists (l ++ c), k. by rewrite <- app_assoc. }
{ left. by destruct l, c. }
assert (Ew : l ++ c ++ k :: drop (fk + 1) fb = (l ++ c ++ [k]) ++ drop (fk + 1) fb) by (by rewrite <- !app_assoc).
rewrite E2. cbn [mbind Result_bind]. exists (ops ++ more), (gap_edits anchor (stretch fb fa fk) c ++ edits).
split; [done|]. split; [by apply Forall2_app|]. split.
+ rewrite fit_all_app. split; [done|]. by rewrite Hg2, Ew.
+ rewrite foldl_app, Hg2, Ew, Hd2. by rewrite <- !app_assoc.
Qed.
End loop.

Section compare.
Context `{JsonText}.

(** Two blocks are the same but for their ids. *)
Definition same_block (b c : Node) : Prop := content_key docx_schema b = content_key docx_schema c.

Lemma mixed_same fb tb kept : forall fa ta, ascending (kept ++ [(length fb, length tb)]) fa ta ->
Forall (fun p => exists b c, fb !! p.1 = Some b /\ tb !! p.2 = Some c /\ same_block b c) kept ->
Forall2 same_block (mixed fb tb (kept ++ [(length fb, length tb)]) fa ta) (drop ta tb).
Proof.
assert (Hrefl : forall l, Forall2 same_block l l) by (induction l; by constructor).
induction kept as [|[fk tk] kept IH]; intros fa ta.
- cbn [app ascending mixed]. intros (_ & Hta & _) _. rewrite lookup_ge_None_2 by lia. cbn [option_list app].
rewrite app_nil_r, (drop_stretch tb ta (length tb)), drop_all, app_nil_r by lia. apply Hrefl.
- cbn [app ascending mixed]. intros (_ & Hta & Hasc) [(b & c & Hb & Hc & Hsame) Hall]%Forall_cons. simpl in Hb, Hc.
rewrite Hb. cbn [option_list app]. rewrite (drop_stretch tb ta tk), (drop_S _ _ _ Hc) by lia. apply Forall2_app; [apply Hrefl|].
constructor; [done|]. replace (S tk) with (tk + 1) by lia. by apply IH.
Qed.

Lemma kept_ascending (fb tb : list Node) kept : forall fa ta, StronglySorted before kept -> fa <= length fb -> ta <= length tb ->
Forall (fun p => fa <= p.1 < length fb /\ ta <= p.2 < length tb) kept -> ascending (kept ++ [(length fb, length tb)]) fa ta.
Proof.
induction kept as [|[fk tk] kept IH]; intros fa ta Hs Hf Ht Hall; [done|]. cbn [app ascending].
apply StronglySorted_inv in Hs as [Hs Hb]. apply Forall_cons in Hall as [[H1 H2] Hall]. simpl in H1, H2.
split; [lia|]. split; [lia|]. apply IH; [done|lia|lia|]. rewrite Forall_forall in *. intros p Hp.
specialize (Hall p Hp). specialize (Hb p Hp). unfold before in Hb. simpl in Hb. lia.
Qed.

(** The pairs of [compare]: the blocks that both files keep, and the ends of both. *)
Definition pairs_of (from to : Model) : list (nat * nat) :=
match try_map (content_key docx_schema) (children (m_doc from)), try_map (content_key docx_schema) (children (m_doc to)) with
| Ok from_keys, Ok to_keys => common_blocks from_keys to_keys ++ [(length (children (m_doc from)), length (children (m_doc to)))]
| _, _ => []
end.

Record mergeable (from to : Model) : Prop := {
mg_from : word_doc (m_doc from);
mg_to : word_doc (m_doc to);
mg_ids : distinct (children (m_doc from) ++ come_in (children (m_doc to)) (pairs_of from to) 0);
mg_gaps : gaps_ok (length (children (m_doc from))) (pairs_of from to) 0 0 = true
}.

Lemma content_keys l : Forall (fun n => word_block n = true) l -> exists keys, try_map (content_key docx_schema) l = Ok keys.
Proof.
induction 1 as [|n l Hn _ (keys & IH)]; [by exists []|]. destruct (word_json n Hn) as [json Hj].
assert (Hk : exists key, content_key docx_schema n = Ok key) by (unfold content_key; rewrite Hj; by eexists).
destruct Hk as [key Hk]. exists (key :: keys). cbn [try_map]. rewrite Hk. cbn [mbind Result_bind]. by rewrite IH.
Qed.

Lemma try_map_lookup {E A B} (f : A -> Result E B) l ys i y : try_map f l = Ok ys -> ys !! i = Some y -> exists x, l !! i = Some x /\ f x = Ok y.
Proof.
revert ys i. induction l as [|x l IH]; intros ys i; cbn [try_map]; [by intros [= <-]|].
intros (z & Hz & (zs & Hzs & [= <-])%bind_ok)%bind_ok. destruct i as [|i]; [intros [= <-]; by exists x|]. intros Hi. by eapply IH.
Qed.

(** The changes go in one after the other. *)
Fixpoint take_in (m : Model) (changes : list Change) : Result Refused Model :=
match changes with
| [] => Ok m
| change :: changes => '(m, _) ← apply docx_schema m change []; take_in m changes
end.

Lemma same_keys fb tb keys : try_map (content_key docx_schema) fb = Ok keys -> try_map (content_key docx_schema) tb = Ok keys ->
Forall2 same_block fb tb.
Proof.
revert tb keys. induction fb as [|b fb IH]; intros tb keys; cbn [try_map].
- intros [= <-]. destruct tb as [|c tb]; [constructor|]. cbn [try_map]. by intros (? & _ & (? & _ & [=])%bind_ok)%bind_ok.
- intros (k & Hk & (ks & Hks & [= <-])%bind_ok)%bind_ok. destruct tb as [|c tb]; [done|]. cbn [try_map].
intros (k' & Hk' & (ks' & Hks' & [= -> ->])%bind_ok)%bind_ok. constructor; [unfold same_block; congruence|by eapply IH].
Qed.

Lemma compare_take_in from to : mergeable from to -> exists changes m', compare docx_schema from to = Ok changes /\
take_in from changes = Ok m' /\ Forall2 same_block (children (m_doc m')) (children (m_doc to)).
Proof.
intros [Hf Ht Hids Hgaps]. pose proof Hf as (Hwf & _ & Hne & Hall). pose proof Ht as (_ & _ & Hne' & Hall').
destruct (content_keys _ Hall) as [fk Hfk], (content_keys _ Hall') as [tk Htk]. unfold pairs_of in *. rewrite Hfk, Htk in *.
unfold compare. fold (children (m_doc from)) (children (m_doc to)). rewrite Hfk, Htk. cbn [mbind Result_bind].
set (fb := children (m_doc from)) in *. set (tb := children (m_doc to)) in *.
destruct (decide (fk = tk)) as [<-|Hneq]; [exists [], from; split_and!; [done..|by eapply same_keys]|].
destruct (common_blocks_matched fk tk) as [Hsort Hmatch]. set (kept := common_blocks fk tk) in *.
assert (Hsame : Forall (fun p => exists b c, fb !! p.1 = Some b /\ tb !! p.2 = Some c /\ same_block b c) kept).
{ eapply Forall_impl; [exact Hmatch|]. intros p [[k Hk] E]. destruct (try_map_lookup _ _ _ _ _ Hfk Hk) as (b & Hb & Kb).
rewrite Hk in E. symmetry in E. destruct (try_map_lookup _ _ _ _ _ Htk E) as (c & Hc & Kc). exists b, c. split_and!; [done..|].
unfold same_block. congruence. }
assert (Hasc : ascending (kept ++ [(length fb, length tb)]) 0 0).
{ apply kept_ascending; [done|lia|lia|]. eapply Forall_impl; [exact Hsame|]. intros p (b & c & Hb%lookup_lt_Some & Hc%lookup_lt_Some & _). lia. }
assert (0 < length fb) by (destruct fb; [done|simpl; lia]). assert (0 < length tb) by (destruct tb; [done|simpl; lia]).
destruct (compare_loop_do fb tb ltac:(done) Hall' kept 0 0 []) as (ops & edits & E & Hops & Hfit & Hedit); [done| |done|done|done|by right|].
{ eapply Forall_impl; [exact Hsame|]. intros p (b & c & Hb%lookup_lt_Some & _). done. }
rewrite E. cbn [mbind Result_bind]. eexists [_], _. split; [done|].
destruct (merge_steps_do edits ops (m_doc from) 0 Hf Hops Hfit) as (steps & touched & E1 & E2).
cbn [take_in apply]. unfold merge_steps. rewrite E1. cbn [invalid_text mbind Result_bind]. rewrite E2. cbn [invalid mbind Result_bind].
split; [done|]. cbn [add_sources with_raws with_doc m_doc]. fold fb. cbn [app] in Hedit. rewrite drop_0 in Hedit. rewrite Hedit.
pose proof (mixed_same fb tb kept 0 0 Hasc Hsame) as Hmix. by rewrite drop_0 in Hmix.
Qed.
End compare.
