(* ===== verification/DocxSettle.v ===== *)
(** Accepting and rejecting tracked changes: what [decide_steps] makes of the tokens. *)

From stdpp Require Import sorting.
From S2P Require Import Prelude Json TextMap TextData TextSchema TextNode TextResolved TextReplace.
From S2P Require Import TextTokens TextCut TextSlice TextTake TextStep TextMarks TextStepSpec.
From S2P Require Import TextJson TextJsonSpec TextBlocks Format DocxModel DocxOps DocxApply.
From S2P Require Import DocxTouched DocxCompare.
Open Scope nat_scope.

Section settle.
Context {schema : Schema}.
Local Abbreviation wfn n := (wf_node schema n = true).
Local Abbreviation wfl l := (wf_list schema l).

(** ** What it says *)

Definition changed (mark : Mark) : bool := ok_true (is_change schema mark).
Definition staying (accept : bool) (mark : Mark) : bool := ok_true (stays schema accept (0, 0, mark)).

(** The marks of inline content lose what stays; what does not stay goes with all of it. *)
Definition settled_marks (accept : bool) (kind : NodeId) (marks : list Mark) : list Mark :=
if ok_true (Schema.is_inline schema kind) then List.filter (fun m => negb (changed m && staying accept m)) marks else marks.
Definition goes (accept : bool) (marks : list Mark) : bool := existsb (fun m => changed m && negb (staying accept m)) marks.

Definition settle (accept : bool) (t : token) : list token :=
match t with
| TUnit kind attrs marks unit => if goes accept marks then [] else [TUnit kind attrs (settled_marks accept kind marks) unit]
| TLeaf n => if goes accept (n_marks n) then [] else [TLeaf (Node.with_marks n (settled_marks accept (n_kind n) (n_marks n)))]
| _ => [t]
end.

Definition token_changes (t : token) : list Mark :=
match t with TUnit _ _ marks _ => List.filter changed marks | TLeaf n => List.filter changed (n_marks n) | _ => [] end.
Definition inline_token (t : token) : Prop :=
match t with TUnit kind _ _ _ => ok_true (Schema.is_inline schema kind) = true | TLeaf n => ok_true (Schema.is_inline schema (n_kind n)) = true | _ => True end.

Lemma settled_no_changes accept kind marks : ok_true (Schema.is_inline schema kind) = true -> goes accept marks = false ->
List.filter changed (settled_marks accept kind marks) = [].
Proof.
unfold settled_marks, goes. intros ->. induction marks as [|m marks IH]; [done|]. cbn [existsb List.filter].
intros [Hm Hms]%orb_false_iff. destruct (changed m) eqn:Ec; cbn [andb negb] in *.
- destruct (staying accept m); [by apply IH|done].
- cbn [List.filter]. rewrite Ec. by apply IH.
Qed.

(** Nothing is left of the changes. *)
Lemma settle_clean accept t : inline_token t -> Forall (fun t' => token_changes t' = []) (settle accept t).
Proof.
destruct t as [kind attrs marks| |n|kind attrs marks unit]; cbn [settle inline_token]; intros Hin; try by repeat constructor.
- destruct (goes accept (n_marks n)) eqn:E; [constructor|]. constructor; [|constructor]. by apply settled_no_changes.
- destruct (goes accept marks) eqn:E; [constructor|]. constructor; [|constructor]. by apply settled_no_changes.
Qed.

(** ** The places of changes *)

Definition covers (i : nat) (range : nat * nat) : bool := (range.1 <=? i) && (i <? range.2).
Definition marks_over (i : nat) (changes : list (nat * nat * Mark)) : list Mark :=
snd <$> List.filter (fun c => covers i c.1) changes.

Lemma marks_over_app i l1 l2 : marks_over i (l1 ++ l2) = marks_over i l1 ++ marks_over i l2.
Proof. unfold marks_over. by rewrite List.filter_app, fmap_app. Qed.

(** One change after another: the same range, or one further on. *)
Definition follows_range (c c' : nat * nat * Mark) : Prop := c.1 = c'.1 \/ c.1.2 <= c'.1.1.
Definition in_range (low high : nat) (c : nat * nat * Mark) : Prop := low <= c.1.1 /\ c.1.1 < c.1.2 /\ c.1.2 <= high.

(** The changes of the tokens [l] from a position on. *)
Record places_of (offset : nat) (l : list token) (changes : list (nat * nat * Mark)) : Prop := {
po_marks : forall i, marks_over i changes = if offset <=? i then default [] (token_changes <$> l !! (i - offset)) else [];
po_range : Forall (in_range offset (offset + length l)) changes;
po_sorted : StronglySorted follows_range changes
}.

Lemma marks_over_outside i low high changes : Forall (in_range low high) changes -> i < low \/ high <= i -> marks_over i changes = [].
Proof.
intros Hf Hi. unfold marks_over. induction Hf as [|c changes (H1 & H2 & H3) _ IH]; [done|]. cbn [List.filter].
assert (covers i c.1 = false) as ->; [|exact IH]. unfold covers. apply andb_false_iff. rewrite Nat.leb_gt, Nat.ltb_ge. lia.
Qed.

Lemma sorted_follows l1 l2 mid low high : StronglySorted follows_range l1 -> StronglySorted follows_range l2 ->
Forall (in_range low mid) l1 -> Forall (in_range mid high) l2 -> StronglySorted follows_range (l1 ++ l2).
Proof.
intros H1 H2 F1 F2. induction H1 as [|c l1 H1 IH Hc]; [done|]. apply Forall_cons in F1 as [Hr F1]. cbn [app]. constructor; [by apply IH|].
apply Forall_app. split; [done|]. eapply Forall_impl; [exact F2|]. intros c' (H & _). right. destruct Hr as (_ & _ & ?). lia.
Qed.

Lemma places_app offset l1 l2 c1 c2 : places_of offset l1 c1 -> places_of (offset + length l1) l2 c2 -> places_of offset (l1 ++ l2) (c1 ++ c2).
Proof.
intros [M1 R1 S1] [M2 R2 S2]. constructor.
- intros i. rewrite marks_over_app, M1, M2. destruct (Nat.leb_spec offset i).
+ destruct (Nat.leb_spec (offset + length l1) i).
* rewrite (lookup_ge_None_2 l1) by lia. rewrite lookup_app_r by lia. cbn [fmap option_fmap option_map default from_option app].
by replace (i - offset - length l1) with (i - (offset + length l1)) by lia.
* rewrite lookup_app_l by lia. by rewrite app_nil_r.
+ by rewrite (proj2 (Nat.leb_gt _ _)) by lia.
- rewrite length_app. apply Forall_app. split; (eapply Forall_impl; [eassumption|]); intros c (? & ? & ?); repeat split; lia.
- eapply sorted_follows; [done..|]. exact R2.
Qed.

Lemma places_nothing offset l : Forall (fun t => token_changes t = []) l -> places_of offset l [].
Proof.
intros Hl. constructor; [|constructor..]. intros i. unfold marks_over. cbn. destruct (offset <=? i); [|done].
destruct (l !! (i - offset)) as [t|] eqn:E; [|done]. eapply Forall_lookup_1 in E; [|exact Hl]. simpl. by rewrite E.
Qed.

(** Tokens with the same changes, in one range. *)
Lemma places_alike offset l marks : l <> [] -> Forall (fun t => token_changes t = marks) l ->
places_of offset l (List.map (fun mark => (offset, offset + length l, mark)) marks).
Proof.
intros Hne Hl. assert (0 < length l) by (destruct l; [done|simpl; lia]). constructor.
- intros i. assert (Hall : marks_over i (List.map (fun mark => (offset, offset + length l, mark)) marks) = if covers i (offset, offset + length l) then marks else []).
{ clear Hl. unfold marks_over. induction marks as [|m marks IH]; [by destruct (covers _ _)|]. cbn [List.map List.filter fst].
destruct (covers i _); [by rewrite fmap_cons, IH|exact IH]. }
rewrite Hall. unfold covers. cbn [fst snd]. destruct (Nat.leb_spec offset i); [|done]. cbn [andb].
destruct (Nat.ltb_spec i (offset + length l)).
+ destruct (lookup_lt_is_Some_2 l (i - offset) ltac:(lia)) as [t E]. rewrite E. eapply Forall_lookup_1 in E; [|exact Hl]. simpl. by rewrite E.
+ by rewrite lookup_ge_None_2 by lia.
- apply Forall_forall. intros c (m & -> & _)%list_elem_of_fmap. unfold in_range. simpl. lia.
- clear Hl. induction marks as [|m marks IH]; constructor; [exact IH|]. apply Forall_forall. intros c (m' & -> & _)%list_elem_of_fmap. by left.
Qed.

Lemma try_filter_ok {A} (f : A -> res bool) l l' : try_filter f l = Ok l' -> l' = List.filter (fun a => ok_true (f a)) l.
Proof.
revert l'. induction l as [|a l IH]; intros l'; cbn [try_filter List.filter]; [by intros [= <-]|].
intros (b & Hb & (k & Hk & [= <-])%bind_ok)%bind_ok. rewrite Hb, (IH _ Hk). by destruct b.
Qed.

(** The walk under a node finds the changes of the tokens of its content. *)
Lemma changes_places node : forall offset changes, wfn node -> changes_under schema node offset = Ok changes ->
places_of offset (toks (n_content node)) changes.
Proof.
induction node as [kind attrs content size marks text leaf IH] using node_tree_ind. intros offset changes Hw.
pose proof (wf_content _ Hw) as [_ Hl]. cbn [n_content f_content] in Hl. unfold toks. cbn [n_content f_content changes_under].
clear Hw. revert offset changes. induction content as [|child content IHc]; intros offset changes.
{ intros [= <-]. apply places_nothing. constructor. }
apply Forall_cons in IH as [IHchild IH]. apply Forall_cons in Hl as [Hwc Hl]. specialize (IHc IH Hl). rewrite flat_cons.
pose proof (node_size_flatten (schema:=schema) child Hwc) as Hsize. pose proof (node_size_pos (schema:=schema) child Hwc) as Hpos.
intros (own & Hown & (more & Hmore & [= <-])%bind_ok)%bind_ok. apply IHc in Hmore. rewrite Hsize in Hmore.
apply places_app; [|exact Hmore]. clear Hmore IHc.
destruct (Node.is_text child || n_leaf child) eqn:E.
- apply bind_ok in Hown as (ms & Hms%try_filter_ok & [= <-]). rewrite Hsize, Hms. apply places_alike.
{ intros En. rewrite En in Hsize. simpl in Hsize. lia. }
fold changed. destruct child as [ck ca [cc cs] cm [units|] cl]; rewrite flatten_eq.
+ apply Forall_fmap, Forall_forall. intros u _. done.
+ unfold Node.is_text in E. cbn in E. subst cl. by constructor.
- apply IHchild in Hown; [|done]. apply orb_false_iff in E as [Et Elf].
assert (inner child = true) as Hin by (unfold inner, Node.is_text in *; by destruct (n_text child), (n_leaf child)).
rewrite inner_flatten by done. rewrite <- (app_nil_l own), <- (app_nil_r own).
change (open_token child :: ?l) with ([open_token child] ++ l). apply places_app; [by apply places_nothing; constructor|].
apply places_app; [exact Hown|]. by apply places_nothing; constructor.
Qed.

(** ** Steps that go through JSON *)

Hypothesis Hnamed : named schema.

Lemma run_op_cons doc step steps doc' jsons : portable_step schema step = true -> run_op schema doc (step :: steps) = Ok (doc', jsons) ->
exists doc1 more, Step.apply schema step doc = Ok doc1 /\ run_op schema doc1 steps = Ok (doc', more).
Proof.
intros Hp. destruct (step_back schema Hnamed step Hp) as (json & Hj1 & Hj2). cbn [run_op]. rewrite Hj1. cbn [of_text mbind Result_bind].
cbn [run_steps]. unfold run_step. rewrite Hj2. cbn [mbind Result_bind]. intros ([doc1 t1] & E1 & ([doc2 more] & E2 & [= <- <-])%bind_ok)%bind_ok.
unfold of_text in E1. destruct (match Step.range step with Some _ => _ | None => _ end) as [touched| |]; try done. cbn [mbind Result_bind] in E1.
destruct (Step.apply schema step doc) as [d| |] eqn:Ea; try done. cbn [mbind Result_bind] in E1. injection E1 as <- <-. by exists d, more.
Qed.

(** ** Marks that go *)

Definition strip (mark : Mark) (t : token) : token := remark_token (marks_removed schema mark) 0 t.
Definition strip_all (t : token) (marks : list Mark) : token := foldl (fun t m => strip m t) t marks.
(** Each token, changed by its place. *)
Definition by_place (f : nat -> token -> token) (l : list token) : list token := imap f l.

Lemma strip_any_parent mark parent t : remark_token (marks_removed schema mark) parent t = strip mark t.
Proof. by destruct t as [| |[? ? []]|]. Qed.

Lemma restyle_removed mark kind from to l : from <= to <= length l ->
restyle (marks_removed schema mark) kind from to l = imap (fun i t => if covers i (from, to) then strip mark t else t) l.
Proof.
intros Hr. unfold restyle, splice. apply list_eq. intros i. rewrite list_lookup_imap.
assert (Hlen : length (retok (marks_removed schema mark) kind l) = length l) by apply retok_from_length.
unfold covers. cbn [fst snd]. destruct (Nat.leb_spec from i).
- rewrite lookup_app_r by (rewrite length_take; lia). rewrite length_take, Nat.min_l by lia. destruct (Nat.ltb_spec i to); cbn [andb].
+ rewrite lookup_app_l by (rewrite length_drop, length_take; lia). rewrite lookup_drop, lookup_take_lt by lia.
replace (from + (i - from)) with i by lia. unfold retok, retok_from. rewrite list_lookup_imap. destruct (l !! i) as [t|]; [|done].
cbn [fmap option_fmap option_map]. by rewrite strip_any_parent.
+ rewrite lookup_app_r by (rewrite length_drop, length_take; lia). rewrite length_drop, length_take, Hlen, lookup_drop.
replace (to + (i - from - (to `min` length l - from))) with i by lia. by destruct (l !! i).
- cbn [andb]. rewrite lookup_app_l by (rewrite length_take; lia). rewrite lookup_take_lt by lia. by destruct (l !! i).
Qed.

Definition remove_step (change : nat * nat * Mark) : Step.t := Step.RemoveMark change.1.1 change.1.2 change.2.

Lemma run_removals changes : forall doc rest doc' jsons, wfn doc -> n_text doc = None ->
Forall (in_range 0 (length (toks (n_content doc)))) changes -> Forall (fun c => portable_mark schema c.2 = true) changes ->
run_op schema doc ((remove_step <$> changes) ++ rest) = Ok (doc', jsons) ->
exists doc1 more, wfn doc1 /\ n_text doc1 = None /\ run_op schema doc1 rest = Ok (doc', more) /\
toks (n_content doc1) = imap (fun i t => strip_all t (marks_over i changes)) (toks (n_content doc)).
Proof.
induction changes as [|c changes IH]; intros doc rest doc' jsons Hw Ht Hr Hp E.
{ exists doc, jsons. split_and!; [done..|]. symmetry. apply list_eq. intros i. rewrite list_lookup_imap. by destruct (_ !! i). }
apply Forall_cons in Hr as [Hc Hr], Hp as [Hpc Hp]. rewrite fmap_cons in E. cbn [app] in E.
apply run_op_cons in E as (doc1 & more & Ea & E); [|exact Hpc].
assert (Hok : step_ok (schema:=schema) (remove_step c) doc) by (destruct Hc as (_ & ? & _); simpl; lia).
destruct (apply_outcome (schema:=schema) _ _ _ Hw Ht Hok Ea) as (Hw1 & Ht1 & _ & Ho). simpl in Ho.
rewrite restyle_removed in Ho by (destruct Hc as (_ & ? & ?); lia).
destruct (IH doc1 rest doc' more Hw1 Ht1) as (doc2 & more2 & Hw2 & Ht2 & E2 & Hl); [by rewrite Ho, length_imap|done|done|].
exists doc2, more2. split_and!; [done..|]. rewrite Hl, Ho. apply list_eq. intros i. rewrite !list_lookup_imap.
destruct (toks (n_content doc) !! i) as [t|]; [|done]. cbn [fmap option_fmap option_map]. f_equal.
unfold marks_over. cbn [List.filter]. destruct c as [[from to] m]. cbn [fst snd]. by destruct (covers i (from, to)).
Qed.

(** ** Ranges that go *)

Definition delete_step (range : nat * nat) : Step.t := Step.Replace range.1 range.2 Slice.empty false.
Definition before_range (r r' : nat * nat) : Prop := r.2 <= r'.1.
Definition without (ranges : list (nat * nat)) (l : list token) : list token :=
concat (imap (fun i t => if existsb (covers i) ranges then [] else [t]) l).

Lemma concat_imap_app {A B} (f : nat -> A -> list B) l1 l2 : concat (imap f (l1 ++ l2)) = concat (imap f l1) ++ concat (imap (fun i => f (length l1 + i)) l2).
Proof. by rewrite imap_app, concat_app. Qed.

Lemma concat_imap_same {A} (f : nat -> A -> list A) l : (forall i a, l !! i = Some a -> f i a = [a]) -> concat (imap f l) = l.
Proof.
induction l as [|a l IH] in f |- *; intros H; [done|]. rewrite imap_cons. cbn [concat]. rewrite (H 0 a eq_refl). cbn [app]. f_equal.
apply IH. intros i b Hi. by apply (H (S i)).
Qed.

Lemma concat_imap_none {A B} (f : nat -> A -> list B) l : (forall i a, l !! i = Some a -> f i a = []) -> concat (imap f l) = [].
Proof.
induction l as [|a l IH] in f |- *; intros H; [done|]. rewrite imap_cons. cbn [concat]. rewrite (H 0 a eq_refl). cbn [app].
apply IH. intros i b Hi. by apply (H (S i)).
Qed.

Lemma not_covered i ranges high : Forall (fun r => high <= r.1) ranges -> i < high -> existsb (covers i) ranges = false.
Proof.
induction 1 as [|r ranges Hr _ IH]; [done|]. intros Hi. cbn [existsb]. rewrite IH by done. unfold covers.
by rewrite (proj2 (Nat.leb_gt _ _)) by lia.
Qed.

(** A range that comes before the others goes from what they left. *)
Lemma without_cons r ranges l : r.1 <= r.2 <= length l -> Forall (before_range r) ranges ->
splice r.1 r.2 [] (without ranges l) = without (r :: ranges) l.
Proof.
intros Hr Hb. destruct r as [from to]. cbn [fst snd] in *. unfold without.
assert (El : l = take from l ++ take (to - from) (drop from l) ++ drop to l).
{ rewrite <- (take_drop from l) at 1. f_equal. rewrite <- (take_drop (to - from) (drop from l)) at 1. f_equal. rewrite drop_drop. f_equal. lia. }
set (a := take from l) in *. set (b := take (to - from) (drop from l)) in *. set (c := drop to l) in *.
assert (La : length a = from) by (unfold a; rewrite length_take; lia).
assert (Lb : length b = to - from) by (unfold b; rewrite length_take, length_drop; lia). rewrite El, !concat_imap_app, La.
assert (Hno : forall i, i < to -> existsb (covers i) ranges = false) by (intros i Hi; by eapply not_covered).
rewrite (concat_imap_same _ a) by (intros i t Hi%lookup_lt_Some; rewrite Hno by lia; done).
rewrite (concat_imap_same _ b) by (intros i t Hi%lookup_lt_Some; rewrite Hno by lia; done).
rewrite (concat_imap_same _ a).
2: { intros i t Hi%lookup_lt_Some. cbn [existsb]. rewrite Hno by lia. unfold covers. cbn [fst snd]. by rewrite (proj2 (Nat.leb_gt _ _)) by lia. }
rewrite (concat_imap_none _ b).
2: { intros i t Hi%lookup_lt_Some. cbn [existsb]. unfold covers at 1. cbn [fst snd].
by rewrite (proj2 (Nat.leb_le _ _)), (proj2 (Nat.ltb_lt _ _)) by lia. }
unfold splice. cbn [app]. rewrite take_app_le, take_ge by lia. f_equal.
rewrite app_assoc, drop_app_ge by (rewrite length_app; lia). rewrite length_app, La, Lb.
replace (to - (from + (to - from))) with 0 by lia. rewrite drop_0. f_equal. apply imap_ext. intros i t _. cbn [existsb].
match goal with |- context [covers ?j (from, to)] => assert (Hj : covers j (from, to) = false) end; [|by rewrite Hj].
unfold covers. cbn [fst snd]. rewrite andb_false_iff, Nat.ltb_ge. right. lia.
Qed.

Lemma run_op_app s1 : forall s2 doc doc' jsons, run_op schema doc (s1 ++ s2) = Ok (doc', jsons) ->
exists doc1 j1 j2, run_op schema doc s1 = Ok (doc1, j1) /\ run_op schema doc1 s2 = Ok (doc', j2).
Proof.
induction s1 as [|step s1 IH]; intros s2 doc doc' jsons; [intros E; by exists doc, [], jsons|]. cbn [app run_op].
intros (json & Hj & ([d t] & Er & ([d' more] & E & [= <- <-])%bind_ok)%bind_ok)%bind_ok.
destruct (IH _ _ _ _ E) as (doc1 & j1 & j2 & E1 & E2). exists doc1, (json :: j1), j2. rewrite Hj. cbn [mbind Result_bind]. rewrite Er.
cbn [mbind Result_bind]. by rewrite E1.
Qed.

Lemma empty_slice_wf : wf_slice schema Slice.empty.
Proof. constructor; [split; [done|constructor]|done..]. Qed.

Lemma run_deletions ranges : forall doc doc' jsons, wfn doc -> n_text doc = None -> StronglySorted before_range ranges ->
Forall (fun r => r.1 <= r.2 <= length (toks (n_content doc))) ranges ->
run_op schema doc (delete_step <$> rev ranges) = Ok (doc', jsons) ->
wfn doc' /\ n_text doc' = None /\ toks (n_content doc') = without ranges (toks (n_content doc)).
Proof.
induction ranges as [|r ranges IH]; intros doc doc' jsons Hw Ht Hs Hr.
{ intros [= <- <-]. split_and!; [done..|]. symmetry. by apply concat_imap_same. }
apply StronglySorted_inv in Hs as [Hs Hb]. apply Forall_cons in Hr as [Hr1 Hr]. cbn [rev]. rewrite fmap_app.
intros (doc1 & j1 & j2 & E1 & E2)%run_op_app. destruct (IH _ _ _ Hw Ht Hs Hr E1) as (Hw1 & Ht1 & El).
apply run_op_cons in E2 as (doc2 & more & Ea & [= <- <-]); [|done].
destruct (apply_outcome (schema:=schema) _ _ _ Hw1 Ht1 (empty_slice_wf : step_ok (schema:=schema) (delete_step r) doc1) Ea) as (Hw2 & Ht2 & _ & Ho).
split_and!; [done..|]. rewrite <- (without_cons r ranges), <- El by done. exact Ho.
Qed.

(** [dedup] leaves ranges that do not meet. *)
Definition alike_or_before (r r' : nat * nat) : Prop := r = r' \/ before_range r r'.

Lemma dedup_ranges l : StronglySorted alike_or_before l -> Forall (fun r => r.1 < r.2) l ->
head (dedup l) = head l /\ (forall r, r ∈ dedup l <-> r ∈ l) /\ StronglySorted before_range (dedup l).
Proof.
induction l as [|a l IH]; intros Hs Hp; [repeat split; [tauto..|constructor]|]. apply StronglySorted_inv in Hs as [Hs Ha].
apply Forall_cons in Hp as [Hpa Hp]. destruct (IH Hs Hp) as (Hh & Hin & Hd). split; [done|]. cbn [dedup]. destruct l as [|b l].
{ split; [tauto|]. repeat constructor. }
destruct (dedup (b :: l)) as [|c rest] eqn:Ed; [done|]. injection Hh as ->. cbn [tail]. destruct (decide (a = b)) as [<-|Hne].
- split; [|exact Hd]. intros r. rewrite Hin. set_solver.
- split; [intros r; rewrite !(elem_of_cons _ _ a), Hin; done|]. constructor; [exact Hd|]. apply Forall_forall. intros x Hx%Hin.
apply StronglySorted_inv in Hs as [_ Hb]. rewrite Forall_forall in Ha, Hb. pose proof (Ha b ltac:(left)) as Hab.
apply Forall_cons in Hp as [Hpb _]. destruct (Ha x Hx) as [<-|Hax]; [|done]. exfalso.
apply elem_of_cons in Hx as [->|Hx]; [done|]. destruct Hab as [->|Hab]; [done|]. destruct (Hb a Hx) as [->|Hba]; [done|].
unfold before_range in *. lia.
Qed.

Lemma covered_iff i l k : (forall r : nat * nat, r ∈ l <-> r ∈ k) -> existsb (covers i) l = existsb (covers i) k.
Proof.
intros H. apply eq_iff_eq_true. rewrite !existsb_exists. by setoid_rewrite <- list_elem_of_In; setoid_rewrite H.
Qed.

(** ** Which marks stay *)

Lemma filter_sorted {A} (R : A -> A -> Prop) (f : A -> bool) l : StronglySorted R l -> StronglySorted R (List.filter f l).
Proof.
induction 1 as [|a l Hs IH Ha]; [constructor|]. cbn [List.filter]. destruct (f a); [|done]. constructor; [done|].
apply Forall_forall. intros x [Hx _]%list_elem_of_In%filter_In. rewrite Forall_forall in Ha. by apply Ha, list_elem_of_In.
Qed.

Lemma marks_over_filter (p : Mark -> bool) i l : marks_over i (List.filter (fun c => p c.2) l) = List.filter p (marks_over i l).
Proof.
unfold marks_over. induction l as [|c l IH]; [done|]. cbn [List.filter]. destruct (p c.2) eqn:Ep, (covers i c.1) eqn:Ec; cbn [List.filter];
rewrite ?Ec, ?fmap_cons; cbn [List.filter]; rewrite ?Ep, ?IH; done.
Qed.

(** What goes one by one goes all. *)
Lemma remove_each (p : Mark -> bool) marks : foldl (fun ms m => Marks.remove_from_set m ms) marks (List.filter p marks) = List.filter (fun m => negb (p m)) marks.
Proof.
assert (Hskip : forall a gone l, Forall (fun m => p m = true) gone -> p a = false ->
foldl (fun ms m => Marks.remove_from_set m ms) (a :: l) gone = a :: foldl (fun ms m => Marks.remove_from_set m ms) l gone).
{ intros a gone. induction gone as [|m gone IH]; intros l Hg Ha; [done|]. apply Forall_cons in Hg as [Hm Hg]. cbn [foldl Marks.remove_from_set].
rewrite bool_decide_eq_false_2 by congruence. by apply IH. }
induction marks as [|a marks IH]; [done|]. cbn [List.filter]. destruct (p a) eqn:Ea; cbn [negb].
- cbn [foldl Marks.remove_from_set]. by rewrite bool_decide_eq_true_2.
- rewrite Hskip; [by rewrite IH| |done]. apply Forall_forall. by intros m [_ Hm]%list_elem_of_In%filter_In.
Qed.

Lemma strip_all_unit kind attrs marks unit gone : strip_all (TUnit kind attrs marks unit) gone =
TUnit kind attrs (if ok_true (Schema.is_inline schema kind) then foldl (fun ms m => Marks.remove_from_set m ms) marks gone else marks) unit.
Proof.
unfold strip_all. induction gone as [|m gone IH] in marks |- *; [by destruct (ok_true _)|]. cbn [foldl]. unfold strip at 2. cbn [remark_token].
rewrite IH. unfold marks_removed. by destruct (ok_true _).
Qed.

Lemma strip_all_leaf n gone : f_size (n_content n) = 0 -> strip_all (TLeaf n) gone =
TLeaf (Node.with_marks n (if ok_true (Schema.is_inline schema (n_kind n)) then foldl (fun ms m => Marks.remove_from_set m ms) (n_marks n) gone else n_marks n)).
Proof.
unfold strip_all. intros Hz. induction gone as [|m gone IH] in n, Hz |- *; [by destruct (ok_true _), n|]. cbn [foldl]. unfold strip at 2. cbn [remark_token].
assert (Hr : remark (marks_removed schema m) 0 n = Node.with_marks n (marks_removed schema m 0 (n_kind n) (n_marks n))).
{ destruct n as [k a [c z] ms t l]. cbn in Hz. subst z. done. }
rewrite Hr, IH by done. destruct n as [k a c ms t l]. unfold marks_removed, Node.with_marks. cbn. by destruct (ok_true _).
Qed.

(** ** All of it *)

(** A token whose marks JSON can hold, and with nothing in it when it is a leaf. *)
Definition sound_token (t : token) : bool :=
match t with
| TUnit _ _ marks _ => forallb (portable_mark schema) marks
| TLeaf n => forallb (portable_mark schema) (n_marks n) && (f_size (n_content n) =? 0)
| _ => true
end.

Definition going (accept : bool) (mark : Mark) : bool := ok_true (stay ← stays schema accept (0, 0, mark); Ok (negb stay)).

Lemma going_changed accept m : changed m = true -> going accept m = negb (staying accept m).
Proof.
unfold changed, going, staying, stays, is_change. cbn [snd]. by destruct (Schema.mark_name schema (m_kind m)).
Qed.

Lemma filter_changed (p : Mark -> bool) marks : List.filter p (List.filter changed marks) = List.filter (fun m => changed m && p m) marks.
Proof. symmetry. by apply list_filter_and. Qed.

Lemma existsb_filter {A} (p : A -> bool) l : existsb p l = match List.filter p l with [] => false | _ => true end.
Proof. induction l as [|a l IH]; [done|]. cbn [existsb List.filter]. by destruct (p a). Qed.

Lemma covered_marks i l : existsb (covers i) (fst <$> l) = match marks_over i l with [] => false | _ => true end.
Proof.
unfold marks_over. induction l as [|c l IH]; [done|]. rewrite fmap_cons. cbn [existsb List.filter]. rewrite IH. by destruct (covers i c.1).
Qed.

(** One token: the marks that stay leave it, and it goes when one does not stay. *)
Lemma settle_token accept t : sound_token t = true ->
(if match List.filter (going accept) (token_changes t) with [] => false | _ => true end then []
else [strip_all t (List.filter (staying accept) (token_changes t))]) = settle accept t.
Proof.
assert (Hgoes : forall marks, match List.filter (going accept) (List.filter changed marks) with [] => false | _ => true end = goes accept marks).
{ intros marks. rewrite filter_changed. unfold goes. rewrite existsb_filter.
rewrite (List.filter_ext _ (fun m => changed m && negb (staying accept m))); [done|]. intros m. destruct (changed m) eqn:E; [|done]. by rewrite going_changed. }
destruct t as [kind attrs marks| |n|kind attrs marks unit]; intros Hs; [done..| |]; cbn [token_changes settle]; rewrite Hgoes.
- apply andb_true_iff in Hs as [_ Hz%Nat.eqb_eq]. destruct (goes accept (n_marks n)); [done|]. rewrite filter_changed, strip_all_leaf, remove_each by done. done.
- destruct (goes accept marks); [done|]. by rewrite filter_changed, strip_all_unit, remove_each.
Qed.

Lemma imap_imap {A B C} (f : nat -> B -> C) (g : nat -> A -> B) l : imap f (imap g l) = imap (fun i a => f i (g i a)) l.
Proof. apply list_eq. intros i. rewrite !list_lookup_imap. by destruct (l !! i). Qed.

(** The marks that stay go, and then the ranges that do not stay. *)
Lemma settled_tokens accept pre mid post changes kept gone ranges : Forall (fun t => sound_token t = true) mid ->
places_of (length pre) mid changes -> kept = List.filter (fun c => staying accept c.2) changes ->
gone = List.filter (fun c => going accept c.2) changes -> (forall r, r ∈ ranges <-> r ∈ fst <$> gone) ->
without ranges (imap (fun i t => strip_all t (marks_over i kept)) (pre ++ mid ++ post)) = pre ++ flat_map (settle accept) mid ++ post.
Proof.
intros Hs Hp -> -> Hranges. destruct Hp as [Hm Hr _].
assert (E : forall l, without ranges (imap (fun i t => strip_all t (marks_over i (List.filter (fun c => staying accept c.2) changes))) l) =
concat (imap (fun i t => if match List.filter (going accept) (marks_over i changes) with [] => false | _ => true end then []
else [strip_all t (List.filter (staying accept) (marks_over i changes))]) l)).
{ intros l. unfold without. rewrite imap_imap. f_equal. apply imap_ext. intros i t _.
by rewrite (covered_iff _ _ _ Hranges), covered_marks, !marks_over_filter. }
rewrite E. clear E. rewrite !concat_imap_app.
rewrite (concat_imap_same _ pre).
2: { intros i t Hi%lookup_lt_Some. by rewrite (marks_over_outside _ _ _ _ Hr) by lia. }
rewrite (concat_imap_same _ post).
2: { intros i t Hi. by rewrite (marks_over_outside _ _ _ _ Hr) by lia. }
f_equal. f_equal. rewrite flat_map_concat_map. f_equal. change (List.map (settle accept) mid) with (settle accept <$> mid). rewrite <- imap_const. apply imap_ext. intros i t Hi.
rewrite Hm, (proj2 (Nat.leb_le _ _)) by lia. replace (length pre + i - length pre) with i by lia. rewrite Hi. cbn [fmap option_fmap option_map default from_option id].
apply settle_token. eapply Forall_lookup_1 in Hi; [exact Hi|done].
Qed.

Lemma change_mark_portable offset l changes : Forall (fun t => sound_token t = true) l -> places_of offset l changes ->
Forall (fun c => portable_mark schema c.2 = true) changes.
Proof.
intros Hs [Hm Hr _]. apply Forall_forall. intros c Hc. rewrite Forall_forall in Hr. destruct (Hr c Hc) as (H1 & H2 & H3).
assert (Hin : c.2 ∈ marks_over c.1.1 changes).
{ unfold marks_over. apply list_elem_of_fmap_2, list_elem_of_In, filter_In. split; [by apply list_elem_of_In|].
unfold covers. by rewrite (proj2 (Nat.leb_le _ _)), (proj2 (Nat.ltb_lt _ _)) by lia. }
rewrite Hm, (proj2 (Nat.leb_le _ _)) in Hin by lia. destruct (l !! (c.1.1 - offset)) as [t|] eqn:E; [|by apply not_elem_of_nil in Hin].
eapply Forall_lookup_1 in E; [|exact Hs]. cbn [fmap option_fmap option_map default from_option id] in Hin.
destruct t as [kind attrs marks| |n|kind attrs marks unit]; cbn [token_changes sound_token] in *; try by apply not_elem_of_nil in Hin.
- apply andb_true_iff in E as [E _]. rewrite forallb_forall in E. by apply list_elem_of_In, filter_In in Hin as [Hin%E _].
- rewrite forallb_forall in E. by apply list_elem_of_In, filter_In in Hin as [Hin%E _].
Qed.

(** The tokens that the changes of a block, or of the document, are in. *)
Definition span (doc : Node) (block : option string) : option (nat * nat) :=
match block with
| None => Some (0, f_size (n_content doc))
| Some id => '(start, node) ← block_start doc id; Some (start + 1, start + 1 + f_size (n_content node))
end.

Lemma settle_region doc accept pre mid post changes steps doc' jsons : wfn doc -> n_text doc = None ->
toks (n_content doc) = pre ++ mid ++ post -> Forall (fun t => sound_token t = true) mid -> places_of (length pre) mid changes ->
(kept ← of_text schema (try_filter (stays schema accept) changes);
gone ← of_text schema (try_filter (fun change => stay ← stays schema accept change; Ok (negb stay)) changes);
Ok (((fun change => Step.RemoveMark change.1.1 change.1.2 change.2) <$> kept) ++
((fun range => Step.Replace range.1 range.2 Slice.empty false) <$> rev (dedup (fst <$> gone))))) = Ok steps ->
run_op schema doc steps = Ok (doc', jsons) -> toks (n_content doc') = pre ++ flat_map (settle accept) mid ++ post.
Proof.
intros Hw Ht El Hs Hp. intros (kept & Hkept & (gone & Hgone & [= <-])%bind_ok)%bind_ok Erun.
unfold of_text in Hkept, Hgone. destruct (try_filter (stays schema accept) changes) as [k| |] eqn:Ek; simplify_eq.
destruct (try_filter _ changes) as [g| |] eqn:Eg in Hgone; simplify_eq. apply try_filter_ok in Ek, Eg.
change (fun a => ok_true (stays schema accept a)) with (fun c : nat * nat * Mark => staying accept c.2) in Ek.
change (fun a => ok_true (stay ← stays schema accept a; Ok (negb stay))) with (fun c : nat * nat * Mark => going accept c.2) in Eg.
pose proof Hp as [_ Hr Hsort]. pose proof (change_mark_portable _ _ _ Hs Hp) as Hport.
assert (Hbounds : Forall (in_range 0 (length (toks (n_content doc)))) changes).
{ eapply Forall_impl; [exact Hr|]. intros c (? & ? & ?). rewrite El, !length_app. repeat split; lia. }
assert (Hsub : forall (P : nat * nat * Mark -> Prop) p, Forall P changes -> Forall P (List.filter p changes)).
{ intros P q. rewrite !Forall_forall. intros HP c [Hc _]%list_elem_of_In%filter_In. by apply HP, list_elem_of_In. }
change (fun change : nat * nat * Mark => Step.RemoveMark change.1.1 change.1.2 change.2) with remove_step in Erun.
change (fun range : nat * nat => Step.Replace range.1 range.2 Slice.empty false) with delete_step in Erun.
apply run_removals in Erun as (doc1 & more & Hw1 & Ht1 & E2 & Hl1); [|done|done|rewrite Ek; by apply Hsub..].
assert (Hgone : Forall (in_range 0 (length (toks (n_content doc)))) gone) by (rewrite Eg; by apply Hsub).
destruct (dedup_ranges (fst <$> gone)) as (_ & Hin & Hsorted).
{ rewrite Eg. eapply (filter_sorted _ (fun c => going accept c.2)) in Hsort. clear -Hsort.
induction Hsort as [|c l Hsort IH Hc]; [constructor|]. rewrite fmap_cons. constructor; [exact IH|]. apply Forall_fmap.
eapply Forall_impl; [exact Hc|]. done. }
{ apply Forall_fmap. eapply Forall_impl; [exact Hgone|]. intros c (_ & ? & _). done. }
apply run_deletions in E2 as (_ & _ & Hl2); [|done|done|done|].
2: { apply Forall_forall. intros r (c & -> & Hc)%Hin%list_elem_of_fmap. rewrite Forall_forall in Hgone. destruct (Hgone c Hc) as (? & ? & ?).
rewrite Hl1, length_imap. lia. }
rewrite Hl2, Hl1, El. by eapply settled_tokens.
Qed.

Definition settled (accept : bool) (low high : nat) (l : list token) : list token :=
take low l ++ flat_map (settle accept) (drop low (take high l)) ++ drop high l.

Lemma settled_parts accept pre mid post low high l : l = pre ++ mid ++ post -> low = length pre -> high = low + length mid ->
settled accept low high l = pre ++ flat_map (settle accept) mid ++ post.
Proof.
intros -> -> ->. unfold settled. rewrite take_app_length. f_equal.
assert (take (length pre + length mid) (pre ++ mid ++ post) = pre ++ mid) as -> by (by rewrite app_assoc, <- length_app, take_app_length).
rewrite drop_app_length. f_equal. by rewrite app_assoc, <- length_app, drop_app_length.
Qed.

Lemma decide_settles doc accept block steps doc' jsons : wfn doc -> n_text doc = None ->
Forall (fun t => sound_token t = true) (toks (n_content doc)) -> decide_steps schema doc block accept = Ok steps ->
run_op schema doc steps = Ok (doc', jsons) ->
exists low high, span doc block = Some (low, high) /\ toks (n_content doc') = settled accept low high (toks (n_content doc)).
Proof.
intros Hw Ht Hs Ed Erun. pose proof (wf_content _ Hw) as Hf. unfold decide_steps in Ed. destruct block as [id|].
- pose proof (block_start_split 0 (children doc) id) as Hb. unfold span, block_start in *. fold (children doc) in *.
destruct (block_start_from 0 (children doc) id) as [[start node]|]; [|done]. destruct Hb as (pre & post & El & -> & _).
cbn [ok_or mbind Result_bind option_bind] in *. destruct (changes_under schema node _) as [changes| |] eqn:Ec; [|done..].
cbn [of_text mbind Result_bind] in Ed. destruct changes as [|c changes]; [done|]. set (all := c :: changes) in *.
assert (Hwn : wfn node) by (destruct Hf as [_ Hl]; fold (children doc) in Hl; rewrite El in Hl; apply Forall_app in Hl as [_ Hl]; by inversion Hl).
assert (Hpre : wfl pre) by (destruct Hf as [_ Hl]; fold (children doc) in Hl; rewrite El in Hl; by apply Forall_app in Hl as [? _]).
assert (Etoks : toks (n_content doc) = flat pre ++ flatten node ++ flat post).
{ unfold toks. fold (children doc). by rewrite El, flat_app, flat_cons. }
destruct (inner node) eqn:Hin.
+ rewrite inner_flatten in Etoks by done. cbn [app] in Etoks.
assert (Esplit : toks (n_content doc) = (flat pre ++ [open_token node]) ++ toks (n_content node) ++ (TClose :: flat post)).
{ rewrite Etoks. by rewrite <- !app_assoc. }
assert (Epre : 0 + total_size pre + 1 = length (flat pre ++ [open_token node])).
{ rewrite length_app, (total_size_flat (schema:=schema)) by done. simpl. lia. }
do 2 eexists. split; [done|]. rewrite Epre. rewrite (settled_parts accept _ _ _ _ _ _ Esplit) by (done || by rewrite (f_size_toks (schema:=schema)) by by apply wf_content).
eapply (settle_region doc); [done|done|exact Esplit| | |exact Ed|exact Erun].
* rewrite Esplit in Hs. by apply Forall_app in Hs as [_ [? _]%Forall_app].
* rewrite <- Epre. by apply changes_places.
+ exfalso. assert (Hempty : f_content (n_content node) = []).
{ destruct node as [k a [cc cs] ms [units|] lf]; cbn [n_content f_content].
- apply (wf_text _ units) in Hwn as (_ & _ & _ & E); [|done]. cbn in E. by injection E as ->.
- unfold inner, Node.is_text in Hin. cbn in Hin. destruct lf; [|done]. rewrite flatten_eq in Etoks. cbn [app] in Etoks.
rewrite Etoks in Hs. apply Forall_app in Hs as [_ [Hn _]%Forall_cons]. cbn [sound_token n_content f_size] in Hn.
apply andb_true_iff in Hn as [_ Hz%Nat.eqb_eq]. apply wf_content in Hwn. by apply (toks_zero (schema:=schema)) in Hwn. }
destruct node as [k a [cc cs] ms text lf]. cbn [n_content f_content] in Hempty. subst cc. by cbn in Ec.
- destruct (changes_under schema doc 0) as [changes| |] eqn:Ec; [|done..]. cbn [of_text mbind Result_bind] in Ed.
destruct changes as [|c changes]; [done|]. set (all := c :: changes) in *. do 2 eexists. split; [done|].
assert (Esplit : toks (n_content doc) = [] ++ toks (n_content doc) ++ []) by (by rewrite app_nil_r).
rewrite (settled_parts accept [] (toks (n_content doc)) []) by (done || by rewrite (f_size_toks (schema:=schema))).
eapply (settle_region doc); [done|done|exact Esplit|done| |exact Ed|exact Erun]. by apply changes_places.
Qed.

Lemma run_op_run_steps steps : forall doc doc' jsons, run_op schema doc steps = Ok (doc', jsons) ->
exists touched, run_steps schema doc jsons = Ok (doc', touched).
Proof.
induction steps as [|step steps IH]; intros doc doc' jsons; cbn [run_op].
- intros [= <- <-]. by exists ∅.
- intros (json & _ & ([d t] & Er & ([d' more] & E & [= <- <-])%bind_ok)%bind_ok)%bind_ok. destruct (IH _ _ _ E) as [t' Et].
exists (t ∪ t'). apply (run_steps_app schema [json] doc more d t d' t'); [|done]. unfold of_text in Er. destruct (run_steps schema doc [json]) as [p| |]; by simplify_eq.
Qed.

(** One op of an agent: its steps run, and what it makes of the document. *)
Lemma apply_one_op m op track author since m' change : apply schema m (Ops [op] track author) since = Ok (m', change) ->
exists steps jsons, op_steps schema (m_doc m) op track author 0 = Ok steps /\ run_op schema (m_doc m) steps = Ok (m_doc m', jsons).
Proof.
cbn [apply]. intros (_ & _ & (steps & Es & ([doc t] & Er & [= <- _])%bind_ok)%bind_ok)%bind_ok.
unfold to_steps in Es. cbn [to_steps_from] in Es. destruct (op_steps schema (m_doc m) op track author 0) as [ss| |]; [|done..].
cbn [mbind Result_bind] in Es. destruct (run_op schema (m_doc m) ss) as [[d all]| |] eqn:Eo; [|done..].
cbn [mbind Result_bind invalid_text] in Es. injection Es as <-. rewrite app_nil_r in Er. destruct (run_op_run_steps _ _ _ _ Eo) as [t' Et].
rewrite Et in Er. cbn in Er. injection Er as <- _. by exists ss, all.
Qed.
End settle.
