(* ===== verification/DocxClaims.v ===== *)
(** What the changes of Word documents promise. *)

From stdpp Require Import sorting.
From S2P Require Import Prelude Json Utf TextMap TextData TextSchema TextNode TextResolved.
From S2P Require Import TextReplace TextTokens TextSlice TextStep TextStepSpec TextJson.
From S2P Require Import TextJsonSpec Format TextBlocks DocxDiff DocxModel DocxOps DocxApply.
From S2P Require Import DocxTouched DocxSchema DocxCompare DocxSettle.
Open Scope nat_scope.

Lemma add_nothing m doc : add_sources (with_raws (with_doc m doc) ∅) ∅ = with_doc m doc.
Proof.
  unfold add_sources, with_raws, with_doc. cbn [m_doc m_sources m_raws m_view]. rewrite map_imap_empty, !(left_id_L ∅ (∪)). done.
Qed.

(** A change of a Word document becomes steps, and the steps alone, on the same document,
    give the same document, sources and XML and stay as they are: what the journal keeps and
    what views get replays. *)
Theorem word_changes_replay (schema : Schema) (m : Model) (change : Change) (since : list (Ordered Change)) (m' : Model) (change' : Change) :
  apply schema m change since = Ok (m', change') -> is_steps change' = true /\ apply schema m change' [] = Ok (m', change').
Proof.
  intros E. destruct change as [steps touched keep sources|ops track author|ops keep sources]; cbn [apply] in E.
  - destruct (existsb _ _); [done|]. apply bind_ok in E as ([doc t] & Er & [= <- <-]). split; [done|].
    cbn [apply existsb]. by rewrite Er.
  - apply bind_ok in E as (_ & _ & (steps & _ & ([doc t] & Er & [= <- <-])%bind_ok)%bind_ok). split; [done|].
    cbn [apply existsb]. rewrite Er. cbn [mbind Result_bind]. by rewrite add_nothing.
  - apply bind_ok in E as (steps & _ & ([doc t] & Er & [= <- <-])%bind_ok). split; [done|].
    cbn [apply existsb]. by rewrite Er.
Qed.

(** C28. What [common_blocks] keeps of two files goes on in both of them and is the same in
    both; when the whole table may be filled, no other choice of blocks keeps more. *)
Theorem files_keep_most_blocks {A} `{EqDecision A} (from to : list A) :
  StronglySorted before (common_blocks from to) /\
  (forall i j, (i, j) ∈ common_blocks from to -> exists a, from !! i = Some a /\ to !! j = Some a) /\
  ((N.of_nat (length from) * N.of_nat (length to) <= MOST_COMPARED)%N ->
   forall l, l `sublist_of` from -> l `sublist_of` to -> length l <= length (common_blocks from to)).
Proof.
  destruct (common_blocks_matched from to) as [Hs Hf]. split; [done|]. split.
  - intros i j Hin. rewrite Forall_forall in Hf. destruct (Hf _ Hin) as [[a Ha] E]. exists a. simpl in *. by rewrite <- E.
  - intros Hn l H1 H2. by apply common_blocks_most.
Qed.

(** When no two blocks have one id, [block_start] finds the block that has it. *)
Lemma block_start_found doc id b : NoDup (omap block_id (children doc)) -> b ∈ children doc -> block_id b = Some id ->
  exists start, block_start doc id = Some (start, b).
Proof.
  unfold block_start, children. generalize 0. induction (f_content (n_content doc)) as [|child l IH]; intros position Hn Hin Hid.
  { by apply not_elem_of_nil in Hin. }
  cbn [block_start_from omap list_omap] in *. destruct (decide (block_id child = Some id)) as [E|Hne].
  - exists position. apply elem_of_cons in Hin as [->|Hin]; [done|]. rewrite E in Hn. apply NoDup_cons in Hn as [Hni _].
    destruct Hni. apply list_elem_of_omap. by exists b.
  - apply elem_of_cons in Hin as [->|Hin]; [done|]. apply IH; [|done..]. destruct (block_id child); [|done]. by apply NoDup_cons in Hn as [_ ?].
Qed.

(** C25. The ops of an agent go in a Word document only when the blocks that they name are what
    the agent read: since then each of them kept its id and every one of its tokens, whatever
    the changes in between did; and when no two blocks have one id, it is the block that the
    ops act on. *)
Theorem agents_never_overwrite (schema : Schema) (read now after : Model) (since : list (Ordered Change))
    (ops : list Op) (track : bool) (author : string) (change : Change) (block : Node) (id : string) :
  wf_node schema (m_doc read) = true -> n_text (m_doc read) = None -> follows (schema:=schema) read since now ->
  apply schema now (Ops ops track author) since = Ok (after, change) ->
  block ∈ blocks (children (m_doc read)) -> block_id block = Some id -> id ∈ flat_map targets ops ->
  exists block', block' ∈ children (m_doc now) /\ block_id block' = Some id /\ flatten block' = flatten block /\
    (NoDup (omap block_id (children (m_doc now))) -> exists start, block_start (m_doc now) id = Some (start, block')).
Proof.
  intros Hw Ht Hf ([] & Hc & _)%bind_ok Hin Hid Htarget. apply check_conflicts_ok in Hc.
  assert (Hall : Forall (fun ordered => match o_change ordered with Steps _ touched _ _ => id ∉ touched | _ => True end) since).
  { eapply Forall_impl; [exact Hc|]. cbn beta. intros ordered H. destruct (o_change ordered); [by apply H|done..]. }
  destruct (untouched_stays _ _ _ Hf Hw Ht id block Hall Hin Hid) as (b' & Hb' & Hid' & E). exists b'.
  assert (b' ∈ children (m_doc now)) by (by apply list_elem_of_In, filter_In in Hb' as [?%list_elem_of_In _]).
  split_and!; [done..|]. intros Hn. by eapply block_start_found.
Qed.

(** C26. What [compare] finds between two files of Word blocks goes in the one without an error
    and makes the blocks of the other, but for ids that both may give a block: when the ids of
    the old blocks and of those that come in are all different, and no gap but the last has
    more blocks to put in than to take out, unless it takes none out and follows a block that
    stays. *)
Theorem other_writes_go_in `{JsonText} (from to : Model) : mergeable from to ->
  exists changes m', compare docx_schema from to = Ok changes /\ take_in from changes = Ok m' /\
    Forall2 same_block (children (m_doc m')) (children (m_doc to)).
Proof. apply compare_take_in. Qed.

Definition settle_op (accept : bool) (block : option string) : Op := if accept then AcceptChanges block else RejectChanges block.

(** C27. When the tracked changes of a document, or of one block of it, are accepted or rejected,
    each piece of text or leaf there with a mark that does not stay (a deletion, when accepted)
    goes, the rest loses the marks that stay (insertions, then) and keeps all its other marks,
    and every token elsewhere is as it was; no tracked change is left in the inline content of
    the place. *)
Theorem changes_are_settled (schema : Schema) (m m' : Model) (accept : bool) (block : option string) (track : bool) (author : string)
    (since : list (Ordered Change)) (change : Change) :
  named schema -> wf_node schema (m_doc m) = true -> n_text (m_doc m) = None ->
  Forall (fun t => sound_token (schema:=schema) t = true) (toks (n_content (m_doc m))) ->
  apply schema m (Ops [settle_op accept block] track author) since = Ok (m', change) ->
  exists low high, span (m_doc m) block = Some (low, high) /\
    toks (n_content (m_doc m')) = settled (schema:=schema) accept low high (toks (n_content (m_doc m))) /\
    forall t, t ∈ drop low (take high (toks (n_content (m_doc m)))) -> inline_token (schema:=schema) t ->
      Forall (fun t' => token_changes (schema:=schema) t' = []) (settle (schema:=schema) accept t).
Proof.
  intros Hn Hw Ht Hs (steps & jsons & Eo & Er)%apply_one_op.
  assert (Ed : decide_steps schema (m_doc m) block accept = Ok steps) by (by destruct accept).
  destruct (decide_settles Hn _ _ _ _ _ _ Hw Ht Hs Ed Er) as (low & high & Hspan & El). exists low, high. split; [done|]. split; [done|].
  intros t _ Hin. by apply settle_clean.
Qed.

(* ------------------------------------------------------------ *)

(** The claims of Word documents at small documents, and what goes wrong in some. *)

Open Scope nat_scope.

Definition no_node : Node := MkNode 0 [] empty_fragment [] None false.
Definition got {E A} (a : A) (r : Result E A) : A := match r with Ok b => b | _ => a end.

Definition para (text id : string) : Node := got no_node (paragraph_of docx_schema text None (Some id)).
Definition doc_of (blocks : list Node) : Node := MkNode 0 [] (Fragment.from_array blocks) [] None false.
Definition model_of (doc : Node) : Model := MkModel doc ∅ ∅ Null.

(** Two paragraphs, which an agent reads. *)
Definition read_doc : Node := doc_of [para "Hello there" "p1"; para "Good bye" "p2"].

(** A view then types [!] after [Hello there]. *)
Definition typed : Step.t := insert_step 12 (got no_node (node_text docx_schema "!" [])).
Definition typed_change : Change :=
  match step_to_json docx_schema typed with Ok json => Steps [json] {["p1"%string]} ∅ ∅ | _ => Steps [] ∅ ∅ ∅ end.
Definition typed_model : Model :=
  match apply docx_schema (model_of read_doc) typed_change [] with Ok (m, _) => m | _ => model_of read_doc end.

Definition agent_says : Change := Ops [ReplaceText "Good" "Well" (Some "p2") false]%string true "Ann".

Example typed_text : answer docx_schema typed_model (Read None) = Ok (object [("blocks", Array [
  object [("id", Str "p1"); ("kind", Str "paragraph"); ("style", Null); ("text", Str "Hello there!")];
  object [("id", Str "p2"); ("kind", Str "paragraph"); ("style", Null); ("text", Str "Good bye")]])])%string.
Proof. vm_compute. reflexivity. Qed.

Definition typed_at : Ordered Change := MkOrdered 4%N "Bob" "view" 1%N typed_change.

(** An op on the block that the view changed is refused. *)
Example agent_refused : apply docx_schema typed_model (Ops [ReplaceText "there" "you" (Some "p1") false]%string true "Ann")
  [typed_at] = Err (Behind "Bob changed block p1 after you read it. Read again.").
Proof. vm_compute. reflexivity. Qed.

Lemma typed_ok : change_ok (schema:=docx_schema) read_doc typed_change.
Proof.
  intros step Hs. vm_compute in Hs. injection Hs as <-. split; [|by intros].
  constructor; [split; [reflexivity|]; by repeat constructor|reflexivity..].
Qed.

Lemma typed_follows : follows (schema:=docx_schema) (model_of read_doc) [typed_at] typed_model.
Proof.
  eapply (follows_next _ typed_at); [|exact typed_ok|constructor]. vm_compute. reflexivity.
Qed.

Lemma agents_never_overwrite_witness :
  match apply docx_schema typed_model agent_says [typed_at] with
  | Ok (after, change) => exists block', block' ∈ children (m_doc typed_model) /\ block_id block' = Some "p2"%string /\
      flatten block' = flatten (para "Good bye" "p2") /\
      (NoDup (omap block_id (children (m_doc typed_model))) -> exists start, block_start (m_doc typed_model) "p2" = Some (start, block'))
  | _ => False
  end.
Proof.
  destruct (apply docx_schema typed_model agent_says [typed_at]) as [[after change]| |] eqn:E; [|vm_compute in E; discriminate E..].
  refine (agents_never_overwrite docx_schema (model_of read_doc) typed_model after [typed_at] _ true "Ann" change
    (para "Good bye" "p2") "p2" eq_refl eq_refl typed_follows E _ eq_refl _).
  - right. left.
  - left.
Defined.

Lemma word_changes_replay_witness :
  match apply docx_schema typed_model agent_says [typed_at] with
  | Ok (after, change) => is_steps change = true /\ apply docx_schema typed_model change [] = Ok (after, change)
  | _ => False
  end.
Proof.
  destruct (apply docx_schema typed_model agent_says [typed_at]) as [[after change]| |] eqn:E; [|vm_compute in E; discriminate E..].
  exact (word_changes_replay docx_schema typed_model agent_says [typed_at] after change E).
Defined.

(** ** Tracked changes *)

(** The agent's replacement, tracked: the old text with a deletion, the new with an insertion. *)
Definition tracked : Model := match apply docx_schema typed_model agent_says [typed_at] with Ok (m, _) => m | _ => typed_model end.
Definition after_op (m : Model) (op : Op) : Model := match apply docx_schema m (Ops [op] false "Bob") [] with Ok (m, _) => m | _ => m end.
Definition texts (m : Model) : list string := text_content <$> children (m_doc m).

Example tracked_changes_there : answer docx_schema tracked Check_ = Ok (object [("trackedChanges", number_of 2)]%string) /\
  texts tracked = ["Hello there!"; "GoodWell bye"]%string.
Proof. split; vm_compute; reflexivity. Qed.
Example accepted : texts (after_op tracked (AcceptChanges None)) = ["Hello there!"; "Well bye"]%string.
Proof. vm_compute. reflexivity. Qed.
Example rejected : texts (after_op tracked (RejectChanges (Some "p2"%string))) = texts typed_model.
Proof. vm_compute. reflexivity. Qed.

Lemma changes_are_settled_witness :
  match apply docx_schema tracked (Ops [AcceptChanges (Some "p2")]%string false "Bob") [] with
  | Ok (m', change) => exists low high, span (m_doc tracked) (Some "p2"%string) = Some (low, high) /\
      toks (n_content (m_doc m')) = settled (schema:=docx_schema) true low high (toks (n_content (m_doc tracked))) /\
      forall t, t ∈ drop low (take high (toks (n_content (m_doc tracked)))) -> inline_token (schema:=docx_schema) t ->
        Forall (fun t' => token_changes (schema:=docx_schema) t' = []) (settle (schema:=docx_schema) true t)
  | _ => False
  end.
Proof.
  destruct (apply docx_schema tracked (Ops [AcceptChanges (Some "p2")]%string false "Bob") []) as [[m' change]| |] eqn:E; [|vm_compute in E; discriminate E..].
  refine (changes_are_settled docx_schema tracked m' true (Some "p2"%string) false "Bob" [] change docx_schema_named eq_refl eq_refl _ E).
  apply (bool_decide_eq_true _). vm_compute. reflexivity.
Defined.

(** A tracked replacement of text that is deleted already: what it puts in has the deletion's
    mark too, and goes when the changes are accepted. *)
Example born_deleted : let m := match apply docx_schema tracked (Ops [ReplaceText "Good" "Fine" None false]%string true "Bob") [] with Ok (m, _) => m | _ => tracked end in
  texts m = ["Hello there!"; "GoodFineWell bye"]%string /\ texts (after_op m (AcceptChanges None)) = ["Hello there!"; "Well bye"]%string.
Proof. split; vm_compute; reflexivity. Qed.

(** ** What another program writes *)

(** The text of JSON, for the comparison of blocks. *)
Fixpoint show (v : Value) : string :=
match v with
| Null => "null"
| Bool b => if b then "true" else "false"
| Num (PosInt n) => pretty n
| Num (NegInt z) => pretty z
| Num (Float bits) => "f" +:+ pretty bits
| Str s => QUOTE +:+ s +:+ QUOTE
| Array l => "[" +:+ foldr (fun v s => show v +:+ "," +:+ s) "]" l
| Object m => "{" +:+ foldr (fun e s => e.1 +:+ ":" +:+ show e.2 +:+ "," +:+ s) "}" m
end%string.
#[local] Instance shown : JsonText := show.

Definition file (blocks : list (string * string)) : Model := model_of (doc_of ((fun e => para e.1 e.2) <$> blocks)).
(** The texts of a document once what a compare found is in it. *)
Definition merged (from to : Model) : list string :=
match compare docx_schema from to with
| Ok [change] => match apply docx_schema from change [] with Ok (m, _) => texts m | _ => [] end
| _ => []
end.

Definition abc : Model := file [("a", "1"); ("b", "2"); ("c", "3")]%string.

Example change_merges : merged abc (file [("a", "1"); ("B", "4"); ("c", "3"); ("d", "5")])%string = ["a"; "B"; "c"; "d"]%string.
Proof. vm_compute. reflexivity. Qed.

(** A block that goes in before the first comes out after the last: its anchor is [None],
    which says the end. *)
Example first_goes_last : merged abc (file [("new", "4"); ("a", "1"); ("b", "2"); ("c", "3")])%string = ["a"; "b"; "c"; "new"]%string.
Proof. vm_compute. reflexivity. Qed.

(** Two blocks in the place of one: the anchor of the second is the block that the first took
    the place of, and an anchor that is not there says the end too. *)
Example second_goes_last : merged abc (file [("a", "1"); ("x", "4"); ("y", "5"); ("c", "3")])%string = ["a"; "x"; "c"; "y"]%string.
Proof. vm_compute. reflexivity. Qed.

(** A block that moves up keeps its id, which is a hash of its XML: the deletion of the old one
    finds the new one first, and nothing moves. *)
Example move_is_lost : merged (file [("a", "1"); ("b", "2"); ("c", "3"); ("d", "4")])
  (file [("a", "1"); ("d", "4"); ("b", "2"); ("c", "3")]) = ["a"; "b"; "c"; "d"]%string.
Proof. vm_compute. reflexivity. Qed.

(** What two files keep: the first and last line, and two of the three in between. *)
Lemma files_keep_most_blocks_witness :
  common_blocks ["a"; "b"; "c"; "x"; "z"]%string ["a"; "c"; "b"; "x"; "y"; "z"]%string = [(0, 0); (2, 1); (3, 3); (4, 5)] /\
  forall l, l `sublist_of` ["a"; "b"; "c"; "x"; "z"]%string -> l `sublist_of` ["a"; "c"; "b"; "x"; "y"; "z"]%string -> length l <= 4.
Proof.
  split; [reflexivity|].
  refine (proj2 (proj2 (files_keep_most_blocks ["a"; "b"; "c"; "x"; "z"]%string ["a"; "c"; "b"; "x"; "y"; "z"]%string)) _).
  intros Hc. vm_compute in Hc. discriminate Hc.
Defined.

Definition abcde : Model := file [("a", "1"); ("b", "2"); ("c", "3"); ("d", "4"); ("e", "5")]%string.
(** Here [b] is changed, [c] is gone, two blocks follow [d], and [e] becomes two. *)
Definition written : Model := file [("a", "1"); ("B", "6"); ("d", "4"); ("x", "7"); ("y", "8"); ("E", "9"); ("F", "10")]%string.

Lemma word_doc_of blocks : forallb word_block (children blocks) = true -> wf_node docx_schema blocks = true -> n_kind blocks = 0 ->
  length (children blocks) <> 0 -> word_doc blocks.
Proof.
  intros Hb Hw Hk Hne. split; [done|]. split; [done|]. split; [by intros E; rewrite E in Hne|]. apply Forall_forall. intros n Hn%list_elem_of_In.
  rewrite forallb_forall in Hb. by apply Hb.
Qed.

Lemma written_merges : mergeable abcde written.
Proof.
  constructor.
  - apply word_doc_of; [vm_compute; reflexivity..|discriminate].
  - apply word_doc_of; [vm_compute; reflexivity..|discriminate].
  - split; [apply (bool_decide_eq_true _); vm_compute; reflexivity|].
    vm_compute. repeat (constructor; [eexists; reflexivity|]). constructor.
  - vm_compute. reflexivity.
Qed.

Lemma other_writes_go_in_witness : mergeable abcde written /\ exists changes m', compare docx_schema abcde written = Ok changes /\
  take_in abcde changes = Ok m' /\ Forall2 same_block (children (m_doc m')) (children (m_doc written)).
Proof. split; [exact written_merges|]. exact (other_writes_go_in abcde written written_merges). Defined.

Example written_texts : merged abcde written = ["a"; "B"; "d"; "x"; "y"; "E"; "F"]%string.
Proof. vm_compute. reflexivity. Qed.
