(* ===== verification/Terminal.v ===== *)
(** [runtime/src/terminal/types.rs], [status.rs], [context.rs] and [canvas/mod.rs]: what a
    terminal tells its viewers about itself, and when it is valid, with the controls of
    [network/mod.rs] that a viewer sends.

    A [u16], [u32] or [u64] is an [N]; a value built by the code keeps its width, and the
    frames of [Wire] write it at that width.  [uuid] is a library, and the limits of the
    protocol contract are written by the build, so both are parameters. *)

From S2P Require Import Prelude Utf.
Open Scope N_scope.

(** The size of a [String] in bytes. *)
Definition size_of (s : string) : N := N.of_nat (String.length s).

(** [char::is_control]. *)
Definition is_control (c : N) : bool := (c <? 32) || ((127 <=? c) && (c <? 160)).

Definition none_or {A} (f : A -> bool) (o : option A) : bool :=
  match o with Some a => f a | None => true end.

(** ** Numbers as bytes *)

Definition byte_of (n : N) : Byte.byte := default Byte.x00 (Byte.of_N (n mod 256)).

(** [to_be_bytes] of a number of [n] bytes. *)
Fixpoint be (n : nat) (v : N) : bytes :=
  match n with O => [] | S n => byte_of (v / 256 ^ N.of_nat n) :: be n v end.

(** [from_be_bytes] and [from_le_bytes]. *)
Definition of_be (l : bytes) : N := fold_left (fun v b => v * 256 + Byte.to_N b) l 0.
Definition of_le (l : bytes) : N := of_be (rev l).

(** [sha2] is a library. *)
Class Sha256 : Type := { sha256_of : bytes -> bytes }.

Lemma byte_of_N n : Byte.to_N (byte_of n) = n mod 256.
Proof.
  unfold byte_of. destruct (Byte.of_N (n mod 256)) as [b|] eqn:E; simpl.
  - by apply Byte.to_of_N_iff.
  - apply Byte.of_N_None_iff in E. pose proof (N.mod_lt n 256 ltac:(done)). lia.
Qed.

Lemma length_be n v : length (be n v) = n.
Proof. induction n; simpl; auto. Qed.

Lemma fold_be n v acc :
  fold_left (fun v b => v * 256 + Byte.to_N b) (be n v) acc
  = acc * 256 ^ N.of_nat n + v mod 256 ^ N.of_nat n.
Proof.
  revert acc. induction n as [|n IH]; intros acc; cbn [be fold_left].
  { rewrite N.pow_0_r, N.mod_1_r. lia. }
  rewrite IH, byte_of_N, Nat2N.inj_succ, N.pow_succ_r'.
  assert (0 < 256 ^ N.of_nat n) by (apply N.neq_0_lt_0, N.pow_nonzero; done).
  rewrite (N.mul_comm 256 (256 ^ _)), N.Div0.mod_mul_r. lia.
Qed.

Lemma of_be_be n v : v < 256 ^ N.of_nat n -> of_be (be n v) = v.
Proof. intros Hv. unfold of_be. rewrite fold_be, N.mod_small by done. lia. Qed.

Lemma fold_bound l acc : fold_left (fun v b => v * 256 + Byte.to_N b) l acc < (acc + 1) * 256 ^ len l.
Proof.
  unfold len. revert acc. induction l as [|b l IH]; intros acc; cbn [fold_left length].
  { rewrite N.pow_0_r. lia. }
  pose proof (Byte.to_N_bounded b). specialize (IH (acc * 256 + Byte.to_N b)).
  rewrite Nat2N.inj_succ, N.pow_succ_r'. nia.
Qed.

Lemma of_be_bound l : of_be l < 256 ^ len l.
Proof. unfold of_be. pose proof (fold_bound l 0). lia. Qed.

(** ** Sizes *)

Definition MAX_TERMINAL_ROWS : N := 512.
Definition MAX_TERMINAL_COLS : N := 1024.
Definition TERMINAL_CHECKPOINT_SCHEMA_VERSION : N := 6.
Definition TERMINAL_SNAPSHOT_TEXT_MAX_BYTES : N := 8388608.
Definition IMAGE_STORAGE_MAX_BYTES : N := 67108864.
Definition TERMINAL_SNAPSHOT_MAX_BYTES : N :=
  TERMINAL_SNAPSHOT_TEXT_MAX_BYTES + 4 * IMAGE_STORAGE_MAX_BYTES + 4194304.
Definition TERMINAL_INPUT_MAX_BYTES : N := 1048576.
Definition U16 : N := 65536.
Definition U32 : N := 4294967296.
Definition U64 : N := 18446744073709551616.

Record TerminalSize : Type := MkSize { s_rows : N; s_cols : N }.

(** [TerminalSize::new]; the error is the refused size. *)
Definition new_size (rows cols : N) : option TerminalSize :=
  if (1 <=? rows) && (rows <=? MAX_TERMINAL_ROWS) && (1 <=? cols) && (cols <=? MAX_TERMINAL_COLS)
  then Some (MkSize rows cols) else None.

Record TerminalPixelGeometry : Type := MkGeometry {
  g_width : N; g_height : N; g_cell_width : N; g_cell_height : N
}.

(** [TerminalPixelGeometry::new]. *)
Definition new_geometry (width height cell_width cell_height : N) : option TerminalPixelGeometry :=
  if (width =? 0) || (height =? 0) || (cell_width =? 0) || (cell_height =? 0) then None
  else Some (MkGeometry width height cell_width cell_height).

(** [u32::checked_mul]. *)
Definition checked_mul32 (a b : N) : option N := if a * b <? U32 then Some (a * b) else None.

Definition validate_for_size (g : TerminalPixelGeometry) (size : TerminalSize) :
    option TerminalPixelGeometry :=
  if decide (checked_mul32 (s_cols size) (g_cell_width g) = Some (g_width g) /\
             checked_mul32 (s_rows size) (g_cell_height g) = Some (g_height g))
  then Some g else None.

Record CellPixels : Type := MkCell { cell_width : N; cell_height : N }.

#[export] Instance CellPixels_eq_dec : EqDecision CellPixels.
Proof. solve_decision. Defined.

(** ** The state of the program in the terminal *)

Inductive ProgramState : Type := Idle | Working | Done | Blocked | Error.

#[export] Instance ProgramState_eq_dec : EqDecision ProgramState.
Proof. solve_decision. Defined.

Inductive BlockedKind : Type := Permission | Question | Auth.

Record ProgramStatus : Type := MkStatus {
  p_state : ProgramState; p_kind : option BlockedKind; p_progress : option N;
  p_title : option string; p_message : option string
}.

Definition MAX_TITLE_CHARS : N := 192.
Definition MAX_MESSAGE_CHARS : N := 512.

Definition is_invisible_format (c : N) : bool :=
  (c =? 173) || (c =? 1564) || (c =? 6158) || ((8203 <=? c) && (c <=? 8207))
  || ((8232 <=? c) && (c <=? 8238)) || ((8288 <=? c) && (c <=? 8297)) || (c =? 65279)
  || ((65529 <=? c) && (c <=? 65531)) || ((917504 <=? c) && (c <=? 917631)).

Definition is_display_text (text : string) (max_chars : N) : bool :=
  negb (size_of text =? 0) && (len (chars text) <=? max_chars)
  && negb (existsb (fun c => is_control c || is_invisible_format c) (chars text)).

(** [ProgramStatus::is_valid]. *)
Definition status_is_valid (s : ProgramStatus) : bool :=
  (bool_decide (p_kind s = None) || bool_decide (p_state s = Blocked))
  && none_or (fun progress => (progress <=? 100)
      && (bool_decide (p_state s = Working) || bool_decide (p_state s = Blocked))) (p_progress s)
  && none_or (fun title => is_display_text title MAX_TITLE_CHARS) (p_title s)
  && none_or (fun message => is_display_text message MAX_MESSAGE_CHARS) (p_message s).

(** ** Where the terminal is *)

Inductive PlaceKind : Type := Remote | Container | Vm.
Record ContextPlace : Type := MkPlace { place_kind : PlaceKind; place_name : string }.
Record TerminalContext : Type := MkContext { place : option ContextPlace; root : bool }.

Definition MAX_NAME_CHARS : N := 255.

(** [TerminalContext::is_valid]. *)
Definition context_is_valid (c : TerminalContext) : bool :=
  (bool_decide (is_Some (place c)) || root c)
  && none_or (fun place => is_display_text (place_name place) MAX_NAME_CHARS) (place c).

(** ** The canvas *)

Inductive CanvasKind : Type := Page | Picture | Pdf | Document | Sheet | Presentation.
Inductive DocumentView : Type := ViewDocx | ViewXlsx | ViewPptx | ViewPdf.

Record CanvasItem : Type := MkItem {
  i_key : string; i_name : string; i_kind : CanvasKind; i_view : option DocumentView;
  i_revision : N; i_bytes : N; i_changed : N; i_missing : bool
}.

Inductive BrowserState : Type := Starting | Awake | Asleep.
Record BrowserTab : Type := MkTab { t_id : string; t_title : string; t_url : string; t_active : bool }.
Record BrowserAction : Type := MkAction { a_agent : string; a_words : string }.
Inductive BrowserDoingKind : Type :=
  DoingOpen | DoingClick | DoingType | DoingScroll | DoingRead | DoingWait | DoingOther.
Record BrowserPoint : Type := MkPoint { point_x : N; point_y : N }.
Record BrowserDoing : Type := MkDoing {
  d_agent : string; d_kind : BrowserDoingKind; d_point : option BrowserPoint
}.

Record CanvasBrowser : Type := MkBrowser {
  b_state : BrowserState; b_changed : N; b_tabs : list BrowserTab; b_width : N; b_height : N;
  b_getting : option N; b_doing : option BrowserDoing; b_last : option BrowserAction;
  b_problem : option string
}.

Record Canvas : Type := MkCanvas {
  canvas_sequence : N; canvas_items : list CanvasItem; canvas_browser : option CanvasBrowser
}.

Inductive BrowserAct : Type := Wake.

Inductive CanvasRequest : Type :=
| Read (key : string) (revision offset : N)
| Remove (keys : list string)
| Attach (upload name : string) (offset : N) (data : string) (last page : bool)
| Act (action : BrowserAct).

Definition MOST_ITEMS : N := 20.
Definition PART_BYTES : N := 262144.
Definition MOST_TABS : N := 10.
Definition MOST_TITLE : N := 512.
Definition MOST_URL : N := 512.
Definition MOST_KEY : N := 1024.
Definition MOST_NAME : N := 512.
Definition MOST_PROBLEM : N := 1024.
Definition MOST_SIDE : N := 4096.

Definition code (a : Ascii.ascii) : N := Ascii.N_of_ascii a.

Definition has_char (p : N -> bool) (s : string) : bool :=
  existsb (fun a => p (code a)) (String.list_ascii_of_string s).

Definition bounded (text : string) (most : N) : bool :=
  (size_of text <=? most) && negb (has_char (N.eqb 0) text).

(** [CanvasItem::is_valid]. *)
Definition item_is_valid (i : CanvasItem) : bool :=
  bounded (i_key i) MOST_KEY && bounded (i_name i) MOST_NAME && negb (size_of (i_name i) =? 0).

(** [CanvasBrowser::is_valid]. *)
Definition browser_is_valid (b : CanvasBrowser) : bool :=
  (len (b_tabs b) <=? MOST_TABS)
  && forallb (fun tab => bounded (t_id tab) 64 && bounded (t_title tab) MOST_TITLE
                         && bounded (t_url tab) MOST_URL) (b_tabs b)
  && none_or (fun doing => bounded (d_agent doing) 64
      && none_or (fun p => (point_x p <=? MOST_SIDE) && (point_y p <=? MOST_SIDE)) (d_point doing))
      (b_doing b)
  && none_or (fun last => bounded (a_agent last) 64 && bounded (a_words last) 256) (b_last b)
  && none_or (fun problem => bounded problem MOST_PROBLEM) (b_problem b).

(** [Canvas::is_valid]. *)
Definition canvas_is_valid (c : Canvas) : bool :=
  (len (canvas_items c) <=? MOST_ITEMS) && forallb item_is_valid (canvas_items c)
  && none_or browser_is_valid (canvas_browser c).

(** ** What the libraries and the build give *)

Class Terminal : Type := {
  (** [Uuid::parse_str(text).is_ok()]. *)
  is_uuid : string -> bool;
  (** [protocol::TERMINAL_VIEWERS_MOST], of the contract that the build writes. *)
  TERMINAL_VIEWERS_MOST : N
}.

Section terminal.
Context `{Terminal}.

(** [CanvasRequest::is_valid]. *)
Definition request_is_valid (r : CanvasRequest) : bool :=
match r with
| Read key _ _ => bounded key MOST_KEY
| Remove keys => (len keys <=? MOST_ITEMS) && forallb (fun key => bounded key MOST_KEY) keys
| Attach upload name _ data _ _ =>
is_uuid upload && negb (size_of name =? 0) && bounded name MOST_NAME
&& negb (String.eqb name "." || String.eqb name "..")
&& negb (has_char (fun c => existsb (N.eqb c) [47; 92; 58; 0]) name)
&& (size_of data <=? (PART_BYTES + 2) / 3 * 4)
| Act Wake => true
end.

(** ** The names of agents, in [agents/mod.rs] *)

Inductive Agent : Type := Claude | Codex | Copilot | Cursor | Gemini | Opencode.

Definition Agent_ALL : list Agent := [Claude; Codex; Copilot; Cursor; Gemini; Opencode].

Definition agent_name (a : Agent) : string :=
match a with
| Claude => "claude" | Codex => "codex" | Copilot => "copilot" | Cursor => "cursor"
| Gemini => "gemini" | Opencode => "opencode"
end.

Definition agent_named (name : string) : option Agent :=
List.find (fun agent => String.eqb (agent_name agent) name) Agent_ALL.

Definition is_agent_name (name : string) : bool := bool_decide (is_Some (agent_named name)).

(** ** What a terminal tells its viewers *)

Definition is_letter (a : Ascii.ascii) : bool :=
let n := code a in ((65 <=? n) && (n <=? 90)) || ((97 <=? n) && (n <=? 122)).

Definition is_valid_folder (value : string) : bool :=
(size_of value <=? 4096) && negb (existsb is_control (chars value))
&& (String.prefix "/" value
|| ((2 <? size_of value) && String.prefix "\\" value)
|| match value with
| String drive (String colon (String slash _)) =>
is_letter drive && (code colon =? 58) && ((code slash =? 92) || (code slash =? 47))
| _ => false
end).

Record TerminalMetadata : Type := MkMetadata {
connected_users : list string; directory : option string; title : option string;
program : option string; m_status : option ProgramStatus; m_context : option TerminalContext;
m_canvas : option Canvas
}.

(** [TerminalMetadata::is_valid]. *)
Definition metadata_is_valid (m : TerminalMetadata) : bool :=
(len (connected_users m) <=? TERMINAL_VIEWERS_MOST)
&& forallb is_uuid (connected_users m)
&& none_or is_valid_folder (directory m)
&& none_or (fun value => size_of value <=? 4096) (title m)
&& none_or is_agent_name (program m)
&& none_or status_is_valid (m_status m)
&& none_or context_is_valid (m_context m)
&& none_or canvas_is_valid (m_canvas m).
End terminal.

(** ** What a viewer asks *)

(** The bytes of input and of a message; a [Message] is text, and [from_utf8] checks it. *)
Inductive TerminalControl : Type :=
| CtlInput (input : bytes)
| CtlMessage (message : bytes)
| CtlResize (rows cols width height cell_width cell_height : N) (claim : bool)
| CtlFocus (focused : bool)
| CtlInterrupt
| CtlClose
| CtlCanvas (request : CanvasRequest).

(** ** Snapshots *)

(** [Checkpoint]: [size] and [cell] are read from the snapshot, whose header the terminal
library reads. *)
Record Checkpoint : Type := MkCheckpoint {
  k_metadata : option TerminalMetadata; k_size : TerminalSize; k_cell : CellPixels;
  k_snapshot : bytes; k_console : bool
}.

(** [SnapshotHeader::read] of [ghostty-vt-sys/src/raw.rs]: what the first record of a snapshot
    says of the terminal, which the library that writes and restores snapshots documents. *)
Record SnapshotHeader : Type := MkHeader {
  h_cols : N; h_rows : N; h_width : N; h_height : N;
  h_scrollback_bytes : option N; h_scrollback_lines : option N
}.

Definition SNAPSHOT_ENVELOPE : bytes :=
  [Byte.x47; Byte.x48; Byte.x4f; Byte.x53; Byte.x54; Byte.x53; Byte.x4e; Byte.x50; Byte.x01; Byte.x00].
Definition SNAPSHOT_RECORD_HEADER_BYTES : nat := 10.
Definition SNAPSHOT_TERMINAL_TAG : N := 1.
Definition SNAPSHOT_TERMINAL_HEADER_BYTES : nat := 103.

(** [from_le_bytes] of the [n] bytes at [at]. *)
Definition read_le (n at' : nat) (l : bytes) : N := of_le (take n (drop at' l)).

Definition read_header (snapshot : bytes) : option SnapshotHeader :=
  if negb (bool_decide (take (length SNAPSHOT_ENVELOPE) snapshot = SNAPSHOT_ENVELOPE)) then None
  else
    let record := drop (length SNAPSHOT_ENVELOPE) snapshot in
    if (length record <? SNAPSHOT_RECORD_HEADER_BYTES + SNAPSHOT_TERMINAL_HEADER_BYTES)%nat then None
    else
      let header := take SNAPSHOT_RECORD_HEADER_BYTES record in
      let fields := take SNAPSHOT_TERMINAL_HEADER_BYTES (drop SNAPSHOT_RECORD_HEADER_BYTES record) in
      let payload := read_le 4 2 header in
      if negb (read_le 2 0 header =? SNAPSHOT_TERMINAL_TAG)
         || (payload <? N.of_nat SNAPSHOT_TERMINAL_HEADER_BYTES) then None
      else
        let limit at' := let v := read_le 8 at' fields in if v =? U64 - 1 then None else Some v in
        Some (MkHeader (read_le 2 0 fields) (read_le 2 2 fields) (read_le 4 4 fields)
                (read_le 4 8 fields) (limit 87%nat) (limit 95%nat)).

(** [CellPixels::within]: a size has no zero. *)
Definition cell_within (width height : N) (size : TerminalSize) : CellPixels :=
  MkCell (width / s_cols size) (height / s_rows size).

(** [Checkpoint::new]. *)
Definition new_checkpoint (snapshot : bytes) (console : bool) : option Checkpoint :=
  if TERMINAL_SNAPSHOT_MAX_BYTES <? len snapshot then None
  else
    header ← read_header snapshot;
    size ← new_size (h_rows header) (h_cols header);
    Some (MkCheckpoint None size (cell_within (h_width header) (h_height header) size)
            snapshot console).

(* ------------------------------------------------------------ *)

(** [runtime/src/network/wire/packing.rs]: the bytes of a frame or a snapshot, packed and
    unpacked by a [flate2] stream in a loop that grows its output.

    [flate2] is a library: a stream is a state, and a call takes a part of the input and
    gives at most as many bytes as the output has room for.  [Vec] may reserve more than it
    was asked for.  The interface [Packing] is what the frames use. *)

Open Scope N_scope.

(** The errors of [wire], which say why in words, or come from [serde_json]. *)
Inductive WireError : Type := Invalid (reason : string) | Json.

(** ** What the frames use *)

Class Packing : Type := {
  pack : bytes -> N -> Result WireError bytes;
  unpack : bytes -> N -> Result WireError bytes
}.

Class PackingLaws `{Packing} : Prop := {
  pack_safe body level : safe (pack body level);
  unpack_safe packed limit : safe (unpack packed limit);
  unpack_limit packed limit body : unpack packed limit = Ok body -> len body <= limit;
  unpack_pack body level packed limit :
    pack body level = Ok packed -> len body <= limit -> unpack packed limit = Ok body;
  pack_bounds body level packed :
    pack body level = Ok packed -> packed <> [] /\ len packed <= len body + len body / 2 + 256
}.

(** ** [flate2] *)

(** [Status]; [compress_vec] and [decompress_vec] give the other two when the stream goes on. *)
Inductive Status : Type := StreamEnd | StreamOk.

#[export] Instance Status_eq_dec : EqDecision Status.
Proof. solve_decision. Defined.

Class Flate : Type := {
  Compress : Type;
  Decompress : Type;
  (** [Compress::new(Compression::new(level), false)] and [Decompress::new(false)]. *)
  new_compress : N -> Compress;
  new_decompress : Decompress;
  (** A call with some input and room in the output: the next state, how many bytes it took
      from the input, the bytes it wrote, and the status. *)
  compress : Compress -> bytes -> N -> option (Compress * nat * bytes * Status);
  decompress : Decompress -> bytes -> N -> option (Decompress * nat * bytes * Status);
  (** The most bytes that a body packs into. *)
  deflate_bound : N -> N;
  (** The capacity of a [Vec] of some capacity and length after it reserves some bytes. *)
  reserve : N -> N -> N -> N
}.

Class FlateLaws `{Flate} : Type := {
  reserve_enough capacity length additional : length + additional <= reserve capacity length additional;
  (** A call takes from its input and writes into its room, whatever the input is. *)
  decompress_within d input room d' used out status :
    decompress d input room = Some (d', used, out, status) ->
    (used <= length input)%nat /\ len out <= room;
  (** [Deflating c input packed]: [packed] is what the stream has left to write.
      [Inflating d packed body]: [packed] is the rest of a stream, and [body] what it gives. *)
  Deflating : Compress -> bytes -> bytes -> Prop;
  Inflating : Decompress -> bytes -> bytes -> Prop;
  deflating_new level body :
    exists packed, Deflating (new_compress level) body packed /\
      len packed <= deflate_bound (len body) /\ Inflating new_decompress packed body /\ packed <> [];
  (** Blocks that do not pack are stored, each with a few bytes around it. *)
  deflate_bound_most n : deflate_bound n <= n + n / 2 + 256;
  compress_step c input packed room :
    Deflating c input packed -> 0 < room ->
    exists c' used out status rest, compress c input room = Some (c', used, out, status) /\
      (used <= length input)%nat /\ packed = out ++ rest /\
      (status = StreamEnd -> rest = []) /\
      (status <> StreamEnd -> len out = room /\ Deflating c' (drop used input) rest);
  decompress_step d input body room :
    Inflating d input body -> 0 < room ->
    exists d' used out status rest, decompress d input room = Some (d', used, out, status) /\
      body = out ++ rest /\
      (status = StreamEnd -> rest = [] /\ used = length input) /\
      (status <> StreamEnd -> len out = room /\ Inflating d' (drop used input) rest)
}.

Section packing.
Context `{Flate}.

(** [&input[used..]]. *)
Definition after (used : nat) (input : bytes) : Result WireError bytes :=
if (used <=? length input)%nat then Ok (drop used input) else Panic.

(** [deflate]; the count is of the calls that the loop may still make. *)
Fixpoint deflate (calls : nat) (stream : Compress) (input output : bytes) (capacity : N) :
Result WireError bytes :=
match calls with
| O => Panic
| S calls =>
let capacity := if len output =? capacity
then reserve capacity (len output) (N.max (len output) 256) else capacity in
match compress stream input (capacity - len output) with
| None => Err (Invalid "Terminal data could not be packed.")
| Some (stream, used, out, status) =>
input ← after used input;
if decide (status = StreamEnd) then Ok (output ++ out)
else deflate calls stream input (output ++ out) capacity
end
end.

Definition corrupt : Result WireError bytes :=
Err (Invalid "Remote terminal data could not be unpacked.").

(** [inflate]. *)
Fixpoint inflate (calls : nat) (stream : Decompress) (input output : bytes) (capacity limit : N) :
Result WireError bytes :=
match calls with
| O => Panic
| S calls =>
let room := limit + 1 in
let capacity := if len output =? capacity
then reserve capacity (len output) (N.min (N.max (len output) 256) (room - len output))
else capacity in
match decompress stream input (capacity - len output) with
| None => corrupt
| Some (stream, used, out, status) =>
let next := output ++ out in
if limit <? len next then Err (Invalid "Remote terminal data exceeds its bound.")
else
rest ← after used input;
if decide (status = StreamEnd) then (if decide (rest = []) then Ok next else corrupt)
else if bool_decide (rest = []) && (len next <? capacity) then corrupt
else if (used =? 0)%nat && (len next =? len output) && (len next <? capacity) then corrupt
else inflate calls stream rest next capacity limit
end
end.

(** A call of [deflate] that goes on writes a byte, so the bound of what a body packs into
bounds the calls. *)
Definition pack_calls (body : bytes) : nat := S (N.to_nat (deflate_bound (len body))).

(** A call of [inflate] that goes on takes a byte or writes one. *)
Definition unpack_calls (packed : bytes) (limit : N) : nat :=
S (length packed + N.to_nat limit).

Definition deflate_all (body : bytes) (level : N) : Result WireError bytes :=
deflate (pack_calls body) (new_compress level) body [] (reserve 0 0 (len body / 4 + 256)).

Definition inflate_all (packed : bytes) (limit : N) : Result WireError bytes :=
inflate (unpack_calls packed limit) new_decompress packed []
(reserve 0 0 (N.min (len packed * 4 + 256) (limit + 1))) limit.

#[export] Instance flate_packing : Packing := { pack := deflate_all; unpack := inflate_all }.

Context `{!FlateLaws}.

Lemma after_ok used input : (used <= length input)%nat -> after used input = Ok (drop used input).
Proof. intros Hu. unfold after. by rewrite (proj2 (Nat.leb_le _ _)). Qed.

Lemma len_app {A} (l k : list A) : len (l ++ k) = len l + len k.
Proof. unfold len. rewrite length_app. lia. Qed.

(** The capacity of the loops has room for a byte. *)
Lemma grown_room (output : bytes) capacity more :
len output <= capacity -> 0 < more ->
len output < (if len output =? capacity then reserve capacity (len output) more else capacity).
Proof.
intros Hc Hm. destruct (N.eqb_spec (len output) capacity); [|lia].
pose proof (reserve_enough capacity (len output) more). lia.
Qed.

Lemma deflate_writes calls c input packed output capacity :
Deflating c input packed -> len output <= capacity -> (length packed < calls)%nat ->
deflate calls c input output capacity = Ok (output ++ packed).
Proof.
revert c input packed output capacity.
induction calls as [|calls IH]; intros c input packed output capacity Hd Hc Hn; [lia|].
cbn [deflate].
pose proof (grown_room output capacity (N.max (len output) 256) Hc ltac:(lia)) as Hroom.
set (cap := if len output =? capacity then _ else _) in *. clearbody cap.
destruct (compress_step c input packed (cap - len output) Hd ltac:(lia))
as (c' & used & out & status & rest & -> & Hu & -> & Hend & Hmore).
rewrite after_ok by done. cbn [mbind Result_bind].
destruct (decide (status = StreamEnd)) as [Hs|Hs].
- rewrite (Hend Hs), app_nil_r. done.
- destruct (Hmore Hs) as [Hlen Hd']. rewrite (IH _ _ _ _ _ Hd').
+ by rewrite <- app_assoc.
+ rewrite len_app. lia.
+ rewrite length_app in Hn. unfold len in Hlen, Hroom. lia.
Qed.

(** What a body packs into is a stream that gives the body. *)
Lemma pack_gives body level :
exists packed, pack body level = Ok packed /\ Inflating new_decompress packed body /\ packed <> [] /\
len packed <= deflate_bound (len body).
Proof.
destruct (deflating_new level body) as (packed & Hd & Hb & Hi & Hn). exists packed. split; [|done].
cbn [pack flate_packing]. unfold deflate_all.
apply (deflate_writes _ _ _ packed); [done|apply N.le_0_l|unfold pack_calls, len in *; lia].
Qed.

Lemma inflate_reads calls d input body output capacity limit :
Inflating d input body -> len output <= capacity -> len (output ++ body) <= limit ->
(length body < calls)%nat -> inflate calls d input output capacity limit = Ok (output ++ body).
Proof.
revert d input body output capacity.
induction calls as [|calls IH]; intros d input body output capacity Hd Hc Hl Hn; [lia|].
cbn [inflate]. rewrite len_app in Hl.
pose proof (grown_room output capacity (N.min (N.max (len output) 256) (limit + 1 - len output))
Hc ltac:(lia)) as Hroom.
set (cap := if len output =? capacity then _ else _) in *. clearbody cap.
destruct (decompress_step d input body (cap - len output) Hd ltac:(lia))
as (d' & used & out & status & rest & E & -> & Hend & Hmore). rewrite E.
destruct (decompress_within _ _ _ _ _ _ _ E) as [Hu Hw]. rewrite len_app in Hl.
rewrite (proj2 (N.ltb_ge _ _)) by (rewrite len_app; lia).
rewrite after_ok by done. cbn [mbind Result_bind].
destruct (decide (status = StreamEnd)) as [Hs|Hs].
- destruct (Hend Hs) as [-> ->]. rewrite drop_all, decide_True by done. by rewrite app_nil_r.
- destruct (Hmore Hs) as [Hlen Hd'].
assert (Hfull : (len (output ++ out) <? cap) = false) by (apply N.ltb_ge; rewrite len_app; lia).
rewrite Hfull, !andb_false_r, (IH _ _ _ _ _ Hd').
+ by rewrite <- app_assoc.
+ rewrite len_app. lia.
+ rewrite !len_app. lia.
+ rewrite length_app in Hn. unfold len in Hlen, Hroom. lia.
Qed.

(** On any input the loop of [inflate] ends, within its calls and without a panic. *)
Lemma inflate_safe calls d input output capacity limit :
len output <= capacity -> len output <= limit ->
(length input + N.to_nat (limit - len output) < calls)%nat ->
safe (inflate calls d input output capacity limit).
Proof.
revert d input output capacity.
induction calls as [|calls IH]; intros d input output capacity Hc Hl Hn; [lia|].
cbn [inflate].
pose proof (grown_room output capacity (N.min (N.max (len output) 256) (limit + 1 - len output))
Hc ltac:(lia)) as Hroom.
set (cap := if len output =? capacity then _ else _) in *. clearbody cap.
destruct (decompress d input (cap - len output)) as [[[[d' used] out] status]|] eqn:E; [|exact I].
destruct (decompress_within _ _ _ _ _ _ _ E) as [Hu Hw].
destruct (N.ltb_spec limit (len (output ++ out))) as [|Hnext]; [exact I|].
rewrite after_ok by done. cbn [mbind Result_bind].
destruct (decide (status = StreamEnd)); [by destruct (decide _)|].
destruct (bool_decide_reflect (drop used input = [])) as [Hr|Hr]; cbn [andb].
- destruct (N.ltb_spec (len (output ++ out)) cap) as [|Hfull]; [exact I|]. rewrite andb_false_r.
apply IH; rewrite len_app in *; [lia|lia|]. rewrite length_drop. lia.
- destruct ((used =? 0)%nat && (len (output ++ out) =? len output) && _) eqn:Es; [exact I|].
rewrite len_app in Es. apply IH; rewrite len_app in *; [lia|lia|]. rewrite length_drop.
assert (length input <> 0%nat).
{ intros Hz. destruct input; [by rewrite drop_nil in Hr|done]. }
destruct (Nat.eqb_spec used 0) as [->|]; [|lia]. cbn [andb] in Es.
destruct (N.eqb_spec (len output + len out) (len output)) as [Eo|]; [|lia]. cbn [andb] in Es.
apply N.ltb_ge in Es. lia.
Qed.

Lemma inflate_limit calls d input output capacity limit body :
inflate calls d input output capacity limit = Ok body -> len body <= limit.
Proof.
revert d input output capacity.
induction calls as [|calls IH]; intros d input output capacity; [done|]. cbn [inflate].
set (cap := if len output =? capacity then _ else _). clearbody cap.
destruct (decompress d input (cap - len output)) as [[[[d' used] out] status]|]; [|done].
destruct (N.ltb_spec limit (len (output ++ out))) as [|Hnext]; [done|].
destruct (after used input) as [rest| |]; [|done|done]. cbn [mbind Result_bind].
destruct (decide (status = StreamEnd)).
{ destruct (decide _); [by intros [= <-]|done]. }
destruct (bool_decide (rest = []) && _); [done|]. destruct (_ && _ && _); [done|]. apply IH.
Qed.

#[export] Instance flate_packing_laws : PackingLaws.
Proof.
split.
- intros body level. by destruct (pack_gives body level) as (packed & -> & _).
- intros packed limit. apply inflate_safe; [apply N.le_0_l|apply N.le_0_l|].
unfold unpack_calls. change (len []) with 0. lia.
- intros packed limit body. apply inflate_limit.
- intros body level packed limit Hp Hl. cbn [unpack flate_packing]. unfold inflate_all.
destruct (pack_gives body level) as (p & E & Hi & _). rewrite Hp in E. injection E as <-.
apply (inflate_reads _ _ _ _ []); [done|apply N.le_0_l|done|]. unfold unpack_calls, len in *. lia.
- intros body level packed Hp. destruct (pack_gives body level) as (p & E & _ & Hn & Hb).
rewrite Hp in E. injection E as <-. split; [done|]. etrans; [exact Hb|apply deflate_bound_most].
Qed.
End packing.
