(* ===== verification/Wire.v ===== *)
(** [runtime/src/network/wire.rs] and [wire/frame.rs]: the frames that a computer with a
    terminal and its viewers send each other, and the channel that gives them back.

    [serde_json] is a library: a type of the wire has a text that reads back ([Serde]).  A
    [Uuid] is its 16 bytes.  [Panic] stands for an index out of range. *)

From S2P Require Import Prelude Json Utf Terminal.
Open Scope N_scope.

Abbreviation Uuid := bytes (only parsing).

Definition FRAME_LIMIT : N := 1048576.
Definition KEYFRAME_PART : N := 32768.
Definition PIPE_PART : N := 32768.
Definition MOST_DIRECT_ADDRESSES : N := 8.
Definition HEADER : N := 7.
Definition PICTURE_PART : N := 32768 - HEADER - 24.
Definition CALL_REQUEST : N := 65536.
Definition CALL_ANSWER : N := 524288.
Definition CONTROL_LIMIT : N := 32768.
Definition PACK_FROM : N := 256.
Definition OUTPUT_LEVEL : N := 3.
Definition RAW_CHUNK_LIMIT : N := 65536.
Definition RAW_BATCH_LIMIT : N := 128.
Definition UNPACKED_OUTPUT_LIMIT : N := RAW_BATCH_LIMIT * (4 + RAW_CHUNK_LIMIT).
Definition METADATA_LIMIT : N := 98304.
Definition CHECKPOINT_HEADER : N := 9.
Definition SNAPSHOT_LIMIT : N := TERMINAL_SNAPSHOT_MAX_BYTES + CHECKPOINT_HEADER + METADATA_LIMIT.
Definition PACKED_SNAPSHOT_LIMIT : N := 2 * SNAPSHOT_LIMIT.
Definition SNAPSHOT_LEVEL : N := 6.

(** ** The frames *)

Record Accept : Type := MkAccept {
  ac_version : N; ac_session : Uuid; ac_incarnation : Uuid; ac_host : string
}.
Record Refuse : Type := MkRefuse { re_code : string; re_message : string }.
Record End : Type := MkEnd { e_final : N; e_reason : string }.
Record ControlResult : Type := MkControlResult {
  cr_request : Uuid; cr_accepted : bool; cr_message : string
}.
Inductive PictureFormat : Type := Png | Jpeg | Gif | Webp.
#[export] Instance PictureFormat_eq_dec : EqDecision PictureFormat.
Proof. solve_decision. Defined.
Record PictureOffer : Type := MkOffer {
  po_id : Uuid; po_size : N; po_sha256 : string; po_format : PictureFormat
}.
Inductive PictureStep : Type := Receiving | Pasted | Refused.
#[export] Instance PictureStep_eq_dec : EqDecision PictureStep.
Proof. solve_decision. Defined.
Record PictureState : Type := MkPicture {
  ps_id : Uuid; ps_received : N; ps_at : N; ps_step : PictureStep; ps_message : string
}.

(** What [serde_json] and the libraries give: the texts of the types that go as JSON, and the
    addresses of [std::net], which go as JSON too. *)
Class Libraries : Type := {
  libraries_terminal : Terminal;
  libraries_packing : Packing;
  SocketAddr : Type;
  serde_value : Serde Value;
  serde_accept : Serde Accept;
  serde_refuse : Serde Refuse;
  serde_end : Serde End;
  serde_result : Serde ControlResult;
  serde_offer : Serde PictureOffer;
  serde_picture : Serde PictureState;
  serde_metadata : Serde TerminalMetadata;
  serde_name : Serde (string * string);
  serde_addresses : Serde (list SocketAddr);
  (** [json!(request)] and [from_value]. *)
  request_value : CanvasRequest -> Value;
  value_request : Value -> option CanvasRequest
}.
#[export] Existing Instances libraries_terminal libraries_packing serde_value serde_accept serde_refuse
  serde_end serde_result serde_offer serde_picture serde_metadata serde_name serde_addresses.

Class LibrariesLaws `{Libraries} : Prop := {
  laws_packing :: PackingLaws;
  laws_value :: SerdeLaws Value;
  laws_accept :: SerdeLaws Accept;
  laws_refuse :: SerdeLaws Refuse;
  laws_end :: SerdeLaws End;
  laws_result :: SerdeLaws ControlResult;
  laws_offer :: SerdeLaws PictureOffer;
  laws_picture :: SerdeLaws PictureState;
  laws_metadata :: SerdeLaws TerminalMetadata;
  laws_name :: SerdeLaws (string * string);
  laws_addresses :: SerdeLaws (list SocketAddr);
  value_of_request request : value_request (request_value request) = Some request;
  (** No text is a value. *)
  metadata_of_nothing : from_slice (T:=TerminalMetadata) [] = None
}.

Section wire.
Context `{Libraries}.

Inductive Frame : Type :=
| FAccept (accept : Accept)
| FRefuse (refuse : Refuse)
| FKeyframe (next_sequence : N) (more : bool) (part : bytes)
| FOutput (first_sequence : N) (chunks : list bytes)
| FResize (rows cols : N) (cell : CellPixels) (at_sequence : N)
| FMetadata (metadata : TerminalMetadata)
| FHeartbeat (number next_sequence : N)
| FEnd (end_ : End)
| FAck (received : N)
| FInput (offset heartbeat : N) (input : bytes)
| FControl (request_id : Uuid) (control : TerminalControl)
| FRefresh
| FInputAck (offset : N)
| FControlResult (result : ControlResult)
| FRequest (request : Value)
| FAnswer (answer : Value)
| FControlValue (request_id : Uuid) (value : Value)
| FPicture (offer : PictureOffer)
| FPicturePart (id : Uuid) (offset : N) (part : bytes)
| FPictureState (state : PictureState)
| FPipeOpen (pipe : Uuid) (key name : string)
| FPipeData (pipe : Uuid) (more : bool) (part : bytes)
| FPipeClose (pipe : Uuid)
| FDirectAsk (pipe : Uuid)
| FDirectOffer (pipe : Uuid) (addresses : list SocketAddr).

Definition carries_output (f : Frame) : bool :=
match f with FKeyframe _ _ _ | FOutput _ _ | FPipeData _ _ _ => true | _ => false end.

(** ** Bytes *)

Definition invalid {A} (reason : string) : Result WireError A := Err (Invalid reason).

(** [serde_json::to_vec(..)?] and [from_slice(..)?]. *)
Definition to_json {T} `{Serde T} (t : T) : Result WireError bytes := ok_or Json (to_vec t).
Definition from_json {T} `{Serde T} (text : bytes) : Result WireError T := ok_or Json (from_slice text).

(** [&l[from..to]] and [l[at]]. *)
Definition slice {A} (from to : N) (l : list A) : Result WireError (list A) :=
if (from <=? to) && (to <=? len l)
then Ok (take (N.to_nat (to - from)) (drop (N.to_nat from) l)) else Panic.
Definition index (i : N) (l : bytes) : Result WireError N :=
or_panic (Byte.to_N <$> l !! N.to_nat i).

(** [read24], [read32], [read64] and [from_be_bytes] of two bytes. *)
Definition read (size at' : N) (l : bytes) : Result WireError N :=
of_be <$> slice at' (at' + size) l.

Definition u24 (value : N) : Result WireError bytes :=
if value <? 16777216 then Ok (be 3 value) else invalid "Terminal frame exceeds its bound.".

Definition exact (body : bytes) (length : N) : Result WireError unit :=
if len body =? length then Ok tt else invalid "Terminal frame has an invalid body.".

(** [Uuid::from_slice(&body[..16])]: sixteen bytes are an identifier. *)
Definition uuid (body : bytes) : Result WireError Uuid := slice 0 16 body.

(** The size of a frame on the wire: classes that keep the size of what it says close. *)
Definition padded (length : N) : N :=
if length <=? 1024 then (length + 63) / 64 * 64
else
let exponent := N.log2 length in
let bits := N.size exponent in
let mask := N.shiftl 1 (exponent - bits) - 1 in
N.ldiff (length + mask) mask.

(** ** Controls *)

(** [std::str::from_utf8]. *)
Fixpoint valid_utf8 (l : list N) : bool :=
let tail c := (128 <=? c) && (c <=? 191) in
match l with
| [] => true
| a :: l1 =>
if a <? 128 then valid_utf8 l1
else if (194 <=? a) && (a <=? 223) then
match l1 with x :: l2 => tail x && valid_utf8 l2 | _ => false end
else if (224 <=? a) && (a <=? 239) then
match l1 with
| x :: y :: l3 =>
((if a =? 224 then 160 else 128) <=? x) && (x <=? (if a =? 237 then 159 else 191))
&& tail y && valid_utf8 l3
| _ => false
end
else if (240 <=? a) && (a <=? 244) then
match l1 with
| x :: y :: z :: l4 =>
((if a =? 240 then 144 else 128) <=? x) && (x <=? (if a =? 244 then 143 else 191))
&& tail y && tail z && valid_utf8 l4
| _ => false
end
else false
end.

(** A [str] and its bytes. *)
Definition str_of (l : bytes) : string :=
String.string_of_list_ascii (map (fun b => Ascii.ascii_of_N (Byte.to_N b)) l).
Definition bytes_of (s : string) : bytes :=
map (fun a => byte_of (Ascii.N_of_ascii a)) (String.list_ascii_of_string s).

Definition number_value (n : N) : Value := Num (PosInt n).

(** The [Value] of a control, which [encode_control] writes as JSON. *)
Definition control_value (control : TerminalControl) : Result WireError Value :=
match control with
| CtlInput _ => invalid "Terminal input is not a control."
| CtlResize rows cols width height cell_width cell_height claim =>
size ← ok_or (Invalid "invalid terminal size") (new_size rows cols);
let zero := forallb (N.eqb 0) [width; height; cell_width; cell_height] in
_ ← (if zero then Ok tt
else (fun _ => tt) <$> ok_or (Invalid "invalid terminal pixel geometry")
(geometry ← new_geometry width height cell_width cell_height;
validate_for_size geometry size));
Ok (object [("type", Str "resize"); ("rows", number_value rows); ("cols", number_value cols);
("widthPixels", number_value width); ("heightPixels", number_value height);
("cellWidthPixels", number_value cell_width);
("cellHeightPixels", number_value cell_height); ("claim", Json.Bool claim)])
| CtlMessage message =>
if valid_utf8 (map Byte.to_N message)
then Ok (object [("type", Str "message"); ("text", Str (str_of message))])
else invalid "A message must be text."
| CtlFocus focused => Ok (object [("type", Str "focus"); ("focused", Json.Bool focused)])
| CtlInterrupt => Ok (object [("type", Str "interrupt")])
| CtlClose => Ok (object [("type", Str "close")])
| CtlCanvas request =>
if request_is_valid request
then Ok (object [("type", Str "canvas"); ("request", request_value request)])
else invalid "The canvas request is not valid."
end.

Definition encode_control (control : TerminalControl) : Result WireError bytes :=
value ← control_value control; to_json value.

(** [text] and [number]. *)
Definition text (value : Value) (field : string) : Result WireError string :=
ok_or (Invalid ("Missing " +:+ field +:+ ".")) (ValueOps.get field value ≫= ValueOps.as_str).
Definition number (value : Value) (field : string) : Result WireError N :=
ok_or (Invalid ("Invalid " +:+ field +:+ ".")) (ValueOps.get field value ≫= ValueOps.as_u64).

(** [u16::try_from(number(..)?)] and [u32::try_from(number(..)?)]. *)
Definition narrow (bound : N) (reason field : string) (value : Value) : Result WireError N :=
n ← number value field; if n <? bound then Ok n else invalid reason.

Definition flag (reason field : string) (value : Value) : Result WireError bool :=
ok_or (Invalid reason) (ValueOps.get field value ≫= ValueOps.as_bool).

Definition decode_control (body : bytes) : Result WireError TerminalControl :=
value ← from_json (T:=Value) body;
kind ← text value "type";
if String.eqb kind "resize" then
rows ← narrow U16 "Invalid rows." "rows" value;
cols ← narrow U16 "Invalid cols." "cols" value;
width ← narrow U32 "Invalid width." "widthPixels" value;
height ← narrow U32 "Invalid height." "heightPixels" value;
cell_width ← narrow U32 "Invalid cell width." "cellWidthPixels" value;
cell_height ← narrow U32 "Invalid cell height." "cellHeightPixels" value;
claim ← flag "Invalid size claim." "claim" value;
let control := CtlResize rows cols width height cell_width cell_height claim in
_ ← encode_control control;
Ok control
else if String.eqb kind "focus" then CtlFocus <$> flag "Invalid focus." "focused" value
else if String.eqb kind "message" then (fun t => CtlMessage (bytes_of t)) <$> text value "text"
else if String.eqb kind "interrupt" then Ok CtlInterrupt
else if String.eqb kind "close" then Ok CtlClose
else if String.eqb kind "canvas" then
request ← ok_or (Invalid "Missing request.") (ValueOps.get "request" value);
request ← ok_or Json (value_request request);
if request_is_valid request then Ok (CtlCanvas request)
else invalid "The canvas request is not valid."
else invalid "Unsupported terminal operation.".

Definition is_input (control : TerminalControl) : bool :=
match control with CtlInput _ => true | _ => false end.

Definition encode_metadata (metadata : TerminalMetadata) : Result WireError bytes :=
if negb (metadata_is_valid metadata) then invalid "Invalid terminal metadata."
else
encoded ← to_json metadata;
if METADATA_LIMIT <? len encoded then invalid "Terminal metadata exceeds its bound." else Ok encoded.

Definition decode_metadata (encoded : bytes) : Result WireError TerminalMetadata :=
if METADATA_LIMIT <? len encoded then invalid "Terminal metadata exceeds its bound."
else
metadata ← from_json encoded;
if negb (metadata_is_valid metadata) then invalid "Invalid terminal metadata." else Ok metadata.

Definition is_object (v : Value) : bool := match v with Object _ => true | _ => false end.

Definition call_json (value : Value) (limit : N) : Result WireError bytes :=
body ← to_json value;
if negb (is_object value) || (limit <? len body)
then invalid "The message to the other computer exceeds its bound." else Ok body.

Definition call_value (body : bytes) : Result WireError Value :=
value ← from_json (T:=Value) body;
if is_object value then Ok value else invalid "The other computer sent an invalid message.".

(** [answer_fits]: whether a control's answer fits one frame. *)
Definition answer_fits (value : Value) : bool :=
is_object value && match to_vec value with Some body => len body <=? CALL_ANSWER | None => false end.

(** ** Output *)

Definition plain_chunk (chunk : bytes) : bytes := be 4 (len chunk) ++ chunk.

Definition encode_output (first_sequence : N) (chunks : list bytes) : Result WireError bytes :=
if (len chunks =? 0) || (RAW_BATCH_LIMIT <? len chunks)
|| existsb (fun chunk => RAW_CHUNK_LIMIT <? len chunk) chunks
then invalid "Terminal output batch exceeds its bound."
else
_ ← (if existsb (fun chunk => U32 <=? len chunk) chunks
then invalid "Terminal output chunk is too large." else Ok tt);
let plain := flat_map plain_chunk chunks in
packed ← (if PACK_FROM <=? len plain then Some <$> pack plain OUTPUT_LEVEL else Ok None);
Ok (be 8 first_sequence ++
match packed with
| Some packed => if len packed <? len plain then byte_of 1 :: packed else byte_of 0 :: plain
| None => byte_of 0 :: plain
end).

(** The loop of [decode_output]: [rest] is [plain] from [at], and each turn adds a chunk. *)
Fixpoint read_chunks (turns : nat) (rest : bytes) (chunks : list bytes) :
Result WireError (list bytes) :=
match turns with
| O => Panic
| S turns =>
if len rest =? 0 then Ok chunks
else if (len rest <? 4) || (len chunks =? RAW_BATCH_LIMIT)
then invalid "Terminal output frame is invalid."
else
size ← read 4 0 rest;
let rest := drop 4 rest in
if (RAW_CHUNK_LIMIT <? size) || (len rest <? size)
then invalid "Terminal output frame is invalid."
else read_chunks turns (drop (N.to_nat size) rest) (chunks ++ [take (N.to_nat size) rest])
end.

Definition decode_output (body : bytes) : Result WireError Frame :=
flag ← (if len body <? 9 then Ok 2 else index 8 body);
if 1 <? flag then invalid "Terminal output frame is invalid."
else
rest ← slice 9 (len body) body;
plain ← (if flag =? 1 then unpack rest UNPACKED_OUTPUT_LIMIT else Ok rest);
chunks ← read_chunks (S (N.to_nat RAW_BATCH_LIMIT)) plain [];
if len chunks =? 0 then invalid "Terminal output frame is empty."
else first ← read 8 0 body; Ok (FOutput first chunks).
(** ** A frame *)

(** The kind and the body that [encode] writes. *)
Definition encode_body (f : Frame) : Result WireError (N * bytes) :=
match f with
| FAccept accept => body ← to_json accept; Ok (2, body)
| FRefuse refuse => body ← to_json refuse; Ok (3, body)
| FKeyframe next_sequence more part =>
if KEYFRAME_PART <? len part then invalid "Terminal snapshot part exceeds its bound."
else Ok (4, be 8 next_sequence ++ byte_of (N.b2n more) :: part)
| FOutput first_sequence chunks => body ← encode_output first_sequence chunks; Ok (5, body)
| FResize rows cols cell at_sequence =>
Ok (6, be 2 rows ++ be 2 cols ++ be 4 (cell_width cell) ++ be 4 (cell_height cell) ++ be 8 at_sequence)
| FMetadata metadata => body ← encode_metadata metadata; Ok (7, body)
| FHeartbeat number next_sequence => Ok (8, be 4 number ++ be 8 next_sequence)
| FEnd end_ => body ← to_json end_; Ok (9, body)
| FAck received => Ok (10, be 8 received)
| FInput offset heartbeat input =>
if (len input =? 0) || (TERMINAL_INPUT_MAX_BYTES <? len input)
then invalid "Terminal input exceeds its chunk limit."
else Ok (11, be 8 offset ++ be 4 heartbeat ++ input)
| FControl request_id control =>
if is_input control then invalid "Terminal input uses its own frame."
else
encoded ← encode_control control;
let body := request_id ++ encoded in
if 16 + CONTROL_LIMIT <? len body then invalid "Terminal control exceeds its bound." else Ok (12, body)
| FRefresh => Ok (13, [])
| FInputAck offset => Ok (14, be 8 offset)
| FControlResult result => body ← to_json result; Ok (15, body)
| FRequest request => body ← call_json request CALL_REQUEST; Ok (16, body)
| FAnswer answer => body ← call_json answer CALL_ANSWER; Ok (17, body)
| FControlValue request_id value =>
encoded ← call_json value CALL_ANSWER; Ok (18, request_id ++ encoded)
| FPicture offer => body ← to_json offer; Ok (19, body)
| FPicturePart id offset part =>
if (len part =? 0) || (PICTURE_PART <? len part) then invalid "A picture part exceeds its bound."
else Ok (20, id ++ be 8 offset ++ part)
| FPictureState state => body ← to_json state; Ok (21, body)
| FPipeOpen pipe key name =>
encoded ← to_json (key, name);
let body := pipe ++ encoded in
if 16 + CONTROL_LIMIT <? len body then invalid "Terminal control exceeds its bound." else Ok (22, body)
| FPipeData pipe more part =>
if PIPE_PART <? len part then invalid "Document part exceeds its bound."
else Ok (23, pipe ++ byte_of (N.b2n more) :: part)
| FPipeClose pipe => Ok (24, pipe)
| FDirectAsk pipe => Ok (25, pipe)
| FDirectOffer pipe addresses =>
if MOST_DIRECT_ADDRESSES <? len addresses then invalid "Terminal control exceeds its bound."
else encoded ← to_json addresses; Ok (26, pipe ++ encoded)
end.

(** [Frame::encode]. *)
Definition encode (f : Frame) : Result WireError bytes :=
'(kind, body) ← encode_body f;
let length := padded (HEADER + len body) in
if FRAME_LIMIT <? length then invalid "Terminal frame exceeds its bound."
else
size ← u24 (length - 3);
body_size ← u24 (len body);
let frame := size ++ byte_of kind :: body_size ++ body in
Ok (frame ++ replicate (N.to_nat (length - len frame)) (byte_of 0)).

(** The closure [json] of [decode]. *)
Definition within (limit : N) (body : bytes) : Result WireError bytes :=
if limit <? len body then invalid "Terminal frame exceeds its bound." else Ok body.

(** The bounds of a body, compared before it is read. *)
Definition sized (low high : N) (reason : string) (body : bytes) : Result WireError unit :=
if (len body <? low) || (high <? len body) then invalid reason else Ok tt.

(** A byte that is 0 or 1; [||] reads it only when the body has it. *)
Definition bit (at' : N) (reason : string) (body : bytes) : Result WireError bool :=
b ← index at' body; if 1 <? b then invalid reason else Ok (b =? 1).

(** [Frame::decode]. *)
Definition decode (kind : N) (body : bytes) : Result WireError Frame :=
match kind with
| 2 => text ← within 4096 body; FAccept <$> from_json text
| 3 => text ← within 4096 body; FRefuse <$> from_json text
| 4 =>
_ ← sized 9 (9 + KEYFRAME_PART) "Terminal snapshot part is invalid." body;
more ← bit 8 "Terminal snapshot part is invalid." body;
next ← read 8 0 body;
part ← slice 9 (len body) body;
Ok (FKeyframe next more part)
| 5 => decode_output body
| 6 =>
_ ← exact body 20;
rows ← read 2 0 body; cols ← read 2 2 body;
width ← read 4 4 body; height ← read 4 8 body;
at_sequence ← read 8 12 body;
Ok (FResize rows cols (MkCell width height) at_sequence)
| 7 => text ← within METADATA_LIMIT body; FMetadata <$> decode_metadata text
| 8 => _ ← exact body 12; number ← read 4 0 body; next ← read 8 4 body; Ok (FHeartbeat number next)
| 9 => text ← within 4096 body; FEnd <$> from_json text
| 10 => _ ← exact body 8; FAck <$> read 8 0 body
| 11 =>
_ ← sized 13 (12 + TERMINAL_INPUT_MAX_BYTES) "Terminal input frame is invalid." body;
offset ← read 8 0 body; heartbeat ← read 4 8 body;
FInput offset heartbeat <$> slice 12 (len body) body
| 12 =>
_ ← sized 16 (16 + CONTROL_LIMIT) "Terminal control frame is invalid." body;
request_id ← uuid body;
control ← (rest ← slice 16 (len body) body; decode_control rest);
if is_input control then invalid "Terminal input uses its own frame."
else Ok (FControl request_id control)
| 13 => _ ← exact body 0; Ok FRefresh
| 14 => _ ← exact body 8; FInputAck <$> read 8 0 body
| 15 => text ← within 4096 body; FControlResult <$> from_json text
| 16 => text ← within CALL_REQUEST body; FRequest <$> call_value text
| 17 => text ← within CALL_ANSWER body; FAnswer <$> call_value text
| 18 =>
_ ← sized 16 (16 + CALL_ANSWER) "Terminal control answer is invalid." body;
request_id ← uuid body;
rest ← slice 16 (len body) body; FControlValue request_id <$> call_value rest
| 19 => text ← within 1024 body; FPicture <$> from_json text
| 20 =>
_ ← sized 25 (24 + PICTURE_PART) "A picture part is invalid." body;
id ← uuid body; offset ← read 8 16 body;
FPicturePart id offset <$> slice 24 (len body) body
| 21 => text ← within 4096 body; FPictureState <$> from_json text
| 22 =>
_ ← sized 16 (16 + CONTROL_LIMIT) "Document open frame is invalid." body;
rest ← slice 16 (len body) body;
'(key, name) ← from_json (T:=string * string) rest;
pipe ← uuid body; Ok (FPipeOpen pipe key name)
| 23 =>
_ ← sized 17 (17 + PIPE_PART) "Document part is invalid." body;
more ← bit 16 "Document part is invalid." body;
pipe ← uuid body;
FPipeData pipe more <$> slice 17 (len body) body
| 24 => _ ← exact body 16; FPipeClose <$> uuid body
| 25 => _ ← exact body 16; FDirectAsk <$> uuid body
| 26 =>
_ ← sized 16 (16 + CONTROL_LIMIT) "Direct offer frame is invalid." body;
rest ← slice 16 (len body) body;
addresses ← from_json (T:=list SocketAddr) rest;
if MOST_DIRECT_ADDRESSES <? len addresses then invalid "Direct offer frame is invalid."
else pipe ← uuid body; Ok (FDirectOffer pipe addresses)
| _ => invalid "Unsupported terminal frame."
end.

(** [Frame::take]: the first frame of the buffer with its length, and the buffer after it.
Without a whole frame, or with an error, the buffer stays. *)
Definition take_frame (buffer : bytes) : Result WireError (option (Frame * N * bytes)) :=
if len buffer <? 3 then Ok None
else
length ← (N.add 3) <$> read 3 0 buffer;
if negb ((HEADER <=? length) && (length <=? FRAME_LIMIT))
then invalid "Terminal frame has an invalid length."
else if len buffer <? length then Ok None
else
kind ← index 3 buffer;
size ← read 3 4 buffer;
bad ← (if length <? HEADER + size then Ok true
else existsb (fun b => negb (Byte.to_N b =? 0)) <$> slice (HEADER + size) length buffer);
if bad : bool then invalid "Terminal frame has an invalid body."
else
body ← slice HEADER (HEADER + size) buffer;
frame ← decode kind body;
Ok (Some (frame, length, drop (N.to_nat length) buffer)).

(** ** The channel *)

(** The channel between the two computers, from its decrypted side: [plain] holds what came
and was not taken yet, [closed] is that the other side said that it closes. *)
Record Channel : Type := MkChannel { plain : bytes; closed : bool }.

(** What [transport.receive] and [absorb] give: the bytes that a message decrypts to, and
whether the other side closes with it. *)
Record Message : Type := MkMessage { decrypted : bytes; closes : bool }.

Definition absorb (c : Channel) (m : Message) : Channel :=
MkChannel (plain c ++ decrypted m) (closed c || closes m).

(** [Channel::receive], over the messages that the transport still gives. *)
Fixpoint receive (c : Channel) (messages : list Message) :
Result WireError (option (Frame * N) * Channel * list Message) :=
taken ← take_frame (plain c);
match taken with
| Some (frame, length, rest) => Ok (Some (frame, length), MkChannel rest (closed c), messages)
| None =>
if closed c then Ok (None, c, messages)
else match messages with
| [] => Ok (None, c, [])
| m :: messages => receive (absorb c m) messages
end
end.

(** The frames that calls of [receive] give, at most [count] of them. *)
Fixpoint receive_all (count : nat) (c : Channel) (messages : list Message) :
Result WireError (list Frame) :=
match count with
| O => Ok []
| S count =>
'(taken, c, messages) ← receive c messages;
match taken with
| None => Ok []
| Some (frame, _) => cons frame <$> receive_all count c messages
end
end.

(** ** Snapshots *)

Definition encode_checkpoint (checkpoint : Checkpoint) : Result WireError bytes :=
let snapshot := k_snapshot checkpoint in
if U32 <=? len snapshot then invalid "Checkpoint is too large."
else
metadata ← (match k_metadata checkpoint with
| Some metadata => encode_metadata metadata
| None => Ok []
end);
Ok (be 4 TERMINAL_CHECKPOINT_SCHEMA_VERSION ++ byte_of (N.b2n (k_console checkpoint))
:: be 4 (len snapshot) ++ snapshot ++ metadata).

Definition decode_checkpoint (encoded : bytes) : Result WireError Checkpoint :=
if (len encoded <? CHECKPOINT_HEADER) || (SNAPSHOT_LIMIT <? len encoded)
then invalid "Checkpoint plaintext has invalid length."
else
schema ← read 4 0 encoded;
if negb (schema =? TERMINAL_CHECKPOINT_SCHEMA_VERSION)
then invalid "Unsupported terminal checkpoint schema."
else
console ← bit 4 "Invalid console state." encoded;
length ← read 4 5 encoded;
if (length =? 0) || (TERMINAL_SNAPSHOT_MAX_BYTES <? length)
|| (len encoded <? CHECKPOINT_HEADER + length)
|| (METADATA_LIMIT <? len encoded - CHECKPOINT_HEADER - length)
then invalid "Checkpoint length disagrees with envelope."
else
snapshot ← slice CHECKPOINT_HEADER (CHECKPOINT_HEADER + length) encoded;
checkpoint ← ok_or (Invalid "The snapshot is not valid.") (new_checkpoint snapshot console);
if CHECKPOINT_HEADER + length <? len encoded then
rest ← slice (CHECKPOINT_HEADER + length) (len encoded) encoded;
metadata ← decode_metadata rest;
Ok (MkCheckpoint (Some metadata) (k_size checkpoint) (k_cell checkpoint) (k_snapshot checkpoint)
(k_console checkpoint))
else Ok checkpoint.

(** [snapshot_parts]: the slices of [KEYFRAME_PART] bytes, with the number of turns that the
length gives. *)
Fixpoint parts (turns : nat) (packed : bytes) : list bytes :=
match turns with
| O => []
| S turns => if len packed =? 0 then []
else take (N.to_nat KEYFRAME_PART) packed :: parts turns (drop (N.to_nat KEYFRAME_PART) packed)
end.

Definition snapshot_parts (checkpoint : Checkpoint) : Result WireError (list bytes) :=
encoded ← encode_checkpoint checkpoint;
packed ← pack encoded SNAPSHOT_LEVEL;
Ok (parts (length packed) packed).

(** [wire::snapshot]. *)
Definition snapshot (packed : bytes) : Result WireError Checkpoint :=
encoded ← unpack packed SNAPSHOT_LIMIT; decode_checkpoint encoded.
End wire.
