(* ===== verification/WireSpec.v ===== *)
(** What [Wire] promises: a frame that is encoded is taken back from the stream, in whatever
    pieces its bytes come and whatever follows, and no bytes that come make a panic. *)

From S2P Require Import Prelude Json Utf Terminal Wire.
Open Scope N_scope.

(** Keeps both sides as they are written. *)
Lemma ok_inj {E A} (a b : A) : (Ok a : Result E A) = Ok b -> a = b.
Proof. by intros [=]. Qed.

(** ** Slices *)

Section slices.
Context `{Libraries}.

Lemma slice_app {A} (a b c : list A) from to :
from = len a -> to = len a + len b -> slice from to (a ++ b ++ c) = Ok b.
Proof.
intros -> ->. unfold slice.
rewrite (proj2 (N.leb_le _ _)), (proj2 (N.leb_le _ _)) by (rewrite ?len_app; lia). cbn [andb].
unfold len. rewrite Nat2N.id, drop_app_length.
replace (N.to_nat (_ - _)) with (length b) by lia. by rewrite take_app_length.
Qed.

Lemma slice_end {A} (a b : list A) from to :
from = len a -> to = len (a ++ b) -> slice from to (a ++ b) = Ok b.
Proof.
intros Hf Ht. rewrite <- (app_nil_r b) at 1. apply slice_app; [done|].
by rewrite Ht, len_app.
Qed.

Lemma slice_safe {A} (l : list A) from to : from <= to -> to <= len l -> safe (slice from to l).
Proof. intros. unfold slice. by rewrite !(proj2 (N.leb_le _ _)). Qed.

Lemma slice_ok {A} (l k : list A) from to :
slice from to l = Ok k -> from <= to <= len l /\ len k = to - from.
Proof.
unfold slice. destruct (N.leb_spec from to), (N.leb_spec to (len l)); try done. intros [= <-].
split; [done|]. unfold len in *. rewrite length_take, length_drop. lia.
Qed.

Lemma read_app a b c size at' :
at' = len a -> size = len b -> read size at' (a ++ b ++ c) = Ok (of_be b).
Proof. intros -> ->. unfold read. by rewrite (slice_app a b c). Qed.

Lemma len_be n v : len (be n v) = N.of_nat n.
Proof. unfold len. by rewrite length_be. Qed.

Lemma read_be a c n v size at' :
at' = len a -> size = N.of_nat n -> v < 256 ^ N.of_nat n ->
read size at' (a ++ be n v ++ c) = Ok v.
Proof. intros Ha Hs Hv. rewrite read_app by (rewrite ?len_be; done). by rewrite of_be_be. Qed.

Lemma read_safe size at' l : at' + size <= len l -> safe (read size at' l).
Proof. intros. apply safe_fmap, slice_safe; lia. Qed.

Lemma read_ok size at' l v : read size at' l = Ok v -> v < 256 ^ size.
Proof.
unfold read. intros (part & E & <-)%fmap_ok. apply slice_ok in E as [_ Hl].
replace size with (len part) by lia. apply of_be_bound.
Qed.

Lemma index_app (a c : bytes) b i : i = len a -> index i (a ++ b :: c) = Ok (Byte.to_N b).
Proof.
intros ->. unfold index, len. by rewrite Nat2N.id, list_lookup_middle.
Qed.

Lemma index_safe i l : i < len l -> safe (index i l).
Proof.
intros Hi. unfold index, len in *.
destruct (lookup_lt_is_Some_2 l (N.to_nat i)) as [b Eb]; [lia|]. by rewrite Eb.
Qed.

Lemma len_cons {A} (x : A) l : len (x :: l) = 1 + len l.
Proof. unfold len. cbn [length]. lia. Qed.

Lemma len_nil {A} : len ([] : list A) = 0.
Proof. done. Qed.

Lemma drop_app_len (a b : bytes) n : n = len a -> drop (N.to_nat n) (a ++ b) = b.
Proof. intros ->. unfold len. by rewrite Nat2N.id, drop_app_length. Qed.

Lemma take_app_len (a b : bytes) n : n = len a -> take (N.to_nat n) (a ++ b) = a.
Proof. intros ->. unfold len. by rewrite Nat2N.id, take_app_length. Qed.
End slices.

(** ** Padding *)

Lemma pow2_pos n : 0 < 2 ^ n.
Proof. apply N.neq_0_lt_0, N.pow_nonzero. done. Qed.

(** Rounding up to a multiple of a power of two. *)
Lemma ldiff_round n k : N.ldiff (n + (N.shiftl 1 k - 1)) (N.shiftl 1 k - 1) = (n + (2 ^ k - 1)) / 2 ^ k * 2 ^ k.
Proof.
rewrite N.shiftl_1_l. replace (2 ^ k - 1) with (N.ones k) by (rewrite N.ones_equiv; lia).
by rewrite N.ldiff_ones_r, N.shiftl_mul_pow2, N.shiftr_div_pow2.
Qed.

Lemma round_bounds n m : 0 < m -> n <= (n + (m - 1)) / m * m < n + m.
Proof.
intros Hm. pose proof (N.div_mod (n + (m - 1)) m ltac:(lia)) as E.
pose proof (N.mod_lt (n + (m - 1)) m ltac:(lia)) as Hr. rewrite (N.mul_comm _ m).
set (p := m * _) in *. set (r := _ mod _) in *. clearbody p r. lia.
Qed.

Lemma round_multiple q m : 0 < m -> (q * m + (m - 1)) / m * m = q * m.
Proof.
intros Hm. rewrite N.add_comm, N.div_add by lia. rewrite N.div_small by lia. lia.
Qed.

(** The exponent of the mask: at least 6 and at least 4 below the exponent of the length, for
    each exponent of a [usize] over 1024. *)
Lemma mask_exponent e : 10 <= e < 64 -> 6 <= e - N.size e /\ e - N.size e + 4 <= e.
Proof.
intros He.
assert (Hall : forallb (fun n => let e := N.of_nat n in (6 <=? e - N.size e) && (e - N.size e + 4 <=? e))
  (seq 10 54) = true) by (vm_compute; reflexivity).
rewrite forallb_forall in Hall.
specialize (Hall (N.to_nat e) ltac:(apply in_seq; lia)). cbv zeta in Hall.
rewrite N2Nat.id in Hall. apply andb_true_iff in Hall as [H6%N.leb_le H4%N.leb_le]. done.
Qed.

(** A length over 1024, with its exponent. *)
Lemma padded_large length e :
  1024 < length -> N.log2 length = e ->
  padded length = (length + (2 ^ (e - N.size e) - 1)) / 2 ^ (e - N.size e) * 2 ^ (e - N.size e).
Proof.
intros Hl <-. unfold padded. rewrite (proj2 (N.leb_gt _ _)) by done. cbv zeta. apply ldiff_round.
Qed.

Lemma padded_small length :
  length <= 1024 -> padded length = (length + (64 - 1)) / 64 * 64.
Proof. intros Hl. unfold padded. by rewrite (proj2 (N.leb_le _ _)). Qed.

Lemma log2_bounds length : 1024 < length -> 2 ^ N.log2 length <= length < 2 ^ (N.log2 length + 1).
Proof. intros Hl. rewrite N.add_1_r. apply N.log2_spec. lia. Qed.

Lemma log2_range length : 1024 < length -> length < 2 ^ 64 -> 10 <= N.log2 length < 64.
Proof.
intros Hl Hm. pose proof (log2_bounds length Hl) as [Hlo Hhi]. split.
- apply N.log2_le_pow2; [lia|]. change (2 ^ 10) with 1024. lia.
- apply N.log2_lt_pow2; lia.
Qed.

Lemma pow2_split a b : b <= a -> 2 ^ a = 2 ^ (a - b) * 2 ^ b.
Proof. intros Hb. rewrite <- N.pow_add_r. f_equal. lia. Qed.

(** A large length rounds within its own power of two, or to the next one. *)
Lemma padded_next length :
  1024 < length -> length < 2 ^ 64 -> padded length <= 2 ^ (N.log2 length + 1).
Proof.
intros Hl Hm. pose proof (log2_range length Hl Hm) as He. pose proof (log2_bounds length Hl) as [_ Hhi].
rewrite (padded_large length _ Hl eq_refl). set (e := N.log2 length) in *. clearbody e.
destruct (mask_exponent e He) as [H6 H4]. set (k := e - N.size e) in *. clearbody k.
rewrite (pow2_split (e + 1) k) in * by lia. pose proof (pow2_pos k).
apply N.mul_le_mono_r, N.lt_succ_r, N.div_lt_upper_bound; nia.
Qed.

Lemma padded_bounds length :
  length < 2 ^ 64 -> length <= padded length /\ padded length <= length + N.max 63 (length / 16).
Proof.
intros Hm. destruct (N.le_gt_cases length 1024) as [Hl|Hl].
- rewrite padded_small by done. pose proof (round_bounds length 64 ltac:(lia)). lia.
- pose proof (log2_range length Hl Hm) as He. pose proof (log2_bounds length Hl) as [Hlo _].
rewrite (padded_large length _ Hl eq_refl). set (e := N.log2 length) in *. clearbody e.
destruct (mask_exponent e He) as [H6 H4]. set (k := e - N.size e) in *. clearbody k.
pose proof (round_bounds length (2 ^ k) (pow2_pos k)).
assert (2 ^ k <= length / 16).
{ apply N.div_le_lower_bound; [done|]. etransitivity; [|exact Hlo].
rewrite (pow2_split e 4) by lia. rewrite N.mul_comm. apply N.mul_le_mono_r, N.pow_le_mono_r; lia. }
lia.
Qed.

(** A size that padding gave is a class of its own. *)
Lemma padded_padded length : length < 2 ^ 63 -> padded (padded length) = padded length.
Proof.
intros Hm. assert (2 ^ 63 < 2 ^ 64) by done. destruct (N.le_gt_cases length 1024) as [Hl|Hl].
- assert (padded length <= 1024) as Hp.
{ rewrite padded_small by done. change 1024 with (16 * 64). apply N.mul_le_mono_r.
apply N.lt_succ_r, N.div_lt_upper_bound; lia. }
rewrite (padded_small (padded length)) by done. rewrite padded_small by done. apply round_multiple. lia.
- pose proof (padded_bounds length ltac:(lia)) as [Hge _].
pose proof (padded_next length Hl ltac:(lia)) as Hle.
pose proof (log2_range length Hl ltac:(lia)) as He.
pose proof (log2_bounds length Hl) as [Hlo Hhi].
assert (Hmul : padded length mod 2 ^ (N.log2 length - N.size (N.log2 length)) = 0).
{ rewrite (padded_large length _ Hl eq_refl). apply N.Div0.mod_mul. }
assert (He63 : N.log2 length < 63) by (apply N.log2_lt_pow2; lia).
set (e := N.log2 length) in *. set (p := padded length) in *. clearbody e p.
assert (Hround : forall k, p mod 2 ^ k = 0 -> (p + (2 ^ k - 1)) / 2 ^ k * 2 ^ k = p).
{ intros k Hk. apply N.Div0.mod_divides in Hk as [q ->]. rewrite (N.mul_comm (2 ^ k) q).
apply round_multiple, pow2_pos. }
destruct (N.eq_dec p (2 ^ (e + 1))) as [->|Hne].
+ rewrite (padded_large _ (e + 1)); [|lia|apply N.log2_pow2; lia].
apply Hround. rewrite (pow2_split (e + 1) (e + 1 - N.size (e + 1))) by lia. apply N.Div0.mod_mul.
+ rewrite (padded_large p e); [by apply Hround|lia|]. apply N.log2_unique; [lia|].
rewrite <- N.add_1_r. lia.
Qed.

(** ** What a frame may hold *)

(** The numbers of a frame are at their width, and an identifier has its 16 bytes. *)
Definition is_uuid16 (id : Uuid) : Prop := len id = 16.

Definition control_ok (control : TerminalControl) : Prop :=
  match control with
  | CtlResize _ _ width height cell_width cell_height _ =>
      width < U32 /\ height < U32 /\ cell_width < U32 /\ cell_height < U32
  | _ => True
  end.

(** A text of [serde_json] within the limit that [decode] puts on it. *)
Definition small {T} `{Serde T} (limit : N) (t : T) : Prop :=
  forall text, to_vec t = Some text -> len text <= limit.

Section frames.
Context `{Libraries}.

Definition frame_ok (f : Frame) : Prop :=
match f with
| FKeyframe next _ _ => next < U64
| FOutput first _ => first < U64
| FResize rows cols cell at_sequence =>
rows < U16 /\ cols < U16 /\ cell_width cell < U32 /\ cell_height cell < U32 /\ at_sequence < U64
| FHeartbeat number next => number < U32 /\ next < U64
| FAck received => received < U64
| FInput offset heartbeat _ => offset < U64 /\ heartbeat < U32
| FControl id control => is_uuid16 id /\ control_ok control
| FInputAck offset => offset < U64
| FControlValue id _ => is_uuid16 id
| FPicturePart id offset _ => is_uuid16 id /\ offset < U64
| FPipeOpen pipe _ _ | FPipeData pipe _ _ | FPipeClose pipe | FDirectAsk pipe => is_uuid16 pipe
| FDirectOffer pipe _ => is_uuid16 pipe
| _ => True
end.

(** The frames whose text [encode] does not bound are small enough for [decode]. *)
Definition frame_small (f : Frame) : Prop :=
match f with
| FAccept accept => small 4096 accept
| FRefuse refuse => small 4096 refuse
| FEnd end_ => small 4096 end_
| FControlResult result => small 4096 result
| FPicture offer => small 1024 offer
| FPictureState state => small 4096 state
| FDirectOffer _ addresses => small CONTROL_LIMIT addresses
| _ => True
end.

(** ** Reading what was written *)

Lemma slice_skip {A} (a l : list A) from to :
len a <= from -> from <= to -> slice from to (a ++ l) = slice (from - len a) (to - len a) l.
Proof.
intros Hf Ht. unfold slice. rewrite len_app.
replace (from - len a <=? to - len a) with (from <=? to) by
(apply eq_true_iff_eq; rewrite !N.leb_le; lia).
replace (to - len a <=? len l) with (to <=? len a + len l) by
(apply eq_true_iff_eq; rewrite !N.leb_le; lia).
replace (to - len a - (from - len a)) with (to - from) by lia.
destruct (_ && _); [|done]. f_equal. f_equal. unfold len in *.
rewrite drop_app_ge by lia. f_equal. lia.
Qed.

Lemma read_skip n v l size at' :
N.of_nat n <= at' -> read size at' (be n v ++ l) = read size (at' - N.of_nat n) l.
Proof.
intros Ha. unfold read. rewrite slice_skip by (rewrite ?len_be; lia).
rewrite len_be. do 2 f_equal. lia.
Qed.

Lemma read_skip_id id l size at' :
len id <= at' -> read size at' (id ++ l) = read size (at' - len id) l.
Proof. intros Ha. unfold read. rewrite slice_skip by lia. do 2 f_equal. lia. Qed.

Lemma read_number n v l size :
size = N.of_nat n -> v < 256 ^ N.of_nat n -> read size 0 (be n v ++ l) = Ok v.
Proof. apply (read_be []). done. Qed.

Lemma read16 v l : v < U16 -> read 2 0 (be 2 v ++ l) = Ok v.
Proof. by apply (read_number 2). Qed.
Lemma read32 v l : v < U32 -> read 4 0 (be 4 v ++ l) = Ok v.
Proof. by apply (read_number 4). Qed.
Lemma read64 v l : v < U64 -> read 8 0 (be 8 v ++ l) = Ok v.
Proof. by apply (read_number 8). Qed.
Lemma read64_last v : v < U64 -> read 8 0 (be 8 v) = Ok v.
Proof. intros. rewrite <- (app_nil_r (be 8 v)). by apply read64. Qed.
Lemma skip16 v l size at' : 2 <= at' -> read size at' (be 2 v ++ l) = read size (at' - 2) l.
Proof. apply (read_skip 2). Qed.
Lemma skip32 v l size at' : 4 <= at' -> read size at' (be 4 v ++ l) = read size (at' - 4) l.
Proof. apply (read_skip 4). Qed.
Lemma skip64 v l size at' : 8 <= at' -> read size at' (be 8 v ++ l) = read size (at' - 8) l.
Proof. apply (read_skip 8). Qed.

Lemma slice_tail {A} (a l : list A) from :
from = len a -> slice from (len (a ++ l)) (a ++ l) = Ok l.
Proof. intros. by apply slice_end. Qed.

Lemma uuid_app id l : is_uuid16 id -> uuid (id ++ l) = Ok id.
Proof. intros Hi. apply (slice_app []); [done|]. by rewrite Hi. Qed.

Lemma uuid_whole id : is_uuid16 id -> uuid id = Ok id.
Proof. intros Hi. rewrite <- (app_nil_r id) at 1. by apply uuid_app. Qed.

Lemma bit_app a b l at' reason : at' = len a -> bit at' reason (a ++ byte_of (N.b2n b) :: l) = Ok b.
Proof.
intros Ha. unfold bit. rewrite index_app by done. rewrite byte_of_N. by destruct b.
Qed.

Lemma sized_ok low high reason body :
low <= len body -> len body <= high -> sized low high reason body = Ok tt.
Proof.
intros. unfold sized. by rewrite (proj2 (N.ltb_ge _ _)), (proj2 (N.ltb_ge _ _)).
Qed.

Lemma exact_ok body length : len body = length -> exact body length = Ok tt.
Proof. intros <-. unfold exact. by rewrite N.eqb_refl. Qed.

Lemma within_ok limit body : len body <= limit -> within limit body = Ok body.
Proof. intros. unfold within. by rewrite (proj2 (N.ltb_ge _ _)). Qed.

Lemma sized_safe low high reason body : safe (sized low high reason body).
Proof. unfold sized. by destruct (_ || _). Qed.

Lemma sized_inv low high reason body u :
sized low high reason body = Ok u -> low <= len body <= high.
Proof.
unfold sized. destruct (N.ltb_spec (len body) low), (N.ltb_spec high (len body)); done.
Qed.
End frames.

(** Reads the numbers of a body one after the other. *)
Ltac places :=
  repeat match goal with
  | |- context [read ?size (?a - ?b) ?l] =>
      let r := eval vm_compute in (a - b) in change (read size (a - b) l) with (read size r l)
  end.

Ltac lens := repeat first [rewrite len_app | rewrite len_cons | rewrite len_be]; simpl N.of_nat.

Ltac fields :=
  repeat (cbn [mbind Result_bind fmap Result_fmap]; first
  [ rewrite read16 by assumption | rewrite read32 by assumption | rewrite read64 by assumption
  | rewrite read64_last by assumption
  | rewrite skip16 by done; places | rewrite skip32 by done; places | rewrite skip64 by done; places ]);
  cbn [mbind Result_bind fmap Result_fmap].

Section decoding.
Context `{Libraries, !LibrariesLaws}.

Lemma json_back {T} `{Serde T, !SerdeLaws T} (t : T) body :
to_json t = Ok body -> from_json body = Ok t.
Proof. unfold to_json, from_json. intros E%ok_or_ok. by rewrite (from_to _ _ E). Qed.

Lemma json_small {T} `{Serde T} limit (t : T) body :
to_json t = Ok body -> small limit t -> len body <= limit.
Proof. intros E%ok_or_ok Hs. eauto. Qed.

Lemma json_within {T} `{Serde T, !SerdeLaws T} limit (t : T) body :
to_json t = Ok body -> small limit t ->
(text ← within limit body; from_json text) = Ok t.
Proof.
intros E Hs. rewrite within_ok by eauto using json_small. by apply json_back.
Qed.

Lemma keyframe_back next (more : bool) part :
next < U64 -> len part <= KEYFRAME_PART ->
decode 4 (be 8 next ++ byte_of (N.b2n more) :: part) = Ok (FKeyframe next more part).
Proof.
intros Hn Hp. cbn [decode]. rewrite sized_ok by (unfold KEYFRAME_PART in *; lens; lia).
cbn [mbind Result_bind]. rewrite (bit_app (be 8 next)) by (by rewrite len_be). fields.
rewrite (cons_middle _ (be 8 next) part), app_assoc, slice_tail; [done|]. by lens.
Qed.

Lemma pipe_data_back pipe (more : bool) part :
is_uuid16 pipe -> len part <= PIPE_PART ->
decode 23 (pipe ++ byte_of (N.b2n more) :: part) = Ok (FPipeData pipe more part).
Proof.
intros Hu Hp. cbn [decode]. rewrite sized_ok by (unfold PIPE_PART in *; lens; rewrite Hu; lia).
cbn [mbind Result_bind]. rewrite (bit_app pipe) by (by rewrite Hu). cbn [mbind Result_bind].
rewrite uuid_app by done. cbn [mbind Result_bind].
rewrite (cons_middle _ pipe part), app_assoc, slice_tail; [done|]. lens. by rewrite Hu.
Qed.

Lemma resize_back rows cols cell at_sequence :
rows < U16 -> cols < U16 -> cell_width cell < U32 -> cell_height cell < U32 -> at_sequence < U64 ->
decode 6 (be 2 rows ++ be 2 cols ++ be 4 (cell_width cell) ++ be 4 (cell_height cell)
++ be 8 at_sequence) = Ok (FResize rows cols cell at_sequence).
Proof.
intros. cbn [decode]. rewrite exact_ok by (by lens). fields. by destruct cell.
Qed.

Lemma input_back offset heartbeat input :
offset < U64 -> heartbeat < U32 -> len input <> 0 -> len input <= TERMINAL_INPUT_MAX_BYTES ->
decode 11 (be 8 offset ++ be 4 heartbeat ++ input) = Ok (FInput offset heartbeat input).
Proof.
intros Ho Hh Hz Hl. cbn [decode].
rewrite sized_ok by (unfold TERMINAL_INPUT_MAX_BYTES in *; lens; lia). fields.
rewrite app_assoc, slice_tail by (by lens). done.
Qed.

Lemma picture_part_back id offset part :
is_uuid16 id -> offset < U64 -> len part <> 0 -> len part <= PICTURE_PART ->
decode 20 (id ++ be 8 offset ++ part) = Ok (FPicturePart id offset part).
Proof.
intros Hu Ho Hz Hl. cbn [decode].
rewrite sized_ok by (unfold PICTURE_PART, HEADER in *; lens; rewrite Hu; lia).
cbn [mbind Result_bind]. rewrite uuid_app by done. cbn [mbind Result_bind].
rewrite read_skip_id by (rewrite Hu; done). rewrite Hu. change (16 - 16) with 0. fields.
rewrite app_assoc, slice_tail by (lens; by rewrite Hu). done.
Qed.
(** ** Output *)

Lemma chunks_back cs turns acc :
Forall (fun c => len c <= RAW_CHUNK_LIMIT) cs -> len acc + len cs <= RAW_BATCH_LIMIT ->
(length cs < turns)%nat ->
read_chunks turns (flat_map plain_chunk cs) acc = Ok (acc ++ cs).
Proof.
revert turns acc. induction cs as [|c cs IH]; intros [|turns] acc Hc Hn Ht; try (cbn in Ht; lia).
{ cbn. by rewrite app_nil_r. }
apply Forall_cons in Hc as [Hc Hcs]. rewrite len_cons in Hn. cbn [flat_map read_chunks].
change (plain_chunk c) with (be 4 (len c) ++ c). rewrite <- app_assoc. lens.
rewrite (proj2 (N.eqb_neq _ _)), (proj2 (N.ltb_ge _ _)), (proj2 (N.eqb_neq _ _)) by lia. cbn [orb].
rewrite read32 by (unfold RAW_CHUNK_LIMIT, U32 in *; lia). cbn [mbind Result_bind].
rewrite drop_app_exact by (by rewrite length_be).
rewrite (proj2 (N.ltb_ge _ _)), (proj2 (N.ltb_ge _ _)) by (lens; lia). cbn [orb].
rewrite take_app_len, drop_app_len by done. rewrite IH; [|done| |cbn in Ht; lia].
- by rewrite <- app_assoc.
- lens. rewrite len_nil. lia.
Qed.

Lemma existsb_false {A} (p : A -> bool) l : existsb p l = false <-> Forall (fun x => p x = false) l.
Proof.
rewrite Forall_forall, <- not_true_iff_false, existsb_exists. split.
- intros Hn x Hx. destruct (p x) eqn:Ep; [|done]. destruct Hn. exists x. by rewrite <- list_elem_of_In.
- intros Ha (x & Hx & Ep). apply list_elem_of_In in Hx. by rewrite Ha in Ep.
Qed.

Lemma plain_limit cs :
Forall (fun c => len c <= RAW_CHUNK_LIMIT) cs ->
len (flat_map plain_chunk cs) <= len cs * (4 + RAW_CHUNK_LIMIT).
Proof.
induction 1 as [|c cs Hc Hcs IH]; [done|]. cbn [flat_map]. unfold plain_chunk at 1. lens. lia.
Qed.

Lemma output_back first chunks body :
first < U64 -> encode_output first chunks = Ok body -> decode 5 body = Ok (FOutput first chunks).
Proof.
intros Hf. unfold encode_output.
destruct (_ || _) eqn:Eb; [done|]. apply orb_false_iff in Eb as [Eb Hc].
apply orb_false_iff in Eb as [Hz%N.eqb_neq Hn%N.ltb_ge]. rewrite existsb_false in Hc.
assert (Hc' : Forall (fun c => len c <= RAW_CHUNK_LIMIT) chunks).
{ eapply Forall_impl; [exact Hc|]. intros c. apply N.ltb_ge. }
destruct (existsb _ chunks); [done|]. cbn [mbind Result_bind].
assert (Hback : read_chunks (S (N.to_nat RAW_BATCH_LIMIT)) (flat_map plain_chunk chunks) [] = Ok chunks).
{ apply chunks_back; [done|by rewrite len_nil|]. unfold len in Hn. lia. }
assert (Hplain : forall flag rest, Byte.to_N flag <= 1 ->
(if Byte.to_N flag =? 1 then unpack rest UNPACKED_OUTPUT_LIMIT else Ok rest)
= Ok (flat_map plain_chunk chunks) ->
decode_output (be 8 first ++ flag :: rest) = Ok (FOutput first chunks)).
{ intros flag rest Hb Hr. unfold decode_output. rewrite (proj2 (N.ltb_ge _ _)) by (lens; lia).
rewrite (index_app (be 8 first)) by (by rewrite len_be). cbn [mbind Result_bind].
rewrite (proj2 (N.ltb_ge _ _)) by done.
rewrite (cons_middle flag), app_assoc, slice_tail by (by lens). cbn [mbind Result_bind].
rewrite Hr. cbn [mbind Result_bind]. rewrite Hback. cbn [mbind Result_bind].
rewrite (proj2 (N.eqb_neq _ _)) by done. rewrite <- app_assoc. by fields. }
cbn [decode]. intros E. apply bind_ok in E as (packed & Ep & E). injection E as <-.
destruct packed as [packed|]; [destruct (_ <? _)|]; apply Hplain; rewrite ?byte_of_N; try done.
destruct (_ <=? _); [|done]. apply fmap_ok in Ep as (p & Ep & [= ->]).
apply (unpack_pack _ _ _ _ Ep). etransitivity; [by apply plain_limit|].
by apply N.mul_le_mono_r.
Qed.
End decoding.

(** ** Controls *)

Lemma byte_of_to_N b : byte_of (Byte.to_N b) = b.
Proof.
  unfold byte_of. pose proof (Byte.to_N_bounded b).
  rewrite N.mod_small by lia. by rewrite Byte.of_to_N.
Qed.

Lemma bytes_of_str_of l : bytes_of (str_of l) = l.
Proof.
  unfold bytes_of, str_of. rewrite String.list_ascii_of_string_of_list_ascii, map_map.
  rewrite (map_ext _ id), map_id; [done|]. intros b. pose proof (Byte.to_N_bounded b).
  rewrite Ascii.N_ascii_embedding by lia. apply byte_of_to_N.
Qed.

(** Looks a key up in an object whose keys are written out. *)
Ltac getkeys :=
  repeat match goal with
  | |- context [ValueOps.get ?k (object ?l)] =>
      let r := eval cbv -[str_of request_value] in (ValueOps.get k (object l)) in
      change (ValueOps.get k (object l)) with r
  end.

Section controls.
Context `{Libraries, !LibrariesLaws}.

Lemma narrow_ok bound reason field value n :
ValueOps.get field value = Some (Num (PosInt n)) -> n < bound -> narrow bound reason field value = Ok n.
Proof.
intros E Hn. unfold narrow, number. rewrite E. cbn. by rewrite (proj2 (N.ltb_lt _ _)).
Qed.

Lemma new_size_bounds rows cols size :
new_size rows cols = Some size -> rows < U16 /\ cols < U16.
Proof.
unfold new_size. destruct (_ && _) eqn:E; [|done]. intros _.
rewrite !andb_true_iff, !N.leb_le in E. unfold MAX_TERMINAL_ROWS, MAX_TERMINAL_COLS, U16 in *. lia.
Qed.

Lemma resize_control_back rows cols width height cell_width cell_height claim body :
let control := CtlResize rows cols width height cell_width cell_height claim in
control_ok control -> encode_control control = Ok body -> decode_control body = Ok control.
Proof.
intros control (Hw & Hh & Hcw & Hch) E. pose proof E as E0.
unfold encode_control in E. apply bind_ok in E as (value & Ev & E). unfold decode_control.
rewrite (json_back _ _ E). cbn [mbind Result_bind]. unfold control in Ev. cbn [control_value] in Ev.
apply bind_ok in Ev as (size & Es%ok_or_ok & Ev). apply new_size_bounds in Es as [Hr Hc].
apply bind_ok in Ev as (u & _ & [= <-]). unfold text, flag, number_value. getkeys.
cbn [ok_or mbind option_bind Result_bind ValueOps.as_str String.eqb Ascii.eqb Bool.eqb ValueOps.as_bool].
do 6 (erewrite narrow_ok; [|vm_compute; reflexivity|assumption]; cbn [mbind Result_bind]).
fold control. by rewrite E0.
Qed.

Lemma control_back control body :
is_input control = false -> control_ok control ->
encode_control control = Ok body -> decode_control body = Ok control.
Proof.
destruct control as [|message|rows cols width height cw ch claim|focused| | |request];
intros Hi Hok E; [done| |by apply resize_control_back| | | |];
apply bind_ok in E as (value & Ev & E); unfold decode_control; rewrite (json_back _ _ E);
cbn [mbind Result_bind]; cbn [control_value] in Ev.
1: destruct (valid_utf8 _); [|done].
5: destruct (request_is_valid request) eqn:Er; [|done].
all: injection Ev as <-; unfold text, flag; getkeys;
cbn [ok_or mbind option_bind Result_bind fmap Result_fmap ValueOps.as_str ValueOps.as_bool String.eqb
Ascii.eqb Bool.eqb]; try done.
- by rewrite bytes_of_str_of.
- rewrite value_of_request. cbn [ok_or mbind Result_bind]. by rewrite Er.
Qed.

Lemma metadata_back metadata body :
encode_metadata metadata = Ok body ->
len body <= METADATA_LIMIT /\ decode_metadata body = Ok metadata.
Proof.
unfold encode_metadata, decode_metadata. destruct (metadata_is_valid metadata) eqn:Ev; [|done].
cbn [negb]. intros E. apply bind_ok in E as (text & E & E2).
destruct (N.ltb_spec METADATA_LIMIT (len text)) as [|Hl]; [done|]. injection E2 as <-. split; [done|].
rewrite (proj2 (N.ltb_ge _ _)) by done. rewrite (json_back _ _ E). cbn [mbind Result_bind].
by rewrite Ev.
Qed.

Lemma call_back value limit body :
call_json value limit = Ok body -> len body <= limit /\ call_value body = Ok value.
Proof.
unfold call_json, call_value. intros E. apply bind_ok in E as (text & E & E2).
destruct (is_object value) eqn:Eo; cbn [negb orb] in E2; [|done].
destruct (N.ltb_spec limit (len text)) as [|Hl]; [done|]. injection E2 as <-. split; [done|].
rewrite (json_back _ _ E). cbn [mbind Result_bind]. by rewrite Eo.
Qed.
End controls.

(** ** A whole frame *)

Section whole.
Context `{Libraries, !LibrariesLaws}.

Lemma json_frame {T} `{Serde T, !SerdeLaws T} (F : T -> Frame) limit (t : T) body :
to_json t = Ok body -> small limit t -> (text ← within limit body; F <$> from_json text) = Ok (F t).
Proof.
intros E Hs. rewrite within_ok by eauto using json_small. cbn [mbind Result_bind].
by rewrite (json_back _ _ E).
Qed.

Lemma call_frame (F : Value -> Frame) limit value body :
call_json value limit = Ok body -> (text ← within limit body; F <$> call_value text) = Ok (F value).
Proof.
intros [Hl E]%call_back. rewrite within_ok by done. cbn [mbind Result_bind]. by rewrite E.
Qed.

(** A body that starts with an identifier, and the rest of it. *)
Lemma id_body {B} id rest low high reason (k : Uuid -> bytes -> Result WireError B) :
is_uuid16 id -> low <= 16 + len rest -> 16 + len rest <= high ->
(_ ← sized low high reason (id ++ rest); i ← uuid (id ++ rest);
r ← slice 16 (len (id ++ rest)) (id ++ rest); k i r) = k id rest.
Proof.
intros Hi Hl Hh. rewrite sized_ok by (lens; by rewrite Hi). cbn [mbind Result_bind].
rewrite uuid_app by done. cbn [mbind Result_bind]. by rewrite slice_tail by done.
Qed.

Lemma control_frame_back id control encoded :
is_uuid16 id -> control_ok control -> is_input control = false ->
encode_control control = Ok encoded -> len (id ++ encoded) <= 16 + CONTROL_LIMIT ->
decode 12 (id ++ encoded) = Ok (FControl id control).
Proof.
intros Hi Hok Hn E Hl. cbn [decode]. rewrite len_app, Hi in Hl.
rewrite sized_ok by (lens; rewrite Hi; lia). cbn [mbind Result_bind].
rewrite uuid_app by done. cbn [mbind Result_bind]. rewrite slice_tail by done.
cbn [mbind Result_bind]. rewrite (control_back _ _ Hn Hok E). cbn [mbind Result_bind]. by rewrite Hn.
Qed.

Lemma control_value_back id value encoded :
is_uuid16 id -> call_json value CALL_ANSWER = Ok encoded ->
decode 18 (id ++ encoded) = Ok (FControlValue id value).
Proof.
intros Hi [Hl E]%call_back. cbn [decode].
rewrite sized_ok by (lens; rewrite Hi; lia). cbn [mbind Result_bind].
rewrite uuid_app by done. cbn [mbind Result_bind]. rewrite slice_tail by done.
cbn [mbind Result_bind]. by rewrite E.
Qed.

Lemma pipe_open_back pipe key name encoded :
is_uuid16 pipe -> to_json (key, name) = Ok encoded -> len (pipe ++ encoded) <= 16 + CONTROL_LIMIT ->
decode 22 (pipe ++ encoded) = Ok (FPipeOpen pipe key name).
Proof.
intros Hi E Hl. cbn [decode]. rewrite len_app, Hi in Hl.
rewrite sized_ok by (lens; rewrite Hi; lia). cbn [mbind Result_bind].
rewrite slice_tail by done. cbn [mbind Result_bind]. rewrite (json_back _ _ E).
cbn [mbind Result_bind]. by rewrite uuid_app by done.
Qed.

Lemma offer_back pipe addresses encoded :
is_uuid16 pipe -> len addresses <= MOST_DIRECT_ADDRESSES -> small CONTROL_LIMIT addresses ->
to_json addresses = Ok encoded ->
decode 26 (pipe ++ encoded) = Ok (FDirectOffer pipe addresses).
Proof.
intros Hi Hn Hs E. pose proof (json_small _ _ _ E Hs). cbn [decode].
rewrite sized_ok by (lens; rewrite Hi; lia). cbn [mbind Result_bind].
rewrite slice_tail by done. cbn [mbind Result_bind]. rewrite (json_back _ _ E).
cbn [mbind Result_bind]. rewrite (proj2 (N.ltb_ge _ _)) by done. by rewrite uuid_app by done.
Qed.

Lemma heartbeat_back number next :
number < U32 -> next < U64 -> decode 8 (be 4 number ++ be 8 next) = Ok (FHeartbeat number next).
Proof. intros. cbn [decode]. rewrite exact_ok by (by lens). by fields. Qed.

Lemma ack_back received : received < U64 -> decode 10 (be 8 received) = Ok (FAck received).
Proof. intros. cbn [decode]. rewrite exact_ok by (by lens). by fields. Qed.

Lemma input_ack_back offset : offset < U64 -> decode 14 (be 8 offset) = Ok (FInputAck offset).
Proof. intros. cbn [decode]. rewrite exact_ok by (by lens). by fields. Qed.

Lemma decode_encode f kind body :
frame_ok f -> frame_small f -> encode_body f = Ok (kind, body) ->
kind < 256 /\ decode kind body = Ok f.
Proof.
intros Hok Hs E. destruct f; cbn [encode_body] in E; cbn [frame_ok frame_small] in Hok, Hs.
all: repeat match type of E with
| (_ ≫= _) = Ok _ => apply bind_ok in E as (? & ? & E); cbv beta in E
| (if ?b then _ else _) = Ok _ => destruct b eqn:?; [discriminate E|]
end; injection E as <- <-; (split; [done|]).
all: repeat match goal with
| H : _ /\ _ |- _ => destruct H
| H : (_ || _) = false |- _ => apply orb_false_iff in H as [? ?]
| H : (_ <? _) = false |- _ => apply N.ltb_ge in H
| H : (_ =? _) = false |- _ => apply N.eqb_neq in H
end.
- by apply (json_frame FAccept 4096).
- by apply (json_frame FRefuse 4096).
- by apply keyframe_back.
- by apply output_back.
- by apply resize_back.
- match goal with H : encode_metadata _ = _ |- _ => apply metadata_back in H as [Hl E] end.
cbn [decode]. rewrite within_ok by done. cbn [mbind Result_bind]. by rewrite E.
- by apply heartbeat_back.
- by apply (json_frame FEnd 4096).
- by apply ack_back.
- by apply input_back.
- by apply control_frame_back.
- done.
- by apply input_ack_back.
- by apply (json_frame FControlResult 4096).
- by apply (call_frame FRequest).
- by apply (call_frame FAnswer).
- by apply control_value_back.
- by apply (json_frame FPicture 1024).
- by apply picture_part_back.
- by apply (json_frame FPictureState 4096).
- by apply pipe_open_back.
- by apply pipe_data_back.
- cbn [decode]. rewrite exact_ok by done. cbn [mbind Result_bind]. by rewrite uuid_whole.
- cbn [decode]. rewrite exact_ok by done. cbn [mbind Result_bind]. by rewrite uuid_whole.
- by apply offer_back.
Qed.

(** [encode] writes the body in a frame of the padded size. *)
Lemma encode_layout f frame :
encode f = Ok frame ->
exists kind body length zeros, encode_body f = Ok (kind, body) /\ length = padded (HEADER + len body) /\
length <= FRAME_LIMIT /\ len frame = length /\ HEADER + len body <= length /\
zeros = replicate (N.to_nat (length - (HEADER + len body))) (byte_of 0) /\
frame = be 3 (length - 3) ++ byte_of kind :: be 3 (len body) ++ body ++ zeros.
Proof.
unfold encode. intros E. apply bind_ok in E as ([kind body] & Eb & E). cbv zeta in E.
destruct (N.ltb_spec FRAME_LIMIT (padded (HEADER + len body))) as [|Hl]; [done|].
apply bind_ok in E as (s & Es & E). apply bind_ok in E as (b & Ebs & E).
unfold u24 in Es, Ebs. destruct (N.ltb_spec (padded (HEADER + len body) - 3) 16777216); [|done].
destruct (N.ltb_spec (len body) 16777216) as [Hb|]; [|done].
apply ok_inj in Es as <-, Ebs as <-, E as <-. pose proof (padded_bounds (HEADER + len body)) as Hp.
assert (HEADER + len body < 2 ^ 64) as Hb64 by (unfold HEADER; change (2 ^ 64) with U64; unfold U64; lia).
specialize (Hp Hb64). remember (padded (HEADER + len body)) as length eqn:Elen.
assert (Hh : len (be 3 (length - 3) ++ byte_of kind :: be 3 (len body) ++ body) = HEADER + len body)
by (unfold HEADER; lens; lia).
exists kind, body, length, (replicate (N.to_nat (length - (HEADER + len body))) (byte_of 0)).
split; [done|]. split; [exact Elen|]. split; [lia|]. rewrite Hh, len_app, Hh. split; [|split; [lia|split; [done|]]].
- unfold len at 2. rewrite length_replicate. lia.
- by rewrite <- app_assoc, <- !app_comm_cons, <- !app_assoc.
Qed.
End whole.

(** ** Taking frames from a stream *)

Section stream.
Context `{Libraries, !LibrariesLaws}.

Lemma zeros_padding n : existsb (fun b => negb (Byte.to_N b =? 0)) (replicate n (byte_of 0)) = false.
Proof. induction n as [|n IH]; [done|]. cbn [replicate existsb]. by rewrite IH. Qed.

Lemma read24_app a v c at' : at' = len a -> v < 16777216 -> read 3 at' (a ++ be 3 v ++ c) = Ok v.
Proof. intros Ha Hv. by apply (read_be a c 3). Qed.

(** A buffer that starts with a frame of this layout. *)
Lemma take_layout length kind body zeros rest f :
kind < 256 -> length <= FRAME_LIMIT -> length = HEADER + len body + len zeros ->
existsb (fun b => negb (Byte.to_N b =? 0)) zeros = false -> decode kind body = Ok f ->
take_frame (be 3 (length - 3) ++ byte_of kind :: be 3 (len body) ++ body ++ zeros ++ rest)
= Ok (Some (f, length, rest)).
Proof.
unfold HEADER, FRAME_LIMIT. intros Hk Hl Hlen Hz Hd.
set (buffer := be 3 (length - 3) ++ byte_of kind :: be 3 (len body) ++ body ++ zeros ++ rest).
assert (Hb : len buffer = length + len rest) by (unfold buffer; lens; lia).
assert (R1 : read 3 0 buffer = Ok (length - 3)) by (apply (read24_app []); [done|lia]).
assert (R2 : index 3 buffer = Ok kind).
{ unfold buffer. rewrite (index_app (be 3 (length - 3))) by done. by rewrite byte_of_N, N.mod_small. }
assert (R3 : read 3 4 buffer = Ok (len body))
by (apply (read24_app (be 3 (length - 3) ++ [byte_of kind])); [done|lia]).
set (head := be 3 (length - 3) ++ byte_of kind :: be 3 (len body)).
assert (Eb : buffer = head ++ body ++ zeros ++ rest) by done.
assert (Hh : len head = 7) by done.
assert (R4 : slice (7 + len body) length buffer = Ok zeros).
{ rewrite Eb, app_assoc. apply slice_app; rewrite len_app, Hh; lia. }
assert (R5 : slice 7 (7 + len body) buffer = Ok body) by (rewrite Eb; apply slice_app; lia).
assert (R6 : drop (N.to_nat length) buffer = rest).
{ rewrite Eb, !app_assoc. apply drop_app_len. rewrite !len_app, Hh. lia. }
clearbody buffer head. unfold take_frame. rewrite (proj2 (N.ltb_ge _ _)) by lia.
rewrite R1. cbn [fmap Result_fmap mbind Result_bind]. replace (3 + (length - 3)) with length by lia.
unfold HEADER, FRAME_LIMIT. rewrite !(proj2 (N.leb_le _ _)) by lia. cbn [andb negb].
rewrite (proj2 (N.ltb_ge _ _)) by lia. rewrite R2, R3. cbn [fmap Result_fmap mbind Result_bind].
rewrite (proj2 (N.ltb_ge _ _)) by lia. rewrite R4. cbn [fmap Result_fmap mbind Result_bind].
rewrite Hz, R5. cbn [mbind Result_bind]. rewrite Hd. cbn [mbind Result_bind]. by rewrite R6.
Qed.

Lemma take_encoded f frame rest :
frame_ok f -> frame_small f -> encode f = Ok frame ->
take_frame (frame ++ rest) = Ok (Some (f, len frame, rest)).
Proof.
intros Hok Hs E.
destruct (encode_layout _ _ E) as (kind & body & length & zeros & Eb & _ & Hl & Hlen & Hb & Hz & Ef).
destruct (decode_encode _ _ _ Hok Hs Eb) as [Hk Hd]. rewrite Hlen, Ef.
rewrite <- app_assoc, <- app_comm_cons, <- !app_assoc. apply take_layout; try done.
- rewrite Hz. unfold len at 2. rewrite length_replicate. lia.
- rewrite Hz. apply zeros_padding.
Qed.

(** Without the whole frame nothing is taken, and there is no error. *)
Lemma take_part f frame part rest :
encode f = Ok frame -> frame = part ++ rest -> rest <> [] -> take_frame part = Ok None.
Proof.
intros E Ep Hr. destruct (encode_layout _ _ E) as (kind & body & length & zeros & _ & _ & Hl & Hlen & Hb & _ & Ef).
unfold HEADER, FRAME_LIMIT in *. unfold take_frame.
destruct (N.ltb_spec (len part) 3) as [|H3]; [done|].
assert (Hpart : len part < length).
{ rewrite <- Hlen, Ep, len_app. destruct rest; [done|]. rewrite len_cons. lia. }
assert (R1 : read 3 0 part = Ok (length - 3)).
{ assert (Epart : part = be 3 (length - 3) ++ drop 3 part).
{ rewrite <- (take_drop 3 part) at 1. f_equal.
rewrite <- (take_app_le part rest 3) by (unfold len in H3; lia). by rewrite <- Ep, Ef. }
rewrite Epart. apply (read24_app []); [done|lia]. }
rewrite R1. cbn [fmap Result_fmap mbind Result_bind]. replace (3 + (length - 3)) with length by lia.
unfold HEADER, FRAME_LIMIT. rewrite !(proj2 (N.leb_le _ _)) by lia. cbn [andb negb].
by rewrite (proj2 (N.ltb_lt _ _)).
Qed.

(** ** The channel *)

(** The other side closes after the last of its bytes. *)
Fixpoint closes_last (closed : bool) (messages : list Message) : Prop :=
match messages with
| [] => True
| m :: messages => (closed = true -> decrypted m = []) /\ closes_last (closed || closes m) messages
end.

Definition coming (messages : list Message) : bytes := flat_map decrypted messages.

Lemma closed_nothing messages : closes_last true messages -> coming messages = [].
Proof.
induction messages as [|m messages IH]; [done|]. cbn [closes_last coming flat_map].
intros [Hm Hrest]. rewrite Hm by done. by apply IH.
Qed.

Lemma receive_next f frame rest c messages :
frame_ok f -> frame_small f -> encode f = Ok frame -> closes_last (closed c) messages ->
plain c ++ coming messages = frame ++ rest ->
exists c' messages', receive c messages = Ok (Some (f, len frame), c', messages') /\ plain c' ++ coming messages' = rest /\ closes_last (closed c') messages'.
Proof.
intros Hok Hs E. revert c. induction messages as [|m messages IH]; intros c Hc Ep.
{ cbn [coming flat_map] in Ep. rewrite app_nil_r in Ep. cbn [receive].
rewrite Ep, (take_encoded _ _ _ Hok Hs E). cbn [mbind Result_bind].
exists (MkChannel rest (closed c)), []. by rewrite app_nil_r. }
cbn [receive]. destruct (app_eq_inv _ _ _ _ Ep) as [(k & Ek & Er)|(k & Ek & Er)].
- rewrite Ek, (take_encoded _ _ _ Hok Hs E). cbn [mbind Result_bind].
exists (MkChannel k (closed c)), (m :: messages). by rewrite Er.
- destruct (decide (k = [])) as [->|Hk].
{ rewrite app_nil_r in Ek. cbn [app] in Er. rewrite <- (app_nil_r (plain c)), <- Ek.
rewrite (take_encoded _ _ _ Hok Hs E). cbn [mbind Result_bind].
exists (MkChannel [] (closed c)), (m :: messages). by rewrite Er. }
rewrite (take_part _ _ _ _ E Ek Hk). cbn [mbind Result_bind].
destruct Hc as [Hm Hc]. destruct (closed c) eqn:Ecl.
+ cbn [coming flat_map] in Er. rewrite Hm in Er by done. fold (coming messages) in Er.
rewrite (closed_nothing _ Hc) in Er. cbn in Er. by destruct k.
+ apply (IH (absorb c m)); [by cbn; rewrite Ecl|]. rewrite <- Ep. cbn. by rewrite <- app_assoc.
Qed.

Lemma receive_none c messages :
plain c = [] -> coming messages = [] -> exists c', exists messages',
receive c messages = Ok (None, c', messages').
Proof.
revert c. induction messages as [|m messages IH]; intros c Hp Hm; cbn [receive]; rewrite Hp; cbn.
{ exists c, []. by destruct (closed c). }
destruct (closed c); [eauto|]. cbn in Hm. apply app_eq_nil in Hm as [Hd Hm]. apply IH; [|done].
cbn. by rewrite Hp, Hd.
Qed.
End stream.
