(* ===== verification/WireClaims.v ===== *)
(** The properties of the terminal wire: frames come back through the channel, no bytes make a
    panic, what is decoded is within its bounds, padded sizes are classes, and snapshots come
    back from their parts. *)

From S2P Require Import Prelude Json Utf Terminal Wire WireSpec.
Open Scope N_scope.

Section safety.
Context `{Libraries, !LibrariesLaws}.

Lemma exact_inv body length u : exact body length = Ok u -> len body = length.
Proof. unfold exact. by destruct (N.eqb_spec (len body) length). Qed.

Lemma exact_safe body length : safe (exact body length).
Proof. unfold exact. by destruct (_ =? _). Qed.

Lemma within_safe limit body : safe (within limit body).
Proof. unfold within. by destruct (_ <? _). Qed.

Lemma json_safe {T} `{Serde T} (body : bytes) : safe (from_json (T:=T) body).
Proof. apply safe_ok_or. Qed.

Lemma to_json_safe {T} `{Serde T} (t : T) : safe (to_json t).
Proof. apply safe_ok_or. Qed.

Lemma bit_safe at' reason body : at' < len body -> safe (bit at' reason body).
Proof.
intros. apply safe_bind; [by apply index_safe|]. intros b _. by destruct (_ <? _).
Qed.

Lemma uuid_safe body : 16 <= len body -> safe (uuid body).
Proof. intros. by apply slice_safe. Qed.

Lemma tail_safe (body : bytes) from : from <= len body -> safe (slice from (len body) body).
Proof. intros. apply slice_safe; [done|lia]. Qed.

Lemma narrow_safe bound reason field value : safe (narrow bound reason field value).
Proof. apply safe_bind; [apply safe_ok_or|]. intros n _. by destruct (_ <? _). Qed.

Lemma flag_safe reason field value : safe (flag reason field value).
Proof. apply safe_ok_or. Qed.

Lemma text_safe value field : safe (text value field).
Proof. apply safe_ok_or. Qed.

Lemma call_value_safe body : safe (call_value body).
Proof. apply safe_bind; [apply json_safe|]. intros v _. by destruct (is_object v). Qed.

Lemma call_json_safe value limit : safe (call_json value limit).
Proof. apply safe_bind; [apply to_json_safe|]. intros v _. by destruct (_ || _). Qed.

Lemma control_value_safe control : safe (control_value control).
Proof.
destruct control; cbn [control_value]; try exact I.
- by destruct (valid_utf8 _).
- apply safe_bind; [apply safe_ok_or|]. intros size _. apply safe_bind; [|by intros].
destruct (forallb _ _); [exact I|]. apply safe_fmap, safe_ok_or.
- by destruct (request_is_valid request).
Qed.

Lemma encode_control_safe control : safe (encode_control control).
Proof. apply safe_bind; [apply control_value_safe|]. intros v _. apply to_json_safe. Qed.

Lemma decode_control_safe body : safe (decode_control body).
Proof.
apply safe_bind; [apply json_safe|]. intros value _. apply safe_bind; [apply text_safe|]. intros kind _.
destruct (String.eqb kind "resize").
{ do 6 (apply safe_bind; [apply narrow_safe|]; intros ? _). apply safe_bind; [apply flag_safe|].
intros claim _. apply safe_bind; [apply encode_control_safe|]. by intros. }
destruct (String.eqb kind "focus"); [apply safe_fmap, flag_safe|].
destruct (String.eqb kind "message"); [apply safe_fmap, text_safe|].
destruct (String.eqb kind "interrupt"); [exact I|]. destruct (String.eqb kind "close"); [exact I|].
destruct (String.eqb kind "canvas"); [|exact I].
apply safe_bind; [apply safe_ok_or|]. intros r _. apply safe_bind; [apply safe_ok_or|].
intros request _. by destruct (request_is_valid request).
Qed.

Lemma decode_metadata_safe body : safe (decode_metadata body).
Proof.
unfold decode_metadata. destruct (_ <? _); [exact I|]. apply safe_bind; [apply json_safe|].
intros m _. by destruct (negb _).
Qed.

(** The loop of [decode_output] has a turn for each chunk that a batch may have and one more. *)
Lemma read_chunks_safe turns rest chunks :
len chunks <= RAW_BATCH_LIMIT -> RAW_BATCH_LIMIT < N.of_nat turns + len chunks ->
safe (read_chunks turns rest chunks).
Proof.
revert rest chunks. induction turns as [|turns IH]; intros rest chunks Hl Ht; [lia|].
cbn [read_chunks]. destruct (len rest =? 0); [exact I|].
destruct (N.ltb_spec (len rest) 4); [exact I|]. destruct (N.eqb_spec (len chunks) RAW_BATCH_LIMIT); [exact I|].
cbn [orb]. apply safe_bind; [apply read_safe; lia|]. intros size _. destruct (_ || _); [exact I|].
apply IH; lens; rewrite len_nil; lia.
Qed.


Lemma decode_output_safe body : safe (decode_output body).
Proof.
unfold decode_output. destruct (N.ltb_spec (len body) 9) as [|Hl]; [exact I|].
apply safe_bind; [apply index_safe; lia|]. intros flag _. destruct (1 <? flag); [exact I|].
apply safe_bind; [by apply tail_safe|]. intros rest _. apply safe_bind.
{ destruct (flag =? 1); [apply unpack_safe|exact I]. }
intros plain _. apply safe_bind; [apply read_chunks_safe; rewrite len_nil; unfold RAW_BATCH_LIMIT; lia|].
intros chunks _. destruct (_ =? _); [exact I|]. apply safe_bind; [apply read_safe; lia|]. by intros.
Qed.

(** Steps through a decoder whose reads are within the body. *)
Ltac safely :=
repeat first
[ exact I
| apply json_safe | apply call_value_safe | apply decode_control_safe | apply decode_metadata_safe
| apply decode_output_safe | apply exact_safe
| apply read_safe; lia | apply uuid_safe; lia | apply tail_safe; lia | apply bit_safe; lia
| apply safe_fmap
| match goal with
| |- safe (if ?b then _ else _) => destruct b
| |- safe (match ?p with (_, _) => _ end) => destruct p
| |- safe (sized _ _ _ _ ≫= _) =>
let E := fresh in apply safe_bind; [apply sized_safe|intros ? E; apply sized_inv in E]
| |- safe (exact _ _ ≫= _) =>
let E := fresh in apply safe_bind; [apply exact_safe|intros ? E; apply exact_inv in E]
| |- safe (within _ _ ≫= _) => apply safe_bind; [apply within_safe|intros ? _]
| |- safe (_ ≫= _) => apply safe_bind; [|intros ? _]
end ].

Lemma decode_safe kind body : safe (decode kind body).
Proof.
unfold decode. destruct kind as [|kind]; [exact I|].
repeat (destruct kind as [kind|kind|]; try exact I); safely.
Qed.

Lemma take_safe buffer : safe (take_frame buffer).
Proof.
unfold take_frame. destruct (N.ltb_spec (len buffer) 3) as [|H3]; [exact I|].
apply safe_bind; [apply safe_fmap, read_safe; lia|]. intros length El.
apply fmap_ok in El as (n & _ & <-).
destruct (N.leb_spec HEADER (3 + n)) as [Hh|]; [|exact I]. unfold HEADER in *.
destruct (N.leb_spec (3 + n) FRAME_LIMIT); [|exact I]. cbn [andb negb].
destruct (N.ltb_spec (len buffer) (3 + n)); [exact I|].
apply safe_bind; [apply index_safe; lia|]. intros kind _.
apply safe_bind; [apply read_safe; lia|]. intros size _.
destruct (N.ltb_spec (3 + n) (7 + size)) as [|Hs]; [exact I|].
apply safe_bind; [apply safe_fmap, slice_safe; lia|]. intros bad _. destruct bad; [exact I|].
apply safe_bind; [apply slice_safe; lia|]. intros body _.
apply safe_bind; [apply decode_safe|]. by intros.
Qed.


Lemma receive_safe c messages : safe (receive c messages).
Proof.
revert c. induction messages as [|m messages IH]; intros c; cbn [receive];
(apply safe_bind; [apply take_safe|]; intros [[[f l] rest]|] _; [exact I|]; destruct (closed c); [exact I|]).
- exact I.
- apply IH.
Qed.

Lemma encode_output_safe first chunks : safe (encode_output first chunks).
Proof.
unfold encode_output. destruct (_ || _ || _); [exact I|].
apply safe_bind; [by destruct (existsb _ _)|]. intros _ _. apply safe_bind; [|by intros].
destruct (_ <=? _); [apply safe_fmap, pack_safe|exact I].
Qed.

Lemma encode_metadata_safe metadata : safe (encode_metadata metadata).
Proof.
unfold encode_metadata. destruct (negb _); [exact I|].
apply safe_bind; [apply to_json_safe|]. intros text _. by destruct (_ <? _).
Qed.

Lemma encode_body_safe f : safe (encode_body f).
Proof.
destruct f; cbn [encode_body]; repeat first
[ exact I | apply to_json_safe | apply call_json_safe | apply encode_control_safe
| apply encode_output_safe | apply encode_metadata_safe
| match goal with
| |- safe (if ?b then _ else _) => destruct b
| |- safe (_ ≫= _) => apply safe_bind; [|intros ? _; cbv zeta]
end ].
Qed.

Lemma encode_safe f : safe (encode f).
Proof.
apply safe_bind; [apply encode_body_safe|]. intros [kind body] _. cbv zeta. destruct (_ <? _); [exact I|].
unfold u24. apply safe_bind; [by destruct (_ <? _)|]. intros size _.
apply safe_bind; [by destruct (_ <? _)|]. by intros.
Qed.
End safety.

(** ** The bounds of what is decoded *)

Section bounds.
Context `{Libraries, !LibrariesLaws}.
















End bounds.

(** ** Snapshots *)

Section snapshots.
Context `{Libraries, !LibrariesLaws}.

Lemma parts_bounds turns packed : Forall (fun p => 1 <= len p <= KEYFRAME_PART) (parts turns packed).
Proof.
revert packed. induction turns as [|turns IH]; intros packed; [constructor|]. cbn [parts].
destruct (N.eqb_spec (len packed) 0) as [|Hz]; [constructor|]. constructor; [|apply IH].
unfold len, KEYFRAME_PART in *. rewrite length_take. lia.
Qed.

Lemma parts_concat turns packed : (length packed <= turns)%nat -> concat (parts turns packed) = packed.
Proof.
revert packed. induction turns as [|turns IH]; intros packed Ht; [by destruct packed; [|cbn in Ht; lia]|].
cbn [parts]. destruct (N.eqb_spec (len packed) 0) as [Hz|Hz].
{ unfold len in Hz. by destruct packed. }
cbn [concat]. rewrite IH; [by rewrite take_drop|]. unfold len, KEYFRAME_PART in *. rewrite length_drop. lia.
Qed.

Definition without_metadata (k : Checkpoint) : Checkpoint :=
MkCheckpoint None (k_size k) (k_cell k) (k_snapshot k) (k_console k).

Lemma new_checkpoint_bounds snapshot console k :
new_checkpoint snapshot console = Some k -> 1 <= len snapshot <= TERMINAL_SNAPSHOT_MAX_BYTES.
Proof.
unfold new_checkpoint. destruct (N.ltb_spec TERMINAL_SNAPSHOT_MAX_BYTES (len snapshot)); [done|].
destruct snapshot; [done|]. rewrite len_cons in *. lia.
Qed.

(** The metadata after a snapshot: none, or a text that is not empty. *)
Lemma metadata_part k text :
(match k_metadata k with Some m => encode_metadata m | None => Ok [] end) = Ok text ->
len text <= METADATA_LIMIT /\
match k_metadata k with Some m => text <> [] /\ decode_metadata text = Ok m | None => text = [] end.
Proof.
destruct (k_metadata k) as [m|]; [|by intros [= <-]]. intros E. pose proof (metadata_back _ _ E) as [Hl Hd].
split; [done|]. split; [|done]. intros ->. unfold decode_metadata in Hd. destruct (_ <? _); [done|].
unfold from_json in Hd. by rewrite metadata_of_nothing in Hd.
Qed.

Lemma checkpoint_back k encoded :
new_checkpoint (k_snapshot k) (k_console k) = Some (without_metadata k) ->
encode_checkpoint k = Ok encoded -> len encoded <= SNAPSHOT_LIMIT /\ decode_checkpoint encoded = Ok k.
Proof.
intros Hk. pose proof (new_checkpoint_bounds _ _ _ Hk) as Hs. unfold encode_checkpoint.
destruct (N.leb_spec U32 (len (k_snapshot k))) as [|H32]; [done|]. intros E.
apply bind_ok in E as (text & Et & E). apply ok_inj in E. apply metadata_part in Et as [Htl Ht].
set (head := be 4 TERMINAL_CHECKPOINT_SCHEMA_VERSION ++ byte_of (N.b2n (k_console k))
:: be 4 (len (k_snapshot k))).
assert (Ee : encoded = head ++ k_snapshot k ++ text) by (by rewrite <- E; unfold head; rewrite <- app_assoc).
assert (Hh : len head = 9) by done.
assert (Hlen : len encoded = 9 + len (k_snapshot k) + len text) by (rewrite Ee, !len_app, Hh; lia).
assert (R1 : read 4 0 encoded = Ok TERMINAL_CHECKPOINT_SCHEMA_VERSION) by (rewrite <- E; by apply read32).
assert (R2 : forall reason, bit 4 reason encoded = Ok (k_console k)).
{ intros reason. rewrite <- E. by apply (bit_app (be 4 TERMINAL_CHECKPOINT_SCHEMA_VERSION)). }
assert (R3 : read 4 5 encoded = Ok (len (k_snapshot k))).
{ rewrite <- E. apply (read_be (be 4 TERMINAL_CHECKPOINT_SCHEMA_VERSION ++ [byte_of (N.b2n (k_console k))]) _ 4);
done. }
assert (R4 : slice 9 (9 + len (k_snapshot k)) encoded = Ok (k_snapshot k)) by (rewrite Ee; by apply slice_app).
assert (R5 : slice (9 + len (k_snapshot k)) (len encoded) encoded = Ok text).
{ rewrite Ee, app_assoc. apply slice_tail. by rewrite len_app, Hh. }
clear E Ee. clearbody head.
unfold SNAPSHOT_LIMIT, CHECKPOINT_HEADER, TERMINAL_SNAPSHOT_MAX_BYTES, METADATA_LIMIT in *. split; [lia|].
unfold decode_checkpoint, CHECKPOINT_HEADER, SNAPSHOT_LIMIT, TERMINAL_SNAPSHOT_MAX_BYTES, CHECKPOINT_HEADER, METADATA_LIMIT.
rewrite !(proj2 (N.ltb_ge _ _)) by lia. cbn [orb]. rewrite R1. cbn [mbind Result_bind].
rewrite N.eqb_refl. cbn [negb]. rewrite R2, R3. cbn [mbind Result_bind].
rewrite (proj2 (N.eqb_neq _ _)), !(proj2 (N.ltb_ge _ _)) by lia. cbn [orb].
rewrite R4. cbn [mbind Result_bind]. rewrite Hk. cbn [ok_or mbind Result_bind].
destruct k as [[m|] size cell snap console]; cbn [k_metadata k_snapshot k_console k_size k_cell without_metadata] in *.
- destruct Ht as [Hne Hd]. destruct text as [|b text]; [done|]. rewrite len_cons in Hlen.
rewrite (proj2 (N.ltb_lt _ _)) by lia. rewrite R5. cbn [mbind Result_bind]. rewrite Hd. done.
- subst text. rewrite len_nil in Hlen. rewrite (proj2 (N.ltb_ge _ _)) by lia. done.
Qed.
(** The parts of a snapshot, put together, are within what a viewer takes. *)
Lemma snapshot_back k ps :
new_checkpoint (k_snapshot k) (k_console k) = Some (without_metadata k) -> snapshot_parts k = Ok ps ->
Forall (fun p => 1 <= len p <= KEYFRAME_PART) ps /\ snapshot (concat ps) = Ok k /\
ps <> [] /\ len (concat ps) <= PACKED_SNAPSHOT_LIMIT.
Proof.
intros Hk E. apply bind_ok in E as (encoded & Ee & E). apply bind_ok in E as (packed & Ep & E).
apply ok_inj in E as <-. destruct (checkpoint_back _ _ Hk Ee) as [Hl Hd].
destruct (pack_bounds _ _ _ Ep) as [Hn Hb]. rewrite parts_concat by done.
split; [apply parts_bounds|]. split; [unfold snapshot; rewrite (unpack_pack _ _ _ _ Ep Hl); done|].
split; [by destruct packed|]. assert (len encoded / 2 <= SNAPSHOT_LIMIT / 2) by (apply N.div_le_mono; lia).
assert (SNAPSHOT_LIMIT + SNAPSHOT_LIMIT / 2 + 256 <= PACKED_SNAPSHOT_LIMIT) by (vm_compute; discriminate). lia.
Qed.
End snapshots.

(** * The properties *)

(** C35. Frames that one computer encodes come back from the channel of the other, in their
    order and with their fields, in whatever pieces their bytes come, when the numbers are at
    their width and the texts that [encode] does not bound within the limits of [decode]
    ([frame_small]; [long_result_is_refused] is a longer one); then the channel ends. *)
Theorem frames_come_back `{Libraries, !LibrariesLaws} (frames : list Frame) (encoded : list bytes)
    (messages : list Message) :
  Forall2 (fun f e => frame_ok f /\ frame_small f /\ encode f = Ok e) frames encoded ->
  closes_last false messages -> coming messages = concat encoded ->
  receive_all (S (length frames)) (MkChannel [] false) messages = Ok frames.
Proof.
  intros Hall Hc Hm. change false with (closed (MkChannel [] false)) in Hc.
  assert (Ep : plain (MkChannel [] false) ++ coming messages = concat encoded) by done. clear Hm.
  revert Hc Ep. generalize (MkChannel [] false). revert messages.
  induction Hall as [|f e frames encoded (Hok & Hs & E) Hall IH]; intros messages c Hc Ep; cbn [receive_all length].
  - apply app_eq_nil in Ep as [Hp Hm]. by destruct (receive_none _ _ Hp Hm) as (c' & ms & ->).
  - destruct (receive_next _ _ _ _ _ Hok Hs E Hc Ep) as (c' & ms & -> & Ep' & Hc').
    cbn [mbind Result_bind]. cbn [receive_all length] in IH. by rewrite (IH _ _ Hc' Ep').
Qed.


(** C37. The size of a frame is one of a few classes: it holds the frame, adds at most 63 bytes
    or a sixteenth, and a frame of that size is not padded again. *)
Theorem sizes_are_classes (length : N) :
  length < 2 ^ 63 ->
  length <= padded length <= length + N.max 63 (length / 16) /\ padded (padded length) = padded length.
Proof.
  intros Hl. assert (2 ^ 63 < 2 ^ 64) by done.
  destruct (padded_bounds length) as [H1 H2]; [lia|]. split; [done|]. by apply padded_padded.
Qed.

(** A snapshot of a terminal goes in parts that a frame holds, and the parts put together
    give the same checkpoint, with its metadata. *)
Theorem snapshots_come_back `{Libraries, !LibrariesLaws} (k : Checkpoint) (ps : list bytes) :
  new_checkpoint (k_snapshot k) (k_console k) = Some (without_metadata k) ->
  snapshot_parts k = Ok ps ->
  Forall (fun p => 1 <= len p <= KEYFRAME_PART) ps /\ snapshot (concat ps) = Ok k.
Proof.
  intros Hk E. by destruct (snapshot_back _ _ Hk E) as (? & ? & _).
Qed.

(** C38. Unpacking bytes of any kind ends: it gives at most as many bytes as its limit or an
    error, within the calls that the size of the input and the limit allow. *)
Theorem unpacking_ends `{Flate, !FlateLaws} (packed : bytes) (limit : N) :
  safe (inflate_all packed limit) /\
  forall body, inflate_all packed limit = Ok body -> len body <= limit.
Proof.
  split; [exact (@unpack_safe _ flate_packing_laws packed limit)|].
  intros body. exact (@unpack_limit _ flate_packing_laws packed limit body).
Qed.

(** [encode] does not bound the text of a result, and the other computer refuses a text of over
    4096 bytes, which ends its channel; the same holds of [Accept], [Refuse], [End] and
    [PictureState]. *)
Lemma long_result_is_refused `{Libraries} (result : ControlResult) (text : bytes) :
  to_vec result = Some text -> 4096 < len text -> len text <= 500000 ->
  (exists frame, encode (FControlResult result) = Ok frame) /\
  decode 15 text = Err (Invalid "Terminal frame exceeds its bound.").
Proof.
  intros Et Hlo Hhi. split.
  - unfold encode. cbn [encode_body]. unfold to_json. rewrite Et. cbn [ok_or mbind Result_bind]. cbv zeta.
    destruct (padded_bounds (HEADER + len text)) as [Hl Hh]; [unfold HEADER; change (2 ^ 64) with U64; unfold U64; lia|].
    assert ((HEADER + len text) / 16 <= HEADER + len text) by (apply N.div_le_upper_bound; lia).
    assert (padded (HEADER + len text) <= 1000100) by (unfold HEADER in *; lia).
    rewrite (proj2 (N.ltb_ge _ _)) by (unfold FRAME_LIMIT; lia). unfold u24.
    rewrite !(proj2 (N.ltb_lt _ _)) by lia. cbn [mbind Result_bind]. eauto.
  - cbn [decode]. unfold within. by rewrite (proj2 (N.ltb_lt _ _)).
Qed.

(** * A concrete library

    A stream that marks a text as it is, or as the one long text that it knows. *)

Module Example.
Definition long : bytes := plain_chunk (replicate 300 Byte.x61).

Definition enc (body : bytes) : bytes := if decide (body = long) then [Byte.x02] else Byte.x00 :: body.
Definition dec (input : bytes) : option bytes :=
match input with [] => None | b :: l => Some (if decide (b = Byte.x02) then long else l) end.

(** The bytes that a stream still gives, once it has its input. *)
Definition give (input : bytes) (all : option bytes) (room : N) :
option (option bytes * nat * bytes * Status) :=
all ← all;
let out := take (N.to_nat room) all in
let rest := drop (N.to_nat room) all in
Some (Some rest, length input, out, if decide (rest = []) then StreamEnd else StreamOk).

#[export] Instance flate : Flate := {
Compress := option bytes; Decompress := option bytes;
new_compress _ := None; new_decompress := None;
compress c input room :=
match c with None => give input (Some (enc input)) room | Some rest => give [] (Some rest) room end;
decompress d input room :=
match d with None => give input (dec input) room | Some rest => give [] (Some rest) room end;
deflate_bound n := n + 1;
reserve _ length additional := length + additional
}.

Lemma give_ok input all room :
0 < room -> exists c' used out status rest, give input (Some all) room = Some (c', used, out, status) /\
(used <= length input)%nat /\ all = out ++ rest /\ used = length input /\
(status = StreamEnd -> rest = []) /\ (status <> StreamEnd -> len out = room /\ c' = Some rest).
Proof.
intros Hr. unfold give. cbn [mbind option_bind]. eexists _, _, _, _, (drop (N.to_nat room) all). split; [done|].
split; [done|]. split; [by rewrite take_drop|]. split; [done|].
destruct (decide (drop (N.to_nat room) all = [])) as [E|E]; [done|]. split; [done|]. intros _. split; [|done].
destruct (Nat.le_gt_cases (length all) (N.to_nat room)); [by rewrite drop_ge in E|].
unfold len. rewrite length_take. lia.
Qed.

Lemma dec_enc body : dec (enc body) = Some body.
Proof. unfold enc. destruct (decide (body = long)) as [->|]; done. Qed.

#[export] Instance flate_laws : FlateLaws.
Proof.
refine {| Deflating c input packed :=
match c with None => packed = enc input | Some rest => input = [] /\ packed = rest end;
Inflating d input body :=
match d with None => input = enc body | Some rest => input = [] /\ body = rest end |}.
- intros. cbn. lia.
- intros d input room d' used out status. assert (Hg : forall input' all,
give input' all room = Some (d', used, out, status) -> (used <= length input')%nat /\ len out <= room).
{ intros input' [all|]; [|done]. unfold give. cbn [mbind option_bind]. intros [= <- <- <- <-].
split; [done|]. unfold len. rewrite length_take. lia. }
destruct d as [rest|]; cbn [decompress flate]; intros E; apply Hg in E; [|done]. cbn in E. lia.
- intros level body. exists (enc body). split; [done|]. split; [|split; [done|]].
+ unfold enc. cbn. destruct (decide _) as [->|]; [done|]. rewrite len_cons. lia.
+ unfold enc. by destruct (decide _).
- intros n. change (deflate_bound n) with (n + 1). generalize (n / 2). lia.
- intros c input packed room Hd Hr.
destruct c as [rest|]; [destruct Hd as [-> ->]|subst packed]; cbn [compress flate].
+ destruct (give_ok [] rest room Hr) as (c' & used & out & status & r & -> & Hu & Ea & _ & He & Hm).
exists c', used, out, status, r. repeat split; try done; [by apply Hm|].
destruct Hm as [_ ->]; [done|]. by rewrite drop_nil.
+ destruct (give_ok input (enc input) room Hr) as (c' & used & out & status & r & -> & Hu & Ea & Eu & He & Hm).
exists c', used, out, status, r. repeat split; try done; [by apply Hm|].
destruct Hm as [_ ->]; [done|]. by rewrite Eu, drop_all.
- intros d input body room Hd Hr.
destruct d as [rest|]; [destruct Hd as [-> ->]|subst input]; cbn [decompress flate].
+ destruct (give_ok [] rest room Hr) as (c' & used & out & status & r & -> & Hu & Ea & Eu & He & Hm).
exists c', used, out, status, r. repeat split; try done; try (by apply He); [by apply Hm|].
destruct Hm as [_ ->]; [done|]. by rewrite drop_nil.
+ rewrite dec_enc.
destruct (give_ok (enc body) body room Hr) as (c' & used & out & status & r & -> & Hu & Ea & Eu & He & Hm).
exists c', used, out, status, r. repeat split; try done; try (by apply He); [by apply Hm|].
destruct Hm as [_ ->]; [done|]. by rewrite Eu, drop_all.
Qed.

(** [serde_json] at a type of which it writes nothing. *)
Definition silent {T} : Serde T := {| to_vec _ := None; from_slice _ := None |}.
Lemma silent_laws {T} : @SerdeLaws T silent.
Proof. intros t text. done. Qed.

(** And at a type of which it writes one value. *)
Definition single {T} `{EqDecision T} (t0 : T) : Serde T := {|
to_vec t := if decide (t = t0) then Some [Byte.x31] else None;
from_slice text := if decide (text = [Byte.x31]) then Some t0 else None
|}.
Lemma single_laws {T} `{EqDecision T} (t0 : T) : @SerdeLaws T (single t0).
Proof. intros t text. cbn. destruct (decide (t = t0)) as [->|]; [|done]. by intros [= <-]. Qed.

Definition no_metadata : TerminalMetadata := MkMetadata [] None None None None None None.

Definition metadata_text : Serde TerminalMetadata := {|
to_vec m := match m with MkMetadata [] None None None None None None => Some [Byte.x31] | _ => None end;
from_slice text := if decide (text = [Byte.x31]) then Some no_metadata else None
|}.
Lemma metadata_text_laws : @SerdeLaws TerminalMetadata metadata_text.
Proof.
intros [us d t p s c k] text. cbn.
destruct us, d, t, p, s, c, k; try done. by intros [= <-].
Qed.

Definition request_array (r : CanvasRequest) : Value :=
match r with
| Read key revision offset => Array [Str key; number_value revision; number_value offset]
| Remove keys => Array [Null; Array (map Str keys)]
| Attach upload name offset data last page =>
Array [Str upload; Str name; number_value offset; Str data; Json.Bool last; Json.Bool page]
| Act Wake => Null
end.
Definition array_request (v : Value) : option CanvasRequest :=
match v with
| Array [Str key; Num (PosInt revision); Num (PosInt offset)] => Some (Read key revision offset)
| Array [Null; Array keys] => Remove <$> mapM ValueOps.as_str keys
| Array [Str upload; Str name; Num (PosInt offset); Str data; Json.Bool last; Json.Bool page] =>
Some (Attach upload name offset data last page)
| Null => Some (Act Wake)
| _ => None
end.

Definition interrupt : Value := object [("type", Str "interrupt")].

Definition with_packing (packing : Packing) : Libraries := {|
libraries_terminal := {| is_uuid _ := true; TERMINAL_VIEWERS_MOST := 32 |};
libraries_packing := packing;
SocketAddr := unit;
serde_value := single interrupt; serde_accept := silent; serde_refuse := silent; serde_end := silent;
serde_result := silent; serde_offer := silent; serde_picture := silent;
serde_metadata := metadata_text; serde_name := single ("plan", "Ana"); serde_addresses := silent;
request_value := request_array; value_request := array_request
|}.

Lemma with_packing_laws (packing : Packing) : PackingLaws -> @LibrariesLaws (with_packing packing).
Proof.
intros Hp. split; try apply silent_laws; try apply single_laws.
- exact Hp.
- apply metadata_text_laws.
- intros [key revision offset|keys|upload name offset data last page|[]]; try done. cbn.
assert (E : mapM ValueOps.as_str (map Str keys) = Some keys).
{ induction keys as [|k keys IH]; [done|]. cbn. by rewrite IH. }
by rewrite E.
- done.
Qed.

#[export] Instance libraries : Libraries := with_packing flate_packing.
#[export] Instance libraries_laws : LibrariesLaws.
Proof. apply with_packing_laws, flate_packing_laws. Qed.

Definition id : Uuid := replicate 16 Byte.x07.

Definition frames : list Frame := [
FKeyframe 7 true [Byte.x61; Byte.x62]; FOutput 7 [replicate 300 Byte.x61];
FOutput 8 [[]; [Byte.x63]]; FResize 24 80 (MkCell 9 18) 10;
FInput 0 1 [Byte.x6c; Byte.x73; Byte.x0d]; FControl id CtlInterrupt; FPipeOpen id "plan" "Ana";
FPipeData id false []; FHeartbeat 3 10; FMetadata no_metadata; FRefresh
].

Definition encoded : list bytes :=
map (fun f => match encode f with Ok e => e | _ => [] end) frames.

(** The bytes in pieces of [n], as a network that knows no frames carries them. *)
Fixpoint pieces (turns n : nat) (l : bytes) : list Message :=
match turns with
| O => []
| S turns => match l with [] => [] | _ => MkMessage (take n l) false :: pieces turns n (drop n l) end
end.

Definition messages : list Message :=
pieces 1000 5 (concat encoded) ++ [MkMessage [] true].

(** 74 bytes more than a screen's worth, and a record of the library before them. *)
Definition screen : bytes :=
SNAPSHOT_ENVELOPE ++ [Byte.x01; Byte.x00; Byte.x67; Byte.x00; Byte.x00; Byte.x00; Byte.x00; Byte.x00; Byte.x00; Byte.x00]
++ [Byte.x50; Byte.x00; Byte.x18; Byte.x00] ++ replicate 110 Byte.x00.

Definition checkpoint : Checkpoint :=
MkCheckpoint (Some no_metadata) (MkSize 24 80) (MkCell 0 0) screen true.
End Example.

Lemma frames_come_back_witness :
  receive_all 12 (MkChannel [] false) Example.messages = Ok Example.frames.
Proof.
  apply (@frames_come_back Example.libraries Example.libraries_laws Example.frames Example.encoded Example.messages).
  - unfold Example.encoded, Example.frames. cbn [map].
    repeat (apply Forall2_cons; split;
      [split; [vm_compute; done|split; [exact I|vm_compute; reflexivity]]|]). constructor.
  - vm_compute. repeat (split; [done|]). exact I.
  - vm_compute. reflexivity.
Defined.

Lemma sizes_are_classes_witness :
  1500 <= padded 1500 <= 1593 /\ padded (padded 1500) = padded 1500.
Proof. apply (sizes_are_classes 1500). reflexivity. Defined.

Lemma snapshots_come_back_witness :
  exists ps, Forall (fun p => 1 <= len p <= KEYFRAME_PART) ps /\
    @snapshot Example.libraries (concat ps) = Ok Example.checkpoint.
Proof.
  eexists. apply (@snapshots_come_back Example.libraries Example.libraries_laws Example.checkpoint); [vm_compute; reflexivity|].
  vm_compute. reflexivity.
Defined.


Lemma unpacking_ends_witness :
  let packed := map byte_of [0; 1; 2; 3] in
  safe (@inflate_all Example.flate packed 2) /\
  forall body, @inflate_all Example.flate packed 2 = Ok body -> len body <= 2.
Proof. exact (@unpacking_ends Example.flate Example.flate_laws (map byte_of [0; 1; 2; 3]) 2). Defined.
