(* ===== verification/Stream.v ===== *)
(** [runtime/src/network/terminal_connections/host.rs]: the host's side of the connection of
    one viewer, which sends the viewer the screen of a terminal and its output, and takes what
    the viewer types.

    What happens outside is an argument: the time, the window that the pacer computes from the
    speed of the link with floating-point numbers, the answer of the terminal to a request for a
    snapshot, and whether a queue had room.  The terminal publishes what it does in a broadcast
    channel of [tokio]: its receiver gives what was sent in order, and says that it lagged where
    it lost the oldest of it.  [channel] and [asked] are the frames that [Channel::send] sent
    and the requests that [HostRequest] sent, in order. *)

From S2P Require Import Prelude Json Utf Terminal Wire.
Open Scope N_scope.

Definition KEYFRAME_SPACING : N := 500.
Definition EXACT_AFTER_QUIET : N := 1000.
Definition LATE_HEARTBEATS : N := 2.
Definition UNCONFIRMED_INPUT : N := 262144.
Definition OUTPUT_FRAME : N := 32768.
Definition MOST_PIPES : N := 16.
Definition PIPE_PARTS_WAITING : N := 256.
Definition MOST_PIPE_FRAME : N := 67108864.
Definition TERMINAL_PICTURE_MAX_BYTES : N := 33554432.

Inductive StreamError : Type := SInvalid (reason : string) | SBusy | SClosed | SWire (e : WireError).

Definition wire {A} (r : Result WireError A) : Result StreamError A :=
  match r with Ok a => Ok a | Err e => Err (SWire e) | Panic => Panic end.

(** An unsigned subtraction, which panics below zero. *)
Definition nsub (a b : N) : Result StreamError N := if b <=? a then Ok (a - b) else Panic.

(** ** What the terminal publishes *)

Inductive PublishedFrame : Type :=
| PMetadata (metadata : TerminalMetadata)
| PBarrier (request_id : Uuid)
| PRaw (sequence : N) (output : bytes)
| PResize (rows cols : N) (cell : CellPixels) (at_sequence : N)
| PClosed (reason : string) (final_sequence : N).

Record Output : Type := MkOutput { lagged : bool; queue : list PublishedFrame; ended : bool }.

Inductive Received : Type := RecvFrame (f : PublishedFrame) | RecvLagged | RecvEmpty | RecvClosed.

(** [broadcast::Receiver::try_recv]. *)
Definition try_recv (o : Output) : Received * Output :=
  if lagged o then (RecvLagged, MkOutput false (queue o) (ended o))
  else match queue o with
       | f :: queue => (RecvFrame f, MkOutput false queue (ended o))
       | [] => (if ended o then RecvClosed else RecvEmpty, o)
       end.

(** ** The pacer, without the speed that it measures *)

Module Pacer.
Record t : Type := Mk { sent : N; acknowledged : N; bulk : N }.

Definition new : t := Mk 0 0 0.
Definition in_transit (p : t) : N := sent p - acknowledged p.
Definition room (window : N) (p : t) : bool := in_transit p <? window.
Definition note_sent (n : N) (p : t) : t := Mk (sent p + n) (acknowledged p) (bulk p).
Definition note_bulk (p : t) : t := Mk (sent p) (acknowledged p) (sent p).

Definition acknowledge (received : N) (p : t) : Result StreamError t :=
if (received <? acknowledged p) || (sent p <? received)
then Err (SInvalid "Terminal output acknowledgement is out of range.")
else Ok (Mk (sent p) received (bulk p)).
End Pacer.

(** ** Pictures, in [terminal/picture.rs] *)

Definition starts_with (prefix : list N) (l : bytes) : bool :=
  bool_decide (map Byte.to_N (take (length prefix) l) = prefix).

(** [PictureFormat::of]. *)
Definition format_of (l : bytes) : option PictureFormat :=
  if starts_with [137; 80; 78; 71; 13; 10; 26; 10] l then Some Png
  else if starts_with [255; 216; 255] l then Some Jpeg
  else if starts_with [71; 73; 70; 56; 55; 97] l || starts_with [71; 73; 70; 56; 57; 97] l then Some Gif
  else if (12 <=? len l) && starts_with [82; 73; 70; 70] l && starts_with [87; 69; 66; 80] (drop 8 l)
  then Some Webp
  else None.

Definition hex_digit (n : N) : N := if n <? 10 then 48 + n else 87 + n.

(** [hex]: two digits for each byte. *)
Definition hex (l : bytes) : string :=
  str_of (flat_map (fun b => [byte_of (hex_digit (Byte.to_N b / 16)); byte_of (hex_digit (Byte.to_N b mod 16))]) l).

Definition digit_value (c : N) : option N :=
  if (48 <=? c) && (c <=? 57) then Some (c - 48)
  else if (97 <=? c) && (c <=? 102) then Some (c - 87)
  else if (65 <=? c) && (c <=? 70) then Some (c - 55)
  else None.

(** [u8::from_str_radix] of two characters: a plus sign may come first. *)
Definition pair_value (a b : N) : option N :=
  y ← digit_value b;
  if a =? 43 then Some y else x ← digit_value a; Some (x * 16 + y).

Fixpoint pair_values (l : list N) : option (list N) :=
  match l with
  | a :: b :: l => v ← pair_value a b; vs ← pair_values l; Some (v :: vs)
  | _ => Some []
  end.

(** [picture_digest]. *)
Definition picture_digest (text : string) : option (list N) :=
  let l := map code (String.list_ascii_of_string text) in
  if negb (len l =? 64) || existsb (fun c => 127 <? c) l then None else pair_values l.

Record Picture `{Sha256} : Type := MkPictureFile {
  pic_bytes : bytes; pic_format : PictureFormat; pic_digest : bytes
}.

(** [Picture::new]. *)
Definition new_picture `{Sha256} (l : bytes) : option Picture :=
  if TERMINAL_PICTURE_MAX_BYTES <? len l then None
  else format ← format_of l; Some (MkPictureFile _ l format (sha256_of l)).

(** ** The state *)

Inductive Waiting : Type :=
| WOutput (sequence : N) (output : bytes)
| WResize (rows cols : N) (cell : CellPixels) (at_sequence : N).

Inductive Exact : Type := Held | Owed | Due.
#[export] Instance Exact_eq_dec : EqDecision Exact.
Proof. solve_decision. Defined.

Section stream.
Context `{Libraries, Sha256}.

Record CheckpointCut : Type := MkCut { cut_checkpoint : Checkpoint; cut_sequence : N }.

(** The fields of [Stream] that carry the screen. *)
Record Screen : Type := MkScreen {
parts : list bytes; waiting : list Waiting; waiting_bytes : N; live : bool; exact : Exact;
next_sequence : N; output_at : N; keyframe_bytes : N; keyframe_at : option N
}.

(** Those that take what the viewer types and asks: a future of [inputs] is the offset that it
confirms, and one of [controls] the request that it answers, with [answers]. *)
Record Typing : Type := MkTyping {
heartbeat : N; input_offset : N; input_confirmed : N; inputs : list N; controls : list (Uuid * bool)
}.

(** Those of documents: [PipeIn] is what fills, and its queue is outside. *)
Record Documents : Type := MkDocuments { pipes : gmap Uuid bytes; pipe_parts : list Frame }.

(** [Receiving]: a picture whose parts a view sends. *)
Record Receiving : Type := MkReceiving { r_offer : PictureOffer; r_bytes : bytes; r_asked : N }.

Record Pictures : Type := MkPictures {
picture : option Receiving; picture_answer : option PictureOffer
}.

(** What the stream asks the terminal. *)
Inductive Asked : Type :=
| AskedControl (control : TerminalControl)
| AskedDocument (key name : string)
| AskedKnown (digest : list N) (format : PictureFormat)
| AskedWhole (picture : Picture).

Record Stream : Type := MkStream {
channel : list Frame; asked : list Asked; output : Output; pacer : Pacer.t; screen : Screen;
metadata : option TerminalMetadata; typing : Typing; documents : Documents; pictures : Pictures
}.

(** Assignments to fields. *)
Definition with_output (s : Stream) output : Stream :=
MkStream (channel s) (asked s) output (pacer s) (screen s) (metadata s) (typing s) (documents s) (pictures s).
Definition with_pacer (s : Stream) pacer : Stream :=
MkStream (channel s) (asked s) (output s) pacer (screen s) (metadata s) (typing s) (documents s) (pictures s).
Definition with_screen (s : Stream) screen : Stream :=
MkStream (channel s) (asked s) (output s) (pacer s) screen (metadata s) (typing s) (documents s) (pictures s).
Definition with_metadata (s : Stream) metadata : Stream :=
MkStream (channel s) (asked s) (output s) (pacer s) (screen s) metadata (typing s) (documents s) (pictures s).
Definition with_typing (s : Stream) typing : Stream :=
MkStream (channel s) (asked s) (output s) (pacer s) (screen s) (metadata s) typing (documents s) (pictures s).
Definition with_documents (s : Stream) documents : Stream :=
MkStream (channel s) (asked s) (output s) (pacer s) (screen s) (metadata s) (typing s) documents (pictures s).
Definition with_pictures (s : Stream) pictures : Stream :=
MkStream (channel s) (asked s) (output s) (pacer s) (screen s) (metadata s) (typing s) (documents s) pictures.

Definition with_parts (c : Screen) parts : Screen :=
MkScreen parts (waiting c) (waiting_bytes c) (live c) (exact c) (next_sequence c) (output_at c)
(keyframe_bytes c) (keyframe_at c).
Definition with_waiting (c : Screen) waiting waiting_bytes : Screen :=
MkScreen (parts c) waiting waiting_bytes (live c) (exact c) (next_sequence c) (output_at c)
(keyframe_bytes c) (keyframe_at c).
Definition with_live (c : Screen) live exact : Screen :=
MkScreen (parts c) (waiting c) (waiting_bytes c) live exact (next_sequence c) (output_at c)
(keyframe_bytes c) (keyframe_at c).
Definition with_next (c : Screen) next_sequence : Screen :=
MkScreen (parts c) (waiting c) (waiting_bytes c) (live c) (exact c) next_sequence (output_at c)
(keyframe_bytes c) (keyframe_at c).
Definition with_output_at (c : Screen) output_at : Screen :=
MkScreen (parts c) (waiting c) (waiting_bytes c) (live c) (exact c) (next_sequence c) output_at
(keyframe_bytes c) (keyframe_at c).
Definition with_keyframe (c : Screen) keyframe_bytes keyframe_at : Screen :=
MkScreen (parts c) (waiting c) (waiting_bytes c) (live c) (exact c) (next_sequence c) (output_at c)
keyframe_bytes keyframe_at.

(** [Stream::new]. *)
Definition new (output : Output) (now : N) : Stream :=
MkStream [] [] output Pacer.new (MkScreen [] [] 0 false Owed 0 now 0 None) None
(MkTyping 0 0 0 [] []) (MkDocuments ∅ []) (MkPictures None None).

(** [Channel::send]: the frame goes when it can be encoded. *)
Definition send (f : Frame) (s : Stream) : Result StreamError (Stream * N) :=
encoded ← wire (encode f);
Ok (MkStream (channel s ++ [f]) (asked s) (output s) (pacer s) (screen s) (metadata s) (typing s)
(documents s) (pictures s), len encoded).

Definition send_only (f : Frame) (s : Stream) : Result StreamError Stream := fst <$> send f s.

(** [self.pacer.sent(..)] of a frame that carries output. *)
Definition paced (f : Frame) (sent : Stream * N) : Stream :=
if carries_output f then with_pacer (fst sent) (Pacer.note_sent (snd sent) (pacer (fst sent))) else fst sent.

(** ** The screen *)

(** [next_waiting]. *)
Fixpoint last_output (waiting : list Waiting) : option N :=
match waiting with
| [] => None
| w :: waiting =>
match last_output waiting with
| Some next => Some next
| None => match w with WOutput sequence _ => Some (sequence + 1) | WResize _ _ _ _ => None end
end
end.
Definition next_waiting (c : Screen) : N := default (next_sequence c) (last_output (waiting c)).

(** [behind]. *)
Definition behind (c : Screen) : Screen := with_waiting (with_live c false (exact c)) [] 0.

(** The output that goes in the frame of the first: at most [RAW_BATCH_LIMIT] chunks, and no
more bytes than [limit] after the first. *)
Fixpoint batch (limit size : N) (chunks : list bytes) (waiting : list Waiting) : list bytes * list Waiting :=
match waiting with
| WOutput sequence output :: rest =>
if (len chunks <? RAW_BATCH_LIMIT) && (size + len output <=? limit)
then batch limit (size + len output) (chunks ++ [output]) rest
else (chunks, waiting)
| _ => (chunks, waiting)
end.

(** [waiting_bytes -= bytes.len()] of each chunk. *)
Fixpoint less_bytes (total : N) (chunks : list bytes) : Result StreamError N :=
match chunks with
| [] => Ok total
| chunk :: chunks => total ← nsub total (len chunk); less_bytes total chunks
end.

(** The frame that [send_next] takes from what waits. *)
Definition next_frame (window : N) (c : Screen) : Result StreamError (option (Frame * Screen)) :=
match parts c with
| part :: rest =>
Ok (Some (FKeyframe (next_sequence c) (negb (bool_decide (rest = []))) part, with_parts c rest))
| [] =>
match waiting c with
| WResize rows cols cell at_sequence :: rest =>
Ok (Some (FResize rows cols cell at_sequence, with_waiting c rest (waiting_bytes c)))
| WOutput sequence output :: rest =>
let '(chunks, rest) := batch (N.min OUTPUT_FRAME window) (len output) [output] rest in
total ← less_bytes (waiting_bytes c) chunks;
Ok (Some (FOutput sequence chunks, with_next (with_waiting c rest total) (sequence + len chunks)))
| [] => Ok None
end
end.

Definition is_keyframe (f : Frame) : bool := match f with FKeyframe _ _ _ => true | _ => false end.

Definition send_next (window : N) (s : Stream) : Result StreamError Stream :=
next ← next_frame window (screen s);
match next with
| None => Ok s
| Some (frame, screen) =>
sent ← send frame (with_screen s screen);
let s := paced frame sent in
Ok (if is_keyframe frame then with_pacer s (Pacer.note_bulk (pacer s)) else s)
end.

(** [skip]: drops what was published before the barrier of a snapshot. *)
Inductive Skip : Type := Reached | Lost | SkipEnded (end_ : End).

Fixpoint skip_frames (marker : Uuid) (queue : list PublishedFrame) : Skip * list PublishedFrame :=
match queue with
| [] => (Lost, [])
| PBarrier id :: queue => if decide (id = marker) then (Reached, queue) else skip_frames marker queue
| PClosed reason final :: queue => (SkipEnded (MkEnd final reason), queue)
| _ :: queue => skip_frames marker queue
end.

(** A receiver that lagged says so first, and [skip] goes on. *)
Definition skip (marker : Uuid) (o : Output) : Skip * Output :=
let '(r, queue) := skip_frames marker (queue o) in (r, MkOutput false queue (ended o)).

Inductive Captured : Type := Cut (cut : CheckpointCut) | Again | CutEnded (end_ : End).

(** [cut]: [answer] is what the terminal answered to the request with this marker, if the
request went and the answer came in time. *)
Definition cut (now : N) (marker : Uuid) (answer : option CheckpointCut) (s : Stream) : Captured * Stream :=
let s := with_screen s (with_keyframe (screen s) (keyframe_bytes (screen s)) (Some now)) in
match answer with
| None => (Again, s)
| Some cut =>
let '(r, o) := skip marker (output s) in
(match r with Reached => Cut cut | Lost => Again | SkipEnded end_ => CutEnded end_ end, with_output s o)
end.

(** Whether [capture] asks for the history too. *)
Definition wants_full (window : N) (c : Screen) : bool :=
bool_decide (exact c = Due) || ((0 <? keyframe_bytes c) && (keyframe_bytes c <=? window / 2)).

Definition capture (now window : N) (marker : Uuid) (answer : option CheckpointCut) (s : Stream) :
Result StreamError (Stream * option End) :=
let full := wants_full window (screen s) in
match cut now marker answer s with
| (Again, s) => Ok (s, None)
| (CutEnded end_, s) => Ok (s, Some end_)
| (Cut cut, s) =>
parts ← wire (snapshot_parts (cut_checkpoint cut));
let c := screen s in
let keyframe_bytes := if full then sum_list_with length parts else N.to_nat (keyframe_bytes c) in
Ok (with_metadata (with_screen s
(MkScreen parts [] 0 true (if full then Held else Owed) (cut_sequence cut) (output_at c)
(N.of_nat keyframe_bytes) (keyframe_at c))) None, None)
end.

(** One turn of the loop of [advance_terminal]. *)
Inductive Turn : Type := TurnAgain | TurnReturn | TurnEnded (end_ : End).

Definition idle (s : Stream) : bool := bool_decide (parts (screen s) = []) && (Pacer.in_transit (pacer s) =? 0).

Definition advance_turn (now window : N) (marker : Uuid) (answer : option CheckpointCut) (s : Stream) :
Result StreamError (Stream * Turn) :=
let c := screen s in
if negb (live c) && idle s then
match keyframe_at c with
| Some at' => if now - at' <? KEYFRAME_SPACING then Ok (s, TurnReturn)
else
'(s, end_) ← capture now window marker answer s;
Ok (s, match end_ with Some end_ => TurnEnded end_
| None => if live (screen s) then TurnAgain else TurnReturn end)
| None =>
'(s, end_) ← capture now window marker answer s;
Ok (s, match end_ with Some end_ => TurnEnded end_
| None => if live (screen s) then TurnAgain else TurnReturn end)
end
else if negb (bool_decide (parts c <> []) || (live c && bool_decide (waiting c <> []))) then Ok (s, TurnReturn)
else if negb (Pacer.room window (pacer s)) then Ok (s, TurnReturn)
else s ← send_next window s; Ok (s, TurnAgain).

(** [published]: one thing that the terminal published, or that some were lost. *)
Definition published (now window : N) (r : Received) (s : Stream) : Stream * option End :=
let c := screen s in
match r with
| RecvFrame (PMetadata current) => (with_metadata s (Some current), None)
| RecvFrame (PBarrier _) => (s, None)
| RecvFrame (PRaw sequence output) =>
if negb (live c) then (s, None)
else
let expected := next_waiting c in
if sequence <? expected then (s, None)
else if negb (sequence =? expected) then (with_screen s (behind c), None)
else
let c := with_waiting (with_output_at c now) (waiting c ++ [WOutput sequence output])
(waiting_bytes c + len output) in
(with_screen s (if window <? waiting_bytes c then behind c else c), None)
| RecvFrame (PResize rows cols cell at_sequence) =>
if live c && (next_waiting c <=? at_sequence)
then (with_screen s (with_waiting c (waiting c ++ [WResize rows cols cell at_sequence]) (waiting_bytes c)), None)
else (s, None)
| RecvFrame (PClosed reason final_sequence) => (s, Some (MkEnd final_sequence reason))
| RecvLagged => (with_screen s (behind c), None)
| RecvClosed => (s, Some (MkEnd (next_sequence c) "Terminal closed."))
| RecvEmpty => (s, None)
end.

(** The turns of the arm of [serve] that reads the output: a turn handles what it has and then
takes the next; after the last turn what was taken is dropped. *)
Fixpoint pump (turns : nat) (now window : N) (next : option Received) (s : Stream) : Stream * option End :=
match turns, next with
| O, _ | _, None => (s, None)
| S turns, Some r =>
match published now window r s with
| (s, Some end_) => (s, Some end_)
| (s, None) =>
let '(r, o) := try_recv (output s) in
pump turns now window (match r with RecvEmpty => None | _ => Some r end) (with_output s o)
end
end.

(** [drain], with a turn for each thing that waits. *)
Fixpoint drain_turns (turns : nat) (window : N) (s : Stream) : Result StreamError Stream :=
let c := screen s in
if bool_decide (parts c <> []) || (live c && bool_decide (waiting c <> [])) then
match turns with
| O => Panic
| S turns => s ← send_next window s; drain_turns turns window s
end
else Ok s.

Definition drain (window : N) (s : Stream) : Result StreamError Stream :=
drain_turns (length (parts (screen s)) + length (waiting (screen s))) window s.

(** ** What the viewer types *)

Definition ask (a : Asked) (s : Stream) : Stream :=
MkStream (channel s) (asked s ++ [a]) (output s) (pacer s) (screen s) (metadata s) (typing s)
(documents s) (pictures s).

(** [submit] and [submit_picture]: [refused] is why the request did not go, if it did not. *)
Definition submit (a : Asked) (refused : option StreamError) (s : Stream) : Result StreamError Stream :=
match refused with Some e => Err e | None => Ok (ask a s) end.

(** The arm of [received] for input. *)
Definition received_input (offset heartbeat' : N) (input : bytes) (refused : option StreamError)
(s : Stream) : Result StreamError Stream :=
let t := typing s in
unconfirmed ← (if negb (offset =? input_offset t) then Ok 0 else nsub (input_offset t) (input_confirmed t));
if negb (offset =? input_offset t) || (UNCONFIRMED_INPUT <? unconfirmed)
then Err (SInvalid "Terminal input is out of order.")
else if LATE_HEARTBEATS <? (heartbeat t + U32 - heartbeat') mod U32
then Err (SInvalid "Terminal input arrived too late, and the host did not use it.")
else
let end_ := input_offset t + len input in
s ← submit (AskedControl (CtlInput input)) refused
(with_typing s (MkTyping (heartbeat t) end_ (input_confirmed t) (inputs t) (controls t)));
let t := typing s in
Ok (with_typing s (MkTyping (heartbeat t) (input_offset t) (input_confirmed t) (inputs t ++ [end_]) (controls t))).

(** Its arm for a control; the answer comes with [answered]. *)
Definition received_control (request_id : Uuid) (control : TerminalControl) (refused : option StreamError)
(s : Stream) : Result StreamError Stream :=
let t := typing s in
if 64 <=? len (controls t) then Err SBusy
else
let answers := match control with CtlCanvas _ => true | _ => false end in
s ← submit (AskedControl control) refused s;
let t := typing s in
Ok (with_typing s (MkTyping (heartbeat t) (input_offset t) (input_confirmed t) (inputs t)
(controls t ++ [(request_id, answers)]))).

(** The frame that answers a control, from what the terminal answered. *)
Definition control_answer (request_id : Uuid) (answers : bool) (result : Value + string) : Frame :=
match result with
| inl value =>
if answers then
if answer_fits value then FControlValue request_id value
else FControlResult (MkControlResult request_id false "The answer does not fit one message.")
else FControlResult (MkControlResult request_id true "")
| inr message => FControlResult (MkControlResult request_id false message)
end.

(** The arm of [serve] for a control that is answered. *)
Definition answered (i : nat) (result : Value + string) (s : Stream) : Result StreamError Stream :=
let t := typing s in
match controls t !! i with
| None => Ok s
| Some (request_id, answers) =>
send_only (control_answer request_id answers result)
(with_typing s (MkTyping (heartbeat t) (input_offset t) (input_confirmed t) (inputs t) (delete i (controls t))))
end.

(** The arm of [serve] for input that the terminal took, in the order that it came. *)
Definition input_done (accepted : bool) (s : Stream) : Result StreamError Stream :=
let t := typing s in
match inputs t with
| [] => Ok s
| offset :: inputs =>
let s := with_typing s (MkTyping (heartbeat t) (input_offset t) (input_confirmed t) inputs (controls t)) in
if accepted then
send_only (FInputAck offset)
(with_typing s (MkTyping (heartbeat t) (input_offset t) offset inputs (controls t)))
else Err (SInvalid "The terminal did not accept input from this connection.")
end.

(** The arm of [serve] for the heartbeat; [silent] is that the viewer was not heard of. *)
Definition beat (silent : bool) (s : Stream) : Result StreamError Stream :=
if silent then Err (SInvalid "The viewer did not answer.")
else
let t := typing s in
let number := (heartbeat t + 1) mod U32 in
send_only (FHeartbeat number (next_sequence (screen s)))
(with_typing s (MkTyping number (input_offset t) (input_confirmed t) (inputs t) (controls t))).

(** ** Documents *)

(** [left]: a frame of a document, in parts, or its end. *)
Inductive Leaving : Type := LeavingFrame (pipe : Uuid) (frame : bytes) | LeavingClosed (pipe : Uuid).

Fixpoint pipe_chunks (turns : nat) (pipe : Uuid) (frame : bytes) : list Frame :=
match turns with
| O => []
| S turns =>
if len frame =? 0 then []
else
let rest := drop (N.to_nat PIPE_PART) frame in
FPipeData pipe (negb (len rest =? 0)) (take (N.to_nat PIPE_PART) frame) :: pipe_chunks turns pipe rest
end.

Definition left (l : Leaving) (s : Stream) : Stream :=
let d := documents s in
match l with
| LeavingClosed pipe =>
with_documents s (MkDocuments (delete pipe (pipes d)) (pipe_parts d ++ [FPipeClose pipe]))
| LeavingFrame pipe frame =>
with_documents s (MkDocuments (pipes d) (pipe_parts d ++ pipe_chunks (length frame) pipe frame))
end.

(** [open_pipe]: the task that it starts asks the terminal for the document. *)
Definition open_pipe (pipe : Uuid) (key name : string) (s : Stream) : Stream :=
let d := documents s in
if MOST_PIPES <=? N.of_nat (size (pipes d))
then with_documents s (MkDocuments (pipes d) (pipe_parts d ++ [FPipeClose pipe]))
else ask (AskedDocument key name) (with_documents s (MkDocuments (<[pipe := []]> (pipes d)) (pipe_parts d))).

(** [pipe_part]: [room] is that the queue of the document took a whole frame. *)
Definition pipe_part (pipe : Uuid) (more : bool) (part : bytes) (room : bool) (s : Stream) :
Result StreamError Stream :=
let d := documents s in
match pipes d !! pipe with
| None => Ok s
| Some filling =>
if MOST_PIPE_FRAME <? len filling + len part then Err (SInvalid "A document frame exceeds its bound.")
else if more then
Ok (with_documents s (MkDocuments (<[pipe := filling ++ part]> (pipes d)) (pipe_parts d)))
else if room then
Ok (with_documents s (MkDocuments (<[pipe := []]> (pipes d)) (pipe_parts d)))
else
Ok (with_documents s (MkDocuments (delete pipe (pipes d)) (pipe_parts d ++ [FPipeClose pipe])))
end.

(** A turn of [send_pipe_parts]: terminal output goes first. *)
Definition send_pipe_part (window : N) (s : Stream) : Result StreamError Stream :=
let c := screen s in
match pipe_parts (documents s) with
| [] => Ok s
| frame :: rest =>
if bool_decide (parts c = []) && (negb (live c) || bool_decide (waiting c = [])) && Pacer.room window (pacer s)
then sent ← send frame (with_documents s (MkDocuments (pipes (documents s)) rest)); Ok (paced frame sent)
else Ok s
end.

(** ** Pictures *)

Definition picture_state (offer : PictureOffer) (step : PictureStep) (message : string) : Frame :=
FPictureState (MkPicture (po_id offer) (if decide (step = Pasted) then po_size offer else 0) 0 step message).

(** [picture_answered]: [memory] is that there is room for another picture. *)
Definition picture_answered (offer : PictureOffer) (answer : bool + string) (memory : bool) (now : N)
(s : Stream) : Result StreamError Stream :=
match answer with
| inl true => send_only (picture_state offer Pasted "") s
| inr message => send_only (picture_state offer Refused message) s
| inl false =>
if memory then
send_only (picture_state offer Wire.Receiving "")
(with_pictures s (MkPictures (Some (MkReceiving offer [] now)) (picture_answer (pictures s))))
else
send_only (picture_state offer Refused
"The other computer is receiving other pictures. Paste it again in a moment.") s
end.

(** [offered]. *)
Definition offered (offer : PictureOffer) (refused : option StreamError) (s : Stream) : Result StreamError Stream :=
match picture_digest (po_sha256 offer) with
| Some digest =>
if (0 <? po_size offer) && (po_size offer <=? TERMINAL_PICTURE_MAX_BYTES) then
s ← submit (AskedKnown digest (po_format offer)) refused (with_pictures s (MkPictures None None));
Ok (with_pictures s (MkPictures (picture (pictures s)) (Some offer)))
else Err (SInvalid "The picture offer is not valid.")
| None => Err (SInvalid "The picture offer is not valid.")
end.

(** [paste]. *)
Definition paste (r : Receiving) (refused : option StreamError) (memory : bool) (now : N) (s : Stream) :
Result StreamError Stream :=
let offer := r_offer r in
match new_picture (r_bytes r) with
| Some picture' =>
if String.eqb (hex (pic_digest picture')) (po_sha256 offer) && bool_decide (pic_format picture' = po_format offer) then
s ← submit (AskedWhole picture') refused s;
Ok (with_pictures s (MkPictures (picture (pictures s)) (Some offer)))
else picture_answered offer (inr "The picture arrived damaged. Paste it again.") memory now s
| None => picture_answered offer (inr "The picture arrived damaged. Paste it again.") memory now s
end.

(** [part]: [now] in microseconds. *)
Definition picture_part (id : Uuid) (offset : N) (l : bytes) (refused : option StreamError) (memory : bool)
(now : N) (s : Stream) : Result StreamError Stream :=
match picture (pictures s) with
| Some r =>
if negb (bool_decide (po_id (r_offer r) = id) && (offset =? len (r_bytes r)))
then Err (SInvalid "A picture part arrived out of order.")
else if po_size (r_offer r) <? offset + len l then Err (SInvalid "A picture part exceeds its picture.")
else
let r := MkReceiving (r_offer r) (r_bytes r ++ l) (r_asked r) in
s ← send_only (FPictureState (MkPicture id (len (r_bytes r)) (N.min (now - r_asked r) (U64 - 1)) Wire.Receiving ""))
(with_pictures s (MkPictures (Some r) (picture_answer (pictures s))));
if len (r_bytes r) =? po_size (r_offer r)
then paste r refused memory now (with_pictures s (MkPictures None (picture_answer (pictures s))))
else Ok s
| None => Err (SInvalid "A picture part arrived out of order.")
end.

(** ** What comes from the viewer *)

(** What the world outside answers while a frame is handled. *)
Record Answers : Type := MkAnswers {
an_now : N; an_refused : option StreamError; an_room : bool; an_memory : bool; an_addresses : list SocketAddr
}.

(** [received]. *)
Definition received (a : Answers) (f : Frame) (s : Stream) : Result StreamError Stream :=
match f with
| FAck n => pacer ← Pacer.acknowledge n (pacer s); Ok (with_pacer s pacer)
| FRefresh =>
let c := screen s in
Ok (with_screen s (behind (with_live c (live c) (if decide (exact c = Held) then Owed else exact c))))
| FInput offset heartbeat input => received_input offset heartbeat input (an_refused a) s
| FControl request_id control => received_control request_id control (an_refused a) s
| FPipeOpen pipe key name => Ok (open_pipe pipe key name s)
| FPipeData pipe more part => pipe_part pipe more part (an_room a) s
| FPipeClose pipe =>
let d := documents s in Ok (with_documents s (MkDocuments (delete pipe (pipes d)) (pipe_parts d)))
| FDirectAsk pipe => send_only (FDirectOffer pipe (an_addresses a)) s
| FPicture offer => offered offer (an_refused a) s
| FPicturePart id offset l => picture_part id offset l (an_refused a) (an_memory a) (an_now a) s
| _ => Err (SInvalid "Unsupported terminal viewer frame.")
end.

(** ** The loop *)

(** What [serve] does next: a turn of [advance], or an arm of its [select]. *)
Inductive Event : Type :=
| EvAdvance (marker : Uuid) (answer : option CheckpointCut)
| EvPipePart
| EvInputDone (accepted : bool)
| EvAnswered (i : nat) (result : Value + string)
| EvPictureAnswered (answer : bool + string)
| EvHeartbeat (silent : bool)
| EvMetadata
| EvReceived (f : Frame)
| EvPublished
| EvLeft (l : Leaving)
| EvExact.

(** When [serve] asks for the snapshot with the history, if it owes one. *)
Definition exact_at (s : Stream) : option N :=
let c := screen s in
if bool_decide (exact c = Owed) && live c && idle s && bool_decide (waiting c = []) then
let quiet := output_at c + EXACT_AFTER_QUIET in
Some (match keyframe_at c with Some at' => N.max quiet (at' + KEYFRAME_SPACING) | None => quiet end)
else None.

(** [serve] goes on, or it returns after the end. *)
Inductive Served : Type := Serving | ServedEnd.

Definition serving (s : Stream) : Stream * Served := (s, Serving).

(** The end goes to the viewer as the last frame. *)
Definition send_end (end_ : End) (s : Stream) : Result StreamError (Stream * Served) :=
s ← send_only (FEnd end_) s; Ok (s, ServedEnd).

Definition serve_step (a : Answers) (window : N) (e : Event) (s : Stream) : Result StreamError (Stream * Served) :=
match e with
| EvAdvance marker answer =>
'(s, turn) ← advance_turn (an_now a) window marker answer s;
match turn with TurnEnded end_ => send_end end_ s | _ => Ok (serving s) end
| EvPipePart => serving <$> send_pipe_part window s
| EvInputDone accepted => serving <$> input_done accepted s
| EvAnswered i result => serving <$> answered i result s
| EvPictureAnswered answer =>
match picture_answer (pictures s) with
| Some offer =>
serving <$> picture_answered offer answer (an_memory a) (an_now a)
(with_pictures s (MkPictures (picture (pictures s)) None))
| None => Ok (serving s)
end
| EvHeartbeat silent => serving <$> beat silent s
| EvMetadata =>
match metadata s with
| Some current =>
if live (screen s) then serving <$> send_only (FMetadata current) (with_metadata s None) else Ok (serving s)
| None => Ok (serving s)
end
| EvReceived f => serving <$> received a f s
| EvPublished =>
let '(r, o) := try_recv (output s) in
match r with
| RecvEmpty => Ok (serving s)
| _ =>
match pump (N.to_nat RAW_BATCH_LIMIT) (an_now a) window (Some r) (with_output s o) with
| (s, Some end_) => s ← drain window s; send_end end_ s
| (s, None) => Ok (serving s)
end
end
| EvLeft l => Ok (serving (if N.of_nat (length (pipe_parts (documents s))) <? PIPE_PARTS_WAITING then left l s else s))
| EvExact =>
Ok (serving match exact_at s with
| Some at' => if at' <=? an_now a then with_screen s (with_live (screen s) false Due) else s
| None => s
end)
end.
End stream.
