(* ===== verification/Viewer.v ===== *)
(** [runtime/src/network/terminal_connections/participant.rs]: the viewer's side of the
    connection to a terminal on another computer.

    As in [Stream], what happens outside is an argument ([World]): the time, the ids that are
    made, whether the view still takes updates and whether a document's queue has room.
    [sent], [updates] and [replies] are what [Channel::send], [updates.send] and the replies of
    requests gave, in order; a reply has the number of its request.  The speed at which the
    parts of a picture arrive, a floating-point number, only decides when the next part goes:
    [fits] says that it may. *)

From S2P Require Import Prelude Json Utf Terminal Wire Stream.
Open Scope N_scope.

Module Viewer.
Definition ACKNOWLEDGE_BYTES : N := 4096.
Definition ACKNOWLEDGE_DELAY : N := 100.
Definition UNCONFIRMED_INPUT : N := 65536.
Definition PROGRESS_SPACING : N := 100.
Definition CONTROL_TIMEOUT : N := 12000.
Definition CHANNEL_SILENCE : N := 45000.
Definition PICTURE_NOT_CONFIRMED : string := "The other computer did not confirm the picture. Paste it again.".
Definition NOT_CONFIRMED : string := "The host did not confirm the operation, and Kodosi did not send it again.".
Definition NOT_STARTED : string := "Wait for the terminal snapshot before sending input.".

Section viewer.
Context `{Libraries, Sha256}.

(** [RemoteUpdate]. *)
Inductive RemoteUpdate : Type :=
| UEnded
| UCheckpoint (checkpoint : Checkpoint) (next_sequence : N)
| URaw (sequence : N) (output : bytes)
| UMetadata (metadata : TerminalMetadata)
| UResize (rows cols : N) (cell : CellPixels) (at_sequence : N)
| UResync
| UClosed (reason : string)
| UPicture (sent total : N).

Inductive RemoteRequest : Type :=
| RControl (control : TerminalControl) (reply : N)
| RCheckpoint
| RPipeOpen (pipe : Uuid) (key name : string)
| RPipeData (pipe : Uuid) (more : bool) (part : bytes)
| RPipeClose (pipe : Uuid)
| RDirectAsk (pipe : Uuid) (reply : N)
| RPicture (picture : Picture) (reply : N).

(** [Upload]; [parts] holds where each part in transit ends and when it left. *)
Record Upload : Type := MkUpload {
up_id : Uuid; up_picture : Picture; up_reply : N; up_asked : bool; up_sent : N; up_received : N;
up_parts : list (N * N); up_round_trip : option N; up_told : N; up_deadline : N
}.

Record Pending : Type := MkPending { p_reply : N; p_deadline : N; p_closes : bool }.

(** What a reply carries: a value, the addresses of a host, or an error. *)
Inductive Reply : Type := ReplyValue (v : Value) | ReplyDone | ReplyAddresses (l : list SocketAddr) | ReplyError (e : StreamError).

(** What went out. *)
Record Out : Type := MkOut { sent : list Frame; updates : list RemoteUpdate; replies : list (N * Reply) }.

(** The fields of [Viewer] that build a snapshot, *)
Record View : Type := MkView { snapshot : bytes; snapshot_sequence : option N; started : bool; ended : bool }.
(** that acknowledge output, *)
Record Acks : Type := MkAcks { received : N; acknowledged : N; acknowledge_at : option N; heard : N }.
(** of what is typed, *)
Record Typed : Type := MkTyped { heartbeat : N; input_sent : N; input_confirmed : N }.
(** and of what waits for an answer. *)
Record Waits : Type := MkWaits {
pending : gmap Uuid Pending; pipes : gmap Uuid bytes; asking : gmap Uuid N; upload : option Upload
}.

Record t : Type := Mk { out : Out; view : View; acks : Acks; typed : Typed; waits : Waits }.

Record World : Type := MkWorld { w_now : N; w_id : Uuid; w_open : bool; w_room : bool }.

(** Assignments to fields. *)
Definition with_out (v : t) out : t := Mk out (view v) (acks v) (typed v) (waits v).
Definition with_view (v : t) view : t := Mk (out v) view (acks v) (typed v) (waits v).
Definition with_acks (v : t) acks : t := Mk (out v) (view v) acks (typed v) (waits v).
Definition with_typed (v : t) typed : t := Mk (out v) (view v) (acks v) typed (waits v).
Definition with_waits (v : t) waits : t := Mk (out v) (view v) (acks v) (typed v) waits.
Definition with_pending (v : t) pending : t :=
with_waits v (MkWaits pending (pipes (waits v)) (asking (waits v)) (upload (waits v))).
Definition with_pipes (v : t) pipes : t :=
with_waits v (MkWaits (pending (waits v)) pipes (asking (waits v)) (upload (waits v))).
Definition with_asking (v : t) asking : t :=
with_waits v (MkWaits (pending (waits v)) (pipes (waits v)) asking (upload (waits v))).
Definition with_upload (v : t) upload : t :=
with_waits v (MkWaits (pending (waits v)) (pipes (waits v)) (asking (waits v)) upload).

(** [Viewer::new]. *)
Definition new (now : N) : t :=
Mk (MkOut [] [] []) (MkView [] None false false) (MkAcks 0 0 None now) (MkTyped 0 0 0)
(MkWaits ∅ ∅ ∅ None).

(** [Channel::send]. *)
Definition send (f : Frame) (v : t) : Result StreamError t :=
_ ← wire (encode f);
Ok (with_out v (MkOut (sent (out v) ++ [f]) (updates (out v)) (replies (out v)))).

(** [update]. *)
Definition update (w : World) (u : RemoteUpdate) (v : t) : Result StreamError t :=
if w_open w then Ok (with_out v (MkOut (sent (out v)) (updates (out v) ++ [u]) (replies (out v))))
else Err SClosed.

Definition tell (reply : N) (r : Reply) (v : t) : t :=
with_out v (MkOut (sent (out v)) (updates (out v)) (replies (out v) ++ [(reply, r)])).

(** [unconfirmed]. *)
Definition unconfirmed (reason : string) (v : t) : Result StreamError string :=
n ← nsub (input_sent (typed v)) (input_confirmed (typed v));
Ok (if n =? 0 then reason else String.append reason " Kodosi did not send some of your last input.").

(** [settle]: [gone] is that the service answered 404. *)
Definition settle (gone : bool) (v : t) : t :=
if negb (ended (view v)) && negb gone then v
else
map_fold (fun _ p v => if p_closes p then tell (p_reply p) ReplyDone v else v)
(with_pending v ∅) (pending (waits v)).

(** [acknowledge]. *)
Definition acknowledge (v : t) : Result StreamError t :=
let a := acks v in
let v := with_acks v (MkAcks (received a) (acknowledged a) None (heard a)) in
if received a =? acknowledged a then Ok v
else send (FAck (received a)) (with_acks v (MkAcks (received a) (received a) None (heard a))).

(** ** Requests *)

(** [pipe_request]; [closed] are the askings whose reply nobody waits for. *)
Definition pipe_request (closed : Uuid -> bool) (r : RemoteRequest) (v : t) : Result StreamError t :=
match r with
| RPipeOpen pipe key name =>
send (FPipeOpen pipe key name) (with_pipes v (<[pipe := []]> (pipes (waits v))))
| RPipeData pipe more part => send (FPipeData pipe more part) v
| RPipeClose pipe => send (FPipeClose pipe) (with_pipes v (delete pipe (pipes (waits v))))
| RDirectAsk pipe reply =>
send (FDirectAsk pipe)
(with_asking v (<[pipe := reply]> (filter (fun kv : Uuid * N => closed kv.1 = false) (asking (waits v)))))
| RControl _ _ | RPicture _ _ | RCheckpoint => Ok v
end.

(** [offer]. *)
Definition offer (w : World) (picture : Picture) (reply : N) (v : t) : Result StreamError t :=
if negb (started (view v)) then
Ok (tell reply (ReplyError (SInvalid "Wait for the terminal snapshot before sending a picture.")) v)
else match upload (waits v) with
| Some _ => Ok (tell reply (ReplyError SBusy) v)
| None =>
v ← send (FPicture (MkOffer (w_id w) (len (pic_bytes picture)) (hex (pic_digest picture)) (pic_format picture))) v;
Ok (with_upload v (Some (MkUpload (w_id w) picture reply false 0 0 [] None (w_now w) (w_now w + CONTROL_TIMEOUT))))
end.

(** [request]. *)
Definition request (w : World) (closed : Uuid -> bool) (r : RemoteRequest) (v : t) : Result StreamError t :=
match r with
| RCheckpoint => if started (view v) then send FRefresh v else Ok v
| RControl (CtlInput input) reply =>
if negb (started (view v)) then Ok (tell reply (ReplyError (SInvalid NOT_STARTED)) v)
else if len input =? 0 then Ok (tell reply ReplyDone v)
else
let k := typed v in
let frame := FInput (input_sent k) (heartbeat k) input in
match wire (encode frame) with
| Err e => Ok (tell reply (ReplyError e) v)
| Panic => Panic
| Ok _ =>
v ← send frame v;
Ok (tell reply ReplyDone (with_typed v (MkTyped (heartbeat k) (input_sent k + len input) (input_confirmed k))))
end
| RPicture picture reply => offer w picture reply v
| RControl control reply =>
if negb (started (view v)) then Ok (tell reply (ReplyError (SInvalid NOT_STARTED)) v)
else if 128 <=? N.of_nat (size (pending (waits v))) then Ok (tell reply (ReplyError SBusy) v)
else
let closes := match control with CtlClose => true | _ => false end in
let frame := FControl (w_id w) control in
match wire (encode frame) with
| Err e => Ok (tell reply (ReplyError e) v)
| Panic => Panic
| Ok _ =>
v ← send frame v;
Ok (with_pending v (<[w_id w := MkPending reply (w_now w + CONTROL_TIMEOUT) closes]> (pending (waits v))))
end
| pipe => pipe_request closed pipe v
end.

(** ** Pictures *)

(** [Upload::wants_part]; [fits] compares what is in transit with the speed. *)
Definition wants_part (fits : bool) (u : Upload) : Result StreamError bool :=
if up_asked u && (up_sent u <? len (pic_bytes (up_picture u))) then
if up_sent u =? up_received u then Ok true
else _ ← nsub (up_sent u) (up_received u); Ok fits
else Ok false.

(** [Upload::part]. *)
Definition part (now : N) (u : Upload) : Result StreamError (Frame * Upload) :=
let picture := pic_bytes (up_picture u) in
let end_ := N.min (len picture) (up_sent u + PICTURE_PART) in
part ← wire (slice (up_sent u) end_ picture);
Ok (FPicturePart (up_id u) (up_sent u) part,
MkUpload (up_id u) (up_picture u) (up_reply u) (up_asked u) end_ (up_received u)
(up_parts u ++ [(end_, now)]) (up_round_trip u) (up_told u) (up_deadline u)).

Definition shorter (trip : N) (round_trip : option N) : option N :=
if trip =? 0 then round_trip else Some (match round_trip with Some r => N.min r trip | None => trip end).

(** The parts that arrived, with the shortest round trip. *)
Fixpoint arrived (received now : N) (parts : list (N * N)) (round_trip : option N) : list (N * N) * option N :=
match parts with
| (end_, left) :: rest =>
if end_ <=? received then arrived received now rest (shorter (now - left) round_trip)
else (parts, round_trip)
| [] => ([], round_trip)
end.

(** [Upload::received], without the speed. *)
Definition upload_received (received now : N) (u : Upload) : Result StreamError Upload :=
if (received <? up_received u) || (up_sent u <? received)
then Err (SInvalid "The host confirmed bytes of the picture that were not sent.")
else
let '(parts, round_trip) := arrived received now (up_parts u) (up_round_trip u) in
Ok (MkUpload (up_id u) (up_picture u) (up_reply u) (up_asked u) (up_sent u) received parts round_trip
(up_told u) (up_deadline u)).

(** [send_part]. *)
Definition send_part (w : World) (v : t) : Result StreamError t :=
match upload (waits v) with
| None => Ok v
| Some u => '(frame, u) ← part (w_now w) u; send frame (with_upload v (Some u))
end.

(** [picture_state]. *)
Definition picture_state (w : World) (state : PictureState) (v : t) : Result StreamError t :=
match upload (waits v) with
| None => Ok v
| Some u =>
if negb (bool_decide (up_id u = ps_id state)) then Ok v
else
let now := w_now w in
let total := len (pic_bytes (up_picture u)) in
match ps_step state with
| Wire.Receiving =>
u ← upload_received (ps_received state) now u;
let tells := (up_told u + PROGRESS_SPACING <=? now) || (ps_received state =? total) in
let u := MkUpload (up_id u) (up_picture u) (up_reply u) true (up_sent u) (up_received u) (up_parts u)
(up_round_trip u) (if tells then now else up_told u) (now + CONTROL_TIMEOUT) in
let v := with_upload v (Some u) in
if tells then update w (UPicture (ps_received state) total) v else Ok v
| Pasted => Ok (tell (up_reply u) ReplyDone (with_upload v None))
| Refused => Ok (tell (up_reply u) (ReplyError (SInvalid (ps_message state))) (with_upload v None))
end
end.

(** ** What the host sends *)

(** [pipe_part]. *)
Definition pipe_part (w : World) (pipe : Uuid) (more : bool) (part : bytes) (v : t) : Result StreamError t :=
match pipes (waits v) !! pipe with
| None => Ok v
| Some filling =>
if MOST_PIPE_FRAME <? len filling + len part then Err (SInvalid "A document frame exceeds its bound.")
else if more then Ok (with_pipes v (<[pipe := filling ++ part]> (pipes (waits v))))
else if w_room w then Ok (with_pipes v (<[pipe := []]> (pipes (waits v))))
else send (FPipeClose pipe) (with_pipes v (delete pipe (pipes (waits v))))
end.

(** The arm of [frame] for a part of a snapshot. *)
Definition keyframe (w : World) (next_sequence : N) (more : bool) (part : bytes) (v : t) : Result StreamError t :=
let s := view v in
let before := if decide (snapshot_sequence s = Some next_sequence) then snapshot s else [] in
if PACKED_SNAPSHOT_LIMIT <? len before + len part then Err (SInvalid "The terminal snapshot exceeds its bound.")
else
let packed := before ++ part in
if more then Ok (with_view v (MkView packed (Some next_sequence) (started s) (ended s)))
else
checkpoint ← wire (Wire.snapshot packed);
v ← acknowledge (with_view v (MkView [] None (started s) (ended s)));
let v := with_view v (MkView [] None true (ended s)) in
v ← (if started s then update w UResync v else Ok v);
update w (UCheckpoint checkpoint next_sequence) v.

(** Its arm for output: an update for each chunk. *)
Fixpoint raw (w : World) (sequence : N) (chunks : list bytes) (v : t) : Result StreamError t :=
match chunks with
| [] => Ok v
| chunk :: chunks => v ← update w (URaw sequence chunk) v; raw w (sequence + 1) chunks v
end.

(** The start of [frame]: the time, and what is acknowledged of output. *)
Definition count (w : World) (f : Frame) (size : N) (v : t) : Result StreamError t :=
let a := acks v in
if carries_output f then
let a := MkAcks (received a + size) (acknowledged a) (acknowledge_at a) (w_now w) in
n ← nsub (received a) (acknowledged a);
if ACKNOWLEDGE_BYTES <=? n then acknowledge (with_acks v a)
else Ok (with_acks v (MkAcks (received a) (acknowledged a)
(Some (default (w_now w + ACKNOWLEDGE_DELAY) (acknowledge_at a))) (heard a)))
else Ok (with_acks v (MkAcks (received a) (acknowledged a) (acknowledge_at a) (w_now w))).

Definition answer (request_id : Uuid) (r : Reply) (v : t) : t :=
match pending (waits v) !! request_id with
| Some p => tell (p_reply p) r (with_pending v (delete request_id (pending (waits v))))
| None => v
end.

(** [frame] goes on, or it returns [Error::Closed] after what it changed. *)
Inductive Next : Type := Goes | Closes.

Definition goes (r : Result StreamError t) : Result StreamError (t * Next) := (fun v => (v, Goes)) <$> r.

Definition frame (w : World) (f : Frame) (size : N) (v : t) : Result StreamError (t * Next) :=
v ← count w f size v;
match f with
| FKeyframe next_sequence more part => goes (keyframe w next_sequence more part v)
| FOutput first_sequence chunks => goes (raw w first_sequence chunks v)
| FResize rows cols cell at_sequence => goes (update w (UResize rows cols cell at_sequence) v)
| FMetadata metadata => goes (update w (UMetadata metadata) v)
| FHeartbeat number _ =>
let k := typed v in
let a := acks v in
goes (send (FAck (received a))
(with_acks (with_typed v (MkTyped number (input_sent k) (input_confirmed k)))
(MkAcks (received a) (received a) None (heard a))))
| FEnd _ =>
let k := typed v in
let s := view v in
let v := with_typed (with_view v (MkView (snapshot s) (snapshot_sequence s) (started s) true))
(MkTyped (heartbeat k) (input_sent k) (input_sent k)) in
Ok (match update w UEnded v with Ok v => v | _ => v end, Closes)
| FInputAck offset =>
let k := typed v in
if (offset <? input_confirmed k) || (input_sent k <? offset)
then Err (SInvalid "The host confirmed input that was not sent.")
else goes (Ok (with_typed v (MkTyped (heartbeat k) (input_sent k) offset)))
| FControlResult r =>
goes (Ok (answer (cr_request r) (if cr_accepted r then ReplyDone else ReplyError (SInvalid (cr_message r))) v))
| FControlValue request_id value => goes (Ok (answer request_id (ReplyValue value) v))
| FPipeData pipe more part => goes (pipe_part w pipe more part v)
| FPipeClose pipe => goes (Ok (with_pipes v (delete pipe (pipes (waits v)))))
| FDirectOffer pipe addresses =>
goes (Ok (match asking (waits v) !! pipe with
| Some reply => tell reply (ReplyAddresses addresses) (with_asking v (delete pipe (asking (waits v))))
| None => v
end))
| FPictureState state => goes (picture_state w state v)
| _ => Err (SInvalid "Unsupported terminal host frame.")
end.

(** ** A turn of [step] *)

(** [deadlines.tick()]. *)
Definition deadlines (w : World) (v : t) : Result StreamError t :=
let now := w_now w in
if CHANNEL_SILENCE <=? now - heard (acks v) then Err (SInvalid "The host did not answer.")
else
let late := filter (fun kv : Uuid * Pending => p_deadline kv.2 <= now) (pending (waits v)) in
let v := map_fold (fun _ p v => tell (p_reply p) (ReplyError (SInvalid NOT_CONFIRMED)) v)
(with_pending v (filter (fun kv : Uuid * Pending => ~ p_deadline kv.2 <= now) (pending (waits v)))) late in
Ok match upload (waits v) with
| Some u => if up_deadline u <=? now
then tell (up_reply u) (ReplyError (SInvalid PICTURE_NOT_CONFIRMED)) (with_upload v None) else v
| None => v
end.

Inductive Event : Type :=
| EvDeadlines
| EvPart (fits : bool)
| EvAcknowledge
| EvRequest (closed : Uuid -> bool) (r : RemoteRequest)
| EvFrame (f : Frame) (size : N).

(** Whether [step] takes the next request. *)
Definition takes_requests (v : t) : Result StreamError bool :=
n ← nsub (input_sent (typed v)) (input_confirmed (typed v)); Ok (n <? UNCONFIRMED_INPUT).

Definition step (w : World) (e : Event) (v : t) : Result StreamError (t * Next) :=
takes ← takes_requests v;
match e with
| EvDeadlines => goes (deadlines w v)
| EvPart fits =>
match upload (waits v) with
| None => goes (Ok v)
| Some u => wants ← wants_part fits u; goes (if wants : bool then send_part w v else Ok v)
end
| EvAcknowledge => goes (if acknowledge_at (acks v) then acknowledge v else Ok v)
| EvRequest closed r => goes (if takes : bool then request w closed r v else Ok v)
| EvFrame f size => frame w f size v
end.
End viewer.
End Viewer.
