(* ===== verification/Connection.v ===== *)
(** The two sides of a connection together: the host's [Stream] and the [Viewer], the frames on
    the way between them, and what the terminal publishes.  Theorems that the viewer shows what
    the terminal shows, and that what is typed arrives in order; and a run in which the host
    loses a frame. *)

From S2P Require Import Prelude Json Utf Terminal Wire WireSpec WireClaims Stream Viewer.
Open Scope N_scope.

(** Takes a computation that returned apart. *)
Ltac run :=
repeat match goal with
| E : (_ ≫= _) = Ok _ |- _ => let x := fresh "x" in let Ex := fresh "Ex" in
    apply bind_ok in E as (x & Ex & E); cbv beta in E
| E : (_ <$> _) = Ok _ |- _ => let x := fresh "x" in let Ex := fresh "Ex" in
    apply fmap_ok in E as (x & Ex & E)
| E : Ok _ = Ok _ |- _ => apply ok_inj in E
| E : Err _ = Ok _ |- _ => discriminate E
| E : Panic = Ok _ |- _ => discriminate E
| E : (_, _) = (_, _) |- _ => apply pair_equal_spec in E as [??]
| E : Some _ = Some _ |- _ => apply (inj Some) in E
| E : None = Some _ |- _ => discriminate E
| E : Some _ = None |- _ => discriminate E
| E : (match ?x with _ => _ end) = Ok _ |- _ => let Ex := fresh "Ex" in destruct x eqn:Ex
end.

Section connection.
Context `{Libraries, Sha256}.

(** A snapshot shows the terminal after what it published. *)
Variable shows : list PublishedFrame -> Checkpoint -> Prop.

Definition is_raw (f : PublishedFrame) : bool := match f with PRaw _ _ => true | _ => false end.

(** The output among what was published. *)
Definition raws (h : list PublishedFrame) : N := N.of_nat (length (filter is_raw h)).

(** The terminal numbers its output, says with a size how much output was before it, and makes a
barrier once. *)
Definition numbered (h : list PublishedFrame) (f : PublishedFrame) : Prop :=
match f with
| PRaw sequence _ => sequence = raws h
| PResize _ _ _ at_sequence => at_sequence = raws h
| PBarrier marker => PBarrier marker ∉ h
| _ => True
end.

(** The terminal answers a request for a snapshot with the screen at its barrier. *)
Definition honest (h : list PublishedFrame) (marker : Uuid) (cut : CheckpointCut) : Prop :=
exists before after, h = before ++ PBarrier marker :: after /\
cut_sequence cut = raws before /\ shows before (cut_checkpoint cut) /\
new_checkpoint (k_snapshot (cut_checkpoint cut)) (k_console (cut_checkpoint cut)) =
Some (without_metadata (cut_checkpoint cut)).

(** What the receiver of the broadcast channel has: its queue and whether it lagged. *)
Definition backlog (o : Output) : nat := length (queue o) + (if lagged o then 1 else 0).

(** What the terminal may do with an event of the host: answer honestly; and no more than a
turn of the arm of output waits ([lost_resize] is what happens otherwise). *)
Definition allowed (h : list PublishedFrame) (e : Event) (s : Stream) : Prop :=
match e with
| EvAdvance marker (Some cut) => honest h marker cut
| EvPublished => (backlog (output s) <= N.to_nat RAW_BATCH_LIMIT)%nat
| EvReceived _ => False
| _ => True
end.

(** [to_host] and [to_viewer] are how many of the frames that each sent the other has taken. *)
Record Both : Type := MkBoth {
history : list PublishedFrame; host : Stream; viewer : Viewer.t; to_host : nat; to_viewer : nat;
host_done : bool; viewer_done : bool
}.

Definition sent_to_host (b : Both) : list Frame := Viewer.sent (Viewer.out (viewer b)).
Definition sent_to_viewer (b : Both) : list Frame := channel (host b).

Definition ends (x : Served) : bool := match x with Serving => false | ServedEnd => true end.
Definition closes_view (n : Viewer.Next) : bool := match n with Viewer.Goes => false | Viewer.Closes => true end.

Definition is_frame (e : Viewer.Event) : bool := match e with Viewer.EvFrame _ _ => true | _ => false end.

(** The receiver loses the oldest [k] frames when its queue is full. *)
Definition enqueue (f : PublishedFrame) (k : nat) (o : Output) : Output :=
MkOutput (lagged o || negb (k =? 0)%nat) (drop k (queue o ++ [f])) (ended o).

Inductive step : Both -> Both -> Prop :=
| step_publish b f k : numbered (history b) f ->
step b (MkBoth (history b ++ [f]) (with_output (host b) (enqueue f k (output (host b)))) (viewer b)
(to_host b) (to_viewer b) (host_done b) (viewer_done b))
| step_gone b :
step b (MkBoth (history b)
(with_output (host b) (MkOutput (lagged (output (host b))) (queue (output (host b))) true))
(viewer b) (to_host b) (to_viewer b) (host_done b) (viewer_done b))
| step_host b a window e s x : host_done b = false -> allowed (history b) e (host b) ->
serve_step a window e (host b) = Ok (s, x) ->
step b (MkBoth (history b) s (viewer b) (to_host b) (to_viewer b) (ends x) (viewer_done b))
| step_host_takes b a window f s x : host_done b = false -> sent_to_host b !! to_host b = Some f ->
serve_step a window (EvReceived f) (host b) = Ok (s, x) ->
step b (MkBoth (history b) s (viewer b) (S (to_host b)) (to_viewer b) (ends x) (viewer_done b))
| step_viewer b w e v n : viewer_done b = false -> is_frame e = false ->
Viewer.step w e (viewer b) = Ok (v, n) ->
step b (MkBoth (history b) (host b) v (to_host b) (to_viewer b) (host_done b) (closes_view n))
| step_viewer_takes b w f size v n : viewer_done b = false -> sent_to_viewer b !! to_viewer b = Some f ->
Viewer.step w (Viewer.EvFrame f size) (viewer b) = Ok (v, n) ->
step b (MkBoth (history b) (host b) v (to_host b) (S (to_viewer b)) (host_done b) (closes_view n)).

(** A connection starts at some time in the life of the terminal. *)
Definition start (h : list PublishedFrame) (now : N) : Both :=
MkBoth h (new (MkOutput false [] false) now) (Viewer.new now) 0 0 false false.

Definition connected (b : Both) : Prop :=
exists h now, (forall pre f, pre ++ [f] `prefix_of` h -> numbered pre f) /\ rtc step (start h now) b.

(** ** What is typed *)

Definition input_of (f : Frame) : option bytes := match f with FInput _ _ input => Some input | _ => None end.
Definition inputs_sent (l : list Frame) : list bytes := omap input_of l.
Definition asked_of (a : Asked) : option bytes :=
match a with AskedControl (CtlInput input) => Some input | _ => None end.
(** What the terminal got to type. *)
Definition inputs_asked (l : list Asked) : list bytes := omap asked_of l.
Definition input_size (l : list Frame) : N := len (concat (inputs_sent l)).

(** ** What the viewer shows *)

Definition on_screen (u : Viewer.RemoteUpdate) : bool :=
match u with Viewer.UCheckpoint _ _ | Viewer.URaw _ _ | Viewer.UResize _ _ _ _ => true | _ => false end.
Definition screen_updates (v : Viewer.t) : list Viewer.RemoteUpdate :=
filter on_screen (Viewer.updates (Viewer.out v)).

(** The update that tells a frame which changes the screen. *)
Definition update_of (f : PublishedFrame) : option Viewer.RemoteUpdate :=
match f with
| PRaw sequence output => Some (Viewer.URaw sequence output)
| PResize rows cols cell at_sequence => Some (Viewer.UResize rows cols cell at_sequence)
| _ => None
end.

(** Updates that follow a terminal: snapshots, each of some moment, and after each one what the
terminal published from that moment on, without a gap and nothing twice. *)
Inductive follows (h : list PublishedFrame) : list Viewer.RemoteUpdate -> Prop :=
| follows_none : follows h []
| follows_from us before marker after k i : follows h us ->
h = before ++ PBarrier marker :: after -> shows before k ->
follows h (us ++ Viewer.UCheckpoint k (raws before) :: omap update_of (take i after)).

(** ** The host and what is typed *)

Definition ack_of (f : Frame) : option N := match f with FInputAck offset => Some offset | _ => None end.

Definition off_pipe (f : Frame) : bool :=
match f with FPipeData _ _ _ | FPipeClose _ => false | _ => true end.

(** What the host keeps of what is typed, and the frames that have no place among the parts of
documents. *)
Record Typist : Type := MkTypist {
ty_offset : N; ty_confirmed : N; ty_inputs : list N; ty_acks : list N; ty_asked : list bytes;
ty_parts : list Frame
}.

Definition typist (s : Stream) : Typist :=
MkTypist (input_offset (typing s)) (input_confirmed (typing s)) (inputs (typing s))
(omap ack_of (channel s)) (inputs_asked (asked s)) (filter off_pipe (pipe_parts (documents s))).

#[local] Arguments typist : simpl never.

Lemma send_typist f s s' n : send f s = Ok (s', n) ->
typist s' = let t := typist s in
MkTypist (ty_offset t) (ty_confirmed t) (ty_inputs t) (ty_acks t ++ omap ack_of [f]) (ty_asked t) (ty_parts t).
Proof. unfold send. intros E. run. subst. unfold typist. cbn [channel asked typing]. rewrite omap_app. reflexivity. Qed.

Lemma send_kept f s s' n : send f s = Ok (s', n) -> ack_of f = None -> typist s' = typist s.
Proof. intros E Ef. rewrite (send_typist _ _ _ _ E). destruct (typist s). cbn. by rewrite Ef, app_nil_r. Qed.

Lemma send_only_kept f s s' : send_only f s = Ok s' -> ack_of f = None -> typist s' = typist s.
Proof. unfold send_only. intros E Ef. run. destruct x as [s1 n]. subst. by apply (send_kept f s s1 n). Qed.

Lemma paced_typist f p : typist (paced f p) = typist (fst p).
Proof. unfold paced. by destruct (carries_output f). Qed.

Lemma next_frame_ack window c f c' : next_frame window c = Ok (Some (f, c')) -> ack_of f = None.
Proof. unfold next_frame. intros E. run; by subst. Qed.

Lemma send_next_kept window s s' : send_next window s = Ok s' -> typist s' = typist s.
Proof.
unfold send_next. intros E. run; subst; try done;
match goal with Hs : send ?f _ = Ok ?p |- _ => let s1 := fresh "s1" in let n := fresh "n" in
destruct p as [s1 n]; apply send_kept in Hs; [|by eapply next_frame_ack];
trans (typist (paced f (s1, n))); [by destruct (is_keyframe f)|rewrite paced_typist; exact Hs] end.
Qed.

Lemma published_kept now window r s : typist (fst (published now window r s)) = typist s.
Proof. unfold published. by repeat case_match. Qed.

Lemma pump_kept turns now window next s : typist (fst (pump turns now window next s)) = typist s.
Proof.
revert next s. induction turns as [|turns IH]; intros [r|] s; try done. cbn [pump].
pose proof (published_kept now window r s) as Hp. destruct (published now window r s) as [s1 [end_|]]; [done|].
destruct (try_recv (output s1)) as [r1 o]. rewrite IH. by rewrite <- Hp.
Qed.

Lemma drain_kept turns window s s' : drain_turns turns window s = Ok s' -> typist s' = typist s.
Proof.
revert s. induction turns as [|turns IH]; intros s; cbn [drain_turns]; intros E; run; subst; try done.
rewrite (IH _ E). by apply (send_next_kept window).
Qed.

Lemma capture_kept now window marker answer s s' end_ :
capture now window marker answer s = Ok (s', end_) -> typist s' = typist s.
Proof.
unfold capture, cut. intros E. destruct answer as [cut|]; [|run; by subst].
destruct (skip marker _) as [[] o]; run; by subst.
Qed.

Lemma ask_kept a s : asked_of a = None -> typist (ask a s) = typist s.
Proof. intros Ea. unfold typist, inputs_asked. cbn. rewrite omap_app. cbn. by rewrite Ea, app_nil_r. Qed.

Lemma submit_kept a refused s s' : submit a refused s = Ok s' -> asked_of a = None -> typist s' = typist s.
Proof. unfold submit. intros E Ea. run; subst. by apply ask_kept. Qed.

(** A frame that goes and a request that goes change nothing of it but acks and input. *)
Ltac kept :=
repeat match goal with
| E : send_only _ _ = Ok _ |- _ => apply send_only_kept in E; [|done]
| E : submit _ _ _ = Ok _ |- _ => apply submit_kept in E; [|done]
| E : typist ?s = _ |- context [typist ?s] => rewrite E
end; try done.

Lemma picture_answered_kept offer answer memory now s s' :
picture_answered offer answer memory now s = Ok s' -> typist s' = typist s.
Proof. unfold picture_answered. intros E. run; kept. Qed.

Lemma offered_kept offer refused s s' : offered offer refused s = Ok s' -> typist s' = typist s.
Proof. unfold offered. intros E. run; subst. kept. Qed.

Lemma paste_kept r refused memory now s s' : paste r refused memory now s = Ok s' -> typist s' = typist s.
Proof.
unfold paste. intros E. run; subst; try (by eapply picture_answered_kept). kept.
Qed.

Lemma picture_part_kept id offset l refused memory now s s' :
picture_part id offset l refused memory now s = Ok s' -> typist s' = typist s.
Proof.
unfold picture_part. intros E. run; subst; [|kept].
apply paste_kept in E. rewrite E. kept.
Qed.

Lemma pipe_part_kept pipe more part room s s' : pipe_part pipe more part room s = Ok s' -> typist s' = typist s.
Proof.
unfold pipe_part. intros E. run; subst; try done. unfold typist. cbn [channel asked typing documents with_documents pipe_parts].
by rewrite filter_app, app_nil_r.
Qed.

Lemma open_pipe_kept pipe key name s : typist (open_pipe pipe key name s) = typist s.
Proof.
unfold open_pipe. case_match; [|by rewrite ask_kept]. unfold typist. cbn [channel asked typing documents with_documents pipe_parts].
by rewrite filter_app, app_nil_r.
Qed.

Lemma left_kept l s : typist (left l s) = typist s.
Proof.
destruct l as [pipe frame|pipe]; unfold typist; cbn [left channel asked typing documents with_documents pipe_parts];
rewrite filter_app; [|by rewrite app_nil_r].
assert (E : forall turns frame, filter off_pipe (pipe_chunks turns pipe frame) = []).
{ induction turns as [|turns IH]; intros frame'; [done|]. cbn [pipe_chunks]. case_match; [done|]. apply IH. }
by rewrite E, app_nil_r.
Qed.

Lemma send_pipe_part_kept window s s' :
ty_parts (typist s) = [] -> send_pipe_part window s = Ok s' -> typist s' = typist s.
Proof.
intros Hn E. unfold send_pipe_part in E. unfold typist in Hn. cbn [ty_parts] in Hn.
destruct (pipe_parts (documents s)) as [|f rest] eqn:Ep; run; subst; try done.
rewrite filter_cons in Hn. destruct (decide (off_pipe f)) as [|Hf]; [done|].
destruct x as [s1 n]. rewrite paced_typist. apply send_kept in Ex0; [|by destruct f].
cbn [fst]. rewrite Ex0. unfold typist. cbn [channel asked typing documents with_documents pipe_parts].
by rewrite Ep, filter_cons, decide_False.
Qed.

(** Input goes in frames of its own. *)
Definition plain (f : Frame) : Prop := match f with FControl _ control => is_input control = false | _ => True end.

Lemma received_input_typist offset beat' input refused s s' :
received_input offset beat' input refused s = Ok s' ->
let t := typist s in
offset = ty_offset t /\
typist s' = MkTypist (offset + len input) (ty_confirmed t) (ty_inputs t ++ [offset + len input]) (ty_acks t)
(ty_asked t ++ [input]) (ty_parts t).
Proof.
unfold received_input. intros E.
destruct (N.eqb_spec offset (input_offset (typing s))) as [->|Hn]; cbn [negb orb] in E; [|by run].
run. unfold submit in *. run. subst. split; [done|]. unfold typist, inputs_asked. cbn [channel asked typing documents ask with_typing input_offset input_confirmed inputs]. by rewrite omap_app.
Qed.

Lemma received_typist a f s s' : received a f s = Ok s' -> plain f ->
match f with
| FInput offset _ input => exists t, t = typist s /\ offset = ty_offset t /\
typist s' = MkTypist (offset + len input) (ty_confirmed t) (ty_inputs t ++ [offset + len input]) (ty_acks t)
(ty_asked t ++ [input]) (ty_parts t)
| _ => typist s' = typist s
end.
Proof.
intros E Hp. unfold received in E. destruct f; try discriminate E.
- run. by subst.
- exists (typist s). split; [done|]. by apply received_input_typist in E.
- unfold received_control in E. run. subst. cbn in Hp.
trans (typist x); [done|]. apply submit_kept in Ex0; [done|]. by destruct control.
- run. by subst.
- by apply offered_kept in E.
- by apply picture_part_kept in E.
- apply ok_inj in E. subst. apply open_pipe_kept.
- by apply pipe_part_kept in E.
- run. by subst.
- kept.
Qed.

Lemma input_done_typist accepted s s' : input_done accepted s = Ok s' ->
typist s' = let t := typist s in
match ty_inputs t with
| [] => t
| o :: rest => MkTypist (ty_offset t) o rest (ty_acks t ++ [o]) (ty_asked t) (ty_parts t)
end.
Proof.
unfold input_done. intros E. unfold typist at 2. cbn [ty_inputs].
destruct (inputs (typing s)) as [|o rest] eqn:Ei; run; subst; [unfold typist; by rewrite Ei|].
unfold send_only in E. run. destruct x as [s1 n]. subst.
cbn [fst]. match goal with Hs : send _ _ = Ok _ |- _ => by rewrite (send_typist _ _ _ _ Hs) end.
Qed.

Lemma serve_typist a window e s s' x : serve_step a window e s = Ok (s', x) -> ty_parts (typist s) = [] ->
match e with
| EvReceived _ => True
| EvInputDone _ => typist s' = let t := typist s in
match ty_inputs t with
| [] => t
| o :: rest => MkTypist (ty_offset t) o rest (ty_acks t ++ [o]) (ty_asked t) (ty_parts t)
end
| _ => typist s' = typist s
end.
Proof.
intros E Hn. destruct e; cbn [serve_step] in E; try exact I; unfold serving, send_end in E.
- destruct (advance_turn _ _ _ _ _) as [[s1 turn]| |] eqn:Ea; cbn [mbind Result_bind] in E; try discriminate E.
assert (Hk : typist s1 = typist s).
{ unfold advance_turn in Ea. run; subst; try done; try (by eapply capture_kept); by eapply send_next_kept. }
rewrite <- Hk. destruct turn; run; subst; kept.
- run. subst. by apply (send_pipe_part_kept window).
- run. subst. by apply (input_done_typist accepted).
- run. subst. unfold answered in Ex. run; subst; [|done].
apply send_only_kept in Ex; [by rewrite Ex|]. unfold control_answer. by repeat case_match.
- run; subst; [|done]. apply picture_answered_kept in Ex0. by rewrite Ex0.
- run. subst. unfold beat in Ex. run. kept.
- run; subst; kept.
- destruct (try_recv (output s)) as [r o]. destruct r; run; subst; try done.
all: match goal with Hp : pump ?n ?now ?w ?r ?s0 = (?s1, _) |- _ =>
pose proof (pump_kept n now w r s0) as Hk; rewrite Hp in Hk; cbn [fst] in Hk end.
all: try exact Hk. all: unfold drain in *; match goal with Hd : drain_turns _ _ _ = Ok _ |- _ => apply drain_kept in Hd end.
all: kept.
- run. subst. case_match; [apply left_kept|done].
- run. subst. by repeat case_match.
Qed.

(** ** What leaves the screen alone *)

Definition off_screen (f : Frame) : Prop :=
match f with FKeyframe _ _ _ | FOutput _ _ | FResize _ _ _ _ => False | _ => True end.

Definition calm (s s' : Stream) : Prop :=
screen s' = screen s /\ output s' = output s /\
exists l, channel s' = channel s ++ l /\ Forall off_screen l.

Lemma calm_same s s' : screen s' = screen s -> output s' = output s -> channel s' = channel s -> calm s s'.
Proof. intros E1 E2 E3. split; [done|]. split; [done|]. exists []. by rewrite app_nil_r. Qed.

Lemma calm_trans s1 s2 s3 : calm s1 s2 -> calm s2 s3 -> calm s1 s3.
Proof.
intros (E1 & E2 & l & E3 & Hl) (F1 & F2 & k & F3 & Hk). split; [congruence|]. split; [congruence|].
exists (l ++ k). rewrite F3, E3. split; [by rewrite app_assoc|]. by apply Forall_app.
Qed.

Lemma send_shape f s s' n : send f s = Ok (s', n) ->
screen s' = screen s /\ output s' = output s /\ channel s' = channel s ++ [f].
Proof. unfold send. intros E. run. by subst. Qed.

Lemma send_calm f s s' n : send f s = Ok (s', n) -> off_screen f -> calm s s'.
Proof.
intros E Hf. apply send_shape in E as (E1 & E2 & E3). split; [done|]. split; [done|]. exists [f]. auto.
Qed.

Lemma send_only_calm f s s' : send_only f s = Ok s' -> off_screen f -> calm s s'.
Proof. unfold send_only. intros E Hf. run. destruct x as [s1 n]. subst. by apply (send_calm f s s1 n). Qed.

Lemma submit_calm a refused s s' : submit a refused s = Ok s' -> calm s s'.
Proof. unfold submit. intros E. run. subst. by apply calm_same. Qed.

Ltac calming :=
repeat match goal with
| E : send_only _ _ = Ok _ |- _ => apply send_only_calm in E; [|done]
| E : submit _ _ _ = Ok _ |- _ => apply submit_calm in E
end;
try done; try (by apply calm_same);
try match goal with Q : calm _ ?v |- calm _ ?v => refine (calm_trans _ _ _ _ Q); by apply calm_same end;
try match goal with Q : calm ?u _ |- calm ?u _ => refine (calm_trans _ _ _ Q _); by apply calm_same end.

Lemma picture_answered_calm offer answer memory now s s' :
picture_answered offer answer memory now s = Ok s' -> calm s s'.
Proof. unfold picture_answered. intros E. run; calming. Qed.

Lemma offered_calm offer refused s s' : offered offer refused s = Ok s' -> calm s s'.
Proof.
unfold offered. intros E. run; subst. calming.
Qed.

Lemma paste_calm r refused memory now s s' : paste r refused memory now s = Ok s' -> calm s s'.
Proof. unfold paste. intros E. run; subst; try (by eapply picture_answered_calm); calming. Qed.

Lemma picture_part_calm id offset l refused memory now s s' :
picture_part id offset l refused memory now s = Ok s' -> calm s s'.
Proof.
unfold picture_part. intros E. run; subst; [|calming].
apply paste_calm in E. calming.
match goal with Q : calm _ ?x |- _ => apply (calm_trans _ x);
[refine (calm_trans _ _ _ _ Q); by apply calm_same|refine (calm_trans _ _ _ _ E); by apply calm_same] end.
Qed.

Lemma pipe_part_calm pipe more part room s s' : pipe_part pipe more part room s = Ok s' -> calm s s'.
Proof. unfold pipe_part. intros E. run; subst; calming. Qed.

Lemma open_pipe_calm pipe key name s : calm s (open_pipe pipe key name s).
Proof. unfold open_pipe. case_match; by apply calm_same. Qed.

Lemma left_calm l s : calm s (left l s).
Proof. destruct l; by apply calm_same. Qed.

Lemma send_pipe_part_calm window s s' : ty_parts (typist s) = [] -> send_pipe_part window s = Ok s' -> calm s s'.
Proof.
intros Hn E. unfold send_pipe_part in E. unfold typist in Hn. cbn [ty_parts] in Hn.
destruct (pipe_parts (documents s)) as [|f rest] eqn:Ep; run; subst; calming.
rewrite filter_cons in Hn. destruct (decide (off_pipe f)) as [|Hf]; [done|]. destruct x as [s1 n].
assert (Q : calm s s1).
{ apply send_calm in Ex0; [|by destruct f]. refine (calm_trans _ _ _ _ Ex0). by apply calm_same. }
refine (calm_trans _ _ _ Q _). unfold paced. case_match; by apply calm_same.
Qed.

Lemma received_calm a f s s' : received a f s = Ok s' -> f <> FRefresh -> calm s s'.
Proof.
intros E Hf. unfold received in E. destruct f; try discriminate E; try done.
- run. subst. calming.
- unfold received_input in E. run; subst; calming.
- unfold received_control in E. run; subst. calming.
- by apply offered_calm in E.
- by apply picture_part_calm in E.
- apply ok_inj in E. subst. apply open_pipe_calm.
- by apply pipe_part_calm in E.
- run. subst. calming.
- calming.
Qed.

(** The arms of [serve] that have nothing to do with the screen. *)
Definition aside (e : Event) : bool :=
match e with
| EvPipePart | EvInputDone _ | EvAnswered _ _ | EvPictureAnswered _ | EvHeartbeat _ | EvMetadata | EvLeft _ => true
| EvReceived f => negb (match f with FRefresh => true | _ => false end)
| _ => false
end.

Lemma serve_calm a window e s s' x : aside e = true -> ty_parts (typist s) = [] ->
serve_step a window e s = Ok (s', x) -> calm s s' /\ x = Serving.
Proof.
intros He Hn E. destruct e; try done; cbn [serve_step] in E; unfold serving in E.
- run. subst. by apply send_pipe_part_calm in Ex.
- run. subst. split; [|done]. unfold input_done in *. run; subst; calming.
- run. subst. split; [|done]. unfold answered in *. run; subst; calming.
match goal with Hs : send_only _ _ = Ok _ |- _ => apply send_only_calm in Hs;
[refine (calm_trans _ _ _ _ Hs); by apply calm_same|unfold control_answer; by repeat case_match] end.
- run; subst; [|by split; [apply calm_same|]]. split; [|done].
match goal with Hs : picture_answered _ _ _ _ _ = Ok _ |- _ => apply picture_answered_calm in Hs;
refine (calm_trans _ _ _ _ Hs); by apply calm_same end.
- run. subst. split; [|done]. unfold beat in *. run; calming.
- run; subst; split; try done; calming.
- run. subst. split; [|done]. by apply received_calm in Ex; [|by destruct f].
- run. subst. split; [|done]. case_match; [apply left_calm|by apply calm_same].
Qed.

(** [send_next] sends the next frame, if there is one. *)
Lemma send_next_shape window s s' : send_next window s = Ok s' ->
next_frame window (screen s) = Ok None /\ s' = s \/
exists f c, next_frame window (screen s) = Ok (Some (f, c)) /\ screen s' = c /\ output s' = output s /\
channel s' = channel s ++ [f].
Proof.
unfold send_next. intros E. apply bind_ok in E as ([[f c]|] & En & E); [|run; subst; by left].
right. exists f, c. apply bind_ok in E as ([s1 n] & Es & E). apply send_shape in Es as (E1 & E2 & E3).
apply ok_inj in E. subst s'. unfold paced. cbn [fst snd]. by destruct (is_keyframe f), (carries_output f).
Qed.

(** The frames that went stay. *)
Definition grows (s s' : Stream) : Prop := exists l, channel s' = channel s ++ l.

Lemma sends_nothing s s' : channel s' = channel s -> grows s s'.
Proof. intros E. exists []. by rewrite app_nil_r. Qed.

Lemma sends_more s1 s2 s3 : grows s1 s2 -> grows s2 s3 -> grows s1 s3.
Proof. intros [l E] [k F]. exists (l ++ k). by rewrite F, E, app_assoc. Qed.

Lemma calm_grows s s' : calm s s' -> grows s s'.
Proof. intros (_ & _ & l & E & _). by exists l. Qed.

Lemma send_next_grows window s s' : send_next window s = Ok s' -> grows s s'.
Proof.
intros E. apply send_next_shape in E as [[_ ->]|(f & c & _ & _ & _ & E)]; [by apply sends_nothing|by exists [f]].
Qed.

Lemma pump_channel turns now window next s : channel (fst (pump turns now window next s)) = channel s.
Proof.
revert next s. induction turns as [|turns IH]; intros [r|] s; try done. cbn [pump].
assert (Hp : channel (fst (published now window r s)) = channel s) by (unfold published; by repeat case_match).
destruct (published now window r s) as [s1 [end_|]]; [done|].
destruct (try_recv (output s1)) as [r1 o]. rewrite IH. by rewrite <- Hp.
Qed.

Lemma drain_grows turns window s s' : drain_turns turns window s = Ok s' -> grows s s'.
Proof.
revert s. induction turns as [|turns IH]; intros s; cbn [drain_turns]; intros E; run; subst; try (by apply sends_nothing).
eapply sends_more; [by eapply send_next_grows|by apply IH].
Qed.

Lemma capture_channel now window marker answer s s' end_ :
capture now window marker answer s = Ok (s', end_) -> channel s' = channel s.
Proof.
unfold capture, cut. intros E. destruct answer as [cut|]; [|run; by subst].
destruct (skip marker _) as [[] o]; run; by subst.
Qed.

Lemma advance_grows now window marker answer s s' turn :
advance_turn now window marker answer s = Ok (s', turn) -> grows s s'.
Proof.
unfold advance_turn. intros E. run; subst; try (by apply sends_nothing); try (by eapply send_next_grows).
all: apply sends_nothing; by eapply capture_channel.
Qed.

Lemma send_end_grows e s s' x : send_end e s = Ok (s', x) -> grows s s'.
Proof. unfold send_end. intros E. run. subst. eapply calm_grows, send_only_calm; [done|exact I]. Qed.

(** The arm of the output: nothing was there, or a turn of what the receiver gave, or its end. *)
Lemma published_shape a window s s' x : serve_step a window EvPublished s = Ok (s', x) ->
(try_recv (output s)).1 = RecvEmpty /\ s' = s /\ x = Serving \/
exists r o s1, try_recv (output s) = (r, o) /\ r <> RecvEmpty /\
let turn := pump (N.to_nat RAW_BATCH_LIMIT) (an_now a) window (Some r) (with_output s o) in
(turn = (s1, None) /\ s' = s1 /\ x = Serving \/
exists e s2, turn = (s1, Some e) /\ drain window s1 = Ok s2 /\ send_end e s2 = Ok (s', x)).
Proof.
cbn [serve_step]. unfold serving. intros E. destruct (try_recv (output s)) as [r o].
assert (Hr : r = RecvEmpty \/ r <> RecvEmpty) by (destruct r; (by left) || by right).
destruct Hr as [->|Hr]; [left; run; by subst|]. right.
destruct (pump (N.to_nat RAW_BATCH_LIMIT) (an_now a) window (Some r) (with_output s o)) as [s1 end_] eqn:Ep.
exists r, o, s1. split; [done|]. split; [done|]. cbv zeta. rewrite Ep.
destruct end_ as [e|]; destruct r; try done; run; subst; first [by left|right; eauto].
Qed.

Lemma serve_grows a window e s s' x : ty_parts (typist s) = [] -> serve_step a window e s = Ok (s', x) -> grows s s'.
Proof.
intros Hn E. destruct (aside e) eqn:Ha; [by eapply calm_grows, serve_calm|].
destruct e; try done; cbn [serve_step] in E; unfold serving in E.
- apply bind_ok in E as ([s1 turn] & Ea & E). apply advance_grows in Ea. eapply sends_more; [exact Ea|].
destruct turn; [| |by eapply send_end_grows]; run; subst; by apply sends_nothing.
- destruct f; try done. cbn [received] in E. run. subst. by apply sends_nothing.
- apply published_shape in E as [(_ & -> & _)|(r & o & s1 & _ & _ & E)]; [by apply sends_nothing|].
pose proof (pump_channel (N.to_nat RAW_BATCH_LIMIT) (an_now a) window (Some r) (with_output s o)) as Hp.
destruct E as [(E & -> & _)|(e & s2 & E & Ed & Es)]; rewrite E in Hp; cbn [fst] in Hp; [by apply sends_nothing|].
eapply sends_more; [by apply sends_nothing|]. eapply sends_more; [by eapply drain_grows|by eapply send_end_grows].
- run. subst. repeat case_match; by apply sends_nothing.
Qed.

(** ** The viewer and what is typed *)

Lemma encode_plain f encoded : wire (encode f) = Ok encoded -> plain f.
Proof.
destruct f; cbn [plain]; try done. unfold encode. cbn [encode_body]. by destruct (is_input control).
Qed.

(** The viewer acknowledged no more than it received. *)
Definition acked (v : Viewer.t) : Prop := Viewer.acknowledged (Viewer.acks v) <= Viewer.received (Viewer.acks v).

(** What the viewer typed stays, and frames without input may go. *)
Definition quiet (v v' : Viewer.t) : Prop :=
(acked v -> acked v') /\
Viewer.input_sent (Viewer.typed v') = Viewer.input_sent (Viewer.typed v) /\
Viewer.input_confirmed (Viewer.typed v') = Viewer.input_confirmed (Viewer.typed v) /\
exists l, Viewer.sent (Viewer.out v') = Viewer.sent (Viewer.out v) ++ l /\
Forall (fun f => input_of f = None /\ plain f) l.

Lemma quiet_refl v v' : (acked v -> acked v') -> Viewer.typed v' = Viewer.typed v ->
Viewer.sent (Viewer.out v') = Viewer.sent (Viewer.out v) -> quiet v v'.
Proof. intros Ea Et Eo. unfold quiet. rewrite Et, Eo. split; [done|]. split; [done|]. split; [done|]. exists []. by rewrite app_nil_r. Qed.

(** A change that has nothing to do with what is typed. *)
Ltac same_typed := solve [apply quiet_refl; [first [done|unfold acked; cbn; lia]|done|done]].

Lemma quiet_trans v1 v2 v3 : quiet v1 v2 -> quiet v2 v3 -> quiet v1 v3.
Proof.
intros (E0 & E1 & E2 & l & E3 & Hl) (F0 & F1 & F2 & k & F3 & Hk). split; [by eauto|].
split; [congruence|]. split; [congruence|].
exists (l ++ k). rewrite F3, E3. split; [by rewrite app_assoc|]. by apply Forall_app.
Qed.

Lemma view_send_quiet f v v' : Viewer.send f v = Ok v' -> input_of f = None -> quiet v v'.
Proof.
unfold Viewer.send. intros E Ef. run. subst. split; [done|]. split; [done|]. split; [done|]. exists [f]. split; [done|].
repeat constructor; [done|by eapply encode_plain].
Qed.

Lemma update_quiet w u v v' : Viewer.update w u v = Ok v' -> quiet v v'.
Proof. unfold Viewer.update. intros E. run. subst. same_typed. Qed.

Lemma acknowledge_quiet v v' : Viewer.acknowledge v = Ok v' -> quiet v v'.
Proof.
unfold Viewer.acknowledge. intros E. run; subst; [same_typed|].
apply view_send_quiet in E; [|done]. refine (quiet_trans _ _ _ _ E). same_typed.
Qed.

(** The steps of a computation are quiet. *)
Ltac hush :=
repeat match goal with
| E : Viewer.send _ _ = Ok _ |- _ => apply view_send_quiet in E; [|done]
| E : Viewer.update _ _ _ = Ok _ |- _ => apply update_quiet in E
| E : Viewer.acknowledge _ = Ok _ |- _ => apply acknowledge_quiet in E
end;
try done; try (same_typed);
try match goal with Q : quiet _ ?v |- quiet _ ?v => refine (quiet_trans _ _ _ _ Q); same_typed end.

Lemma count_quiet w f n v v' : Viewer.count w f n v = Ok v' -> quiet v v'.
Proof. unfold Viewer.count. intros E. run; subst; hush. Qed.

Lemma keyframe_quiet w n more part v v' : Viewer.keyframe w n more part v = Ok v' -> quiet v v'.
Proof.
unfold Viewer.keyframe. intros E. run; subst; hush.
all: refine (quiet_trans _ _ _ _ E); repeat match goal with Q : quiet ?a ?b |- quiet ?c ?b => refine (quiet_trans c a b _ Q) end; hush.
Qed.

Lemma raw_quiet w n chunks v v' : Viewer.raw w n chunks v = Ok v' -> quiet v v'.
Proof.
revert n v. induction chunks as [|chunk chunks IH]; intros n v; cbn [Viewer.raw]; intros E; run; subst; hush.
apply IH in E. by eapply quiet_trans.
Qed.

Lemma pipe_part_quiet w pipe more part v v' : Viewer.pipe_part w pipe more part v = Ok v' -> quiet v v'.
Proof. unfold Viewer.pipe_part. intros E. run; subst; hush. Qed.

Lemma picture_state_quiet w state v v' : Viewer.picture_state w state v = Ok v' -> quiet v v'.
Proof. unfold Viewer.picture_state. intros E. run; subst; hush. Qed.

Lemma send_part_quiet w v v' : Viewer.send_part w v = Ok v' -> quiet v v'.
Proof. unfold Viewer.send_part, Viewer.part. intros E. run; subst; hush. Qed.

Lemma answer_quiet id r v : quiet v (Viewer.answer id r v).
Proof. unfold Viewer.answer. case_match; same_typed. Qed.

Lemma deadlines_quiet w v v' : Viewer.deadlines w v = Ok v' -> quiet v v'.
Proof.
unfold Viewer.deadlines. intros E. run. apply quiet_trans with (v2 := map_fold
(fun _ p v => Viewer.tell (Viewer.p_reply p) (Viewer.ReplyError (SInvalid Viewer.NOT_CONFIRMED)) v)
(Viewer.with_pending v (filter (fun kv : Uuid * Viewer.Pending => ~ Viewer.p_deadline kv.2 <= Viewer.w_now w)
(Viewer.pending (Viewer.waits v))))
(filter (fun kv : Uuid * Viewer.Pending => Viewer.p_deadline kv.2 <= Viewer.w_now w) (Viewer.pending (Viewer.waits v)))).
- apply (map_fold_weak_ind (fun r _ => quiet v r)); [same_typed|].
intros i p m r _ Q. refine (quiet_trans _ _ _ Q _). same_typed.
- subst v'. repeat case_match; same_typed.
Qed.

Lemma offer_quiet w picture reply v v' : Viewer.offer w picture reply v = Ok v' -> quiet v v'.
Proof. unfold Viewer.offer. intros E. run; subst; hush. Qed.

Lemma pipe_request_quiet closed r v v' : Viewer.pipe_request closed r v = Ok v' -> quiet v v'.
Proof. unfold Viewer.pipe_request. intros E. destruct r; run; subst; hush. Qed.

(** What a request of the view does to what is typed. *)
Lemma request_typed w closed r v v' : Viewer.request w closed r v = Ok v' ->
quiet v v' \/ exists input hb, let k := Viewer.typed v in
Viewer.acks v' = Viewer.acks v /\
Viewer.typed v' = Viewer.MkTyped (Viewer.heartbeat k) (Viewer.input_sent k + len input) (Viewer.input_confirmed k) /\
Viewer.sent (Viewer.out v') = Viewer.sent (Viewer.out v) ++ [FInput (Viewer.input_sent k) hb input].
Proof.
intros E. destruct r; cbn [Viewer.request] in E.
- destruct control; try (left; run; subst; hush; match goal with Q : quiet _ ?x |- _ =>
refine (quiet_trans _ _ _ Q _) end; same_typed).
run; subst; try (left; same_typed). right. exists input, (Viewer.heartbeat (Viewer.typed v)).
unfold Viewer.send in *. run. subst. done.
- left. run; subst; hush.
- left. by apply pipe_request_quiet in E.
- left. by apply pipe_request_quiet in E.
- left. by apply pipe_request_quiet in E.
- left. by apply pipe_request_quiet in E.
- left. by apply offer_quiet in E.
Qed.

(** And what a frame of the host does to it. *)
Lemma frame_typed w f n v v' next : Viewer.frame w f n v = Ok (v', next) ->
exists v1, quiet v v1 /\
match ack_of f with
| Some offset => next = Viewer.Goes /\
Viewer.input_confirmed (Viewer.typed v) <= offset <= Viewer.input_sent (Viewer.typed v) /\
v' = Viewer.with_typed v1 (Viewer.MkTyped (Viewer.heartbeat (Viewer.typed v1)) (Viewer.input_sent (Viewer.typed v)) offset)
| None => next = Viewer.Goes /\ v' = v1 \/
next = Viewer.Closes /\ Viewer.sent (Viewer.out v') = Viewer.sent (Viewer.out v1) /\
Viewer.input_sent (Viewer.typed v') = Viewer.input_sent (Viewer.typed v)
end.
Proof.
unfold Viewer.frame. intros E. apply bind_ok in E as (v1 & Ec & E). apply count_quiet in Ec.
unfold Viewer.goes in E. destruct f; try discriminate E; cbn [ack_of].
all: try (run; subst; eexists; split; [exact Ec|]; by left).
all: try (apply fmap_ok in E as (v2 & E & [= <- <-]); exists v2; split; [|by left]; refine (quiet_trans _ _ _ Ec _)).
- by apply keyframe_quiet in E.
- by apply raw_quiet in E.
- hush.
- hush.
- apply view_send_quiet in E as (E0 & E1 & E2 & E3); [|done]. split; [intros _; apply E0; unfold acked; cbn; lia|done].
- apply ok_inj in E. apply pair_equal_spec in E as [<- <-]. exists v1. split; [exact Ec|]. right. split; [done|].
destruct Ec as (_ & E1 & _). unfold Viewer.update. by destruct (Viewer.w_open w).
- run. subst. exists v1. split; [done|]. destruct Ec as (_ & E1 & E2 & _).
match goal with Hb : _ || _ = false |- _ => apply orb_false_elim in Hb as [H1%N.ltb_ge H2%N.ltb_ge] end.
rewrite E1 in *. rewrite E2 in *. split; [done|]. split; [lia|done].
- apply ok_inj in E. subst. apply answer_quiet.
- apply ok_inj in E. subst. apply answer_quiet.
- by apply picture_state_quiet in E.
- by apply pipe_part_quiet in E.
- apply ok_inj in E. subst. same_typed.
- apply ok_inj in E. subst. case_match; same_typed.
Qed.

(** A turn of the viewer that takes no frame. *)
Lemma view_step_typed w e v v' n : Viewer.step w e v = Ok (v', n) -> is_frame e = false ->
n = Viewer.Goes /\ (quiet v v' \/ exists input hb, let k := Viewer.typed v in
Viewer.acks v' = Viewer.acks v /\
Viewer.typed v' = Viewer.MkTyped (Viewer.heartbeat k) (Viewer.input_sent k + len input) (Viewer.input_confirmed k) /\
Viewer.sent (Viewer.out v') = Viewer.sent (Viewer.out v) ++ [FInput (Viewer.input_sent k) hb input] /\
Viewer.input_sent k < Viewer.input_confirmed k + Viewer.UNCONFIRMED_INPUT).
Proof.
unfold Viewer.step, Viewer.takes_requests, nsub. intros E He.
apply bind_ok in E as (takes & Et & E). apply bind_ok in Et as (m & Em & Et). apply ok_inj in Et.
destruct (N.leb_spec (Viewer.input_confirmed (Viewer.typed v)) (Viewer.input_sent (Viewer.typed v))) as [Hle|]; [|done].
apply ok_inj in Em. subst m. destruct e; try done; unfold Viewer.goes in E.
- apply fmap_ok in E as (v2 & E & [= <- <-]). split; [done|]. left. by apply deadlines_quiet in E.
- destruct (Viewer.upload (Viewer.waits v)) as [u|]; [|run; subst; split; [done|left; same_typed]].
apply bind_ok in E as (wants & _ & E). apply fmap_ok in E as (v2 & E & [= <- <-]). split; [done|]. left.
destruct wants; [by apply send_part_quiet in E|]. apply ok_inj in E. subst. same_typed.
- apply fmap_ok in E as (v2 & E & [= <- <-]). split; [done|]. left.
case_match; [by apply acknowledge_quiet in E|]. apply ok_inj in E. subst. same_typed.
- apply fmap_ok in E as (v2 & E & [= <- <-]). split; [done|]. destruct takes; [|apply ok_inj in E; subst; left; same_typed].
apply request_typed in E as [Q|(input & hb & Ea & E1 & E2)]; [by left|]. right. exists input, hb.
apply N.ltb_lt in Et. repeat split; try done. lia.
Qed.

(** ** The viewer and the screen *)

(** What the viewer shows stays. *)
Definition still (v v' : Viewer.t) : Prop :=
Viewer.snapshot (Viewer.view v') = Viewer.snapshot (Viewer.view v) /\
Viewer.snapshot_sequence (Viewer.view v') = Viewer.snapshot_sequence (Viewer.view v) /\
screen_updates v' = screen_updates v.

Lemma still_refl v v' : Viewer.snapshot (Viewer.view v') = Viewer.snapshot (Viewer.view v) ->
Viewer.snapshot_sequence (Viewer.view v') = Viewer.snapshot_sequence (Viewer.view v) ->
Viewer.updates (Viewer.out v') = Viewer.updates (Viewer.out v) -> still v v'.
Proof. intros E1 E2 E3. unfold still, screen_updates. by rewrite E3. Qed.

Lemma still_trans v1 v2 v3 : still v1 v2 -> still v2 v3 -> still v1 v3.
Proof. intros (E1 & E2 & E3) (F1 & F2 & F3). repeat split; congruence. Qed.

Lemma view_send_still f v v' : Viewer.send f v = Ok v' -> still v v'.
Proof. unfold Viewer.send. intros E. run. subst. by apply still_refl. Qed.

Lemma view_update w u v v' : Viewer.update w u v = Ok v' ->
Viewer.view v' = Viewer.view v /\ screen_updates v' = screen_updates v ++ filter on_screen [u].
Proof.
unfold Viewer.update. intros E. run. subst. split; [done|]. unfold screen_updates. cbn [Viewer.out Viewer.updates Viewer.with_out].
by rewrite filter_app.
Qed.

Lemma update_still w u v v' : Viewer.update w u v = Ok v' -> on_screen u = false -> still v v'.
Proof.
intros E Hu. apply view_update in E as [E1 E2]. unfold still. rewrite E1, E2, filter_cons, decide_False; [|rewrite Hu; by intros []].
by rewrite app_nil_r.
Qed.

Lemma acknowledge_still v v' : Viewer.acknowledge v = Ok v' -> still v v'.
Proof. unfold Viewer.acknowledge. intros E. run; subst; [by apply still_refl|]. by apply view_send_still in E. Qed.

Ltac stilling :=
repeat match goal with
| E : Viewer.send _ _ = Ok _ |- _ => apply view_send_still in E
| E : Viewer.update _ _ _ = Ok _ |- _ => apply update_still in E; [|done]
| E : Viewer.acknowledge _ = Ok _ |- _ => apply acknowledge_still in E
end;
try done; try (by apply still_refl);
try match goal with Q : still _ ?v |- still _ ?v => refine (still_trans _ _ _ _ Q); by apply still_refl end;
try match goal with Q : still ?u _ |- still ?u _ => refine (still_trans _ _ _ Q _); by apply still_refl end.

Lemma count_still w f n v v' : Viewer.count w f n v = Ok v' -> still v v'.
Proof. unfold Viewer.count. intros E. run; subst; stilling. Qed.

Lemma picture_state_still w state v v' : Viewer.picture_state w state v = Ok v' -> still v v'.
Proof. unfold Viewer.picture_state. intros E. run; subst; stilling. Qed.

Lemma answer_still id r v : still v (Viewer.answer id r v).
Proof. unfold Viewer.answer. case_match; by apply still_refl. Qed.

Lemma deadlines_still w v v' : Viewer.deadlines w v = Ok v' -> still v v'.
Proof.
unfold Viewer.deadlines. intros E. run. apply still_trans with (v2 := map_fold
(fun _ p v => Viewer.tell (Viewer.p_reply p) (Viewer.ReplyError (SInvalid Viewer.NOT_CONFIRMED)) v)
(Viewer.with_pending v (filter (fun kv : Uuid * Viewer.Pending => ~ Viewer.p_deadline kv.2 <= Viewer.w_now w)
(Viewer.pending (Viewer.waits v))))
(filter (fun kv : Uuid * Viewer.Pending => Viewer.p_deadline kv.2 <= Viewer.w_now w) (Viewer.pending (Viewer.waits v)))).
- apply (map_fold_weak_ind (fun r _ => still v r)); [by apply still_refl|].
intros i p m r _ Q. refine (still_trans _ _ _ Q _). by apply still_refl.
- subst v'. repeat case_match; by apply still_refl.
Qed.

Lemma request_still w closed r v v' : Viewer.request w closed r v = Ok v' -> still v v'.
Proof.
intros E. destruct r; cbn [Viewer.request] in E; try (run; subst; stilling; fail).
all: unfold Viewer.offer, Viewer.pipe_request in E; run; subst; stilling.
Qed.

Lemma view_step_still w e v v' n : Viewer.step w e v = Ok (v', n) -> is_frame e = false -> still v v'.
Proof.
unfold Viewer.step, Viewer.goes. intros E He. apply bind_ok in E as (takes & _ & E). destruct e; try done.
- apply fmap_ok in E as (v2 & E & [= <- <-]). by apply deadlines_still in E.
- unfold Viewer.send_part in E. run; subst; stilling.
- run; subst; stilling.
- run; subst; stilling. by apply request_still in Ex.
Qed.

(** A frame that has nothing to do with the screen. *)
Lemma frame_still w f n v v' next : Viewer.frame w f n v = Ok (v', next) -> off_screen f -> still v v'.
Proof.
unfold Viewer.frame, Viewer.goes. intros E Hf. apply bind_ok in E as (v1 & Ec & E). apply count_still in Ec.
refine (still_trans _ _ _ Ec _). clear Ec. destruct f; try discriminate E; try done.
- run. subst. stilling.
- run. subst. stilling.
- apply ok_inj in E. apply pair_equal_spec in E as [<- _]. unfold Viewer.update. destruct (Viewer.w_open w); [|by apply still_refl].
unfold still, screen_updates. cbn. by rewrite filter_app, app_nil_r.
- run. subst. by apply still_refl.
- run. subst. apply answer_still.
- run. subst. apply answer_still.
- run. subst. by apply picture_state_still in Ex.
- unfold Viewer.pipe_part in E. run; subst; stilling.
- run. subst. by apply still_refl.
- run. subst. case_match; by apply still_refl.
Qed.
End connection.

Arguments typist : simpl never.
Arguments inputs_sent : simpl never.
Arguments inputs_asked : simpl never.
Arguments input_size : simpl never.
