(* ===== verification/ConnectionClaims.v ===== *)
(** Theorems of a connection ([Connection]): what is typed arrives once and in order, and the
    viewer shows what the terminal shows; and a run in which the host loses a frame. *)

From Stdlib Require Import Sorted.
From S2P Require Import Prelude Json Utf Terminal Wire WireSpec WireClaims Stream Viewer Connection.
Open Scope N_scope.

(** ** What is typed *)

Section typed.
Context `{Libraries, Sha256}.

(** Input goes in pieces, each with the number of bytes before it. *)
Fixpoint chained (n : N) (l : list Frame) : Prop :=
match l with
| [] => True
| FInput offset _ input :: l => offset = n /\ chained (n + len input) l
| _ :: l => chained n l
end.

(** Not more waits than a viewer sends without a confirmation. *)
Definition near (confirmed : N) (f : Frame) : Prop :=
match f with FInput offset _ _ => offset < confirmed + Viewer.UNCONFIRMED_INPUT | _ => True end.

Lemma input_size_app l k : input_size (l ++ k) = input_size l + input_size k.
Proof. unfold input_size, inputs_sent. by rewrite omap_app, concat_app, len_app. Qed.

Lemma chained_app n l k : chained n (l ++ k) <-> chained n l /\ chained (n + input_size l) k.
Proof.
revert n. induction l as [|f l IH]; intros n; [change (input_size []) with 0; cbn; rewrite N.add_0_r; tauto|].
change (f :: l) with ([f] ++ l). rewrite input_size_app. cbn [app chained].
destruct f; cbn [input_size inputs_sent]; try (rewrite IH; change (input_size _) with 0 at 2; done).
all: try (rewrite IH; change (N.add (input_size _) (input_size l)) with (0 + input_size l); by rewrite N.add_0_l).
rewrite IH. change (input_size [FInput offset heartbeat input]) with (len (input ++ [])).
rewrite app_nil_r, N.add_assoc. tauto.
Qed.

Lemma chained_quiet n l : Forall (fun f => input_of f = None /\ plain f) l -> chained n l /\ input_size l = 0 /\ inputs_sent l = [].
Proof.
intros Hl. revert n. induction Hl as [|f l [Hf _] _ IH]; intros n; [done|]. destruct (IH n) as (H1 & H2 & H3).
destruct f; done.
Qed.

Lemma sorted_last (l : list N) c o : StronglySorted N.le (l ++ [c]) -> c <= o -> StronglySorted N.le (l ++ [o]).
Proof.
intros Hs Ho. induction l as [|a l IH]; [repeat constructor|]. cbn in *. inversion Hs as [|? ? Hs' Ha]; subst.
constructor; [by apply IH|]. apply Forall_app in Ha as [H1 H2]. apply Forall_app. split; [done|].
inversion H2; subst. constructor; [lia|done].
Qed.

Lemma sorted_twice (l : list N) o : StronglySorted N.le (l ++ [o]) -> StronglySorted N.le ((l ++ [o]) ++ [o]).
Proof.
intros Hs. induction l as [|a l IH]; [repeat constructor; lia|]. cbn in *. inversion Hs as [|? ? Hs' Ha]; subst.
constructor; [by apply IH|]. apply Forall_app. split; [done|]. apply Forall_app in Ha as [_ Ha]. done.
Qed.

Lemma sorted_head c (l : list N) o : StronglySorted N.le (c :: l ++ [o]) -> c <= o.
Proof.
intros Hs. inversion Hs as [|? ? _ Ha]; subst. apply Forall_app in Ha as [_ Ha]. by inversion Ha.
Qed.

(** What holds of a connection, for what is typed. *)
Record typed_inv (b : Both) : Prop := {
ti_chain : chained 0 (sent_to_host b);
ti_sent : Viewer.input_sent (Viewer.typed (viewer b)) = input_size (sent_to_host b);
ti_plain : Forall plain (sent_to_host b);
ti_acked : viewer_done b = false -> acked (viewer b);
ti_count : (to_host b <= length (sent_to_host b))%nat;
ti_offset : ty_offset (typist (host b)) = input_size (take (to_host b) (sent_to_host b));
ti_asked : ty_asked (typist (host b)) = inputs_sent (take (to_host b) (sent_to_host b));
ti_order : StronglySorted N.le (ty_confirmed (typist (host b)) :: ty_inputs (typist (host b)) ++ [ty_offset (typist (host b))]);
ti_parts : ty_parts (typist (host b)) = [];
ti_near : Forall (near (ty_confirmed (typist (host b)))) (drop (to_host b) (sent_to_host b));
ti_back : viewer_done b = false ->
StronglySorted N.le (Viewer.input_confirmed (Viewer.typed (viewer b)) ::
omap ack_of (drop (to_viewer b) (sent_to_viewer b)) ++ [ty_confirmed (typist (host b))]);
ti_taken : (to_viewer b <= length (sent_to_viewer b))%nat
}.

(** A host that keeps what is typed, or publishes, or sends other frames. *)
Lemma typed_host_kept b h s d : typed_inv b -> typist s = typist (host b) -> grows (host b) s ->
typed_inv (MkBoth h s (viewer b) (to_host b) (to_viewer b) d (viewer_done b)).
Proof.
intros [] Ht [l El]. split; cbn; unfold sent_to_host, sent_to_viewer in *; cbn; rewrite ?Ht; try done.
- intros Hd. rewrite El, drop_app_le by done. rewrite omap_app.
assert (El' : omap ack_of l = []).
{ apply (f_equal ty_acks) in Ht. unfold typist in Ht. cbn [ty_acks] in Ht. rewrite El, omap_app in Ht.
by apply app_eq_self_r in Ht || (apply (app_inv_head (omap ack_of (channel (host b)))); by rewrite app_nil_r). }
rewrite El', app_nil_r. auto.
- rewrite El, length_app. lia.
Qed.

(** A host that confirms the oldest input. *)
Lemma typed_host_confirms b s o rest l : typed_inv b -> ty_inputs (typist (host b)) = o :: rest ->
typist s = (let t := typist (host b) in
MkTypist (ty_offset t) o rest (ty_acks t ++ [o]) (ty_asked t) (ty_parts t)) ->
channel s = channel (host b) ++ l ->
typed_inv (MkBoth (history b) s (viewer b) (to_host b) (to_viewer b) false (viewer_done b)).
Proof.
intros [] Hi Ht El. rewrite Hi in ti_order0. cbn [app] in ti_order0.
assert (Hc : ty_confirmed (typist (host b)) <= o) by (inversion ti_order0 as [|? ? _ Hf]; by inversion Hf).
split; cbn; unfold sent_to_host, sent_to_viewer in *; cbn; rewrite ?Ht; try done; cbn.
- by inversion ti_order0.
- eapply Forall_impl; [exact ti_near0|]. intros f. destruct f; cbn; lia.
- intros Hd. rewrite El, drop_app_le by done. rewrite omap_app.
assert (El' : omap ack_of l = [o]).
{ apply (f_equal ty_acks) in Ht. unfold typist in Ht. cbn [ty_acks] in Ht. rewrite El, omap_app in Ht.
by apply app_inv_head in Ht. }
rewrite El'. refine (sorted_twice (_ :: omap ack_of (drop _ _)) o _).
by refine (sorted_last (_ :: _) _ o (ti_back0 Hd) _).
- rewrite El, length_app. lia.
Qed.

(** A host that takes a frame. *)
Lemma typed_host_takes b a f s : typed_inv b -> sent_to_host b !! to_host b = Some f ->
received a f (host b) = Ok s -> grows (host b) s ->
typed_inv (MkBoth (history b) s (viewer b) (S (to_host b)) (to_viewer b) false (viewer_done b)).
Proof.
intros Hb Hf E [l El]. pose proof Hb as [].
apply received_typist in E; [|by eapply Forall_lookup_1].
assert (Et : take (S (to_host b)) (sent_to_host b) = take (to_host b) (sent_to_host b) ++ [f]) by (by apply take_S_r).
assert (Ed : drop (to_host b) (sent_to_host b) = f :: drop (S (to_host b)) (sent_to_host b)) by (by apply drop_S).
rewrite Ed in ti_near0. apply Forall_cons in ti_near0 as [Hn ti_near0].
assert (Hlt := lookup_lt_Some _ _ _ Hf).
assert (Hrest : input_of f = None -> typist s = typist (host b) -> typed_inv
(MkBoth (history b) s (viewer b) (S (to_host b)) (to_viewer b) false (viewer_done b))).
{ intros Hi Ht. pose proof (typed_host_kept b (history b) s false Hb Ht (ex_intro _ l El)) as [].
split; cbn in *; unfold sent_to_host, sent_to_viewer in *; cbn in *; try done.
- rewrite Et, input_size_app, ti_offset1. destruct (chained_quiet 0 [f]) as (_ & Ez & _); [|lia].
constructor; [|constructor]. split; [done|]. by eapply Forall_lookup_1.
- rewrite Et, ti_asked1. unfold inputs_sent. rewrite omap_app. cbn. by rewrite Hi, app_nil_r.
- by rewrite Ht. }
destruct f; try (by apply Hrest). destruct E as (t & -> & Eo & Ht).
pose proof ti_chain0 as Hc. rewrite <- (take_drop (to_host b) (sent_to_host b)), chained_app, Ed in Hc.
destruct Hc as [_ [Ec _]].
assert (Es : ty_offset (typist s) = offset + len input) by (by rewrite Ht).
split; cbn; unfold sent_to_host, sent_to_viewer in *; cbn; try done.
- rewrite Es, Et, input_size_app. change (input_size [FInput offset heartbeat input]) with (len (input ++ [])).
rewrite app_nil_r. lia.
- rewrite Ht, Et. cbn. rewrite ti_asked0. unfold inputs_sent. by rewrite omap_app.
- rewrite Ht. cbn. refine (sorted_twice (_ :: _) _ _). refine (sorted_last (_ :: _) _ _ ti_order0 _). lia.
- by rewrite Ht.
- by rewrite Ht.
- intros Hd. rewrite Ht, El, drop_app_le by done. cbn. rewrite omap_app.
assert (El' : omap ack_of l = []).
{ apply (f_equal ty_acks) in Ht. unfold typist in Ht. cbn [ty_acks] in Ht. rewrite El, omap_app in Ht.
apply (app_inv_head (omap ack_of (channel (host b)))). by rewrite app_nil_r. }
rewrite El', app_nil_r. auto.
- rewrite El, length_app. lia.
Qed.

(** A viewer that stays quiet. *)
Lemma typed_view_kept b v1 v n d : typed_inv b -> quiet (viewer b) v1 ->
Viewer.sent (Viewer.out v) = Viewer.sent (Viewer.out v1) ->
Viewer.input_sent (Viewer.typed v) = Viewer.input_sent (Viewer.typed (viewer b)) ->
(d = false -> acked v) -> (n <= length (sent_to_viewer b))%nat ->
(d = false -> StronglySorted N.le (Viewer.input_confirmed (Viewer.typed v) ::
omap ack_of (drop n (sent_to_viewer b)) ++ [ty_confirmed (typist (host b))])) ->
typed_inv (MkBoth (history b) (host b) v (to_host b) n (host_done b) d).
Proof.
intros [] (Qa & Qs & Qc & l & El & Hl) Eo Ei Ha Hn Hs.
destruct (chained_quiet (0 + input_size (sent_to_host b)) l Hl) as (Hch & Hz & Hi).
unfold sent_to_host, sent_to_viewer in *. split; cbn; unfold sent_to_host, sent_to_viewer; cbn; try done; rewrite Eo, El.
- by apply chained_app.
- rewrite input_size_app, Hz, Ei, ti_sent0. lia.
- apply Forall_app. split; [done|]. eapply Forall_impl; [exact Hl|]. by intros f [_ ?].
- rewrite length_app. lia.
- by rewrite take_app_le by done.
- by rewrite take_app_le by done.
- rewrite drop_app_le by done. apply Forall_app. split; [done|]. eapply Forall_impl; [exact Hl|].
intros f [Hf _]. by destruct f.
Qed.

(** A viewer that types. *)
Lemma typed_view_types b v input hb : let k := Viewer.typed (viewer b) in typed_inv b -> viewer_done b = false ->
Viewer.acks v = Viewer.acks (viewer b) ->
Viewer.typed v = Viewer.MkTyped (Viewer.heartbeat k) (Viewer.input_sent k + len input) (Viewer.input_confirmed k) ->
Viewer.sent (Viewer.out v) = sent_to_host b ++ [FInput (Viewer.input_sent k) hb input] ->
Viewer.input_sent k < Viewer.input_confirmed k + Viewer.UNCONFIRMED_INPUT ->
typed_inv (MkBoth (history b) (host b) v (to_host b) (to_viewer b) (host_done b) false).
Proof.
intros k [] Hd Ea Et Eo Hlt. specialize (ti_back0 Hd). pose proof (sorted_head _ _ _ ti_back0) as Hc.
unfold sent_to_host, sent_to_viewer in *. split; cbn; unfold sent_to_host, sent_to_viewer; cbn; try done; rewrite ?Eo, ?Et.
- apply chained_app. split; [done|]. cbn. split; [|done]. unfold k. rewrite ti_sent0. lia.
- rewrite input_size_app. cbn. unfold k. rewrite ti_sent0. f_equal.
change (input_size [_]) with (len (input ++ [])). by rewrite app_nil_r.
- apply Forall_app. split; [done|]. by repeat constructor.
- intros _. unfold acked. rewrite Ea. by apply ti_acked0.
- rewrite length_app. lia.
- by rewrite take_app_le by done.
- by rewrite take_app_le by done.
- rewrite drop_app_le by done. apply Forall_app. split; [done|]. constructor; [|constructor]. unfold near. subst k. lia.
- intros _. exact ti_back0.
Qed.

Lemma typed_step shows b b' : step shows b b' -> typed_inv b -> typed_inv b'.
Proof.
intros Hs Hb. pose proof Hb as []. destruct Hs.
- apply (typed_host_kept b); [done|done|by apply sends_nothing].
- apply (typed_host_kept b); [done|done|by apply sends_nothing].
- pose proof (serve_grows _ _ _ _ _ _ ti_parts0 H3) as Hg. pose proof (serve_typist _ _ _ _ _ _ H3 ti_parts0) as Ht.
destruct e; try (by apply (typed_host_kept b)).
cbv zeta in Ht. destruct (ty_inputs (typist (host b))) as [|o rest] eqn:Ei; [by apply (typed_host_kept b)|].
destruct Hg as [l El]. destruct (serve_calm a window (EvInputDone accepted) _ s x eq_refl ti_parts0 H3) as [_ ->].
by apply (typed_host_confirms b s o rest l).
- pose proof (serve_grows _ _ _ _ _ _ ti_parts0 H3) as Hg. cbn [serve_step] in H3. unfold serving in H3.
apply fmap_ok in H3 as (s1 & E & [= <- <-]). by apply (typed_host_takes b a f).
- apply view_step_typed in H3 as [-> [Q|(input & hb & Ea & Et & Eo & Hlt)]]; [|by eapply typed_view_types|done].
pose proof Q as (Qa & Qs & Qc & _). cbn [closes_view]. apply (typed_view_kept b v); try done; [auto|].
intros _. rewrite Qc. auto.
- unfold Viewer.step in H3. apply bind_ok in H3 as (takes & _ & E). apply frame_typed in E as (v1 & Q & E).
assert (Ed : drop (to_viewer b) (sent_to_viewer b) = f :: drop (S (to_viewer b)) (sent_to_viewer b)) by (by apply drop_S).
assert (Hlt := lookup_lt_Some _ _ _ H2). specialize (ti_back0 H1). rewrite Ed in ti_back0. cbn in ti_back0.
pose proof Q as (Qa & Qs & Qc & _).
destruct (ack_of f) as [o|].
+ destruct E as (-> & Ho & ->). cbn [closes_view]. apply (typed_view_kept b v1); try done; [by intros _; apply Qa; auto|].
intros _. by inversion ti_back0.
+ destruct E as [[-> ->]|(-> & Eo & Ei)]; cbn [closes_view]; apply (typed_view_kept b v1); try done.
* intros _. auto.
* intros _. by rewrite Qc.
Qed.

Lemma typed_connected shows b : connected shows b -> typed_inv b.
Proof.
intros (h & now & _ & Hr). assert (H1 : typed_inv (start h now)).
{ split; try done; cbn; try lia; by repeat constructor. }
revert H1. induction Hr as [|b1 b2 b3 Hs _ IH]; [done|]. intros H1. apply IH. by eapply typed_step.
Qed.

(** Input in its place is taken, or it is too old. *)
Lemma received_input_ok offset hb input s : offset = input_offset (typing s) ->
input_confirmed (typing s) <= offset -> offset < input_confirmed (typing s) + Viewer.UNCONFIRMED_INPUT ->
received_input offset hb input None s =
Err (SInvalid "Terminal input arrived too late, and the host did not use it.") \/
exists s', received_input offset hb input None s = Ok s' /\ inputs_asked (asked s') = inputs_asked (asked s) ++ [input].
Proof.
intros -> Hc Hn. unfold received_input. rewrite N.eqb_refl. cbn [negb orb]. unfold nsub.
rewrite (proj2 (N.leb_le _ _)) by done. cbn [mbind Result_bind].
unfold UNCONFIRMED_INPUT, Viewer.UNCONFIRMED_INPUT in *. rewrite (proj2 (N.ltb_ge _ _)) by lia.
case_match; [by left|]. right. eexists. split; [reflexivity|]. unfold inputs_asked. cbn [asked ask with_typing].
by rewrite omap_app.
Qed.

End typed.

(** ** What the viewer shows *)

Section screen.
Context `{Libraries, Sha256}.

(** What a viewer that takes frames has of a snapshot, tells, and whether it took them all. *)
Record Shown : Type := MkShown {
sh_sequence : option N; sh_packed : bytes; sh_updates : list Viewer.RemoteUpdate; sh_ok : bool
}.

Fixpoint raw_updates (n : N) (chunks : list bytes) : list Viewer.RemoteUpdate :=
match chunks with [] => [] | chunk :: chunks => Viewer.URaw n chunk :: raw_updates (n + 1) chunks end.

Definition tells (us : list Viewer.RemoteUpdate) (s : Shown) : Shown :=
MkShown (sh_sequence s) (sh_packed s) (sh_updates s ++ us) (sh_ok s).
Definition refuses (s : Shown) : Shown := MkShown (sh_sequence s) (sh_packed s) (sh_updates s) false.

Definition show (s : Shown) (f : Frame) : Shown :=
match f with
| FKeyframe n more part =>
let before := if decide (sh_sequence s = Some n) then sh_packed s else [] in
if PACKED_SNAPSHOT_LIMIT <? len before + len part then refuses s
else if more then MkShown (Some n) (before ++ part) (sh_updates s) (sh_ok s)
else match Wire.snapshot (before ++ part) with
| Ok k => MkShown None [] (sh_updates s ++ [Viewer.UCheckpoint k n]) (sh_ok s)
| _ => refuses s
end
| FOutput n chunks => tells (raw_updates n chunks) s
| FResize rows cols cell at_sequence => tells [Viewer.UResize rows cols cell at_sequence] s
| _ => s
end.

Definition nothing : Shown := MkShown None [] [] true.
Definition told (l : list Frame) : Shown := foldl show nothing l.

Lemma told_app l k : told (l ++ k) = foldl show (told l) k.
Proof. apply foldl_app. Qed.

(** The viewer is as far as what it was told. *)
Definition shown (v : Viewer.t) (s : Shown) : Prop :=
Viewer.snapshot (Viewer.view v) = sh_packed s /\ Viewer.snapshot_sequence (Viewer.view v) = sh_sequence s /\
screen_updates v = sh_updates s.

Lemma still_shown v v' s : still v v' -> shown v s -> shown v' s.
Proof. intros (E1 & E2 & E3) (F1 & F2 & F3). repeat split; congruence. Qed.

Lemma raw_shown w n chunks v v' s : Viewer.raw w n chunks v = Ok v' -> shown v s -> shown v' (tells (raw_updates n chunks) s).
Proof.
revert n v s. induction chunks as [|chunk chunks IH]; intros n v s; cbn [Viewer.raw raw_updates]; intros E Hs.
- apply ok_inj in E. subst. unfold shown, tells. cbn. by rewrite app_nil_r.
- apply bind_ok in E as (v1 & E1 & E). apply view_update in E1 as [E1 E2].
destruct (IH _ _ (tells [Viewer.URaw n chunk] s) E) as (G1 & G2 & G3).
+ destruct Hs as (F1 & F2 & F3). unfold shown, tells. rewrite E1, E2, F3. done.
+ repeat split; try done. rewrite G3. unfold tells. cbn. by rewrite <- app_assoc.
Qed.

Lemma keyframe_shown w n more part v v' s : Viewer.keyframe w n more part v = Ok v' -> shown v s ->
shown v' (show s (FKeyframe n more part)).
Proof.
intros E Hs. pose proof Hs as (F1 & F2 & F3). unfold Viewer.keyframe in E. cbn [show]. rewrite F1, F2 in E.
set (before := if decide _ then _ else _) in *.
destruct (PACKED_SNAPSHOT_LIMIT <? len before + len part); [done|].
destruct more; [apply ok_inj in E; subst v'; done|].
apply bind_ok in E as (k & Ek & E). unfold wire in Ek. destruct (Wire.snapshot (before ++ part)) as [k'| |]; try done.
apply ok_inj in Ek. subst k'. apply bind_ok in E as (v1 & E1 & E). apply acknowledge_still in E1 as (G1 & G2 & G3).
apply bind_ok in E as (v2 & E2 & E). apply view_update in E as [E3 E4].
assert (E5 : Viewer.view v2 = Viewer.MkView [] None true (Viewer.ended (Viewer.view v)) /\ screen_updates v2 = screen_updates v1).
{ destruct (Viewer.started (Viewer.view v)); [|apply ok_inj in E2; by subst v2].
apply view_update in E2 as [-> ->]. split; [done|]. cbn. by rewrite app_nil_r. }
destruct E5 as [E5 E6]. unfold shown. rewrite E3, E4, E5, E6, G3. cbn. split; [done|]. split; [done|].
by rewrite <- F3.
Qed.

(** The viewer shows what it is told. *)
Lemma frame_shown w f n v v' next s : Viewer.frame w f n v = Ok (v', next) -> shown v s -> shown v' (show s f).
Proof.
intros E Hs. destruct f; try (cbn [show]; by eapply still_shown; [eapply frame_still|]).
all: unfold Viewer.frame, Viewer.goes in E; apply bind_ok in E as (v1 & Ec & E); apply count_still in Ec.
all: pose proof (still_shown _ _ _ Ec Hs) as Hs1; clear Hs; rename Hs1 into Hs; apply fmap_ok in E as (v2 & E & [= <- _]).
- by eapply keyframe_shown.
- by eapply raw_shown.
- apply view_update in E as [E1 E2]. destruct Hs as (F1 & F2 & F3). unfold shown. by rewrite E1, E2, F3.
Qed.

(** ** What the host is still to send *)

Fixpoint keyframes (n : N) (parts : list bytes) : list Frame :=
match parts with
| [] => []
| part :: rest => FKeyframe n (negb (bool_decide (rest = []))) part :: keyframes n rest
end.

Definition waiting_update (w : Waiting) : Viewer.RemoteUpdate :=
match w with
| WOutput sequence output => Viewer.URaw sequence output
| WResize rows cols cell at_sequence => Viewer.UResize rows cols cell at_sequence
end.

(** What a viewer is told that gets all that the host has for it. *)
Definition imagined (sent : list Frame) (c : Screen) : Shown :=
tells (map waiting_update (waiting c)) (told (sent ++ keyframes (next_sequence c) (parts c))).

Fixpoint consecutive (n : N) (l : list Waiting) : Prop :=
match l with
| [] => True
| WOutput sequence _ :: l => sequence = n /\ consecutive (n + 1) l
| WResize _ _ _ _ :: l => consecutive n l
end.

Fixpoint outputs (l : list Waiting) : N :=
match l with [] => 0 | WOutput _ _ :: l => 1 + outputs l | WResize _ _ _ _ :: l => outputs l end.

Lemma consecutive_app n l k : consecutive n (l ++ k) <-> consecutive n l /\ consecutive (n + outputs l) k.
Proof.
revert n. induction l as [|[] l IH]; intros n; cbn [app consecutive outputs]; rewrite ?IH, ?N.add_0_r, ?N.add_assoc; tauto.
Qed.

Lemma last_output_consecutive n l : consecutive n l -> default n (last_output l) = n + outputs l.
Proof.
assert (Hl : forall l n, consecutive n l ->
last_output l = if outputs l =? 0 then None else Some (n + outputs l)).
{ clear. induction l as [|[sequence output|] l IH]; intros n; [done| |]; cbn [consecutive last_output outputs].
- intros [-> Hc]. rewrite (IH _ Hc). destruct (N.eqb_spec (outputs l) 0) as [->|Hz].
+ change (1 + 0 =? 0) with false. cbv iota. do 2 f_equal.
+ rewrite (proj2 (N.eqb_neq _ _)) by lia. f_equal. lia.
- intros Hc. rewrite (IH _ Hc). by destruct (outputs l =? 0). }
intros Hc. rewrite (Hl l n Hc). destruct (N.eqb_spec (outputs l) 0) as [->|]; cbn; lia.
Qed.

Lemma next_waiting_is c : consecutive (next_sequence c) (waiting c) ->
next_waiting c = next_sequence c + outputs (waiting c).
Proof. apply last_output_consecutive. Qed.

Lemma batch_takes limit size n chunks waiting chunks' rest :
consecutive (n + len chunks) waiting -> batch limit size chunks waiting = (chunks', rest) ->
exists mids, chunks' = chunks ++ mids /\
map waiting_update waiting = raw_updates (n + len chunks) mids ++ map waiting_update rest /\
outputs waiting = len mids + outputs rest /\ consecutive (n + len chunks') rest.
Proof.
revert size chunks. induction waiting as [|w waiting IH]; intros size chunks Hc E; cbn [batch] in E.
{ injection E as <- <-. exists []. by rewrite app_nil_r. }
assert (Hstop : (chunks, w :: waiting) = (chunks', rest) -> exists mids, chunks' = chunks ++ mids /\
map waiting_update (w :: waiting) = raw_updates (n + len chunks) mids ++ map waiting_update rest /\
outputs (w :: waiting) = len mids + outputs rest /\ consecutive (n + len chunks') rest).
{ intros [= <- <-]. exists []. by rewrite app_nil_r. }
destruct w as [sequence output|]; [|by apply Hstop]. destruct (_ && _); [|by apply Hstop]. clear Hstop.
cbn [consecutive] in Hc. destruct Hc as [-> Hc].
destruct (IH (size + len output) (chunks ++ [output])) as (mids & -> & Em & Eo & Hr); [|done|].
{ rewrite len_app. change (len [output]) with 1. by rewrite N.add_assoc. }
exists (output :: mids). split; [by rewrite <- app_assoc|]. rewrite len_app in Em. change (len [output]) with 1 in Em.
rewrite N.add_assoc in Em. cbn [map waiting_update raw_updates app]. split; [by rewrite Em|].
cbn [outputs]. rewrite Eo, len_cons. split; [lia|done].
Qed.

Lemma told_snoc l f : told (l ++ [f]) = show (told l) f.
Proof. by rewrite told_app. Qed.

Lemma tells_tells us ws s : tells ws (tells us s) = tells (us ++ ws) s.
Proof. unfold tells. cbn. by rewrite app_assoc. Qed.

(** Sending a frame changes nothing of it. *)
Lemma next_frame_imagined window c f c' sent : consecutive (next_sequence c) (waiting c) ->
next_frame window c = Ok (Some (f, c')) ->
imagined (sent ++ [f]) c' = imagined sent c /\ consecutive (next_sequence c') (waiting c') /\
next_waiting c' = next_waiting c /\ live c' = live c /\ (waiting c = [] -> waiting c' = []).
Proof.
intros Hc E. unfold next_frame in E. destruct (parts c) as [|part rest] eqn:Ep.
2: { run. subst. unfold imagined. cbn. rewrite Ep. cbn [keyframes]. by rewrite <- app_assoc. }
assert (Hn : next_waiting c' = next_sequence c' + outputs (waiting c') -> next_sequence c' + outputs (waiting c') =
next_sequence c + outputs (waiting c) -> next_waiting c' = next_waiting c).
{ intros -> ->. by rewrite next_waiting_is. }
destruct (waiting c) as [|[sequence output|rows cols cell at_sequence] rest] eqn:Ew; [done| |].
- cbn [consecutive] in Hc. destruct Hc as [-> Hc]. destruct (batch _ _ _ _) as [chunks rest'] eqn:Eb.
apply (batch_takes _ _ (next_sequence c)) in Eb; [|done]. destruct Eb as (mids & -> & Em & Eo & Hr).
apply bind_ok in E as (total & _ & E). apply ok_inj in E. injection E as <- <-.
unfold imagined. cbn [waiting parts next_sequence live with_next with_waiting]. rewrite Ep, Ew. cbn [keyframes].
rewrite !app_nil_r, told_snoc. cbn [show map waiting_update]. rewrite tells_tells, Em.
split; [reflexivity|].
split; [exact Hr|]. split; [|done].
apply Hn; [by rewrite next_waiting_is|]. cbn [waiting next_sequence with_next with_waiting outputs].
change (len (output :: mids)) with (len ([output] ++ mids)). rewrite Eo, len_app. change (len [output]) with 1. lia.
- run. subst. unfold imagined. cbn [waiting parts next_sequence live with_waiting]. rewrite Ep, Ew. cbn [keyframes].
rewrite !app_nil_r, told_snoc. cbn [show map waiting_update]. rewrite tells_tells. split; [done|]. split; [done|].
split; [|done]. apply Hn; [by rewrite next_waiting_is|done].
Qed.

(** The parts of a snapshot, one after the other. *)
Lemma keyframes_show k n ps s acc : ps <> [] ->
(if decide (sh_sequence s = Some n) then sh_packed s else []) = acc ->
len (acc ++ concat ps) <= PACKED_SNAPSHOT_LIMIT -> Wire.snapshot (acc ++ concat ps) = Ok k ->
foldl show s (keyframes n ps) = MkShown None [] (sh_updates s ++ [Viewer.UCheckpoint k n]) (sh_ok s).
Proof.
revert s acc. induction ps as [|part rest IH]; intros s acc Hne Ha Hl Hk; [done|]. clear Hne.
cbn [keyframes foldl show concat] in *. rewrite Ha. rewrite !len_app in Hl. rewrite (proj2 (N.ltb_ge _ _)) by lia.
destruct (bool_decide_reflect (rest = [])) as [->|Hr]; cbn [negb].
- cbn [concat keyframes foldl] in *. rewrite app_nil_r in Hk. by rewrite Hk.
- rewrite (IH _ (acc ++ part)); cbn [sh_updates sh_ok sh_sequence sh_packed]; try done.
+ by rewrite decide_True.
+ rewrite !len_app. lia.
+ by rewrite <- app_assoc.
Qed.

Variable shows : list PublishedFrame -> Checkpoint -> Prop.

Lemma follows_mono h f us : follows shows h us -> follows shows (h ++ [f]) us.
Proof.
induction 1 as [|us before marker after k i _ IH E Hk]; [constructor|].
assert (Et : take i after = take (Nat.min i (length after)) (after ++ [f])).
{ rewrite take_app_le by lia. destruct (Nat.le_ge_cases i (length after)) as [Hi|Hi].
- by replace (Nat.min i (length after)) with i by lia.
- replace (Nat.min i (length after)) with (length after) by lia. by rewrite !take_ge by lia. }
rewrite Et. apply (follows_from _ _ _ _ marker); [done| |done]. by rewrite E, <- app_assoc.
Qed.

Lemma omap_take {A B} (g : A -> option B) l m : exists j, take m (omap g l) = omap g (take j l).
Proof.
revert m. induction l as [|x l IH]; intros m; [exists O; destruct m; reflexivity|].
destruct m as [|m]; [by exists O|]. cbn. destruct (g x) as [y|] eqn:Ex.
- destruct (IH m) as [j Ej]. exists (S j). cbn. by rewrite Ex, <- Ej.
- destruct (IH (S m)) as [j Ej]. exists (S j). cbn [take omap list_omap]. by rewrite Ex, <- Ej.
Qed.

Lemma follows_take h us n : follows shows h us -> follows shows h (take n us).
Proof.
intros Hf. revert n. induction Hf as [|us before marker after k i Hf IH E Hk]; intros n; [rewrite take_nil; constructor|].
destruct (Nat.le_gt_cases n (length us)) as [Hn|Hn]; [rewrite take_app_le by done; apply IH|].
rewrite take_app_ge by lia. replace (n - length us)%nat with (S (n - length us - 1)) by lia. cbn [take].
destruct (omap_take update_of (take i after) (n - length us - 1)) as [j ->]. rewrite take_take.
by apply (follows_from _ _ _ _ marker).
Qed.

Lemma follows_prefix h us ws : follows shows h (us ++ ws) -> follows shows h us.
Proof. intros Hf. apply (follows_take _ _ (length us)) in Hf. by rewrite take_app_length in Hf. Qed.

(** While the host gives the viewer the output, what it has for it is the terminal since a
snapshot, up to the place of its receiver. *)
Definition live_on (h : list PublishedFrame) (s : Stream) (us : list Viewer.RemoteUpdate) : Prop :=
exists us0 before marker after k i, follows shows h us0 /\ h = before ++ PBarrier marker :: after /\
shows before k /\ (i <= length after)%nat /\
us = us0 ++ Viewer.UCheckpoint k (raws before) :: omap update_of (take i after) /\
next_waiting (screen s) = raws before + raws (take i after) /\
(lagged (output s) = false -> drop i after = queue (output s)).

Record tracks (h : list PublishedFrame) (s : Stream) : Prop := {
tr_consecutive : consecutive (next_sequence (screen s)) (waiting (screen s));
tr_idle : live (screen s) = false -> waiting (screen s) = [];
tr_queue : queue (output s) `suffix_of` h;
tr_whole : sh_sequence (imagined (channel s) (screen s)) = None;
tr_ok : sh_ok (imagined (channel s) (screen s)) = true;
tr_follows : if live (screen s) then live_on h s (sh_updates (imagined (channel s) (screen s)))
else follows shows h (sh_updates (imagined (channel s) (screen s)))
}.

Lemma live_follows h s us : live_on h s us -> follows shows h us.
Proof. intros (us0 & before & marker & after & k & i & Hf & E & Hk & _ & -> & _). by eapply follows_from. Qed.

Lemma tracks_follows h s : tracks h s -> follows shows h (sh_updates (imagined (channel s) (screen s))).
Proof. intros []. destruct (live (screen s)); [by eapply live_follows|done]. Qed.

(** What a viewer is told only grows. *)
Lemma show_grows s f : exists us, sh_updates (show s f) = sh_updates s ++ us.
Proof.
destruct f; cbn [show]; try (exists []; by rewrite app_nil_r); try (by eexists).
cbv zeta. destruct (PACKED_SNAPSHOT_LIMIT <? _); [exists []; by rewrite app_nil_r|].
destruct more; [exists []; by rewrite app_nil_r|].
destruct (Wire.snapshot _); [by eexists| |]; exists []; by rewrite app_nil_r.
Qed.

Lemma shows_grow s l : exists us, sh_updates (foldl show s l) = sh_updates s ++ us.
Proof.
revert s. induction l as [|f l IH]; intros s; [exists []; by rewrite app_nil_r|]. cbn.
destruct (IH (show s f)) as [us ->], (show_grows s f) as [ws ->]. exists (ws ++ us). by rewrite app_assoc.
Qed.

Lemma show_ok s f : sh_ok (show s f) = true -> sh_ok s = true.
Proof. destruct f; cbn [show]; try done. repeat case_match; done. Qed.

Lemma shows_ok s l : sh_ok (foldl show s l) = true -> sh_ok s = true.
Proof. revert s. induction l as [|f l IH]; intros s; [done|]. cbn. intros Ho. by apply IH, show_ok in Ho. Qed.

Lemma told_take l n : exists us, sh_updates (told l) = sh_updates (told (take n l)) ++ us.
Proof.
assert (E : told l = foldl show (told (take n l)) (drop n l)) by (by rewrite <- told_app, take_drop).
rewrite E. apply shows_grow.
Qed.

(** The output and the queue of the host, with a screen that has for the viewer what it had. *)
Lemma tracks_same h s s' : tracks h s -> imagined (channel s') (screen s') = imagined (channel s) (screen s) ->
consecutive (next_sequence (screen s')) (waiting (screen s')) -> next_waiting (screen s') = next_waiting (screen s) ->
live (screen s') = live (screen s) -> (waiting (screen s) = [] -> waiting (screen s') = []) ->
output s' = output s -> tracks h s'.
Proof.
intros [] Ei Hc En El Hw Eo. split; rewrite ?Ei, ?El, ?Eo; try done; [by auto|].
destruct (live (screen s)); [|done]. destruct tr_follows0 as (us0 & before & marker & after & k & i & Hf & E & Hk & Hi & Eu & Ew & Hq).
exists us0, before, marker, after, k, i. rewrite En, Eo. done.
Qed.

(** Frames that have nothing to do with the screen may go between the parts of a snapshot. *)
Lemma show_calm k s : Forall off_screen k -> foldl show s k = s.
Proof. intros Hk. induction Hk as [|f k Hf _ IH]; [done|]. cbn. by destruct f. Qed.

Lemma imagined_calm sent k c : Forall off_screen k -> imagined (sent ++ k) c = imagined sent c.
Proof. intros Hk. unfold imagined. by rewrite !told_app, (show_calm k). Qed.

Lemma tracks_calm h s s' : tracks h s -> calm s s' -> tracks h s'.
Proof.
intros Ht (E1 & E2 & l & E3 & Hl). pose proof Ht as []. apply (tracks_same h s); rewrite ?E1, ?E3; try done.
by apply imagined_calm.
Qed.

Lemma tracks_send_next window h s s' : tracks h s -> send_next window s = Ok s' -> tracks h s'.
Proof.
intros Ht E. apply send_next_shape in E as [[_ ->]|(f & c & E & E1 & E2 & E3)]; [done|]. pose proof Ht as [].
destruct (next_frame_imagined _ _ _ _ (channel s) tr_consecutive0 E) as (F1 & F2 & F3 & F4 & F5).
apply (tracks_same h s); rewrite ?E1, ?E3; done.
Qed.

(** [behind]: what waits is dropped, and nothing more goes until the next snapshot. *)
Lemma tracks_behind h s s' x : tracks h s -> channel s' = channel s -> queue (output s') `suffix_of` h ->
screen s' = behind (with_live (screen s) (live (screen s)) x) -> tracks h s'.
Proof.
intros Ht Ec Hq Es. pose proof (tracks_follows _ _ Ht) as Hf. destruct Ht.
assert (Ei : imagined (channel s) (screen s) = tells (map waiting_update (waiting (screen s))) (imagined (channel s') (screen s'))).
{ rewrite Ec, Es. unfold imagined, tells. cbn. by rewrite app_nil_r. }
rewrite Ei in *. cbn in *. apply follows_prefix in Hf.
split; try done; try (by rewrite Es). by rewrite Es; rewrite Es in Hf.
Qed.

Definition well_numbered (h : list PublishedFrame) : Prop := forall pre f, pre ++ [f] `prefix_of` h -> numbered pre f.

Lemma well_numbered_at h pre f post : well_numbered h -> h = pre ++ f :: post -> numbered pre f.
Proof. intros Hn ->. apply Hn. exists post. by rewrite <- app_assoc. Qed.

Lemma raws_app l k : raws (l ++ k) = raws l + raws k.
Proof. unfold raws. rewrite filter_app, length_app. lia. Qed.

(** The receiver gives a frame while the host gives the viewer the output. *)
Lemma tracks_consume h s s' f q ws : tracks h s -> live (screen s) = true -> lagged (output s) = false ->
queue (output s) = f :: q -> channel s' = channel s -> lagged (output s') = false -> queue (output s') = q ->
parts (screen s') = parts (screen s) -> next_sequence (screen s') = next_sequence (screen s) ->
live (screen s') = true -> waiting (screen s') = waiting (screen s) ++ ws ->
omap update_of [f] = map waiting_update ws -> outputs ws = raws [f] ->
consecutive (next_sequence (screen s)) (waiting (screen s) ++ ws) -> tracks h s'.
Proof.
intros [] Hl Hlag Eq Ec Hlag' Eq' Ep En El Ew Eu Eo Hc.
assert (Ei : imagined (channel s') (screen s') = tells (map waiting_update ws) (imagined (channel s) (screen s))).
{ unfold imagined. by rewrite Ec, Ep, En, Ew, map_app, tells_tells. }
split; rewrite ?Ei, ?El, ?Ew, ?En, ?Eq'; try done.
- rewrite Eq in tr_queue0. destruct tr_queue0 as [k ->]. exists (k ++ [f]). by rewrite <- app_assoc.
- rewrite Hl in tr_follows0. destruct tr_follows0 as (us0 & before & marker & after & k & i & Hf & E & Hk & Hi & Eus & Ewt & Hq).
specialize (Hq Hlag). rewrite Eq in Hq.
assert (Hf' : after !! i = Some f) by (by rewrite <- (Nat.add_0_r i), <- lookup_drop, Hq).
exists us0, before, marker, after, k, (S i). split; [done|]. split; [done|]. split; [done|].
split; [by apply lookup_lt_Some in Hf'|]. rewrite (take_S_r _ _ _ Hf'). split; [|split].
+ cbn [sh_updates tells]. rewrite Eus, omap_app, Eu, <- app_assoc. done.
+ rewrite next_waiting_is by (by rewrite Ew, En). rewrite En, Ew, raws_app, N.add_assoc, <- Ewt, next_waiting_is by done.
assert (Ho : forall l k, outputs (l ++ k) = outputs l + outputs k).
{ induction l as [|[] l IHl]; intros k'; cbn [app outputs]; rewrite ?IHl; lia. }
rewrite Ho, Eo. lia.
+ intros _. rewrite Eq', <- Nat.add_1_r, <- drop_drop, Hq. done.
Qed.

(** What the receiver gives is numbered as the host waits for it. *)
Lemma tracks_numbered h s f q : well_numbered h -> tracks h s -> live (screen s) = true -> lagged (output s) = false ->
queue (output s) = f :: q ->
match f with
| PRaw sequence _ => sequence = next_waiting (screen s)
| PResize _ _ _ at_sequence => at_sequence = next_waiting (screen s)
| _ => True
end.
Proof.
intros Hn [] Hl Hlag Eq. rewrite Hl in tr_follows0.
destruct tr_follows0 as (us0 & before & marker & after & k & i & Hf & E & Hk & Hi & Eus & -> & Hq).
specialize (Hq Hlag). rewrite Eq in Hq.
assert (Hf' : numbered ((before ++ [PBarrier marker]) ++ take i after) f).
{ apply (well_numbered_at h _ _ q Hn). rewrite E, <- !app_assoc. cbn. by rewrite <- Hq, take_drop. }
assert (Hr : raws ((before ++ [PBarrier marker]) ++ take i after) = raws before + raws (take i after)).
{ rewrite !raws_app. change (raws [PBarrier marker]) with 0. lia. }
destruct f; cbn in Hf'; rewrite ?Hr in Hf'; done.
Qed.

Lemma with_output_eta s : with_output s (output s) = s.
Proof. by destruct s. Qed.

(** A thing that the receiver gives. *)
Lemma published_tracks h now window s r o s' e : well_numbered h -> tracks h s ->
try_recv (output s) = (r, o) -> published now window r (with_output s o) = (s', e) -> tracks h s'.
Proof.
intros Hn Ht Er E. pose proof Ht as [].
assert (Hsame : screen s' = screen s -> output s' = o -> channel s' = channel s -> live (screen s) = false -> tracks h s').
{ intros E1 E2 E3 Hl. assert (Hq : queue o `suffix_of` h).
{ unfold try_recv in Er. destruct (lagged (output s)); [by injection Er as _ <-|].
destruct (queue (output s)) as [|f q] eqn:Eq; injection Er as _ <-; cbn; [by rewrite Eq|].
destruct tr_queue0 as [k ->]. exists (k ++ [f]). by rewrite <- app_assoc. }
split; rewrite ?E1, ?E2, ?E3; try done. by rewrite Hl in *. }
unfold try_recv in Er. destruct (lagged (output s)) eqn:Elag.
{ injection Er as <- <-. injection E as <- _. by apply (tracks_behind h s _ (exact (screen s))). }
destruct (queue (output s)) as [|f q] eqn:Eq.
{ injection Er as <- <-. rewrite with_output_eta in E. destruct (ended (output s)); injection E as <- _; done. }
injection Er as <- <-. destruct (live (screen s)) eqn:El.
2: { unfold published in E. cbn [screen with_output] in E. rewrite El in E.
destruct f; cbn [negb andb] in E; injection E as <- _; by apply Hsame. }
pose proof (tracks_numbered _ _ _ _ Hn Ht El Elag Eq) as Hf. unfold published in E. cbn [screen with_output] in E.
destruct f as [m|marker|sequence out|rows cols cell at_sequence|reason final]; rewrite ?El in E; cbn [negb andb] in E.
- injection E as <- _. apply (tracks_consume h s _ _ _ [] Ht El Elag Eq); rewrite ?app_nil_r; done.
- injection E as <- _. apply (tracks_consume h s _ _ _ [] Ht El Elag Eq); rewrite ?app_nil_r; done.
- rewrite Hf, N.ltb_irrefl, N.eqb_refl in E. cbn [negb] in E. injection E as <- _.
assert (Hs : tracks h (with_screen (with_output s (MkOutput false q (ended (output s))))
(with_waiting (with_output_at (screen s) now) (waiting (screen s) ++ [WOutput (next_waiting (screen s)) out])
(waiting_bytes (screen s) + len out)))).
{ apply (tracks_consume h s _ _ _ [WOutput (next_waiting (screen s)) out] Ht El Elag Eq); try done.
- cbn. by rewrite Hf.
- apply consecutive_app. split; [done|]. cbn. by rewrite next_waiting_is. }
case_match; [|exact Hs].
refine (tracks_behind h _ _ (exact (screen s)) Hs _ _ _); [done|by destruct Hs|done].
- rewrite Hf, N.leb_refl in E. injection E as <- _.
apply (tracks_consume h s _ _ _ [WResize rows cols cell (next_waiting (screen s))] Ht El Elag Eq); try done.
+ cbn. by rewrite Hf.
+ apply consecutive_app. split; [done|]. done.
- injection E as <- _. apply (tracks_consume h s _ _ _ [] Ht El Elag Eq); rewrite ?app_nil_r; done.
Qed.

Lemma published_output now window r s : output (fst (published now window r s)) = output s.
Proof. unfold published. by repeat case_match. Qed.

(** A turn of the arm that reads the output, when no more waits than it reads. *)
Lemma pump_tracks h turns now window s r o : well_numbered h -> tracks h s -> try_recv (output s) = (r, o) ->
r <> RecvEmpty -> (r <> RecvClosed -> (backlog (output s) <= turns)%nat) ->
tracks h (fst (pump turns now window (Some r) (with_output s o))).
Proof.
intros Hn. revert s r o. induction turns as [|turns IH]; intros s r o Ht Er Hr Hb.
{ cbn [pump fst]. destruct (output s) as [[] [|f q] e] eqn:Eo; unfold try_recv, backlog in *; cbn in *;
injection Er as <- <-; try (specialize (Hb ltac:(done)); lia).
destruct e; [|done]. by rewrite <- Eo, with_output_eta. }
cbn [pump]. pose proof (published_output now window r (with_output s o)) as Eo.
destruct (published now window r (with_output s o)) as [s1 e] eqn:Ep. cbn in Eo.
assert (Hs := published_tracks _ _ _ _ _ _ _ _ Hn Ht Er Ep).
destruct e as [e|]; [done|]. destruct (try_recv (output s1)) as [r1 o1] eqn:Er1.
assert (Hle : (backlog (output s1) <= turns)%nat).
{ rewrite Eo. assert (Hc : r <> RecvClosed) by (by intros ->). specialize (Hb Hc).
destruct (output s) as [[] [|f q] e]; unfold try_recv, backlog in *; cbn in *; injection Er as <- <-; cbn; try lia. }
destruct (decide (backlog (output s1) = O /\ ended (output s1) = false)) as [[Hz He]|Hz].
- assert (Hx : (r1, o1) = (RecvEmpty, output s1)).
{ rewrite <- Er1. destruct (output s1) as [[] [|f q] []]; unfold backlog in Hz; cbn in *; (done || lia). }
injection Hx as -> ->. rewrite with_output_eta. by destruct turns.
- assert (Hr1 : r1 <> RecvEmpty).
{ intros ->. apply Hz. destruct (output s1) as [[] [|f q] []]; unfold try_recv in Er1; by injection Er1. }
assert (E1 : match r1 with RecvEmpty => None | _ => Some r1 end = Some r1) by (by destruct r1). rewrite E1.
by apply IH.
Qed.

Lemma drain_tracks h turns window s s' : tracks h s -> drain_turns turns window s = Ok s' -> tracks h s'.
Proof.
revert s. induction turns as [|turns IH]; intros s Ht; cbn [drain_turns]; intros E; run; subst; try done.
eapply IH; [|done]. by eapply tracks_send_next.
Qed.

Lemma barrier_once h before marker after before' after' : well_numbered h ->
h = before ++ PBarrier marker :: after -> h = before' ++ PBarrier marker :: after' -> before = before'.
Proof.
intros Hn E E'. pose proof (well_numbered_at _ _ _ _ Hn E) as H1. pose proof (well_numbered_at _ _ _ _ Hn E') as H2.
cbn in H1, H2. rewrite E in E'. clear E Hn. revert before' E' H2.
induction before as [|f before IH]; intros [|f' before'] E' H2; cbn in E'; try done.
- injection E' as <- _. exfalso. apply H2. left.
- injection E' as -> _. exfalso. apply H1. left.
- injection E' as <- E'. f_equal. apply IH; [|done|]; intros Hin; [apply H1|apply H2]; by right.
Qed.

Lemma skip_suffix marker l : (skip_frames marker l).2 `suffix_of` l.
Proof.
induction l as [|f l IH]; [done|]. cbn [skip_frames].
assert (Hf : forall x : list PublishedFrame, x `suffix_of` l -> x `suffix_of` f :: l).
{ intros x [k ->]. by exists (f :: k). }
destruct f; try (by apply Hf, IH); [|by apply Hf]. case_decide; [by apply Hf|by apply Hf, IH].
Qed.

Lemma skip_reached marker l q : skip_frames marker l = (Reached, q) -> exists p, l = p ++ PBarrier marker :: q.
Proof.
induction l as [|f l IH]; [done|]. cbn [skip_frames].
assert (Hf : skip_frames marker l = (Reached, q) -> exists p, f :: l = p ++ PBarrier marker :: q).
{ intros E. destruct (IH E) as [p ->]. by exists (f :: p). }
destruct f; try done. case_decide as Hd; [|done]. subst. intros [= <-]. by exists [].
Qed.

Context `{!LibrariesLaws}.

(** The host asks for a snapshot when it has nothing more of the last one. *)
Lemma capture_tracks h now window marker answer s s' e : well_numbered h -> tracks h s ->
live (screen s) = false -> parts (screen s) = [] ->
match answer with Some cut => honest shows h marker cut | None => True end ->
capture now window marker answer s = Ok (s', e) -> tracks h s'.
Proof.
intros Hn Ht Hl Hp Ha E. pose proof Ht as []. rewrite Hl in tr_follows0.
unfold capture, cut in E. destruct answer as [cut|]; [|run; subst; by apply (tracks_same h s)].
unfold skip in E. cbn [output with_screen] in E.
pose proof (skip_suffix marker (queue (output s))) as Hq.
destruct (skip_frames marker (queue (output s))) as [r q] eqn:Eq. cbn [snd] in Hq.
assert (Hqh : q `suffix_of` h) by (by etrans).
assert (Hlost : forall s1, screen s1 = with_keyframe (screen s) (keyframe_bytes (screen s)) (Some now) ->
channel s1 = channel s -> queue (output s1) = q -> tracks h s1).
{ intros s1 E1 E2 E3. assert (Ei : imagined (channel s1) (screen s1) = imagined (channel s) (screen s)) by (by rewrite E1, E2).
split; rewrite ?Ei, ?E1, ?E2, ?E3; try done. cbn. by rewrite Hl. }
destruct r as [| |reason]; [|run; subst; by apply Hlost|run; subst; by apply Hlost].
apply bind_ok in E as (ps & Eps & E). apply ok_inj, pair_equal_spec in E as [<- _].
unfold wire in Eps. destruct (snapshot_parts (cut_checkpoint cut)) as [ps'| |] eqn:Esp; [|done|done].
apply ok_inj in Eps. subst ps'.
destruct Ha as (before & after & Eh & Eseq & Hk & Hnew).
destruct (snapshot_back _ _ Hnew Esp) as (_ & Hback & Hne & Hlen).
apply skip_reached in Eq as [p Eq]. destruct tr_queue0 as [p0 Eq0].
assert (Ebefore : before = p0 ++ p).
{ eapply (barrier_once h before marker after (p0 ++ p) q Hn Eh). by rewrite Eq0, Eq, <- app_assoc. }
assert (Eafter : after = q).
{ rewrite Eq0, Eq, app_assoc, <- Ebefore in Eh. by apply app_inv_head in Eh as [= ->]. }
rewrite <- Eafter in *.
assert (E0 : imagined (channel s) (screen s) = told (channel s)).
{ unfold imagined, tells. rewrite Hp, tr_idle0 by done. cbn. rewrite !app_nil_r. by destruct (told (channel s)). }
rewrite E0 in *.
assert (Ei : imagined (channel s) (MkScreen ps [] 0 true
(if wants_full window (screen s) then Held else Owed) (cut_sequence cut) (output_at (screen s))
(N.of_nat (if wants_full window (screen s) then sum_list_with length ps else N.to_nat (keyframe_bytes (screen s))))
(Some now)) =
MkShown None [] (sh_updates (told (channel s)) ++ [Viewer.UCheckpoint (cut_checkpoint cut) (raws before)]) true).
{ unfold imagined, tells. cbn [waiting next_sequence Stream.parts map]. rewrite told_app.
rewrite (keyframes_show (cut_checkpoint cut) _ _ _ []); cbn [app]; try done.
- cbn. by rewrite app_nil_r, Eseq, tr_ok0.
- by rewrite tr_whole0. }
split; cbn [screen channel output with_metadata with_screen with_output queue lagged with_keyframe keyframe_bytes output_at keyframe_at] in *;
rewrite ?Ei; try done.
cbn [live sh_updates]. exists (sh_updates (told (channel s))), before, marker, after, (cut_checkpoint cut), O.
split; [done|]. split; [done|]. split; [done|]. split; [lia|]. split; [done|]. split; [|done].
change (cut_sequence cut = raws before + 0). by rewrite N.add_0_r.
Qed.

Lemma advance_tracks h now window marker answer s s' turn : well_numbered h -> tracks h s ->
match answer with Some cut => honest shows h marker cut | None => True end ->
advance_turn now window marker answer s = Ok (s', turn) -> tracks h s'.
Proof.
intros Hn Ht Ha E. unfold advance_turn in E. destruct (negb (live (screen s)) && idle s) eqn:Ei.
2: { run; subst; try done; by eapply tracks_send_next. }
apply andb_true_iff in Ei as [Hl%negb_true_iff Hi]. unfold idle in Hi. apply andb_true_iff in Hi as [Hp%bool_decide_eq_true _].
run; subst; try done; by eapply capture_tracks.
Qed.

Lemma send_end_calm e s s' x : send_end e s = Ok (s', x) -> calm s s'.
Proof. unfold send_end. intros E. run. subst. eapply send_only_calm; [done|exact I]. Qed.

(** Every arm of [serve]. *)
Lemma serve_tracks h a window e s s' x : well_numbered h -> tracks h s -> ty_parts (typist s) = [] ->
match e with
| EvAdvance marker (Some cut) => honest shows h marker cut
| EvPublished => (backlog (output s) <= N.to_nat RAW_BATCH_LIMIT)%nat
| _ => True
end -> serve_step a window e s = Ok (s', x) -> tracks h s'.
Proof.
intros Hn Ht Hp Ha E. destruct (aside e) eqn:He; [eapply tracks_calm, serve_calm; done|].
destruct e; try done.
- cbn [serve_step] in E. apply bind_ok in E as ([s1 turn] & Ea & E).
apply advance_tracks with (h := h) in Ea; [|done|done|by destruct answer].
destruct turn; [| |by eapply tracks_calm, send_end_calm]; unfold serving in E; run; by subst.
- destruct f; try done. cbn in E. unfold serving in E. apply ok_inj, pair_equal_spec in E as [<- _]. destruct Ht.
by apply (tracks_behind h s _ (if decide (exact (screen s) = Held) then Owed else exact (screen s))).
- apply published_shape in E as [(_ & -> & _)|(r & o & s1 & Er & Hr & E)]; [done|].
pose proof (pump_tracks h (N.to_nat RAW_BATCH_LIMIT) (an_now a) window s r o Hn Ht Er Hr (fun _ => Ha)) as Hs.
destruct E as [(E & -> & _)|(e & s2 & E & Ed & Es)]; rewrite E in Hs; cbn [fst] in Hs; [done|].
eapply tracks_calm; [by eapply drain_tracks|by eapply send_end_calm].
- cbn [serve_step] in E. unfold serving in E. apply ok_inj, pair_equal_spec in E as [<- _].
destruct (exact_at s) as [at'|] eqn:Ex; [|done]. destruct (at' <=? an_now a); [|done]. unfold exact_at in Ex.
destruct (bool_decide (exact (screen s) = Owed) && live (screen s) && idle s) eqn:El; [|done].
cbn [andb] in Ex. destruct (bool_decide_reflect (waiting (screen s) = [])) as [Hw|]; [|done].
assert (Hb : tracks h (with_screen s (behind (with_live (screen s) (live (screen s)) Due)))).
{ destruct Ht. by apply (tracks_behind h s _ Due). }
assert (Ei : imagined (channel s) (with_live (screen s) false Due) =
imagined (channel s) (behind (with_live (screen s) (live (screen s)) Due))) by (unfold imagined; cbn; by rewrite Hw).
destruct Hb. split; cbn [screen channel output with_screen] in *; rewrite ?Ei; try done. cbn. by rewrite Hw.
Qed.

Lemma well_numbered_snoc h f : well_numbered h -> numbered h f -> well_numbered (h ++ [f]).
Proof.
intros Hn Hf pre g [k E]. destruct k as [|x k _] using rev_ind.
- rewrite app_nil_r in E. apply app_inj_tail in E as [-> ->]. done.
- rewrite app_assoc in E. apply app_inj_tail in E as [-> _]. apply Hn. by exists k.
Qed.

Lemma tracks_publish h s f k : tracks h s ->
tracks (h ++ [f]) (with_output s (enqueue f k (output s))).
Proof.
intros []. split; try done.
- cbn. destruct tr_queue0 as [p ->]. rewrite <- app_assoc. apply suffix_app_r. apply suffix_drop.
- cbn [screen with_output channel]. destruct (live (screen s)); [|by apply follows_mono].
destruct tr_follows0 as (us0 & before & marker & after & n & i & Hf & E & Hk & Hi & Eu & Ew & Hq).
exists us0, before, marker, (after ++ [f]), n, i. split; [by apply follows_mono|].
split; [by rewrite E, <- app_assoc|]. split; [done|]. rewrite length_app. split; [lia|].
rewrite take_app_le by done. split; [done|]. split; [done|]. cbn.
destruct (lagged (output s)); [done|]. destruct k as [|k]; [|done]. intros _.
rewrite drop_app_le by done. by rewrite Hq.
Qed.

Lemma told_S l n f : l !! n = Some f -> told (take (S n) l) = show (told (take n l)) f.
Proof. intros Hf. by rewrite (take_S_r _ _ _ Hf), told_snoc. Qed.

(** What holds of a connection, for the screen. *)
Record screen_inv (b : Both) : Prop := {
si_numbered : well_numbered (history b);
si_tracks : tracks (history b) (host b);
si_shown : shown (viewer b) (told (take (to_viewer b) (sent_to_viewer b)))
}.

Lemma told_grows b s : (to_viewer b <= length (sent_to_viewer b))%nat -> grows (host b) s ->
told (take (to_viewer b) (channel s)) = told (take (to_viewer b) (sent_to_viewer b)).
Proof. intros Hn [l ->]. unfold sent_to_viewer in *. by rewrite take_app_le. Qed.

Lemma screen_step b b' : step shows b b' -> typed_inv b -> screen_inv b -> screen_inv b'.
Proof.
intros Hs Hb []. pose proof (ti_parts _ Hb) as Hp. pose proof (ti_taken _ Hb) as Ht.
destruct Hs as [b f k Hf|b|b a window e s x _ Ha E|b a window f s x _ _ E|b w e v n _ He E|b w f size v n _ Hf E].
- split; cbn; [by apply well_numbered_snoc|by apply tracks_publish|done].
- split; cbn; [done| |done]. destruct si_tracks0. by split.
- split; cbn; [done| |].
+ eapply serve_tracks; [done..| |done]. by destruct e.
+ change (shown (viewer b) (told (take (to_viewer b) (channel s)))).
rewrite told_grows; [done|done|by eapply serve_grows].
- split; cbn; [done|by eapply (serve_tracks _ _ _ (EvReceived f))|]. change (shown (viewer b) (told (take (to_viewer b) (channel s)))).
rewrite told_grows; [done|done|by eapply serve_grows].
- split; cbn; [done|done|]. eapply still_shown; [by eapply view_step_still|done].
- split; cbn; [done|done|]. unfold Viewer.step in E. apply bind_ok in E as (takes & _ & E).
change (shown v (told (take (S (to_viewer b)) (sent_to_viewer b)))). rewrite (told_S _ _ _ Hf). by eapply frame_shown.
Qed.

Lemma screen_connected b : connected shows b -> screen_inv b /\ typed_inv b.
Proof.
intros (h & now & Hh & Hr). assert (Hi : screen_inv (start h now) /\ typed_inv (start h now)).
{ split; [|apply (typed_connected shows); exists h, now; split; [done|constructor]]. split; [done| |done]. split; try done.
- apply suffix_nil.
- constructor. }
revert Hi. clear Hh. induction Hr as [|b1 b2 b3 Hs _ IH]; [done|]. intros [Hs1 Ht1]. apply IH.
split; [by eapply screen_step|by eapply typed_step].
Qed.

(** ** The viewer takes what it is told *)

Lemma ack_goes n : exists encoded, wire (encode (FAck n)) = Ok encoded.
Proof.
unfold encode. cbn [encode_body mbind Result_bind]. rewrite len_be. change (padded (HEADER + N.of_nat 8)) with 64.
change (FRAME_LIMIT <? 64) with false. cbv iota. unfold u24. change (64 - 3 <? 16777216) with true.
change (N.of_nat 8 <? 16777216) with true. cbn [mbind Result_bind wire]. by eexists.
Qed.

Lemma acknowledge_goes v : exists v', Viewer.acknowledge v = Ok v'.
Proof.
unfold Viewer.acknowledge, Viewer.send. case_match; [by eexists|].
destruct (ack_goes (Viewer.received (Viewer.acks v))) as [encoded ->]. cbn [mbind Result_bind]. by eexists.
Qed.

Lemma count_goes w f n v : acked v -> exists v', Viewer.count w f n v = Ok v'.
Proof.
intros Ha. unfold Viewer.count, nsub. destruct (carries_output f); [|by eexists]. cbn [Viewer.acknowledged Viewer.received].
unfold acked in Ha. rewrite (proj2 (N.leb_le _ _)) by lia. cbn [mbind Result_bind].
destruct (_ <=? _); [apply acknowledge_goes|by eexists].
Qed.

Lemma update_goes w u v : Viewer.w_open w = true -> exists v', Viewer.update w u v = Ok v'.
Proof. intros Hw. unfold Viewer.update. rewrite Hw. by eexists. Qed.

Lemma raw_goes w n chunks v : Viewer.w_open w = true -> exists v', Viewer.raw w n chunks v = Ok v'.
Proof.
intros Hw. revert n v. induction chunks as [|chunk chunks IH]; intros n v; [by eexists|]. cbn [Viewer.raw].
destruct (update_goes w (Viewer.URaw n chunk) v Hw) as [v1 ->]. apply IH.
Qed.

Lemma keyframe_goes w n more part v s : Viewer.w_open w = true -> shown v s -> sh_ok (show s (FKeyframe n more part)) = true ->
exists v', Viewer.keyframe w n more part v = Ok v'.
Proof.
intros Hw (F1 & F2 & F3) Ho. unfold Viewer.keyframe. rewrite F1, F2. cbn [show] in Ho.
set (before := if decide _ then _ else _) in *.
destruct (PACKED_SNAPSHOT_LIMIT <? len before + len part); [done|]. destruct more; [by eexists|].
destruct (Wire.snapshot (before ++ part)) as [k| |]; [|done|done]. cbn [wire mbind Result_bind].
destruct (acknowledge_goes (Viewer.with_view v (Viewer.MkView [] None (Viewer.started (Viewer.view v)) (Viewer.ended (Viewer.view v)))))
as [v1 ->]. cbn [mbind Result_bind].
destruct (Viewer.started (Viewer.view v)).
- edestruct (update_goes w Viewer.UResync) as [v2 ->]; [done|]. by apply update_goes.
- by apply update_goes.
Qed.

Lemma frame_goes w f n v s : Viewer.w_open w = true -> acked v -> shown v s -> sh_ok (show s f) = true -> ~ off_screen f ->
exists v', Viewer.frame w f n v = Ok (v', Viewer.Goes).
Proof.
intros Hw Ha Hs Ho Hf. unfold Viewer.frame. destruct (count_goes w f n v Ha) as [v1 Ec].
rewrite Ec. cbn [mbind Result_bind]. apply count_still in Ec. pose proof (still_shown _ _ _ Ec Hs) as Hs1.
destruct f; try (by destruct Hf); unfold Viewer.goes.
- destruct (keyframe_goes w next_sequence more part v1 s Hw Hs1 Ho) as [v2 ->]. by eexists.
- destruct (raw_goes w first_sequence chunks v1 Hw) as [v2 ->]. by eexists.
- edestruct (update_goes w) as [v2 ->]; [done|]. by eexists.
Qed.

Lemma told_ok h s n : tracks h s -> sh_ok (told (take n (channel s))) = true.
Proof.
intros []. unfold imagined in tr_ok0. cbn in tr_ok0. rewrite told_app in tr_ok0. apply shows_ok in tr_ok0.
rewrite <- (take_drop n (channel s)), told_app in tr_ok0. by apply shows_ok in tr_ok0.
Qed.
End screen.

(** C34. Whatever happens on the two sides of a connection, with the outputs of [allowed], what the terminal got to type is what
    the viewer sent, in the order that it sent it, up to the frames on the way; the next input
    is in its place and within what the host takes, so it is refused only when it is too old;
    and the viewer takes every confirmation. *)
Theorem input_arrives_in_order `{Libraries, Sha256} (shows : list PublishedFrame -> Checkpoint -> Prop) (b : Both) :
  connected shows b ->
  inputs_asked (asked (host b)) = inputs_sent (take (to_host b) (sent_to_host b)) /\
  (forall a offset hb input, sent_to_host b !! to_host b = Some (FInput offset hb input) -> an_refused a = None ->
     received a (FInput offset hb input) (host b) =
       Err (SInvalid "Terminal input arrived too late, and the host did not use it.") \/
     exists s, received a (FInput offset hb input) (host b) = Ok s /\
       inputs_asked (asked s) = inputs_asked (asked (host b)) ++ [input]) /\
  (forall w offset n, viewer_done b = false -> sent_to_viewer b !! to_viewer b = Some (FInputAck offset) ->
     exists v, Viewer.frame w (FInputAck offset) n (viewer b) = Ok (v, Viewer.Goes)).
Proof.
  intros Hb. apply typed_connected in Hb as []. split; [exact ti_asked0|].
  pose proof (sorted_head _ _ _ ti_order0) as Hc. split.
  - intros a offset hb input Hf Ha. cbn [received]. rewrite Ha.
    assert (Ed : drop (to_host b) (sent_to_host b) = FInput offset hb input :: drop (S (to_host b)) (sent_to_host b)) by (by apply drop_S).
    rewrite Ed in ti_near0. apply Forall_cons in ti_near0 as [Hn _].
    rewrite <- (take_drop (to_host b) (sent_to_host b)), chained_app, Ed in ti_chain0. destruct ti_chain0 as [_ [Ec _]].
    rewrite N.add_0_l, <- ti_offset0 in Ec. subst offset. by apply received_input_ok.
  - intros w offset n Hd Hf. specialize (ti_back0 Hd).
    assert (Ed : drop (to_viewer b) (sent_to_viewer b) = FInputAck offset :: drop (S (to_viewer b)) (sent_to_viewer b)) by (by apply drop_S).
    rewrite Ed in ti_back0. cbn [omap list_omap ack_of app] in ti_back0. 
    assert (H1 : Viewer.input_confirmed (Viewer.typed (viewer b)) <= offset) by
      (inversion ti_back0 as [|? ? _ Hf']; by inversion Hf').
    assert (H2 : offset <= ty_confirmed (typist (host b))) by
      (inversion ti_back0 as [|? ? Hs _]; by apply sorted_head in Hs).
    assert (H3 : ty_offset (typist (host b)) <= input_size (sent_to_host b)).
    { rewrite ti_offset0, <- (take_drop (to_host b) (sent_to_host b)) at 1. rewrite take_drop.
      rewrite <- (take_drop (to_host b) (sent_to_host b)) at 2. rewrite input_size_app. lia. }
    unfold Viewer.frame, Viewer.count. cbn [carries_output mbind Result_bind Viewer.typed Viewer.with_acks].
    rewrite !(proj2 (N.ltb_ge _ _)) by lia. cbn [orb Viewer.goes]. by eexists.
Qed.

(** C33. Whatever happens on the two sides, as long as no more than [RAW_BATCH_LIMIT] things
    wait when the host takes the output (see [allowed], and [lost_resize] for one more), the
    viewer follows the terminal: it shows a snapshot of some moment and then everything that the
    terminal published from that moment on, up to some place, without a gap and nothing twice;
    it never refuses a frame of the screen; and when nothing waits anywhere, what it shows is
    all that the terminal published. *)
Theorem viewer_follows_terminal `{Libraries, !LibrariesLaws, Sha256}
    (shows : list PublishedFrame -> Checkpoint -> Prop) (b : Both) :
  connected shows b ->
  follows shows (history b) (screen_updates (viewer b)) /\
  (forall w f n, viewer_done b = false -> Viewer.w_open w = true -> sent_to_viewer b !! to_viewer b = Some f ->
     ~ off_screen f -> exists v, Viewer.frame w f n (viewer b) = Ok (v, Viewer.Goes)) /\
  (live (screen (host b)) = true -> parts (screen (host b)) = [] -> waiting (screen (host b)) = [] ->
     queue (output (host b)) = [] -> lagged (output (host b)) = false -> to_viewer b = length (sent_to_viewer b) ->
     exists us before marker after k, history b = before ++ PBarrier marker :: after /\ shows before k /\
       screen_updates (viewer b) = us ++ Viewer.UCheckpoint k (raws before) :: omap update_of after).
Proof.
  intros Hb. destruct (screen_connected shows b Hb) as [[Hn Ht (Hs1 & Hs2 & Hs3)] Hi].
  split; [|split].
  - rewrite Hs3. pose proof (tracks_follows _ _ _ Ht) as Hf. unfold imagined in Hf. cbn in Hf.
    destruct (told_take (sent_to_viewer b ++ keyframes (next_sequence (screen (host b))) (parts (screen (host b)))) (to_viewer b)) as [us E].
    unfold sent_to_viewer in E. rewrite E in Hf. rewrite take_app_le in Hf by (apply (ti_taken _ Hi)).
    rewrite <- app_assoc in Hf. by apply follows_prefix in Hf.
  - intros w f n Hd Hw Hf Hoff. refine (frame_goes w f n _ _ Hw (ti_acked _ Hi Hd) (conj Hs1 (conj Hs2 Hs3)) _ Hoff).
    rewrite <- (told_S _ _ _ Hf). by apply (told_ok shows (history b)).
  - intros Hl Hp Hw Hq Hlag Hv. destruct Ht. rewrite Hl in tr_follows0.
    destruct tr_follows0 as (us0 & before & marker & after & k & i & Hf & E & Hk & Hi' & Eu & _ & Hd).
    specialize (Hd Hlag). rewrite Hq in Hd. exists us0, before, marker, after, k. split; [done|]. split; [done|].
    rewrite Hs3, Hv, firstn_all. unfold imagined in Eu. rewrite Hp, Hw in Eu. cbn in Eu. rewrite !app_nil_r in Eu.
    unfold sent_to_viewer. rewrite Eu. apply (f_equal length) in Hd. rewrite length_drop in Hd. cbn in Hd.
    by rewrite take_ge by lia.
Qed.

(** A run: a terminal with a chunk of output behind it, whose viewer connects, gets a snapshot
    and the next chunk, and types. *)
Module Example.
(** Packing that only stores. *)
Definition stored : Packing := {|
pack body _ := Ok (Byte.x00 :: body);
unpack packed limit :=
match packed with
| _ :: body => if len body <=? limit then Ok body else Err (Invalid "Remote terminal data exceeds its bound.")
| [] => Err (Invalid "Remote terminal data could not be unpacked.")
end
|}.

Lemma stored_laws : @PackingLaws stored.
Proof.
split; cbn; try done.
- intros [|b body] limit; [done|]. by case_match.
- intros [|b body] limit body'; [done|]. destruct (N.leb_spec (len body) limit); [|done]. by intros [= <-].
- intros body _ packed limit [= <-] Hl. by rewrite (proj2 (N.leb_le _ _)).
- intros body _ packed [= <-]. split; [done|]. rewrite len_cons. generalize (len body / 2). lia.
Qed.

#[export] Instance libraries : Libraries := WireClaims.Example.with_packing stored.
#[export] Instance libraries_laws : LibrariesLaws.
Proof. apply WireClaims.Example.with_packing_laws, stored_laws. Qed.
#[export] Instance sha256 : Sha256 := {| sha256_of l := take 32 (l ++ replicate 32 Byte.x00) |}.

Definition marker : Uuid := WireClaims.Example.id.
Definition shows (h : list PublishedFrame) (k : Checkpoint) : Prop :=
h = [PRaw 0 [Byte.x61]] /\ k = WireClaims.Example.checkpoint.
Definition cut : CheckpointCut := MkCut WireClaims.Example.checkpoint 1.
Definition answers : Answers := MkAnswers 0 None true true [].
Definition world : Viewer.World := Viewer.MkWorld 0 marker true true.

(** The steps of the run, each with a check that it may be taken. *)
Definition after_publish (f : PublishedFrame) (b : Both) : Both :=
MkBoth (history b ++ [f]) (with_output (host b) (enqueue f 0 (output (host b)))) (viewer b)
(to_host b) (to_viewer b) (host_done b) (viewer_done b).

Definition after_host (e : Event) (b : Both) : Both :=
match serve_step answers 4096 e (host b) with
| Ok (s, x) => MkBoth (history b) s (viewer b) (to_host b) (to_viewer b) (ends x) (viewer_done b)
| _ => b
end.
Definition host_goes (e : Event) (b : Both) : bool :=
match serve_step answers 4096 e (host b) with Ok _ => negb (host_done b) | _ => false end.

Definition after_host_takes (b : Both) : Both :=
match sent_to_host b !! to_host b with
| Some f => match serve_step answers 4096 (EvReceived f) (host b) with
| Ok (s, x) => MkBoth (history b) s (viewer b) (S (to_host b)) (to_viewer b) (ends x) (viewer_done b)
| _ => b
end
| None => b
end.
Definition host_takes (b : Both) : bool :=
match sent_to_host b !! to_host b with
| Some f => match serve_step answers 4096 (EvReceived f) (host b) with Ok _ => negb (host_done b) | _ => false end
| None => false
end.

Definition after_view (e : Viewer.Event) (b : Both) : Both :=
match Viewer.step world e (viewer b) with
| Ok (v, n) => MkBoth (history b) (host b) v (to_host b) (to_viewer b) (host_done b) (closes_view n)
| _ => b
end.
Definition view_goes (e : Viewer.Event) (b : Both) : bool :=
match Viewer.step world e (viewer b) with Ok _ => negb (viewer_done b) && negb (is_frame e) | _ => false end.

Definition after_view_takes (b : Both) : Both :=
match sent_to_viewer b !! to_viewer b with
| Some f => match Viewer.step world (Viewer.EvFrame f 64) (viewer b) with
| Ok (v, n) => MkBoth (history b) (host b) v (to_host b) (S (to_viewer b)) (host_done b) (closes_view n)
| _ => b
end
| None => b
end.
Definition view_takes (b : Both) : bool :=
match sent_to_viewer b !! to_viewer b with
| Some f => match Viewer.step world (Viewer.EvFrame f 64) (viewer b) with Ok _ => negb (viewer_done b) | _ => false end
| None => false
end.

Definition typing_request : Viewer.Event :=
Viewer.EvRequest (fun _ => false) (Viewer.RControl (CtlInput [Byte.x6c; Byte.x73]) 0).

Definition b0 : Both := start [PRaw 0 [Byte.x61]] 0.
Definition b1 : Both := after_publish (PBarrier marker) b0.
Definition b2 : Both := after_host (EvAdvance marker (Some cut)) b1.
Definition b3 : Both := after_host (EvAdvance marker None) b2.
Definition b4 : Both := after_view_takes b3.
Definition b5 : Both := after_publish (PRaw 1 [Byte.x62]) b4.
Definition b6 : Both := after_host EvPublished b5.
Definition b7 : Both := after_host (EvAdvance marker None) b6.
Definition b8 : Both := after_view_takes b7.
Definition b9 : Both := after_view typing_request b8.
Definition b10 : Both := after_host_takes b9.
Definition b11 : Both := after_host_takes b10.
Definition b12 : Both := after_host (EvInputDone true) b11.

Lemma publishes f b : numbered (history b) f -> step shows b (after_publish f b).
Proof. intros Hf. by apply (step_publish shows b f 0). Qed.

Lemma hosts e b : host_goes e b = true -> allowed shows (history b) e (host b) -> step shows b (after_host e b).
Proof.
unfold host_goes, after_host. intros Hg Ha. destruct (serve_step _ _ e (host b)) as [[s x]| |] eqn:E; try done.
apply (step_host shows b answers 4096 e s x); [by apply negb_true_iff|done|done].
Qed.

Lemma host_takes_one b : host_takes b = true -> step shows b (after_host_takes b).
Proof.
unfold host_takes, after_host_takes. intros Hg. destruct (sent_to_host b !! to_host b) as [f|] eqn:Ef; [|done].
destruct (serve_step _ _ _ (host b)) as [[s x]| |] eqn:E; try done.
apply (step_host_takes shows b answers 4096 f s x); [by apply negb_true_iff|done|done].
Qed.

Lemma views e b : view_goes e b = true -> step shows b (after_view e b).
Proof.
unfold view_goes, after_view. intros Hg. destruct (Viewer.step world e (viewer b)) as [[v n]| |] eqn:E; try done.
apply andb_true_iff in Hg as [H1%negb_true_iff H2%negb_true_iff]. by apply (step_viewer shows b world e v n).
Qed.

Lemma view_takes_one b : view_takes b = true -> step shows b (after_view_takes b).
Proof.
unfold view_takes, after_view_takes. intros Hg. destruct (sent_to_viewer b !! to_viewer b) as [f|] eqn:Ef; [|done].
destruct (Viewer.step _ _ (viewer b)) as [[v n]| |] eqn:E; try done.
apply (step_viewer_takes shows b world f 64 v n); [by apply negb_true_iff|done|done].
Qed.

Lemma before : forall pre f, pre ++ [f] `prefix_of` [PRaw 0 [Byte.x61]] -> numbered pre f.
Proof.
intros pre f [k E]. destruct pre as [|g pre]; [injection E as <- _; done|].
injection E as _ E. symmetry in E. apply app_eq_nil in E as [E _]. by apply app_eq_nil in E as [_ E].
Qed.

Lemma cut_is_honest : honest shows (history b1) marker cut.
Proof. exists [PRaw 0 [Byte.x61]], []. split; [done|]. split; [done|]. split; [by split|vm_compute; reflexivity]. Qed.

Lemma s1 : step shows b0 b1.
Proof. unfold b1. apply publishes. cbn. intros Hin. by apply list_elem_of_singleton in Hin. Qed.
Lemma s2 : step shows b1 b2.
Proof. unfold b2. apply hosts; [vm_compute; reflexivity|exact cut_is_honest]. Qed.
Lemma s3 : step shows b2 b3.
Proof. unfold b3. apply hosts; [vm_compute; reflexivity|exact I]. Qed.
Lemma s4 : step shows b3 b4.
Proof. unfold b4. apply view_takes_one. vm_compute. reflexivity. Qed.
Lemma s5 : step shows b4 b5.
Proof. unfold b5. apply publishes. vm_compute. reflexivity. Qed.
Lemma s6 : step shows b5 b6.
Proof. unfold b6. apply hosts; [vm_compute; reflexivity|apply Nat.leb_le; vm_compute; reflexivity]. Qed.
Lemma s7 : step shows b6 b7.
Proof. unfold b7. apply hosts; [vm_compute; reflexivity|exact I]. Qed.
Lemma s8 : step shows b7 b8.
Proof. unfold b8. apply view_takes_one. vm_compute. reflexivity. Qed.
Lemma s9 : step shows b8 b9.
Proof. unfold b9. apply views. vm_compute. reflexivity. Qed.
Lemma s10 : step shows b9 b10.
Proof. unfold b10. apply host_takes_one. vm_compute. reflexivity. Qed.
Lemma s11 : step shows b10 b11.
Proof. unfold b11. apply host_takes_one. vm_compute. reflexivity. Qed.
Lemma s12 : step shows b11 b12.
Proof. unfold b12. apply hosts; [vm_compute; reflexivity|exact I]. Qed.

Lemma runs : connected shows b12.
Proof.
exists [PRaw 0 [Byte.x61]], 0. split; [exact before|]. fold b0.
apply (rtc_l _ _ _ _ s1), (rtc_l _ _ _ _ s2), (rtc_l _ _ _ _ s3), (rtc_l _ _ _ _ s4), (rtc_l _ _ _ _ s5), (rtc_l _ _ _ _ s6).
apply (rtc_l _ _ _ _ s7), (rtc_l _ _ _ _ s8), (rtc_l _ _ _ _ s9), (rtc_l _ _ _ _ s10), (rtc_l _ _ _ _ s11), (rtc_once _ _ s12).
Qed.

(** 128 things wait that change nothing, and then a size. *)
Definition busy (n : nat) : Stream :=
with_screen (new (MkOutput false (replicate n (PMetadata WireClaims.Example.no_metadata) ++
[PResize 30 100 (MkCell 9 18) 0]) false) 0) (with_live (screen (new (MkOutput false [] false) 0)) true Held).
End Example.

Lemma input_arrives_in_order_witness :
  inputs_asked (asked (host Example.b12)) = [[Byte.x6c; Byte.x73]] /\
  inputs_asked (asked (host Example.b12)) = inputs_sent (take (to_host Example.b12) (sent_to_host Example.b12)).
Proof.
  split; [vm_compute; reflexivity|]. exact (proj1 (input_arrives_in_order Example.shows Example.b12 Example.runs)).
Defined.

Lemma viewer_follows_terminal_witness :
  screen_updates (viewer Example.b12) = [Viewer.UCheckpoint WireClaims.Example.checkpoint 1; Viewer.URaw 1 [Byte.x62]] /\
  follows Example.shows (history Example.b12) (screen_updates (viewer Example.b12)).
Proof.
  split; [vm_compute; reflexivity|].
  exact (proj1 (@viewer_follows_terminal Example.libraries Example.libraries_laws Example.sha256 Example.shows Example.b12 Example.runs)).
Defined.

(** The arm of [serve] that reads the output takes one thing more than it handles: with 128
    things before it, a new size goes nowhere, and the viewer keeps the old one. *)
Lemma lost_resize :
  match serve_step Example.answers 4096 EvPublished (Example.busy 128) with
  | Ok (s, Serving) => live (screen s) = true /\ queue (output s) = [] /\ waiting (screen s) = []
  | _ => False
  end /\
  match serve_step Example.answers 4096 EvPublished (Example.busy 127) with
  | Ok (s, Serving) => live (screen s) = true /\ queue (output s) = [] /\
      waiting (screen s) = [WResize 30 100 (MkCell 9 18) 0]
  | _ => False
  end.
Proof. vm_compute. split; (split; [reflexivity|split; reflexivity]). Qed.
