(* ===== verification/Identity.v ===== *)
(** [runtime/src/identity/wire_codec.rs], [device_cert.rs] and [signed_device_list.rs]: the
    bodies that the devices of an account sign, with what makes them valid.

    The signatures of ML-DSA-65, the text of a UUID and SHA-256 are libraries, so they are
    parameters.  A [&str] of the code is UTF-8; a [string] of the model is its bytes. *)

From stdpp Require Import pretty.
From S2P Require Import Prelude Json Utf Terminal Wire.
Open Scope N_scope.

(** The errors of [network/mod.rs] that this part returns. *)
Inductive NetError : Type := NInvalid (reason : string) | NTrust (reason : string) | NIo | NJson.

#[export] Instance NetError_eq_dec : EqDecision NetError.
Proof. solve_decision. Defined.

Abbreviation NR := (Result NetError).

Definition wrong {A} (reason : string) : NR A := Err (NInvalid reason).
Definition distrust {A} (reason : string) : NR A := Err (NTrust reason).

(** [if wrong { return Err(..) }]. *)
Definition refuse (b : bool) (reason : string) : NR unit := if b then wrong reason else Ok tt.
Definition refuse_trust (b : bool) (reason : string) : NR unit := if b then distrust reason else Ok tt.

(** [uuid]: [Uuid::parse_str] and [Uuid::hyphenated]. *)
Class Uuids : Type := { parse_uuid : string -> option Uuid; hyphenated : Uuid -> string }.

(** [aws_lc_rs]: [ML_DSA_65.verify_sig] of a key, a message and a signature, and a pair of
    keys.  A signature of ML-DSA-65 has 3309 bytes and a public key 1952. *)
Class Signatures : Type := {
  verify_sig : bytes -> bytes -> bytes -> bool;
  KeyPair : Type;
  public_key : KeyPair -> bytes;
  sign : KeyPair -> bytes -> option bytes
}.

Class SignaturesLaws `{Signatures} : Prop := {
  sign_verifies k message signature :
    sign k message = Some signature -> verify_sig (public_key k) message signature = true;
  sign_length k message signature : sign k message = Some signature -> len signature = 3309;
  public_key_length k : len (public_key k) = 1952
}.

(** ** [wire_codec.rs] *)

Definition MAX_FIELD_LEN : N := 65536.
Definition USER_ID_LEN : N := 36.
Definition DEVICE_ID_MAX_UTF16_CODE_UNITS : N := 256.
Definition DEVICE_LABEL_MAX_UTF16_CODE_UNITS : N := 128.
Definition ML_DSA_65_PUBLIC_KEY_LEN : N := 1952.
Definition ML_DSA_65_SIGNATURE_LEN : N := 3309.
Definition MAX_DEVICE_CERTIFICATE_BODY_LEN : N := 4584.
Definition MAX_SIGNED_DEVICE_LIST_BODY_LEN : N := 527432.
Definition NO_EXPIRY_SENTINEL : N := 0.
Definition MAX_UNIX_TIME_MILLISECONDS : N := 253402300799999.

Record LpWriter : Type := MkWriter { w_context : string; w_out : bytes }.

Definition writer_new (context : string) : LpWriter := MkWriter context [].

Definition put (l : bytes) (w : LpWriter) : LpWriter := MkWriter (w_context w) (w_out w ++ l).

Definition write_lp_bytes (l : bytes) (w : LpWriter) : NR LpWriter :=
  if U32 <=? len l then wrong (w_context w +:+ " field exceeds u32 length prefix")
  else if MAX_FIELD_LEN <? len l
  then wrong (w_context w +:+ " field length " +:+ pretty (len l) +:+ " exceeds MAX_FIELD_LEN (" +:+
              pretty MAX_FIELD_LEN +:+ ")")
  else Ok (put l (put (be 4 (len l)) w)).

Definition write_lp_str (value : string) (w : LpWriter) : NR LpWriter := write_lp_bytes (bytes_of value) w.
Definition write_u32_be (value : N) (w : LpWriter) : LpWriter := put (be 4 value) w.
Definition write_u64_be (value : N) (w : LpWriter) : LpWriter := put (be 8 value) w.
Definition finish (w : LpWriter) : bytes := w_out w.

Record LpReader : Type := MkReader { r_context : string; r_bytes : bytes; r_at : N }.

Definition reader_new (context : string) (l : bytes) : LpReader := MkReader context l 0.

Definition checked_add (a b : N) : option N := if a + b <? U64 then Some (a + b) else None.

(** The next [size] bytes, as each method of [LpReader] takes them: the end is checked, and
    then the slice is taken. *)
Definition next_bytes (size : N) (overflow truncated : string) (r : LpReader) : NR (bytes * LpReader) :=
  match checked_add (r_at r) size with
  | None => wrong (r_context r +:+ overflow)
  | Some end_ =>
      if len (r_bytes r) <? end_ then wrong (r_context r +:+ truncated)
      else
        l ← or_panic (if r_at r <=? end_ then Some (take (N.to_nat (end_ - r_at r)) (drop (N.to_nat (r_at r)) (r_bytes r)))
                      else None);
        Ok (l, MkReader (r_context r) (r_bytes r) end_)
  end.

Definition read_u32_be (r : LpReader) : NR (N * LpReader) :=
  '(l, r) ← next_bytes 4 ": u32 length overflow" ": truncated u32" r; Ok (of_be l, r).
Definition read_u64_be (r : LpReader) : NR (N * LpReader) :=
  '(l, r) ← next_bytes 8 ": u64 length overflow" ": truncated u64" r; Ok (of_be l, r).

Definition read_lp_bytes (r : LpReader) : NR (bytes * LpReader) :=
  '(n, r) ← read_u32_be r;
  if MAX_FIELD_LEN <? n
  then wrong (r_context r +:+ ": field length " +:+ pretty n +:+ " exceeds MAX_FIELD_LEN (" +:+ pretty MAX_FIELD_LEN +:+ ")")
  else next_bytes n ": field length overflow" ": truncated field" r.

(** [String::from_utf8] takes the bytes of a [str]. *)
Definition read_lp_str (r : LpReader) : NR (string * LpReader) :=
  '(l, r) ← read_lp_bytes r;
  if valid_utf8 (Byte.to_N <$> l) then Ok (str_of l, r) else wrong (r_context r +:+ ": invalid UTF-8 in string field").

Definition expect_consumed (r : LpReader) : NR unit :=
  refuse (negb (r_at r =? len (r_bytes r))) (r_context r +:+ ": trailing bytes after parse").

(** [str::trim] leaves a text as it is: no white space at its start or its end. *)
Definition trimmed (l : list N) : bool :=
  negb (existsb Utf.is_whitespace (option_list (head l) ++ option_list (last l))).

Definition canonical_text (value : string) (most : N) : bool :=
  let l := Utf.chars value in
  trimmed l && negb (String.eqb value "") && (len (Utf.encode_utf16 l) <=? most).

Definition reject_zero_expiry (context : string) (expires_at_ms : option N) : NR unit :=
  refuse (bool_decide (expires_at_ms = Some 0))
    (context +:+ ": expires_at_ms = Some(0) is reserved as the no-expiry sentinel; pass None instead").

(** [Option::is_some_and]. *)
Definition some_and {A} (p : A -> bool) (o : option A) : bool := match o with Some a => p a | None => false end.

Definition validate_timestamps (context : string) (issued_at_ms : N) (expires_at_ms : option N) : NR unit :=
  _ ← reject_zero_expiry context expires_at_ms;
  let late field := context +:+ ": " +:+ field +:+ " exceeds MAX_UNIX_TIME_MILLISECONDS (" +:+
                    pretty MAX_UNIX_TIME_MILLISECONDS +:+ ")" in
  _ ← refuse (some_and (N.ltb MAX_UNIX_TIME_MILLISECONDS) (Some issued_at_ms)) (late "issued_at_ms");
  _ ← refuse (some_and (N.ltb MAX_UNIX_TIME_MILLISECONDS) expires_at_ms) (late "expires_at_ms");
  refuse (some_and (fun expires => expires <=? issued_at_ms) expires_at_ms)
    (context +:+ ": expires_at_ms must be greater than issued_at_ms").

Definition validate_canonical_device_id (context field value : string) : NR unit :=
  refuse (negb (canonical_text value DEVICE_ID_MAX_UTF16_CODE_UNITS))
    (context +:+ ": " +:+ field +:+ " must be canonical non-blank text of at most " +:+
     pretty DEVICE_ID_MAX_UTF16_CODE_UNITS +:+ " UTF-16 code units").

Definition encode_expiry (expires_at_ms : option N) : N := default NO_EXPIRY_SENTINEL expires_at_ms.
Definition decode_expiry (expires_at_ms : N) : option N :=
  if expires_at_ms =? NO_EXPIRY_SENTINEL then None else Some expires_at_ms.

(** Whether a body fits. *)
Definition body_fits (context most_name : string) (most : N) (body : bytes) : NR unit :=
  refuse (most <? len body)
    (context +:+ ": body length " +:+ pretty (len body) +:+ " exceeds " +:+ most_name +:+ " (" +:+ pretty most +:+ ")").

Section identity.
Context `{Uuids, Signatures}.

Definition validate_canonical_user_id (context value : string) : NR unit :=
match parse_uuid value with
| None => wrong (context +:+ ": user_id must be a canonical lowercase UUID")
| Some parsed =>
refuse (negb (size_of value =? USER_ID_LEN) || negb (String.eqb (hyphenated parsed) value))
(context +:+ ": user_id must be a canonical lowercase UUID")
end.

(** ** [device_cert.rs] *)

Definition DEVICE_CERT_V3 : bytes := bytes_of "kodosi-device-cert-v3".
Definition DEVICE_CERT_CONTEXT : string := "device cert".

Record DeviceCertificate : Type := MkCertificate {
c_user : string; c_device : string; c_label : string; c_signer : string;
c_key : bytes; c_issued : N; c_expires : option N
}.

Definition is_self_signed (c : DeviceCertificate) : bool := String.eqb (c_signer c) (c_device c).

Definition is_valid_at (c : DeviceCertificate) (now : N) : bool :=
match c_expires c with None => true | Some expires => now <? expires end.

Definition reject_bounded_str (context field value : string) (most : N) : NR unit :=
refuse (negb (canonical_text value most))
(context +:+ ": " +:+ field +:+ " must be canonical non-blank text of at most " +:+ pretty most +:+ " UTF-16 code units").

Definition require_exact_bytes (context field : string) (value : bytes) (required : N) : NR unit :=
refuse (negb (len value =? required)) (context +:+ ": " +:+ field +:+ " must be exactly " +:+ pretty required +:+ " bytes").

Definition validate_certificate (c : DeviceCertificate) : NR unit :=
_ ← validate_timestamps DEVICE_CERT_CONTEXT (c_issued c) (c_expires c);
_ ← validate_canonical_user_id DEVICE_CERT_CONTEXT (c_user c);
_ ← validate_canonical_device_id DEVICE_CERT_CONTEXT "device_id" (c_device c);
_ ← reject_bounded_str DEVICE_CERT_CONTEXT "device_label" (c_label c) DEVICE_LABEL_MAX_UTF16_CODE_UNITS;
_ ← validate_canonical_device_id DEVICE_CERT_CONTEXT "signer_device_id" (c_signer c);
require_exact_bytes DEVICE_CERT_CONTEXT "signature public key" (c_key c) ML_DSA_65_PUBLIC_KEY_LEN.

Definition certificate_fits : bytes -> NR unit :=
body_fits DEVICE_CERT_CONTEXT "MAX_DEVICE_CERTIFICATE_BODY_LEN" MAX_DEVICE_CERTIFICATE_BODY_LEN.

(** [DeviceCertificate::serialize_body]. *)
Definition serialize_certificate (c : DeviceCertificate) : NR bytes :=
_ ← validate_certificate c;
w ← write_lp_str (c_user c) (writer_new DEVICE_CERT_CONTEXT);
w ← write_lp_str (c_device c) w;
w ← write_lp_str (c_label c) w;
w ← write_lp_str (c_signer c) w;
w ← write_lp_bytes (c_key c) w;
let body := finish (write_u64_be (encode_expiry (c_expires c)) (write_u64_be (c_issued c) w)) in
_ ← certificate_fits body;
Ok body.

(** [DeviceCertificate::parse_body]. *)
Definition parse_certificate (l : bytes) : NR DeviceCertificate :=
_ ← certificate_fits l;
'(user, r) ← read_lp_str (reader_new DEVICE_CERT_CONTEXT l);
'(device, r) ← read_lp_str r;
'(label, r) ← read_lp_str r;
'(signer, r) ← read_lp_str r;
'(key, r) ← read_lp_bytes r;
'(issued, r) ← read_u64_be r;
'(expires, r) ← read_u64_be r;
_ ← expect_consumed r;
let c := MkCertificate user device label signer key issued (decode_expiry expires) in
_ ← validate_certificate c;
Ok c.

Record SignedDeviceCertificate : Type := MkSignedCertificate { sc_body : bytes; sc_signature : bytes }.

(** [sign_certificate]. *)
Definition sign_certificate (c : DeviceCertificate) (signer : KeyPair) : NR SignedDeviceCertificate :=
body ← serialize_certificate c;
signature ← ok_or (NInvalid "device certificate signing failed") (sign signer (DEVICE_CERT_V3 ++ body));
Ok (MkSignedCertificate body signature).

Definition build_self_cert (user device label : string) (pair : KeyPair) (issued : N) (expires : option N) :
NR SignedDeviceCertificate :=
sign_certificate (MkCertificate user device label device (public_key pair) issued expires) pair.

Definition build_cert_for (user device label : string) (key : bytes) (signer : string) (pair : KeyPair)
(issued : N) (expires : option N) : NR SignedDeviceCertificate :=
_ ← validate_canonical_device_id DEVICE_CERT_CONTEXT "new device_id" device;
_ ← validate_canonical_device_id DEVICE_CERT_CONTEXT "signer_device_id" signer;
_ ← refuse (String.eqb signer device) "use build_self_cert for self-signed bootstrap";
sign_certificate (MkCertificate user device label signer key issued expires) pair.

(** The length of a signature, and the signature of a body. *)
Definition check_signature (context failed : string) (prefix body signature key : bytes) : NR unit :=
_ ← refuse (negb (len signature =? ML_DSA_65_SIGNATURE_LEN))
(context +:+ ": signature length " +:+ pretty (len signature) +:+ " does not equal ML_DSA_65_SIGNATURE_LEN (" +:+
pretty ML_DSA_65_SIGNATURE_LEN +:+ ")");
refuse (negb (verify_sig key (prefix ++ body) signature)) failed.

(** [verify_certificate]. *)
Definition verify_certificate (body signature key : bytes) : NR DeviceCertificate :=
_ ← check_signature DEVICE_CERT_CONTEXT "device certificate signature verification failed" DEVICE_CERT_V3
body signature key;
c ← parse_certificate body;
_ ← refuse (is_self_signed c && negb (bool_decide (c_key c = key))) "self-signed cert pubkey must match signer pubkey";
Ok c.

(** ** [signed_device_list.rs] *)

Definition DEVICE_LIST_V1 : bytes := bytes_of "kodosi-device-list-v1".
Definition DEVICE_LIST_CONTEXT : string := "device list".
Definition MAX_ENTRIES : N := 256.

Record DeviceListEntry : Type := MkEntry { e_device : string; e_signer : string }.

#[export] Instance DeviceListEntry_eq_dec : EqDecision DeviceListEntry.
Proof. solve_decision. Defined.

Record SignedDeviceList : Type := MkList {
l_user : string; l_generation : N; l_entries : list DeviceListEntry;
l_signer : string; l_issued : N; l_expires : option N
}.

(** [DeviceListEntry::validate_required_fields]. *)
Definition validate_entry (e : DeviceListEntry) : NR unit :=
_ ← validate_canonical_device_id DEVICE_LIST_CONTEXT "device_id" (e_device e);
validate_canonical_device_id DEVICE_LIST_CONTEXT "entry signer_device_id" (e_signer e).

(** The loop of [validate_entries] over the entries, with the ids that it saw. *)
Fixpoint validate_entries_from (seen : gset string) (entries : list DeviceListEntry) : NR unit :=
match entries with
| [] => Ok tt
| e :: entries =>
_ ← validate_entry e;
_ ← refuse (bool_decide (e_device e ∈ seen)) ("device list contains duplicate device_id " +:+ e_device e);
validate_entries_from ({[e_device e]} ∪ seen) entries
end.

Definition validate_entries : list DeviceListEntry -> NR unit := validate_entries_from ∅.

(** [SignedDeviceList::validate_required_fields]; [i64::MAX] is [2^63 - 1]. *)
Definition validate_list (l : SignedDeviceList) : NR unit :=
_ ← refuse ((l_generation l =? 0) || negb (l_generation l <? 2 ^ 63))
"device list: generation must be between 1 and i64::MAX";
_ ← validate_timestamps DEVICE_LIST_CONTEXT (l_issued l) (l_expires l);
_ ← validate_canonical_user_id DEVICE_LIST_CONTEXT (l_user l);
_ ← validate_canonical_device_id DEVICE_LIST_CONTEXT "list signer_device_id" (l_signer l);
validate_entries (l_entries l).

(** [SignedDeviceList::successor_issued_at]. *)
Definition successor_issued_at (l : SignedDeviceList) (now : N) : NR N :=
issued ← ok_or (NInvalid "device list issuance overflow") (checked_add (l_issued l) 1);
let issued := N.max issued now in
_ ← validate_timestamps DEVICE_LIST_CONTEXT issued None;
Ok issued.

Definition list_fits : bytes -> NR unit :=
body_fits DEVICE_LIST_CONTEXT "MAX_SIGNED_DEVICE_LIST_BODY_LEN" MAX_SIGNED_DEVICE_LIST_BODY_LEN.

Fixpoint write_entries (entries : list DeviceListEntry) (w : LpWriter) : NR LpWriter :=
match entries with
| [] => Ok w
| e :: entries =>
w ← write_lp_str (e_device e) w;
w ← write_lp_str (e_signer e) w;
write_entries entries w
end.

(** [SignedDeviceList::serialize_body]. *)
Definition serialize_list (l : SignedDeviceList) : NR bytes :=
_ ← validate_list l;
let count := len (l_entries l) in
_ ← refuse (MAX_ENTRIES <? count)
("device list: " +:+ pretty count +:+ " entries exceeds MAX_ENTRIES (" +:+ pretty MAX_ENTRIES +:+ ")");
_ ← refuse (U32 <=? count) "device list: entry count exceeds u32";
w ← write_lp_str (l_user l) (writer_new DEVICE_LIST_CONTEXT);
w ← write_entries (l_entries l) (write_u32_be count (write_u64_be (l_generation l) w));
w ← write_lp_str (l_signer l) w;
let body := finish (write_u64_be (encode_expiry (l_expires l)) (write_u64_be (l_issued l) w)) in
_ ← list_fits body;
Ok body.

Fixpoint read_entries (count : nat) (r : LpReader) : NR (list DeviceListEntry * LpReader) :=
match count with
| O => Ok ([], r)
| S count =>
'(device, r) ← read_lp_str r;
'(signer, r) ← read_lp_str r;
'(entries, r) ← read_entries count r;
Ok (MkEntry device signer :: entries, r)
end.

Definition signer_listed (l : SignedDeviceList) : bool :=
existsb (fun e => String.eqb (e_device e) (l_signer l)) (l_entries l).

(** [SignedDeviceList::parse_body]. *)
Definition parse_list (l : bytes) : NR SignedDeviceList :=
_ ← list_fits l;
'(user, r) ← read_lp_str (reader_new DEVICE_LIST_CONTEXT l);
'(generation, r) ← read_u64_be r;
'(count, r) ← read_u32_be r;
_ ← refuse (MAX_ENTRIES <? count)
("device list: entry_count " +:+ pretty count +:+ " exceeds MAX_ENTRIES (" +:+ pretty MAX_ENTRIES +:+ ")");
'(entries, r) ← read_entries (N.to_nat count) r;
'(signer, r) ← read_lp_str r;
'(issued, r) ← read_u64_be r;
'(expires, r) ← read_u64_be r;
_ ← expect_consumed r;
let l := MkList user generation entries signer issued (decode_expiry expires) in
_ ← validate_list l;
_ ← refuse (negb (signer_listed l)) ("device list signer " +:+ l_signer l +:+ " is not present in the list entries");
Ok l.

Record SignedDeviceListEnvelope : Type := MkSignedList { sl_body : bytes; sl_signature : bytes }.

(** [sign_list]. *)
Definition sign_list (l : SignedDeviceList) (signer : KeyPair) : NR SignedDeviceListEnvelope :=
body ← serialize_list l;
_ ← parse_list body;
signature ← ok_or (NInvalid "device list signing failed") (sign signer (DEVICE_LIST_V1 ++ body));
Ok (MkSignedList body signature).

Definition build_bootstrap_list (user device : string) (pair : KeyPair) (issued : N) (expires : option N) :
NR SignedDeviceListEnvelope :=
sign_list (MkList user 1 [MkEntry device device] device issued expires) pair.

Definition lists (entries : list DeviceListEntry) (device : string) : bool :=
existsb (fun e => String.eqb (e_device e) device) entries.

Definition build_replacement_list (user : string) (previous_generation : N) (previous next : list DeviceListEntry)
(signer : string) (pair : KeyPair) (issued : N) (expires : option N) : NR SignedDeviceListEnvelope :=
_ ← validate_entries previous;
_ ← validate_entries next;
_ ← validate_canonical_device_id DEVICE_LIST_CONTEXT "list signer_device_id" signer;
_ ← refuse (bool_decide (next = [])) "device list cannot be empty; at least one device must remain";
_ ← refuse (negb (lists previous signer))
("list signer " +:+ signer +:+ " is not in the previous list, so it cannot replace it");
_ ← refuse (negb (lists next signer))
("list signer " +:+ signer +:+ " is not in the new entry set, which would invalidate the list");
generation ← ok_or (NInvalid "device list generation overflow") (checked_add previous_generation 1);
sign_list (MkList user generation next signer issued expires) pair.

(** [verify_signed_device_list]. *)
Definition verify_signed_device_list (body signature key : bytes) : NR SignedDeviceList :=
_ ← check_signature DEVICE_LIST_CONTEXT "device list signature verification failed" DEVICE_LIST_V1
body signature key;
parse_list body.
End identity.
