(* ===== verification/IdentitySpec.v ===== *)
(** The bodies of [Identity] and their bytes: what a reader that succeeded has read, and that
    the text of a certificate or of a device list is the only text that reads as it. *)

From S2P Require Import Prelude Json Utf Terminal Wire WireSpec Identity.
Open Scope N_scope.

(** ** Numbers and texts as bytes *)

Lemma be_add n a v : be n (a * 256 ^ N.of_nat n + v) = be n v.
Proof.
  revert a v. induction n as [|n IH]; intros a v; [done|]. cbn [be].
  assert (0 < 256 ^ N.of_nat n) by (apply N.neq_0_lt_0, N.pow_nonzero; done).
  rewrite Nat2N.inj_succ, N.pow_succ_r'.
  replace (a * (256 * 256 ^ N.of_nat n) + v) with (a * 256 * 256 ^ N.of_nat n + v) by lia.
  rewrite IH. f_equal. rewrite N.div_add_l by lia. unfold byte_of.
  by rewrite N.add_comm, N.Div0.mod_add.
Qed.

Lemma fold_of_be l acc : fold_left (fun v b => v * 256 + Byte.to_N b) l acc = acc * 256 ^ len l + of_be l.
Proof.
  unfold of_be, len. revert acc. induction l as [|b l IH]; intros acc; cbn [fold_left length].
  { rewrite N.pow_0_r. lia. }
  rewrite IH, (IH (0 * 256 + _)), Nat2N.inj_succ, N.pow_succ_r'. lia.
Qed.

Lemma be_of_be l : be (length l) (of_be l) = l.
Proof.
  induction l as [|b l IH]; [done|]. cbn [length be]. pose proof (of_be_bound l) as Hb. unfold len in Hb.
  assert (0 < 256 ^ N.of_nat (length l)) by (apply N.neq_0_lt_0, N.pow_nonzero; done).
  assert (of_be (b :: l) = Byte.to_N b * 256 ^ N.of_nat (length l) + of_be l) as ->.
  { unfold of_be at 1. cbn [fold_left]. rewrite fold_of_be. unfold len. lia. }
  rewrite be_add, IH, N.div_add_l, N.div_small by lia. f_equal. by rewrite N.add_0_r, byte_of_to_N.
Qed.

Lemma be_of_be_len l n : len l = N.of_nat n -> be n (of_be l) = l.
Proof. intros Hl. assert (n = length l) as -> by (unfold len in Hl; lia). apply be_of_be. Qed.

Lemma str_of_bytes_of s : str_of (bytes_of s) = s.
Proof.
  unfold bytes_of, str_of. rewrite map_map.
  rewrite (map_ext _ id), map_id; [apply String.string_of_list_ascii_of_string|]. intros a.
  pose proof (Ascii.N_ascii_bounded a). rewrite byte_of_N, N.mod_small by lia. apply Ascii.ascii_N_embedding.
Qed.

(** A text that a [&str] can hold. *)
Definition is_str (s : string) : Prop := valid_utf8 (Byte.to_N <$> bytes_of s) = true.

#[export] Instance is_str_dec s : Decision (is_str s).
Proof. unfold is_str. apply _. Defined.

(** ** Checks *)

Lemma refuse_ok b reason u : refuse b reason = Ok u <-> b = false.
Proof. destruct b, u; simpl; split; done. Qed.

Lemma refuse_trust_ok b reason u : refuse_trust b reason = Ok u <-> b = false.
Proof. destruct b, u; simpl; split; done. Qed.

Lemma safe_refuse b reason : safe (refuse b reason).
Proof. by destruct b. Qed.

Lemma safe_refuse_trust b reason : safe (refuse_trust b reason).
Proof. by destruct b. Qed.

#[export] Hint Resolve safe_refuse safe_refuse_trust : kodosi.

(** Opens the checks that succeeded. *)
Ltac inv_checks :=
  repeat (inv_ok; match goal with
  | H : refuse _ _ = Ok _ |- _ => apply refuse_ok in H
  | H : refuse_trust _ _ = Ok _ |- _ => apply refuse_trust_ok in H
  | H : negb _ = false |- _ => apply negb_false_iff in H
  | H : _ || _ = false |- _ => apply orb_false_iff in H; destruct H
  | H : _ && _ = true |- _ => apply andb_true_iff in H; destruct H
  | H : bool_decide _ = false |- _ => apply bool_decide_eq_false in H
  | H : bool_decide _ = true |- _ => apply bool_decide_eq_true in H
  | H : (_ =? _) = true |- _ => apply N.eqb_eq in H
  | H : (_ =? _) = false |- _ => apply N.eqb_neq in H
  | H : (_ <? _) = true |- _ => apply N.ltb_lt in H
  | H : (_ <? _) = false |- _ => apply N.ltb_ge in H
  | H : (_ <=? _) = true |- _ => apply N.leb_le in H
  | H : (_ <=? _) = false |- _ => apply N.leb_gt in H
  | H : String.eqb _ _ = true |- _ => apply String.eqb_eq in H
  | H : String.eqb _ _ = false |- _ => apply String.eqb_neq in H
  | H : _ /\ _ |- _ => destruct H
  end); inv_ok.

(** ** Readers *)

Definition rest (r : LpReader) : bytes := drop (N.to_nat (r_at r)) (r_bytes r).
Definition reader_ok (r : LpReader) : Prop := r_at r <= len (r_bytes r) /\ len (r_bytes r) < U64.
Definition advance (n : N) (r : LpReader) : LpReader := MkReader (r_context r) (r_bytes r) (r_at r + n).

(** [r'] is the reader after [l] was read. *)
Definition eats (r : LpReader) (l : bytes) (r' : LpReader) : Prop := rest r = l ++ rest r' /\ r' = advance (len l) r.

Lemma eats_ok r l r' : reader_ok r -> eats r l r' -> reader_ok r'.
Proof.
  intros [H1 H2] [E ->]. split; [|done]. cbn. unfold rest in E. apply (f_equal len) in E.
  unfold len in *. rewrite length_app, !length_drop in E. cbn in E. rewrite N2Nat.inj_add in E. lia.
Qed.

Lemma rest_eats r l k : rest r = l ++ k -> eats r l (advance (len l) r) /\ rest (advance (len l) r) = k.
Proof.
  intros E. assert (rest (advance (len l) r) = k) as H.
  { unfold rest, advance in *. cbn. rewrite N2Nat.inj_add.
    rewrite <- drop_drop, E. unfold len. rewrite Nat2N.id. apply drop_app_length. }
  split; [|done]. split; [|done]. by rewrite H.
Qed.

Lemma eats_app r l1 r1 l2 r2 : eats r l1 r1 -> eats r1 l2 r2 -> eats r (l1 ++ l2) r2.
Proof.
  intros [E1 ->] [E2 ->]. split; [by rewrite E1, E2, <- app_assoc|].
  unfold advance. cbn. f_equal. unfold len. rewrite length_app. lia.
Qed.

Lemma eats_fun r l r1 r2 : eats r l r1 -> eats r l r2 -> r1 = r2.
Proof. intros [_ ->] [_ ->]. done. Qed.

Lemma next_bytes_ok r n o t l r' : reader_ok r -> next_bytes n o t r = Ok (l, r') <-> len l = n /\ eats r l r'.
Proof.
  intros [H1 H2]. unfold next_bytes, checked_add. split.
  - destruct (N.ltb_spec (r_at r + n) U64); [|done].
    destruct (N.ltb_spec (len (r_bytes r)) (r_at r + n)) as [|H3]; [done|].
    rewrite (proj2 (N.leb_le _ _)) by lia. intros [= <- <-].
    replace (r_at r + n - r_at r) with n by lia.
    assert (len (take (N.to_nat n) (drop (N.to_nat (r_at r)) (r_bytes r))) = n) as Hl.
    { unfold len in *. rewrite length_take, length_drop. lia. }
    split; [done|]. split; [|by unfold advance; rewrite Hl].
    unfold rest. cbn. rewrite N2Nat.inj_add, <- drop_drop. by rewrite take_drop.
  - intros [Hl [E ->]]. subst n.
    assert (r_at r + len l <= len (r_bytes r)) as Hle.
    { unfold rest in E. apply (f_equal len) in E. unfold len in *.
      rewrite length_app, length_drop in E. cbn in E. lia. }
    destruct (N.ltb_spec (r_at r + len l) U64); [|lia].
    destruct (N.ltb_spec (len (r_bytes r)) (r_at r + len l)); [lia|].
    rewrite (proj2 (N.leb_le _ _)) by lia. cbn. f_equal. f_equal.
    replace (r_at r + len l - r_at r) with (len l) by lia.
    unfold rest in E at 1. rewrite E. unfold len. rewrite Nat2N.id. apply take_app_length.
Qed.

Lemma read_u32_ok r v r' : reader_ok r -> read_u32_be r = Ok (v, r') <-> v < U32 /\ eats r (be 4 v) r'.
Proof.
  intros Hr. unfold read_u32_be. rewrite bind_ok. split.
  - intros ([l r1] & E & [= <- <-]). apply (next_bytes_ok _ _ _ _ _ _ Hr) in E as [Hl He].
    rewrite (be_of_be_len l 4) by done. split; [|done]. pose proof (of_be_bound l) as Hb. by rewrite Hl in Hb.
  - intros [Hv He]. exists (be 4 v, r'). split; [apply next_bytes_ok; [done|by split]|].
    cbn -[of_be be]. by rewrite of_be_be.
Qed.

Lemma read_u64_ok r v r' : reader_ok r -> read_u64_be r = Ok (v, r') <-> v < U64 /\ eats r (be 8 v) r'.
Proof.
  intros Hr. unfold read_u64_be. rewrite bind_ok. split.
  - intros ([l r1] & E & [= <- <-]). apply (next_bytes_ok _ _ _ _ _ _ Hr) in E as [Hl He].
    rewrite (be_of_be_len l 8) by done. split; [|done]. pose proof (of_be_bound l) as Hb. by rewrite Hl in Hb.
  - intros [Hv He]. exists (be 8 v, r'). split; [apply next_bytes_ok; [done|by split]|].
    cbn -[of_be be]. by rewrite of_be_be.
Qed.

(** A field with its length. *)
Definition lp (l : bytes) : bytes := be 4 (len l) ++ l.

Lemma read_lp_bytes_ok r l r' :
  reader_ok r -> read_lp_bytes r = Ok (l, r') <-> len l <= MAX_FIELD_LEN /\ eats r (lp l) r'.
Proof.
  intros Hr. unfold read_lp_bytes. rewrite bind_ok. split.
  - intros ([n r1] & E1 & E2). apply (read_u32_ok _ _ _ Hr) in E1 as [Hn He].
    destruct (N.ltb_spec MAX_FIELD_LEN n); [done|].
    apply next_bytes_ok in E2 as [Hl He2]; [|by eapply eats_ok]. subst n.
    split; [done|]. by eapply eats_app.
  - intros [Hl [E He]]. unfold lp in E. rewrite <- app_assoc in E. destruct (rest_eats _ _ _ E) as [E1 Er].
    pose proof (eats_ok _ _ _ Hr E1) as Hr1.
    exists (len l, advance (len (be 4 (len l))) r). split.
    { apply read_u32_ok; [done|]. split; [|done]. unfold MAX_FIELD_LEN, U32 in *. lia. }
    destruct (N.ltb_spec MAX_FIELD_LEN (len l)); [lia|].
    apply next_bytes_ok; [done|]. split; [done|]. split; [done|]. subst r'. unfold advance, lp. cbn -[be len].
    f_equal. unfold len. rewrite length_app. lia.
Qed.

Lemma read_lp_str_ok r s r' : reader_ok r ->
  read_lp_str r = Ok (s, r') <-> (is_str s /\ len (bytes_of s) <= MAX_FIELD_LEN) /\ eats r (lp (bytes_of s)) r'.
Proof.
  intros Hr. unfold read_lp_str. rewrite bind_ok. split.
  - intros ([l r1] & E & E2). apply (read_lp_bytes_ok _ _ _ Hr) in E as [Hl He].
    destruct (valid_utf8 _) eqn:Ev; [|done]. injection E2 as <- <-. unfold is_str. by rewrite bytes_of_str_of.
  - intros [[Hs Hl] He]. exists (bytes_of s, r'). split; [by apply read_lp_bytes_ok|].
    unfold is_str in Hs. cbn. rewrite Hs. by rewrite str_of_bytes_of.
Qed.

Lemma consumed_ok r u : reader_ok r -> expect_consumed r = Ok u <-> rest r = [].
Proof.
  intros [H1 H2]. unfold expect_consumed. rewrite refuse_ok, negb_false_iff, N.eqb_eq. unfold rest, len in *. split.
  - intros ->. apply drop_ge. lia.
  - intros E. apply (f_equal length) in E. rewrite length_drop in E. cbn in E. lia.
Qed.

(** ** Writers *)

Lemma write_lp_bytes_ok l w w' : write_lp_bytes l w = Ok w' <-> len l <= MAX_FIELD_LEN /\ w' = put (lp l) w.
Proof.
  unfold write_lp_bytes. split.
  - destruct (U32 <=? len l); [done|]. destruct (N.ltb_spec MAX_FIELD_LEN (len l)); [done|].
    intros [= <-]. split; [done|]. unfold put, lp. cbn -[be]. by rewrite app_assoc.
  - intros [Hl ->]. destruct (N.leb_spec U32 (len l)); [unfold U32, MAX_FIELD_LEN in *; lia|].
    destruct (N.ltb_spec MAX_FIELD_LEN (len l)); [lia|]. unfold put, lp. cbn -[be]. by rewrite app_assoc.
Qed.

(** ** Fields in a row *)

(** [f] reads [enc v] as [v] and nothing else. *)
Definition reads {A} (f : LpReader -> NR (A * LpReader)) (P : A -> Prop) (enc : A -> bytes) : Prop :=
  forall r v r', reader_ok r -> f r = Ok (v, r') <-> P v /\ eats r (enc v) r'.

Definition field (s : string) : bytes := lp (bytes_of s).
Definition field_ok (s : string) : Prop := is_str s /\ len (bytes_of s) <= MAX_FIELD_LEN.

Lemma reads_str : reads read_lp_str field_ok field.
Proof. intros r s r' Hr. by apply read_lp_str_ok. Qed.

Lemma reads_bytes : reads read_lp_bytes (fun l => len l <= MAX_FIELD_LEN) lp.
Proof. intros r s r' Hr. by apply read_lp_bytes_ok. Qed.

Lemma reads_u32 : reads read_u32_be (fun v => v < U32) (be 4).
Proof. intros r v r' Hr. by apply read_u32_ok. Qed.

Lemma reads_u64 : reads read_u64_be (fun v => v < U64) (be 8).
Proof. intros r v r' Hr. by apply read_u64_ok. Qed.

Lemma reads_on {A} f (P : A -> Prop) enc r v r' :
  reads f P enc -> reader_ok r -> f r = Ok (v, r') -> P v /\ rest r = enc v ++ rest r' /\ reader_ok r'.
Proof.
  intros Hf Hr E. apply Hf in E as [Hp He]; [|done]. pose proof (eats_ok _ _ _ Hr He). by destruct He.
Qed.

Lemma reader_new_ok context l : len l < U64 -> reader_ok (reader_new context l).
Proof. intros Hl. split; [cbn; lia|done]. Qed.

(** [E] says that a read succeeded: what it read is what was left. *)
Ltac on_read H E :=
  eapply (reads_on _ _ _ _ _ _ H) in E; [|eassumption]; destruct E as (? & ? & ?).

(** Reads on, where what is left starts with the field. *)
Lemma read_then {A B} f (P : A -> Prop) enc v t r (k : A * LpReader -> NR B) b :
  reads f P enc -> rest r = enc v ++ t -> P v -> reader_ok r ->
  (forall r', reader_ok r' -> rest r' = t -> k (v, r') = Ok b) -> (f r ≫= k) = Ok b.
Proof.
  intros Hf E Hp Hr Hk. destruct (rest_eats _ _ _ E) as [He Ht].
  rewrite (proj2 (Hf r v _ Hr) (conj Hp He)). apply Hk; [by eapply eats_ok|done].
Qed.

Lemma timestamps_ok context issued expires u :
  validate_timestamps context issued expires = Ok u <->
  expires <> Some 0 /\ issued <= MAX_UNIX_TIME_MILLISECONDS /\
  match expires with Some e => issued < e /\ e <= MAX_UNIX_TIME_MILLISECONDS | None => True end.
Proof.
  destruct u. unfold validate_timestamps, reject_zero_expiry. split.
  - intros E. inv_checks. cbn in *. destruct expires as [e|]; cbn in *; inv_checks; naive_solver lia.
  - intros (H1 & H2 & H3). rewrite bool_decide_eq_false_2 by done. cbn.
    destruct (N.ltb_spec MAX_UNIX_TIME_MILLISECONDS issued); [lia|]. destruct expires as [e|]; cbn; [|done].
    destruct (N.ltb_spec MAX_UNIX_TIME_MILLISECONDS e); [lia|]. cbn.
    destruct (N.leb_spec e issued); [lia|done].
Qed.

Lemma expiry_back expires : expires <> Some 0 -> decode_expiry (encode_expiry expires) = expires.
Proof. destruct expires as [[|p]|]; cbn; done. Qed.

Lemma encode_decode_expiry n : encode_expiry (decode_expiry n) = n.
Proof. unfold decode_expiry. destruct (N.eqb_spec n NO_EXPIRY_SENTINEL) as [->|]; done. Qed.

Lemma time_small n : n <= MAX_UNIX_TIME_MILLISECONDS -> n < U64.
Proof. unfold MAX_UNIX_TIME_MILLISECONDS, U64. lia. Qed.

Lemma encode_expiry_small context issued expires u :
  validate_timestamps context issued expires = Ok u -> issued < U64 /\ encode_expiry expires < U64.
Proof.
  intros (H1 & H2 & H3)%timestamps_ok. split; [by apply time_small|].
  destruct expires as [e|]; cbn; [|done]. apply time_small, H3.
Qed.

Lemma body_fits_ok context name most body u : body_fits context name most body = Ok u <-> len body <= most.
Proof. unfold body_fits. by rewrite refuse_ok, N.ltb_ge. Qed.

(** What the steps of a serializer that succeeded say. *)
Ltac opened :=
  repeat match goal with
  | u : unit |- _ => destruct u
  | p : (_ * _)%type |- _ => destruct p
  | H : write_lp_bytes _ _ = Ok _ |- _ => apply write_lp_bytes_ok in H as [? ->]
  | H : body_fits _ _ _ _ = Ok _ |- _ => apply body_fits_ok in H
  | H : certificate_fits _ = Ok _ |- _ => apply body_fits_ok in H
  | H : list_fits _ = Ok _ |- _ => apply body_fits_ok in H
  end.

(** Follows a parser that succeeded from a reader that is in order. *)
Ltac follow :=
  repeat (first [progress inv_checks | progress opened | match goal with
  | Hr : reader_ok ?r, E : read_lp_str ?r = Ok _ |- _ => on_read reads_str E
  | Hr : reader_ok ?r, E : read_lp_bytes ?r = Ok _ |- _ => on_read reads_bytes E
  | Hr : reader_ok ?r, E : read_u32_be ?r = Ok _ |- _ => on_read reads_u32 E
  | Hr : reader_ok ?r, E : read_u64_be ?r = Ok _ |- _ => on_read reads_u64 E
  | Hr : reader_ok ?r, E : expect_consumed ?r = Ok _ |- _ => apply consumed_ok in E; [|exact Hr]
  end]; cbv beta iota in * ).

Lemma rest_new context l : rest (reader_new context l) = l.
Proof. done. Qed.

Section bodies.
Context `{Uuids, Signatures}.

(** A certificate made of Rust strings. *)
Definition certificate_str (c : DeviceCertificate) : Prop :=
is_str (c_user c) /\ is_str (c_device c) /\ is_str (c_label c) /\ is_str (c_signer c).

Definition certificate_bytes (c : DeviceCertificate) : bytes :=
field (c_user c) ++ field (c_device c) ++ field (c_label c) ++ field (c_signer c) ++ lp (c_key c) ++
be 8 (c_issued c) ++ be 8 (encode_expiry (c_expires c)).

Definition certificate_ok (c : DeviceCertificate) : Prop :=
validate_certificate c = Ok tt /\ len (bytes_of (c_user c)) <= MAX_FIELD_LEN /\ len (bytes_of (c_device c)) <= MAX_FIELD_LEN /\
len (bytes_of (c_label c)) <= MAX_FIELD_LEN /\ len (bytes_of (c_signer c)) <= MAX_FIELD_LEN /\ len (c_key c) <= MAX_FIELD_LEN /\
len (certificate_bytes c) <= MAX_DEVICE_CERTIFICATE_BODY_LEN.

Lemma serialize_certificate_ok c body :
serialize_certificate c = Ok body <-> certificate_ok c /\ body = certificate_bytes c.
Proof.
unfold serialize_certificate, certificate_ok, write_lp_str. split.
- intros E. inv_checks. opened. subst.
unfold certificate_bytes, field. cbn -[lp be len] in *. rewrite <- !app_assoc in *. done.
- intros [(Hv & ? & ? & ? & ? & ? & Hm) ->]. rewrite Hv. cbn -[lp be len write_lp_bytes].
repeat (erewrite (proj2 (write_lp_bytes_ok _ _ _)) by (split; [done|reflexivity]); cbn -[lp be len write_lp_bytes]).
unfold certificate_bytes, field in Hm |- *. rewrite <- !app_assoc.
unfold certificate_fits. by rewrite (proj2 (body_fits_ok _ _ _ _ tt)).
Qed.

Lemma parse_certificate_ok body c :
parse_certificate body = Ok c <-> certificate_str c /\ certificate_ok c /\ body = certificate_bytes c.
Proof.
unfold parse_certificate. split.
- intros E. inv_checks. opened.
assert (reader_ok (reader_new DEVICE_CERT_CONTEXT body)) by (apply reader_new_ok; unfold U64, MAX_DEVICE_CERTIFICATE_BODY_LEN in *; lia).
follow. unfold field_ok in *. inv_checks.
match goal with |- _ /\ _ /\ body = ?b => assert (body = b) as Hb end.
{ rewrite <- (rest_new DEVICE_CERT_CONTEXT body). unfold certificate_bytes. cbn -[lp be len field rest].
rewrite encode_decode_expiry.
repeat (match goal with E : rest ?r = _ |- rest ?r = _ => rewrite E; clear E; f_equal end).
match goal with E : rest _ = [] |- _ => by rewrite E, app_nil_r end. }
split; [done|]. split; [|exact Hb]. unfold certificate_ok. cbn -[certificate_bytes len]. rewrite <- Hb. naive_solver.
- intros ((? & ? & ? & ?) & (Hv & ? & ? & ? & ? & ? & Hm) & ->).
unfold certificate_fits. rewrite (proj2 (body_fits_ok _ _ _ _ tt)) by done. cbn -[certificate_bytes reader_new].
pose proof Hv as Ht. unfold validate_certificate in Ht. apply bind_ok in Ht as ([] & Ht & _).
pose proof (proj1 (proj1 (timestamps_ok _ _ _ _) Ht)) as Hz. apply encode_expiry_small in Ht as [? ?].
eapply (read_then _ _ _ _ _ _ _ _ reads_str); [by rewrite rest_new|by split|apply reader_new_ok; unfold U64, MAX_DEVICE_CERTIFICATE_BODY_LEN in *; lia|].
do 3 (intros ? ? ?; eapply (read_then _ _ _ _ _ _ _ _ reads_str); [done|by split|done|]).
intros ? ? ?; eapply (read_then _ _ _ _ _ _ _ _ reads_bytes); [done..|].
intros ? ? ?; eapply (read_then _ _ _ _ _ _ _ _ reads_u64); [done..|].
intros ? ? Hr; rewrite <- (app_nil_r (be 8 _)) in Hr. eapply (read_then _ _ _ _ _ _ _ _ reads_u64); [done..|].
intros r9 ? ?. rewrite (proj2 (consumed_ok r9 tt ltac:(done))) by done. cbn. rewrite expiry_back by done.
destruct c. cbn in *. by rewrite Hv.
Qed.

(** ** Device lists *)

Definition entries_bytes (entries : list DeviceListEntry) : bytes :=
flat_map (fun e => field (e_device e) ++ field (e_signer e)) entries.

Definition entry_field_ok (e : DeviceListEntry) : Prop := field_ok (e_device e) /\ field_ok (e_signer e).

Lemma reads_entries count :
reads (read_entries count) (fun entries => length entries = count /\ Forall entry_field_ok entries) entries_bytes.
Proof.
induction count as [|count IH]; intros r entries r' Hr; cbn [read_entries]; split.
- intros [= <- <-]. split; [by split|]. split; [done|]. destruct r. unfold advance. cbn. by rewrite N.add_0_r.
- intros [[Hl _] [_ ->]]. destruct entries; [|done]. destruct r. unfold advance. cbn. by rewrite N.add_0_r.
- intros E. repeat (progress (inv_checks; opened; cbv beta iota in * )).
match goal with E : read_lp_str r = _ |- _ => apply reads_str in E as [? He]; [|exact Hr] end.
pose proof (eats_ok _ _ _ Hr He) as Hr1.
match goal with E : read_lp_str _ = _ |- _ => apply reads_str in E as [? He1]; [|exact Hr1] end.
pose proof (eats_ok _ _ _ Hr1 He1) as Hr2.
match goal with E : read_entries _ _ = _ |- _ => apply IH in E as [[? ?] He2]; [|exact Hr2] end.
split; [split; [cbn; congruence|by constructor]|].
eapply eats_app; [|exact He2]. by eapply eats_app.
- intros [[Hl Hf] [He ->]]. destruct entries as [|[d g] entries]; [done|]. inv Hf. destruct H3.
cbn [entries_bytes flat_map e_device e_signer] in *. rewrite <- !app_assoc in He.
destruct (rest_eats _ _ _ He) as [Ha Ra]. pose proof (eats_ok _ _ _ Hr Ha) as Hra.
destruct (rest_eats _ _ _ Ra) as [Hb Rb]. pose proof (eats_ok _ _ _ Hra Hb) as Hrb.
destruct (rest_eats _ _ _ Rb) as [Hc Rc].
rewrite (proj2 (reads_str r d _ Hr) (conj H1 Ha)). cbn -[advance len field].
rewrite (proj2 (reads_str _ g _ Hra) (conj H2 Hb)). cbn -[advance len field].
rewrite (proj2 (IH _ _ _ Hrb) (conj (conj (eq_add_S _ _ Hl) H4) Hc)).
cbn -[advance len field entries_bytes]. do 2 f_equal. unfold advance. cbn -[len field]. f_equal.
rewrite !len_app. lia.
Qed.

(** A device list made of Rust strings. *)
Definition list_str (l : SignedDeviceList) : Prop :=
is_str (l_user l) /\ is_str (l_signer l) /\ Forall (fun e => is_str (e_device e) /\ is_str (e_signer e)) (l_entries l).

Definition list_bytes (l : SignedDeviceList) : bytes :=
field (l_user l) ++ be 8 (l_generation l) ++ be 4 (len (l_entries l)) ++ entries_bytes (l_entries l) ++
field (l_signer l) ++ be 8 (l_issued l) ++ be 8 (encode_expiry (l_expires l)).

Definition entry_short (e : DeviceListEntry) : Prop :=
len (bytes_of (e_device e)) <= MAX_FIELD_LEN /\ len (bytes_of (e_signer e)) <= MAX_FIELD_LEN.

Definition list_ok (l : SignedDeviceList) : Prop :=
validate_list l = Ok tt /\ len (l_entries l) <= MAX_ENTRIES /\ len (bytes_of (l_user l)) <= MAX_FIELD_LEN /\
Forall entry_short (l_entries l) /\ len (bytes_of (l_signer l)) <= MAX_FIELD_LEN /\
len (list_bytes l) <= MAX_SIGNED_DEVICE_LIST_BODY_LEN.

Lemma write_entries_ok entries w w' :
write_entries entries w = Ok w' <-> Forall entry_short entries /\ w' = put (entries_bytes entries) w.
Proof.
revert w. induction entries as [|e entries IH]; intros w; cbn [write_entries]; split.
- intros [= <-]. split; [done|]. destruct w. unfold put. cbn. by rewrite app_nil_r.
- intros [_ ->]. destruct w. unfold put. cbn. by rewrite app_nil_r.
- unfold write_lp_str. intros E. inv_checks. opened. apply IH in E as [? ->].
split; [by constructor|]. unfold put. cbn -[field]. by rewrite <- !app_assoc.
- intros [Hf ->]. inv Hf. destruct H3. unfold write_lp_str.
rewrite (proj2 (write_lp_bytes_ok _ _ _)) by (split; [done|reflexivity]). cbn -[lp put].
rewrite (proj2 (write_lp_bytes_ok _ _ _)) by (split; [done|reflexivity]). cbn -[lp put].
apply IH. split; [done|]. unfold put. cbn -[field]. by rewrite <- !app_assoc.
Qed.

Lemma serialize_list_ok l body : serialize_list l = Ok body <-> list_ok l /\ body = list_bytes l.
Proof.
unfold serialize_list, list_ok, write_lp_str. split.
- intros E. inv_checks. opened.
match goal with H : write_entries _ _ = _ |- _ => apply write_entries_ok in H as [? ->] end. opened.
subst. unfold list_bytes, field. cbn -[lp be len entries_bytes] in *. rewrite <- !app_assoc in *. done.
- intros [(Hv & Hn & ? & ? & ? & Hm) ->]. rewrite Hv. cbn -[lp be len write_lp_bytes N.ltb N.leb refuse].
rewrite (proj2 (refuse_ok (MAX_ENTRIES <? _) _ tt)) by (by apply N.ltb_ge).
rewrite (proj2 (refuse_ok (U32 <=? _) _ tt)) by (apply N.leb_gt; unfold U32, MAX_ENTRIES in *; lia).
cbn -[lp be len write_lp_bytes].
rewrite (proj2 (write_lp_bytes_ok _ _ _)) by (split; [done|reflexivity]). cbn -[lp be len write_lp_bytes put write_entries].
rewrite (proj2 (write_entries_ok _ _ _)) by (split; [done|reflexivity]). cbn -[lp be len write_lp_bytes put entries_bytes].
rewrite (proj2 (write_lp_bytes_ok _ _ _)) by (split; [done|reflexivity]). cbn -[lp be len write_lp_bytes entries_bytes].
unfold list_bytes, field in Hm |- *. rewrite <- !app_assoc.
unfold list_fits. by rewrite (proj2 (body_fits_ok _ _ _ _ tt)).
Qed.

Lemma entries_parts entries : Forall entry_field_ok entries ->
Forall (fun e => is_str (e_device e) /\ is_str (e_signer e)) entries /\ Forall entry_short entries.
Proof. intros Hf. split; (eapply Forall_impl; [exact Hf|]); intros e [[? ?] [? ?]]; by split. Qed.

Lemma entries_whole entries :
Forall (fun e => is_str (e_device e) /\ is_str (e_signer e)) entries -> Forall entry_short entries ->
Forall entry_field_ok entries.
Proof.
intros H1 H2. induction H1 as [|e entries [? ?] ? IH]; inv H2; [done|].
constructor; [|by apply IH]. match goal with H : entry_short e |- _ => destruct H end. by split; split.
Qed.

Lemma parse_list_ok body l :
parse_list body = Ok l <-> list_str l /\ signer_listed l = true /\ list_ok l /\ body = list_bytes l.
Proof.
unfold parse_list. split.
- intros E. inv_checks. opened.
assert (reader_ok (reader_new DEVICE_LIST_CONTEXT body)) by (apply reader_new_ok; unfold U64, MAX_SIGNED_DEVICE_LIST_BODY_LEN in *; lia).
follow.
match goal with E : read_entries _ _ = _ |- _ =>
eapply (reads_on _ _ _ _ _ _ (reads_entries _)) in E; [|eassumption]; destruct E as ([? ?] & ? & ?) end. follow. unfold field_ok in *. inv_checks.
match goal with H : Forall entry_field_ok ?es |- _ => pose proof (entries_parts es H) as [? ?] end.
match goal with H : length ?es = N.to_nat ?n |- _ => assert (n = len es) by (unfold len; lia) end. subst.
match goal with |- _ /\ _ /\ _ /\ body = ?b => assert (body = b) as Hb end.
{ rewrite <- (rest_new DEVICE_LIST_CONTEXT body). unfold list_bytes. cbn -[lp be len field rest entries_bytes].
rewrite encode_decode_expiry.
repeat (match goal with E : rest ?r = _ |- rest ?r = _ => rewrite E; clear E; f_equal end).
match goal with E : rest _ = [] |- _ => by rewrite E, app_nil_r end. }
split; [done|]. split; [done|]. split; [|exact Hb].
unfold list_ok. cbn -[list_bytes len]. rewrite <- Hb. naive_solver.
- intros ((? & ? & ?) & Hsl & (Hv & Hn & ? & ? & ? & Hm) & ->).
unfold list_fits. rewrite (proj2 (body_fits_ok _ _ _ _ tt)) by done. cbn -[list_bytes reader_new].
pose proof Hv as Ht. unfold validate_list in Ht. inv_checks.
match goal with H : validate_timestamps _ _ _ = Ok _ |- _ => rename H into Hts end.
pose proof (proj1 (proj1 (timestamps_ok _ _ _ _) Hts)) as Hz. apply encode_expiry_small in Hts as [? ?].
eapply (read_then _ _ _ _ _ _ _ _ reads_str); [by rewrite rest_new|by split|apply reader_new_ok; unfold U64, MAX_SIGNED_DEVICE_LIST_BODY_LEN in *; lia|].
intros ? ? ?; eapply (read_then _ _ _ _ _ _ _ _ reads_u64); [done|cbv beta; unfold U64; lia|done|].
intros ? ? ?; eapply (read_then _ _ _ _ _ _ _ _ reads_u32); [done|cbv beta; unfold U32, MAX_ENTRIES in *; lia|done|].
intros ? ? ?; cbv beta iota. rewrite (proj2 (refuse_ok _ _ tt)) by (by apply N.ltb_ge). cbn -[N.to_nat len].
eapply (read_then _ _ _ _ _ _ _ _ (reads_entries _)); [done|split; [unfold len; lia|by apply entries_whole]|done|].
intros ? ? ?; eapply (read_then _ _ _ _ _ _ _ _ reads_str); [done|by split|done|].
intros ? ? ?; eapply (read_then _ _ _ _ _ _ _ _ reads_u64); [done..|].
intros ? ? Hr; rewrite <- (app_nil_r (be 8 _)) in Hr. eapply (read_then _ _ _ _ _ _ _ _ reads_u64); [done..|].
intros r9 ? ?. rewrite (proj2 (consumed_ok r9 tt ltac:(done))) by done. cbn. rewrite expiry_back by done.
destruct l. cbn in *. by rewrite Hv, Hsl.
Qed.
End bodies.
