(* ===== verification/Pins.v ===== *)
(** [runtime/src/identity/pins.rs]: the devices of each account that this device trusts.

    [Store] is a [Pins] with the file that it keeps.  A loop that follows signers takes as
    many steps as there are certificates, and one more, at most: it ends at a signer that it
    saw, and [PinsSpec] shows that it never needs more.  Base64 is a library, and how a write
    of the file ended is an argument. *)

From S2P Require Import Prelude Json Utf Terminal Wire Identity.
Open Scope N_scope.

(** [base64::STANDARD]. *)
Class Base64 : Type := { base64_encode : bytes -> string; base64_decode : string -> option bytes }.

Class Base64Laws `{Base64} : Prop := {
  base64_back l : base64_decode (base64_encode l) = Some l;
  base64_size l : size_of (base64_encode l) <= (len l + 2) / 3 * 4
}.

Record CertificateEnvelope : Type := MkCertEnvelope { ce_certificate : string; ce_signature : string }.
Record DeviceListEnvelope : Type := MkListEnvelope { le_body : string; le_signature : string }.

#[export] Instance CertificateEnvelope_eq_dec : EqDecision CertificateEnvelope.
Proof. solve_decision. Defined.
#[export] Instance DeviceListEnvelope_eq_dec : EqDecision DeviceListEnvelope.
Proof. solve_decision. Defined.
#[export] Instance DeviceCertificate_eq_dec : EqDecision DeviceCertificate.
Proof. solve_decision. Defined.

Record IdentityBundle : Type := MkBundle {
  b_user : string; b_incarnation : Uuid; b_list : DeviceListEnvelope;
  b_devices : list CertificateEnvelope; b_chain : list CertificateEnvelope
}.

Abbreviation Root := bytes.

(** [BTreeMap<String, _>]: the entries in the order of their keys. *)
Abbreviation SMap V := (list (string * V)).

(** [Anchor]. *)
Inductive Anchor : Type := Pinned | AnchorRoot (root : Root).

Record VerifiedIdentity : Type := MkVerified {
  v_generation : N; v_devices : SMap DeviceCertificate; v_list : SignedDeviceList; v_root : Root
}.

Record Pin : Type := MkPin {
  pin_incarnation : Uuid; pin_generation : N; pin_list_body : string; pin_list_signature : string;
  pin_certificates : SMap CertificateEnvelope; pin_revoked : gset string; pin_root : Root
}.

#[export] Instance Pin_eq_dec : EqDecision Pin.
Proof. solve_decision. Defined.

Record StoredPins : Type := MkStored { st_version : N; st_pins : SMap Pin }.

(** [Pins] and its file. *)
Record Store : Type := MkStore { pins : SMap Pin; file : option bytes }.

(** How [write_private] ended: it failed before the file changed, or after, when the folder
    does not sync. *)
Inductive Disk : Type := Written | Kept | Replaced.

(** What [std::fs::read] gave. *)
Inductive Contents : Type := NotFound | Unreadable | Found (l : bytes).

Definition LIST_LIMIT : N := 527432.
Definition SIGNATURE_LIMIT : N := 3309.
Definition SKEW : N := 5 * 60000.

(** [saturating_add]. *)
Definition saturating_add (a b : N) : N := N.min (a + b) (U64 - 1).
Definition saturating_mul (a b : N) : N := N.min (a * b) (U64 - 1).

Definition is_nil (id : Uuid) : bool := forallb (fun b => Byte.to_N b =? 0) id.

Section pins.
Context `{Uuids, Signatures, Sha256, Base64, Serde StoredPins}.

Definition root_of (body : bytes) : Root := sha256_of (bytes_of "kodosi-identity-root-v1" ++ body).

Definition decode (value : string) (limit : N) : NR bytes :=
if saturating_mul ((limit + 2) / 3) 4 <? size_of value then wrong "Encoded data exceeds its limit."
else
l ← ok_or (NInvalid "Data is not base64.") (base64_decode value);
if limit <? len l then wrong "Decoded data exceeds its limit." else Ok l.

(** The certificate in an envelope. *)
Definition open_certificate (e : CertificateEnvelope) : NR (DeviceCertificate * bytes) :=
body ← decode (ce_certificate e) MAX_DEVICE_CERTIFICATE_BODY_LEN;
c ← parse_certificate body;
Ok (c, body).

(** The loop of [IdentityBundle::root]. *)
Fixpoint root_from (l : list CertificateEnvelope) (root : option Root) : NR (option Root) :=
match l with
| [] => Ok root
| e :: l =>
'(c, body) ← open_certificate e;
if is_self_signed c then
match root with
| Some _ => wrong "Identity bundle has more than one first device."
| None => root_from l (Some (root_of body))
end
else root_from l root
end.

Definition bundle_root (b : IdentityBundle) : NR Root :=
root ← root_from (b_devices b ++ b_chain b) None;
ok_or (NInvalid "Identity bundle has no first device.") root.

(** ** The readers of [Pins] *)

Definition load (f : Contents) : NR Store :=
match f with
| Found l =>
_ ← refuse (16 * 1024 * 1024 <? len l) "Saved device trust exceeds its limit.";
stored ← ok_or NJson (from_slice l);
_ ← refuse (negb (st_version stored =? 1)) "Saved device trust uses an unsupported format.";
Ok (MkStore (st_pins stored) (Some l))
| NotFound => Ok (MkStore [] None)
| Unreadable => Err NIo
end.

Definition is_revoked (s : Store) (user device : string) : bool :=
some_and (fun pin => bool_decide (device ∈ pin_revoked pin)) (Map.get user (pins s)).
Definition contains (s : Store) (user : string) : bool := bool_decide (is_Some (Map.get user (pins s))).
Definition trusted_root (s : Store) (user : string) : option Root := pin_root <$> Map.get user (pins s).
Definition incarnation (s : Store) (user : string) : option Uuid := pin_incarnation <$> Map.get user (pins s).
Definition own_identity_replaced (s : Store) (b : IdentityBundle) : bool :=
some_and (fun pin => bool_decide (pin_incarnation pin <> b_incarnation b)) (Map.get (b_user b) (pins s)).

(** [BTreeMap::remove]. *)
Definition without {V} (key : string) (m : SMap V) : SMap V := List.filter (fun e => negb (String.eqb e.1 key)) m.

(** [write_private] of [StoredPins], and then [self.pins = next]. *)
Definition save (disk : Disk) (next : SMap Pin) (s : Store) : NR unit * Store :=
match to_vec (MkStored 1 next) with
| None => (Err NJson, s)
| Some l =>
match disk with
| Written => (Ok tt, MkStore next (Some l))
| Kept => (Err NIo, s)
| Replaced => (Err NIo, MkStore (pins s) (Some l))
end
end.

Definition forget (disk : Disk) (user : string) (s : Store) : NR unit * Store :=
if contains s user then save disk (without user (pins s)) s else (Ok tt, s).

(** ** The checks of [verify_current], in its order *)

(** [existing]. *)
Definition existing_pin (s : Store) (user : string) (anchor : Anchor) : option Pin :=
pin ← Map.get user (pins s);
match anchor with
| Pinned => Some pin
| AnchorRoot approved => if decide (pin_root pin = approved) then Some pin else None
end.

Definition check_anchor (anchor : Anchor) (existing : option Pin) (root : Root) : NR unit :=
match anchor with
| Pinned => refuse_trust (bool_decide (existing = None)) "You have not trusted this person yet."
| AnchorRoot approved =>
refuse_trust (bool_decide (approved <> root)) "This account's identity is not the identity that was approved."
end.

(** The generation and the issuance of the list against the pin. *)
Definition check_generation (pin : Pin) (b : IdentityBundle) (l : SignedDeviceList) (root : Root) : NR unit :=
_ ← refuse_trust (bool_decide (pin_incarnation pin <> b_incarnation b) || bool_decide (pin_root pin <> root) ||
(l_generation l <? pin_generation pin))
"This account's device identity changed. Approve the replacement before reconnecting.";
_ ← (if pin_generation pin <? l_generation l then
body ← decode (pin_list_body pin) LIST_LIMIT;
previous ← parse_list body;
refuse_trust (l_issued l <=? l_issued previous) "Device list issuance did not advance."
else Ok tt);
if l_generation l =? pin_generation pin then
refuse_trust (negb (String.eqb (le_body (b_list b)) (pin_list_body pin)) ||
negb (String.eqb (le_signature (b_list b)) (pin_list_signature pin)))
"A device list changed without a newer generation."
else Ok tt.

Definition check_time (l : SignedDeviceList) (now : N) (allow_expired : bool) : NR unit :=
refuse_trust ((saturating_add now SKEW <? l_issued l) ||
negb allow_expired && some_and (fun expiry => expiry <=? now) (l_expires l))
"The signed device list is no longer current.".

(** The loop over [bundle.devices], with [incoming] and [bodies]. *)
Fixpoint read_devices (user : string) (now : N) (l : list CertificateEnvelope)
(incoming : SMap CertificateEnvelope) (bodies : SMap (DeviceCertificate * bytes)) :
NR (SMap CertificateEnvelope * SMap (DeviceCertificate * bytes)) :=
match l with
| [] => Ok (incoming, bodies)
| e :: l =>
'(c, body) ← open_certificate e;
_ ← refuse (negb (String.eqb (c_user c) user) || bool_decide (is_Some (Map.get (c_device c) incoming)))
"Identity bundle contains a foreign or duplicate device.";
_ ← refuse_trust ((saturating_add now SKEW <? c_issued c) || negb (is_valid_at c now))
"A device certificate is expired or not yet valid.";
read_devices user now l (Map.insert (c_device c) e incoming) (Map.insert (c_device c) (c, body) bodies)
end.

(** The loop over [bundle.certificate_chain], with [certificates] and [bodies]. *)
Fixpoint read_chain (user : string) (l : list CertificateEnvelope)
(certificates : SMap CertificateEnvelope) (bodies : SMap (DeviceCertificate * bytes)) :
NR (SMap CertificateEnvelope * SMap (DeviceCertificate * bytes)) :=
match l with
| [] => Ok (certificates, bodies)
| e :: l =>
'(c, body) ← open_certificate e;
_ ← refuse (negb (String.eqb (c_user c) user) || bool_decide (is_Some (Map.get (c_device c) bodies)))
"Certificate ancestry contains a foreign or duplicate device.";
read_chain user l (Map.insert (c_device c) e certificates) (Map.insert (c_device c) (c, body) bodies)
end.

(** [prior]: the certificates of the pin. *)
Fixpoint read_prior (l : SMap CertificateEnvelope) (prior : SMap DeviceCertificate) : NR (SMap DeviceCertificate) :=
match l with
| [] => Ok prior
| (id, e) :: l => '(c, _) ← open_certificate e; read_prior l (Map.insert id c prior)
end.

(** The walk from the signer of a newer list to a device that is trusted. *)
Fixpoint endorsed (turns : nat) (revoked : gset string) (bodies : SMap (DeviceCertificate * bytes))
(prior : SMap DeviceCertificate) (signer : string) (seen : gset string) : NR unit :=
match turns with
| O => Panic
| S turns =>
_ ← refuse_trust (bool_decide (signer ∈ seen) || bool_decide (signer ∈ revoked))
"Device update has no currently trusted signer.";
candidate ← ok_or (NInvalid "Device signer is absent.") (fst <$> Map.get signer bodies);
match Map.get signer prior with
| Some trusted =>
refuse_trust (bool_decide (trusted <> candidate)) "A previously trusted signer changed its certificate."
| None =>
_ ← refuse_trust (is_self_signed candidate) "Device update is not endorsed by an already trusted device.";
endorsed turns revoked bodies prior (c_signer candidate) ({[signer]} ∪ seen)
end
end.

(** The loop over [incoming] against the certificates of the pin. *)
Fixpoint unchanged (pinned : SMap CertificateEnvelope) (incoming : SMap CertificateEnvelope) : NR unit :=
match incoming with
| [] => Ok tt
| (id, e) :: incoming =>
_ ← refuse_trust (some_and (fun previous => bool_decide (previous <> e)) (Map.get id pinned))
"An existing device changed its key material.";
unchanged pinned incoming
end.

(** The checks against the pin once the certificates are read. *)
Definition check_pinned (pin : Pin) (l : SignedDeviceList) (entries : gset string)
(incoming : SMap CertificateEnvelope) (bodies : SMap (DeviceCertificate * bytes)) (prior : SMap DeviceCertificate) :
NR unit :=
_ ← refuse_trust (bool_decide (l_signer l ∈ pin_revoked pin) || bool_decide (~ entries ## pin_revoked pin))
"A removed device cannot become trusted again.";
_ ← (if pin_generation pin <? l_generation l
then endorsed (S (length bodies)) (pin_revoked pin) bodies prior (l_signer l) ∅ else Ok tt);
unchanged (pin_certificates pin) incoming.

Fixpoint validate_bootstrap_chain (turns : nat) (bodies : SMap (DeviceCertificate * bytes)) (current : string)
(seen : gset string) : NR unit :=
match turns with
| O => Panic
| S turns =>
_ ← refuse (bool_decide (current ∈ seen)) "Device certificate signing cycle.";
c ← ok_or (NInvalid "Device signer is absent.") (fst <$> Map.get current bodies);
if is_self_signed c then Ok tt
else validate_bootstrap_chain turns bodies (c_signer c) ({[current]} ∪ seen)
end.

(** The loop over [bodies]: each certificate, its place in the list, its signer and its
signature. *)
Definition check_device (l : SignedDeviceList) (entries : gset string) (certificates : SMap CertificateEnvelope)
(bodies : SMap (DeviceCertificate * bytes)) (prior : SMap DeviceCertificate)
(device : string) (c : DeviceCertificate) (body : bytes) : NR unit :=
_ ← refuse (bool_decide (device ∈ entries) &&
negb (existsb (fun e => String.eqb (e_device e) device && String.eqb (e_signer e) (c_signer c)) (l_entries l)))
"Certificate signer and device list disagree.";
signer ← ok_or (NTrust "A device certificate has no verifiable signer.")
match Map.get (c_signer c) bodies with Some x => Some x.1 | None => Map.get (c_signer c) prior end;
_ ← refuse_trust ((c_issued c <? c_issued signer) || negb (is_valid_at signer (c_issued c)))
"Certificate was issued outside its signer's validity.";
e ← or_panic (Map.get device certificates);
signature ← decode (ce_signature e) SIGNATURE_LIMIT;
_ ← verify_certificate body signature (c_key signer);
validate_bootstrap_chain (S (length bodies)) bodies device ∅.

Fixpoint check_devices (l : SignedDeviceList) (entries : gset string) (certificates : SMap CertificateEnvelope)
(bodies : SMap (DeviceCertificate * bytes)) (prior : SMap DeviceCertificate)
(todo : SMap (DeviceCertificate * bytes)) : NR unit :=
match todo with
| [] => Ok tt
| (device, (c, body)) :: todo =>
_ ← check_device l entries certificates bodies prior device c body;
check_devices l entries certificates bodies prior todo
end.

(** The devices that are not in the list any more. *)
Definition dropped {V} (entries : gset string) (m : SMap V) : gset string :=
list_to_set (List.filter (fun id => negb (bool_decide (id ∈ entries))) m.*1).

(** [verify_current] up to the new pin. *)
Definition check_bundle (b : IdentityBundle) (anchor : Anchor) (now : N) (allow_expired : bool) (s : Store) :
NR (Pin * VerifiedIdentity) :=
_ ← refuse (is_nil (b_incarnation b) || bool_decide (b_devices b = []) || (256 <? len (b_devices b)))
"Identity bundle is incomplete.";
list_body ← decode (le_body (b_list b)) LIST_LIMIT;
list_signature ← decode (le_signature (b_list b)) SIGNATURE_LIMIT;
l ← parse_list list_body;
_ ← refuse (negb (String.eqb (l_user l) (b_user b))) "Device list belongs to another account.";
root ← bundle_root b;
let existing := existing_pin s (b_user b) anchor in
_ ← check_anchor anchor existing root;
_ ← match existing with Some pin => check_generation pin b l root | None => Ok tt end;
_ ← check_time l now allow_expired;
'(incoming, bodies) ← read_devices (b_user b) now (b_devices b) [] [];
let entries := list_to_set (e_device <$> l_entries l) : gset string in
_ ← refuse (bool_decide (entries <> list_to_set incoming.*1)) "Device list and certificates disagree.";
_ ← refuse (256 <? len (b_chain b)) "Device certificate ancestry exceeds its bound.";
'(certificates, bodies) ← read_chain (b_user b) (b_chain b) incoming bodies;
prior ← match existing with Some pin => read_prior (pin_certificates pin) [] | None => Ok [] end;
signer ← ok_or (NInvalid "The device-list signer is not active.") (fst <$> Map.get (l_signer l) bodies);
_ ← match existing with Some pin => check_pinned pin l entries incoming bodies prior | None => Ok tt end;
_ ← verify_signed_device_list list_body list_signature (c_key signer);
_ ← check_devices l entries certificates bodies prior bodies;
let revoked := match existing with
| Some pin => pin_revoked pin ∪ dropped entries bodies ∪ dropped entries (pin_certificates pin)
| None => dropped entries bodies
end in
Ok (MkPin (b_incarnation b) (l_generation l) (le_body (b_list b)) (le_signature (b_list b)) incoming revoked root,
MkVerified (l_generation l)
((fun e => (e.1, e.2.1)) <$> List.filter (fun e => bool_decide (e.1 ∈ entries)) bodies) l root).

(** [verify_current]. *)
Definition verify_current (disk : Disk) (b : IdentityBundle) (anchor : Anchor) (now : N) (allow_expired persist : bool)
(s : Store) : NR VerifiedIdentity * Store :=
match check_bundle b anchor now allow_expired s with
| Err e => (Err e, s)
| Panic => (Panic, s)
| Ok (pin, verified) =>
if decide (Map.get (b_user b) (pins s) = Some pin) then (Ok verified, s)
else
let next := Map.insert (b_user b) pin (pins s) in
if persist then
match save disk next s with
| (Ok _, s) => (Ok verified, s)
| (Err e, s) => (Err e, s)
| (Panic, s) => (Panic, s)
end
else (Ok verified, MkStore next (file s))
end.

Definition verify (disk : Disk) (b : IdentityBundle) (anchor : Anchor) (now : N) (s : Store) : NR VerifiedIdentity * Store :=
verify_current disk b anchor now false true s.

Definition verify_for_renewal (disk : Disk) (b : IdentityBundle) (now : N) (s : Store) : NR VerifiedIdentity * Store :=
verify_current disk b Pinned now true true s.

(** [historical] and [without_time]: nothing is kept. *)
Definition historical (b : IdentityBundle) (root : Root) (at_ms : N) (previous : option (IdentityBundle * N)) :
NR VerifiedIdentity :=
match previous with
| Some (older, at') =>
match verify_current Written older (AnchorRoot root) at' true false (MkStore [] None) with
| (Ok _, history) => (verify_current Written b (AnchorRoot root) at_ms false false history).1
| (Err e, _) => Err e
| (Panic, _) => Panic
end
| None => (verify_current Written b (AnchorRoot root) at_ms false false (MkStore [] None)).1
end.

Definition without_time (now : N) (b : IdentityBundle) (root : Root) : NR VerifiedIdentity :=
(verify_current Written b (AnchorRoot root) now true false (MkStore [] None)).1.
End pins.
