(* ===== verification/PinsSpec.v ===== *)
(** What [Pins] keeps: the facts of its loops, and the order of the pins of one account. *)

From Stdlib Require Import Relations.
From S2P Require Import Prelude Json Utf Terminal Wire WireSpec Identity IdentitySpec Pins.
Open Scope N_scope.

(** ** Sorted maps *)

Section smap.
Context {V : Type}.
Implicit Types m : SMap V.

Lemma smap_get_elem key (v : V) m : Map.get key m = Some v -> (key, v) ∈ m.
Proof.
induction m as [|[k w] m IH]; simpl; [done|]. destruct (decide (k = key)) as [->|].
- intros [= ->]. by left.
- intros E. right. auto.
Qed.

Lemma smap_elem_insert key (v : V) m e : e ∈ Map.insert key v m -> e = (key, v) \/ e ∈ m.
Proof.
induction m as [|[k w] m IH]; simpl; [set_solver|]. destruct (String.compare key k); set_solver.
Qed.

Lemma smap_forall_insert (P : string * V -> Prop) key v m : P (key, v) -> Forall P m -> Forall P (Map.insert key v m).
Proof. rewrite !Forall_forall. intros Hp Hm e [->|He]%smap_elem_insert; auto. Qed.

Lemma smap_low l m k v : Map.sorted_from (Some l) m = true -> (k, v) ∈ m -> String.compare l k = Lt.
Proof.
revert l. induction m as [|[k' w] m IH]; intros l; [by intros _ ?%elem_of_nil|].
cbn. intros [Hk Hm]%andb_true_iff [[= -> ->]|Hin]%elem_of_cons; destruct (String.compare l k') eqn:E; try done.
eapply compare_lt_trans; [exact E|]. eauto.
Qed.

Lemma smap_elem_get low key (v : V) m : Map.sorted_from low m = true -> (key, v) ∈ m -> Map.get key m = Some v.
Proof.
revert low. induction m as [|[k w] m IH]; intros low; [by intros _ ?%elem_of_nil|].
cbn. intros [Hk Hm]%andb_true_iff [[= -> ->]|Hin]%elem_of_cons; [by rewrite decide_True|].
rewrite decide_False; [eauto|]. intros ->. pose proof (smap_low _ _ _ _ Hm Hin) as Hc. by rewrite compare_refl in Hc.
Qed.

Lemma smap_sorted_insert key (v : V) m : Map.sorted m = true -> Map.sorted (Map.insert key v m) = true.
Proof. intros Hm. by apply insert_sorted_from. Qed.

Lemma smap_keys key m : is_Some (Map.get key m) <-> key ∈ m.*1.
Proof.
split.
- intros [v Hv%smap_get_elem]. apply list_elem_of_fmap. by exists (key, v).
- induction m as [|[k w] m IH]; cbn; [by intros ?%elem_of_nil|].
intros [->|Hin]%elem_of_cons; [by rewrite decide_True|]. destruct (decide (k = key)); eauto.
Qed.

Lemma smap_insert_length key (v : V) m : (length (Map.insert key v m) <= S (length m))%nat.
Proof. induction m as [|[k w] m IH]; cbn; [done|]. destruct (String.compare key k); cbn; lia. Qed.
End smap.

(** ** Walks

    A walk that inserts what it visits in [seen] and goes on only at keys of a map visits each
    of them once. *)
Lemma size_keys_le (l : list string) : (size (list_to_set l : gset string) <= length l)%nat.
Proof.
  induction l as [|x l IH]; [done|]. cbn [list_to_set length]. rewrite size_union_alt, size_singleton.
  pose proof (subseteq_size (C := gset string) (list_to_set l ∖ {[x]}) (list_to_set l) ltac:(set_solver)). lia.
Qed.

Section walks.
Context {V : Type}.

Lemma walk_room (m : SMap V) (seen : gset string) key :
seen ⊆ list_to_set m.*1 -> key ∉ seen -> is_Some (Map.get key m) ->
{[key]} ∪ seen ⊆ (list_to_set m.*1 : gset string) /\ (S (size seen) <= length m)%nat /\ size ({[key]} ∪ seen) = S (size seen).
Proof.
intros Hs Hk Hm%smap_keys.
assert ({[key]} ∪ seen ⊆ (list_to_set m.*1 : gset string)) as Hsub by set_solver.
assert (size ({[key]} ∪ seen) = S (size seen)) as Hsize.
{ rewrite size_union, size_singleton by set_solver. done. }
split; [done|]. split; [|done]. rewrite <- Hsize, (subseteq_size _ _ Hsub), <- (length_fmap fst m). apply size_keys_le.
Qed.
End walks.

Section spec.
Context `{Uuids, Signatures, Sha256, Base64, Serde StoredPins}.

(** ** What an account's certificates prove *)

(** A certificate of [user] that goes back to the first device, whose body has the root. *)
Inductive traced (user : string) (root : Root) : DeviceCertificate -> Prop :=
| traced_first c body signature :
c_user c = user -> is_self_signed c = true -> root_of body = root ->
verify_certificate body signature (c_key c) = Ok c -> traced user root c
| traced_by signer c body signature :
traced user root signer -> c_signer c = c_device signer -> c_user c = user ->
verify_certificate body signature (c_key signer) = Ok c ->
c_issued signer <= c_issued c -> is_valid_at signer (c_issued c) = true -> traced user root c.

(** A certificate that a device of the pin gave, with no removed device on the way. *)
Inductive endorsed_by_pin (pin : Pin) : DeviceCertificate -> Prop :=
| endorsed_known c e body :
Map.get (c_device c) (pin_certificates pin) = Some e -> open_certificate e = Ok (c, body) ->
c_device c ∉ pin_revoked pin -> endorsed_by_pin pin c
| endorsed_next signer c body signature :
endorsed_by_pin pin signer -> c_signer c = c_device signer -> c_device c ∉ pin_revoked pin ->
verify_certificate body signature (c_key signer) = Ok c -> endorsed_by_pin pin c.

(** ** The loops *)

Lemma open_certificate_ok e c body : open_certificate e = Ok (c, body) -> parse_certificate body = Ok c.
Proof. unfold open_certificate. intros E. inv_ok. congruence. Qed.

Lemma root_from_ok l root r : root_from l root = Ok r ->
(forall x, root = Some x -> r = Some x) /\
(forall e c body, e ∈ l -> open_certificate e = Ok (c, body) -> is_self_signed c = true -> r = Some (root_of body)).
Proof.
revert root. induction l as [|e l IH]; intros root; cbn [root_from].
- intros [= ->]. split; [done|]. by intros ? ? ? ?%elem_of_nil.
- intros E. inv_ok. destruct a as [c body]. destruct (is_self_signed c) eqn:Es.
+ destruct root as [x|]; [done|]. apply IH in E as [H4 H5]. split; [done|].
intros e' c' body' [->|Hin]%elem_of_cons Ho Hs; [|by eapply H5]. rewrite E0 in Ho. injection Ho as <- <-. by apply H4.
+ apply IH in E as [H4 H5]. split; [done|].
intros e' c' body' [->|Hin]%elem_of_cons Ho Hs; [|by eapply H5]. rewrite E0 in Ho. congruence.
Qed.

(** The certificates that were read from [src] and the bodies in them. *)
Record read_ok (user : string) (src : list CertificateEnvelope) (certificates : SMap CertificateEnvelope)
(bodies : SMap (DeviceCertificate * bytes)) : Prop := {
ro_certificates : Map.sorted certificates = true;
ro_bodies : Map.sorted bodies = true;
ro_keys id : is_Some (Map.get id certificates) -> is_Some (Map.get id bodies);
ro_each id c body : Map.get id bodies = Some (c, body) ->
c_device c = id /\ c_user c = user /\
exists e, Map.get id certificates = Some e /\ open_certificate e = Ok (c, body) /\ e ∈ src
}.

Lemma read_ok_nil user src : read_ok user src [] [].
Proof. by constructor; try done; intros id []. Qed.

Lemma read_ok_insert user src certificates bodies e c body :
read_ok user src certificates bodies -> e ∈ src -> open_certificate e = Ok (c, body) -> c_user c = user ->
read_ok user src (Map.insert (c_device c) e certificates) (Map.insert (c_device c) (c, body) bodies).
Proof.
intros [R1 R2 R3 R4] Hin Ho Hu. constructor; [by apply smap_sorted_insert..| |].
- intros id. destruct (decide (c_device c = id)) as [<-|Hne]; [by rewrite !map_get_insert_eq|].
rewrite !map_get_insert_ne by done. apply R3.
- intros id c' body'. destruct (decide (c_device c = id)) as [<-|Hne].
+ rewrite !map_get_insert_eq. intros [= <- <-]. eauto 6.
+ rewrite !map_get_insert_ne by done. apply R4.
Qed.

Lemma read_devices_ok user now src l incoming bodies incoming' bodies' :
(forall e, e ∈ l -> e ∈ src) -> read_ok user src incoming bodies ->
read_devices user now l incoming bodies = Ok (incoming', bodies') -> read_ok user src incoming' bodies'.
Proof.
revert incoming bodies. induction l as [|e l IH]; intros incoming bodies Hsrc Hr; cbn [read_devices].
- by intros [= <- <-].
- intros E. inv_ok. destruct a as [c body]. inv_checks. eapply IH; [|eapply read_ok_insert|exact E]; try done; set_solver.
Qed.

Lemma read_chain_ok user src l incoming bodies incoming' bodies' :
(forall e, e ∈ l -> e ∈ src) -> read_ok user src incoming bodies ->
read_chain user l incoming bodies = Ok (incoming', bodies') -> read_ok user src incoming' bodies'.
Proof.
revert incoming bodies. induction l as [|e l IH]; intros incoming bodies Hsrc Hr; cbn [read_chain].
- by intros [= <- <-].
- intros E. inv_ok. destruct a as [c body]. inv_checks. eapply IH; [|eapply read_ok_insert|exact E]; try done; set_solver.
Qed.

Lemma read_prior_ok l prior prior' id c : read_prior l prior = Ok prior' -> Map.get id prior' = Some c ->
Map.get id prior = Some c \/ exists e body, (id, e) ∈ l /\ open_certificate e = Ok (c, body).
Proof.
revert prior. induction l as [|[k e] l IH]; intros prior; cbn [read_prior].
- intros [= <-]. by left.
- intros E Hg. inv_ok. destruct a as [c' body]. destruct (IH _ E Hg) as [Hp|(e' & body' & Hin & Ho)].
+ destruct (decide (k = id)) as [->|Hne]; [|rewrite map_get_insert_ne in Hp by done; by left].
rewrite map_get_insert_eq in Hp. injection Hp as <-. right. exists e, body. split; [by left|done].
+ right. exists e', body'. split; [by right|done].
Qed.

Lemma unchanged_ok pinned incoming id e e' : unchanged pinned incoming = Ok tt ->
Map.get id incoming = Some e -> Map.get id pinned = Some e' -> e' = e.
Proof.
induction incoming as [|[k x] incoming IH]; cbn [unchanged]; [done|]. intros E Hg Hp. cbn in Hg. inv_checks.
destruct (decide (k = id)) as [->|]; [|by apply IH]. injection Hg as <-.
rewrite Hp in E0. cbn in E0. apply bool_decide_eq_false in E0. destruct (decide (e' = x)); tauto.
Qed.

(** ** The checks of each device *)

Record checked (l : SignedDeviceList) (entries : gset string) (bodies : SMap (DeviceCertificate * bytes))
(prior : SMap DeviceCertificate) (device : string) (c : DeviceCertificate) (body : bytes) : Prop := {
ck_entry : device ∈ entries -> exists e, e ∈ l_entries l /\ e_device e = device /\ e_signer e = c_signer c;
ck_signer signer : match Map.get (c_signer c) bodies with Some x => Some x.1 | None => Map.get (c_signer c) prior end = Some signer ->
c_issued signer <= c_issued c /\ is_valid_at signer (c_issued c) = true /\
exists signature, verify_certificate body signature (c_key signer) = Ok c;
ck_chain : validate_bootstrap_chain (S (length bodies)) bodies device ∅ = Ok tt
}.

Lemma verify_certificate_body body signature key c c' :
verify_certificate body signature key = Ok c' -> parse_certificate body = Ok c -> c' = c.
Proof. unfold verify_certificate. intros E Ep. inv_ok. congruence. Qed.

Lemma check_devices_ok l entries certificates bodies prior todo device c body :
check_devices l entries certificates bodies prior todo = Ok tt -> (device, (c, body)) ∈ todo ->
parse_certificate body = Ok c -> checked l entries bodies prior device c body.
Proof.
induction todo as [|[d [c' b']] todo IH]; cbn [check_devices]; [by intros _ ?%elem_of_nil|].
intros E Hin Hp. inv_ok. destruct a. apply elem_of_cons in Hin as [[= -> -> ->]|Hin]; [|by apply IH].
unfold check_device in E0. inv_checks. destruct a. opened.
constructor; [..|done].
- intros Hd. rewrite bool_decide_eq_true_2 in E1 by done. cbn in E1. apply negb_false_iff, existsb_exists in E1 as (x & Hx & Hb).
inv_checks. exists x. split; [by apply list_elem_of_In|done].
- intros signer Hs. rewrite Hs in *. inv_ok. injection E2 as <-. split; [done|]. split; [done|].
match goal with E : verify_certificate _ _ _ = _ |- _ => pose proof (verify_certificate_body _ _ _ _ _ E Hp); subst end. eauto.
Qed.

Section walk.
Variables (l : SignedDeviceList) (user : string) (src : list CertificateEnvelope) (entries : gset string) (root : Root).
Variables (certificates : SMap CertificateEnvelope) (bodies : SMap (DeviceCertificate * bytes)) (prior : SMap DeviceCertificate).
Hypothesis read : read_ok user src certificates bodies.
Hypothesis all_checked : forall id c body, Map.get id bodies = Some (c, body) -> checked l entries bodies prior id c body.
Hypothesis one_root : forall e c body, e ∈ src -> open_certificate e = Ok (c, body) -> is_self_signed c = true -> root_of body = root.

Lemma chain_present turns current seen :
validate_bootstrap_chain turns bodies current seen = Ok tt -> exists c body, Map.get current bodies = Some (c, body).
Proof.
destruct turns; cbn; [done|]. intros E. inv_checks. destruct (Map.get current bodies) as [[c b]|]; [eauto|done].
Qed.

Lemma traced_walk turns current seen c body :
validate_bootstrap_chain turns bodies current seen = Ok tt -> Map.get current bodies = Some (c, body) -> traced user root c.
Proof using read all_checked one_root.
revert current seen c body. induction turns as [|turns IH]; intros current seen c body; cbn; [done|].
intros E Hg. rewrite Hg in E. inv_checks. cbn in *. inv_ok. subst.
destruct (ro_each _ _ _ _ read _ _ _ Hg) as (Hd & Hu & e & _ & Ho & Hin).
destruct (all_checked _ _ _ Hg) as [_ Hs _]. injection E1 as <-.
destruct (is_self_signed c) eqn:Ess.
- pose proof Ess as Es. unfold is_self_signed in Es. apply String.eqb_eq in Es. rewrite Es, Hd, Hg in Hs.
destruct (Hs c eq_refl) as (_ & _ & signature & Hv). eapply traced_first; eauto.
- destruct (chain_present _ _ _ E) as (s & b & Hb). rewrite Hb in Hs. destruct (Hs s eq_refl) as (? & ? & signature & Hv).
destruct (ro_each _ _ _ _ read _ _ _ Hb) as (Hsd & _). eapply traced_by; eauto.
Qed.

Lemma endorsed_present turns revoked signer seen :
endorsed turns revoked bodies prior signer seen = Ok tt -> exists c body, Map.get signer bodies = Some (c, body).
Proof.
destruct turns; cbn; [done|]. intros E. inv_checks. destruct (Map.get signer bodies) as [[c b]|]; [eauto|done].
Qed.

Lemma endorsed_walk pin turns signer seen c body :
(forall id c, Map.get id prior = Some c ->
exists e body, Map.get id (pin_certificates pin) = Some e /\ open_certificate e = Ok (c, body)) ->
endorsed turns (pin_revoked pin) bodies prior signer seen = Ok tt ->
Map.get signer bodies = Some (c, body) -> endorsed_by_pin pin c.
Proof using read all_checked.
intros Hprior. revert signer seen c body. induction turns as [|turns IH]; intros current seen c body; cbn; [done|].
intros E Hg. rewrite Hg in E. inv_checks. cbn in *. injection E1 as <-.
destruct (ro_each _ _ _ _ read _ _ _ Hg) as (Hd & Hu & e & _ & Ho & Hin). rewrite <- Hd in *.
destruct (Map.get _ prior) as [trusted|] eqn:Ht.
- inv_checks. destruct (decide (trusted = c)) as [->|]; [|tauto].
destruct (Hprior _ _ Ht) as (e' & body' & He & Ho'). eapply endorsed_known; eauto.
- inv_checks. destruct (endorsed_present _ _ _ _ E) as (s & b & Hb).
destruct (all_checked _ _ _ Hg) as [_ Hs _]. rewrite Hb in Hs. destruct (Hs s eq_refl) as (_ & _ & signature & Hv).
destruct (ro_each _ _ _ _ read _ _ _ Hb) as (Hsd & _). eapply endorsed_next; eauto.
Qed.
End walk.

(** ** The pin of an account over time *)

(** What the pin says of itself: the list in it was read, with its generation and the devices
of the certificates, and no removed device is among them. *)
Record pin_ok (pin : Pin) : Prop := {
po_sorted : Map.sorted (pin_certificates pin) = true;
po_list : exists body l, decode (pin_list_body pin) LIST_LIMIT = Ok body /\ parse_list body = Ok l /\
l_generation l = pin_generation pin /\
(forall id, is_Some (Map.get id (pin_certificates pin)) <-> id ∈ e_device <$> l_entries l);
po_revoked id : is_Some (Map.get id (pin_certificates pin)) -> id ∉ pin_revoked pin
}.

(** [new] is [old] or came after it. *)
Record pin_after (old new : Pin) : Prop := {
pa_incarnation : pin_incarnation new = pin_incarnation old;
pa_root : pin_root new = pin_root old;
pa_generation : pin_generation old <= pin_generation new;
pa_same : pin_generation old = pin_generation new -> pin_list_body new = pin_list_body old;
pa_revoked : pin_revoked old ⊆ pin_revoked new;
pa_left id : is_Some (Map.get id (pin_certificates old)) -> is_Some (Map.get id (pin_certificates new)) \/ id ∈ pin_revoked new;
pa_kept id e e' : Map.get id (pin_certificates old) = Some e -> Map.get id (pin_certificates new) = Some e' -> e' = e
}.

Lemma pin_after_refl pin : pin_after pin pin.
Proof. constructor; try done; [by left|congruence]. Qed.

Lemma pin_after_trans p1 p2 p3 : pin_ok p3 -> pin_after p1 p2 -> pin_after p2 p3 -> pin_after p1 p3.
Proof.
intros Ho [A1 A2 A3 A4 A5 A6 A7] [B1 B2 B3 B4 B5 B6 B7]. constructor.
- congruence.
- congruence.
- lia.
- intros E. rewrite B4 by lia. apply A4. lia.
- set_solver.
- intros id Hid. destruct (A6 id Hid) as [Hm|Hm]; [by apply B6|]. right. set_solver.
- intros id e e' He He'. destruct (A6 id) as [[em Hm]|Hm]; [eauto| |].
+ rewrite (B7 _ _ _ Hm He'). eauto.
+ destruct (po_revoked _ Ho id); [eauto|set_solver].
Qed.

(** ** A bundle that was accepted *)

(** What [check_bundle] read on its way. *)
Record Evidence : Type := MkEvidence {
ev_list_body : bytes; ev_list_signature : bytes; ev_list : SignedDeviceList; ev_root : Root;
ev_incoming : SMap CertificateEnvelope; ev_certificates : SMap CertificateEnvelope;
ev_bodies : SMap (DeviceCertificate * bytes); ev_prior : SMap DeviceCertificate; ev_signer : DeviceCertificate
}.

Definition bundle_src (b : IdentityBundle) : list CertificateEnvelope := b_devices b ++ b_chain b.
Definition ev_entries (ev : Evidence) : gset string := list_to_set (e_device <$> l_entries (ev_list ev)).

Definition ev_revoked (ev : Evidence) (existing : option Pin) : gset string :=
match existing with
| Some pin => pin_revoked pin ∪ dropped (ev_entries ev) (ev_bodies ev) ∪ dropped (ev_entries ev) (pin_certificates pin)
| None => dropped (ev_entries ev) (ev_bodies ev)
end.

Definition ev_pin (b : IdentityBundle) (ev : Evidence) (existing : option Pin) : Pin :=
MkPin (b_incarnation b) (l_generation (ev_list ev)) (le_body (b_list b)) (le_signature (b_list b)) (ev_incoming ev)
(ev_revoked ev existing) (ev_root ev).

Definition ev_verified (ev : Evidence) : VerifiedIdentity :=
MkVerified (l_generation (ev_list ev))
((fun e => (e.1, e.2.1)) <$> List.filter (fun e => bool_decide (e.1 ∈ ev_entries ev)) (ev_bodies ev)) (ev_list ev) (ev_root ev).

Record evidence_ok (b : IdentityBundle) (anchor : Anchor) (existing : option Pin) (ev : Evidence) : Prop := {
eo_decode : decode (le_body (b_list b)) LIST_LIMIT = Ok (ev_list_body ev);
eo_parse : parse_list (ev_list_body ev) = Ok (ev_list ev);
eo_user : l_user (ev_list ev) = b_user b;
eo_root e c body : e ∈ bundle_src b -> open_certificate e = Ok (c, body) -> is_self_signed c = true -> root_of body = ev_root ev;
eo_anchor : check_anchor anchor existing (ev_root ev) = Ok tt;
eo_incoming : Map.sorted (ev_incoming ev) = true;
eo_devices id : is_Some (Map.get id (ev_incoming ev)) <-> id ∈ e_device <$> l_entries (ev_list ev);
eo_kept id e : Map.get id (ev_incoming ev) = Some e -> Map.get id (ev_certificates ev) = Some e;
eo_read : read_ok (b_user b) (bundle_src b) (ev_certificates ev) (ev_bodies ev);
eo_signer : exists body, Map.get (l_signer (ev_list ev)) (ev_bodies ev) = Some (ev_signer ev, body);
eo_signed : verify_signed_device_list (ev_list_body ev) (ev_list_signature ev) (c_key (ev_signer ev)) = Ok (ev_list ev);
eo_checked id c body : Map.get id (ev_bodies ev) = Some (c, body) ->
checked (ev_list ev) (ev_entries ev) (ev_bodies ev) (ev_prior ev) id c body;
eo_existing : match existing with
| Some pin => check_generation pin b (ev_list ev) (ev_root ev) = Ok tt /\
read_prior (pin_certificates pin) [] = Ok (ev_prior ev) /\
check_pinned pin (ev_list ev) (ev_entries ev) (ev_incoming ev) (ev_bodies ev) (ev_prior ev) = Ok tt
| None => True
end
}.

Lemma read_chain_kept user l certificates bodies certificates' bodies' id e :
(forall id, is_Some (Map.get id certificates) -> is_Some (Map.get id bodies)) ->
read_chain user l certificates bodies = Ok (certificates', bodies') ->
Map.get id certificates = Some e -> Map.get id certificates' = Some e.
Proof.
revert certificates bodies. induction l as [|x l IH]; intros certificates bodies Hk; cbn [read_chain].
- by intros [= <- <-].
- intros E Hg. inv_ok. destruct a as [c body]. inv_checks.
assert (c_device c <> id) as Hne by (intros <-; eauto).
eapply IH; [|exact E|by rewrite map_get_insert_ne].
intros k. destruct (decide (c_device c = k)) as [<-|]; [by rewrite !map_get_insert_eq|].
rewrite !map_get_insert_ne by done. auto.
Qed.

Lemma verify_list_body body signature key l l' :
verify_signed_device_list body signature key = Ok l' -> parse_list body = Ok l -> l' = l.
Proof. unfold verify_signed_device_list. intros E Ep. inv_ok. congruence. Qed.

Lemma check_bundle_ok b anchor now allow_expired s pin v :
check_bundle b anchor now allow_expired s = Ok (pin, v) ->
let existing := existing_pin s (b_user b) anchor in
exists ev, evidence_ok b anchor existing ev /\ pin = ev_pin b ev existing /\ v = ev_verified ev.
Proof.
unfold check_bundle. intros E. cbn zeta in *. repeat (inv_checks; opened; cbv beta iota in * ).
match goal with
| D : decode (le_body _) _ = Ok ?lb, S : decode (le_signature _) _ = Ok ?ls, P : parse_list _ = Ok ?l, R : bundle_root _ = Ok ?root,
RD : read_devices _ _ _ _ _ = Ok (?inc, ?bod0), RC : read_chain _ _ _ _ = Ok (?certs, ?bod), X : fst <$> _ = Some ?sg,
PR : match _ with _ => _ end = Ok ?prior |- _ =>
exists (MkEvidence lb ls l root inc certs bod prior sg); rename P into HP, R into HR, RD into HD, RC into HC, X into HX end.
split; [|by split].
assert (read_ok (b_user b) (bundle_src b) l l0) as Hr0.
{ eapply read_devices_ok; [|apply read_ok_nil|exact HD]. unfold bundle_src. set_solver. }
assert (read_ok (b_user b) (bundle_src b) l1 l2) as Hr.
{ eapply read_chain_ok; [|exact Hr0|exact HC]. unfold bundle_src. set_solver. }
constructor; cbn; try done.
- intros e c body Hin Ho Hs. unfold bundle_root in HR. inv_ok.
match goal with E : root_from _ _ = Ok _ |- _ => rename E into HF end. destruct (root_from_ok _ _ _ HF) as [_ Hroot]. specialize (Hroot _ _ _ Hin Ho Hs). congruence.
- apply Hr0.
- intros id. rewrite smap_keys. destruct (decide (list_to_set (C:=gset string) (e_device <$> l_entries a2) = list_to_set l.*1)); [|tauto].
rewrite <- (elem_of_list_to_set (C:=gset string) id (e_device <$> _)), <- (elem_of_list_to_set (C:=gset string) id l.*1). set_solver.
- intros id e. eapply read_chain_kept; [|exact HC]. apply Hr0.
- destruct (Map.get (l_signer a2) l2) as [[c body]|] eqn:Eg; [|done]. injection HX as <-. by exists body.
- match goal with E : verify_signed_device_list _ _ _ = Ok ?x |- _ => by rewrite (verify_list_body _ _ _ _ _ E HP) in E end.
- intros id c body Hg. eapply check_devices_ok; [eassumption|by apply smap_get_elem|].
destruct (ro_each _ _ _ _ Hr _ _ _ Hg) as (_ & _ & e & _ & Ho & _). by eapply open_certificate_ok.
- destruct (existing_pin s (b_user b) anchor); done.
Qed.

Lemma elem_of_dropped {V} entries (m : SMap V) id : id ∈ dropped entries m <-> is_Some (Map.get id m) /\ id ∉ entries.
Proof.
unfold dropped. rewrite smap_keys, elem_of_list_to_set, !list_elem_of_In, List.filter_In.
by rewrite negb_true_iff, bool_decide_eq_false.
Qed.

Section accepted.
Variables (b : IdentityBundle) (anchor : Anchor) (existing : option Pin) (ev : Evidence).
Hypothesis accepted : evidence_ok b anchor existing ev.

Lemma ev_entries_incoming id : id ∈ ev_entries ev <-> is_Some (Map.get id (ev_incoming ev)).
Proof using accepted. unfold ev_entries. by rewrite elem_of_list_to_set, <- (eo_devices _ _ _ _ accepted). Qed.

Lemma ev_not_revoked pin id : existing = Some pin -> id ∈ ev_entries ev -> id ∉ pin_revoked pin.
Proof using accepted.
intros Hex. pose proof (eo_existing _ _ _ _ accepted) as He. rewrite Hex in He.
destruct He as (_ & _ & He). unfold check_pinned in He. inv_checks.
match goal with H : ~ ~ _ ## _ |- _ => assert (ev_entries ev ## pin_revoked pin) by (apply dec_stable, H) end.
set_solver.
Qed.

Lemma ev_pin_ok : pin_ok (ev_pin b ev existing).
Proof using accepted.
pose proof accepted as [D P U R A I V K RD S G C X]. constructor; cbn.
- done.
- eauto 6.
- intros id Hid. rewrite <- ev_entries_incoming in Hid. unfold ev_revoked.
pose proof (fun pin Ex => ev_not_revoked pin id Ex Hid) as Hn. clear D P U R A I V K RD S G C X.
destruct existing as [pin|] eqn:Ex.
+ pose proof (Hn pin eq_refl). rewrite !elem_of_union, !elem_of_dropped. tauto.
+ rewrite elem_of_dropped. tauto.
Qed.

Lemma ev_pin_after pin : existing = Some pin -> pin_after pin (ev_pin b ev existing).
Proof using accepted.
intros Hex. pose proof (eo_existing _ _ _ _ accepted) as He. rewrite Hex in He.
destruct He as (HG & _ & HP). unfold check_generation in HG. unfold check_pinned in HP. inv_checks.
rewrite Hex. constructor; cbn.
- destruct (decide (pin_incarnation pin = b_incarnation b)); [done|tauto].
- destruct (decide (pin_root pin = ev_root ev)); [done|tauto].
- done.
- intros E. rewrite (proj2 (N.eqb_eq _ _)) in HG by done. inv_checks. done.
- set_solver.
- intros id Hid. destruct (decide (id ∈ ev_entries ev)) as [Hin|Hout]; [left; by apply ev_entries_incoming|].
right. rewrite !elem_of_union, !elem_of_dropped. tauto.
- intros id e e' He He'. destruct a0. symmetry. by eapply unchanged_ok.
Qed.

Lemma ev_endorsed pin : existing = Some pin -> pin_ok pin -> pin_generation pin < l_generation (ev_list ev) ->
endorsed_by_pin pin (ev_signer ev).
Proof using accepted.
intros Hex Hok Hg. pose proof (eo_existing _ _ _ _ accepted) as He. rewrite Hex in He.
destruct He as (_ & HR & HP). unfold check_pinned in HP. rewrite (proj2 (N.ltb_lt _ _) Hg) in HP. inv_checks. destruct a0.
destruct (eo_signer _ _ _ _ accepted) as [body Hs].
eapply endorsed_walk; [apply accepted|apply accepted| |eassumption|exact Hs].
intros id c Hc. destruct (read_prior_ok _ _ _ _ _ HR Hc) as [?|(e & body' & Hin & Ho)]; [done|].
exists e, body'. split; [|done]. eapply smap_elem_get; [|exact Hin]. apply Hok.
Qed.

Lemma ev_traced id c body : Map.get id (ev_bodies ev) = Some (c, body) -> traced (b_user b) (ev_root ev) c.
Proof using accepted.
intros Hg. destruct (eo_checked _ _ _ _ accepted _ _ _ Hg) as [_ _ Hc].
eapply traced_walk; [apply accepted|apply accepted|apply accepted|exact Hc|exact Hg].
Qed.

Lemma ev_devices_get id c : (id, c) ∈ v_devices (ev_verified ev) <->
id ∈ ev_entries ev /\ exists body, Map.get id (ev_bodies ev) = Some (c, body).
Proof using accepted.
cbn. rewrite list_elem_of_fmap. split.
- intros ([k [c' body]] & [= -> ->] & Hin%list_elem_of_In%List.filter_In). destruct Hin as [Hin%list_elem_of_In Hb].
cbn in Hb. apply bool_decide_eq_true in Hb. split; [done|]. exists body. eapply smap_elem_get; [|exact Hin]. apply accepted.
- intros [Hid [body Hg]]. exists (id, (c, body)). split; [done|]. apply list_elem_of_In, List.filter_In.
split; [apply list_elem_of_In; by apply smap_get_elem|]. by apply bool_decide_eq_true_2.
Qed.

(** The devices that are verified are those of the list, and those of the pin. *)
Lemma ev_devices_listed id : id ∈ (v_devices (ev_verified ev)).*1 <-> is_Some (Map.get id (ev_incoming ev)).
Proof using accepted.
rewrite list_elem_of_fmap, <- ev_entries_incoming. split.
- intros ([k c] & -> & [Hk _]%ev_devices_get). done.
- intros Hid. pose proof Hid as [e He]%ev_entries_incoming. apply (eo_kept _ _ _ _ accepted) in He.
destruct (ro_keys _ _ _ _ (eo_read _ _ _ _ accepted) id) as [[c body] Hg]; [eauto|].
exists (id, c). split; [done|]. apply ev_devices_get. eauto.
Qed.
End accepted.

(** ** No panic *)

Lemma next_bytes_safe size o t r : safe (next_bytes size o t r).
Proof.
unfold next_bytes, checked_add. destruct (_ <? U64); [|done]. destruct (_ <? _); [done|].
by rewrite (proj2 (N.leb_le _ _)) by lia.
Qed.

(** Goes through the binds of a computation whose parts do not panic. *)
Ltac safely :=
repeat match goal with
| |- safe (_ ≫= _) => simple apply safe_bind; [|intros]
| |- safe (let '_ := ?p in _) => destruct p
| |- safe (if ?b then _ else _) => destruct b
| |- safe (match ?o with Some _ => _ | None => _ end) => destruct o
| |- safe (refuse _ _) => apply safe_refuse
| |- safe (refuse_trust _ _) => apply safe_refuse_trust
| |- safe (ok_or _ _) => apply safe_ok_or
| |- safe (next_bytes _ _ _ _) => apply next_bytes_safe
| |- safe (Ok _) => exact I
| |- safe (Err _) => exact I
| |- safe (wrong _) => exact I
| |- safe (distrust _) => exact I
end.

Lemma read_lp_bytes_safe r : safe (read_lp_bytes r).
Proof. unfold read_lp_bytes, read_u32_be. safely. Qed.

Lemma read_lp_str_safe r : safe (read_lp_str r).
Proof. unfold read_lp_str. apply safe_bind; [apply read_lp_bytes_safe|intros; safely]. Qed.

Lemma validate_timestamps_safe context issued expires : safe (validate_timestamps context issued expires).
Proof. unfold validate_timestamps, reject_zero_expiry. cbn zeta. safely. Qed.

Lemma validate_user_safe context value : safe (validate_canonical_user_id context value).
Proof. unfold validate_canonical_user_id. safely. Qed.

Lemma validate_certificate_safe c : safe (validate_certificate c).
Proof.
unfold validate_certificate. apply safe_bind; [apply validate_timestamps_safe|intros].
apply safe_bind; [apply validate_user_safe|intros].
unfold validate_canonical_device_id, reject_bounded_str, require_exact_bytes. safely.
Qed.

Lemma parse_certificate_safe l : safe (parse_certificate l).
Proof.
unfold parse_certificate, certificate_fits, body_fits, read_u64_be, expect_consumed.
repeat first [match goal with |- safe (read_lp_str _) => apply read_lp_str_safe end | match goal with |- safe (read_lp_bytes _) => apply read_lp_bytes_safe end | match goal with |- safe (validate_certificate _) => apply validate_certificate_safe end |
progress safely].
Qed.

Lemma validate_entries_safe seen entries : safe (validate_entries_from seen entries).
Proof.
revert seen. induction entries as [|e entries IH]; intros seen; cbn; [done|].
unfold validate_entry, validate_canonical_device_id. safely. apply IH.
Qed.

Lemma validate_list_safe l : safe (validate_list l).
Proof.
unfold validate_list. apply safe_bind; [safely|intros]. apply safe_bind; [apply validate_timestamps_safe|intros].
apply safe_bind; [apply validate_user_safe|intros]. unfold validate_canonical_device_id, validate_entries.
safely. apply validate_entries_safe.
Qed.

Lemma read_entries_safe count r : safe (read_entries count r).
Proof.
revert r. induction count as [|count IH]; intros r; cbn [read_entries]; [done|].
repeat first [match goal with |- safe (read_lp_str _) => apply read_lp_str_safe end | match goal with |- safe (read_entries _ _) => apply IH end | progress safely].
Qed.

Lemma parse_list_safe l : safe (parse_list l).
Proof.
unfold parse_list, list_fits, body_fits, read_u64_be, read_u32_be, expect_consumed.
repeat first [match goal with |- safe (read_lp_str _) => apply read_lp_str_safe end | match goal with |- safe (read_entries _ _) => apply read_entries_safe end | match goal with |- safe (validate_list _) => apply validate_list_safe end | progress safely].
Qed.

Lemma decode_base64_safe value limit : safe (decode value limit).
Proof. unfold decode. safely. Qed.

Lemma open_certificate_safe e : safe (open_certificate e).
Proof. unfold open_certificate. repeat first [match goal with |- safe (decode _ _) => apply decode_base64_safe end | match goal with |- safe (parse_certificate _) => apply parse_certificate_safe end | progress safely]. Qed.

Lemma check_signature_safe context failed prefix body signature key : safe (check_signature context failed prefix body signature key).
Proof. unfold check_signature. safely. Qed.

Lemma verify_certificate_safe body signature key : safe (verify_certificate body signature key).
Proof.
unfold verify_certificate. repeat first [match goal with |- safe (check_signature _ _ _ _ _ _) => apply check_signature_safe end | match goal with |- safe (parse_certificate _) => apply parse_certificate_safe end | progress safely].
Qed.

Lemma bundle_root_safe b : safe (bundle_root b).
Proof.
unfold bundle_root. apply safe_bind; [|intros; safely]. generalize (None : option Root).
induction (b_devices b ++ b_chain b) as [|e l IH]; intros root; cbn [root_from]; [done|].
repeat first [match goal with |- safe (open_certificate _) => apply open_certificate_safe end | match goal with |- safe (root_from _ _) => apply IH end | progress safely].
Qed.

Lemma read_devices_safe user now l incoming bodies : safe (read_devices user now l incoming bodies).
Proof.
revert incoming bodies. induction l as [|e l IH]; intros incoming bodies; cbn [read_devices]; [done|].
repeat first [match goal with |- safe (open_certificate _) => apply open_certificate_safe end | match goal with |- safe (read_devices _ _ _ _ _) => apply IH end | progress safely].
Qed.

Lemma read_chain_safe user l certificates bodies : safe (read_chain user l certificates bodies).
Proof.
revert certificates bodies. induction l as [|e l IH]; intros certificates bodies; cbn [read_chain]; [done|].
repeat first [match goal with |- safe (open_certificate _) => apply open_certificate_safe end | match goal with |- safe (read_chain _ _ _ _) => apply IH end | progress safely].
Qed.

Lemma read_prior_safe l prior : safe (read_prior l prior).
Proof.
revert prior. induction l as [|[id e] l IH]; intros prior; cbn [read_prior]; [done|].
repeat first [match goal with |- safe (open_certificate _) => apply open_certificate_safe end | match goal with |- safe (read_prior _ _) => apply IH end | progress safely].
Qed.

Lemma unchanged_safe pinned incoming : safe (unchanged pinned incoming).
Proof. induction incoming as [|[id e] incoming IH]; cbn [unchanged]; [done|]. safely. apply IH. Qed.

(** A walk with a turn left for each key that it did not see. *)
Definition turns_left {V} (turns : nat) (m : SMap V) (seen : gset string) : Prop :=
seen ⊆ list_to_set m.*1 /\ (S (length m) <= turns + size seen)%nat.

Lemma turns_start {V} (m : SMap V) : turns_left (S (length m)) m ∅.
Proof. split; [set_solver|lia]. Qed.

Lemma turns_some {V} (m : SMap V) seen : ~ turns_left 0 m seen.
Proof.
intros [Hs Hl]. pose proof (subseteq_size _ _ Hs) as Hle. pose proof (size_keys_le m.*1) as Hk.
rewrite length_fmap in Hk. lia.
Qed.

Lemma turns_next {V} turns (m : SMap V) seen key :
turns_left (S turns) m seen -> key ∉ seen -> is_Some (Map.get key m) -> turns_left turns m ({[key]} ∪ seen).
Proof.
intros [Hs Hl] Hk Hm. destruct (walk_room m seen key Hs Hk Hm) as (Hsub & _ & Hsize).
split; [done|]. rewrite Hsize. lia.
Qed.

Lemma endorsed_safe turns revoked bodies prior signer seen :
turns_left turns bodies seen -> safe (endorsed turns revoked bodies prior signer seen).
Proof.
revert signer seen. induction turns as [|turns IH]; intros signer seen Ht; [by apply turns_some in Ht|].
cbn [endorsed]. apply safe_bind; [safely|intros u Hu]. apply safe_bind; [safely|intros c Hc].
destruct (Map.get signer prior); [safely|]. apply safe_bind; [safely|intros u' Hu'].
inv_checks. apply IH, turns_next; [done..|]. destruct (Map.get signer bodies); [eauto|done].
Qed.

Lemma validate_bootstrap_chain_safe turns bodies current seen :
turns_left turns bodies seen -> safe (validate_bootstrap_chain turns bodies current seen).
Proof.
revert current seen. induction turns as [|turns IH]; intros current seen Ht; [by apply turns_some in Ht|].
cbn [validate_bootstrap_chain]. apply safe_bind; [safely|intros u Hu]. apply safe_bind; [safely|intros c Hc].
destruct (is_self_signed c); [done|].
inv_checks. apply IH, turns_next; [done..|]. destruct (Map.get current bodies); [eauto|done].
Qed.

Lemma check_devices_safe l entries certificates bodies prior todo :
(forall id x, (id, x) ∈ todo -> is_Some (Map.get id certificates)) ->
safe (check_devices l entries certificates bodies prior todo).
Proof.
intros Hc. induction todo as [|[id [c body]] todo IH]; cbn [check_devices]; [done|].
apply safe_bind; [|intros; apply IH; intros; eapply Hc; by right].
unfold check_device. apply safe_bind; [safely|intros]. apply safe_bind; [safely|intros]. apply safe_bind; [safely|intros].
apply safe_bind; [apply safe_or_panic; eapply Hc; by left|intros].
apply safe_bind; [apply decode_base64_safe|intros]. apply safe_bind; [apply verify_certificate_safe|intros].
apply validate_bootstrap_chain_safe, turns_start.
Qed.

Lemma check_bundle_safe b anchor now allow_expired s : safe (check_bundle b anchor now allow_expired s).
Proof.
unfold check_bundle. cbn zeta.
do 2 (apply safe_bind; [first [apply decode_base64_safe | safely]|intros]).
repeat first [match goal with |- safe (decode _ _) => apply decode_base64_safe end | match goal with |- safe (parse_list _) => apply parse_list_safe end | match goal with |- safe (bundle_root _) => apply bundle_root_safe end | match goal with |- safe (read_prior _ _) => apply read_prior_safe end |
progress safely].
- unfold check_anchor. destruct anchor; safely.
- unfold check_generation. repeat first [match goal with |- safe (decode _ _) => apply decode_base64_safe end |
match goal with |- safe (parse_list _) => apply parse_list_safe end | progress safely].
- unfold check_time. safely.
- apply read_devices_safe.
- apply read_chain_safe.
- unfold check_pinned. apply safe_bind; [safely|intros].
apply safe_bind; [case_match; [apply endorsed_safe, turns_start|done]|intros]. apply unchanged_safe.
- unfold verify_signed_device_list. apply safe_bind; [apply check_signature_safe|intros; apply parse_list_safe].
- apply check_devices_safe. intros id [c body] Hin.
match goal with E : read_devices _ _ _ _ _ = Ok (?inc, ?bod0), E2 : read_chain _ _ _ _ = Ok (?certs, ?bod) |- _ =>
assert (read_ok (b_user b) (bundle_src b) inc bod0) as Hr0
by (eapply read_devices_ok; [|apply read_ok_nil|exact E]; unfold bundle_src; set_solver);
assert (read_ok (b_user b) (bundle_src b) certs bod) as Hr
by (eapply read_chain_ok; [|exact Hr0|exact E2]; unfold bundle_src; set_solver) end.
destruct (ro_each _ _ _ _ Hr id c body) as (_ & _ & e & He & _); [|by exists e].
eapply smap_elem_get; [|exact Hin]. apply Hr.
Qed.

(** ** Calls *)

(** The anchor does not replace the pin of [user] by that of another root. *)
Definition keeps (s : Store) (user : string) (b : IdentityBundle) (anchor : Anchor) : Prop :=
b_user b = user -> match anchor, trusted_root s user with
| AnchorRoot root, Some pinned => root = pinned
| _, _ => True
end.

Lemma existing_keeps s user b anchor pin :
keeps s user b anchor -> b_user b = user -> Map.get user (pins s) = Some pin -> existing_pin s (b_user b) anchor = Some pin.
Proof.
intros Hk Hu Hg. unfold existing_pin. rewrite Hu, Hg. cbn. specialize (Hk Hu). unfold trusted_root in Hk. rewrite Hg in Hk.
cbn in Hk. destruct anchor; [done|]. subst. by rewrite decide_True.
Qed.

(** A call that was accepted, with the pin that it kept. *)
Lemma verify_current_ok disk b anchor now allow_expired persist s v s' :
verify_current disk b anchor now allow_expired persist s = (Ok v, s') ->
exists ev, evidence_ok b anchor (existing_pin s (b_user b) anchor) ev /\ v = ev_verified ev /\
Map.get (b_user b) (pins s') = Some (ev_pin b ev (existing_pin s (b_user b) anchor)) /\
(forall user, user <> b_user b -> Map.get user (pins s') = Map.get user (pins s)).
Proof.
unfold verify_current. destruct (check_bundle _ _ _ _ _) as [[pin v']| |] eqn:Ec; [|done..].
apply check_bundle_ok in Ec as (ev & Hev & -> & ->). intros E. exists ev. split; [done|].
destruct (decide _) as [Hg|_].
- injection E as <- <-. done.
- destruct persist; [|injection E as <- <-].
+ unfold save in E. destruct (to_vec _); [|done]. destruct disk; try done. injection E as <- <-.
cbn. rewrite map_get_insert_eq. split; [done|]. split; [done|]. intros user Hne. by rewrite map_get_insert_ne.
+ cbn. rewrite map_get_insert_eq. split; [done|]. split; [done|]. intros user Hne. by rewrite map_get_insert_ne.
Qed.
End spec.
