(* ===== verification/PinsClaims.v ===== *)
(** The devices that an account trusts: what a bundle that was accepted proves, how the pin of
    an account moves, that the checks end, and that an identity that was just made is
    accepted. *)

From S2P Require Import Prelude Json Utf Terminal Wire WireSpec Identity IdentitySpec Pins PinsSpec.
Open Scope N_scope.

Section claims.
Context `{Uuids, Signatures, Sha256, Base64, Serde StoredPins}.

(** ** Runs *)

(** What the program finds when it starts again. *)
Definition contents (s : Store) : Contents := match file s with Some l => Found l | None => NotFound end.

(** Everything that happens to the store: a bundle is verified, an account is forgotten, or the
program starts again and reads its file.  The calls are those of anyone, with any bundle, any
account and any root that the person approves, and any of them may fail to write the file. *)
Inductive Event :=
| Verify (disk : Disk) (b : IdentityBundle) (anchor : Anchor) (now : N) (allow_expired : bool)
| Forget (disk : Disk) (account : string)
| Restart.

Inductive does : Event -> Store -> Store -> Prop :=
| does_verify disk b anchor now allow_expired s :
does (Verify disk b anchor now allow_expired) s (verify_current disk b anchor now allow_expired true s).2
| does_forget disk account s : does (Forget disk account) s (forget disk account s).2
| does_restart s s' : load (contents s) = Ok s' -> does Restart s s'.

Definition call (s s' : Store) : Prop := exists e, does e s s'.

(** The person lets go of the identity that is pinned for [user]: they forget the account, or a
bundle of it passes all checks with another root, which they approved. *)
Definition lets_go (user : string) (e : Event) (s : Store) : Prop :=
match e with
| Forget _ account => account = user
| Verify _ b anchor now allow_expired => b_user b = user /\
exists pinned pin v, trusted_root s user = Some pinned /\
check_bundle b anchor now allow_expired s = Ok (pin, v) /\ anchor = AnchorRoot (pin_root pin) /\ pin_root pin <> pinned
| Restart => False
end.

(** A call in which the person does not let go of [user]. *)
Definition held (user : string) (s s' : Store) : Prop := exists e, does e s s' /\ ~ lets_go user e s.

(** The program started with this store, whatever happened before. *)
Definition started (s : Store) : Prop := exists s0, rtc call (MkStore [] None) s0 /\ does Restart s0 s.

(** [later] is the pin of [user], at or after [pin]. *)
Definition pinned_after (user : string) (pin : Pin) (m : SMap Pin) : Prop :=
exists later, Map.get user m = Some later /\ pin_ok later /\ pin_after pin later.

(** The pins of the store and of its file are in order. *)
Record pins_ok (user : string) (s : Store) : Prop := {
so_pin pin : Map.get user (pins s) = Some pin -> pin_ok pin;
so_file : match file s with
| Some l => exists stored, from_slice l = Some stored /\ forall pin, Map.get user (st_pins stored) = Some pin -> pin_ok pin
| None => True
end
}.

(** The file is not behind the store. *)
Definition file_ok (user : string) (s : Store) : Prop :=
match file s with
| Some l => exists stored, from_slice l = Some stored /\
forall pin, Map.get user (pins s) = Some pin -> pinned_after user pin (st_pins stored)
| None => Map.get user (pins s) = None
end.

Lemma pins_ok_new user : pins_ok user (MkStore [] None).
Proof. by constructor. Qed.

Lemma pinned_self user s pin : pins_ok user s -> Map.get user (pins s) = Some pin -> pinned_after user pin (pins s).
Proof. intros Hs Hg. exists pin. split; [done|]. split; [by apply (so_pin _ _ Hs)|apply pin_after_refl]. Qed.

Context `{!SerdeLaws StoredPins}.

Lemma save_pins disk next s user :
pins_ok user s -> (forall pin, Map.get user next = Some pin -> pin_ok pin) -> pins_ok user (save disk next s).2.
Proof.
intros Hs Hok. unfold save. destruct (to_vec _) as [l|] eqn:El; [|done]. apply from_to in El.
destruct disk; cbn; [|done|].
- constructor; cbn; [done|]. by exists (MkStored 1 next).
- constructor; cbn; [apply Hs|]. by exists (MkStored 1 next).
Qed.

(** What [save] makes of maps where the pin of the user did not go back. *)
Lemma save_ok user disk next s :
pins_ok user s -> file_ok user s -> (forall pin, Map.get user next = Some pin -> pin_ok pin) ->
(forall pin, Map.get user (pins s) = Some pin -> pinned_after user pin next) ->
file_ok user (save disk next s).2 /\
(forall pin, Map.get user (pins s) = Some pin -> pinned_after user pin (pins (save disk next s).2)).
Proof.
intros Hs Hf Hok Hafter. pose proof (fun pin => pinned_self user s pin Hs) as Hself.
unfold save. destruct (to_vec _) as [l|] eqn:El; [|done]. apply from_to in El.
destruct disk; unfold file_ok; cbn; (split; [|done]); [|done|].
- exists (MkStored 1 next). split; [done|]. intros pin Hg. exists pin. split; [done|].
split; [by apply Hok|apply pin_after_refl].
- by exists (MkStored 1 next).
Qed.

Lemma without_get {V} key key' (m : SMap V) : key <> key' -> Map.get key' (without key m) = Map.get key' m.
Proof.
intros Hne. induction m as [|[k w] m IH]; [done|]. unfold without. cbn.
destruct (String.eqb_spec k key) as [->|Hk]; cbn; [by rewrite decide_False|].
destruct (decide (k = key')); [done|exact IH].
Qed.

Lemma without_gone {V} key (m : SMap V) : Map.get key (without key m) = None.
Proof.
induction m as [|[k w] m IH]; [done|]. unfold without. cbn.
destruct (String.eqb_spec k key) as [->|Hk]; cbn; [exact IH|]. by rewrite decide_False.
Qed.

Lemma pinned_get user pin m m' :
Map.get user m' = Map.get user m -> pinned_after user pin m -> pinned_after user pin m'.
Proof. intros E (later & Hg & ?). exists later. by rewrite E. Qed.

Lemma check_bundle_pins user s b anchor now allow_expired pin v :
pins_ok user s -> check_bundle b anchor now allow_expired s = Ok (pin, v) ->
forall p, Map.get user (Map.insert (b_user b) pin (pins s)) = Some p -> pin_ok p.
Proof.
intros Hs Hc. apply check_bundle_ok in Hc as (ev & Hev & -> & ->). destruct (decide (b_user b = user)) as [<-|Hne].
- rewrite map_get_insert_eq. intros p [= <-]. eapply ev_pin_ok. exact Hev.
- rewrite map_get_insert_ne by done. apply Hs.
Qed.

Lemma check_bundle_after user s b anchor now allow_expired pin v :
pins_ok user s -> keeps s user b anchor -> check_bundle b anchor now allow_expired s = Ok (pin, v) ->
forall p, Map.get user (pins s) = Some p -> pinned_after user p (Map.insert (b_user b) pin (pins s)).
Proof.
intros Hs Hk Hc. apply check_bundle_ok in Hc as (ev & Hev & -> & ->). intros p Hg.
destruct (decide (b_user b = user)) as [<-|Hne].
- rewrite (existing_keeps _ _ _ _ _ Hk eq_refl Hg) in *. eexists. rewrite map_get_insert_eq.
split; [done|]. split; [by eapply ev_pin_ok|by eapply ev_pin_after].
- eapply pinned_get; [by apply map_get_insert_ne|]. by apply pinned_self.
Qed.

(** A bundle that passes its checks keeps the root that is pinned, unless the person lets go. *)
Lemma not_lets_go_keeps user disk b anchor now allow_expired s pin v :
check_bundle b anchor now allow_expired s = Ok (pin, v) ->
~ lets_go user (Verify disk b anchor now allow_expired) s -> keeps s user b anchor.
Proof.
intros Hc Hn Hu. destruct anchor as [|root]; [done|]. destruct (trusted_root s user) as [pinned|] eqn:Et; [|done].
destruct (decide (root = pinned)) as [|Hr]; [done|]. destruct Hn. split; [done|]. exists pinned, pin, v. split; [done|]. split; [done|].
apply check_bundle_ok in Hc as (ev & Hev & -> & _). pose proof (eo_anchor _ _ _ _ Hev) as Ha.
apply refuse_trust_ok, bool_decide_eq_false in Ha. cbn. destruct (decide (root = ev_root ev)) as [<-|]; [done|tauto].
Qed.

Lemma does_pins user e s s' : pins_ok user s -> does e s s' -> pins_ok user s'.
Proof.
intros Hs Hd. destruct Hd as [disk b anchor now exp s|disk other s|s s' Hl].
- unfold verify_current. destruct (check_bundle _ _ _ _ _) as [[pin v]|e|] eqn:Ec; cbn; [|done..].
destruct (decide _); [done|]. pose proof (save_pins disk _ s user Hs (check_bundle_pins _ _ _ _ _ _ _ _ Hs Ec)) as Hs'.
destruct (save disk _ s) as [[]]; exact Hs'.
- unfold forget. destruct (contains s other); cbn; [|done]. apply save_pins; [done|]. destruct (decide (other = user)) as [->|].
+ by rewrite without_gone.
+ rewrite without_get by done. apply Hs.
- destruct Hs as [Hp Hf]. unfold load, contents in Hl. destruct (file s) as [l|].
+ destruct Hf as (stored & Hst & Hok). inv_checks. rewrite Hst in E0. injection E0 as <-.
constructor; cbn; [done|]. by exists stored.
+ injection Hl as <-. by constructor.
Qed.

Lemma calls_pins user s s' : pins_ok user s -> rtc call s s' -> pins_ok user s'.
Proof. intros Hs Hc. induction Hc as [|? ? ? [e He]]; [done|]. eauto using does_pins. Qed.

Lemma does_ok user e s s' : pins_ok user s -> file_ok user s -> does e s s' -> ~ lets_go user e s ->
file_ok user s' /\ (forall pin, Map.get user (pins s) = Some pin -> pinned_after user pin (pins s')).
Proof.
intros Hs Hf Hd Hn. pose proof (fun pin => pinned_self user s pin Hs) as Hself.
destruct Hd as [disk b anchor now exp s|disk other s|s s' Hl].
- unfold verify_current. destruct (check_bundle _ _ _ _ _) as [[pin v]|e|] eqn:Ec; cbn; [|done..].
destruct (decide _); [done|]. pose proof (not_lets_go_keeps user disk b anchor now exp s pin v Ec Hn) as Hk.
pose proof (save_ok user disk _ s Hs Hf (check_bundle_pins _ _ _ _ _ _ _ _ Hs Ec) (check_bundle_after _ _ _ _ _ _ _ _ Hs Hk Ec)).
destruct (save disk _ s) as [[]]; done.
- change (other <> user) in Hn. unfold forget. destruct (contains s other); cbn; [|done].
apply save_ok; [done..|rewrite without_get by done; apply Hs|].
intros pin Hg. eapply pinned_get; [by apply without_get|]. by apply Hself.
- destruct Hs as [Hp Hf']. unfold load, contents in Hl. unfold file_ok in Hf. destruct (file s) as [l|] eqn:El.
+ destruct Hf as (stored & Hst & Hafter). destruct Hf' as (? & Hst' & Hok). rewrite Hst in Hst'. injection Hst' as <-.
inv_checks. rewrite Hst in E0. injection E0 as <-. cbn.
split; [|exact Hafter]. unfold file_ok. cbn. exists stored. split; [done|].
intros pin Hg. exists pin. split; [done|]. split; [by apply Hok|apply pin_after_refl].
+ injection Hl as <-. split; [done|]. intros pin Hg. by rewrite Hf in Hg.
Qed.

Lemma held_ok user s s' : pins_ok user s -> file_ok user s -> rtc (held user) s s' ->
pins_ok user s' /\ file_ok user s' /\ (forall pin, Map.get user (pins s) = Some pin -> pinned_after user pin (pins s')).
Proof.
intros Hs Hf Hsteps. revert Hs Hf. induction Hsteps as [s|s1 s2 s3 [e [H12 Hn]] H23 IH]; intros Hs Hf.
- split; [done|]. split; [done|]. intros. by apply pinned_self.
- destruct (does_ok _ _ _ _ Hs Hf H12 Hn) as [Hf2 A12].
destruct (IH (does_pins _ _ _ _ Hs H12) Hf2) as (Hs3 & Hf3 & A23). split; [done|]. split; [done|].
intros pin Hg. destruct (A12 pin Hg) as (p2 & Hg2 & _ & Ha). destruct (A23 p2 Hg2) as (p3 & Hg3 & Hok & Ha3).
exists p3. split; [done|]. split; [done|]. by eapply pin_after_trans.
Qed.

Lemma started_ok user s : started s -> pins_ok user s /\ file_ok user s.
Proof.
intros (s0 & Hc & Hd). pose proof (calls_pins user _ _ (pins_ok_new user) Hc) as Hs0.
pose proof (does_pins _ _ _ _ Hs0 Hd) as Hs. split; [done|]. inversion Hd as [| |? ? Hl]; subst.
unfold load, contents in Hl. destruct (file s0) as [l|]; [|by injection Hl as <-].
inv_checks. unfold file_ok. cbn. eexists. split; [done|]. intros pin Hg. exists pin. split; [done|].
split; [by apply (so_pin _ _ Hs)|apply pin_after_refl].
Qed.

(** A bundle of the user that was accepted, as a call. *)
Lemma verify_held user disk b anchor now allow_expired s r s' :
~ lets_go user (Verify disk b anchor now allow_expired) s ->
verify_current disk b anchor now allow_expired true s = (r, s') -> held user s s'.
Proof. intros Hn E. pose proof (does_verify disk b anchor now allow_expired s) as Hd. rewrite E in Hd. by eexists. Qed.

Lemma verify_pins disk b anchor now allow_expired s v s' :
verify_current disk b anchor now allow_expired true s = (Ok v, s') ->
exists pin, Map.get (b_user b) (pins s') = Some pin /\
(forall id, id ∈ (v_devices v).*1 <-> is_Some (Map.get id (pin_certificates pin))).
Proof.
intros E. apply verify_current_ok in E as (ev & Hev & -> & Hp & _).
eexists. split; [exact Hp|]. intros id. apply (ev_devices_listed _ _ _ _ Hev).
Qed.

Lemma ev_signed_list b anchor existing ev : evidence_ok b anchor existing ev ->
exists c body signature, (l_signer (v_list (ev_verified ev)), c) ∈ v_devices (ev_verified ev) /\
decode (le_body (b_list b)) LIST_LIMIT = Ok body /\
verify_signed_device_list body signature (c_key c) = Ok (v_list (ev_verified ev)).
Proof.
intros Hev. destruct (eo_signer _ _ _ _ Hev) as [body Hs].
exists (ev_signer ev), (ev_list_body ev), (ev_list_signature ev). split; [|split; apply Hev].
apply (ev_devices_get _ _ _ _ Hev). split; [|by exists body].
apply (ev_entries_incoming _ _ _ _ Hev), (eo_devices _ _ _ _ Hev).
pose proof (eo_parse _ _ _ _ Hev) as Hp. apply parse_list_ok in Hp as (_ & Hl & _).
unfold signer_listed in Hl. apply existsb_exists in Hl as (e & Hin & He%String.eqb_eq).
apply list_elem_of_fmap. exists e. split; [done|]. by apply list_elem_of_In.
Qed.

(** ** Claims *)

(** C6. A device that [Pins] verifies goes back to the root of the account: its certificate is
signed by a device of the account, issued while that one was valid, and so on to the one
first device, whose certificate has the root that was approved or pinned.  The devices are
those of the list, each with the signer that the list names, and one of them signed it. *)
Theorem devices_trace_to_root disk b anchor now allow_expired persist s v s' :
verify_current disk b anchor now allow_expired persist s = (Ok v, s') ->
match anchor with
| AnchorRoot root => v_root v = root
| Pinned => trusted_root s (b_user b) = Some (v_root v)
end /\
l_user (v_list v) = b_user b /\
(forall id c, (id, c) ∈ v_devices v -> c_device c = id /\ traced (b_user b) (v_root v) c /\
exists e, e ∈ l_entries (v_list v) /\ e_device e = id /\ e_signer e = c_signer c) /\
(forall id, id ∈ (v_devices v).*1 <-> id ∈ e_device <$> l_entries (v_list v)) /\
(exists c body signature, (l_signer (v_list v), c) ∈ v_devices v /\
decode (le_body (b_list b)) LIST_LIMIT = Ok body /\
verify_signed_device_list body signature (c_key c) = Ok (v_list v)).
Proof.
intros E. apply verify_current_ok in E as (ev & Hev & -> & _ & _). split; [|split; [apply Hev|split; [|split]]].
- pose proof (eo_anchor _ _ _ _ Hev) as Ha. pose proof (eo_existing _ _ _ _ Hev) as Hx. unfold check_anchor in Ha.
unfold existing_pin, trusted_root in *. destruct anchor as [|root].
+ destruct (Map.get _ _) as [pin|]; cbn in *; [|done].
destruct Hx as (Hg & _). unfold check_generation in Hg. inv_checks.
destruct (decide (pin_root pin = ev_root ev)); [by f_equal|tauto].
+ apply refuse_trust_ok, bool_decide_eq_false in Ha. cbn. destruct (decide (root = ev_root ev)); [done|tauto].
- intros id c Hin. apply (ev_devices_get _ _ _ _ Hev) in Hin as [Hid [body Hg]].
destruct (ro_each _ _ _ _ (eo_read _ _ _ _ Hev) _ _ _ Hg) as (Hd & _).
split; [done|]. split; [by eapply ev_traced|].
by apply (ck_entry _ _ _ _ _ _ _ (eo_checked _ _ _ _ Hev _ _ _ Hg)).
- intros id. rewrite (ev_devices_listed _ _ _ _ Hev). apply Hev.
- eapply ev_signed_list. exact Hev.
Qed.

(** C9. In every store, a list newer than the pin is accepted only where its root is another one,
which the person approved in this call, or where a device that was trusted gave the signer of the
list its certificate: it is a device of the pin, which was not removed and has the certificate
that it had, or another one that it, or a device that it endorsed, signed, and none of them
was removed. *)
Theorem newer_list_is_endorsed disk b anchor now allow_expired persist s pin v s' :
rtc call (MkStore [] None) s -> Map.get (b_user b) (pins s) = Some pin ->
verify_current disk b anchor now allow_expired persist s = (Ok v, s') -> pin_generation pin < v_generation v ->
(anchor = AnchorRoot (v_root v) /\ v_root v <> pin_root pin) \/
(v_root v = pin_root pin /\ exists c body signature, (l_signer (v_list v), c) ∈ v_devices v /\
decode (le_body (b_list b)) LIST_LIMIT = Ok body /\
verify_signed_device_list body signature (c_key c) = Ok (v_list v) /\ endorsed_by_pin pin c).
Proof.
intros Hs%(calls_pins (b_user b)) Hg E Hlt; [|apply pins_ok_new]. apply verify_current_ok in E as (ev & Hev & -> & _ & _).
assert (Hx : existing_pin s (b_user b) anchor = Some pin \/ anchor = AnchorRoot (ev_root ev) /\ ev_root ev <> pin_root pin).
{ pose proof (eo_anchor _ _ _ _ Hev) as Ha. unfold existing_pin in *. rewrite Hg in *. destruct anchor as [|root]; [by left|].
cbn in *. destruct (decide (pin_root pin = root)); [by left|right].
apply refuse_trust_ok, bool_decide_eq_false in Ha. destruct (decide (root = ev_root ev)) as [<-|]; [|tauto]. naive_solver. }
destruct Hx as [Hx|Hx]; [right|by left]. rewrite Hx in Hev. split.
{ pose proof (eo_existing _ _ _ _ Hev) as He. cbn in He. destruct He as (He & _). unfold check_generation in He. inv_checks.
cbn. destruct (decide (pin_root pin = ev_root ev)); [done|tauto]. }
destruct (ev_signed_list _ _ _ _ Hev) as (c & body & signature & Hin & Hd & Hv).
exists c, body, signature. split; [done|]. split; [done|]. split; [done|].
pose proof (ev_endorsed _ _ _ _ Hev pin eq_refl (so_pin _ _ Hs _ Hg) Hlt) as He.
apply (ev_devices_get _ _ _ _ Hev) in Hin as [_ [body' Hb]].
destruct (eo_signer _ _ _ _ Hev) as [body'' Hs']. cbn in Hb. rewrite Hb in Hs'. by injection Hs' as -> _.
Qed.

(** C7. The trust in an account only moves forward while the person does not let go of it.  From
a start of the program on, whatever bundles are verified, whatever writes of the file fail,
whatever other accounts are forgotten and whenever the program starts again from its file: the
root of the account stays, the generation of its list does not decrease and a list of the same
generation is the same one, a device that was removed stays removed and is not trusted, each
device that is not trusted any more was removed, and one that is keeps its certificate.  To let
go is to forget this account, or to approve another root of which a bundle passes all checks. *)
Theorem trust_moves_forward user s0 s1 s2 pin :
started s0 -> rtc (held user) s0 s1 -> Map.get user (pins s1) = Some pin -> rtc (held user) s1 s2 ->
exists later, Map.get user (pins s2) = Some later /\ pin_root later = pin_root pin /\
pin_incarnation later = pin_incarnation pin /\ pin_generation pin <= pin_generation later /\
(pin_generation pin = pin_generation later -> pin_list_body later = pin_list_body pin) /\
pin_revoked pin ⊆ pin_revoked later /\
(forall id, is_Some (Map.get id (pin_certificates later)) -> id ∉ pin_revoked later) /\
(forall id e, Map.get id (pin_certificates pin) = Some e ->
Map.get id (pin_certificates later) = Some e \/ id ∈ pin_revoked later).
Proof.
intros [Hs0 Hf0]%(started_ok user) H01 Hg H12.
destruct (held_ok _ _ _ Hs0 Hf0 H01) as (Hs1 & Hf1 & _). destruct (held_ok _ _ _ Hs1 Hf1 H12) as (_ & _ & Ha).
destruct (Ha _ Hg) as (later & Hl & Hok & [A1 A2 A3 A4 A5 A6 A7]).
exists later. do 6 (split; [done|]). split; [apply Hok|].
intros id e He. destruct (A6 id) as [[e' He']|Hr]; [eauto| |by right]. left. by rewrite (A7 _ _ _ He He') in He'.
Qed.

(** C8. A device that was removed does not come back while the person does not let go of the
account.  Three bundles of the account are verified, with anything in between as in
[trust_moves_forward]: a device of the first that is not in the second is not in the third. *)
Theorem removed_device_never_returns user s0 s1 s2 s3 s4 s5 s6 disk1 disk2 disk3 b1 b2 b3 anchor1 anchor2 anchor3
now1 now2 now3 expired1 expired2 expired3 v1 v2 v3 id :
b_user b1 = user -> b_user b2 = user -> b_user b3 = user ->
~ lets_go user (Verify disk1 b1 anchor1 now1 expired1) s1 ->
~ lets_go user (Verify disk2 b2 anchor2 now2 expired2) s3 ->
~ lets_go user (Verify disk3 b3 anchor3 now3 expired3) s5 ->
started s0 -> rtc (held user) s0 s1 -> verify_current disk1 b1 anchor1 now1 expired1 true s1 = (Ok v1, s2) ->
rtc (held user) s2 s3 -> verify_current disk2 b2 anchor2 now2 expired2 true s3 = (Ok v2, s4) ->
rtc (held user) s4 s5 -> verify_current disk3 b3 anchor3 now3 expired3 true s5 = (Ok v3, s6) ->
id ∈ (v_devices v1).*1 -> id ∉ (v_devices v2).*1 -> id ∉ (v_devices v3).*1.
Proof.
intros U1 U2 U3 N1 N2 N3 [O0 F0]%(started_ok user) R1 E1 R2 E2 R3 E3 Hin Hout.
pose proof (rtc_r _ _ _ R1 (verify_held _ _ _ _ _ _ _ _ _ N1 E1)) as T2.
pose proof (rtc_r _ _ _ R2 (verify_held _ _ _ _ _ _ _ _ _ N2 E2)) as T4.
pose proof (rtc_r _ _ _ R3 (verify_held _ _ _ _ _ _ _ _ _ N3 E3)) as T6.
destruct (verify_pins _ _ _ _ _ _ _ _ E1) as (p1 & G1 & D1). destruct (verify_pins _ _ _ _ _ _ _ _ E2) as (p2 & G2 & D2).
destruct (verify_pins _ _ _ _ _ _ _ _ E3) as (p3 & G3 & D3). rewrite U1 in G1. rewrite U2 in G2. rewrite U3 in G3.
destruct (held_ok _ _ _ O0 F0 T2) as (O2 & F2 & _). destruct (held_ok _ _ _ O2 F2 T4) as (O4 & F4 & A4).
destruct (held_ok _ _ _ O4 F4 T6) as (O6 & _ & A6).
destruct (A4 _ G1) as (p & Gp & _ & A12). rewrite G2 in Gp. injection Gp as <-.
destruct (A6 _ G2) as (p & Gp & _ & A23). rewrite G3 in Gp. injection Gp as <-.
rewrite D1 in Hin. rewrite D2 in Hout. rewrite D3. intros Hin3.
apply (po_revoked _ (so_pin _ _ O6 _ G3) id Hin3), (pa_revoked _ _ A23).
destruct (pa_left _ _ A12 id Hin); [tauto|done].
Qed.

(** A certificate and a device list have one text each: what is read of it is written as the
same bytes, and what is written is read back, so a signature of a body is a signature of its
content. *)
Theorem bodies_are_canonical :
(forall body c, parse_certificate body = Ok c <-> certificate_str c /\ serialize_certificate c = Ok body) /\
(forall body l, parse_list body = Ok l <-> list_str l /\ signer_listed l = true /\ serialize_list l = Ok body).
Proof.
split; intros body x.
- rewrite parse_certificate_ok, serialize_certificate_ok. tauto.
- rewrite parse_list_ok, serialize_list_ok. tauto.
Qed.

(** The checks of a bundle end, whatever the bundle and the store hold: no walk along signers
runs without end, also in a cycle, and no part of them panics. *)
Theorem verify_ends disk b anchor now allow_expired persist s :
safe (verify_current disk b anchor now allow_expired persist s).1.
Proof.
unfold verify_current. pose proof (check_bundle_safe b anchor now allow_expired s) as Hs.
destruct (check_bundle _ _ _ _ _) as [[pin v]|e|]; [|done..].
destruct (decide _); [done|]. destruct persist; [|done]. unfold save. destruct (to_vec _); [|done]. by destruct disk.
Qed.
End claims.

(** ** A new identity *)

Section fresh.
Context `{Uuids, Signatures, Sha256, Base64, Serde StoredPins}.
Context `{!SignaturesLaws, !Base64Laws}.

Lemma decode_base64_encoded l limit : len l <= limit -> limit < 2 ^ 60 -> decode (base64_encode l) limit = Ok l.
Proof.
intros Hl Hm. unfold decode, saturating_mul. pose proof (base64_size l) as Hs.
assert ((len l + 2) / 3 <= (limit + 2) / 3) as Hd by (apply N.Div0.div_le_mono; lia).
assert ((limit + 2) / 3 <= limit + 2) as Hd2 by (apply N.Div0.div_le_upper_bound; lia).
destruct (N.ltb_spec (N.min ((limit + 2) / 3 * 4) (U64 - 1)) (size_of (base64_encode l))) as [Hlt|_].
{ unfold U64 in Hlt. lia. }
rewrite base64_back. cbn -[N.ltb]. destruct (N.ltb_spec limit (len l)); [lia|done].
Qed.

Lemma verify_signed key_of prefix body signature context failed :
sign key_of (prefix ++ body) = Some signature ->
check_signature context failed prefix body signature (public_key key_of) = Ok tt.
Proof.
intros Hs. unfold check_signature. rewrite (sign_length _ _ _ Hs), (sign_verifies _ _ _ Hs). done.
Qed.

Lemma bind_step {E A B} (r : Result E A) (f : A -> Result E B) a : r = Ok a -> (r ≫= f) = f a.
Proof. by intros ->. Qed.

(** The one device of an identity, which signed its own certificate. *)
Lemma first_device_checked l entries c cb signature sg pair issued :
is_self_signed c = true -> parse_certificate cb = Ok c -> c_key c = public_key pair -> c_issued c = issued ->
is_valid_at c issued = true -> l_entries l = [MkEntry (c_device c) (c_signer c)] ->
sign pair (DEVICE_CERT_V3 ++ cb) = Some signature -> decode sg SIGNATURE_LIMIT = Ok signature ->
check_devices l entries [(c_device c, MkCertEnvelope (base64_encode cb) sg)] [(c_device c, (c, cb))] []
[(c_device c, (c, cb))] = Ok tt.
Proof.
intros Hself Hp Hk <- Hv Hl Hs Hd. pose proof Hself as Hsig%String.eqb_eq. cbn [check_devices].
rewrite (bind_step _ _ tt); [done|]. unfold check_device.
rewrite Hl. cbn [existsb e_device e_signer]. rewrite !String.eqb_refl, andb_false_r.
rewrite (bind_step _ _ tt) by done.
rewrite (bind_step _ _ c) by (rewrite Hsig; cbn; by rewrite decide_True).
rewrite (bind_step _ _ tt) by (by rewrite N.ltb_irrefl, Hv).
rewrite (bind_step _ _ (MkCertEnvelope (base64_encode cb) sg)) by (cbn; by rewrite decide_True).
cbn [ce_signature]. rewrite (bind_step _ _ signature) by done.
rewrite (bind_step _ _ c).
2: { unfold verify_certificate. rewrite (bind_step _ _ tt) by (rewrite Hk; by apply verify_signed).
rewrite (bind_step _ _ c) by done. rewrite Hself, bool_decide_eq_true_2 by done. done. }
cbn [validate_bootstrap_chain length]. rewrite (bind_step _ _ tt) by done.
rewrite (bind_step _ _ c) by (cbn; by rewrite decide_True). by rewrite Hself.
Qed.

Lemma open_encoded c cb sg : serialize_certificate c = Ok cb -> parse_certificate cb = Ok c ->
open_certificate (MkCertEnvelope (base64_encode cb) sg) = Ok (c, cb).
Proof.
intros Hs Hp. apply serialize_certificate_ok in Hs as [(_ & _ & _ & _ & _ & _ & Hm) E]. rewrite <- E in Hm.
unfold open_certificate. cbn [ce_certificate]. rewrite decode_base64_encoded by done. cbn. by rewrite Hp.
Qed.

(** C10. An identity that was just made is accepted where its root is approved: the certificate
that a device signs for itself and the list with it alone pass every check, and the device is
the one that is trusted. *)
Theorem new_identity_is_accepted user device label pair incarnation issued expires now s cert signed :
is_str user -> is_str device -> is_str label -> is_nil incarnation = false ->
build_self_cert user device label pair issued expires = Ok cert ->
build_bootstrap_list user device pair issued expires = Ok signed ->
issued <= now -> match expires with Some e => now < e | None => True end -> now < U64 ->
let root := root_of (sc_body cert) in
existing_pin s user (AnchorRoot root) = None ->
let b := MkBundle user incarnation (MkListEnvelope (base64_encode (sl_body signed)) (base64_encode (sl_signature signed)))
[MkCertEnvelope (base64_encode (sc_body cert)) (base64_encode (sc_signature cert))] [] in
exists pin v, check_bundle b (AnchorRoot root) now false s = Ok (pin, v) /\
v_devices v = [(device, MkCertificate user device label device (public_key pair) issued expires)] /\
v_root v = root /\ v_generation v = 1 /\ pin_revoked pin = ∅.
Proof.
intros Su Sd Sl Hnil Hc Hl Hi He Hn root Hex b.
unfold build_self_cert, sign_certificate in Hc. set (c := MkCertificate user _ _ _ _ _ _) in *.
unfold build_bootstrap_list, sign_list in Hl. set (l := MkList user _ _ _ _ _) in *. inv_ok.
rename a2 into cb, E2 into Ecb, a3 into cs, E3 into Ecs, a into lb, E into Elb, a1 into ls, E1 into Els. cbn [sc_body sc_signature sl_body sl_signature] in *.
assert (parse_certificate cb = Ok c) as Hpc by (by apply bodies_are_canonical).
assert (signer_listed l = true) as Hsl by (unfold signer_listed; cbn; by rewrite String.eqb_refl).
assert (parse_list lb = Ok l) as Hpl.
{ apply bodies_are_canonical. split; [|done]. split; [done|]. split; [done|]. by repeat constructor. }
pose proof (proj1 (serialize_list_ok _ _) Elb) as [(_ & _ & _ & _ & _ & Hlm) Hlb]. rewrite <- Hlb in Hlm.
pose proof (fun sg => open_encoded c cb sg Ecb Hpc) as Hopen.
assert (decode (base64_encode cs) SIGNATURE_LIMIT = Ok cs) as Hdcs by (apply decode_base64_encoded; [by rewrite (sign_length _ _ _ Ecs)|done]).
assert (decode (base64_encode ls) SIGNATURE_LIMIT = Ok ls) as Hdls by (apply decode_base64_encoded; [by rewrite (sign_length _ _ _ Els)|done]).
assert (is_self_signed c = true) as Hself by (unfold is_self_signed; cbn; by rewrite String.eqb_refl).
assert (saturating_add now SKEW <? issued = false) as Hskew by (apply N.ltb_ge; unfold saturating_add; lia).
assert (forall at', issued <= at' -> at' <= now -> is_valid_at c at' = true) as Hvalid.
{ intros at' ? ?. unfold is_valid_at. cbn. destruct expires; [apply N.ltb_lt; lia|done]. }
unfold check_bundle. subst b. cbn [b_incarnation b_devices b_list b_user b_chain le_body le_signature].
rewrite Hnil. rewrite (bind_step _ _ tt) by done.
rewrite (bind_step _ _ lb) by (by apply decode_base64_encoded). rewrite (bind_step _ _ ls) by done.
rewrite (bind_step _ _ l) by done. rewrite (bind_step _ _ tt) by (cbn; by rewrite String.eqb_refl).
rewrite (bind_step _ _ root).
2: { unfold bundle_root. cbn [b_devices b_chain app root_from]. rewrite (bind_step _ _ (Some root)); [done|].
rewrite (bind_step _ _ (c, cb)) by apply Hopen. cbv beta iota. by rewrite Hself. }
cbn zeta. rewrite Hex.
rewrite (bind_step _ _ tt) by (unfold check_anchor; by rewrite bool_decide_eq_false_2 by tauto).
rewrite (bind_step _ _ tt) by done.
rewrite (bind_step _ _ tt).
2: { unfold check_time. cbn [l_issued l_expires l]. rewrite Hskew. cbn. destruct expires as [e|]; cbn; [|done].
destruct (N.leb_spec e now); [lia|done]. }
rewrite (bind_step _ _ ([(device, MkCertEnvelope (base64_encode cb) (base64_encode cs))], [(device, (c, cb))])).
2: { cbn [read_devices]. rewrite (bind_step _ _ (c, cb)) by apply Hopen. cbv beta iota.
cbn [c_user c]. rewrite String.eqb_refl. cbn. rewrite Hskew, (Hvalid now) by lia. done. }
cbv beta iota. cbn [l_entries l fmap list_fmap e_device fst].
set (entries := list_to_set [device] : gset string).
assert (bool_decide (device ∈ entries) = true) as Hin by (apply bool_decide_eq_true; subst entries; set_solver).
rewrite (bind_step _ _ tt) by (rewrite bool_decide_eq_false_2; [done|tauto]).
rewrite (bind_step _ _ tt) by done. rewrite (bind_step _ _ ([(device, MkCertEnvelope (base64_encode cb) (base64_encode cs))], [(device, (c, cb))])) by done.
cbv beta iota. rewrite (bind_step _ _ []) by done.
rewrite (bind_step _ _ c) by (cbn; by rewrite decide_True).
rewrite (bind_step _ _ tt) by done.
rewrite (bind_step _ _ l) by (unfold verify_signed_device_list; rewrite (bind_step _ _ tt); [done|by apply verify_signed]).
rewrite (bind_step _ _ tt) by (apply (first_device_checked l entries c cb cs _ pair issued); try done; apply Hvalid; lia).
eexists _, _. split; [done|]. cbn [v_devices v_root v_generation pin_revoked List.filter fst snd]. rewrite Hin.
split; [done|]. split; [done|]. split; [done|]. unfold dropped. cbn [fmap list_fmap List.filter fst]. by rewrite Hin.
Qed.
End fresh.

(** ** An account with two devices

    The libraries are stand-ins: a signature is the sum of its message and the byte of the key,
    a hash is the sum of its message, base64 is the bytes themselves, and the file knows the
    stores of the example. *)
Module Example.
Definition sum (l : bytes) : N := fold_left (fun n b => n + Byte.to_N b) l 0.

Definition signature_of (k : Byte.byte) (message : bytes) : bytes := byte_of (sum message) :: repeat k 3308.

#[export] Instance uuids : Uuids := {| parse_uuid s := Some (bytes_of s); hyphenated := str_of |}.

#[export] Instance signatures : Signatures := {|
verify_sig key message signature := bool_decide (signature = signature_of (hd Byte.x00 key) message);
KeyPair := Byte.byte;
public_key k := repeat k 1952;
sign k message := Some (signature_of k message)
|}.

#[export] Instance signatures_laws : SignaturesLaws.
Proof.
constructor.
- intros k message signature [= <-]. cbn -[signature_of repeat]. by apply bool_decide_eq_true.
- intros k message signature [= <-]. unfold signature_of, len. cbn [length]. by rewrite repeat_length.
- intros k. unfold len. cbn -[repeat]. by rewrite repeat_length.
Qed.

#[export] Instance sha : Sha256 := {| sha256_of l := repeat Byte.x00 31 ++ [byte_of (sum l)] |}.
#[export] Instance base64 : Base64 := {| base64_encode := str_of; base64_decode s := Some (bytes_of s) |}.

Lemma size_str_of l : size_of (str_of l) = len l.
Proof. unfold size_of, str_of, len. f_equal. induction l as [|b l IH]; [done|]. cbn. by rewrite IH. Qed.

#[export] Instance base64_laws : Base64Laws.
Proof.
constructor.
- intros l. change (Some (bytes_of (str_of l)) = Some l). by rewrite bytes_of_str_of.
- intros l. change (size_of (str_of l) <= (len l + 2) / 3 * 4). rewrite size_str_of.
pose proof (N.div_mod (len l + 2) 3 ltac:(done)). pose proof (N.mod_lt (len l + 2) 3 ltac:(done)). lia.
Qed.

Definition user : string := "00000000-0000-4000-8000-000000000001".
Definition key_a : KeyPair := Byte.x41.
Definition key_b : KeyPair := Byte.x42.

Definition got {A} (dummy : A) (r : NR A) : A := match r with Ok a => a | _ => dummy end.

Definition envelope (r : NR SignedDeviceCertificate) : CertificateEnvelope :=
let c := got (MkSignedCertificate [] []) r in MkCertEnvelope (base64_encode (sc_body c)) (base64_encode (sc_signature c)).
Definition list_envelope (r : NR SignedDeviceListEnvelope) : DeviceListEnvelope :=
let l := got (MkSignedList [] []) r in MkListEnvelope (base64_encode (sl_body l)) (base64_encode (sl_signature l)).

Definition cert_a := build_self_cert user "a" "A" key_a 1000 None.
Definition cert_b := build_cert_for user "b" "B" (public_key key_b) "a" key_a 1100 None.
Definition entry_a := MkEntry "a" "a".
Definition entry_b := MkEntry "b" "a".
Definition list_1 := build_bootstrap_list user "a" key_a 1000 None.
Definition list_2 := build_replacement_list user 1 [entry_a] [entry_a; entry_b] "a" key_a 1100 None.
Definition list_3 := build_replacement_list user 2 [entry_a; entry_b] [entry_b] "b" key_b 1200 None.

Definition id_of : Uuid := repeat Byte.x01 16.
(** [a] alone, then both, then [b] alone. *)
Definition bundle_1 : IdentityBundle := MkBundle user id_of (list_envelope list_1) [envelope cert_a] [].
Definition bundle_2 : IdentityBundle := MkBundle user id_of (list_envelope list_2) [envelope cert_a; envelope cert_b] [].
Definition bundle_3 : IdentityBundle := MkBundle user id_of (list_envelope list_3) [envelope cert_b] [envelope cert_a].

Definition root : Root := root_of (sc_body (got (MkSignedCertificate [] []) cert_a)).

Definition no_list : SignedDeviceList := MkList "" 0 [] "" 0 None.
Definition no_pin : Pin := MkPin [] 0 "" "" [] ∅ [].
Definition checks (b : IdentityBundle) (anchor : Anchor) (s : Store) : Pin * VerifiedIdentity :=
got (no_pin, MkVerified 0 [] no_list []) (check_bundle b anchor 2000 false s).

Definition fresh : Store := MkStore [] None.

(** The two stores that the file can hold. *)
Definition stored_1 : StoredPins := MkStored 1 [(user, (checks bundle_2 (AnchorRoot root) fresh).1)].
Definition stored_2 : StoredPins := MkStored 1 [(user, (checks bundle_3 Pinned (MkStore (st_pins stored_1) None)).1)].

#[export] Instance StoredPins_eq_dec : EqDecision StoredPins.
Proof. solve_decision. Defined.

#[export] Instance serde : Serde StoredPins := {|
to_vec x := if decide (x = stored_1) then Some [Byte.x01] else if decide (x = stored_2) then Some [Byte.x02] else None;
from_slice l := match l with [Byte.x01] => Some stored_1 | [Byte.x02] => Some stored_2 | _ => None end
|}.

#[export] Instance serde_laws : SerdeLaws StoredPins.
Proof.
intros t text. cbn -[stored_1 stored_2]. destruct (decide (t = stored_1)) as [->|]; [by intros [= <-]|].
destruct (decide (t = stored_2)) as [->|]; [by intros [= <-]|done].
Qed.

(** Both devices are verified, then [b] alone, and that again. *)
Definition call_1 := verify_current Written bundle_2 (AnchorRoot root) 2000 false true fresh.
Definition call_2 := verify_current Written bundle_3 Pinned 2000 false true call_1.2.
Definition call_3 := verify_current Kept bundle_3 Pinned 3000 false true call_2.2.
(** The write of [b] alone fails once the file changed, and the program starts again. *)
Definition half := verify_current Replaced bundle_3 Pinned 2000 false true call_1.2.
Definition again : Store := got fresh (load (contents half.2)).

Definition is_ok {A} (r : NR A) : bool := match r with Ok _ => true | _ => false end.

Lemma got_ok {A} (d : A) (r : NR A) : is_ok r = true -> r = Ok (got d r).
Proof. by destruct r. Qed.

Definition verified (call : NR VerifiedIdentity * Store) : VerifiedIdentity := got (MkVerified 0 [] no_list []) call.1.

Lemma call_ok (call : NR VerifiedIdentity * Store) : is_ok call.1 = true -> call = (Ok (verified call), call.2).
Proof. destruct call as [r s]. cbn. intros E. unfold verified. by rewrite (got_ok (MkVerified 0 [] no_list []) r E) at 1. Qed.

Lemma fresh_started : started fresh.
Proof. exists fresh. split; [apply rtc_refl|]. by constructor. Qed.

Lemma pinned_holds disk b now allow_expired s : ~ lets_go user (Verify disk b Pinned now allow_expired) s.
Proof. intros [_ (? & ? & ? & _ & _ & ? & _)]. done. Qed.

Lemma fresh_holds disk b anchor now allow_expired : ~ lets_go user (Verify disk b anchor now allow_expired) fresh.
Proof. intros [_ (? & ? & ? & ? & _)]. done. Qed.

Lemma first_run : rtc (held user) fresh call_1.2.
Proof. apply rtc_once. eexists. split; [apply does_verify|apply fresh_holds]. Qed.

(** The write that fails, and the start after it. *)
Lemma again_run : rtc (held user) call_1.2 again.
Proof.
eapply rtc_l; [eexists; split; [apply (does_verify Replaced bundle_3 Pinned 2000 false)|apply pinned_holds]|].
apply rtc_once. exists Restart. split; [|intros []]. apply does_restart, got_ok. vm_compute. reflexivity.
Qed.

Lemma devices_trace_to_root_witness :
trusted_root fresh user = None /\ (v_devices (verified call_1)).*1 = ["a"; "b"] /\
(forall id c, (id, c) ∈ v_devices (verified call_1) -> c_device c = id /\ traced user root c).
Proof.
split; [reflexivity|]. split; [vm_compute; reflexivity|].
destruct (devices_trace_to_root Written bundle_2 (AnchorRoot root) 2000 false true fresh (verified call_1) call_1.2) as (Hr & _ & H & _).
- apply call_ok. vm_compute. reflexivity.
- cbn in Hr. rewrite Hr in H. intros id c Hin. destruct (H id c Hin) as (H1 & H2 & _). by split.
Defined.

Lemma newer_list_is_endorsed_witness :
l_signer (v_list (verified call_2)) = "b" /\
exists c, ("b", c) ∈ v_devices (verified call_2) /\ endorsed_by_pin (checks bundle_2 (AnchorRoot root) fresh).1 c.
Proof.
assert (l_signer (v_list (verified call_2)) = "b") as E by (vm_compute; reflexivity). split; [exact E|].
destruct (newer_list_is_endorsed Written bundle_3 Pinned 2000 false true call_1.2 (checks bundle_2 (AnchorRoot root) fresh).1
(verified call_2) call_2.2) as [[He _]|(_ & c & body & signature & Hin & _ & _ & He)].
- apply rtc_once. eexists. apply does_verify.
- vm_compute. reflexivity.
- apply call_ok. vm_compute. reflexivity.
- vm_compute. reflexivity.
- discriminate He.
- rewrite E in Hin. eauto.
Defined.

Definition holds (s : gset string) (id : string) : bool := bool_decide (id ∈ s).

Lemma removed_again : holds (pin_revoked (default no_pin (Map.get user (pins again)))) "a" = true.
Proof. vm_compute. reflexivity. Qed.

Lemma trust_moves_forward_witness :
is_ok half.1 = false /\ pin_generation <$> Map.get user (pins half.2) = Some 2 /\
pin_generation <$> Map.get user (pins again) = Some 3 /\
exists later, Map.get user (pins again) = Some later /\ "a" ∈ pin_revoked later /\
pin_revoked (checks bundle_2 (AnchorRoot root) fresh).1 ⊆ pin_revoked later /\
(forall id, is_Some (Map.get id (pin_certificates later)) -> id ∉ pin_revoked later).
Proof.
split; [vm_compute; reflexivity|]. split; [vm_compute; reflexivity|]. split; [vm_compute; reflexivity|].
destruct (trust_moves_forward user fresh call_1.2 again (checks bundle_2 (AnchorRoot root) fresh).1 fresh_started first_run)
as (later & Hg & _ & _ & _ & _ & Hr & Hn & Hl).
- vm_compute. reflexivity.
- exact again_run.
- exists later. split; [exact Hg|]. split; [|by split].
pose proof removed_again as Ha. rewrite Hg in Ha. by apply bool_decide_eq_true in Ha.
Defined.

Lemma removed_device_never_returns_witness :
"a" ∈ (v_devices (verified call_1)).*1 /\ "a" ∉ (v_devices (verified call_2)).*1 /\ "a" ∉ (v_devices (verified call_3)).*1.
Proof.
assert (bool_decide ("a" ∈ (v_devices (verified call_1)).*1) = true) as H1 by (vm_compute; reflexivity).
assert (bool_decide ("a" ∈ (v_devices (verified call_2)).*1) = false) as H2 by (vm_compute; reflexivity).
apply bool_decide_eq_true in H1. apply bool_decide_eq_false in H2. split; [exact H1|]. split; [exact H2|].
apply (removed_device_never_returns user fresh fresh call_1.2 call_1.2 call_2.2 call_2.2 call_3.2 Written Written Kept
bundle_2 bundle_3 bundle_3 (AnchorRoot root) Pinned Pinned 2000 2000 3000 false false false
(verified call_1) (verified call_2) (verified call_3)).
1-3: reflexivity. 1: apply fresh_holds. 1-2: apply pinned_holds. 1: apply fresh_started. 1: apply rtc_refl.
- apply call_ok. vm_compute. reflexivity.
- apply rtc_refl.
- apply call_ok. vm_compute. reflexivity.
- apply rtc_refl.
- apply call_ok. vm_compute. reflexivity.
- exact H1.
- exact H2.
Defined.

Lemma new_identity_is_accepted_witness :
exists pin v, check_bundle bundle_1 (AnchorRoot root) 2000 false fresh = Ok (pin, v) /\
v_devices v = [("a"%string, MkCertificate user "a" "A" "a" (public_key key_a) 1000 None)] /\ v_root v = root /\
v_generation v = 1 /\ pin_revoked pin = ∅.
Proof.
apply (new_identity_is_accepted user "a" "A" key_a id_of 1000 None 2000 fresh
(got (MkSignedCertificate [] []) cert_a) (got (MkSignedList [] []) list_1)).
- vm_compute. reflexivity.
- vm_compute. reflexivity.
- vm_compute. reflexivity.
- reflexivity.
- apply got_ok. vm_compute. reflexivity.
- apply got_ok. vm_compute. reflexivity.
- lia.
- exact I.
- vm_compute. reflexivity.
- reflexivity.
Defined.
End Example.
