(* ===== verification/Subscribers.v ===== *)
(** [runtime/src/terminal/subscribers.rs]: the views of a terminal on this computer, each with
    a queue of output and a queue of controls.

    A [Line] is a [Subscriber] with its [Subscription]: the two ends of the same queues.  A
    queue of [tokio] is the list of what waits in it; its sender has room while the list is
    shorter than its capacity.  The entry of a line is gone when it is not [l_open]: its
    senders are dropped, and so is its token. *)

From S2P Require Import Prelude Json Utf Terminal Wire.
Open Scope N_scope.

Definition DATA_CAPACITY : nat := 512.
Definition CONTROL_CAPACITY : nat := 16.
Definition MAX_SUBSCRIBERS : nat := 32.
Definition MAX_PENDING_RESIZES : nat := 32.
Definition MAX_RAW_BYTES : N := 64 * 1024.

Inductive SubError : Type := SubInvalid (reason : string) | SubBusy | SubStale.

Record DataFrame : Type := MkData { d_sequence : N; d_bytes : bytes }.

Inductive ControlFrame : Type :=
| Resize (rows cols : N) (cell : CellPixels) (at_sequence : N)
| Snapshot (checkpoint : Checkpoint) (next_sequence : N)
| Closed (reason : string) (final_sequence : N).

Inductive Frame : Type := Data (f : DataFrame) | Control (f : ControlFrame).

Record Size : Type := MkSize { z_rows : N; z_cols : N; z_cell : CellPixels; z_at : N }.

(** [CheckpointCut]. *)
Record Cut : Type := MkCut { cut_checkpoint : Checkpoint; cut_next : N }.

(** [Subscription], without its queues and ids. *)
Record Subscription : Type := MkSubscription {
next_sequence : N; resizes : list Size; closing : option (string * N); refreshed : option Cut
}.

Record Line : Type := MkLine {
l_data : list DataFrame; l_control : list ControlFrame; l_behind : bool;
l_alive : bool; l_open : bool; l_sub : Subscription
}.

Definition with_data (l : Line) data : Line := MkLine data (l_control l) (l_behind l) (l_alive l) (l_open l) (l_sub l).
Definition with_control (l : Line) control : Line := MkLine (l_data l) control (l_behind l) (l_alive l) (l_open l) (l_sub l).
Definition with_behind (l : Line) behind : Line := MkLine (l_data l) (l_control l) behind (l_alive l) (l_open l) (l_sub l).
Definition with_alive (l : Line) alive : Line := MkLine (l_data l) (l_control l) (l_behind l) alive (l_open l) (l_sub l).
Definition with_open (l : Line) open : Line := MkLine (l_data l) (l_control l) (l_behind l) (l_alive l) open (l_sub l).
Definition with_sub (l : Line) sub : Line := MkLine (l_data l) (l_control l) (l_behind l) (l_alive l) (l_open l) sub.

(** ** The end of the view *)

Definition invalid {A} (reason : string) : Result SubError A := Err (SubInvalid reason).

(** [Subscription::ready]: [take_if] and [pop_front_if] take what is due. *)
Definition ready (s : Subscription) : Result SubError (option Frame * Subscription) :=
let next := next_sequence s in
let resize :=
match resizes s with
| z :: rest =>
if z_at z <=? next then
if negb (z_at z =? next) then invalid "terminal resize arrived out of order"
else Ok (Some (Control (Resize (z_rows z) (z_cols z) (z_cell z) (z_at z))),
MkSubscription next rest (closing s) (refreshed s))
else
match closing s with
| Some (reason, last) =>
if last <=? next then
if last <? next then invalid "terminal close boundary regressed"
else Ok (Some (Control (Closed reason last)), MkSubscription next (resizes s) None (refreshed s))
else Ok (None, s)
| None => Ok (None, s)
end
| [] =>
match closing s with
| Some (reason, last) =>
if last <=? next then
if last <? next then invalid "terminal close boundary regressed"
else Ok (Some (Control (Closed reason last)), MkSubscription next [] None (refreshed s))
else Ok (None, s)
| None => Ok (None, s)
end
end in
match refreshed s with
| Some cut =>
if cut_next cut <=? next then
if cut_next cut <? next then invalid "terminal refresh snapshot regressed"
else Ok (Some (Control (Snapshot (cut_checkpoint cut) (cut_next cut))), MkSubscription next (resizes s) (closing s) None)
else resize
| None => resize
end.

(** How a turn of the loop of [recv] ended: it returned, it goes round again, or nothing is
there yet. *)
Inductive Turn : Type := Returns (f : option Frame) | Again | Waits.

(** The arm of [recv] for a control. *)
Definition take_control (f : ControlFrame) (s : Subscription) : Result SubError (Turn * Subscription) :=
match f with
| Resize rows cols cell at_sequence =>
if (MAX_PENDING_RESIZES <=? length (resizes s))%nat ||
match last (resizes s) with Some z => at_sequence <? z_at z | None => false end
then invalid "terminal resize queue exceeded its ordering bound"
else Ok (Again, MkSubscription (next_sequence s) (resizes s ++ [MkSize rows cols cell at_sequence]) (closing s) (refreshed s))
| Snapshot checkpoint next =>
if next <? next_sequence s then invalid "terminal snapshot regressed"
else Ok (Returns (Some (Control (Snapshot checkpoint next))), MkSubscription next [] (closing s) None)
| Closed reason final => Ok (Again, MkSubscription (next_sequence s) (resizes s) (Some (reason, final)) (refreshed s))
end.

(** The arm for output. *)
Definition take_data (f : DataFrame) (s : Subscription) : Result SubError (Turn * Subscription) :=
if d_sequence f <? next_sequence s then Ok (Again, s)
else if d_sequence f =? next_sequence s then
if next_sequence s + 1 <? U64
then Ok (Returns (Some (Data f)), MkSubscription (next_sequence s + 1) (resizes s) (closing s) (refreshed s))
else invalid "terminal output sequence exhausted"
else invalid "terminal output needs a fresh snapshot".

(** The [select!] of [recv]: controls first.  [late] is that what is there now came after the
queue of controls was looked at: it was empty then, and open. *)
Definition poll (late : bool) (l : Line) : Result SubError (Turn * Line) :=
let data :=
match l_data l with
| f :: rest => '(t, s) ← take_data f (l_sub l); Ok (t, with_sub (with_data l rest) s)
| [] =>
if l_open l then Ok (Waits, l)
else
let s := l_sub l in
Ok (Returns ((fun c : string * N => Control (Closed c.1 c.2)) <$> closing s),
with_sub l (MkSubscription (next_sequence s) (resizes s) None (refreshed s)))
end in
match closing (l_sub l), l_control l with
| None, f :: rest => if late then data else '(t, s) ← take_control f (l_sub l); Ok (t, with_sub (with_control l rest) s)
| None, [] => if late || l_open l then data else Ok (Returns None, l)
| Some _, _ => data
end.

(** A turn of the loop of [recv]. *)
Definition turn (late : bool) (l : Line) : Result SubError (Turn * Line) :=
'(f, s) ← ready (l_sub l);
match f with
| Some f => Ok (Returns (Some f), with_sub l s)
| None => poll late (with_sub l s)
end.

(** [recv], until it returns or waits. *)
Fixpoint recv (turns : nat) (l : Line) : Result SubError (Turn * Line) :=
match turns with
| O => Panic
| S turns =>
'(t, l) ← turn false l;
match t with Again => recv turns l | _ => Ok (t, l) end
end.

Definition refresh_view (cut : Cut) (l : Line) : Line :=
let s := l_sub l in with_sub l (MkSubscription (next_sequence s) (resizes s) (closing s) (Some cut)).

Definition can_refresh (l : Line) : bool :=
match refreshed (l_sub l), closing (l_sub l) with None, None => true | _, _ => false end.

(** Dropping the [Subscription]. *)
Definition drop_view (l : Line) : Line := with_alive l false.

(** ** The end of the terminal *)

(** [Subscriber::is_active]. *)
Definition is_active (l : Line) : bool := l_alive l && l_open l.

(** [Subscriber::caught_up]. *)
Definition line_caught_up (l : Line) : bool := l_behind l && is_active l && (length (l_data l) =? 0)%nat.

Definition is_snapshot (f : ControlFrame) : bool := match f with Snapshot _ _ => true | _ => false end.
Definition is_resize (f : ControlFrame) : bool := match f with Resize _ _ _ _ => true | _ => false end.

(** [try_send] of output. *)
Definition send_data (f : DataFrame) (l : Line) : option Line :=
if l_alive l && (length (l_data l) <? DATA_CAPACITY)%nat then Some (with_data l (l_data l ++ [f])) else None.

(** [Subscriber::deliver]: [None] is [false]. *)
Definition deliver (f : ControlFrame) (l : Line) : option Line :=
if negb (l_alive l) then None
else if (length (l_control l) <? CONTROL_CAPACITY)%nat then
let l := with_control l (l_control l ++ [f]) in
Some (if is_snapshot f then with_behind l false else l)
else Some (with_behind l true).

(** [HashMap::retain] of an entry. *)
Definition retain (l : Line) : Line := if is_active l then l else with_open l false.

(** The bodies of [Subscribers::data], [control], [refresh] and [close] for an entry. *)
Definition line_data (f : DataFrame) (l : Line) : Line :=
if negb (l_open l) then l
else retain
(if l_behind l then l
else if MAX_RAW_BYTES <? len (d_bytes f) then with_behind l true
else match send_data f l with Some l => l | None => with_behind l true end).

Definition line_control (f : ControlFrame) (l : Line) : Line :=
if negb (l_open l) then l
else if l_behind l && is_resize f then retain l
else if is_active l then match deliver f l with Some l => l | None => with_open l false end
else with_open l false.

Definition line_refresh (checkpoint : Checkpoint) (next : N) (l : Line) : Line :=
if negb (l_open l) then l
else if negb (line_caught_up l) then retain l
else match deliver (Snapshot checkpoint next) l with Some l => l | None => with_open l false end.

Definition line_close (reason : string) (final : N) (l : Line) : Line :=
if negb (l_open l) then l
else with_open
(if l_alive l && (length (l_control l) <? CONTROL_CAPACITY)%nat
then with_control l (l_control l ++ [Closed reason final]) else l) false.

(** [Subscribers]: every line that was made, with its id. *)
Abbreviation t := (gmap Uuid Line).

Definition entries (s : t) : t := filter (fun e : Uuid * Line => l_open e.2 = true) s.

Definition prune (s : t) : t := retain <$> s.
Definition data (f : DataFrame) (s : t) : t := line_data f <$> s.
Definition control (f : ControlFrame) (s : t) : t := line_control f <$> s.
Definition refresh (checkpoint : Checkpoint) (next : N) (s : t) : t := line_refresh checkpoint next <$> s.
Definition close (reason : string) (final : N) (s : t) : t := line_close reason final <$> s.
Definition remove (id : Uuid) (s : t) : t := alter (fun l => with_open l false) id s.

Definition new_line (next : N) : Line := MkLine [] [] false true true (MkSubscription next [] None None).

(** [subscribe]; [id] is the new id, which no line has. *)
Definition subscribe (id : Uuid) (next : N) (s : t) : Result SubError t :=
let s := prune s in
if (MAX_SUBSCRIBERS <=? size (entries s))%nat then Err SubBusy else Ok (<[id := new_line next]> s).

Definition authorization (id : Uuid) (s : t) : Result SubError unit :=
match s !! id with Some l => if is_active l then Ok tt else Err SubStale | None => Err SubStale end.

Definition contains (id : Uuid) (s : t) : bool := match s !! id with Some l => is_active l | None => false end.
Definition is_empty (s : t) : bool := (size (entries s) =? 0)%nat.
Definition any (p : Line -> bool) (s : t) : bool := existsb (fun e : Uuid * Line => p e.2) (map_to_list s).
Definition has_active (s : t) : bool := any is_active s.
Definition caught_up (s : t) : bool := any (fun l => l_open l && line_caught_up l) s.
Definition behind (s : t) : bool := any (fun l => l_behind l && is_active l) s.

(** [replay]. *)
Definition replay (id : Uuid) (frames : list DataFrame) (s : t) : bool * t :=
match s !! id with
| Some l =>
if negb (is_active l) then (false, s)
else if (DATA_CAPACITY - length (l_data l) <? length frames)%nat || existsb (fun f => MAX_RAW_BYTES <? len (d_bytes f)) frames
then (false, s)
else
let l' := foldl (fun l f => match send_data f l with Some l => l | None => l end) l frames in
(true, <[id := l']> s)
| None => (false, s)
end.
