(* ===== verification/SubscribersClaims.v ===== *)
(** What the views of a terminal on this computer see: each one is behind the terminal, never
    beside it.

    The terminal has a history of items: pieces of output, and sizes.  A frame that a view gets
    moves it along the history, to the next item or, with a snapshot, to a later point.  The
    invariant [Coming] says that what waits in the two queues of a line is the rest of that
    way. *)

From S2P Require Import Prelude Json Utf Terminal Wire Subscribers.
Open Scope N_scope.

(** What the terminal published. *)
Inductive Item : Type := Out (bytes : bytes) | Sized (rows cols : N) (cell : CellPixels).

Section claims.
(** The number of the first output, and which snapshots show the screen that a history makes. *)
Context (base : N) (shows : list Item -> Checkpoint -> Prop).
Implicit Types (h : list Item) (l : Line).

(** ** Histories *)

Definition is_out (i : Item) : bool := match i with Out _ => true | _ => false end.

(** The number of the first output that is not in [h]. *)
Definition upto (h : list Item) : N := base + N.of_nat (count_occ Bool.bool_dec (map is_out h) true).

(** The number that the output at a place of the history has. *)
Definition seq_at (h : list Item) (p : nat) : N := upto (take p h).

(** The frames of output, and the sizes, from number [s] on. *)
Fixpoint outs (s : N) (h : list Item) : list DataFrame :=
match h with
| [] => []
| Out b :: h => MkData s b :: outs (s + 1) h
| Sized _ _ _ :: h => outs s h
end.

Fixpoint sizes (s : N) (h : list Item) : list Size :=
match h with
| [] => []
| Out _ :: h => sizes (s + 1) h
| Sized rows cols cell :: h => MkSize rows cols cell s :: sizes s h
end.

(** The items from [q] to [m]. *)
Definition seg (h : list Item) (q m : nat) : list Item := take (m - q) (drop q h).

Section view.
(** Whether the view asked for the screen itself. *)
Context (asks : bool).

(** A view at a place of the history, the frames that it gets, and the place where it is then.
The screen that a view asked for is that of a moment with the same output; it moves nothing. *)
Inductive follows (h : list Item) : nat -> list Frame -> nat -> Prop :=
| follows_nil p : follows h p [] p
| follows_out p b fs q :
h !! p = Some (Out b) -> follows h (S p) fs q -> follows h p (Data (MkData (seq_at h p) b) :: fs) q
| follows_size p rows cols cell fs q :
h !! p = Some (Sized rows cols cell) -> follows h (S p) fs q ->
follows h p (Control (Resize rows cols cell (seq_at h p)) :: fs) q
| follows_snapshot p p' c fs q :
(p <= p' <= length h)%nat -> shows (take p' h) c -> follows h p' fs q ->
follows h p (Control (Snapshot c (seq_at h p')) :: fs) q
| follows_asked p p' c fs q :
asks = true -> (p' <= length h)%nat -> seq_at h p' = seq_at h p -> shows (take p' h) c -> follows h p fs q ->
follows h p (Control (Snapshot c (seq_at h p)) :: fs) q
| follows_closed p reason final fs q :
seq_at h p <= final -> follows h p fs q -> follows h p (Control (Closed reason final) :: fs) q.

(** What waits when no control does: output of before [q], and then the way from [q] to [m]. *)
Definition arriving (h : list Item) (q : nat) (R : list Size) (D : list DataFrame) (m : nat) : Prop :=
(q <= m <= length h)%nat /\ sizes (seq_at h q) (seg h q m) = R /\
exists stale, D = stale ++ outs (seq_at h q) (seg h q m) /\ Forall (fun f => d_sequence f < seq_at h q) stale.

(** What waits for a view at [q] with the sizes [R] in hand, the controls [C] and the output
[D], and that it ends at [m]. *)
Fixpoint coming (h : list Item) (q : nat) (R : list Size) (C : list ControlFrame) (D : list DataFrame) (m : nat) : Prop :=
match C with
| [] => arriving h q R D m
| Resize rows cols cell at_sequence :: C => coming h q (R ++ [MkSize rows cols cell at_sequence]) C D m
| Snapshot c n :: C => exists m1 p',
(q <= m1 <= p')%nat /\ (p' <= length h)%nat /\ sizes (seq_at h q) (seg h q m1) = R /\
shows (take p' h) c /\ n = seq_at h p' /\ coming h p' [] C D m
| Closed _ final :: C => C = [] /\ seq_at h m <= final /\ arriving h q R D m
end.

Definition is_closed (f : ControlFrame) : bool := match f with Closed _ _ => true | _ => false end.

(** A screen that a view asked for: that of a moment of the history. *)
Definition honest (h : list Item) (cut : Cut) : Prop :=
exists p, (p <= length h)%nat /\ shows (take p h) (cut_checkpoint cut) /\ cut_next cut = seq_at h p.

(** A line whose view is at [q]. *)
Record good (h : list Item) (q : nat) (l : Line) : Prop := {
g_next : next_sequence (l_sub l) = seq_at h q;
g_refreshed : forall cut, refreshed (l_sub l) = Some cut -> asks = true /\ honest h cut;
g_resizes : (length (resizes (l_sub l)) <= MAX_PENDING_RESIZES)%nat;
g_coming : exists m,
coming h q (resizes (l_sub l)) (l_control l) (l_data l) m /\
(forall c, closing (l_sub l) = Some c -> l_control l = [] /\ seq_at h m <= c.2) /\
(l_open l = true -> closing (l_sub l) = None /\ existsb is_closed (l_control l) = false /\
(l_behind l = false -> m = length h))
}.

(** ** Lemmas on histories *)

Lemma upto_app h h' : upto (h ++ h') = upto h + upto h' - base.
Proof. unfold upto. rewrite map_app, count_occ_app. lia. Qed.

Lemma upto_out h b : upto (h ++ [Out b]) = upto h + 1.
Proof. rewrite upto_app. unfold upto; cbn. lia. Qed.

Lemma upto_sized h r c k : upto (h ++ [Sized r c k]) = upto h.
Proof. rewrite upto_app. unfold upto; cbn. lia. Qed.

Lemma seq_mono h p q : (p <= q)%nat -> seq_at h p <= seq_at h q.
Proof.
intros Hpq. unfold seq_at. rewrite <- (take_drop p (take q h)), upto_app, take_take.
replace (p `min` q)%nat with p by lia. unfold upto at 3. lia.
Qed.

Lemma seq_grow h i p : (p <= length h)%nat -> seq_at (h ++ i) p = seq_at h p.
Proof. intros. unfold seq_at. by rewrite take_app_le. Qed.

Lemma seq_all h : seq_at h (length h) = upto h.
Proof. unfold seq_at. by rewrite firstn_all. Qed.

Lemma seq_out h p b : h !! p = Some (Out b) -> seq_at h (S p) = seq_at h p + 1.
Proof. intros E. unfold seq_at. by rewrite (take_S_r _ _ _ E), upto_out. Qed.

Lemma seq_sized h p r c k : h !! p = Some (Sized r c k) -> seq_at h (S p) = seq_at h p.
Proof. intros E. unfold seq_at. by rewrite (take_S_r _ _ _ E), upto_sized. Qed.

Lemma seg_nil h q : seg h q q = [].
Proof. unfold seg. by rewrite Nat.sub_diag. Qed.

Lemma seg_grow h i q m : (q <= m <= length h)%nat -> seg (h ++ i) q m = seg h q m.
Proof.
intros Hm. unfold seg. rewrite drop_app_le by lia. rewrite take_app_le; [done|]. rewrite length_drop. lia.
Qed.

Lemma seg_cons h q m i : h !! q = Some i -> (q < m)%nat -> seg h q m = i :: seg h (S q) m.
Proof.
intros E Hm. unfold seg. rewrite (drop_S _ _ _ E). by replace (m - q)%nat with (S (m - S q)) by lia.
Qed.

(** What the next item is, when the way goes on. *)
Lemma seg_next h q m : (q <= m <= length h)%nat -> q = m \/ exists i, h !! q = Some i /\ (q < m)%nat.
Proof.
intros Hm. destruct (decide (q = m)) as [|Hn]; [by left|right].
destruct (lookup_lt_is_Some_2 h q) as [i E]; [lia|]. exists i. split; [done|lia].
Qed.

Lemma outs_app s h h' : outs s (h ++ h') = outs s h ++ outs (s + (upto h - base)) h'.
Proof.
revert s. induction h as [|[b|r c k] h IH]; intros s; cbn.
- f_equal. unfold upto; cbn. lia.
- rewrite IH. f_equal. f_equal. f_equal. unfold upto; cbn. lia.
- rewrite IH. f_equal.
Qed.

Lemma sizes_app s h h' : sizes s (h ++ h') = sizes s h ++ sizes (s + (upto h - base)) h'.
Proof.
revert s. induction h as [|[b|r c k] h IH]; intros s; cbn.
- f_equal. unfold upto; cbn. lia.
- rewrite IH. f_equal. f_equal. unfold upto; cbn. lia.
- rewrite IH. f_equal. 
Qed.

Lemma seg_snoc h q i : (q <= length h)%nat -> seg (h ++ [i]) q (S (length h)) = seg h q (length h) ++ [i].
Proof.
intros Hq. unfold seg. rewrite drop_app_le by lia.
rewrite !take_ge; [done|rewrite length_drop; lia|rewrite length_app, length_drop; cbn; lia].
Qed.

Lemma seg_seq h q m : (q <= m)%nat -> seq_at h q + (upto (seg h q m) - base) = seq_at h m.
Proof.
intros Hm. unfold seg, seq_at.
replace (take m h) with (take q h ++ take (m - q) (drop q h)).
- rewrite upto_app. unfold upto at 2 4. lia.
- rewrite take_drop_commute. replace (q + (m - q))%nat with m by lia.
rewrite <- (take_drop q (take m h)) at 2. rewrite take_take. by replace (q `min` m)%nat with q by lia.
Qed.

Lemma outs_le s h f : f ∈ outs s h -> s <= d_sequence f < s + (upto h - base).
Proof.
revert s. induction h as [|[b|r c k] h IH]; intros s; cbn; [by intros ?%elem_of_nil|..].
- intros [->|Hf%IH]%elem_of_cons; unfold upto in *; cbn; lia.
- intros Hf%IH. unfold upto in *; cbn. lia.
Qed.

Lemma sizes_le s h z : z ∈ sizes s h -> s <= z_at z <= s + (upto h - base).
Proof.
revert s. induction h as [|[b|r c k] h IH]; intros s; cbn; [by intros ?%elem_of_nil|..].
- intros Hz%IH. unfold upto in *; cbn. lia.
- intros [->|Hz%IH]%elem_of_cons; unfold upto in *; cbn; [lia|]. lia.
Qed.

(** Sizes come in order. *)
Lemma sizes_sorted s h R z R' : sizes s h = R ++ z :: R' -> forall y, y ∈ R -> z_at y <= z_at z.
Proof.
revert s R. induction h as [|[b|r c k] h IH]; intros s R; cbn.
- by destruct R.
- intros E. by apply (IH _ _ E).
- destruct R as [|x R]; cbn; [by intros _ y ?%elem_of_nil|]. intros E0 y Hy. injection E0 as <- E. apply elem_of_cons in Hy as [->|Hy].
+ cbn. assert (z ∈ sizes s h) as Hz%sizes_le by (rewrite E, elem_of_app, elem_of_cons; auto). lia.
+ by apply (IH _ _ E).
Qed.

Lemma follows_app h p fs q gs r : follows h p fs q -> follows h q gs r -> follows h p (fs ++ gs) r.
Proof. induction 1; cbn; intros; [done|..|by eapply follows_asked; eauto|]; constructor; auto. Qed.

Lemma follows_grow h i p fs q : (p <= length h)%nat -> follows h p fs q -> follows (h ++ i) p fs q.
Proof.
intros Hp H. induction H as [p|p b fs q E H IH|p r c k fs q E H IH|p p' c fs q Hq Hc H IH|p p' c fs q Ha Hq Es Hc H IH|p r f fs q Hf H IH].
- constructor.
- pose proof (lookup_lt_Some _ _ _ E). rewrite <- (seq_grow h i p) by lia.
constructor; [by apply lookup_app_l_Some|apply IH; lia].
- pose proof (lookup_lt_Some _ _ _ E). rewrite <- (seq_grow h i p) by lia.
constructor; [by apply lookup_app_l_Some|apply IH; lia].
- rewrite <- (seq_grow h i p') by lia.
constructor; [rewrite length_app; lia|by rewrite take_app_le by lia|apply IH; lia].
- rewrite <- (seq_grow h i p) by lia.
apply (follows_asked (h ++ i) p p'); [done|rewrite length_app; lia|by rewrite !seq_grow by lia|by rewrite take_app_le by lia|by apply IH].
- constructor; [by rewrite seq_grow|by apply IH].
Qed.

Lemma honest_grow h i cut : honest h cut -> honest (h ++ i) cut.
Proof.
intros (p & Hp & Hs & E). exists p. rewrite length_app, take_app_le, seq_grow by lia. split_and!; [lia|done|done].
Qed.
(** ** Lemmas on what waits *)

Lemma coming_bounds h q R C D m : coming h q R C D m -> (q <= m <= length h)%nat.
Proof.
revert q R. induction C as [|[r c k a|c n|reason f] C IH]; intros q R; cbn.
- by intros [? _].
- apply IH.
- intros (m1 & p' & ? & ? & _ & _ & _ & H%IH). lia.
- by intros (_ & _ & ? & _).
Qed.

(** The sizes in hand are the next ones of the history. *)
Lemma coming_prefix h q R C D m :
coming h q R C D m -> exists m1 R', sizes (seq_at h q) (seg h q m1) = R ++ R'.
Proof.
revert R. induction C as [|[r c k a|c n|reason f] C IH]; intros R; cbn.
- intros (_ & E & _). exists m, []. by rewrite app_nil_r.
- intros (m1 & R' & E)%IH. eexists m1, _. by rewrite E, <- app_assoc.
- intros (m1 & p' & _ & _ & E & _). exists m1, []. by rewrite app_nil_r.
- intros (_ & _ & _ & E & _). exists m, []. by rewrite app_nil_r.
Qed.

(** The output that waits is of the history. *)
Lemma coming_below h q R C D m : coming h q R C D m -> Forall (fun f => d_sequence f < upto h) D.
Proof.
assert (forall q R, arriving h q R D m -> Forall (fun f => d_sequence f < upto h) D) as Ha.
{ intros q' R' (Hm & _ & stale & -> & Hs). apply Forall_app. split.
- eapply Forall_impl; [exact Hs|]. cbn. intros f Hf. pose proof (seq_mono h q' (length h) ltac:(lia)). rewrite seq_all in *. lia.
- apply Forall_forall. intros f Hf%outs_le. rewrite seg_seq in Hf by lia.
pose proof (seq_mono h m (length h) ltac:(lia)). rewrite seq_all in *. lia. }
revert q R. induction C as [|[r c k a|c n|reason f] C IH]; intros q R; cbn.
- apply Ha.
- apply IH.
- intros (m1 & p' & _ & _ & _ & _ & _ & H). by eapply IH.
- intros (_ & _ & H). by eapply Ha.
Qed.

Ltac grown :=
repeat match goal with
| |- context [seq_at (?h ++ ?i) ?p] => rewrite (seq_grow h i p) by lia
| |- context [seg (?h ++ ?i) ?p ?m] => rewrite (seg_grow h i p m) by lia
| |- context [take ?p (?h ++ ?i)] => rewrite (take_app_le h i p) by lia
end; rewrite ?length_app.

Lemma arriving_grow h i q R D m : arriving h q R D m -> arriving (h ++ i) q R D m.
Proof. intros (Hm & E & stale & E' & Hs). unfold arriving. grown. split_and!; [lia|lia|done|by exists stale]. Qed.

Lemma coming_grow h i q R C D m : coming h q R C D m -> coming (h ++ i) q R C D m.
Proof.
revert q R. induction C as [|[r c k a|c n|reason f] C IH]; intros q R; cbn.
- apply arriving_grow.
- apply IH.
- intros (m1 & p' & ? & ? & E & ? & ? & H). exists m1, p'. grown. split_and!; try done; try lia. by apply IH.
- intros (-> & ? & Ha). pose proof Ha as [? _]. grown. split_and!; [done..|by apply arriving_grow].
Qed.

(** Where the way ends, another item can follow. *)
Lemma arriving_out h q R D b :
arriving h q R D (length h) -> arriving (h ++ [Out b]) q R (D ++ [MkData (upto h) b]) (S (length h)).
Proof.
intros (Hm & <- & stale & -> & Hs). unfold arriving. grown. cbn.
rewrite seg_snoc, sizes_app, outs_app, seg_seq, seq_all, app_nil_r by lia. cbn.
split_and!; [lia|lia|done|]. exists stale. by rewrite app_assoc.
Qed.

Lemma arriving_sized h q R D r c k :
arriving h q R D (length h) -> arriving (h ++ [Sized r c k]) q (R ++ [MkSize r c k (upto h)]) D (S (length h)).
Proof.
intros (Hm & <- & stale & -> & Hs). unfold arriving. grown. cbn.
rewrite seg_snoc, sizes_app, outs_app, seg_seq, seq_all, app_nil_r by lia. cbn.
split_and!; [lia|lia|done|]. by exists stale.
Qed.

Lemma coming_out h q R C D b :
existsb is_closed C = false -> coming h q R C D (length h) ->
coming (h ++ [Out b]) q R C (D ++ [MkData (upto h) b]) (S (length h)).
Proof.
revert q R. induction C as [|[r c k a|c n|reason f] C IH]; intros q R; cbn; intros Hc; [apply arriving_out|by apply IH| |done].
intros (m1 & p' & ? & ? & E & ? & ? & H). exists m1, p'. grown. split_and!; try done; try lia. by apply IH.
Qed.

Lemma coming_sized h q R C D r c k :
existsb is_closed C = false -> coming h q R C D (length h) ->
coming (h ++ [Sized r c k]) q R (C ++ [Resize r c k (upto h)]) D (S (length h)).
Proof.
revert q R. induction C as [|[r' c' k' a|c' n|reason f] C IH]; intros q R; cbn; intros Hc; [apply arriving_sized|by apply IH| |done].
intros (m1 & p' & ? & ? & E & ? & ? & H). exists m1, p'. grown. split_and!; try done; try lia. by apply IH.
Qed.

(** A snapshot goes over what was not told. *)
Lemma coming_snapshot h i q R C D m c :
shows (h ++ i) c -> existsb is_closed C = false -> coming h q R C D m ->
coming (h ++ i) q R (C ++ [Snapshot c (upto (h ++ i))]) D (length (h ++ i)).
Proof.
intros Hshows. revert q R. induction C as [|[r' c' k' a|c' n|reason f] C IH]; intros q R; cbn; intros Hc; [|by apply IH| |done].
- intros Ha. pose proof (coming_below h q R [] D m Ha) as Hd. destruct Ha as (Hm & E & _).
exists m, (length (h ++ i)). rewrite firstn_all, seq_all. grown. split_and!; try done; try lia.
unfold arriving. rewrite <- length_app, seg_nil, seq_all. cbn. split_and!; [lia|lia|done|].
exists D. split; [by rewrite app_nil_r|]. eapply Forall_impl; [exact Hd|]. cbn. intros f ?.
rewrite upto_app. unfold upto at 2. lia.
- intros (m1 & p' & ? & ? & E & ? & ? & H). exists m1, p'. grown. split_and!; try done; try lia. rewrite <- length_app. by apply IH.
Qed.

Lemma coming_close h q R C D m reason :
existsb is_closed C = false -> coming h q R C D m -> coming h q R (C ++ [Closed reason (upto h)]) D m.
Proof.
revert q R. induction C as [|[r' c' k' a|c' n|reason' f] C IH]; intros q R; cbn; intros Hc; [|by apply IH| |done].
- intros Ha. pose proof Ha as [? _]. rewrite <- seq_all. split_and!; try done. apply seq_mono. lia.
- intros (m1 & p' & ? & ? & E & ? & ? & H). exists m1, p'. split_and!; try done; try lia. by apply IH.
Qed.

(** A size that is due is the next item. *)
Lemma next_sized h q m z R :
(q <= m <= length h)%nat -> sizes (seq_at h q) (seg h q m) = z :: R -> z_at z <= seq_at h q ->
h !! q = Some (Sized (z_rows z) (z_cols z) (z_cell z)) /\ z_at z = seq_at h q /\ (q < m)%nat /\
sizes (seq_at h (S q)) (seg h (S q) m) = R /\
outs (seq_at h q) (seg h q m) = outs (seq_at h (S q)) (seg h (S q) m).
Proof.
intros Hm E Hz. destruct (seg_next h q m Hm) as [->|([b|r c k] & Ei & Hlt)].
- by rewrite seg_nil in E.
- rewrite (seg_cons _ _ _ _ Ei Hlt) in E. cbn in E.
assert (z ∈ sizes (seq_at h q + 1) (seg h (S q) m)) as ?%sizes_le by (rewrite E; left). lia.
- rewrite (seg_cons _ _ _ _ Ei Hlt) in *. cbn in *. rewrite (seq_sized _ _ _ _ _ Ei). injection E as <- E. done.
Qed.

Lemma arriving_pop_size h q z R D m :
arriving h q (z :: R) D m -> z_at z <= seq_at h q ->
h !! q = Some (Sized (z_rows z) (z_cols z) (z_cell z)) /\ z_at z = seq_at h q /\ arriving h (S q) R D m.
Proof.
intros (Hm & E & stale & -> & Hs) Hz. destruct (next_sized h q m z R Hm E Hz) as (Ei & ? & ? & ? & Eo).
split_and!; [done..|]. split; [lia|]. split; [done|]. exists stale. rewrite <- Eo. split; [done|].
by rewrite (seq_sized _ _ _ _ _ Ei).
Qed.

Lemma coming_pop_size h q z R C D m :
coming h q (z :: R) C D m -> z_at z <= seq_at h q ->
h !! q = Some (Sized (z_rows z) (z_cols z) (z_cell z)) /\ z_at z = seq_at h q /\ coming h (S q) R C D m.
Proof.
intros H Hz. revert R H. induction C as [|[r' c' k' a|c' n|reason' f] C IH]; intros R; cbn.
- intros Ha. by apply arriving_pop_size.
- intros H. by apply (IH (R ++ [_])).
- intros (m1 & p' & ? & ? & E & ? & ? & H). destruct (next_sized h q m1 z R) as (? & ? & ? & ? & _); [lia|done..|].
split_and!; [done..|]. exists m1, p'. split_and!; try done; lia.
- intros (? & ? & Ha). destruct (arriving_pop_size h q z R D m Ha Hz) as (? & ? & ?). split_and!; done.
Qed.

(** Output that waits, when no size is due: it is old, or it is the next item. *)
Lemma arriving_pop_out h q R f D m :
arriving h q R (f :: D) m -> (forall z, head R = Some z -> seq_at h q < z_at z) ->
(d_sequence f < seq_at h q /\ arriving h q R D m) \/
(h !! q = Some (Out (d_bytes f)) /\ d_sequence f = seq_at h q /\ arriving h (S q) R D m).
Proof.
intros (Hm & E & [|f' stale] & E' & Hs) Hz; cbn in E'.
- right. destruct (seg_next h q m Hm) as [->|([b|r c k] & Ei & Hlt)].
+ by rewrite seg_nil in E'.
+ rewrite (seg_cons _ _ _ _ Ei Hlt) in E, E'. cbn in *. injection E' as -> ->. split_and!; [done..|].
split; [lia|]. rewrite (seq_out _ _ _ Ei). split; [done|]. by exists [].
+ rewrite (seg_cons _ _ _ _ Ei Hlt) in E. cbn in E. subst R. specialize (Hz _ eq_refl). cbn in Hz. lia.
- left. injection E' as -> ->. apply Forall_cons in Hs as [? Hs]. split; [done|]. split; [done|]. split; [done|]. by exists stale.
Qed.

(** When nothing waits, the view is at the end of the way. *)
Lemma arriving_nil h q R m :
arriving h q R [] m -> (forall z, head R = Some z -> seq_at h q < z_at z) -> q = m.
Proof.
intros (Hm & E & stale & E' & _) Hz. symmetry in E'. apply app_eq_nil in E' as [-> E'].
destruct (seg_next h q m Hm) as [->|([b|r c k] & Ei & Hlt)]; [done|..].
- rewrite (seg_cons _ _ _ _ Ei Hlt) in E'. done.
- rewrite (seg_cons _ _ _ _ Ei Hlt) in E. cbn in E. subst R. specialize (Hz _ eq_refl). cbn in Hz. lia.
Qed.

(** ** The end of the view *)

(** Nothing that is in hand is due. *)
Definition nothing_due (h : list Item) (q : nat) (s : Subscription) : Prop :=
(forall z, head (resizes s) = Some z -> seq_at h q < z_at z) /\
(forall c, closing s = Some c -> seq_at h q < c.2) /\
(forall cut, refreshed s = Some cut -> seq_at h q < cut_next cut).

(** The view asked for a screen, and has output that came after it. *)
Definition too_old (h : list Item) (q : nat) (l : Line) (e : SubError) : Prop :=
e = SubInvalid "terminal refresh snapshot regressed" /\
exists cut, refreshed (l_sub l) = Some cut /\ cut_next cut < seq_at h q.

(** What [ready] says of a line whose view is at [q]. *)
Definition ready_said (h : list Item) (q : nat) (l : Line) (r : Result SubError (option Frame * Subscription)) : Prop :=
match r with
| Ok (Some f, s) => exists q', follows h q [f] q' /\ good h q' (with_sub l s)
| Ok (None, s) => s = l_sub l /\ nothing_due h q s
| Err e => too_old h q l e
| Panic => False
end.

Lemma closing_taken h q l c :
good h q l -> closing (l_sub l) = Some c ->
good h q (with_sub l (MkSubscription (next_sequence (l_sub l)) (resizes (l_sub l)) None (refreshed (l_sub l)))).
Proof.
intros [Hn Hr Hl (m & Hc & _ & Ho)] Ec. constructor; cbn; try done.
exists m. split; [done|]. split; [done|]. intros [? _]%Ho. congruence.
Qed.

Lemma size_taken h q l z rest :
good h q l -> resizes (l_sub l) = z :: rest -> z_at z <= seq_at h q ->
z_at z = seq_at h q /\ h !! q = Some (Sized (z_rows z) (z_cols z) (z_cell z)) /\
good h (S q) (with_sub l (MkSubscription (next_sequence (l_sub l)) rest (closing (l_sub l)) (refreshed (l_sub l)))).
Proof.
intros [Hn Hr Hl (m & Hc & Hcl & Ho)] Ez Hz. rewrite Ez in Hc, Hl. cbn in Hl.
destruct (coming_pop_size _ _ _ _ _ _ _ Hc Hz) as (Ei & Ea & Hc').
split; [done|]. split; [done|]. constructor; cbn; try done; [by rewrite Hn, (seq_sized _ _ _ _ _ Ei)|lia|by exists m].
Qed.

Lemma closing_good h q l :
good h q l -> (forall cut, refreshed (l_sub l) = Some cut -> seq_at h q < cut_next cut) -> resizes (l_sub l) = [] \/ (exists z rest, resizes (l_sub l) = z :: rest /\ seq_at h q < z_at z) ->
ready_said h q l
(match closing (l_sub l) with
| Some (reason, last) =>
if last <=? next_sequence (l_sub l) then
if last <? next_sequence (l_sub l) then invalid "terminal close boundary regressed"
else Ok (Some (Control (Closed reason last)), MkSubscription (next_sequence (l_sub l)) (resizes (l_sub l)) None (refreshed (l_sub l)))
else Ok (None, l_sub l)
| None => Ok (None, l_sub l)
end).
Proof.
intros Hg Hre Hres. pose proof Hg as [Hn _ _ (m & Hc & Hcl & _)]. rewrite Hn.
assert (forall z, head (resizes (l_sub l)) = Some z -> seq_at h q < z_at z) as Hz.
{ destruct Hres as [->|(z & rest & -> & ?)]; [done|]. by intros ? [= <-]. }
destruct (closing (l_sub l)) as [[reason final]|] eqn:Ec; [|by split; [|split; [|split; [congruence|]]]].
destruct (Hcl _ eq_refl) as [_ Hm]. cbn in Hm. pose proof (seq_mono h q m ltac:(eapply coming_bounds; eauto)).
destruct (N.leb_spec final (seq_at h q)).
- destruct (N.ltb_spec final (seq_at h q)); [lia|]. cbn. exists q. split.
+ constructor; [lia|constructor].
+ rewrite <- Hn. by eapply closing_taken.
- cbn. split; [done|]. split; [done|]. split; [|done]. intros c E. rewrite Ec in E. by injection E as <-.
Qed.

(** The screen that a view asked for, at its time. *)
Lemma refreshed_good h q l cut :
good h q l -> refreshed (l_sub l) = Some cut -> cut_next cut = seq_at h q ->
exists q', follows h q [Control (Snapshot (cut_checkpoint cut) (cut_next cut))] q' /\
good h q' (with_sub l (MkSubscription (next_sequence (l_sub l)) (resizes (l_sub l)) (closing (l_sub l)) None)).
Proof.
intros [Hn Hr Hl Hc] E Ea. destruct (Hr _ E) as [Hk (p & Hp & Hs & Ep)]. exists q. split.
- rewrite Ea. apply (follows_asked h q p); [done|done|congruence|done|constructor].
- by constructor.
Qed.

Lemma ready_good h q l : good h q l -> ready_said h q l (ready (l_sub l)).
Proof.
intros Hg. pose proof Hg as [Hn Hr _ _]. unfold ready.
assert ((forall cut, refreshed (l_sub l) = Some cut -> seq_at h q < cut_next cut) -> ready_said h q l
(match resizes (l_sub l) with
| z :: rest =>
if z_at z <=? next_sequence (l_sub l) then
if negb (z_at z =? next_sequence (l_sub l)) then invalid "terminal resize arrived out of order"
else Ok (Some (Control (Resize (z_rows z) (z_cols z) (z_cell z) (z_at z))),
MkSubscription (next_sequence (l_sub l)) rest (closing (l_sub l)) (refreshed (l_sub l)))
else
match closing (l_sub l) with
| Some (reason, last) =>
if last <=? next_sequence (l_sub l) then
if last <? next_sequence (l_sub l) then invalid "terminal close boundary regressed"
else Ok (Some (Control (Closed reason last)), MkSubscription (next_sequence (l_sub l)) (resizes (l_sub l)) None (refreshed (l_sub l)))
else Ok (None, l_sub l)
| None => Ok (None, l_sub l)
end
| [] =>
match closing (l_sub l) with
| Some (reason, last) =>
if last <=? next_sequence (l_sub l) then
if last <? next_sequence (l_sub l) then invalid "terminal close boundary regressed"
else Ok (Some (Control (Closed reason last)), MkSubscription (next_sequence (l_sub l)) [] None (refreshed (l_sub l)))
else Ok (None, l_sub l)
| None => Ok (None, l_sub l)
end
end)) as Hsize.
{ intros Hre. destruct (resizes (l_sub l)) as [|z rest] eqn:Ez.
- pose proof (closing_good h q l Hg Hre (or_introl Ez)) as H. rewrite Ez in H. exact H.
- destruct (N.leb_spec (z_at z) (next_sequence (l_sub l))) as [Hz|Hz]; rewrite Hn in Hz.
+ destruct (size_taken _ _ _ _ _ Hg Ez Hz) as (Ea & Ei & Hg'). rewrite Hn, Ea, N.eqb_refl. cbn.
exists (S q). split; [|by rewrite Hn in Hg'].
constructor; [done|constructor].
+ pose proof (closing_good h q l Hg Hre ltac:(right; by exists z, rest)) as H. rewrite Ez in H. exact H. }
destruct (refreshed (l_sub l)) as [cut|] eqn:Ec; [|by apply Hsize].
destruct (N.leb_spec (cut_next cut) (next_sequence (l_sub l))) as [Hle|Hlt].
- destruct (N.ltb_spec (cut_next cut) (next_sequence (l_sub l))).
+ split; [done|]. exists cut. split; [done|congruence].
+ by apply refreshed_good; [| |lia].
- apply Hsize. intros ? [= <-]. lia.
Qed.

(** What waits in the queues of a line. *)
Definition left_over (l : Line) : nat := length (l_control l) + length (l_data l).

(** The sizes that a line has in hand, and its controls. *)
Definition waiting (l : Line) : nat := length (resizes (l_sub l)) + length (l_control l).

(** Why a view can end early: more than 32 sizes wait. *)
Definition too_many_sizes (l : Line) (e : SubError) : Prop :=
e = SubInvalid "terminal resize queue exceeded its ordering bound" /\ (MAX_PENDING_RESIZES < waiting l)%nat.

(** What a turn of [recv] did. *)
Definition turned (h : list Item) (q : nat) (l : Line) (r : Result SubError (Turn * Line)) : Prop :=
match r with
| Ok (Returns (Some f), l') => exists q', follows h q [f] q' /\ good h q' l'
| Ok (Returns None, l') => l_open l' = false /\ good h q l'
| Ok (Again, l') =>
good h q l' /\ (left_over l' < left_over l)%nat /\ (waiting l' <= waiting l)%nat /\
refreshed (l_sub l') = refreshed (l_sub l)
| Ok (Waits, l') =>
good h q l' /\ nothing_due h q (l_sub l') /\ l_data l' = [] /\ l_open l' = true /\ l_control l' = [] /\
(l_behind l' = false -> q = length h)
| Err e => too_many_sizes l e \/ too_old h q l e
| Panic => False
end.

Lemma take_control_good h q l f rest :
good h q l -> closing (l_sub l) = None -> l_control l = f :: rest ->
turned h q l ('(t, s) ← take_control f (l_sub l); Ok (t, with_sub (with_control l rest) s)).
Proof.
intros [Hn Hr Hl (m & Hc & Hcl & Ho)] Ecl Ec. rewrite Ec in Hc, Ho. destruct f as [r c k a|c n|reason f]; cbn in Hc; cbn [take_control].
- destruct (Nat.leb_spec MAX_PENDING_RESIZES (length (resizes (l_sub l)))) as [|Hlt];
[cbn -[MAX_PENDING_RESIZES]; left; split; [done|unfold waiting; rewrite Ec; cbn -[MAX_PENDING_RESIZES]; lia]|].
destruct (coming_prefix _ _ _ _ _ _ Hc) as (m1 & R' & E). rewrite <- app_assoc in E.
pose proof (sizes_sorted _ _ _ _ _ E) as Hs. cbn in Hs.
assert (match last (resizes (l_sub l)) with Some z => a <? z_at z | None => false end = false) as ->.
{ destruct (last (resizes (l_sub l))) as [z|] eqn:Ez; [|done]. apply N.ltb_ge, Hs.
apply last_Some in Ez as [? ->]. rewrite elem_of_app, list_elem_of_singleton. auto. }
cbn. split; [|by split_and!; [unfold waiting, left_over; rewrite ?Ec; cbn; rewrite ?length_app; cbn; lia..|]].
constructor; cbn; try done; [rewrite length_app; cbn in *; lia|].
exists m. split; [done|]. rewrite Ecl. split; [done|]. intros ?%Ho. naive_solver.
- destruct Hc as (m1 & p' & Hb & Hp & E & Hshows & -> & Hc).
rewrite (proj2 (N.ltb_ge _ _)) by (rewrite Hn; apply seq_mono; lia). cbn.
exists p'. split; [constructor; [lia|done|constructor]|]. constructor; cbn; try done; [lia|].
exists m. split; [done|]. rewrite Ecl. split; [done|]. intros ?%Ho. naive_solver.
- destruct Hc as (-> & Hf & Hc). split; [|by split_and!; [unfold waiting, left_over; rewrite ?Ec; cbn; lia..|]]. constructor; cbn; try done.
exists m. split; [done|]. split; [by intros ? [= <-]|]. intros (_ & ? & _)%Ho. done.
Qed.

Lemma take_data_good h q l f rest :
upto h < U64 -> good h q l -> l_control l = [] -> nothing_due h q (l_sub l) -> l_data l = f :: rest ->
turned h q l ('(t, s) ← take_data f (l_sub l); Ok (t, with_sub (with_data l rest) s)).
Proof.
intros Hu [Hn Hr Hl (m & Hc & Hcl & Ho)] Ec [Hz _] Ed. rewrite Ec, Ed in Hc. unfold take_data.
destruct (arriving_pop_out _ _ _ _ _ _ Hc Hz) as [[Hs Hc']|(Ei & Es & Hc')].
- rewrite Hn, (proj2 (N.ltb_lt _ _)) by done. cbn. split; [|by split_and!; [unfold left_over, waiting; rewrite ?Ed; cbn; lia..|]].
constructor; cbn; try done. exists m. rewrite Ec in *. done.
- rewrite Es, Hn, N.ltb_irrefl, N.eqb_refl. pose proof (seq_out _ _ _ Ei) as Hq. rewrite <- Hq.
pose proof (lookup_lt_Some _ _ _ Ei). pose proof (seq_mono h (S q) (length h) ltac:(lia)). rewrite seq_all in *.
rewrite (proj2 (N.ltb_lt _ _)) by lia. cbn. exists (S q). split.
+ destruct f as [sq b]. cbn in *. subst sq. constructor; [done|constructor].
+ constructor; cbn; try done. exists m. rewrite Ec in *. done.
Qed.

(** A turn of [recv]: the view goes on along the history, and fails in one way only. *)
Lemma turn_good h q l : upto h < U64 -> good h q l -> turned h q l (turn false l).
Proof.
intros Hu Hg. unfold turn. pose proof (ready_good h q l Hg) as Hs.
destruct (ready (l_sub l)) as [[[f|] s]|e|]; cbn in Hs; [done| |by right|done].
destruct Hs as [-> Hdue]. cbn.
replace (with_sub l (l_sub l)) with l by (by destruct l).
unfold poll. pose proof Hg as [Hn Hr Hl (m & Hc & Hcl & Ho)].
assert (l_control l = [] -> closing (l_sub l) <> None \/ l_open l = true -> turned h q l
match l_data l with
| f :: rest => '(t, s) ← take_data f (l_sub l); Ok (t, with_sub (with_data l rest) s)
| [] =>
if l_open l then Ok (Waits, l)
else
let s := l_sub l in
Ok (Returns ((fun c : string * N => Control (Closed c.1 c.2)) <$> closing s),
with_sub l (MkSubscription (next_sequence s) (resizes s) None (refreshed s)))
end) as Hdata.
{ intros Ec Hor. destruct (l_data l) as [|f rest] eqn:Ed; [|by apply take_data_good].
destruct (l_open l) eqn:Eo.
- cbn. rewrite Ec in Hc. pose proof (arriving_nil _ _ _ _ Hc (proj1 Hdue)) as ->. destruct (Ho eq_refl) as (_ & _ & Hb). split_and!; done.
- cbv zeta. destruct (closing (l_sub l)) as [[reason final]|] eqn:Ecl; [|naive_solver].
cbn. exists q. split; [|by eapply closing_taken].
constructor; [|constructor]. pose proof (proj1 (proj2 Hdue) _ Ecl). cbn in *. lia. }
cbv zeta in Hdata. destruct (closing (l_sub l)) as [c|] eqn:Ecl.
- apply Hdata; [by eapply Hcl|left; done].
- destruct (l_control l) as [|f rest] eqn:Ec; [|by apply take_control_good].
destruct (l_open l) eqn:Eo; [apply Hdata; auto|]. cbn. done.
Qed.
(** What [recv] did: as a turn that does not go round again. *)
Definition received (h : list Item) (q : nat) (l : Line) (r : Result SubError (Turn * Line)) : Prop :=
match r with Ok (Again, _) => False | _ => turned h q l r end.

Lemma recv_good h q l turns :
upto h < U64 -> good h q l -> (left_over l < turns)%nat -> received h q l (recv turns l).
Proof.
intros Hu. revert l. induction turns as [|turns IH]; intros l Hg Ht; [lia|].
cbn [recv]. pose proof (turn_good h q l Hu Hg) as Hturn.
destruct (turn false l) as [[[f| |] l']|e|] eqn:Et; cbn in Hturn |- *; try done.
destruct Hturn as (Hg' & Hc & Hw & Ere). specialize (IH l' Hg' ltac:(lia)). unfold received in *.
destruct (recv turns l') as [[[[f|]| |] l'']|e|] eqn:Er; cbn in *; try done.
- destruct IH as [[-> ?]|[-> (cut & ? & ?)]]; [left; split; [done|lia]|right; split; [done|exists cut; by rewrite <- Ere]].
Qed.
(** *** A late look *)

(** A control that goes before an output: a snapshot, or a size that is not after it. *)
Definition precedes (f : DataFrame) (c : ControlFrame) : bool :=
match c with Resize _ _ _ at_sequence => at_sequence <=? d_sequence f | Snapshot _ _ => true | Closed _ _ => false end.

(** The output that is next in its queue goes before a control that waits. *)
Definition overtakes (l : Line) : bool :=
match l_data l with f :: _ => existsb (precedes f) (l_control l) | [] => false end.

Lemma coming_drop_stale h q R C f D m : coming h q R C (f :: D) m -> d_sequence f < seq_at h q -> coming h q R C D m.
Proof.
assert (forall q R, arriving h q R (f :: D) m -> d_sequence f < seq_at h q -> arriving h q R D m) as Ha.
{ intros q' R' (Hm & E & [|f' stale] & Ed & Hs) Hf; cbn in Ed; (split; [done|]; split; [done|]).
- assert (f ∈ outs (seq_at h q') (seg h q' m)) as ?%outs_le by (rewrite <- Ed; left). lia.
- injection Ed as -> ->. apply Forall_cons in Hs as [_ Hs]. by exists stale. }
revert q R. induction C as [|[r c k a|c n|reason e] C IH]; intros q R; cbn.
- apply Ha.
- apply IH.
- intros (m1 & p' & ? & ? & E & ? & ? & Hc) Hf. exists m1, p'. split_and!; try done; try lia. apply IH; [done|].
pose proof (seq_mono h q p' ltac:(lia)). lia.
- intros (-> & ? & Hc) Hf. split_and!; [done..|by apply Ha].
Qed.

(** Output that waits goes before no control: it is old, or it is the next item. *)
Lemma coming_pop_out h q R C f D m :
coming h q R C (f :: D) m -> existsb (precedes f) C = false -> (forall z, head R = Some z -> seq_at h q < z_at z) ->
(d_sequence f < seq_at h q /\ coming h q R C D m) \/
(h !! q = Some (Out (d_bytes f)) /\ d_sequence f = seq_at h q /\ coming h (S q) R C D m).
Proof.
intros Hc Hp Hz. destruct (N.lt_ge_cases (d_sequence f) (seq_at h q)) as [Hf|Hf].
{ left. split; [done|]. by eapply coming_drop_stale. }
right. assert (forall R, arriving h q R (f :: D) m -> (forall z, head R = Some z -> seq_at h q < z_at z) ->
h !! q = Some (Out (d_bytes f)) /\ d_sequence f = seq_at h q /\ arriving h (S q) R D m) as Ha.
{ intros R' Hr Hz'. destruct (arriving_pop_out _ _ _ _ _ _ Hr Hz') as [[? _]|?]; [lia|done]. }
revert R Hc Hz. induction C as [|[r c k a|c n|reason e] C IH]; intros R Hc Hz; cbn in Hc, Hp.
- by apply Ha.
- apply orb_false_iff in Hp as [Hlt Hp]. apply N.leb_gt in Hlt. apply (IH Hp _ Hc).
destruct R as [|z R]; [|apply Hz]. intros z [= <-]. cbn. lia.
- done.
- destruct Hc as (-> & ? & Hc). destruct (Ha R Hc Hz) as (? & ? & ?). split_and!; done.
Qed.

(** What a turn with a late look did. *)
Definition turned_late (h : list Item) (q : nat) (l : Line) (r : Result SubError (Turn * Line)) : Prop :=
match r with
| Ok (Returns (Some f), l') =>
(exists q', follows h q [f] q' /\ good h q' l') \/ exists d, f = Data d /\ existsb (precedes d) (l_control l) = true
| Ok (Returns None, l') => l_open l' = false /\ good h q l'
| Ok (_, l') => good h q l'
| Err e => too_old h q l e \/ overtakes l = true
| Panic => False
end.

Lemma take_data_late h q l f rest :
upto h < U64 -> good h q l -> nothing_due h q (l_sub l) -> l_data l = f :: rest ->
turned_late h q l ('(t, s) ← take_data f (l_sub l); Ok (t, with_sub (with_data l rest) s)).
Proof.
intros Hu [Hn Hr Hl (m & Hc & Hcl & Ho)] [Hz _] Ed. rewrite Ed in Hc. unfold take_data.
assert (d_sequence f < seq_at h q -> turned_late h q l (Ok (Again, with_sub (with_data l rest) (l_sub l)))) as Hstale.
{ intros Hs. cbn. constructor; cbn; try done. exists m. split; [by eapply coming_drop_stale|done]. }
destruct (existsb (precedes f) (l_control l)) eqn:Ep.
- rewrite Hn. destruct (N.ltb_spec (d_sequence f) (seq_at h q)); [by apply Hstale|].
assert (overtakes l = true) as Hov by (unfold overtakes; by rewrite Ed).
destruct (d_sequence f =? seq_at h q); [|by right].
destruct (seq_at h q + 1 <? U64); [|by right]. right. by exists f.
- rewrite Hn. destruct (coming_pop_out _ _ _ _ _ _ _ Hc Ep Hz) as [[Hs Hc']|(Ei & Es & Hc')].
+ rewrite (proj2 (N.ltb_lt _ _)) by done. by apply Hstale.
+ rewrite Es, N.ltb_irrefl, N.eqb_refl. pose proof (seq_out _ _ _ Ei) as Hq. rewrite <- Hq.
pose proof (lookup_lt_Some _ _ _ Ei). pose proof (seq_mono h (S q) (length h) ltac:(lia)). rewrite seq_all in *.
rewrite (proj2 (N.ltb_lt _ _)) by lia. cbn. left. exists (S q). split.
* destruct f as [sq b]. cbn in *. subst sq. constructor; [done|constructor].
* constructor; cbn; try done. by exists m.
Qed.

(** A turn whose look at the output is late: as a turn in time, or output goes before a control
that waits. *)
Lemma late_good h q l : upto h < U64 -> good h q l -> turned_late h q l (turn true l).
Proof.
intros Hu Hg. unfold turn. pose proof (ready_good h q l Hg) as Hs.
destruct (ready (l_sub l)) as [[[f|] s]|e|]; cbn in Hs; [by left| |by left|done].
destruct Hs as [-> Hdue]. cbn. replace (with_sub l (l_sub l)) with l by (by destruct l). unfold poll.
match goal with |- turned_late _ _ _ ?x => replace x with
(match l_data l with
| f :: rest => '(t, s) ← take_data f (l_sub l); Ok (t, with_sub (with_data l rest) s)
| [] =>
if l_open l then Ok (Waits, l)
else
Ok (Returns ((fun c : string * N => Control (Closed c.1 c.2)) <$> closing (l_sub l)),
with_sub l (MkSubscription (next_sequence (l_sub l)) (resizes (l_sub l)) None (refreshed (l_sub l))))
end) by (destruct (closing (l_sub l)), (l_control l); reflexivity) end.
destruct (l_data l) as [|f rest] eqn:Ed; [|by apply take_data_late].
destruct (l_open l) eqn:Eo; [done|].
destruct (closing (l_sub l)) as [[reason final]|] eqn:Ecl; cbn.
- left. exists q. split; [|by eapply closing_taken].
constructor; [|constructor]. pose proof (proj1 (proj2 Hdue) _ Ecl). cbn in *. lia.
- split; [done|]. destruct Hg as [Hn Hr Hl (m & Hc & Hcl & Ho)]. constructor; cbn; try done.
exists m. split; [done|]. split; [done|]. intros ?. congruence.
Qed.

(** ** The end of the terminal *)

Lemma asked_grow h i s :
(forall cut, refreshed s = Some cut -> asks = true /\ honest h cut) ->
forall cut, refreshed s = Some cut -> asks = true /\ honest (h ++ i) cut.
Proof. intros Hr cut E. destruct (Hr cut E). by split; [|apply honest_grow]. Qed.

(** What the history becomes does not matter for a line that gets no more of it. *)
Lemma good_grow h i q l : l_open l = false \/ l_behind l = true -> good h q l -> good (h ++ i) q l.
Proof.
intros Hor [Hn Hr Hl (m & Hc & Hcl & Ho)]. pose proof (coming_bounds _ _ _ _ _ _ Hc).
constructor; [by rewrite seq_grow by lia|by apply asked_grow|done|]. exists m. split; [by apply coming_grow|].
rewrite seq_grow by lia. split; [done|]. intros Eo. destruct (Ho Eo) as (? & ? & ?). split_and!; try done.
destruct Hor; congruence.
Qed.

Lemma good_shut h q l : good h q l -> good h q (with_open l false).
Proof. intros [Hn Hr Hl (m & Hc & Hcl & Ho)]. constructor; try done. by exists m. Qed.

Lemma good_behind h q l : good h q l -> good h q (with_behind l true).
Proof.
intros [Hn Hr Hl (m & Hc & Hcl & Ho)]. constructor; try done. exists m. split; [done|]. split; [done|]. naive_solver.
Qed.

Lemma good_alive h q l alive : good h q l -> good h q (with_alive l alive).
Proof. intros [Hn Hr Hl (m & Hc & Hcl & Ho)]. constructor; try done. by exists m. Qed.

Lemma good_retain h q l : good h q l -> good h q (retain l).
Proof. intros. unfold retain. destruct (is_active l); [done|by apply good_shut]. Qed.

Hint Resolve good_grow good_shut good_behind good_alive good_retain : core.

Lemma good_data h q l b : good h q l -> good (h ++ [Out b]) q (line_data (MkData (upto h) b) l).
Proof.
intros Hg. unfold line_data. destruct (l_open l) eqn:Eo; cbn [negb]; [|by auto].
apply good_retain. destruct (l_behind l) eqn:Eb; [by auto|].
destruct (MAX_RAW_BYTES <? _); [apply good_grow; auto|].
unfold send_data. destruct (_ && _); [|apply good_grow; auto].
destruct Hg as [Hn Hr Hl (m & Hc & Hcl & Ho)]. destruct (Ho Eo) as (Ecl & Ex & Hm). specialize (Hm Eb) as ->.
pose proof (coming_bounds _ _ _ _ _ _ Hc). constructor; cbn; [by rewrite seq_grow by lia|by apply asked_grow|done|].
exists (S (length h)). split; [by apply coming_out|]. rewrite Ecl. split; [done|].
intros _. rewrite length_app. cbn. split_and!; [done..|lia].
Qed.

Lemma good_size h q l r c k :
good h q l -> good (h ++ [Sized r c k]) q (line_control (Resize r c k (upto h)) l).
Proof.
intros Hg. unfold line_control. destruct (l_open l) eqn:Eo; cbn [negb]; [|by auto].
destruct (l_behind l) eqn:Eb; cbn [andb is_resize]; [by auto|].
destruct (is_active l); [|apply good_grow; auto].
unfold deliver. destruct (negb _); [apply good_grow; auto|]. destruct (_ <? CONTROL_CAPACITY)%nat; [|apply good_grow; auto].
destruct Hg as [Hn Hr Hl (m & Hc & Hcl & Ho)]. destruct (Ho Eo) as (Ecl & Ex & Hm). specialize (Hm Eb) as ->.
pose proof (coming_bounds _ _ _ _ _ _ Hc). constructor; cbn; [by rewrite seq_grow by lia|by apply asked_grow|done|].
exists (S (length h)). split; [by apply coming_sized|]. rewrite Ecl. split; [done|].
intros _. rewrite existsb_app, Ex, length_app. cbn. split_and!; [done..|lia].
Qed.

Lemma good_refresh h q l c : shows h c -> good h q l -> good h q (line_refresh c (upto h) l).
Proof.
intros Hs Hg. unfold line_refresh. destruct (l_open l) eqn:Eo; cbn [negb]; [|done].
destruct (line_caught_up l) eqn:Eu; cbn [negb]; [|by auto].
unfold deliver. destruct (negb _); [by auto|]. destruct (_ <? CONTROL_CAPACITY)%nat; [|by auto].
destruct Hg as [Hn Hr Hl (m & Hc & Hcl & Ho)]. destruct (Ho Eo) as (Ecl & Ex & _).
constructor; cbn; [done..|]. exists (length h). rewrite Ecl, existsb_app, Ex.
pose proof (coming_snapshot h [] q (resizes (l_sub l)) (l_control l) (l_data l) m c) as H. rewrite app_nil_r in H.
split; [by apply H|]. split; [done|]. by cbn.
Qed.

(** A snapshot of a later time, for every view. *)
Lemma good_resync h i q l c :
shows (h ++ i) c -> good h q l -> good (h ++ i) q (line_control (Snapshot c (upto (h ++ i))) l).
Proof.
intros Hs Hg. unfold line_control. destruct (l_open l) eqn:Eo; cbn [negb]; [|by auto]. rewrite andb_false_r.
destruct (is_active l); [|apply good_grow; auto].
unfold deliver. destruct (negb _); [apply good_grow; auto|]. destruct (_ <? CONTROL_CAPACITY)%nat; [|apply good_grow; auto].
destruct Hg as [Hn Hr Hl (m & Hc & Hcl & Ho)]. destruct (Ho Eo) as (Ecl & Ex & _). pose proof (coming_bounds _ _ _ _ _ _ Hc).
constructor; cbn; [by rewrite seq_grow by lia|by apply asked_grow|done|]. exists (length (h ++ i)). rewrite Ecl, existsb_app, Ex.
split; [by eapply coming_snapshot|]. split; [done|]. by cbn.
Qed.

Lemma good_close h q l reason : good h q l -> good h q (line_close reason (upto h) l).
Proof.
intros Hg. unfold line_close. destruct (l_open l) eqn:Eo; cbn [negb]; [|done].
destruct (_ && _); [|by auto].
destruct Hg as [Hn Hr Hl (m & Hc & Hcl & Ho)]. destruct (Ho Eo) as (Ecl & Ex & _).
constructor; cbn; [done..|]. exists m. rewrite Ecl. split; [by apply coming_close|]. done.
Qed.

(** A view asks for the screen. *)
Lemma good_ask h q l cut : asks = true -> honest h cut -> good h q l -> good h q (refresh_view cut l).
Proof.
intros Ha Hh [Hn Hr Hl (m & Hc & Hcl & Ho)]. constructor; cbn; [done| |done|by exists m].
intros ? [= <-]. done.
Qed.

Lemma good_gone h p : (p <= length h)%nat -> good h p (with_open (new_line (seq_at h p)) false).
Proof.
intros Hp. constructor; cbn; [done..|lia|]. exists p. split; [|done]. unfold arriving. rewrite seg_nil.
split_and!; [lia|lia|done|by exists []].
Qed.

(** [replay] sends what fits. *)
Lemma replay_sends frames l :
l_alive l = true -> (length (l_data l) + length frames <= DATA_CAPACITY)%nat ->
foldl (fun l f => match send_data f l with Some l => l | None => l end) l frames = with_data l (l_data l ++ frames).
Proof.
revert l. induction frames as [|f frames IH]; intros l Ha Hlen; cbn [foldl length] in *.
- rewrite app_nil_r. by destruct l.
- unfold send_data at 2. rewrite Ha, (proj2 (Nat.ltb_lt _ _)) by lia. cbn [andb].
rewrite IH; cbn; [|done|rewrite length_app; cbn; lia]. by rewrite <- app_assoc.
Qed.

Lemma good_new h p :
(p <= length h)%nat -> sizes (seq_at h p) (drop p h) = [] ->
good h p (with_data (new_line (seq_at h p)) (outs (seq_at h p) (drop p h))).
Proof.
intros Hp Es. constructor; cbn; [done..|lia|]. exists (length h). split; [|done].
unfold arriving, seg. rewrite take_ge by (rewrite length_drop; lia). split_and!; [lia|lia|done|by exists []].
Qed.
End view.

(** ** Every line *)

(** What holds of a line whatever its view took first. *)
Record sane (h : list Item) (l : Line) : Prop := {
n_next : next_sequence (l_sub l) <= upto h;
n_data : Forall (fun f => d_sequence f < upto h) (l_data l);
n_control : Forall (fun c => match c with Snapshot _ n => n <= upto h | _ => True end) (l_control l);
n_open : l_open l = true -> closing (l_sub l) = None /\ existsb is_closed (l_control l) = false
}.

Lemma sane_grow h i l : sane h l -> sane (h ++ i) l.
Proof.
intros [Hn Hd Hc Ho]. assert (upto h <= upto (h ++ i)) as Hu by (rewrite upto_app; unfold upto at 3; lia).
constructor; [lia|..|done].
- eapply Forall_impl; [exact Hd|]. cbn. lia.
- eapply Forall_impl; [exact Hc|]. intros [| |]; cbn; lia.
Qed.

Lemma sane_shut h l : sane h l -> sane h (with_open l false).
Proof. by intros [Hn Hd Hc Ho]. Qed.

Lemma sane_behind h l b : sane h l -> sane h (with_behind l b).
Proof. by intros [Hn Hd Hc Ho]. Qed.

Lemma sane_retain h l : sane h l -> sane h (retain l).
Proof. intros. unfold retain. destruct (is_active l); [done|by apply sane_shut]. Qed.

Hint Resolve sane_grow sane_shut sane_behind sane_retain : core.

Lemma sane_data h l b : sane h l -> sane (h ++ [Out b]) (line_data (MkData (upto h) b) l).
Proof.
intros Hs. unfold line_data. destruct (negb (l_open l)); [by auto|]. apply sane_retain.
destruct (l_behind l); [by auto|]. destruct (_ <? _); [by auto|]. unfold send_data. destruct (_ && _); [|by auto].
apply (sane_grow _ [Out b]) in Hs as [Hn Hd Hc Ho]. constructor; cbn; try done.
apply Forall_app. split; [done|]. apply Forall_singleton. cbn. rewrite upto_out. lia.
Qed.

(** A control that is no close. *)
Lemma sane_deliver h l c :
(match c with Snapshot _ n => n <= upto h | _ => True end) -> is_closed c = false -> sane h l ->
sane h (default (with_open l false) (deliver c l)).
Proof.
intros Hn Hx Hs. unfold deliver. destruct (negb _); [by apply sane_shut|]. destruct (_ <? _)%nat; [|by apply sane_behind].
assert (sane h (with_control l (l_control l ++ [c]))) as Hc.
{ destruct Hs as [Hn' Hd Hc Ho]. constructor; cbn; try done; [by apply Forall_app_2, Forall_singleton|].
rewrite existsb_app. cbn. rewrite Hx. intros Eo. destruct (Ho Eo) as [? ->]. done. }
cbn. destruct (is_snapshot c); [by apply sane_behind|done].
Qed.

Lemma sane_control h l c :
(match c with Snapshot _ n => n <= upto h | _ => True end) -> is_closed c = false -> sane h l -> sane h (line_control c l).
Proof.
intros Hn Hx Hs. unfold line_control. destruct (negb _); [done|]. destruct (_ && _); [by auto|].
destruct (is_active l); [|by auto]. pose proof (sane_deliver h l c Hn Hx Hs) as H. by destruct (deliver c l).
Qed.

Lemma sane_refresh h l c : sane h l -> sane h (line_refresh c (upto h) l).
Proof.
intros Hs. unfold line_refresh. destruct (negb _); [done|]. destruct (negb _); [by auto|].
pose proof (sane_deliver h l (Snapshot c (upto h)) (N.le_refl _) eq_refl Hs) as H. by destruct (deliver _ l).
Qed.

Lemma sane_close h l reason n : sane h l -> sane h (line_close reason n l).
Proof.
intros Hs. unfold line_close. destruct (negb _); [done|]. destruct (_ && _); [|by auto].
destruct Hs as [Hn Hd Hc Ho]. constructor; cbn; try done. by apply Forall_app_2, Forall_singleton.
Qed.

Lemma ready_none s s' : ready s = Ok (None, s') -> s' = s.
Proof.
unfold ready, invalid. intros E.
repeat match type of E with context [match ?x with _ => _ end] => destruct x; try done end; by injection E.
Qed.

(** What [ready] does to the state of the view. *)
Lemma ready_next s f s' : ready s = Ok (f, s') -> next_sequence s' = next_sequence s /\ (closing s = None -> closing s' = None).
Proof.
unfold ready, invalid. intros E.
repeat match type of E with context [match ?x with _ => _ end] => destruct x eqn:?; try done end; by injection E as <- <-.
Qed.

Lemma sane_take_data h l f rest o s :
sane h l -> l_data l = f :: rest -> take_data f (l_sub l) = Ok (o, s) -> sane h (with_sub (with_data l rest) s).
Proof.
intros [Hn Hd Hc Ho] Ed. rewrite Ed in Hd. apply Forall_cons in Hd as [Hf Hd]. unfold take_data, invalid.
destruct (_ <? _); [by intros [= <- <-]|]. destruct (N.eqb_spec (d_sequence f) (next_sequence (l_sub l))); [|done].
destruct (_ <? _); [|done]. intros [= <- <-]. constructor; cbn; try done. lia.
Qed.

Lemma sane_take_control h l f rest o s :
sane h l -> l_control l = f :: rest -> take_control f (l_sub l) = Ok (o, s) -> sane h (with_sub (with_control l rest) s).
Proof.
intros [Hn Hd Hc Ho] Ec. rewrite Ec in Hc, Ho. apply Forall_cons in Hc as [Hf Hc]. cbn in Ho.
assert (is_closed f = false -> l_open l = true -> closing (l_sub l) = None /\ existsb is_closed rest = false) as Ho'.
{ intros Ef Eo. destruct (Ho Eo) as [? Ex]. rewrite Ef in Ex. done. }
destruct f as [r c k a|c n|reason n]; cbn [take_control].
- unfold invalid. destruct ((_ <=? _)%nat || _); [done|]. intros [= <- <-]. constructor; cbn; try done.
- unfold invalid. destruct (_ <? _); [done|]. intros [= <- <-]. constructor; cbn; try done.
- intros [= <- <-]. constructor; cbn; try done. by intros [? ?]%Ho.
Qed.

Lemma sane_turn h l late o l' : sane h l -> turn late l = Ok (o, l') -> sane h l'.
Proof.
intros Hs. unfold turn. destruct (ready (l_sub l)) as [[f s]|e|] eqn:Er; [|done..]. cbn.
assert (sane h (with_sub l s)) as Hs'.
{ destruct (ready_next _ _ _ Er) as [E Ecl]. destruct Hs as [Hn Hd Hc Ho]. constructor; cbn; try done; [by rewrite E|].
intros Eo. destruct (Ho Eo). auto. }
destruct f as [f|]; [by intros [= <- <-]|]. unfold poll. revert Hs'. generalize (with_sub l s) as l1. intros l1 Hs'.
assert (match l_data l1 with
| f :: rest => '(t, s) ← take_data f (l_sub l1); Ok (t, with_sub (with_data l1 rest) s)
| [] =>
if l_open l1 then Ok (Waits, l1)
else Ok (Returns ((fun c : string * N => Control (Closed c.1 c.2)) <$> closing (l_sub l1)),
with_sub l1 (MkSubscription (next_sequence (l_sub l1)) (resizes (l_sub l1)) None (refreshed (l_sub l1))))
end = Ok (o, l') -> sane h l') as Hdata.
{ destruct (l_data l1) as [|f rest] eqn:Ed.
- destruct (l_open l1) eqn:Eo; [by intros [= <- <-]|]. intros [= <- <-].
destruct Hs' as [Hn Hd Hc Ho]. constructor; cbn; try done. by rewrite Eo.
- destruct (take_data f _) as [[o' s']|e|] eqn:Et; [|done..]. cbn. intros [= <- <-]. by eapply sane_take_data. }
cbv zeta. destruct (closing (l_sub l1)) eqn:Ecl; [exact Hdata|].
destruct (l_control l1) as [|f rest] eqn:Ec.
- destruct (_ || _); [exact Hdata|]. by intros [= <- <-].
- destruct late; [exact Hdata|]. destruct (take_control f _) as [[o' s']|e|] eqn:Et; [|done..]. cbn. intros [= <- <-].
by eapply sane_take_control.
Qed.

Lemma sane_recv h l turns o l' : sane h l -> recv turns l = Ok (o, l') -> sane h l'.
Proof.
revert l. induction turns as [|turns IH]; intros l Hs; [done|]. cbn.
destruct (turn false l) as [[o1 l1]|e|] eqn:Et; [|done..]. cbn. pose proof (sane_turn _ _ _ _ _ Hs Et).
destruct o1; [by intros [= <- <-]|by apply IH|by intros [= <- <-]].
Qed.

(** ** The terminal and its views *)

(** The frames that a view got; those from the first on that went before a control that waited;
and whether it asked for the screen. *)
Record Got : Type := MkGot { frames : list Frame; late : list Frame; asked : bool }.

Definition nothing : Got := MkGot [] [] false.

Definition gets (f : Frame) (g : Got) : Got :=
match late g with
| [] => MkGot (frames g ++ [f]) [] (asked g)
| fs => MkGot (frames g) (fs ++ [f]) (asked g)
end.

(** What a view got of a turn with a late look at its line. *)
Definition gets_late (o : Turn) (l : Line) (g : Got) : Got :=
match o with
| Returns (Some (Data f)) =>
if existsb (precedes f) (l_control l) then MkGot (frames g) (late g ++ [Data f]) (asked g) else gets (Data f) g
| Returns (Some f) => gets f g
| _ => g
end.

Definition asking (g : Got) : Got := MkGot (frames g) (late g) true.

(** The history, the lines, and of each line where its view began and what it got. *)
Record Room : Type := MkRoom { hist : list Item; lines : t; views : gmap Uuid (nat * Got) }.

Definition room : Room := MkRoom [] ∅ ∅.

(** [subscribe] and [replay], as both actors call them: [p] is the place of the checkpoint. *)
Definition attach (id : Uuid) (h : list Item) (p : nat) (s : t) : Result SubError t :=
s ← subscribe id (seq_at h p) s;
let '(sent, s) := replay id (outs (seq_at h p) (drop p h)) s in
Ok (if sent then s else remove id s).

Inductive step : Room -> Room -> Prop :=
| step_output b r : upto (hist r) + 1 < U64 ->
step r (MkRoom (hist r ++ [Out b]) (data (MkData (upto (hist r)) b) (lines r)) (views r))
| step_size rows cols cell r :
step r (MkRoom (hist r ++ [Sized rows cols cell]) (control (Resize rows cols cell (upto (hist r))) (lines r)) (views r))
| step_refresh c r : shows (hist r) c ->
step r (MkRoom (hist r) (refresh c (upto (hist r)) (lines r)) (views r))
| step_resync items c r : shows (hist r ++ items) c -> upto (hist r ++ items) < U64 ->
step r (MkRoom (hist r ++ items) (control (Snapshot c (upto (hist r ++ items))) (lines r)) (views r))
| step_prune r : step r (MkRoom (hist r) (prune (lines r)) (views r))
| step_close reason r : step r (MkRoom (hist r) (close reason (upto (hist r)) (lines r)) (views r))
| step_remove id r : step r (MkRoom (hist r) (remove id (lines r)) (views r))
| step_attach id p s r :
lines r !! id = None -> (p <= length (hist r))%nat -> sizes (seq_at (hist r) p) (drop p (hist r)) = [] ->
attach id (hist r) p (lines r) = Ok s -> step r (MkRoom (hist r) s (<[id := (p, nothing)]> (views r)))
| step_recv id l l' turns f p g r :
lines r !! id = Some l -> views r !! id = Some (p, g) -> (left_over l < turns)%nat ->
recv turns l = Ok (Returns (Some f), l') ->
step r (MkRoom (hist r) (<[id := l']> (lines r)) (<[id := (p, gets f g)]> (views r)))
| step_wait id l l' turns o r :
lines r !! id = Some l -> (left_over l < turns)%nat ->
recv turns l = Ok (o, l') -> o = Waits \/ o = Returns None ->
step r (MkRoom (hist r) (<[id := l']> (lines r)) (views r))
| step_again id l l' r :
lines r !! id = Some l -> turn false l = Ok (Again, l') ->
step r (MkRoom (hist r) (<[id := l']> (lines r)) (views r))
| step_late id l l' o p g r :
lines r !! id = Some l -> views r !! id = Some (p, g) -> turn true l = Ok (o, l') ->
step r (MkRoom (hist r) (<[id := l']> (lines r)) (<[id := (p, gets_late o l g)]> (views r)))
| step_ask id l cut p g r :
lines r !! id = Some l -> views r !! id = Some (p, g) -> honest (hist r) cut ->
step r (MkRoom (hist r) (<[id := refresh_view cut l]> (lines r)) (<[id := (p, asking g)]> (views r)))
| step_drop id r : step r (MkRoom (hist r) (alter drop_view id (lines r)) (views r)).

(** A view, and its line: what it got follows the history, until output goes before a control
that waits. *)
Definition view_ok (h : list Item) (p : nat) (g : Got) (l : Line) : Prop :=
(p <= length h)%nat /\ sane h l /\
exists q, follows (asked g) h p (frames g) q /\ (late g = [] -> good (asked g) h q l).

Record room_ok (r : Room) : Prop := {
ro_width : upto (hist r) < U64;
ro_views id l : lines r !! id = Some l -> exists p g, views r !! id = Some (p, g) /\ view_ok (hist r) p g l
}.

(** What does the same to each line keeps the rooms in order. *)
Definition keeps (h i : list Item) (f : Line -> Line) : Prop :=
forall l, (sane h l -> sane (h ++ i) (f l)) /\ forall asks q, good asks h q l -> good asks (h ++ i) q (f l).

Lemma view_each h i f p g l : keeps h i f -> view_ok h p g l -> view_ok (h ++ i) p g (f l).
Proof.
intros Hf (Hp & Hs & q & Hfo & Hg). destruct (Hf l) as [Hs' Hg']. split; [rewrite length_app; lia|]. split; [auto|].
exists q. split; [by apply follows_grow|auto].
Qed.

Lemma room_each r i (f : Line -> Line) :
room_ok r -> upto (hist r ++ i) < U64 -> keeps (hist r) i f -> room_ok (MkRoom (hist r ++ i) (f <$> lines r) (views r)).
Proof.
intros [_ Hv] Hw Hf. constructor; cbn; [done|]. intros id l. rewrite lookup_fmap.
intros (l0 & E & ->)%fmap_Some. destruct (Hv _ _ E) as (p & g & Ev & Hok). exists p, g. split; [done|by apply view_each].
Qed.

Lemma keeps_same h f : keeps h [] f <-> forall l, (sane h l -> sane h (f l)) /\ forall asks q, good asks h q l -> good asks h q (f l).
Proof. unfold keeps. by rewrite app_nil_r. Qed.

Lemma room_same r (f : Line -> Line) : room_ok r -> keeps (hist r) [] f -> room_ok (MkRoom (hist r) (f <$> lines r) (views r)).
Proof.
intros Hr Hf. pose proof (room_each r [] f Hr) as H. rewrite app_nil_r in H. apply H; [apply Hr|done].
Qed.

Lemma room_alter r id (f : Line -> Line) :
room_ok r -> keeps (hist r) [] f -> room_ok (MkRoom (hist r) (alter f id (lines r)) (views r)).
Proof.
intros [Hw Hv] Hf. constructor; cbn; [done|]. intros id' l. destruct (decide (id' = id)) as [->|Hne].
- rewrite lookup_alter_eq. intros (l0 & E & ->)%fmap_Some. destruct (Hv _ _ E) as (p & g & Ev & Hok).
exists p, g. split; [done|]. rewrite <- (app_nil_r (hist r)). by apply view_each.
- rewrite lookup_alter_ne by done. apply Hv.
Qed.

Lemma room_insert r id l p g :
room_ok r -> view_ok (hist r) p g l ->
room_ok (MkRoom (hist r) (<[id := l]> (lines r)) (<[id := (p, g)]> (views r))).
Proof.
intros [Hw Hv] Hok. constructor; cbn; [done|]. intros id' l'. destruct (decide (id' = id)) as [->|Hne].
- rewrite !lookup_insert_eq. intros [= <-]. by exists p, g.
- rewrite !lookup_insert_ne by done. apply Hv.
Qed.

(** A view that got nothing. *)
Lemma room_insert_view r id l l' p g :
room_ok r -> lines r !! id = Some l -> views r !! id = Some (p, g) -> view_ok (hist r) p g l' ->
room_ok (MkRoom (hist r) (<[id := l']> (lines r)) (views r)).
Proof.
intros Hr El Ev Hok. rewrite <- (insert_id (views r) id (p, g)) by done. by apply room_insert.
Qed.

Lemma view_new h p l : (p <= length h)%nat -> sane h l -> good false h p l -> view_ok h p nothing l.
Proof. intros Hp Hs Hg. split; [done|]. split; [done|]. exists p. by split; [constructor|]. Qed.

Lemma keeps_retain h : keeps h [] retain.
Proof. apply keeps_same. intros l. split; [by apply sane_retain|intros; by apply good_retain]. Qed.

Lemma sane_new h p data :
(p <= length h)%nat -> Forall (fun f => d_sequence f < upto h) data -> sane h (with_data (new_line (seq_at h p)) data).
Proof. intros Hp Hd. constructor; cbn; [rewrite <- seq_all; apply seq_mono; lia|done..]. Qed.

Lemma attach_ok r id p s :
room_ok r -> (p <= length (hist r))%nat -> sizes (seq_at (hist r) p) (drop p (hist r)) = [] ->
attach id (hist r) p (lines r) = Ok s -> room_ok (MkRoom (hist r) s (<[id := (p, nothing)]> (views r))).
Proof.
intros Hr Hp Es. unfold attach, subscribe. destruct (MAX_SUBSCRIBERS <=? _)%nat; [done|]. cbn.
pose proof (room_same r retain Hr (keeps_retain _)) as Hpr.
assert (forall l, sane (hist r) l -> good false (hist r) p l ->
room_ok (MkRoom (hist r) (<[id := l]> (prune (lines r))) (<[id := (p, nothing)]> (views r)))) as Hin.
{ intros l Hs Hg. refine (room_insert _ id l p nothing Hpr _). by apply view_new. }
unfold replay. rewrite lookup_insert_eq. cbn [is_active new_line l_alive l_open andb negb].
set (frames := outs _ _). cbn [new_line l_data length].
assert (room_ok (MkRoom (hist r) (remove id (<[id := new_line (seq_at (hist r) p)]> (prune (lines r)))) (<[id := (p, nothing)]> (views r)))) as Hgone.
{ unfold remove. rewrite alter_insert_eq. apply Hin; [|by apply good_gone]. apply sane_shut. by apply (sane_new _ p []). }
destruct (Nat.ltb_spec (DATA_CAPACITY - 0) (length frames)) as [|Hlen]; cbn [orb]; [by intros [= <-]|].
destruct (existsb _ frames); [by intros [= <-]|].
intros [= <-]. rewrite insert_insert_eq, replay_sends; [|done|cbn; lia]. apply Hin; [|by apply good_new].
apply sane_new; [done|]. pose proof (good_new false (hist r) p Hp Es) as [_ _ _ (m & Hc & _)].
by apply coming_below in Hc.
Qed.

Lemma view_recv h p g l turns o l' :
upto h < U64 -> view_ok h p g l -> (left_over l < turns)%nat -> recv turns l = Ok (o, l') ->
view_ok h p (match o with Returns (Some f) => gets f g | _ => g end) l'.
Proof.
intros Hu (Hp & Hs & q & Hfo & Hg) Ht E. pose proof (sane_recv _ _ _ _ _ Hs E) as Hs'.
destruct (late g) as [|f0 fs] eqn:El.
- specialize (Hg eq_refl). pose proof (recv_good (asked g) h q l turns Hu Hg Ht) as H. rewrite E in H.
destruct o as [[f|]| |]; cbn in H; try done.
+ destruct H as (q' & Hf & Hg'). split; [done|]. split; [done|]. exists q'. unfold gets. rewrite El. cbn.
split; [by eapply follows_app|done].
+ destruct H as [_ H]. split; [done|]. split; [done|]. by exists q.
+ destruct H as [H _]. split; [done|]. split; [done|]. by exists q.
- assert (forall g', frames g' = frames g -> asked g' = asked g -> late g' <> [] -> view_ok h p g' l') as Hlate.
{ intros g' Ef Ea Hl. split; [done|]. split; [done|]. exists q. rewrite Ef, Ea. by split. }
destruct o as [[f|]| |]; apply Hlate; unfold gets; rewrite ?El; done.
Qed.

Lemma view_again h p g l l' :
upto h < U64 -> view_ok h p g l -> turn false l = Ok (Again, l') -> view_ok h p g l'.
Proof.
intros Hu (Hp & Hs & q & Hfo & Hg) E. pose proof (sane_turn _ _ _ _ _ Hs E) as Hs'.
split; [done|]. split; [done|]. exists q. split; [done|]. intros El. specialize (Hg El).
pose proof (turn_good (asked g) h q l Hu Hg) as H. rewrite E in H. apply H.
Qed.

Lemma view_late h p g l o l' :
upto h < U64 -> view_ok h p g l -> turn true l = Ok (o, l') -> view_ok h p (gets_late o l g) l'.
Proof.
intros Hu (Hp & Hs & q & Hfo & Hg) E. pose proof (sane_turn _ _ _ _ _ Hs E) as Hs'.
assert (forall g', frames g' = frames g -> asked g' = asked g -> late g' <> [] -> view_ok h p g' l') as Hlate.
{ intros g' Ef Ea Hl. split; [done|]. split; [done|]. exists q. rewrite Ef, Ea. by split. }
destruct (late g) as [|f0 fs] eqn:El.
- specialize (Hg eq_refl). pose proof (late_good (asked g) h q l Hu Hg) as H. rewrite E in H.
assert (forall f, (exists q', follows (asked g) h q [f] q' /\ good (asked g) h q' l') -> view_ok h p (gets f g) l') as Hin.
{ intros f (q' & Hf & Hg'). split; [done|]. split; [done|]. exists q'. unfold gets. rewrite El. cbn.
split; [by eapply follows_app|done]. }
assert (good (asked g) h q l' -> view_ok h p g l') as Hsame by (intros; split; [done|]; split; [done|]; by exists q).
destruct o as [[[f|f]|]| |]; cbn in H |- *; [| |by apply Hsame, H|by apply Hsame..].
+ destruct (existsb (precedes f) (l_control l)) eqn:Ep; [apply Hlate; [done..|]; cbn; by rewrite El|].
apply Hin. destruct H as [H|(d & [= <-] & Ed)]; [done|congruence].
+ apply Hin. by destruct H as [H|(d & ? & _)].
- destruct o as [[[f|f]|]| |]; cbn; [destruct (existsb _ _)|..]; apply Hlate; unfold gets; rewrite ?El; done.
Qed.

Lemma follows_asking h p fs q a : follows a h p fs q -> follows true h p fs q.
Proof. induction 1; [constructor|econstructor; eauto; fail..| |by constructor]. by eapply follows_asked; eauto. Qed.

Lemma view_ask h p g l cut : honest h cut -> view_ok h p g l -> view_ok h p (asking g) (refresh_view cut l).
Proof.
intros Hh (Hp & [Hn Hd Hc Ho] & q & Hfo & Hg). split; [done|]. split; [by constructor|].
exists q. split; [by eapply follows_asking|]. intros El. cbn in El. apply good_ask; [done..|].
destruct (Hg El) as [? Hr ? ?]. constructor; [done| |done..]. intros c E. by destruct (Hr _ E).
Qed.

Lemma room_step_ok r r' : room_ok r -> step r r' -> room_ok r'.
Proof.
intros Hr. pose proof (ro_width r Hr) as Hw.
destruct 1 as [b r Hu|rows cols cell r|c r Hs|items c r Hs Hu|r|reason r|id r|id p s r En Hp Es E|id l l' turns f p g r El Ev Ht E|id l l' turns o r El Ht E Eo|id l l' r El E|id l l' o p g r El Ev E|id l cut p g r El Ev Hh|id r].
- apply (room_each r [Out b]); [done|by rewrite upto_out|]. intros l. split; [apply sane_data|intros; by apply good_data].
- apply (room_each r [Sized rows cols cell]); [done|by rewrite upto_sized|]. intros l. split; [|intros; by apply good_size].
intros. apply sane_control; [done..|by apply sane_grow].
- apply room_same; [done|]. apply keeps_same. intros l. split; [apply sane_refresh|intros; by apply good_refresh].
- apply (room_each r items); [done..|]. intros l. split; [|intros; by apply good_resync].
intros. apply sane_control; [apply N.le_refl|done|by apply sane_grow].
- apply room_same; [done|]. apply keeps_retain.
- apply room_same; [done|]. apply keeps_same. intros l. split; [apply sane_close|intros; by apply good_close].
- apply room_alter; [done|]. apply keeps_same. intros l. split; [apply sane_shut|intros; by apply good_shut].
- by apply attach_ok.
- destruct (ro_views r Hr _ _ El) as (p' & g' & Ev' & Hok). rewrite Ev in Ev'. injection Ev' as <- <-.
apply room_insert; [done|]. exact (view_recv _ _ _ _ _ _ _ Hw Hok Ht E).
- destruct (ro_views r Hr _ _ El) as (p & g & Ev & Hok). apply (room_insert_view r id l l' p g); [done..|].
pose proof (view_recv _ _ _ _ _ _ _ Hw Hok Ht E) as H. by destruct Eo as [-> | ->].
- destruct (ro_views r Hr _ _ El) as (p & g & Ev & Hok). apply (room_insert_view r id l l' p g); [done..|].
by apply (view_again _ _ _ l).
- destruct (ro_views r Hr _ _ El) as (p' & g' & Ev' & Hok). rewrite Ev in Ev'. injection Ev' as <- <-.
apply room_insert; [done|]. by apply view_late.
- destruct (ro_views r Hr _ _ El) as (p' & g' & Ev' & Hok). rewrite Ev in Ev'. injection Ev' as <- <-.
apply room_insert; [done|]. by apply view_ask.
- apply room_alter; [done|]. apply keeps_same. intros l. split; [by intros [? ? ? ?]|intros; by apply good_alive].
Qed.

(** The rooms that can be. *)
Definition reachable (r : Room) : Prop := rtc step room r.

Lemma reachable_ok r : base < U64 -> reachable r -> room_ok r.
Proof.
intros Hb H. assert (room_ok room) as H0 by (constructor; cbn; [unfold upto; cbn; lia|by intros ? ? ?%lookup_empty_Some]).
unfold reachable in H. revert H0. induction H; eauto using room_step_ok.
Qed.









Lemma take_data_waits f s s' : ~ take_data f s = Ok (Waits, s').
Proof. unfold take_data, invalid. repeat case_match; done. Qed.

Lemma take_control_waits f s s' : ~ take_control f s = Ok (Waits, s').
Proof. unfold take_control, invalid. destruct f; repeat case_match; done. Qed.

(** What [recv] leaves when it waits. *)
Lemma recv_waits turns l l1 :
recv turns l = Ok (Waits, l1) ->
ready (l_sub l1) = Ok (None, l_sub l1) /\ l_data l1 = [] /\ l_open l1 = true /\ (closing (l_sub l1) = None -> l_control l1 = []).
Proof.
revert l. induction turns as [|turns IH]; intros l; [done|]. cbn. unfold turn.
destruct (ready (l_sub l)) as [[[f|] s]|e|] eqn:Er; [done| |done..]. cbn. pose proof (ready_none _ _ Er) as ->.
replace (with_sub l (l_sub l)) with l by (by destruct l). unfold poll. intros E.
destruct (closing (l_sub l)) eqn:Ecl; [|destruct (l_control l) as [|c C] eqn:Ec].
- destruct (l_data l) eqn:Ed.
+ destruct (l_open l) eqn:Eo; [|done]. injection E as <-. rewrite Ecl. done.
+ destruct (take_data _ _) as [[[]]| |] eqn:Et; cbn in E; try done; [by apply IH in E|by apply take_data_waits in Et].
- destruct (l_open l) eqn:Eo; cbn in E; [|done]. destruct (l_data l) eqn:Ed.
+ injection E as <-. done.
+ destruct (take_data _ _) as [[[]]| |] eqn:Et; cbn in E; try done; [by apply IH in E|by apply take_data_waits in Et].
- destruct (take_control _ _) as [[[]]| |] eqn:Et; cbn in E; try done; [by apply IH in E|].
by apply take_control_waits in Et.
Qed.

(** C32. A view that lost output and has taken what was left gets the screen: the next refresh
reaches it, its next [recv] gives the snapshot of the whole history, and the one after that
waits, with nothing left out. *)
Theorem behind_catches_up r id l l1 turns turns' c :
base < U64 -> reachable r -> shows (hist r) c -> lines r !! id = Some l -> (left_over l < turns)%nat -> (0 < turns')%nat ->
recv turns l = Ok (Waits, l1) -> l_behind l1 = true -> l_alive l1 = true ->
exists l2 l3, refresh c (upto (hist r)) (<[id := l1]> (lines r)) !! id = Some l2 /\
recv turns' l2 = Ok (Returns (Some (Control (Snapshot c (upto (hist r))))), l3) /\
recv turns' l3 = Ok (Waits, l3) /\ l_behind l3 = false.
Proof.
intros Hb Hr Hshows El Ht Ht' E Eb Ea. pose proof (reachable_ok r Hb Hr) as [Hu Hv].
destruct (Hv _ _ El) as (p & g & Ev & _ & Hs & _). destruct (recv_waits _ _ _ E) as (Er & Ed & Eo & Ec).
pose proof (sane_recv _ _ _ _ _ Hs E) as [Hn _ _ Ho]. destruct (Ho Eo) as [Ecl _]. specialize (Ec Ecl).
destruct turns' as [|turns']; [lia|].
eexists _, _. unfold refresh. rewrite lookup_fmap, lookup_insert_eq. cbn [fmap option_fmap option_map].
split; [done|]. unfold line_refresh, line_caught_up, is_active. rewrite Ea, Eo, Eb, Ed. cbn [negb andb length Nat.eqb].
unfold deliver. rewrite Ea, Ec. cbn [negb length]. change (0 <? CONTROL_CAPACITY)%nat with true. cbn [is_snapshot app].
split.
- cbn [recv]. unfold turn. cbn [l_sub with_control with_behind]. rewrite Er. unfold poll; cbn. rewrite Ecl. cbn.
rewrite (proj2 (N.ltb_ge _ _)) by done. cbn. reflexivity.
- cbn. unfold turn, ready. cbn. unfold poll. cbn. rewrite ?Ecl, ?Ed, ?Eo. cbn. rewrite ?Ed, ?Eo. done.
Qed.
End claims.

(** ** Two views *)

Module Example.
(** The screen of a history: its output. *)
Definition picture (h : list Item) : Checkpoint :=
MkCheckpoint None (Terminal.MkSize 24 80) (MkCell 9 18) (concat (map (fun i => match i with Out b => b | _ => [] end) h)) false.

Definition screen (h : list Item) (c : Checkpoint) : Prop := c = picture h.

Definition id : Uuid := repeat Byte.x01 16.

Definition attached (h : list Item) (s : t) : t := match attach 0 id h (length h) s with Ok s => s | _ => ∅ end.
Definition r_1 : Room := MkRoom (hist room) (attached (hist room) (lines room)) (<[id := (O, nothing)]> (views room)).

(** A small output and a size. *)
Definition small : bytes := [Byte.x61; Byte.x62].
Definition publish (b : bytes) (r : Room) : Room :=
MkRoom (hist r ++ [Out b]) (data (MkData (upto 0 (hist r)) b) (lines r)) (views r).
Definition resize (rows cols : N) (r : Room) : Room :=
MkRoom (hist r ++ [Sized rows cols (MkCell 9 18)]) (control (Resize rows cols (MkCell 9 18) (upto 0 (hist r))) (lines r)) (views r).
Definition r_2 : Room := publish small r_1.
Definition r_3 : Room := resize 30 90 r_2.

Definition line (r : Room) : Line := match lines r !! id with Some l => l | None => new_line 0 end.

Lemma attached_ok h s :
(match attach 0 id h (length h) s with Ok _ => true | _ => false end) = true -> attach 0 id h (length h) s = Ok (attached h s).
Proof. unfold attached. by destruct (attach _ _ _ _ _). Qed.

Lemma reach_1 : reachable 0 screen r_1.
Proof.
apply rtc_once. refine (step_attach 0 screen id 0 (attached (hist room) (lines room)) room _ _ _ _);
[vm_compute; reflexivity|cbn; lia|reflexivity|apply attached_ok; vm_compute; reflexivity].
Qed.

Lemma reach_step r r' : reachable 0 screen r -> step 0 screen r r' -> reachable 0 screen r'.
Proof. apply rtc_r. Qed.

Lemma reach_publish b r : reachable 0 screen r -> upto 0 (hist r) + 1 < U64 -> reachable 0 screen (publish b r).
Proof. intros Hr Hu. apply (reach_step r); [done|]. by apply step_output. Qed.


(** After the view got the output, the size is next. *)
Definition l_4 : Line := match recv 3 (line r_3) with Ok (_, l) => l | _ => line r_3 end.



(** A big output puts the view behind. *)
Definition big : bytes := repeat Byte.x61 (N.to_nat 65537).
Definition r_5 : Room := publish big r_1.
Definition l_5 : Line := line r_5.

Lemma reach_5 : reachable 0 screen r_5.
Proof. apply reach_publish; [apply reach_1|vm_compute; reflexivity]. Qed.

Lemma behind_catches_up_witness :
recv 1 l_5 = Ok (Waits, l_5) /\ l_behind l_5 = true /\
exists l2 l3, refresh (picture (hist r_5)) (upto 0 (hist r_5)) (<[id := l_5]> (lines r_5)) !! id = Some l2 /\
recv 1 l2 = Ok (Returns (Some (Control (Snapshot (picture (hist r_5)) (upto 0 (hist r_5))))), l3) /\
recv 1 l3 = Ok (Waits, l3) /\ l_behind l3 = false.
Proof.
assert (recv 1 l_5 = Ok (Waits, l_5)) as E by (vm_compute; reflexivity). split; [exact E|].
assert (l_behind l_5 = true) as Eb by (vm_compute; reflexivity). split; [exact Eb|].
apply (behind_catches_up 0 screen r_5 id l_5 l_5 1 1 (picture (hist r_5))).
- reflexivity.
- apply reach_5.
- reflexivity.
- vm_compute. reflexivity.
- vm_compute. lia.
- lia.
- exact E.
- exact Eb.
- vm_compute. reflexivity.
Defined.

(** ** What ends a view *)

(** The screen that a view asked for reaches it after an output that came later, and the view
ends. *)
Definition cut_0 : Cut := MkCut (picture []) 0.

Lemma late_screen_ends_view :
recv 2 (refresh_view cut_0 l_4) = Err (SubInvalid "terminal refresh snapshot regressed").
Proof. vm_compute. reflexivity. Qed.

(** The screen that a view asked for before a size, and that reaches it after that size: it shows
the size of before, and no size follows. *)
Definition resized : Room := resize 30 90 r_1.
Definition l_sized : Line := match recv 2 (line resized) with Ok (_, l) => l | _ => line resized end.

Lemma asked_screen_shows_old_size :
recv 2 (line resized) = Ok (Returns (Some (Control (Resize 30 90 (MkCell 9 18) 0))), l_sized) /\
exists l, recv 1 (refresh_view cut_0 l_sized) = Ok (Returns (Some (Control (Snapshot (picture []) 0))), l) /\
k_size (picture []) = Terminal.MkSize 24 80 /\ recv 1 l = Ok (Waits, l).
Proof.
split; [vm_compute; reflexivity|]. eexists. split; [vm_compute; reflexivity|]. split; vm_compute; reflexivity.
Qed.

(** A size and an output that come between the two looks of [recv]: it takes the output, and
the size is late. *)
Definition r_6 : Room := publish small (resize 30 90 r_1).
Definition l_6 : Line := match turn true (line r_6) with Ok (_, l) => l | _ => line r_6 end.

Lemma late_size_ends_view :
recv 2 (line r_6) = Ok (Returns (Some (Control (Resize 30 90 (MkCell 9 18) 0))),
with_sub (with_control (line r_6) []) (MkSubscription 0 [] None None)) /\
overtakes (line r_6) = true /\ gets_late (Returns (Some (Data (MkData 0 small)))) (line r_6) nothing = MkGot [] [Data (MkData 0 small)] false /\
recv 2 l_6 = Err (SubInvalid "terminal resize arrived out of order").
Proof. repeat split; vm_compute; reflexivity. Qed.

(** A view that lost output gets its screen and the output after it between the two looks: it
takes the output first and asks for a screen, which is what waits for it. *)
Definition r_7 : Room :=
publish small (MkRoom (hist r_5) (refresh (picture (hist r_5)) (upto 0 (hist r_5)) (lines r_5)) (views r_5)).

Lemma late_snapshot_ends_view :
turn true (line r_7) = Err (SubInvalid "terminal output needs a fresh snapshot") /\
match recv 1 (line r_7) with Ok (Returns (Some (Control (Snapshot _ n))), _) => n = 1 | _ => False end.
Proof. split; vm_compute; reflexivity. Qed.
End Example.
