(* ===== verification/Remote.v ===== *)
(** [runtime/src/terminal/remote.rs]: a terminal of another computer as this one keeps it.  The
    actor [RemoteActor] takes the updates of a connection and gives them to the views here
    ([Subscribers]), asks for the screen when a view needs one, sends what the views type and
    ask in order, and goes on with another connection when one is lost.

    A reply is the number of the [oneshot] channel on which it goes; what is sent is an
    [Effect].  A token of a view that was authorized is cancelled when the view is not active
    any more.  What the actor finds outside of it at a turn is a [World]. *)

From stdpp Require Import pretty.
From S2P Require Import Prelude Json Utf Terminal Wire Stream Viewer Subscribers.
Open Scope N_scope.

Module Remote.
Section remote.
Context `{Sha256}.

(** What restoring a snapshot in the terminal library fails with. *)
Variable restore_error : Checkpoint -> option string.

Definition CONTROL_CAPACITY : nat := 64.
Definition PICTURES_WAITING : nat := 8.
Definition PICTURE_LOST : string := "The connection to the other computer was lost, so the picture did not arrive. Paste it again.".
Definition INPUT_BUDGET : N := 4 * 1024 * 1024.
Definition BOOTSTRAP_TIMEOUT : N := 5000.
Definition RECONNECT_WAIT : N := 10000.
Definition RECONNECTING : string := "The connection to the other computer is not back yet, so Kodosi did not send this.".
Definition MERGED_INPUT_BYTES : N := 64 * 1024.
(** Of [terminal/mod.rs]. *)
Definition TYPING : N := 3000.
Definition SOMEONE_TYPING : string := "Someone is typing in this terminal. Try again in a moment.".

(** The errors of the connection, by what [Error::from] makes of them: [NRefused] becomes
[Invalid], and [NFailed] is any other with its text. *)
Inductive NetErr : Type := NBusy | NStale | NClosed | NRefused (reason : string) | NFailed (reason : string).

(** The errors of the runtime that the actor uses. *)
Inductive RError : Type := RInvalid (reason : string) | RBusy | RStale | RStopped | ROther (reason : string).

Definition net_text (e : NetErr) : string :=
match e with
| NBusy => "The connection is busy; try again."
| NStale => "This request belongs to an earlier account connection."
| NClosed => "The connection has closed."
| NRefused reason | NFailed reason => reason
end.

(** [Error::from]. *)
Definition from_net (e : NetErr) : RError :=
match e with
| NBusy => RBusy
| NStale => RStale
| NRefused reason => RInvalid reason
| NClosed | NFailed _ => ROther (net_text e)
end.

(** [Error::to_string]. *)
Definition error_text (e : RError) : string :=
match e with
| RInvalid reason | ROther reason => reason
| RBusy => "Kodosi is busy. Try again."
| RStale => "The terminal or the account changed. Try again."
| RStopped => "Kodosi has stopped."
end.

Definition from_sub (e : SubError) : RError :=
match e with SubInvalid reason => RInvalid reason | SubBusy => RBusy | SubStale => RStale end.

(** ** Requests and what goes out *)

Record QueuedControl : Type := MkQueued {
q_connection : option Uuid; q_control : TerminalControl; q_reply : option N; q_budget : option N
}.

Inductive CaptureReply : Type := CaptureSubscribe (reply : N) | CaptureCheckpoint (connection : Uuid) (reply : N).

Record PendingCapture : Type := MkCapture { c_reply : CaptureReply; c_minimum : N; c_deadline : N }.

Inductive Request : Type :=
| Reconnected (incarnation : Uuid)
| Subscribe (reply : N)
| AskScreen (connection : Uuid) (reply : N)
| Unsubscribe (connection : Uuid)
| AskControl (queued : QueuedControl)
| AskCanvas (request : CanvasRequest) (reply : N)
| AskDocument (pipe : Uuid) (key name : string) (reply : N)
| AskPicture (picture : Stream.Picture) (reply : N).

Inductive PictureState : Type := PictureSending | PictureSent | PictureFailed.

(** [SessionChange], as far as the actor sends it. *)
Inductive Change : Type :=
| ChangeMetadata (metadata : TerminalMetadata)
| RemoteInterrupted (reason : string)
| RemotePaused
| RemoteWanted
| ChangePicture (state : PictureState) (sent total : N) (message : option string)
| RemoteEnded
| RemoteClosed (reason : string).

Inductive Effect : Type :=
| Replied (reply : N) (answer : Result RError Value)
| RepliedView (reply : N) (answer : Result RError (Uuid * Checkpoint * N))
| RepliedScreen (reply : N) (answer : Result RError Cut)
| RepliedDone (reply : N) (answer : Result RError unit)
| RepliedPipe (reply : N) (answer : Result RError unit)
| Changed (change : Change)
(** [request_checkpoint], [send_control] of the actor, that of a canvas request in a task of
its own, [open_pipe], [send_picture] and [disconnect] of the connection, or of a new one. *)
| AskedScreen
| SentControl (control : TerminalControl)
| SentCanvas (request : CanvasRequest) (reply : N)
| OpenedPipe (pipe : Uuid) (key name : string)
| SentPicture (picture : Stream.Picture)
| Disconnected
| DisconnectedNew.

(** [CaptureReply::reject]. *)
Definition reject_capture (r : CaptureReply) (e : RError) : Effect :=
match r with
| CaptureSubscribe reply => RepliedView reply (Err e)
| CaptureCheckpoint _ reply => RepliedScreen reply (Err e)
end.

Definition capture_reply (r : CaptureReply) : N := match r with CaptureSubscribe reply | CaptureCheckpoint _ reply => reply end.

(** [reject]. *)
Definition reject (r : Request) (e : RError) : list Effect :=
match r with
| AskCanvas _ reply => [Replied reply (Err e)]
| AskDocument _ _ _ reply => [RepliedPipe reply (Err e)]
| _ => []
end.

(** [wakes]. *)
Definition wakes (r : Request) : bool :=
match r with
| AskControl queued => match q_control queued with CtlResize _ _ _ _ _ _ _ | CtlFocus _ => false | _ => true end
| Subscribe _ | AskScreen _ _ | AskCanvas _ _ | AskDocument _ _ _ _ | AskPicture _ _ => true
| Reconnected _ | Unsubscribe _ => false
end.

(** ** The state *)

#[export] Instance TerminalSize_eq_dec : EqDecision TerminalSize.
Proof. solve_decision. Defined.

Inductive Link : Type := Open | Lost | Paused | Waking.

#[export] Instance Link_eq_dec : EqDecision Link.
Proof. solve_decision. Defined.

(** The fields of the actor for the screen, *)
Record Screen : Type := MkScreen {
subscribers : Subscribers.t; pending : list PendingCapture; capture_requested : bool; capture_due : N;
next_sequence : option N; delivered : N; recent : list DataFrame; grid : option (TerminalSize * CellPixels);
last_resize : option N; future_checkpoint : option Cut; resyncing : bool
}.

Record RequestedResize : Type := MkRequested { rr_control : TerminalControl; rr_turn : N }.

Record InFlight : Type := MkInFlight {
f_replies : list N; f_input : bool; f_focus : option bool; f_owner : option Uuid; f_budgets : list N
}.

(** for what is asked, *)
Record Controls : Type := MkControls {
queued : list QueuedControl; in_flight : option InFlight; focused : gset Uuid; confirmed_focus : bool;
resize_owner : option Uuid; requested : gmap Uuid RequestedResize; typed_at : option N
}.

(** for the connection; [asking] is how many tasks ask the canvas, *)
Record Conn : Type := MkConn {
link : Link; lost_at : option N; incarnation : Uuid; held : list Request; asking : N; documents : list Uuid
}.

(** and for pictures. *)
Record Sending : Type := MkSending { s_digest : bytes; s_total : N }.

Record Pictures : Type := MkPics { pictures : list Stream.Picture; sending : option Sending }.

(** [RemoteActor], with what it sent. *)
Record t : Type := Mk {
screen : Screen; controls : Controls; conn : Conn; pics : Pictures; metadata : option TerminalMetadata;
out : list Effect
}.

(** What the actor finds: the time, whether the receiver of a reply is gone when it looks and
when it sends, the id that a new view gets, whether the channel of changes is full, what the
connection answers at once, the order of a [HashSet], the views of documents that are open,
whether the terminal is hidden, and how many requests wait. *)
Record World : Type := MkWorld {
w_now : N; w_closed : N -> bool; w_gone : N -> bool; w_new : N -> Uuid; w_full : bool;
w_asked : option NetErr; w_piped : option NetErr; w_done : option (Result NetErr Value);
w_order : gset Uuid -> list Uuid; w_document : Uuid -> bool; w_hidden : bool; w_requests : nat
}.

Definition with_screen (a : t) screen : t := Mk screen (controls a) (conn a) (pics a) (metadata a) (out a).
Definition with_controls (a : t) controls : t := Mk (screen a) controls (conn a) (pics a) (metadata a) (out a).
Definition with_conn (a : t) conn : t := Mk (screen a) (controls a) conn (pics a) (metadata a) (out a).
Definition with_pics (a : t) pics : t := Mk (screen a) (controls a) (conn a) pics (metadata a) (out a).
Definition with_metadata (a : t) metadata : t := Mk (screen a) (controls a) (conn a) (pics a) metadata (out a).
Definition tell (a : t) (l : list Effect) : t := Mk (screen a) (controls a) (conn a) (pics a) (metadata a) (out a ++ l).

Definition with_subscribers (s : Screen) subscribers : Screen :=
MkScreen subscribers (pending s) (capture_requested s) (capture_due s) (next_sequence s) (delivered s) (recent s) (grid s)
(last_resize s) (future_checkpoint s) (resyncing s).
Definition with_pending (s : Screen) pending : Screen :=
MkScreen (subscribers s) pending (capture_requested s) (capture_due s) (next_sequence s) (delivered s) (recent s) (grid s)
(last_resize s) (future_checkpoint s) (resyncing s).
Definition with_capture (s : Screen) capture_requested capture_due : Screen :=
MkScreen (subscribers s) (pending s) capture_requested capture_due (next_sequence s) (delivered s) (recent s) (grid s)
(last_resize s) (future_checkpoint s) (resyncing s).
Definition with_next (s : Screen) next_sequence : Screen :=
MkScreen (subscribers s) (pending s) (capture_requested s) (capture_due s) next_sequence (delivered s) (recent s) (grid s)
(last_resize s) (future_checkpoint s) (resyncing s).
Definition with_recent (s : Screen) recent : Screen :=
MkScreen (subscribers s) (pending s) (capture_requested s) (capture_due s) (next_sequence s) (delivered s) recent (grid s)
(last_resize s) (future_checkpoint s) (resyncing s).
Definition with_future (s : Screen) future_checkpoint : Screen :=
MkScreen (subscribers s) (pending s) (capture_requested s) (capture_due s) (next_sequence s) (delivered s) (recent s) (grid s)
(last_resize s) future_checkpoint (resyncing s).
Definition with_resyncing (s : Screen) resyncing : Screen :=
MkScreen (subscribers s) (pending s) (capture_requested s) (capture_due s) (next_sequence s) (delivered s) (recent s) (grid s)
(last_resize s) (future_checkpoint s) resyncing.

Definition with_queued (c : Controls) queued : Controls :=
MkControls queued (in_flight c) (focused c) (confirmed_focus c) (resize_owner c) (requested c) (typed_at c).
Definition with_in_flight (c : Controls) in_flight : Controls :=
MkControls (queued c) in_flight (focused c) (confirmed_focus c) (resize_owner c) (requested c) (typed_at c).
Definition with_focused (c : Controls) focused : Controls :=
MkControls (queued c) (in_flight c) focused (confirmed_focus c) (resize_owner c) (requested c) (typed_at c).
Definition with_confirmed (c : Controls) confirmed_focus : Controls :=
MkControls (queued c) (in_flight c) (focused c) confirmed_focus (resize_owner c) (requested c) (typed_at c).
Definition with_owner (c : Controls) resize_owner : Controls :=
MkControls (queued c) (in_flight c) (focused c) (confirmed_focus c) resize_owner (requested c) (typed_at c).
Definition with_requested (c : Controls) requested : Controls :=
MkControls (queued c) (in_flight c) (focused c) (confirmed_focus c) (resize_owner c) requested (typed_at c).
Definition with_typed (c : Controls) typed_at : Controls :=
MkControls (queued c) (in_flight c) (focused c) (confirmed_focus c) (resize_owner c) (requested c) typed_at.

Definition with_link (c : Conn) link : Conn := MkConn link (lost_at c) (incarnation c) (held c) (asking c) (documents c).
Definition with_held (c : Conn) held : Conn := MkConn (link c) (lost_at c) (incarnation c) held (asking c) (documents c).
Definition with_asking (c : Conn) asking : Conn := MkConn (link c) (lost_at c) (incarnation c) (held c) asking (documents c).
Definition with_documents (c : Conn) documents : Conn := MkConn (link c) (lost_at c) (incarnation c) (held c) (asking c) documents.

(** [RemoteActor::new]. *)
Definition new (incarnation : Uuid) (now : N) : t :=
Mk (MkScreen ∅ [] false now None 0 [] None None None false)
(MkControls [] None ∅ false None ∅ None) (MkConn Open None incarnation [] 0 []) (MkPics [] None) None [].

(** ** The screen *)

(** [reset]. *)
Definition reset (s : Screen) : Screen :=
MkScreen (subscribers s) (pending s) (capture_requested s) (capture_due s) None (default (delivered s) (next_sequence s)) []
(grid s) None None true.

(** [geometry]. *)
Definition geometry (size : TerminalSize) (cell : CellPixels) (cut : N) (s : Screen) : Screen :=
let changed := match grid s with
| Some previous => negb (bool_decide (previous = (size, cell)))
| None => false
end in
MkScreen (if changed then Subscribers.control (Resize (s_rows size) (s_cols size) cell cut) (subscribers s) else subscribers s)
(pending s) (capture_requested s) (capture_due s) (next_sequence s) (delivered s) (recent s) (Some (size, cell))
(if changed then Some cut else last_resize s) (future_checkpoint s) (resyncing s).
(** An answer of [fulfill] to what waits for a screen: the views, whether it waits on, and what
is sent. *)
Definition answer (w : World) (checkpoint : Checkpoint) (cut current : N) (replayable : bool) (recent : list DataFrame)
(waiting : PendingCapture) (subs : Subscribers.t) : Subscribers.t * bool * list Effect :=
if w_closed w (capture_reply (c_reply waiting)) then (subs, false, [])
else if (cut <? c_minimum waiting) || (current <? cut) then (subs, true, [])
else
match c_reply waiting with
| CaptureCheckpoint connection reply =>
(subs, false,
[RepliedScreen reply
match Subscribers.authorization connection subs with
| Ok _ => Ok (MkCut checkpoint cut)
| Err e => Err (from_sub e)
| Panic => Panic
end])
| CaptureSubscribe reply =>
if negb replayable then (subs, true, [])
else
let id := w_new w reply in
match Subscribers.subscribe id cut subs with
| Ok subs =>
let frames := filter (fun f => cut <= d_sequence f) recent in
let '(sent, subs) := Subscribers.replay id frames subs in
if negb sent then (Subscribers.remove id subs, false, [RepliedView reply (Err RBusy)])
else if w_gone w reply then (Subscribers.remove id subs, false, [])
else (subs, false, [RepliedView reply (Ok (id, checkpoint, cut))])
| Err e => (Subscribers.prune subs, false, [RepliedView reply (Err (from_sub e))])
| Panic => (subs, false, [])
end
end.

(** Its loop, which keeps the order of what waits on. *)
Fixpoint answers (w : World) (checkpoint : Checkpoint) (cut current : N) (replayable : bool) (recent : list DataFrame)
(pending : list PendingCapture) (subs : Subscribers.t) : Subscribers.t * list PendingCapture * list Effect :=
match pending with
| [] => (subs, [], [])
| waiting :: pending =>
let '(subs, stays, told) := answer w checkpoint cut current replayable recent waiting subs in
let '(subs, kept, tolds) := answers w checkpoint cut current replayable recent pending subs in
(subs, (if stays : bool then [waiting] else []) ++ kept, told ++ tolds)
end.

(** Whether a view can start at [cut] and get the output that came after. *)
Definition can_replay (cut current : N) (s : Screen) : bool :=
(cut <=? current) &&
((cut =? current) ||
(match recent s with f :: _ => d_sequence f <=? cut | [] => false end &&
none_or (fun sequence => sequence <? cut) (last_resize s))).

(** [fulfill]. *)
Definition fulfill (w : World) (checkpoint : Checkpoint) (cut : N) (s : Screen) : Screen * list Effect :=
let current := default cut (next_sequence s) in
let subs := if cut =? current then Subscribers.refresh checkpoint cut (subscribers s) else subscribers s in
let '(subs, kept, told) := answers w checkpoint cut current (can_replay cut current s) (recent s) (pending s) subs in
(with_pending (with_subscribers s subs) kept, told).

(** [request_capture]. *)
Definition request_capture (w : World) (linked : Link) (s : Screen) : Screen * list Effect * Result RError unit :=
if negb (bool_decide (linked = Open)) then (s, [], Ok tt)
else if negb (capture_requested s) && bool_decide (future_checkpoint s = None)
&& (negb (length (pending s) =? 0)%nat || Subscribers.caught_up (subscribers s))
then
match w_asked w with
| Some e => (s, [], Err (from_net e))
| None => (with_capture s true (w_now w + BOOTSTRAP_TIMEOUT), [AskedScreen], Ok tt)
end
else (s, [], Ok tt).

(** [add_capture]. *)
Definition add_capture (w : World) (linked : Link) (reply : CaptureReply) (s : Screen) :
Screen * list Effect * Result RError unit :=
if (32 <=? length (pending s))%nat then (s, [reject_capture reply RBusy], Ok tt)
else if match reply with CaptureCheckpoint connection _ => negb (Subscribers.contains connection (subscribers s)) | _ => false end
then (s, [reject_capture reply RStale], Ok tt)
else
request_capture w linked
(with_pending s (pending s ++ [MkCapture reply (default 0 (next_sequence s)) (w_now w + BOOTSTRAP_TIMEOUT)])).

(** ** Updates *)

(** [update] for output. *)
Definition raw (w : World) (sequence : N) (output : bytes) (s : Screen) : Result RError (Screen * list Effect) :=
match next_sequence s with
| None => Err (ROther "Remote output arrived before a terminal snapshot.")
| Some expected =>
if negb (sequence =? expected) || (Subscribers.MAX_RAW_BYTES <? len output)
then Err (ROther "Remote output is out of order or exceeds its buffer bound.")
else if negb (sequence + 1 <? U64) then Err (ROther "Terminal output sequence exhausted.")
else
let next := sequence + 1 in
let frame := MkData sequence output in
let recent := recent s ++ [frame] in
let s := with_recent s (drop (length recent - Subscribers.DATA_CAPACITY) recent) in
let s := with_next (with_subscribers s (Subscribers.data frame (subscribers s))) (Some next) in
match future_checkpoint s with
| Some cut =>
if cut_next cut =? next then
let s := geometry (k_size (cut_checkpoint cut)) (k_cell (cut_checkpoint cut)) next (with_future s None) in
Ok (fulfill w (cut_checkpoint cut) next s)
else Ok (s, [])
| None => Ok (s, [])
end
end.

(** [update] for a snapshot. *)
Definition checkpointed (w : World) (checkpoint : Checkpoint) (cut : N) (s : Screen) : Screen * list Effect :=
let s := with_capture s false (capture_due s) in
let sized := geometry (k_size checkpoint) (k_cell checkpoint) cut in
match next_sequence s with
| None =>
let s := with_next s (Some cut) in
let s := if resyncing s
then with_resyncing (with_subscribers s (Subscribers.control (Snapshot checkpoint cut) (subscribers s))) false
else s in
fulfill w checkpoint cut (sized s)
| Some current =>
if current <? cut then
if match future_checkpoint s with Some existing => cut_next existing <=? cut | None => true end
then (with_future s (Some (MkCut checkpoint cut)), []) else (s, [])
else if cut =? current then fulfill w checkpoint cut (sized s)
else fulfill w checkpoint cut s
end.

(** [update] for a size. *)
Definition resized (rows cols : N) (cell : CellPixels) (at_sequence : N) (s : Screen) : Result RError Screen :=
if negb (bool_decide (next_sequence s = Some at_sequence)) then Err (ROther "Remote resize arrived out of order.")
else
match new_size rows cols with
| None => Err (RInvalid ("invalid terminal size " +:+ pretty rows +:+ "x" +:+ pretty cols))
| Some size => Ok (geometry size cell at_sequence s)
end.

(** [picture_progress]. *)
Definition picture_progress (w : World) (sent total : N) (a : t) : t :=
match sending (pics a) with
| Some s => if (s_total s =? total) && negb (w_full w) then tell a [Changed (ChangePicture PictureSending sent total None)] else a
| None => a
end.

(** [update]: a failure leaves the actor as it was. *)
Definition update (w : World) (u : Viewer.RemoteUpdate) (a : t) : Result RError t :=
match u with
| Viewer.URaw sequence output =>
'(s, told) ← raw w sequence output (screen a); Ok (tell (with_screen a s) told)
| Viewer.UCheckpoint checkpoint cut =>
match restore_error checkpoint with
| Some e => Err (ROther ("Ghostty terminal checkpoint validation failed: " +:+ e))
| None =>
let a := match k_metadata checkpoint with Some m => with_metadata a (Some m) | None => a end in
let '(s, told) := checkpointed w checkpoint cut (screen a) in Ok (tell (with_screen a s) told)
end
| Viewer.UMetadata m => Ok (with_metadata a (Some m))
| Viewer.UResize rows cols cell at_sequence => s ← resized rows cols cell at_sequence (screen a); Ok (with_screen a s)
| Viewer.UResync => Ok (with_screen a (reset (screen a)))
| Viewer.UPicture sent total => Ok (picture_progress w sent total a)
| Viewer.UEnded | Viewer.UClosed _ => Err RStopped
end.
(** ** What is asked *)

Definition reply_to (reply : option N) (answer : Result RError Value) : list Effect :=
match reply with Some reply => [Replied reply answer] | None => [] end.

Definition gone (w : World) (reply : option N) : bool := match reply with Some reply => w_closed w reply | None => false end.

Definition is_input (c : TerminalControl) : bool := match c with CtlInput _ => true | _ => false end.
Definition is_size (c : TerminalControl) : bool := match c with CtlResize _ _ _ _ _ _ _ => true | _ => false end.

(** The size that goes after a view gets the focus, in [queue]: [None] when an input is refused
because someone types. *)
Definition follow_up (now : N) (subs : Subscribers.t) (q : QueuedControl) (c : Controls) : option (option (Uuid * TerminalControl) * Controls) :=
match q_connection q, q_control q with
| Some _, CtlInput _ => Some (None, with_typed c (Some now))
| Some id, CtlFocus true =>
if match resize_owner c with Some owner => bool_decide (owner = id) && Subscribers.contains owner subs | None => false end
then Some (None, c)
else Some ((fun r => (id, rr_control r)) <$> requested c !! id, c)
| None, CtlInput _ =>
if match typed_at c with Some at_ => now - at_ <? TYPING | None => false end then None else Some (None, c)
| _, _ => Some (None, c)
end.

(** [queue]. *)
Definition queue (w : World) (subs : Subscribers.t) (q : QueuedControl) (c : Controls) : Controls * list Effect * Result RError unit :=
if (CONTROL_CAPACITY <=? length (queued c))%nat then
match q_reply q with
| Some reply => (c, [Replied reply (Err RBusy)], Ok tt)
| None => (c, [], Err (ROther "Remote input exceeded its connection buffer, and Kodosi did not send it again."))
end
else
match follow_up (w_now w) subs q c with
| None => (c, reply_to (q_reply q) (Err (RInvalid SOMEONE_TYPING)), Ok tt)
| Some (resize, c) =>
(with_queued c (queued c ++ q ::
match resize with Some (id, control) => [MkQueued (Some id) control None None] | None => [] end), [], Ok tt)
end.

(** [RequestedResize::size]. *)
Definition requested_size (r : RequestedResize) : option (N * N) :=
match rr_control r with CtlResize rows cols _ _ _ _ _ => Some (rows, cols) | _ => None end.

(** [validate_resize]. *)
Definition validate_resize (rows cols width height cell_width cell_height : N) : Result RError unit :=
match new_size rows cols with
| None => Err (RInvalid ("invalid terminal size " +:+ pretty rows +:+ "x" +:+ pretty cols))
| Some size =>
if forallb (N.eqb 0) [width; height; cell_width; cell_height] then Ok tt
else
match (g ← new_geometry width height cell_width cell_height; validate_for_size g size) with
| None =>
Err (RInvalid ("invalid terminal pixel geometry " +:+ pretty width +:+ "x" +:+ pretty height +:+ " with " +:+
pretty cell_width +:+ "x" +:+ pretty cell_height +:+ " cells"))
| Some g =>
if negb (g_width g <? U16) then Err (RInvalid "terminal pixel width exceeds the PTY limit")
else if negb (g_height g <? U16) then Err (RInvalid "terminal pixel height exceeds the PTY limit")
else Ok tt
end
end.

(** [check_resize]: the view that asks, and the control with its claim. *)
Definition check_resize (subs : Subscribers.t) (connection : option Uuid) (control : TerminalControl) (c : Controls) :
Controls * Result RError (Uuid * TerminalControl) :=
match connection with
| None => (c, Err RStale)
| Some id =>
let turn := match requested c !! id with Some r => rr_turn r | None => 0 end in
let c := with_requested c (<[id := MkRequested control turn]> (requested c)) in
match control with
| CtlResize rows cols width height cell_width cell_height claim =>
match validate_resize rows cols width height cell_width cell_height with
| Err e => (c, Err e)
| Panic => (c, Panic)
| Ok _ =>
let claim := claim || bool_decide (id ∈ focused c) in
if match resize_owner c with Some owner => negb (bool_decide (owner = id)) && Subscribers.contains owner subs | None => false end
&& negb claim
then (c, Err (RInvalid "Another terminal view controls the size. Focus this view to resize it."))
else (c, Ok (id, CtlResize rows cols width height cell_width cell_height claim))
end
| _ => (c, Err (RInvalid "Expected a terminal resize."))
end
end.

(** [begin]. *)
Definition begin_ (control : TerminalControl) (replies : list N) (owner : option Uuid) (budgets : list N) (c : Controls) :
Controls * list Effect :=
(with_in_flight c (Some (MkInFlight replies (is_input control)
match control with CtlFocus f => Some f | _ => None end owner budgets)), [SentControl control]).

(** [merge_input]: the input with its replies and budgets, and what is left. *)
Fixpoint merge_input (w : World) (connection : option Uuid) (input : bytes) (replies budgets : list N) (queue : list QueuedControl) :
bytes * list N * list N * list QueuedControl :=
match queue with
| q :: rest =>
match q_control q with
| CtlInput more =>
if bool_decide (q_connection q = connection) && (len input + len more <=? MERGED_INPUT_BYTES) then
if gone w (q_reply q) then merge_input w connection input replies budgets rest
else merge_input w connection (input ++ more) (replies ++ option_list (q_reply q)) (budgets ++ option_list (q_budget q)) rest
else (input, replies, budgets, queue)
| _ => (input, replies, budgets, queue)
end
| [] => (input, replies, budgets, [])
end.

(** The loop of [next_control]. *)
Fixpoint take_next (w : World) (subs : Subscribers.t) (queue : list QueuedControl) (c : Controls) : Controls * list Effect :=
match queue with
| [] => (with_queued c [], [])
| q :: rest =>
let skip c told := let '(c, tolds) := take_next w subs rest c in (c, told ++ tolds) in
let replies := option_list (q_reply q) in
let budgets := option_list (q_budget q) in
let go control owner c := begin_ control replies owner budgets (with_queued c rest) in
if gone w (q_reply q) then skip c []
else
match (match q_connection q with Some id => Subscribers.authorization id subs | None => Ok tt end) with
| Err e => skip c (reply_to (q_reply q) (Err (from_sub e)))
| Panic => (c, [])
| Ok _ =>
match q_control q with
| CtlFocus f =>
match q_connection q with
| None => skip c (reply_to (q_reply q) (Err RStale))
| Some id =>
let c := with_focused c (if f then {[id]} ∪ focused c else focused c ∖ {[id]}) in
let f := negb (size (focused c) =? 0)%nat in
if Bool.eqb f (confirmed_focus c) then skip c (reply_to (q_reply q) (Ok Null))
else go (CtlFocus f) None c
end
| CtlResize _ _ _ _ _ _ _ as control =>
let '(c, checked) := check_resize subs (q_connection q) control c in
match checked with
| Err e => skip c (reply_to (q_reply q) (Err e))
| Panic => (c, [])
| Ok (id, control) => go control (Some id) c
end
| CtlInput input =>
let '(input, more, more_budgets, rest) := merge_input w (q_connection q) input [] [] rest in
begin_ (CtlInput input) (replies ++ more) None (more_budgets ++ budgets) (with_queued c rest)
| control => go control None c
end
end
end.

(** [Iterator::max_by_key]: the last of the greatest. *)
Fixpoint max_by_key {A} (key : A -> N) (l : list A) (best : option A) : option A :=
match l with
| [] => best
| x :: l => max_by_key key l (match best with Some b => if key x <? key b then Some b else Some x | None => Some x end)
end.

(** [give_size_back]. *)
Definition give_size_back (w : World) (s : Screen) (owner : Uuid) (c : Controls) : Controls :=
let current := (fun g : TerminalSize * CellPixels => (s_rows g.1, s_cols g.1)) <$> grid s in
if bool_decide (current = None) || negb (bool_decide ((requested c !! owner ≫= requested_size) = current)) then c
else
let candidates := omap (fun id => (fun r => (id, r)) <$> requested c !! id)
(filter (fun id => Subscribers.contains id (subscribers s) = true) (w_order w (focused c))) in
match max_by_key (fun e : Uuid * RequestedResize => rr_turn e.2) candidates None with
| None => c
| Some (id, r) =>
if existsb (fun q => bool_decide (q_connection q = Some id) && is_size (q_control q)) (queued c) then c
else with_queued c (queued c ++ [MkQueued (Some id) (rr_control r) None None])
end.

(** [next_control]. *)
Definition next_control (w : World) (s : Screen) (c : Controls) : Controls * list Effect :=
if bool_decide (is_Some (in_flight c)) || bool_decide (next_sequence s = None) then (c, [])
else
let subs := subscribers s in
let c := match resize_owner c with
| Some owner => if Subscribers.contains owner subs then c else give_size_back w s owner (with_owner c None)
| None => c
end in
let c := with_focused c (filter (fun id => Subscribers.contains id subs = true) (focused c)) in
let c := with_requested c (filter (fun e : Uuid * RequestedResize => Subscribers.contains e.1 subs = true) (requested c)) in
let aggregate := negb (size (focused c) =? 0)%nat in
if negb (Bool.eqb aggregate (confirmed_focus c)) then begin_ (CtlFocus aggregate) [] None [] c
else take_next w subs (queued c) c.

(** The answers of [finish_control]: the first has the value or the error, the others its text. *)
Definition confirm (result : Result NetErr Value) (replies : list N) : list Effect :=
match replies with
| [] => []
| first :: rest =>
Replied first (match result with Ok v => Ok v | Err e => Err (from_net e) | Panic => Panic end) ::
map (fun reply => Replied reply (match result with Err e => Err (ROther (net_text e)) | _ => Ok Null end)) rest
end.

(** [finish_control]: what it failed with ends the connection. *)
Definition finish_control (result : Result NetErr Value) (c : Controls) : Controls * list Effect * Result RError unit :=
match in_flight c with
| None => (c, [], Err RStopped)
| Some active =>
let c := with_in_flight c None in
let answers := confirm result (f_replies active) in
match result with
| Ok _ =>
let c := match f_focus active with Some f => with_confirmed c f | None => c end in
let c := match f_owner active with
| Some owner =>
let latest := map_fold (fun _ r most => N.max (rr_turn r) most) 0 (requested c) in
let turn := if bool_decide (requested c = ∅) then 1 else latest + 1 in
with_owner (with_requested c (alter (fun r => MkRequested (rr_control r) turn) owner (requested c))) (Some owner)
| None => c
end in
(c, answers, Ok tt)
| Err e =>
let fatal := f_input active || bool_decide (is_Some (f_focus active)) || match e with NClosed | NStale => true | _ => false end in
(c, answers,
if fatal
then Err (ROther ("The remote terminal did not confirm the control (" +:+ net_text e +:+ "), and Kodosi did not send it again."))
else Ok tt)
| Panic => (c, answers, Panic)
end
end.
(** ** Pictures *)

(** [wait_picture]. *)
Definition wait_picture (p : Stream.Picture) (s : Pictures) : Pictures * Result RError unit :=
if match sending s with Some x => bool_decide (s_digest x = Stream.pic_digest p) | None => false end ||
existsb (fun x => bool_decide (Stream.pic_digest x = Stream.pic_digest p)) (pictures s)
then (s, Ok tt)
else if (PICTURES_WAITING <=? length (pictures s))%nat
then (s, Err (RInvalid "Kodosi still sends earlier pictures to this terminal. Paste this one in a moment."))
else (MkPics (pictures s ++ [p]) (sending s), Ok tt).

(** [next_picture]. *)
Definition next_picture (a : t) : t :=
if bool_decide (is_Some (sending (pics a))) || bool_decide (next_sequence (screen a) = None) then a
else
match pictures (pics a) with
| [] => a
| p :: rest =>
let total := len (Stream.pic_bytes p) in
tell (with_pics a (MkPics rest (Some (MkSending (Stream.pic_digest p) total))))
[SentPicture p; Changed (ChangePicture PictureSending 0 total None)]
end.

(** The arm of [step] for a picture that was sent. *)
Definition picture_sent (result : Result NetErr unit) (a : t) : t :=
match sending (pics a) with
| None => a
| Some s =>
let '(state, message) := match result with Err e => (PictureFailed, Some (net_text e)) | _ => (PictureSent, None) end in
tell (with_pics a (MkPics (pictures (pics a)) None)) [Changed (ChangePicture state (s_total s) (s_total s) message)]
end.

(** ** The connection *)

Definition set_link (l : Link) (a : t) : t := with_conn a (with_link (conn a) l).

Definition is_open (a : t) : bool := bool_decide (link (conn a) = Open).

(** [dormant]. *)
Definition dormant (a : t) : bool := match link (conn a) with Paused | Waking => true | _ => false end.

(** [lost_too_long]. *)
Definition lost_too_long (now : N) (a : t) : bool :=
match link (conn a), lost_at (conn a) with Lost, Some at_ => RECONNECT_WAIT <=? now - at_ | _, _ => false end.

(** [interrupt]: [Some] reason ends the terminal. *)
Definition interrupt (w : World) (reason : string) (a : t) : t * option string :=
let a := with_screen a (with_subscribers (screen a) (Subscribers.prune (subscribers (screen a)))) in
if Subscribers.is_empty (subscribers (screen a)) then (a, Some reason)
else
let c := conn a in
let a := with_conn a (MkConn Lost (Some (default (w_now w) (lost_at c))) (incarnation c) (held c) (asking c) (documents c)) in
let refused := match in_flight (controls a) with
| Some active => map (fun reply => Replied reply (Err (ROther reason))) (f_replies active)
| None => []
end in
let rejected := map (fun waiting => reject_capture (c_reply waiting) (ROther reason)) (pending (screen a)) in
let lost := match sending (pics a) with
| Some s => [Changed (ChangePicture PictureFailed 0 (s_total s) (Some PICTURE_LOST))]
| None => []
end in
let s := reset (with_pending (screen a) []) in
let a := with_screen a (with_capture s false (capture_due s)) in
let a := with_controls a (with_owner (with_confirmed (with_in_flight (controls a) None) false) None) in
let a := with_pics a (MkPics (pictures (pics a)) None) in
(tell a (Disconnected :: refused ++ rejected ++ lost ++ [Changed (RemoteInterrupted reason)]), None).

(** [resume]. *)
Definition resume (new_incarnation : Uuid) (a : t) : t :=
if negb (bool_decide (new_incarnation = incarnation (conn a))) || is_open a then tell a [DisconnectedNew]
else
let c := conn a in
with_conn a (MkConn Open None new_incarnation (held c) (asking c) (documents c)).

(** [hold]. *)
Definition hold (r : Request) (a : t) : t :=
if (length (held (conn a)) <? CONTROL_CAPACITY)%nat then with_conn a (with_held (conn a) (held (conn a) ++ [r]))
else tell a (reject r RBusy).

(** [forward]. *)
Definition forward (w : World) (r : Request) (a : t) : t :=
match r with
| AskCanvas request reply =>
if w_closed w reply then a
else tell (with_conn a (with_asking (conn a) (asking (conn a) + 1))) [SentCanvas request reply]
| AskDocument pipe key name reply =>
if w_closed w reply then a
else
match w_piped w with
| Some e => tell a [RepliedPipe reply (Err (from_net e))]
| None => tell (with_conn a (with_documents (conn a) (documents (conn a) ++ [pipe]))) [OpenedPipe pipe key name; RepliedPipe reply (Ok tt)]
end
| _ => a
end.

(** The end of a task that [forward] started. *)
Definition canvas_answered (reply : N) (answer : Result NetErr Value) (a : t) : t :=
tell (with_conn a (with_asking (conn a) (asking (conn a) - 1)))
[Replied reply (match answer with Ok v => Ok v | Err e => Err (from_net e) | Panic => Panic end)].

(** [wake]. *)
Definition wake (a : t) : t := tell (set_link Waking a) [Changed RemoteWanted].

(** [idle]. *)
Definition idle (w : World) (a : t) : bool :=
bool_decide (in_flight (controls a) = None) && (length (queued (controls a)) =? 0)%nat
&& (length (pictures (pics a)) =? 0)%nat && bool_decide (sending (pics a) = None)
&& (length (pending (screen a)) =? 0)%nat && (length (held (conn a)) =? 0)%nat && (w_requests w =? 0)%nat
&& (asking (conn a) =? 0) && negb (existsb (w_document w) (documents (conn a))).

(** [pause]. *)
Definition pause (a : t) : t :=
let s := reset (screen a) in
let a := with_screen (set_link Paused a) (with_capture s false (capture_due s)) in
tell (with_controls a (with_owner (with_confirmed (controls a) false) None)) [Disconnected; Changed RemotePaused].

(** The parts of [maintain]: the metadata that waits, what is refused after a while without a
connection, and the captures that are late. *)
Definition send_metadata (w : World) (a : t) : t :=
match metadata a with
| Some m => if w_full w then a else tell (with_metadata a None) [Changed (ChangeMetadata m)]
| None => a
end.

Definition refuse_lost (w : World) (a : t) : t :=
if lost_too_long (w_now w) a then
let refused := flat_map (fun q => reply_to (q_reply q) (Err (ROther RECONNECTING))) (queued (controls a)) in
let rejected := flat_map (fun r => reject r (ROther RECONNECTING)) (held (conn a)) in
tell (with_conn (with_controls a (with_queued (controls a) [])) (with_held (conn a) [])) (refused ++ rejected)
else a.

Definition expire (w : World) (a : t) : t :=
let waiting := filter (fun c => w_closed w (capture_reply (c_reply c)) = false) (pending (screen a)) in
let late := filter (fun c => (c_deadline c <=? w_now w) = true) waiting in
tell (with_screen a (with_pending (screen a) (filter (fun c => (c_deadline c <=? w_now w) = false) waiting)))
(map (fun c => reject_capture (c_reply c) (ROther "The host did not send a current terminal snapshot.")) late).

(** [maintain]. *)
Definition maintain (w : World) (a : t) : t * Result RError unit :=
let a := send_metadata w a in
let a := with_screen a (with_subscribers (screen a) (Subscribers.prune (subscribers (screen a)))) in
let a := with_conn a (with_documents (conn a) (filter (fun p => w_document w p = true) (documents (conn a)))) in
let a := expire w (refuse_lost w a) in
let s := screen a in
let s := if (capture_due s <=? w_now w) || (length (pending s) =? 0)%nat && negb (Subscribers.caught_up (subscribers s))
then with_capture s false (capture_due s) else s in
let '(s, told, result) := request_capture w (link (conn a)) s in
(tell (with_screen a s) told, result).

(** ** A turn *)

Inductive Step : Type := Next | Failed (reason : string) | Stop (reason : string) | Ended.

(** [Step::from]. *)
Definition step_of (r : Result RError unit) : Step := match r with Err e => Failed (error_text e) | _ => Next end.

(** [connection_update]. *)
Definition connection_update (w : World) (u : option Viewer.RemoteUpdate) (a : t) : t * Step :=
let ends := match u with None | Some (Viewer.UClosed _) | Some Viewer.UEnded => true | _ => false end in
let '(a, finished) :=
match w_done w with
| Some result =>
if ends && bool_decide (is_Some (in_flight (controls a))) then
let '(c, told, finished) := finish_control result (controls a) in (tell (with_controls a c) told, finished)
else (a, Ok tt)
| None => (a, Ok tt)
end in
match finished with
| Err e => (a, Failed (error_text e))
| _ =>
match u with
| Some Viewer.UEnded => (a, Ended)
| Some (Viewer.UClosed reason) => (a, Failed reason)
| Some u =>
match update w u a with
| Ok a => (a, Next)
| Err e => (a, Failed (error_text e))
| Panic => (a, Next)
end
| None => (a, Failed "The remote host disconnected.")
end
end.

(** The arm of [step] for a request. *)
Definition request (w : World) (r : Request) (a : t) : t * Result RError unit :=
let a := if wakes r && dormant a then wake a else a in
let capture reply :=
let '(s, told, result) := add_capture w (link (conn a)) reply (screen a) in (tell (with_screen a s) told, result) in
match r with
| Reconnected incarnation => (resume incarnation a, Ok tt)
| Subscribe reply => capture (CaptureSubscribe reply)
| AskScreen connection reply => capture (CaptureCheckpoint connection reply)
| Unsubscribe id =>
let a := with_screen a (with_subscribers (screen a) (Subscribers.remove id (subscribers (screen a)))) in
(with_controls a (with_focused (controls a) (focused (controls a) ∖ {[id]})), Ok tt)
| AskControl q =>
if lost_too_long (w_now w) a then (tell a (reply_to (q_reply q) (Err (ROther RECONNECTING))), Ok tt)
else let '(c, told, result) := queue w (subscribers (screen a)) q (controls a) in (tell (with_controls a c) told, result)
| AskCanvas _ _ | AskDocument _ _ _ _ =>
if lost_too_long (w_now w) a then (tell a (reject r (ROther RECONNECTING)), Ok tt)
else if negb (is_open a) then (hold r a, Ok tt)
else (forward w r a, Ok tt)
| AskPicture picture reply =>
let '(p, answer) := wait_picture picture (pics a) in (tell (with_pics a p) [RepliedDone reply answer], Ok tt)
end.

Inductive Event : Type :=
| EvCancelled
| EvControl (result : Result NetErr Value)
| EvPicture (result : Result NetErr unit)
| EvUpdate (u : option Viewer.RemoteUpdate)
| EvRequest (r : option Request)
| EvTick.

(** What [step] does before it waits: whether it pauses instead. *)
Definition prepare (w : World) (a : t) : t * bool :=
if negb (is_open a) then (a, false)
else if w_hidden w && idle w a then (pause a, true)
else
let a := foldl (fun a r => forward w r a) (with_conn a (with_held (conn a) [])) (held (conn a)) in
let '(c, told) := next_control w (screen a) (controls a) in
(next_picture (tell (with_controls a c) told), false).

(** What [step] waits for: a control and a picture only in transit, and an update only of a
connection. *)
Definition awaits (e : Event) (a : t) : bool :=
match e with
| EvControl _ => bool_decide (is_Some (in_flight (controls a)))
| EvPicture _ => bool_decide (is_Some (sending (pics a)))
| EvUpdate _ => is_open a
| _ => true
end.

(** The arms of [step]. *)
Definition arm (w : World) (e : Event) (a : t) : t * Step :=
match e with
| EvCancelled | EvRequest None => (a, Stop "Disconnected from the remote terminal.")
| EvControl result =>
let '(c, told, finished) := finish_control result (controls a) in (tell (with_controls a c) told, step_of finished)
| EvPicture result => (picture_sent result a, Next)
| EvUpdate u => connection_update w u a
| EvRequest (Some r) => let '(a, result) := request w r a in (a, step_of result)
| EvTick => let '(a, result) := maintain w a in (a, step_of result)
end.

(** How a turn of the loop of [run] ended. *)
Inductive Ran : Type := Goes | Over (reason : string) (ended : bool).

(** What follows a [step] in the loop of [run]. *)
Definition after_step (w : World) (a : t) (x : Step) : t * Ran :=
let '(a, ran) :=
match x with
| Next => (a, Goes)
| Failed failure => let '(a, over) := interrupt w failure a in (a, match over with Some reason => Over reason false | None => Goes end)
| Stop reason => (a, Over reason false)
| Ended => (a, Over "The host stopped this terminal." true)
end in
match ran with
| Goes =>
if bool_decide (link (conn a) = Lost) && Subscribers.is_empty (subscribers (screen a))
then (a, Over "Disconnected from the remote terminal." false) else (a, Goes)
| _ => (a, ran)
end.

(** A turn of the loop of [run] with the event that comes; [w'] is what the actor finds after
it. *)
Definition turn (w : World) (e : Event) (a : t) : t * Ran :=
let '(a, paused) := prepare w a in
if paused then after_step w a Next
else let '(a, x) := arm w e a in after_step w a x.

(** The end of [run]. *)
Definition finish (reason : string) (ended : bool) (a : t) : t :=
let s := screen a in
let subs := Subscribers.close reason (default (delivered s) (next_sequence s)) (subscribers s) in
let lost := match sending (pics a) with Some x => [Changed (ChangePicture PictureFailed 0 (s_total x) (Some reason))] | None => [] end in
tell (with_pics (with_screen a (with_pending (with_subscribers s subs) [])) (MkPics (pictures (pics a)) None))
(Disconnected :: lost ++
map (fun waiting => reject_capture (c_reply waiting) (ROther reason)) (pending s) ++
flat_map (fun q => reply_to (q_reply q) (Err (ROther reason))) (queued (controls a)) ++
match in_flight (controls a) with Some active => map (fun reply => Replied reply (Err (ROther reason))) (f_replies active) | None => [] end ++
flat_map (fun r => reject r (ROther reason)) (held (conn a)) ++
(if ended then [Changed RemoteEnded] else []) ++ [Changed (RemoteClosed reason)]).
End remote.

(** ** The handle *)

(** [RemoteTerminal], with what waits in the channel of the actor: the budget of input is what
the requests, the queue and the control in transit do not hold. *)
Record Handle : Type := MkHandle { h_requests : nat; h_budget : N; h_closed : bool }.

(** [send]. *)
Definition send (h : Handle) : Result RError unit :=
if h_closed h then Err RStopped
else if (h_requests h <? CONTROL_CAPACITY)%nat then Ok tt else Err RBusy.

(** [queue_input]: the request, with its budget. *)
Definition queue_input (connection : option Uuid) (input : bytes) (reply : option N) (h : Handle) :
Result RError (QueuedControl * Handle) :=
if TERMINAL_INPUT_MAX_BYTES <? len input then Err (RInvalid "terminal input exceeds 1 MiB")
else if h_budget h <? len input then Err RBusy
else
_ ← send h;
Ok (MkQueued connection (CtlInput input) reply (Some (len input)), MkHandle (S (h_requests h)) (h_budget h - len input) (h_closed h)).

(** [control]. *)
Definition control (connection : option Uuid) (c : TerminalControl) (reply : N) (h : Handle) : Result RError (QueuedControl * Handle) :=
if is_input c then Err (RInvalid "Raw input requires a terminal subscription.")
else _ ← send h; Ok (MkQueued connection c (Some reply) None, MkHandle (S (h_requests h)) (h_budget h) (h_closed h)).
End Remote.
