(* ===== verification/RemoteClaims.v ===== *)
(** The views of a terminal of another computer: what the actor of [remote.rs] gives them is the
    history of that terminal, also across connections that are lost; and what is typed goes out
    in order.

    The terminal's life is a list [whole] of items.  A connection tells a snapshot of some
    moment and then the items from there on, or says that it starts again.  The actor's turns
    are steps of the room of [SubscribersClaims], whose history the actor makes from what it is
    told. *)

From S2P Require Import Prelude Json Utf Terminal Wire Stream Viewer Subscribers SubscribersClaims.
From S2P Require Import Remote.
Import Remote.
Open Scope N_scope.

Section claims.
Context `{Sha256}.
Context (restore_error : Checkpoint -> option string).

(** The life of the terminal, and which snapshots show what a history makes. *)
Context (whole : list Item) (shows : list Item -> Checkpoint -> Prop).

(** ** Histories that look the same *)







(** ** What the actor does to its views *)














(** ** What the screen of the actor was told *)












(** *** What waits for a screen *)







(** *** Updates *)





Context (small : upto 0 whole < U64).




(** ** Turns of the actor *)

Abbreviation update := (Remote.update restore_error).
Abbreviation arm := (Remote.arm restore_error).
Abbreviation turn := (Remote.turn restore_error).














(** ** The connection *)


(** How far the actor was told after an update: it may refuse it, and end the connection. *)
Definition told_after (w : World) (u : Viewer.RemoteUpdate) (P P' : nat) (a : Remote.t) : nat :=
match update w u a with Ok _ => P' | _ => P end.


Definition place_after (w : World) (e : Event) (P P' : nat) (a : Remote.t) : nat :=
match e with EvUpdate (Some u) => told_after w u P P' a | _ => P end.



(** ** The views with the actor *)

(** The actor, how much of the terminal's life it was told, what each view got, and whether the
actor ended. *)
Record Sys : Type := MkSys { place : nat; actor : Remote.t; got : Uuid -> Got; ended : bool }.


Definition run_turn (w : World) (e : Event) (a : Remote.t) : Remote.t * bool :=
match turn w e a with
| (a, Goes) => (a, false)
| (a, Over reason over) => (finish reason over a, true)
end.

Definition start (incarnation : Uuid) (now : N) : Sys := MkSys 0 (new incarnation now) (fun _ => nothing) false.











End claims.

(** ** What is typed *)

Section inputs.
Context `{Sha256}.

Definition typed_of (q : QueuedControl) : option bytes := match q_control q with CtlInput b => Some b | _ => None end.
Definition input_sent (x : Effect) : option bytes := match x with SentControl (CtlInput b) => Some b | _ => None end.
Definition inputs_sent (l : list Effect) : list bytes := omap input_sent l.

(** [typed] is what the actor took to send: the first of it was sent or given up, in order, and
the rest waits. *)
Record in_order (typed : list bytes) (c : Controls) (l : list Effect) : Prop := {
io_sizes : forall id r, requested c !! id = Some r -> is_size (rr_control r) = true;
io_typed : exists past kept, typed = past ++ omap typed_of (queued c) /\ sublist kept past /\
concat kept = concat (inputs_sent l)
}.

Lemma inputs_sent_app l l' : inputs_sent (l ++ l') = inputs_sent l ++ inputs_sent l'.
Proof. apply omap_app. Qed.

(** Controls with the same queue, and effects that send no input. *)
Lemma in_order_quiet typed c c' l l' :
queued c' = queued c -> requested c' = requested c -> inputs_sent l' = [] -> in_order typed c l -> in_order typed c' (l ++ l').
Proof.
intros Eq Er El [Hs Hq]. constructor; [by rewrite Er|]. rewrite Eq, inputs_sent_app, El, app_nil_r. done.
Qed.

Lemma reply_quiet reply answer : inputs_sent (reply_to reply answer) = [].
Proof. by destruct reply. Qed.

Lemma replies_quiet (f : N -> Effect) l : (forall r, input_sent (f r) = None) -> inputs_sent (map f l) = [].
Proof. intros Hf. induction l as [|x l IH]; cbn; [done|]. by rewrite Hf. Qed.

(** *** Merging *)

Lemma merge_in_order w connection input replies budgets queue :
let '(input', _, _, rest) := merge_input w connection input replies budgets queue in
exists taken kept, omap typed_of queue = taken ++ omap typed_of rest /\ sublist kept taken /\ input' = input ++ concat kept.
Proof.
revert input replies budgets. induction queue as [|q queue IH]; intros input replies budgets; cbn [merge_input].
- exists [], []. split; [done|]. split; [constructor|by rewrite app_nil_r].
- assert (exists taken kept, omap typed_of (q :: queue) = taken ++ omap typed_of (q :: queue) /\ sublist kept taken /\ input = input ++ concat kept) as Hstop
by (exists [], []; split; [done|]; split; [constructor|by rewrite app_nil_r]).
destruct (q_control q) as [more|m|r c wi he cw ch cl|f| | |rq] eqn:Eq; try exact Hstop.
destruct (_ && _); [|exact Hstop].
assert (omap typed_of (q :: queue) = more :: omap typed_of queue) as Eo by (cbn; unfold typed_of at 1; by rewrite Eq).
rewrite Eo. destruct (gone w (q_reply q)).
+ specialize (IH input replies budgets). destruct (merge_input _ _ _ _ _ queue) as [[[input' r'] b'] rest].
destruct IH as (taken & kept & E & Hs & ->). exists (more :: taken), kept. rewrite E. split; [done|]. split; [by constructor|done].
+ specialize (IH (input ++ more) (replies ++ option_list (q_reply q)) (budgets ++ option_list (q_budget q))).
destruct (merge_input _ _ _ _ _ queue) as [[[input' r'] b'] rest].
destruct IH as (taken & kept & E & Hs & ->). exists (more :: taken), (more :: kept). rewrite E.
split; [done|]. split; [by constructor|]. cbn. by rewrite <- app_assoc.
Qed.

(** *** The next control *)

Lemma check_resize_sizes subs connection control c :
is_size control = true -> (forall id r, requested c !! id = Some r -> is_size (rr_control r) = true) ->
forall id r, requested (check_resize subs connection control c).1 !! id = Some r -> is_size (rr_control r) = true.
Proof.
intros Hs Hc id r. unfold check_resize. destruct connection as [i|]; [|apply Hc].
set (c1 := with_requested c _).
assert (forall id r, requested c1 !! id = Some r -> is_size (rr_control r) = true) as H1.
{ intros i' r'. subst c1. cbn. destruct (decide (i' = i)) as [->|].
- rewrite lookup_insert_eq. by intros [= <-].
- rewrite lookup_insert_ne by done. apply Hc. }
destruct control; try apply H1. destruct (validate_resize _ _ _ _ _ _); try apply H1.
destruct (_ && _); apply H1.
Qed.

(** The size that goes out is a size. *)
Lemma check_resize_control subs connection control c :
match (check_resize subs connection control c).2 with Ok (_, control') => is_input control' = false | Err _ => True | Panic => False end.
Proof.
unfold check_resize. destruct connection as [i|]; [|done]. destruct control; try done. cbn.
unfold validate_resize. destruct (new_size _ _); [|done]. destruct (forallb _ _); [by destruct (_ && _)|].
destruct (_ ≫= _) as [g|]; [|done]. destruct (negb _); [done|]. destruct (negb _); [done|]. by destruct (_ && _).
Qed.

Lemma authorization_returns id subs : authorization id subs <> Panic.
Proof. unfold authorization. destruct (subs !! id) as [l|]; [by destruct (is_active l)|done]. Qed.

(** A control of the queue that is not sent, or that is no input. *)
Lemma past_more typed past kept q rest :
typed = past ++ omap typed_of (q :: rest) -> sublist kept past ->
exists past', typed = past' ++ omap typed_of rest /\ sublist kept past'.
Proof.
intros E Hs. exists (past ++ option_list (typed_of q)). cbn in E. split.
- rewrite E, <- app_assoc. f_equal. by destruct (typed_of q).
- by apply sublist_inserts_r.
Qed.

Lemma take_next_in_order w subs queue c typed l :
(forall id r, requested c !! id = Some r -> is_size (rr_control r) = true) ->
(exists past kept, typed = past ++ omap typed_of queue /\ sublist kept past /\ concat kept = concat (inputs_sent l)) ->
in_order typed (take_next w subs queue c).1 (l ++ (take_next w subs queue c).2).
Proof.
revert c l. induction queue as [|q rest IH]; intros c l Hc (past & kept & E & Hs & Ek); cbn [take_next].
- cbn. rewrite app_nil_r. constructor; cbn; [done|]. by exists past, kept.
- assert (exists past kept, typed = past ++ omap typed_of rest /\ sublist kept past /\ concat kept = concat (inputs_sent l)) as Hpast.
{ destruct (past_more _ _ _ _ _ E Hs) as (past' & ? & ?). by exists past', kept. }
assert (forall c' told, (forall id r, requested c' !! id = Some r -> is_size (rr_control r) = true) -> inputs_sent told = [] ->
in_order typed (let '(c', tolds) := take_next w subs rest c' in (c', told ++ tolds)).1
(l ++ (let '(c', tolds) := take_next w subs rest c' in (c', told ++ tolds)).2)) as Hskip.
{ intros c' told Hc' Hq. specialize (IH c' (l ++ told) Hc').
rewrite inputs_sent_app, Hq, app_nil_r in IH. specialize (IH Hpast). destruct (take_next w subs rest c') as [c'' tolds]. cbn in *.
by rewrite app_assoc. }
assert (forall control owner c', is_input control = false ->
(forall id r, requested c' !! id = Some r -> is_size (rr_control r) = true) ->
in_order typed (begin_ control (option_list (q_reply q)) owner (option_list (q_budget q)) (with_queued c' rest)).1
(l ++ (begin_ control (option_list (q_reply q)) owner (option_list (q_budget q)) (with_queued c' rest)).2)) as Hgo.
{ intros control owner c' Hi Hc'. constructor; cbn; [done|]. rewrite inputs_sent_app. cbn.
destruct control; try done; by rewrite app_nil_r. }
destruct (gone w (q_reply q)); [by apply Hskip|].
destruct (match q_connection q with Some _ => _ | None => _ end) as [u|e|] eqn:Ea; [|apply Hskip; [done|apply reply_quiet]|].
2: { exfalso. destruct (q_connection q); [|done]. by eapply authorization_returns. }
destruct (q_control q) as [input|m|rows cols wi he cw ch cl|f| | |rq] eqn:Eq; try (by apply Hgo).
+ pose proof (merge_in_order w (q_connection q) input [] [] rest) as Hm.
destruct (merge_input _ _ _ _ _ rest) as [[[input' more] budgets] rest']. destruct Hm as (taken & kept' & Em & Hs' & ->).
constructor; cbn; [done|]. exists (past ++ input :: taken), (kept ++ input :: kept'). split_and!.
* rewrite E, <- app_assoc. f_equal. cbn. unfold typed_of at 1. rewrite Eq. cbn. by rewrite Em.
* apply sublist_app; [done|by constructor].
* rewrite inputs_sent_app, !concat_app, Ek. cbn. by rewrite app_nil_r.
+ pose proof (check_resize_sizes subs (q_connection q) (CtlResize rows cols wi he cw ch cl) c eq_refl Hc) as Hcr.
pose proof (check_resize_control subs (q_connection q) (CtlResize rows cols wi he cw ch cl) c) as Hcc.
destruct (check_resize _ _ _ _) as [c1 [[id control]|e|]]; cbn in Hcr, Hcc; [|apply Hskip; [done|apply reply_quiet]|done].
by apply Hgo.
+ destruct (q_connection q); [|apply Hskip; [done|apply reply_quiet]].
destruct (Bool.eqb _ _); [apply Hskip; [done|apply reply_quiet]|]. by apply Hgo.
Qed.

Lemma give_back_in_order w s owner c typed l : in_order typed c l -> in_order typed (give_size_back w s owner c) l.
Proof.
intros [Hs (past & kept & E & Hsub & Ek)]. unfold give_size_back. destruct (_ || _); [constructor; eauto|].
match goal with |- context [max_by_key ?k ?l None] => set (found := max_by_key k l None); assert (forall id r, found = Some (id, r) -> requested c !! id = Some r) as Hfound end.
{ intros id r. subst found. match goal with |- max_by_key ?k ?l None = _ -> _ => set (cs := l); set (key := k) end.
assert (forall x, x ∈ cs -> requested c !! x.1 = Some x.2) as Hcs.
{ intros x. subst cs. rewrite list_elem_of_omap. intros (i & _ & Ei). apply fmap_Some in Ei as (r' & ? & ->). done. }
assert (forall best, (forall x, best = Some x -> requested c !! x.1 = Some x.2) ->
forall x, max_by_key key cs best = Some x -> requested c !! x.1 = Some x.2) as Hmax.
{ induction cs as [|y cs IHcs]; intros best Hb; [done|]. cbn [max_by_key]. apply IHcs; [intros z Hz; apply Hcs; by right|].
intros x. destruct best as [b|]; [destruct (_ <? _)|]; intros [= <-]; [by apply Hb|apply Hcs; by left..]. }
intros Em. by apply (Hmax None (fun _ H => ltac:(done)) (id, r)). }
destruct found as [[id r]|]; [|constructor; eauto]. destruct (existsb _ _); [constructor; eauto|].
pose proof (Hs _ _ (Hfound _ _ eq_refl)) as Hr. constructor; cbn; [done|].
exists past, kept. rewrite omap_app. cbn. unfold typed_of at 2. cbn.
destruct (rr_control r); try done. by rewrite app_nil_r.
Qed.

Lemma next_control_in_order w s c typed l :
in_order typed c l -> in_order typed (next_control w s c).1 (l ++ (next_control w s c).2).
Proof.
intros Hio. unfold next_control. destruct (_ || _); [cbn; by rewrite app_nil_r|]. cbv zeta.
match goal with |- context [with_focused ?c ?f] => set (c1 := c) end.
assert (in_order typed c1 l) as H1.
{ subst c1. destruct (resize_owner c) as [owner|]; [|done]. destruct (contains _ _); [done|].
apply give_back_in_order. destruct Hio. by constructor. }
clearbody c1. match goal with |- context [with_requested ?c ?f] => set (c2 := with_requested c f) end.
assert (in_order typed c2 l) as [Hs2 Hq2].
{ destruct H1 as [Hs Hq]. constructor; [|done]. subst c2. cbn. intros id r ?%map_lookup_filter_Some. by eapply Hs; apply H0. }
destruct (negb _).
- constructor; cbn; [done|]. rewrite inputs_sent_app. cbn. by rewrite app_nil_r.
- by apply take_next_in_order.
Qed.

(** Whether the actor takes a control, and what is typed with it. *)
Definition takes (w : World) (q : QueuedControl) (a : Remote.t) : bool :=
negb (lost_too_long (w_now w) a) && (length (queued (controls a)) <? Remote.CONTROL_CAPACITY)%nat &&
bool_decide (is_Some (follow_up (w_now w) (subscribers (screen a)) q (controls a))).

Definition taken (w : World) (e : Event) (a : Remote.t) : list bytes :=
match e with EvRequest (Some (AskControl q)) => if takes w q a then option_list (typed_of q) else [] | _ => [] end.

Lemma follow_up_same now subs q c r c' :
follow_up now subs q c = Some (r, c') ->
queued c' = queued c /\ requested c' = requested c /\ forall id control, r = Some (id, control) -> exists x, requested c !! id = Some x /\ control = rr_control x.
Proof.
unfold follow_up. destruct (q_connection q) as [id|], (q_control q) as [b|m|rw cl wi he cw ch k|[]| | |rq];
try (by intros [= <- <-]); try (by destruct (match typed_at c with Some _ => _ | None => _ end); intros [= <- <-]).
destruct (match resize_owner c with Some _ => _ | None => _ end); intros [= <- <-]; [done|]. split; [done|]. split; [done|].
intros id' control. destruct (requested c !! id) as [x|] eqn:Ex; cbn; [|done]. intros [= <- <-]. by exists x.
Qed.

Lemma queue_in_order w subs q c typed l :
in_order typed c l ->
in_order (typed ++ (if (length (queued c) <? Remote.CONTROL_CAPACITY)%nat && bool_decide (is_Some (follow_up (w_now w) subs q c))
then option_list (typed_of q) else [])) (queue w subs q c).1.1 (l ++ (queue w subs q c).1.2).
Proof.
intros Hio. unfold queue. rewrite (Nat.ltb_antisym (Remote.CONTROL_CAPACITY)).
destruct (_ <=? _)%nat; cbn [negb andb].
- rewrite app_nil_r. destruct (q_reply q); cbn; [|by rewrite app_nil_r]. by apply (in_order_quiet _ c).
- destruct (follow_up _ _ _ _) as [[r c']|] eqn:Ef.
+ destruct (follow_up_same _ _ _ _ _ _ Ef) as (Eq & Er & Hr). rewrite bool_decide_eq_true_2 by eauto. cbn. rewrite app_nil_r.
destruct Hio as [Hs (past & kept & E & Hsub & Ek)]. constructor; cbn; [by rewrite Er|].
exists past, kept. split; [|done]. rewrite Eq, E, <- app_assoc, omap_app. f_equal. f_equal. cbn.
assert (omap typed_of match r with Some (id, control) => [MkQueued (Some id) control None None] | None => [] end = []) as ->.
{ destruct r as [[id control]|]; [|done]. destruct (Hr _ _ eq_refl) as (x & Ex & ->). specialize (Hs _ _ Ex).
cbn. unfold typed_of. cbn. by destruct (rr_control x). }
by destruct (typed_of q).
+ rewrite bool_decide_eq_false_2 by (by intros []). rewrite app_nil_r. cbn. apply (in_order_quiet _ c); [done..|apply reply_quiet|done].
Qed.

Lemma confirm_quiet result replies : inputs_sent (confirm result replies) = [].
Proof. destruct replies as [|first rest]; [done|]. cbn. by apply replies_quiet. Qed.

Lemma finish_control_in_order result c typed l :
in_order typed c l -> in_order typed (finish_control result c).1.1 (l ++ (finish_control result c).1.2).
Proof.
intros Hio. unfold finish_control. destruct (in_flight c) as [active|]; [|cbn; by rewrite app_nil_r]. cbv zeta.
destruct result as [v|e|]; cbn; [|by apply (in_order_quiet _ c); [..|apply confirm_quiet|]..].
destruct Hio as [Hs Hq].
assert (in_order typed c (l ++ confirm (Ok v) (f_replies active))) as H1.
{ constructor; [done|]. by rewrite inputs_sent_app, confirm_quiet, app_nil_r. }
set (c1 := match f_focus active with Some _ => _ | None => _ end).
assert (in_order typed c1 (l ++ confirm (Ok v) (f_replies active))) as [Hs1 Hq1].
{ subst c1. destruct (f_focus active), H1; by constructor. }
destruct (f_owner active) as [owner|]; [|by constructor]. constructor; cbn; [|done].
intros id r. destruct (decide (id = owner)) as [->|].
- rewrite lookup_alter_eq. intros (r0 & E & ->)%fmap_Some. cbn. by eapply Hs1.
- rewrite lookup_alter_ne by done. apply Hs1.
Qed.

(** *** Turns *)

Definition ordered (typed : list bytes) (a : Remote.t) : Prop := in_order typed (controls a) (out a).

(** The actor with the same controls sends no input. *)
Definition quiet (a a' : Remote.t) : Prop := controls a' = controls a /\ exists l, out a' = out a ++ l /\ inputs_sent l = [].

Lemma no_input_refl a : quiet a a.
Proof. split; [done|]. exists []. by rewrite app_nil_r. Qed.

Lemma no_input_trans a b c : quiet a b -> quiet b c -> quiet a c.
Proof.
intros [E1 (l1 & O1 & Q1)] [E2 (l2 & O2 & Q2)]. split; [congruence|]. exists (l1 ++ l2).
by rewrite O2, O1, inputs_sent_app, Q1, Q2, app_assoc.
Qed.

Lemma quiet_tell a a' l : controls a' = controls a -> out a' = out a -> inputs_sent l = [] -> quiet a (tell a' l).
Proof. intros Ec Eo Hl. split; [done|]. exists l. cbn. by rewrite Eo. Qed.

Lemma quiet_same a a' : controls a' = controls a -> out a' = out a -> quiet a a'.
Proof. intros Ec Eo. split; [done|]. exists []. by rewrite app_nil_r. Qed.

Lemma ordered_quiet typed a a' : quiet a a' -> ordered typed a -> ordered typed a'.
Proof. intros [Ec (l & Eo & Hl)] Ho. unfold ordered. rewrite Ec, Eo. by apply (in_order_quiet _ (controls a)). Qed.

Hint Resolve no_input_refl : core.

Lemma rejects_quiet l e : inputs_sent (flat_map (fun r => reject r e) l) = [].
Proof. induction l as [|r l IH]; [done|]. cbn. rewrite inputs_sent_app, IH. by destruct r. Qed.

Lemma refused_quiet l e : inputs_sent (flat_map (fun q => reply_to (q_reply q) (Err e)) l) = [].
Proof. induction l as [|q l IH]; [done|]. cbn [flat_map]. by rewrite inputs_sent_app, reply_quiet, IH. Qed.

Lemma forward_quiet w r a : quiet a (forward w r a).
Proof.
destruct r; cbn; auto; destruct (w_closed _ _); auto; [by apply quiet_tell|].
destruct (w_piped w); by apply quiet_tell.
Qed.

Lemma forwards_quiet w l a : quiet a (foldl (fun a r => forward w r a) a l).
Proof. revert a. induction l as [|r l IH]; intros a; cbn; [done|]. eapply no_input_trans; [apply forward_quiet|apply IH]. Qed.

Lemma next_picture_quiet a : quiet a (next_picture a).
Proof. unfold next_picture. destruct (_ || _); [done|]. destruct (pictures (pics a)); [done|]. by apply quiet_tell. Qed.

Lemma answers_quiet w k cut current replayable recent pending L :
inputs_sent (answers w k cut current replayable recent pending L).2 = [].
Proof.
revert L. induction pending as [|c pending IH]; intros L; cbn [answers]; [done|].
assert (inputs_sent (answer w k cut current replayable recent c L).2 = []) as Ha.
{ unfold answer. destruct (w_closed _ _); [done|]. destruct (_ || _); [done|]. destruct (c_reply c); [|done].
destruct (negb _); [done|]. destruct (subscribe _ _ _); [|done..]. destruct (replay _ _ _) as [sent subs].
destruct (negb sent); [done|]. by destruct (w_gone _ _). }
destruct (answer _ _ _ _ _ _ c L) as [[L1 stays] told]. specialize (IH L1).
destruct (answers _ _ _ _ _ _ pending L1) as [[L2 kept] tolds]. cbn [fst snd] in *. by rewrite inputs_sent_app, Ha, IH.
Qed.

Lemma fulfill_quiet w k cut s : inputs_sent (fulfill w k cut s).2 = [].
Proof.
unfold fulfill. cbv zeta. match goal with |- context [answers ?w ?a ?b ?c ?d ?e ?f ?g] => pose proof (answers_quiet w a b c d e f g) as H0; destruct (answers w a b c d e f g) as [[L kept] told] end.
done.
Qed.

Lemma raw_no_input w sequence b s s' told : raw w sequence b s = Ok (s', told) -> inputs_sent told = [].
Proof.
unfold raw. destruct (next_sequence s); [|done]. destruct (_ || _); [done|]. destruct (negb _); [done|]. cbv zeta.
destruct (future_checkpoint _) as [cut|]; [|by intros [= <- <-]]. destruct (_ =? _); [|by intros [= <- <-]].
match goal with |- context [fulfill w ?k ?n ?s] => pose proof (fulfill_quiet w k n s) as Hq; destruct (fulfill w k n s) as [s1 told1] end.
by intros [= <- <-].
Qed.

Lemma checkpointed_quiet w k cut s : inputs_sent (checkpointed w k cut s).2 = [].
Proof.
unfold checkpointed. cbn [next_sequence with_capture]. destruct (next_sequence s) as [current|]; [|apply fulfill_quiet].
destruct (_ <? _); [by destruct (match future_checkpoint _ with Some _ => _ | None => _ end)|].
destruct (_ =? _); apply fulfill_quiet.
Qed.

Lemma update_no_input restore_error w u a a' : Remote.update restore_error w u a = Ok a' -> quiet a a'.
Proof.
destruct u as [|k cut|sequence b|m|rows cols cell at_sequence| |reason|sent total]; cbn; try done.
- destruct (restore_error k); [done|].
set (a1 := match k_metadata k with Some _ => _ | None => _ end).
assert (controls a1 = controls a /\ out a1 = out a) as [E1 E2] by (subst a1; by destruct (k_metadata k)).
pose proof (checkpointed_quiet w k cut (screen a1)) as Hq. destruct (checkpointed _ _ _ _) as [s told].
intros [= <-]. by apply quiet_tell.
- destruct (raw _ _ _ _) as [[s told]|e|] eqn:Er; try done. intros [= <-]. apply quiet_tell; [done..|]. by eapply raw_no_input.
- intros [= <-]. by apply quiet_same.
- destruct (resized _ _ _ _ _); try done. intros [= <-]. by apply quiet_same.
- intros [= <-]. by apply quiet_same.
- intros [= <-]. unfold picture_progress. destruct (sending (pics a)); [|done]. destruct (_ && _); [by apply quiet_tell|done].
Qed.

(** The parts of a turn. *)
Lemma prepare_ordered w a typed : ordered typed a -> ordered typed (prepare w a).1.
Proof.
intros Ho. unfold prepare. destruct (negb _); [done|]. destruct (_ && _); cbn [fst].
- unfold pause. destruct Ho as [Hs Hq]. constructor; cbn; [done|]. by rewrite inputs_sent_app, app_nil_r.
- pose proof (forwards_quiet w (held (conn a)) (with_conn a (with_held (conn a) []))) as Hf.
set (a1 := foldl _ _ _) in *. assert (ordered typed a1) as H1 by (eapply ordered_quiet; [exact Hf|done]).
pose proof (next_control_in_order w (screen a1) (controls a1) typed (out a1) H1) as H2.
destruct (next_control _ _ _) as [c told]. cbn. eapply ordered_quiet; [apply next_picture_quiet|done].
Qed.

Lemma add_capture_quiet w l r s : inputs_sent (add_capture w l r s).1.2 = [].
Proof.
unfold add_capture. destruct (_ <=? _)%nat; [by destruct r|]. destruct (match r with CaptureCheckpoint _ _ => _ | _ => _ end); [by destruct r|].
unfold request_capture. destruct (negb _); [done|]. destruct (_ && _); [|done]. by destruct (w_asked w).
Qed.

Lemma request_ordered w r a typed : ordered typed a -> ordered (typed ++ taken w (EvRequest (Some r)) a) (request w r a).1.
Proof.
intros Ho. unfold request. set (a1 := if wakes r && dormant a then wake a else a).
assert (ordered typed a1 /\ taken w (EvRequest (Some r)) a = taken w (EvRequest (Some r)) a1) as [H1 ->].
{ subst a1. destruct (wakes r && dormant a) eqn:Ed; [|done]. split.
- eapply ordered_quiet; [|exact Ho]. by apply quiet_tell.
- cbn. destruct r; try done. unfold takes. apply andb_prop in Ed as [_ Ed].
unfold lost_too_long, wake, set_link, dormant in *. cbn. by destruct (link (conn a)). }
clearbody a1. clear Ho a.
assert (forall reply, ordered (typed ++ []) (let '(s, told, result) := add_capture w (link (conn a1)) reply (screen a1) in (tell (with_screen a1 s) told, result)).1) as Hc.
{ intros reply. rewrite app_nil_r. pose proof (add_capture_quiet w (link (conn a1)) reply (screen a1)) as Hq.
destruct (add_capture _ _ _ _) as [[s told] result]. eapply ordered_quiet; [|exact H1]. by apply quiet_tell. }
destruct r as [i|reply|connection reply|id|q|rq reply|pipe key name reply|picture reply]; try apply Hc; cbn [taken];
rewrite ?app_nil_r.
- cbn. eapply ordered_quiet; [|exact H1]. unfold resume. destruct (_ || _); [by apply quiet_tell|by apply quiet_same].
- cbn. destruct H1 as [Hs Hq]. by constructor.
- unfold takes. destruct (lost_too_long _ _); cbn [negb andb].
+ rewrite app_nil_r. eapply ordered_quiet; [|exact H1]. apply quiet_tell; [done..|apply reply_quiet].
+ pose proof (queue_in_order w (subscribers (screen a1)) q (controls a1) typed (out a1) H1) as Hq.
destruct (queue _ _ _ _) as [[c told] result]. exact Hq.
- eapply ordered_quiet; [|exact H1]. destruct (lost_too_long _ _); [by apply quiet_tell|]. destruct (negb _); cbn [fst]; [|apply forward_quiet].
unfold hold. destruct (_ <? _)%nat; [by apply quiet_same|by apply quiet_tell].
- eapply ordered_quiet; [|exact H1]. destruct (lost_too_long _ _); [by apply quiet_tell|]. destruct (negb _); cbn [fst]; [|apply forward_quiet].
unfold hold. destruct (_ <? _)%nat; [by apply quiet_same|by apply quiet_tell].
- eapply ordered_quiet; [|exact H1]. destruct (wait_picture _ _) as [p answer]. by apply quiet_tell.
Qed.

(** Controls that are given up. *)
Lemma given_up typed c l : in_order typed c l -> in_order typed (with_queued c []) l.
Proof.
intros [Hs (past & kept & E & Hsub & Ek)]. constructor; [done|]. exists typed, kept. cbn. rewrite app_nil_r.
split; [done|]. split; [|done]. rewrite E. by apply sublist_inserts_r.
Qed.

Lemma maintain_ordered w a typed : ordered typed a -> ordered typed (maintain w a).1.
Proof.
intros Ho. unfold maintain. cbv zeta.
assert (ordered typed (send_metadata w a)) as H1.
{ eapply ordered_quiet; [|exact Ho]. unfold send_metadata. destruct (metadata a); [|done]. destruct (w_full w); [done|by apply quiet_tell]. }
set (a2 := with_conn (with_screen (send_metadata w a) _) _).
assert (ordered typed a2) as H2 by (eapply ordered_quiet; [by apply quiet_same|exact H1]).
assert (ordered typed (refuse_lost w a2)) as H3.
{ unfold refuse_lost. destruct (lost_too_long _ _); [|done]. unfold ordered. cbn.
match goal with |- in_order _ _ (_ ++ ?l) => assert (inputs_sent l = []) as El end.
{ by rewrite inputs_sent_app, rejects_quiet, refused_quiet. }
apply (in_order_quiet _ (with_queued (controls a2) [])); [done..|exact El|apply given_up, H2]. }
assert (ordered typed (expire w (refuse_lost w a2))) as H4.
{ eapply ordered_quiet; [|exact H3]. apply quiet_tell; [done..|]. generalize (filter (fun c => (c_deadline c <=? w_now w) = true) (filter (fun c => w_closed w (capture_reply (c_reply c)) = false) (pending (screen (refuse_lost w a2))))).
intros l. induction l as [|c l IH]; [done|]. cbn. by destruct (c_reply c). }
match goal with |- context [request_capture w ?l ?s] =>
assert (inputs_sent (request_capture w l s).1.2 = []) as Hr; [|destruct (request_capture w l s) as [[s' told] r]] end.
{ unfold request_capture. destruct (negb _); [done|]. destruct (_ && _); [|done]. by destruct (w_asked w). }
eapply ordered_quiet; [|exact H4]. by apply quiet_tell.
Qed.

Lemma interrupt_ordered w reason a typed : ordered typed a -> ordered typed (interrupt w reason a).1.
Proof.
intros Ho. unfold interrupt. destruct (is_empty _); cbn [fst]; [eapply ordered_quiet; [by apply quiet_same|exact Ho]|].
cbv zeta. destruct Ho as [Hs Hq]. constructor; cbn; [done|]. rewrite inputs_sent_app. cbn. rewrite !inputs_sent_app.
assert (inputs_sent (map (fun waiting => reject_capture (c_reply waiting) (ROther reason)) (pending (screen a))) = []) as ->.
{ induction (pending (screen a)) as [|c l IH]; [done|]. cbn. by destruct (c_reply c). }
assert (forall (l : list N), inputs_sent (map (fun reply => Replied reply (Err (ROther reason))) l) = []) as Hr by (intros l; by apply replies_quiet).
destruct (in_flight (controls a)); rewrite ?Hr; destruct (sending (pics a)); cbn; by rewrite app_nil_r.
Qed.

Lemma connection_ordered restore_error w u a typed : ordered typed a -> ordered typed (connection_update restore_error w u a).1.
Proof.
intros Ho. unfold connection_update. cbv zeta.
match goal with |- context [let '(_, _) := ?x in _] => assert (ordered typed x.1) as H1; [|destruct x as [a1 finished]] end.
{ destruct (w_done w) as [result|]; [|done]. destruct (_ && _); [|done].
pose proof (finish_control_in_order result (controls a) typed (out a) Ho) as H1. by destruct (finish_control _ _) as [[c told] f]. }
cbn in H1. assert (ordered typed (match u with
| Some Viewer.UEnded => (a1, Ended) | Some (Viewer.UClosed reason) => (a1, Failed reason)
| Some u => match Remote.update restore_error w u a1 with Ok a => (a, Next) | Err e => (a1, Failed (error_text e)) | Panic => (a1, Next) end
| None => (a1, Failed "The remote host disconnected.") end).1) as H2.
{ destruct u as [u|]; [|done].
assert (ordered typed (match Remote.update restore_error w u a1 with Ok a => (a, Next) | Err e => (a1, Failed (error_text e)) | Panic => (a1, Next) end).1) as H2.
{ destruct (Remote.update restore_error w u a1) as [a'|e|] eqn:Eu; [|done..]. eapply ordered_quiet; [|exact H1]. by eapply update_no_input. }
by destruct u. }
by destruct finished.
Qed.

Lemma arm_ordered restore_error w e a typed : ordered typed a -> ordered (typed ++ taken w e a) (Remote.arm restore_error w e a).1.
Proof.
intros Ho. destruct e as [|result|result|u|[r|]|]; cbn [Remote.arm taken]; rewrite ?app_nil_r; try done.
- pose proof (finish_control_in_order result (controls a) typed (out a) Ho) as H1. by destruct (finish_control _ _) as [[c told] f].
- eapply ordered_quiet; [|exact Ho]. cbn. unfold picture_sent. destruct (sending (pics a)); [|done]. destruct result; by apply quiet_tell.
- by apply connection_ordered.
- pose proof (request_ordered w r a typed Ho) as H1. by destruct (request w r a) as [a' result].
- pose proof (maintain_ordered w a typed Ho) as H1. by destruct (maintain w a) as [a' result].
Qed.

Lemma after_step_ordered w a x typed : ordered typed a -> ordered typed (after_step w a x).1.
Proof.
intros Ho. unfold after_step. pose proof (fun f => interrupt_ordered w f a typed Ho) as Hi.
destruct x as [|failure|reason|]; [by cbn; destruct (_ && _)| |done..].
specialize (Hi failure). destruct (interrupt w failure a) as [a' [r|]]; cbn in *; [done|]. by destruct (_ && _).
Qed.

(** A run of the actor until it ends: what it took to send, and the actor. *)
Inductive drives (restore_error : Checkpoint -> option string) : list bytes -> Remote.t -> Prop :=
| drives_new incarnation now : drives restore_error [] (new incarnation now)
| drives_turn typed w e a a1 paused :
drives restore_error typed a -> prepare w a = (a1, paused) -> awaits e a1 = true ->
drives restore_error (typed ++ if paused then [] else taken w e a1) (Remote.turn restore_error w e a).1.

Lemma drives_ordered restore_error typed a : drives restore_error typed a -> ordered typed a.
Proof.
induction 1 as [incarnation now|typed w e a a1 paused _ IH E _].
- constructor; cbn; [by intros id r ?%lookup_empty_Some|]. exists [], []. split; [done|]. split; [constructor|done].
- unfold Remote.turn. pose proof (prepare_ordered w a typed IH) as H1. rewrite E in *. cbn in H1. destruct paused.
+ rewrite app_nil_r. by apply after_step_ordered.
+ pose proof (arm_ordered restore_error w e a1 typed H1) as H2. destruct (Remote.arm restore_error w e a1) as [a2 x].
by apply after_step_ordered.
Qed.

(** C30. What is typed into a terminal of another computer goes out once and in the order in
which the actor took it, however inputs are merged, refused, given up by their view, or held
over a connection that is lost: the bytes that were sent are those of some of the inputs that
it took, in their order, and what waits is the last of them. *)
Theorem typed_goes_in_order restore_error typed a :
drives restore_error typed a ->
exists past kept, typed = past ++ omap typed_of (queued (controls a)) /\ sublist kept past /\
concat (inputs_sent (out a)) = concat kept.
Proof. intros Hd. destruct (drives_ordered _ _ _ Hd) as [_ (past & kept & E & Hs & Ek)]. by exists past, kept. Qed.
End inputs.

(** ** A view of another computer *)

Module Example.

Abbreviation small := SubscribersClaims.Example.small.
Abbreviation picture := SubscribersClaims.Example.picture.
Definition host_id : Uuid := repeat Byte.x01 16.

(** What the actor's libraries find, and a terminal that gives an output and then a size. *)
#[export] Instance sha256 : Sha256 := {| sha256_of := fun l => l |}.
Definition restores (k : Checkpoint) : option string := None.

Definition world : World :=
MkWorld 0 (fun _ => false) (fun _ => false) (fun _ => host_id) false None None None (fun _ => []) (fun _ => false) false 0.

Definition next (e : Event) (P' : nat) (s : Sys) : Sys :=
let '(a, paused) := prepare world (actor s) in
MkSys (if paused then place s else place_after restores world e (place s) P' a)
(run_turn restores world e (actor s)).1 (got s) (run_turn restores world e (actor s)).2.


(** A view asks for the terminal, and its snapshot and output come. *)
Definition s_0 : Sys := start host_id 0.
Definition s_1 : Sys := next (EvRequest (Some (Subscribe 1))) 0 s_0.
Definition s_2 : Sys := next (EvUpdate (Some (Viewer.UCheckpoint (picture []) 0))) 0 s_1.
Definition s_3 : Sys := next (EvUpdate (Some (Viewer.URaw 0 small))) 1 s_2.





(** What is typed goes out with the next turn. *)
Definition typing : Event := EvRequest (Some (AskControl (MkQueued None (CtlInput small) (Some 1) (Some 2)))).
Definition a_1 : Remote.t := (turn restores world (EvUpdate (Some (Viewer.UCheckpoint (picture []) 0))) (new host_id 0)).1.
Definition a_2 : Remote.t := (turn restores world typing a_1).1.
Definition a_3 : Remote.t := (turn restores world EvTick a_2).1.

Lemma drives_3 : drives restores [small] a_3.
Proof.
pose proof (drives_new restores host_id 0) as H0.
pose proof (drives_turn restores _ world (EvUpdate (Some (Viewer.UCheckpoint (picture []) 0))) _ _ _ H0 (surjective_pairing _) eq_refl) as H1.
pose proof (drives_turn restores _ world typing _ _ _ H1 (surjective_pairing _) eq_refl) as H2.
exact (drives_turn restores _ world EvTick _ _ _ H2 (surjective_pairing _) eq_refl).
Qed.

Lemma typed_goes_in_order_witness :
inputs_sent (out a_3) = [small] /\
exists past kept, [small] = past ++ omap typed_of (queued (controls a_3)) /\ sublist kept past /\
concat (inputs_sent (out a_3)) = concat kept.
Proof.
split; [vm_compute; reflexivity|]. exact (typed_goes_in_order restores [small] a_3 drives_3).
Defined.

(** The connection has no room for a request of a snapshot, and the actor takes that for the end
of the connection, though the view that asked could wait. *)
Definition busy : World :=
MkWorld 0 (fun _ => false) (fun _ => false) (fun _ => repeat Byte.x02 16) false (Some NBusy) None None (fun _ => []) (fun _ => false) false 0.

Lemma busy_ends_connection : link (conn (turn restores busy (EvRequest (Some (Subscribe 2))) (actor s_3)).1) = Lost.
Proof. vm_compute. reflexivity. Qed.
End Example.
